(* ===== verification/_CoqProject ===== *)
-Q . S2P
Prelude.v
Codec.v
Text.v
FileSystem.v
FsLogic.v
FsUtil.v
FsCopy.v
FsTotal.v
Store.v
StoreLogic.v
StoreSafety.v
StorePublish.v
StoreCopy.v
StoreImport.v
StoreGc.v
StoreExample.v
StoreTheorems.v
Protocol.v
Broker.v
Owner.v
OwnerLogic.v
OwnerDispatch.v
Session.v
Ingress.v
IngressTheorems.v
Locks.v
LocksLogic.v
LocksGuard.v
LocksTheorems.v
Stop.v
Waits.v
Paths.v
Legacy.v
LegacyLogic.v
LegacyTheorems.v
Checkpoints.v
CheckpointTheorems.v
HostShare.v
HostShareTheorems.v
Unshare.v
Snapshots.v
SnapshotTheorems.v
Capture.v
SessionRun.v
SessionExample.v
OwnerTheorems.v
Instances.v
InstanceLogic.v
DeleteTheorems.v
ForkTheorems.v
Init.v
InitTheorems.v
Cli.v
CliTheorems.v
CreateTheorems.v
Cas.v
CasTheorems.v
Server.v
BundleTheorems.v
PushTheorems.v
ServerTheorems.v
GuestUser.v
GuestUserTheorems.v
GuestNet.v
GuestExec.v
GuestChannels.v
GuestTheorems.v
GuestExecTheorems.v
GuestNetTheorems.v
Client.v
ClientTheorems.v
Oci.v
OciTheorems.v
Initramfs.v
