(* ===== verification/Prelude.v ===== *)
(** * lnx: a verification development

    lnx runs Linux virtual machines that keep their state: every command on an
    instance goes to the one process that owns its VM, the owner saves the VM's
    memory and disk when it stops, and the next command continues from there.
    This library models the parts of lnx on which that promise rests, as
    executable Rocq definitions translated from [src/], and proves what makes
    them correct.  Definitions keep the names of the code; each says which
    function it translates where the name differs.

    ** The parts, and where they are modelled

    The file system ([FileSystem]) is a map from paths to nodes and the
    operations of the standard library on it.  A program is a function of an
    environment and a world.  The environment decides, at every system call,
    whether it fails ([FErr]), whether the process is killed there ([FCrash]),
    what the clock says and in which order a directory is listed; so a theorem
    for all environments is one for all faults and all crash points.  [FsLogic]
    has the program logic: [triple E P c Q X] says what holds when [c] returns
    and what holds when it fails or is killed; [modifies], [respects] and
    [reads] say what a program touches, preserves and learns.  [FsTotal] has
    the logic of success when nothing goes wrong.  [FsUtil] and [FsCopy] model
    [src/src/fsutil.rs], [src/src/sparse_copy.rs] and the durable writes of
    [src/src/store.rs].

    The store of an instance, [src/src/store.rs], is [Store]: generations,
    runs, checkpoints and the one record [state.json].  [StoreLogic] says what
    each operation leaves alone, [StoreSafety] that each operation refines a
    transition of the record ([commits]), [StorePublish], [StoreCopy] and
    [StoreImport] what is in a published generation, [StoreGc] what garbage
    collection keeps and removes.  [StoreExample] is a concrete store with
    JSON codecs; [StoreTheorems] has the claims.

    The migration of instances from before the store, [src/src/store/legacy.rs],
    is [Legacy], with [LegacyLogic] and [LegacyTheorems]; the commands on
    checkpoints, [src/src/checkpoints.rs], are [Checkpoints] and
    [CheckpointTheorems]; [src/src/paths.rs] is [Paths].  Instances as a whole
    ([src/src/descriptor.rs], deleting and forking in [src/src/cli.rs] and
    [src/src/checkpoints.rs]) are [Instances], with [InstanceLogic],
    [DeleteTheorems] and [ForkTheorems]; how they are made
    ([src/src/init.rs], [src/src/release_assets.rs]) is [Init], with
    [InitTheorems] and [CreateTheorems]; images from a registry
    ([src/src/oci.rs]) are [Oci] and [OciTheorems].

    The owner of a running VM is a transition system of threads.  [Protocol]
    models the messages to the agent in the guest and their framing
    ([src/lnx-protocol/src/lib.rs], [src/src/runner/protocol_io.rs]), [Broker] the owner's shared
    state ([src/src/runner/broker.rs]), [Session] the run's side of the store
    ([src/src/runner/session.rs]), [Capture] the captures of the VM, with the
    check of the copied disk and the stamps that travel with it
    ([src/src/runner/capture.rs], [src/src/runner.rs]), [Owner] the threads and
    the accept loop ([src/src/runner.rs]).  [OwnerLogic] and [OwnerDispatch]
    have the invariants, [SessionRun] connects the session to the store and
    says what its captures and its end save, [SessionExample] is a concrete
    session, and [OwnerTheorems] has the claims.  What a run
    can be resumed from ([src/src/runner/launch_meta.rs], [snapshots.rs],
    [deterministic.rs] and the trace of [logs.rs] there) is [Snapshots], with
    [SnapshotTheorems].  The archive the guest boots from
    ([src/src/initramfs.rs]) is [Initramfs].

    The locks that make one process the owner, [src/src/runner/locks.rs], are
    [Locks]: a transition system of the threads of all processes, with forks,
    deaths and commands that move an instance directory away.  [LocksLogic] and
    [LocksGuard] have its invariants, [LocksTheorems] the claims.  [Stop] is
    [src/src/runner/stop.rs], a program run against any behaviour of the rest
    of the system; [Waits] runs the other loops that wait for owners
    ([src/src/runner.rs], [src/src/cli.rs]) in the same way.  [Ingress] and
    [IngressTheorems] are the host-name routing, the rewriting of requests and
    the DNS server of [src/src/ingress.rs].

    The client of an owner, the command side of [src/src/runner.rs], is
    [Client]: the identity, environment and request of a command, its input
    and output, the requests made of an owner, and when a command is offered
    again.  [ClientTheorems] puts it together with the owner and the agent.
    [Cli] and [CliTheorems] are what [src/src/cli.rs] and [src/src/status.rs]
    compute: options, settings, scripts and their quoting, states.  [HostShare],
    [HostShareTheorems] and [Unshare] are the state of host directories shared
    with a guest, [src/src/host_share.rs].

    The agent in the guest, [src/guest-agent/src], is [GuestUser] (accounts),
    [GuestNet] (addresses, netlink requests, listening ports), [GuestExec]
    (environments, control frames, restores, mounts) and [GuestChannels] (the
    dispatch of messages and the loops of commands and connections, with the
    interleavings of their threads), each with its theorems in
    [GuestUserTheorems], [GuestNetTheorems], [GuestExecTheorems] and
    [GuestTheorems].

    The server that instances are pushed to, [src/src/server.rs], is [Cas] (the
    store of blocks, manifests and bundles) and [Server] (uploads, imports,
    pushes), with [CasTheorems], [BundleTheorems] (what unpacking a bundle
    leaves), [PushTheorems] and [ServerTheorems].

    [Prelude], [Text] and [Codec] hold what these share: strings as Rust has
    them, numbers, and codecs for the concrete examples.

    ** What the theorems show

    - The store: every operation, cut short anywhere, leaves the old record or
      the new one, whole, with a complete latest generation; a run that served
      a command is never dropped; what is published, salvaged, exported or
      imported is a copy; garbage collection keeps what the record, a
      checkpoint or a pin names, and removes the rest.
    - Checkpoints and migration: a restore can be undone; a migration is
      atomic and loses nothing.
    - The owner: the idle counters are exact, nothing reaches the agent after
      the barrier, every accepted checkpoint is answered, a run is dirty on
      disk before the guest sees a command, and the end of an owner saves the
      disk of the run in a new generation or keeps the run.
    - The protocol: streams of messages are read back as written; frames are
      bounded; an old agent sees only messages it understands.
    - The locks: one owner at a time, leases that tell the truth, the promise
      of the guard; stopping an owner terminates and signals only owners.
    - The ingress: routing, header rewriting and DNS replies, on every input.
    - Instances: creating, forking, deleting and migrating one is all or
      nothing at every crash point, and the fork of a running one is a new
      capture of its run; what is downloaded or pulled is installed
      only with the digest that is pinned, or that the manifest gives; a saved
      memory is resumed exactly when nothing stands against it.
    - Host shares: removing a path removes the state kept for it and touches
      nothing else.
    - Commands: what the host sends reaches the command's thread exactly and
      in order, and in every interleaving the command itself as long as the
      input has not been ended; the environment is what the user asked
      for; output and status travel from the agent over the owner to the
      client whole; the account files of the guest are rewritten whole.
    - Pushes: blocks hold what their names are the hashes of, whatever is sent;
      an upload writes only where it may; what arrives is what was pushed;
      an import installs everything or nothing.
    Some theorems are executions that show a flaw; they are findings.

    ** Parameters, bounds and fuel

    Code outside [src/] is a parameter with named laws: JSON ([Json],
    [JsonLaws]) and the wire format ([Protocol]), libkrun's captures
    ([VmCapture], [VmCaptureLaws]: it writes only into hidden directories
    beside the one it is given, and leaves there what the owner's copy made of
    every file but its own two), SHA-256, zstd, tar, [tempfile]
    ([TempFiles]), [lseek] ([Lseek]), the programs that are run ([Tools] of
    [Init], [OciTools] of [Oci], the account programs of [GuestUser]), the
    [time] crate's formatting, the process table.  Each is instantiated by
    concrete functions in the witnesses.  What an owner's threads share with a
    capture besides the session, [CaptureContext], is any trace log at any
    time, any clock state and any place for the stamps outside the store's own
    subdirectories, the default one included.

    Directory recursion takes the depth of the tree as fuel ([remove_tree],
    [clone_tree], [sync_walk]), which is enough by construction; loops over
    strings and streams take their length; the scans of [Init] take the size of
    the file, and [scan_range_fuel], [scan_extents_fuel] and [scan_file_fuel]
    show that more makes no difference; [follow_init] has the bound of eight of
    the code; [write_decimal] has the twenty digits of its buffer, enough for
    64 bits by [write_decimal_exact].  Loops that end only when another process
    acts are steps of a transition system, run over the list of what each turn
    sees, or take a fuel that is an argument of the statement.  Machine
    integers are [N] or [Z] with their bounds written out where the code
    depends on them.  A path is its list of components; symlinks are nodes of
    their own and are not resolved; owners, modes and times of files are not in
    the tree.

    ** Not modelled

    Starting a VM ([src/src/krun.rs], [src/src/gvproxy_embedded.rs] and the
    parts of [src/src/runner.rs] that configure libkrun and its devices): calls
    into libkrun and gvproxy, which hold all the state there is.  The router,
    pages and listings of the HTTP server, and the certificates and TLS of the
    ingress: the work is done by the libraries they call.  Parsing of arguments
    by [clap], durations in floating point, terminal modes, and what is only
    printed or logged.  In the guest, becoming init (the mounts and raw system
    calls of [init_mode]) and the calls on descriptors behind the loops of
    commands.  What the build script of an import does inside its VM is the
    text of the script only.  The manifest says for each component what is left
    out. *)

From Stdlib Require Export Ascii Strings.Byte.
From stdpp Require Export base gmap strings list sets sorting pretty.

#[global] Set Default Goal Selector "!".

(** No key type of the development is a finite type: without this, instance
    search may pick an undetermined variable as the proof that paths are. *)
#[export] Remove Hints finite.finite_countable : typeclass_instances.

(** ** Bytes and strings

    A Rust [String] is modelled as its UTF-8 bytes, one [ascii] per byte; file
    contents and wire data are lists of [byte]. *)

#[global] Instance byte_eq_dec : EqDecision byte := Byte.byte_eq_dec.

#[global] Instance byte_countable : Countable byte :=
  inj_countable Byte.to_N Byte.of_N Byte.of_to_N.

Abbreviation bytes := (list byte).

Abbreviation newline := x0a.

(** A path is its list of components below the root; [path.join(name)] is
    [p /: name]. *)
Abbreviation path := (list string).

Notation "p /: n" := (p ++ [n]) (at level 59, left associativity) : list_scope.

(** ** Characters *)

Definition is_ascii_digit (c : ascii) : bool :=
  let n := Ascii.nat_of_ascii c in (48 <=? n) && (n <=? 57).

Definition is_ascii_alphabetic (c : ascii) : bool :=
  let n := Ascii.nat_of_ascii c in
  ((65 <=? n) && (n <=? 90)) || ((97 <=? n) && (n <=? 122)).

Definition is_ascii_alphanumeric (c : ascii) : bool :=
  is_ascii_alphabetic c || is_ascii_digit c.

Definition string_all (f : ascii -> bool) (s : string) : bool :=
  forallb f (String.list_ascii_of_string s).

Definition string_any (f : ascii -> bool) (s : string) : bool :=
  existsb f (String.list_ascii_of_string s).

(** [str::starts_with] *)
Definition starts_with (pre s : string) : bool := String.prefix pre s.

(** [str::strip_prefix] *)
Fixpoint strip_prefix (pre s : string) : option string :=
  match pre, s with
  | EmptyString, _ => Some s
  | String a pre', String b s' => if Ascii.eqb a b then strip_prefix pre' s' else None
  | String _ _, EmptyString => None
  end.

(** [str::split_once] *)
Fixpoint split_once (pat s : string) : option (string * string) :=
  match strip_prefix pat s with
  | Some rest => Some (EmptyString, rest)
  | None =>
      match s with
      | EmptyString => None
      | String c s' =>
          match split_once pat s' with
          | Some (before, after) => Some (String c before, after)
          | None => None
          end
      end
  end.

(** [str::rsplit_once] on a character *)
Fixpoint rsplit_once (c : ascii) (s : string) : option (string * string) :=
  match s with
  | EmptyString => None
  | String x s' =>
      match rsplit_once c s' with
      | Some (before, after) => Some (String x before, after)
      | None => if Ascii.eqb x c then Some (EmptyString, s') else None
      end
  end.

(** What comes before the first character of a set. *)
Fixpoint take_until (f : ascii -> bool) (s : string) : string :=
  match s with
  | EmptyString => EmptyString
  | String c s' => if f c then EmptyString else String c (take_until f s')
  end.

(** [str::contains] on a character *)
Definition contains_char (c : ascii) (s : string) : bool := string_any (Ascii.eqb c) s.

(** [str::parse] for an unsigned integer below [bound]: an optional plus sign
    and at least one digit. *)
Definition digit_value (c : ascii) : N := (N_of_ascii c - 48)%N.

Definition digits_value (s : string) : N :=
  foldl (fun n c => n * 10 + digit_value c)%N 0%N (String.list_ascii_of_string s).

Definition parse_unsigned (bound : N) (s : string) : option N :=
  let d := match s with String "+" s' => s' | _ => s end in
  if string_all is_ascii_digit d && negb (bool_decide (d = EmptyString)) && (digits_value d <? bound)%N
  then Some (digits_value d) else None.

(** [{:0wx}] formatting of an unsigned integer below [16 ^ w] *)
Definition hex_digit (n : N) : ascii := ascii_of_N (if n <? 10 then 48 + n else 87 + n)%N.

Fixpoint hex_digits (w : nat) (n : N) : string :=
  match w with
  | O => EmptyString
  | S w' => hex_digits w' (n / 16) +:+ String (hex_digit (n `mod` 16)) EmptyString
  end.

(** [{:0w}] formatting of an unsigned integer: decimal, zero padded on the
    left to at least [w] characters. *)
Fixpoint zeros (n : nat) : string :=
  match n with O => EmptyString | S k => String "0"%char (zeros k) end.

Definition format_padded (w : nat) (n : N) : string :=
  let d := pretty n in zeros (w - String.length d) +:+ d.

Lemma string_all_app f s1 s2 :
  string_all f (s1 +:+ s2) = string_all f s1 && string_all f s2.
Proof.
  unfold string_all. induction s1 as [|c s1 IH]; simpl; [done|].
  by rewrite IH, andb_assoc.
Qed.

Lemma string_all_zeros f n : f "0"%char = true -> string_all f (zeros n) = true.
Proof. intros H. unfold string_all. induction n; simpl; [done|]. by rewrite H. Qed.

Lemma strip_prefix_app pre s : strip_prefix pre (pre +:+ s) = Some s.
Proof. induction pre as [|c pre IH]; simpl; [done|]. by rewrite Ascii.eqb_refl. Qed.

Lemma strip_prefix_Some pre s r : strip_prefix pre s = Some r -> s = pre +:+ r.
Proof.
  revert s. induction pre as [|c pre IH]; intros [|d s]; simpl; intros H; simplify_eq; [done|done|].
  destruct (Ascii.eqb_spec c d) as [->|]; [|done]. by rewrite (IH _ H).
Qed.

(** Decimal numerals contain digits only. *)
Lemma pretty_N_go_digits f x s :
  (forall n, (n < 10)%N -> f (pretty_N_char n) = true) ->
  string_all f s = true -> string_all f (pretty_N_go x s) = true.
Proof.
  intros Hf. revert s. induction (N.lt_wf_0 x) as [x _ IH]; intros s Hs.
  destruct (decide (0 < x)%N) as [Hx|Hx].
  - rewrite pretty_N_go_step by done. apply IH.
    + apply N.div_lt; lia.
    + unfold string_all. simpl. rewrite Hf by (apply N.mod_lt; lia). done.
  - assert (x = 0%N) as -> by lia. by rewrite pretty_N_go_0.
Qed.

Lemma pretty_N_digits f (n : N) :
  (forall d, (d < 10)%N -> f (pretty_N_char d) = true) -> string_all f (pretty n) = true.
Proof.
  intros Hf. unfold pretty, pretty_N. case_decide.
  - pose proof (Hf 0%N ltac:(lia)) as H0. unfold string_all; simpl in *. by rewrite H0.
  - by apply pretty_N_go_digits.
Qed.

Lemma digit_char d : (d < 10)%N -> is_ascii_digit (pretty_N_char d) = true.
Proof.
  intros H.
  assert (Hcases : Forall (fun k => is_ascii_digit (pretty_N_char (N.of_nat k)) = true) (seq 0 10))
    by (repeat constructor).
  rewrite Forall_forall in Hcases. rewrite <- (N2Nat.id d). apply Hcases.
  apply elem_of_seq. lia.
Qed.

(** ** Lists *)

Lemma NoDup_omap_inj {A B : Type} (f : A -> option B) l :
  (forall a a' b, f a = Some b -> f a' = Some b -> a = a') -> NoDup l -> NoDup (omap f l).
Proof.
  intros Hinj. induction 1 as [|a l Ha _ IH]; simpl; [constructor|].
  destruct (f a) as [b|] eqn:Eb; [|done]. constructor; [|done].
  rewrite list_elem_of_omap. intros (a' & Ha' & Eb'). by rewrite (Hinj a a' b) in Ha.
Qed.

(** ** Maps *)

(** The sum of a weight over the values of a map. *)
Definition map_sum {A} (f : A -> N) (m : gmap N A) : N := map_fold (fun _ x n => f x + n)%N 0%N m.

Section map_sum.
Context {A : Type} (f : A -> N).

Lemma map_sum_empty : map_sum f ∅ = 0%N.
Proof. apply map_fold_empty. Qed.

Lemma map_sum_insert (m : gmap N A) k x : m !! k = None -> map_sum f (<[k:=x]> m) = (f x + map_sum f m)%N.
Proof. intros Hk. unfold map_sum. rewrite map_fold_insert_L; [done| |done]. intros. lia. Qed.

Lemma map_sum_delete (m : gmap N A) k x : m !! k = Some x -> map_sum f m = (f x + map_sum f (delete k m))%N.
Proof. intros Hk. unfold map_sum. by rewrite (map_fold_delete_L _ _ k x) by (done || (intros; lia)). Qed.

Lemma map_sum_replace (m : gmap N A) k x : map_sum f (<[k:=x]> m) = (f x + map_sum f (delete k m))%N.
Proof. by rewrite <- insert_delete_eq, map_sum_insert by apply lookup_delete_eq. Qed.

Lemma map_sum_alter (m : gmap N A) k (g : A -> A) :
  (forall x, f (g x) = f x) -> map_sum f (alter g k m) = map_sum f m.
Proof.
  intros Hg. rewrite alter_alt. destruct (m !! k) as [x|] eqn:E; [|done].
  by rewrite map_sum_replace, Hg, (map_sum_delete m k x E).
Qed.

Lemma map_sum_zero (m : gmap N A) :
  map_sum f m = 0%N <-> forall k x, m !! k = Some x -> f x = 0%N.
Proof.
  split.
  - intros Hz k x Hk. rewrite (map_sum_delete m k x Hk) in Hz. lia.
  - induction m as [|k x m Hk IH] using map_ind; intros Hm; [apply map_sum_empty|].
    rewrite map_sum_insert by done. rewrite (Hm k x) by apply lookup_insert_eq. apply IH.
    intros k' x' Hk'. apply (Hm k'). rewrite lookup_insert_ne; congruence.
Qed.

Lemma map_sum_pos (m : gmap N A) :
  (0 < map_sum f m)%N <-> exists k x, m !! k = Some x /\ f x <> 0%N.
Proof.
  destruct (decide (map_Exists (fun _ x => f x <> 0%N) m)) as [He|He].
  - split; [by intros _|]. intros _. destruct He as (k & x & Hk & Hx).
    rewrite (map_sum_delete m k x Hk). lia.
  - assert (map_sum f m = 0%N) as ->.
    { apply map_sum_zero. intros k x Hk. destruct (decide (f x = 0%N)); [done|]. destruct He. by exists k, x. }
    split; [lia|]. intros (k & x & Hk & Hx). destruct He. by exists k, x.
Qed.

Lemma map_sum_filter (m : gmap N A) (P : A -> bool) :
  (forall x, f x = if P x then 1%N else 0%N) ->
  N.of_nat (length (filter (fun kx => P kx.2 = true) (map_to_list m))) = map_sum f m.
Proof.
  intros Hf. induction m as [|k x m Hk IH] using map_ind.
  - by rewrite map_to_list_empty, map_sum_empty.
  - rewrite map_to_list_insert, filter_cons, map_sum_insert by done. simpl. rewrite Hf.
    destruct (P x); simpl; lia.
Qed.

End map_sum.

Lemma string_app_length s1 s2 : String.length (s1 +:+ s2) = String.length s1 + String.length s2.
Proof. induction s1 as [|c s1 IH]; simpl; [done|]. by rewrite IH. Qed.

Lemma substring_app a b n : String.substring (String.length a) n (a +:+ b) = String.substring 0 n b.
Proof. by induction a. Qed.
