(* ===== verification/Codec.v ===== *)
(** * A concrete codec

    The encoders of the types that cross a file or a socket are third-party
    code, which the development takes as parameters with laws.  This file
    builds one codec that satisfies the laws, so that every theorem that
    assumes them is applied to a concrete program.  It is self-delimiting:
    decoding an encoding followed by anything gives back the value and the
    rest. *)

From S2P Require Import Prelude.

Class Codec (A : Type) := {
  enc : A -> bytes;
  dec : bytes -> option (A * bytes);
  dec_enc : forall a rest, dec (enc a ++ rest) = Some (a, rest);
}.

(** A codec for [B] from one for [A] and a partial inverse. *)
Definition codec_of {A B : Type} `{Codec A} (f : B -> A) (g : A -> option B)
    (Hgf : forall b, g (f b) = Some b) : Codec B.
Proof.
  refine {| enc b := enc (f b);
            dec l := '(a, r) ← dec l; b ← g a; Some (b, r) |}.
  intros b rest. rewrite dec_enc. simpl. by rewrite Hgf.
Defined.

#[global] Instance unit_codec : Codec unit.
Proof. refine {| enc _ := []; dec l := Some (tt, l) |}. by intros []. Defined.

#[global] Instance bool_codec : Codec bool.
Proof.
  refine {| enc b := [if b : bool then x01 else x00];
            dec l := match l with x00 :: r => Some (false, r) | x01 :: r => Some (true, r) | _ => None end |}.
  by intros [] rest.
Defined.

#[global] Instance byte_codec : Codec byte.
Proof.
  refine {| enc b := [b]; dec l := match l with b :: r => Some (b, r) | [] => None end |}.
  done.
Defined.

#[global] Instance pair_codec {A B : Type} `{Codec A, Codec B} : Codec (A * B).
Proof.
  refine {| enc p := enc p.1 ++ enc p.2;
            dec l := '(a, r) ← dec l; '(b, r') ← dec r; Some ((a, b), r') |}.
  intros [a b] rest. simpl. rewrite <- app_assoc, dec_enc. simpl. by rewrite dec_enc.
Defined.

#[global] Instance sum_codec {A B : Type} `{Codec A, Codec B} : Codec (A + B).
Proof.
  refine {| enc s := match s with inl a => x00 :: enc a | inr b => x01 :: enc b end;
            dec l := match l with
                     | x00 :: r => '(a, r') ← dec r; Some (inl a, r')
                     | x01 :: r => '(b, r') ← dec r; Some (inr b, r')
                     | _ => None
                     end |}.
  intros [a|b] rest; simpl; by rewrite dec_enc.
Defined.

(** A list is a marker before each element and one at the end. *)
Fixpoint dec_list {A : Type} `{Codec A} (n : nat) (l : bytes) : option (list A * bytes) :=
  match l with
  | x00 :: r => Some ([], r)
  | x01 :: r =>
      match n with
      | O => None
      | S n' => '(a, r1) ← dec r; '(t, r2) ← dec_list n' r1; Some (a :: t, r2)
      end
  | _ => None
  end.

Fixpoint enc_list {A : Type} `{Codec A} (l : list A) : bytes :=
  match l with
  | [] => [x00]
  | a :: t => x01 :: enc a ++ enc_list t
  end.

Lemma dec_enc_list {A : Type} `{Codec A} (l : list A) n rest :
  length l <= n -> dec_list n (enc_list l ++ rest) = Some (l, rest).
Proof.
  revert n. induction l as [|a l IH]; intros n Hn; [by destruct n|].
  destruct n as [|n]; simpl in *; [lia|].
  rewrite <- app_assoc, dec_enc. simpl. by rewrite IH by lia.
Qed.

Lemma enc_list_length {A : Type} `{Codec A} (l : list A) : length l <= length (enc_list l).
Proof. induction l as [|a l IH]; simpl; [lia|]. rewrite length_app. lia. Qed.

#[global] Instance list_codec {A : Type} `{Codec A} : Codec (list A).
Proof.
  refine {| enc := enc_list; dec l := dec_list (length l) l |}.
  intros l rest. apply dec_enc_list. rewrite length_app. pose proof (enc_list_length l). lia.
Defined.

#[global] Instance option_codec {A : Type} `{Codec A} : Codec (option A) :=
  codec_of (fun o => match o with Some a => inr a | None => inl tt end)
           (fun s => Some (match s with inl tt => None | inr a => Some a end))
           ltac:(by intros []).

(** Numbers are their binary digits, lowest first. *)
Fixpoint pos_bits (p : positive) : list bool :=
  match p with xH => [] | xO p => false :: pos_bits p | xI p => true :: pos_bits p end.

Fixpoint bits_pos (l : list bool) : positive :=
  match l with [] => xH | false :: l => xO (bits_pos l) | true :: l => xI (bits_pos l) end.

Lemma bits_pos_bits p : bits_pos (pos_bits p) = p.
Proof. induction p; simpl; congruence. Qed.

#[global] Instance N_codec : Codec N :=
  codec_of (fun n => pos_bits (N.succ_pos n)) (fun l => Some (N.pred (N.pos (bits_pos l))))
           ltac:(intros n; cbv beta; rewrite bits_pos_bits; f_equal; destruct n; simpl; lia).

#[global] Instance Z_codec : Codec Z :=
  codec_of (fun z => ((z <? 0)%Z, Z.to_N (Z.abs z)))
           (fun p : bool * N => Some (if p.1 then Z.opp (Z.of_N p.2) else Z.of_N p.2))
           ltac:(intros z; simpl; destruct (Z.ltb_spec z 0); f_equal; lia).

#[global] Instance ascii_codec : Codec ascii :=
  codec_of byte_of_ascii (fun b => Some (ascii_of_byte b))
           ltac:(intros c; cbv beta; f_equal; apply ascii_of_byte_of_ascii).

#[global] Instance string_codec : Codec string :=
  codec_of String.list_ascii_of_string (fun l => Some (String.string_of_list_ascii l))
           ltac:(intros s; cbv beta; f_equal; apply String.string_of_list_ascii_of_string).

#[global] Instance gmap_codec {A : Type} `{Codec A} : Codec (gmap string A) :=
  codec_of (A := list (string * A)) (fun m : gmap string A => map_to_list m)
           (fun l => Some (list_to_map l : gmap string A))
           ltac:(intros m; cbv beta; f_equal; apply list_to_map_to_list).
