(* ===== verification/Text.v ===== *)
(** * Text

    The parts of Rust's [str] and [char] the code uses, on UTF-8 strings held
    as one [ascii] per byte: trimming, splitting, case, prefixes and suffixes,
    numbers in any radix, UTF-8 validation and lossy decoding.  With them the
    lemmas that relate splitting to joining and parsing to printing. *)

From S2P Require Import Prelude.

#[global] Arguments String.append !_ _ / : simpl nomatch.

(** ** Bytes and characters *)

Definition byte_val (c : ascii) : N := N_of_ascii c.

Definition in_range (lo hi : N) (c : ascii) : bool := (lo <=? byte_val c)%N && (byte_val c <=? hi)%N.

(** [u8::to_ascii_lowercase] *)
Definition lower (c : ascii) : ascii :=
  if in_range 65 90 c then ascii_of_N (byte_val c + 32) else c.

Fixpoint to_ascii_lowercase (s : string) : string :=
  match s with
  | EmptyString => EmptyString
  | String c s' => String (lower c) (to_ascii_lowercase s')
  end.

(** [str::eq_ignore_ascii_case] *)
Definition eq_ignore_ascii_case (s t : string) : bool :=
  bool_decide (to_ascii_lowercase s = to_ascii_lowercase t).

(** What follows a leading [char::is_whitespace] character, if there is one. *)
Definition skip_whitespace (s : string) : option string :=
  match s with
  | String c r =>
      if in_range 9 13 c || in_range 32 32 c then Some r
      else
        match r with
        | String d r2 =>
            if in_range 194 194 c && (in_range 133 133 d || in_range 160 160 d) then Some r2
            else
              match r2 with
              | String e r3 =>
                  if (in_range 225 225 c && in_range 154 154 d && in_range 128 128 e) ||
                     (in_range 226 226 c && in_range 128 128 d &&
                        (in_range 128 138 e || in_range 168 169 e || in_range 175 175 e)) ||
                     (in_range 226 226 c && in_range 129 129 d && in_range 159 159 e) ||
                     (in_range 227 227 c && in_range 128 128 d && in_range 128 128 e)
                  then Some r3 else None
              | EmptyString => None
              end
        | EmptyString => None
        end
  | EmptyString => None
  end.

(** [str::trim_start], with the length as fuel: every step consumes a
    character. *)
Fixpoint trim_start_fuel (n : nat) (s : string) : string :=
  match n with
  | O => s
  | S n' => match skip_whitespace s with Some r => trim_start_fuel n' r | None => s end
  end.

Definition trim_start (s : string) : string := trim_start_fuel (String.length s) s.

(** [str::trim_end]: a suffix of whitespace only is dropped. *)
Fixpoint trim_end (s : string) : string :=
  match s with
  | EmptyString => EmptyString
  | String c s' =>
      if bool_decide (trim_start s = EmptyString) then EmptyString else String c (trim_end s')
  end.

Definition trim (s : string) : string := trim_end (trim_start s).

(** ** Splitting *)

(** [str::split] on a character: one piece more than there are separators. *)
Fixpoint split_char (c : ascii) (s : string) : list string :=
  match s with
  | EmptyString => [EmptyString]
  | String x s' =>
      if Ascii.eqb x c then EmptyString :: split_char c s'
      else
        match split_char c s' with
        | p :: ps => String x p :: ps
        | [] => [String x EmptyString]
        end
  end.

(** [slice::join] on strings *)
Fixpoint join (sep : string) (l : list string) : string :=
  match l with
  | [] => EmptyString
  | [s] => s
  | s :: l' => s +:+ sep +:+ join sep l'
  end.

(** [str::lines]: split after newlines, without the newline or a carriage
    return before it; an empty last piece does not count. *)
Definition strip_cr (s : string) : string :=
  match rsplit_once "013"%char s with
  | Some (before, EmptyString) => before
  | _ => s
  end.

Definition lines (s : string) : list string :=
  let ps := split_char "010"%char s in
  match last ps with
  | Some EmptyString => strip_cr <$> removelast ps
  | Some l => (strip_cr <$> removelast ps) ++ [l]
  | None => []
  end.

(** [str::split_whitespace], with the length as fuel. *)
Fixpoint word_fuel (n : nat) (s : string) : string * string :=
  match n, s with
  | S n', String c r =>
      match skip_whitespace s with
      | Some _ => (EmptyString, s)
      | None => let '(w, rest) := word_fuel n' r in (String c w, rest)
      end
  | _, _ => (EmptyString, s)
  end.

Fixpoint words_fuel (n : nat) (s : string) : list string :=
  match n with
  | O => []
  | S n' =>
      let s1 := trim_start s in
      match s1 with
      | EmptyString => []
      | _ => let '(w, rest) := word_fuel (String.length s1) s1 in w :: words_fuel n' rest
      end
  end.

Definition split_whitespace (s : string) : list string := words_fuel (String.length s) s.

(** ** Prefixes and suffixes *)

Fixpoint string_rev (s acc : string) : string :=
  match s with
  | EmptyString => acc
  | String c s' => string_rev s' (String c acc)
  end.

(** [str::strip_suffix] and [str::ends_with] *)
Fixpoint strip_suffix (suf s : string) : option string :=
  if bool_decide (s = suf) then Some EmptyString
  else
    match s with
    | EmptyString => None
    | String c s' => String c <$> strip_suffix suf s'
    end.

Definition ends_with (suf s : string) : bool := bool_decide (is_Some (strip_suffix suf s)).

(** [str::trim_end_matches] on a non-empty string, with the length as fuel. *)
Fixpoint trim_end_matches_fuel (n : nat) (suf s : string) : string :=
  match n with
  | O => s
  | S n' =>
      match strip_suffix suf s with
      | Some r => trim_end_matches_fuel n' suf r
      | None => s
      end
  end.

Definition trim_end_matches (suf s : string) : string :=
  trim_end_matches_fuel (String.length s) suf s.

(** ** Numbers *)

(** [from_str_radix] for an unsigned type: an optional plus sign and at least
    one digit, the value below [bound]. *)
Definition radix_digit (radix : N) (c : ascii) : option N :=
  let v :=
    if in_range 48 57 c then Some (byte_val c - 48)%N
    else if in_range 97 122 c then Some (byte_val c - 87)%N
    else if in_range 65 90 c then Some (byte_val c - 55)%N
    else None in
  match v with Some d => if (d <? radix)%N then Some d else None | None => None end.

Fixpoint radix_value (radix acc : N) (s : string) : option N :=
  match s with
  | EmptyString => Some acc
  | String c s' =>
      match radix_digit radix c with
      | Some d => radix_value radix (acc * radix + d) s'
      | None => None
      end
  end.

Definition from_str_radix (bound radix : N) (s : string) : option N :=
  let d := match s with String "+" s' => s' | _ => s end in
  match d with
  | EmptyString => None
  | _ =>
      match radix_value radix 0 d with
      | Some v => if (v <? bound)%N then Some v else None
      | None => None
      end
  end.

(** [str::replace] of a character *)
Definition replace_char (c : ascii) (by_ : string) (s : string) : string :=
  String.concat EmptyString
    ((fun x => if Ascii.eqb x c then by_ else String x EmptyString) <$> String.list_ascii_of_string s).

(** ** UTF-8 *)

Definition is_cont (c : ascii) : bool := in_range 128 191 c.

Definition nth_byte (n : nat) (s : string) : ascii := default "000"%char (String.get n s).

(** The length of the first character, and whether it is one; an invalid
    sequence has the length of its longest prefix of a character, at least
    one, as in [Utf8Chunks]. *)
Definition utf8_head (s : string) : nat * bool :=
  let b := nth_byte 0 s in
  let n := nth_byte 1 s in
  let third := is_cont (nth_byte 2 s) in
  let fourth := is_cont (nth_byte 3 s) in
  if in_range 0 127 b then (1, true)
  else if in_range 194 223 b then (if is_cont n then (2, true) else (1, false))
  else if in_range 224 239 b then
    if (in_range 224 224 b && in_range 160 191 n) || (in_range 225 236 b && in_range 128 191 n) ||
       (in_range 237 237 b && in_range 128 159 n) || (in_range 238 239 b && in_range 128 191 n)
    then (if third then (3, true) else (2, false))
    else (1, false)
  else if in_range 240 244 b then
    if (in_range 240 240 b && in_range 144 191 n) || (in_range 241 243 b && in_range 128 191 n) ||
       (in_range 244 244 b && in_range 128 143 n)
    then (if third then (if fourth then (4, true) else (3, false)) else (2, false))
    else (1, false)
  else (1, false).

Fixpoint string_drop (n : nat) (s : string) : string :=
  match n, s with
  | S n', String _ s' => string_drop n' s'
  | _, _ => s
  end.

Fixpoint string_take (n : nat) (s : string) : string :=
  match n, s with
  | S n', String c s' => String c (string_take n' s')
  | _, _ => EmptyString
  end.

Definition REPLACEMENT : string := String "239" (String "191" (String "189" EmptyString)).

(** The characters of a string, each with whether it is valid; the length is
    fuel enough. *)
Fixpoint utf8_chunks (n : nat) (s : string) : list (string * bool) :=
  match n, s with
  | S n', String _ _ =>
      let '(k, ok) := utf8_head s in (string_take k s, ok) :: utf8_chunks n' (string_drop k s)
  | _, _ => []
  end.

Definition chunks (s : string) : list (string * bool) := utf8_chunks (String.length s) s.

(** [str::from_utf8] *)
Definition utf8_valid (s : string) : bool := forallb snd (chunks s).

(** [String::from_utf8_lossy] *)
Definition from_utf8_lossy (s : string) : string :=
  foldr (fun (p : string * bool) acc => (if p.2 then p.1 else REPLACEMENT) +:+ acc) EmptyString (chunks s).

Definition of_bytes (b : bytes) : string := String.string_of_list_byte b.
Definition to_bytes (s : string) : bytes := String.list_byte_of_string s.

(** ** Strings as sequences of characters *)

Lemma string_app_assoc a b c : (a +:+ b) +:+ c = a +:+ b +:+ c.
Proof. induction a as [|x a IH]; simpl; [done|]. by rewrite IH. Qed.

Lemma string_app_nil a : a +:+ EmptyString = a.
Proof. induction a as [|x a IH]; simpl; [done|]. by rewrite IH. Qed.

Lemma string_app_inj_l a b c : a +:+ b = a +:+ c -> b = c.
Proof. induction a as [|x a IH]; simpl; [done|]. intros [= H]. by apply IH. Qed.

Lemma string_app_inj_r a b c : a +:+ c = b +:+ c -> a = b.
Proof.
  intros H. assert (Hl : String.length a = String.length b).
  { assert (Hc : String.length (a +:+ c) = String.length (b +:+ c)) by (by rewrite H).
    rewrite !string_app_length in Hc. lia. }
  revert b H Hl. induction a as [|x a IH]; intros [|y b]; simpl; intros H Hl; try done.
  injection H as -> H. f_equal. apply IH; [done|lia].
Qed.

Definition no_char (c : ascii) (s : string) : Prop := contains_char c s = false.

Lemma contains_char_app c a b : contains_char c (a +:+ b) = contains_char c a || contains_char c b.
Proof.
  unfold contains_char, string_any. induction a as [|x a IH]; simpl; [done|]. by rewrite IH, orb_assoc.
Qed.

Lemma contains_char_cons c x s : contains_char c (String x s) = Ascii.eqb c x || contains_char c s.
Proof. done. Qed.

Lemma string_all_no_char f c s : string_all f s = true -> f c = false -> no_char c s.
Proof.
  unfold string_all, no_char, contains_char, string_any. intros Hs Hc.
  induction s as [|x s IH]; simpl in *; [done|]. apply andb_true_iff in Hs as [Hx Hs].
  rewrite (IH Hs), orb_false_r. destruct (Ascii.eqb_spec c x) as [->|]; [congruence|done].
Qed.

(** Splitting once on a character. *)
Lemma split_once_char c s a b :
  split_once (String c EmptyString) s = Some (a, b) <-> s = a +:+ String c b /\ no_char c a.
Proof.
  revert a b. unfold no_char. induction s as [|x s IH]; intros a b.
  - split; [done|]. intros [H _]. by destruct a.
  - simpl. destruct (Ascii.eqb_spec c x) as [->|Hx].
    + destruct s; simpl; (split; [intros [= <- <-]; done|]);
        (intros [H Ha]; destruct a as [|y a]; simpl in H; [by injection H as ->|]);
        injection H as -> H; rewrite contains_char_cons, Ascii.eqb_refl in Ha; done.
    + destruct (split_once (String c EmptyString) s) as [[a' b']|] eqn:E.
      * destruct (proj1 (IH a' b') eq_refl) as [-> Ha']. split.
        -- intros [= <- <-]. split; [done|]. rewrite contains_char_cons, Ha', orb_false_r.
           by apply Ascii.eqb_neq.
        -- intros [H Ha]. destruct a as [|y a]; simpl in H; [by injection H as -> _|].
           injection H as -> H. rewrite contains_char_cons in Ha. apply orb_false_iff in Ha as [_ Ha].
           assert (Some (a', b') = Some (a, b)) as [= -> ->]; [|done]. by apply IH.
      * split; [done|]. intros [H Ha]. destruct a as [|y a]; simpl in H; [by injection H as -> _|].
        injection H as -> H. rewrite contains_char_cons in Ha. apply orb_false_iff in Ha as [_ Ha].
        by assert (None = Some (a, b)) by (by apply IH).
Qed.

Lemma split_once_none c s : split_once (String c EmptyString) s = None <-> no_char c s.
Proof.
  unfold no_char. induction s as [|x s IH]; [done|]. rewrite contains_char_cons. simpl.
  destruct (Ascii.eqb_spec c x) as [->|Hx].
  - split; [by destruct s|]. done.
  - destruct (split_once (String c EmptyString) s) as [[a b]|]; split; intros H; try done.
    + by apply IH in H.
    + by apply IH.
Qed.

(** Suffixes. *)
Lemma strip_suffix_spec suf s r : strip_suffix suf s = Some r <-> s = r +:+ suf.
Proof.
  revert r. induction s as [|x s IH]; intros r; simpl.
  - case_bool_decide as H; subst; split.
    + by intros [= <-].
    + intros H. destruct r; [done|]. simpl in H. done.
    + done.
    + intros Hr. destruct r; [simpl in Hr; subst; done|done].
  - case_bool_decide as H.
    + subst. split; [by intros [= <-]|]. intros Hr. f_equal. symmetry.
      by apply (string_app_inj_r r EmptyString (String x s)).
    + destruct (strip_suffix suf s) as [r'|] eqn:E; simpl.
      * assert (s = r' +:+ suf) as -> by (by apply IH). split; [by intros [= <-]|].
        intros Hr. destruct r as [|y r]; simpl in Hr; [by subst|]. injection Hr as -> Hr.
        f_equal. f_equal. by eapply string_app_inj_r.
      * split; [done|]. intros Hr. destruct r as [|y r]; simpl in Hr; [by subst|].
        injection Hr as -> Hr. by assert (None = Some r) by (by apply IH).
Qed.

Fixpoint string_repeat (n : nat) (s : string) : string :=
  match n with O => EmptyString | S n' => s +:+ string_repeat n' s end.

Lemma string_repeat_snoc n s : string_repeat (S n) s = string_repeat n s +:+ s.
Proof.
  induction n as [|n IH]; simpl; [by rewrite string_app_nil|].
  rewrite string_app_assoc. f_equal. exact IH.
Qed.

(** Trimming a suffix removes every copy of it. *)
Lemma trim_end_matches_repeat suf s k n :
  strip_suffix suf s = None -> k <= n ->
  trim_end_matches_fuel n suf (s +:+ string_repeat k suf) = s.
Proof.
  intros Hs. revert n. induction k as [|k IH]; intros n Hn.
  - simpl. rewrite string_app_nil. destruct n; simpl; [done|]. by rewrite Hs.
  - destruct n as [|n]; [lia|]. cbn [trim_end_matches_fuel].
    rewrite string_repeat_snoc, <- string_app_assoc.
    rewrite (proj2 (strip_suffix_spec suf _ (s +:+ string_repeat k suf)) eq_refl). apply IH. lia.
Qed.

Lemma string_repeat_length k s : s <> EmptyString -> k <= String.length (string_repeat k s).
Proof.
  intros Hs. induction k as [|k IH]; simpl; [lia|]. rewrite string_app_length.
  destruct s; [done|]. simpl. lia.
Qed.

Lemma trim_end_matches_spec suf s k :
  suf <> EmptyString -> strip_suffix suf s = None -> trim_end_matches suf (s +:+ string_repeat k suf) = s.
Proof.
  intros Hsuf Hs. apply trim_end_matches_repeat; [done|]. rewrite string_app_length.
  pose proof (string_repeat_length k suf Hsuf). lia.
Qed.

Lemma trim_end_matches_decomp suf s :
  exists k, s = trim_end_matches suf s +:+ string_repeat k suf.
Proof.
  unfold trim_end_matches. generalize (String.length s). intros n. revert s.
  induction n as [|n IH]; intros s; simpl; [by exists 0; rewrite string_app_nil|].
  destruct (strip_suffix suf s) as [r|] eqn:E; [|by exists 0; rewrite string_app_nil].
  destruct (IH r) as [k Hk]. exists (S k). apply strip_suffix_spec in E as ->.
  rewrite string_repeat_snoc, <- string_app_assoc. by rewrite <- Hk.
Qed.

(** Numerals. *)
Lemma parse_unsigned_chars bound s n :
  parse_unsigned bound s = Some n -> string_all (fun c => is_ascii_digit c || Ascii.eqb c "+") s = true.
Proof.
  unfold parse_unsigned. set (d := match s with String "+" s' => s' | _ => s end).
  destruct (string_all is_ascii_digit d && _ && _) eqn:E; [|done]. intros _.
  apply andb_true_iff in E as [E _]. apply andb_true_iff in E as [E _].
  assert (Hd : string_all (fun c => is_ascii_digit c || Ascii.eqb c "+") d = true).
  { revert E. unfold string_all. generalize (String.list_ascii_of_string d). intros l.
    induction l as [|c l IH]; simpl; [done|]. intros [-> H]%andb_true_iff. simpl. by apply IH. }
  subst d. destruct s as [|c s]; [done|]. destruct c as [[] [] [] [] [] [] [] []]; exact Hd.
Qed.

(** Parsing what was printed. *)
Lemma digits_value_app a b :
  digits_value (a +:+ b) =
  foldl (fun n c => n * 10 + digit_value c)%N (digits_value a) (String.list_ascii_of_string b).
Proof.
  unfold digits_value. rewrite <- foldl_app. f_equal.
  induction a as [|x a IH]; simpl; [done|]. by rewrite IH.
Qed.

Lemma digit_value_char d : (d < 10)%N -> digit_value (pretty_N_char d) = d.
Proof.
  intros H. assert (Hc : Forall (fun k => digit_value (pretty_N_char (N.of_nat k)) = N.of_nat k) (seq 0 10))
    by (repeat constructor).
  rewrite Forall_forall in Hc. rewrite <- (N2Nat.id d). apply Hc. apply elem_of_seq. lia.
Qed.

Lemma digits_value_go x s :
  digits_value (pretty_N_go x s) =
  foldl (fun n c => n * 10 + digit_value c)%N x (String.list_ascii_of_string s).
Proof.
  revert s. induction (N.lt_wf_0 x) as [x _ IH]; intros s.
  destruct (decide (0 < x)%N) as [Hx|Hx].
  - rewrite pretty_N_go_step by done. rewrite IH by (apply N.div_lt; lia). simpl.
    rewrite digit_value_char by (apply N.mod_lt; lia). f_equal.
    pose proof (N.div_mod x 10). lia.
  - assert (x = 0%N) as -> by lia. by rewrite pretty_N_go_0.
Qed.

Lemma digits_value_pretty (n : N) : digits_value (pretty n) = n.
Proof.
  unfold pretty, pretty_N. case_decide as H; [by subst|]. by rewrite digits_value_go.
Qed.

Lemma pretty_N_nonempty (n : N) : pretty n <> EmptyString.
Proof.
  intros H. assert (Hn : n = 0%N) by (by rewrite <- (digits_value_pretty n), H). by subst.
Qed.

Lemma pretty_N_all_digits (n : N) : string_all is_ascii_digit (pretty n) = true.
Proof. apply pretty_N_digits, digit_char. Qed.

Lemma parse_unsigned_pretty bound n : (n < bound)%N -> parse_unsigned bound (pretty n) = Some n.
Proof.
  intros Hn. pose proof (pretty_N_all_digits n) as Hd. unfold parse_unsigned.
  set (d := match pretty n with String "+" s' => s' | _ => pretty n end).
  assert (d = pretty n) as ->.
  { subst d. destruct (pretty n) as [|c s]; [done|].
    unfold string_all in Hd. simpl in Hd. apply andb_true_iff in Hd as [Hc _].
    by destruct c as [[] [] [] [] [] [] [] []]. }
  rewrite Hd, bool_decide_eq_false_2 by apply pretty_N_nonempty. simpl.
  rewrite digits_value_pretty. by rewrite (proj2 (N.ltb_lt _ _) Hn).
Qed.

Lemma parse_unsigned_bound bound s n : parse_unsigned bound s = Some n -> (n < bound)%N.
Proof.
  unfold parse_unsigned. destruct (string_all _ _ && _ && _) eqn:E; [|done]. intros [= <-].
  apply andb_true_iff in E as [_ E]. by apply N.ltb_lt.
Qed.

(** Case. *)
Lemma to_ascii_lowercase_app a b :
  to_ascii_lowercase (a +:+ b) = to_ascii_lowercase a +:+ to_ascii_lowercase b.
Proof. induction a as [|x a IH]; simpl; [done|]. by rewrite IH. Qed.

Lemma lower_digit c : is_ascii_digit c = true -> lower c = c.
Proof. by destruct c as [[] [] [] [] [] [] [] []]. Qed.

Lemma to_ascii_lowercase_digits s : string_all is_ascii_digit s = true -> to_ascii_lowercase s = s.
Proof.
  unfold string_all. induction s as [|c s IH]; simpl; [done|].
  intros [Hc Hs]%andb_true_iff. by rewrite (lower_digit c Hc), (IH Hs).
Qed.

Lemma lower_lower c : lower (lower c) = lower c.
Proof. by destruct c as [[] [] [] [] [] [] [] []]. Qed.

Lemma to_ascii_lowercase_idemp s : to_ascii_lowercase (to_ascii_lowercase s) = to_ascii_lowercase s.
Proof. induction s as [|c s IH]; simpl; [done|]. by rewrite lower_lower, IH. Qed.

(** [rsplit_once] splits at the last occurrence. *)
Lemma rsplit_once_spec c s a b :
  rsplit_once c s = Some (a, b) -> s = a +:+ String c b /\ no_char c b.
Proof.
  revert a b. unfold no_char. induction s as [|x s IH]; intros a b; simpl; [done|].
  assert (Hn : rsplit_once c s = None -> contains_char c s = false).
  { clear. induction s as [|y s IH]; simpl; [done|]. rewrite contains_char_cons.
    destruct (rsplit_once c s) as [[]|]; [done|]. rewrite (IH eq_refl), orb_false_r.
    destruct (Ascii.eqb_spec y c) as [->|Hy]; [done|]. intros _. apply Ascii.eqb_neq. congruence. }
  destruct (rsplit_once c s) as [[a' b']|] eqn:E.
  - intros [= <- <-]. destruct (IH a' b' eq_refl) as [-> Hb]. done.
  - destruct (Ascii.eqb_spec x c) as [->|]; [|done]. intros [= <- <-]. split; [done|]. by apply Hn.
Qed.

Lemma rsplit_once_none c s : no_char c s -> rsplit_once c s = None.
Proof.
  unfold no_char. induction s as [|x s IH]; simpl; [done|]. rewrite contains_char_cons.
  intros [Hx Hs]%orb_false_iff. rewrite (IH Hs).
  destruct (Ascii.eqb_spec x c) as [->|]; [|done]. by rewrite Ascii.eqb_refl in Hx.
Qed.

Lemma rsplit_once_last c a b : no_char c b -> rsplit_once c (a +:+ String c b) = Some (a, b).
Proof.
  intros Hb. induction a as [|x a IH]; simpl.
  - by rewrite (rsplit_once_none c b Hb), Ascii.eqb_refl.
  - by rewrite IH.
Qed.

(** What follows a character that is not in the end of a string ends with it. *)
Lemma tail_after c a b x t : a +:+ String c b = x +:+ t -> no_char c t -> exists y, b = y +:+ t.
Proof.
  unfold no_char. revert x. induction a as [|p a IH]; intros [|q x]; simpl; intros H Ht.
  - subst t. by rewrite contains_char_cons, Ascii.eqb_refl in Ht.
  - injection H as -> ->. by exists x.
  - subst t. exfalso. rewrite contains_char_cons, contains_char_app, contains_char_cons, Ascii.eqb_refl in Ht.
    by rewrite !orb_true_r in Ht.
  - injection H as -> H. by eapply IH.
Qed.

Lemma strip_suffix_app suf a b :
  strip_suffix suf b = None -> String.length suf <= String.length b -> strip_suffix suf (a +:+ b) = None.
Proof.
  intros Hb Hl. induction a as [|c a IH]; [done|]. simpl. rewrite bool_decide_eq_false_2, IH; [done|].
  intros H. apply (f_equal String.length) in H. simpl in H. rewrite string_app_length in H. lia.
Qed.

(** Taking and dropping. *)
Lemma string_take_drop n s : string_take n s +:+ string_drop n s = s.
Proof. revert s. induction n as [|n IH]; intros [|c s]; simpl; [done..|]. by rewrite IH. Qed.

Lemma string_take_app n a b : String.length a = n -> string_take n (a +:+ b) = a.
Proof.
  revert a. induction n as [|n IH]; intros [|c a]; simpl; intros H; try lia; [by destruct b|].
  rewrite IH by lia. done.
Qed.

Lemma string_drop_app n a b : String.length a = n -> string_drop n (a +:+ b) = b.
Proof.
  revert a. induction n as [|n IH]; intros [|c a]; simpl; intros H; try lia; [by destruct b|].
  apply IH. lia.
Qed.

Lemma string_take_length n s : String.length (string_take n s) = n `min` String.length s.
Proof. revert s. induction n as [|n IH]; intros [|c s]; simpl; [done..|]. by rewrite IH. Qed.

Lemma string_get_lt n s : n < String.length s -> exists c, String.get n s = Some c.
Proof.
  revert s. induction n as [|n IH]; intros [|c s]; simpl; intros H; try lia; [by eexists|]. apply IH. lia.
Qed.

Lemma string_get_Some n s c : String.get n s = Some c -> n < String.length s.
Proof.
  revert s. induction n as [|n IH]; intros [|d s]; simpl; intros H; try done; [lia|]. apply IH in H. lia.
Qed.

Lemma string_get_app n a b : String.length a = n -> String.get n (a +:+ b) = String.get 0 b.
Proof.
  revert a. induction n as [|n IH]; intros [|c a]; simpl; intros H; try lia; [done|]. apply IH. lia.
Qed.

Lemma string_get_app' n k a b : String.length a = n -> String.get (n + k) (a +:+ b) = String.get k b.
Proof.
  revert a. induction n as [|n IH]; intros [|c a]; simpl; intros H; try lia; [done|]. apply IH. lia.
Qed.

(** Words have no white space in them. *)
Lemma skip_whitespace_ascii c s : (in_range 9 13 c || in_range 32 32 c) = true -> skip_whitespace (String c s) = Some s.
Proof. intros H. unfold skip_whitespace. by rewrite H. Qed.

Lemma word_fuel_no_char n s c :
  (in_range 9 13 c || in_range 32 32 c) = true -> no_char c (word_fuel n s).1.
Proof.
  intros Hc. unfold no_char. revert s. induction n as [|n IH]; intros [|x s]; cbn [word_fuel]; [done..|].
  destruct (skip_whitespace (String x s)) eqn:E; [done|].
  specialize (IH s). destruct (word_fuel n s) as [w rest]. cbn [fst] in *. rewrite contains_char_cons, IH, orb_false_r.
  destruct (Ascii.eqb_spec c x) as [<-|]; [|done]. by rewrite (skip_whitespace_ascii c s Hc) in E.
Qed.

Lemma split_whitespace_no_char s w c :
  (in_range 9 13 c || in_range 32 32 c) = true -> w ∈ split_whitespace s -> no_char c w.
Proof.
  intros Hc. unfold split_whitespace. generalize (String.length s). intros n. revert s.
  induction n as [|n IH]; intros s; simpl; [by intros ?%elem_of_nil|].
  destruct (trim_start s) as [|x s1] eqn:E; [by intros ?%elem_of_nil|].
  pose proof (word_fuel_no_char (String.length (String x s1)) (String x s1) c Hc) as Hw.
  destruct (word_fuel _ _) as [w1 rest]. intros [->|Hin]%elem_of_cons; [exact Hw|]. by eapply IH.
Qed.

(** Splitting and joining keep a character out. *)
Lemma split_char_no_char sep c s p : no_char c s -> p ∈ split_char sep s -> no_char c p.
Proof.
  unfold no_char. revert p. induction s as [|x s IH]; intros p; simpl.
  - by intros _ ->%list_elem_of_singleton.
  - rewrite contains_char_cons. intros [Hx Hs]%orb_false_iff.
    destruct (Ascii.eqb x sep).
    + intros [->|Hin]%elem_of_cons; [done|]. by apply IH.
    + destruct (split_char sep s) as [|q qs] eqn:E.
      * intros ->%list_elem_of_singleton. by rewrite contains_char_cons, Hx.
      * intros [->|Hin]%elem_of_cons; [|apply IH; [done|by right]].
        rewrite contains_char_cons, Hx. apply IH; [done|by left].
Qed.

Lemma join_no_char sep c l : no_char c sep -> Forall (no_char c) l -> no_char c (join sep l).
Proof.
  unfold no_char. intros Hs HF. induction HF as [|s l Hs' HF IH]; [done|]. destruct l as [|t l]; [done|].
  change (join sep (s :: t :: l)) with (s +:+ sep +:+ join sep (t :: l)).
  by rewrite !contains_char_app, Hs', Hs.
Qed.

Lemma string_take_ge n s : String.length s <= n -> string_take n s = s.
Proof.
  revert n. induction s as [| c s IH]; intros [| n] Hn; simpl in *; try done; [lia |]. by rewrite IH by lia.
Qed.

(** ** Plain text *)

(** A printing ASCII character. *)
Definition plain (c : ascii) : bool := in_range 33 126 c.

Lemma skip_plain c s : plain c = true -> skip_whitespace (String c s) = None.
Proof.
  unfold plain, in_range. rewrite andb_true_iff, !N.leb_le. intros [H1 H2]. unfold skip_whitespace, in_range.
  repeat case_match; try done; rewrite ?orb_true_iff, ?andb_true_iff, ?N.leb_le in *; lia.
Qed.

Lemma trim_plain s t : string_all plain s = true -> trim_start t = EmptyString -> trim (s +:+ t) = s.
Proof.
  intros Hs Ht. assert (E : trim_end t = EmptyString) by (destruct t; simpl; [done | by rewrite bool_decide_eq_true_2]).
  assert (Hstart : forall s', string_all plain s' = true -> s' <> EmptyString -> trim_start (s' +:+ t) = s' +:+ t).
  { intros [| c s'] Hp; [done |]. simpl in Hp. apply andb_true_iff in Hp as [Hc _]. intros _.
    unfold trim_start. cbn [String.append String.length trim_start_fuel]. by rewrite skip_plain. }
  assert (Hend : trim_end (s +:+ t) = s).
  { induction s as [| c s IH]; [done |]. simpl in Hs. apply andb_true_iff in Hs as [Hc Hs'].
    change (String c s +:+ t) with (String c (s +:+ t)). cbn [trim_end].
    rewrite bool_decide_eq_false_2; [by rewrite IH |].
    change (String c (s +:+ t)) with (String c s +:+ t). rewrite Hstart; [done | | done].
    by apply andb_true_iff. }
  unfold trim. destruct s as [| c s]; [simpl in *; by rewrite Ht |]. by rewrite Hstart.
Qed.

Lemma utf8_ascii s : string_all (in_range 0 127) s = true -> utf8_valid s = true.
Proof.
  unfold utf8_valid, chunks. induction s as [| c s IH]; [done |]. intros [Hc Hs]%andb_true_iff.
  cbn [String.length utf8_chunks]. unfold utf8_head.
  change (nth_byte 0 (String c s)) with c. rewrite Hc. cbn [string_drop forallb snd andb]. by apply IH.
Qed.

Lemma utf8_head_pos s : 1 <= (utf8_head s).1.
Proof. unfold utf8_head. repeat case_match; simpl; lia. Qed.

Lemma string_drop_length n s : String.length (string_drop n s) = String.length s - n.
Proof. revert s. induction n as [| n IH]; intros [| c s]; simpl; try done. Qed.

Lemma lossy_ascii s : string_all (in_range 0 127) (from_utf8_lossy s) = true -> from_utf8_lossy s = s.
Proof.
  unfold from_utf8_lossy, chunks. set (render := fun (p : string * bool) acc => _).
  enough (forall n s, String.length s <= n ->
    string_all (in_range 0 127) (foldr render EmptyString (utf8_chunks n s)) = true ->
    foldr render EmptyString (utf8_chunks n s) = s) by eauto.
  clear s. induction n as [| n IH]; intros [| c s] Hn; try done; [simpl in Hn; lia |].
  cbn [utf8_chunks]. assert (Hk := utf8_head_pos (String c s)).
  destruct (utf8_head (String c s)) as [k ok]. cbn [fst] in Hk. cbn [foldr]. unfold render at 1 3. cbn [snd fst].
  destruct ok; [| done]. rewrite string_all_app. intros [_ Hs]%andb_true_iff.
  rewrite IH; [apply string_take_drop | rewrite string_drop_length; simpl in *; lia | done].
Qed.

Lemma string_all_take f n s : string_all f s = true -> string_all f (string_take n s) = true.
Proof.
  revert n. induction s as [| c s IH]; intros [| n]; try done.
  intros [Hc Hs]%andb_true_iff. apply andb_true_iff. split; [done | by apply IH].
Qed.

(** A line cut short, without its newline. *)
Lemma trim_line s n : string_all plain s = true ->
  trim (string_take n (s +:+ String "010" EmptyString)) = string_take n s.
Proof.
  intros Hs. destruct (decide (n <= String.length s)) as [Hn | Hn].
  - assert (E : string_take n (s +:+ String "010" EmptyString) = string_take n s +:+ EmptyString).
    { rewrite string_app_nil. clear Hs. revert n Hn. induction s as [| c s IH]; intros [| n] Hn; simpl in *; try done; try lia.
      by rewrite IH by lia. }
    rewrite E. apply trim_plain; [by apply string_all_take | done].
  - rewrite !string_take_ge by (rewrite ?string_app_length; simpl; lia). by apply trim_plain.
Qed.
