(* ===== verification/FileSystem.v ===== *)
(** * The file system and the effect monad

    The program's persistent state lives in files it reaches through
    [std::fs], so this file models what the sources use of it: a tree of
    files, directories and symlinks, and a monad whose primitive steps are
    system calls.  An [env] decides, for every system call, whether it
    succeeds, fails with an I/O error, or is the point where the process is
    killed; it also supplies what the outside world decides (the clock, the
    pid, the order of directory entries, allocation sizes, which pin files
    another process has locked).  Theorems quantify over every [env], so they
    hold for every combination of I/O errors and every crash point.

    Modelling choices: a file handle is its path (the sources never keep a
    handle across a rename of its path, except lock files, which are modelled
    elsewhere).  Symlinks occur only inside copied host-share trees, where the
    sources use calls that do not follow them, so following one (as the last
    or as an intermediate component) is not modelled: [metadata] and the calls
    built on it fail there.  Permissions and timestamps are not
    represented. *)

From S2P Require Import Prelude.

(** ** Nodes *)

Inductive io_kind :=
  | NotFound
  | AlreadyExists
  | NotADirectory
  | IsADirectory
  | DirectoryNotEmpty
  | OtherIo.

#[global] Instance io_kind_eq_dec : EqDecision io_kind.
Proof. solve_decision. Defined.

(** A regular file: its contents and the 512-byte blocks allocated to it. *)
Record file := mk_file { f_data : bytes; f_blocks : N }.

Inductive node :=
  | NFile (f : file)
  | NDir
  | NLink (target : path).

#[global] Instance file_eq_dec : EqDecision file.
Proof. solve_decision. Defined.

#[global] Instance node_eq_dec : EqDecision node.
Proof. solve_decision. Defined.

Abbreviation fsmap := (gmap path node).

Definition file_len (f : file) : N := N.of_nat (length (f_data f)).

(** ** Primitive changes to the tree *)

Inductive fsop :=
  | OMkdir (p : path)
  | OWrite (p : path) (f : file)
  | OUnlink (p : path)
  | ORename (src dst : path)
  | OSymlink (p target : path)
  | OSync (p : path).

(** What is left of [p] below [pre], when [p] is [pre] or below it. *)
Fixpoint strip (pre p : path) : option path :=
  match pre, p with
  | [], _ => Some p
  | a :: pre', b :: p' => if decide (a = b) then strip pre' p' else None
  | _ :: _, [] => None
  end.

Definition relocate (src dst : path) (kv : path * node) : option (path * node) :=
  let '(p, n) := kv in s ← strip src p; Some (dst ++ s, n).

(** Moves the tree at [src] to [dst], replacing what was there. *)
Definition move (src dst : path) (m : fsmap) : fsmap :=
  list_to_map (omap (relocate src dst) (map_to_list m))
  ∪ filter (fun kv => strip src kv.1 = None /\ strip dst kv.1 = None) m.

Definition apply_op (o : fsop) (m : fsmap) : fsmap :=
  match o with
  | OMkdir p => <[p := NDir]> m
  | OWrite p f => <[p := NFile f]> m
  | OUnlink p => delete p m
  | ORename src dst => move src dst m
  | OSymlink p t => <[p := NLink t]> m
  | OSync _ => m
  end.

(** The paths a primitive change may alter. *)
Definition op_footprint (o : fsop) (p : path) : Prop :=
  match o with
  | OMkdir q | OWrite q _ | OUnlink q | OSymlink q _ => p = q
  | ORename src dst => is_Some (strip src p) \/ is_Some (strip dst p)
  | OSync _ => False
  end.

(** ** The outside world *)

(** An injected failure is one the file system's state does not explain (an
    I/O error, no space, too many open files); errors such as "not found" come
    from the state alone. *)
Inductive fault :=
  | FErr
  | FCrash.

Record env := mk_env {
  (** What goes wrong at each system call. *)
  e_fault : nat -> option fault;
  (** How many bytes a failing write leaves behind. *)
  e_partial : nat -> nat;
  (** Nanoseconds since the epoch when the clock is read. *)
  e_nanos : nat -> N;
  e_pid : N;
  (** Blocks the file system allocates for a file written then. *)
  e_blocks : nat -> N;
  (** Whether another process holds a shared lock on a pin file. *)
  e_pinned : nat -> path -> bool;
  (** The order in which a directory is listed. *)
  e_order : nat -> list string -> list string;
  e_order_perm : forall t l, e_order t l ≡ₚ l;
}.

Record world := mk_world {
  w_fs : fsmap;
  (** System calls made so far. *)
  w_tick : nat;
  (** The process-wide id counter. *)
  w_seq : N;
  (** Every change made so far, syncs included, oldest first. *)
  w_trace : list fsop;
}.

Inductive error :=
  | Io (k : io_kind)
  | Bail (msg : string)
  | CrashedWithUnsavedState (instance run : string).

#[global] Instance error_eq_dec : EqDecision error.
Proof. solve_decision. Defined.

(** A computation ends with a value, with an error the program sees, or with
    the process killed; the world it leaves is what matters in every case. *)
Inductive outcome (A : Type) :=
  | Ok (a : A) (w : world)
  | Err (e : error) (w : world)
  | Crash (w : world).
Arguments Ok {A} a w.
Arguments Err {A} e w.
Arguments Crash {A} w.

Definition M (A : Type) : Type := env -> world -> outcome A.

#[global] Instance M_ret : MRet M := fun A a E w => Ok a w.

#[global] Instance M_bind : MBind M := fun A B k m E w =>
  match m E w with
  | Ok a w' => k a E w'
  | Err e w' => Err e w'
  | Crash w' => Crash w'
  end.

Definition fail {A} (e : error) : M A := fun E w => Err e w.

(** [bail!] *)
Definition bail {A} (msg : string) : M A := fail (Bail msg).

(** [Option::context] *)
Definition context {A} (o : option A) (msg : string) : M A :=
  match o with Some a => mret a | None => bail msg end.

(** Looks at a result instead of propagating its error with [?]. *)
Definition attempt {A} (m : M A) : M (A + error) := fun E w =>
  match m E w with
  | Ok a w' => Ok (inl a) w'
  | Err e w' => Ok (inr e) w'
  | Crash w' => Crash w'
  end.

Fixpoint for_each {A} (f : A -> M unit) (l : list A) : M unit :=
  match l with
  | [] => mret tt
  | a :: l' => _ ← f a; for_each f l'
  end.

Fixpoint fold_m {A B} (f : B -> A -> M B) (b : B) (l : list A) : M B :=
  match l with
  | [] => mret b
  | a :: l' => b' ← f b a; fold_m f b' l'
  end.

(** ** System calls *)

Definition ticked (w : world) : world :=
  mk_world (w_fs w) (S (w_tick w)) (w_seq w) (w_trace w).

Definition emit (o : fsop) (w : world) : world :=
  mk_world (apply_op o (w_fs w)) (w_tick w) (w_seq w) (w_trace w ++ [o]).

(** A call that only looks. *)
Definition look {A} (f : fsmap -> A + io_kind) : M A := fun E w =>
  match e_fault E (w_tick w) with
  | Some FCrash => Crash w
  | Some FErr => Err (Io OtherIo) (ticked w)
  | None =>
      match f (w_fs w) with
      | inl a => Ok a (ticked w)
      | inr k => Err (Io k) (ticked w)
      end
  end.

(** A call that makes one change, if any. *)
Definition change (f : env -> world -> option fsop + io_kind) : M unit := fun E w =>
  match e_fault E (w_tick w) with
  | Some FCrash => Crash w
  | Some FErr => Err (Io OtherIo) (ticked w)
  | None =>
      match f E w with
      | inl (Some o) => Ok tt (emit o (ticked w))
      | inl None => Ok tt (ticked w)
      | inr k => Err (Io k) (ticked w)
      end
  end.

Fixpoint prefixes (done rest : path) : list path :=
  match rest with
  | [] => []
  | x :: rest' => (done /: x) :: prefixes (done /: x) rest'
  end.

(** The error for a path that is not there: something above it may exist and
    not be a directory. *)
Definition missing_kind (m : fsmap) (p : path) : io_kind :=
  if existsb (fun q => match m !! q with None | Some NDir => false | Some _ => true end) (prefixes [] p)
  then NotADirectory else NotFound.

(** [symlink_metadata]: the node itself. *)
Definition lstat_in (m : fsmap) (p : path) : node + io_kind :=
  match m !! p with Some n => inl n | None => inr (missing_kind m p) end.

(** [metadata], on paths that are not symlinks. *)
Definition stat_in (m : fsmap) (p : path) : node + io_kind :=
  match m !! p with
  | None => inr (missing_kind m p)
  | Some (NLink _) => inr OtherIo
  | Some n => inl n
  end.

Definition symlink_metadata (p : path) : M node := look (fun m => lstat_in m p).

Definition metadata (p : path) : M node := look (fun m => stat_in m p).

(** [Path::exists]: any error counts as absent. *)
Definition path_exists (p : path) : M bool :=
  r ← attempt (metadata p);
  mret (match r with inl _ => true | inr _ => false end).

(** [Path::is_dir] *)
Definition path_is_dir (p : path) : M bool :=
  r ← attempt (metadata p);
  mret (match r with inl NDir => true | _ => false end).

(** [Path::is_file] *)
Definition path_is_file (p : path) : M bool :=
  r ← attempt (metadata p);
  mret (match r with inl (NFile _) => true | _ => false end).

Definition read_in (m : fsmap) (p : path) : bytes + io_kind :=
  match stat_in m p with
  | inl (NFile f) => inl (f_data f)
  | inl _ => inr IsADirectory
  | inr k => inr k
  end.

(** [fs::read] *)
Definition fs_read (p : path) : M bytes := look (fun m => read_in m p).

Definition parent (p : path) : option path :=
  match p with [] => None | _ => Some (removelast p) end.

Definition parent_is_dir (m : fsmap) (p : path) : bool :=
  match parent p with
  | None => false
  | Some [] => true
  | Some q => match stat_in m q with inl NDir => true | _ => false end
  end.

(** The name of [p] in directory [d], if it is an entry of it. *)
Definition entry_of (d p : path) : option string :=
  match strip d p with Some [x] => Some x | _ => None end.

Definition entries (m : fsmap) (d : path) : list string :=
  omap (entry_of d) (map_to_list m).*1.

(** [fs::read_dir], as the list of entry names. *)
Definition read_dir (d : path) : M (list string) := fun E w =>
  look (fun m =>
    match stat_in m d with
    | inl NDir => inl (e_order E (w_tick w) (entries m d))
    | inl _ => inr NotADirectory
    | inr k => inr k
    end) E w.

(** [fs::create_dir_all] makes one directory per missing prefix. *)
Definition ensure_dir (p : path) : M unit := change (fun _ w =>
  match stat_in (w_fs w) p with
  | inl NDir => inl None
  | inl _ => inr AlreadyExists
  | inr NotFound =>
      if parent_is_dir (w_fs w) p then inl (Some (OMkdir p)) else inr NotFound
  | inr k => inr k
  end).

Definition create_dir_all (p : path) : M unit := for_each ensure_dir (prefixes [] p).

(** [fs::create_dir] *)
Definition create_dir (p : path) : M unit := change (fun _ w =>
  match w_fs w !! p with
  | Some _ => inr AlreadyExists
  | None => if parent_is_dir (w_fs w) p then inl (Some (OMkdir p)) else inr (missing_kind (w_fs w) p)
  end).

(** [OpenOptions::create_new] *)
Definition create_new (p : path) : M unit := change (fun E w =>
  if parent_is_dir (w_fs w) p then
    match w_fs w !! p with
    | None => inl (Some (OWrite p (mk_file [] 0)))
    | Some _ => inr AlreadyExists
    end
  else inr NotFound).

(** [File::create]: an existing file is truncated. *)
Definition create_file (p : path) : M unit := change (fun E w =>
  if parent_is_dir (w_fs w) p then
    match w_fs w !! p with
    | None | Some (NFile _) => inl (Some (OWrite p (mk_file [] 0)))
    | Some NDir => inr IsADirectory
    | Some (NLink _) => inr OtherIo
    end
  else inr NotFound).

(** [write_all] on a file just created: a failure, or a kill, can leave any
    prefix of the data. *)
Definition write_all (p : path) (data : bytes) : M unit := fun E w =>
  let t := w_tick w in
  let put d := emit (OWrite p (mk_file d (e_blocks E t))) (ticked w) in
  match w_fs w !! p with
  | Some (NFile _) =>
      match e_fault E t with
      | Some FCrash => Crash (put (take (e_partial E t) data))
      | Some FErr => Err (Io OtherIo) (put (take (e_partial E t) data))
      | None => Ok tt (put data)
      end
  | _ => Err (Io OtherIo) (ticked w)
  end.

(** [fs::write] *)
Definition fs_write (p : path) (data : bytes) : M unit :=
  _ ← create_file p; write_all p data.

Definition has_entries (m : fsmap) (d : path) : bool :=
  match entries m d with [] => false | _ => true end.

(** [fs::rename]: a directory may only replace an empty directory, a file
    only something that is not a directory; nothing moves below itself. *)
Definition rename_in (m : fsmap) (src dst : path) : option fsop + io_kind :=
  match m !! src with
  | None => inr NotFound
  | Some n =>
      if bool_decide (src = dst) then inl None
      else if bool_decide (is_Some (strip src dst)) then inr OtherIo
      else if parent_is_dir m dst then
        match n, m !! dst with
        | _, None => inl (Some (ORename src dst))
        | NDir, Some NDir =>
            if has_entries m dst then inr DirectoryNotEmpty else inl (Some (ORename src dst))
        | NDir, Some _ => inr NotADirectory
        | _, Some NDir => inr IsADirectory
        | _, Some _ => inl (Some (ORename src dst))
        end
      else inr NotFound
  end.

Definition rename (src dst : path) : M unit := change (fun _ w => rename_in (w_fs w) src dst).

(** [fs::remove_file]: a file or a symlink, never followed. *)
Definition remove_file (p : path) : M unit := change (fun _ w =>
  match w_fs w !! p with
  | None => inr NotFound
  | Some NDir => inr IsADirectory
  | Some _ => inl (Some (OUnlink p))
  end).

(** [fs::remove_dir] *)
Definition remove_dir (p : path) : M unit := change (fun _ w =>
  match w_fs w !! p with
  | None => inr NotFound
  | Some NDir => if has_entries (w_fs w) p then inr DirectoryNotEmpty else inl (Some (OUnlink p))
  | Some _ => inr NotADirectory
  end).

(** [std::os::unix::fs::symlink] *)
Definition symlink (target p : path) : M unit := change (fun _ w =>
  if parent_is_dir (w_fs w) p then
    match w_fs w !! p with
    | None => inl (Some (OSymlink p target))
    | Some _ => inr AlreadyExists
    end
  else inr NotFound).

Definition new_name (m : fsmap) (p : path) (o : fsop) : option fsop + io_kind :=
  if parent_is_dir m p then
    match m !! p with
    | None => inl (Some o)
    | Some _ => inr AlreadyExists
    end
  else inr NotFound.

(** [fs::hard_link], of a file nobody writes to through either name: the new
    name has the file's contents. A symlink is linked itself, not followed. *)
Definition hard_link (original link : path) : M unit := change (fun _ w =>
  match w_fs w !! original with
  | None => inr (missing_kind (w_fs w) original)
  | Some (NFile f) => new_name (w_fs w) link (OWrite link f)
  | Some (NLink t) => new_name (w_fs w) link (OSymlink link t)
  | Some NDir => inr OtherIo
  end).

(** Syncing a file or a directory through an open handle. *)
Definition sync (p : path) : M unit := change (fun _ w =>
  match stat_in (w_fs w) p with
  | inl _ => inl (Some (OSync p))
  | inr k => inr k
  end).

(** The deepest path of the tree: no walk of it goes deeper. *)
Definition max_depth (m : fsmap) : nat := max_list (length <$> (map_to_list m).*1).

(** [fs::remove_dir_all]: entries first, then the directory. [n] bounds the
    depth still below [p]. *)
Fixpoint remove_tree (n : nat) (p : path) : M unit :=
  node ← symlink_metadata p;
  match node with
  | NDir =>
      match n with
      | O => bail "directory tree too deep"
      | S n' =>
          names ← read_dir p;
          _ ← for_each (fun x => remove_tree n' (p /: x)) names;
          remove_dir p
      end
  | _ => remove_file p
  end.

Definition remove_dir_all (p : path) : M unit := fun E w =>
  remove_tree (S (max_depth (w_fs w))) p E w.

(** Reads the clock and the id counter, as [new_id] does. *)
Definition next_stamp : M (N * N * N) := fun E w =>
  Ok (e_nanos E (w_tick w), e_pid E, w_seq w)
     (mk_world (w_fs w) (S (w_tick w)) (w_seq w + 1) (w_trace w)).

(** [SystemTime::now] *)
Definition clock : M N := fun E w => Ok (e_nanos E (w_tick w)) (ticked w).

(** [std::process::id] *)
Definition process_id : M N := fun E w => Ok (e_pid E) w.

(** [flock(LOCK_EX | LOCK_NB)] on a pin file: refused while another process
    holds it shared. *)
Definition try_lock_pin (p : path) : M bool := fun E w =>
  Ok (negb (e_pinned E (w_tick w) p)) (ticked w).
