(* ===== verification/FsLogic.v ===== *)
(** * Reasoning about file-system programs

    Two judgements.  [respects I m] says that whatever [m] does (return, fail
    or be killed) the tree it leaves is related to the first by the preorder
    [I]; [modifies F] is the instance that leaves every path outside [F] as it
    was, [keeps_form] the one that keeps the tree well formed.
    [triple E P m Q X] says that from a tree satisfying [P], [m] either
    returns a value related by [Q] to the tree it leaves, or fails or is
    killed leaving a tree that satisfies [X].  Both are compositional; the
    primitive system calls are proved once here. *)

From S2P Require Import Prelude FileSystem.

Definition left_by {A} (o : outcome A) : world :=
  match o with Ok _ w | Err _ w | Crash w => w end.

(** [frame F m m']: [m'] agrees with [m] outside [F]. *)
Definition frame (F : path -> Prop) (m m' : fsmap) : Prop :=
  forall p, ~ F p -> m' !! p = m !! p.

(** Whatever [c] does, the tree it leaves is related by [I] to the one it
    started from. *)
Definition respects {A : Type} (I : relation fsmap) (c : M A) : Prop :=
  forall E w, I (w_fs w) (w_fs (left_by (c E w))).

Abbreviation modifies F := (respects (frame F)).

(** A tree is well formed when every entry's parent is a directory. *)
Definition well_formed (m : fsmap) : Prop :=
  forall p x, is_Some (m !! (p /: x)) -> p = [] \/ m !! p = Some NDir.

Definition keeps_form : relation fsmap := fun m m' => well_formed m -> well_formed m'.

Definition triple {A : Type} (E : env) (P : fsmap -> Prop) (c : M A)
    (Q : A -> fsmap -> Prop) (X : fsmap -> Prop) : Prop :=
  forall w, P (w_fs w) ->
  match c E w with
  | Ok a w' => Q a (w_fs w')
  | Err _ w' | Crash w' => X (w_fs w')
  end.

(** [p] is [d] or below it. *)
Definition below (d p : path) : Prop := is_Some (strip d p).

#[global] Instance below_dec d p : Decision (below d p).
Proof. unfold below. apply _. Defined.

Create HintDb frames.

(** ** Paths *)

Lemma strip_app d s : strip d (d ++ s) = Some s.
Proof. induction d as [|x d IH]; simpl; [done|]. by rewrite decide_True. Qed.

Lemma strip_Some d p s : strip d p = Some s <-> p = d ++ s.
Proof.
  split; [|intros ->; apply strip_app].
  revert p. induction d as [|x d IH]; intros [|y p]; simpl; intros H; simplify_eq; try done.
  case_decide; [|done]. subst. by rewrite (IH _ H).
Qed.

Lemma strip_None d p : strip d p = None <-> forall s, p <> d ++ s.
Proof.
  split.
  - intros H s ->. by rewrite strip_app in H.
  - intros H. destruct (strip d p) as [s|] eqn:E; [|done].
    apply strip_Some in E. by destruct (H s).
Qed.

Lemma below_spec d p : below d p <-> exists s, p = d ++ s.
Proof. unfold below, is_Some. by setoid_rewrite strip_Some. Qed.

Lemma below_refl d : below d d.
Proof. apply below_spec. exists []. by rewrite app_nil_r. Qed.

Lemma below_snoc d x : below d (d /: x).
Proof. apply below_spec. by exists [x]. Qed.

Lemma below_app d s : below d (d ++ s).
Proof. apply below_spec. by exists s. Qed.

Lemma below_trans d1 d2 p : below d1 d2 -> below d2 p -> below d1 p.
Proof.
  rewrite !below_spec. intros [s1 ->] [s2 ->]. exists (s1 ++ s2). by rewrite app_assoc.
Qed.

Lemma below_child d x p : below (d /: x) p -> below d p.
Proof. apply below_trans, below_snoc. Qed.

Lemma below_app_inv d p s : below d (p ++ s) -> below d p \/ below p d.
Proof.
  rewrite !below_spec. intros [t Ht]. destruct (app_eq_inv _ _ _ _ Ht) as [(k & -> & _)|(k & -> & _)]; eauto.
Qed.

Lemma below_snoc_inv q d x : below q (d /: x) -> q = d /: x \/ below q d.
Proof.
  intros [s Hs]%below_spec. destruct s as [|y s _] using rev_ind.
  - left. by rewrite app_nil_r in Hs.
  - right. rewrite app_assoc in Hs. apply app_inj_tail in Hs as [-> _]. apply below_app.
Qed.

(** Different entries of one directory have disjoint subtrees. *)
Lemma below_sibling d x y p : below (d /: x) p -> below (d /: y) p -> x = y.
Proof.
  rewrite !below_spec. intros [s1 ->] [s2 Heq].
  rewrite <- !app_assoc in Heq. apply app_inv_head in Heq. by simplify_eq/=.
Qed.

Lemma sub_below src dst name : below (src /: name) (dst /: name) -> below src dst.
Proof.
  intros [s Hs]%below_spec. apply below_spec. destruct s as [| y s _] using rev_ind.
  - rewrite app_nil_r in Hs. apply app_inj_tail in Hs as [-> _]. exists []. by rewrite app_nil_r.
  - rewrite app_assoc in Hs. apply app_inj_tail in Hs as [-> _]. exists (name :: s). by rewrite <- app_assoc.
Qed.

Lemma not_below_child d x : ~ below (d /: x) d.
Proof.
  intros [s Hs]%below_spec. apply (f_equal length) in Hs. rewrite !length_app in Hs. simpl in Hs. lia.
Qed.

#[export] Hint Resolve below_refl below_snoc below_app : frames.

(** ** Moving a subtree *)

Lemma NoDup_relocated src dst l : NoDup l -> NoDup (omap (relocate src dst) l).
Proof.
  apply NoDup_omap_inj. intros [q n] [q' n'] [r k]. simpl.
  destruct (strip src q) as [s|] eqn:Es, (strip src q') as [s'|] eqn:Es'; simpl; intros; simplify_eq.
  apply strip_Some in Es as ->, Es' as ->. by simplify_eq.
Qed.

Lemma lookup_move src dst m p :
  ~ below src dst ->
  move src dst m !! p =
    match strip dst p with
    | Some s => m !! (src ++ s)
    | None => if decide (below src p) then None else m !! p
    end.
Proof.
  intros Hnb. unfold move.
  set (l := omap _ _). set (rest := filter _ m).
  assert (Hin : forall q n, (q, n) ∈ l <-> exists s, q = dst ++ s /\ m !! (src ++ s) = Some n).
  { intros q n. unfold l. rewrite list_elem_of_omap. split.
    - intros ([p' n'] & Hp' & Hs). simpl in Hs. apply elem_of_map_to_list in Hp'.
      destruct (strip src p') as [s|] eqn:Es; simplify_eq/=.
      apply strip_Some in Es as ->. eauto.
    - intros (s & -> & Hm). exists (src ++ s, n).
      simpl. rewrite elem_of_map_to_list, strip_app. eauto. }
  assert (Hnd : NoDup l.*1).
  { apply NoDup_fmap_fst.
    - intros q n1 n2 H1%Hin H2%Hin. destruct H1 as (s1 & -> & H1), H2 as (s2 & Heq & H2).
      apply app_inv_head in Heq as <-. congruence.
    - apply NoDup_relocated, NoDup_map_to_list. }
  assert (Hleft : forall q, (list_to_map l : fsmap) !! q =
     match strip dst q with Some s => m !! (src ++ s) | None => None end).
  { intros q. destruct (list_to_map l !! q) as [n|] eqn:El.
    - apply elem_of_list_to_map_2, Hin in El as (s & -> & Hm). by rewrite strip_app.
    - apply not_elem_of_list_to_map in El. destruct (strip dst q) as [s|] eqn:Es; [|done].
      apply strip_Some in Es as ->. destruct (m !! (src ++ s)) as [n|] eqn:Em; [|done].
      exfalso. apply El. rewrite list_elem_of_fmap. exists (dst ++ s, n). split; [done|].
      apply Hin. eauto. }
  rewrite lookup_union, Hleft. unfold rest.
  destruct (strip dst p) as [s|] eqn:Ed.
  - rewrite map_lookup_filter_None_2; [by destruct (m !! (src ++ s))|].
    right. intros n _ [_ Hd]. simpl in Hd. congruence.
  - rewrite (left_id_L None (∪)). case_decide as Hb.
    + apply map_lookup_filter_None_2. right. intros n _ [Hs _]. simpl in Hs.
      destruct Hb as [? Hb]. congruence.
    + destruct (m !! p) as [n|] eqn:Em.
      * apply map_lookup_filter_Some_2; [done|]. simpl. split; [|done].
        destruct (strip src p) eqn:?; [|done]. destruct Hb. by eexists.
      * apply map_lookup_filter_None_2. by left.
Qed.

Lemma move_frame src dst m :
  frame (fun p => below src p \/ below dst p) m (move src dst m).
Proof.
  intros p Hp. unfold move. rewrite lookup_union.
  assert (Hs : strip src p = None) by (destruct (strip src p) eqn:?; [destruct Hp; left; by eexists|done]).
  assert (Hd : strip dst p = None) by (destruct (strip dst p) eqn:?; [destruct Hp; right; by eexists|done]).
  replace ((list_to_map _ : fsmap) !! p) with (@None node).
  - rewrite (left_id_L None (∪)). destruct (m !! p) as [n|] eqn:Em.
    + by apply map_lookup_filter_Some_2.
    + apply map_lookup_filter_None_2. by left.
  - symmetry. apply not_elem_of_list_to_map. rewrite list_elem_of_fmap.
    intros ([q n] & -> & Hq). rewrite list_elem_of_omap in Hq.
    destruct Hq as ([q' n'] & _ & Hq'). simpl in Hq'. destruct (strip src q'); simplify_eq/=.
    by rewrite strip_app in Hd.
Qed.

Lemma apply_op_frame o m : frame (op_footprint o) m (apply_op o m).
Proof.
  intros p Hp. destruct o; simpl in *.
  - by rewrite lookup_insert_ne by congruence.
  - by rewrite lookup_insert_ne by congruence.
  - by rewrite lookup_delete_ne by congruence.
  - by apply move_frame.
  - by rewrite lookup_insert_ne by congruence.
  - done.
Qed.

(** ** Frames *)

#[global] Instance frame_preorder F : PreOrder (frame F).
Proof.
  split.
  - by intros m p _.
  - intros m1 m2 m3 H12 H23 p Hp. by rewrite H23, H12.
Qed.

Lemma frame_mono (F G : path -> Prop) m m' :
  (forall p, F p -> G p) -> frame F m m' -> frame G m m'.
Proof. intros HFG H p Hp. apply H. naive_solver. Qed.

#[global] Instance keeps_form_preorder : PreOrder keeps_form.
Proof. split; unfold keeps_form; [by intros m|]. intros m1 m2 m3; auto. Qed.

Lemma modifies_mono {A : Type} (F G : path -> Prop) (c : M A) :
  (forall p, F p -> G p) -> modifies F c -> modifies G c.
Proof. intros HFG H E w. by eapply frame_mono, H. Qed.

Section respects.
Context (I : relation fsmap) `{!PreOrder I}.

Lemma respects_ret {A : Type} (a : A) : respects I (mret a).
Proof. intros E w. simpl. reflexivity. Qed.

Lemma respects_fail {A : Type} e : respects I (@fail A e).
Proof. intros E w. simpl. reflexivity. Qed.

Lemma respects_bind {A B : Type} (c : M A) (k : A -> M B) :
  respects I c -> (forall a, respects I (k a)) -> respects I (c ≫= k).
Proof using Type*.
  intros Hc Hk E w. specialize (Hc E w). unfold mbind, M_bind.
  destruct (c E w) as [a w'|e w'|w']; simpl in *; [|done|done].
  etrans; [exact Hc|]. apply Hk.
Qed.

Lemma respects_attempt {A : Type} (c : M A) : respects I c -> respects I (attempt c).
Proof. intros Hc E w. specialize (Hc E w). unfold attempt. by destruct (c E w). Qed.

Lemma respects_for_each {A : Type} (f : A -> M unit) l :
  (forall a, a ∈ l -> respects I (f a)) -> respects I (for_each f l).
Proof using Type*.
  induction l as [|a l IH]; intros H; simpl; [apply respects_ret|].
  apply respects_bind; [apply H; left|]. intros _. apply IH. intros b Hb. apply H. by right.
Qed.

Lemma respects_fold_m {A B : Type} (f : B -> A -> M B) b l :
  (forall b a, a ∈ l -> respects I (f b a)) -> respects I (fold_m f b l).
Proof using Type*.
  revert b. induction l as [|a l IH]; intros b H; simpl; [apply respects_ret|].
  apply respects_bind; [apply H; left|]. intros b'. apply IH. intros b'' a' Ha. apply H. by right.
Qed.

Lemma respects_look {A : Type} (f : fsmap -> A + io_kind) : respects I (look f).
Proof using Type*.
  intros E w. unfold look. destruct (e_fault E (w_tick w)) as [[]|]; simpl; [done|done|].
  by destruct (f (w_fs w)).
Qed.

Lemma respects_change f :
  (forall E w o, f E w = inl (Some o) -> I (w_fs w) (apply_op o (w_fs w))) -> respects I (change f).
Proof using Type*.
  intros H E w. unfold change. destruct (e_fault E (w_tick w)) as [[]|]; simpl; [done|done|].
  destruct (f E w) as [[o|]|k] eqn:Ef; simpl; [by eapply H|done|done].
Qed.

Lemma respects_symlink_metadata p : respects I (symlink_metadata p).
Proof using Type*. apply respects_look. Qed.

Lemma respects_metadata p : respects I (metadata p).
Proof using Type*. apply respects_look. Qed.

Lemma respects_path_exists p : respects I (path_exists p).
Proof using Type*.
  apply respects_bind; [apply respects_attempt, respects_metadata|intros r; apply respects_ret].
Qed.

Lemma respects_path_is_dir p : respects I (path_is_dir p).
Proof using Type*.
  apply respects_bind; [apply respects_attempt, respects_metadata|intros r; apply respects_ret].
Qed.

Lemma respects_path_is_file p : respects I (path_is_file p).
Proof using Type*.
  apply respects_bind; [apply respects_attempt, respects_metadata|intros r; apply respects_ret].
Qed.

Lemma respects_fs_read p : respects I (fs_read p).
Proof using Type*. apply respects_look. Qed.

Lemma respects_read_dir d : respects I (read_dir d).
Proof using Type*. intros E w. unfold read_dir. apply respects_look. Qed.

Lemma respects_next_stamp : respects I next_stamp.
Proof using Type*. intros E w. simpl. reflexivity. Qed.

Lemma respects_clock : respects I clock.
Proof using Type*. intros E w. simpl. reflexivity. Qed.

Lemma respects_process_id : respects I process_id.
Proof using Type*. by intros E w. Qed.

Lemma respects_try_lock_pin p : respects I (try_lock_pin p).
Proof using Type*. intros E w. simpl. reflexivity. Qed.

Lemma respects_sync p : respects I (sync p).
Proof using Type*.
  apply respects_change. intros E w o Ho. case_match; simplify_eq. simpl. reflexivity.
Qed.

End respects.

#[export] Hint Resolve respects_symlink_metadata respects_metadata respects_path_exists
  respects_path_is_dir respects_path_is_file respects_fs_read respects_read_dir respects_next_stamp respects_clock respects_process_id
  respects_try_lock_pin respects_sync : frames.

#[export] Hint Extern 1 (PreOrder _) => apply _ : frames.

(** Takes one step through the structure of a program. *)
Ltac respects_step :=
  lazymatch goal with
  | |- respects _ (mret _) => apply respects_ret; apply _
  | |- respects _ (fail _) => apply respects_fail; apply _
  | |- respects _ (bail _) => apply respects_fail; apply _
  | |- respects _ (context ?o _) => unfold context; destruct o
  | |- respects _ (mbind _ _) => apply respects_bind; [apply _| |intro]
  | |- respects _ (attempt _) => apply respects_attempt
  | |- respects _ (look _) => apply respects_look; apply _
  | |- respects _ (for_each _ _) => apply respects_for_each; [apply _|intros ? _]
  | |- respects _ (fold_m _ _ _) => apply respects_fold_m; [apply _|intros ? ? _]
  | |- respects _ (match ?x with _ => _ end) => destruct x
  | |- respects _ (let '(_, _) := ?x in _) => destruct x
  | |- respects _ (let _ := _ in _) => cbv zeta
  end.

Ltac respects_tac := repeat ((solve [eauto 4 with frames]) || respects_step).

Lemma modifies_change (F : path -> Prop) f :
  (forall E w o p, f E w = inl (Some o) -> op_footprint o p -> F p) -> modifies F (change f).
Proof.
  intros H. apply respects_change; [apply _|]. intros E w o Ho.
  eapply frame_mono; [|apply apply_op_frame]. eauto.
Qed.

(** A rename that changes the tree: what it needed, and that it replaces
    nothing but a file or an empty directory. *)
Lemma rename_in_Some m src dst o :
  rename_in m src dst = inl (Some o) ->
  o = ORename src dst /\ is_Some (m !! src) /\ ~ below src dst /\ parent_is_dir m dst = true /\
  (m !! dst = Some NDir -> m !! src = Some NDir /\ has_entries m dst = false) /\
  (m !! src = Some NDir -> m !! dst = None \/ m !! dst = Some NDir).
Proof.
  unfold rename_in. intros H. destruct (m !! src) as [n|] eqn:Hsrc; [|done].
  case_bool_decide; [done|]. case_bool_decide as Hb; [done|].
  destruct (parent_is_dir m dst); [|done].
  destruct n, (m !! dst) as [[]|] eqn:?; try destruct (has_entries m dst) eqn:?; simplify_eq;
    naive_solver.
Qed.

Lemma rename_in_None m src dst : rename_in m src dst = inl None -> src = dst.
Proof. unfold rename_in. case_bool_decide; repeat case_match; congruence. Qed.

Section primitives.
Context (F : path -> Prop).

Lemma modifies_ensure_dir p : F p -> modifies F (ensure_dir p).
Proof.
  intros HF. apply modifies_change. intros E w o q Ho. repeat case_match; simplify_eq. by intros ->.
Qed.

Lemma modifies_create_dir p : F p -> modifies F (create_dir p).
Proof.
  intros HF. apply modifies_change. intros E w o q Ho. repeat case_match; simplify_eq. by intros ->.
Qed.

Lemma modifies_hard_link src p : F p -> modifies F (hard_link src p).
Proof.
  intros HF. apply modifies_change. intros E w o q Ho. unfold new_name in Ho.
  repeat case_match; simplify_eq; by intros ->.
Qed.

Lemma modifies_create_new p : F p -> modifies F (create_new p).
Proof.
  intros HF. apply modifies_change. intros E w o q Ho. repeat case_match; simplify_eq. by intros ->.
Qed.

Lemma modifies_create_file p : F p -> modifies F (create_file p).
Proof.
  intros HF. apply modifies_change.
  intros E w o q Ho. repeat case_match; simplify_eq; by intros ->.
Qed.

Lemma modifies_write_all p d : F p -> modifies F (write_all p d).
Proof.
  intros HF E w q Hq. unfold write_all. destruct (w_fs w !! p) as [[]|]; [|done..].
  destruct (e_fault E (w_tick w)) as [[]|]; simpl; by rewrite lookup_insert_ne by congruence.
Qed.

Lemma modifies_fs_write p d : F p -> modifies F (fs_write p d).
Proof.
  intros HF. unfold fs_write. apply respects_bind; [apply _|by apply modifies_create_file|].
  intros _. by apply modifies_write_all.
Qed.

Lemma modifies_rename src dst :
  (forall p, below src p -> F p) -> (forall p, below dst p -> F p) -> modifies F (rename src dst).
Proof.
  intros Hs Hd. apply modifies_change. intros E w o p (-> & _)%rename_in_Some [?|?]; auto.
Qed.

Lemma modifies_remove_file p : F p -> modifies F (remove_file p).
Proof.
  intros HF. apply modifies_change.
  intros E w o q Ho. repeat case_match; simplify_eq; by intros ->.
Qed.

Lemma modifies_remove_dir p : F p -> modifies F (remove_dir p).
Proof.
  intros HF. apply modifies_change.
  intros E w o q Ho. repeat case_match; simplify_eq; by intros ->.
Qed.

Lemma modifies_symlink t p : F p -> modifies F (symlink t p).
Proof.
  intros HF. apply modifies_change.
  intros E w o q Ho. repeat case_match; simplify_eq; by intros ->.
Qed.

End primitives.

#[export] Hint Resolve modifies_ensure_dir modifies_create_dir modifies_hard_link modifies_create_new
  modifies_create_file modifies_write_all modifies_fs_write modifies_rename
  modifies_remove_file modifies_remove_dir modifies_symlink : frames.

(** The directories [create_dir_all p] may make are the prefixes of [p]. *)
Lemma prefixes_below d r q : q ∈ prefixes d r -> below d q /\ below q (d ++ r).
Proof.
  revert d. induction r as [|x r IH]; intros d; simpl; [by intros ?%elem_of_nil|].
  rewrite elem_of_cons. intros [->|Hq].
  - split; [apply below_snoc|]. apply below_spec. exists r. by rewrite <- app_assoc.
  - apply IH in Hq as [H1 H2]. split; [by eapply below_child|]. by rewrite <- app_assoc in H2.
Qed.

Lemma modifies_create_dir_all (F : path -> Prop) p :
  (forall q, below q p -> F q) -> modifies F (create_dir_all p).
Proof.
  intros HF. apply respects_for_each; [apply _|]. intros q [_ Hq]%prefixes_below.
  apply modifies_ensure_dir. by apply HF.
Qed.

Lemma modifies_remove_tree (F : path -> Prop) n p :
  (forall q, below p q -> F q) -> modifies F (remove_tree n p).
Proof.
  revert p. induction n as [|n IH]; intros p HF; simpl; respects_tac.
  apply IH. intros q Hq. apply HF. by eapply below_child.
Qed.

Lemma modifies_remove_dir_all (F : path -> Prop) p :
  (forall q, below p q -> F q) -> modifies F (remove_dir_all p).
Proof. intros HF E w. unfold remove_dir_all. by apply modifies_remove_tree. Qed.

#[export] Hint Resolve modifies_create_dir_all modifies_remove_dir_all : frames.

(** ** Triples *)

Section triples.
Context {A : Type} (E : env).
Implicit Types (P X : fsmap -> Prop) (Q : A -> fsmap -> Prop) (c : M A).

Lemma t_conseq P P' c Q Q' X X' :
  triple E P' c Q' X' ->
  (forall m, P m -> P' m) -> (forall a m, Q' a m -> Q a m) -> (forall m, X' m -> X m) ->
  triple E P c Q X.
Proof.
  intros H HP HQ HX w Hw. specialize (H w (HP _ Hw)). destruct (c E w); auto.
Qed.

Lemma t_pre P P' c Q X : triple E P' c Q X -> (forall m, P m -> P' m) -> triple E P c Q X.
Proof. intros Hc HP w Hw. by apply Hc, HP. Qed.

(** It is enough to reason from one concrete tree at a time. *)
Lemma t_start P c Q X : (forall m, P m -> triple E (eq m) c Q X) -> triple E P c Q X.
Proof. intros H w Hw. by apply (H (w_fs w)). Qed.

Lemma t_ret (P : fsmap -> Prop) a Q X :
  (forall m, P m -> Q a m) -> triple E P (mret a) Q X.
Proof. intros H w Hw. simpl. auto. Qed.

Lemma t_fail P e Q X : (forall m, P m -> X m) -> triple E P (fail e) Q X.
Proof. intros H w Hw. simpl. auto. Qed.

Lemma t_bind {B : Type} P (b : M B) (k : B -> M A) R Q X :
  triple E P b R X -> (forall x, triple E (R x) (k x) Q X) -> triple E P (b ≫= k) Q X.
Proof.
  intros Hb Hk w Hw. specialize (Hb w Hw). unfold mbind, M_bind.
  destruct (b E w) as [x w'|e w'|w']; [|done|done]. by apply Hk.
Qed.

Lemma t_modifies F m0 c : modifies F c -> triple E (eq m0) c (fun _ => frame F m0) (frame F m0).
Proof. intros H w ->. specialize (H E w). by destruct (c E w). Qed.

Lemma t_frame F m0 c : modifies F c -> triple E (eq m0) c (fun _ => frame F m0) (fun _ => True).
Proof. intros H w ->. specialize (H E w). by destruct (c E w). Qed.

(** A program that touches nothing preserves any property of the tree. *)
Lemma t_silent P c (R : fsmap -> Prop) X :
  modifies (fun _ => False) c -> (forall m, P m -> R m) -> (forall m, P m -> X m) ->
  triple E P c (fun _ => R) X.
Proof.
  intros H HR HX w Hw. specialize (H E w).
  assert (Heq : w_fs (left_by (c E w)) = w_fs w) by (apply map_eq; intros p; apply H; tauto).
  destruct (c E w) as [a w'|e w'|w']; simpl in Heq; rewrite Heq; auto.
Qed.

Lemma t_look P (f : fsmap -> A + io_kind) Q X :
  (forall m, P m -> X m) -> (forall m a, P m -> f m = inl a -> Q a m) ->
  triple E P (look f) Q X.
Proof.
  intros HX HQ w Hw. unfold look. destruct (e_fault E (w_tick w)) as [[]|]; simpl; [auto|auto|].
  destruct (f (w_fs w)) eqn:?; simpl; auto.
Qed.

End triples.

Lemma t_attempt {A : Type} E P (c : M A) Q X :
  triple E P c Q X ->
  triple E P (attempt c) (fun r m => match r with inl a => Q a m | inr _ => X m end) X.
Proof.
  intros H w Hw. specialize (H w Hw). unfold attempt. by destruct (c E w).
Qed.

Lemma t_change E (P X : fsmap -> Prop) (Q : unit -> fsmap -> Prop) f :
  (forall m, P m -> X m) ->
  (forall w o, P (w_fs w) -> f E w = inl (Some o) -> Q tt (apply_op o (w_fs w))) ->
  (forall w, P (w_fs w) -> f E w = inl None -> Q tt (w_fs w)) ->
  triple E P (change f) Q X.
Proof.
  intros HX HS HN w Hw. unfold change. destruct (e_fault E (w_tick w)) as [[]|]; simpl; [auto|auto|].
  destruct (f E w) as [[o|]|k] eqn:Ef; simpl; auto.
Qed.

(** ** Reading

    [reads c R]: [c] leaves the tree alone and what it returns is related to
    it by [R]. *)

Definition reads {A : Type} (c : M A) (R : fsmap -> A -> Prop) : Prop :=
  forall E w,
    w_fs (left_by (c E w)) = w_fs w /\
    (forall a w', c E w = Ok a w' -> R (w_fs w) a).

Lemma t_reads {A : Type} E P (c : M A) R (Q : A -> fsmap -> Prop) X :
  reads c R -> (forall m, P m -> X m) -> (forall m a, P m -> R m a -> Q a m) ->
  triple E P c Q X.
Proof.
  intros Hc HX HQ w Hw. destruct (Hc E w) as [Hfs Ha].
  destruct (c E w) as [a w'|e w'|w']; simpl in Hfs; rewrite Hfs; eauto.
Qed.

Lemma reads_modifies {A : Type} (c : M A) R F : reads c R -> modifies F c.
Proof. intros H E w p _. by rewrite (proj1 (H E w)). Qed.

Lemma reads_mono {A : Type} (c : M A) (R R' : fsmap -> A -> Prop) :
  (forall m a, R m a -> R' m a) -> reads c R -> reads c R'.
Proof. intros HR H E w. destruct (H E w). split; eauto. Qed.

Lemma reads_ret {A : Type} (a : A) (R : fsmap -> A -> Prop) : (forall m, R m a) -> reads (mret a) R.
Proof. intros HR E w. split; [done|]. intros a' w' [= -> ->]. apply HR. Qed.

Lemma reads_fail {A : Type} e (R : fsmap -> A -> Prop) : reads (fail e) R.
Proof. intros E w. split; [done|]. by intros a' w' [=]. Qed.

Lemma reads_bind {A B : Type} (c : M A) (k : A -> M B) R S :
  reads c R -> (forall a, reads (k a) (fun m b => R m a -> S m b)) -> reads (c ≫= k) S.
Proof.
  intros Hc Hk E w. destruct (Hc E w) as [Hfs Ha]. unfold mbind, M_bind.
  destruct (c E w) as [a w'|e w'|w']; simpl in *; [|by split|by split].
  destruct (Hk a E w') as [Hfs' Hb]. rewrite Hfs', Hfs. split; [done|].
  intros b w'' Heq. specialize (Hb _ _ Heq). rewrite Hfs in Hb. eauto.
Qed.

Lemma reads_attempt {A : Type} (c : M A) R :
  reads c R -> reads (attempt c) (fun m r => match r with inl a => R m a | inr _ => True end).
Proof.
  intros Hc E w. destruct (Hc E w) as [Hfs Ha]. unfold attempt.
  destruct (c E w) as [a w'|e w'|w']; simpl in *; (split; [done|]);
    intros r w'' Heq; simplify_eq; eauto.
Qed.

Lemma reads_look {A : Type} (f : fsmap -> A + io_kind) : reads (look f) (fun m a => f m = inl a).
Proof.
  intros E w. unfold look. destruct (e_fault E (w_tick w)) as [[]|]; [by split|by split|].
  destruct (f (w_fs w)) eqn:?; (split; [done|]); intros a' w' Heq; by simplify_eq.
Qed.

Lemma reads_symlink_metadata p : reads (symlink_metadata p) (fun m n => m !! p = Some n).
Proof.
  eapply reads_mono; [| apply reads_look]. intros m n. unfold lstat_in. by destruct (m !! p) eqn:?; intros; simplify_eq.
Qed.

Lemma reads_and {A : Type} (c : M A) R S :
  reads c R -> reads c S -> reads c (fun m a => R m a /\ S m a).
Proof. intros HR HS E w. destruct (HR E w), (HS E w). eauto. Qed.

Lemma reads_for_each {A : Type} (f : A -> M unit) l (R : A -> fsmap -> Prop) :
  (forall a, reads (f a) (fun m _ => R a m)) ->
  reads (for_each f l) (fun m _ => forall a, a ∈ l -> R a m).
Proof.
  intros Hf. induction l as [|a l IH]; simpl.
  - apply reads_ret. by intros m a ?%elem_of_nil.
  - eapply reads_bind; [apply Hf|]. intros []. eapply reads_mono, IH.
    intros m u HR Ha b [->|?]%elem_of_cons; auto.
Qed.

(** The accumulator of a fold satisfies an invariant of the elements seen. *)
Lemma reads_fold_m {A B : Type} (f : B -> A -> M B) (Inv : fsmap -> B -> list A -> Prop) b l :
  (forall seen b a, reads (f b a) (fun m b' => Inv m b seen -> Inv m b' (seen ++ [a]))) ->
  reads (fold_m f b l) (fun m b' => Inv m b [] -> Inv m b' l).
Proof.
  intros Hf.
  enough (forall seen, reads (fold_m f b l) (fun m b' => Inv m b seen -> Inv m b' (seen ++ l)))
    as Hgen by apply (Hgen []).
  revert b. induction l as [|a l IH]; intros b seen; simpl.
  - rewrite app_nil_r. by apply reads_ret.
  - eapply reads_bind; [apply (Hf seen)|]. intros b'. eapply reads_mono, (IH b' (seen ++ [a])).
    intros m b'' HI Hf' Hb. rewrite <- app_assoc in HI. by apply HI, Hf'.
Qed.

Lemma reads_read_dir d :
  reads (read_dir d) (fun m l => stat_in m d = inl NDir /\ l ≡ₚ entries m d).
Proof.
  intros E w. unfold read_dir.
  match goal with |- context [look ?f] => destruct (reads_look f E w) as [Hfs Ha] end.
  split; [exact Hfs|]. intros l w' Heq%Ha. repeat case_match; simplify_eq.
  split; [done|]. apply e_order_perm.
Qed.

Lemma reads_true_clock : reads clock (fun _ _ => True).
Proof. by intros E w. Qed.

Lemma reads_true_next_stamp : reads next_stamp (fun _ _ => True).
Proof. by intros E w. Qed.

Lemma entry_of_Some d p x : entry_of d p = Some x <-> p = d /: x.
Proof.
  unfold entry_of. rewrite <- strip_Some. destruct (strip d p) as [[|y [|]]|]; split; intros; by simplify_eq.
Qed.

Lemma NoDup_entries m d : NoDup (entries m d).
Proof.
  apply NoDup_omap_inj; [|apply NoDup_fst_map_to_list].
  intros p p' x Hp%entry_of_Some Hp'%entry_of_Some. congruence.
Qed.

Lemma elem_of_entries m d x : x ∈ entries m d <-> is_Some (m !! (d /: x)).
Proof.
  unfold entries. rewrite list_elem_of_omap. setoid_rewrite list_elem_of_fmap. split.
  - intros (p & ([q n] & -> & Hq) & Hp%entry_of_Some). apply elem_of_map_to_list in Hq.
    simpl in *. subst. eauto.
  - intros [n Hn]. exists (d /: x). split; [exists (d /: x, n); by rewrite elem_of_map_to_list|].
    by apply entry_of_Some.
Qed.

(** [returns c P]: what [c] returns satisfies [P], whatever the tree. *)
Definition returns {A : Type} (c : M A) (P : A -> Prop) : Prop :=
  forall E w a w', c E w = Ok a w' -> P a.

Lemma returns_true {A : Type} (c : M A) : returns c (fun _ => True).
Proof. by intros E w a w' _. Qed.

Lemma returns_ret {A : Type} (a : A) (P : A -> Prop) : P a -> returns (mret a) P.
Proof. intros HP E w a' w' [= -> ->]. done. Qed.

Lemma returns_fail {A : Type} e (P : A -> Prop) : returns (fail e) P.
Proof. by intros E w a w' [=]. Qed.

Lemma returns_bind {A B : Type} (c : M A) (k : A -> M B) P Q :
  returns c P -> (forall a, P a -> returns (k a) Q) -> returns (c ≫= k) Q.
Proof.
  intros Hc Hk E w b w'. unfold mbind, M_bind.
  destruct (c E w) as [a w1|e w1|w1] eqn:Ec; [|done..]. by apply (Hk a), (Hc E w a w1).
Qed.

Lemma respects_bind_returns {A B : Type} I `{!PreOrder I} (c : M A) (k : A -> M B) P :
  respects I c -> returns c P -> (forall a, P a -> respects I (k a)) -> respects I (c ≫= k).
Proof.
  intros Hc HP Hk E w. specialize (Hc E w). specialize (HP E w). unfold mbind, M_bind.
  destruct (c E w) as [a w'|e w'|w']; simpl in *; [|done|done].
  etrans; [exact Hc|]. eapply Hk, HP. done.
Qed.

Lemma t_keeps {A : Type} E (c : M A) :
  respects keeps_form c -> triple E well_formed c (fun _ => well_formed) well_formed.
Proof. intros Hc w Hw. specialize (Hc E w Hw). by destruct (c E w). Qed.

Lemma t_keep_form {A : Type} E P (c : M A) Q X :
  (forall m, P m -> well_formed m) -> respects keeps_form c -> triple E P c Q X ->
  triple E P c (fun a m => Q a m /\ well_formed m) X.
Proof.
  intros HP Hc HQ w Hw. specialize (Hc E w (HP _ Hw)). specialize (HQ w Hw). by destruct (c E w).
Qed.

(** Two facts about one program, one of them only about success. *)
Lemma t_also {A : Type} E P (c : M A) (Q Q' : A -> fsmap -> Prop) X :
  triple E P c Q X -> triple E P c Q' (fun _ => True) -> triple E P c (fun a m => Q a m /\ Q' a m) X.
Proof. intros HQ HQ' w Hw. specialize (HQ w Hw). specialize (HQ' w Hw). by destruct (c E w). Qed.

Lemma t_any {A : Type} E P (c : M A) : triple E P c (fun _ _ => True) (fun _ => True).
Proof. intros w _. by destruct (c E w). Qed.

Lemma t_for_each_inv {A : Type} E (P : fsmap -> Prop) (f : A -> M unit) xs :
  (forall x, x ∈ xs -> triple E P (f x) (fun _ => P) P) -> triple E P (for_each f xs) (fun _ => P) P.
Proof.
  induction xs as [| x xs IH]; intros Hf; simpl; [by apply t_ret |].
  eapply t_bind; [apply Hf; by left |]. intros u. apply IH. intros y Hy. apply Hf. by right.
Qed.

(** Regroups the first two of three steps. *)
Lemma t_bind_assoc {A B C : Type} E P (a : M A) (b : A -> M B) (k : B -> M C) Q X :
  triple E P ((x ← a; b x) ≫= k) Q X -> triple E P (x ← a; y ← b x; k y) Q X.
Proof.
  intros Hc w Hw. specialize (Hc w Hw). unfold mbind, M_bind in *. by destruct (a E w).
Qed.

Lemma t_unit E P (c : M unit) (Q : unit -> fsmap -> Prop) X :
  triple E P (_ ← c; mret tt) Q X -> triple E P c Q X.
Proof.
  intros Hc w Hw. specialize (Hc w Hw). unfold mbind, M_bind in *. by destruct (c E w) as [[]| |].
Qed.

Lemma t_discard {A : Type} E P (c : M A) (Q X : fsmap -> Prop) :
  triple E P c (fun _ => Q) X -> triple E P (_ ← c; mret tt) (fun _ => Q) X.
Proof. intros Hc. eapply t_bind; [exact Hc|]. intros a. by apply t_ret. Qed.

Lemma t_and {A : Type} E P P' (c : M A) (Q Q' : A -> fsmap -> Prop) X X' :
  triple E P c Q X -> triple E P' c Q' X' ->
  triple E (fun m => P m /\ P' m) c (fun a m => Q a m /\ Q' a m) (fun m => X m /\ X' m).
Proof.
  intros H H' w [Hw Hw']. specialize (H w Hw). specialize (H' w Hw'). by destruct (c E w).
Qed.

Lemma t_returns {A : Type} E P (c : M A) (Q : A -> fsmap -> Prop) X V :
  triple E P c Q X -> returns c V -> triple E P c (fun a m => Q a m /\ V a) X.
Proof.
  intros Hc HV w Hw. specialize (Hc w Hw). specialize (HV E w).
  destruct (c E w); [split; [done|by eapply HV]|done..].
Qed.

(** ** Well-formed trees *)

Definition parent_ok (m : fsmap) (p : path) : Prop :=
  exists d x, p = d /: x /\ (d = [] \/ m !! d = Some NDir).

Lemma parent_is_dir_ok m p : parent_is_dir m p = true -> parent_ok m p.
Proof.
  unfold parent_is_dir. destruct (parent p) as [d|] eqn:Hd; [|done].
  assert (Hp : exists x, p = d /: x).
  { destruct p as [|y p]; simplify_eq/=. exists (List.last (y :: p) ""%string).
    by apply app_removelast_last. }
  destruct Hp as [x ->]. intros H. exists d, x. split; [done|].
  destruct d as [|y d]; [by left|right]. unfold stat_in in H. by repeat case_match; simplify_eq.
Qed.

Lemma snoc_ne (d : path) x : d /: x <> d.
Proof. intros H. apply (f_equal length) in H. rewrite length_app in H. simpl in H. lia. Qed.

Lemma well_formed_insert m p n :
  well_formed m -> parent_ok m p -> n = NDir \/ m !! p <> Some NDir ->
  well_formed (<[p := n]> m).
Proof.
  intros Hwf (d & y & -> & Hd) Hn q x Hq.
  assert (Hm : q = [] \/ m !! q = Some NDir).
  { rewrite lookup_insert in Hq. case_decide as Heq; [|by apply Hwf in Hq].
    apply app_inj_tail in Heq as [<- _]. done. }
  destruct Hm as [?|Hm]; [by left|right].
  rewrite lookup_insert. case_decide as Heq; [|done]. subst. destruct Hn; congruence.
Qed.

Lemma well_formed_delete m p :
  well_formed m -> p = [] \/ (forall x, m !! (p /: x) = None) -> well_formed (delete p m).
Proof.
  intros Hwf Hno q x Hq. rewrite lookup_delete in Hq. case_decide; [by destruct Hq|].
  destruct (Hwf q x Hq) as [?|Hm]; [by left|].
  destruct Hno as [->|Hno].
  - destruct q; [by left|right]. by rewrite lookup_delete_ne.
  - right. rewrite lookup_delete_ne; [done|]. intros ->. rewrite Hno in Hq. by destruct Hq.
Qed.

Lemma no_entries m d x : has_entries m d = false -> m !! (d /: x) = None.
Proof.
  unfold has_entries. intros H. destruct (m !! (d /: x)) eqn:E; [|done].
  assert (Hx : x ∈ entries m d) by (by apply elem_of_entries; eexists).
  destruct (entries m d); [by apply elem_of_nil in Hx|done].
Qed.

Lemma well_formed_move m src dst :
  well_formed m -> ~ below src dst -> parent_ok m dst -> well_formed (move src dst m).
Proof.
  intros Hwf Hnb (d & y & -> & Hd) q x Hq. rewrite lookup_move in Hq by done.
  destruct (strip (d /: y) (q /: x)) as [s|] eqn:Es.
  - apply strip_Some in Es. destruct s as [|z s _] using rev_ind.
    + rewrite app_nil_r in Es. apply app_inj_tail in Es as [-> ->].
      destruct Hd as [?|Hd]; [by left|right]. rewrite lookup_move by done.
      replace (strip (d /: y) d) with (@None path).
      * rewrite decide_False; [done|]. intros Hs. apply Hnb.
        eapply below_trans; [exact Hs|apply below_snoc].
      * symmetry. apply strip_None. intros s Hs. apply (f_equal length) in Hs.
        rewrite !length_app in Hs. simpl in Hs. lia.
    + rewrite app_assoc in Es. apply app_inj_tail in Es as [-> ->]. right.
      rewrite lookup_move, strip_app by done. rewrite app_assoc in Hq.
      destruct (Hwf _ _ Hq) as [Hnil|?]; [|done].
      apply app_eq_nil in Hnil as [-> _]. destruct Hnb. apply below_spec. by eexists.
  - case_decide as Hb; [by destruct Hq|].
    destruct (Hwf _ _ Hq) as [?|Hm]; [by left|right]. rewrite lookup_move by done.
    destruct (strip (d /: y) q) as [s|] eqn:Es'.
    + exfalso. apply strip_Some in Es' as ->. rewrite strip_None in Es.
      apply (Es (s /: x)). by rewrite app_assoc.
    + rewrite decide_False; [done|]. intros Hs. apply Hb.
      eapply below_trans; [exact Hs|apply below_snoc].
Qed.

(** A path that is not a directory has no entries. *)
Lemma no_children m p x :
  well_formed m -> p <> [] -> m !! p <> Some NDir -> m !! (p /: x) = None.
Proof.
  intros Hwf Hp Hn. destruct (m !! (p /: x)) eqn:Em; [|done].
  destruct (Hwf p x) as [?|?]; [by eexists|done|done].
Qed.

Lemma keeps_form_ensure_dir p : respects keeps_form (ensure_dir p).
Proof.
  apply respects_change; [apply _|]. intros E w o Ho Hwf. repeat case_match; simplify_eq.
  apply well_formed_insert; [done|by apply parent_is_dir_ok|by left].
Qed.

Lemma keeps_form_create_dir p : respects keeps_form (create_dir p).
Proof.
  apply respects_change; [apply _|]. intros E w o Ho Hwf. repeat case_match; simplify_eq.
  apply well_formed_insert; [done|by apply parent_is_dir_ok|by left].
Qed.

Lemma keeps_form_hard_link src p : respects keeps_form (hard_link src p).
Proof.
  apply respects_change; [apply _|]. intros E w o Ho Hwf. unfold new_name in Ho.
  repeat case_match; simplify_eq;
    (apply well_formed_insert; [done|by apply parent_is_dir_ok|right; congruence]).
Qed.

Lemma keeps_form_create_new p : respects keeps_form (create_new p).
Proof.
  apply respects_change; [apply _|]. intros E w o Ho Hwf. repeat case_match; simplify_eq.
  apply well_formed_insert; [done|by apply parent_is_dir_ok|right; congruence].
Qed.

Lemma keeps_form_create_file p : respects keeps_form (create_file p).
Proof.
  apply respects_change; [apply _|]. intros E w o Ho Hwf. repeat case_match; simplify_eq;
  (apply well_formed_insert; [done|by apply parent_is_dir_ok|right; congruence]).
Qed.

Lemma keeps_form_put_file m p f f' :
  well_formed m -> m !! p = Some (NFile f) -> well_formed (<[p := NFile f']> m).
Proof.
  intros Hwf Hp q x Hq.
  assert (Hm : is_Some (m !! (q /: x))).
  { rewrite lookup_insert in Hq. case_decide; [subst; by eexists|done]. }
  apply Hwf in Hm as [?|Hm]; [by left|right].
  rewrite lookup_insert_ne; [done|congruence].
Qed.

Lemma keeps_form_write_all p d : respects keeps_form (write_all p d).
Proof.
  intros E w Hwf. unfold write_all. destruct (w_fs w !! p) as [[f| |]|] eqn:Hp; [|done..].
  destruct (e_fault E (w_tick w)) as [[]|]; simpl; by eapply keeps_form_put_file.
Qed.

Lemma keeps_form_rename src dst : respects keeps_form (rename src dst).
Proof.
  apply respects_change; [apply _|].
  intros E w o (-> & _ & Hnb & Hp & _)%rename_in_Some Hwf.
  by apply well_formed_move; [| |apply parent_is_dir_ok].
Qed.

Lemma keeps_form_remove_file p : respects keeps_form (remove_file p).
Proof.
  apply respects_change; [apply _|]. intros E w o Ho Hwf.
  assert (Hp : o = OUnlink p /\ w_fs w !! p <> Some NDir) by (repeat case_match; by simplify_eq).
  destruct Hp as [-> Hp]. apply well_formed_delete; [done|].
  destruct (decide (p = [])); [by left|right]. intros x. by apply no_children.
Qed.

Lemma keeps_form_remove_dir p : respects keeps_form (remove_dir p).
Proof.
  apply respects_change; [apply _|]. intros E w o Ho Hwf. repeat case_match; simplify_eq.
  apply well_formed_delete; [done|]. right. intros x. by apply no_entries.
Qed.

Lemma keeps_form_symlink t p : respects keeps_form (symlink t p).
Proof.
  apply respects_change; [apply _|]. intros E w o Ho Hwf. repeat case_match; simplify_eq.
  apply well_formed_insert; [done|by apply parent_is_dir_ok|right; congruence].
Qed.

#[export] Hint Resolve keeps_form_ensure_dir keeps_form_create_dir keeps_form_hard_link
  keeps_form_create_new keeps_form_create_file
  keeps_form_write_all keeps_form_rename keeps_form_remove_file keeps_form_remove_dir
  keeps_form_symlink : frames.

Lemma keeps_form_fs_write p d : respects keeps_form (fs_write p d).
Proof. unfold fs_write. respects_tac. Qed.

Lemma keeps_form_create_dir_all p : respects keeps_form (create_dir_all p).
Proof. unfold create_dir_all. respects_tac. Qed.

Lemma keeps_form_remove_dir_all p : respects keeps_form (remove_dir_all p).
Proof.
  intros E w. unfold remove_dir_all. generalize (S (max_depth (w_fs w))) as n. intros n.
  enough (forall p, respects keeps_form (remove_tree n p)) as H by apply H.
  clear. induction n as [|n IH]; intros p; simpl; respects_tac.
Qed.

#[export] Hint Resolve keeps_form_fs_write keeps_form_create_dir_all
  keeps_form_remove_dir_all : frames.
