(* ===== verification/FsUtil.v ===== *)
(** * Shared file helpers

    [src/src/fsutil.rs], [src/src/sparse_copy.rs] (its macOS path, the
    platform the program ships on) and the durable-write helpers at the top
    of [src/src/store.rs].  [serde_json] is not part of the repository: the
    class [Json] stands for the encoder and decoder of one type, and
    [JsonLaws] states what its documentation promises and the code relies
    on. *)

From S2P Require Import Prelude FileSystem FsLogic.

(** ** fsutil.rs *)

(** Removes a file, symlink or directory tree; a missing path is not an
    error, and symlinks are removed, never followed. *)
Definition remove_path_if_exists (p : path) : M unit :=
  r ← attempt (symlink_metadata p);
  match r with
  | inl NDir => remove_dir_all p
  | inl _ => remove_file p
  | inr (Io NotFound) => mret tt
  | inr e => fail e
  end.

(** ** sparse_copy.rs *)

Definition u64_max : N := 2 ^ 64 - 1.

(** [u64::saturating_add] *)
Definition saturating_add (a b : N) : N := N.min (a + b) u64_max.

Definition LARGE_SPARSE_IMAGE_BYTES : N := 8 * 1024 * 1024 * 1024.

Definition SPARSENESS_SLACK_BYTES : N := 64 * 1024 * 1024.

(** Whether a copy of a [len]-byte file kept its source's sparseness. *)
Definition kept_sparseness (len source_allocated copy_allocated : N) : bool :=
  (len <? LARGE_SPARSE_IMAGE_BYTES)%N
  || (copy_allocated <=? saturating_add source_allocated SPARSENESS_SLACK_BYTES)%N.

Definition node_len (n : node) : N :=
  match n with NFile f => file_len f | _ => 0 end.

(** [metadata.blocks() * 512] *)
Definition node_allocated (n : node) : N :=
  match n with NFile f => f_blocks f * 512 | _ => 0 end.

Definition cloned_destination_is_sparse_safe (p : path) (len source_allocated : N) : M bool :=
  n ← metadata p; mret (kept_sparseness len source_allocated (node_allocated n)).

(** [clonefile(2)] of a regular file: the destination must not exist. *)
Definition clonefile (src dst : path) : M unit := change (fun E w =>
  match stat_in (w_fs w) src with
  | inl (NFile f) =>
      if parent_is_dir (w_fs w) dst then
        match w_fs w !! dst with
        | None => inl (Some (OWrite dst (mk_file (f_data f) (e_blocks E (w_tick w)))))
        | Some _ => inr AlreadyExists
        end
      else inr NotFound
  | inl _ => inr OtherIo
  | inr k => inr k
  end).

(** Restores timestamps and permissions, which the tree does not record: a
    call on the destination that can fail. *)
Definition preserve_file_metadata (dst : path) : M unit :=
  _ ← metadata dst; mret tt.

Definition clone_or_copy_file (src dst : path) : M unit :=
  _ ← match parent dst with Some d => create_dir_all d | None => mret tt end;
  meta ← metadata src;
  let len := node_len meta in
  let allocated := node_allocated meta in
  _ ← attempt (remove_file dst);
  _ ← clonefile src dst;
  safe ← cloned_destination_is_sparse_safe dst len allocated;
  if (safe : bool) then preserve_file_metadata dst
  else (_ ← remove_file dst; bail "clonefile produced dense clone").

(** Recursively clones a tree, recreating symlinks rather than following
    them. *)
Fixpoint clone_tree (n : nat) (src dst : path) : M unit :=
  node ← symlink_metadata src;
  match node with
  | NDir =>
      match n with
      | O => bail "directory tree too deep"
      | S n' =>
          _ ← create_dir_all dst;
          names ← read_dir src;
          for_each (fun x => clone_tree n' (src /: x) (dst /: x)) names
      end
  | NLink t =>
      _ ← match parent dst with Some d => create_dir_all d | None => mret tt end;
      symlink t dst
  | NFile _ => clone_or_copy_file src dst
  end.

Definition clone_or_copy_tree (src dst : path) : M unit := fun E w =>
  clone_tree (S (max_depth (w_fs w))) src dst E w.

(** ** Durable writes (store.rs) *)

(** [new_id]: unique, sortable by creation time, safe as a path component. *)
Definition format_id (prefix : string) (nanos pid seq : N) : string :=
  prefix +:+ format_padded 20 nanos +:+ "-" +:+ pretty pid +:+ "-" +:+ pretty seq.

Definition new_id (prefix : string) : M string :=
  stamp ← next_stamp;
  let '(nanos, pid, seq) := stamp in
  mret (format_id prefix nanos pid seq).

(** [F_BARRIERFSYNC], or [sync_all] when that fails. *)
Definition sync_file (p : path) : M unit :=
  r ← attempt (sync p);
  match r with inl _ => mret tt | inr _ => sync p end.

(** [File::open] followed by [sync_file]; [sync_dir] is this on a
    directory. *)
Definition open_and_sync (p : path) : M unit :=
  _ ← metadata p; sync_file p.

Definition sync_dir (p : path) : M unit := open_and_sync p.

Definition file_name (p : path) : string := default ""%string (last p).

Definition with_file_name (p : path) (name : string) : path := removelast p /: name.

Definition unique_temp_sibling (p : path) : M path :=
  id ← new_id "";
  mret (with_file_name p (file_name p +:+ ".tmp-" +:+ id)).

(** The steps of [commit_file] once the temporary name is chosen. *)
Definition commit_steps (dir temp p : path) (contents : bytes) : M unit :=
  _ ← create_new temp;
  _ ← write_all temp contents;
  _ ← sync_file temp;
  _ ← rename temp p;
  sync_dir dir.

(** Atomically and durably replaces [p] with [contents]. *)
Definition commit_file (p : path) (contents : bytes) : M unit :=
  dir ← context (parent p) "committed file has no parent";
  temp ← unique_temp_sibling p;
  result ← attempt (commit_steps dir temp p contents);
  match result with
  | inl _ => mret tt
  | inr e => _ ← attempt (remove_file temp); fail e
  end.

(** Syncs every regular file under [dir], then each directory bottom-up. *)
Fixpoint sync_walk (n : nat) (dir : path) : M unit :=
  match n with
  | O => bail "directory tree too deep"
  | S n' =>
      names ← read_dir dir;
      _ ← for_each (fun x =>
            node ← symlink_metadata (dir /: x);
            match node with
            | NDir => sync_walk n' (dir /: x)
            | NFile _ => open_and_sync (dir /: x)
            | NLink _ => mret tt
            end) names;
      sync_dir dir
  end.

Definition sync_tree (dir : path) : M unit := fun E w =>
  sync_walk (S (max_depth (w_fs w))) dir E w.

(** ** JSON *)

(** The encoder and decoder [serde_json] derives for a type. *)
Class Json (A : Type) := {
  to_vec_pretty : A -> bytes;
  from_slice : bytes -> option A;
}.

(** What the code relies on: a value's encoding decodes to the value, with
    the newline the code appends after it; [valid] is what the type's
    deserializer checks. *)
Class JsonLaws (A : Type) `{Json A} (valid : A -> Prop) := {
  json_roundtrip : forall a, valid a -> from_slice (to_vec_pretty a ++ [newline]) = Some a;
  json_valid : forall b a, from_slice b = Some a -> valid a;
}.

Section json_files.
Context {A : Type} `{Json A}.

Definition commit_json (p : path) (value : A) : M unit :=
  commit_file p (to_vec_pretty value ++ [newline]).

Definition read_json (p : path) : M (option A) :=
  r ← attempt (fs_read p);
  match r with
  | inl contents =>
      match from_slice contents with
      | Some a => mret (Some a)
      | None => bail "parse"
      end
  | inr (Io NotFound) => mret None
  | inr e => fail e
  end.

End json_files.

(** ** What they touch *)

Lemma modifies_remove_path_if_exists (F : path -> Prop) p :
  (forall q, below p q -> F q) -> modifies F (remove_path_if_exists p).
Proof.
  intros HF. unfold remove_path_if_exists. respects_tac.
Qed.

Lemma modifies_clonefile (F : path -> Prop) src dst : F dst -> modifies F (clonefile src dst).
Proof.
  intros HF. apply modifies_change. intros E w o q Ho. repeat case_match; simplify_eq. by intros ->.
Qed.

Lemma below_parent q p : below q (removelast p) -> below q p.
Proof.
  intros Hq. destruct (decide (p = [])) as [->|Hp]; [done|].
  rewrite (app_removelast_last ""%string Hp). eapply below_trans; [exact Hq|apply below_snoc].
Qed.

Lemma modifies_create_parent (F : path -> Prop) p :
  (forall q, below q p -> F q) ->
  modifies F (match parent p with Some d => create_dir_all d | None => mret tt end).
Proof.
  intros HF. destruct (parent p) as [d|] eqn:Hd; [|apply respects_ret; apply _].
  apply modifies_create_dir_all. intros q Hq. apply HF, below_parent.
  destruct p; simplify_eq/=. done.
Qed.

#[export] Hint Resolve modifies_remove_path_if_exists modifies_clonefile
  modifies_create_parent : frames.

Lemma modifies_clone_or_copy_file (F : path -> Prop) src dst :
  (forall q, below q dst -> F q) -> modifies F (clone_or_copy_file src dst).
Proof.
  intros HF. unfold clone_or_copy_file, cloned_destination_is_sparse_safe, preserve_file_metadata.
  respects_tac.
Qed.

#[export] Hint Resolve modifies_clone_or_copy_file : frames.

(** A copied tree stays below its destination, apart from the directories
    made on the way to it. *)
Lemma modifies_clone_tree (F : path -> Prop) n src dst :
  (forall q, below q dst -> F q) -> (forall q, below dst q -> F q) ->
  modifies F (clone_tree n src dst).
Proof.
  revert src dst. induction n as [|n IH]; intros src dst Hup Hdn; simpl.
  all: respects_tac.
  apply IH; intros q Hq.
  - destruct (decide (below q dst)) as [|Hn]; [auto|]. apply Hdn.
    apply below_spec in Hq as [s Hs]. destruct s as [|y s _] using rev_ind.
    + rewrite app_nil_r in Hs. subst. apply below_snoc.
    + rewrite app_assoc in Hs. apply app_inj_tail in Hs as [-> _]. destruct Hn. apply below_app.
  - apply Hdn. by eapply below_child.
Qed.

Lemma modifies_clone_or_copy_tree (F : path -> Prop) src dst :
  (forall q, below q dst -> F q) -> (forall q, below dst q -> F q) ->
  modifies F (clone_or_copy_tree src dst).
Proof. intros H1 H2 E w. by apply modifies_clone_tree. Qed.

#[export] Hint Resolve modifies_clone_or_copy_tree : frames.

Section respects.
Context (I : relation fsmap) `{!PreOrder I}.

Lemma respects_new_id s : respects I (new_id s).
Proof using Type*. unfold new_id. respects_tac. Qed.

Lemma respects_sync_file p : respects I (sync_file p).
Proof using Type*. unfold sync_file. respects_tac. Qed.

Lemma respects_open_and_sync p : respects I (open_and_sync p).
Proof using Type*. pose proof respects_sync_file. unfold open_and_sync. respects_tac. Qed.

Lemma respects_sync_dir p : respects I (sync_dir p).
Proof using Type*. apply respects_open_and_sync. Qed.

Lemma respects_sync_tree p : respects I (sync_tree p).
Proof using Type*.
  intros E w. unfold sync_tree. generalize (S (max_depth (w_fs w))) as n. intros n.
  pose proof respects_open_and_sync. pose proof respects_sync_dir.
  enough (forall p, respects I (sync_walk n p)) as Hw by apply Hw.
  induction n as [|n IH]; intros d; simpl; respects_tac.
Qed.

Lemma respects_read_json {A : Type} `{Json A} p : respects I (read_json (A := A) p).
Proof using Type*. unfold read_json. respects_tac. Qed.

End respects.

#[export] Hint Resolve respects_new_id respects_sync_file respects_sync_dir
  respects_open_and_sync respects_sync_tree respects_read_json : frames.

Lemma respects_unique_temp_sibling I `{!PreOrder I} p : respects I (unique_temp_sibling p).
Proof. unfold unique_temp_sibling. respects_tac. Qed.

#[export] Hint Resolve respects_unique_temp_sibling : frames.

(** ** Well-formedness *)

Lemma keeps_form_clonefile src dst : respects keeps_form (clonefile src dst).
Proof.
  apply respects_change; [apply _|]. intros E w o Ho Hwf. repeat case_match; simplify_eq.
  apply well_formed_insert; [done|by apply parent_is_dir_ok|right; congruence].
Qed.

Lemma keeps_form_remove_path_if_exists p : respects keeps_form (remove_path_if_exists p).
Proof. unfold remove_path_if_exists. respects_tac. Qed.

#[export] Hint Resolve keeps_form_clonefile keeps_form_remove_path_if_exists : frames.

Lemma keeps_form_clone_or_copy_file src dst : respects keeps_form (clone_or_copy_file src dst).
Proof.
  unfold clone_or_copy_file, cloned_destination_is_sparse_safe, preserve_file_metadata.
  respects_tac.
Qed.

#[export] Hint Resolve keeps_form_clone_or_copy_file : frames.

Lemma keeps_form_clone_tree n src dst : respects keeps_form (clone_tree n src dst).
Proof. revert src dst. induction n as [|n IH]; intros src dst; simpl; respects_tac. Qed.

Lemma keeps_form_clone_or_copy_tree src dst : respects keeps_form (clone_or_copy_tree src dst).
Proof. intros E w. apply keeps_form_clone_tree. Qed.

Lemma keeps_form_commit_file p b : respects keeps_form (commit_file p b).
Proof. unfold commit_file, commit_steps. respects_tac. Qed.

#[export] Hint Resolve keeps_form_clone_or_copy_tree keeps_form_commit_file : frames.

Lemma keeps_form_commit_json {A : Type} `{Json A} p (a : A) : respects keeps_form (commit_json p a).
Proof. unfold commit_json. respects_tac. Qed.

#[export] Hint Resolve keeps_form_commit_json : frames.

(** ** Atomic replacement *)

(** The temporary name [commit_file] uses for [p]. *)
Definition temp_of (p : path) (id : string) : path :=
  with_file_name p (file_name p +:+ ".tmp-" +:+ id).

(** What [commit_file p] may touch: [p] and its temporary siblings. *)
Definition commit_footprint (p q : path) : Prop :=
  below p q \/ exists id, below (temp_of p id) q.

Definition holds (contents : bytes) (o : option node) : Prop :=
  exists b, o = Some (NFile (mk_file contents b)).

(** [p] is as it was, or holds all of [contents]. *)
Definition old_or_new (p : path) (contents : bytes) (m0 m : fsmap) : Prop :=
  frame (commit_footprint p) m0 m /\ (m !! p = m0 !! p \/ holds contents (m !! p)).

Lemma snoc_parent p d : parent p = Some d -> exists n, p = d /: n /\ file_name p = n.
Proof.
  destruct p as [|x p]; [done|]. intros [= <-].
  exists (List.last (x :: p) ""%string). split.
  - by apply app_removelast_last.
  - unfold file_name. rewrite (app_removelast_last ""%string (l := x :: p)) at 1 by done.
    by rewrite last_snoc.
Qed.

Lemma temp_of_snoc d n id : temp_of (d /: n) id = d /: (n +:+ ".tmp-" +:+ id).
Proof. unfold temp_of, with_file_name, file_name. by rewrite removelast_last, last_snoc. Qed.

Lemma temp_name_ne n id : n +:+ ".tmp-" +:+ id <> n.
Proof. intros H. apply (f_equal String.length) in H. rewrite !string_app_length in H. simpl in H. lia. Qed.

Lemma temp_apart d n id q : below (temp_of (d /: n) id) q -> ~ below (d /: n) q.
Proof.
  rewrite temp_of_snoc. intros H1 H2. eapply temp_name_ne, below_sibling; [exact H1|exact H2].
Qed.

Lemma temp_ne d n id : temp_of (d /: n) id <> d /: n.
Proof. intros Heq. apply (temp_apart d n id (d /: n)); [rewrite Heq|]; apply below_refl. Qed.

Lemma t_write_all E (P X : fsmap -> Prop) (Q : unit -> fsmap -> Prop) p data :
  (forall m b, P m -> Q tt (<[p := NFile (mk_file data b)]> m)) ->
  (forall m d b, P m -> X (<[p := NFile (mk_file d b)]> m)) ->
  (forall m, P m -> X m) ->
  triple E P (write_all p data) Q X.
Proof.
  intros HQ HX HX' w Hw. unfold write_all. destruct (w_fs w !! p) as [[]|]; simpl; [|by auto..].
  destruct (e_fault E (w_tick w)) as [[]|]; simpl; auto.
Qed.

(** After the temporary file is written, renaming it puts [contents] at [p]. *)
Lemma t_rename_commit E d n id contents m0 :
  let p := d /: n in
  triple E
    (fun m => old_or_new p contents m0 m /\ holds contents (m !! temp_of p id))
    (rename (temp_of p id) p)
    (fun _ m => old_or_new p contents m0 m /\ holds contents (m !! p))
    (old_or_new p contents m0).
Proof.
  intros p. assert (Hapart : forall q, below (temp_of p id) q -> ~ below p q)
    by (intros q; apply temp_apart).
  apply t_change.
  - by intros m [? _].
  - intros w o [[Hf Hp] [b Hb]] (-> & _)%rename_in_Some. simpl. assert (Hnew : move (temp_of p id) p (w_fs w) !! p = Some (NFile (mk_file contents b))).
    { rewrite lookup_move.
      - replace (strip p p) with (Some (@nil string)) by (symmetry; apply strip_Some; by rewrite app_nil_r).
        by rewrite app_nil_r.
      - intros H. by apply Hapart in H as []; apply below_refl. }
    split; [|by eexists]. split; [|right; by eexists].
    etrans; [exact Hf|]. eapply frame_mono; [|apply move_frame].
    intros q [Hq|Hq]; [right; by exists id|by left].
  - intros w _ Ho%rename_in_None. by apply temp_ne in Ho.
Qed.

Lemma t_commit_steps E d n id contents m0 :
  let p := d /: n in
  triple E (eq m0) (commit_steps d (temp_of p id) p contents)
    (fun _ m => old_or_new p contents m0 m /\ holds contents (m !! p))
    (old_or_new p contents m0).
Proof.
  intros p. assert (Hapart : forall q, below (temp_of p id) q -> ~ below p q)
    by (intros q; apply temp_apart).
  assert (Hput : forall m f, old_or_new p contents m0 m ->
     old_or_new p contents m0 (<[temp_of p id := NFile f]> m)).
  { intros m f [Hf Hp]. split; [|by rewrite lookup_insert_ne by apply temp_ne].
    etrans; [exact Hf|]. intros q Hq. rewrite lookup_insert_ne; [done|].
    intros <-. apply Hq. right. exists id. apply below_refl. }
  assert (H0 : old_or_new p contents m0 m0) by (split; [done|by left]).
  unfold commit_steps.
  apply t_bind with (R := fun _ => old_or_new p contents m0).
  { apply t_change; [by intros ? <-|..].
    - intros w o Hw Ho. repeat case_match; simplify_eq. by apply Hput.
    - intros w <- Ho. repeat case_match; simplify_eq. }
  intros _. apply t_bind with
    (R := fun _ m => old_or_new p contents m0 m /\ holds contents (m !! temp_of p id)).
  { apply t_write_all; [|by intros; apply Hput|done].
    intros m b Hm. split; [by apply Hput|]. exists b. apply lookup_insert_eq. }
  intros _. apply t_bind with
    (R := fun _ m => old_or_new p contents m0 m /\ holds contents (m !! temp_of p id)).
  { apply t_silent; [auto with frames|done|by intros m [? _]]. }
  intros _. apply t_bind with (R := fun _ m => old_or_new p contents m0 m /\ holds contents (m !! p)).
  { apply t_rename_commit. }
  intros _. apply t_silent; [auto with frames|done|by intros m [? _]].
Qed.

(** Whatever goes wrong, and wherever the process dies, [commit_file p]
    leaves [p] as it was or holding all of the new contents, and touches
    nothing but [p] and its own temporary file; when it returns, [p] holds the
    new contents. *)
Lemma t_commit_file E p contents m0 :
  triple E (eq m0) (commit_file p contents)
    (fun _ m => old_or_new p contents m0 m /\ holds contents (m !! p))
    (old_or_new p contents m0).
Proof.
  assert (H0 : old_or_new p contents m0 m0) by (split; [done|by left]).
  unfold commit_file, context. destruct (parent p) as [d|] eqn:Hd; [|apply t_fail; by intros ? <-].
  apply snoc_parent in Hd as (n & -> & Hn).
  apply t_bind with (R := fun x m => x = d /\ m = m0); [by apply t_ret|].
  intros d'. apply t_start. intros ? [-> ->].
  apply t_bind with (R := fun t m => (exists id, t = temp_of (d /: n) id) /\ m = m0).
  { unfold unique_temp_sibling. apply t_bind with (R := fun _ m => m = m0).
    - apply t_silent; [auto with frames|done|by intros ? <-].
    - intros id. apply t_ret. intros m ->. split; [by exists id|done]. }
  intros t. apply t_start. intros ? [[id ->] ->].
  eapply t_bind; [apply t_attempt, t_commit_steps|]. intros [[]|e].
  - by apply t_ret.
  - apply t_bind with (R := fun _ => old_or_new (d /: n) contents m0); [|intros _; by apply t_fail].
    apply t_start. intros m [Hf Hp]. eapply t_conseq.
    + apply (t_modifies _ (fun q => q = temp_of (d /: n) id)).
      by apply respects_attempt, modifies_remove_file.
    + done.
    + simpl. intros _ m' Hm'. split.
      * etrans; [exact Hf|]. eapply frame_mono; [|exact Hm'].
        intros q ->. right. exists id. apply below_refl.
      * rewrite Hm'; [done|]. intros Heq. by apply (temp_ne d n id).
    + intros m' Hm'. split.
      * etrans; [exact Hf|]. eapply frame_mono; [|exact Hm'].
        intros q ->. right. exists id. apply below_refl.
      * rewrite Hm'; [done|]. intros Heq. by apply (temp_ne d n id).
Qed.
