(* ===== verification/FsCopy.v ===== *)
(** * Copies are copies

    What [clone_or_copy_file] and [clone_or_copy_tree] leave when they
    return: the same files with the same contents, the same directories and
    the same symlinks, whatever was refused or retried on the way. *)

From S2P Require Import Prelude FileSystem FsLogic FsUtil.

(** Equal up to the blocks allocated to a file. *)
Definition same_node (n n' : option node) : Prop :=
  match n, n' with
  | Some (NFile f), Some (NFile f') => f_data f = f_data f'
  | Some NDir, Some NDir => True
  | Some (NLink t), Some (NLink t') => t = t'
  | None, None => True
  | _, _ => False
  end.

#[global] Instance same_node_equiv : Equivalence same_node.
Proof.
  split.
  - by intros [[]|].
  - by intros [[]|] [[]|].
  - intros [[]|] [[]|] [[]|]; simpl; congruence || done.
Qed.

(** The tree at [dst] in [m'] is the tree at [src] in [m]. *)
Definition copied (src dst : path) (m m' : fsmap) : Prop :=
  forall s, same_node (m !! (src ++ s)) (m' !! (dst ++ s)).

Definition absent (d : path) (m : fsmap) : Prop := forall s, m !! (d ++ s) = None.

Lemma below_nil q : below [] q.
Proof. apply below_spec. by exists q. Qed.

(** Below something that is not a directory there is nothing. *)
Lemma nothing_below m p s :
  well_formed m -> p <> [] -> m !! p <> Some NDir -> s <> [] -> m !! (p ++ s) = None.
Proof.
  intros Hwf Hp Hn. induction s as [|x s IH] using rev_ind; [done|]. intros _.
  rewrite app_assoc. apply no_children; [done|by destruct p|].
  destruct (decide (s = [])) as [->|Hs]; [by rewrite app_nil_r|]. by rewrite IH.
Qed.

(** What is above something is a directory. *)
Lemma above_is_dir m p s : well_formed m -> p <> [] -> s <> [] -> is_Some (m !! (p ++ s)) -> m !! p = Some NDir.
Proof.
  intros Hwf Hp Hs Hm. destruct (decide (m !! p = Some NDir)) as [|Hn]; [done|].
  rewrite (nothing_below m p s) in Hm by done. by destruct Hm.
Qed.

Lemma prefixes_not_root d r q : q ∈ prefixes d r -> q <> [].
Proof.
  revert d. induction r as [|x r IH]; intros d; simpl; [by intros ?%elem_of_nil|].
  intros [->|Hq]%elem_of_cons; [by destruct d|by eapply IH].
Qed.

(** In a directory, what is missing is reported as not found. *)
Lemma missing_in_dir m d x :
  well_formed m -> m !! d = Some NDir -> m !! (d /: x) = None -> missing_kind m (d /: x) = NotFound.
Proof.
  intros Hwf Hd Hx. unfold missing_kind. destruct (existsb _ _) eqn:Ex; [|done].
  apply existsb_exists in Ex as (q & Hin%list_elem_of_In & Hnode). exfalso.
  assert (Hroot := prefixes_not_root _ _ _ Hin). apply prefixes_below in Hin as [_ Hq].
  apply below_snoc_inv in Hq as [->|[s ->]%below_spec]; [by rewrite Hx in Hnode|].
  destruct s as [|y s]; [by rewrite app_nil_r in Hd; rewrite Hd in Hnode|].
  rewrite (above_is_dir m q (y :: s)) in Hnode; [done..|by rewrite Hd].
Qed.

Lemma absent_intro m p : well_formed m -> p <> [] -> m !! p = None -> absent p m.
Proof.
  intros Hwf Hp Hn [|x s]; [by rewrite app_nil_r|]. by apply nothing_below; [| |congruence|].
Qed.

Lemma absent_child d x m : absent d m -> absent (d /: x) m.
Proof. intros Ha s. rewrite <- app_assoc. apply Ha. Qed.

(** ** Directories *)

Lemma t_ensure_dir E m0 p :
  triple E (eq m0) (ensure_dir p) (fun _ m => frame (eq p) m0 m /\ m !! p = Some NDir) (fun _ => True).
Proof.
  apply t_change; [done|..].
  - intros w o Hw Ho. repeat case_match; simplify_eq. split.
    + intros q Hq. simpl. rewrite lookup_insert_ne; congruence.
    + apply lookup_insert_eq.
  - intros w <- Ho. split; [done|]. unfold stat_in in Ho. by repeat case_match; simplify_eq.
Qed.

Lemma t_create_dir_all E m0 p :
  p <> [] ->
  triple E (eq m0) (create_dir_all p)
    (fun _ m => frame (fun q => below q p) m0 m /\ m !! p = Some NDir) (fun _ => True).
Proof.
  intros Hp. unfold create_dir_all.
  enough (forall r d m1, r <> [] -> frame (fun q => below q (d ++ r)) m0 m1 ->
    triple E (eq m1) (for_each ensure_dir (prefixes d r))
     (fun _ m => frame (fun q => below q (d ++ r)) m0 m /\ m !! (d ++ r) = Some NDir) (fun _ => True))
    as Hgen by (by apply (Hgen p [] m0)).
  induction r as [|x r IH]; [done|]. intros d m1 _ Hf1. simpl.
  eapply t_bind; [apply t_ensure_dir|]. intros ?. apply t_start. intros m2 [Hf2 Hd2].
  assert (Hf : frame (fun q => below q (d ++ x :: r)) m0 m2).
  { etrans; [exact Hf1|]. eapply frame_mono; [|exact Hf2]. intros q <-.
    apply below_spec. exists r. by rewrite <- app_assoc. }
  destruct r as [|y r]; [apply t_ret; by intros ? <-|].
  specialize (IH (d /: x) m2). rewrite <- app_assoc in IH. by apply IH.
Qed.

(** ** Files *)

Lemma t_create_parent E m0 p :
  triple E (eq m0) (match parent p with Some d => create_dir_all d | None => mret tt end)
    (fun _ => frame (fun q => below q p /\ q <> p) m0) (fun _ => True).
Proof.
  destruct (parent p) as [d|] eqn:Hd; [|apply t_ret; by intros ? <-].
  apply snoc_parent in Hd as (n & -> & _).
  eapply t_conseq; [apply (t_modifies _ (fun q => below q (d /: n) /\ q <> d /: n))|done|done|done].
  apply modifies_create_dir_all. intros q Hq. split.
  - eapply below_trans; [exact Hq|apply below_snoc].
  - intros ->. by apply not_below_child in Hq.
Qed.

(** [dst] holds what [src] held. *)
Definition file_copied (src dst : path) (m0 m : fsmap) : Prop :=
  frame (fun q => below q dst) m0 m /\
  exists f b, m0 !! src = Some (NFile f) /\ m !! dst = Some (NFile (mk_file (f_data f) b)).

Lemma t_clonefile E m0 src dst :
  ~ below src dst ->
  triple E (frame (fun q => below q dst) m0) (clonefile src dst)
    (fun _ => file_copied src dst m0) (fun _ => True).
Proof.
  intros Hnb. apply t_change; [done|..].
  - intros w o Hw Ho. repeat case_match; simplify_eq. simpl. split.
    + etrans; [exact Hw|]. intros q Hq. rewrite lookup_insert_ne; [done|].
      intros <-. apply Hq, below_refl.
    + eexists _, _. split; [|apply lookup_insert_eq].
      match goal with Hs : stat_in _ _ = _ |- _ => unfold stat_in in Hs end.
      rewrite <- Hw by done. by repeat case_match; simplify_eq.
  - intros w Hw Ho. exfalso. repeat case_match; simplify_eq.
Qed.

Lemma t_clone_or_copy_file E m0 src dst :
  ~ below src dst ->
  triple E (eq m0) (clone_or_copy_file src dst) (fun _ => file_copied src dst m0) (fun _ => True).
Proof.
  intros Hnb. unfold clone_or_copy_file, cloned_destination_is_sparse_safe, preserve_file_metadata.
  eapply t_bind; [apply t_create_parent|]. intros ?.
  eapply t_bind; [apply t_silent; [auto with frames|intros m Hm; exact Hm|done]|]. intros meta. cbv zeta.
  apply t_bind with (R := fun _ => frame (fun q => below q dst) m0).
  { apply t_start. intros m1 Hm1.
    eapply t_conseq; [apply (t_modifies _ (eq dst)), respects_attempt, modifies_remove_file; done|done|..|done].
    simpl. intros _ m Hm. etrans; [eapply frame_mono, Hm1; by intros q [? _]|].
    eapply frame_mono, Hm. intros q <-. apply below_refl. }
  intros _. eapply t_bind; [by apply t_clonefile|]. intros ?.
  apply t_bind with (R := fun _ => file_copied src dst m0);
    [by apply t_silent; [respects_tac|..]|].
  intros [|].
  - by apply t_silent; [respects_tac|..].
  - eapply t_bind with (R := fun _ _ => True); [|intros _; by apply t_fail].
    intros w _. by destruct (remove_file dst E w).
Qed.

(** ** Trees *)

Lemma same_node_file f b : same_node (Some (NFile f)) (Some (NFile (mk_file (f_data f) b))).
Proof. done. Qed.

(** A leaf is copied when its node is. *)
Lemma copied_leaf src dst m0 m :
  well_formed m0 -> src <> [] -> m0 !! src <> Some NDir -> absent dst m0 ->
  frame (fun q => below q dst) m0 m -> same_node (m0 !! src) (m !! dst) ->
  copied src dst m0 m.
Proof.
  intros Hwf Hsrc Hnd Habs Hf Hn [|x s]; [by rewrite !app_nil_r|].
  rewrite (nothing_below m0 src) by done. rewrite Hf; [by rewrite Habs|].
  intros [t Ht]%below_spec. apply (f_equal length) in Ht. rewrite !length_app in Ht. simpl in Ht. lia.
Qed.

Lemma t_symlink E m0 t dst :
  triple E (frame (fun q => below q dst) m0) (symlink t dst)
    (fun _ m => frame (fun q => below q dst) m0 m /\ m !! dst = Some (NLink t)) (fun _ => True).
Proof.
  apply t_change; [done|..].
  - intros w o Hw Ho. repeat case_match; simplify_eq. simpl. split; [|apply lookup_insert_eq].
    etrans; [exact Hw|]. intros q Hq. rewrite lookup_insert_ne; [done|]. intros <-. apply Hq, below_refl.
  - intros w Hw Ho. exfalso. repeat case_match; simplify_eq.
Qed.

(** The paths a copy may touch. *)
Definition around (dst q : path) : Prop := below q dst \/ below dst q.

Definition tree_copied (src dst : path) (m0 m : fsmap) : Prop :=
  frame (around dst) m0 m /\ copied src dst m0 m.

(** Half way through copying a directory: [todo] are the entries left. *)
Definition half_copied (src dst : path) (m0 : fsmap) (todo : list string) (m : fsmap) : Prop :=
  frame (around dst) m0 m /\ m !! dst = Some NDir /\
  forall x, if decide (x ∈ todo) then is_Some (m0 !! (src /: x)) /\ absent (dst /: x) m
            else copied (src /: x) (dst /: x) m0 m.

Lemma around_apart src dst s : ~ below src dst -> ~ below dst src -> ~ around dst (src ++ s).
Proof.
  intros Hsd Hds [Hb|Hb].
  - apply Hsd. eapply below_trans, Hb. apply below_app.
  - apply below_app_inv in Hb. tauto.
Qed.

Lemma around_sibling d x y s : x <> y -> ~ around (d /: x) ((d /: y) ++ s).
Proof.
  intros Hne. apply around_apart; intros Hb.
  - apply Hne. eapply below_sibling, Hb. apply below_refl.
  - apply Hne. eapply below_sibling; [exact Hb|apply below_refl].
Qed.

Lemma around_child d x q : around (d /: x) q -> around d q.
Proof.
  intros [[->|Hb]%below_snoc_inv|Hb]; [right; apply below_snoc|by left|].
  right. by eapply below_child.
Qed.

Lemma half_copied_step src dst m0 x todo m m' :
  dst <> [] -> ~ below src dst -> ~ below dst src -> x ∉ todo -> well_formed m' ->
  half_copied src dst m0 (x :: todo) m -> tree_copied (src /: x) (dst /: x) m m' ->
  half_copied src dst m0 todo m'.
Proof.
  intros Hnil Hsd Hds Hx Hwf (Hf & Hd & Hall) [Hf' Hc].
  assert (Hsrc : forall s, m !! (src ++ s) = m0 !! (src ++ s)) by (intros s; by apply Hf, around_apart).
  assert (Hcx : copied (src /: x) (dst /: x) m0 m').
  { intros s. specialize (Hc s). rewrite <- app_assoc in *. by rewrite Hsrc in Hc. }
  assert (Hy : forall y s, y <> x -> m' !! ((dst /: y) ++ s) = m !! ((dst /: y) ++ s))
    by (intros y s Hy; by apply Hf', around_sibling).
  split_and!.
  - etrans; [exact Hf|]. eapply frame_mono, Hf'. apply around_child.
  - destruct (Hwf dst x) as [?|?]; [|done..]. specialize (Hall x).
    rewrite decide_True in Hall by left. destruct Hall as [[n Hn] _]. specialize (Hcx []).
    rewrite !app_nil_r, Hn in Hcx. destruct (m' !! (dst /: x)); [by eexists|by destruct n].
  - intros y. destruct (decide (y = x)) as [->|Hne]; [by rewrite decide_False|].
    specialize (Hall y). destruct (decide (y ∈ todo)).
    + rewrite decide_True in Hall by by right. destruct Hall as [? Ha]. split; [done|].
      intros s. by rewrite Hy.
    + rewrite decide_False in Hall by (rewrite elem_of_cons; tauto). intros s. by rewrite Hy.
Qed.

Lemma half_copied_start src dst m0 m names :
  well_formed m0 -> ~ below src dst -> ~ below dst src -> absent dst m0 ->
  frame (fun q => below q dst) m0 m -> m !! dst = Some NDir -> names ≡ₚ entries m src ->
  half_copied src dst m0 names m.
Proof.
  intros Hwf Hsd Hds Habs Hf Hd Hnames.
  assert (Hab : forall x, absent (dst /: x) m).
  { intros x s. rewrite Hf; [rewrite <- app_assoc; apply Habs|]. intros [t Ht]%below_spec.
    apply (f_equal length) in Ht. rewrite !length_app in Ht. simpl in Ht. lia. }
  assert (Hsrc : forall x, m !! (src /: x) = m0 !! (src /: x)).
  { intros x. apply Hf. intros Hb. apply Hsd. eapply below_trans, Hb. apply below_snoc. }
  split_and!; [eapply frame_mono, Hf; by left|done|].
  intros x. case_decide as Hx; rewrite Hnames, elem_of_entries, Hsrc in Hx; [done|].
  intros s. rewrite Hab. rewrite absent_intro; [done|done|by destruct src|].
  destruct (m0 !! (src /: x)); [by destruct Hx|done].
Qed.

Lemma half_copied_end src dst m0 m :
  m0 !! src = Some NDir -> half_copied src dst m0 [] m -> tree_copied src dst m0 m.
Proof.
  intros Hs (Hf & Hd & Hall). split; [done|]. intros [|x s]; [by rewrite !app_nil_r, Hs, Hd|].
  specialize (Hall x s). rewrite <- !app_assoc in Hall. done.
Qed.

(** The entries one by one. *)
Lemma t_clone_entries E src dst m0 (f : string -> M unit) todo :
  dst <> [] -> ~ below src dst -> ~ below dst src -> NoDup todo ->
  (forall x m, well_formed m -> absent (dst /: x) m ->
     triple E (eq m) (f x) (fun _ m' => tree_copied (src /: x) (dst /: x) m m' /\ well_formed m') (fun _ => True)) ->
  triple E (fun m => half_copied src dst m0 todo m /\ well_formed m)
    (for_each f todo) (fun _ m => half_copied src dst m0 [] m /\ well_formed m) (fun _ => True).
Proof.
  intros Hd Hsd Hds Hnd Hf. induction Hnd as [|x todo Hx _ IH]; simpl; [by apply t_ret|].
  apply t_bind with (R := fun _ m => half_copied src dst m0 todo m /\ well_formed m); [|by intros _].
  apply t_start. intros m [Hm Hwf].
  eapply t_conseq; [apply (Hf x m Hwf)|done| |done].
  - destruct Hm as (_ & _ & Hall). specialize (Hall x). rewrite decide_True in Hall by left. tauto.
  - intros _ m' [Hc Hwf']. split; [|done]. by apply (half_copied_step _ _ _ x _ m).
Qed.

Lemma t_clone_dir E src dst m0 (f : string -> M unit) :
  well_formed m0 -> dst <> [] -> ~ below src dst -> ~ below dst src -> absent dst m0 ->
  m0 !! src = Some NDir ->
  (forall x m, well_formed m -> absent (dst /: x) m ->
     triple E (eq m) (f x) (fun _ m' => tree_copied (src /: x) (dst /: x) m m' /\ well_formed m') (fun _ => True)) ->
  triple E (eq m0) (_ ← create_dir_all dst; names ← read_dir src; for_each f names)
    (fun _ m => tree_copied src dst m0 m /\ well_formed m) (fun _ => True).
Proof.
  intros Hwf Hd Hsd Hds Habs Hs Hf.
  eapply t_bind; [apply t_keep_form; [|auto with frames|by apply (t_create_dir_all E m0)]; by intros ? <-|].
  intros ?. apply t_start. intros m1 [[Hf1 Hd1] Hwf1].
  eapply t_bind; [eapply (t_reads _ _ _ _ (fun names m => m1 = m /\ names ≡ₚ entries m1 src));
    [apply reads_read_dir|done|by intros ? names <- [_ ?]]|].
  intros names. apply t_start. intros ? [<- Hnames].
  eapply t_conseq; [apply (t_clone_entries E src dst m0 f names); try done|..|done].
  - rewrite Hnames. apply NoDup_entries.
  - intros ? <-. split; [by apply half_copied_start|done].
  - intros _ m [Hm Hwfm]. split; [by apply half_copied_end|done].
Qed.

(** A file, a symlink, or a directory whose copy is [D]. *)
Lemma t_clone_node E src dst m0 (D : M unit) :
  well_formed m0 -> src <> [] -> ~ below src dst -> absent dst m0 ->
  (m0 !! src = Some NDir -> triple E (eq m0) D (fun _ => tree_copied src dst m0) (fun _ => True)) ->
  triple E (eq m0)
    (node ← symlink_metadata src;
     match node with
     | NDir => D
     | NLink t =>
         _ ← match parent dst with Some d => create_dir_all d | None => mret tt end;
         symlink t dst
     | NFile _ => clone_or_copy_file src dst
     end) (fun _ => tree_copied src dst m0) (fun _ => True).
Proof.
  intros Hwf Hs Hsd Habs HD.
  assert (Hup : forall m, frame (fun q => below q dst) m0 m -> frame (around dst) m0 m)
    by (intros m; apply frame_mono; by left).
  eapply t_bind; [apply (t_look _ _ _ (fun n m => m0 = m /\ m0 !! src = Some n)); [done|]|].
  { unfold lstat_in. intros m n <-. case_match; by intros [= <-]. }
  intros nd. apply t_start. intros ? [<- Hnd]. destruct nd as [f| |t]; [|by apply HD|].
  - eapply t_conseq; [by apply (t_clone_or_copy_file E m0 src)|done| |done].
    intros _ m [Hf (f' & b & Hf' & Hm)]. split; [by apply Hup|].
    apply copied_leaf; [done..|congruence|done|done|]. by rewrite Hf', Hm.
  - apply t_bind with (R := fun _ => frame (fun q => below q dst) m0).
    { eapply t_conseq; [apply t_create_parent|done| |done].
      intros ? m. apply frame_mono. by intros q [? _]. }
    intros _. eapply t_conseq; [apply t_symlink|done| |done]. intros _ m [Hf Hm].
    split; [by apply Hup|]. apply copied_leaf; [done..|congruence|done|done|]. by rewrite Hnd, Hm.
Qed.

Lemma t_clone_tree E n src dst m0 :
  well_formed m0 -> src <> [] -> dst <> [] -> ~ below src dst -> ~ below dst src -> absent dst m0 ->
  triple E (eq m0) (clone_tree n src dst)
    (fun _ m => tree_copied src dst m0 m /\ well_formed m) (fun _ => True).
Proof.
  intros Hwf Hs Hd Hsd Hds Habs.
  apply t_keep_form; [by intros ? <-|apply keeps_form_clone_tree|].
  revert src dst m0 Hwf Hs Hd Hsd Hds Habs.
  induction n as [|n IH]; intros src dst m0 Hwf Hs Hd Hsd Hds Habs; simpl;
    apply t_clone_node; try done; intros Hdir.
  assert (Hapart : forall x, ~ below (src /: x) (dst /: x) /\ ~ below (dst /: x) (src /: x)).
  { intros x. split; intros Hb; apply below_child, below_app_inv in Hb; tauto. }
  eapply t_conseq; [apply (t_clone_dir E src dst m0 (fun x => clone_tree n (src /: x) (dst /: x))); try done|done| |done].
  - intros x m Hwfm Habx. apply t_keep_form; [by intros ? <-|apply keeps_form_clone_tree|].
    apply IH; try done; [by destruct src|by destruct dst|apply Hapart..].
  - by intros _ m [? _].
Qed.

(** When [clone_or_copy_tree] returns, the destination is a copy and nothing
    outside it changed but the directories made on the way to it. *)
Lemma t_clone_or_copy_tree E src dst m0 :
  well_formed m0 -> src <> [] -> dst <> [] -> ~ below src dst -> ~ below dst src -> absent dst m0 ->
  triple E (eq m0) (clone_or_copy_tree src dst)
    (fun _ m => tree_copied src dst m0 m /\ well_formed m) (fun _ => True).
Proof.
  intros Hwf Hs Hd Hsd Hds Habs w Hw. unfold clone_or_copy_tree.
  by apply (t_clone_tree E (S (max_depth (w_fs w))) src dst m0).
Qed.
