(* ===== verification/FsTotal.v ===== *)
(** * Programs that succeed

    [total E P c Q]: from a tree satisfying [P], [c] returns, with a value and
    a tree related by [Q].  Where nothing goes wrong ([faultless E]), the
    primitive calls succeed whenever the tree allows it, and the recursive
    walks terminate within the fuel they are given. *)

From S2P Require Import Prelude FileSystem FsLogic FsUtil FsCopy.

Definition faultless (E : env) : Prop := forall t, e_fault E t = None.

Definition total {A : Type} (E : env) (P : fsmap -> Prop) (c : M A) (Q : A -> fsmap -> Prop) : Prop :=
  forall w, P (w_fs w) -> exists a w', c E w = Ok a w' /\ Q a (w_fs w').

Section total.
Context (E : env).

Lemma total_ret {A : Type} P (a : A) (Q : A -> fsmap -> Prop) :
  (forall m, P m -> Q a m) -> total E P (mret a) Q.
Proof. intros HQ w Hw. exists a, w. auto. Qed.

Lemma total_bind {A B : Type} P (c : M A) (k : A -> M B) R Q :
  total E P c R -> (forall a, total E (R a) (k a) Q) -> total E P (c ≫= k) Q.
Proof.
  intros Hc Hk w Hw. destruct (Hc w Hw) as (a & w1 & Hca & Ha).
  destruct (Hk a w1 Ha) as (b & w2 & Hkb & Hb). exists b, w2. split; [|done].
  unfold mbind, M_bind. by rewrite Hca.
Qed.

Lemma total_bind_assoc {A B C : Type} P (a : M A) (b : A -> M B) (k : B -> M C) Q :
  total E P ((x ← a; b x) ≫= k) Q -> total E P (x ← a; y ← b x; k y) Q.
Proof.
  intros Hc w Hw. destruct (Hc w Hw) as (c & w' & Hr & HQ). exists c, w'. split; [|done].
  unfold mbind, M_bind in *. by destruct (a E w).
Qed.

Lemma total_pre {A : Type} P P' (c : M A) Q :
  total E P' c Q -> (forall m, P m -> P' m) -> total E P c Q.
Proof. intros Hc HP w Hw. by apply Hc, HP. Qed.

Lemma total_post {A : Type} P (c : M A) (Q Q' : A -> fsmap -> Prop) :
  total E P c Q' -> (forall a m, Q' a m -> Q a m) -> total E P c Q.
Proof. intros Hc HQ w Hw. destruct (Hc w Hw) as (a & w' & ? & ?). exists a, w'. auto. Qed.

Lemma total_start {A : Type} P (c : M A) Q : (forall m, P m -> total E (eq m) c Q) -> total E P c Q.
Proof. intros Hc w Hw. by apply (Hc (w_fs w)). Qed.

Lemma total_attempt {A : Type} P (c : M A) Q :
  total E P c Q -> total E P (attempt c) (fun r m => exists a, r = inl a /\ Q a m).
Proof.
  intros Hc w Hw. destruct (Hc w Hw) as (a & w' & Hca & Ha). exists (inl a), w'.
  unfold attempt. rewrite Hca. eauto.
Qed.

(** A call that succeeds keeps whatever is known when it returns. *)
Lemma total_triple {A : Type} P (c : M A) Q Q' X :
  total E P c Q -> triple E P c Q' X -> total E P c (fun a m => Q a m /\ Q' a m).
Proof.
  intros Hc Ht w Hw. destruct (Hc w Hw) as (a & w' & Hca & Ha). exists a, w'.
  specialize (Ht w Hw). rewrite Hca in Ht. auto.
Qed.

Context (HE : faultless E).

Lemma total_look {A : Type} P (f : fsmap -> A + io_kind) (Q : A -> fsmap -> Prop) :
  (forall m, P m -> exists a, f m = inl a /\ Q a m) -> total E P (look f) Q.
Proof using HE.
  intros Hf w Hw. unfold look. rewrite HE. destruct (Hf _ Hw) as (a & -> & Ha). by exists a, (ticked w).
Qed.

(** A call that looks and may find nothing. *)
Lemma total_attempt_look {A : Type} P (f : fsmap -> A + io_kind) (Q : A + error -> fsmap -> Prop) :
  (forall m, P m -> Q (match f m with inl a => inl a | inr k => inr (Io k) end) m) ->
  total E P (attempt (look f)) Q.
Proof using HE.
  intros Hf w Hw. unfold attempt, look. rewrite HE. specialize (Hf _ Hw).
  destruct (f (w_fs w)); eexists _, (ticked w); split; done.
Qed.

Lemma total_change P f (Q : unit -> fsmap -> Prop) :
  (forall w, P (w_fs w) -> exists o, f E w = inl o /\
     Q tt (match o with Some o => apply_op o (w_fs w) | None => w_fs w end)) ->
  total E P (change f) Q.
Proof using HE.
  intros Hf w Hw. unfold change. rewrite HE. destruct (Hf _ Hw) as (o & -> & Ho).
  destruct o as [o|]; eexists tt, _; split; done.
Qed.

Lemma total_read_dir P d (Q : list string -> fsmap -> Prop) :
  (forall m, P m -> m !! d = Some NDir /\ forall l, l ≡ₚ entries m d -> Q l m) ->
  total E P (read_dir d) Q.
Proof using HE.
  intros Hd w Hw. destruct (Hd _ Hw) as [Hdir Hl]. unfold read_dir, look. rewrite HE.
  unfold stat_in. rewrite Hdir. eexists _, (ticked w). split; [done|]. apply Hl, e_order_perm.
Qed.

(** ** Removing a tree *)

Definition without (d : path) (m m' : fsmap) : Prop :=
  forall q, m' !! q = if decide (below d q) then None else m !! q.

(** Every path below [p] is less than [n] components deeper. *)
Definition shallow (n : nat) (p : path) (m : fsmap) : Prop :=
  forall s, is_Some (m !! (p ++ s)) -> length s < n.

Lemma total_remove_file m p n :
  m !! p = Some n -> n <> NDir ->
  total E (eq m) (remove_file p) (fun _ m' => m' = delete p m).
Proof using HE.
  intros Hp Hn. apply total_change. intros w Hw. subst m. rewrite Hp. exists (Some (OUnlink p)).
  split; [by destruct n|done].
Qed.

Lemma without_leaf m p :
  well_formed m -> p <> [] -> m !! p <> Some NDir -> without p m (delete p m).
Proof.
  intros Hwf Hp Hn q. case_decide as Hb.
  - apply below_spec in Hb as [[|x s] ->]; [rewrite app_nil_r; apply lookup_delete_eq|].
    rewrite lookup_delete_ne by (intros Heq; symmetry in Heq; apply (f_equal length) in Heq;
      rewrite length_app in Heq; simpl in Heq; lia).
    by apply nothing_below.
  - rewrite lookup_delete_ne; [done|]. intros ->. apply Hb, below_refl.
Qed.

Lemma well_formed_without d m m' : well_formed m -> without d m m' -> well_formed m'.
Proof.
  intros Hwf Hw q x. rewrite (Hw (q /: x)). case_decide as Hb; [by intros []|]. intros Hm.
  destruct (Hwf q x Hm) as [?|Hd]; [by left|right]. rewrite Hw, decide_False; [done|].
  intros Hq. apply Hb. eapply below_trans, below_snoc. done.
Qed.

(** Some entries of [p] have been removed. *)
Definition thinned (p : path) (gone : list string) (m m' : fsmap) : Prop :=
  forall q, m' !! q = if decide (Exists (fun x => below (p /: x) q) gone) then None else m !! q.

Lemma thinned_step p gone x m m1 m2 :
  thinned p gone m m1 -> without (p /: x) m1 m2 -> thinned p (gone ++ [x]) m m2.
Proof.
  intros H1 H2 q. rewrite H2, H1.
  pose proof (Exists_app (fun x => below (p /: x) q) gone [x]) as Ha.
  rewrite Exists_cons, Exists_nil in Ha. repeat case_decide; tauto.
Qed.

Lemma thinned_fresh p gone x s m m1 :
  x ∉ gone -> thinned p gone m m1 -> m1 !! ((p /: x) ++ s) = m !! ((p /: x) ++ s).
Proof.
  intros Hx H1. rewrite H1, decide_False; [done|]. rewrite Exists_exists. intros (y & Hy & Hb).
  assert (y = x) as ->; [|done]. eapply below_sibling; [exact Hb|apply below_app].
Qed.

Lemma thinned_all p m m1 names :
  p <> [] -> well_formed m -> m !! p = Some NDir -> names ≡ₚ entries m p -> thinned p names m m1 ->
  m1 !! p = Some NDir /\ has_entries m1 p = false /\ without p m (delete p m1).
Proof.
  intros Hp Hwf Hd Hn Ht.
  assert (Hin : forall x s, m1 !! (p ++ x :: s) = None).
  { intros x s. change (x :: s) with ([x] ++ s). rewrite app_assoc, Ht. case_decide as Hex; [done|].
    rewrite Exists_exists in Hex.
    assert (Hx : m !! (p /: x) = None).
    { destruct (m !! (p /: x)) eqn:Ex; [|done]. destruct Hex. exists x.
      rewrite Hn, elem_of_entries, Ex. split; [by eexists|apply below_app]. }
    apply absent_intro; [done|by destruct p|done]. }
  split_and!.
  - rewrite Ht, decide_False; [done|]. rewrite Exists_exists. intros (x & _ & Hb). by apply not_below_child in Hb.
  - unfold has_entries. destruct (entries m1 p) as [|x l] eqn:Ee; [done|].
    assert (Hx : x ∈ entries m1 p) by (rewrite Ee; left). apply elem_of_entries in Hx.
    rewrite Hin in Hx. by destruct Hx.
  - intros q. case_decide as Hb.
    + apply below_spec in Hb as [[|x s] ->]; [rewrite app_nil_r; apply lookup_delete_eq|].
      rewrite lookup_delete_ne; [done|]. intros Heq. apply (f_equal length) in Heq.
      rewrite length_app in Heq. simpl in Heq. lia.
    + rewrite lookup_delete_ne by (intros ->; apply Hb, below_refl).
      rewrite Ht, decide_False; [done|]. rewrite Exists_exists. intros (x & _ & Hx).
      by apply Hb, (below_child _ x).
Qed.

Lemma total_remove_entries m p (f : string -> M unit) names gone :
  NoDup (gone ++ names) ->
  (forall x m1, x ∈ names -> well_formed m1 -> (forall s, m1 !! ((p /: x) ++ s) = m !! ((p /: x) ++ s)) ->
     total E (eq m1) (f x) (fun _ m2 => without (p /: x) m1 m2)) ->
  total E (fun m1 => well_formed m1 /\ thinned p gone m m1) (for_each f names)
    (fun _ m2 => well_formed m2 /\ thinned p (gone ++ names) m m2).
Proof.
  revert gone. induction names as [|x names IH]; intros gone Hnd Hf; simpl.
  { apply total_ret. by rewrite app_nil_r. }
  apply total_bind with (R := fun _ m2 => well_formed m2 /\ thinned p (gone ++ [x]) m m2).
  - apply total_start. intros m1 [Hwf Ht]. eapply total_post.
    + apply Hf; [left|done|]. intros s. eapply thinned_fresh, Ht.
      apply NoDup_app in Hnd as (_ & Hdis & _). intros Hx. apply (Hdis x Hx). left.
    + intros ? m2 Hw. split; [exact (well_formed_without _ _ _ Hwf Hw)|exact (thinned_step _ _ _ _ _ _ Ht Hw)].
  - intros _. change (x :: names) with ([x] ++ names) in *. rewrite app_assoc in *.
    apply IH; [done|]. intros y m1 Hy. apply Hf. by right.
Qed.

(** With enough fuel, everything at and below [p] goes. *)
Lemma total_remove_tree n m p :
  well_formed m -> p <> [] -> is_Some (m !! p) -> shallow n p m ->
  total E (eq m) (remove_tree n p) (fun _ m' => without p m m').
Proof using HE.
  revert m p. induction n as [|n IH]; intros m p Hwf Hp [nd Hnd] Hsh.
  { exfalso. specialize (Hsh []). rewrite app_nil_r, Hnd in Hsh. simpl in Hsh. enough (0 < 0); [lia|eauto]. }
  simpl. eapply total_bind; [apply (total_look _ _ (fun x m' => x = nd /\ m = m'))|].
  { intros m' <-. unfold lstat_in. rewrite Hnd. eauto. }
  intros nd'. apply total_start. intros ? [-> <-].
  assert (Hleaf : nd <> NDir -> total E (eq m) (remove_file p) (fun _ m' => without p m m')).
  { intros Hn. eapply total_post; [by apply (total_remove_file m p nd)|]. intros _ m' ->.
    apply without_leaf; [done|done|congruence]. }
  destruct nd as [f| |t]; [by apply Hleaf| |by apply Hleaf].
  eapply total_bind; [apply (total_read_dir _ _ (fun l m' => m = m' /\ l ≡ₚ entries m p))|].
  { intros m' <-. auto. }
  intros names. apply total_start. intros ? [<- Hn].
  eapply total_bind.
  { eapply total_pre; [apply (total_remove_entries m p _ names [])|].
    - rewrite app_nil_l, Hn. apply NoDup_entries.
    - intros x m1 Hx Hwf1 Hs. rewrite Hn, elem_of_entries in Hx. apply IH; [done|by destruct p|..].
      + specialize (Hs []). rewrite !app_nil_r in Hs. by rewrite Hs.
      + intros s Hsome. rewrite Hs, <- app_assoc in Hsome. apply Hsh in Hsome. simpl in Hsome. lia.
    - intros ? <-. split; [done|]. intros q. rewrite decide_False; [done|]. by intros ?%Exists_nil. }
  intros []. apply total_start. intros m1 [Hwf1 Ht]. simpl in Ht.
  destruct (thinned_all p m m1 names) as (Hd1 & He1 & Hw1); [done..|].
  apply total_change. intros w <-. rewrite Hd1, He1. eexists. by split.
Qed.

Lemma shallow_max_depth m p : shallow (S (max_depth m)) p m.
Proof.
  intros s [n Hn]. unfold max_depth.
  assert (Hin : length (p ++ s) ∈ length <$> (map_to_list m).*1).
  { apply list_elem_of_fmap. exists (p ++ s). split; [done|].
    apply list_elem_of_fmap. exists (p ++ s, n). by rewrite elem_of_map_to_list. }
  apply max_list_elem_of_le in Hin. rewrite length_app in Hin. lia.
Qed.

Lemma total_remove_dir_all m p :
  well_formed m -> p <> [] -> is_Some (m !! p) ->
  total E (eq m) (remove_dir_all p) (fun _ m' => without p m m').
Proof using HE.
  intros Hwf Hp Hm w Hw. unfold remove_dir_all.
  apply (total_remove_tree _ m); [done..| |done]. subst. apply shallow_max_depth.
Qed.

Lemma total_remove_path_if_exists m p :
  well_formed m -> p <> [] -> (m !! p = None -> missing_kind m p = NotFound) ->
  total E (eq m) (remove_path_if_exists p) (fun _ m' => without p m m').
Proof using HE.
  intros Hwf Hp Hmiss. unfold remove_path_if_exists.
  eapply total_bind; [apply (total_attempt_look _ _ (fun r m' => m = m' /\
     r = match m !! p with Some n => inl n | None => inr (Io NotFound) end))|].
  { intros m' <-. unfold lstat_in. destruct (m !! p); [done|]. by rewrite Hmiss. }
  intros r. apply total_start. intros ? [<- ->]. destruct (m !! p) as [nd|] eqn:Hnd.
  - assert (Hleaf : nd <> NDir -> total E (eq m) (remove_file p) (fun _ m' => without p m m')).
    { intros Hn. eapply total_post; [by apply (total_remove_file m p nd)|]. intros _ m' ->.
      apply without_leaf; [done|done|congruence]. }
    destruct nd; [by apply Hleaf| |by apply Hleaf]. apply total_remove_dir_all; [done|done|]. by rewrite Hnd.
  - apply total_ret. intros m' <- q. case_decide as Hb; [|done].
    apply below_spec in Hb as [s ->]. by apply absent_intro.
Qed.

(** ** Moving a directory aside and removing it *)

Lemma total_rename_fresh m src dst :
  m !! src = Some NDir -> ~ below src dst -> parent_is_dir m dst = true -> m !! dst = None ->
  total E (eq m) (rename src dst) (fun _ m' => m' = move src dst m).
Proof using HE.
  intros Hs Hnb Hp Hd. apply total_change. intros w <-. exists (Some (ORename src dst)). split; [|done].
  unfold rename_in. rewrite Hs, Hp, Hd. rewrite !bool_decide_eq_false_2; [done|done|].
  intros ->. apply Hnb, below_refl.
Qed.

Lemma without_moved src dst m m' :
  well_formed m -> dst <> [] -> ~ below src dst -> m !! dst = None ->
  without dst (move src dst m) m' -> without src m m'.
Proof.
  intros Hwf Hdst Hnb Hd Hw q. rewrite Hw, lookup_move by done.
  destruct (strip dst q) as [s|] eqn:Es.
  - rewrite decide_True by (by exists s). apply strip_Some in Es as ->.
    case_decide; [done|]. symmetry. by apply absent_intro.
  - rewrite decide_False; [done|]. intros [s Hs]. congruence.
Qed.

Lemma total_move_and_remove m src dst :
  well_formed m -> dst <> [] -> m !! src = Some NDir -> ~ below src dst ->
  parent_is_dir m dst = true -> m !! dst = None ->
  total E (eq m) (_ ← rename src dst; remove_path_if_exists dst) (fun _ m' => without src m m').
Proof using HE.
  intros Hwf Hdst Hs Hnb Hp Hd. eapply total_bind; [by apply total_rename_fresh|].
  intros []. apply total_start. intros ? ->. eapply total_post.
  - apply total_remove_path_if_exists; [by apply well_formed_move; [| |apply parent_is_dir_ok]|done|].
    rewrite lookup_move by done.
    replace (strip dst dst) with (Some (@nil string)) by (symmetry; apply strip_Some; by rewrite app_nil_r).
    by rewrite app_nil_r, Hs.
  - intros ? m' Hw. by apply (without_moved src dst).
Qed.

(** ** Loops *)

Lemma total_fold_m {A B : Type} (Inv : B -> list A -> fsmap -> Prop) (f : B -> A -> M B) b l :
  NoDup l ->
  (forall seen b a, a ∈ l -> a ∉ seen -> total E (Inv b seen) (f b a) (fun b' => Inv b' (seen ++ [a]))) ->
  total E (Inv b []) (fold_m f b l) (fun b' => Inv b' l).
Proof.
  intros Hnd Hf.
  enough (forall seen b, NoDup (seen ++ l) -> total E (Inv b seen) (fold_m f b l) (fun b' => Inv b' (seen ++ l))) as Hgen
    by (by apply (Hgen [])).
  clear Hnd b. induction l as [|a l IH]; intros seen b Hnd; simpl.
  - apply total_ret. by rewrite app_nil_r.
  - apply total_bind with (R := fun b' => Inv b' (seen ++ [a])).
    + apply Hf; [left|]. intros Ha. apply NoDup_app in Hnd as (_ & Hdis & _). apply (Hdis a Ha). left.
    + intros b'. change (a :: l) with ([a] ++ l) in *. rewrite app_assoc in *. apply IH; [|done].
      intros seen' b'' a' Ha'. apply Hf. by right.
Qed.

End total.

(** ** Programs that are never killed

    Without crashes in the environment, a program returns or fails. *)

Definition survives {A : Type} (E : env) (c : M A) : Prop := forall w w', c E w <> Crash w'.

Section survives.
Context (E : env) (HE : faultless E).

Lemma survives_ret {A : Type} (a : A) : survives E (mret a).
Proof. done. Qed.

Lemma survives_fail {A : Type} e : survives E (@fail A e).
Proof. done. Qed.

Lemma survives_bind {A B : Type} (c : M A) (k : A -> M B) :
  survives E c -> (forall a, survives E (k a)) -> survives E (c ≫= k).
Proof.
  intros Hc Hk w w'. specialize (Hc w). unfold mbind, M_bind.
  destruct (c E w) as [a w1|e w1|w1]; [apply Hk|done|by specialize (Hc w1)].
Qed.

Lemma survives_attempt {A : Type} (c : M A) : survives E c -> survives E (attempt c).
Proof. intros Hc w w'. specialize (Hc w). unfold attempt. destruct (c E w); naive_solver. Qed.

Lemma survives_for_each {A : Type} (f : A -> M unit) l :
  (forall a, survives E (f a)) -> survives E (for_each f l).
Proof. intros Hf. induction l as [|a l IH]; simpl; [done|]. by apply survives_bind. Qed.

Lemma survives_look {A : Type} (f : fsmap -> A + io_kind) : survives E (look f).
Proof using HE. intros w w'. unfold look. rewrite HE. by destruct (f (w_fs w)). Qed.

Lemma total_survives {A : Type} P (c : M A) (Q : A + error -> fsmap -> Prop) :
  survives E c -> (forall w, P (w_fs w) -> match c E w with
    | Ok a w' => Q (inl a) (w_fs w') | Err e w' => Q (inr e) (w_fs w') | Crash _ => True end) ->
  total E P (attempt c) Q.
Proof.
  intros Hs Hc w Hw. specialize (Hs w). specialize (Hc w Hw). unfold attempt.
  destruct (c E w) as [a w'|e w'|w']; [eauto..|]. by destruct (Hs w').
Qed.

End survives.

(** Goes through a program that only looks. *)
Ltac survives_tac := repeat
  lazymatch goal with
  | |- survives _ (mret _) => apply survives_ret
  | |- survives _ (fail _) => apply survives_fail
  | |- survives _ (bail _) => apply survives_fail
  | |- survives _ (context ?o _) => unfold context; destruct o
  | |- survives _ (mbind _ _) => apply survives_bind; [|intro]
  | |- survives _ (attempt _) => apply survives_attempt
  | |- survives _ (for_each _ _) => apply survives_for_each; intro
  | |- survives _ (look _) => by apply survives_look
  | |- survives _ (match ?x with _ => _ end) => destruct x
  | |- survives _ (let _ := _ in _) => cbv zeta
  end.
