(* ===== verification/Store.v ===== *)
(** * The instance store

    [src/src/store.rs]: an instance's persistent state as immutable
    generations, plus one committed record that names the latest one.

    [state.json] is the record; [generations/<gen>/] a generation, immutable
    once renamed into place; [generations/.staging-<gen>/] one being written;
    [runs/<run>/] the work directory of a VM run; [checkpoints/<id>.ref] a
    named reference to a generation.

    Every operation of the source takes [&InstanceLock] as proof that its
    caller holds the instance lock; that argument carries no data and is left
    out.  The store's directory, the identity of the current process and the
    JSON codecs are parameters of the section. *)

From S2P Require Import Prelude FileSystem FsLogic FsUtil.

Definition STATE_FILE : string := "state.json".
Definition GENERATIONS_DIR : string := "generations".
Definition RUNS_DIR : string := "runs".
Definition CHECKPOINTS_DIR : string := "checkpoints".
Definition MANIFEST : string := "manifest.json".
Definition ROOTFS : string := "rootfs.ext4".
Definition HOST_SHARE_STATE : string := "host-share-state".
Definition VMSTATE : string := "vmstate.bin".
Definition PAGES : string := "pages.img".
Definition PIN : string := ".pin".
Definition STAGING_PREFIX : string := ".staging-".
Definition TRASH_PREFIX : string := ".trash-".
Definition RECORD_VERSION : N := 1.
Definition MANIFEST_VERSION : N := 1.

(** ** Identifiers *)

(** [validate_component]: a name that is safe as one path component and
    cannot be hidden. *)
Definition id_char (c : ascii) : bool :=
  is_ascii_alphanumeric c
  || Ascii.eqb c "-" || Ascii.eqb c "_" || Ascii.eqb c ".".

Definition validate_component (value : string) : bool :=
  negb (String.eqb value "")
  && negb (starts_with "." value)
  && string_all id_char value.

Abbreviation generation_id := string.
Abbreviation run_id := string.

(** [GenerationId::try_from] and [RunId::try_from] *)
Definition try_from (value : string) : option string :=
  if validate_component value then Some value else None.

Definition new_generation_id : M generation_id := new_id "g".
Definition new_run_id : M run_id := new_id "r".

(** ** Data *)

Record process_identity := mk_process { pid : Z; started : N }.

#[global] Instance process_identity_eq_dec : EqDecision process_identity.
Proof. solve_decision. Defined.

(** What the instance is doing, as last committed by the lock holder. *)
Inductive phase :=
  | Stopped
  | Running (run : run_id) (owner : process_identity)
  | Dirty (run : run_id) (owner : process_identity).

#[global] Instance phase_eq_dec : EqDecision phase.
Proof. solve_decision. Defined.

Definition phase_run (p : phase) : option run_id :=
  match p with Stopped => None | Running run _ | Dirty run _ => Some run end.

(** The one committed record of an instance. *)
Record record := mk_record {
  r_version : N;
  r_latest : option generation_id;
  r_phase : phase;
}.

#[global] Instance record_eq_dec : EqDecision record.
Proof. solve_decision. Defined.

(** Why a generation exists. *)
Inductive origin :=
  | Image
  | Snapshot (run : run_id)
  | SnapshotExit (run : run_id)
  | FromCheckpoint (run : run_id)
  | Salvage (run : run_id)
  | DropMemory
  | Edited
  | Migrated
  | Import.

#[global] Instance origin_eq_dec : EqDecision origin.
Proof. solve_decision. Defined.

Record manifest := mk_manifest {
  m_version : N;
  m_id : generation_id;
  m_parent : option generation_id;
  m_origin : origin;
  m_created_unix_nanos : N;
  (** Size of every top-level regular file except the manifest itself. *)
  m_files : gmap string N;
}.

#[global] Instance manifest_eq_dec : EqDecision manifest.
Proof. solve_decision. Defined.

Definition has_memory (mf : manifest) : bool :=
  bool_decide (is_Some (m_files mf !! VMSTATE)) && bool_decide (is_Some (m_files mf !! PAGES)).

(** A generation that is complete and readable. *)
Record generation := mk_generation { g_dir : path; g_manifest : manifest }.

Definition g_id (g : generation) : generation_id := m_id (g_manifest g).

Definition g_rootfs (g : generation) : path := g_dir g /: ROOTFS.

(** What recovery did before the instance could be used. *)
Inductive recovery :=
  | Clean
  | RolledForward (id : generation_id)
  | DiscardedIdleRun (run : run_id).

(** A generation being written. *)
Record staging := mk_staging { s_id : generation_id; s_dir : path }.

(** The work directory of one VM run. *)
Record run := mk_run {
  run_name : run_id;
  run_path : path;
  (** The generation the run started from. *)
  run_base : option generation;
}.

Definition run_rootfs (r : run) : path := run_path r /: ROOTFS.

(** Whether the run resumes from a memory snapshot rather than booting. *)
Definition restores_memory (r : run) : bool :=
  match run_base r with Some base => has_memory (g_manifest base) | None => false end.

(** A named reference to a generation. *)
Record checkpoint_ref := mk_checkpoint {
  c_id : string;
  c_name : option string;
  c_generation : generation_id;
  c_created_unix : N;
}.

#[global] Instance checkpoint_ref_eq_dec : EqDecision checkpoint_ref.
Proof. solve_decision. Defined.

(** What garbage collection removed. *)
Record collected := mk_collected {
  col_generations : list generation_id;
  col_runs : list string;
  col_staging : list string;
}.

(** [String]'s order, and the order [checkpoints] sorts by. *)
Definition string_le (a b : string) : Prop := String.leb a b = true.

Definition checkpoint_le (a b : checkpoint_ref) : Prop :=
  (c_created_unix a < c_created_unix b)%N \/
  (c_created_unix a = c_created_unix b /\ string_le (c_id a) (c_id b)).

#[global] Instance string_le_dec : RelDecision string_le.
Proof. unfold string_le. intros ??. apply _. Defined.

#[global] Instance checkpoint_le_dec : RelDecision checkpoint_le.
Proof. unfold checkpoint_le. intros ??. apply _. Defined.

(** The keys of a [BTreeMap], in order. *)
Definition sorted_keys (files : gmap string N) : list string :=
  merge_sort string_le (map_to_list files).*1.

(** [path.extension()] is [Some("ref")]: the part after the last dot of a
    name that does not start with its only dot. *)
Definition has_ref_extension (name : string) : bool :=
  (4 <? String.length name) && String.eqb (String.substring (String.length name - 4) 4 name) ".ref".

(** ** Operations *)

Section store.
Context `{Json record, Json manifest, Json checkpoint_ref}.
(** The instance directory and the process that operates on it. *)
Context (dir : path) (current : process_identity).

Definition state_path : path := dir /: STATE_FILE.
Definition generations_dir : path := dir /: GENERATIONS_DIR.
Definition runs_dir : path := dir /: RUNS_DIR.
Definition checkpoints_dir : path := dir /: CHECKPOINTS_DIR.
Definition generation_dir (id : generation_id) : path := generations_dir /: id.
Definition run_dir (id : run_id) : path := runs_dir /: id.
Definition staging_dir (id : generation_id) : path := generations_dir /: (STAGING_PREFIX +:+ id).
Definition trash_dir (id : generation_id) : path := generations_dir /: (TRASH_PREFIX +:+ id).

Definition instance_name : string := file_name dir.

(** Whether this instance keeps its state in the store. *)
Definition store_exists : M bool := path_exists state_path.

Definition get_record : M (option record) :=
  r ← read_json state_path;
  match r with
  | Some rec =>
      if bool_decide (r_version rec = RECORD_VERSION) then mret (Some rec)
      else bail "unsupported instance state version"
  | None => mret None
  end.

Definition require_record : M record :=
  r ← get_record; context r "instance has no committed state".

Definition commit_record (latest : option generation_id) (ph : phase) : M unit :=
  commit_json state_path (mk_record RECORD_VERSION latest ph).

(** Reads a generation, checking that every file its manifest lists is
    present with the recorded size. *)
Definition check_file (d : path) (mf : manifest) (name : string) : M unit :=
  size ← context (m_files mf !! name) "unlisted";
  actual ← symlink_metadata (d /: name);
  match actual with
  | NFile f => if bool_decide (file_len f = size) then mret tt else bail "file has wrong size"
  | _ => bail "file has wrong size"
  end.

Definition get_generation (id : generation_id) : M generation :=
  let d := generation_dir id in
  r ← read_json (d /: MANIFEST);
  mf ← context r "generation has no manifest";
  if bool_decide (m_id mf = id) then
    _ ← for_each (check_file d mf) (sorted_keys (m_files mf));
    if bool_decide (is_Some (m_files mf !! ROOTFS)) then mret (mk_generation d mf)
    else bail "generation has no rootfs"
  else bail "generation has the manifest of another generation".

(** The latest generation, if the instance has one. *)
Definition latest : M (option generation) :=
  r ← get_record;
  match r ≫= r_latest with
  | Some id => g ← get_generation id; mret (Some g)
  | None => mret None
  end.

Definition generation_ids : M (list generation_id) :=
  r ← attempt (read_dir generations_dir);
  match r with
  | inl names => mret (merge_sort string_le (omap try_from names))
  | inr (Io NotFound) => mret []
  | inr e => fail e
  end.

(** The published final snapshot of [run], if it got that far. *)
Definition final_generation_of (run : run_id) : M (option generation_id) :=
  ids ← generation_ids;
  fold_m (fun found id =>
    g ← attempt (get_generation id);
    match g with
    | inl g =>
        match m_origin (g_manifest g) with
        | Snapshot origin => mret (if bool_decide (origin = run) then Some id else found)
        | _ => mret found
        end
    | inr _ => mret found
    end) None ids.

(** Starts writing a new generation. *)
Definition stage : M staging :=
  id ← new_generation_id;
  _ ← create_dir_all (staging_dir id);
  mret (mk_staging id (staging_dir id)).

(** The top-level regular files of a directory, apart from the manifest and
    the pin, with their sizes. *)
Definition list_files (d : path) : M (gmap string N) :=
  names ← read_dir d;
  fold_m (fun files name =>
    n ← symlink_metadata (d /: name);
    match n with
    | NFile f =>
        if bool_decide (name <> MANIFEST /\ name <> PIN)
        then mret (<[name := file_len f]> files) else mret files
    | _ => mret files
    end) ∅ names.

(** Makes a staged generation durable and immutable. It is not [latest]
    until committed. *)
Definition publish (st : staging) (par : option generation_id) (org : origin) : M generation_id :=
  files ← list_files (s_dir st);
  if bool_decide (is_Some (files !! ROOTFS)) then
    now ← clock;
    let mf := mk_manifest MANIFEST_VERSION (s_id st) par org (now `mod` 2 ^ 64)%N files in
    _ ← fs_write (s_dir st /: MANIFEST) (to_vec_pretty mf ++ [newline]);
    _ ← create_file (s_dir st /: PIN);
    _ ← sync_tree (s_dir st);
    _ ← rename (s_dir st) (generation_dir (s_id st));
    _ ← sync_dir generations_dir;
    mret (s_id st)
  else bail "staged generation has no rootfs".

(** Checkpoints whose generation exists, oldest first. *)
Definition checkpoints : M (list checkpoint_ref) :=
  r ← attempt (read_dir checkpoints_dir);
  match r with
  | inl names =>
      found ← fold_m (fun acc name =>
        if has_ref_extension name then
          c ← read_json (checkpoints_dir /: name);
          match c with
          | Some c =>
              here ← path_is_dir (generation_dir (c_generation c));
              mret (if (here : bool) then acc ++ [c] else acc)
          | None => mret acc
          end
        else mret acc) [] names;
      mret (merge_sort checkpoint_le found)
  | inr (Io NotFound) => mret []
  | inr e => fail e
  end.

(** *** Garbage collection *)

Definition collect_run (live : option run_id) (runs : list string) (name : string) : M (list string) :=
  if bool_decide (live = Some name) then mret runs
  else
    _ ← remove_path_if_exists (runs_dir /: name);
    mret (runs ++ [name]).

Definition collect_entry (referenced : gset generation_id)
    (acc : list generation_id * list string) (name : string)
    : M (list generation_id * list string) :=
  let '(gens, stgs) := acc in
  let entry := generations_dir /: name in
  if starts_with STAGING_PREFIX name || starts_with TRASH_PREFIX name then
    _ ← remove_path_if_exists entry;
    mret (gens, stgs ++ [name])
  else
    match try_from name with
    | None => mret acc
    | Some id =>
        if bool_decide (id ∈ referenced) then mret acc
        else
          p ← attempt (metadata (entry /: PIN));
          free ← match p with
                 | inl _ => try_lock_pin (entry /: PIN)
                 | inr (Io NotFound) => mret true
                 | inr e => fail e
                 end;
          if (free : bool) then
            _ ← rename entry (trash_dir id);
            _ ← remove_path_if_exists (trash_dir id);
            mret (gens ++ [id], stgs)
          else mret acc
    end.

(** Removes runs, staging directories and every generation that neither the
    record nor a checkpoint names and that nobody has pinned. *)
Definition collect_garbage : M collected :=
  rec ← require_record;
  cps ← checkpoints;
  let referenced : gset generation_id :=
    list_to_set (option_list (r_latest rec)) ∪ list_to_set (c_generation <$> cps) in
  let live_run := phase_run (r_phase rec) in
  run_entries ← attempt (read_dir runs_dir);
  runs ← match run_entries with
         | inl names => fold_m (collect_run live_run) [] names
         | inr _ => mret []
         end;
  gen_entries ← attempt (read_dir generations_dir);
  acc ← match gen_entries with
        | inl names => fold_m (collect_entry referenced) ([], []) names
        | inr _ => mret ([], [])
        end;
  mret (mk_collected acc.1 runs acc.2).

(** *** Committing *)

(** Creates the record of a new instance, from its staged first generation. *)
Definition initialize (st : staging) : M generation_id :=
  e ← store_exists;
  if (e : bool) then bail "instance state already exists"
  else
    id ← publish st None Image;
    _ ← commit_record (Some id) Stopped;
    mret id.

(** Makes the store usable after whatever happened to the previous holder of
    the instance lock. *)
Definition recover : M recovery :=
  rec ← require_record;
  rv ← match r_phase rec with
       | Stopped => mret Clean
       | Running run _ | Dirty run _ =>
           fin ← final_generation_of run;
           match fin, r_phase rec with
           | Some id, _ => _ ← commit_record (Some id) Stopped; mret (RolledForward id)
           | None, Running _ _ =>
               _ ← commit_record (r_latest rec) Stopped; mret (DiscardedIdleRun run)
           | None, _ => fail (CrashedWithUnsavedState instance_name run)
           end
       end;
  _ ← collect_garbage;
  mret rv.

(** Copies the files a manifest lists, and the host-share state if any. *)
Definition clone_listed (src dst : path) (names : list string) : M unit :=
  for_each (fun name => clone_or_copy_file (src /: name) (dst /: name)) names.

Definition clone_shares (src dst : path) : M unit :=
  e ← path_exists (src /: HOST_SHARE_STATE);
  if (e : bool) then clone_or_copy_tree (src /: HOST_SHARE_STATE) (dst /: HOST_SHARE_STATE)
  else mret tt.

(** Prepares a run from [latest] (or from [from]) and records it as
    running. *)
Definition begin_run (from : option generation_id) : M run :=
  rec ← require_record;
  if bool_decide (r_phase rec = Stopped) then
    base ← match (match from with Some _ => from | None => r_latest rec end) with
           | Some id => g ← get_generation id; mret (Some g)
           | None => mret None
           end;
    id ← new_run_id;
    let d := run_dir id in
    _ ← create_dir_all d;
    _ ← match base with
        | Some base =>
            _ ← clone_listed (g_dir base) d (sorted_keys (m_files (g_manifest base)));
            clone_shares (g_dir base) d
        | None => mret tt
        end;
    _ ← sync_tree d;
    _ ← sync_dir runs_dir;
    _ ← commit_record (r_latest rec) (Running id current);
    mret (mk_run id d base)
  else bail "instance is not stopped; recover it before starting a run".

(** Makes [id] the latest generation while [run] keeps running. *)
Definition advance_latest (run : run_id) (id : generation_id) : M unit :=
  _ ← get_generation id;
  rec ← require_record;
  match r_phase rec with
  | Running cur _ | Dirty cur _ =>
      if bool_decide (cur = run) then commit_record (Some id) (r_phase rec)
      else bail "cannot advance run"
  | Stopped => bail "cannot advance run"
  end.

(** Copies a snapshot directory produced elsewhere into a new generation. *)
Definition import_dir (source : path) (par : option generation_id) (org : origin) : M generation_id :=
  st ← stage;
  names ← read_dir source;
  _ ← for_each (fun name =>
        n ← symlink_metadata (source /: name);
        match n with
        | NFile _ =>
            if bool_decide (name <> MANIFEST /\ name <> PIN)
            then clone_or_copy_file (source /: name) (s_dir st /: name) else mret tt
        | NDir =>
            if bool_decide (name = HOST_SHARE_STATE)
            then clone_or_copy_tree (source /: name) (s_dir st /: name) else mret tt
        | NLink _ => mret tt
        end) names;
  publish st par org.

(** Records that [run] is about to serve its first command. *)
Definition mark_dirty (run : run_id) : M unit :=
  rec ← require_record;
  match r_phase rec with
  | Running cur owner =>
      if bool_decide (cur = run) then commit_record (r_latest rec) (Dirty run owner)
      else bail "cannot mark run dirty"
  | Dirty cur _ => if bool_decide (cur = run) then mret tt else bail "cannot mark run dirty"
  | Stopped => bail "cannot mark run dirty"
  end.

(** Ends a run that never served a command, keeping [latest]. *)
Definition abandon_run (run : run_id) : M unit :=
  rec ← require_record;
  match r_phase rec with
  | Running cur _ =>
      if bool_decide (cur = run) then
        _ ← commit_record (r_latest rec) Stopped;
        _ ← collect_garbage; mret tt
      else bail "cannot abandon run"
  | _ => bail "cannot abandon run"
  end.

(** The commit point of a snapshot: [id] becomes [latest] and the instance is
    stopped. Garbage is collected only after. *)
Definition commit_latest (id : generation_id) : M unit :=
  _ ← get_generation id;
  _ ← commit_record (Some id) Stopped;
  _ ← collect_garbage; mret tt.

(** Keeps the disk of a crashed dirty run as the new [latest]. *)
Definition salvage : M generation_id :=
  rec ← require_record;
  match r_phase rec with
  | Dirty run _ =>
      st ← stage;
      _ ← clone_or_copy_file (run_dir run /: ROOTFS) (s_dir st /: ROOTFS);
      _ ← clone_shares (run_dir run) (s_dir st);
      id ← publish st (r_latest rec) (Salvage run);
      _ ← commit_latest id;
      mret id
  | _ => bail "there is no crashed run to salvage"
  end.

(** Drops a crashed dirty run, returning to [latest]. *)
Definition discard_run : M run_id :=
  rec ← require_record;
  match r_phase rec with
  | Dirty run _ =>
      _ ← commit_record (r_latest rec) Stopped;
      _ ← collect_garbage;
      mret run
  | _ => bail "there is no crashed run to discard"
  end.

Definition latest_of (rec : record) : M (option generation) :=
  match r_latest rec with
  | Some id => g ← get_generation id; mret (Some g)
  | None => mret None
  end.

(** Replaces [latest] with an edited copy: [edit] gets the staging directory
    holding clones of every file of [latest]. *)
Definition derive (edit : path -> M unit) : M generation_id :=
  rec ← require_record;
  if bool_decide (r_phase rec = Stopped) then
    g ← latest_of rec;
    base ← context g "instance has no saved state to edit";
    st ← stage;
    _ ← clone_listed (g_dir base) (s_dir st) (sorted_keys (m_files (g_manifest base)));
    _ ← clone_shares (g_dir base) (s_dir st);
    _ ← edit (s_dir st);
    id ← publish st (Some (g_id base)) Edited;
    _ ← commit_latest id;
    mret id
  else bail "the instance must be stopped to edit its saved state".

(** Where the instance's host-share state lives right now. *)
Definition current_host_share_state : M (option path) :=
  r ← get_record;
  mret (match r with
        | None => None
        | Some rec =>
            match phase_run (r_phase rec), r_latest rec with
            | Some run, _ => Some (run_dir run /: HOST_SHARE_STATE)
            | None, Some g => Some (generation_dir g /: HOST_SHARE_STATE)
            | None, None => None
            end
        end).

(** Replaces [latest] with a copy that has no memory. *)
Definition drop_memory : M (option generation_id) :=
  rec ← require_record;
  if bool_decide (r_phase rec = Stopped) then
    g ← latest_of rec;
    match g with
    | None => mret None
    | Some base =>
        if has_memory (g_manifest base) then
          st ← stage;
          _ ← clone_or_copy_file (g_rootfs base) (s_dir st /: ROOTFS);
          _ ← clone_shares (g_dir base) (s_dir st);
          id ← publish st (Some (g_id base)) DropMemory;
          _ ← commit_latest id;
          mret (Some id)
        else mret None
    end
  else bail "the instance must be stopped to drop its memory snapshot".

(** *** Checkpoints *)

Definition checkpoint_ref_path (id : string) : M path :=
  if validate_component id then mret (checkpoints_dir /: (id +:+ ".ref"))
  else bail "invalid checkpoint id".

(** Names a published generation as a checkpoint. *)
Definition add_checkpoint (c : checkpoint_ref) : M unit :=
  _ ← get_generation (c_generation c);
  _ ← create_dir_all checkpoints_dir;
  p ← checkpoint_ref_path (c_id c);
  commit_json p c.

(** Unlinks a checkpoint reference; its generation is reclaimed by garbage
    collection once nothing else names it. *)
Definition remove_checkpoint (id : string) : M unit :=
  p ← checkpoint_ref_path id;
  _ ← remove_file p;
  _ ← sync_dir checkpoints_dir;
  _ ← collect_garbage; mret tt.

(** [flock(LOCK_SH)], which waits for an exclusive holder to let go. *)
Definition flock_shared (p : path) : M unit := look (fun _ => inl tt).

(** Holds a generation in place while it is copied elsewhere. *)
Definition pin (id : generation_id) : M generation :=
  _ ← metadata (generation_dir id /: PIN);
  _ ← flock_shared (generation_dir id /: PIN);
  get_generation id.

(** The run a crashed owner left behind. *)
Definition crashed_run : M (option run_id) :=
  r ← get_record;
  mret (match r_phase <$> r with Some (Dirty run _) => Some run | _ => None end).

(** The error for a run that crashed after serving commands, if any. *)
Definition crashed : M (option error) :=
  r ← crashed_run;
  mret ((fun run => CrashedWithUnsavedState instance_name run) <$> r).

End store.

(** Creates a new instance's store at [dest] whose latest generation is a
    copy of the pinned generation [g]. *)
Definition export `{Json record} (g : generation) (dest : path) : M unit :=
  let dest_dir := generation_dir dest (g_id g) in
  _ ← create_dir_all dest_dir;
  _ ← clone_listed (g_dir g) dest_dir (sorted_keys (m_files (g_manifest g)) ++ [MANIFEST; PIN]);
  _ ← clone_shares (g_dir g) dest_dir;
  _ ← sync_tree dest_dir;
  _ ← sync_dir (generations_dir dest);
  commit_json (state_path dest) (mk_record RECORD_VERSION (Some (g_id g)) Stopped).
