(* ===== verification/StoreLogic.v ===== *)
(** * What the store's operations preserve

    The committed state of an instance as functions of the tree: the record,
    the manifest of a generation, and what makes a generation complete.  The
    relation [guards K R] says that an operation keeps the tree well formed,
    leaves the record alone, and leaves untouched the generations in [K] and
    the run directories in [R]; every operation that does not commit a new
    record respects it. *)

From S2P Require Import Prelude FileSystem FsLogic FsUtil Store.

(** The identifiers a record or a manifest may hold: deserializing a
    [GenerationId] or a [RunId] validates it. *)
Definition valid_id (id : string) : Prop := validate_component id = true.

Definition valid_phase (ph : phase) : Prop :=
  match phase_run ph with Some run => valid_id run | None => True end.

Definition valid_record (r : record) : Prop :=
  match r_latest r with Some id => valid_id id | None => True end /\ valid_phase (r_phase r).

Definition origin_run (o : origin) : option run_id :=
  match o with
  | Snapshot run | SnapshotExit run | FromCheckpoint run | Salvage run => Some run
  | _ => None
  end.

Definition valid_manifest (mf : manifest) : Prop :=
  valid_id (m_id mf)
  /\ match m_parent mf with Some id => valid_id id | None => True end
  /\ match origin_run (m_origin mf) with Some run => valid_id run | None => True end.

Definition valid_checkpoint (c : checkpoint_ref) : Prop := valid_id (c_generation c).

(** ** Names *)

Lemma valid_not_dot s : ~ valid_id (String "." s).
Proof. unfold valid_id, validate_component, starts_with. by destruct s. Qed.

Lemma starts_with_app pre s : starts_with pre (pre +:+ s) = true.
Proof.
  unfold starts_with. induction pre as [|c pre IH]; simpl; [by destruct s|].
  destruct (ascii_dec c c); done.
Qed.

Lemma starts_with_dot s rest : starts_with (String "." rest) s = true -> exists s', s = String "." s'.
Proof.
  unfold starts_with. destruct s as [|c s]; simpl; [done|].
  case_match; [|done]. subst. eauto.
Qed.

(** No valid id can be taken for a staging or a trash directory. *)
Lemma valid_id_not_hidden id rest : valid_id id -> starts_with (String "." rest) id = false.
Proof.
  intros Hv. destruct (starts_with _ id) eqn:E; [|done].
  apply starts_with_dot in E as [s ->]. by apply valid_not_dot in Hv.
Qed.

Lemma staging_name_invalid id : ~ valid_id (STAGING_PREFIX +:+ id).
Proof.
  intros H%(valid_id_not_hidden _ "staging-"). pose proof (starts_with_app STAGING_PREFIX id).
  unfold STAGING_PREFIX in *. congruence.
Qed.

Lemma trash_name_invalid id : ~ valid_id (TRASH_PREFIX +:+ id).
Proof.
  intros H%(valid_id_not_hidden _ "trash-"). pose proof (starts_with_app TRASH_PREFIX id).
  unfold TRASH_PREFIX in *. congruence.
Qed.

(** ** Identifiers the program makes *)

Lemma string_all_mono f g s :
  (forall c, f c = true -> g c = true) -> string_all f s = true -> string_all g s = true.
Proof.
  unfold string_all. intros Hfg. induction (String.list_ascii_of_string s) as [|c l IH]; simpl; [done|].
  rewrite !andb_true_iff. intros [? ?]; auto.
Qed.

Lemma digit_is_id_char c : is_ascii_digit c = true -> id_char c = true.
Proof. intros H. unfold id_char, is_ascii_alphanumeric. by rewrite H, orb_true_r. Qed.

Lemma pretty_id_chars (n : N) : string_all id_char (pretty n) = true.
Proof. apply pretty_N_digits. intros d Hd. by apply digit_is_id_char, digit_char. Qed.

Lemma padded_id_chars w (n : N) : string_all id_char (format_padded w n) = true.
Proof.
  unfold format_padded. rewrite string_all_app, pretty_id_chars, andb_true_r.
  by apply string_all_zeros.
Qed.

Lemma format_id_valid c nanos p seq :
  id_char c = true -> c <> "."%char -> valid_id (format_id (String c EmptyString) nanos p seq).
Proof.
  intros Hc Hdot. unfold valid_id, validate_component, format_id, starts_with.
  set (rest := format_padded 20 nanos +:+ "-" +:+ pretty p +:+ "-" +:+ pretty seq).
  assert (Hrest : string_all id_char rest = true)
    by (unfold rest; by rewrite !string_all_app, padded_id_chars, !pretty_id_chars).
  change (String c EmptyString +:+ rest) with (String c rest). simpl.
  case_match; [congruence|]. unfold string_all in *. simpl. by rewrite Hc, Hrest.
Qed.

Section views.
Context `{Json record, Json manifest, Json checkpoint_ref}.
Context (dir : path).

Abbreviation gdir := (generation_dir dir).
Abbreviation rdir := (run_dir dir).

(** The contents of a regular file. *)
Definition contents_at (m : fsmap) (p : path) : option bytes :=
  match m !! p with Some (NFile f) => Some (f_data f) | _ => None end.

Definition json_at {A : Type} `{Json A} (m : fsmap) (p : path) : option A :=
  contents_at m p ≫= from_slice.

(** The committed record. *)
Definition record_at (m : fsmap) : option record := json_at m (state_path dir).

Definition manifest_at (m : fsmap) (id : generation_id) : option manifest :=
  json_at m (gdir id /: MANIFEST).

(** Every file of the manifest is there with its size, the rootfs among
    them. *)
Definition complete_as (m : fsmap) (id : generation_id) (mf : manifest) : Prop :=
  manifest_at m id = Some mf /\ m_id mf = id /\ is_Some (m_files mf !! ROOTFS) /\
  forall name size, m_files mf !! name = Some size ->
    exists f, m !! (gdir id /: name) = Some (NFile f) /\ file_len f = size.

Definition complete (m : fsmap) (id : generation_id) : Prop := exists mf, complete_as m id mf.

(** Nothing at or below [d] differs. *)
Definition same_tree (d : path) (m m' : fsmap) : Prop :=
  forall p, below d p -> m' !! p = m !! p.

Definition occupied (m : fsmap) (d : path) : Prop := exists x, is_Some (m !! (d /: x)).

Definition guards (K R : string -> Prop) : relation fsmap := fun m m' =>
  well_formed m -> (forall id, K id -> valid_id id /\ occupied m (gdir id)) ->
  well_formed m' /\ m' !! state_path dir = m !! state_path dir /\
  (forall id, K id -> same_tree (gdir id) m m') /\
  (forall r, R r -> same_tree (rdir r) m m').

(** The paths a [guards K R] operation is free to touch. *)
Definition elsewhere (K R : string -> Prop) (q : path) : Prop :=
  q <> state_path dir /\ (forall id, K id -> valid_id id -> ~ below (gdir id) q) /\
  (forall r, R r -> ~ below (rdir r) q).

Lemma same_tree_occupied d m m' : same_tree d m m' -> occupied m d -> occupied m' d.
Proof. intros Hs [x Hx]. exists x. rewrite Hs; [done|apply below_snoc]. Qed.

#[global] Instance guards_preorder K R : PreOrder (guards K R).
Proof.
  split.
  - intros m Hwf Hocc. done.
  - intros m1 m2 m3 H12 H23 Hwf Hocc.
    destruct (H12 Hwf Hocc) as (Hwf2 & Hs2 & HK2 & HR2).
    destruct (H23 Hwf2) as (Hwf3 & Hs3 & HK3 & HR3).
    { intros id Hid. destruct (Hocc id Hid) as [Hv Ho]. split; [done|].
      eapply same_tree_occupied; eauto. }
    split_and!; [done|by rewrite Hs3|..].
    + intros id Hid p Hp. by rewrite (HK3 id), (HK2 id).
    + intros r Hr p Hp. by rewrite (HR3 r), (HR2 r).
Qed.

(** An operation that keeps away from what is guarded respects it. *)
Lemma respects_guards {A : Type} K R (c : M A) :
  modifies (elsewhere K R) c -> respects keeps_form c -> respects (guards K R) c.
Proof.
  intros Hm Hf E w Hwf Hocc. specialize (Hm E w). specialize (Hf E w Hwf).
  split_and!; [done|..].
  - apply Hm. by intros [[] _].
  - intros id Hid p Hp. apply Hm. intros (_ & Hk & _). by apply (Hk id); [|apply Hocc|].
  - intros r Hr p Hp. apply Hm. intros (_ & _ & Hk). by apply (Hk r).
Qed.

(** ** Disjointness *)

Lemma below2 a b q : below (dir /: a /: b) q <-> exists s, q = dir ++ a :: b :: s.
Proof.
  rewrite below_spec. split; intros [s ->]; exists s; rewrite <- !app_assoc; done.
Qed.

Lemma elsewhere_entry K R a b q :
  a <> STATE_FILE -> ~ (a = GENERATIONS_DIR /\ K b /\ valid_id b) -> ~ (a = RUNS_DIR /\ R b) ->
  below (dir /: a /: b) q -> elsewhere K R q.
Proof.
  intros Ha Hg Hr [s ->]%below2. split_and!.
  - intros Heq. apply app_inv_head in Heq. by simplify_eq.
  - intros id Hid Hv [s' Heq]%below2. apply app_inv_head in Heq. simplify_eq. tauto.
  - intros r Hr' [s' Heq]%below2. apply app_inv_head in Heq. simplify_eq. tauto.
Qed.

(** A directory above an entry: the root of the store, one of its
    subdirectories or what is above it. *)
Lemma elsewhere_above K R a q :
  a <> STATE_FILE -> below q (dir /: a) -> elsewhere K R q.
Proof.
  intros Ha [s Hs]%below_spec.
  assert (Hlen : length q <= S (length dir)).
  { apply (f_equal length) in Hs. rewrite !length_app in Hs. simpl in Hs. lia. }
  split_and!.
  - intros ->. unfold state_path in Hs. rewrite <- app_assoc in Hs.
    apply app_inv_head in Hs. by simplify_eq/=.
  - intros id _ _ [s' ->]%below2. rewrite length_app in Hlen. simpl in Hlen. lia.
  - intros r _ [s' ->]%below2. rewrite length_app in Hlen. simpl in Hlen. lia.
Qed.

(** Making an entry may also make the directories above it. *)
Lemma elsewhere_scaffold K R a b q :
  a <> STATE_FILE -> ~ (a = GENERATIONS_DIR /\ K b /\ valid_id b) -> ~ (a = RUNS_DIR /\ R b) ->
  below q (dir /: a /: b) -> elsewhere K R q.
Proof.
  intros Ha Hg Hr [->|Hq]%below_snoc_inv.
  - by eapply elsewhere_entry, below_refl.
  - by eapply elsewhere_above.
Qed.

Lemma elsewhere_staging K R id q :
  below (staging_dir dir id) q \/ below q (staging_dir dir id) -> elsewhere K R q.
Proof.
  assert (Hn : ~ (GENERATIONS_DIR = GENERATIONS_DIR /\ K (STAGING_PREFIX +:+ id)
     /\ valid_id (STAGING_PREFIX +:+ id))) by (intros (_ & _ & []%staging_name_invalid)).
  intros [Hq|Hq].
  - eapply elsewhere_entry, Hq; [done|exact Hn|by intros []].
  - eapply elsewhere_scaffold, Hq; [done|exact Hn|by intros []].
Qed.

Lemma elsewhere_trash K R id q : below (trash_dir dir id) q -> elsewhere K R q.
Proof.
  intros Hq. eapply elsewhere_entry, Hq; [done| |by intros []].
  by intros (_ & _ & []%trash_name_invalid).
Qed.

Lemma elsewhere_checkpoint K R q :
  below (checkpoints_dir dir) q \/ below q (checkpoints_dir dir) -> elsewhere K R q.
Proof.
  intros [[s ->]%below_spec|Hq]; [|by eapply elsewhere_above, Hq].
  destruct s as [|b s]; [rewrite app_nil_r; eapply elsewhere_above, below_refl; done|].
  apply (elsewhere_entry _ _ CHECKPOINTS_DIR b); [done|by intros []|by intros []|].
  apply below2. exists s. unfold checkpoints_dir. by rewrite <- app_assoc.
Qed.

Lemma elsewhere_run K (R : string -> Prop) r q :
  ~ R r -> below (rdir r) q \/ below q (rdir r) -> elsewhere K R q.
Proof.
  intros Hr [Hq|Hq]; [eapply elsewhere_entry, Hq|eapply elsewhere_scaffold, Hq];
    (done || (by intros [? ?]) || tauto).
Qed.

Lemma elsewhere_generation (K : string -> Prop) R id q :
  ~ K id -> below (gdir id) q -> elsewhere K R q.
Proof. intros Hk Hq. eapply elsewhere_entry, Hq; [done|tauto|by intros []]. Qed.

End views.

(** ** Operations that only read *)

Section read_only.
Context `{Json record, Json manifest, Json checkpoint_ref}.
Context (dir : path) (I : relation fsmap) `{!PreOrder I}.

Lemma respects_get_record : respects I (get_record dir).
Proof using Type*. unfold get_record. respects_tac. Qed.

Lemma respects_check_file d mf name : respects I (check_file d mf name).
Proof using Type*. unfold check_file. respects_tac. Qed.

Lemma respects_flock_shared p : respects I (flock_shared p).
Proof using Type*. unfold flock_shared. respects_tac. Qed.

Hint Resolve respects_get_record respects_check_file respects_flock_shared : frames.

Lemma respects_require_record : respects I (require_record dir).
Proof using Type*. unfold require_record. respects_tac. Qed.

Lemma respects_get_generation id : respects I (get_generation dir id).
Proof using Type*. unfold get_generation. respects_tac. Qed.

Lemma respects_generation_ids : respects I (generation_ids dir).
Proof using Type*. unfold generation_ids. respects_tac. Qed.

Lemma respects_list_files d : respects I (list_files d).
Proof using Type*. unfold list_files. respects_tac. Qed.

Lemma respects_checkpoints : respects I (checkpoints dir).
Proof using Type*. unfold checkpoints. respects_tac. Qed.

Lemma respects_checkpoint_ref_path id : respects I (checkpoint_ref_path dir id).
Proof using Type*. unfold checkpoint_ref_path. respects_tac. Qed.

Hint Resolve respects_require_record respects_get_generation respects_generation_ids : frames.

Lemma respects_final_generation_of r : respects I (final_generation_of dir r).
Proof using Type*. unfold final_generation_of. respects_tac. Qed.

Lemma respects_latest_of rec : respects I (latest_of dir rec).
Proof using Type*. unfold latest_of. respects_tac. Qed.

Lemma respects_pin id : respects I (pin dir id).
Proof using Type*. unfold pin. respects_tac. Qed.

Lemma respects_new_generation_id : respects I new_generation_id.
Proof using Type*. unfold new_generation_id. respects_tac. Qed.

Lemma respects_new_run_id : respects I new_run_id.
Proof using Type*. unfold new_run_id. respects_tac. Qed.

End read_only.

#[export] Hint Resolve respects_get_record respects_check_file respects_flock_shared
  respects_require_record respects_get_generation respects_generation_ids respects_list_files
  respects_checkpoints respects_checkpoint_ref_path respects_final_generation_of
  respects_latest_of respects_pin respects_new_generation_id respects_new_run_id : frames.

(** ** Operations that write *)

Section writing.
Context `{Json record, Json manifest, Json checkpoint_ref}.
Context (dir : path).

Abbreviation gdir := (generation_dir dir).
Abbreviation rdir := (run_dir dir).

Lemma below_up q d x : below q (d /: x) -> below q d \/ below d q.
Proof. intros [->|Hq]%below_snoc_inv; [right; apply below_snoc|by left]. Qed.

(** Copying into a directory touches the directory and what is above it. *)
Lemma modifies_clone_listed (F : path -> Prop) src dst names :
  (forall q, below dst q \/ below q dst -> F q) -> modifies F (clone_listed src dst names).
Proof.
  intros HF. unfold clone_listed. respects_tac.
  apply modifies_clone_or_copy_file. intros q Hq%below_up. apply HF. tauto.
Qed.

Lemma modifies_clone_shares (F : path -> Prop) src dst :
  (forall q, below dst q \/ below q dst -> F q) -> modifies F (clone_shares src dst).
Proof.
  intros HF. unfold clone_shares. respects_tac.
  apply modifies_clone_or_copy_tree; intros q Hq; apply HF.
  - apply below_up in Hq. tauto.
  - left. by eapply below_child.
Qed.

Lemma keeps_form_clone_listed src dst names : respects keeps_form (clone_listed src dst names).
Proof. unfold clone_listed. respects_tac. Qed.

Lemma keeps_form_clone_shares src dst : respects keeps_form (clone_shares src dst).
Proof. unfold clone_shares. respects_tac. Qed.

Context (K R : string -> Prop).
Abbreviation safe := (respects (guards dir K R)).

Lemma guards_stage : safe (stage dir).
Proof.
  unfold stage. respects_tac. apply respects_guards; [|auto with frames].
  apply modifies_create_dir_all. intros q Hq. eapply elsewhere_staging. by right.
Qed.

Lemma guards_clone_listed src id names : safe (clone_listed src (staging_dir dir id) names).
Proof.
  apply respects_guards; [|apply keeps_form_clone_listed].
  apply modifies_clone_listed. apply elsewhere_staging.
Qed.

Lemma guards_clone_shares src id : safe (clone_shares src (staging_dir dir id)).
Proof.
  apply respects_guards; [|apply keeps_form_clone_shares].
  apply modifies_clone_shares. apply elsewhere_staging.
Qed.

Lemma staged_file_up (d q : path) x : below q (d /: x) -> below d q \/ below q d.
Proof. intros Hq%below_up. tauto. Qed.

Lemma guards_clone_file src id name :
  safe (clone_or_copy_file src (staging_dir dir id /: name)).
Proof.
  apply respects_guards; [|auto with frames]. apply modifies_clone_or_copy_file.
  intros q Hq%staged_file_up. by eapply elsewhere_staging.
Qed.

Lemma guards_clone_tree src id name :
  safe (clone_or_copy_tree src (staging_dir dir id /: name)).
Proof.
  apply respects_guards; [|auto with frames]. apply modifies_clone_or_copy_tree.
  - intros q Hq%staged_file_up. by eapply elsewhere_staging.
  - intros q Hq%below_child. eapply elsewhere_staging. by left.
Qed.

Lemma below_removelast_snoc d x : parent (d /: x) = Some d.
Proof. unfold parent. destruct (d /: x) eqn:E; [by destruct d|]. by rewrite <- E, removelast_last. Qed.

(** Publishing replaces nothing that is guarded: a directory can only be
    renamed onto a missing or an empty one. *)
Lemma guards_publish_rename id :
  safe (rename (staging_dir dir id) (gdir id)).
Proof.
  apply respects_change; [apply _|].
  intros E w o (-> & _ & Hnb & Hp & Hdst & Hsrc)%rename_in_Some Hwf Hocc. simpl.
  assert (Hf := move_frame (staging_dir dir id) (gdir id) (w_fs w)).
  assert (HKid : K id -> False).
  { intros HK. destruct (Hocc id HK) as [Hv [x Hx]].
    destruct (Hwf _ _ Hx) as [Hnil|Hd]; [by destruct dir|].
    destruct (Hdst Hd) as [_ He]. apply (no_entries _ _ x) in He.
    rewrite He in Hx. by destruct Hx. }
  assert (Helse : forall q, below (staging_dir dir id) q \/ below (gdir id) q -> elsewhere dir K R q).
  { intros q [Hq|Hq]; [apply (elsewhere_staging _ _ _ id); by left|].
    by apply (elsewhere_generation _ _ _ id). }
  assert (Hkeep := frame_mono _ _ _ _ Helse Hf).
  split_and!.
  - by apply well_formed_move; [| |apply parent_is_dir_ok].
  - apply Hkeep. by intros [[] _].
  - intros id' Hid' p Hpb. apply Hkeep. intros (_ & Hk & _). by apply (Hk id'); [|apply Hocc|].
  - intros r Hr p Hpb. apply Hkeep. intros (_ & _ & Hk). by apply (Hk r).
Qed.

Lemma guards_publish st par org :
  s_dir st = staging_dir dir (s_id st) -> safe (publish dir st par org).
Proof.
  intros Hst. unfold publish. rewrite Hst. respects_tac.
  - apply respects_guards; [|auto with frames].
    apply modifies_fs_write. eapply elsewhere_staging. left. apply below_snoc.
  - apply respects_guards; [|auto with frames].
    apply modifies_create_file. eapply elsewhere_staging. left. apply below_snoc.
  - apply guards_publish_rename.
Qed.

Lemma commit_footprint_in d x q : commit_footprint (d /: x) q -> below d q.
Proof.
  unfold commit_footprint. setoid_rewrite temp_of_snoc.
  intros [Hq|[id Hq]]; by eapply below_child.
Qed.

Lemma modifies_commit_file (F : path -> Prop) p b :
  (forall q, commit_footprint p q -> F q) -> modifies F (commit_file p b).
Proof.
  intros HF E w. assert (Ht := t_commit_file E p b (w_fs w) w eq_refl).
  eapply frame_mono; [exact HF|].
  destruct (commit_file p b E w); simpl; destruct_and?; unfold old_or_new in *; tauto.
Qed.

Lemma guards_commit_checkpoint name c : safe (commit_json (checkpoints_dir dir /: name) (c : checkpoint_ref)).
Proof.
  apply respects_guards; [|auto with frames]. unfold commit_json.
  apply modifies_commit_file. intros q Hq%commit_footprint_in. eapply elsewhere_checkpoint. by left.
Qed.

Lemma returns_checkpoint_ref_path id :
  returns (checkpoint_ref_path dir id)
    (fun p => valid_id id /\ p = checkpoints_dir dir /: (id +:+ ".ref")).
Proof.
  unfold checkpoint_ref_path. destruct (validate_component id) eqn:Hv; [|apply returns_fail].
  by apply returns_ret.
Qed.

Lemma guards_add_checkpoint c : safe (add_checkpoint dir c).
Proof.
  unfold add_checkpoint. respects_step; [auto with frames|]. respects_step.
  - apply respects_guards; [|auto with frames]. apply modifies_create_dir_all.
    intros q Hq. eapply elsewhere_checkpoint. by right.
  - eapply respects_bind_returns; [apply _|auto with frames|apply returns_checkpoint_ref_path|].
    intros p [_ ->]. apply guards_commit_checkpoint.
Qed.

Lemma returns_stage :
  returns (stage dir) (fun st => s_dir st = staging_dir dir (s_id st) /\ valid_id (s_id st)).
Proof.
  unfold stage. apply returns_bind with (P := valid_id).
  - unfold new_generation_id, new_id. eapply returns_bind; [apply returns_true|].
    intros [[nanos p] seq] _. by apply returns_ret, format_id_valid.
  - intros id Hid. eapply returns_bind; [apply returns_true|]. intros _ _. by apply returns_ret.
Qed.

Lemma returns_new_run_id : returns new_run_id valid_id.
Proof.
  unfold new_run_id, new_id. eapply returns_bind; [apply returns_true|].
  intros [[nanos p] seq] _. by apply returns_ret, format_id_valid.
Qed.

(** A step that stages a generation, then works on the staging directory. *)
Lemma guards_staged {A : Type} (k : staging -> M A) :
  (forall st, s_dir st = staging_dir dir (s_id st) -> valid_id (s_id st) -> safe (k st)) ->
  safe (st ← stage dir; k st).
Proof.
  intros Hk. eapply respects_bind_returns; [apply _|apply guards_stage|apply returns_stage|].
  intros st [Hd Hv]. by apply Hk.
Qed.

Lemma guards_import_dir source par org : safe (import_dir dir source par org).
Proof.
  unfold import_dir. apply guards_staged. intros st Hd _. rewrite Hd. respects_tac.
  - apply guards_clone_file.
  - apply guards_clone_tree.
  - by apply guards_publish.
Qed.

(** ** Garbage collection *)

Lemma guards_collect_run live runs name :
  (forall r, R r -> live = Some r) -> safe (collect_run dir live runs name).
Proof.
  intros HR. unfold collect_run. case_bool_decide as Hn; respects_tac.
  apply respects_guards; [|auto with frames]. apply modifies_remove_path_if_exists.
  intros q Hq. apply (elsewhere_run _ _ _ name); [|by left]. intros Hr. by apply Hn, HR.
Qed.

Lemma hidden_name_not_guarded name q :
  starts_with STAGING_PREFIX name || starts_with TRASH_PREFIX name = true ->
  below (generations_dir dir /: name) q -> elsewhere dir K R q.
Proof.
  intros Hn Hq. eapply elsewhere_entry, Hq; [done| |by intros []].
  intros (_ & _ & Hv). unfold STAGING_PREFIX, TRASH_PREFIX in Hn.
  by rewrite !valid_id_not_hidden in Hn.
Qed.

Lemma guards_collect_entry (referenced : gset generation_id) acc name :
  (forall id, K id -> id ∈ referenced) -> safe (collect_entry dir referenced acc name).
Proof.
  intros HK. unfold collect_entry. destruct acc as [gens stgs].
  destruct (_ || _) eqn:Hn; [respects_tac|].
  { apply respects_guards; [|auto with frames]. apply modifies_remove_path_if_exists.
    intros q. by apply hidden_name_not_guarded. }
  unfold try_from. destruct (validate_component name); [|respects_tac].
  case_bool_decide as Hin; [respects_tac|].
  assert (Hnk : ~ K name) by (intros ?; auto).
  respects_tac.
  - apply respects_guards; [|auto with frames]. apply modifies_rename; intros q Hq.
    + by apply (elsewhere_generation _ _ _ name).
    + by eapply elsewhere_trash.
  - apply respects_guards; [|auto with frames]. apply modifies_remove_path_if_exists.
    intros q Hq. by eapply elsewhere_trash.
Qed.

End writing.
