(* ===== verification/StoreSafety.v ===== *)
(** * Safety of the store

    What every operation of [src/src/store.rs] does to the committed state,
    for every I/O error and every crash point.  [good m rec] is the store's
    invariant: the tree is well formed, [rec] is the committed record and its
    latest generation is complete.  [commits o rec rec'] is the abstract
    specification of an operation, a transition of the record; the main
    theorems show that the code refines it. *)

From S2P Require Import Prelude FileSystem FsLogic FsUtil Store StoreLogic.

(** The operations of the store that an instance's owner performs once the
    instance exists. *)
Inductive operation :=
  | Recover
  | BeginRun (from : option generation_id)
  | AdvanceLatest (run : run_id) (id : generation_id)
  | ImportDir (source : path) (par : option generation_id) (org : origin)
  | MarkDirty (run : run_id)
  | AbandonRun (run : run_id)
  | StageGeneration
  | Publish (st : staging) (par : option generation_id) (org : origin)
  | CommitLatest (id : generation_id)
  | SalvageRun
  | DiscardRun
  | Derive (edit : path -> M unit)
  | DropMem
  | AddCheckpoint (c : checkpoint_ref)
  | RemoveCheckpoint (id : string)
  | PinGeneration (id : generation_id)
  | CollectGarbage.

(** What an operation does to the record when it succeeds. *)
Inductive commits (current : process_identity) : operation -> record -> record -> Prop :=
  | recover_clean rec :
      r_phase rec = Stopped -> commits current Recover rec rec
  | recover_rolls_forward rec run id :
      phase_run (r_phase rec) = Some run ->
      commits current Recover rec (mk_record RECORD_VERSION (Some id) Stopped)
  | recover_discards_idle rec run owner :
      r_phase rec = Running run owner ->
      commits current Recover rec (mk_record RECORD_VERSION (r_latest rec) Stopped)
  | begin_commits rec from run :
      r_phase rec = Stopped ->
      commits current (BeginRun from) rec
        (mk_record RECORD_VERSION (r_latest rec) (Running run current))
  | advance_commits rec run id :
      phase_run (r_phase rec) = Some run ->
      commits current (AdvanceLatest run id) rec (mk_record RECORD_VERSION (Some id) (r_phase rec))
  | mark_commits rec run owner :
      r_phase rec = Running run owner ->
      commits current (MarkDirty run) rec
        (mk_record RECORD_VERSION (r_latest rec) (Dirty run owner))
  | mark_again rec run owner :
      r_phase rec = Dirty run owner -> commits current (MarkDirty run) rec rec
  | abandon_commits rec run owner :
      r_phase rec = Running run owner ->
      commits current (AbandonRun run) rec (mk_record RECORD_VERSION (r_latest rec) Stopped)
  | latest_commits rec id :
      commits current (CommitLatest id) rec (mk_record RECORD_VERSION (Some id) Stopped)
  | salvage_commits rec run owner id :
      r_phase rec = Dirty run owner ->
      commits current SalvageRun rec (mk_record RECORD_VERSION (Some id) Stopped)
  | discard_commits rec run owner :
      r_phase rec = Dirty run owner ->
      commits current DiscardRun rec (mk_record RECORD_VERSION (r_latest rec) Stopped)
  | derive_commits rec edit id :
      r_phase rec = Stopped ->
      commits current (Derive edit) rec (mk_record RECORD_VERSION (Some id) Stopped)
  | drop_commits rec id :
      r_phase rec = Stopped ->
      commits current DropMem rec (mk_record RECORD_VERSION (Some id) Stopped)
  | drop_nothing rec :
      r_phase rec = Stopped -> commits current DropMem rec rec
  | no_commit rec o :
      match o with
      | ImportDir _ _ _ | StageGeneration | Publish _ _ _ | AddCheckpoint _
      | RemoveCheckpoint _ | PinGeneration _ | CollectGarbage => True
      | _ => False
      end ->
      commits current o rec rec.

Section safety.
Context `{Json record, Json manifest, Json checkpoint_ref}.
Context `{!JsonLaws record valid_record, !JsonLaws manifest valid_manifest}.
Context (dir : path) (current : process_identity).

Abbreviation gdir := (generation_dir dir).
Abbreviation rdir := (run_dir dir).

(** Runs an operation, forgetting its result. *)
Definition perform (o : operation) : M unit :=
  match o with
  | Recover => _ ← recover dir; mret tt
  | BeginRun from => _ ← begin_run dir current from; mret tt
  | AdvanceLatest run id => advance_latest dir run id
  | ImportDir source par org => _ ← import_dir dir source par org; mret tt
  | MarkDirty run => mark_dirty dir run
  | AbandonRun run => abandon_run dir run
  | StageGeneration => _ ← stage dir; mret tt
  | Publish st par org => _ ← publish dir st par org; mret tt
  | CommitLatest id => commit_latest dir id
  | SalvageRun => _ ← salvage dir; mret tt
  | DiscardRun => _ ← discard_run dir; mret tt
  | Derive edit => _ ← derive dir edit; mret tt
  | DropMem => _ ← drop_memory dir; mret tt
  | AddCheckpoint c => add_checkpoint dir c
  | RemoveCheckpoint id => remove_checkpoint dir id
  | PinGeneration id => _ ← pin dir id; mret tt
  | CollectGarbage => _ ← collect_garbage dir; mret tt
  end.

(** What callers owe: a staging directory comes from [stage], and an edit
    keeps to the directory it is given. *)
Definition admissible (o : operation) : Prop :=
  match o with
  | Publish st _ _ => s_dir st = staging_dir dir (s_id st)
  | Derive edit => forall d, modifies (below d) (edit d) /\ respects keeps_form (edit d)
  | _ => True
  end.

(** The invariant of a store whose record is [rec]. *)
Definition good (m : fsmap) (rec : record) : Prop :=
  well_formed m /\ record_at dir m = Some rec /\ r_version rec = RECORD_VERSION /\
  forall id, r_latest rec = Some id -> complete dir m id.

(** The store is good with record [rec], and whatever [rec] still shares with
    [rec0], its latest generation and its live run, is as it was in [m0]. *)
Definition kept (m0 : fsmap) (rec0 rec : record) (m : fsmap) : Prop :=
  good m rec /\
  (forall id, r_latest rec0 = Some id -> r_latest rec = Some id -> same_tree (gdir id) m0 m) /\
  (forall run, phase_run (r_phase rec0) = Some run -> phase_run (r_phase rec) = Some run ->
     same_tree (rdir run) m0 m).

Lemma kept_trans m0 m1 rec rec1 m : kept m0 rec rec1 m1 -> kept m1 rec1 rec1 m -> kept m0 rec rec1 m.
Proof.
  intros (_ & Hs & Hr) (Hg & Hs' & Hr'). split_and!; [done | |].
  - intros id Hid Hid' p Hp. rewrite (Hs' id Hid' Hid' p Hp). by apply (Hs id).
  - intros run Hrun Hrun' p Hp. rewrite (Hr' run Hrun' Hrun' p Hp). by apply (Hr run).
Qed.

(** ** Reading the committed state *)

Lemma reads_read_json {A : Type} `{Json A} p :
  reads (read_json (A := A) p) (fun m r => forall a, r = Some a -> json_at m p = Some a).
Proof.
  unfold read_json. eapply reads_bind; [apply reads_attempt, reads_look|].
  intros [b|e].
  - destruct (from_slice b) as [a|] eqn:Ea; [|apply reads_fail].
    apply reads_ret. intros m Hb a' [= <-]. unfold json_at, contents_at.
    unfold read_in, stat_in in Hb. repeat case_match; by simplify_eq/=.
  - destruct e as [[]| |]; try apply reads_fail. by apply reads_ret.
Qed.

Lemma reads_get_record :
  reads (get_record dir) (fun m r => forall rec, r = Some rec -> record_at dir m = Some rec /\ r_version rec = RECORD_VERSION).
Proof.
  unfold get_record. eapply reads_bind; [apply reads_read_json|]. intros [rec|]; [|by apply reads_ret].
  case_bool_decide; [|apply reads_fail]. apply reads_ret. intros m Hr rec' [= <-]. eauto.
Qed.

Lemma reads_require_record :
  reads (require_record dir) (fun m rec => record_at dir m = Some rec /\ r_version rec = RECORD_VERSION).
Proof.
  unfold require_record. eapply reads_bind; [apply reads_get_record|].
  intros [rec|]; [|apply reads_fail]. apply reads_ret. eauto.
Qed.

Lemma elem_of_sorted_keys files name : name ∈ sorted_keys files <-> is_Some (files !! name).
Proof.
  unfold sorted_keys. rewrite merge_sort_Permutation, list_elem_of_fmap. split.
  - intros ([k v] & -> & Hk%elem_of_map_to_list). by eexists.
  - intros [v Hv]. exists (name, v). by rewrite elem_of_map_to_list.
Qed.

Lemma reads_check_file d mf name :
  reads (check_file d mf name) (fun m _ => exists f,
    m !! (d /: name) = Some (NFile f) /\ m_files mf !! name = Some (file_len f)).
Proof.
  unfold check_file, context. destruct (m_files mf !! name) as [size|]; [|apply reads_fail].
  apply reads_bind with (R := fun _ s => s = size); [by apply reads_ret|]. intros s.
  eapply reads_bind; [apply reads_look|]. intros [f| |t]; try apply reads_fail.
  case_bool_decide as Hl; [|apply reads_fail]. apply reads_ret. intros m Hf Hs. exists f.
  unfold lstat_in in Hf. by case_match; simplify_eq.
Qed.

Lemma reads_get_generation id :
  reads (get_generation dir id) (fun m g =>
    complete_as dir m id (g_manifest g) /\ g_dir g = gdir id).
Proof.
  unfold get_generation. eapply reads_bind; [apply reads_read_json|].
  intros [mf|]; [|apply reads_fail].
  apply reads_bind with (R := fun _ x => x = mf); [by apply reads_ret|]. intros mf'.
  case_bool_decide as Hid; [|apply reads_fail].
  eapply reads_bind; [apply reads_for_each; intros name; apply reads_check_file|]. intros u.
  case_bool_decide as Hroot; [|apply reads_fail]. apply reads_ret.
  intros m Hf -> Hm. specialize (Hm mf eq_refl). simpl. split; [|done]. split_and!; [done..|].
  intros name size Hs. destruct (Hf name) as (f & Hn & Hs').
  - apply elem_of_sorted_keys. by eexists.
  - exists f. split; [done|]. congruence.
Qed.

(** ** The three ways an operation moves *)

Lemma good_complete_occupied m id : complete dir m id -> occupied m (gdir id).
Proof.
  intros (mf & Hmf & _). exists MANIFEST. unfold manifest_at, json_at, contents_at in Hmf.
  destruct (m !! (gdir id /: MANIFEST)); [by eexists|done].
Qed.

Lemma good_latest_valid m rec id : good m rec -> r_latest rec = Some id -> valid_id id.
Proof using Type*.
  intros (_ & Hrec & _) Hl. unfold record_at, json_at in Hrec.
  destruct (contents_at m (state_path dir)) as [b|]; [|done].
  destruct (json_valid b rec Hrec) as [Hv _]. by rewrite Hl in Hv.
Qed.

Lemma complete_as_same m m' id mf :
  same_tree (gdir id) m m' -> complete_as dir m id mf -> complete_as dir m' id mf.
Proof.
  intros Hs (Hmf & Hid & Hroot & Hf). split_and!; [|done..|].
  - unfold manifest_at, json_at, contents_at in *. by rewrite (Hs (gdir id /: MANIFEST)) by apply below_snoc.
  - intros name size Hn. destruct (Hf _ _ Hn) as (f & Hm & Hl). exists f.
    by rewrite (Hs (gdir id /: name)) by apply below_snoc.
Qed.

Lemma same_tree_complete m m' id : same_tree (gdir id) m m' -> complete dir m id -> complete dir m' id.
Proof. intros Hs [mf Hc]. exists mf. by eapply complete_as_same. Qed.

(** What it takes to go from one kept store to another. *)
Lemma kept_step m0 rec0 rec rec' m m' :
  kept m0 rec0 rec m -> well_formed m' ->
  record_at dir m' = Some rec' -> r_version rec' = RECORD_VERSION ->
  (forall id, r_latest rec' = Some id -> complete dir m id /\ same_tree (gdir id) m m' /\
     (r_latest rec0 = Some id -> r_latest rec = Some id)) ->
  (forall run, phase_run (r_phase rec') = Some run -> same_tree (rdir run) m m' /\
     (phase_run (r_phase rec0) = Some run -> phase_run (r_phase rec) = Some run)) ->
  kept m0 rec0 rec' m'.
Proof.
  intros (_ & Hk & Hr) Hwf' Hrec' Hv' HG HR. split_and!.
  - split_and!; [done..|]. intros id (Hc & Hs & _)%HG. by eapply same_tree_complete.
  - intros id Hid0 (_ & Hs & Hid)%HG p Hp. rewrite (Hs p Hp). by apply (Hk id); auto.
  - intros run Hrun0 (Hs & Hrun)%HR p Hp. rewrite (Hs p Hp). by apply (Hr run); auto.
Qed.

(** An operation that guards what the record names keeps the store. *)
Lemma kept_guards {A : Type} E m0 rec0 rec (c : M A) :
  respects (guards dir (fun id => r_latest rec = Some id)
                       (fun run => phase_run (r_phase rec) = Some run)) c ->
  triple E (kept m0 rec0 rec) c (fun _ => kept m0 rec0 rec) (kept m0 rec0 rec).
Proof using Type*.
  intros Hc w Hkept. assert (Hg := proj1 Hkept).
  destruct (Hc E w) as (Hwf' & Hst & HK & HR); [apply Hg|..].
  { intros id Hid. split; [by eapply good_latest_valid|].
    apply good_complete_occupied. by apply Hg. }
  assert (Hkept' : kept m0 rec0 rec (w_fs (left_by (c E w)))).
  { destruct Hg as (Hwf & Hrec & Hv & Hl). eapply kept_step; [exact Hkept|done|..]; [|done|..].
    - unfold record_at, json_at, contents_at in *. by rewrite Hst.
    - intros id Hid. split_and!; [auto|by apply HK|done].
    - intros run Hrun. split; [by apply HR|done]. }
  by destruct (c E w).
Qed.

Lemma kept_reads {A B : Type} E m0 rec0 rec (c : M A) S (k : A -> M B) (Q : B -> fsmap -> Prop) (X : fsmap -> Prop) :
  reads c S -> (forall m, kept m0 rec0 rec m -> X m) ->
  (forall a, triple E (fun m => kept m0 rec0 rec m /\ S m a) (k a) Q X) ->
  triple E (kept m0 rec0 rec) (c ≫= k) Q X.
Proof. intros Hc HX Hk. eapply t_bind; [|apply Hk]. by eapply t_reads. Qed.

(** Looking at the record gives the record. *)
Lemma kept_require_record {B : Type} E m0 rec0 rec (k : record -> M B) (Q : B -> fsmap -> Prop) (X : fsmap -> Prop) :
  (forall m, kept m0 rec0 rec m -> X m) -> triple E (kept m0 rec0 rec) (k rec) Q X ->
  triple E (kept m0 rec0 rec) (require_record dir ≫= k) Q X.
Proof.
  intros HX Hk. eapply kept_reads; [apply reads_require_record|done|].
  intros rec'. apply t_start. intros m [Hkept [Hrec _]].
  assert (rec' = rec) as -> by (destruct Hkept as [(_ & Hr & _) _]; congruence).
  eapply t_conseq; [exact Hk|by intros ? <-|done|done].
Qed.

Lemma state_footprint_apart a b q :
  a <> STATE_FILE -> (forall id, a <> STATE_FILE +:+ ".tmp-" +:+ id) ->
  below (dir /: a /: b) q -> ~ commit_footprint (state_path dir) q.
Proof.
  intros Ha Ht [s ->]%below2 [Hq|[id Hq]].
  - apply below_spec in Hq as [s' Heq]. unfold state_path in Heq. rewrite <- app_assoc in Heq.
    apply app_inv_head in Heq. by simplify_eq/=.
  - unfold state_path in Hq. rewrite temp_of_snoc in Hq. apply below_spec in Hq as [s' Heq].
    rewrite <- app_assoc in Heq. apply app_inv_head in Heq. simplify_eq/=. by apply (Ht id).
Qed.

(** The commit point: afterwards the record is the old or the new one, whole,
    and nothing else changed. *)
Lemma kept_commit_record E m0 rec0 latest ph :
  let rec' := mk_record RECORD_VERSION latest ph in
  valid_record rec' ->
  triple E (fun m => kept m0 rec0 rec0 m /\ forall id, latest = Some id -> complete dir m id)
    (commit_record dir latest ph)
    (fun _ => kept m0 rec0 rec')
    (fun m => kept m0 rec0 rec0 m \/ kept m0 rec0 rec' m).
Proof using Type*.
  intros rec' Hv w [Hkept Hnew]. destruct (proj1 Hkept) as (Hwf & Hrec & Hver & Hl).
  assert (Ht := t_commit_file E (state_path dir) (to_vec_pretty rec' ++ [newline]) _ w eq_refl).
  assert (Hwf' := keeps_form_commit_json (state_path dir) rec' E w Hwf).
  unfold commit_record, commit_json in *. fold rec'. set (c := commit_file _ _) in *.
  assert (Hgo : forall m' r, well_formed m' -> frame (commit_footprint (state_path dir)) (w_fs w) m' ->
     record_at dir m' = Some r -> r = rec0 \/ r = rec' -> kept m0 rec0 r m').
  { intros m' r Hwm Hf Hr Hcase. eapply kept_step; [exact Hkept|done|done|by destruct Hcase as [->| ->]|..].
    - intros id Hid. split_and!; [destruct Hcase as [->| ->]; auto| |done].
      intros p Hp. apply Hf. by eapply state_footprint_apart, Hp.
    - intros run _. split; [|done]. intros p Hp. apply Hf. by eapply state_footprint_apart, Hp. }
  assert (Hold : forall m', m' !! state_path dir = w_fs w !! state_path dir -> record_at dir m' = Some rec0).
  { intros m' Hs. unfold record_at, json_at, contents_at in *. by rewrite Hs. }
  assert (Hput : forall m', holds (to_vec_pretty rec' ++ [newline]) (m' !! state_path dir) ->
     record_at dir m' = Some rec').
  { intros m' [b Hb]. unfold record_at, json_at, contents_at. rewrite Hb. simpl. by apply json_roundtrip. }
  destruct (c E w) as [[] w'|e w'|w']; simpl in *.
  - destruct Ht as [[Hf _] Hh]. auto 6.
  - destruct Ht as [Hf [?|?]]; [left|right]; auto 6.
  - destruct Ht as [Hf [?|?]]; [left|right]; auto 6.
Qed.

Lemma good_record_valid m rec : good m rec -> valid_record rec.
Proof using Type*.
  intros (_ & Hrec & _). unfold record_at, json_at in Hrec.
  destruct (contents_at m (state_path dir)) as [b|]; [|done]. by apply (json_valid b).
Qed.

Lemma complete_valid m id : complete dir m id -> valid_id id.
Proof using Type*.
  intros (mf & Hmf & <- & _). unfold manifest_at, json_at in Hmf.
  destruct (contents_at m _) as [b|]; [|done]. by apply (json_valid b) in Hmf as [Hv _].
Qed.

Lemma good_kept m rec : good m rec -> kept m rec rec m.
Proof. intros Hg. by split_and!. Qed.

Lemma kept_bind {A B : Type} E m0 rec0 rec (c : M A) (k : A -> M B) (Q : B -> fsmap -> Prop) (X : fsmap -> Prop) :
  triple E (kept m0 rec0 rec) c (fun _ => kept m0 rec0 rec) (kept m0 rec0 rec) ->
  (forall m, kept m0 rec0 rec m -> X m) ->
  (forall a, triple E (kept m0 rec0 rec) (k a) Q X) ->
  triple E (kept m0 rec0 rec) (c ≫= k) Q X.
Proof. intros Hc HX Hk. eapply t_bind; [|exact Hk]. by eapply t_conseq. Qed.

(** Garbage collection keeps the latest generation and the live run. *)
Lemma kept_collect E m0 rec0 rec :
  triple E (kept m0 rec0 rec) (collect_garbage dir) (fun _ => kept m0 rec0 rec) (kept m0 rec0 rec).
Proof using Type*.
  unfold collect_garbage. apply kept_require_record; [done|]. apply kept_guards. respects_tac.
  - apply guards_collect_run. done.
  - apply guards_collect_entry. intros id Hid. rewrite Hid. set_solver.
Qed.

(** The commit point, followed by the rest of the operation. *)
Lemma kept_commit {A : Type} E m0 rec latest ph (k : unit -> M A) (Q : A -> fsmap -> Prop) (X : fsmap -> Prop) :
  let rec' := mk_record RECORD_VERSION latest ph in
  valid_record rec' ->
  (forall m, kept m0 rec rec m \/ kept m0 rec rec' m -> X m) ->
  triple E (kept m0 rec rec') (k tt) Q X ->
  triple E (fun m => kept m0 rec rec m /\ forall id, latest = Some id -> complete dir m id)
    (commit_record dir latest ph ≫= k) Q X.
Proof using Type*.
  intros rec' Hv HX Hk. apply t_bind with (R := fun _ => kept m0 rec rec'); [|by intros []].
  by eapply t_conseq; [exact (kept_commit_record E m0 rec latest ph Hv)|..].
Qed.

(** Committing with the same latest generation needs nothing more. *)
Lemma kept_same_latest m0 rec m :
  kept m0 rec rec m -> kept m0 rec rec m /\ forall id, r_latest rec = Some id -> complete dir m id.
Proof. intros Hk. split; [done|]. apply Hk. Qed.

(** ** The operations *)

(** [o] may leave the record [rec'], whatever happens to it. *)
Definition settled (o : operation) (m0 : fsmap) (rec : record) (m : fsmap) : Prop :=
  exists rec', (rec' = rec \/ commits current o rec rec') /\ kept m0 rec rec' m.

Definition succeeded (o : operation) (m0 : fsmap) (rec : record) (m : fsmap) : Prop :=
  exists rec', commits current o rec rec' /\ kept m0 rec rec' m.

Abbreviation sound E o m0 rec :=
  (triple E (kept m0 rec rec) (perform o) (fun _ => succeeded o m0 rec) (settled o m0 rec)).

Lemma settled_old o m0 rec m : kept m0 rec rec m -> settled o m0 rec m.
Proof. exists rec. split; [by left|done]. Qed.

Lemma settled_new o m0 rec rec' m :
  commits current o rec rec' -> kept m0 rec rec' m -> settled o m0 rec m.
Proof. exists rec'. split; [by right|done]. Qed.

Lemma succeeded_intro o m0 rec rec' m :
  commits current o rec rec' -> kept m0 rec rec' m -> succeeded o m0 rec m.
Proof. by exists rec'. Qed.

Hint Resolve settled_old settled_new succeeded_intro : core.

(** An operation that never commits. *)
Lemma sound_guards E o m0 rec :
  commits current o rec rec ->
  respects (guards dir (fun id => r_latest rec = Some id)
                       (fun run => phase_run (r_phase rec) = Some run)) (perform o) ->
  sound E o m0 rec.
Proof using Type*.
  intros Hc Hr. eapply t_conseq; [by apply kept_guards|done|simpl; eauto|eauto].
Qed.

(** An operation whose last step, when it succeeds, is a commit that keeps
    the latest generation, and then garbage collection or nothing. *)
Lemma commit_phase_collect {A : Type} E o m0 rec ph (a : A) :
  let rec' := mk_record RECORD_VERSION (r_latest rec) ph in
  valid_record rec' -> commits current o rec rec' ->
  triple E (kept m0 rec rec)
    (_ ← commit_record dir (r_latest rec) ph; _ ← collect_garbage dir; mret a)
    (fun _ => succeeded o m0 rec) (settled o m0 rec).
Proof using Type*.
  intros rec' Hv Hc. eapply t_pre; [|apply kept_same_latest].
  apply kept_commit; [done|intros m [?|?]; eauto|].
  eapply kept_bind; [apply kept_collect|eauto|]. intros _. apply t_ret. eauto.
Qed.

Lemma kept_valid {A : Type} E m0 rec (c : M A) Q X :
  (valid_record rec -> triple E (kept m0 rec rec) c Q X) -> triple E (kept m0 rec rec) c Q X.
Proof using Type*. intros Hc w Hw. apply Hc; [|done]. by eapply good_record_valid, Hw. Qed.

(** The ids [commits] puts in a record are valid. *)
Lemma valid_new_latest id ph : valid_id id -> valid_phase ph -> valid_record (mk_record RECORD_VERSION (Some id) ph).
Proof. by split. Qed.

Lemma valid_new_phase rec ph :
  valid_record rec -> valid_phase ph -> valid_record (mk_record RECORD_VERSION (r_latest rec) ph).
Proof. intros [? _] ?. by split. Qed.

Lemma valid_stopped : valid_phase Stopped.
Proof. done. Qed.

Hint Resolve valid_new_latest valid_new_phase valid_stopped : core.

Lemma sound_mark_dirty E m0 rec run : sound E (MarkDirty run) m0 rec.
Proof using Type*.
  apply kept_valid. intros [Hv Hp]. simpl. unfold mark_dirty.
  apply kept_require_record; [eauto|]. unfold valid_phase in Hp.
  destruct (r_phase rec) as [|cur owner|cur owner] eqn:Eph; [apply t_fail; eauto|..];
    (case_bool_decide as Hcur; [subst cur|apply t_fail; eauto]).
  - assert (Hc := mark_commits current rec run owner Eph).
    eapply t_conseq; [apply kept_commit_record; by split|apply kept_same_latest|simpl; eauto|].
    intros m [?|?]; eauto.
  - apply t_ret. intros m Hm. eapply succeeded_intro, Hm. by eapply mark_again.
Qed.

Lemma sound_abandon E m0 rec run : sound E (AbandonRun run) m0 rec.
Proof using Type*.
  apply kept_valid. intros Hv. simpl. unfold abandon_run.
  apply kept_require_record; [eauto|].
  destruct (r_phase rec) as [|cur owner|cur owner] eqn:Eph; try (apply t_fail; by eauto).
  case_bool_decide as Hcur; [subst cur|apply t_fail; eauto].
  apply commit_phase_collect; [auto|by eapply abandon_commits].
Qed.

Lemma sound_discard E m0 rec : sound E DiscardRun m0 rec.
Proof using Type*.
  apply kept_valid. intros Hv. simpl. apply t_discard. unfold discard_run.
  apply kept_require_record; [eauto|].
  destruct (r_phase rec) as [|cur owner|cur owner] eqn:Eph; try (apply t_fail; by eauto).
  apply commit_phase_collect; [auto|by eapply discard_commits].
Qed.

Lemma reads_complete id :
  reads (get_generation dir id) (fun m _ => complete dir m id).
Proof. eapply reads_mono, reads_get_generation. intros m g [Hc _]. by eexists. Qed.

Lemma kept_new_latest m0 rec m id :
  kept m0 rec rec m -> complete dir m id ->
  kept m0 rec rec m /\ forall i, Some id = Some i -> complete dir m i.
Proof. intros Hk Hc. split; [done|]. by intros i [= <-]. Qed.

Lemma sound_advance E m0 rec run id : sound E (AdvanceLatest run id) m0 rec.
Proof using Type*.
  apply kept_valid. intros [_ Hp]. simpl. unfold advance_latest.
  eapply kept_reads; [apply reads_complete|eauto|]. intros g.
  eapply t_bind; [eapply t_reads; [apply reads_require_record|..]|].
  { intros m [Hk _]. eauto. }
  { intros m rec' Hm Hr. exact (conj Hm Hr). }
  intros rec'. apply t_start. intros m [[Hk Hc] [Hrec _]].
  assert (rec' = rec) as -> by (destruct Hk as [(_ & Hr & _) _]; congruence).
  assert (Hv := complete_valid _ _ Hc).
  assert (Hgo : commits current (AdvanceLatest run id) rec (mk_record RECORD_VERSION (Some id) (r_phase rec)) ->
    triple E (eq m) (commit_record dir (Some id) (r_phase rec))
      (fun _ => succeeded (AdvanceLatest run id) m0 rec) (settled (AdvanceLatest run id) m0 rec)).
  { intros Hcom. eapply t_conseq; [apply (kept_commit_record E m0 rec); by split|..|].
    - intros ? <-. by apply kept_new_latest.
    - simpl; eauto.
    - intros m' [?|?]; eauto. }
  destruct (r_phase rec) as [|cur owner|cur owner] eqn:Eph; [apply t_fail; intros ? <-; eauto|..];
    (case_bool_decide as Hcur; [subst cur|apply t_fail; intros ? <-; eauto]);
    rewrite <- Eph in *; apply Hgo, advance_commits; by rewrite Eph.
Qed.

(** [commit_latest] as a step of any operation [o] that it completes. *)
Lemma kept_commit_latest {A : Type} E o m0 rec id (a : A) :
  commits current o rec (mk_record RECORD_VERSION (Some id) Stopped) ->
  triple E (kept m0 rec rec) (_ ← commit_latest dir id; mret a)
    (fun _ => succeeded o m0 rec) (settled o m0 rec).
Proof using Type*.
  intros Hcom. apply t_bind with (R := fun _ => succeeded o m0 rec); [|intros []; by apply t_ret].
  unfold commit_latest. eapply kept_reads; [apply reads_complete|eauto|]. intros g.
  apply t_start. intros m [Hk Hc]. assert (Hv := complete_valid _ _ Hc).
  eapply t_pre; [apply kept_commit; [by apply valid_new_latest|intros m' [?|?]; eauto|]
    |by intros ? <-; apply kept_new_latest].
  eapply kept_bind; [apply kept_collect|eauto|]. intros c. apply t_ret. eauto.
Qed.

Lemma sound_commit_latest E m0 rec id : sound E (CommitLatest id) m0 rec.
Proof using Type*.
  assert (Hc := kept_commit_latest E (CommitLatest id) m0 rec id tt (latest_commits current rec id)).
  intros w Hw. specialize (Hc w Hw). simpl in *. unfold mbind, M_bind in Hc.
  by destruct (commit_latest dir id E w) as [[]| |].
Qed.

(** Stages a generation, works on it, publishes it and commits it. *)
Lemma sound_staged {A : Type} E o m0 rec (k : staging -> M A) :
  (forall st, s_dir st = staging_dir dir (s_id st) -> valid_id (s_id st) ->
     triple E (kept m0 rec rec) (k st) (fun _ => succeeded o m0 rec) (settled o m0 rec)) ->
  triple E (kept m0 rec rec) (st ← stage dir; k st)
    (fun _ => succeeded o m0 rec) (settled o m0 rec).
Proof using Type*.
  intros Hk.
  apply t_bind with (R := fun st m => kept m0 rec rec m /\
     s_dir st = staging_dir dir (s_id st) /\ valid_id (s_id st)).
  - eapply t_conseq; [eapply t_returns; [apply kept_guards, guards_stage|apply returns_stage]|..].
    + done.
    + done.
    + eauto.
  - intros st. apply t_start. intros m [Hm [Hd Hv]]. eapply t_pre; [by apply Hk|by intros ? <-].
Qed.

(** Publishing then committing. *)
Lemma publish_and_commit {A : Type} E o m0 rec st par org (a : generation_id -> A) :
  s_dir st = staging_dir dir (s_id st) ->
  (forall id, commits current o rec (mk_record RECORD_VERSION (Some id) Stopped)) ->
  triple E (kept m0 rec rec)
    (id ← publish dir st par org; _ ← commit_latest dir id; mret (a id))
    (fun _ => succeeded o m0 rec) (settled o m0 rec).
Proof using Type*.
  intros Hst Hcom. eapply kept_bind; [by apply kept_guards, guards_publish|eauto|].
  intros id. by apply kept_commit_latest.
Qed.

Lemma sound_salvage E m0 rec : sound E SalvageRun m0 rec.
Proof using Type*.
  simpl. apply t_discard. unfold salvage. apply kept_require_record; [eauto|].
  destruct (r_phase rec) as [|cur owner|cur owner] eqn:Eph; try (apply t_fail; by eauto).
  apply sound_staged. intros st Hd Hv. rewrite Hd.
  eapply kept_bind; [apply kept_guards, guards_clone_file|eauto|]. intros _.
  eapply kept_bind; [apply kept_guards, guards_clone_shares|eauto|]. intros _.
  apply (publish_and_commit E _ _ _ st _ _ id); [done|]. intros i. by eapply salvage_commits.
Qed.

Lemma sound_derive E m0 rec edit : admissible (Derive edit) -> sound E (Derive edit) m0 rec.
Proof using Type*.
  intros Hedit. simpl. apply t_discard. unfold derive. apply kept_require_record; [eauto|].
  case_bool_decide as Hst; [|apply t_fail; eauto].
  eapply kept_bind; [apply kept_guards; auto with frames|eauto|]. intros [base|]; [|apply t_fail; eauto].
  simpl context. eapply t_bind with (R := fun b => kept m0 rec rec); [by apply t_ret|]. intros b.
  apply sound_staged. intros st Hd Hv. rewrite Hd.
  eapply kept_bind; [apply kept_guards, guards_clone_listed|eauto|]. intros _.
  eapply kept_bind; [apply kept_guards, guards_clone_shares|eauto|]. intros _.
  eapply kept_bind; [apply kept_guards, respects_guards|eauto|].
  - eapply modifies_mono; [|apply Hedit]. intros q Hq. apply (elsewhere_staging _ _ _ (s_id st)). by left.
  - apply Hedit.
  - intros _. apply (publish_and_commit E _ _ _ st _ _ id); [done|]. intros i. by apply derive_commits.
Qed.

Lemma sound_drop_memory E m0 rec : sound E DropMem m0 rec.
Proof using Type*.
  simpl. apply t_discard. unfold drop_memory. apply kept_require_record; [eauto|].
  case_bool_decide as Hst; [|apply t_fail; eauto].
  assert (Hnone := drop_nothing current rec Hst).
  eapply kept_bind; [apply kept_guards; auto with frames|eauto|].
  intros [base|]; [|apply t_ret; eauto].
  destruct (has_memory (g_manifest base)); [|apply t_ret; eauto].
  apply sound_staged. intros st Hd Hv. rewrite Hd.
  eapply kept_bind; [apply kept_guards, guards_clone_file|eauto|]. intros _.
  eapply kept_bind; [apply kept_guards, guards_clone_shares|eauto|]. intros _.
  apply (publish_and_commit E _ _ _ st _ _ Some); [done|]. intros i. by apply drop_commits.
Qed.

(** A new run directory is not the live run's: there is none. *)
Lemma guards_run_dir {A : Type} rec id (c : M A) :
  r_phase rec = Stopped -> respects keeps_form c ->
  (forall F : path -> Prop, (forall q, below (rdir id) q \/ below q (rdir id) -> F q) -> modifies F c) ->
  respects (guards dir (fun i => r_latest rec = Some i)
                       (fun r => phase_run (r_phase rec) = Some r)) c.
Proof.
  intros Hst Hf Hm. apply respects_guards; [|done]. apply Hm.
  intros q Hq. apply (elsewhere_run _ _ _ id); [|done]. by rewrite Hst.
Qed.

Lemma sound_begin_run E m0 rec from : sound E (BeginRun from) m0 rec.
Proof using Type*.
  apply kept_valid. intros Hv. simpl. apply t_discard. unfold begin_run.
  apply kept_require_record; [eauto|]. case_bool_decide as Hst; [|apply t_fail; eauto].
  eapply kept_bind; [apply kept_guards; respects_tac|eauto|]. intros base.
  apply t_bind with (R := fun id m => kept m0 rec rec m /\ valid_id id).
  { eapply t_conseq; [eapply t_returns; [apply kept_guards; auto with frames|apply returns_new_run_id]|done|done|eauto]. }
  intros id. apply t_start. intros m [Hm Hid]. cbv zeta.
  eapply t_pre; [|by intros ? <-; exact Hm].
  eapply kept_bind; [apply kept_guards, (guards_run_dir _ id); [done|auto with frames|]|eauto|].
  { intros F HF. apply modifies_create_dir_all. auto. }
  intros _. eapply kept_bind; [apply kept_guards, (guards_run_dir _ id); [done|..]|eauto|].
  { pose proof keeps_form_clone_listed. pose proof keeps_form_clone_shares. respects_tac. }
  { intros F HF. respects_tac; [by apply modifies_clone_listed|by apply modifies_clone_shares]. }
  intros _. eapply kept_bind; [apply kept_guards; auto with frames|eauto|]. intros _.
  eapply kept_bind; [apply kept_guards; auto with frames|eauto|]. intros _.
  assert (Hc := begin_commits current rec from id Hst).
  eapply t_pre; [apply kept_commit; [by apply valid_new_phase|intros m' [?|?]; eauto|]|apply kept_same_latest].
  apply t_ret. eauto.
Qed.

Lemma sound_remove_checkpoint E m0 rec id : sound E (RemoveCheckpoint id) m0 rec.
Proof using Type*.
  simpl. unfold remove_checkpoint.
  assert (Hn := no_commit current rec (RemoveCheckpoint id) I).
  apply t_bind with (R := fun p m => kept m0 rec rec m /\ valid_id id /\ p = checkpoints_dir dir /: (id +:+ ".ref")).
  { eapply t_conseq; [eapply t_returns; [apply kept_guards; auto with frames|apply returns_checkpoint_ref_path]|done|done|eauto]. }
  intros p. apply t_start. intros m (Hm & _ & ->). eapply t_pre; [|by intros ? <-; exact Hm].
  eapply kept_bind; [apply kept_guards, respects_guards|eauto|].
  { apply modifies_remove_file. eapply elsewhere_checkpoint. left. apply below_snoc. }
  { auto with frames. }
  intros _. eapply kept_bind; [apply kept_guards; auto with frames|eauto|]. intros _.
  eapply kept_bind; [apply kept_collect|eauto|]. intros c. apply t_ret. eauto.
Qed.

(** ** Recovery *)

(** [id] is a published final snapshot of [run]. *)
Definition final_of (m : fsmap) (run : run_id) (id : generation_id) : Prop :=
  exists mf, complete_as dir m id mf /\ m_origin mf = Snapshot run.

Lemma reads_final_generation_of run :
  reads (final_generation_of dir run) (fun m fin => forall id, fin = Some id -> final_of m run id).
Proof.
  unfold final_generation_of. apply reads_bind with (R := fun _ _ => True).
  { unfold generation_ids. eapply reads_bind; [apply reads_attempt, reads_read_dir|].
    intros [names|e]; [by apply reads_ret|]. destruct e as [[]| |]; (by apply reads_ret) || apply reads_fail. }
  intros ids. eapply reads_mono; [|apply (reads_fold_m _
    (fun m fin _ => forall id, fin = Some id -> final_of m run id))].
  - intros m fin Hinv _. by apply Hinv.
  - intros seen found id. eapply reads_bind; [apply reads_attempt, reads_get_generation|].
    intros [g|e]; [|by apply reads_ret].
    destruct (m_origin (g_manifest g)) eqn:Eo; try by apply reads_ret.
    apply reads_ret. intros m [Hg _] Hinv. case_bool_decide as Hr; [|done].
    intros i [= <-]. exists (g_manifest g). by rewrite Eo, Hr.
Qed.

(** What recovery reports, against the record it leaves. *)
Definition recovered (rec : record) (rv : recovery) (rec' : record) (m : fsmap) : Prop :=
  match rv with
  | Clean => r_phase rec = Stopped /\ rec' = rec
  | RolledForward id =>
      rec' = mk_record RECORD_VERSION (Some id) Stopped /\
      exists run, phase_run (r_phase rec) = Some run /\ final_of m run id
  | DiscardedIdleRun run =>
      rec' = mk_record RECORD_VERSION (r_latest rec) Stopped /\
      exists owner, r_phase rec = Running run owner
  end.

Lemma final_complete m run id : final_of m run id -> complete dir m id.
Proof. intros (mf & Hc & _). by exists mf. Qed.

Lemma same_tree_final m m' run id : same_tree (gdir id) m m' -> final_of m run id -> final_of m' run id.
Proof.
  intros Hs (mf & Hc & Ho). exists mf. split; [|done]. by eapply complete_as_same.
Qed.

Lemma recovered_commits rec rv rec' m : recovered rec rv rec' m -> commits current Recover rec rec'.
Proof.
  destruct rv as [|id|run]; simpl.
  - intros [? ->]. by apply recover_clean.
  - intros [-> (run & Hr & _)]. by eapply recover_rolls_forward.
  - intros [-> [owner Ho]]. by eapply recover_discards_idle.
Qed.

(** Garbage collection after recovery keeps what it reports. *)
Lemma kept_recovered E m0 rec rec' rv :
  triple E (fun m => recovered rec rv rec' m /\ kept m0 rec rec' m)
    (_ ← collect_garbage dir; mret rv)
    (fun rv m => exists rec', recovered rec rv rec' m /\ kept m0 rec rec' m)
    (settled Recover m0 rec).
Proof using Type*.
  apply t_start. intros m1 [Hrv Hk]. assert (Hc := recovered_commits _ _ _ _ Hrv).
  eapply t_bind.
  { eapply t_conseq; [exact (t_and E _ _ _ _ _ _ _ (kept_collect E m0 rec rec') (kept_collect E m1 rec' rec'))|..].
    - intros ? <-. split; [done|]. apply good_kept, Hk.
    - intros a m Hm. exact Hm.
    - intros m [Hm _]. eauto. }
  intros c. apply t_ret. intros m [Hm [_ [Htree _]]]. exists rec'. split; [|done].
  destruct rv as [|id|run]; simpl in *; [done| |done].
  destruct Hrv as [-> (run & Hr & Hfin)]. split; [done|]. exists run. split; [done|].
  eapply same_tree_final; [|exact Hfin]. by apply Htree.
Qed.

Lemma commit_record_same_entry E l ph m1 a b :
  a <> STATE_FILE -> (forall id, a <> STATE_FILE +:+ ".tmp-" +:+ id) ->
  triple E (eq m1) (commit_record dir l ph)
    (fun _ => same_tree (dir /: a /: b) m1) (same_tree (dir /: a /: b) m1).
Proof.
  intros Ha Ht.
  eapply t_conseq; [apply t_modifies, modifies_commit_file; intros q Hq; exact Hq|done|..];
    simpl; intros; intros p Hp;
    match goal with Hf : frame _ _ _ |- _ => apply Hf end;
    by eapply state_footprint_apart, Hp.
Qed.

Lemma commit_record_same_tree E l ph m1 id :
  triple E (eq m1) (commit_record dir l ph) (fun _ => same_tree (gdir id) m1) (same_tree (gdir id) m1).
Proof. by apply commit_record_same_entry. Qed.

(** Rolling forward to the final snapshot of the run. *)
Lemma recover_roll E m0 rec run id :
  phase_run (r_phase rec) = Some run ->
  triple E (fun m => kept m0 rec rec m /\ final_of m run id)
    (_ ← commit_record dir (Some id) Stopped; mret (RolledForward id))
    (fun rv m => exists rec', recovered rec rv rec' m /\ kept m0 rec rec' m)
    (settled Recover m0 rec).
Proof using Type*.
  intros Hrun. assert (Hc := recover_rolls_forward current rec run id Hrun).
  apply t_start. intros m1 [Hm Hfin]. assert (Hcomp := final_complete _ _ _ Hfin).
  assert (Hv := complete_valid _ _ Hcomp).
  eapply t_bind.
  { eapply t_conseq; [exact (t_and E _ _ _ _ _ _ _
      (kept_commit_record E m0 rec (Some id) Stopped (valid_new_latest id Stopped Hv valid_stopped))
      (commit_record_same_tree E (Some id) Stopped m1 id))|..].
    - intros ? <-. split; [by apply kept_new_latest|done].
    - intros a m Hm'. exact Hm'.
    - intros m [[?|?] _]; eauto. }
  intros u. apply t_ret. intros m [Hm' Hs]. eexists. split; [|exact Hm'].
  split; [done|]. exists run. split; [done|]. by eapply same_tree_final.
Qed.

Lemma t_recover E m0 rec :
  triple E (kept m0 rec rec) (recover dir)
    (fun rv m => exists rec', recovered rec rv rec' m /\ kept m0 rec rec' m)
    (settled Recover m0 rec).
Proof using Type*.
  apply kept_valid. intros Hv. unfold recover. apply kept_require_record; [eauto|].
  apply t_bind with (R := fun rv m => exists rec', recovered rec rv rec' m /\ kept m0 rec rec' m).
  2: { intros rv. apply t_start. intros m [rec' Hm].
       eapply t_pre; [apply kept_recovered|]. intros ? <-. exact Hm. }
  destruct (r_phase rec) as [|run owner|run owner] eqn:Eph.
  - apply t_ret. intros m Hm. by exists rec.
  - eapply kept_reads; [apply reads_final_generation_of|eauto|]. intros [id|].
    + eapply t_pre; [apply (recover_roll E m0 rec run); by rewrite Eph|]. intros m [Hm Hf]. auto.
    + assert (Hc := recover_discards_idle current rec run owner Eph).
      eapply t_pre; [apply (kept_commit E m0 rec (r_latest rec) Stopped); [auto|intros m [?|?]; eauto|]
        |intros m [Hm _]; by apply kept_same_latest].
      apply t_ret. intros m Hm. eexists. split; [|exact Hm]. split; [done|eauto].
  - eapply kept_reads; [apply reads_final_generation_of|eauto|]. intros [id|].
    + eapply t_pre; [apply (recover_roll E m0 rec run); by rewrite Eph|]. intros m [Hm Hf]. auto.
    + apply t_fail. intros m [Hm _]. eauto.
Qed.

Lemma sound_recover E m0 rec : sound E Recover m0 rec.
Proof using Type*.
  simpl. eapply t_bind; [apply t_recover|]. intros rv. apply t_ret.
  intros m (rec' & Hrv & Hm). eapply succeeded_intro; [|exact Hm]. by eapply recovered_commits.
Qed.

Lemma perform_sound E o m0 rec : admissible o -> sound E o m0 rec.
Proof using Type*.
  intros Ha. destruct o;
    try solve [apply sound_guards; [by apply no_commit|simpl; respects_tac]].
  - apply sound_recover.
  - apply sound_begin_run.
  - apply sound_advance.
  - apply sound_guards; [by apply no_commit|]. simpl. respects_step; [apply guards_import_dir|respects_tac].
  - apply sound_mark_dirty.
  - apply sound_abandon.
  - apply sound_guards; [by apply no_commit|]. simpl. respects_step; [apply guards_stage|respects_tac].
  - apply sound_guards; [by apply no_commit|]. simpl. respects_step; [by apply guards_publish|respects_tac].
  - apply sound_commit_latest.
  - apply sound_salvage.
  - apply sound_discard.
  - by apply sound_derive.
  - apply sound_drop_memory.
  - apply sound_guards; [by apply no_commit|]. apply guards_add_checkpoint.
  - apply sound_remove_checkpoint.
  - simpl. apply t_discard. eapply t_conseq; [apply kept_collect|done|..]; simpl.
    + intros _ m Hm. eapply succeeded_intro, Hm. by apply no_commit.
    + eauto.
Qed.

End safety.
