(* ===== verification/StorePublish.v ===== *)
(** * Publishing a generation

    What [publish] makes of a staging directory, and so what [initialize],
    [salvage], [drop_memory] and [derive] make of theirs: a complete
    generation whose manifest lists exactly the staged files and whose
    contents are the staged ones. *)

From S2P Require Import Prelude FileSystem FsLogic FsUtil Store StoreLogic StoreSafety.

(** The sizes [publish] records: every top-level regular file of [d] but the
    manifest and the pin. *)
Definition listed (m : fsmap) (d : path) (files : gmap string N) : Prop :=
  forall name size, files !! name = Some size <->
    name <> MANIFEST /\ name <> PIN /\ exists f, m !! (d /: name) = Some (NFile f) /\ size = file_len f.

Definition listed_among (m : fsmap) (d : path) (files : gmap string N) (seen : list string) : Prop :=
  forall name size, files !! name = Some size <->
    name ∈ seen /\ name <> MANIFEST /\ name <> PIN /\
    exists f, m !! (d /: name) = Some (NFile f) /\ size = file_len f.

Lemma listed_among_skip m d files seen name :
  listed_among m d files seen ->
  ~ (name <> MANIFEST /\ name <> PIN /\ exists f, m !! (d /: name) = Some (NFile f)) ->
  listed_among m d files (seen ++ [name]).
Proof.
  intros Hl Hn x size. rewrite (Hl x size), elem_of_app, list_elem_of_singleton. split; [tauto|].
  intros ([?| ->] & H1 & H2 & f & Hf & Hs); [naive_solver|]. destruct Hn. eauto.
Qed.

Lemma listed_among_add m d files seen name f :
  listed_among m d files seen -> name <> MANIFEST /\ name <> PIN -> m !! (d /: name) = Some (NFile f) ->
  listed_among m d (<[name := file_len f]> files) (seen ++ [name]).
Proof.
  intros Hl [Hm Hp] Hf x size. rewrite elem_of_app, list_elem_of_singleton.
  destruct (decide (name = x)) as [<-|Hne].
  - rewrite lookup_insert_eq. split.
    + intros [= <-]. eauto 8.
    + intros (_ & _ & _ & f' & Hf' & ->). congruence.
  - rewrite lookup_insert_ne, (Hl x size) by done. split; [tauto|].
    intros ([?| <-] & ?); [tauto|done].
Qed.

Lemma listed_among_nil m d : listed_among m d ∅ [].
Proof. intros x y. rewrite lookup_empty. split; [done|]. by intros [?%elem_of_nil _]. Qed.

Lemma reads_list_files d : reads (list_files d) (fun m files => listed m d files).
Proof.
  unfold list_files. eapply reads_bind; [apply reads_read_dir|]. intros names.
  eapply reads_mono; [|apply (reads_fold_m _ (fun m files seen => listed_among m d files seen))].
  - intros m files Hl [_ Hperm] name size. rewrite (Hl (listed_among_nil m d) name size).
    rewrite Hperm, elem_of_entries. split; [tauto|]. intros (? & ? & f & Hf & ?). eauto 8.
  - intros seen files name. eapply reads_bind; [apply reads_look|]. intros nd.
    assert (Hst : forall m, lstat_in m (d /: name) = inl nd -> m !! (d /: name) = Some nd)
      by (intros m; unfold lstat_in; case_match; by intros [= ->]).
    destruct nd as [f| |t].
    + case_bool_decide as Hn; apply reads_ret; intros m Hm%Hst Hl.
      * by apply listed_among_add.
      * apply listed_among_skip; [done|]. tauto.
    + apply reads_ret. intros m Hm%Hst Hl. apply listed_among_skip; [done|].
      intros (_ & _ & f & Hf). congruence.
    + apply reads_ret. intros m Hm%Hst Hl. apply listed_among_skip; [done|].
      intros (_ & _ & f & Hf). congruence.
Qed.

Lemma t_create_file E m0 p :
  triple E (eq m0) (create_file p) (fun _ => frame (eq p) m0) (fun _ => True).
Proof.
  by eapply t_conseq; [apply (t_modifies _ (eq p)), modifies_create_file|..].
Qed.

Lemma t_fs_write E m0 p data :
  triple E (eq m0) (fs_write p data) (fun _ m => frame (eq p) m0 m /\ holds data (m !! p)) (fun _ => True).
Proof.
  unfold fs_write. eapply t_bind; [apply t_create_file|]. intros ?.
  apply t_write_all; [|done..]. intros m b Hf. split; [|exists b; apply lookup_insert_eq].
  intros q Hq. rewrite lookup_insert_ne by done. by apply Hf.
Qed.

Section publish.
Context `{Json record, Json manifest, Json checkpoint_ref}.
Context `{!JsonLaws record valid_record, !JsonLaws manifest valid_manifest}.
Context (dir : path).

Abbreviation gdir := (generation_dir dir).

(** [st], as it was in [m1], is the generation [s_id st] of [m]. *)
Definition published (m1 : fsmap) (st : staging) (par : option generation_id) (org : origin)
    (m : fsmap) : Prop :=
  exists mf, complete_as dir m (s_id st) mf /\ m_parent mf = par /\ m_origin mf = org /\
    listed m1 (s_dir st) (m_files mf) /\
    forall x s, x <> MANIFEST -> x <> PIN -> m !! (gdir (s_id st) ++ x :: s) = m1 !! (s_dir st ++ x :: s).

(** The staging directory with its manifest and its pin written. *)
Definition sealed (m1 : fsmap) (d : path) (mf : manifest) (m : fsmap) : Prop :=
  holds (to_vec_pretty mf ++ [newline]) (m !! (d /: MANIFEST)) /\
  forall x s, x <> MANIFEST -> x <> PIN -> m !! (d ++ x :: s) = m1 !! (d ++ x :: s).

Lemma entry_ne (d : path) x y s : x <> y -> d /: y <> d ++ x :: s.
Proof. intros Hne Heq. apply app_inv_head in Heq. by simplify_eq. Qed.

Lemma t_pin_file E m1 d mf :
  triple E (fun m => frame (eq (d /: MANIFEST)) m1 m /\ holds (to_vec_pretty mf ++ [newline]) (m !! (d /: MANIFEST)))
    (create_file (d /: PIN)) (fun _ => sealed m1 d mf) (fun _ => True).
Proof.
  apply t_start. intros m2 [Hf2 Hm2].
  eapply t_conseq; [apply t_create_file|done| |done]. intros ? m Hf. split.
  - rewrite (Hf (d /: MANIFEST)); [done|]. intros Heq. apply app_inv_head in Heq. by simplify_eq.
  - intros x s Hx Hp. by rewrite Hf, Hf2 by by apply entry_ne.
Qed.

Lemma staging_name_ne id : STAGING_PREFIX +:+ id <> id.
Proof.
  intros Heq. apply (f_equal String.length) in Heq. rewrite string_app_length in Heq. simpl in Heq. lia.
Qed.

Lemma staging_ne_generation id : staging_dir dir id <> gdir id.
Proof. intros Heq. apply app_inj_tail in Heq as [_ Heq]. by apply staging_name_ne in Heq. Qed.

Lemma complete_published st mf m1 m :
  s_dir st = staging_dir dir (s_id st) -> valid_manifest mf -> m_id mf = s_id st ->
  is_Some (m_files mf !! ROOTFS) -> listed m1 (s_dir st) (m_files mf) ->
  sealed m1 (s_dir st) mf m ->
  published m1 st (m_parent mf) (m_origin mf) (move (s_dir st) (gdir (s_id st)) m).
Proof using Type*.
  intros Hst Hv Hid Hroot Hl [[b Hman] Hrest].
  assert (Hnb : ~ below (s_dir st) (gdir (s_id st))).
  { rewrite Hst. intros Hb. eapply staging_name_ne, below_sibling; [exact Hb|apply below_refl]. }
  assert (Hmove : forall s, move (s_dir st) (gdir (s_id st)) m !! (gdir (s_id st) ++ s) = m !! (s_dir st ++ s))
    by (intros s; by rewrite lookup_move, strip_app by done).
  exists mf. split_and!; [| done | done | done |].
  - split_and!; [| done | done |].
    + unfold manifest_at, json_at, contents_at. rewrite Hmove, Hman. simpl. by apply json_roundtrip.
    + intros name size Hs. destruct (proj1 (Hl name size) Hs) as (Hm & Hp & f & Hf & ->).
      exists f. by rewrite Hmove, Hrest.
  - intros x s Hx Hp. by rewrite Hmove, Hrest.
Qed.

Lemma t_publish E m1 st par org :
  s_dir st = staging_dir dir (s_id st) -> valid_id (s_id st) ->
  match par with Some id => valid_id id | None => True end ->
  match origin_run org with Some run => valid_id run | None => True end ->
  triple E (eq m1) (publish dir st par org)
    (fun id m => id = s_id st /\ published m1 st par org m) (fun _ => True).
Proof using Type*.
  intros Hst Hid Hpar Horg. unfold publish.
  eapply t_bind; [eapply (t_reads _ _ _ _ (fun files m => m1 = m /\ listed m1 (s_dir st) files));
    [apply reads_list_files|done|by intros m files <-]|].
  intros files. case_bool_decide as Hroot; [|by apply t_fail].
  eapply t_bind; [eapply (t_reads _ _ _ _ (fun _ m => m1 = m /\ listed m1 (s_dir st) files));
    [apply reads_true_clock|done|done]|].
  intros now. cbv zeta. set (mf := mk_manifest _ _ _ _ _ _).
  apply t_start. intros ? [<- Hl].
  eapply t_bind; [apply t_fs_write|]. intros ?.
  eapply t_bind; [apply t_pin_file|]. intros ?.
  apply t_bind with (R := fun _ => sealed m1 (s_dir st) mf); [by apply t_silent; [auto with frames|..]|].
  intros _. apply t_bind with (R := fun _ => published m1 st par org).
  - apply t_change; [done|..].
    + intros w o Hw (-> & _)%rename_in_Some. by apply (complete_published st mf).
    + intros w _ Ho%rename_in_None. rewrite Hst in Ho. by apply staging_ne_generation in Ho.
  - intros _. apply t_bind with (R := fun _ => published m1 st par org);
      [by apply t_silent; [auto with frames|..]|]. intros ?. by apply t_ret.
Qed.

(** It does not replace a generation: a directory that holds something is not
    renamed over. *)
Lemma t_publish_new E m1 st par org :
  s_dir st = staging_dir dir (s_id st) -> well_formed m1 ->
  triple E (eq m1) (publish dir st par org) (fun id _ => ~ occupied m1 (gdir id)) (fun _ => True).
Proof.
  intros Hst Hwf. unfold publish. set (F := fun q => below (s_dir st) q).
  assert (Hin : forall n, F (s_dir st /: n)) by (intros n; apply below_snoc).
  assert (Hstep : forall c : M unit, modifies F c -> respects keeps_form c ->
    triple E (fun m => well_formed m /\ frame F m1 m) c (fun _ m => well_formed m /\ frame F m1 m) (fun _ => True)).
  { intros c Hm Hf w [Hw Hw']. specialize (Hm E w). specialize (Hf E w Hw). destruct (c E w); [|done..].
    split; [done|]. by etrans. }
  eapply t_bind; [eapply (t_silent _ _ _ (fun m => well_formed m /\ frame F m1 m)); [auto with frames|by intros ? <-|done]|].
  intros files. case_bool_decide; [|by apply t_fail].
  eapply t_bind; [eapply (t_silent _ _ _ (fun m => well_formed m /\ frame F m1 m)); [auto with frames|done|done]|].
  intros now. cbv zeta.
  eapply t_bind; [apply Hstep; auto with frames|]. intros ?.
  eapply t_bind; [apply Hstep; auto with frames|]. intros ?.
  eapply t_bind; [eapply (t_silent _ _ _ (fun m => well_formed m /\ frame F m1 m)); [auto with frames|done|done]|].
  intros ?. apply t_bind with (R := fun _ _ => ~ occupied m1 (gdir (s_id st))).
  - apply t_change; [done|..].
    + intros w o [Hw Hfr] (_ & _ & _ & _ & Hd & _)%rename_in_Some [y Hy].
      assert (Hx' : is_Some (w_fs w !! (gdir (s_id st) /: y))).
      { rewrite Hfr; [done|]. unfold F. rewrite Hst. intros [s Hs]%below_spec.
        unfold staging_dir, generation_dir in Hs. rewrite <- !app_assoc in Hs. apply app_inv_head in Hs.
        simplify_eq/=. by eapply staging_name_ne. }
      destruct (Hw _ _ Hx') as [Hnil|Hdir]; [unfold generation_dir, generations_dir in Hnil; by destruct dir|].
      destruct (Hd Hdir) as [_ He]. apply elem_of_entries in Hx'. unfold has_entries in He.
      by destruct (entries (w_fs w) (gdir (s_id st))); [apply elem_of_nil in Hx'|].
    + intros w _ Ho%rename_in_None. rewrite Hst in Ho. by apply staging_ne_generation in Ho.
  - intros _. eapply t_bind; [eapply (t_silent _ _ _ (fun _ => ~ occupied m1 (gdir (s_id st)))); [auto with frames|done|done]|].
    intros ?. by apply t_ret.
Qed.

End publish.
