(* ===== verification/StoreCopy.v ===== *)
(** * Runs and derived generations are copies

    What [begin_run] puts in a run directory, and what [salvage],
    [drop_memory] and [export] put in a new generation: the files they say
    they keep, with their contents. *)

From S2P Require Import Prelude FileSystem FsLogic FsUtil FsCopy Store StoreLogic StoreSafety StorePublish.

(** No system call fails in a way the tree does not explain; the process may
    still be killed at any point. *)
Definition calm (E : env) : Prop := forall t, e_fault E t <> Some FErr.

(** ** Copying what a manifest lists *)

Definition files_copied (src dst : path) (names : list string) (m0 m : fsmap) : Prop :=
  forall name, name ∈ names -> exists f b,
    m0 !! (src /: name) = Some (NFile f) /\ m !! (dst /: name) = Some (NFile (mk_file (f_data f) b)).

Definition listed_footprint (dst : path) (names : list string) (q : path) : Prop :=
  below q dst \/ exists name, name ∈ names /\ q = dst /: name.

Lemma listed_footprint_around dst names q : listed_footprint dst names q -> around dst q.
Proof. intros [?|(name & _ & ->)]; [by left|right; apply below_snoc]. Qed.

Lemma t_clone_listed E src dst m0 names :
  ~ below src dst -> ~ below dst src ->
  triple E (eq m0) (clone_listed src dst names)
    (fun _ m => frame (listed_footprint dst names) m0 m /\ files_copied src dst names m0 m) (fun _ => True).
Proof.
  intros Hsd Hds. unfold clone_listed.
  enough (forall l seen, seen ++ l = names ->
    triple E (fun m => frame (listed_footprint dst names) m0 m /\ files_copied src dst seen m0 m)
      (for_each (fun name => clone_or_copy_file (src /: name) (dst /: name)) l)
      (fun _ m => frame (listed_footprint dst names) m0 m /\ files_copied src dst names m0 m) (fun _ => True)) as Hgen.
  { eapply t_pre; [by apply (Hgen names [])|]. intros ? <-. split; [done|]. by intros ? ?%elem_of_nil. }
  induction l as [|x l IH]; intros seen Hseen; simpl.
  { apply t_ret. intros m Hm. by rewrite app_nil_r in Hseen; subst. }
  apply t_bind with (R := fun _ m => frame (listed_footprint dst names) m0 m /\ files_copied src dst (seen ++ [x]) m0 m).
  2: { intros _. apply IH. by rewrite <- app_assoc. }
  apply t_start. intros m [Hf Hc].
  eapply t_conseq; [apply (t_clone_or_copy_file E m (src /: x))|done| |done].
  { intros Hb. apply below_child, below_app_inv in Hb. tauto. }
  intros _ m' [Hf' (f & b & Hs & Hd)].
  assert (Hsrc : forall y, m !! (src /: y) = m0 !! (src /: y)).
  { intros y. apply Hf. intros Hl%listed_footprint_around. by apply around_apart in Hl. }
  split.
  - etrans; [exact Hf|]. eapply frame_mono, Hf'. intros q [->|Hq]%below_snoc_inv; [|by left].
    right. exists x. split; [|done]. rewrite <- Hseen. set_solver.
  - intros y. rewrite elem_of_app, list_elem_of_singleton. intros Hy.
    destruct (decide (y = x)) as [->|Hne]; [exists f, b; by rewrite <- Hsrc|].
    destruct Hy as [Hy|?]; [|done]. destruct (Hc y Hy) as (f' & b' & Hs' & Hd').
    exists f', b'. split; [done|]. rewrite Hf'; [done|].
    intros [?%app_inj_tail|Hq]%below_snoc_inv; [tauto|].
    by apply not_below_child in Hq.
Qed.

(** ** Copying host-share state *)

Lemma t_path_exists E m0 p :
  triple E (eq m0) (path_exists p)
    (fun b m => m0 = m /\ (calm E -> b = true <-> exists n, stat_in m0 p = inl n)) (fun _ => True).
Proof.
  intros w Hw. unfold path_exists, attempt, metadata, look, mbind, M_bind. subst m0.
  destruct (e_fault E (w_tick w)) as [[]|] eqn:Ef; simpl; [|done|].
  - split; [done|]. intros Hc. by destruct (Hc (w_tick w)).
  - destruct (stat_in (w_fs w) p) as [n|k]; simpl; (split; [done|]); intros _; split; try done; [by eauto|by intros [? ?]].
Qed.

Lemma stat_in_same m m' p n : m' !! p = m !! p -> stat_in m p = inl n -> stat_in m' p = inl n.
Proof. unfold stat_in. intros ->. by destruct (m !! p) as [[]|]. Qed.

(** What [clone_shares] leaves. *)
Definition shares_copied (E : env) (src dst : path) (m0 m : fsmap) : Prop :=
  frame (around (dst /: HOST_SHARE_STATE)) m0 m /\
  (calm E -> (exists n, stat_in m0 (src /: HOST_SHARE_STATE) = inl n) ->
     absent (dst /: HOST_SHARE_STATE) m0 ->
     copied (src /: HOST_SHARE_STATE) (dst /: HOST_SHARE_STATE) m0 m).

(** When the host-share state is a file. *)
Definition share_file_copied (src dst : path) (m0 m : fsmap) : Prop :=
  forall f, m0 !! (src /: HOST_SHARE_STATE) = Some (NFile f) ->
    m !! (dst /: HOST_SHARE_STATE) = m0 !! (dst /: HOST_SHARE_STATE) \/
    exists b, m !! (dst /: HOST_SHARE_STATE) = Some (NFile (mk_file (f_data f) b)).

(** A tree that is a single file. *)
Lemma t_clone_tree_file E src dst m0 f :
  ~ below src dst -> m0 !! src = Some (NFile f) ->
  triple E (eq m0) (clone_or_copy_tree src dst)
    (fun _ m => exists b, m !! dst = Some (NFile (mk_file (f_data f) b))) (fun _ => True).
Proof.
  intros Hnb Hf w Hw. unfold clone_or_copy_tree. revert w Hw.
  enough (forall n, triple E (eq m0) (clone_tree (S n) src dst)
    (fun _ m => exists b, m !! dst = Some (NFile (mk_file (f_data f) b))) (fun _ => True)) as Hn
    by (intros w Hw; by apply Hn).
  intros n. simpl.
  eapply t_bind; [eapply (t_reads _ _ _ _ (fun n' m => m0 = m /\ m0 !! src = Some n'));
    [apply reads_symlink_metadata|done|by intros m n' <-]|].
  intros n'. apply t_start. intros ? [<- Hn']. rewrite Hf in Hn'. simplify_eq.
  eapply t_conseq; [by apply t_clone_or_copy_file|done| |done].
  intros _ m [_ (f' & b & Hs & Hd)]. exists b. rewrite Hf in Hs. by simplify_eq.
Qed.

Lemma t_clone_shares E src dst m0 :
  well_formed m0 -> ~ below src dst -> ~ below dst src ->
  triple E (eq m0) (clone_shares src dst) (fun _ => shares_copied E src dst m0) (fun _ => True).
Proof.
  intros Hwf Hsd Hds. unfold clone_shares. eapply t_bind; [apply t_path_exists|].
  assert (Hapart : ~ below (src /: HOST_SHARE_STATE) (dst /: HOST_SHARE_STATE) /\
                   ~ below (dst /: HOST_SHARE_STATE) (src /: HOST_SHARE_STATE)).
  { split; intros Hb; apply below_child, below_app_inv in Hb; tauto. }
  intros b. apply t_start. intros ? [<- Hb]. destruct b.
  - assert (Hmod : triple E (eq m0) (clone_or_copy_tree (src /: HOST_SHARE_STATE) (dst /: HOST_SHARE_STATE))
      (fun _ => frame (around (dst /: HOST_SHARE_STATE)) m0) (fun _ => True)).
    { eapply t_conseq; [apply (t_modifies _ (around (dst /: HOST_SHARE_STATE)))|done|done|done].
      apply modifies_clone_or_copy_tree; intros q Hq; [by left|by right]. }
    destruct (m0 !! (dst /: HOST_SHARE_STATE)) as [n|] eqn:En.
    + eapply t_conseq; [exact Hmod|done| |done]. intros ? m Hm. split; [done|].
      intros _ _ Ha. specialize (Ha []). by rewrite app_nil_r, En in Ha.
    + eapply t_conseq; [apply (t_clone_or_copy_tree E (src /: HOST_SHARE_STATE) (dst /: HOST_SHARE_STATE) m0)|done| |done];
        try done; [by destruct src|by destruct dst|apply Hapart..|by apply absent_intro; [|destruct dst|]|].
      intros _ m [[Hf Hc] _]. by split.
  - apply t_ret. intros m <-. split; [done|]. intros Hcalm Hex. apply (Hb Hcalm) in Hex. done.
Qed.

Lemma t_clone_share_file E src dst m0 :
  ~ below src dst -> ~ below dst src ->
  triple E (eq m0) (clone_shares src dst) (fun _ => share_file_copied src dst m0) (fun _ => True).
Proof.
  intros Hsd Hds. unfold clone_shares. eapply t_bind; [apply t_path_exists|].
  intros [|]; apply t_start; intros ? [<- _]; [|apply t_ret; intros ? <- f _; by left].
  destruct (m0 !! (src /: HOST_SHARE_STATE)) as [[f| |]|] eqn:Ef.
  2-4: eapply t_conseq; [apply t_any|done| |done]; intros ? m _ f'; by rewrite Ef.
  eapply t_conseq; [apply (t_clone_tree_file E _ _ m0 f); [|done]|done| |done].
  - intros Hb. apply below_child, below_app_inv in Hb. tauto.
  - intros ? m Hm f'. rewrite Ef. intros [= Heq]. subst f'. by right.
Qed.

(** ** A whole directory *)

(** [dst] holds the files [names] of [src], and its host-share state when
    that could be looked at. *)
Definition contents_copied (E : env) (src dst : path) (names : list string) (m0 m : fsmap) : Prop :=
  (forall name, name ∈ names -> exists f b,
    m0 !! (src /: name) = Some (NFile f) /\ m !! (dst /: name) = Some (NFile (mk_file (f_data f) b))) /\
  (calm E -> (exists n, stat_in m0 (src /: HOST_SHARE_STATE) = inl n) ->
     HOST_SHARE_STATE ∉ names -> absent (dst /: HOST_SHARE_STATE) m0 ->
     copied (src /: HOST_SHARE_STATE) (dst /: HOST_SHARE_STATE) m0 m).

(** [m] differs from [m0] only around [dst], and in [dst] only in [names] and
    the host-share state. *)
Definition only_contents (dst : path) (names : list string) (m0 m : fsmap) : Prop :=
  frame (around dst) m0 m /\
  forall x s, x ∉ names -> x <> HOST_SHARE_STATE -> m !! (dst ++ x :: s) = m0 !! (dst ++ x :: s).

Lemma listed_footprint_entry dst names x s :
  x ∉ names -> ~ listed_footprint dst names (dst ++ x :: s).
Proof.
  intros Hx [Hb|(name & Hn & Heq)].
  - apply below_spec in Hb as [t Ht]. apply (f_equal length) in Ht.
    rewrite !length_app in Ht. simpl in Ht. lia.
  - apply app_inv_head in Heq. by simplify_eq.
Qed.

Lemma t_clone_contents E src dst m0 names :
  well_formed m0 -> ~ below src dst -> ~ below dst src ->
  triple E (eq m0) (_ ← clone_listed src dst names; clone_shares src dst)
    (fun _ m => contents_copied E src dst names m0 m /\ only_contents dst names m0 m) (fun _ => True).
Proof.
  intros Hwf Hsd Hds.
  eapply t_bind; [apply t_keep_form; [|apply keeps_form_clone_listed|by apply (t_clone_listed E src dst m0)];
    by intros ? <-|].
  intros []. apply t_start. intros m1 [[Hf Hc] Hwf1].
  assert (Hsrc : forall s, m1 !! (src ++ s) = m0 !! (src ++ s)).
  { intros s. apply Hf. intros Hl%listed_footprint_around. by apply around_apart in Hl. }
  eapply t_conseq; [apply t_also; [by apply (t_clone_shares E src dst m1)|by apply t_clone_share_file]|done| |done].
  intros [] m [[Hf' Hsh] Hsf]. split; split.
  - intros name Hn. destruct (Hc name Hn) as (f & b & Hs & Hd).
    destruct (decide (name = HOST_SHARE_STATE)) as [->|Hne].
    + destruct (Hsf f) as [Heq|[b' Hb']]; [by rewrite Hsrc|exists f, b|exists f, b'; done]. split; [done|]. by rewrite Heq.
    + exists f, b. split; [done|].
      rewrite Hf'; [done|]. rewrite <- (app_nil_r (dst /: name)). by apply around_sibling.
  - intros Hcalm [n Hn] Hin Habs s. specialize (Hsh Hcalm).
    assert (Hst : stat_in m1 (src /: HOST_SHARE_STATE) = inl n)
      by (eapply stat_in_same, Hn; apply Hsrc).
    rewrite <- app_assoc, <- Hsrc, app_assoc. apply Hsh; [by exists n|].
    intros t. rewrite <- app_assoc, Hf by (by apply listed_footprint_entry).
    rewrite app_assoc. apply Habs.
  - etrans; [eapply frame_mono, Hf; apply listed_footprint_around|].
    eapply frame_mono, Hf'. apply around_child.
  - intros x s Hx Hne. rewrite Hf', Hf; [done|by apply listed_footprint_entry|].
    change (x :: s) with ([x] ++ s). rewrite app_assoc. by apply around_sibling.
Qed.

(** Copied contents stay copied while their directory is left alone. *)
Lemma contents_copied_same E src dst names m0 m m' :
  contents_copied E src dst names m0 m -> same_tree dst m m' -> contents_copied E src dst names m0 m'.
Proof.
  intros [Hc Hs] Ht. split.
  - intros name Hn. destruct (Hc name Hn) as (f & b & ? & ?). exists f, b.
    by rewrite (Ht (dst /: name)) by apply below_snoc.
  - intros Hcalm Hex Hn Ha s. rewrite (Ht ((dst /: _) ++ s)); [by apply Hs|].
    rewrite <- app_assoc. apply below_app.
Qed.

(** The source may be looked at in an earlier tree. *)
Lemma contents_copied_before E src dst names m0 m1 m :
  same_tree src m0 m1 -> same_tree (dst /: HOST_SHARE_STATE) m0 m1 ->
  contents_copied E src dst names m1 m -> contents_copied E src dst names m0 m.
Proof.
  intros Hsrc Hdst [Hc Hs]. split.
  - intros name Hn. rewrite <- (Hsrc (src /: name)) by apply below_snoc. by apply Hc.
  - intros Hcalm [n Hex] Hn Ha s.
    assert (Hb : below src ((src /: HOST_SHARE_STATE) ++ s)) by (rewrite <- app_assoc; apply below_app).
    rewrite <- (Hsrc _ Hb). apply Hs; [done| |done|].
    + exists n. eapply stat_in_same, Hex. apply Hsrc, below_snoc.
    + intros t. rewrite Hdst by apply below_app. apply Ha.
Qed.

Section operations.
Context `{Json record, Json manifest, Json checkpoint_ref}.
Context `{!JsonLaws record valid_record, !JsonLaws manifest valid_manifest}.
Context (dir : path) (current : process_identity).

Abbreviation gdir := (generation_dir dir).
Abbreviation rdir := (run_dir dir).

(** Nothing is being staged, as garbage collection leaves it. *)
Definition no_staging (m : fsmap) : Prop := forall id, m !! staging_dir dir id = None.

(** Entries of the store's subdirectories are apart unless they are one. *)
Lemma entries_apart a b a' b' : (a, b) <> (a', b') -> ~ below (dir /: a /: b) (dir /: a' /: b').
Proof.
  intros Hne [s Hs]%below2. rewrite <- app_assoc in Hs. apply app_inv_head in Hs. by simplify_eq/=.
Qed.

Lemma run_generation_apart r id : ~ below (rdir r) (gdir id) /\ ~ below (gdir id) (rdir r).
Proof. split; by apply entries_apart. Qed.

Lemma run_staging_apart r id : ~ below (rdir r) (staging_dir dir id) /\ ~ below (staging_dir dir id) (rdir r).
Proof. split; by apply entries_apart. Qed.

Lemma generation_staging_apart g id :
  valid_id g -> ~ below (gdir g) (staging_dir dir id) /\ ~ below (staging_dir dir id) (gdir g).
Proof.
  intros Hv. split; apply entries_apart; intros [= Heq]; apply (staging_name_invalid id); congruence.
Qed.

(** ** The commit point *)

(** The record is as it was, or names the generation, which is as it was. *)
Lemma t_commit_latest E m0 m rec id :
  kept dir m0 rec rec m ->
  let committed m' := good dir m' (mk_record RECORD_VERSION (Some id) Stopped) /\ same_tree (gdir id) m m' in
  triple E (eq m) (commit_latest dir id) (fun _ => committed) (fun m' => kept dir m0 rec rec m' \/ committed m').
Proof using Type*.
  intros Hg committed. unfold commit_latest. set (rec' := mk_record RECORD_VERSION (Some id) Stopped) in *.
  eapply t_bind; [eapply (t_reads _ _ _ _ (fun _ m' => m = m' /\ complete dir m id));
    [apply reads_complete|intros ? <-; by left|by intros ? g <-]|].
  intros g. apply t_start. intros ? [<- Hc]. assert (Hv := complete_valid _ _ _ Hc).
  eapply t_bind.
  { eapply t_conseq; [exact (t_and E _ _ _ _ _ _ _
      (kept_commit_record dir E m0 rec (Some id) Stopped (valid_new_latest id Stopped Hv I))
      (commit_record_same_tree dir E (Some id) Stopped m id))|..].
    - intros ? <-. split; [|done]. split; [done|]. by intros i [= <-].
    - intros a m' Hm'. exact Hm'.
    - intros m' [[Hk|[Hk _]] Hs]; [by left|by right]. }
  intros []. apply t_start. intros m1 [[Hg1 _] Hs1].
  assert (Hend : forall m', kept dir m1 rec' rec' m' -> committed m').
  { intros m' [Hg' [Hs' _]]. split; [done|]. intros p Hp. rewrite (Hs' id) by done. by apply Hs1. }
  eapply t_bind; [eapply t_conseq; [exact (kept_collect dir E m1 rec' rec')|..];
    [intros ? <-; by apply good_kept|intros a m' Hm'; exact Hm'|intros m' Hm'; right; by apply Hend]|].
  intros c. apply t_ret. exact Hend.
Qed.

(** ** Starting a run *)

(** The generation a run starts from. *)
Definition base_of (rec : record) (from : option generation_id) : option generation_id :=
  match from with Some _ => from | None => r_latest rec end.

(** What [begin_run] promises about the run it returns. *)
Definition began (E : env) (m0 : fsmap) (rec : record) (from : option generation_id) (r : run) (m : fsmap) : Prop :=
  good dir m (mk_record RECORD_VERSION (r_latest rec) (Running (run_name r) current)) /\
  run_path r = rdir (run_name r) /\ g_id <$> run_base r = base_of rec from /\
  match run_base r with
  | None => True
  | Some g =>
      complete_as dir m0 (g_id g) (g_manifest g) /\
      contents_copied E (gdir (g_id g)) (run_path r) (sorted_keys (m_files (g_manifest g))) m0 m
  end.

Lemma t_base E m0 rec from :
  triple E (eq m0)
    (match base_of rec from with Some id => g ← get_generation dir id; mret (Some g) | None => mret None end)
    (fun base m => m0 = m /\ g_id <$> base = base_of rec from /\
       match base with Some g => complete_as dir m0 (g_id g) (g_manifest g) /\ g_dir g = gdir (g_id g) | None => True end)
    (fun _ => True).
Proof.
  destruct (base_of rec from) as [id|]; [|apply t_ret; by intros ? <-].
  eapply t_bind; [eapply (t_reads _ _ _ _ (fun g m => m0 = m /\ complete_as dir m0 id (g_manifest g) /\ g_dir g = gdir id));
    [apply reads_get_generation|done|by intros ? g <-]|].
  intros g. apply t_ret. intros m (<- & Hc & Hd).
  assert (g_id g = id) as Hid by apply Hc. simpl. by rewrite Hid.
Qed.

Lemma t_fill_run E m0 base d :
  well_formed m0 ->
  match base with Some g => ~ below (g_dir g) d /\ ~ below d (g_dir g) | None => True end ->
  triple E (eq m0)
    (match base with
     | Some g =>
         _ ← clone_listed (g_dir g) d (sorted_keys (m_files (g_manifest g)));
         clone_shares (g_dir g) d
     | None => mret tt
     end)
    (fun _ m => match base with
       | Some g => contents_copied E (g_dir g) d (sorted_keys (m_files (g_manifest g))) m0 m
       | None => True
       end) (fun _ => True).
Proof.
  intros Hwf Hapart. destruct base as [g|]; [|by apply t_ret]. destruct Hapart.
  eapply t_conseq; [by apply t_clone_contents|done| |done]. by intros ? m [? _].
Qed.

Lemma t_require_record E m0 rec (X : fsmap -> Prop) :
  good dir m0 rec -> X m0 ->
  triple E (eq m0) (require_record dir) (fun r m => r = rec /\ m0 = m) X.
Proof.
  intros (_ & Hrec & _) HX.
  eapply t_reads; [apply reads_require_record|by intros ? <-|]. intros m r <- [Hr _]. split; [congruence|done].
Qed.

Definition run_filled (E : env) (m0 : fsmap) (base : option generation) (id : run_id) (m : fsmap) : Prop :=
  match base with
  | Some g => contents_copied E (gdir (g_id g)) (rdir id) (sorted_keys (m_files (g_manifest g))) m0 m
  | None => True
  end.

(** Making and filling the directory of run [id]. *)
Lemma t_run_created E m0 rec id :
  good dir m0 rec -> r_phase rec = Stopped ->
  triple E (eq m0) (create_dir_all (rdir id))
    (fun _ m => kept dir m0 rec rec m /\ frame (fun q => below q (rdir id)) m0 m) (fun _ => True).
Proof using Type*.
  intros Hg Hst. apply t_also; [eapply t_conseq; [apply (kept_guards dir E m0 rec rec)|..|done]|].
  - apply (guards_run_dir dir rec id); [done|auto with frames|]. intros F HF. apply modifies_create_dir_all. auto.
  - intros ? <-. by apply good_kept.
  - done.
  - eapply t_conseq; [apply (t_modifies _ (fun q => below q (rdir id))), modifies_create_dir_all|..]; done.
Qed.

Lemma t_run_filled E m0 rec id base :
  r_phase rec = Stopped ->
  match base with Some g => g_dir g = gdir (g_id g) | None => True end ->
  triple E (fun m => kept dir m0 rec rec m /\ frame (fun q => below q (rdir id)) m0 m)
    (match base with
     | Some g =>
         _ ← clone_listed (g_dir g) (rdir id) (sorted_keys (m_files (g_manifest g)));
         clone_shares (g_dir g) (rdir id)
     | None => mret tt
     end)
    (fun _ m => kept dir m0 rec rec m /\ run_filled E m0 base id m) (fun _ => True).
Proof using Type*.
  intros Hst Hbase. apply t_start. intros m1 [Hk Hf]. apply t_also.
  - eapply t_conseq; [apply (kept_guards dir E m0 rec rec), (guards_run_dir dir rec id)|..|done]; [done|..].
    + pose proof keeps_form_clone_listed. pose proof keeps_form_clone_shares. respects_tac.
    + intros F HF. respects_tac; [by apply modifies_clone_listed|by apply modifies_clone_shares].
    + by intros ? <-.
    + done.
  - destruct base as [g|]; [|by apply t_ret]. rewrite Hbase.
    destruct (run_generation_apart id (g_id g)).
    eapply t_conseq; [apply (t_clone_contents E _ _ m1); [apply Hk|done|done]|done| |done].
    intros ? m [Hc _]. eapply contents_copied_before, Hc.
    + intros p Hp. apply Hf. intros Hb. by apply (run_generation_apart id (g_id g)), (below_trans _ p).
    + intros p Hp. apply Hf. intros Hb.
      by eapply not_below_child, below_trans, Hb.
Qed.

Lemma t_begin_run E m0 rec from :
  good dir m0 rec -> r_phase rec = Stopped ->
  triple E (eq m0) (begin_run dir current from) (fun r => began E m0 rec from r) (fun _ => True).
Proof using Type*.
  intros Hg Hst. unfold begin_run.
  eapply t_bind; [by apply t_require_record|]. intros rec'. apply t_start. intros ? [-> <-].
  rewrite bool_decide_eq_true_2 by done.
  eapply t_bind; [apply (t_base E m0 rec from)|]. intros base. apply t_start. intros ? (<- & Hbase & Hcomp).
  eapply t_bind; [eapply t_returns; [|apply returns_new_run_id];
    apply (t_silent _ _ _ (eq m0)); [auto with frames|done|done]|].
  intros id. apply t_start. intros ? [<- Hid]. cbv zeta.
  eapply t_bind; [by apply (t_run_created E m0 rec id)|]. intros [].
  eapply t_bind; [apply (t_run_filled E m0 rec id base); [done|by destruct base; [apply Hcomp|]]|]. intros [].
  eapply t_bind; [eapply t_silent; [auto with frames|intros m Hm; exact Hm|done]|]. intros [].
  eapply t_bind; [eapply t_silent; [auto with frames|intros m Hm; exact Hm|done]|]. intros [].
  apply t_start. intros m [Hk Hfill].
  eapply t_bind.
  { eapply t_conseq; [exact (t_and E _ _ _ _ _ _ _
      (kept_commit_record dir E m0 rec (r_latest rec) (Running id current)
         (valid_new_phase rec (Running id current) (good_record_valid dir _ _ Hg) Hid))
      (commit_record_same_entry dir E (r_latest rec) (Running id current) m RUNS_DIR id ltac:(done) ltac:(done)))|..|done].
    - intros ? <-. split; [by apply kept_same_latest|done].
    - intros a m' Hm'. exact Hm'. }
  intros []. apply t_ret. intros m' [[Hg' _] Hs]. split_and!; [done..|]. simpl.
  destruct base as [g|]; [|done]. split; [apply Hcomp|].
  by eapply contents_copied_same.
Qed.

(** ** Staged copies *)

(** [dst] holds the files [names] of [src], and all of its host-share state
    when that could be looked at. *)
Definition contents_kept (E : env) (src dst : path) (names : list string) (m0 m : fsmap) : Prop :=
  (forall name, name ∈ names -> exists f b,
    m0 !! (src /: name) = Some (NFile f) /\ m !! (dst /: name) = Some (NFile (mk_file (f_data f) b))) /\
  (calm E -> (exists n, stat_in m0 (src /: HOST_SHARE_STATE) = inl n) ->
     HOST_SHARE_STATE ∉ names -> copied (src /: HOST_SHARE_STATE) (dst /: HOST_SHARE_STATE) m0 m).

Lemma t_stage E m0 rec (X : fsmap -> Prop) :
  good dir m0 rec -> (forall m, kept dir m0 rec rec m -> X m) ->
  triple E (eq m0) (stage dir)
    (fun st m => (kept dir m0 rec rec m /\ frame (fun q => below q (s_dir st)) m0 m) /\
       s_dir st = staging_dir dir (s_id st) /\ valid_id (s_id st)) X.
Proof using Type*.
  intros Hg HX. apply t_returns; [|apply returns_stage]. apply t_also.
  - eapply t_conseq; [apply (kept_guards dir E m0 rec rec), guards_stage|..]; [|done|done].
    intros ? <-. by apply good_kept.
  - unfold stage. eapply t_bind; [apply (t_silent _ _ _ (eq m0)); [auto with frames|done|done]|].
    intros id. apply t_bind with (R := fun _ => frame (fun q => below q (staging_dir dir id)) m0).
    + by apply t_frame, modifies_create_dir_all.
    + intros _. by apply t_ret.
Qed.

Lemma published_same m1 st par org m m' :
  published dir m1 st par org m -> same_tree (gdir (s_id st)) m m' -> published dir m1 st par org m'.
Proof.
  intros (mf & Hc & Hp & Ho & Hl & Ht) Hs. exists mf.
  split_and!; [by eapply complete_as_same|done..|].
  intros x s Hx Hx'. rewrite (Hs (_ ++ x :: s)) by apply below_app. by apply Ht.
Qed.

(** Publishing what was staged and making it the latest generation. *)
Lemma t_publish_commit {A : Type} E m0 rec m st par org (a : generation_id -> A) :
  kept dir m0 rec rec m -> s_dir st = staging_dir dir (s_id st) -> valid_id (s_id st) ->
  match par with Some id => valid_id id | None => True end ->
  match origin_run org with Some run => valid_id run | None => True end ->
  let committed m' := good dir m' (mk_record RECORD_VERSION (Some (s_id st)) Stopped) /\ published dir m st par org m' in
  triple E (eq m) (id ← publish dir st par org; _ ← commit_latest dir id; mret (a id))
    (fun r m' => r = a (s_id st) /\ committed m') (fun m' => kept dir m0 rec rec m' \/ committed m').
Proof using Type*.
  intros Hk Hst Hid Hpar Horg committed.
  eapply t_bind.
  { apply t_also; [eapply t_conseq; [apply (kept_guards dir E m0 rec rec), guards_publish, Hst|..]|by apply t_publish].
    - by intros ? <-.
    - intros ? m' Hm'. exact Hm'.
    - by left. }
  intros id. apply t_start. intros m1 [Hk1 [-> Hp]].
  assert (Hend : forall m', good dir m' (mk_record RECORD_VERSION (Some (s_id st)) Stopped) /\ same_tree (gdir (s_id st)) m1 m' -> committed m').
  { intros m' [Hg' Hs]. split; [done|]. by eapply published_same. }
  eapply t_bind; [eapply t_conseq; [by apply (t_commit_latest E m0 m1 rec)|done|intros u m' Hm'; exact Hm'|]|].
  - intros m' [Hm'|Hm']; [by left|right; by apply Hend].
  - intros []. apply t_ret. intros m' Hm'. split; [done|by apply Hend].
Qed.

Lemma contents_published E src names m0 m1 m2 m st par org :
  ~ below src (s_dir st) -> MANIFEST ∉ names -> PIN ∉ names ->
  frame (fun q => below q (s_dir st)) m0 m1 -> absent (s_dir st /: HOST_SHARE_STATE) m0 ->
  contents_copied E src (s_dir st) names m1 m2 -> published dir m2 st par org m ->
  contents_kept E src (gdir (s_id st)) names m0 m.
Proof.
  intros Hsrc Hman Hpin Hf Habs [Hc Hs] (mf & _ & _ & _ & _ & Ht).
  assert (Hbefore : forall p, below src p -> m1 !! p = m0 !! p).
  { intros p Hp. apply Hf. intros Hb. apply Hsrc. by eapply below_trans. }
  split.
  - intros name Hn. destruct (Hc name Hn) as (f & b & Hf1 & Hf2). exists f, b.
    rewrite <- (Hbefore (src /: name)) by apply below_snoc. split; [done|].
    rewrite (Ht name []); [done|by intros ->..].
  - intros Hcalm [n Hn] Hin s.
    assert (Hb : below src ((src /: HOST_SHARE_STATE) ++ s)) by (rewrite <- app_assoc; apply below_app).
    rewrite <- (Hbefore _ Hb), <- (app_assoc (gdir _)). simpl. rewrite (Ht HOST_SHARE_STATE s) by done.
    change (HOST_SHARE_STATE :: s) with ([HOST_SHARE_STATE] ++ s). rewrite (app_assoc (s_dir st)).
    apply Hs; [done| |done|].
    + exists n. eapply stat_in_same, Hn. apply Hbefore, below_snoc.
    + intros t. rewrite Hf; [apply Habs|]. intros Hb'.
      eapply not_below_child, below_trans; [apply below_app|exact Hb'].
Qed.

(** ** Salvage and dropping memory *)

(** [id] is a new latest generation holding the rootfs and the host-share
    state of [src]. *)
Definition rebuilt (E : env) (src : path) (par : option generation_id) (org : origin) (m0 : fsmap)
    (id : generation_id) (m : fsmap) : Prop :=
  good dir m (mk_record RECORD_VERSION (Some id) Stopped) /\
  exists mf, complete_as dir m id mf /\ m_parent mf = par /\ m_origin mf = org /\
    has_memory mf = false /\ contents_kept E src (gdir id) [ROOTFS] m0 m.

Lemma no_staging_absent m id x : well_formed m -> no_staging m -> absent (staging_dir dir id /: x) m.
Proof.
  intros Hwf Hn. apply absent_child, absent_intro; [done| |apply Hn].
  unfold staging_dir, generations_dir. by destruct dir.
Qed.

Lemma t_clone_root E src dst m0 :
  well_formed m0 -> ~ below src dst -> ~ below dst src ->
  triple E (eq m0) (_ ← clone_or_copy_file (src /: ROOTFS) (dst /: ROOTFS); clone_shares src dst)
    (fun _ m => contents_copied E src dst [ROOTFS] m0 m /\ only_contents dst [ROOTFS] m0 m) (fun _ => True).
Proof.
  intros Hwf Hsd Hds w Hw.
  assert (Ht := t_clone_contents E src dst m0 [ROOTFS] Hwf Hsd Hds w Hw).
  unfold clone_listed in Ht. simpl in Ht. unfold mbind, M_bind, mret, M_ret in *.
  by destruct (clone_or_copy_file (src /: ROOTFS) (dst /: ROOTFS) E w).
Qed.

(** Only the rootfs and perhaps a file where the host-share state goes are
    listed, so there is no memory. *)
Lemma rebuilt_no_memory st par org m0 m1 m2 m mf :
  absent (s_dir st) m0 -> frame (fun q => below q (s_dir st)) m0 m1 ->
  only_contents (s_dir st) [ROOTFS] m1 m2 -> listed m2 (s_dir st) (m_files mf) ->
  published dir m2 st par org m -> has_memory mf = false.
Proof.
  intros Habs Hf [_ Ho] Hl _. unfold has_memory. apply andb_false_iff. left.
  apply bool_decide_eq_false_2. intros [size Hs].
  destruct (proj1 (Hl VMSTATE size) Hs) as (_ & _ & f & Hfile & _).
  rewrite (Ho VMSTATE []) in Hfile by (rewrite ?list_elem_of_singleton; done).
  rewrite Hf, Habs in Hfile; [done|]. apply not_below_child.
Qed.

Lemma t_rebuild {A : Type} E m0 rec src par org (a : generation_id -> A) :
  good dir m0 rec -> no_staging m0 ->
  (forall id, ~ below src (staging_dir dir id) /\ ~ below (staging_dir dir id) src) ->
  match par with Some id => valid_id id | None => True end ->
  match origin_run org with Some run => valid_id run | None => True end ->
  triple E (eq m0)
    (st ← stage dir;
     _ ← clone_or_copy_file (src /: ROOTFS) (s_dir st /: ROOTFS);
     _ ← clone_shares src (s_dir st);
     id ← publish dir st par org;
     _ ← commit_latest dir id;
     mret (a id))
    (fun r m => exists id, r = a id /\ rebuilt E src par org m0 id m) (fun _ => True).
Proof using Type*.
  intros Hg Hns Hsrc Hpar Horg. eapply t_bind; [by apply t_stage|].
  intros st. apply t_start. intros m1 [[Hk Hf] [Hst Hid]].
  assert (Hapart := Hsrc (s_id st)). rewrite <- Hst in Hapart. destruct Hapart as [Hsd Hds].
  apply t_bind_assoc. eapply t_bind.
  { apply t_also; [|apply (t_clone_root E src (s_dir st) m1); [apply Hk|done|done]].
    eapply t_conseq; [apply (kept_guards dir E m0 rec rec)|..|done].
    - rewrite Hst. respects_step; [apply guards_clone_file|apply guards_clone_shares].
    - by intros ? <-.
    - intros ? m Hm. exact Hm. }
  intros []. apply t_start. intros m2 [Hk2 [Hc Ho]].
  eapply t_conseq; [by apply (t_publish_commit E m0 rec m2 st par org a)|done| |done].
  intros r m (-> & Hg' & Hp). exists (s_id st). split; [done|]. split; [done|].
  assert (Habs : absent (s_dir st) m0).
  { rewrite Hst. apply absent_intro; [apply Hg| |apply Hns]. unfold staging_dir, generations_dir. by destruct dir. }
  assert (Hp' := Hp). destruct Hp' as (mf & Hcomp & Hpa & Horg' & Hl & _).
  exists mf. split_and!; [done|done|done|by eapply rebuilt_no_memory|].
  eapply contents_published; [done|..|exact Hf|by apply absent_child|exact Hc|exact Hp];
    by rewrite list_elem_of_singleton.
Qed.

Lemma t_salvage E m0 rec run owner :
  good dir m0 rec -> no_staging m0 -> r_phase rec = Dirty run owner ->
  triple E (eq m0) (salvage dir)
    (fun id => rebuilt E (rdir run) (r_latest rec) (Salvage run) m0 id) (fun _ => True).
Proof using Type*.
  intros Hg Hns Hph. destruct (good_record_valid _ _ _ Hg) as [Hl Hr].
  unfold valid_phase in Hr. rewrite Hph in Hr. unfold salvage.
  eapply t_bind; [by apply t_require_record|]. intros rec'. apply t_start. intros ? [-> <-]. rewrite Hph.
  eapply t_conseq; [apply (t_rebuild E m0 rec (rdir run) (r_latest rec) (Salvage run) id); try done|done| |done].
  - intros id. apply run_staging_apart.
  - by intros r m (id & -> & Hm).
Qed.

Lemma t_drop_memory E m0 rec latest mf :
  good dir m0 rec -> no_staging m0 -> r_phase rec = Stopped -> r_latest rec = Some latest ->
  complete_as dir m0 latest mf -> has_memory mf = true ->
  triple E (eq m0) (drop_memory dir)
    (fun r m => exists id, r = Some id /\ rebuilt E (gdir latest) (Some latest) DropMemory m0 id m) (fun _ => True).
Proof using Type*.
  intros Hg Hns Hph Hlat Hcomp Hmem. unfold drop_memory.
  eapply t_bind; [by apply t_require_record|]. intros rec'. apply t_start. intros ? [-> <-].
  rewrite bool_decide_eq_true_2 by done. unfold latest_of. rewrite Hlat.
  assert (Hv : valid_id latest) by (apply (complete_valid dir m0); by exists mf).
  eapply t_bind.
  { eapply t_bind; [eapply (t_reads _ _ _ _ (fun g m => m0 = m /\ g_manifest g = mf /\ g_dir g = gdir latest));
      [apply reads_get_generation|done|]|].
    - intros ? g <- [Hc Hd]. split_and!; [done| |done].
      destruct Hcomp as [Hm1 _], Hc as [Hm2 _]. congruence.
    - intros g. apply (t_ret _ _ _ (fun o m => m0 = m /\ exists g, o = Some g /\ g_manifest g = mf /\ g_dir g = gdir latest)).
      intros m (<- & ? & ?). eauto. }
  intros base. apply t_start. intros ? (<- & g & -> & Hgm & Hgd).
  unfold g_rootfs, g_id. rewrite Hgm, Hgd, Hmem. assert (m_id mf = latest) as -> by apply Hcomp.
  apply (t_rebuild E m0 rec (gdir latest) (Some latest) DropMemory Some); try done.
  intros id. by apply generation_staging_apart.
Qed.

(** ** Creating a store *)

(** Committing the first record of a store. *)
Lemma t_commit_first E m1 id ph :
  well_formed m1 -> complete dir m1 id -> m1 !! state_path dir = None -> valid_phase ph ->
  let rec := mk_record RECORD_VERSION (Some id) ph in
  triple E (eq m1) (commit_record dir (Some id) ph)
    (fun _ m => good dir m rec /\ same_tree (gdir id) m1 m)
    (fun m => m !! state_path dir = None \/ good dir m rec).
Proof using Type*.
  intros Hwf Hc Hnone Hph rec w ->. assert (Hv := complete_valid _ _ _ Hc).
  assert (Ht := t_commit_file E (state_path dir) (to_vec_pretty rec ++ [newline]) _ w eq_refl).
  assert (Hwf' := keeps_form_commit_json (state_path dir) rec E w Hwf).
  unfold commit_record, commit_json in *. fold rec. set (c := commit_file _ _) in *.
  assert (Htree : forall m', frame (commit_footprint (state_path dir)) (w_fs w) m' -> same_tree (gdir id) (w_fs w) m').
  { intros m' Hf p Hp. apply Hf. by eapply state_footprint_apart, Hp. }
  assert (Hnew : forall m', well_formed m' -> frame (commit_footprint (state_path dir)) (w_fs w) m' ->
    holds (to_vec_pretty rec ++ [newline]) (m' !! state_path dir) -> good dir m' rec).
  { intros m' Hwm Hf [b Hb]. split_and!; [done| |done|].
    - unfold record_at, json_at, contents_at. rewrite Hb. simpl. by apply json_roundtrip.
    - intros i [= <-]. eapply same_tree_complete; [by apply Htree|done]. }
  destruct (c E w) as [[] w'|e w'|w']; simpl in *; unfold old_or_new in Ht; rewrite Hnone in Ht.
  - destruct Ht as [[Hf _] Hh]. auto.
  - destruct Ht as [Hf [?|?]]; auto.
  - destruct Ht as [Hf [?|?]]; auto.
Qed.

Lemma t_publish_first E m1 st par org :
  well_formed m1 -> m1 !! state_path dir = None ->
  s_dir st = staging_dir dir (s_id st) -> valid_id (s_id st) ->
  match par with Some id => valid_id id | None => True end ->
  match origin_run org with Some run => valid_id run | None => True end ->
  triple E (eq m1) (publish dir st par org)
    (fun id m => (well_formed m /\ m !! state_path dir = None) /\ id = s_id st /\ published dir m1 st par org m)
    (fun m => m !! state_path dir = None).
Proof using Type*.
  intros Hwf Hnone Hst Hid Hpar Horg. apply t_also; [|by apply t_publish].
  intros w ->. destruct (guards_publish dir (fun _ => False) (fun _ => False) st par org Hst E w Hwf) as (Hwf' & Hs & _);
    [done|]. rewrite Hnone in Hs. by destruct (publish dir st par org E w).
Qed.

Lemma t_initialize E m1 st :
  well_formed m1 -> m1 !! state_path dir = None ->
  s_dir st = staging_dir dir (s_id st) -> valid_id (s_id st) ->
  triple E (eq m1) (initialize dir st)
    (fun id m => id = s_id st /\ good dir m (mk_record RECORD_VERSION (Some id) Stopped) /\
       published dir m1 st None Image m)
    (fun m => m !! state_path dir = None \/ good dir m (mk_record RECORD_VERSION (Some (s_id st)) Stopped)).
Proof using Type*.
  intros Hwf Hnone Hst Hid. unfold initialize, store_exists.
  eapply t_bind; [apply (t_silent _ _ _ (eq m1)); [auto with frames|done|by intros ? <-; left]|].
  intros [|]; [apply t_fail; intros ? <-; by left|].
  eapply t_bind; [eapply t_conseq; [by apply (t_publish_first E m1 st None Image)|done| |by left]|].
  { intros id m Hm. exact Hm. }
  intros id. apply t_start. intros m [[Hwf' Hn'] [-> Hp]].
  assert (Hc : complete dir m (s_id st)) by (destruct Hp as (mf & Hc & _); by exists mf).
  eapply t_bind; [by apply (t_commit_first E m (s_id st) Stopped)|]. intros [].
  apply t_ret. intros m' [Hg Hs]. split_and!; [done|done|]. by eapply published_same.
Qed.

End operations.

(** ** Exporting to another store *)

Section export.
Context `{Json record, Json manifest, Json checkpoint_ref}.
Context `{!JsonLaws record valid_record, !JsonLaws manifest valid_manifest}.
Context (dir dest : path).

(** [dest] is a store whose latest generation is [g], as [dir] has it. *)
Definition exported (E : env) (g : generation) (m0 m : fsmap) : Prop :=
  good dest m (mk_record RECORD_VERSION (Some (g_id g)) Stopped) /\
  complete_as dest m (g_id g) (g_manifest g) /\
  contents_copied E (generation_dir dir (g_id g)) (generation_dir dest (g_id g))
    (sorted_keys (m_files (g_manifest g)) ++ [MANIFEST; PIN]) m0 m.

Lemma state_not_above id : ~ below (state_path dest) (generation_dir dest id).
Proof.
  intros [s Hs]%below_spec. unfold generation_dir, generations_dir, state_path in Hs.
  rewrite <- !app_assoc in Hs. apply app_inv_head in Hs. by simplify_eq/=.
Qed.

Lemma state_not_in id : ~ below (generation_dir dest id) (state_path dest).
Proof. intros [s Hs]%below2. apply app_inv_head in Hs. by simplify_eq/=. Qed.

Lemma copied_complete E g m0 m :
  complete_as dir m0 (g_id g) (g_manifest g) ->
  contents_copied E (generation_dir dir (g_id g)) (generation_dir dest (g_id g))
    (sorted_keys (m_files (g_manifest g)) ++ [MANIFEST; PIN]) m0 m ->
  complete_as dest m (g_id g) (g_manifest g).
Proof.
  intros (Hmf & Hid & Hroot & Hf) [Hc _]. split_and!; [|done|done|].
  - destruct (Hc MANIFEST) as (f & b & Hs & Hd); [set_solver|].
    unfold manifest_at, json_at, contents_at in *. rewrite Hs in Hmf. by rewrite Hd.
  - intros name size Hn. destruct (Hf name size Hn) as (f & Hs & Hlen).
    destruct (Hc name) as (f' & b & Hs' & Hd).
    + apply elem_of_app. left. apply elem_of_sorted_keys. by eexists.
    + eexists. split; [exact Hd|]. rewrite Hs in Hs'. by simplify_eq.
Qed.

Lemma t_export E m0 g :
  well_formed m0 -> m0 !! state_path dest = None -> valid_id (g_id g) ->
  g_dir g = generation_dir dir (g_id g) -> complete_as dir m0 (g_id g) (g_manifest g) ->
  ~ below (generation_dir dir (g_id g)) (generation_dir dest (g_id g)) ->
  ~ below (generation_dir dest (g_id g)) (generation_dir dir (g_id g)) ->
  triple E (eq m0) (export g dest) (fun _ => exported E g m0) (fun _ => True).
Proof using Type*.
  intros Hwf Hnone Hv Hgd Hcomp Hsd Hds. unfold export. rewrite Hgd. cbv zeta.
  set (src := generation_dir dir (g_id g)) in *. set (dst := generation_dir dest (g_id g)) in *.
  set (names := _ ++ [MANIFEST; PIN]).
  eapply t_bind; [apply t_keep_form; [|auto with frames|apply (t_frame E (fun q => below q dst) m0), modifies_create_dir_all];
    [by intros ? <-|done]|].
  intros []. apply t_start. intros m1 [Hf1 Hwf1].
  apply t_bind_assoc. eapply t_bind.
  { apply t_keep_form; [|respects_tac; [apply keeps_form_clone_listed|apply keeps_form_clone_shares]|by apply (t_clone_contents E src dst m1 names)].
    by intros ? <-. }
  intros []. eapply t_bind; [eapply t_silent; [auto with frames|intros m Hm; exact Hm|done]|].
  intros []. eapply t_bind; [eapply t_silent; [auto with frames|intros m Hm; exact Hm|done]|].
  intros []. apply t_start. intros m2 [[Hc [Ho _]] Hwf2].
  assert (Hsame : forall p, ~ around dst p -> m2 !! p = m0 !! p).
  { intros p Hp. rewrite Ho, Hf1; [done|intros Hb; apply Hp; by left|done]. }
  assert (Hc0 : contents_copied E src dst names m0 m2).
  { eapply contents_copied_before, Hc.
    - intros p Hp. apply Hf1. intros Hb. apply Hsd. by eapply below_trans.
    - intros p Hp. apply Hf1. intros Hb. by eapply not_below_child, below_trans, Hb. }
  assert (Hc2 := copied_complete E g m0 m2 Hcomp Hc0).
  eapply t_conseq; [apply (t_commit_first dest E m2 (g_id g) Stopped)|done| |done].
  - done.
  - by exists (g_manifest g).
  - rewrite Hsame; [done|]. intros [Hb|Hb].
    + by apply state_not_above in Hb.
    + by apply state_not_in in Hb.
  - done.
  - intros ? m [Hg Hs]. split_and!; [done| |by eapply contents_copied_same].
    eapply complete_as_same; [exact Hs|done].
Qed.

End export.
