(* ===== verification/StoreImport.v ===== *)
(** * Importing a directory

    What [import_dir] of [src/src/store.rs] may touch, and that the files of
    the generation it publishes are those of the directory. *)

From S2P Require Import Prelude FileSystem FsLogic FsUtil FsCopy Store StoreLogic StoreSafety StorePublish StoreCopy.

Section footprints.
Context `{Json record, Json manifest, Json checkpoint_ref}.
Context (dir : path) (F : path -> Prop).
Context (HG : forall q, around (generations_dir dir) q -> F q).

Lemma around_staging id q : around (staging_dir dir id) q -> F q.
Proof using HG. intros Hq. by eapply HG, around_child. Qed.

Lemma modifies_stage : modifies F (stage dir).
Proof using HG.
  unfold stage. respects_tac. apply modifies_create_dir_all. intros q Hq. eapply around_staging. by left.
Qed.

Lemma modifies_publish st par org : s_dir st = staging_dir dir (s_id st) -> modifies F (publish dir st par org).
Proof using HG.
  intros Hd. unfold publish. rewrite Hd. respects_tac.
  - apply modifies_fs_write. eapply around_staging. right. apply below_snoc.
  - apply modifies_create_file. eapply around_staging. right. apply below_snoc.
  - apply modifies_rename; intros q Hq; apply HG; right; by eapply below_child.
Qed.

Lemma modifies_staged {A : Type} (k : staging -> M A) :
  (forall st, s_dir st = staging_dir dir (s_id st) -> valid_id (s_id st) -> modifies F (k st)) ->
  modifies F (st ← stage dir; k st).
Proof using HG.
  intros Hk. eapply respects_bind_returns; [apply _ | apply modifies_stage | apply returns_stage |].
  intros st [Hd Hv]. by apply Hk.
Qed.

Lemma modifies_import_dir source par org : modifies F (import_dir dir source par org).
Proof using HG.
  unfold import_dir. apply modifies_staged. intros st Hd _. respects_tac.
  - apply modifies_clone_or_copy_file. intros q Hq. apply (around_staging (s_id st)). rewrite <- Hd.
    eapply around_child. by left.
  - apply modifies_clone_or_copy_tree; intros q Hq; apply (around_staging (s_id st)); rewrite <- Hd; eapply around_child; [by left | by right].
  - by apply modifies_publish.
Qed.
End footprints.

Section import.
Context `{Json record, Json manifest, Json checkpoint_ref}.
Context `{!JsonLaws record valid_record, !JsonLaws manifest valid_manifest}.
Context (dir : path).
Abbreviation gdir := (generation_dir dir).

(** Every regular file of [src] named [name] is in [dst] with its contents. *)
Definition file_in (src dst : path) (m0 m : fsmap) (name : string) : Prop :=
  forall f, m0 !! (src /: name) = Some (NFile f) ->
    exists b, m !! (dst /: name) = Some (NFile (mk_file (f_data f) b)).

Definition import_entry (src dst : path) (name : string) : M unit :=
  n ← symlink_metadata (src /: name);
  match n with
  | NFile _ =>
      if bool_decide (name <> MANIFEST /\ name <> PIN)
      then clone_or_copy_file (src /: name) (dst /: name) else mret tt
  | NDir =>
      if bool_decide (name = HOST_SHARE_STATE)
      then clone_or_copy_tree (src /: name) (dst /: name) else mret tt
  | NLink _ => mret tt
  end.

Lemma modifies_import_entry src dst name : modifies (around (dst /: name)) (import_entry src dst name).
Proof.
  unfold import_entry. respects_tac.
  - apply modifies_clone_or_copy_file. by left.
  - apply modifies_clone_or_copy_tree; [by left | by right].
Qed.

Lemma t_import_entry E m src dst name :
  ~ below src dst -> ~ below dst src ->
  triple E (eq m) (import_entry src dst name)
    (fun _ m' => frame (around (dst /: name)) m m' /\
       (name <> MANIFEST /\ name <> PIN -> file_in src dst m m' name)) (fun _ => True).
Proof.
  intros Hsd Hds. apply t_also; [apply t_frame, modifies_import_entry |].
  unfold import_entry. eapply t_bind; [eapply (t_reads _ _ _ _ (fun n m' => m = m' /\ m !! (src /: name) = Some n));
    [apply reads_symlink_metadata | done | by intros ? n <-] |].
  intros n. apply t_start. intros ? [<- Hn].
  destruct n as [f | | t].
  - case_bool_decide as Hb; [| by apply t_ret; intros ? <- Hb'].
    eapply t_conseq; [apply t_clone_or_copy_file | done | | done].
    + intros Hb'. apply Hsd. by eapply sub_below.
    + intros u m' [_ (f' & b & Hf & Hd)] _ f'' Hf''. simplify_eq. by exists b.
  - eapply t_conseq; [apply t_any | done | | done]. intros u m' _ _ f Hf. congruence.
  - apply t_ret. intros ? <- _ f Hf. congruence.
Qed.

(** Entry by entry, when each step copies one entry and touches no other. *)
Lemma t_copy_entries E (f : string -> M unit) (P : string -> Prop) m0 src dst names :
  ~ below src dst -> ~ below dst src -> NoDup names ->
  (forall m name, triple E (eq m) (f name)
     (fun _ m' => frame (around (dst /: name)) m m' /\ (P name -> file_in src dst m m' name)) (fun _ => True)) ->
  triple E (eq m0) (for_each f names)
    (fun _ m => frame (fun q => exists name, name ∈ names /\ around (dst /: name) q) m0 m /\
      forall name, name ∈ names -> P name -> file_in src dst m0 m name) (fun _ => True).
Proof.
  intros Hsd Hds Hnd Hstep. revert m0 Hnd. induction names as [| x names IH]; intros m0 Hnd; simpl.
  { apply t_ret. intros ? <-. split; [done |]. by intros ? ?%elem_of_nil. }
  apply NoDup_cons in Hnd as [Hx Hnd].
  eapply t_bind; [by apply Hstep |]. intros u. apply t_start. intros m [Hf Hc].
  eapply t_conseq; [by apply IH | done | | done]. intros u' m' [Hf' Hc']. split.
  { etrans; [eapply frame_mono, Hf; intros q Hq; exists x; split; [left | done] |].
    eapply frame_mono, Hf'. intros q (y & Hy & Hq). exists y. split; [by right | done]. }
  intros name Hin%elem_of_cons HP fl Hsrc. destruct Hin as [Hname | Hin]; [subst x |].
  - destruct (Hc HP fl Hsrc) as [b Hb]. exists b. rewrite Hf'; [done |]. intros (y & Hy & Hq).
    apply (around_sibling dst y name []); [by intros -> | by rewrite app_nil_r].
  - apply (Hc' name Hin HP fl). rewrite Hf; [done |]. intros Hq%around_child.
    by apply (around_apart src dst [name]).
Qed.

(** The files of [src] are the files of the generation [id]. *)
Definition imported (src : path) (m0 : fsmap) (id : generation_id) (m : fsmap) : Prop :=
  complete dir m id /\
  forall name, name <> MANIFEST -> name <> PIN -> file_in src (gdir id) m0 m name.

Lemma t_import_dir E m0 src par org :
  ~ below src (generations_dir dir) -> ~ below (generations_dir dir) src ->
  match par with Some id => valid_id id | None => True end ->
  match origin_run org with Some run => valid_id run | None => True end ->
  triple E (eq m0) (import_dir dir src par org) (imported src m0) (fun _ => True).
Proof.
  intros Hsd Hds Hpar Horg. unfold import_dir.
  eapply t_bind; [eapply t_returns; [apply (t_frame E _ _ _ (modifies_stage dir _ (fun q Hq => Hq))) | apply returns_stage] |].
  intros st. apply t_start. intros m1 (Hf & Hd & Hv).
  assert (Hapart : ~ below src (s_dir st) /\ ~ below (s_dir st) src).
  { rewrite Hd. split; [intros [Hb | Hb]%below_snoc_inv | intros Hb; apply Hds; by eapply below_child].
    - apply Hds. rewrite Hb. apply below_snoc.
    - done. }
  eapply t_bind; [eapply (t_reads _ _ _ _ (fun l m => m1 = m /\ l ≡ₚ entries m1 src));
    [apply reads_read_dir | done | by intros ? l <- [_ Hl]] |].
  intros names. apply t_start. intros ? [<- Hnames].
  assert (Hnd : NoDup names) by (rewrite Hnames; apply NoDup_entries).
  eapply t_bind; [apply (t_copy_entries E (import_entry src (s_dir st)) (fun x => x <> MANIFEST /\ x <> PIN)
    m1 src (s_dir st) names); [tauto | tauto | done |]; intros; apply t_import_entry; tauto |].
  intros u. apply t_start. intros m2 [_ Hc].
  eapply t_conseq; [by apply t_publish | done | | done].
  intros id m [-> (mf & Hcomp & _ & _ & _ & Ht)]. split; [by exists mf |].
  intros name Hm Hp f Hsrc. rewrite <- (Hf (src /: name)) in Hsrc.
  2: { by apply (around_apart src _ [name]). }
  destruct (Hc name) with (f := f) as [b Hb]; [| done | done |].
  { rewrite Hnames, elem_of_entries. by eexists. }
  exists b. by rewrite (Ht name []) by done.
Qed.

End import.
