(* ===== verification/StoreGc.v ===== *)
(** * Garbage collection

    [collect_garbage] of [src/src/store.rs]: what it never removes (the latest
    generation and the live run are in [StoreSafety]; here the generations
    named by checkpoints and the pinned ones), and that, when nothing goes
    wrong, it succeeds and removes everything else. *)

From S2P Require Import Prelude FileSystem FsLogic FsUtil FsCopy FsTotal.
From S2P Require Import Store StoreLogic StoreSafety StorePublish StoreCopy.

(** A fold over a list, one triple per element. *)
Lemma t_fold_m {A B : Type} E (P : fsmap -> Prop) (Inv : B -> list A -> Prop) (f : B -> A -> M B) b l X :
  (forall seen b a, Inv b seen ->
     triple E P (f b a) (fun b' m => P m /\ Inv b' (seen ++ [a])) X) ->
  Inv b [] -> triple E P (fold_m f b l) (fun b' m => P m /\ Inv b' l) X.
Proof.
  intros Hf Hb.
  enough (forall seen b, Inv b seen -> triple E P (fold_m f b l) (fun b' m => P m /\ Inv b' (seen ++ l)) X)
    as Hgen by (by apply (Hgen [])).
  clear Hb b. induction l as [|a l IH]; intros seen b Hb; simpl.
  - apply t_ret. by rewrite app_nil_r.
  - eapply t_bind; [by apply Hf|]. intros b'. apply t_start. intros m [Hm Hb'].
    change (a :: l) with ([a] ++ l). rewrite app_assoc. eapply t_pre; [by apply IH|]. by intros ? <-.
Qed.

(** What a program keeps away from stays as it was. *)
Lemma t_outside {A : Type} E (c : M A) d m m1 (Hm1 : same_tree d m m1) F :
  modifies F c -> (forall p, below d p -> ~ F p) ->
  triple E (eq m1) c (fun _ => same_tree d m) (same_tree d m).
Proof.
  intros Hc HF.
  assert (Hgo : forall m', frame F m1 m' -> same_tree d m m').
  { intros m' Hf p Hp. rewrite Hf by by apply HF. by apply Hm1. }
  eapply t_conseq; [apply t_modifies, Hc|done|intros ? m'; apply Hgo|exact Hgo].
Qed.

Lemma store_path_not_root (d : path) a b : d /: a /: b <> [].
Proof. by destruct d. Qed.

Section calm.
Context (E : env) (HE : calm E).

(** Without injected errors a readable file is read. *)
Lemma t_read_json_calm {A : Type} `{Json A} m p :
  triple E (eq m) (read_json (A := A) p)
    (fun r m' => m = m' /\ forall a, json_at m p = Some a -> r = Some a) (eq m).
Proof using HE.
  intros w ->. unfold read_json, attempt, fs_read, look, mbind, M_bind.
  destruct (e_fault E (w_tick w)) as [[]|] eqn:Ef; simpl; [|done|].
  { by destruct (HE (w_tick w)). }
  unfold json_at, contents_at, read_in, stat_in.
  destruct (w_fs w !! p) as [[f| |t]|]; simpl; [|done..|by destruct (missing_kind _ _)].
  by destruct (from_slice (f_data f)).
Qed.

Lemma t_path_is_dir_calm m p :
  triple E (eq m) (path_is_dir p) (fun b m' => m = m' /\ (m !! p = Some NDir -> b = true)) (eq m).
Proof using HE.
  intros w ->. unfold path_is_dir, attempt, metadata, look, mbind, M_bind.
  destruct (e_fault E (w_tick w)) as [[]|] eqn:Ef; simpl; [|done|].
  { by destruct (HE (w_tick w)). }
  unfold stat_in. by destruct (w_fs w !! p) as [[]|].
Qed.

Lemma t_read_dir_calm m d :
  triple E (eq m) (attempt (read_dir d))
    (fun r m' => m = m' /\ (m !! d = Some NDir -> exists names, r = inl names /\ names ≡ₚ entries m d)) (eq m).
Proof using HE.
  intros w ->. unfold attempt, read_dir, look.
  destruct (e_fault E (w_tick w)) as [[]|] eqn:Ef; simpl; [|done|].
  { by destruct (HE (w_tick w)). }
  unfold stat_in. destruct (w_fs w !! d) as [[]|]; simpl; try done.
  split; [done|]. intros _. eexists. split; [done|]. apply e_order_perm.
Qed.

End calm.

Section gc.
Context `{Json record, Json manifest, Json checkpoint_ref}.
Context `{!JsonLaws record valid_record, !JsonLaws manifest valid_manifest}.
Context `{!JsonLaws checkpoint_ref valid_checkpoint}.
Context (dir : path).

Abbreviation gdir := (generation_dir dir).
Abbreviation rdir := (run_dir dir).

(** [c] is a stored checkpoint: a [.ref] file holds it. *)
Definition checkpoint_at (m : fsmap) (name : string) (c : checkpoint_ref) : Prop :=
  has_ref_extension name = true /\ json_at m (checkpoints_dir dir /: name) = Some c.

(** ** What a checkpoint names is kept *)

Lemma checkpoint_in_dir m name c :
  well_formed m -> checkpoint_at m name c -> m !! checkpoints_dir dir = Some NDir /\ name ∈ entries m (checkpoints_dir dir).
Proof.
  intros Hwf [_ Hc].
  assert (Hsome : is_Some (m !! (checkpoints_dir dir /: name))).
  { unfold json_at, contents_at in Hc. destruct (m !! (checkpoints_dir dir /: name)); [by eexists|done]. }
  split; [|by apply elem_of_entries]. destruct (Hwf _ _ Hsome) as [Hnil|?]; [|done].
  unfold checkpoints_dir in Hnil. by destruct dir.
Qed.

Lemma t_checkpoints_calm E m name c :
  calm E -> well_formed m -> checkpoint_at m name c -> m !! gdir (c_generation c) = Some NDir ->
  triple E (eq m) (checkpoints dir) (fun cps m' => m = m' /\ c ∈ cps) (eq m).
Proof.
  intros HE Hwf Hc Hd. destruct (checkpoint_in_dir m name c Hwf Hc) as [Hcd Hname]. destruct Hc as [Hext Hj].
  unfold checkpoints. eapply t_bind; [by apply t_read_dir_calm|].
  intros r. apply t_start. intros ? [<- Hr]. destruct (Hr Hcd) as (names & -> & Hn).
  eapply t_bind.
  { apply (t_fold_m E (eq m) (fun acc seen => name ∈ seen -> c ∈ acc)); [|by intros ?%elem_of_nil].
    intros seen acc x Hacc. destruct (has_ref_extension x) eqn:Ex.
    - eapply t_bind; [by apply t_read_json_calm|]. intros rj. apply t_start. intros ? [<- Hrj].
      destruct rj as [cx|].
      + eapply t_bind; [by apply t_path_is_dir_calm|]. intros b. apply t_start. intros ? [<- Hb].
        apply t_ret. intros ? <-. split; [done|]. rewrite elem_of_app, list_elem_of_singleton.
        intros [Hs| ->].
        * destruct b; [apply elem_of_app; left|]; by apply Hacc.
        * specialize (Hrj c Hj). simplify_eq. rewrite Hb by done. apply elem_of_app. right. by left.
      + apply t_ret. intros ? <-. split; [done|]. rewrite elem_of_app, list_elem_of_singleton.
        intros [Hs| ->]; [by apply Hacc|]. by specialize (Hrj c Hj).
    - apply t_ret. intros ? <-. split; [done|]. rewrite elem_of_app, list_elem_of_singleton.
      intros [Hs| ->]; [by apply Hacc|congruence]. }
  intros acc. apply t_ret. intros ? [<- Hacc]. split; [done|].
  rewrite merge_sort_Permutation. apply Hacc. by rewrite Hn.
Qed.

(** ** Storing a checkpoint *)

Lemma ref_extension id : valid_id id -> has_ref_extension (id +:+ ".ref") = true.
Proof.
  intros Hv. unfold has_ref_extension. rewrite string_app_length. simpl (String.length ".ref").
  replace (String.length id + 4 - 4)%nat with (String.length id) by lia. rewrite substring_app. simpl.
  destruct id; [done |]. by rewrite andb_true_r; apply Nat.ltb_lt; simpl; lia.
Qed.

Lemma t_add_checkpoint E P c :
  valid_checkpoint c ->
  triple E P (add_checkpoint dir c)
    (fun _ m => valid_id (c_id c) /\ checkpoint_at m (c_id c +:+ ".ref") c) (fun _ => True).
Proof.
  intros Hv. unfold add_checkpoint. eapply t_bind; [apply t_any |]. intros g.
  eapply t_bind; [apply t_any |]. intros u.
  eapply t_bind; [eapply t_returns; [apply (t_any E (fun _ => True)) | apply returns_checkpoint_ref_path] |].
  intros p. apply t_start. intros m (_ & Hid & ->).
  eapply t_conseq; [apply t_commit_file | done | | done].
  intros u' m' [_ [b Hb]]. split; [done |]. split; [by apply ref_extension |].
  unfold json_at, contents_at. rewrite Hb. by apply json_roundtrip.
Qed.

(** The generations a collection may not touch, for the part of it after the
    references are known. *)
Definition sweep (rec : record) (referenced : gset generation_id) : M collected :=
  run_entries ← attempt (read_dir (runs_dir dir));
  runs ← match run_entries with
         | inl names => fold_m (collect_run dir (phase_run (r_phase rec))) [] names
         | inr _ => mret []
         end;
  gen_entries ← attempt (read_dir (generations_dir dir));
  acc ← match gen_entries with
        | inl names => fold_m (collect_entry dir referenced) ([], []) names
        | inr _ => mret ([], [])
        end;
  mret (mk_collected acc.1 runs acc.2).

Lemma guards_sweep (K R : string -> Prop) rec (referenced : gset generation_id) :
  (forall id, K id -> id ∈ referenced) -> (forall r, R r -> phase_run (r_phase rec) = Some r) ->
  respects (guards dir K R) (sweep rec referenced).
Proof.
  intros HK HR. unfold sweep. respects_tac; [by apply guards_collect_run|by apply guards_collect_entry].
Qed.

Lemma t_guarded {A : Type} E m (K : string -> Prop) (c : M A) id :
  well_formed m -> (forall i, K i -> valid_id i /\ complete dir m i) -> K id ->
  respects (guards dir K (fun _ => False)) c ->
  triple E (eq m) c (fun _ => same_tree (gdir id) m) (same_tree (gdir id) m).
Proof.
  intros Hwf HK Hid Hc w ->. destruct (Hc E w Hwf) as (_ & _ & Hs & _).
  { intros i Hi. destruct (HK i Hi). split; [done|]. by apply good_complete_occupied. }
  specialize (Hs id Hid). by destruct (c E w).
Qed.

Lemma t_collect_checkpoint E m rec name c :
  calm E -> good dir m rec -> checkpoint_at m name c -> complete dir m (c_generation c) ->
  triple E (eq m) (collect_garbage dir)
    (fun _ => same_tree (gdir (c_generation c)) m) (same_tree (gdir (c_generation c)) m).
Proof using Type*.
  intros HE Hg Hc Hcomp. assert (Hwf : well_formed m) by apply Hg.
  assert (Hd : m !! gdir (c_generation c) = Some NDir).
  { destruct (good_complete_occupied dir m _ Hcomp) as [x Hx].
    destruct (Hwf _ _ Hx) as [Hnil|?]; [|done]. unfold generation_dir, generations_dir in Hnil. by destruct dir. }
  eapply t_bind; [eapply (t_reads _ _ _ _ (fun r m' => m = m' /\ r = rec));
    [apply reads_require_record|by intros ? <-|]|].
  { intros ? r <- [Hr _]. split; [done|]. destruct Hg as (_ & Hrec & _). congruence. }
  intros r. apply t_start. intros ? [<- ->].
  eapply t_bind; [eapply t_conseq; [by apply (t_checkpoints_calm E m name c)|done|intros ? ? Hx; exact Hx|by intros ? <-]|].
  intros cps. apply t_start. intros ? [<- Hin].
  apply (t_guarded E m (eq (c_generation c))); [done| |done|].
  - intros i <-. split; [by eapply complete_valid|done].
  - apply guards_sweep; [|done]. intros i <-. apply elem_of_union_r, elem_of_list_to_set, list_elem_of_fmap. eauto.
Qed.

(** ** What is pinned is kept *)

(** Another process holds the pin of [id] throughout. *)
Definition held (E : env) (id : generation_id) : Prop :=
  forall t, e_pinned E t (gdir id /: PIN) = true.

Definition has_pin (m : fsmap) (id : generation_id) : Prop :=
  exists f, m !! (gdir id /: PIN) = Some (NFile f).

Lemma modifies_collect_entry referenced acc name :
  modifies (fun q => below (generations_dir dir /: name) q \/ below (trash_dir dir name) q)
    (collect_entry dir referenced acc name).
Proof.
  unfold collect_entry. destruct acc as [gens stgs]. destruct (_ || _).
  - respects_tac.
  - unfold try_from. destruct (validate_component name); respects_tac.
Qed.

Lemma run_generation_disjoint r id q : below (rdir r) q -> below (gdir id) q -> False.
Proof.
  intros [s ->]%below2 [s' Heq]%below2. apply app_inv_head in Heq. by simplify_eq.
Qed.

Lemma t_collect_pinned_entry E m referenced acc name id :
  held E id -> valid_id id -> has_pin m id ->
  triple E (same_tree (gdir id) m) (collect_entry dir referenced acc name)
    (fun _ => same_tree (gdir id) m) (same_tree (gdir id) m).
Proof.
  intros Hheld Hv [f Hpin]. apply t_start. intros m1 Hm1.
  destruct (decide (name = id)) as [->|Hne].
  - unfold collect_entry. destruct acc as [gens stgs].
    unfold STAGING_PREFIX, TRASH_PREFIX. rewrite !valid_id_not_hidden by done. simpl.
    unfold try_from. rewrite Hv. case_bool_decide; [by apply t_ret; intros ? <-|].
    apply t_bind with (R := fun r m' => m1 = m' /\ r <> inr (Io NotFound)).
    { intros w ->. unfold attempt, metadata, look, stat_in.
      rewrite (Hm1 _ (below_snoc _ _)), Hpin.
      by destruct (e_fault E (w_tick w)) as [[]|]. }
    intros r. apply t_start. intros ? [<- Hr].
    apply t_bind with (R := fun b m' => m1 = m' /\ b = false).
    + destruct r as [n|[[]| |]]; try (apply t_fail; by intros ? <-); [|done].
      intros w ->. simpl. by rewrite Hheld.
    + intros b. apply t_start. intros ? [<- ->]. apply t_ret. by intros ? <-.
  - apply (t_outside E _ (gdir id) m m1 Hm1 _ (modifies_collect_entry referenced acc name)).
    intros p Hp [Hb|Hb]; [by apply Hne, (below_sibling (generations_dir dir) _ _ p)|].
    apply (trash_name_invalid name). by rewrite <- (below_sibling _ _ _ _ Hp Hb).
Qed.

Lemma t_collect_pinned E m rec id :
  held E id -> good dir m rec -> valid_id id -> has_pin m id ->
  triple E (eq m) (collect_garbage dir) (fun _ => same_tree (gdir id) m) (same_tree (gdir id) m).
Proof.
  intros Hheld Hg Hv Hpin. unfold collect_garbage.
  assert (Hsame : forall {A} (c : M A), modifies (fun q => ~ below (gdir id) q) c ->
    triple E (same_tree (gdir id) m) c (fun _ => same_tree (gdir id) m) (same_tree (gdir id) m)).
  { intros A c Hc. apply t_start. intros m1 Hm1. apply (t_outside E _ (gdir id) m m1 Hm1 _ Hc). tauto. }
  eapply t_bind; [eapply t_pre; [apply Hsame; auto with frames|by intros ? <-]|]. intros r.
  eapply t_bind; [apply Hsame; auto with frames|]. intros cps. cbv zeta.
  eapply t_bind; [apply Hsame; respects_tac|]. intros re.
  eapply t_bind; [apply Hsame; respects_tac; unfold collect_run; respects_tac|].
  { apply modifies_remove_path_if_exists. intros q Hq Hb. by eapply run_generation_disjoint. }
  intros runs. eapply t_bind; [apply Hsame; respects_tac|]. intros ge.
  apply t_bind with (R := fun _ => same_tree (gdir id) m); [|intros acc; by apply t_ret].
  destruct ge as [names|e]; [|by apply t_ret].
  eapply t_conseq; [apply (t_fold_m E (same_tree (gdir id) m) (fun _ _ => True))|done|intros ? ? [Hx _]; exact Hx|done]; [|done].
  intros seen acc x _. eapply t_conseq; [by apply t_collect_pinned_entry|done|by auto|done].
Qed.

(** ** Everything else goes *)

Section complete.
Context (E : env) (HE : faultless E).
(** Which pins other processes hold, for as long as the collection runs. *)
Context (pinned : path -> bool) (Hpins : forall t p, e_pinned E t p = pinned p).

(** What a collection that starts from [m] should remove from the
    generations directory. *)
Definition garbage (m : fsmap) (referenced : gset generation_id) (name : string) : Prop :=
  (starts_with STAGING_PREFIX name || starts_with TRASH_PREFIX name) = true \/
  (valid_id name /\ (name ∉ referenced) /\
   (m !! (gdir name /: PIN) = None \/ pinned (gdir name /: PIN) = false)).

(** Generations are directories, their pins are files, and none has been moved
    aside under the same id. *)
Definition tidy (m : fsmap) : Prop :=
  m !! generations_dir dir = Some NDir /\
  forall id, valid_id id -> is_Some (m !! gdir id) ->
    m !! gdir id = Some NDir /\ m !! trash_dir dir id = None /\
    (m !! (gdir id /: PIN) = None \/ has_pin m id).

(** Half way: [seen] are the entries dealt with. *)
Definition swept (m0 : fsmap) (referenced : gset generation_id) (seen : list string) (m : fsmap) : Prop :=
  well_formed m /\ (forall q, m !! q = None \/ m !! q = m0 !! q) /\
  m !! generations_dir dir = Some NDir /\
  (forall id, id ∉ seen -> valid_id id -> same_tree (gdir id) m0 m) /\
  (forall name, name ∈ seen -> garbage m0 referenced name -> m !! (generations_dir dir /: name) = None).

Lemma swept_skip m0 referenced seen m name :
  swept m0 referenced seen m -> ~ garbage m0 referenced name -> swept m0 referenced (seen ++ [name]) m.
Proof.
  intros (Hwf & Hsub & Hd & Hsame & Hgone) Hn. split_and!; [done..| |].
  - intros id Hid. apply Hsame. intros Hx. apply Hid, elem_of_app. by left.
  - intros x [Hx| ->%list_elem_of_singleton]%elem_of_app Hg; [by apply Hgone|done].
Qed.

Lemma swept_remove m0 referenced seen m m' name :
  swept m0 referenced seen m -> without (generations_dir dir /: name) m m' ->
  swept m0 referenced (seen ++ [name]) m'.
Proof.
  intros (Hwf & Hsub & Hd & Hsame & Hgone) Hw. split_and!.
  - by eapply well_formed_without.
  - intros q. rewrite Hw. case_decide; [by left|apply Hsub].
  - rewrite Hw, decide_False; [done|]. apply not_below_child.
  - intros id Hid Hv p Hp. rewrite Hw, decide_False.
    + apply (Hsame id); [|done|done]. intros Hx. apply Hid, elem_of_app. by left.
    + intros Hb. apply Hid. rewrite (below_sibling (generations_dir dir) id name p) by done.
      apply elem_of_app. right. by left.
  - intros x Hx Hg. rewrite Hw. case_decide as Hb; [done|].
    apply elem_of_app in Hx as [Hx|Hx%list_elem_of_singleton]; [by apply Hgone|].
    subst x. destruct Hb. apply below_refl.
Qed.

Lemma parent_of_entry m x : m !! generations_dir dir = Some NDir -> parent_is_dir m (generations_dir dir /: x) = true.
Proof.
  intros Hd. unfold parent_is_dir. rewrite below_removelast_snoc.
  destruct (generations_dir dir) eqn:Eg; [done|]. unfold stat_in. by rewrite Hd.
Qed.

(** Whether the pin lets the generation go. *)
Lemma total_pin_free m0 referenced m name :
  well_formed m -> m !! gdir name = Some NDir -> valid_id name ->
  m !! (gdir name /: PIN) = m0 !! (gdir name /: PIN) ->
  (m0 !! (gdir name /: PIN) = None \/ has_pin m0 name) ->
  total E (eq m)
    (p ← attempt (metadata (gdir name /: PIN));
     match p with
     | inl _ => try_lock_pin (gdir name /: PIN)
     | inr (Io NotFound) => mret true
     | inr e => fail e
     end)
    (fun free m' => m = m' /\ (free = false -> ~ garbage m0 referenced name)).
Proof using HE Hpins.
  intros Hwf Hgd Hv Hsame Hpin.
  eapply total_bind; [apply (total_attempt_look E HE _ _ (fun r m' => m = m' /\
     match m0 !! (gdir name /: PIN) with None => r = inr (Io NotFound) | Some n => r = inl n end))|].
  { intros m' <-. split; [done|]. unfold stat_in. destruct Hpin as [Hn|[f Hf]].
    - rewrite Hn. rewrite Hn in Hsame. rewrite Hsame. by rewrite missing_in_dir.
    - rewrite Hf. rewrite Hf in Hsame. by rewrite Hsame. }
  intros r. apply total_start. intros ? [<- Hr]. destruct Hpin as [Hn|[f Hf]].
  - rewrite Hn in Hr. subst r. apply total_ret. by intros ? <-.
  - rewrite Hf in Hr. subst r. intros w ->. exists (negb (pinned (gdir name /: PIN))), (ticked w).
    unfold try_lock_pin. rewrite Hpins. split; [done|]. split; [done|].
    intros Hp. apply negb_false_iff in Hp. intros [Hh|(_ & _ & Hg)].
    + unfold STAGING_PREFIX, TRASH_PREFIX in Hh. by rewrite !valid_id_not_hidden in Hh.
    + destruct Hg; congruence.
Qed.

Lemma total_collect_entry m0 referenced acc seen name :
  tidy m0 -> is_Some (m0 !! (generations_dir dir /: name)) -> name ∉ seen ->
  total E (swept m0 referenced seen) (collect_entry dir referenced acc name)
    (fun _ => swept m0 referenced (seen ++ [name])).
Proof using HE Hpins.
  intros [_ Htidy] Hsome Hns. apply total_start. intros m Hm.
  assert (Hm' := Hm). destruct Hm' as (Hwf & Hsub & Hd & Hsame & _).
  unfold collect_entry. destruct acc as [gens stgs]. destruct (_ || _) eqn:Hhid.
  { eapply total_bind; [apply total_remove_path_if_exists; [done|done|apply store_path_not_root|]|].
    - intros Hnone. by apply missing_in_dir.
    - intros []. apply total_ret. intros m' Hw. by eapply swept_remove. }
  unfold try_from. destruct (validate_component name) eqn:Hv.
  2: { apply total_ret. intros ? <-. apply swept_skip; [done|]. intros [Hh|[Hv' _]]; [|unfold valid_id in Hv']; congruence. }
  case_bool_decide as Href.
  { apply total_ret. intros ? <-. apply swept_skip; [done|]. intros [Hh|(_ & ? & _)]; [congruence|done]. }
  destruct (Htidy name Hv Hsome) as (Hgd & Htrash & Hpin).
  assert (Hgd' : m !! gdir name = Some NDir) by (by rewrite (Hsame name Hns Hv _ (below_refl _))).
  assert (Htrash' : m !! trash_dir dir name = None) by (destruct (Hsub (trash_dir dir name)); congruence).
  assert (Hpin' := Hsame name Hns Hv _ (below_snoc _ PIN)).
  apply total_bind_assoc. eapply total_bind; [by apply (total_pin_free m0 referenced m)|].
  intros free. apply total_start. intros ? [<- Hfree]. destruct free.
  - apply total_bind_assoc. eapply total_bind; [apply (total_move_and_remove E HE m (gdir name) (trash_dir dir name))|].
    + done.
    + apply store_path_not_root.
    + done.
    + intros Hb. apply (trash_name_invalid name).
      rewrite <- (below_sibling (generations_dir dir) _ _ _ Hb (below_refl _)). exact Hv.
    + by apply parent_of_entry.
    + done.
    + intros []. apply total_ret. intros m' Hw. by eapply swept_remove.
  - apply total_ret. intros ? <-. apply swept_skip; [done|]. by apply Hfree.
Qed.

(** *** Run directories *)

Definition runs_swept (m0 : fsmap) (live : option run_id) (seen : list string) (m : fsmap) : Prop :=
  well_formed m /\ m !! runs_dir dir = Some NDir /\
  forall q, m !! q = if decide (Exists (fun x => live <> Some x /\ below (rdir x) q) seen) then None else m0 !! q.

Lemma total_collect_run m0 live runs seen name :
  total E (runs_swept m0 live seen) (collect_run dir live runs name)
    (fun _ => runs_swept m0 live (seen ++ [name])).
Proof using HE.
  apply total_start. intros m (Hwf & Hd & Hq). unfold collect_run.
  assert (Hex : forall q, Exists (fun x => live <> Some x /\ below (rdir x) q) (seen ++ [name]) <->
     Exists (fun x => live <> Some x /\ below (rdir x) q) seen \/ (live <> Some name /\ below (rdir name) q)).
  { intros q. rewrite Exists_app, Exists_cons, Exists_nil. tauto. }
  case_bool_decide as Hl.
  - apply total_ret. intros ? <-. split_and!; [done|done|]. intros q. rewrite Hq.
    specialize (Hex q). repeat case_decide; tauto.
  - eapply total_bind; [apply (total_remove_path_if_exists E HE m (rdir name)); [done|apply store_path_not_root|]|].
    + intros Hnone. by apply missing_in_dir.
    + intros []. apply total_ret. intros m' Hw. split_and!.
      * by eapply well_formed_without.
      * rewrite Hw, decide_False; [done|]. apply not_below_child.
      * intros q. rewrite Hw, Hq. specialize (Hex q). repeat case_decide; tauto.
Qed.

(** *** The whole collection *)

Lemma total_read_json {A : Type} `{Json A} m p (a : A) :
  json_at m p = Some a -> total E (eq m) (read_json (A := A) p) (fun r m' => m = m' /\ r = Some a).
Proof using HE.
  intros Ha. unfold json_at, contents_at in Ha.
  destruct (m !! p) as [[f| |]|] eqn:Ep; try done. simpl in Ha.
  unfold read_json. eapply total_bind; [apply (total_attempt_look E HE _ _ (fun r m' => m = m' /\ r = inl (f_data f)))|].
  - intros m' <-. unfold read_in, stat_in. by rewrite Ep.
  - intros r. apply total_start. intros ? [<- ->]. rewrite Ha. apply total_ret. by intros ? <-.
Qed.

Lemma total_require_record m rec :
  good dir m rec -> total E (eq m) (require_record dir) (fun r m' => m = m' /\ r = rec).
Proof using HE.
  intros (_ & Hrec & Hv & _). unfold require_record, get_record.
  eapply total_bind; [eapply total_bind; [by apply total_read_json|]|].
  - intros r. apply total_start. intros ? [<- ->]. rewrite bool_decide_eq_true_2 by done.
    apply (total_ret _ _ _ (fun r m' => m = m' /\ r = Some rec)). by intros ? <-.
  - intros r. apply total_start. intros ? [<- ->]. apply total_ret. by intros ? <-.
Qed.

(** Every checkpoint reference can be read. *)
Definition refs_readable (m : fsmap) : Prop :=
  (m !! checkpoints_dir dir = None \/ m !! checkpoints_dir dir = Some NDir) /\
  forall name, has_ref_extension name = true -> is_Some (m !! (checkpoints_dir dir /: name)) ->
    exists c, checkpoint_at m name c.

Lemma total_path_is_dir m p : total E (eq m) (path_is_dir p) (fun _ m' => m = m').
Proof using HE.
  unfold path_is_dir. eapply total_bind; [apply (total_attempt_look E HE _ _ (fun _ m' => m = m')); by intros ? <-|].
  intros r. by apply total_ret.
Qed.

Lemma total_checkpoints m :
  well_formed m -> m !! dir = Some NDir -> refs_readable m ->
  total E (eq m) (checkpoints dir) (fun cps m' => m = m' /\ forall c, c ∈ cps -> exists name, checkpoint_at m name c).
Proof using HE.
  intros Hwf Hdir [Hcd Hrefs]. unfold checkpoints.
  destruct Hcd as [Hnone|Hcd].
  { apply total_bind with (R := fun r m' => m = m' /\ r = inr (Io NotFound)).
    - intros w ->. unfold attempt, read_dir, look, stat_in. rewrite HE, Hnone.
      unfold checkpoints_dir in *. rewrite missing_in_dir by done. eexists _, _. split; [done|]. done.
    - intros r. apply total_start. intros ? [<- ->]. apply total_ret. intros ? <-. split; [done|].
      by intros c ?%elem_of_nil. }
  eapply total_bind; [apply total_attempt, (total_read_dir E HE _ _ (fun l m' => m = m' /\ l ≡ₚ entries m (checkpoints_dir dir)))|].
  { intros ? <-. auto. }
  intros r. apply total_start. intros ? (names & -> & <- & Hn).
  set (Inv := fun (acc : list checkpoint_ref) (_ : list string) m' =>
     m = m' /\ forall c, c ∈ acc -> exists name, checkpoint_at m name c).
  apply total_bind with (R := fun acc => Inv acc names).
  2: { intros acc. apply total_ret. intros ? [<- Hacc]. split; [done|].
       intros c. rewrite merge_sort_Permutation. apply Hacc. }
  eapply total_pre; [apply (total_fold_m E Inv)|intros ? <-; split; [done|by intros c ?%elem_of_nil]].
  { rewrite Hn. apply NoDup_entries. }
  intros seen acc x Hx _. destruct (has_ref_extension x) eqn:Ex; [|by apply total_ret].
  apply total_start. intros ? [<- Hacc]. rewrite Hn, elem_of_entries in Hx.
  destruct (Hrefs x Ex Hx) as [c Hc].
  eapply total_bind; [apply total_read_json, Hc|]. intros r. apply total_start. intros ? [<- ->].
  eapply total_bind; [apply total_path_is_dir|]. intros here. apply total_ret. intros ? <-. split; [done|].
  intros c'. destruct here; [|apply Hacc]. rewrite elem_of_app, list_elem_of_singleton.
  intros [?| ->]; [by apply Hacc|]. by exists x.
Qed.

(** What a collection leaves: nothing new, no run but the live one, and only
    generations that something refers to or somebody has pinned. *)
Definition collected_all (m0 : fsmap) (rec : record) (m : fsmap) : Prop :=
  (forall q, m !! q = None \/ m !! q = m0 !! q) /\
  (forall name, is_Some (m !! (runs_dir dir /: name)) -> phase_run (r_phase rec) = Some name) /\
  (forall name, is_Some (m !! (generations_dir dir /: name)) ->
     (starts_with STAGING_PREFIX name || starts_with TRASH_PREFIX name) = false /\
     (valid_id name ->
        r_latest rec = Some name \/
        (exists file c, checkpoint_at m0 file c /\ c_generation c = name) \/
        (has_pin m0 name /\ pinned (gdir name /: PIN) = true))).

Lemma total_sweep_runs m0 rec :
  well_formed m0 ->
  total E (eq m0)
    (run_entries ← attempt (read_dir (runs_dir dir));
     match run_entries with
     | inl names => fold_m (collect_run dir (phase_run (r_phase rec))) [] names
     | inr _ => mret []
     end)
    (fun _ m => well_formed m /\ (forall q, m !! q = None \/ m !! q = m0 !! q) /\
       (forall q, ~ below (runs_dir dir) q -> m !! q = m0 !! q) /\
       forall name, is_Some (m !! (runs_dir dir /: name)) -> phase_run (r_phase rec) = Some name).
Proof using HE.
  intros Hwf. set (live := phase_run (r_phase rec)).
  destruct (decide (m0 !! runs_dir dir = Some NDir)) as [Hd|Hd].
  - eapply total_bind; [apply total_attempt, (total_read_dir E HE _ _ (fun l m' => m0 = m' /\ l ≡ₚ entries m0 (runs_dir dir)))|].
    { intros ? <-. auto. }
    intros r. apply total_start. intros ? (names & -> & <- & Hn).
    eapply total_post; [eapply total_pre; [apply (total_fold_m E (fun _ => runs_swept m0 live))|]|].
    + rewrite Hn. apply NoDup_entries.
    + intros seen b a _ _. apply total_collect_run.
    + intros ? <-. split_and!; [done|done|]. intros q. rewrite decide_False; [done|]. by intros ?%Exists_nil.
    + intros _ m (Hwf' & Hd' & Hq). split_and!; [done|..].
      * intros q. rewrite Hq. case_decide; auto.
      * intros q Hb. rewrite Hq, decide_False; [done|]. rewrite Exists_exists.
        intros (x & _ & _ & Hx). by apply Hb, (below_child _ x).
      * intros name. rewrite Hq. case_decide as Hex; [by intros []|]. intros Hsome.
        destruct (decide (live = Some name)) as [|Hl]; [done|]. destruct Hex. apply Exists_exists.
        exists name. rewrite Hn, elem_of_entries. split_and!; [done|done|apply below_refl].
  - apply total_bind with (R := fun r m' => m0 = m' /\ exists e, r = inr e).
    + intros w ->. unfold attempt, read_dir, look, stat_in. rewrite HE.
      destruct (w_fs w !! runs_dir dir) as [[]|]; try done; eexists _, _; eauto.
    + intros r. apply total_start. intros ? [<- [e ->]]. apply total_ret. intros ? <-.
      split_and!; [done|by right|done|]. intros name Hs. destruct (Hwf _ _ Hs) as [Hnil|?]; [|done].
      by apply app_eq_nil in Hnil as [_ ?].
Qed.

Lemma total_sweep_generations m1 referenced :
  well_formed m1 -> tidy m1 ->
  total E (eq m1)
    (gen_entries ← attempt (read_dir (generations_dir dir));
     match gen_entries with
     | inl names => fold_m (collect_entry dir referenced) ([], []) names
     | inr _ => mret ([], [])
     end)
    (fun _ m => (forall q, m !! q = None \/ m !! q = m1 !! q) /\
       forall name, is_Some (m !! (generations_dir dir /: name)) -> ~ garbage m1 referenced name).
Proof using HE Hpins.
  intros Hwf Htidy.
  eapply total_bind; [apply total_attempt, (total_read_dir E HE _ _ (fun l m' => m1 = m' /\ l ≡ₚ entries m1 (generations_dir dir)))|].
  { intros ? <-. split; [apply Htidy|done]. }
  intros r. apply total_start. intros ? (names & -> & <- & Hn).
  eapply total_post; [eapply total_pre; [apply (total_fold_m E (fun _ => swept m1 referenced))|]|].
  - rewrite Hn. apply NoDup_entries.
  - intros seen acc x Hx Hseen. apply total_collect_entry; [done| |done].
    by rewrite Hn, elem_of_entries in Hx.
  - intros ? <-. split_and!; [done|by right|apply Htidy|done|by intros x ?%elem_of_nil].
  - intros ? m (_ & Hsub & _ & _ & Hgone). split; [done|]. intros name Hs Hg.
    destruct (Hsub (generations_dir dir /: name)) as [Hnone|Heq]; [rewrite Hnone in Hs; by destruct Hs|].
    rewrite (Hgone name) in Hs; [by destruct Hs| |done].
    rewrite Hn, elem_of_entries. by rewrite <- Heq.
Qed.

Lemma tidy_same m0 m1 :
  (forall s, m1 !! (generations_dir dir ++ s) = m0 !! (generations_dir dir ++ s)) -> tidy m0 -> tidy m1.
Proof.
  intros Hs [Hd Ht]. split.
  - specialize (Hs []). rewrite !app_nil_r in Hs. by rewrite Hs.
  - intros id Hv Hsome. unfold has_pin, generation_dir, trash_dir in *.
    assert (Hp : m1 !! (generations_dir dir /: id /: PIN) = m0 !! (generations_dir dir /: id /: PIN))
      by (rewrite <- app_assoc; apply Hs).
    rewrite Hs in Hsome. rewrite !Hs, Hp. by apply Ht.
Qed.

Lemma not_garbage m referenced name :
  ~ garbage m referenced name ->
  (starts_with STAGING_PREFIX name || starts_with TRASH_PREFIX name) = false /\
  (valid_id name -> name ∈ referenced \/
     (m !! (gdir name /: PIN) <> None /\ pinned (gdir name /: PIN) = true)).
Proof.
  unfold garbage. intros Hg. split; [destruct (_ || _); tauto|]. intros Hv.
  destruct (decide (name ∈ referenced)); [by left|right].
  destruct (decide (m !! (gdir name /: PIN) = None)), (pinned (gdir name /: PIN)); tauto.
Qed.

Lemma total_collect_garbage m rec :
  good dir m rec -> m !! dir = Some NDir -> refs_readable m -> tidy m ->
  total E (eq m) (collect_garbage dir) (fun _ m' => collected_all m rec m').
Proof using HE Hpins.
  intros Hg Hdir Hrefs Htidy. assert (Hwf : well_formed m) by apply Hg. unfold collect_garbage.
  eapply total_bind; [by apply total_require_record|]. intros r. apply total_start. intros ? [<- ->].
  eapply total_bind; [by apply total_checkpoints|]. intros cps. apply total_start. intros ? [<- Hcps].
  cbv zeta. set (referenced := _ ∪ _).
  apply total_bind_assoc. eapply total_bind; [by apply total_sweep_runs|].
  intros runs. apply total_start. intros m1 (Hwf1 & Hsub1 & Hout1 & Hruns).
  assert (Hgen : forall s, m1 !! (generations_dir dir ++ s) = m !! (generations_dir dir ++ s)).
  { intros s. apply Hout1. intros [s' Heq]%below_spec. unfold generations_dir, runs_dir in Heq.
    rewrite <- !app_assoc in Heq. apply app_inv_head in Heq. by simplify_eq/=. }
  apply total_bind_assoc. eapply total_bind; [apply (total_sweep_generations m1 referenced); [done|by eapply tidy_same]|].
  intros acc. apply total_ret. intros m' [Hsub Hleft]. split_and!.
  - intros q. destruct (Hsub q) as [?| ->]; [by left|]. apply Hsub1.
  - intros name Hs. apply Hruns. by destruct (Hsub (runs_dir dir /: name)) as [Hn|<-]; [rewrite Hn in Hs; destruct Hs|].
  - intros name Hs. destruct (not_garbage _ _ _ (Hleft name Hs)) as [Hh Hv]. split; [done|].
    intros Hvalid. destruct (Hv Hvalid) as [Hin|[Hpin Hp]].
    + apply elem_of_union in Hin as [Hin|Hin]; apply elem_of_list_to_set in Hin.
      * left. by destruct (r_latest rec); [apply list_elem_of_singleton in Hin as ->|apply elem_of_nil in Hin].
      * apply list_elem_of_fmap in Hin as (c & -> & Hc). right; left.
        destruct (Hcps c Hc) as [file Hf]. eauto.
    + right; right. split; [|done].
      assert (Hsome : is_Some (m !! gdir name)).
      { destruct (Hsub (gdir name)) as [Hn|Heq]; [unfold generation_dir in Hn; rewrite Hn in Hs; by destruct Hs|].
        unfold generation_dir in Heq. rewrite Heq, Hgen in Hs. done. }
      destruct (proj2 Htidy name Hvalid Hsome) as (_ & _ & [Hnone|?]); [|done].
      destruct Hpin. unfold generation_dir in *. rewrite <- app_assoc in *. by rewrite Hgen.
Qed.

End complete.

End gc.

(** ** What collection does not know *)

Section leftovers.
Context `{Json record, Json manifest, Json checkpoint_ref}.
Context (dir : path) (rest : string).

(** A name of [generations] that is neither an id nor hidden by one of the two
    prefixes. *)
Abbreviation leftover := (String "." (String "." rest)).

Definition beside (q : path) : Prop := ~ below (generations_dir dir /: leftover) q.

Lemma beside_entry name q : name <> leftover -> below (generations_dir dir /: name) q -> beside q.
Proof. intros Hn Hq Hl. apply Hn. by eapply below_sibling. Qed.

Lemma leftover_collect_run live runs name : modifies beside (collect_run dir live runs name).
Proof.
  unfold collect_run. case_bool_decide; respects_tac. apply modifies_remove_path_if_exists.
  intros q Hq Hl. apply below_child in Hq, Hl. unfold runs_dir, generations_dir in *.
  by pose proof (below_sibling _ _ _ _ Hq Hl).
Qed.

Lemma leftover_collect_entry referenced acc name : modifies beside (collect_entry dir referenced acc name).
Proof.
  unfold collect_entry. destruct acc as [gens stgs]. destruct (_ || _) eqn:Hn; [respects_tac|].
  { apply modifies_remove_path_if_exists. intros q. apply beside_entry. intros ->. done. }
  unfold try_from. destruct (validate_component name) eqn:Hv; [|respects_tac].
  assert (name <> leftover) as Hne by (intros ->; by apply (valid_not_dot (String "." rest))).
  respects_tac; [apply modifies_rename|apply modifies_remove_path_if_exists]; intros q.
  - by apply beside_entry.
  - by apply beside_entry.
  - by apply beside_entry.
Qed.

Lemma leftover_collect_garbage : modifies beside (collect_garbage dir).
Proof.
  unfold collect_garbage. respects_tac; [apply leftover_collect_run|apply leftover_collect_entry].
Qed.

End leftovers.
