(* ===== verification/StoreExample.v ===== *)
(** * A concrete store

    JSON codecs for the store's types that satisfy [JsonLaws], executable
    forms of the store's invariants, an environment in which nothing goes
    wrong, and a small instance made by running the store's own operations.
    The theorems about the store are applied to it. *)

From S2P Require Import Prelude Codec FileSystem FsLogic FsUtil FsCopy FsTotal.
From S2P Require Import Store StoreLogic StoreSafety StorePublish StoreCopy StoreGc.

(** ** Codecs *)

#[export] Instance process_codec : Codec process_identity :=
  codec_of (fun p => (pid p, started p)) (fun '(a, b) => Some (mk_process a b)) ltac:(by intros []).

#[export] Instance phase_codec : Codec phase :=
  codec_of (fun p => match p with
              | Stopped => inl tt
              | Running r o => inr (false, (r, o))
              | Dirty r o => inr (true, (r, o))
              end)
           (fun s : unit + bool * (string * process_identity) => Some (match s with
              | inl tt => Stopped
              | inr (false, (r, o)) => Running r o
              | inr (true, (r, o)) => Dirty r o
              end)) ltac:(by intros []).

#[export] Instance record_codec : Codec record :=
  codec_of (fun r => (r_version r, (r_latest r, r_phase r)))
           (fun '(v, (l, p)) => Some (mk_record v l p)) ltac:(by intros []).

Definition origin_tag (o : origin) : N * string :=
  match o with
  | Image => (0%N, "")
  | Snapshot r => (1%N, r)
  | SnapshotExit r => (2%N, r)
  | FromCheckpoint r => (3%N, r)
  | Salvage r => (4%N, r)
  | DropMemory => (5%N, "")
  | Edited => (6%N, "")
  | Migrated => (7%N, "")
  | Import => (8%N, "")
  end%string.

Definition tag_origin (t : N * string) : option origin :=
  match t with
  | (0%N, _) => Some Image
  | (1%N, r) => Some (Snapshot r)
  | (2%N, r) => Some (SnapshotExit r)
  | (3%N, r) => Some (FromCheckpoint r)
  | (4%N, r) => Some (Salvage r)
  | (5%N, _) => Some DropMemory
  | (6%N, _) => Some Edited
  | (7%N, _) => Some Migrated
  | (8%N, _) => Some Import
  | _ => None
  end.

#[export] Instance origin_codec : Codec origin :=
  codec_of origin_tag tag_origin ltac:(by intros []).

#[export] Instance manifest_codec : Codec manifest :=
  codec_of (fun m => (m_version m, (m_id m, (m_parent m, (m_origin m, (m_created_unix_nanos m, m_files m))))))
           (fun '(v, (i, (p, (o, (c, f))))) => Some (mk_manifest v i p o c f)) ltac:(by intros []).

#[export] Instance checkpoint_codec : Codec checkpoint_ref :=
  codec_of (fun c => (c_id c, (c_name c, (c_generation c, c_created_unix c))))
           (fun '(i, (n, (g, t))) => Some (mk_checkpoint i n g t)) ltac:(by intros []).

(** A JSON codec that checks [valid], as deserializing an id does. *)
Definition codec_json {A : Type} `{Codec A} (valid : A -> Prop) `{forall a, Decision (valid a)} : Json A := {|
  to_vec_pretty := enc;
  from_slice b := '(a, _) ← dec b; if decide (valid a) then Some a else None;
|}.

Lemma codec_json_laws {A : Type} `{Codec A} (valid : A -> Prop) `{forall a, Decision (valid a)} :
  @JsonLaws A (codec_json valid) valid.
Proof.
  split; simpl.
  - intros a Ha. rewrite dec_enc. simpl. by rewrite decide_True.
  - intros b a. destruct (dec b) as [[a' r]|]; simpl; [|done]. case_decide; [|done]. by intros [= <-].
Qed.

#[export] Instance valid_id_dec id : Decision (valid_id id).
Proof. unfold valid_id. apply _. Defined.

#[export] Instance valid_record_dec r : Decision (valid_record r).
Proof. unfold valid_record, valid_phase. destruct (r_latest r), (phase_run (r_phase r)); apply _. Defined.

#[export] Instance valid_manifest_dec mf : Decision (valid_manifest mf).
Proof. unfold valid_manifest. destruct (m_parent mf), (origin_run (m_origin mf)); apply _. Defined.

#[export] Instance valid_checkpoint_dec c : Decision (valid_checkpoint c).
Proof. unfold valid_checkpoint. apply _. Defined.

#[export] Instance record_json : Json record := codec_json valid_record.
#[export] Instance manifest_json : Json manifest := codec_json valid_manifest.
#[export] Instance checkpoint_json : Json checkpoint_ref := codec_json valid_checkpoint.

#[export] Instance record_laws : JsonLaws record valid_record := codec_json_laws _.
#[export] Instance manifest_laws : JsonLaws manifest valid_manifest := codec_json_laws _.
#[export] Instance checkpoint_laws : JsonLaws checkpoint_ref valid_checkpoint := codec_json_laws _.

(** ** Executable invariants *)

Definition well_formed_b (m : fsmap) : bool :=
  forallb (fun kv : path * node =>
    match parent kv.1 with
    | None | Some [] => true
    | Some d => bool_decide (m !! d = Some NDir)
    end) (map_to_list m).

Lemma well_formed_b_sound m : well_formed_b m = true -> well_formed m.
Proof.
  unfold well_formed_b. rewrite forallb_forall. intros Hb p x [n Hn].
  specialize (Hb (p /: x, n)). rewrite <- list_elem_of_In, elem_of_map_to_list in Hb.
  specialize (Hb Hn). simpl in Hb. rewrite below_removelast_snoc in Hb.
  destruct p; [by left|right]. by apply bool_decide_eq_true in Hb.
Qed.

Definition complete_b (dir : path) (m : fsmap) (id : generation_id) : bool :=
  match manifest_at dir m id with
  | Some mf =>
      bool_decide (m_id mf = id) && bool_decide (is_Some (m_files mf !! ROOTFS)) &&
      forallb (fun kv : string * N =>
        match m !! (generation_dir dir id /: kv.1) with
        | Some (NFile f) => bool_decide (file_len f = kv.2)
        | _ => false
        end) (map_to_list (m_files mf))
  | None => false
  end.

(** The manifest of a generation, or an empty one. *)
Definition manifest_of (dir : path) (m : fsmap) (id : generation_id) : manifest :=
  default (mk_manifest 0 "" None Image 0 ∅) (manifest_at dir m id).

Lemma complete_b_sound_as dir m id :
  complete_b dir m id = true -> complete_as dir m id (manifest_of dir m id).
Proof.
  unfold complete_b, manifest_of. destruct (manifest_at dir m id) as [mf|] eqn:Emf; [|done].
  rewrite !andb_true_iff, forallb_forall. intros [[Hid Hroot] Hf]. simpl.
  split_and!; [done|by apply bool_decide_eq_true in Hid|by apply bool_decide_eq_true in Hroot|].
  intros name size Hs. specialize (Hf (name, size)).
  rewrite <- list_elem_of_In, elem_of_map_to_list in Hf. specialize (Hf Hs). simpl in Hf.
  destruct (m !! _) as [[f| |]|]; try done. exists f. by apply bool_decide_eq_true in Hf.
Qed.

Lemma complete_b_sound dir m id : complete_b dir m id = true -> complete dir m id.
Proof. intros Hb. eexists. by apply complete_b_sound_as. Qed.

Definition good_b (dir : path) (m : fsmap) (rec : record) : bool :=
  well_formed_b m && bool_decide (record_at dir m = Some rec) &&
  bool_decide (r_version rec = RECORD_VERSION) &&
  match r_latest rec with Some id => complete_b dir m id | None => true end.

Lemma good_b_sound dir m rec : good_b dir m rec = true -> good dir m rec.
Proof.
  unfold good_b. rewrite !andb_true_iff. intros [[[Hw Hr] Hv] Hl].
  split_and!; [by apply well_formed_b_sound|by apply bool_decide_eq_true in Hr
    |by apply bool_decide_eq_true in Hv|].
  intros id Hid. rewrite Hid in Hl. by apply complete_b_sound.
Qed.

Definition no_staging_b (dir : path) (m : fsmap) : bool :=
  forallb (fun name => negb (starts_with STAGING_PREFIX name)) (entries m (generations_dir dir)).

Lemma no_staging_b_sound dir m : no_staging_b dir m = true -> no_staging dir m.
Proof.
  unfold no_staging_b. rewrite forallb_forall. intros Hb id.
  destruct (m !! staging_dir dir id) eqn:Em; [|done].
  specialize (Hb (STAGING_PREFIX +:+ id)). rewrite <- list_elem_of_In, elem_of_entries in Hb.
  rewrite starts_with_app in Hb. by discriminate Hb; eexists.
Qed.

Definition tidy_b (dir : path) (m : fsmap) : bool :=
  bool_decide (m !! generations_dir dir = Some NDir) &&
  forallb (fun id =>
    bool_decide (m !! generation_dir dir id = Some NDir) &&
    bool_decide (m !! trash_dir dir id = None) &&
    match m !! (generation_dir dir id /: PIN) with None | Some (NFile _) => true | _ => false end)
    (entries m (generations_dir dir)).

Lemma tidy_b_sound dir m : tidy_b dir m = true -> tidy dir m.
Proof.
  unfold tidy_b. rewrite andb_true_iff, forallb_forall. intros [Hd Hb].
  apply bool_decide_eq_true in Hd. split; [done|]. intros id _ Hs.
  specialize (Hb id). rewrite <- list_elem_of_In, elem_of_entries in Hb. specialize (Hb Hs).
  apply andb_true_iff in Hb as [[H1%bool_decide_eq_true H2%bool_decide_eq_true]%andb_true_iff H3].
  split_and!; [done|done|]. unfold has_pin.
  destruct (m !! (generation_dir dir id /: PIN)) as [[f| |]|]; try done; [right; by exists f|by left].
Qed.

Definition refs_readable_b (dir : path) (m : fsmap) : bool :=
  bool_decide (m !! checkpoints_dir dir = None \/ m !! checkpoints_dir dir = Some NDir) &&
  forallb (fun name => negb (has_ref_extension name) ||
    match json_at (A := checkpoint_ref) m (checkpoints_dir dir /: name) with Some _ => true | None => false end)
    (entries m (checkpoints_dir dir)).

Lemma refs_readable_b_sound dir m : refs_readable_b dir m = true -> refs_readable dir m.
Proof.
  unfold refs_readable_b. rewrite andb_true_iff, forallb_forall. intros [Hd Hb].
  apply bool_decide_eq_true in Hd. split; [done|]. intros name Hext Hs.
  specialize (Hb name). rewrite <- list_elem_of_In, elem_of_entries in Hb. specialize (Hb Hs).
  rewrite Hext in Hb. simpl in Hb. unfold checkpoint_at.
  destruct (json_at m (checkpoints_dir dir /: name)) as [c|]; [by exists c|done].
Qed.

(** No generation is a final snapshot of [run]. *)
Definition no_final_b (dir : path) (m : fsmap) (run : run_id) : bool :=
  forallb (fun id => match manifest_at dir m id with
    | Some mf => bool_decide (m_origin mf <> Snapshot run)
    | None => true
    end) (entries m (generations_dir dir)).

Lemma no_final_b_sound dir m run :
  well_formed m -> no_final_b dir m run = true -> forall id, ~ final_of dir m run id.
Proof.
  unfold no_final_b. rewrite forallb_forall. intros Hwf Hb id (mf & Hc & Ho).
  assert (Hs : is_Some (m !! generation_dir dir id)).
  { destruct (good_complete_occupied dir m id) as [x Hx]; [by exists mf|].
    destruct (Hwf _ _ Hx) as [Hnil|Hd]; [by apply app_eq_nil in Hnil as [_ ?]|]. by rewrite Hd. }
  specialize (Hb id). rewrite <- list_elem_of_In, elem_of_entries in Hb. specialize (Hb Hs).
  destruct Hc as [Hmf _]. rewrite Hmf in Hb. by apply bool_decide_eq_true in Hb.
Qed.

(** Whether a program returned. *)
Definition is_ok {A : Type} (o : outcome A) : bool := match o with Ok _ _ => true | _ => false end.

(** ** A small instance *)

Definition quiet : env := {|
  e_fault _ := None; e_partial _ := 0; e_nanos t := N.of_nat t; e_pid := 1%N;
  e_blocks _ := 8%N; e_pinned _ _ := false; e_order _ l := l; e_order_perm _ l := reflexivity l;
|}.

(** The same, but the [n]-th system call goes wrong. *)
Definition quiet_until (n : nat) (f : fault) : env := {|
  e_fault t := if Nat.eqb t n then Some f else None; e_partial _ := 0; e_nanos t := N.of_nat t;
  e_pid := 1%N; e_blocks _ := 8%N; e_pinned _ _ := false; e_order _ l := l;
  e_order_perm _ l := reflexivity l;
|}.

Definition demo_dir : path := ["i"%string].

Definition demo_process : process_identity := mk_process 1 1.

Definition demo_start : world := mk_world {[ demo_dir := NDir ]} 0 0 [].

(** Stages a two-byte rootfs and makes it the first generation. *)
Definition demo_boot : M unit :=
  st ← stage demo_dir;
  _ ← fs_write (s_dir st /: ROOTFS) [x07; x08];
  _ ← initialize demo_dir st;
  mret tt.

Definition demo : world := left_by (demo_boot quiet demo_start).

(** The record a world's store holds, for use in statements. *)
Definition demo_record (w : world) : record :=
  default (mk_record 0 None Stopped) (record_at demo_dir (w_fs w)).

Lemma demo_good : good demo_dir (w_fs demo) (demo_record demo).
Proof. apply good_b_sound. vm_compute. reflexivity. Qed.

(** The same instance, with its first generation named by a checkpoint and an
    edited copy as the latest one. *)
Definition demo_checkpoint : checkpoint_ref :=
  mk_checkpoint "c1" None (default "" (r_latest (demo_record demo))) 0.

Definition demo_grow : M unit :=
  _ ← add_checkpoint demo_dir demo_checkpoint;
  _ ← derive demo_dir (fun d => fs_write (d /: ROOTFS) [x09]);
  mret tt.

Definition demo2 : world := left_by (demo_grow quiet demo).

Lemma demo2_good : good demo_dir (w_fs demo2) (demo_record demo2).
Proof. apply good_b_sound. vm_compute. reflexivity. Qed.

(** The same instance with a memory snapshot in its latest generation. *)
Definition demo_memory : world :=
  left_by (derive demo_dir (fun d => _ ← fs_write (d /: VMSTATE) [x01]; fs_write (d /: PAGES) [x02]) quiet demo).

(** The same instance with a run that has served a command. *)
Definition demo_run_id : run_id :=
  default "" (phase_run (r_phase (demo_record (left_by (begin_run demo_dir demo_process None quiet demo))))).

Definition demo_dirty : world :=
  left_by ((_ ← begin_run demo_dir demo_process None; mark_dirty demo_dir demo_run_id) quiet demo).

(** The generation the first instance has. *)
Definition demo_id : generation_id := default "" (r_latest (demo_record demo)).

Definition demo_generation : generation :=
  mk_generation (generation_dir demo_dir demo_id) (manifest_of demo_dir (w_fs demo) demo_id).
