(* ===== verification/StoreTheorems.v ===== *)
(** * Theorems about the store

    The properties of [src/src/store.rs] and of the file helpers it uses, each
    proved from the component's lemmas and applied to a concrete instance. *)

From S2P Require Import Prelude FileSystem FsLogic FsUtil FsCopy FsTotal.
From S2P Require Import Store StoreLogic StoreSafety StorePublish StoreCopy StoreGc StoreExample.

Section theorems.
Context `{Json record, Json manifest, Json checkpoint_ref}.
Context `{!JsonLaws record valid_record, !JsonLaws manifest valid_manifest}.
Context `{!JsonLaws checkpoint_ref valid_checkpoint}.
Context (dir : path).

Abbreviation gdir := (generation_dir dir).
Abbreviation rdir := (run_dir dir).

(** ** Refinement *)

(** C1: every operation of the store refines its abstract transition, for
    every combination of I/O errors and every crash point. Whatever happens,
    the store stays good, its record is the old one or the one the operation
    is specified to commit, and the latest generation and the live run that
    both records share are untouched; an operation that returns has made its
    transition. *)
Theorem store_operations_refine current o E w rec :
  admissible dir o -> good dir (w_fs w) rec ->
  match perform dir current o E w with
  | Ok _ w' => exists rec', commits current o rec rec' /\ kept dir (w_fs w) rec rec' (w_fs w')
  | Err _ w' | Crash w' =>
      exists rec', (rec' = rec \/ commits current o rec rec') /\ kept dir (w_fs w) rec rec' (w_fs w')
  end.
Proof using JsonLaws0 JsonLaws1.
  intros Ha Hg. exact (perform_sound dir current E o (w_fs w) rec Ha w (good_kept dir _ _ Hg)).
Qed.

(** What the guest and the hypervisor may do between operations: write below
    run directories and staging directories. *)
Definition outside_write (m m' : fsmap) : Prop :=
  well_formed m' /\
  frame (fun q => (exists r, below (rdir r) q) \/ (exists id, below (staging_dir dir id) q)) m m'.

(** One step of a history: an operation by some process, complete or cut short
    anywhere, or an outside write. *)
Inductive evolves : fsmap -> fsmap -> Prop :=
  | by_operation current o E w :
      admissible dir o -> evolves (w_fs w) (w_fs (left_by (perform dir current o E w)))
  | by_outside m m' : outside_write m m' -> evolves m m'.

Lemma outside_write_good m m' rec : good dir m rec -> outside_write m m' -> good dir m' rec.
Proof using JsonLaws0 JsonLaws1.
  intros Hg [Hwf' Hf]. assert (Hg' := Hg). destruct Hg' as (Hwf & Hrec & Hv & Hl).
  assert (Hst : m' !! state_path dir = m !! state_path dir).
  { apply Hf. intros [[r [s Hs]%below2]|[id [s Hs]%below2]]; apply app_inv_head in Hs; by simplify_eq/=. }
  split_and!; [done| |done|].
  - unfold record_at, json_at, contents_at in *. by rewrite Hst.
  - intros id Hid. eapply same_tree_complete; [|by apply Hl]. intros p Hp. apply Hf.
    intros [[r Hb]|[g Hb]]; [by eapply run_generation_disjoint|].
    apply (staging_name_invalid g). rewrite <- (below_sibling (generations_dir dir) id _ p Hp Hb).
    by eapply good_latest_valid.
Qed.

Lemma evolves_good m m' rec :
  good dir m rec -> evolves m m' ->
  exists rec', good dir m' rec' /\ (rec' = rec \/ exists current o, commits current o rec rec').
Proof using JsonLaws0 JsonLaws1.
  intros Hg Hev. destruct Hev as [current o E w Ha|m m' Hout].
  - assert (Hs := perform_sound dir current E o (w_fs w) rec Ha w (good_kept dir _ _ Hg)).
    destruct (perform dir current o E w); destruct Hs as (rec' & Hc & [Hg' _]); exists rec'; (split; [done|]);
      [|destruct Hc as [?|Hc]; [by left|]..]; eauto.
  - exists rec. split; [by eapply outside_write_good|by left].
Qed.

(** C2: along any history of store operations, failures, crashes and guest
    writes, the store stays good, and the sequence of its records is a run of
    the abstract machine. *)
Theorem store_history_refines m m' rec :
  good dir m rec -> rtc evolves m m' ->
  exists rec', good dir m' rec' /\ rtc (fun r r' => exists current o, commits current o r r') rec rec'.
Proof using JsonLaws0 JsonLaws1.
  intros Hg Hev. revert rec Hg. induction Hev as [m|m m1 m' Hstep _ IH]; intros rec Hg; [by exists rec|].
  destruct (evolves_good _ _ _ Hg Hstep) as (rec1 & Hg1 & [->|Hc]); [by apply IH|].
  destruct (IH _ Hg1) as (rec' & Hg' & Hr). exists rec'. split; [done|]. by eapply rtc_l.
Qed.

(** ** Recovery *)

(** When recovery returns, what it reports is what it did. A stopped
    instance is left as it was. A run is rolled forward only to a complete
    generation published as that run's final snapshot, which becomes the latest
    one. A run is discarded only if it never served a command. *)
Theorem recover_reports E w rec :
  good dir (w_fs w) rec ->
  match recover dir E w with
  | Ok rv w' => exists rec', recovered dir rec rv rec' (w_fs w') /\ kept dir (w_fs w) rec rec' (w_fs w')
  | Err _ w' | Crash w' => exists rec', good dir (w_fs w') rec'
  end.
Proof using JsonLaws0 JsonLaws1.
  intros Hg. assert (Ht := t_recover dir (mk_process 0 0) E (w_fs w) rec w (good_kept dir _ _ Hg)).
  destruct (recover dir E w); [done|..]; destruct Ht as (rec' & _ & [Hg' _]); by exists rec'.
Qed.

Lemma survives_get_generation E id : faultless E -> survives E (get_generation dir id).
Proof.
  intros HE. unfold get_generation, read_json, fs_read, check_file, symlink_metadata. survives_tac.
Qed.

Lemma total_final_generation E m run :
  faultless E -> m !! generations_dir dir = Some NDir ->
  total E (eq m) (final_generation_of dir run) (fun _ m' => m = m').
Proof.
  intros HE Hd. unfold final_generation_of, generation_ids.
  eapply total_bind; [eapply total_bind; [apply total_attempt, (total_read_dir E HE _ _ (fun _ m' => m = m'))|]|].
  - intros ? <-. auto.
  - intros r. apply total_start. intros ? (names & -> & <-). by apply (total_ret _ _ _ (fun _ m' => m = m')).
  - intros ids. generalize (@None generation_id). induction ids as [|id ids IH]; intros found; simpl; [by apply total_ret|].
    eapply total_bind; [|exact IH]. eapply total_bind.
    + apply (total_survives E _ _ (fun _ m' => m = m')); [by apply survives_get_generation|].
      intros w ->. destruct (reads_get_generation dir id E w) as [Hfs _].
      by destruct (get_generation dir id E w).
    + intros [g|e]; [destruct (m_origin (g_manifest g))|]; by apply total_ret.
Qed.

(** C29: a run that served commands and left no final snapshot is never thrown
    away by recovery: it fails, or is killed, without changing anything, and
    with nothing going wrong the failure names the instance and the run. *)
Theorem recover_refuses_unsaved E w rec run owner :
  good dir (w_fs w) rec -> r_phase rec = Dirty run owner ->
  (forall id, ~ final_of dir (w_fs w) run id) ->
  match recover dir E w with
  | Ok _ _ => False
  | Err e w' => w_fs w' = w_fs w /\
      (faultless E -> w_fs w !! generations_dir dir = Some NDir ->
       e = CrashedWithUnsavedState (instance_name dir) run)
  | Crash w' => w_fs w' = w_fs w
  end.
Proof using Type.
  intros Hg Hph Hnf. unfold recover. unfold mbind at 1, M_bind at 1.
  destruct (reads_require_record dir E w) as [Hfs1 Hr1].
  assert (Ht1 := fun HE => total_require_record dir E HE (w_fs w) rec Hg w eq_refl).
  destruct (require_record dir E w) as [rec' w1|e w1|w1]; simpl in Hfs1; [|split; [done|]|done].
  2: { intros HE. destruct (Ht1 HE) as (a & w' & [=] & _). }
  destruct (Hr1 _ _ eq_refl) as [Hrec _].
  assert (rec' = rec) as -> by (destruct Hg as (_ & ? & _); congruence). rewrite Hph.
  unfold mbind, M_bind.
  destruct (reads_final_generation_of dir run E w1) as [Hfs2 Hr2].
  assert (Ht2 := fun HE Hd => total_final_generation E (w_fs w1) run HE Hd w1 eq_refl).
  destruct (final_generation_of dir run E w1) as [[id|] w2|e w2|w2]; simpl in *; rewrite Hfs1 in *.
  - by destruct (Hnf id (Hr2 _ _ eq_refl id eq_refl)).
  - split; [congruence|done].
  - split; [congruence|]. intros HE Hd. by destruct (Ht2 HE Hd) as (a & w' & [=] & _).
  - congruence.
Qed.

(** ** Publishing and creating *)

(** A published generation is complete, its manifest lists exactly the
    top-level regular files staged, with their sizes, and its contents are the
    staged ones. *)
Theorem publish_complete E w st par org id w' :
  s_dir st = staging_dir dir (s_id st) -> valid_id (s_id st) ->
  match par with Some p => valid_id p | None => True end ->
  match origin_run org with Some run => valid_id run | None => True end ->
  publish dir st par org E w = Ok id w' ->
  id = s_id st /\ published dir (w_fs w) st par org (w_fs w').
Proof using JsonLaws0 JsonLaws1.
  intros Hst Hid Hpar Horg Hp.
  assert (Ht := t_publish dir E (w_fs w) st par org Hst Hid Hpar Horg w eq_refl). by rewrite Hp in Ht.
Qed.

(** An instance comes into being atomically. Wherever [initialize] stops,
    either there is still no record or the store is good with the staged
    generation as its latest; when it returns, that generation is what was
    staged. *)
Theorem initialize_atomic E w st :
  well_formed (w_fs w) -> w_fs w !! state_path dir = None ->
  s_dir st = staging_dir dir (s_id st) -> valid_id (s_id st) ->
  let rec := mk_record RECORD_VERSION (Some (s_id st)) Stopped in
  match initialize dir st E w with
  | Ok id w' => id = s_id st /\ good dir (w_fs w') rec /\ published dir (w_fs w) st None Image (w_fs w')
  | Err _ w' | Crash w' => w_fs w' !! state_path dir = None \/ good dir (w_fs w') rec
  end.
Proof using JsonLaws0 JsonLaws1.
  intros Hwf Hnone Hst Hid rec.
  assert (Ht := t_initialize dir E (w_fs w) st Hwf Hnone Hst Hid w eq_refl).
  destruct (initialize dir st E w); [|done..]. destruct Ht as (-> & ? & ?). done.
Qed.

(** ** Runs *)

(** A run starts from a faithful copy. The run [begin_run] returns is the
    one the record names; it starts from the generation asked for, or from the
    latest; every file of that generation is in its directory with the same
    contents, and so is the host-share state when it can be looked at. *)
Theorem begin_run_copies current E w rec from r w' :
  good dir (w_fs w) rec -> r_phase rec = Stopped ->
  begin_run dir current from E w = Ok r w' ->
  began dir current E (w_fs w) rec from r (w_fs w').
Proof using JsonLaws0 JsonLaws1.
  intros Hg Hst Hr. assert (Ht := t_begin_run dir current E (w_fs w) rec from Hg Hst w eq_refl).
  by rewrite Hr in Ht.
Qed.

(** Salvaging a crashed run keeps its disk. The new latest generation
    descends from the old one, has no memory, and holds the run's rootfs byte
    for byte, with its host-share state. *)
Theorem salvage_keeps_disk E w rec run owner id w' :
  good dir (w_fs w) rec -> no_staging dir (w_fs w) -> r_phase rec = Dirty run owner ->
  salvage dir E w = Ok id w' ->
  rebuilt dir E (rdir run) (r_latest rec) (Salvage run) (w_fs w) id (w_fs w').
Proof using JsonLaws0 JsonLaws1.
  intros Hg Hns Hph Hs. assert (Ht := t_salvage dir E (w_fs w) rec run owner Hg Hns Hph w eq_refl).
  by rewrite Hs in Ht.
Qed.

(** Dropping memory keeps the disk and only the disk. *)
Theorem drop_memory_keeps_disk E w rec latest mf r w' :
  good dir (w_fs w) rec -> no_staging dir (w_fs w) -> r_phase rec = Stopped ->
  r_latest rec = Some latest -> complete_as dir (w_fs w) latest mf -> has_memory mf = true ->
  drop_memory dir E w = Ok r w' ->
  exists id, r = Some id /\ rebuilt dir E (gdir latest) (Some latest) DropMemory (w_fs w) id (w_fs w').
Proof using JsonLaws0 JsonLaws1.
  intros Hg Hns Hph Hl Hc Hm Hd.
  assert (Ht := t_drop_memory dir E (w_fs w) rec latest mf Hg Hns Hph Hl Hc Hm w eq_refl).
  by rewrite Hd in Ht.
Qed.

(** Exporting a generation makes a good store elsewhere whose latest
    generation has the same manifest and the same contents. *)
Theorem export_copies E w dest g w' :
  well_formed (w_fs w) -> w_fs w !! state_path dest = None -> valid_id (g_id g) ->
  g_dir g = gdir (g_id g) -> complete_as dir (w_fs w) (g_id g) (g_manifest g) ->
  ~ below (gdir (g_id g)) (generation_dir dest (g_id g)) ->
  ~ below (generation_dir dest (g_id g)) (gdir (g_id g)) ->
  export g dest E w = Ok tt w' ->
  exported dir dest E g (w_fs w) (w_fs w').
Proof using JsonLaws0 JsonLaws1.
  intros Hwf Hnone Hv Hgd Hc Hsd Hds He.
  assert (Ht := t_export dir dest E (w_fs w) g Hwf Hnone Hv Hgd Hc Hsd Hds w eq_refl).
  by rewrite He in Ht.
Qed.

(** ** Garbage collection *)

(** C27: a generation named by a checkpoint survives garbage collection, even
    one cut short, as long as no system call fails spuriously. *)
Theorem collect_garbage_keeps_checkpoints E w rec name c :
  calm E -> good dir (w_fs w) rec -> checkpoint_at dir (w_fs w) name c ->
  complete dir (w_fs w) (c_generation c) ->
  same_tree (gdir (c_generation c)) (w_fs w) (w_fs (left_by (collect_garbage dir E w))).
Proof using JsonLaws0 JsonLaws1 JsonLaws2.
  intros HE Hg Hc Hcomp. assert (Ht := t_collect_checkpoint dir E (w_fs w) rec name c HE Hg Hc Hcomp w eq_refl).
  by destruct (collect_garbage dir E w).
Qed.

(** A generation whose pin another process holds survives garbage
    collection whatever goes wrong. *)
Theorem collect_garbage_keeps_pinned E w rec id :
  held dir E id -> good dir (w_fs w) rec -> valid_id id -> has_pin dir (w_fs w) id ->
  same_tree (gdir id) (w_fs w) (w_fs (left_by (collect_garbage dir E w))).
Proof using Type.
  intros Hh Hg Hv Hp. assert (Ht := t_collect_pinned dir E (w_fs w) rec id Hh Hg Hv Hp w eq_refl).
  by destruct (collect_garbage dir E w).
Qed.

(** C28: with nothing going wrong, garbage collection succeeds and is complete:
    it creates nothing, no run directory is left but the live run's, no
    staging or trash directory is left, and every generation left is the
    latest one, named by a checkpoint, or pinned. *)
Theorem collect_garbage_complete E pinned w rec :
  faultless E -> (forall t p, e_pinned E t p = pinned p) ->
  good dir (w_fs w) rec -> w_fs w !! dir = Some NDir -> refs_readable dir (w_fs w) -> tidy dir (w_fs w) ->
  exists col w', collect_garbage dir E w = Ok col w' /\
    collected_all dir pinned (w_fs w) rec (w_fs w').
Proof using Type.
  intros HE Hpins Hg Hd Hr Ht.
  exact (total_collect_garbage dir E HE pinned Hpins (w_fs w) rec Hg Hd Hr Ht w eq_refl).
Qed.

End theorems.

(** [commit_file] replaces a file atomically. Whatever goes wrong, and
    wherever the process dies, the file holds its old contents or all of the
    new ones, and nothing else changed but temporary files of its own; when it
    returns, the file holds the new contents. *)
Theorem commit_file_atomic E w p contents :
  match commit_file p contents E w with
  | Ok _ w' => old_or_new p contents (w_fs w) (w_fs w') /\ holds contents (w_fs w' !! p)
  | Err _ w' | Crash w' => old_or_new p contents (w_fs w) (w_fs w')
  end.
Proof. exact (t_commit_file E p contents (w_fs w) w eq_refl). Qed.

(** When [clone_or_copy_tree] returns, the destination is a copy of the
    source: the same directories and symlinks, and files with the same
    contents; nothing else changed but the directories above it. *)
Theorem clone_or_copy_tree_copies E w src dst w' :
  well_formed (w_fs w) -> src <> [] -> dst <> [] -> ~ below src dst -> ~ below dst src ->
  absent dst (w_fs w) -> clone_or_copy_tree src dst E w = Ok tt w' ->
  tree_copied src dst (w_fs w) (w_fs w').
Proof.
  intros Hwf Hs Hd Hsd Hds Ha Hc.
  assert (Ht := t_clone_or_copy_tree E src dst (w_fs w) Hwf Hs Hd Hsd Hds Ha w eq_refl).
  rewrite Hc in Ht. apply Ht.
Qed.

(** ** The theorems at a concrete instance *)

(** C1, where starting a run is killed at its fortieth system call. *)
Lemma store_operations_refine_witness :
  match perform demo_dir demo_process (BeginRun None) (quiet_until 40 FCrash) demo with
  | Ok _ w' => exists rec', commits demo_process (BeginRun None) (demo_record demo) rec' /\
      kept demo_dir (w_fs demo) (demo_record demo) rec' (w_fs w')
  | Err _ w' | Crash w' => exists rec',
      (rec' = demo_record demo \/ commits demo_process (BeginRun None) (demo_record demo) rec') /\
      kept demo_dir (w_fs demo) (demo_record demo) rec' (w_fs w')
  end.
Proof.
  apply (store_operations_refine demo_dir demo_process (BeginRun None) (quiet_until 40 FCrash) demo).
  - exact I.
  - apply good_b_sound. vm_compute. reflexivity.
Defined.

(** C2, for that history followed by recovery. *)
Lemma store_history_refines_witness :
  let w1 := left_by (perform demo_dir demo_process (BeginRun None) (quiet_until 40 FCrash) demo) in
  let w2 := left_by (perform demo_dir demo_process Recover quiet w1) in
  exists rec', good demo_dir (w_fs w2) rec' /\
    rtc (fun r r' => exists current o, commits current o r r') (demo_record demo) rec'.
Proof.
  intros w1 w2. apply (store_history_refines demo_dir (w_fs demo)).
  - apply good_b_sound. vm_compute. reflexivity.
  - eapply rtc_l; [exact (by_operation demo_dir demo_process (BeginRun None) (quiet_until 40 FCrash) demo I)|].
    eapply rtc_l; [exact (by_operation demo_dir demo_process Recover quiet w1 I)|]. apply rtc_refl.
Defined.

(** C27: the first generation is named by a checkpoint and is not the latest. *)
Lemma collect_garbage_keeps_checkpoints_witness :
  same_tree (generation_dir demo_dir (c_generation demo_checkpoint)) (w_fs demo2)
    (w_fs (left_by (collect_garbage demo_dir quiet demo2))).
Proof.
  apply (collect_garbage_keeps_checkpoints demo_dir quiet demo2 (demo_record demo2) "c1.ref" demo_checkpoint).
  - intros t. discriminate.
  - apply good_b_sound. vm_compute. reflexivity.
  - split; vm_compute; reflexivity.
  - apply complete_b_sound. vm_compute. reflexivity.
Defined.

(** C5: an environment where every pin is held. *)
Definition all_pinned : env := {|
  e_fault _ := None; e_partial _ := 0; e_nanos t := N.of_nat t; e_pid := 1%N;
  e_blocks _ := 8%N; e_pinned _ _ := true; e_order _ l := l; e_order_perm _ l := reflexivity l;
|}.

Lemma collect_garbage_keeps_pinned_witness :
  same_tree (generation_dir demo_dir demo_id) (w_fs demo2)
    (w_fs (left_by (collect_garbage demo_dir all_pinned demo2))).
Proof.
  apply (collect_garbage_keeps_pinned demo_dir all_pinned demo2 (demo_record demo2)).
  - intros t. reflexivity.
  - apply good_b_sound. vm_compute. reflexivity.
  - vm_compute. reflexivity.
  - eexists. vm_compute. reflexivity.
Defined.

Lemma collect_garbage_complete_witness :
  exists col w', collect_garbage demo_dir quiet demo2 = Ok col w' /\
    collected_all demo_dir (fun _ => false) (w_fs demo2) (demo_record demo2) (w_fs w').
Proof.
  apply (collect_garbage_complete demo_dir quiet (fun _ => false) demo2).
  - intros t. reflexivity.
  - reflexivity.
  - apply good_b_sound. vm_compute. reflexivity.
  - vm_compute. reflexivity.
  - apply refs_readable_b_sound. vm_compute. reflexivity.
  - apply tidy_b_sound. vm_compute. reflexivity.
Defined.

Lemma recover_reports_witness :
  match recover demo_dir quiet demo with
  | Ok rv w' => exists rec', recovered demo_dir (demo_record demo) rv rec' (w_fs w') /\
      kept demo_dir (w_fs demo) (demo_record demo) rec' (w_fs w')
  | Err _ w' | Crash w' => exists rec', good demo_dir (w_fs w') rec'
  end.
Proof. apply (recover_reports demo_dir quiet demo). apply good_b_sound. vm_compute. reflexivity. Defined.

Lemma recover_refuses_unsaved_witness :
  match recover demo_dir quiet demo_dirty with
  | Ok _ _ => False
  | Err e w' => w_fs w' = w_fs demo_dirty /\
      (faultless quiet -> w_fs demo_dirty !! generations_dir demo_dir = Some NDir ->
       e = CrashedWithUnsavedState (instance_name demo_dir) demo_run_id)
  | Crash w' => w_fs w' = w_fs demo_dirty
  end.
Proof.
  apply (recover_refuses_unsaved demo_dir quiet demo_dirty (demo_record demo_dirty) demo_run_id demo_process).
  - apply good_b_sound. vm_compute. reflexivity.
  - vm_compute. reflexivity.
  - apply no_final_b_sound; [apply well_formed_b_sound|]; vm_compute; reflexivity.
Defined.

(** A staging directory with a rootfs in it. *)
Definition demo_staged : world :=
  left_by ((st ← stage demo_dir; fs_write (s_dir st /: ROOTFS) [x07]) quiet demo_start).

Definition demo_staging : staging :=
  mk_staging "g00000000000000000000-1-0" (staging_dir demo_dir "g00000000000000000000-1-0").

Lemma publish_complete_witness :
  match publish demo_dir demo_staging None Image quiet demo_staged with
  | Ok id w' => id = s_id demo_staging /\ published demo_dir (w_fs demo_staged) demo_staging None Image (w_fs w')
  | _ => False
  end.
Proof.
  assert (Hok : is_ok (publish demo_dir demo_staging None Image quiet demo_staged) = true)
    by (vm_compute; reflexivity).
  destruct (publish demo_dir demo_staging None Image quiet demo_staged) as [id w'|e w'|w'] eqn:Ep;
    [|discriminate Hok|discriminate Hok].
  apply (publish_complete demo_dir quiet demo_staged demo_staging None Image id w');
    [reflexivity|vm_compute; reflexivity|exact I|exact I|exact Ep].
Defined.

Lemma initialize_atomic_witness :
  let rec := mk_record RECORD_VERSION (Some (s_id demo_staging)) Stopped in
  match initialize demo_dir demo_staging quiet demo_staged with
  | Ok id w' => id = s_id demo_staging /\ good demo_dir (w_fs w') rec /\
      published demo_dir (w_fs demo_staged) demo_staging None Image (w_fs w')
  | Err _ w' | Crash w' => w_fs w' !! state_path demo_dir = None \/ good demo_dir (w_fs w') rec
  end.
Proof.
  apply (initialize_atomic demo_dir quiet demo_staged demo_staging).
  - apply well_formed_b_sound. vm_compute. reflexivity.
  - vm_compute. reflexivity.
  - reflexivity.
  - vm_compute. reflexivity.
Defined.

Lemma begin_run_copies_witness :
  match begin_run demo_dir demo_process None quiet demo with
  | Ok r w' => began demo_dir demo_process quiet (w_fs demo) (demo_record demo) None r (w_fs w')
  | _ => False
  end.
Proof.
  assert (Hok : is_ok (begin_run demo_dir demo_process None quiet demo) = true) by (vm_compute; reflexivity).
  destruct (begin_run demo_dir demo_process None quiet demo) as [r w'|e w'|w'] eqn:Er;
    [|discriminate Hok|discriminate Hok].
  apply (begin_run_copies demo_dir demo_process quiet demo (demo_record demo) None r w').
  - apply good_b_sound. vm_compute. reflexivity.
  - vm_compute. reflexivity.
  - exact Er.
Defined.

Lemma salvage_keeps_disk_witness :
  match salvage demo_dir quiet demo_dirty with
  | Ok id w' => rebuilt demo_dir quiet (run_dir demo_dir demo_run_id) (r_latest (demo_record demo_dirty))
      (Salvage demo_run_id) (w_fs demo_dirty) id (w_fs w')
  | _ => False
  end.
Proof.
  assert (Hok : is_ok (salvage demo_dir quiet demo_dirty) = true) by (vm_compute; reflexivity).
  destruct (salvage demo_dir quiet demo_dirty) as [id w'|e w'|w'] eqn:Es; [|discriminate Hok|discriminate Hok].
  apply (salvage_keeps_disk demo_dir quiet demo_dirty (demo_record demo_dirty) demo_run_id demo_process id w').
  - apply good_b_sound. vm_compute. reflexivity.
  - apply no_staging_b_sound. vm_compute. reflexivity.
  - vm_compute. reflexivity.
  - exact Es.
Defined.

Lemma drop_memory_keeps_disk_witness :
  let latest := default "" (r_latest (demo_record demo_memory)) in
  match drop_memory demo_dir quiet demo_memory with
  | Ok r w' => exists id, r = Some id /\
      rebuilt demo_dir quiet (generation_dir demo_dir latest) (Some latest) DropMemory (w_fs demo_memory) id (w_fs w')
  | _ => False
  end.
Proof.
  intros latest. assert (Hok : is_ok (drop_memory demo_dir quiet demo_memory) = true) by (vm_compute; reflexivity).
  destruct (drop_memory demo_dir quiet demo_memory) as [r w'|e w'|w'] eqn:Ed; [|discriminate Hok|discriminate Hok].
  apply (drop_memory_keeps_disk demo_dir quiet demo_memory (demo_record demo_memory) latest
    (manifest_of demo_dir (w_fs demo_memory) latest) r w').
  - apply good_b_sound. vm_compute. reflexivity.
  - apply no_staging_b_sound. vm_compute. reflexivity.
  - vm_compute. reflexivity.
  - vm_compute. reflexivity.
  - apply complete_b_sound_as. vm_compute. reflexivity.
  - vm_compute. reflexivity.
  - exact Ed.
Defined.

Lemma export_copies_witness :
  match export demo_generation ["j"%string] quiet demo with
  | Ok _ w' => exported demo_dir ["j"%string] quiet demo_generation (w_fs demo) (w_fs w')
  | _ => False
  end.
Proof.
  assert (Hok : is_ok (export demo_generation ["j"%string] quiet demo) = true) by (vm_compute; reflexivity).
  destruct (export demo_generation ["j"%string] quiet demo) as [[] w'|e w'|w'] eqn:Ee; [|discriminate Hok|discriminate Hok].
  apply (export_copies demo_dir quiet demo ["j"%string] demo_generation w').
  - apply well_formed_b_sound. vm_compute. reflexivity.
  - vm_compute. reflexivity.
  - vm_compute. reflexivity.
  - vm_compute. reflexivity.
  - apply complete_b_sound_as. vm_compute. reflexivity.
  - refine (bool_decide_eq_false_1 (below _ _) _). vm_compute. reflexivity.
  - refine (bool_decide_eq_false_1 (below _ _) _). vm_compute. reflexivity.
  - exact Ee.
Defined.

Lemma clone_or_copy_tree_copies_witness :
  match clone_or_copy_tree (generations_dir demo_dir) ["k"%string] quiet demo with
  | Ok _ w' => tree_copied (generations_dir demo_dir) ["k"%string] (w_fs demo) (w_fs w')
  | _ => False
  end.
Proof.
  assert (Hok : is_ok (clone_or_copy_tree (generations_dir demo_dir) ["k"%string] quiet demo) = true)
    by (vm_compute; reflexivity).
  destruct (clone_or_copy_tree (generations_dir demo_dir) ["k"%string] quiet demo) as [[] w'|e w'|w'] eqn:Ec;
    [|discriminate Hok|discriminate Hok].
  apply (clone_or_copy_tree_copies quiet demo (generations_dir demo_dir) ["k"%string] w').
  - apply well_formed_b_sound. vm_compute. reflexivity.
  - discriminate.
  - discriminate.
  - refine (bool_decide_eq_false_1 (below _ _) _). vm_compute. reflexivity.
  - refine (bool_decide_eq_false_1 (below _ _) _). vm_compute. reflexivity.
  - apply absent_intro; [apply well_formed_b_sound; vm_compute; reflexivity|discriminate|vm_compute; reflexivity].
  - exact Ec.
Defined.

(** C38: one failing [stat] is enough to lose a checkpoint. [checkpoints] asks
    [is_dir] whether a reference's generation exists, which answers no when the
    question fails; a collection that runs then takes the generation for
    garbage and removes it, and reports success. *)
Theorem collect_garbage_can_lose_checkpoint :
  exists E w rec name c col w',
    good demo_dir (w_fs w) rec /\ checkpoint_at demo_dir (w_fs w) name c /\
    complete demo_dir (w_fs w) (c_generation c) /\
    (exists n, forall t, e_fault E t = if Nat.eqb t n then Some FErr else None) /\
    collect_garbage demo_dir E w = Ok col w' /\ c_generation c ∈ col_generations col /\
    w_fs w' !! generation_dir demo_dir (c_generation c) = None.
Proof.
  pose (n := w_tick demo2 + 3). pose (o := collect_garbage demo_dir (quiet_until n FErr) demo2).
  assert (Ho : match o with
    | Ok col w' => bool_decide (c_generation demo_checkpoint ∈ col_generations col) &&
        bool_decide (w_fs w' !! generation_dir demo_dir (c_generation demo_checkpoint) = None)
    | _ => false end = true) by (vm_compute; reflexivity).
  destruct o as [col w'| |] eqn:Eo; [|discriminate Ho|discriminate Ho].
  apply andb_true_iff in Ho as [H1%bool_decide_eq_true H2%bool_decide_eq_true].
  exists (quiet_until n FErr), demo2, (demo_record demo2), "c1.ref"%string, demo_checkpoint, col, w'.
  split_and!; [exact demo2_good| | | |exact Eo|exact H1|exact H2].
  - split; vm_compute; reflexivity.
  - apply complete_b_sound. vm_compute. reflexivity.
  - by exists n.
Qed.

(** A capture that was cut short is never cleaned up.  libkrun writes a
    capture of [generations/.staging-<id>] to the hidden directory
    [generations/..staging-<id>.tmp.<pid>] first, memory image included; when
    the owner dies there, no later collection removes it, since it only knows
    the store's own prefixes. *)
Theorem collect_garbage_keeps_leftovers `{Json record, Json manifest, Json checkpoint_ref} E dir id pid w :
  same_tree (generations_dir dir /: ("." +:+ (STAGING_PREFIX +:+ id) +:+ ".tmp." +:+ pid))
    (w_fs w) (w_fs (left_by (collect_garbage dir E w))).
Proof.
  intros q Hq. apply (leftover_collect_garbage dir ("staging-" +:+ id +:+ ".tmp." +:+ pid) E w). intros Hb. by apply Hb.
Qed.
