(* ===== verification/Protocol.v ===== *)
(** * The host/agent protocol

    [src/lnx-protocol/src/lib.rs] (the messages and their versions) and
    [src/src/runner/protocol_io.rs] (how they are framed on a stream: a
    four-byte big-endian length and that many bytes of postcard).  The
    postcard codec is not part of the repository: the class [Postcard] stands
    for it, and [PostcardLaws] states what the code relies on, that decoding
    an encoding gives back the message. *)

From Stdlib Require Import ZArith Lia.
From S2P Require Import Prelude Codec.

(** ** lib.rs *)

Definition PROTOCOL_VERSION : N := 12.

Definition OLDEST_AGENT_PROTOCOL : N := 11.

(** Whether this host can talk to an agent that speaks [version]. *)
Definition agent_protocol_supported (version : N) : bool :=
  (OLDEST_AGENT_PROTOCOL <=? version)%N && (version <=? PROTOCOL_VERSION)%N.

Definition MAX_MESSAGE_SIZE : N := 16 * 1024 * 1024.

Inductive message :=
  | Hello (version : N)
  | OpenExec (channel_id : N) (argv : list string) (cwd : string) (pty : bool)
      (term colorterm : string) (rows cols uid gid : N) (group : string)
      (env : list (string * string))
  | OpenTcp (channel_id : N) (host : string) (port : N)
  | Checkpoint (channel_id : N) (request : string)
  | CheckpointCreated (channel_id : N)
  | Data (channel_id : N) (contents : bytes)
  | Stderr (channel_id : N) (contents : bytes)
  | ExecStarted (channel_id : N)
  | Eof (channel_id : N)
  | WindowResize (channel_id rows cols : N)
  | ExitStatus (channel_id : N) (status : Z)
  | Close (channel_id : N)
  | ErrorMsg (channel_id : N) (text : string)
  | RestoreSync (channel_id : N) (entropy : bytes)
  | RestoreSynced (channel_id : N)
  | SnapshotExitMsg (channel_id : N)
  | OpenUrl (channel_id : N) (url : string)
  | OpenUrlResult (channel_id : N) (ok : bool)
  | PortListeners (ports : list N)
  | SnapshotReady
  | AddForward (channel_id : N) (listen_host : string) (listen_port : N)
      (guest_host : string) (guest_port : N)
  | ForwardAdded (channel_id : N)
  | SetClock (unix_nanos : N)
  | KeepRunning (channel_id : N)
  | KeepingRunning (channel_id : N).

#[global] Instance message_eq_dec : EqDecision message.
Proof. solve_decision. Defined.

(** The first protocol whose agents understand a message. *)
Definition min_protocol (m : message) : N :=
  match m with
  | SetClock _ | KeepRunning _ | KeepingRunning _ => 12
  | _ => OLDEST_AGENT_PROTOCOL
  end.

(** Tells the guest the host's wall-clock time: nanoseconds as a [u64]. *)
Definition set_clock_now (nanos : N) : message := SetClock (nanos `mod` 2 ^ 64).

(** The position of a variant in the enum, which is how postcard encodes it. *)
Definition variant_index (m : message) : nat :=
  match m with
  | Hello _ => 0 | OpenExec _ _ _ _ _ _ _ _ _ _ _ _ => 1 | OpenTcp _ _ _ => 2 | Checkpoint _ _ => 3
  | CheckpointCreated _ => 4 | Data _ _ => 5 | Stderr _ _ => 6 | ExecStarted _ => 7 | Eof _ => 8
  | WindowResize _ _ _ => 9 | ExitStatus _ _ => 10 | Close _ => 11 | ErrorMsg _ _ => 12
  | RestoreSync _ _ => 13 | RestoreSynced _ => 14 | SnapshotExitMsg _ => 15 | OpenUrl _ _ => 16
  | OpenUrlResult _ _ => 17 | PortListeners _ => 18 | SnapshotReady => 19
  | AddForward _ _ _ _ _ => 20 | ForwardAdded _ => 21 | SetClock _ => 22
  | KeepRunning _ => 23 | KeepingRunning _ => 24
  end.

(** ** protocol_io.rs *)

Class Postcard := {
  to_allocvec : message -> option bytes;
  from_bytes : bytes -> option message;
}.

Class PostcardLaws `{Postcard} := {
  postcard_roundtrip : forall m b, to_allocvec m = Some b -> from_bytes b = Some m;
}.

Inductive io_error :=
  | EncodeFailed
  | TooLarge (len : N)
  | UnexpectedEof
  | DecodeFailed
  | WaitFailed.

#[global] Instance io_error_eq_dec : EqDecision io_error.
Proof. solve_decision. Defined.

(** [u32::to_be_bytes] and [u32::from_be_bytes] *)
Definition byte_of (n : N) : byte := default x00 (Byte.of_N (n `mod` 256)).

Definition to_be_bytes (n : N) : bytes :=
  [byte_of (n / 2 ^ 24); byte_of (n / 2 ^ 16); byte_of (n / 2 ^ 8); byte_of n]%N.

Definition from_be_bytes (b : bytes) : N :=
  foldl (fun acc x => acc * 256 + Byte.to_N x)%N 0%N b.

(** [read_exact] on what the peer has written before closing its end. *)
Definition read_exact (n : N) (s : bytes) : bytes * bytes + io_error :=
  if (N.of_nat (length s) <? n)%N then inr UnexpectedEof
  else inl (take (N.to_nat n) s, drop (N.to_nat n) s).

Definition read_u32 (s : bytes) : N * bytes + io_error :=
  match read_exact 4 s with
  | inl (b, rest) => inl (from_be_bytes b, rest)
  | inr e => inr e
  end.

Section framing.
Context `{Postcard}.

(** The bytes written to the stream. *)
Definition write_message (m : message) : bytes + io_error :=
  match to_allocvec m with
  | None => inr EncodeFailed
  | Some b =>
      if (MAX_MESSAGE_SIZE <? N.of_nat (length b))%N then inr (TooLarge (N.of_nat (length b)))
      else inl (to_be_bytes (N.of_nat (length b) `mod` 2 ^ 32) ++ b)
  end.

(** A message and what follows it on the stream. *)
Definition read_message (s : bytes) : message * bytes + io_error :=
  match read_u32 s with
  | inr e => inr e
  | inl (len, s1) =>
      if (MAX_MESSAGE_SIZE <? len)%N then inr (TooLarge len)
      else
        match read_exact len s1 with
        | inr e => inr e
        | inl (b, rest) =>
            match from_bytes b with
            | Some m => inl (m, rest)
            | None => inr DecodeFailed
            end
        end
  end.

(** What waiting for a message ended with. *)
Inductive interruptible :=
  | Message (m : message)
  | Interrupted
  | DeadlinePassed.

(** What [poll] returns, and whether its error is [EINTR]. *)
Record polled := mk_polled { ready : Z; eintr : bool }.

Definition wait_readable (p : polled) : bool + io_error :=
  if (ready p <? 0)%Z then (if eintr p then inl false else inr WaitFailed)
  else inl (0 <? ready p)%Z.

(** What one turn of the waiting loop sees: whether the client was
    interrupted, whether the deadline has passed, and how the wait for the
    stream to become readable ended. *)
Record turn := mk_turn { t_interrupted : bool; t_deadline_passed : bool; t_poll : polled }.

(** The loop of [read_message_interruptible], over the turns it takes; [None]
    is that it is still waiting. *)
Fixpoint read_message_interruptible (turns : list turn) (s : bytes)
    : option (interruptible * bytes + io_error) :=
  match turns with
  | [] => None
  | t :: turns' =>
      if t_interrupted t then Some (inl (Interrupted, s))
      else if t_deadline_passed t then Some (inl (DeadlinePassed, s))
      else
        match wait_readable (t_poll t) with
        | inr e => Some (inr e)
        | inl true =>
            Some (match read_message s with
                  | inl (m, rest) => inl (Message m, rest)
                  | inr e => inr e
                  end)
        | inl false => read_message_interruptible turns' s
        end
  end.

Definition read_message_within (p : polled) (s : bytes) : option message * bytes + io_error :=
  match wait_readable p with
  | inr e => inr e
  | inl false => inl (None, s)
  | inl true =>
      match read_message s with
      | inl (m, rest) => inl (Some m, rest)
      | inr e => inr e
      end
  end.

(** Writing several messages, and reading as many as the stream holds. *)
Fixpoint write_messages (l : list message) : bytes + io_error :=
  match l with
  | [] => inl []
  | m :: l' =>
      match write_message m, write_messages l' with
      | inl b, inl bs => inl (b ++ bs)
      | inr e, _ => inr e
      | _, inr e => inr e
      end
  end.

Fixpoint read_messages (n : nat) (s : bytes) : list message * bytes + io_error :=
  match n with
  | O => inl ([], s)
  | S n' =>
      match read_message s with
      | inr e => inr e
      | inl (m, rest) =>
          match read_messages n' rest with
          | inl (l, rest') => inl (m :: l, rest')
          | inr e => inr e
          end
      end
  end.

(** [agent_understands] of runner.rs. *)
Definition agent_understands (m : message) (agent_protocol : N) : bool :=
  (min_protocol m <=? agent_protocol)%N.

(** The thread of [run_broker_owner] that writes the agent's queue to its
    stream: messages the agent does not know are skipped, and a message that
    cannot be written ends it. *)
Fixpoint agent_writer (agent_protocol : N) (queue : list message) : bytes :=
  match queue with
  | [] => []
  | m :: queue' =>
      if agent_understands m agent_protocol then
        match write_message m with
        | inl b => b ++ agent_writer agent_protocol queue'
        | inr _ => []
        end
      else agent_writer agent_protocol queue'
  end.

End framing.

(** ** Lengths *)

Lemma byte_of_to_N n : Byte.to_N (byte_of n) = (n `mod` 256)%N.
Proof.
  unfold byte_of. destruct (Byte.of_N (n `mod` 256)) as [b|] eqn:E; simpl.
  - by apply Byte.to_of_N.
  - apply Byte.of_N_None_iff in E. pose proof (N.mod_lt n 256). lia.
Qed.

Lemma from_to_be_bytes n : (n < 2 ^ 32)%N -> from_be_bytes (to_be_bytes n) = n.
Proof.
  intros Hn. unfold from_be_bytes, to_be_bytes. simpl. rewrite !byte_of_to_N.
  change (2 ^ 24)%N with 16777216%N. change (2 ^ 16)%N with 65536%N. change (2 ^ 8)%N with 256%N.
  pose proof (N.div_mod n 256 ltac:(done)) as H0.
  pose proof (N.div_mod (n / 256) 256 ltac:(done)) as H1.
  pose proof (N.div_mod (n / 256 / 256) 256 ltac:(done)) as H2.
  rewrite !N.Div0.div_div in *. change (256 * 256)%N with 65536%N in *.
  change (65536 * 256)%N with 16777216%N in *.
  rewrite (N.mod_small (n / 16777216) 256) by (apply N.Div0.div_lt_upper_bound; lia). lia.
Qed.

Lemma length_to_be_bytes n : length (to_be_bytes n) = 4.
Proof. done. Qed.

Lemma read_exact_app (b rest : bytes) n :
  N.of_nat (length b) = n -> read_exact n (b ++ rest) = inl (b, rest).
Proof.
  intros <-. unfold read_exact. rewrite length_app.
  destruct (N.ltb_spec (N.of_nat (length b + length rest)) (N.of_nat (length b))); [lia|].
  by rewrite Nat2N.id, take_app_length, drop_app_length.
Qed.

Lemma read_exact_Some n s b rest :
  read_exact n s = inl (b, rest) -> s = b ++ rest /\ N.of_nat (length b) = n.
Proof.
  unfold read_exact. destruct (N.ltb_spec (N.of_nat (length s)) n); [done|].
  intros [= <- <-]. rewrite take_drop, length_take. split; [done|lia].
Qed.

(** ** Frames *)

Section frames.
Context `{Postcard, !PostcardLaws}.

(** What [write_message] puts on the stream. *)
Lemma write_message_Some m b :
  write_message m = inl b -> exists body, to_allocvec m = Some body /\
    (N.of_nat (length body) <= MAX_MESSAGE_SIZE)%N /\ b = to_be_bytes (N.of_nat (length body)) ++ body.
Proof.
  unfold write_message. destruct (to_allocvec m) as [body|]; [|done].
  destruct (N.ltb_spec MAX_MESSAGE_SIZE (N.of_nat (length body))); [done|]. intros [= <-].
  exists body. split_and!; [done|done|]. rewrite N.mod_small; [done|].
  unfold MAX_MESSAGE_SIZE in *. lia.
Qed.

Lemma read_u32_header n rest : (n < 2 ^ 32)%N -> read_u32 (to_be_bytes n ++ rest) = inl (n, rest).
Proof. intros Hn. unfold read_u32. by rewrite read_exact_app, from_to_be_bytes. Qed.

Lemma read_after_write m b rest : write_message m = inl b -> read_message (b ++ rest) = inl (m, rest).
Proof using Type*.
  intros (body & Hm & Hlen & ->)%write_message_Some. unfold read_message. rewrite <- app_assoc.
  rewrite read_u32_header by (unfold MAX_MESSAGE_SIZE in *; lia).
  destruct (N.ltb_spec MAX_MESSAGE_SIZE (N.of_nat (length body))); [lia|].
  by rewrite read_exact_app, (postcard_roundtrip m).
Qed.

Lemma read_after_writes l b rest :
  write_messages l = inl b -> read_messages (length l) (b ++ rest) = inl (l, rest).
Proof using Type*.
  revert b. induction l as [|m l IH]; simpl; intros b Hb; [by simplify_eq|].
  destruct (write_message m) as [b1|] eqn:E1; [|done].
  destruct (write_messages l) as [b2|]; [|done]. simplify_eq.
  rewrite <- app_assoc, (read_after_write m b1) by done. by rewrite IH.
Qed.

(** A frame cut short is never taken for a message. *)
Lemma read_truncated m b k :
  write_message m = inl b -> k < length b -> read_message (take k b) = inr UnexpectedEof.
Proof.
  intros (body & Hm & Hlen & ->)%write_message_Some Hk. rewrite length_app, length_to_be_bytes in Hk.
  unfold read_message. destruct (decide (k < 4)) as [Hk4|Hk4].
  - unfold read_u32, read_exact. rewrite length_take, length_app, length_to_be_bytes.
    by destruct (N.ltb_spec (N.of_nat (k `min` (4 + length body))) 4); [|lia].
  - rewrite take_app, length_to_be_bytes, take_ge by (rewrite length_to_be_bytes; lia).
    rewrite read_u32_header by (unfold MAX_MESSAGE_SIZE in *; lia).
    destruct (N.ltb_spec MAX_MESSAGE_SIZE (N.of_nat (length body))); [lia|].
    unfold read_exact. rewrite length_take.
    by destruct (N.ltb_spec (N.of_nat ((k - 4) `min` length body)) (N.of_nat (length body))); [|lia].
Qed.

(** What a successful read consumed: four bytes of length, and a body no
    longer than the limit that decodes to the message. *)
Lemma read_message_Some s m rest :
  read_message s = inl (m, rest) -> exists header body,
    s = header ++ body ++ rest /\ length header = 4 /\
    N.of_nat (length body) = from_be_bytes header /\
    (N.of_nat (length body) <= MAX_MESSAGE_SIZE)%N /\ from_bytes body = Some m.
Proof.
  unfold read_message, read_u32. intros Hr.
  destruct (read_exact 4 s) as [[header s1]|] eqn:E4; [|done].
  apply read_exact_Some in E4 as [-> Hh].
  destruct (N.ltb_spec MAX_MESSAGE_SIZE (from_be_bytes header)); [done|].
  destruct (read_exact (from_be_bytes header) s1) as [[body rest']|] eqn:Eb; [|done].
  apply read_exact_Some in Eb as [-> Hb].
  destruct (from_bytes body) as [m'|] eqn:Em; [|done]. simplify_eq.
  exists header, body. split_and!; [done|lia|done|lia|done].
Qed.

(** Waiting that gives up leaves the stream as it was. *)
Lemma interruptible_cases turns s r s' :
  read_message_interruptible turns s = Some (inl (r, s')) ->
  match r with
  | Message m => read_message s = inl (m, s')
  | Interrupted | DeadlinePassed => s' = s
  end.
Proof.
  induction turns as [|t turns IH]; simpl; [done|].
  destruct (t_interrupted t); [by intros [= <- <-]|].
  destruct (t_deadline_passed t); [by intros [= <- <-]|].
  destruct (wait_readable (t_poll t)) as [[]|]; [|done..].
  destruct (read_message s) as [[m rest]|]; [|done]. by intros [= <- <-].
Qed.

Lemma interruptible_error turns s e :
  read_message_interruptible turns s = Some (inr e) -> e = WaitFailed \/ read_message s = inr e.
Proof.
  induction turns as [|t turns IH]; simpl; [done|].
  destruct (t_interrupted t), (t_deadline_passed t); try done.
  unfold wait_readable. destruct (ready (t_poll t) <? 0)%Z; [destruct (eintr (t_poll t))|].
  - done.
  - intros [= <-]. by left.
  - destruct (0 <? ready (t_poll t))%Z; [|done].
    destruct (read_message s) as [[m rest]|]; [done|]. intros [= <-]. by right.
Qed.

Lemma read_message_too_large s n :
  read_message s = inr (TooLarge n) -> (MAX_MESSAGE_SIZE < n)%N /\ n = from_be_bytes (take 4 s).
Proof.
  unfold read_message, read_u32. destruct (read_exact 4 s) as [[b s1]|e] eqn:E4.
  - apply read_exact_Some in E4 as [-> Hb]. rewrite take_app_le, take_ge by lia.
    destruct (N.ltb_spec MAX_MESSAGE_SIZE (from_be_bytes b)); [by intros [= <-]|].
    unfold read_exact. destruct (N.ltb _ _); [done|]. by destruct (from_bytes _).
  - unfold read_exact in E4. destruct (N.ltb _ _); by simplify_eq.
Qed.

(** Newer messages come later in the enum. *)
Lemma understands_older m m' v :
  agent_understands m v = true -> variant_index m' <= variant_index m -> agent_understands m' v = true.
Proof.
  unfold agent_understands. rewrite !N.leb_le. intros Hm Hi.
  enough (min_protocol m' <= min_protocol m)%N by lia.
  clear -Hi. destruct m'; simpl in *; unfold OLDEST_AGENT_PROTOCOL; destruct m; simpl in *;
    unfold OLDEST_AGENT_PROTOCOL; lia.
Qed.

(** A stream of frames cut short gives the messages before the cut only. *)
Lemma read_after_writes_cut l b k :
  write_messages l = inl b -> k < length b -> read_messages (length l) (take k b) = inr UnexpectedEof.
Proof using Type*.
  revert b k. induction l as [|m l IH]; simpl; intros b k Hb Hk; [by simplify_eq/=; lia|].
  destruct (write_message m) as [b1|] eqn:E1; [|done].
  destruct (write_messages l) as [b2|]; [|done]. simplify_eq. rewrite length_app in Hk.
  destruct (decide (k < length b1)).
  - by rewrite take_app_le, (read_truncated m b1) by (done || lia).
  - rewrite take_app_ge, (read_after_write m b1) by (done || lia). rewrite IH; [done|done|lia].
Qed.

(** What the agent's stream holds: the messages it understands, up to the
    first that cannot be written. *)
Lemma agent_writer_writes v queue : exists l,
  l `prefix_of` filter (fun m => agent_understands m v = true) queue /\
  write_messages l = inl (agent_writer v queue).
Proof.
  induction queue as [|m queue (l & Hl & Hw)]; [by exists []|]. rewrite filter_cons. simpl.
  destruct (agent_understands m v); simpl; [|by exists l].
  destruct (write_message m) as [b|e] eqn:E.
  - exists (m :: l). split; [by apply prefix_cons|]. simpl. by rewrite E, Hw.
  - exists []. split; [apply prefix_nil|done].
Qed.

(** ** What the framing promises *)

(** C30: what [write_message] puts on a stream, [read_message] gives back: as
    many reads as there were writes return the messages in order and leave
    exactly what followed them; and when the stream ends anywhere inside what
    was written, the reads end in an error, never in a made-up message. *)
Theorem message_stream_roundtrip l b rest :
  write_messages l = inl b ->
  read_messages (length l) (b ++ rest) = inl (l, rest) /\
  forall k, k < length b -> read_messages (length l) (take k b) = inr UnexpectedEof.
Proof using Type*.
  intros Hb. split; [by apply read_after_writes|]. intros k Hk. by apply (read_after_writes_cut l b).
Qed.

(** C31: waiting for a message never splits a frame.  However the wait
    goes, giving up leaves the stream untouched, and a message consumes
    exactly its frame: four bytes of length and a body of that length, no
    longer than [MAX_MESSAGE_SIZE], that decodes to it.  A frame that claims
    to be longer is refused whatever follows. *)
Theorem interruptible_read_keeps_frames turns s :
  match read_message_interruptible turns s with
  | Some (inl (Message m, s')) => exists header body,
      s = header ++ body ++ s' /\ length header = 4 /\
      N.of_nat (length body) = from_be_bytes header /\
      (N.of_nat (length body) <= MAX_MESSAGE_SIZE)%N /\ from_bytes body = Some m
  | Some (inl (_, s')) => s' = s
  | Some (inr (TooLarge n)) => (MAX_MESSAGE_SIZE < n)%N /\ n = from_be_bytes (take 4 s)
  | _ => True
  end.
Proof.
  destruct (read_message_interruptible turns s) as [[[r s']|e]|] eqn:E; [| |done].
  - apply interruptible_cases in E. destruct r; [|done..]. by apply read_message_Some.
  - apply interruptible_error in E. destruct e as [|n| | |]; try done.
    apply read_message_too_large. by destruct E.
Qed.

(** An agent is only sent what it can decode.  The stream written for an
    agent that speaks [v] is a sequence of frames, and what the agent reads is
    its queue without the messages newer than [v], in order and up to the
    first that could not be written.  Those newer messages are the last
    variants of the enum: whatever the agent understands, it also understands
    every variant before it. *)
Theorem agent_stream_understood v queue : exists l,
  l `prefix_of` filter (fun m => agent_understands m v = true) queue /\
  read_messages (length l) (agent_writer v queue) = inl (l, []) /\
  forall m m', m ∈ l -> variant_index m' <= variant_index m -> agent_understands m' v = true.
Proof using Type*.
  destruct (agent_writer_writes v queue) as (l & Hl & Hw). exists l. split_and!; [done| |].
  - rewrite <- (app_nil_r (agent_writer v queue)). by apply read_after_writes.
  - intros m m' Hm Hi. apply (understands_older m); [|done].
    destruct Hl as [k Hk].
    assert (m ∈ filter (fun m => agent_understands m v = true) queue) as Hq
      by (rewrite Hk; apply elem_of_app; by left).
    by apply list_elem_of_filter in Hq as [? _].
Qed.

End frames.

(** ** A concrete codec for messages *)

(** The fields of a message by kind: its variant, its numbers, its strings, its
    pairs of strings and its bytes. *)
Definition flat : Type := nat * list Z * list string * list (string * string) * bytes.

Definition flatten (m : message) : flat :=
  let n (l : list N) := Z.of_N <$> l in
  let b (x : bool) := if x then 1%Z else 0%Z in
  (variant_index m,
   match m with
   | Hello v => n [v]
   | OpenExec c _ _ p _ _ r k u g _ _ => n [c] ++ [b p] ++ n [r; k; u; g]
   | OpenTcp c _ p => n [c; p]
   | Checkpoint c _ | CheckpointCreated c | Data c _ | Stderr c _ | ExecStarted c | Eof c => n [c]
   | WindowResize c r k => n [c; r; k]
   | ExitStatus c st => n [c] ++ [st]
   | Close c | ErrorMsg c _ | RestoreSync c _ | RestoreSynced c | SnapshotExitMsg c | OpenUrl c _ => n [c]
   | OpenUrlResult c ok => n [c] ++ [b ok]
   | PortListeners ports => n ports
   | SnapshotReady => []
   | AddForward c _ p _ q => n [c; p; q]
   | ForwardAdded c | SetClock c | KeepRunning c | KeepingRunning c => n [c]
   end,
   match m with
   | OpenExec _ argv cwd _ t ct _ _ _ _ g _ => [cwd; t; ct; g] ++ argv
   | OpenTcp _ h _ => [h]
   | Checkpoint _ r => [r]
   | ErrorMsg _ t => [t]
   | OpenUrl _ u => [u]
   | AddForward _ h _ g _ => [h; g]
   | _ => []
   end,
   match m with OpenExec _ _ _ _ _ _ _ _ _ _ _ e => e | _ => [] end,
   match m with Data _ d | Stderr _ d | RestoreSync _ d => d | _ => [] end).

Definition unflatten (f : flat) : option message :=
  let z := Z.to_N in
  let b (x : Z) := negb (x =? 0)%Z in
  match f with
  | (0, [v], [], [], []) => Some (Hello (z v))
  | (1, [c; p; r; k; u; g], cwd :: t :: ct :: gr :: argv, e, []) =>
      Some (OpenExec (z c) argv cwd (b p) t ct (z r) (z k) (z u) (z g) gr e)
  | (2, [c; p], [h], [], []) => Some (OpenTcp (z c) h (z p))
  | (3, [c], [r], [], []) => Some (Checkpoint (z c) r)
  | (4, [c], [], [], []) => Some (CheckpointCreated (z c))
  | (5, [c], [], [], d) => Some (Data (z c) d)
  | (6, [c], [], [], d) => Some (Stderr (z c) d)
  | (7, [c], [], [], []) => Some (ExecStarted (z c))
  | (8, [c], [], [], []) => Some (Eof (z c))
  | (9, [c; r; k], [], [], []) => Some (WindowResize (z c) (z r) (z k))
  | (10, [c; st], [], [], []) => Some (ExitStatus (z c) st)
  | (11, [c], [], [], []) => Some (Close (z c))
  | (12, [c], [t], [], []) => Some (ErrorMsg (z c) t)
  | (13, [c], [], [], d) => Some (RestoreSync (z c) d)
  | (14, [c], [], [], []) => Some (RestoreSynced (z c))
  | (15, [c], [], [], []) => Some (SnapshotExitMsg (z c))
  | (16, [c], [u], [], []) => Some (OpenUrl (z c) u)
  | (17, [c; ok], [], [], []) => Some (OpenUrlResult (z c) (b ok))
  | (18, ports, [], [], []) => Some (PortListeners (z <$> ports))
  | (19, [], [], [], []) => Some SnapshotReady
  | (20, [c; p; q], [h; g], [], []) => Some (AddForward (z c) h (z p) g (z q))
  | (21, [c], [], [], []) => Some (ForwardAdded (z c))
  | (22, [c], [], [], []) => Some (SetClock (z c))
  | (23, [c], [], [], []) => Some (KeepRunning (z c))
  | (24, [c], [], [], []) => Some (KeepingRunning (z c))
  | _ => None
  end.

Lemma unflatten_flatten m : unflatten (flatten m) = Some m.
Proof.
  destruct m; simpl; rewrite ?N2Z.id; try done.
  - by destruct pty.
  - by destruct ok.
  - by rewrite <- list_fmap_compose, (list_fmap_ext _ id), list_fmap_id by (intros; apply N2Z.id).
Qed.

#[export] Instance nat_codec : Codec nat :=
  codec_of N.of_nat (fun n => Some (N.to_nat n)) ltac:(intros n; cbv beta; f_equal; apply Nat2N.id).

#[export] Instance message_codec : Codec message := codec_of (A := flat) flatten unflatten unflatten_flatten.

#[export] Instance codec_postcard : Postcard := {|
  to_allocvec m := Some (enc m);
  from_bytes b := fst <$> dec b;
|}.

#[export] Instance codec_postcard_laws : PostcardLaws.
Proof.
  split. intros m b [= <-]. change (fst <$> dec (enc m) = Some m).
  by rewrite <- (app_nil_r (enc m)), dec_enc.
Qed.

(** ** Witnesses *)

Definition demo_messages : list message :=
  [Hello PROTOCOL_VERSION; Data 7 [x41; x42]; ExitStatus 7 (-1)].

Lemma message_stream_roundtrip_witness : exists b,
  write_messages demo_messages = inl b /\
  read_messages 3 (b ++ [x00]) = inl (demo_messages, [x00]).
Proof.
  destruct (write_messages demo_messages) as [b|] eqn:E; [|by vm_compute in E].
  exists b. split; [done|]. apply (message_stream_roundtrip demo_messages b [x00] E).
Defined.

Lemma agent_stream_understood_witness : exists l,
  l `prefix_of` filter (fun m => agent_understands m 11 = true) (SetClock 5 :: demo_messages) /\
  read_messages (length l) (agent_writer 11 (SetClock 5 :: demo_messages)) = inl (l, []).
Proof.
  destruct (agent_stream_understood 11 (SetClock 5 :: demo_messages)) as (l & Hl & Hr & _).
  by exists l.
Defined.
