(* ===== verification/Broker.v ===== *)
(** * The broker of a running VM owner

    [src/src/runner/broker.rs]: the state every thread of an owner shares, and
    the operations on it.  Each definition here is one operation as one step;
    [Owner.v] runs them from the owner's threads and splits the ones that are
    not atomic in the code.

    Time is a number of milliseconds.  [active] and [pending] are [usize]
    counters that wrap around.  The channel table's lock is poisoned when a
    thread panicked while holding it ([poisoned]); no code run under the other
    locks can panic.  What the agent writer and the clients' writers are sent
    is kept as the history of their queues.  [HashMap] leaves the order of its
    entries open: here it is that of [map_to_list], and no theorem depends on
    it. *)

From Stdlib Require Import Lia.
From S2P Require Import Prelude Protocol.

Definition OWNER_STOPPING : string := "VM owner is stopping after a final snapshot".

Definition OWNER_STOPPING_NOT_STARTED : string :=
  "VM owner is stopping after a final snapshot; the command was not started".

Definition FORWARD_LINGER : N := 60000.

Definition FIRST_CLIENT_GRACE : N := 10000.

(** An open channel between a client and the guest agent; [tx] says whose
    queue it sends to. *)
Record broker_channel := mk_channel { tx : N; counts_as_active : bool }.

Inductive channel_admission := Opened | Stopping | Collision.

Record idle_status := mk_idle { is_busy : bool; is_pending : bool; has_seen_active : bool }.

Record port_forward := mk_forward {
  listen_host : string;
  listen_port : N;
  guest_host : string;
  guest_port : N;
}.

(** A host or guest address. *)
Abbreviation addr := (string * N)%type.

Record broker := mk_broker {
  channels : gmap N broker_channel;
  poisoned : bool;
  stopping : bool;
  active : N;
  pending : N;
  seen_active : bool;
  kept_running : bool;
  awake_until : option N;
  first_client_deadline : option N;
  auto_forward_ports : gset addr;
  user_forwards : gmap addr addr;
  (** Everything sent to the agent's writer so far, and whether it is gone. *)
  agent_queue : list message;
  agent_gone : bool;
  (** Everything sent to clients so far, with the queue it went to. *)
  sent : list (N * message);
  (** The forwards a listener has been started for. *)
  listening : list port_forward;
}.

#[global] Instance broker_channel_eq_dec : EqDecision broker_channel.
Proof. solve_decision. Defined.

#[global] Instance port_forward_eq_dec : EqDecision port_forward.
Proof. solve_decision. Defined.

(** ** Fields *)

Definition set_channels (f : gmap N broker_channel -> gmap N broker_channel) (b : broker) : broker :=
  mk_broker (f (channels b)) (poisoned b) (stopping b) (active b) (pending b) (seen_active b)
    (kept_running b) (awake_until b) (first_client_deadline b) (auto_forward_ports b)
    (user_forwards b) (agent_queue b) (agent_gone b) (sent b) (listening b).

Definition set_stopping (b : broker) : broker :=
  mk_broker (channels b) (poisoned b) true (active b) (pending b) (seen_active b)
    (kept_running b) (awake_until b) (first_client_deadline b) (auto_forward_ports b)
    (user_forwards b) (agent_queue b) (agent_gone b) (sent b) (listening b).

Definition set_poisoned (b : broker) : broker :=
  mk_broker (channels b) true (stopping b) (active b) (pending b) (seen_active b)
    (kept_running b) (awake_until b) (first_client_deadline b) (auto_forward_ports b)
    (user_forwards b) (agent_queue b) (agent_gone b) (sent b) (listening b).

Definition set_active (f : N -> N) (b : broker) : broker :=
  mk_broker (channels b) (poisoned b) (stopping b) (f (active b)) (pending b) (seen_active b)
    (kept_running b) (awake_until b) (first_client_deadline b) (auto_forward_ports b)
    (user_forwards b) (agent_queue b) (agent_gone b) (sent b) (listening b).

Definition set_pending (f : N -> N) (b : broker) : broker :=
  mk_broker (channels b) (poisoned b) (stopping b) (active b) (f (pending b)) (seen_active b)
    (kept_running b) (awake_until b) (first_client_deadline b) (auto_forward_ports b)
    (user_forwards b) (agent_queue b) (agent_gone b) (sent b) (listening b).

Definition set_seen_active (b : broker) : broker :=
  mk_broker (channels b) (poisoned b) (stopping b) (active b) (pending b) true
    (kept_running b) (awake_until b) (first_client_deadline b) (auto_forward_ports b)
    (user_forwards b) (agent_queue b) (agent_gone b) (sent b) (listening b).

Definition set_kept_running (b : broker) : broker :=
  mk_broker (channels b) (poisoned b) (stopping b) (active b) (pending b) (seen_active b)
    true (awake_until b) (first_client_deadline b) (auto_forward_ports b)
    (user_forwards b) (agent_queue b) (agent_gone b) (sent b) (listening b).

Definition set_awake_until (t : option N) (b : broker) : broker :=
  mk_broker (channels b) (poisoned b) (stopping b) (active b) (pending b) (seen_active b)
    (kept_running b) t (first_client_deadline b) (auto_forward_ports b)
    (user_forwards b) (agent_queue b) (agent_gone b) (sent b) (listening b).

Definition clear_first_client_deadline (b : broker) : broker :=
  mk_broker (channels b) (poisoned b) (stopping b) (active b) (pending b) (seen_active b)
    (kept_running b) (awake_until b) None (auto_forward_ports b)
    (user_forwards b) (agent_queue b) (agent_gone b) (sent b) (listening b).

Definition set_auto (f : gset addr -> gset addr) (b : broker) : broker :=
  mk_broker (channels b) (poisoned b) (stopping b) (active b) (pending b) (seen_active b)
    (kept_running b) (awake_until b) (first_client_deadline b) (f (auto_forward_ports b))
    (user_forwards b) (agent_queue b) (agent_gone b) (sent b) (listening b).

Definition set_user (f : gmap addr addr -> gmap addr addr) (b : broker) : broker :=
  mk_broker (channels b) (poisoned b) (stopping b) (active b) (pending b) (seen_active b)
    (kept_running b) (awake_until b) (first_client_deadline b) (auto_forward_ports b)
    (f (user_forwards b)) (agent_queue b) (agent_gone b) (sent b) (listening b).

Definition set_agent_gone (b : broker) : broker :=
  mk_broker (channels b) (poisoned b) (stopping b) (active b) (pending b) (seen_active b)
    (kept_running b) (awake_until b) (first_client_deadline b) (auto_forward_ports b)
    (user_forwards b) (agent_queue b) true (sent b) (listening b).

(** [agent_tx.send]: nothing is sent once the writer is gone. *)
Definition agent_send (l : list message) (b : broker) : broker :=
  mk_broker (channels b) (poisoned b) (stopping b) (active b) (pending b) (seen_active b)
    (kept_running b) (awake_until b) (first_client_deadline b) (auto_forward_ports b)
    (user_forwards b) (if agent_gone b then agent_queue b else agent_queue b ++ l)
    (agent_gone b) (sent b) (listening b).

(** [channel.tx.send], whose errors the code ignores. *)
Definition client_send (l : list (N * message)) (b : broker) : broker :=
  mk_broker (channels b) (poisoned b) (stopping b) (active b) (pending b) (seen_active b)
    (kept_running b) (awake_until b) (first_client_deadline b) (auto_forward_ports b)
    (user_forwards b) (agent_queue b) (agent_gone b) (sent b ++ l) (listening b).

Definition listen (f : port_forward) (b : broker) : broker :=
  mk_broker (channels b) (poisoned b) (stopping b) (active b) (pending b) (seen_active b)
    (kept_running b) (awake_until b) (first_client_deadline b) (auto_forward_ports b)
    (user_forwards b) (agent_queue b) (agent_gone b) (sent b) (listening b ++ [f]).

(** [AtomicUsize::fetch_add] and [fetch_sub] *)
Definition USIZE : N := 2 ^ 64.

Definition fetch_add (n x : N) : N := ((x + n) `mod` USIZE)%N.

Definition fetch_sub (n x : N) : N := ((x + (USIZE - n `mod` USIZE)) `mod` USIZE)%N.

(** ** Operations *)

Definition new (starts_idle : bool) (now : N) : broker :=
  mk_broker ∅ false false 0 0 starts_idle false None (Some (now + FIRST_CLIENT_GRACE)%N)
    ∅ ∅ [] false [] [].

Definition LOCK_POISONED : string := "broker channel table lock poisoned".

(** Runs [action] unless the owner is stopping, atomically with respect to the
    stopping barrier. *)
Definition unless_stopping {A} (action : broker -> broker * A) (b : broker)
    : broker * (option A + string) :=
  if poisoned b then (b, inr LOCK_POISONED)
  else if stopping b then (b, inl None)
  else let (b', a) := action b in (b', inl (Some a)).

Definition send_to_agent (m : message) (b : broker) : broker * (bool + string) :=
  match unless_stopping (fun b => (agent_send [m] b, negb (agent_gone b))) b with
  | (b', inl (Some true)) => (b', inl true)
  | (b', inl (Some false)) => (b', inr "guest agent writer has stopped")
  | (b', inl None) => (b', inl false)
  | (b', inr e) => (b', inr e)
  end.

Definition send_to_agent_on (channel_id : N) (m : message) (b : broker) : broker * bool :=
  if poisoned b then (b, false)
  else if negb (stopping b) && bool_decide (is_Some (channels b !! channel_id)) then
    (agent_send [m] b, negb (agent_gone b))
  else (b, false).

(** Registers a channel and sends its opening message to the agent.
    [prepare] is the error the preparation ended with, if any;
    [before_dispatch] acts on the owner's run, and gives nothing when the
    process dies in it. *)
Definition open_channel {D} (before_dispatch : D -> option (D * option string))
    (channel_id : N) (channel : broker_channel) (open : message) (prepare : option string)
    (b : broker) (d : D) : option (broker * D * (channel_admission + string)) :=
  if poisoned b then Some (b, d, inr LOCK_POISONED)
  else if stopping b then Some (b, d, inl Stopping)
  else
    match channels b !! channel_id with
    | Some _ => Some (b, d, inl Collision)
    | None =>
        match prepare with
        | Some e => Some (b, d, inr e)
        | None =>
            match before_dispatch d with
            | None => None
            | Some (d', Some e) => Some (b, d', inr e)
            | Some (d', None) =>
                let b1 := if counts_as_active channel then set_active (fetch_add 1) b else b in
                let b2 := clear_first_client_deadline (set_seen_active b1) in
                let b3 := set_channels (insert channel_id channel) b2 in
                if agent_gone b3 then
                  let b4 := set_channels (delete channel_id) b3 in
                  let b5 := if counts_as_active channel then set_active (fetch_sub 1) b4 else b4 in
                  Some (b5, d', inr "send channel open to agent")
                else Some (agent_send [open] b3, d', inl Opened)
            end
        end
    end.

(** The part of [close_channel] under the lock: the channel is removed, and
    the result says whether a unit of activity is to be released. *)
Definition remove_channel (channel_id : N) (b : broker) : broker * bool :=
  if poisoned b then (b, false)
  else
    match channels b !! channel_id with
    | Some channel => (set_channels (delete channel_id) b, counts_as_active channel)
    | None => (b, false)
    end.

Definition close_channel (channel_id : N) (b : broker) : broker :=
  let (b', counted) := remove_channel channel_id b in
  if counted then set_active (fetch_sub 1) b' else b'.

Definition is_close (m : message) : bool := match m with Close _ => true | _ => false end.

(** The channel a message from the agent is for, looked up under the lock. *)
Definition lookup_channel (channel_id : N) (b : broker) : option broker_channel :=
  if poisoned b then None else channels b !! channel_id.

Definition deliver_to_client (channel_id : N) (m : message) (b : broker) : broker :=
  let b' :=
    match lookup_channel channel_id b with
    | Some channel => client_send [(tx channel, m)] b
    | None => b
    end in
  if is_close m then close_channel channel_id b' else b'.

Definition drain_locked (error : option string) (b : broker) : broker * N :=
  let drained := map_to_list (channels b) in
  let b1 := set_channels (fun _ => ∅) b in
  let released := N.of_nat (length (filter (fun kc => counts_as_active kc.2 = true) drained)) in
  let b2 :=
    match error with
    | Some e => client_send ((fun kc => (tx kc.2, ErrorMsg kc.1 e)) <$> drained) b1
    | None => b1
    end in
  ((if (0 <? released)%N then set_active (fetch_sub released) b2 else b2), released).

Definition drain (error : option string) (b : broker) : broker * N :=
  if poisoned b then (b, 0%N) else drain_locked error b.

(** Closes the stopping barrier, then fails and forgets every open channel and
    asks the guest to end what they were running. *)
Definition begin_shutdown (error : string) (b : broker) : broker * N :=
  let b1 := set_stopping b in
  if poisoned b then (b1, 0%N)
  else
    let b2 := agent_send ((fun kc => Close kc.1) <$> map_to_list (channels b1)) b1 in
    drain_locked (Some error) b2.

Definition hold_awake (b : broker) : broker := set_seen_active (set_active (fetch_add 1) b).

Definition drop_activity_guard (b : broker) : broker := set_active (fetch_sub 1) b.

Definition pending_connection (b : broker) : broker := set_pending (fetch_add 1) b.

Definition drop_pending_connection (b : broker) : broker := set_pending (fetch_sub 1) b.

Definition keep_running (b : broker) : broker := set_kept_running (set_seen_active b).

Definition keep_awake_for (duration now : N) (b : broker) : broker :=
  let until := (now + duration)%N in
  set_awake_until (Some (match awake_until b with Some t => N.max t until | None => until end)) b.

(** Whether a deadline is set and still ahead. *)
Definition ahead (now : N) (t : option N) : bool :=
  match t with Some t => (now <? t)%N | None => false end.

Definition get_idle_status (now : N) (b : broker) : idle_status :=
  mk_idle ((0 <? active b)%N || ahead now (awake_until b) || kept_running b)
    ((0 <? pending b)%N || ahead now (first_client_deadline b))
    (seen_active b).

(** ** Forwards *)

Definition host_of (f : port_forward) : addr := (listen_host f, listen_port f).

Definition guest_of (f : port_forward) : addr := (guest_host f, guest_port f).

(** [bind] is the error binding the host address ended with, if any; a thread
    then accepts connections on it. *)
Definition start_forward_listener (bind : option string) (f : port_forward) (b : broker)
    : broker * option string :=
  match bind with
  | Some e => (b, Some e)
  | None => (listen f b, None)
  end.

Definition ensure_auto_forward_port (bind : option string) (host : string) (port : N) (b : broker)
    : broker * (bool + string) :=
  if (port <=? 1024)%N || stopping b then (b, inl false)
  else if bool_decide ((host, port) ∈ auto_forward_ports b) then (b, inl false)
  else
    let b1 := set_auto (fun s => {[ (host, port) ]} ∪ s) b in
    match start_forward_listener bind (mk_forward host port host port) b1 with
    | (b2, Some e) => (set_auto (fun s => s ∖ {[ (host, port) ]}) b2, inr e)
    | (b2, None) => (b2, inl true)
    end.

Definition reserve_forward_port (f : port_forward) (b : broker) : broker :=
  if bool_decide (listen_host f = "127.0.0.1") && (1024 <? listen_port f)%N then
    set_auto (fun s => {[ host_of f ]} ∪ s) b
  else b.

(** Why a forward is refused: the user has the port forwarded to [guest], or it
    is forwarded because the guest listens there. *)
Definition already_forwarded (f : port_forward) (guest : string * N) : string :=
  listen_host f +:+ ":" +:+ pretty (listen_port f) +:+ " is already forwarded to the guest's " +:+
  guest.1 +:+ ":" +:+ pretty guest.2.

Definition already_listening (f : port_forward) : string :=
  listen_host f +:+ ":" +:+ pretty (listen_port f) +:+ " is already forwarded to the guest's port " +:+
  pretty (listen_port f) +:+ " (the guest listens there)".

Definition add_user_forward (bind : option string) (f : port_forward) (b : broker)
    : broker * option string :=
  if stopping b then (b, Some OWNER_STOPPING_NOT_STARTED)
  else
    match user_forwards b !! host_of f with
    | Some guest =>
        if bool_decide (guest = guest_of f) then (b, None)
        else (b, Some (already_forwarded f guest))
    | None =>
        if bool_decide (host_of f ∈ auto_forward_ports b) then
          if bool_decide (guest_of f = host_of f)
          then (set_user (insert (host_of f) (guest_of f)) b, None)
          else (b, Some (already_listening f))
        else
          match start_forward_listener bind f (reserve_forward_port f b) with
          | (b', Some e) => (b', Some e)
          | (b', None) => (set_user (insert (host_of f) (guest_of f)) b', None)
          end
    end.
