(* ===== verification/Owner.v ===== *)
(** * The threads of a running VM owner

    [run_broker_owner] of [src/src/runner.rs], the threads of
    [src/src/runner/broker.rs] (one per client, per forwarded port, per
    forwarded connection and direction, and the reader of the guest agent) and
    the capture worker of [src/src/runner/capture.rs], as one transition
    system.  A step is what a thread does between two points where another
    thread can see or change the shared state: what runs under the channel
    table's lock is one step, and so is each atomic load or update outside it.
    The outcome of everything outside the owner (sockets, binding a port, the
    clock) is the step's input, so a run of the system is a list of events. *)

From Stdlib Require Import Lia.
From S2P Require Import Prelude Protocol Broker.

(** What a client asks for in a checkpoint request. *)
Record checkpoint_spec := mk_spec {
  spec_id : option string;
  spec_name : option string;
  spec_export_to : option path;
}.

(** What the capture worker is asked for; a checkpoint's reply goes to the
    client thread [client]. *)
Inductive capture_job :=
  | CheckpointJob (client : N) (spec : checkpoint_spec)
  | SnapshotExitJob (channel_id : N)
  | Finish.

Inductive capture_origin := CheckpointOrigin | SnapshotExitOrigin.

(** The owner's run, as its broker and its capture worker use it.  An
    operation gives nothing when the process dies in it, and otherwise the run
    afterwards and its result. *)
Class OwnedRun (D : Type) := {
  run_mark_dirty : D -> option (D * option string);
  run_capture : capture_origin -> D -> option (D * (string + string));
  run_add_checkpoint : checkpoint_spec -> string -> D -> option (D * option string);
  run_export : string -> path -> D -> option (D * option string);
  run_advance : string -> D -> option (D * option string);
  run_final : D -> option (D * option string);
}.

(** What the owner relies on.  Marking a run dirty makes it dirty, and nothing
    short of its final commit makes it clean again, as long as captures are
    exported to [exportable] places only; [valid] is what the run itself needs
    for that. *)
Class OwnedRunLaws (D : Type) `{OwnedRun D} (valid dirty : D -> Prop) (exportable : path -> Prop) := {
  mark_dirty_dirty d d' r :
    valid d -> run_mark_dirty d = Some (d', r) -> valid d' /\ (dirty d \/ r = None -> dirty d');
  capture_keeps d o d' r :
    valid d -> run_capture o d = Some (d', r) -> valid d' /\ (dirty d -> dirty d');
  add_checkpoint_keeps d spec id d' r :
    valid d -> run_add_checkpoint spec id d = Some (d', r) -> valid d' /\ (dirty d -> dirty d');
  export_keeps d id dest d' r :
    exportable dest -> valid d -> run_export id dest d = Some (d', r) -> valid d' /\ (dirty d -> dirty d');
  advance_keeps d id d' r :
    valid d -> run_advance id d = Some (d', r) -> valid d' /\ (dirty d -> dirty d');
}.

(** The local address a URL the guest opens needs forwarded, if any. *)
Definition localhost_url_forward (url : string) : option (string * N) :=
  '(scheme, rest) ← split_once "://" url;
  if negb (bool_decide (scheme = "http" \/ scheme = "https")) then None
  else
    let authority := take_until (fun c => bool_decide (c ∈ ["/"; "?"; "#"]%char)) rest in
    if contains_char "@" authority then None
    else
      match strip_prefix "[" authority with
      | Some rest =>
          '(host, tail) ← split_once "]" rest;
          if negb (bool_decide (host = "::1")) then None
          else
            port ← strip_prefix ":" tail;
            port ← parse_unsigned (2 ^ 16) port;
            Some ("::1", port)
      | None =>
          '(host, port) ← rsplit_once ":" authority;
          if contains_char ":" host || negb (bool_decide (host = "localhost" \/ host = "127.0.0.1"))
          then None
          else
            port ← parse_unsigned (2 ^ 16) port;
            Some ("127.0.0.1", port)
      end.

(** Where a thread is. *)
Inductive thread :=
  (* handle_broker_client *)
  | CHello
  | CRequest
  | CFirst (first : message)
  | CAwait (channel_id : N)
  | CReply (reply : message)
  | COpened (channel_id : N)
  | CClone (channel_id : N)
  | CServing (channel_id : N)
  | CClose (channel_id : N)
  | CRelease (counted : bool)
  (* the accepting thread of start_forward_listener *)
  | LCheck (f : port_forward)
  | LAccept (f : port_forward)
  (* handle_forward_connection *)
  | FStart (f : port_forward)
  | FHold (f : port_forward)
  | FOpen (f : port_forward)
  | FClone (channel_id : N)
  | FPump (channel_id : N)
  | FClosing (channel_id : N)
  | FRemove (channel_id : N)
  | FRelease (counted : bool)
  | FLinger
  | FDrop
  (* its thread for the other direction *)
  | FInput (channel_id : N)
  | FRead (channel_id : N)
  (* run_agent_reader *)
  | RRead
  | RUrl (channel_id : N) (url : string)
  | RUrlReply (channel_id : N) (ok : bool)
  | RPorts (ports : list N)
  | RDeliver (channel_id : N) (m : message)
  | RSend (channel : option broker_channel) (channel_id : N) (m : message)
  | RClose (channel_id : N)
  | RRelease (counted : bool)
  | RFail (error : string)
  | RMark (error : string)
  | RDrain (error : option string).

(** Why the owner left its loop. *)
Inductive stop_reason := Idle | Signalled | AgentFailed | AcceptFailed.

(** Where the owner's own thread is; [deadline] is its idle deadline. *)
Inductive loop_at :=
  | OForwards (forwards : list port_forward)
  | OTop (deadline : option N)
  | OWouldBlock (deadline : option N)
  | OLinger (deadline : option N)
  | OAwait (deadline : option N) (lingering : bool)
  | OActive (deadline : option N) (lingering awaiting : bool)
  | OKept (deadline : option N) (busy awaiting : bool)
  | OPending (deadline : option N) (busy awaiting : bool)
  | ODecide (deadline : option N) (busy pend : bool)
  | OStop (reason : stop_reason)
  | OFinish
  | OJoin
  | OStarted
  | OReady
  | OFinal
  | OEnd.

(** Where the capture worker is. *)
Inductive worker_at :=
  | WRecv
  | WCapture (job : capture_job)
  | WClock (job : capture_job) (result : string + string)
  | WRecord (client : N) (spec : checkpoint_spec) (generation : string)
  | WExport (client : N) (spec : checkpoint_spec) (generation : string)
  | WReply (client : N) (error : option string)
  | WAdvance (channel_id : N) (generation : string)
  | WAnswer (reply : message)
  | WDone.

(** How what a thread does outside the owner ended. *)
Inductive input :=
  | IOk
  | IFail (error : string)
  | IMsg (m : message)
  | IData (b : bytes)
  | IEof
  | IId (channel_id : N)
  | IBind (error : option string)
  | IUrl (bind : option string) (ok : bool)
  | IPrepare (error : option string)
  | IPanic
  | IClock (nanos : N)
  | ISignal
  | IWouldBlock.

Section owner.
Context {D : Type} `{OwnedRun D}.

(** [serde_json] on a checkpoint request, how long an owner stays idle, and
    whether captures reset the guest's wall clock. *)
Context (parse_spec : string -> option checkpoint_spec) (idle_ttl : N) (sets_wall_clock : bool).

Record owner := mk_owner {
  st : broker;
  run : D;
  threads : gmap N thread;
  next_thread : N;
  loop : loop_at;
  jobs : list capture_job;
  worker : worker_at;
  snapshot_started : bool;
  agent_failed : bool;
  now : N;
}.

(** What a thread's step does: to the broker, to the run and to itself, the
    threads it spawns and the captures it asks for. *)
Record effect := mk_effect {
  e_broker : broker;
  e_run : D;
  e_next : option thread;
  e_spawn : list thread;
  e_jobs : list capture_job;
}.

Definition worker_gone (s : owner) : bool := match worker s with WDone => true | _ => false end.

(** The threads of the listeners started between [b] and [b']. *)
Definition new_listeners (b b' : broker) : list thread :=
  LCheck <$> drop (length (listening b)) (listening b').

Definition CHANNEL_COLLISION (channel_id : N) : string :=
  "channel id collision for live channel " +:+ hex_digits 16 channel_id +:+
  "; deterministic mode cannot run identical commands concurrently".

(** The channel a client's request opens. *)
Definition opens (m : message) : option N :=
  match m with
  | OpenExec id _ _ _ _ _ _ _ _ _ _ _ | OpenTcp id _ _ => Some id
  | _ => None
  end.

Section thread_steps.
Context (s : owner).

(** The thread goes on at [t] after leaving the broker as [b]. *)
Definition goto (t : thread) (b : broker) : option effect :=
  Some (mk_effect b (run s) (Some t) [] []).

(** The thread returns. *)
Definition finish (b : broker) : option effect := Some (mk_effect b (run s) None [] []).

(** [handle_broker_client] returns, dropping its [PendingConnection]. *)
Definition leave (b : broker) : option effect := finish (drop_pending_connection b).

(** What a client's request is answered with. *)
Definition first_step (tid : N) (first : message) (i : input) : option effect :=
  let b := st s in
  match first with
  | AddForward id lh lp gh gp =>
      match i with
      | IBind bind =>
          let (b', r) := add_user_forward bind (mk_forward lh lp gh gp) b in
          let reply := match r with None => ForwardAdded id | Some e => ErrorMsg id e end in
          Some (mk_effect b' (run s) (Some (CReply reply)) (new_listeners b b') [])
      | _ => None
      end
  | KeepRunning id =>
      match unless_stopping (fun b => (keep_running b, tt)) b with
      | (b', inl (Some _)) => goto (CReply (KeepingRunning id)) b'
      | (b', inl None) => goto (CReply (ErrorMsg id OWNER_STOPPING_NOT_STARTED)) b'
      | (b', inr _) => leave b'
      end
  | Checkpoint id request =>
      match parse_spec request with
      | None => leave b
      | Some spec =>
          match unless_stopping (fun b => (b, negb (worker_gone s))) b with
          | (b', inl (Some true)) =>
              Some (mk_effect b' (run s) (Some (CAwait id)) [] [CheckpointJob tid spec])
          | (b', inl (Some false)) => leave b'
          | (b', inl None) => goto (CReply (ErrorMsg id OWNER_STOPPING)) b'
          | (b', inr _) => leave b'
          end
      end
  | OpenExec id _ _ _ _ _ _ _ _ _ _ _ | OpenTcp id _ _ =>
      let open prepare :=
        match open_channel run_mark_dirty id (mk_channel tid true) first prepare b (run s) with
        | None => None
        | Some (b', d', inl Opened) => Some (mk_effect b' d' (Some (COpened id)) [] [])
        | Some (b', d', inl Stopping) =>
            Some (mk_effect b' d' (Some (CReply (ErrorMsg id OWNER_STOPPING_NOT_STARTED))) [] [])
        | Some (b', d', inl Collision) =>
            Some (mk_effect b' d' (Some (CReply (ErrorMsg id (CHANNEL_COLLISION id)))) [] [])
        | Some (b', d', inr _) => Some (mk_effect (drop_pending_connection b') d' None [] [])
        end in
      match first, i with
      | OpenExec _ _ _ _ _ _ _ _ _ _ _ _, IPanic =>
          if poisoned b || stopping b || bool_decide (is_Some (channels b !! id)) then None
          else leave (set_poisoned b)
      | OpenExec _ _ _ _ _ _ _ _ _ _ _ _, IPrepare prepare => open prepare
      | OpenTcp _ _ _, IOk => open None
      | _, _ => None
      end
  | _ => leave b
  end.

(** The end of [handle_broker_client], with the client's channel open. *)
Definition serve_step (t : thread) (i : input) : option effect :=
  let b := st s in
  match t, i with
  | COpened id, _ => goto (CClone id) (drop_pending_connection b)
  | CClone id, IOk => goto (CServing id) b
  | CClone _, IFail _ => finish b
  | CServing id, IMsg m =>
      match send_to_agent m b with
      | (b', inl true) => goto (CServing id) b'
      | (b', inl false) => finish b'
      | (b', inr _) => goto (CClose id) b'
      end
  | CServing id, IFail _ => finish (send_to_agent_on id (Close id) b).1
  | CClose id, _ => let (b', counted) := remove_channel id b in goto (CRelease counted) b'
  | CRelease counted, _ => finish (if counted then set_active (fetch_sub 1) b else b)
  | _, _ => None
  end.

(** [handle_broker_client]: the greeting, the request, and what follows it. *)
Definition client_step (tid : N) (t : thread) (i : input) : option effect :=
  let b := st s in
  match t, i with
  | CHello, IMsg (Hello version) =>
      if (version =? PROTOCOL_VERSION)%N then goto CRequest b else leave b
  | CHello, (IMsg _ | IFail _) => leave b
  | CRequest, IMsg first => goto (CFirst first) b
  | CRequest, IFail _ => leave b
  | CFirst first, _ => first_step tid first i
  | CAwait _, IFail _ => if worker_gone s then leave b else None
  | CReply _, _ => leave b
  | _, _ => serve_step t i
  end.

(** The threads of [start_forward_listener] and [handle_forward_connection]. *)
Definition forward_step (tid : N) (t : thread) (i : input) : option effect :=
  let b := st s in
  match t, i with
  | LCheck f, _ => if stopping b then finish b else goto (LAccept f) b
  | LAccept f, IOk => Some (mk_effect b (run s) (Some (LCheck f)) [FStart f] [])
  | LAccept f, IWouldBlock => goto (LCheck f) b
  | LAccept _, IFail _ => finish b
  | FStart f, _ => if stopping b then finish b else goto (FHold f) b
  | FHold f, _ => goto (FOpen f) (hold_awake b)
  | FOpen f, IId id =>
      match open_channel run_mark_dirty id (mk_channel tid false)
              (OpenTcp id (guest_host f) (guest_port f)) None b (run s) with
      | None => None
      | Some (b', d', inl Opened) => Some (mk_effect b' d' (Some (FClone id)) [] [])
      | Some (b', d', _) => Some (mk_effect b' d' (Some FDrop) [] [])
      end
  | FOpen _, IFail _ => goto FDrop b
  | FClone id, IOk => Some (mk_effect b (run s) (Some (FPump id)) [FInput id] [])
  | FClone _, IFail _ => goto FDrop b
  | FPump id, _ => goto (FClosing id) b
  | FClosing id, _ => goto (FRemove id) (send_to_agent_on id (Close id) b).1
  | FRemove id, _ => let (b', counted) := remove_channel id b in goto (FRelease counted) b'
  | FRelease counted, _ => goto FLinger (if counted then set_active (fetch_sub 1) b else b)
  | FLinger, _ => goto FDrop (keep_awake_for FORWARD_LINGER (now s) b)
  | FDrop, _ => finish (drop_activity_guard b)
  | FInput id, _ => if stopping b then finish b else goto (FRead id) b
  | FRead id, IEof => finish (send_to_agent_on id (Eof id) b).1
  | FRead id, IData d =>
      match send_to_agent_on id (Data id d) b with
      | (b', true) => goto (FInput id) b'
      | (b', false) => finish b'
      end
  | FRead id, IWouldBlock => goto (FInput id) b
  | FRead id, IFail _ => finish (send_to_agent_on id (Close id) b).1
  | _, _ => None
  end.

(** Where the reader goes with a message from the agent. *)
Definition read_step (m : message) : option effect :=
  let b := st s in
  match m with
  | SnapshotExitMsg id =>
      Some (mk_effect b (run s) (Some RRead) [] (if worker_gone s then [] else [SnapshotExitJob id]))
  | OpenUrl id url => goto (if stopping b then RRead else RUrl id url) b
  | PortListeners ports =>
      goto (if stopping b then RRead else RPorts (filter (fun p => (1024 < p)%N) ports)) b
  | Data id _ | Stderr id _ | Eof id | ExitStatus id _ | Close id | ErrorMsg id _ =>
      goto (RDeliver id m) b
  | _ => goto RRead b
  end.

Definition AGENT_DISCONNECTED : string := "guest agent disconnected before command completed: ".

(** [run_agent_reader] *)
Definition reader_step (t : thread) (i : input) : option effect :=
  let b := st s in
  match t, i with
  | RRead, IMsg m => read_step m
  | RRead, IFail e => goto (RFail e) b
  | RUrl id url, IUrl bind ok =>
      let b' :=
        match localhost_url_forward url with
        | Some (host, port) => (ensure_auto_forward_port bind host port b).1
        | None => b
        end in
      Some (mk_effect b' (run s) (Some (RUrlReply id ok)) (new_listeners b b') [])
  | RUrlReply id ok, _ => goto RRead (send_to_agent (OpenUrlResult id ok) b).1
  | RPorts [], _ => goto RRead b
  | RPorts (port :: ports), IBind bind =>
      let b' := (ensure_auto_forward_port bind "127.0.0.1" port b).1 in
      Some (mk_effect b' (run s) (Some (RPorts ports)) (new_listeners b b') [])
  | RDeliver id m, _ => goto (RSend (lookup_channel id b) id m) b
  | RSend channel id m, _ =>
      let b' := match channel with Some c => client_send [(tx c, m)] b | None => b end in
      goto (if is_close m then RClose id else RRead) b'
  | RClose id, _ => let (b', counted) := remove_channel id b in goto (RRelease counted) b'
  | RRelease counted, _ => goto RRead (if counted then set_active (fetch_sub 1) b else b)
  | RFail e, _ => goto (if snapshot_started s then RDrain None else RMark e) b
  | RMark e, _ => goto (RDrain (Some (AGENT_DISCONNECTED +:+ e))) b
  | RDrain error, _ => finish (drain error b).1
  | _, _ => None
  end.

Definition thread_step (tid : N) (t : thread) (i : input) : option effect :=
  match t with
  | CHello | CRequest | CFirst _ | CAwait _ | CReply _ | COpened _ | CClone _ | CServing _
  | CClose _ | CRelease _ => client_step tid t i
  | LCheck _ | LAccept _ | FStart _ | FHold _ | FOpen _ | FClone _ | FPump _ | FClosing _
  | FRemove _ | FRelease _ | FLinger | FDrop | FInput _ | FRead _ => forward_step tid t i
  | _ => reader_step t i
  end.

End thread_steps.

(** ** The owner's own thread *)

(** The state with some of its parts replaced. *)
Definition with_loop (l : loop_at) (s : owner) : owner :=
  mk_owner (st s) (run s) (threads s) (next_thread s) l (jobs s) (worker s)
    (snapshot_started s) (agent_failed s) (now s).

Definition with_broker (b : broker) (s : owner) : owner :=
  mk_owner b (run s) (threads s) (next_thread s) (loop s) (jobs s) (worker s)
    (snapshot_started s) (agent_failed s) (now s).

Definition with_run (d : D) (s : owner) : owner :=
  mk_owner (st s) d (threads s) (next_thread s) (loop s) (jobs s) (worker s)
    (snapshot_started s) (agent_failed s) (now s).

Definition with_jobs (l : list capture_job) (w : worker_at) (s : owner) : owner :=
  mk_owner (st s) (run s) (threads s) (next_thread s) (loop s) l w
    (snapshot_started s) (agent_failed s) (now s).

Definition with_worker (w : worker_at) (s : owner) : owner := with_jobs (jobs s) w s.

Definition with_threads (m : gmap N thread) (s : owner) : owner :=
  mk_owner (st s) (run s) m (next_thread s) (loop s) (jobs s) (worker s)
    (snapshot_started s) (agent_failed s) (now s).

Definition with_flags (started failed : bool) (s : owner) : owner :=
  mk_owner (st s) (run s) (threads s) (next_thread s) (loop s) (jobs s) (worker s)
    started failed (now s).

Definition with_now (t : N) (s : owner) : owner :=
  mk_owner (st s) (run s) (threads s) (next_thread s) (loop s) (jobs s) (worker s)
    (snapshot_started s) (agent_failed s) t.

(** [thread::spawn] *)
Definition spawn (s : owner) (t : thread) : owner :=
  mk_owner (st s) (run s) (<[next_thread s := t]> (threads s)) (next_thread s + 1)%N (loop s)
    (jobs s) (worker s) (snapshot_started s) (agent_failed s) (now s).

(** The loop's decision, on what it read. *)
Definition decide_idle (deadline : option N) (busy pend seen : bool) (now : N) : loop_at :=
  if busy then OTop None
  else if seen then
    let deadline := default (now + idle_ttl)%N deadline in
    if (deadline <=? now)%N && negb pend then OStop Idle else OTop (Some deadline)
  else OTop deadline.

(** The end of [run_broker_owner], which starts the forwards the owner was
    given, and the thread it spawns: the accept loop, then the barrier, the
    end of the capture worker and the final snapshot. *)
Definition loop_step (i : input) (s : owner) : option owner :=
  let b := st s in
  match loop s, i with
  | OForwards [], _ => Some (with_loop (OTop None) s)
  | OForwards (f :: forwards), IBind bind =>
      let (b', r) := add_user_forward bind f b in
      let next := match r with None => OForwards forwards | Some _ => OEnd end in
      Some (foldl spawn (with_loop next (with_broker b' s)) (new_listeners b b'))
  | OTop _, ISignal =>
      Some (with_loop (OStop Signalled) (with_broker (begin_shutdown OWNER_STOPPING b).1 s))
  | OTop _, IOk => Some (spawn (with_broker (pending_connection b) s) CHello)
  | OTop deadline, IWouldBlock => Some (with_loop (OWouldBlock deadline) s)
  | OTop _, IFail _ => Some (with_loop (OStop AcceptFailed) s)
  | OWouldBlock deadline, _ =>
      Some (with_loop (if agent_failed s then OStop AgentFailed else OLinger deadline) s)
  | OLinger deadline, _ => Some (with_loop (OAwait deadline (ahead (now s) (awake_until b))) s)
  | OAwait deadline lingering, _ =>
      Some (with_loop (OActive deadline lingering (ahead (now s) (first_client_deadline b))) s)
  | OActive deadline lingering awaiting, _ =>
      Some (with_loop (OKept deadline ((0 <? active b)%N || lingering) awaiting) s)
  | OKept deadline busy awaiting, _ =>
      Some (with_loop (OPending deadline (busy || kept_running b) awaiting) s)
  | OPending deadline busy awaiting, _ =>
      Some (with_loop (ODecide deadline busy ((0 <? pending b)%N || awaiting)) s)
  | ODecide deadline busy pend, _ =>
      Some (with_loop (decide_idle deadline busy pend (seen_active b) (now s)) s)
  | OStop _, _ => Some (with_loop OFinish (with_broker (begin_shutdown OWNER_STOPPING b).1 s))
  | OFinish, _ => Some (with_loop OJoin (with_jobs (jobs s ++ [Finish]) (worker s) s))
  | OJoin, _ =>
      if worker_gone s then Some (with_loop (if agent_failed s then OEnd else OStarted) s) else None
  | OStarted, _ => Some (with_loop OReady (with_flags true (agent_failed s) s))
  | OReady, _ => Some (with_loop OFinal (with_broker (agent_send [SnapshotReady] b) s))
  | OFinal, _ =>
      match run_final (run s) with
      | None => None
      | Some (d, _) => Some (with_loop OEnd (with_run d s))
      end
  | _, _ => None
  end.

(** ** The capture worker *)

Definition SNAPSHOT_EXIT_FAILED : string := "snapshot-exit failed: ".

(** Where the worker goes with what a capture gave. *)
Definition after_capture (job : capture_job) (result : string + string) : worker_at :=
  match job, result with
  | CheckpointJob client spec, inl id => WRecord client spec id
  | CheckpointJob client _, inr e => WReply client (Some e)
  | SnapshotExitJob channel_id, inl id => WAdvance channel_id id
  | SnapshotExitJob channel_id, inr e => WAnswer (ErrorMsg channel_id (SNAPSHOT_EXIT_FAILED +:+ e))
  | Finish, _ => WRecv
  end.

(** What a waiting client does with the worker's reply. *)
Definition answer (error : option string) (t : thread) : thread :=
  match t, error with
  | CAwait id, None => CReply (CheckpointCreated id)
  | CAwait id, Some e => CReply (ErrorMsg id e)
  | _, _ => t
  end.

(** [CaptureWorker] running [Capturer]'s jobs in order. *)
Definition worker_step (i : input) (s : owner) : option owner :=
  match worker s, i with
  | WRecv, _ =>
      match jobs s with
      | [] => None
      | Finish :: rest => Some (with_jobs rest WDone s)
      | job :: rest => Some (with_jobs rest (WCapture job) s)
      end
  | WCapture job, _ =>
      let org := match job with CheckpointJob _ _ => CheckpointOrigin | _ => SnapshotExitOrigin end in
      '(d, result) ← run_capture org (run s);
      Some (with_worker (WClock job result) (with_run d s))
  | WClock job result, IClock nanos =>
      let s' := if sets_wall_clock then with_broker (agent_send [set_clock_now nanos] (st s)) s else s in
      Some (with_worker (after_capture job result) s')
  | WRecord client spec id, _ =>
      match spec_id spec with
      | None => Some (with_worker (WExport client spec id) s)
      | Some _ =>
          '(d, error) ← run_add_checkpoint spec id (run s);
          Some (with_worker (match error with
                             | None => WExport client spec id
                             | Some e => WReply client (Some e)
                             end) (with_run d s))
      end
  | WExport client spec id, _ =>
      match spec_export_to spec with
      | None => Some (with_worker (WReply client None) s)
      | Some dest =>
          '(d, error) ← run_export id dest (run s);
          Some (with_worker (WReply client error) (with_run d s))
      end
  | WReply client error, _ =>
      Some (with_worker WRecv (with_threads (alter (answer error) client (threads s)) s))
  | WAdvance channel_id id, _ =>
      '(d, error) ← run_advance id (run s);
      let reply :=
        match error with
        | None => CheckpointCreated channel_id
        | Some e => ErrorMsg channel_id (SNAPSHOT_EXIT_FAILED +:+ e)
        end in
      Some (with_worker (WAnswer reply) (with_run d s))
  | WAnswer reply, _ => Some (with_worker WRecv (with_broker (agent_send [reply] (st s)) s))
  | _, _ => None
  end.

(** ** The system *)

Inductive event :=
  | EThread (tid : N) (i : input)
  | ELoop (i : input)
  | EWorker (i : input)
  (** The agent's writer stops, and time passes. *)
  | EAgentGone
  | ETime (ms : N).

(** What a thread's step leaves, with itself gone on or returned. *)
Definition apply_effect (tid : N) (t : thread) (e : effect) (s : owner) : owner :=
  let threads' :=
    match e_next e with
    | Some t' => <[tid := t']> (threads s)
    | None => delete tid (threads s)
    end in
  let failed := match t with RMark _ => true | _ => agent_failed s end in
  foldl spawn
    (mk_owner (e_broker e) (e_run e) threads' (next_thread s) (loop s) (jobs s ++ e_jobs e)
       (worker s) (snapshot_started s) failed (now s))
    (e_spawn e).

Definition exec (e : event) (s : owner) : option owner :=
  match e with
  | EThread tid i =>
      t ← threads s !! tid;
      eff ← thread_step s tid t i;
      Some (apply_effect tid t eff s)
  | ELoop i => loop_step i s
  | EWorker i => worker_step i s
  | EAgentGone => Some (with_broker (set_agent_gone (st s)) s)
  | ETime ms => Some (with_now (now s + ms)%N s)
  end.

Fixpoint execs (l : list event) (s : owner) : option owner :=
  match l with
  | [] => Some s
  | e :: l' => s' ← exec e s; execs l' s'
  end.

(** An owner whose agent has just connected: only the reader runs. *)
Definition init (d : D) (starts_idle : bool) (forwards : list port_forward) (now : N) : owner :=
  mk_owner (new starts_idle now) d {[ 0%N := RRead ]} 1 (OForwards forwards) [] WRecv false false now.

(** The states of an owner that started with the run [d]. *)
Inductive reachable (d : D) : owner -> Prop :=
  | reachable_init starts_idle forwards now : reachable d (init d starts_idle forwards now)
  | reachable_exec s e s' : reachable d s -> exec e s = Some s' -> reachable d s'.

End owner.

Arguments owner D : clear implicits.
Arguments effect D : clear implicits.
