(* ===== verification/OwnerLogic.v ===== *)
(** * Invariants of a running VM owner

    How the owner's counters account for its threads and channels, what its
    stopping barrier keeps from the guest agent, and what its capture queue
    holds, as invariants of the transition system of [Owner.v]. *)

From Stdlib Require Import Lia.
From S2P Require Import Prelude Protocol Broker Owner.

(** ** Counters *)

Definition b2n (b : bool) : N := if b then 1 else 0.

(** The units of activity the open channels hold. *)
Definition counting (m : gmap N broker_channel) : N := map_sum (fun c => b2n (counts_as_active c)) m.

(** The counters of [b] account for its channels and for [K] units of activity
    and [P] pending connections held elsewhere. *)
Definition accounts (K P : N) (b : broker) : Prop :=
  active b = ((K + counting (channels b)) `mod` USIZE)%N /\ pending b = (P `mod` USIZE)%N.

Lemma fetch_add_mod n x : fetch_add n (x `mod` USIZE) = ((x + n) `mod` USIZE)%N.
Proof. apply N.Div0.add_mod_idemp_l. Qed.

Lemma fetch_sub_mod n x : fetch_sub n ((x + n) `mod` USIZE) = (x `mod` USIZE)%N.
Proof.
  unfold fetch_sub. rewrite N.Div0.add_mod_idemp_l.
  assert (USIZE <> 0)%N as HU by done. pose proof (N.mod_lt n USIZE HU).
  pose proof (N.div_mod n USIZE HU) as Hn.
  replace (x + n + (USIZE - n `mod` USIZE))%N with (x + (n / USIZE + 1) * USIZE)%N by lia.
  by rewrite N.Div0.mod_add.
Qed.

Lemma accounts_add K P b : accounts K P b -> accounts (K + 1) P (set_active (fetch_add 1) b).
Proof. intros [Ha Hp]. split; [|done]. simpl. rewrite Ha, fetch_add_mod. f_equal. lia. Qed.

Lemma accounts_sub K P b n : accounts (K + n) P b -> accounts K P (set_active (fetch_sub n) b).
Proof.
  intros [Ha Hp]. split; [|done]. simpl. rewrite Ha.
  replace (K + n + counting (channels b))%N with (K + counting (channels b) + n)%N by lia.
  apply fetch_sub_mod.
Qed.

Lemma accounts_release K P b (c : bool) :
  accounts (K + b2n c) P b -> accounts K P (if c then set_active (fetch_sub 1) b else b).
Proof. destruct c; [apply accounts_sub|]. simpl. by rewrite N.add_0_r. Qed.

Lemma accounts_pending K P b : accounts K P b -> accounts K (P + 1) (pending_connection b).
Proof. intros [Ha Hp]. split; [done|]. simpl. by rewrite Hp, fetch_add_mod. Qed.

Lemma accounts_drop_pending K P b : accounts K (P + 1) b -> accounts K P (drop_pending_connection b).
Proof. intros [Ha Hp]. split; [done|]. simpl. by rewrite Hp, fetch_sub_mod. Qed.

Lemma accounts_remove K P b id :
  accounts K P b -> accounts (K + b2n (remove_channel id b).2) P (remove_channel id b).1.
Proof.
  intros Hb. unfold remove_channel. destruct (poisoned b); simpl; [by rewrite N.add_0_r|].
  destruct (channels b !! id) as [c|] eqn:E; simpl; [|by rewrite N.add_0_r].
  destruct Hb as [Ha Hp]. split; [|done]. simpl. rewrite Ha. unfold counting.
  rewrite (map_sum_delete _ _ _ _ E). f_equal. lia.
Qed.

Lemma accounts_drain K P b e : accounts K P b -> accounts K P (drain_locked e b).1.
Proof.
  intros [Ha Hp]. unfold drain_locked. simpl.
  set (n := N.of_nat _). assert (n = counting (channels b)) as ->.
  { unfold n, counting. by apply map_sum_filter. }
  assert (accounts (K + counting (channels b)) P (set_channels (fun _ => ∅) b)) as Hb.
  { split; [|done]. simpl. unfold counting at 2. rewrite map_sum_empty, Ha. f_equal. lia. }
  destruct (N.ltb_spec 0 (counting (channels b))) as [_|Hz].
  - apply accounts_sub. by destruct e.
  - assert (counting (channels b) = 0)%N as Hz' by lia. rewrite Hz', N.add_0_r in Hb. by destruct e.
Qed.

Lemma accounts_shutdown K P b e : accounts K P b -> accounts K P (begin_shutdown e b).1.
Proof. intros Hb. unfold begin_shutdown. destruct (poisoned b); [done|]. by apply accounts_drain. Qed.

(** Opening a channel moves a unit of activity into the table, or none. *)
Lemma accounts_open {D : Type} (before : D -> option (D * option string)) id c m prep b d b' d' r K P :
  accounts K P b -> open_channel before id c m prep b d = Some (b', d', r) -> accounts K P b'.
Proof.
  intros [Ha Hp]. unfold open_channel. destruct (poisoned b); [by intros [= <- <- <-]|].
  destruct (stopping b); [by intros [= <- <- <-]|].
  destruct (channels b !! id) eqn:E; [by intros [= <- <- <-]|].
  destruct prep; [by intros [= <- <- <-]|].
  destruct (before d) as [[d1 [e|]]|]; [by intros [= <- <- <-]| |done].
  assert (Hadd : accounts K P (set_channels (insert id c)
    (clear_first_client_deadline (set_seen_active
      (if counts_as_active c then set_active (fetch_add 1) b else b))))).
  { split; [|by destruct (counts_as_active c)]. unfold counting.
    destruct (counts_as_active c) eqn:Ec; simpl; rewrite map_sum_insert, Ec, Ha by done; simpl.
    - rewrite fetch_add_mod. unfold counting. f_equal. lia.
    - done. }
  assert (agent_gone (if counts_as_active c then set_active (fetch_add 1) b else b) = agent_gone b) as Hg
    by by destruct (counts_as_active c).
  simpl. rewrite Hg. destruct (agent_gone b).
  - intros [= <- <- <-]. pose proof (accounts_release K P
      (set_channels (delete id) (set_channels (insert id c) (clear_first_client_deadline (set_seen_active
      (if counts_as_active c then set_active (fetch_add 1) b else b))))) (counts_as_active c)) as Hr.
    apply Hr. destruct Hadd as [Ha' Hp']. split; [|done]. simpl in *. rewrite Ha'. unfold counting.
    rewrite (map_sum_delete _ (<[id:=c]> _) id c) by by rewrite lookup_insert_eq.
    f_equal. lia.
  - intros [= <- <- <-]. done.
Qed.

(** ** What the other operations leave alone *)

Lemma send_to_agent_frame m b :
  (send_to_agent m b).1 = b \/
  (poisoned b = false /\ stopping b = false /\ (send_to_agent m b).1 = agent_send [m] b).
Proof.
  unfold send_to_agent, unless_stopping. destruct (poisoned b); [by left|].
  destruct (stopping b); [by left|]. right. by destruct (agent_gone b).
Qed.

Lemma send_to_agent_on_frame id m b :
  (send_to_agent_on id m b).1 = b \/
  (poisoned b = false /\ stopping b = false /\ (send_to_agent_on id m b).1 = agent_send [m] b).
Proof.
  unfold send_to_agent_on. destruct (poisoned b); [by left|].
  destruct (stopping b); [by left|]. simpl. case_bool_decide; [by right|by left].
Qed.

(** [b'] is [b] but for the tables of forwards. *)
Definition tables_only (b b' : broker) : Prop :=
  b' = mk_broker (channels b) (poisoned b) (stopping b) (active b) (pending b) (seen_active b)
         (kept_running b) (awake_until b) (first_client_deadline b) (auto_forward_ports b')
         (user_forwards b') (agent_queue b) (agent_gone b) (sent b) (listening b').

Lemma add_user_forward_tables bind f b : tables_only b (add_user_forward bind f b).1.
Proof.
  unfold add_user_forward, start_forward_listener, reserve_forward_port, tables_only.
  destruct b; simpl; repeat (case_match; simpl in *; simplify_eq); done.
Qed.

Lemma ensure_auto_forward_port_tables bind host port b :
  tables_only b (ensure_auto_forward_port bind host port b).1.
Proof.
  unfold ensure_auto_forward_port, start_forward_listener, tables_only.
  destruct b; simpl; repeat (case_match; simpl in *; simplify_eq); done.
Qed.

(** The state an operation with a result leaves. *)
Lemma fst_of {A B : Type} (x : A * B) a b (P : A -> Prop) : P x.1 -> x = (a, b) -> P a.
Proof. by intros HP ->. Qed.

Lemma accounts_tables K P b b' : tables_only b b' -> accounts K P b -> accounts K P b'.
Proof. intros ->. done. Qed.

Lemma accounts_add_user_forward K P bind f b : accounts K P b -> accounts K P (add_user_forward bind f b).1.
Proof. apply accounts_tables, add_user_forward_tables. Qed.

Lemma accounts_ensure_auto K P bind h p b : accounts K P b -> accounts K P (ensure_auto_forward_port bind h p b).1.
Proof. apply accounts_tables, ensure_auto_forward_port_tables. Qed.

Lemma accounts_send_to_agent K P m b : accounts K P b -> accounts K P (send_to_agent m b).1.
Proof. intros Hb. by destruct (send_to_agent_frame m b) as [->|(_ & _ & ->)]. Qed.

Lemma accounts_send_to_agent_on K P id m b : accounts K P b -> accounts K P (send_to_agent_on id m b).1.
Proof. intros Hb. by destruct (send_to_agent_on_frame id m b) as [->|(_ & _ & ->)]. Qed.

Lemma accounts_unless K P {A : Type} (f : broker -> broker * A) b :
  accounts K P (f b).1 -> accounts K P b -> accounts K P (unless_stopping f b).1.
Proof.
  intros Hf Hb. unfold unless_stopping. destruct (poisoned b); [done|]. destruct (stopping b); [done|].
  by destruct (f b).
Qed.

Lemma accounts_hold K P b : accounts K P b -> accounts (K + 1) P (hold_awake b).
Proof. apply accounts_add. Qed.

Lemma accounts_drain_all K P e b : accounts K P b -> accounts K P (drain e b).1.
Proof. intros Hb. unfold drain. destruct (poisoned b); [done|]. by apply accounts_drain. Qed.

Create HintDb accounts.
#[export] Hint Resolve accounts_add_user_forward accounts_ensure_auto accounts_send_to_agent
  accounts_send_to_agent_on accounts_drop_pending accounts_pending accounts_shutdown accounts_drain
  accounts_release accounts_add accounts_sub accounts_hold accounts_drain_all : accounts.

(** Goes through the branches of a step. *)
Ltac step_cases H :=
  repeat (unfold read_step, leave, finish, goto in *; simplify_eq/=; try case_match); simplify_eq/=.

(** The counters after the operation a step ends with, from [Hb] before it. *)
Ltac accounts_tac Hb :=
  rewrite ?N.add_assoc, ?N.add_0_r in Hb; rewrite ?N.add_0_r; try exact Hb; try apply accounts_drop_pending;
  try match goal with
  | Ho : open_channel _ _ _ _ _ _ _ = Some _ |- _ => exact (accounts_open _ _ _ _ _ _ _ _ _ _ _ _ Hb Ho)
  | Ho : remove_channel ?id ?b = (?b', ?c) |- accounts _ ?P ?b' =>
      pose proof (accounts_remove _ _ _ id Hb) as Hr; rewrite Ho in Hr; simpl in Hr;
      rewrite ?N.add_assoc; exact Hr
  | Ho : ?x = (?b, _) |- accounts ?K ?P ?b =>
      refine (fst_of x _ _ (accounts K P) _ Ho); try apply accounts_unless
  end; eauto with accounts.

(** ** The stopping barrier *)

(** What no thread but the owner's may do to the broker: it leaves [stopping]
    alone, and once that is set sends the agent nothing and opens nothing. *)
Definition guarded (b b' : broker) : Prop :=
  stopping b' = stopping b /\ (poisoned b = true -> poisoned b' = true) /\
  (stopping b = true ->
     agent_queue b' = agent_queue b /\ (channels b = ∅ -> channels b' = ∅)).

Lemma guarded_send_to_agent m b : guarded b (send_to_agent m b).1.
Proof. destruct (send_to_agent_frame m b) as [->|(_ & Hs & ->)]; split_and!; by rewrite ?Hs. Qed.

Lemma guarded_send_to_agent_on id m b : guarded b (send_to_agent_on id m b).1.
Proof. destruct (send_to_agent_on_frame id m b) as [->|(_ & Hs & ->)]; split_and!; by rewrite ?Hs. Qed.

Lemma guarded_tables b b' : tables_only b b' -> guarded b b'.
Proof. intros ->. done. Qed.

Lemma guarded_unless {A : Type} (f : broker -> broker * A) b :
  guarded b (f b).1 -> guarded b (unless_stopping f b).1.
Proof.
  intros Hf. unfold unless_stopping. destruct (poisoned b); [done|]. destruct (stopping b); [done|].
  by destruct (f b).
Qed.

Lemma guarded_remove id b : guarded b (remove_channel id b).1.
Proof.
  unfold remove_channel. destruct (poisoned b); [done|]. destruct (channels b !! id) eqn:E; [|done].
  split_and!; [done|done|]. intros _. split; [done|]. intros Hc. by rewrite Hc in E.
Qed.

Lemma guarded_drain e b : guarded b (drain e b).1.
Proof.
  unfold drain. destruct (poisoned b) eqn:E; [done|]. unfold drain_locked. simpl.
  destruct (N.ltb _ _), e; split_and!; simpl; congruence || done.
Qed.

Lemma guarded_open {D : Type} (before : D -> option (D * option string)) id c m prep b d b' d' r :
  open_channel before id c m prep b d = Some (b', d', r) -> guarded b b'.
Proof.
  unfold open_channel. destruct (poisoned b) eqn:Ep; [by intros [= <- <- <-]|].
  destruct (stopping b) eqn:Es; [by intros [= <- <- <-]|].
  intros Ho. assert (stopping b' = false) as Es'.
  { repeat (case_match; simplify_eq/=); done. }
  split_and!; congruence.
Qed.

Lemma guarded_drop_pending b b' : guarded b b' -> guarded b (drop_pending_connection b').
Proof. done. Qed.

Lemma guarded_release b b' (c : bool) :
  guarded b b' -> guarded b (if c then set_active (fetch_sub 1) b' else b').
Proof. by destruct c. Qed.

(** What the operation a step ends with does to the barrier. *)
Ltac guarded_tac :=
  try done; try apply guarded_drop_pending; try apply guarded_release;
  try match goal with
  | Ho : open_channel _ _ _ _ _ _ _ = Some _ |- _ => exact (guarded_open _ _ _ _ _ _ _ _ _ _ Ho)
  | Ho : ?x = (?b', _) |- guarded ?b ?b' => refine (fst_of x _ _ (guarded b) _ Ho); try apply guarded_unless
  end;
  auto using guarded_send_to_agent, guarded_send_to_agent_on, guarded_tables, add_user_forward_tables,
    ensure_auto_forward_port_tables, guarded_remove, guarded_drain; try done.

(** What closing the barrier sends. *)
Lemma shutdown_sends e b id c :
  poisoned b = false -> channels b !! id = Some c ->
  (tx c, ErrorMsg id e) ∈ sent (begin_shutdown e b).1 /\
  (agent_gone b = false -> Close id ∈ agent_queue (begin_shutdown e b).1) /\
  channels (begin_shutdown e b).1 = ∅.
Proof.
  intros Hp Hc. apply elem_of_map_to_list in Hc. unfold begin_shutdown, drain_locked. rewrite Hp. simpl.
  assert ((tx c, ErrorMsg id e) ∈ (fun kc => (tx kc.2, ErrorMsg kc.1 e)) <$> map_to_list (channels b)) as Ht
    by (apply list_elem_of_fmap; by exists (id, c)).
  assert (Close id ∈ (fun kc => Close kc.1) <$> map_to_list (channels b)) as Hk
    by (apply list_elem_of_fmap; by exists (id, c)).
  destruct (N.ltb _ _); simpl; (split_and!; [apply elem_of_app; by right| |done]);
    intros ->; apply elem_of_app; by right.
Qed.

Lemma add_user_forward_fields bind f b b' r :
  add_user_forward bind f b = (b', r) ->
  stopping b' = stopping b /\ poisoned b' = poisoned b /\ channels b' = channels b /\
  agent_queue b' = agent_queue b.
Proof.
  intros Ho. pose proof (add_user_forward_tables bind f b) as Ht. rewrite Ho in Ht. simpl in Ht.
  by rewrite Ht.
Qed.

(** ** Threads *)

(** The units of activity and the pending connections a thread holds. *)
Definition active_units (t : thread) : N :=
  match t with
  | FOpen _ | FClone _ | FPump _ | FClosing _ | FRemove _ | FLinger | FDrop => 1
  | FRelease counted => 1 + b2n counted
  | CRelease counted | RRelease counted => b2n counted
  | _ => 0
  end.

Definition pending_units (t : thread) : N :=
  match t with
  | CHello | CRequest | CFirst _ | CAwait _ | CReply _ | COpened _ => 1
  | _ => 0
  end.

Definition units_of (f : thread -> N) (t : option thread) : N :=
  match t with Some t => f t | None => 0 end.

Section owner.
Context {D : Type} `{OwnedRun D}.
Context (parse_spec : string -> option checkpoint_spec) (idle_ttl : N) (sets_wall_clock : bool).

Abbreviation thread_step := (thread_step parse_spec).
Abbreviation exec := (exec parse_spec idle_ttl sets_wall_clock).
Abbreviation reachable := (reachable parse_spec idle_ttl sets_wall_clock).

(** What one step of a thread does to the counters. *)
Definition balanced (t : thread) (b : broker) (e : effect D) : Prop :=
  forall K P, accounts (K + active_units t) (P + pending_units t) b ->
  accounts (K + units_of active_units (e_next e)) (P + units_of pending_units (e_next e)) (e_broker e).

Lemma first_step_balanced (s : owner D) tid first i e :
  first_step parse_spec s tid first i = Some e -> balanced (CFirst first) (st s) e.
Proof.
  intros He K P Hb. destruct first; simpl in Hb, He; step_cases He; accounts_tac Hb.
Qed.

Lemma client_step_balanced (s : owner D) tid t i e :
  client_step parse_spec s tid t i = Some e -> balanced t (st s) e.
Proof.
  destruct t; try done.
  3: apply first_step_balanced.
  all: intros He K P Hb; simpl in Hb, He; step_cases He; accounts_tac Hb.
Qed.

Lemma forward_step_balanced (s : owner D) tid t i e :
  forward_step s tid t i = Some e -> balanced t (st s) e.
Proof.
  destruct t; try done.
  all: intros He K P Hb; simpl in Hb, He; step_cases He; accounts_tac Hb.
Qed.

Lemma reader_step_balanced (s : owner D) t i e :
  reader_step s t i = Some e -> balanced t (st s) e.
Proof.
  destruct t; try done.
  all: intros He K P Hb; simpl in Hb, He; step_cases He; accounts_tac Hb.
Qed.

Lemma thread_step_balanced (s : owner D) tid t i e :
  thread_step s tid t i = Some e -> balanced t (st s) e.
Proof.
  unfold Owner.thread_step. intros He.
  destruct t; first [by eapply client_step_balanced|by eapply forward_step_balanced
                    |by eapply reader_step_balanced].
Qed.

(** Threads start out holding nothing, but for the clients the owner accepts. *)
Definition holds_nothing (t : thread) : Prop := active_units t = 0%N /\ pending_units t = 0%N.

Lemma new_listeners_hold b b' : Forall holds_nothing (new_listeners b b').
Proof. unfold new_listeners. apply Forall_fmap, Forall_true. done. Qed.

Lemma thread_step_spawns (s : owner D) tid t i e :
  thread_step s tid t i = Some e -> Forall holds_nothing (e_spawn e).
Proof.
  destruct t; simpl; intros He; [| |destruct first; simpl in He|..].
  all: step_cases He; auto using new_listeners_hold.
  all: by repeat constructor.
Qed.

(** The counters of an owner account for its channels and its threads. *)
Definition accounted (s : owner D) : Prop :=
  accounts (map_sum active_units (threads s)) (map_sum pending_units (threads s)) (st s) /\
  forall tid, (next_thread s <= tid)%N -> threads s !! tid = None.

Lemma accounted_spawn s t K P :
  accounts (K + active_units t) (P + pending_units t) (st s) ->
  K = map_sum active_units (threads s) -> P = map_sum pending_units (threads s) ->
  (forall tid, (next_thread s <= tid)%N -> threads s !! tid = None) -> accounted (spawn s t).
Proof.
  intros Hb -> -> Hn. split; simpl.
  - rewrite !map_sum_insert by (apply Hn; lia).
    rewrite (N.add_comm (active_units t)), (N.add_comm (pending_units t)). exact Hb.
  - intros tid Ht. rewrite lookup_insert_ne by lia. apply Hn. lia.
Qed.

Lemma accounted_spawns s l : accounted s -> Forall holds_nothing l -> accounted (foldl spawn s l).
Proof.
  intros Hs Hl. revert s Hs. induction Hl as [|t l [Ha Hp] _ IH]; intros s Hs; [exact Hs|].
  simpl. apply IH. destruct Hs as [Hb Hn].
  eapply accounted_spawn; [|reflexivity|reflexivity|exact Hn]. rewrite Ha, Hp, !N.add_0_r. exact Hb.
Qed.

Lemma accounted_thread tid i s s' : accounted s -> exec (EThread tid i) s = Some s' -> accounted s'.
Proof.
  intros [Hb Hn] He. simpl in He. destruct (threads s !! tid) as [t|] eqn:Et; [|done]. simpl in He.
  destruct (thread_step s tid t i) as [e|] eqn:Ee; [|done]. simplify_eq/=.
  apply accounted_spawns; [|by eapply thread_step_spawns]. split; simpl.
  - pose proof (thread_step_balanced _ _ _ _ _ Ee) as Hbal.
    rewrite !(map_sum_delete _ _ _ _ Et), (N.add_comm (active_units t)), (N.add_comm (pending_units t)) in Hb. apply Hbal in Hb.
    destruct (e_next e) as [t'|]; simpl in *; rewrite ?N.add_0_r in Hb; [|exact Hb].
    rewrite !map_sum_replace, (N.add_comm (active_units t')), (N.add_comm (pending_units t')). exact Hb.
  - intros tid' Ht'. assert (tid <> tid') by (intros ->; by rewrite Hn in Et).
    destruct (e_next e); [rewrite lookup_insert_ne by done|rewrite lookup_delete_ne by done]; by apply Hn.
Qed.

Lemma accounted_loop i s s' : accounted s -> exec (ELoop i) s = Some s' -> accounted s'.
Proof.
  intros [Hb Hn] He. simpl in He. unfold loop_step in He.
  destruct (loop s); destruct i; try done.
  all: repeat (simplify_eq/=; try case_match); simplify_eq/=.
  all: try (split; simpl; [auto with accounts|exact Hn]).
  all: try (apply accounted_spawns; [split; [simpl|exact Hn]; accounts_tac Hb|apply new_listeners_hold]).
  eapply accounted_spawn; [|reflexivity|reflexivity|exact Hn]. simpl.
  rewrite N.add_0_r. by apply accounts_pending.
Qed.

Lemma answer_units e t :
  active_units (answer e t) = active_units t /\ pending_units (answer e t) = pending_units t.
Proof. by destruct t, e. Qed.

Lemma accounted_worker i s s' : accounted s -> exec (EWorker i) s = Some s' -> accounted s'.
Proof.
  intros [Hb Hn] He. simpl in He. unfold worker_step in He.
  destruct (worker s); try done.
  all: repeat (simplify_option_eq; try case_match); simplify_eq/=.
  all: try (split; simpl; [exact Hb|exact Hn]).
  split; simpl.
  - rewrite !map_sum_alter by (intros; apply answer_units). exact Hb.
  - intros tid Ht. rewrite lookup_alter_None. by apply Hn.
Qed.

Lemma accounted_exec e s s' : accounted s -> exec e s = Some s' -> accounted s'.
Proof.
  destruct e; [apply accounted_thread|apply accounted_loop|apply accounted_worker|..].
  all: intros Hs [= <-]; exact Hs.
Qed.

Lemma accounted_reachable d s : reachable d s -> accounted s.
Proof.
  induction 1 as [idle fs n|s e s' _ IH He]; [|by eapply accounted_exec].
  split; simpl.
  - by rewrite <- insert_empty, !map_sum_insert, !map_sum_empty by apply lookup_empty.
  - intros tid Ht. rewrite lookup_singleton_ne by lia. done.
Qed.

Lemma thread_step_guarded (s : owner D) tid t i e :
  thread_step s tid t i = Some e -> guarded (st s) (e_broker e).
Proof.
  destruct t; simpl; intros He; [| |destruct first; simpl in He|..].
  all: step_cases He; guarded_tac.
Qed.

Lemma spawns_fields (s : owner D) l :
  st (foldl spawn s l) = st s /\ loop (foldl spawn s l) = loop s /\
  worker (foldl spawn s l) = worker s /\ jobs (foldl spawn s l) = jobs s /\
  run (foldl spawn s l) = run s.
Proof. revert s. induction l as [|t l IH]; intros s; [done|]. simpl. apply (IH (spawn s t)). Qed.

Lemma worker_gone_done (s : owner D) : worker_gone s = true -> worker s = WDone.
Proof. unfold worker_gone. by destruct (worker s). Qed.

End owner.

(** Goes through the steps of the owner's own thread. *)
Ltac loop_cases s He :=
  simpl in He; unfold loop_step, decide_idle in He;
  destruct (loop s) eqn:El;
  repeat (simplify_eq/=; try case_match); simplify_eq/=;
  repeat match goal with
  | |- context [foldl spawn ?x ?l] =>
      let Hf := fresh in pose proof (spawns_fields x l) as Hf; revert Hf;
      generalize (foldl spawn x l); intros ? (Est & Elo & Ewo & Ejo & Eru); simpl in *;
      rewrite ?Est, ?Elo, ?Ewo, ?Ejo, ?Eru
  | Hf : add_user_forward _ _ _ = _ |- _ =>
      apply add_user_forward_fields in Hf as (Eso & Epo & Ech & Eaq)
  | Hw : worker_gone _ = true |- _ => apply worker_gone_done in Hw
  end.

Section barrier.
Context {D : Type} `{OwnedRun D}.
Context (parse_spec : string -> option checkpoint_spec) (idle_ttl : N) (sets_wall_clock : bool).

Abbreviation thread_step := (thread_step parse_spec).
Abbreviation exec := (exec parse_spec idle_ttl sets_wall_clock).
Abbreviation reachable := (reachable parse_spec idle_ttl sets_wall_clock).

(** The messages the owner itself sends the agent. *)
Definition owner_message (m : message) : bool :=
  match m with
  | SetClock _ | CheckpointCreated _ | ErrorMsg _ _ | SnapshotReady => true
  | _ => false
  end.

(** The loop is past the barrier; the capture worker has been joined; the
    final snapshot has been asked for. *)
Definition past_barrier (l : loop_at) : bool :=
  match l with
  | OStop Signalled | OFinish | OJoin | OStarted | OReady | OFinal => true
  | _ => false
  end.

Definition joined (l : loop_at) : bool :=
  match l with OStarted | OReady | OFinal => true | _ => false end.

Definition sealed (s : owner D) : Prop := worker s = WDone /\ (loop s = OFinal \/ loop s = OEnd).

Definition barred (s : owner D) : Prop :=
  (past_barrier (loop s) = true -> stopping (st s) = true) /\
  (joined (loop s) = true -> worker s = WDone) /\
  (stopping (st s) = true -> poisoned (st s) = false -> channels (st s) = ∅) /\
  (forall m, worker s = WAnswer m -> owner_message m = true).

(** What a step adds to the agent's queue once the barrier is closed. *)
Definition adds (s s' : owner D) : Prop :=
  stopping (st s') = true /\ exists q, agent_queue (st s') = agent_queue (st s) ++ q /\
  Forall (fun m => owner_message m = true) q /\ (sealed s -> q = [] /\ sealed s').

Lemma shutdown_barred e b :
  stopping (begin_shutdown e b).1 = true /\ poisoned (begin_shutdown e b).1 = poisoned b /\
  (poisoned b = false -> channels (begin_shutdown e b).1 = ∅) /\
  (channels b = ∅ \/ poisoned b = true -> agent_queue (begin_shutdown e b).1 = agent_queue b).
Proof.
  unfold begin_shutdown. destruct (poisoned b) eqn:Ep; [done|]. unfold drain_locked. simpl.
  destruct (N.ltb _ _); simpl; split_and!; try done.
  all: intros [-> | ?]; [|done]; rewrite map_to_list_empty; simpl; rewrite app_nil_r;
    by destruct (agent_gone b).
Qed.

(** What a thread's step leaves of the rest. *)
Lemma exec_thread tid i (s s' : owner D) :
  exec (EThread tid i) s = Some s' -> exists t e, threads s !! tid = Some t /\
    thread_step s tid t i = Some e /\ s' = apply_effect tid t e s /\
    st s' = e_broker e /\ loop s' = loop s /\ worker s' = worker s /\
    jobs s' = jobs s ++ e_jobs e /\ run s' = e_run e.
Proof.
  simpl. destruct (threads s !! tid) as [t|] eqn:Et; [|done]. simpl.
  destruct (thread_step s tid t i) as [e|] eqn:Ee; [|done]. intros [= <-]. exists t, e.
  unfold apply_effect. rewrite !(fun x => proj1 (spawns_fields x (e_spawn e))).
  destruct (spawns_fields (mk_owner (e_broker e) (e_run e)
    (match e_next e with Some t' => <[tid:=t']> (threads s) | None => delete tid (threads s) end)
    (next_thread s) (loop s) (jobs s ++ e_jobs e) (worker s) (snapshot_started s)
    (match t with RMark _ => true | _ => agent_failed s end) (now s)) (e_spawn e))
    as (_ & -> & -> & -> & ->). done.
Qed.

Lemma worker_step_frame i (s s' : owner D) :
  (forall m, worker s = WAnswer m -> owner_message m = true) ->
  exec (EWorker i) s = Some s' -> loop s' = loop s /\ stopping (st s') = stopping (st s) /\
    poisoned (st s') = poisoned (st s) /\ channels (st s') = channels (st s) /\ worker s <> WDone /\
    (forall m, worker s' = WAnswer m -> owner_message m = true) /\
    exists q, agent_queue (st s') = agent_queue (st s) ++ q /\ Forall (fun m => owner_message m = true) q.
Proof.
  intros Ha He. simpl in He. unfold worker_step, after_capture in He. destruct (worker s); try done.
  all: repeat (simplify_option_eq; try case_match); simplify_eq/=; split_and!; try done.
  all: try (by intros m [= <-]).
  all: try (exists []; split; [by rewrite app_nil_r|done]).
  all: eexists; (split; [done|]); repeat constructor; auto.
Qed.

Lemma barred_exec e s s' : barred s -> exec e s = Some s' -> barred s'.
Proof.
  intros (Hp & Hj & Hc & Ha) He. destruct e as [tid i|i|i| |].
  - apply exec_thread in He as (t & e & _ & Ee & _ & Hst & Hl & Hw & _).
    destruct (thread_step_guarded _ _ _ _ _ _ Ee) as (Hs & Hpo & Hg).
    unfold barred. rewrite Hl, Hw, Hst, Hs. split_and!; [done..| |done].
    intros Hst' Hpo'. apply (Hg Hst'), Hc; [done|].
    destruct (poisoned (st s)); [|done]. rewrite Hpo in Hpo' by done. done.
  - destruct (shutdown_barred OWNER_STOPPING (st s)) as (Hb1 & Hb2 & Hb3 & _).
    loop_cases s He; unfold barred; simpl; rewrite ?Est, ?Elo, ?Ewo, ?Eso, ?Epo, ?Ech, ?El, ?Hb2; simpl.
    all: split_and!; auto; try done.
  - destruct (worker_step_frame i s s' Ha He) as (Hl & Hs & Hpo & Hch & Hw & Ha' & _).
    unfold barred. rewrite Hl, Hs, Hpo, Hch. split_and!; auto. intros Hj'. by apply Hj in Hj'.
  - by simplify_eq/=.
  - by simplify_eq/=.
Qed.

Lemma barred_reachable d s : reachable d s -> barred s.
Proof.
  induction 1 as [idle fs n|s e s' _ IH He]; [|by eapply barred_exec]. by split_and!.
Qed.

Lemma adds_exec e s s' :
  barred s -> stopping (st s) = true -> exec e s = Some s' -> adds s s'.
Proof.
  intros (Hp & Hj & Hc & Ha) Hs He. destruct e as [tid i|i|i| |].
  - apply exec_thread in He as (t & e & _ & Ee & _ & Hst & Hl & Hw & _).
    destruct (thread_step_guarded _ _ _ _ _ _ Ee) as (Hs' & _ & Hg). destruct (Hg Hs) as [Hq _].
    unfold adds, sealed. rewrite Hst, Hl, Hw, Hs'. split; [done|]. exists [].
    by rewrite app_nil_r.
  - destruct (shutdown_barred OWNER_STOPPING (st s)) as (Hb1 & _ & _ & Hb4).
    assert (agent_queue (begin_shutdown OWNER_STOPPING (st s)).1 = agent_queue (st s)) as Hb5.
    { apply Hb4. destruct (poisoned (st s)); [by right|left]. by apply Hc. }
    loop_cases s He; unfold adds, sealed; simpl; rewrite ?Est, ?Elo, ?Ewo, ?Eso, ?Eaq, ?El; simpl.
    all: try (split; [done|]; exists []; rewrite ?app_nil_r; split_and!; [done|done|]).
    all: try (intros [Hd [? | ?]]; [done|]; done).
    all: try (intros [Hd [? | ?]]; tauto).
    split; [done|]. eexists (if agent_gone (st s) then [] else _). destruct (agent_gone (st s)).
    + rewrite app_nil_r. split_and!; [done..|]. by intros [_ [? | ?]].
    + split_and!; [done|by repeat constructor|]. by intros [_ [? | ?]].
  - destruct (worker_step_frame i s s' Ha He) as (Hl & Hs' & _ & _ & Hw & _ & q & Hq & Hf).
    split; [by rewrite Hs'|]. exists q. split_and!; [done..|]. by intros [? _].
  - simplify_eq/=. split; [done|]. exists []. by rewrite app_nil_r.
  - simplify_eq/=. split; [done|]. exists []. by rewrite app_nil_r.
Qed.

End barrier.
