(* ===== verification/OwnerDispatch.v ===== *)
(** * When a run's owner lets a client into the guest

    Two invariants of the transition system of [Owner.v] that concern the
    clients: the run is recorded as dirty before anything a client asks for can
    reach the guest, and every checkpoint the owner has accepted is answered
    before the final snapshot. *)

From Stdlib Require Import Lia.
From S2P Require Import Prelude Protocol Broker Owner OwnerLogic.

(** ** What reaches the guest *)

Definition is_open (m : message) : bool := match opens m with Some _ => true | None => false end.

(** A thread whose client may send the guest anything. *)
Definition served (t : thread) : bool :=
  match t with COpened _ | CClone _ | CServing _ => true | _ => false end.

(** The agent has been asked to open a channel. *)
Definition asked (q : list message) : Prop := existsb is_open q = true.

Lemma asked_app q q' : asked (q ++ q') <-> asked q \/ asked q'.
Proof. unfold asked. rewrite existsb_app, orb_true_iff. done. Qed.

Lemma asked_send l b : asked (agent_queue (agent_send l b)) -> asked (agent_queue b) \/ asked l.
Proof. simpl. destruct (agent_gone b); [by left|]. by rewrite asked_app. Qed.

Lemma asked_send_to_agent m b :
  asked (agent_queue (send_to_agent m b).1) -> asked (agent_queue b) \/ is_open m = true.
Proof.
  destruct (send_to_agent_frame m b) as [->|(_ & _ & ->)]; [by left|].
  intros [Ha|Ha]%asked_send; [by left|right]. unfold asked in Ha. simpl in Ha. by rewrite orb_false_r in Ha.
Qed.

Lemma asked_send_to_agent_on id m b :
  is_open m = false -> asked (agent_queue (send_to_agent_on id m b).1) -> asked (agent_queue b).
Proof.
  intros Hm. destruct (send_to_agent_on_frame id m b) as [->|(_ & _ & ->)]; [done|].
  intros [Ha|Ha]%asked_send; [done|]. unfold asked in Ha. simpl in Ha. by rewrite Hm in Ha.
Qed.

Lemma open_channel_asked {D : Type} (before : D -> option (D * option string)) id c m prep b d b' d' r :
  open_channel before id c m prep b d = Some (b', d', r) ->
  (d' = d \/ exists e, before d = Some (d', e)) /\
  (r = inl Opened -> before d = Some (d', None)) /\
  (r <> inl Opened -> agent_queue b' = agent_queue b).
Proof.
  unfold open_channel. intros Ho.
  repeat (case_match; simplify_eq/=); split_and!; eauto; done.
Qed.

Lemma remove_channel_queue id b : agent_queue (remove_channel id b).1 = agent_queue b.
Proof. unfold remove_channel. by repeat (case_match; simplify_eq/=). Qed.

Lemma drain_queue e b : agent_queue (drain e b).1 = agent_queue b.
Proof. unfold drain, drain_locked. by repeat (case_match; simplify_eq/=). Qed.

Lemma tables_queue b b' : tables_only b b' -> agent_queue b' = agent_queue b.
Proof. by intros ->. Qed.

Lemma unless_queue {A : Type} (f : broker -> broker * A) b :
  agent_queue (f b).1 = agent_queue b -> agent_queue (unless_stopping f b).1 = agent_queue b.
Proof. intros Hf. unfold unless_stopping. repeat case_match; by simplify_eq/=. Qed.

(** The queue an operation leaves, when it sends nothing that opens. *)
Ltac asked_tac :=
  match goal with
  | Ho : open_channel _ _ _ _ _ _ _ = Some (_, _, inl Opened) |- _ =>
      right; right; by apply open_channel_asked in Ho as (_ & Ho & _); apply Ho
  | Ho : open_channel _ _ _ _ _ _ _ = Some (?b, _, _), Ha : asked (agent_queue _) |- _ =>
      apply open_channel_asked in Ho as (_ & _ & Ho); simpl in Ha; rewrite Ho in Ha by done; tauto
  | Ho : ?x = (?b, _), Ha : asked (agent_queue ?b) |- _ =>
      right; left; revert Ha; refine (fst_of x _ _ (fun b => asked (agent_queue b) -> _) _ Ho)
  | Ha : asked _ |- _ => right; left; revert Ha
  end;
  rewrite ?unless_queue by done; rewrite ?remove_channel_queue, ?drain_queue,
    ?(tables_queue _ _ (add_user_forward_tables _ _ _)),
    ?(tables_queue _ _ (ensure_auto_forward_port_tables _ _ _ _));
  try done; try by apply asked_send_to_agent_on.

Section dispatch.
Context {D : Type} `{OwnedRun D}.
Context (parse_spec : string -> option checkpoint_spec) (idle_ttl : N) (sets_wall_clock : bool).

Abbreviation thread_step := (thread_step parse_spec).
Abbreviation exec := (exec parse_spec idle_ttl sets_wall_clock).
Abbreviation reachable := (reachable parse_spec idle_ttl sets_wall_clock).

(** What one step of a thread does to the run, and when it makes the guest
    see a client. *)
Lemma thread_step_run (s : owner D) tid t i e :
  thread_step s tid t i = Some e ->
  e_run e = run s \/ exists r, run_mark_dirty (run s) = Some (e_run e, r).
Proof.
  destruct t; simpl; intros He; [| |destruct first; simpl in He|..].
  all: step_cases He; try by left.
  all: match goal with
    | Ho : open_channel _ _ _ _ _ _ _ = Some _ |- _ => apply open_channel_asked in Ho as (? & _); done
    end.
Qed.

Definition dispatches (e : effect D) : Prop :=
  asked (agent_queue (e_broker e)) \/ (exists t, e_next e = Some t /\ served t = true).

Lemma thread_step_dispatches (s : owner D) tid t i e :
  thread_step s tid t i = Some e -> dispatches e ->
  served t = true \/ asked (agent_queue (st s)) \/ run_mark_dirty (run s) = Some (e_run e, None).
Proof.
  destruct t; simpl; intros He; [| |destruct first; simpl in He|..].
  all: step_cases He; try by left.
  all: intros [Ha|(t & Ht & Hs)]; simplify_eq/=; try tauto.
  all: try asked_tac.
  by intros [|]%asked_send_to_agent.
Qed.

Lemma thread_step_spawns_unserved (s : owner D) tid t i e :
  thread_step s tid t i = Some e -> Forall (fun t => served t = false) (e_spawn e).
Proof.
  destruct t; simpl; intros He; [| |destruct first; simpl in He|..].
  all: step_cases He; try by repeat constructor.
  all: unfold new_listeners; by apply Forall_fmap, Forall_true.
Qed.

Lemma spawns_lookup (s : owner D) l k t :
  threads (foldl spawn s l) !! k = Some t -> threads s !! k = Some t \/ t ∈ l.
Proof.
  revert s. induction l as [|t' l IH]; simpl; intros s Hk; [by left|].
  apply IH in Hk as [Hk|Hk]; [|right; by constructor]. simpl in Hk.
  apply lookup_insert_Some in Hk as [[_ <-]|[_ Hk]]; [right; constructor|by left].
Qed.

(** Some client's work may be in the guest. *)
Definition guest_used (s : owner D) : Prop :=
  asked (agent_queue (st s)) \/ exists tid t, threads s !! tid = Some t /\ served t = true.

Lemma guest_used_thread tid i s s' :
  exec (EThread tid i) s = Some s' -> guest_used s' ->
  guest_used s \/ run_mark_dirty (run s) = Some (run s', None).
Proof.
  intros He Hg. apply exec_thread in He as (t & e & Ht & Ee & -> & Hst & _ & _ & _ & ->).
  assert (dispatches e \/ guest_used s) as [Hd|Hu]; [| |by left].
  - destruct Hg as [Hq|(k & t' & Hk & Hs)]; [left; left; by rewrite <- Hst|].
    unfold apply_effect in Hk. apply spawns_lookup in Hk as [Hk|Hk].
    + simpl in Hk. destruct (e_next e) as [t1|] eqn:En.
      * apply lookup_insert_Some in Hk as [[_ ->]|[_ Hk]]; [left; right; eauto|right; right; eauto].
      * apply lookup_delete_Some in Hk as [_ Hk]. right; right; eauto.
    + pose proof (thread_step_spawns_unserved _ _ _ _ _ Ee) as Hf. rewrite Forall_forall in Hf.
      by rewrite Hf in Hs.
  - apply (thread_step_dispatches _ _ _ _ _ Ee) in Hd as [Hd|[Hd|Hd]]; [|left; by left|by right].
    left; right; eauto.
Qed.

(** The owner's thread and the worker put nobody's work in the guest. *)
Lemma shutdown_asked b :
  asked (agent_queue (begin_shutdown OWNER_STOPPING b).1) -> asked (agent_queue b).
Proof.
  unfold begin_shutdown, drain_locked. destruct (poisoned b); [done|]. simpl. intros Ha.
  assert (asked (agent_queue (agent_send ((fun kc => Close kc.1) <$> map_to_list (channels b)) b)))
    as [Ha'|Ha']%asked_send by (by destruct (N.ltb _ _)); [done|].
  unfold asked in Ha'. rewrite existsb_exists in Ha'. destruct Ha' as (m & Hm & Ho).
  apply list_elem_of_In, list_elem_of_fmap in Hm as (kc & -> & _). done.
Qed.

Lemma loop_threads i s s' k t :
  exec (ELoop i) s = Some s' -> threads s' !! k = Some t -> threads s !! k = Some t \/ served t = false.
Proof.
  intros He. simpl in He. unfold loop_step in He. destruct (loop s).
  all: repeat (simplify_eq/=; try case_match); simplify_eq/=; try (by left).
  all: try (intros [Hk|Hk]%spawns_lookup; [by left|right]; unfold new_listeners in Hk;
            by apply list_elem_of_fmap in Hk as (? & -> & _)).
  intros [[_ <-]|[_ Hk]]%lookup_insert_Some; [by right|by left].
Qed.

Lemma guest_used_loop i s s' : exec (ELoop i) s = Some s' -> guest_used s' -> guest_used s.
Proof.
  intros He [Ha|(k & t & Hk & Hs)].
  - left. revert Ha. pose proof (shutdown_asked (st s)) as Hb.
    loop_cases s He; rewrite ?Est, ?Eaq; try done.
    rewrite asked_app. by intros [|].
  - destruct (loop_threads _ _ _ _ _ He Hk) as [|Hf]; [right; eauto|by rewrite Hf in Hs].
Qed.

Lemma guest_used_worker i s s' :
  (forall m, worker s = WAnswer m -> owner_message m = true) ->
  exec (EWorker i) s = Some s' -> guest_used s' -> guest_used s.
Proof.
  intros Ha He [Hq|(k & t & Hk & Hs)].
  - destruct (worker_step_frame _ _ _ _ _ _ Ha He) as (_ & _ & _ & _ & _ & _ & q & Eq & Hf).
    left. rewrite Eq, asked_app in Hq. destruct Hq as [|Hq]; [done|].
    unfold asked in Hq. rewrite existsb_exists in Hq. destruct Hq as (m & Hm & Ho).
    rewrite Forall_forall in Hf. apply list_elem_of_In, Hf in Hm. by destruct m.
  - right. revert Hk. simpl in He. unfold worker_step in He. destruct (worker s); try done.
    all: repeat (simplify_option_eq; try case_match); simplify_eq/=; eauto.
    rewrite lookup_alter_Some. intros [(-> & t' & Ht' & ->)|[_ Hk]]; [|eauto].
    exists k, t'. split; [done|]. by destruct t', error.
Qed.

Definition awaits (t : thread) : bool := match t with CAwait _ => true | _ => false end.

Lemma thread_step_jobs (s : owner D) tid t i e :
  thread_step s tid t i = Some e ->
  Forall (fun t => awaits t = false) (e_spawn e) /\
  ((e_jobs e = [] /\ (forall t', e_next e = Some t' -> awaits t' = false)) \/
   (exists id, e_jobs e = [SnapshotExitJob id] /\ e_next e = Some RRead) \/
   (exists request spec, e_jobs e = [CheckpointJob tid spec] /\ parse_spec request = Some spec /\
      stopping (st s) = false /\ worker_gone s = false)).
Proof.
  destruct t; simpl; intros He; [| |destruct first; simpl in He|..].
  all: step_cases He; (split; [first [by repeat constructor|unfold new_listeners; by apply Forall_fmap, Forall_true]|]).
  all: try (left; split; [done|]; intros ? Hn; by simplify_eq).
  - right; right. unfold unless_stopping in *. repeat (case_match; simplify_eq/=).
    exists request, c. split_and!; [done..|]. by apply negb_true_iff.
  - right; left. by eexists.
Qed.

(** What the owner's thread does to the capture queue. *)
Lemma loop_jobs i (s s' : owner D) :
  exec (ELoop i) s = Some s' ->
  (jobs s' = jobs s \/ (loop s = OFinish /\ jobs s' = jobs s ++ [Finish])) /\ worker s' = worker s.
Proof. intros He. loop_cases s He; rewrite ?Ejo, ?Ewo; auto. Qed.

Context (valid dirty : D -> Prop) (exportable : path -> Prop) `{!OwnedRunLaws D valid dirty exportable}.

Definition spec_ok (spec : checkpoint_spec) : Prop :=
  forall dest, spec_export_to spec = Some dest -> exportable dest.

Context (Hspecs : forall request spec, parse_spec request = Some spec -> spec_ok spec).

(** The request the worker is at. *)
Definition worker_spec (w : worker_at) : option checkpoint_spec :=
  match w with
  | WCapture (CheckpointJob _ spec) | WClock (CheckpointJob _ spec) _ | WRecord _ spec _
  | WExport _ spec _ => Some spec
  | _ => None
  end.

(** The requests in hand export only where they may. *)
Definition specs_ok (s : owner D) : Prop :=
  (forall c spec, CheckpointJob c spec ∈ jobs s -> spec_ok spec) /\
  (forall spec, worker_spec (worker s) = Some spec -> spec_ok spec).

(** Unless the owner's thread has ended, the run is valid, and dirty if a
    client has used its guest. *)
Definition recorded (s : owner D) : Prop :=
  loop s <> OEnd -> valid (run s) /\ (guest_used s -> dirty (run s)).

Lemma specs_ok_thread tid i s s' : specs_ok s -> exec (EThread tid i) s = Some s' -> specs_ok s'.
Proof using Hspecs.
  intros [Hj Hw] He. apply exec_thread in He as (t & e & _ & Ee & _ & _ & _ & Hwo & Hjo & _).
  split; [|by rewrite Hwo]. rewrite Hjo. intros c spec [Hin|Hin]%elem_of_app; [by eapply Hj|].
  destruct (thread_step_jobs _ _ _ _ _ Ee) as (_ & [[Ej _]|[(id & Ej & _)|(r & sp & Ej & Hp & _)]]);
    rewrite Ej in Hin; [by apply not_elem_of_nil in Hin|by apply list_elem_of_singleton in Hin|].
  apply list_elem_of_singleton in Hin as [= -> ->]. by eapply Hspecs.
Qed.

Lemma specs_ok_loop i s s' : specs_ok s -> exec (ELoop i) s = Some s' -> specs_ok s'.
Proof.
  intros [Hj Hw] He. destruct (loop_jobs _ _ _ He) as [Hjo Hwo]. split; [|by rewrite Hwo].
  intros c spec. destruct Hjo as [->|[_ ->]]; [by apply Hj|].
  intros [Hin|Hin]%elem_of_app; [by eapply Hj|by apply list_elem_of_singleton in Hin].
Qed.

Lemma specs_ok_worker i s s' : specs_ok s -> exec (EWorker i) s = Some s' -> specs_ok s'.
Proof.
  intros [Hj Hw] He. simpl in He. unfold worker_step, after_capture in He. unfold specs_ok.
  destruct (worker s) eqn:Ew; try done.
  all: repeat (simplify_option_eq; try case_match); simplify_eq/=; (split; [|intros ? [= <-]]); try done.
  all: try (intros; by eapply Hj; try constructor).
  all: try by apply Hw.
Qed.

Lemma worker_keeps_run i s s' :
  specs_ok s -> valid (run s) -> exec (EWorker i) s = Some s' ->
  valid (run s') /\ (dirty (run s) -> dirty (run s')).
Proof using OwnedRunLaws0.
  intros [_ Hsp] Hv He. simpl in He. unfold worker_step in He. destruct (worker s) eqn:Ew; try done.
  all: repeat (simplify_option_eq; try case_match); simplify_eq/=; try done.
  all: first [by eapply capture_keeps|by eapply add_checkpoint_keeps|by eapply advance_keeps
             |idtac].
  eapply (export_keeps _ _ l); [by apply (Hsp _ eq_refl)|done..].
Qed.

Lemma loop_keeps_run i s s' :
  exec (ELoop i) s = Some s' -> loop s' <> OEnd -> loop s <> OEnd /\ run s' = run s.
Proof. intros He. loop_cases s He; try done; by rewrite ?Elo, ?Eru. Qed.

Lemma thread_keeps_run tid i s s' :
  valid (run s) -> exec (EThread tid i) s = Some s' ->
  valid (run s') /\ (dirty (run s) -> dirty (run s')) /\
  (run_mark_dirty (run s) = Some (run s', None) -> dirty (run s')).
Proof using OwnedRunLaws0.
  intros Hv He. pose proof He as (t & e & _ & Ee & _ & _ & _ & _ & _ & Er)%exec_thread. rewrite Er.
  split_and!.
  - destruct (thread_step_run _ _ _ _ _ Ee) as [->|[r Hm]]; [done|].
    by destruct (mark_dirty_dirty _ _ _ Hv Hm).
  - intros Hd. destruct (thread_step_run _ _ _ _ _ Ee) as [->|[r Hm]]; [done|].
    destruct (mark_dirty_dirty _ _ _ Hv Hm) as [_ Hk]. auto.
  - intros Hm. destruct (mark_dirty_dirty _ _ _ Hv Hm) as [_ Hk]. auto.
Qed.

Lemma recorded_exec e s s' : barred s -> specs_ok s -> recorded s -> exec e s = Some s' -> recorded s'.
Proof using Hspecs OwnedRunLaws0.
  intros (_ & _ & _ & Ha) Hsp Hr He Hl. destruct e as [tid i|i|i| |].
  - pose proof He as (t & e & _ & _ & _ & _ & El & _)%exec_thread. rewrite El in Hl.
    destruct (Hr Hl) as [Hv Hd]. destruct (thread_keeps_run _ _ _ _ Hv He) as (Hv' & Hk & Hm).
    split; [done|]. intros [Hu|Hu]%(guest_used_thread _ _ _ _ He); auto.
  - apply (loop_keeps_run _ _ _ He) in Hl as [Hl ->]. destruct (Hr Hl) as [Hv Hd]. split; [done|].
    intros Hu. by eapply Hd, guest_used_loop.
  - destruct (worker_step_frame _ _ _ _ _ _ Ha He) as (El & _). rewrite El in Hl.
    destruct (Hr Hl) as [Hv Hd]. destruct (worker_keeps_run _ _ _ Hsp Hv He) as [Hv' Hk].
    split; [done|]. intros Hu. by eapply Hk, Hd, guest_used_worker.
  - simplify_eq/=. by apply Hr.
  - simplify_eq/=. by apply Hr.
Qed.

Lemma specs_ok_exec e s s' : specs_ok s -> exec e s = Some s' -> specs_ok s'.
Proof using Hspecs.
  destruct e; [apply specs_ok_thread|apply specs_ok_loop|apply specs_ok_worker|..].
  all: intros Hs [= <-]; done.
Qed.

Lemma recorded_reachable d s : valid d -> reachable d s -> recorded s /\ specs_ok s.
Proof using Hspecs OwnedRunLaws0.
  intros Hv. induction 1 as [idle fs n|s e s' Hs [IH Hsp] He].
  - split.
    + split; [done|]. intros [Hq|(k & t & Hk & Ht)]; [done|].
      simpl in Hk. by apply lookup_singleton_Some in Hk as [_ <-].
    + split; [|done]. intros c spec Hin. by apply not_elem_of_nil in Hin.
  - split; [|by eapply specs_ok_exec]. eapply recorded_exec; [|done..]. by eapply barred_reachable.
Qed.

End dispatch.

(** ** Accepted checkpoints *)

Definition is_checkpoint (j : capture_job) : bool :=
  match j with CheckpointJob _ _ => true | _ => false end.

(** No checkpoint is queued behind the finish marker; [finished] says that it
    has been taken from the queue already. *)
Fixpoint ordered (finished : bool) (l : list capture_job) : bool :=
  match l with
  | [] => true
  | CheckpointJob _ _ :: l' => negb finished && ordered finished l'
  | SnapshotExitJob _ :: l' => ordered finished l'
  | Finish :: l' => ordered true l'
  end.

(** The client whose checkpoint the worker is at. *)
Definition serving (w : worker_at) : option N :=
  match w with
  | WCapture (CheckpointJob c _) | WClock (CheckpointJob c _) _ | WRecord c _ _ | WExport c _ _
  | WReply c _ => Some c
  | _ => None
  end.

Lemma ordered_snoc f l j :
  ordered f l = true -> (is_checkpoint j = true -> f = false /\ Finish ∉ l) -> ordered f (l ++ [j]) = true.
Proof.
  revert f. induction l as [|j' l IH]; simpl; intros f Hl Hj.
  - destruct j; try done. simpl. by destruct (Hj eq_refl) as [-> _].
  - assert (is_checkpoint j = true -> f = false /\ (Finish ∉ l) /\ j' <> Finish) as Hj'.
    { intros [-> Hn]%Hj. apply not_elem_of_cons in Hn as [Hn ?]. split_and!; congruence. }
    destruct j'; simpl in *.
    + apply andb_true_iff in Hl as [-> Hl]. apply IH; [done|]. intros (? & ? & _)%Hj'. done.
    + apply IH; [done|]. intros (? & ? & _)%Hj'. done.
    + apply IH; [done|]. intros (_ & _ & ?)%Hj'. done.
Qed.

Lemma ordered_finished l c spec : ordered true l = true -> CheckpointJob c spec ∉ l.
Proof.
  induction l as [|[] l IH]; simpl; intros Hl Hin; [by apply not_elem_of_nil in Hin|done|..];
    (apply elem_of_cons in Hin as [?|Hin]; [done|by apply IH]).
Qed.

Section captures.
Context {D : Type} `{OwnedRun D}.
Context (parse_spec : string -> option checkpoint_spec) (idle_ttl : N) (sets_wall_clock : bool).

Abbreviation thread_step := (thread_step parse_spec).
Abbreviation exec := (exec parse_spec idle_ttl sets_wall_clock).
Abbreviation reachable := (reachable parse_spec idle_ttl sets_wall_clock).

(** The client thread [tid] is owed an answer by the worker. *)
Definition waits (s : owner D) (tid : N) : Prop :=
  (exists spec, CheckpointJob tid spec ∈ jobs s) \/ serving (worker s) = Some tid.

Definition accepted (s : owner D) : Prop :=
  ordered (worker_gone s) (jobs s) = true /\
  (worker_gone s = true \/ Finish ∈ jobs s -> stopping (st s) = true) /\
  (forall tid id, threads s !! tid = Some (CAwait id) -> waits s tid).

Lemma accepted_thread tid i s s' : accepted s -> exec (EThread tid i) s = Some s' -> accepted s'.
Proof.
  intros (Ho & Hs & Hw) He.
  apply exec_thread in He as (t & e & Ht & Ee & -> & Hst & _ & Hwo & Hj & _).
  destruct (thread_step_guarded _ _ _ _ _ _ Ee) as (Hstop & _).
  destruct (thread_step_jobs _ _ _ _ _ _ Ee) as [Hsp Hjobs].
  assert (worker_gone (apply_effect tid t e s) = worker_gone s) as Hg by (unfold worker_gone; by rewrite Hwo).
  unfold accepted, waits. rewrite Hg, Hj, Hst, Hstop, Hwo. split_and!.
  - destruct Hjobs as [[-> _]|[(id & -> & _)|(r & spec & -> & _ & Hns & Hwg)]]; [by rewrite app_nil_r|..];
      apply ordered_snoc; try done.
    intros _. split; [done|]. intros Hf. rewrite Hs in Hns; [done|by right].
  - intros [Hf|Hf]; [by apply Hs; left|]. apply elem_of_app in Hf as [Hf|Hf]; [by apply Hs; right|].
    exfalso. destruct Hjobs as [[Ej _]|[(id & Ej & _)|(r & spec & Ej & _)]]; rewrite Ej in Hf;
      [by apply not_elem_of_nil in Hf|by apply list_elem_of_singleton in Hf..].
  - intros k id Hk. unfold apply_effect in Hk. apply spawns_lookup in Hk as [Hk|Hk].
    2: { rewrite Forall_forall in Hsp. by apply Hsp in Hk. }
    simpl in Hk. destruct (decide (k = tid)) as [->|Hne].
    + destruct (e_next e) as [t'|]; [|by rewrite lookup_delete_eq in Hk].
      rewrite lookup_insert_eq in Hk. simplify_eq.
      destruct Hjobs as [[_ Hn]|[(id' & _ & Hn)|(r & spec & -> & _)]]; [by specialize (Hn _ eq_refl)|done|].
      left. exists spec. apply elem_of_app. right. by apply list_elem_of_singleton.
    + assert (threads s !! k = Some (CAwait id)) as Hk'.
      { destruct (e_next e); [by rewrite lookup_insert_ne in Hk|by rewrite lookup_delete_ne in Hk]. }
      destruct (Hw _ _ Hk') as [[spec Hspec]|Hsv]; [left; exists spec; apply elem_of_app; by left|by right].
Qed.

Lemma accepted_loop i s s' : barred s -> accepted s -> exec (ELoop i) s = Some s' -> accepted s'.
Proof.
  intros (Hp & _) (Ho & Hs & Hw) He.
  destruct (loop_jobs _ _ _ _ _ _ He) as [Hj0 Ewk].
  assert (jobs s' = jobs s \/ (stopping (st s) = true /\ jobs s' = jobs s ++ [Finish])) as Hj.
  { destruct Hj0 as [Hj|[Hl Hj]]; [by left|right]. rewrite Hl in Hp. auto. }
  assert (stopping (st s) = true -> stopping (st s') = true) as Hst.
  { clear Hj Hj0 Ewk. destruct (shutdown_barred OWNER_STOPPING (st s)) as (Hb1 & _).
    loop_cases s He; rewrite ?Est, ?Eso; done. }
  assert (worker_gone s' = worker_gone s) as Hg by (unfold worker_gone; by rewrite Ewk).
  unfold accepted, waits. rewrite Hg, Ewk. split_and!.
  - destruct Hj as [->|[_ ->]]; [done|]. by apply ordered_snoc.
  - intros Hf. apply Hst. destruct Hj as [Hj|[? _]]; [|done]. rewrite Hj in Hf. by apply Hs.
  - intros tid id Hk. destruct (Hw tid id) as [[spec Hspec]|Hsv]; [|left; exists spec|by right].
    + revert Hk. clear -He. simpl in He. unfold loop_step in He. destruct (loop s).
      all: repeat (simplify_eq/=; try case_match); simplify_eq/=; try done.
      all: try (intros [Hk|Hk]%spawns_lookup; [done|]; unfold new_listeners in Hk;
                by apply list_elem_of_fmap in Hk as (? & ? & _)).
      by intros [[_ ?]|[_ Hk]]%lookup_insert_Some.
    + destruct Hj as [->|[_ ->]]; [done|]. apply elem_of_app. by left.
Qed.

Lemma accepted_worker i s s' : accepted s -> exec (EWorker i) s = Some s' -> accepted s'.
Proof.
  intros (Ho & Hs & Hw) He. simpl in He. unfold worker_step, after_capture, worker_gone in *.
  unfold accepted, waits, worker_gone in *. destruct (worker s) eqn:Ew; try done.
  all: repeat (simplify_option_eq; try case_match); simplify_eq/=.
  all: try (split_and!; [done..|]; intros tid id Hk; by apply (Hw tid id)).
  - split_and!; [done| |].
    + intros [|Hf]; [done|]. apply Hs. right. by constructor.
    + intros tid id [[spec' Hin]|]%Hw; [|done].
      apply elem_of_cons in Hin as [[= -> ->]|Hin]; [by right|left; by eexists].
  - split_and!; [done| |].
    + intros [|Hf]; [done|]. apply Hs. right. by constructor.
    + intros tid id [[spec' Hin]|]%Hw; [|done]. apply elem_of_cons in Hin as [|Hin]; [done|left; by eexists].
  - split_and!; [done| |].
    + intros _. apply Hs. right. by constructor.
    + intros tid id [[spec' Hin]|]%Hw; [|done]. apply elem_of_cons in Hin as [|Hin]; [done|left; by eexists].
  - split_and!; [done..|]. intros tid id Hk. apply lookup_alter_Some in Hk as [(-> & t & Ht & Hn)|[Hne Hk]].
    + by destruct t, error.
    + apply Hw in Hk as [|[= ->]]; [by left|done].
Qed.

Lemma accepted_reachable d s : reachable d s -> accepted s.
Proof.
  induction 1 as [idle fs n|s e s' Hs IH He].
  - split_and!; [done| |].
    + intros [|Hf]; [done|by apply not_elem_of_nil in Hf].
    + intros tid id Hk. simpl in Hk. by apply lookup_singleton_Some in Hk as [_ ?].
  - destruct e as [tid i|i|i| |].
    + by eapply accepted_thread.
    + eapply accepted_loop; [|done..]. by eapply barred_reachable.
    + by eapply accepted_worker.
    + by simplify_eq/=.
    + by simplify_eq/=.
Qed.

(** Once the worker has ended nobody waits for it. *)
Lemma nobody_waits s tid id : accepted s -> worker s = WDone -> threads s !! tid <> Some (CAwait id).
Proof.
  intros (Ho & _ & Hw) Hd Hk. unfold worker_gone in Ho. rewrite Hd in Ho.
  destruct (Hw _ _ Hk) as [[spec Hin]|Hsv]; [by eapply ordered_finished|by rewrite Hd in Hsv].
Qed.

End captures.
