(* ===== verification/Session.v ===== *)
(** * One VM run of an instance

    [RunSession] of [src/src/runner/session.rs]: the store side of an owner's
    run, from taking over the instance to committing or abandoning the run.
    The session's own fields are explicit state; its locks are not, as nothing
    that runs under them can panic.  The captures of the VM are in
    [Capture.v]. *)

From S2P Require Import Prelude FileSystem FsLogic FsUtil Store StoreLogic StoreSafety.

Record run_session := mk_session {
  rs_run : run;
  (** Whether the run has served a command since its last commit. *)
  rs_dirty : bool;
  (** The generation the VM's dirty tracking is relative to. *)
  rs_last_capture : option generation_id;
  (** Whether the guest has flushed its writes for the final snapshot. *)
  rs_quiesced : bool;
}.

Definition LAST_RUN_NOTICE : string := "last-run.notice".

Definition set_dirty (s : run_session) : run_session :=
  mk_session (rs_run s) true (rs_last_capture s) (rs_quiesced s).

Definition set_last_capture (id : generation_id) (s : run_session) : run_session :=
  mk_session (rs_run s) (rs_dirty s) (Some id) (rs_quiesced s).

Definition guest_quiesced (s : run_session) : run_session :=
  mk_session (rs_run s) (rs_dirty s) (rs_last_capture s) true.

Definition base (s : run_session) : option generation := run_base (rs_run s).

Section session.
Context `{Json record, Json manifest, Json checkpoint_ref}.
Context (dir : path) (current : process_identity).

(** [RunSession::begin], once an old layout has been migrated. *)
Definition begin_stored (explicit_snapshot : option path) : M run_session :=
  e ← store_exists dir;
  if negb e then bail "instance has no saved state; create it with lnx init"
  else
    _ ← recover dir;
    from ← match explicit_snapshot with
           | Some d =>
               rec ← get_record dir;
               id ← import_dir dir d (rec ≫= r_latest) Import;
               mret (Some id)
           | None => mret None
           end;
    r ← begin_run dir current from;
    mret (mk_session r false (g_id <$> run_base r) false).

(** [RunSession::mark_dirty] *)
Definition session_mark_dirty (s : run_session) : M run_session :=
  if rs_dirty s then mret s
  else _ ← mark_dirty dir (run_name (rs_run s)); mret (set_dirty s).

(** [RunSession::stage]: the memory image the VM's dirty tracking is relative
    to seeds the new generation. *)
Definition session_stage (s : run_session) : M staging :=
  st ← stage dir;
  match rs_last_capture s with
  | None => mret st
  | Some id =>
      g ← get_generation dir id;
      if has_memory (g_manifest g) then
        _ ← clone_listed (g_dir g) (s_dir st) [VMSTATE; PAGES]; mret st
      else mret st
  end.

(** [RunSession::publish] *)
Definition session_publish (s : run_session) (st : staging) (org : origin)
    : M (run_session * generation_id) :=
  id ← publish dir st (g_id <$> base s) org;
  mret (set_last_capture id s, id).

(** [RunSession::commit_final], [advance], [add_checkpoint] and [export] *)
Definition commit_final (id : generation_id) : M unit := commit_latest dir id.

Definition advance (s : run_session) (id : generation_id) : M unit :=
  advance_latest dir (run_name (rs_run s)) id.

Definition session_add_checkpoint (c : checkpoint_ref) : M unit := add_checkpoint dir c.

Definition session_export (id : generation_id) (dest : path) : M unit :=
  g ← pin dir id; export g dest.

(** What the next command is told when only the disk could be kept. *)
Definition notice (instance reason : string) : bytes :=
  String.list_byte_of_string ("lnx: the memory of " +:+ instance +:+
    "'s last run could not be saved (" +:+ reason +:+
    "); its disk was kept, so this run boots from it" +:+ String "010"%char EmptyString).

(** [RunSession::abandon] *)
Definition abandon (instance : string) (s : run_session) (reason : string) : M unit :=
  if rs_dirty s && rs_quiesced s then
    _ ← salvage dir;
    fs_write (dir /: LAST_RUN_NOTICE) (notice instance reason)
  else if rs_dirty s then mret tt
  else abandon_run dir (run_name (rs_run s)).

End session.

(** ** What the session's operations leave alone *)

Section confined.
Context `{Json record, Json manifest, Json checkpoint_ref}.
Context (dir : path) (K R : string -> Prop).
Abbreviation safe := (respects (guards dir K R)).

Lemma elsewhere_outside q : ~ below dir q -> elsewhere dir K R q.
Proof.
  intros Hq. split_and!.
  - intros ->. apply Hq. apply below_snoc.
  - intros id _ _ Hb. apply Hq. unfold generation_dir, generations_dir in Hb.
    by eapply below_child, below_child.
  - intros r _ Hb. apply Hq. unfold run_dir, runs_dir in Hb. by eapply below_child, below_child.
Qed.

Lemma returns_session_stage s :
  returns (session_stage dir s) (fun st => s_dir st = staging_dir dir (s_id st) /\ valid_id (s_id st)).
Proof.
  unfold session_stage. eapply returns_bind; [apply returns_stage|]. intros st Hst.
  destruct (rs_last_capture s); [|by apply returns_ret].
  eapply returns_bind; [apply returns_true|]. intros g _. destruct (has_memory _); [|by apply returns_ret].
  eapply returns_bind; [apply returns_true|]. intros _ _. by apply returns_ret.
Qed.

Lemma safe_session_stage s : safe (session_stage dir s).
Proof.
  unfold session_stage. apply guards_staged. intros st Hd _. rewrite Hd.
  respects_tac. apply guards_clone_listed.
Qed.

(** A place to export to: neither in the instance nor around it. *)
Definition exportable (dest : path) : Prop := ~ below dir dest /\ ~ below dest dir.

Lemma exportable_around dest q :
  exportable dest -> below dest q \/ below q dest -> elsewhere dir K R q.
Proof.
  intros [Hd1 Hd2] [Hq|Hq].
  - apply elsewhere_outside. intros Hb. apply below_spec in Hq as [r ->].
    apply below_app_inv in Hb. tauto.
  - apply elsewhere_outside. intros Hb. apply Hd1. by eapply below_trans.
Qed.

Lemma safe_session_export id dest : exportable dest -> safe (session_export dir id dest).
Proof.
  intros He. unfold session_export, export.
  assert (forall g q, below (generation_dir dest g) q \/ below q (generation_dir dest g) ->
            elsewhere dir K R q) as Hg.
  { intros g q Hq. apply (exportable_around dest q He). unfold generation_dir, generations_dir in Hq.
    destruct Hq as [Hq|Hq]; [left; by eapply below_child, below_child|].
    rewrite <- app_assoc in Hq. apply below_app_inv in Hq. tauto. }
  respects_tac; (apply respects_guards; [|auto with frames]).
  - apply modifies_create_dir_all. intros q Hq. by eapply Hg; right.
  - apply modifies_clone_listed. apply Hg.
  - apply keeps_form_clone_listed.
  - apply modifies_clone_shares. apply Hg.
  - apply keeps_form_clone_shares.
  - unfold commit_json. apply modifies_commit_file. intros q Hq%commit_footprint_in.
    apply (exportable_around dest q He). by left.
Qed.

End confined.
