(* ===== verification/Ingress.v ===== *)
(** * The ingress

    [src/src/ingress.rs]: the names instances are reached under, the requests
    the HTTP listener routes to them, the DNS server that resolves those names
    and the admin socket.  A request, a DNS packet and everything written are
    strings of bytes.  What the listener does to the rest of the system is a
    value ([http_outcome]); processes, sockets and TLS are outside. *)

From S2P Require Import Prelude Text.

Definition CRLF : string := String "013" (String "010" EmptyString).

Definition QUOTE : ascii := "034"%char.
Definition quote : string := String QUOTE EmptyString.

(** ** Configuration *)

Record config := mk_config {
  c_domain : string;
  c_dns_addr : string;
  c_http_addr : string;
  c_https_addr : string;
  c_resolver_dir : string;
  c_state_dir : string;
}.

Record route := mk_route { r_instance : string; r_port : N }.

Definition DEFAULT_DOMAIN : string := "lnx".
Definition DEFAULT_DNS_ADDR : string := "127.0.0.1:5354".
Definition DEFAULT_HTTP_ADDR : string := "127.0.0.1:80".
Definition DEFAULT_HTTPS_ADDR : string := "127.0.0.1:443".
Definition CHROME_DEVTOOLS_PORT : N := 9222.

Definition parse_u16 (s : string) : option N := parse_unsigned (2 ^ 16) s.

Definition env_or (env : string -> option string) (key fallback : string) : string :=
  default fallback (env key).

(** [home] is the home directory, if there is one. *)
Definition load_config (env : string -> option string) (home : option string) : option config :=
  home ← home;
  Some (mk_config (env_or env "LNX_INGRESS_DOMAIN" DEFAULT_DOMAIN)
                  (env_or env "LNX_INGRESS_DNS_ADDR" DEFAULT_DNS_ADDR)
                  (env_or env "LNX_INGRESS_HTTP_ADDR" DEFAULT_HTTP_ADDR)
                  (env_or env "LNX_INGRESS_HTTPS_ADDR" DEFAULT_HTTPS_ADDR)
                  (env_or env "LNX_INGRESS_RESOLVER_DIR" "/etc/resolver")
                  (env_or env "LNX_INGRESS_STATE_DIR" (home +:+ "/.lnx/ingress"))).

Definition resolver_path (c : config) : string := c_resolver_dir c +:+ "/" +:+ c_domain c.

Definition resolver_contents (c : config) : option string :=
  '(host, port) ← rsplit_once ":" (c_dns_addr c);
  Some ("nameserver " +:+ host +:+ String "010" "port " +:+ port +:+ String "010" EmptyString).

Definition is_privileged_addr (addr : string) : bool :=
  match rsplit_once ":" addr with
  | Some (_, port) => match parse_u16 port with Some p => (p <? 1024)%N | None => true end
  | None => true
  end.

Definition requires_privileged_service (c : config) : bool :=
  is_privileged_addr (c_http_addr c) || is_privileged_addr (c_https_addr c) ||
  is_privileged_addr (c_dns_addr c) || bool_decide (c_resolver_dir c = "/etc/resolver").

Definition needs_privileges (euid : N) (c : config) : bool :=
  if (euid =? 0)%N then false else requires_privileged_service c.

(** ** Names *)

Definition strip_optional_port (host : string) : string :=
  match rsplit_once ":" host with
  | Some (h, port) => match parse_u16 port with Some _ => h | None => host end
  | None => host
  end.

(** A host without its port and trailing dots, in lower case. *)
Definition canonical_host (host : string) : string :=
  to_ascii_lowercase (trim_end_matches "." (strip_optional_port host)).

Definition parse_host (host domain : string) : route + string :=
  let host := canonical_host host in
  let suffix := "." +:+ to_ascii_lowercase domain in
  if negb (ends_with suffix host) then inr "host is not under the ingress domain"
  else
    let name := trim_end_matches suffix host in
    if contains_char "." name then inr "host must look like p<port>-<instance>.<domain>"
    else
      match split_once "-" name with
      | None => inr "host must look like p<port>-<instance>.<domain>"
      | Some (port_label, instance) =>
          match strip_prefix "p" port_label with
          | None => inr "host must start with p<port>-"
          | Some port =>
              match parse_u16 port with
              | None => inr "invalid ingress port"
              | Some port =>
                  if (port =? 0)%N || bool_decide (instance = EmptyString)
                  then inr "invalid ingress port"
                  else inl (mk_route instance port)
              end
          end
      end.

Definition instance_from_host (host domain : string) : option string :=
  let host := canonical_host host in
  let suffix := "." +:+ to_ascii_lowercase domain in
  name ← strip_suffix suffix host;
  if negb (bool_decide (name = EmptyString)) && negb (contains_char "." name) then Some name else None.

Definition is_ok {A B : Type} (r : A + B) : bool := match r with inl _ => true | inr _ => false end.

(** ** Requests *)

(** [u8::from_str_radix] of two characters, as [percent_decode] uses it. *)
Definition hex_byte (a b : ascii) : option ascii :=
  let s := String a (String b EmptyString) in
  if utf8_valid s then ascii_of_N <$> from_str_radix 256 16 s else None.

Fixpoint percent_decode_bytes (s : string) : string :=
  match s with
  | String "%" (String a (String b rest) as r) =>
      match hex_byte a b with
      | Some c => String c (percent_decode_bytes rest)
      | None => String "%" (percent_decode_bytes r)
      end
  | String c r => String c (percent_decode_bytes r)
  | EmptyString => EmptyString
  end.

Definition percent_decode (value : string) : string := from_utf8_lossy (percent_decode_bytes value).

(** The target of a request line. *)
Definition request_target (request : string) : option string :=
  line ← head (split_char "010" request);
  if utf8_valid line then
    match split_whitespace (trim_end_matches (String "013" EmptyString) line) with
    | _ :: target :: _ => Some target
    | _ => None
    end
  else None.

Definition FORK_KEY : string := "lnx:fork".

Definition pair_key (pair : string) : string :=
  match split_once "=" pair with Some (key, _) => key | None => pair end.

Definition pair_value (pair : string) : string :=
  match split_once "=" pair with Some (_, value) => value | None => EmptyString end.

Definition is_fork_pair (pair : string) : bool :=
  bool_decide (pair_key pair = FORK_KEY) && negb (bool_decide (pair_value pair = EmptyString)).

Definition fork_source_from_request_target (target : string) : option string :=
  '(_, query) ← split_once "?" target;
  percent_decode ∘ pair_value <$> head (filter (fun p => is_fork_pair p = true) (split_char "&" query)).

Definition clean_fork_request_target (target : string) : string :=
  match split_once "?" target with
  | None => target
  | Some (p, query) =>
      let kept := filter (fun pair => pair <> EmptyString)
                    (filter (fun pair => pair_key pair <> FORK_KEY) (split_char "&" query)) in
      match kept with
      | [] => p
      | _ => p +:+ "?" +:+ join "&" kept
      end
  end.

(** The [Host] header of a request. *)
Definition host_of_line (line : string) : option string :=
  trim <$> strip_prefix "Host:" (trim_end_matches (String "013" EmptyString) (from_utf8_lossy line)).

Fixpoint find_map {A B : Type} (f : A -> option B) (l : list A) : option B :=
  match l with
  | [] => None
  | a :: l' => match f a with Some b => Some b | None => find_map f l' end
  end.

Definition request_host (request : string) : option string :=
  find_map host_of_line (split_char "010" request).

(** Replaces the [Host] header: [done] has been passed over, [todo] is the
    rest of the headers, and [tail] what follows them. *)
Fixpoint rewrite_lines (n : nat) (host done todo tail request : string) : string :=
  match n, todo with
  | S n', String _ _ =>
      match split_once CRLF todo with
      | None => request
      | Some (line, rest) =>
          if (5 <=? String.length line) && eq_ignore_ascii_case (string_take 5 line) "Host:"
          then done +:+ "Host: " +:+ host +:+ CRLF +:+ rest +:+ tail
          else rewrite_lines n' host (done +:+ line +:+ CRLF) rest tail request
      end
  | _, _ => request
  end.

Definition rewrite_http_host_header (request host : string) : string :=
  match split_once (CRLF +:+ CRLF) request with
  | None => request
  | Some (headers, body) =>
      rewrite_lines (String.length headers) host EmptyString headers (CRLF +:+ CRLF +:+ body) request
  end.

Definition rewrite_proxy_request_host (request : string) (guest_port : N) : string :=
  if negb (guest_port =? CHROME_DEVTOOLS_PORT)%N then request
  else rewrite_http_host_header request ("127.0.0.1:" +:+ pretty guest_port).

(** ** Responses *)

Definition http_response (status content_type body : string) : string :=
  "HTTP/1.1 " +:+ status +:+ CRLF +:+ "Content-Type: " +:+ content_type +:+ CRLF +:+
  "Content-Length: " +:+ pretty (N.of_nat (String.length body)) +:+ CRLF +:+
  "Connection: close" +:+ CRLF +:+ CRLF +:+ body.

Definition redirect_response (location : string) : string :=
  "HTTP/1.1 302 Found" +:+ CRLF +:+ "Location: " +:+ location +:+ CRLF +:+
  "Content-Length: 0" +:+ CRLF +:+ "Connection: close" +:+ CRLF +:+ CRLF.

(** ** The HTTP listener *)

(** What one [read] gave: bytes (none at the end of the stream) or an error. *)
Definition read_result : Type := string + string.

Definition MAX_HEADERS : nat := 1024 * 1024.

Definition headers_complete (request : string) : bool :=
  bool_decide (is_Some (split_once (CRLF +:+ CRLF) request)).

(** Reading the request: nothing while it still waits for more, otherwise the
    request, or how the connection ends without one. *)
Fixpoint read_request (request : string) (reads : list read_result) : option (string + option string) :=
  if headers_complete request || negb (String.length request <? MAX_HEADERS)
  then Some (inl request)
  else
    match reads with
    | [] => None
    | inr e :: _ => Some (inr (Some e))
    | inl EmptyString :: _ => Some (inr None)
    | inl b :: reads' => read_request (request +:+ b) reads'
    end.

(** What a request leads to. *)
Inductive http_outcome :=
  | Answer (response : string)
  | ForkAndRedirect (source dest : string) (response : string)
  | Redirect (response : string)
  | ProxyTo (r : route) (request : string)
  | Failed (error : string).

Section serve.
Context (domain : string).

(** The instances: whether one has state (or why that cannot be told), the
    error a fork or a start ends with. *)
Context (instance_has_state : string -> bool + string).
Context (fork_instance : string -> string -> option string).
Context (ensure_instance_broker : string -> option string).

(** Gives nothing when the request does not ask for a fork. *)
Definition maybe_fork_and_redirect (request host : string) : option http_outcome :=
  target ← request_target request;
  source ← fork_source_from_request_target target;
  match parse_host host domain with
  | inr _ => None
  | inl r =>
      let response := redirect_response (clean_fork_request_target target) in
      Some match instance_has_state (r_instance r) with
           | inr e => Failed e
           | inl true => Redirect response
           | inl false =>
               match fork_instance source (r_instance r) with
               | Some e => Failed e
               | None => ForkAndRedirect source (r_instance r) response
               end
           end
  end.

Definition route_http_host (host : string) : route + http_outcome :=
  match parse_host host domain with
  | inr _ => inr (Answer (http_response "404 Not Found" "text/plain" ("not found" +:+ String "010" EmptyString)))
  | inl r =>
      match ensure_instance_broker (r_instance r) with
      | Some e => inr (Failed e)
      | None => inl r
      end
  end.

(** [handle_http] and [handle_https] from the request on. *)
Definition serve_request (request : string) : http_outcome :=
  match request_host request with
  | None => Answer (http_response "400 Bad Request" "text/plain" ("missing Host" +:+ String "010" EmptyString))
  | Some host =>
      match maybe_fork_and_redirect request host with
      | Some o => o
      | None =>
          match route_http_host host with
          | inr o => o
          | inl r => ProxyTo r (rewrite_proxy_request_host request (r_port r))
          end
      end
  end.

(** The whole of [handle_http]; [proxy] is the error the proxied connection
    ends with.  Gives what is written to the client before the connection
    closes, beside what the proxy writes, and the error that is logged. *)
Definition handle_http (proxy : route -> string -> option string) (reads : list read_result)
    : option (option string * option string) :=
  r ← read_request EmptyString reads;
  Some match r with
       | inr e => (None, e)
       | inl request =>
           match serve_request request with
           | Answer response | Redirect response | ForkAndRedirect _ _ response => (Some response, None)
           | Failed e => (None, Some e)
           | ProxyTo r request =>
               match proxy r request with
               | None => (None, None)
               | Some e =>
                   (Some (http_response "502 Bad Gateway" "text/plain"
                            ("bad gateway: " +:+ e +:+ String "010" EmptyString)), Some e)
               end
           end
       end.

End serve.

(** ** DNS *)

Definition be16 (n : N) : string :=
  String (ascii_of_N ((n / 256) `mod` 256)) (String (ascii_of_N (n `mod` 256)) EmptyString).

Definition be32 (n : N) : string := be16 ((n / 65536) `mod` 65536) +:+ be16 (n `mod` 65536).

Definition u16_at (pos : nat) (s : string) : option N :=
  hi ← String.get pos s;
  lo ← String.get (S pos) s;
  Some (byte_val hi * 256 + byte_val lo)%N.

(** [slice::get] on a range *)
Definition get_range (from to : nat) (s : string) : option string :=
  if (from <=? to) && (to <=? String.length s) then Some (string_take (to - from) (string_drop from s))
  else None.

(** The labels from [pos] on and where they end. *)
Inductive labels_result := NoLabels | LabelsOutOfFuel | Labels (labels : list string) (pos : nat).

Fixpoint read_labels (n : nat) (packet : string) (pos : nat) (labels : list string) : labels_result :=
  match n with
  | O => LabelsOutOfFuel
  | S n' =>
      match String.get pos packet with
      | None => NoLabels
      | Some c =>
          let len := N.to_nat (byte_val c) in
          if len =? 0 then Labels labels (S pos)
          else
            match get_range (S pos) (S pos + len) packet with
            | None => NoLabels
            | Some label => read_labels n' packet (S pos + len) (labels ++ [from_utf8_lossy label])
            end
      end
  end.

(** IPv4 addresses are 32-bit numbers; [Ipv4Addr::LOCALHOST]. *)
Definition LOCALHOST : N := 127 * 2 ^ 24 + 1.

(** The IPv4 address of a name: the ingress for the names it routes, an
    instance's own address if it has one. *)
Definition dns_answer (name domain : string) (instance_ips : gmap string N) : option N :=
  if is_ok (parse_host name domain) then Some LOCALHOST
  else
    i ← instance_from_host name domain; instance_ips !! i.

Definition byte_string (l : list N) : string := foldr (fun n s => String (ascii_of_N n) s) EmptyString l.

(** The answer to a packet; an index out of range would panic. *)
Inductive dns_result := NoReply | Reply (response : string) | Panics | OutOfFuel.

Definition dns_response (packet domain : string) (instance_ips : gmap string N) : dns_result :=
  if String.length packet <? 12 then NoReply
  else
    match read_labels (String.length packet) packet 12 [] with
    | NoLabels => NoReply
    | LabelsOutOfFuel => OutOfFuel
    | Labels labels pos =>
        match get_range 12 (pos + 4) packet with
        | None => NoReply
        | Some question =>
            match u16_at pos packet, u16_at (pos + 2) packet, get_range 0 2 packet with
            | Some qtype, Some qclass, Some id =>
                let answer := dns_answer (join "." labels) domain instance_ips in
                let answer := if (qtype =? 1)%N && (qclass =? 1)%N then answer else None in
                let found := bool_decide (is_Some answer) in
                Reply
                  (id +:+ byte_string [132; if found then 0 else 3]%N +:+
                   be16 1 +:+ be16 (if found then 1 else 0) +:+ be16 0 +:+ be16 0 +:+ question +:+
                   match answer with
                   | Some ip => byte_string [192; 12]%N +:+ be16 1 +:+ be16 1 +:+ be32 1 +:+ be16 4 +:+ be32 ip
                   | None => EmptyString
                   end)
            | _, _, _ => Panics
            end
        end
    end.

(** ** The admin socket *)

Definition valid_instance_name (name : string) : bool :=
  negb (bool_decide (name = EmptyString)) && (String.length name <=? 128) &&
  string_all (fun c => is_ascii_alphanumeric c || bool_decide (c ∈ ["-"; "_"; "."]%char)) name.

Definition attach_instance_from_request (request : string) : option string :=
  r ← strip_prefix "POST " request;
  w ← head (split_whitespace r);
  target ← strip_prefix "/network/attach?instance=" w;
  if valid_instance_name target then Some (to_ascii_lowercase target) else None.

Definition xml_escape (value : string) : string :=
  replace_char "'" "&apos;" (replace_char QUOTE "&quot;"
    (replace_char ">" "&gt;" (replace_char "<" "&lt;" (replace_char "&" "&amp;" value)))).

(** [json_escape], on UTF-8: the control characters above 127 take two bytes. *)
Definition u_escape (n : N) : string := "\u" +:+ hex_digits 4 n.

Fixpoint json_escape (value : string) : string :=
  match value with
  | EmptyString => EmptyString
  | String c r =>
      if Ascii.eqb c "\" then "\\" +:+ json_escape r
      else if Ascii.eqb c QUOTE then "\" +:+ quote +:+ json_escape r
      else if Ascii.eqb c "010" then "\n" +:+ json_escape r
      else if Ascii.eqb c "013" then "\r" +:+ json_escape r
      else if Ascii.eqb c "009" then "\t" +:+ json_escape r
      else if in_range 0 31 c || in_range 127 127 c then u_escape (byte_val c) +:+ json_escape r
      else
        match r with
        | String d r' =>
            if in_range 194 194 c && in_range 128 159 d then u_escape (byte_val d) +:+ json_escape r'
            else String c (json_escape r)
        | EmptyString => String c EmptyString
        end
  end.

(** A field of a JSON object. *)
Definition string_field (name value : string) : string :=
  quote +:+ name +:+ quote +:+ ":" +:+ quote +:+ json_escape value +:+ quote.

Definition number_field (name : string) (value : N) : string :=
  quote +:+ name +:+ quote +:+ ":" +:+ pretty value.

Definition raw_field (name value : string) : string := quote +:+ name +:+ quote +:+ ":" +:+ value.

Definition status_body (c : config) (pid protocol : N) (binary_path : string) : string :=
  "{" +:+ join ","
    [raw_field "enabled" "true";
     string_field "domain" (c_domain c);
     string_field "dns_addr" (c_dns_addr c);
     string_field "http_addr" (c_http_addr c);
     string_field "https_addr" (c_https_addr c);
     string_field "resolver_path" (resolver_path c);
     raw_field "network" "null";
     raw_field "network_error" "null";
     number_field "pid" pid;
     number_field "protocol_version" protocol;
     string_field "binary_path" binary_path] +:+ "}".

(** [peer_authorized], of the peer's user if it can be told, the daemon's and
    the configured one. *)
Definition peer_authorized (peer : option N) (self : N) (ingress_user : option N) : bool :=
  match peer with
  | None => false
  | Some uid => (uid =? 0)%N || (uid =? self)%N || bool_decide (ingress_user = Some uid)
  end.

Definition line_of (s : string) : string := s +:+ String "010" EmptyString.

(** [handle_admin] on what its one [read] gave: the response, whether the
    daemon is to stop. *)
Definition handle_admin (c : config) (pid protocol : N) (binary_path : string) (authorized : bool)
    (raw : string) : string * bool :=
  let request := from_utf8_lossy raw in
  if starts_with "GET /status " request then
    (http_response "200 OK" "application/json" (status_body c pid protocol binary_path), false)
  else
    match attach_instance_from_request request with
    | Some instance =>
        if negb authorized then (http_response "403 Forbidden" "text/plain" (line_of "forbidden"), false)
        else (http_response "503 Service Unavailable" "text/plain"
                (line_of "VM network attachments are not used; VM networking uses embedded gvproxy"), false)
    | None =>
        if starts_with "POST /stop " request then
          if negb authorized then (http_response "403 Forbidden" "text/plain" (line_of "forbidden"), false)
          else (http_response "204 No Content" "text/plain" EmptyString, true)
        else (http_response "404 Not Found" "text/plain" (line_of "not found"), false)
    end.

(** ** Reading the status back *)

Definition json_field (body field : string) : option string :=
  '(_, rest) ← split_once (quote +:+ field +:+ quote +:+ ":" +:+ quote) body;
  head (split_char QUOTE rest).

Definition json_number_field (body field : string) : option string :=
  '(_, rest) ← split_once (quote +:+ field +:+ quote +:+ ":") body;
  let value := take_until (fun c => negb (is_ascii_digit c)) rest in
  if bool_decide (value = EmptyString) then None else Some value.

Record status := mk_status {
  st_domain : string;
  st_dns_addr : string;
  st_http_addr : string;
  st_https_addr : string;
  st_resolver_path : string;
  st_network : option string;
  st_network_error : option string;
  st_protocol_version : option N;
  st_binary_path : option string;
}.

Definition read_status (c : config) (response : string) : status :=
  let body := match split_once (CRLF +:+ CRLF) response with
              | Some (_, rest) =>
                  match split_once (CRLF +:+ CRLF) rest with Some (b, _) => b | None => rest end
              | None => EmptyString
              end in
  mk_status (default (c_domain c) (json_field body "domain"))
            (default (c_dns_addr c) (json_field body "dns_addr"))
            (default (c_http_addr c) (json_field body "http_addr"))
            (default (c_https_addr c) (json_field body "https_addr"))
            (default (resolver_path c) (json_field body "resolver_path"))
            (json_field body "network")
            (json_field body "network_error")
            (v ← json_number_field body "protocol_version"; parse_u16 v)
            (json_field body "binary_path").
