(* ===== verification/IngressTheorems.v ===== *)
(** * What the ingress does with names, requests and packets *)

From S2P Require Import Prelude Text Ingress.

(** ** Names *)

(** How a port may be written: decimal digits, zeros in front included, after
    a plus sign or not. *)
Definition port_spelling (p : N) (s : string) : Prop :=
  (0 < p < 2 ^ 16)%N /\
  exists ds, (s = ds \/ s = "+" +:+ ds) /\
    ds <> EmptyString /\ string_all is_ascii_digit ds = true /\ digits_value ds = p.

(** The names the code takes for a route: the port and the instance in one
    label, and the domain after it once or more. *)
Definition names (domain host : string) (r : route) : Prop :=
  exists port k,
    canonical_host host =
      ("p" +:+ port +:+ "-" +:+ r_instance r) +:+
      string_repeat (S k) ("." +:+ to_ascii_lowercase domain) /\
    port_spelling (r_port r) port /\
    r_instance r <> EmptyString /\ no_char "." (r_instance r).

Lemma digits_no_sign ds :
  string_all is_ascii_digit ds = true -> match ds with String "+" s => s | _ => ds end = ds.
Proof.
  destruct ds as [|c ds]; [done|]. unfold string_all. simpl. intros [Hc _]%andb_true_iff.
  by destruct c as [[] [] [] [] [] [] [] []].
Qed.

Lemma parse_u16_spelling s p : (parse_u16 s = Some p /\ (0 < p)%N) <-> port_spelling p s.
Proof.
  unfold parse_u16, parse_unsigned, port_spelling. split.
  - set (ds := match s with String "+" s' => s' | _ => s end).
    destruct (_ && _ && _) eqn:E; [|by intros [? ?]]. intros [[= <-] H0].
    apply andb_true_iff in E as [[Hd He]%andb_true_iff Hl%N.ltb_lt]. split; [lia|].
    exists ds. split_and!; [|by intros ->|done..].
    subst ds. destruct s as [|c s]; [by left|].
    destruct c as [[] [] [] [] [] [] [] []]; (by left) || (by right).
  - intros (Hp & ds & Hs & He & Hd & Hv).
    assert (match s with String "+" s' => s' | _ => s end = ds) as ->
      by (destruct Hs as [->| ->]; [by apply digits_no_sign|done]).
    rewrite Hd, bool_decide_eq_false_2, Hv by done. simpl.
    rewrite (proj2 (N.ltb_lt _ _)) by lia. split; [done|lia].
Qed.

Lemma pretty_spelling p : (0 < p < 2 ^ 16)%N -> port_spelling p (pretty p).
Proof.
  intros Hp. split; [done|]. exists (pretty p). split; [by left|].
  split_and!; [apply pretty_N_nonempty|apply pretty_N_all_digits|apply digits_value_pretty].
Qed.

Lemma no_dot_suffix name d : no_char "." name -> strip_suffix ("." +:+ d) name = None.
Proof.
  intros Hn. destruct (strip_suffix ("." +:+ d) name) as [r|] eqn:E; [|done].
  apply strip_suffix_spec in E as ->. unfold no_char in Hn.
  rewrite contains_char_app in Hn. simpl in Hn. rewrite contains_char_cons in Hn.
  by rewrite orb_comm in Hn.
Qed.

Lemma u16_chars digits p : parse_u16 digits = Some p -> no_char "." digits /\ no_char "-" digits.
Proof. intros Hp%parse_unsigned_chars. split; by eapply string_all_no_char. Qed.

Lemma no_char_app c a b : no_char c (a +:+ b) <-> no_char c a /\ no_char c b.
Proof. unfold no_char. by rewrite contains_char_app, orb_false_iff. Qed.

Lemma parse_host_names host domain r : parse_host host domain = inl r <-> names domain host r.
Proof.
  unfold parse_host, names. set (h := canonical_host host). set (d := to_ascii_lowercase domain).
  cbv zeta. split.
  - destruct (ends_with ("." +:+ d) h) eqn:Ee; cbn [negb]; [|done].
    destruct (contains_char "." (trim_end_matches ("." +:+ d) h)) eqn:Ec; [done|].
    destruct (split_once "-" _) as [[label instance]|] eqn:Es; [|done].
    destruct (strip_prefix "p" label) as [digits|] eqn:Ep; [|done].
    destruct (parse_u16 digits) as [port|] eqn:Eu; [|done].
    destruct (port =? 0)%N eqn:Ez; [done|]. simpl. case_bool_decide as Hi; [done|]. intros [= <-]. simpl.
    apply split_once_char in Es as [Hname _]. apply strip_prefix_Some in Ep as ->.
    destruct (trim_end_matches_decomp ("." +:+ d) h) as [k Hk]. rewrite Hname in Hk, Ec.
    apply N.eqb_neq in Ez. exists digits, (pred k). split_and!; try done.
    + destruct k; [|exact Hk]. unfold ends_with in Ee. apply bool_decide_eq_true in Ee as [x Hx].
      cbn [string_repeat] in Hk. rewrite string_app_nil in Hk. rewrite Hk in Hx.
      by rewrite (no_dot_suffix _ d Ec) in Hx.
    + apply parse_u16_spelling. split; [done|lia].
    + rewrite contains_char_app in Ec. apply orb_false_iff in Ec as [_ Ec].
      rewrite contains_char_cons in Ec. by apply orb_false_iff in Ec as [_ Ec].
  - intros (digits & k & -> & [Hu Hp]%parse_u16_spelling & Hi & Hn). destruct (u16_chars _ _ Hu) as [Hd1 Hd2].
    set (name := "p" +:+ digits +:+ "-" +:+ r_instance r).
    assert (Hname : no_char "." name) by (apply no_char_app; split; [done|]; by apply no_char_app).
    assert (ends_with ("." +:+ d) (name +:+ string_repeat (S k) ("." +:+ d)) = true) as ->.
    { apply bool_decide_eq_true. rewrite string_repeat_snoc, <- string_app_assoc.
      eexists. by apply strip_suffix_spec. }
    simpl negb. cbv iota. rewrite trim_end_matches_spec by (done || by apply no_dot_suffix).
    rewrite Hname. rewrite (proj2 (split_once_char "-" name ("p" +:+ digits) (r_instance r))).
    2: { split; [unfold name; by rewrite string_app_assoc|]. by apply no_char_app. }
    rewrite strip_prefix_app, Hu. rewrite (proj2 (N.eqb_neq _ _)) by lia.
    rewrite bool_decide_eq_false_2 by done. by destruct r.
Qed.

(** The name of a route under a domain. *)
Definition host_name (domain : string) (r : route) : string :=
  ("p" +:+ pretty (r_port r) +:+ "-" +:+ r_instance r) +:+ "." +:+ domain.

(** A domain that is a plain name: no colon, no dot at its end. *)
Definition plain_domain (domain : string) : Prop :=
  no_char ":" domain /\ domain <> EmptyString /\ strip_suffix "." domain = None.

Lemma strip_port_name x domain : plain_domain domain -> strip_optional_port (x +:+ "." +:+ domain) = x +:+ "." +:+ domain.
Proof.
  intros (Hc & _ & _). unfold strip_optional_port.
  destruct (rsplit_once ":" _) as [[a b]|] eqn:E; [|done].
  apply rsplit_once_spec in E as [E _].
  destruct (tail_after ":" a b x ("." +:+ domain)) as [y ->]; [done|by apply no_char_app|].
  destruct (parse_u16 _) as [p|] eqn:Ep; [|done]. apply u16_chars in Ep as [Ep _].
  apply no_char_app in Ep as [_ Ep]. by apply no_char_app in Ep as [Ep _].
Qed.

Lemma strip_port_port h q : (q < 2 ^ 16)%N -> strip_optional_port (h +:+ ":" +:+ pretty q) = h.
Proof.
  intros Hq. unfold strip_optional_port. change (":" +:+ pretty q) with (String ":" (pretty q)).
  rewrite rsplit_once_last.
  2: { eapply string_all_no_char; [apply pretty_N_all_digits|done]. }
  unfold parse_u16. by rewrite parse_unsigned_pretty.
Qed.

Lemma trim_dots_name x domain : plain_domain domain -> trim_end_matches "." (x +:+ "." +:+ domain) = x +:+ "." +:+ domain.
Proof.
  intros (_ & Hne & Hs). rewrite <- (string_app_nil (x +:+ "." +:+ domain)) at 1.
  apply (trim_end_matches_spec "." _ 0); [done|].
  rewrite <- string_app_assoc. apply strip_suffix_app; [done|]. destruct domain; [done|]. simpl. lia.
Qed.

Lemma canonical_name domain r :
  plain_domain domain -> to_ascii_lowercase (r_instance r) = r_instance r ->
  to_ascii_lowercase (trim_end_matches "." (host_name domain r)) =
    ("p" +:+ pretty (r_port r) +:+ "-" +:+ r_instance r) +:+
    string_repeat 1 ("." +:+ to_ascii_lowercase domain).
Proof.
  intros Hd Hi. unfold host_name. rewrite trim_dots_name by done.
  cbn [string_repeat]. rewrite string_app_nil, !to_ascii_lowercase_app, Hi.
  by rewrite (to_ascii_lowercase_digits (pretty (r_port r)) (pretty_N_all_digits _)).
Qed.

(** C32: a host is routed, to the instance [i] and the port [n], exactly when,
    without a port and trailing dots and in lower case, it is [p<n>-<i>] and
    then the domain, where [n] is from 1 to 65535, written in decimal digits
    with zeros and one plus sign allowed in front, [i] is not empty and has no
    dots, and the domain is there once or several times; and the name of a
    route, with or without a port of its own, leads back to it. *)
Theorem ingress_routes host domain r :
  (parse_host host domain = inl r <-> names domain host r) /\
  (plain_domain domain -> (0 < r_port r < 2 ^ 16)%N -> r_instance r <> EmptyString ->
   no_char "." (r_instance r) -> to_ascii_lowercase (r_instance r) = r_instance r ->
   parse_host (host_name domain r) domain = inl r /\
   forall q, (q < 2 ^ 16)%N -> parse_host (host_name domain r +:+ ":" +:+ pretty q) domain = inl r).
Proof.
  split; [apply parse_host_names|]. intros Hd [Hp Hp'] Hi Hn Hl.
  assert (Hn' : forall h, canonical_host h = to_ascii_lowercase (trim_end_matches "." (host_name domain r)) ->
            parse_host h domain = inl r).
  { intros h Hh. apply parse_host_names. exists (pretty (r_port r)), 0.
    rewrite Hh, canonical_name by done. split_and!; try done. by apply pretty_spelling. }
  split; [|intros q Hq]; apply Hn'; unfold canonical_host.
  - unfold host_name. by rewrite strip_port_name.
  - by rewrite strip_port_port.
Qed.

(** ** Requests *)

Definition is_host_line (line : string) : bool :=
  (5 <=? String.length line) && eq_ignore_ascii_case (string_take 5 line) "Host:".

(** The first [Host] line replaced, the last line of all left alone. *)
Fixpoint replace_host (host : string) (lines : list string) : list string :=
  match lines with
  | [] | [_] => lines
  | l :: ls => if is_host_line l then ("Host: " +:+ host) :: ls else l :: replace_host host ls
  end.

(** A header line: not empty, no line break inside. *)
Definition header_line (l : string) : Prop := l <> EmptyString /\ split_once CRLF l = None.

Lemma split_once_cons pat c s :
  split_once pat (String c s) =
  match strip_prefix pat (String c s) with
  | Some rest => Some (EmptyString, rest)
  | None => '(a, b) ← split_once pat s; Some (String c a, b)
  end.
Proof. by unfold split_once at 1; fold split_once; destruct (strip_prefix pat (String c s)), (split_once pat s) as [[]|]. Qed.

Lemma strip_prefix_cons a b p s :
  strip_prefix (String a p) (String b s) = if Ascii.eqb a b then strip_prefix p s else None.
Proof. done. Qed.

(** A line break inside a line would be found there. *)
Lemma no_crlf_head pat l t : split_once CRLF l = None -> l <> EmptyString ->
  strip_prefix (CRLF +:+ pat) (l +:+ CRLF +:+ t) = None.
Proof.
  intros Hl Hne. destruct l as [|c l]; [done|].
  change (CRLF +:+ pat) with (String "013" (String "010" pat)).
  change (String c l +:+ CRLF +:+ t) with (String c (l +:+ CRLF +:+ t)). rewrite strip_prefix_cons.
  destruct (Ascii.eqb_spec "013" c) as [<-|]; [|done]. destruct l as [|d l]; [done|].
  change (String d l +:+ CRLF +:+ t) with (String d (l +:+ CRLF +:+ t)). rewrite strip_prefix_cons.
  destruct (Ascii.eqb_spec "010" d) as [<-|]; [|done]. by rewrite split_once_cons in Hl.
Qed.

Lemma no_crlf_tail c l : split_once CRLF (String c l) = None -> split_once CRLF l = None.
Proof.
  rewrite split_once_cons. destruct (strip_prefix CRLF (String c l)); [done|].
  by destruct (split_once CRLF l) as [[]|].
Qed.

Lemma split_once_line pat l t : split_once CRLF l = None ->
  split_once (CRLF +:+ pat) (l +:+ CRLF +:+ t) =
  '(a, b) ← split_once (CRLF +:+ pat) (CRLF +:+ t); Some (l +:+ a, b).
Proof.
  induction l as [|c l IH]; intros Hl.
  - transitivity (split_once (CRLF +:+ pat) (CRLF +:+ t)); [done|].
    by destruct (split_once (CRLF +:+ pat) (CRLF +:+ t)) as [[]|].
  - change (String c l +:+ CRLF +:+ t) with (String c (l +:+ CRLF +:+ t)). rewrite split_once_cons.
    change (String c (l +:+ CRLF +:+ t)) with (String c l +:+ CRLF +:+ t).
    rewrite no_crlf_head by done. rewrite IH by (by eapply no_crlf_tail).
    by destruct (split_once (CRLF +:+ pat) (CRLF +:+ t)) as [[]|].
Qed.

Lemma split_line l t : split_once CRLF l = None -> split_once CRLF (l +:+ CRLF +:+ t) = Some (l, t).
Proof.
  intros Hl. pose proof (split_once_line EmptyString l t Hl) as H. rewrite string_app_nil in H.
  rewrite H. cbn. by rewrite string_app_nil; destruct t.
Qed.

Lemma split_headers lines body : lines <> [] -> Forall header_line lines ->
  split_once (CRLF +:+ CRLF) (join CRLF lines +:+ CRLF +:+ CRLF +:+ body) = Some (join CRLF lines, body).
Proof.
  intros Hne HF. induction HF as [|l ls [Hl Hc] HF IH]; [done|]. destruct ls as [|l2 ls].
  - cbn [join]. rewrite split_once_line by done. cbn. by destruct body; rewrite string_app_nil.
  - change (join CRLF (l :: l2 :: ls)) with (l +:+ CRLF +:+ join CRLF (l2 :: ls)).
    rewrite string_app_assoc, string_app_assoc, split_once_line by done.
    set (t := join CRLF (l2 :: ls) +:+ CRLF +:+ CRLF +:+ body).
    assert (Hh : strip_prefix CRLF t = None).
    { apply Forall_inv in HF as [Hl2 Hc2]. unfold t. destruct ls as [|l3 ls].
      - cbn [join]. rewrite <- (string_app_nil CRLF) at 1. by apply no_crlf_head.
      - change (join CRLF (l2 :: l3 :: ls)) with (l2 +:+ CRLF +:+ join CRLF (l3 :: ls)).
        rewrite !string_app_assoc, <- (string_app_nil CRLF) at 1. by apply no_crlf_head. }
    change (CRLF +:+ t) with (String "013" (String "010" t)). rewrite !split_once_cons.
    assert (strip_prefix (CRLF +:+ CRLF) (String "013" (String "010" t)) = None) as -> by exact Hh.
    assert (strip_prefix (CRLF +:+ CRLF) (String "010" t) = None) as -> by done.
    unfold t. by rewrite IH.
Qed.

Lemma rewrite_lines_spec n host done lines tail request :
  Forall header_line lines -> String.length (join CRLF lines) <= n ->
  request = done +:+ join CRLF lines +:+ tail ->
  rewrite_lines n host done (join CRLF lines) tail request =
    done +:+ join CRLF (replace_host host lines) +:+ tail.
Proof.
  intros HF. revert n done. induction HF as [|l ls [Hl Hc] HF IH]; intros n done Hn Hr.
  - by destruct n.
  - destruct ls as [|l2 ls].
    + cbn [join replace_host] in *. destruct n as [|n]; [by destruct l|]. destruct l; [done|].
      cbn [rewrite_lines]. by rewrite Hc.
    + change (join CRLF (l :: l2 :: ls)) with (l +:+ CRLF +:+ join CRLF (l2 :: ls)) in *.
      rewrite !string_app_length in Hn. change (String.length CRLF) with 2 in Hn.
      destruct n as [|n]; [lia|]. destruct l as [|c l]; [done|].
      assert (Hs := split_line (String c l) (join CRLF (l2 :: ls)) Hc).
      change (rewrite_lines (S n) host done (String c l +:+ CRLF +:+ join CRLF (l2 :: ls)) tail request)
        with (match split_once CRLF (String c l +:+ CRLF +:+ join CRLF (l2 :: ls)) with
              | None => request
              | Some (line, rest) =>
                  if is_host_line line then done +:+ "Host: " +:+ host +:+ CRLF +:+ rest +:+ tail
                  else rewrite_lines n host (done +:+ line +:+ CRLF) rest tail request
              end).
      change (replace_host host (String c l :: l2 :: ls))
        with (if is_host_line (String c l) then ("Host: " +:+ host) :: l2 :: ls
              else String c l :: replace_host host (l2 :: ls)).
      rewrite Hs. destruct (is_host_line (String c l)) eqn:Eh.
      * change (join CRLF (("Host: " +:+ host) :: l2 :: ls))
          with (("Host: " +:+ host) +:+ CRLF +:+ join CRLF (l2 :: ls)).
        by rewrite !string_app_assoc.
      * rewrite IH; [|lia|by rewrite Hr, !string_app_assoc].
        destruct (replace_host host (l2 :: ls)) as [|r rs] eqn:Er.
        { exfalso. cbn in Er. destruct ls; [done|]. by destruct (is_host_line l2). }
        change (join CRLF (String c l :: r :: rs)) with (String c l +:+ CRLF +:+ join CRLF (r :: rs)).
        by rewrite !string_app_assoc.
Qed.

(** Rewriting the [Host] header of a request replaces the value of its
    first [Host] line and nothing else, and leaves a request without one as
    it is; except that the last header line is never looked at: a request
    whose [Host] line comes last keeps it. *)
Theorem host_header_rewritten host lines body :
  lines <> [] -> Forall header_line lines ->
  rewrite_http_host_header (join CRLF lines +:+ CRLF +:+ CRLF +:+ body) host =
    join CRLF (replace_host host lines) +:+ CRLF +:+ CRLF +:+ body.
Proof.
  intros Hne HF. unfold rewrite_http_host_header. rewrite split_headers by done.
  by rewrite rewrite_lines_spec.
Qed.

(** ** DNS *)

Lemma get_range_Some from to s r :
  get_range from to s = Some r -> from <= to <= String.length s /\ String.length r = to - from.
Proof.
  unfold get_range. destruct (from <=? to) eqn:E1; [|done]. destruct (to <=? String.length s) eqn:E2; [|done].
  apply Nat.leb_le in E1, E2. simpl. intros [= <-]. split; [lia|]. rewrite string_take_length.
  assert (Hd : String.length (string_drop from s) = String.length s - from); [|lia].
  rewrite <- (string_take_drop from s) at 2. rewrite string_app_length, string_take_length. lia.
Qed.

Lemma get_range_app a b c from to :
  String.length a = from -> to = from + String.length b -> get_range from to (a +:+ b +:+ c) = Some b.
Proof.
  intros Ha ->. unfold get_range. rewrite !string_app_length.
  rewrite (proj2 (Nat.leb_le from _)), (proj2 (Nat.leb_le _ _)) by lia. simpl.
  rewrite string_drop_app by done. by rewrite string_take_app by lia.
Qed.

Lemma u16_at_lt pos s : S pos < String.length s -> exists n, u16_at pos s = Some n.
Proof.
  intros H. unfold u16_at. destruct (string_get_lt pos s) as [a ->]; [lia|].
  destruct (string_get_lt (S pos) s) as [b ->]; [lia|]. by eexists.
Qed.

(** The walk over the labels ends: every label takes at least two bytes. *)
Lemma read_labels_total n packet pos labels :
  String.length packet - pos < n -> read_labels n packet pos labels <> LabelsOutOfFuel.
Proof.
  revert pos labels. induction n as [|n IH]; intros pos labels Hn; [lia|]. simpl.
  destruct (String.get pos packet) as [c|] eqn:Ec; [|done]. apply string_get_Some in Ec.
  destruct (N.to_nat (byte_val c) =? 0); [done|].
  destruct (get_range _ _ packet); [|done]. apply IH. lia.
Qed.

(** A query as a client writes it. *)
Definition encode_labels (labels : list string) : string :=
  foldr (fun l s => String (ascii_of_N (N.of_nat (String.length l))) (l +:+ s))
    (String "000" EmptyString) labels.

Definition query (header : string) (labels : list string) (qtype qclass : N) (extra : string) : string :=
  header +:+ (encode_labels labels +:+ be16 qtype +:+ be16 qclass) +:+ extra.

Definition dns_label (l : string) : Prop :=
  0 < String.length l < 256 /\ from_utf8_lossy l = l.

(** The reply with an answer, or the one that says there is none. *)
Definition dns_reply (id question : string) (answer : option N) : string :=
  let found := bool_decide (is_Some answer) in
  id +:+ byte_string [132; if found then 0 else 3]%N +:+ be16 1 +:+ be16 (if found then 1 else 0) +:+
  be16 0 +:+ be16 0 +:+ question +:+
  match answer with
  | Some ip => byte_string [192; 12]%N +:+ be16 1 +:+ be16 1 +:+ be32 1 +:+ be16 4 +:+ be32 ip
  | None => EmptyString
  end.

Lemma byte_val_of_N n : (n < 256)%N -> byte_val (ascii_of_N n) = n.
Proof. apply N_ascii_embedding. Qed.

Lemma read_labels_encode n before labels0 labels rest :
  Forall dns_label labels -> String.length (encode_labels labels) <= n ->
  read_labels n (before +:+ encode_labels labels +:+ rest) (String.length before) labels0 =
    Labels (labels0 ++ labels) (String.length before + String.length (encode_labels labels)).
Proof.
  intros HF. revert n before labels0. induction HF as [|l ls [Hl Hu] HF IH]; intros n before labels0 Hn.
  - destruct n as [|n]; [simpl in Hn; lia|]. cbn [read_labels]. rewrite string_get_app by done. simpl.
    rewrite app_nil_r. f_equal. lia.
  - destruct n as [|n]; [simpl in Hn; lia|].
    set (c := ascii_of_N (N.of_nat (String.length l))).
    change (encode_labels (l :: ls)) with (String c (l +:+ encode_labels ls)) in *.
    set (packet := before +:+ String c (l +:+ encode_labels ls) +:+ rest).
    assert (Hp : packet = ((before +:+ String c EmptyString) +:+ l) +:+ encode_labels ls +:+ rest)
      by (unfold packet; by rewrite !string_app_assoc; simpl; rewrite string_app_assoc).
    assert (Hlen : S (String.length before) + String.length l =
                   String.length ((before +:+ String c EmptyString) +:+ l))
      by (rewrite !string_app_length; simpl; lia).
    cbn [read_labels].
    assert (String.get (String.length before) packet = Some c) as -> by (unfold packet; by rewrite string_get_app).
    assert (N.to_nat (byte_val c) = String.length l) as -> by (unfold c; rewrite byte_val_of_N by lia; lia).
    rewrite (proj2 (Nat.eqb_neq _ _)) by lia.
    assert (get_range (S (String.length before)) (S (String.length before) + String.length l) packet = Some l) as ->.
    { rewrite Hp, string_app_assoc. apply get_range_app; [|lia]. rewrite string_app_length. simpl. lia. }
    rewrite Hu, Hp, Hlen, IH.
    + rewrite <- app_assoc. f_equal. cbn [String.length]. rewrite !string_app_length in *. simpl. lia.
    + cbn [String.length] in Hn. rewrite string_app_length in Hn. lia.
Qed.

Lemma be16_length n : String.length (be16 n) = 2.
Proof. done. Qed.

Lemma u16_at_be16 a n b : (n < 2 ^ 16)%N -> u16_at (String.length a) (a +:+ be16 n +:+ b) = Some n.
Proof.
  intros Hn. unfold u16_at. rewrite (string_get_app (String.length a) a) by done.
  rewrite <- Nat.add_1_r, (string_get_app' (String.length a) 1 a) by done.
  cbn [be16 String.get String.append]. simpl. rewrite !byte_val_of_N by (apply N.mod_lt; lia).
  f_equal. rewrite (N.mod_small (n / 256)) by (apply N.Div0.div_lt_upper_bound; lia).
  pose proof (N.div_mod n 256). lia.
Qed.

(** The DNS server answers every packet or drops it: it never reads
    outside the packet and its walk over the labels ends.  A reply is at most
    sixteen bytes longer than the packet and carries its id.  A query for a
    name is answered with the ingress's address exactly when the name leads to
    an instance's port, or with the instance's own address, and only if it
    asks for an IPv4 address; other queries are told the name does not
    exist. *)
Theorem dns_answers packet domain ips :
  match dns_response packet domain ips with
  | NoReply => True
  | Panics | OutOfFuel => False
  | Reply response =>
      String.length response <= String.length packet + 16 /\
      string_take 2 response = string_take 2 packet
  end /\
  forall header labels qtype qclass extra,
    String.length header = 12 -> Forall dns_label labels -> (qtype < 2 ^ 16)%N -> (qclass < 2 ^ 16)%N ->
    dns_response (query header labels qtype qclass extra) domain ips =
      Reply (dns_reply (string_take 2 header) (encode_labels labels +:+ be16 qtype +:+ be16 qclass)
        (if (qtype =? 1)%N && (qclass =? 1)%N then dns_answer (join "." labels) domain ips else None)).
Proof.
  split; [|intros header labels qtype qclass extra Hh HF Ht Hc].
  - unfold dns_response. destruct (String.length packet <? 12) eqn:El; [done|]. apply Nat.ltb_ge in El.
    destruct (read_labels _ packet 12 []) as [| |labels pos] eqn:Er; [done| |].
    { revert Er. apply read_labels_total. lia. }
    destruct (get_range 12 (pos + 4) packet) as [question|] eqn:Eq; [|done].
    apply get_range_Some in Eq as [Hr Hlen].
    destruct (u16_at_lt pos packet) as [qtype ->]; [lia|].
    destruct (u16_at_lt (pos + 2) packet) as [qclass ->]; [lia|].
    destruct packet as [|a [|b packet]]; [simpl in El; lia..|].
    change (get_range 0 2 (String a (String b packet))) with (Some (String a (String b EmptyString))).
    set (answer := if (qtype =? 1)%N && (qclass =? 1)%N then _ else None).
    split.
    + rewrite !string_app_length, Hlen. destruct answer; simpl in *; lia.
    + by rewrite string_take_app.
  - unfold dns_response, query.
    set (q := encode_labels labels +:+ be16 qtype +:+ be16 qclass).
    rewrite !string_app_length, Hh. rewrite (proj2 (Nat.ltb_ge _ 12)) by lia.
    assert (Hq : q +:+ extra = encode_labels labels +:+ (be16 qtype +:+ be16 qclass +:+ extra))
      by (unfold q; by rewrite !string_app_assoc).
    assert (Hqlen : String.length q = String.length (encode_labels labels) + 4)
      by (unfold q; by rewrite !string_app_length, !be16_length).
    rewrite Hq. rewrite <- Hh at 2. rewrite read_labels_encode by (done || lia). rewrite Hh.
    rewrite <- Hq. rewrite get_range_app by (done || lia). rewrite Hq.
    rewrite <- Hh, <- string_app_length, <- string_app_assoc, u16_at_be16 by done.
    assert (H2 : String.length (header +:+ encode_labels labels) + 2 =
      String.length ((header +:+ encode_labels labels) +:+ be16 qtype)) by (by rewrite !string_app_length).
    rewrite H2, <- (string_app_assoc (header +:+ encode_labels labels) (be16 qtype)), u16_at_be16 by done.
    destruct header as [|a [|b header]]; [done..|]. done.
Qed.

(** ** Redirects *)

Lemma no_char_cons c x s : no_char c (String x s) <-> c <> x /\ no_char c s.
Proof. unfold no_char. rewrite contains_char_cons, orb_false_iff. by rewrite Ascii.eqb_neq. Qed.

Lemma clean_target_no_char c target :
  c <> "?"%char -> c <> "&"%char -> no_char c target -> no_char c (clean_fork_request_target target).
Proof.
  intros Hq Ha Ht. unfold clean_fork_request_target.
  destruct (split_once "?" target) as [[p query]|] eqn:E; [|done].
  apply split_once_char in E as [-> _]. apply no_char_app in Ht as [Hp Hr].
  apply no_char_cons in Hr as [_ Hr].
  set (kept := filter _ (filter _ _)).
  assert (HF : Forall (no_char c) kept).
  { apply Forall_forall. intros x Hx. apply list_elem_of_filter in Hx as [_ Hx].
    apply list_elem_of_filter in Hx as [_ Hx]. by eapply split_char_no_char. }
  destruct kept as [|k ks]; [done|]. apply no_char_app. split; [done|].
  apply no_char_app. split; [by apply no_char_cons|]. apply join_no_char; [by apply no_char_cons|done].
Qed.

(** What a redirect sends a browser to cannot break out of its header line. *)
Theorem redirect_is_one_line domain has_state fork broker request response :
  (serve_request domain has_state fork broker request = Redirect response \/
   exists source dest, serve_request domain has_state fork broker request = ForkAndRedirect source dest response) ->
  exists location, response = redirect_response location /\
    no_char "010" location /\ no_char "013" location.
Proof.
  intros Hs. assert (Hm : exists host, maybe_fork_and_redirect domain has_state fork request host = Some (Redirect response) \/
    exists source dest, maybe_fork_and_redirect domain has_state fork request host = Some (ForkAndRedirect source dest response)).
  { unfold serve_request in Hs. destruct (request_host request) as [host|]; [|by destruct Hs as [|(? & ? & ?)]].
    exists host. destruct (maybe_fork_and_redirect _ _ _ _ _) as [o|].
    - destruct Hs as [->|(s & d & ->)]; eauto.
    - exfalso. unfold route_http_host in Hs.
      destruct (parse_host host domain); [destruct (broker _)|]; by destruct Hs as [|(? & ? & ?)]. }
  destruct Hm as [host Hm]. unfold maybe_fork_and_redirect in Hm.
  destruct (request_target request) as [target|] eqn:Et; simpl in Hm; [|by destruct Hm as [|(? & ? & ?)]].
  destruct (fork_source_from_request_target target); simpl in Hm; [|by destruct Hm as [|(? & ? & ?)]].
  destruct (parse_host host domain) as [r|]; [|by destruct Hm as [|(? & ? & ?)]].
  assert (Hw : forall c, (in_range 9 13 c || in_range 32 32 c) = true -> no_char c target).
  { intros c Hc. unfold request_target in Et. destruct (head _) as [line|]; simpl in Et; [|done].
    destruct (utf8_valid line); [|done].
    destruct (split_whitespace _) as [|m [|t ts]] eqn:Es; [done..|]. injection Et as ->.
    eapply split_whitespace_no_char; [exact Hc|]. rewrite Es. right. left. }
  exists (clean_fork_request_target target).
  assert (response = redirect_response (clean_fork_request_target target)) as ->.
  { destruct (has_state _) as [[]|]; [| |by destruct Hm as [|(? & ? & ?)]];
      [destruct Hm as [[= <-]|(? & ? & ?)]; done|].
    destruct (fork _ _); by destruct Hm as [|(? & ? & [= _ _ <-])]. }
  split; [done|]. split; apply clean_target_no_char; (done || by apply Hw).
Qed.

(** ** Concrete names and packets *)

Definition demo_route : route := mk_route "web" 3000.

Lemma ingress_routes_witness :
  parse_host "P3000-Web.LNX.:8080" "lnx" = inl demo_route /\
  parse_host "p+03000-web.lnx.lnx" "lnx" = inl demo_route /\
  parse_host (host_name "lnx" demo_route) "lnx" = inl demo_route.
Proof.
  split_and!; [vm_compute; reflexivity..|].
  refine (proj1 (proj2 (ingress_routes EmptyString "lnx" demo_route) _ _ _ _ _)).
  - split_and!; vm_compute; congruence.
  - split; reflexivity.
  - discriminate.
  - reflexivity.
  - reflexivity.
Defined.

Definition demo_headers : list string := ["GET / HTTP/1.1"; "host: p9222-web.lnx"; "Accept: */*"].

Lemma host_header_rewritten_witness :
  rewrite_http_host_header (join CRLF demo_headers +:+ CRLF +:+ CRLF +:+ "x") "127.0.0.1:9222" =
    join CRLF ["GET / HTTP/1.1"; "Host: 127.0.0.1:9222"; "Accept: */*"] +:+ CRLF +:+ CRLF +:+ "x".
Proof.
  rewrite (host_header_rewritten "127.0.0.1:9222" demo_headers "x"); [vm_compute; reflexivity|done|].
  repeat constructor; done.
Defined.

Lemma dns_answers_witness :
  dns_response (query "abcdefghijkl" ["p80-web"; "lnx"] 1 1 EmptyString) "lnx" ∅ =
    Reply (dns_reply "ab" (encode_labels ["p80-web"; "lnx"] +:+ be16 1 +:+ be16 1) (Some LOCALHOST)).
Proof.
  destruct (dns_answers EmptyString "lnx" ∅) as [_ H].
  rewrite (H "abcdefghijkl" ["p80-web"; "lnx"] 1 1 EmptyString)%N; [vm_compute; reflexivity|done| |done|done].
  repeat constructor; simpl; lia.
Defined.
