(* ===== verification/Locks.v ===== *)
(** * The locks of an instance

    [src/src/runner/locks.rs]: the instance lock, its guard and the lock that
    serializes starting an owner, taken by any number of threads of any number
    of processes, together with the commands that move an instance's directory
    away or put another in its place while holding the lock
    ([replace_instance_dir] of [src/src/server.rs], [delete_resolved_instance]
    of [src/src/cli.rs]).

    Every thread runs a program whose steps are its system calls; they
    interleave in any order.  A directory has an identity of its own, and a
    lock file is named by its directory and its name, as an inode is: lock
    files are never removed one by one, so renaming a directory takes its lock
    files along.  An [flock] belongs to an open file, which a forked child
    shares until it execs, and which the kernel closes when the last process
    that has it open dies.  Any system call may fail. *)

From S2P Require Import Prelude Text FsUtil Store.

(** ** Leases *)

Inductive lease_role := OwnerRole | MaintenanceRole | StarterRole.

#[global] Instance lease_role_eq_dec : EqDecision lease_role.
Proof. solve_decision. Defined.

Record lease := mk_lease {
  l_role : lease_role;
  l_process : process_identity;
  l_protocol_version : N;
  l_agent_source_stamp : string;
  l_binary_path : string;
}.

#[global] Instance lease_eq_dec : EqDecision lease.
Proof. solve_decision. Defined.

(** [serde_json] on leases: [to_vec] and [from_str]. *)
Class LeaseJson := {
  lease_to_vec : lease -> string;
  lease_from_str : string -> option lease;
}.

#[global] Instance process_identity_countable : Countable process_identity.
Proof.
  refine (inj_countable (fun p => (pid p, started p)) (fun x => Some (mk_process x.1 x.2)) _).
  by intros [].
Defined.

(** A lease of Rust strings. *)
Definition lease_valid (l : lease) : bool :=
  utf8_valid (l_agent_source_stamp l) && utf8_valid (l_binary_path l).

(** A lease as it is written. *)
Definition lease_line `{LeaseJson} (l : lease) : string := lease_to_vec l +:+ String "010" EmptyString.

(** What the code relies on: a lease is written as text, and reads back from
    what was written of it, and from no part of it but the whole. *)
Class LeaseJsonLaws `{LeaseJson} := {
  lease_text l : lease_valid l = true -> utf8_valid (lease_line l) = true;
  lease_roundtrip l n : lease_valid l = true -> String.length (lease_to_vec l) <= n ->
    lease_from_str (trim (string_take n (lease_line l))) = Some l;
  lease_torn l n : lease_valid l = true -> n < String.length (lease_to_vec l) ->
    lease_from_str (trim (string_take n (lease_line l))) = None;
  lease_blank : lease_from_str EmptyString = None;
}.

(** What a lock file says about its holder: nothing when it is blank or torn;
    reading it fails when it is not UTF-8. *)
Definition read_lease_from `{LeaseJson} (content : string) : option (option lease) :=
  if negb (utf8_valid content) then None
  else if bool_decide (trim content = EmptyString) then Some None
  else Some (lease_from_str (trim content)).

(** The start time of a process, field 22 of its [/proc/<pid>/stat]. *)
Definition process_start_time (stat : string) : option N :=
  '(_, fields) ← rsplit_once ")" stat;
  field ← split_whitespace fields !! 19;
  parse_unsigned (2 ^ 64) field.

(** [ProcessIdentity::of], of what the process table says about a pid. *)
Definition process_of (start_time : Z -> option N) (pid : Z) : option process_identity :=
  if (pid <=? 0)%Z then None else mk_process pid <$> start_time pid.

Definition is_running (start_time : Z -> option N) (p : process_identity) : bool :=
  bool_decide (process_of start_time (pid p) = Some p).

(** ** Lock files *)

Inductive lock_name := InstanceFile | GuardFile | StartFile.

#[global] Instance lock_name_eq_dec : EqDecision lock_name.
Proof. solve_decision. Defined.

#[global] Instance lock_name_countable : Countable lock_name.
Proof.
  refine (inj_countable (fun n => match n with InstanceFile => 0 | GuardFile => 1 | StartFile => 2 end)
            (fun k => match k with 0 => Some InstanceFile | 1 => Some GuardFile | _ => Some StartFile end) _).
  by intros [].
Defined.

Definition INSTANCE_LOCK : string := "instance.lock".
Definition INSTANCE_LOCK_GUARD : string := "instance.lock.guard".
Definition OWNER_START_LOCK : string := "owner-start.lock".

Definition file_name (n : lock_name) : string :=
  match n with
  | InstanceFile => INSTANCE_LOCK
  | GuardFile => INSTANCE_LOCK_GUARD
  | StartFile => OWNER_START_LOCK
  end.

(** A lock file: its directory and its name. *)
Abbreviation file := (N * lock_name)%type.

(** A directory: the lock files in it, and whether it holds an instance's
    state. *)
Record dir := mk_dir { d_locks : gset lock_name; d_state : bool }.

(** The instance lock as someone sees it who does not hold it. *)
Inductive lock_state :=
  | Free (stale : option lease)
  | Held (l : option lease).

Definition live_owner (st : lock_state) : option lease :=
  match st with
  | Held (Some l) => if bool_decide (l_role l = OwnerRole) then Some l else None
  | _ => None
  end.

Definition is_held (st : lock_state) : bool := match st with Held _ => true | Free _ => false end.

(** ** Programs *)

(** What the guard is taken for: the instance lock, or to look at it. *)
Inductive want := WantLock (role : lease_role) | WantState.

(** Which lock is being taken, and under which guard. *)
Inductive target :=
  | ForGuard (w : want)
  | ForInstance (guard : file) (role : lease_role)
  | ForStart.

Definition name_of (t : target) : lock_name :=
  match t with ForGuard _ => GuardFile | ForInstance _ _ => InstanceFile | ForStart => StartFile end.

(** Where a thread is; [next] is where it goes on once a lock is dropped. *)
Inductive point :=
  (* with_instance_guard *)
  | Exists
  | OpenProbe (guard : file)
  | LockProbe (guard f : file)
  | ReadProbe (guard f : file) (free : bool)
  | Unprobe (guard f : file) (stale : option lease)
  | Inspect (guard : option file) (st : lock_state)
  (* HeldLock::try_acquire *)
  | Retry (t : target)
  | CreateDir (t : target)
  | OpenLock (t : target)
  | TryLock (t : target) (f : file)
  | CheckPath (t : target) (f : file)
  | Busy (t : target)
  (* InstanceLock::try_acquire and OwnerStartLock::try_acquire *)
  | ReadStale (guard f : file) (role : lease_role)
  | Truncate (guard : option file) (f : file) (role : lease_role)
  | WriteLease (guard : option file) (f : file) (role : lease_role)
  | Holding (f : file) (role : lease_role)
  (* delete_resolved_instance and replace_instance_dir, holding the lock *)
  | Detached (f : file) (trash : N)
  | Replacing (f : file) (trash : N)
  | Undo (f : file) (trash : N)
  | Installed (f : file) (trash : N)
  | DropTrash (trash : N)
  (* dropping a HeldLock *)
  | Clear (f : file) (next : point)
  | Close (f : file) (next : point)
  | Finished
  (* a forked process that has not called exec *)
  | Child.

(** How a system call ended, or what the thread decides. *)
Inductive input :=
  | IOk
  | IFail
  | ITimeout
  | IInvalid
  | IPartial (n : nat)
  | IRelease
  | IDetach
  | IReplace
  | INotCleared.

(** What a step does beside moving its thread on. *)
Inductive effect :=
  | Nothing
  | Lock (f : file)
  | Unlock (f : file)
  | Share (f : file)
  | Unshare (f : file)
  | UnlockShared (f : file)
  | SetContents (f : file) (b : string)
  | Mkdir
  | Create (f : file)
  | MoveAway
  | Install
  | PutBack (trash : N)
  | Remove (trash : N).

#[global] Instance effect_eq_dec : EqDecision effect.
Proof. solve_decision. Defined.

Record thread := mk_thread { t_process : process_identity; t_at : point }.

(** [here] is the directory at the instance's path.  [exclusive] has, for a
    lock file, the threads that have its exclusive lock open; [shared] has the
    thread that took a shared lock and a thread that has it open, which is not
    the same in a forked child. *)
Record system := mk_system {
  here : option N;
  dirs : gmap N dir;
  next_dir : N;
  exclusive : gmap file (gset N);
  shared : gmap file (gset (N * N));
  contents : gmap file string;
  threads : gmap N thread;
  alive : gset process_identity;
  known : gset process_identity;
}.

(** ** Steps *)

Section steps.
Context `{LeaseJson}.

(** [PROTOCOL_VERSION], the stamp of the agent's source and the path of the
    binary, the same for every process here. *)
Context (protocol_version : N) (agent_source_stamp binary_path : string).

Definition for_current_process (role : lease_role) (p : process_identity) : lease :=
  mk_lease role p protocol_version agent_source_stamp binary_path.

Definition holders (f : file) (s : system) : gset N := default ∅ (exclusive s !! f).
Definition sharers (f : file) (s : system) : gset (N * N) := default ∅ (shared s !! f).
Definition content (f : file) (s : system) : string := default EmptyString (contents s !! f).

(** [flock] with [LOCK_NB] *)
Definition can_lock (f : file) (s : system) : bool :=
  bool_decide (holders f s = ∅) && bool_decide (sharers f s = ∅).

Definition can_share (f : file) (s : system) : bool := bool_decide (holders f s = ∅).

(** The file at a lock's path, and whether a file is it. *)
Definition file_at (n : lock_name) (s : system) : option file :=
  d ← here s;
  di ← dirs s !! d;
  if bool_decide (n ∈ d_locks di) then Some (d, n) else None.

Definition is_file_at (f : file) (s : system) : bool := bool_decide (file_at f.2 s = Some f).

Definition names_a_live_holder (l : option lease) (s : system) : bool :=
  match l with Some l => bool_decide (l_process l ∈ alive s) | None => false end.

(** Whether a directory can be renamed to the instance's path: nothing is
    there, or an empty directory. *)
Definition path_free (s : system) : bool :=
  match here s with
  | None => true
  | Some d =>
      match dirs s !! d with
      | Some di => bool_decide (d_locks di = ∅) && negb (d_state di)
      | None => true
      end
  end.

(** Where a thread goes that gives up, dropping the guard it may hold. *)
Definition acquire_fails (t : target) : point :=
  match t with
  | ForInstance g _ => Clear g Finished
  | _ => Finished
  end.

(** A lock has been taken at its path. *)
Definition acquired (t : target) (f : file) : point :=
  match t with
  | ForGuard (WantLock role) => CreateDir (ForInstance f role)
  | ForGuard WantState => OpenProbe f
  | ForInstance g role => ReadStale g f role
  | ForStart => Truncate None f StarterRole
  end.

(** Where an instance lock whose lease cannot be written is dropped. *)
Definition drop_both (guard : option file) (f : file) : point :=
  match guard with
  | Some g => Clear f (Clear g Finished)
  | None => Clear f Finished
  end.

(** [with_instance_guard] and [probe_instance_lock] *)
Definition probe_step (s : system) (a : point) (i : input) : option (effect * point) :=
  match a, i with
  | Exists, _ =>
      Some (Nothing, match here s with
                     | None => Inspect None (Free None)
                     | Some _ => CreateDir (ForGuard WantState)
                     end)
  | OpenProbe g, IOk =>
      Some (Nothing, match file_at InstanceFile s with
                     | None => Inspect (Some g) (Free None)
                     | Some f => LockProbe g f
                     end)
  | OpenProbe g, IFail => Some (Nothing, Clear g Finished)
  | LockProbe g f, IOk =>
      if can_share f s then Some (Share f, ReadProbe g f true) else Some (Nothing, ReadProbe g f false)
  | LockProbe g _, IFail => Some (Nothing, Clear g Finished)
  | ReadProbe g f free, IFail => Some (if free then Unshare f else Nothing, Clear g Finished)
  | ReadProbe g f free, (IOk | ITimeout) =>
      match read_lease_from (content f s) with
      | None => Some (if free then Unshare f else Nothing, Clear g Finished)
      | Some l =>
          if free then Some (Nothing, Unprobe g f l)
          else if names_a_live_holder l s then Some (Nothing, Inspect (Some g) (Held l))
          else match i with
               | ITimeout => Some (Nothing, Inspect (Some g) (Held l))
               | _ => Some (Nothing, LockProbe g f)
               end
      end
  | Unprobe g f l, IOk => Some (UnlockShared f, Inspect (Some g) (Free l))
  | Unprobe g f l, IFail => Some (Unshare f, Inspect (Some g) (Free l))
  | Inspect (Some g) _, _ => Some (Nothing, Clear g Finished)
  | Inspect None _, _ => Some (Nothing, Finished)
  | _, _ => None
  end.

(** [HeldLock::try_acquire] *)
Definition held_step (s : system) (a : point) (i : input) : option (effect * point) :=
  match a, i with
  | Retry t, _ => Some (Nothing, match here s with None => acquire_fails t | Some _ => CreateDir t end)
  | CreateDir t, IOk => Some (match here s with None => Mkdir | Some _ => Nothing end, OpenLock t)
  | CreateDir t, IFail => Some (Nothing, acquire_fails t)
  | OpenLock t, IOk =>
      match here s with
      | None => Some (Nothing, acquire_fails t)
      | Some d => Some (Create (d, name_of t), TryLock t (d, name_of t))
      end
  | OpenLock t, IFail => Some (Nothing, acquire_fails t)
  | TryLock t f, IOk =>
      if can_lock f s then Some (Lock f, CheckPath t f) else Some (Nothing, Busy t)
  | TryLock t _, IFail => Some (Nothing, acquire_fails t)
  | CheckPath t f, IOk =>
      if is_file_at f s then Some (Nothing, acquired t f) else Some (Unlock f, Retry t)
  | CheckPath t f, IFail => Some (Unlock f, acquire_fails t)
  | _, _ => None
  end.

(** What its callers do when the lock is busy: [acquire_with_timeout] and
    [InstanceLock::try_acquire]. *)
Definition busy_step (s : system) (a : point) (i : input) : option (effect * point) :=
  match a, i with
  | Busy (ForGuard w), IOk => Some (Nothing, CreateDir (ForGuard w))
  | Busy (ForGuard _), ITimeout => Some (Nothing, Finished)
  | Busy ForStart, _ => Some (Nothing, Finished)
  | Busy (ForInstance g role), IFail => Some (Nothing, Clear g Finished)
  | Busy (ForInstance g role), (IOk | ITimeout) =>
      match (match file_at InstanceFile s with
             | Some f => read_lease_from (content f s)
             | None => Some None
             end) with
      | None => Some (Nothing, Clear g Finished)
      | Some l =>
          if names_a_live_holder l s then Some (Nothing, Clear g Finished)
          else match i with
               | ITimeout => Some (Nothing, Clear g Finished)
               | _ => Some (Nothing, CreateDir (ForInstance g role))
               end
      end
  | _, _ => None
  end.

(** [InstanceLock::try_acquire] and [OwnerStartLock::try_acquire], with the lock
    taken; [w] is the process of the thread. *)
Definition lease_step (s : system) (w : process_identity) (a : point) (i : input) : option (effect * point) :=
  match a, i with
  | ReadStale g f role, IOk =>
      match read_lease_from (content f s) with
      | None => Some (Nothing, Clear f (Clear g Finished))
      | Some _ => Some (Nothing, Truncate (Some g) f role)
      end
  | ReadStale g f _, IInvalid => Some (Nothing, Close f (Clear g Finished))
  | ReadStale g f _, IFail => Some (Nothing, Clear f (Clear g Finished))
  | Truncate g f role, IOk => Some (SetContents f EmptyString, WriteLease g f role)
  | Truncate g f _, IFail => Some (Nothing, drop_both g f)
  | WriteLease g f role, IPartial n =>
      Some (SetContents f (string_take n (lease_line (for_current_process role w))), WriteLease g f role)
  | WriteLease g f role, IOk =>
      Some (SetContents f (lease_line (for_current_process role w)),
            match g with Some g => Clear g (Holding f role) | None => Holding f role end)
  | WriteLease g f _, IFail => Some (Nothing, drop_both g f)
  | _, _ => None
  end.

(** What holders do: release the lock, and [delete_resolved_instance] and
    [replace_instance_dir]. *)
Definition holder_step (s : system) (a : point) (i : input) : option (effect * point) :=
  match a, i with
  | Holding f _, IRelease => Some (Nothing, Clear f Finished)
  | Holding f MaintenanceRole, IDetach =>
      match here s with
      | None => Some (Nothing, Clear f Finished)
      | Some d => Some (MoveAway, Detached f d)
      end
  | Holding f MaintenanceRole, IReplace =>
      match here s with
      | None => Some (Nothing, Clear f Finished)
      | Some d => Some (MoveAway, Replacing f d)
      end
  | Detached f d, _ => Some (Nothing, Clear f (DropTrash d))
  | Replacing f d, IOk =>
      if path_free s then Some (Install, Installed f d) else Some (Nothing, Undo f d)
  | Replacing f d, IFail => Some (Nothing, Undo f d)
  | Undo f d, IOk =>
      if path_free s then Some (PutBack d, Clear f Finished) else Some (Nothing, Clear f (DropTrash d))
  | Undo f d, IFail => Some (Nothing, Clear f (DropTrash d))
  | Installed f d, _ => Some (Nothing, Clear f (DropTrash d))
  | DropTrash d, _ => Some (Remove d, Finished)
  | _, _ => None
  end.

(** Dropping a [HeldLock]. *)
Definition drop_step (a : point) (i : input) : option (effect * point) :=
  match a, i with
  | Clear f next, IOk => Some (SetContents f EmptyString, Close f next)
  | Clear f next, INotCleared => Some (Nothing, Close f next)
  | Close f next, _ => Some (Unlock f, next)
  | _, _ => None
  end.

(** A step of a thread of process [w] at [a]. *)
Definition step (s : system) (w : process_identity) (a : point) (i : input) : option (effect * point) :=
  match a with
  | Exists | OpenProbe _ | LockProbe _ _ | ReadProbe _ _ _ | Unprobe _ _ _ | Inspect _ _ => probe_step s a i
  | Retry _ | CreateDir _ | OpenLock _ | TryLock _ _ | CheckPath _ _ => held_step s a i
  | Busy _ => busy_step s a i
  | ReadStale _ _ _ | Truncate _ _ _ | WriteLease _ _ _ => lease_step s w a i
  | Holding _ _ | Detached _ _ | Replacing _ _ | Undo _ _ | Installed _ _ | DropTrash _ => holder_step s a i
  | Clear _ _ | Close _ _ => drop_step a i
  | Finished | Child => None
  end.

(** ** The system *)

(** The state with some of its parts replaced. *)
Definition with_path (h : option N) (ds : gmap N dir) (n : N) (s : system) : system :=
  mk_system h ds n (exclusive s) (shared s) (contents s) (threads s) (alive s) (known s).

Definition with_locks (ex : gmap file (gset N)) (sh : gmap file (gset (N * N))) (s : system) : system :=
  mk_system (here s) (dirs s) (next_dir s) ex sh (contents s) (threads s) (alive s) (known s).

Definition with_contents (cs : gmap file string) (s : system) : system :=
  mk_system (here s) (dirs s) (next_dir s) (exclusive s) (shared s) cs (threads s) (alive s) (known s).

Definition with_threads (ts : gmap N thread) (al kn : gset process_identity) (s : system) : system :=
  mk_system (here s) (dirs s) (next_dir s) (exclusive s) (shared s) (contents s) ts al kn.

(** What a rename to the instance's path leaves of an empty directory there. *)
Definition replaced (s : system) : gmap N dir :=
  match here s with Some d => delete d (dirs s) | None => dirs s end.

Definition apply_effect (p : N) (e : effect) (s : system) : system :=
  match e with
  | Nothing => s
  | Lock f => with_locks (<[f := {[p]}]> (exclusive s)) (shared s) s
  | Unlock f => with_locks (<[f := holders f s ∖ {[p]}]> (exclusive s)) (shared s) s
  | Share f => with_locks (exclusive s) (<[f := {[(p, p)]} ∪ sharers f s]> (shared s)) s
  | Unshare f => with_locks (exclusive s) (<[f := sharers f s ∖ {[(p, p)]}]> (shared s)) s
  | UnlockShared f =>
      with_locks (exclusive s) (<[f := filter (fun x => x.1 <> p) (sharers f s)]> (shared s)) s
  | SetContents f b => with_contents (<[f := b]> (contents s)) s
  | Mkdir =>
      with_path (Some (next_dir s)) (<[next_dir s := mk_dir ∅ false]> (dirs s)) (next_dir s + 1) s
  | Create f =>
      with_path (here s) (alter (fun di => mk_dir ({[f.2]} ∪ d_locks di) (d_state di)) f.1 (dirs s))
        (next_dir s) s
  | MoveAway => with_path None (dirs s) (next_dir s) s
  | Install =>
      with_path (Some (next_dir s)) (<[next_dir s := mk_dir ∅ true]> (replaced s)) (next_dir s + 1) s
  | PutBack d => with_path (Some d) (replaced s) (next_dir s) s
  | Remove d => with_path (here s) (delete d (dirs s)) (next_dir s) s
  end.

Inductive event :=
  (** A thread takes a step. *)
  | EStep (p : N) (i : input)
  (** A process, new or not, starts to run one of the functions. *)
  | ESpawn (p : N) (w : process_identity) (start : point)
  (** A thread's process forks; the child execs. *)
  | EFork (p child : N) (w : process_identity)
  | EExec (child : N)
  (** A process dies. *)
  | EDie (w : process_identity)
  (** An instance is published at the path by a rename (a fork, an import). *)
  | EPublish.

(** Where a thread starts. *)
Definition starts (a : point) : bool :=
  match a with
  | Exists | CreateDir (ForGuard (WantLock (OwnerRole | MaintenanceRole))) | CreateDir ForStart => true
  | _ => false
  end.

Definition of_process (w : process_identity) (s : system) (p : N) : bool :=
  match threads s !! p with Some t => bool_decide (t_process t = w) | None => false end.

(** The child has everything open its parent's threads have. *)
Definition inherit (w : process_identity) (c : N) (s : system) (hs : gset N) : gset N :=
  if existsb (of_process w s) (elements hs) then {[c]} ∪ hs else hs.

Definition inherit_shared (w : process_identity) (c : N) (s : system) (hs : gset (N * N)) : gset (N * N) :=
  set_map (fun x => (x.1, c)) (filter (fun x => of_process w s x.2 = true) hs) ∪ hs.

Definition survivors (w : process_identity) (s : system) (hs : gset N) : gset N :=
  filter (fun p => of_process w s p = false) hs.

Definition survivors_shared (w : process_identity) (s : system) (hs : gset (N * N)) : gset (N * N) :=
  filter (fun x => of_process w s x.2 = false) hs.

Definition exec (e : event) (s : system) : option system :=
  match e with
  | EStep p i =>
      t ← threads s !! p;
      '(e, a) ← step s (t_process t) (t_at t) i;
      let s' := apply_effect p e s in
      Some (with_threads (<[p := mk_thread (t_process t) a]> (threads s)) (alive s) (known s) s')
  | ESpawn p w start =>
      if starts start && bool_decide (threads s !! p = None) &&
         (bool_decide (w ∈ alive s) || bool_decide (w ∉ known s))
      then Some (with_threads (<[p := mk_thread w start]> (threads s)) ({[w]} ∪ alive s) ({[w]} ∪ known s) s)
      else None
  | EFork p c w =>
      t ← threads s !! p;
      if bool_decide (threads s !! c = None) && bool_decide (w ∉ known s) then
        Some (with_threads (<[c := mk_thread w Child]> (threads s)) ({[w]} ∪ alive s) ({[w]} ∪ known s)
               (with_locks (inherit (t_process t) c s <$> exclusive s)
                           (inherit_shared (t_process t) c s <$> shared s) s))
      else None
  | EExec c =>
      t ← threads s !! c;
      match t_at t with
      | Child =>
          Some (with_threads (delete c (threads s)) (alive s) (known s)
                 (with_locks ((fun hs => hs ∖ {[c]}) <$> exclusive s) (filter (fun x => x.2 <> c) <$> shared s) s))
      | _ => None
      end
  | EDie w =>
      Some (with_threads (filter (fun pt => t_process pt.2 <> w) (threads s)) (alive s ∖ {[w]}) (known s)
             (with_locks (survivors w s <$> exclusive s) (survivors_shared w s <$> shared s) s))
  | EPublish => if path_free s then Some (apply_effect 0 Install s) else None
  end.

Fixpoint execs (l : list event) (s : system) : option system :=
  match l with
  | [] => Some s
  | e :: l' => s' ← exec e s; execs l' s'
  end.

(** An instance nobody uses: its directory, if there is one, and what its
    lock files say. *)
Definition init (d : option dir) (leases : gmap lock_name string) (kn : gset process_identity) : system :=
  match d with
  | None => mk_system None ∅ 0 ∅ ∅ ∅ ∅ ∅ kn
  | Some di => mk_system (Some 0%N) {[ 0%N := di ]} 1 ∅ ∅ (kmap (pair 0%N) leases) ∅ ∅ kn
  end.

(** The states a system gets to by events that satisfy [ok]. *)
Inductive reachable (ok : event -> Prop) (s0 : system) : system -> Prop :=
  | reachable_init : reachable ok s0 s0
  | reachable_exec s e s' : reachable ok s0 s -> ok e -> exec e s = Some s' -> reachable ok s0 s'.

End steps.
