(* ===== verification/LocksLogic.v ===== *)
(** * What the instance's locks promise

    The invariants behind the theorems on [Locks]: what every program point
    holds, that no two threads hold one lock file, that the directory of an
    instance's holder stays at the instance's path, and that the leases in the
    lock files tell the truth. *)

From S2P Require Import Prelude Text FsUtil Store Locks.

(** ** What a program point holds *)

Definition guard_of (t : target) : list file :=
  match t with ForInstance g _ => [g] | _ => [] end.

Definition opt_file (g : option file) : list file :=
  match g with Some g => [g] | None => [] end.

(** The lock files a thread has locked. *)
Fixpoint holds (a : point) : list file :=
  match a with
  | OpenProbe g | LockProbe g _ | ReadProbe g _ _ | Unprobe g _ _ => [g]
  | Inspect g _ => opt_file g
  | Retry t | CreateDir t | OpenLock t | TryLock t _ | Busy t => guard_of t
  | CheckPath t f => f :: guard_of t
  | ReadStale g f _ => [f; g]
  | Truncate g f _ | WriteLease g f _ => f :: opt_file g
  | Holding f _ | Detached f _ | Replacing f _ | Undo f _ | Installed f _ => [f]
  | Clear f next | Close f next => f :: holds next
  | Exists | DropTrash _ | Finished | Child => []
  end.

(** The instance lock a thread may act on: it has been taken, at its path, and
    the instance has not been moved away since. *)
Fixpoint owns (a : point) : option file :=
  match a with
  | ReadStale _ f _ | Truncate _ f _ | WriteLease _ f _ | Holding f _ =>
      if bool_decide (f.2 = InstanceFile) then Some f else None
  | Clear _ next | Close _ next => owns next
  | _ => None
  end.

(** The directory a thread has moved away. *)
Fixpoint trash_of (a : point) : option N :=
  match a with
  | Detached _ d | Replacing _ d | Undo _ d | Installed _ d | DropTrash d => Some d
  | Clear _ next | Close _ next => trash_of next
  | _ => None
  end.

(** The lock files that may carry a thread's lease. *)
Fixpoint leased (a : point) : list file :=
  match a with
  | WriteLease _ f _ | Holding f _ | Detached f _ | Replacing f _ | Undo f _ | Installed f _ => [f]
  | Clear f next => f :: leased next
  | Close _ next => leased next
  | _ => []
  end.

(** Every lock is on the file its name says. *)
Definition well_targeted (t : target) : Prop :=
  match t with
  | ForInstance g role => g.2 = GuardFile /\ role <> StarterRole
  | ForGuard (WantLock role) => role <> StarterRole
  | _ => True
  end.

Definition lease_file (g : option file) (f : file) (role : lease_role) : Prop :=
  match g with
  | Some g => g.2 = GuardFile /\ f.2 = InstanceFile /\ role <> StarterRole
  | None => f.2 = StartFile /\ role = StarterRole
  end.

Fixpoint well_formed (a : point) : Prop :=
  match a with
  | OpenProbe g | Inspect (Some g) _ => g.2 = GuardFile
  | LockProbe g f | ReadProbe g f _ | Unprobe g f _ => g.2 = GuardFile /\ f.2 = InstanceFile
  | Retry t | CreateDir t | OpenLock t | Busy t => well_targeted t
  | TryLock t f | CheckPath t f => well_targeted t /\ f.2 = name_of t
  | ReadStale g f role => lease_file (Some g) f role
  | Truncate g f role | WriteLease g f role => lease_file g f role
  | Holding f role => f.2 = match role with StarterRole => StartFile | _ => InstanceFile end
  | Detached f _ | Replacing f _ | Undo f _ | Installed f _ => f.2 = InstanceFile
  | Clear f next | Close f next => well_formed next /\ Forall (fun g => g.2 <> f.2) (holds next)
  | _ => True
  end.

(** Case analysis on a step. *)
Ltac step_cases Hs a i :=
  unfold Locks.step, probe_step, held_step, busy_step, lease_step, holder_step, drop_step in Hs;
  destruct a; destruct i; try discriminate Hs;
  repeat match type of Hs with context [match ?x with _ => _ end] => destruct x eqn:? end;
  try discriminate Hs; injection Hs as <- <-;
  repeat match goal with
  | |- context [acquire_fails ?t] => is_var t; destruct t
  | |- context [acquired ?t _] => is_var t; destruct t as [[] | |]
  | |- context [drop_both ?g _] => is_var g; destruct g
  | _ : context [acquire_fails ?t] |- _ => is_var t; destruct t
  | _ : context [acquired ?t _] |- _ => is_var t; destruct t as [[] | |]
  | _ : context [drop_both ?g _] |- _ => is_var g; destruct g
  end.

(** Case analysis on whether a thread is the one that took the step. *)
Ltac thread_cases H :=
  apply lookup_insert_Some in H as [[<- <-] | [? H]]; simpl in *.

Section logic.
Context `{LeaseJson} (protocol_version : N) (agent_source_stamp binary_path : string).

Abbreviation step := (step protocol_version agent_source_stamp binary_path).
Abbreviation exec := (exec protocol_version agent_source_stamp binary_path).
Abbreviation reachable := (reachable protocol_version agent_source_stamp binary_path).

(** ** Steps *)

Lemma file_at_spec n s f : file_at n s = Some f ->
  f.2 = n /\ here s = Some f.1 /\ exists di, dirs s !! f.1 = Some di /\ n ∈ d_locks di.
Proof.
  unfold file_at. intros Hf. destruct (here s) as [d |]; simplify_eq/=.
  destruct (dirs s !! d) as [di |] eqn:Hd; simplify_eq/=. case_bool_decide; naive_solver.
Qed.

Lemma step_well_formed s w a i e a' : step s w a i = Some (e, a') -> well_formed a -> well_formed a'.
Proof.
  intros Hs Hw. step_cases Hs a i.
  all: try match goal with H : file_at _ _ = Some _ |- _ => apply file_at_spec in H end.
  all: simpl in *; rewrite ?Forall_cons, ?Forall_nil; try solve [intuition congruence].
  all: destruct role; intuition congruence.
Qed.

Ltac in_list := let x := fresh in intros x; rewrite ?elem_of_cons, ?elem_of_nil; tauto.

Lemma drop_held (f : file) l : Forall (fun g => g.2 <> f.2) l -> f ∈ f :: l /\ l ⊆ f :: l /\ f ∉ l.
Proof.
  rewrite Forall_forall. intros Hl. split_and!; [left | in_list |]. by intros Hf%Hl.
Qed.

(** A step takes a lock that is free, and drops one it held. *)
Lemma step_holds s w a i e a' : step s w a i = Some (e, a') -> well_formed a ->
  match e with
  | Lock f => can_lock f s = true /\ holds a' ⊆ f :: holds a
  | Unlock f => f ∈ holds a /\ holds a' ⊆ holds a /\ f ∉ holds a'
  | _ => holds a' ⊆ holds a
  end.
Proof.
  intros Hs Hw. step_cases Hs a i.
  all: simpl in *; subst; simpl in *; try solve [in_list | split; [done | in_list] | by apply drop_held].
  all: apply drop_held; try destruct t; simpl in *; rewrite ?Forall_singleton, ?Forall_nil; intuition congruence.
Qed.

Lemma owns_holds a f : owns a = Some f -> f ∈ holds a /\ f.2 = InstanceFile.
Proof.
  induction a; simpl; intros Ho; try discriminate Ho; try case_bool_decide; simplify_eq/=;
    rewrite ?elem_of_cons; tauto.
Qed.

Lemma leased_holds a f : f ∈ leased a -> f ∈ holds a.
Proof.
  induction a; simpl; rewrite ?elem_of_cons, ?elem_of_nil; tauto.
Qed.

(** A thread comes to own the instance when it has found the lock it took at
    the instance's path. *)
Lemma step_owns s w a i e a' f : step s w a i = Some (e, a') -> owns a' = Some f ->
  owns a = Some f \/
  e = Nothing /\ f ∈ holds a /\ file_at InstanceFile s = Some f.
Proof.
  intros Hs Ho. step_cases Hs a i; simpl in *; try discriminate Ho; try (by left).
  all: case_bool_decide as Hf; simplify_eq; right; unfold is_file_at in *; rewrite bool_decide_eq_true in *.
  all: rewrite Hf in *; rewrite elem_of_cons; auto.
Qed.

(** What a step does to the instance's path. *)
Lemma step_path s w a i e a' : step s w a i = Some (e, a') -> well_formed a ->
  match e with
  | Mkdir => here s = None
  | Create f => here s = Some f.1
  | MoveAway =>
      exists f d, owns a = Some f /\ owns a' = None /\ here s = Some d /\ trash_of a = None /\ trash_of a' = Some d
  | Install => path_free s = true
  | PutBack d => path_free s = true /\ trash_of a = Some d /\ trash_of a' = None
  | Remove d => trash_of a = Some d /\ trash_of a' = None
  | _ => True
  end.
Proof.
  intros Hs Hw. step_cases Hs a i; simpl in *; auto.
  all: destruct f as [? nm]; simpl in *; subst nm; eauto 10.
Qed.

Lemma step_trash s w a i e a' d : step s w a i = Some (e, a') -> trash_of a' = Some d ->
  trash_of a = Some d \/ e = MoveAway.
Proof.
  intros Hs Ht. step_cases Hs a i; simpl in *; auto; discriminate Ht.
Qed.

(** ** Effects *)

Lemma path_free_spec s n f : path_free s = true -> file_at n s = Some f -> False.
Proof.
  intros Hp (_ & Hh & di & Hd & Hn)%file_at_spec. revert Hp. unfold path_free. rewrite Hh, Hd.
  intros [Hl%bool_decide_eq_true _]%andb_true_iff. rewrite Hl in Hn. by apply not_elem_of_empty in Hn.
Qed.

Lemma file_at_intro s f di :
  here s = Some f.1 -> dirs s !! f.1 = Some di -> f.2 ∈ d_locks di -> file_at f.2 s = Some f.
Proof.
  intros Hh Hd Hn. unfold file_at. rewrite Hh. simpl. rewrite Hd. simpl.
  rewrite bool_decide_eq_true_2 by done. by destruct f.
Qed.

Lemma holders_kept p e s q f : q ∈ holders f s ->
  (forall g, e = Lock g -> can_lock g s = true) -> (e = Unlock f -> q <> p) ->
  q ∈ holders f (apply_effect p e s).
Proof.
  intros Hq Hl Hu. destruct e as [| g | g | g | g | g | g b | | g | | | d | d]; try done; unfold holders in *; simpl.
  - specialize (Hl g eq_refl). unfold can_lock, holders in Hl. rewrite andb_true_iff, !bool_decide_eq_true in Hl.
    destruct (decide (f = g)) as [<- |]; [| by rewrite lookup_insert_ne].
    destruct Hl as [Hl _]. rewrite Hl in Hq. by apply not_elem_of_empty in Hq.
  - destruct (decide (g = f)) as [-> |]; [| by rewrite lookup_insert_ne]. rewrite lookup_insert_eq. simpl.
    apply elem_of_difference. rewrite elem_of_singleton. auto.
Qed.

Lemma holders_lock p s f : p ∈ holders f (apply_effect p (Lock f) s).
Proof. unfold holders. simpl. rewrite lookup_insert_eq. simpl. by apply elem_of_singleton. Qed.

(** What is at the instance's path stays there, unless it is moved away. *)
Lemma file_at_kept p e s n f : file_at n s = Some f ->
  match e with
  | Mkdir => here s = None
  | MoveAway => False
  | Install | PutBack _ => path_free s = true
  | Remove d => here s <> Some d
  | _ => True
  end ->
  file_at n (apply_effect p e s) = Some f.
Proof.
  intros Hf He. destruct e as [| g | g | g | g | g | g b | | g | | | d | d]; try done.
  all: try (by destruct (path_free_spec s n f)).
  all: pose proof (file_at_spec _ _ _ Hf) as (<- & Hh & di & Hd & Hn).
  - congruence.
  - destruct (decide (g.1 = f.1)) as [E |].
    + apply (file_at_intro _ _ (mk_dir ({[g.2]} ∪ d_locks di) (d_state di))); simpl; [done | | set_solver].
      by rewrite E, lookup_alter_eq, Hd.
    + apply (file_at_intro _ _ di); simpl; [done | by rewrite lookup_alter_ne | done].
  - apply (file_at_intro _ _ di); simpl; [done | | done]. by rewrite lookup_delete_ne by congruence.
Qed.

(** ** The invariant *)

Record inv (s : system) : Prop := {
  inv_formed p t : threads s !! p = Some t -> well_formed (t_at t);
  inv_holders p t f : threads s !! p = Some t -> f ∈ holds (t_at t) -> p ∈ holders f s;
  inv_unique p q t u f : threads s !! p = Some t -> threads s !! q = Some u ->
    f ∈ holds (t_at t) -> f ∈ holds (t_at u) -> p = q;
  inv_owner p t f : threads s !! p = Some t -> owns (t_at t) = Some f -> file_at InstanceFile s = Some f;
  inv_trash p t d : threads s !! p = Some t -> trash_of (t_at t) = Some d ->
    (d < next_dir s)%N /\ here s <> Some d;
  inv_trash_unique p q t u d : threads s !! p = Some t -> threads s !! q = Some u ->
    trash_of (t_at t) = Some d -> trash_of (t_at u) = Some d -> p = q;
  inv_here d : here s = Some d -> (d < next_dir s)%N;
}.

(** At most one thread owns the instance. *)
Lemma inv_owner_unique s p q t u f g : inv s ->
  threads s !! p = Some t -> threads s !! q = Some u ->
  owns (t_at t) = Some f -> owns (t_at u) = Some g -> p = q /\ f = g.
Proof.
  intros I Ht Hu Hf Hg.
  assert (f = g) as <- by (pose proof (inv_owner _ I _ _ _ Ht Hf); pose proof (inv_owner _ I _ _ _ Hu Hg); congruence).
  split; [| done]. by apply (inv_unique _ I p q t u f); try apply owns_holds.
Qed.

Lemma inv_init d leases kn : inv (init d leases kn).
Proof.
  split; destruct d; simpl; try done; intros; simplify_eq; lia.
Qed.

(** The state after a thread's step. *)
Definition after (s : system) (p : N) (t : thread) (e : effect) (a : point) : system :=
  with_threads (<[p := mk_thread (t_process t) a]> (threads s)) (alive s) (known s) (apply_effect p e s).

Lemma exec_step s p i s' : exec (EStep p i) s = Some s' ->
  exists t e a, threads s !! p = Some t /\ step s (t_process t) (t_at t) i = Some (e, a) /\ s' = after s p t e a.
Proof.
  simpl. destruct (threads s !! p) as [t |] eqn:Ht; [simpl | done].
  destruct (Locks.step _ _ _ s (t_process t) (t_at t) i) as [[e a] |] eqn:Hs; [simpl | done].
  intros [= <-]. by exists t, e, a.
Qed.

Lemma step_inv_holders s p t i e a : inv s -> threads s !! p = Some t ->
  step s (t_process t) (t_at t) i = Some (e, a) ->
  forall q u f, threads (after s p t e a) !! q = Some u -> f ∈ holds (t_at u) -> q ∈ holders f (apply_effect p e s).
Proof.
  intros I Ht Hs q u f Hu Hf. pose proof (step_holds _ _ _ _ _ _ Hs (inv_formed _ I _ _ Ht)) as Hh.
  assert (Hl : forall g, e = Lock g -> can_lock g s = true) by (intros g ->; apply Hh).
  simpl in Hu. thread_cases Hu.
  - destruct e as [| g | g | g | g | g | g b | | g | | | d | d].
    2: { destruct Hh as [Hc Hh]. apply Hh, elem_of_cons in Hf as [<- | Hf]; [apply holders_lock |].
         apply holders_kept; [by apply (inv_holders _ I _ t) | done | done]. }
    2: { destruct Hh as (_ & Hh & Hg).
         apply holders_kept; [by apply (inv_holders _ I _ t), Hh | done |]. by intros [= ->]. }
    all: apply holders_kept; [by apply (inv_holders _ I _ t), Hh | done | done].
  - apply holders_kept; [by apply (inv_holders _ I _ u) | done | congruence].
Qed.

Section one_step.
Context (s : system) (p : N) (t : thread) (i : input) (e : effect) (a : point).
Context (I : inv s) (Ht : threads s !! p = Some t) (Hs : step s (t_process t) (t_at t) i = Some (e, a)).

Let Hholds := step_holds _ _ _ _ _ _ Hs (inv_formed _ I _ _ Ht).
Let Hpath := step_path _ _ _ _ _ _ Hs (inv_formed _ I _ _ Ht).

(** What a thread holds after its step, it held before or has just locked. *)
Lemma step_holds_or_locks f : f ∈ holds a -> f ∈ holds (t_at t) \/ e = Lock f /\ holders f s = ∅.
Proof.
  intros Hf. destruct e; try (left; by apply Hholds); destruct Hholds as [Hc Hh].
  apply Hh, elem_of_cons in Hf as [-> |]; [right | by left].
  unfold can_lock in Hc. rewrite andb_true_iff, !bool_decide_eq_true in Hc. tauto.
Qed.

Lemma step_inv_unique q u f : threads s !! q = Some u -> q <> p ->
  f ∈ holds a -> f ∈ holds (t_at u) -> False.
Proof.
  intros Hu Hq Hf Hg. apply step_holds_or_locks in Hf as [Hf | [_ Hf]].
  - by apply Hq, (inv_unique _ I q p u t f).
  - pose proof (inv_holders _ I _ _ _ Hu Hg) as Hx. rewrite Hf in Hx. by apply not_elem_of_empty in Hx.
Qed.

Lemma step_inv_file n f : file_at n s = Some f -> e <> MoveAway ->
  file_at n (apply_effect p e s) = Some f.
Proof.
  intros Hf He. apply file_at_kept; [done |]. destruct e; try done; try by destruct Hpath.
  apply (inv_trash _ I p t); [done | by destruct Hpath].
Qed.

Lemma step_inv_owner q u f : threads (after s p t e a) !! q = Some u -> owns (t_at u) = Some f ->
  file_at InstanceFile (apply_effect p e s) = Some f.
Proof.
  intros Hu Hf. simpl in Hu. destruct (decide (e = MoveAway)) as [-> | He].
  - destruct Hpath as (g & d & Hg & Hg' & _). thread_cases Hu; [congruence |].
    by destruct (inv_owner_unique s p q t u g f) as [-> _].
  - apply step_inv_file; [| done]. thread_cases Hu; [| by apply (inv_owner _ I q u)].
    destruct (step_owns _ _ _ _ _ _ _ Hs Hf) as [Hf' | (_ & _ & Hf')]; [| done].
    by apply (inv_owner _ I p t).
Qed.

Lemma step_next_dir : (next_dir s <= next_dir (apply_effect p e s))%N.
Proof. destruct e; simpl; lia. Qed.

Lemma step_inv_here d : here (apply_effect p e s) = Some d -> (d < next_dir (apply_effect p e s))%N.
Proof.
  destruct e; simpl; intros Hd; simplify_eq; try lia; try (by apply (inv_here _ I)).
  apply (inv_trash _ I p t); [done | by destruct Hpath as (_ & ? & _)].
Qed.

(** A directory another thread moved away. *)
Lemma step_inv_trash_other q u d : threads s !! q = Some u -> q <> p -> trash_of (t_at u) = Some d ->
  here (apply_effect p e s) <> Some d.
Proof.
  intros Hu Hq Hd. pose proof (inv_trash _ I _ _ _ Hu Hd) as [Hn Hh].
  destruct e; simpl; try done; intros [= Hx]; try lia. subst trash.
  destruct Hpath as (_ & Hp & _). by apply Hq, (inv_trash_unique _ I q p u t d).
Qed.

Lemma step_inv_trash_self d : trash_of a = Some d ->
  (d < next_dir s)%N /\ here (apply_effect p e s) <> Some d.
Proof.
  intros Hd. destruct (step_trash _ _ _ _ _ _ _ Hs Hd) as [Hd' | ->].
  - pose proof (inv_trash _ I _ _ _ Ht Hd') as [Hn Hh]. split; [done |].
    destruct e; simpl; try done; intros [= Hx]; try lia.
    destruct Hpath as (_ & _ & Hp). congruence.
  - destruct Hpath as (g & d' & Hg & Hg' & Hh & _ & Hd'). simpl. split; [| done].
    apply (inv_here _ I). congruence.
Qed.

Lemma step_inv_trash q u d : threads (after s p t e a) !! q = Some u -> trash_of (t_at u) = Some d ->
  (d < next_dir (apply_effect p e s))%N /\ here (apply_effect p e s) <> Some d.
Proof.
  intros Hu Hd. pose proof step_next_dir. simpl in Hu. thread_cases Hu.
  - destruct (step_inv_trash_self d Hd). split; [lia | done].
  - destruct (inv_trash _ I _ _ _ Hu Hd). split; [lia |]. by apply (step_inv_trash_other q u).
Qed.

Lemma step_inv_trash_unique q u d : threads s !! q = Some u -> q <> p ->
  trash_of a = Some d -> trash_of (t_at u) = Some d -> False.
Proof.
  intros Hu Hq Hd Hd'. destruct (step_trash _ _ _ _ _ _ _ Hs Hd) as [Hd'' | ->].
  - by apply Hq, (inv_trash_unique _ I q p u t d).
  - destruct Hpath as (g & d' & _ & _ & Hh & _ & Hd''). apply (inv_trash _ I _ _ _ Hu Hd'). congruence.
Qed.

Lemma inv_step : inv (after s p t e a).
Proof.
  split.
  - intros q u Hu. simpl in Hu. thread_cases Hu; [| by apply (inv_formed _ I q)].
    by apply (step_well_formed _ _ _ _ _ _ Hs), (inv_formed _ I p).
  - intros q u f Hu Hf. by apply (step_inv_holders s p t i e a I Ht Hs q u).
  - intros q r u v f Hu Hv Hf Hg. simpl in Hu, Hv. thread_cases Hu; thread_cases Hv.
    + done.
    + by destruct (step_inv_unique r v f).
    + by destruct (step_inv_unique q u f).
    + by apply (inv_unique _ I q r u v f).
  - intros q u f Hu Hf. by apply (step_inv_owner q u).
  - intros q u d Hu Hd. by apply (step_inv_trash q u).
  - intros q r u v d Hu Hv Hd Hd'. simpl in Hu, Hv. thread_cases Hu; thread_cases Hv.
    + done.
    + by destruct (step_inv_trash_unique r v d).
    + by destruct (step_inv_trash_unique q u d).
    + by apply (inv_trash_unique _ I q r u v d).
  - apply step_inv_here.
Qed.
End one_step.

(** ** The other events *)

(** A point at which a thread has nothing. *)
Definition idle (a : point) : Prop :=
  holds a = [] /\ owns a = None /\ trash_of a = None /\ well_formed a.

Lemma starts_idle a : starts a = true -> idle a.
Proof. destruct a as [| | | | | | | [[[] |] | |] | | | | | | | | | | | | | | | | |]; done. Qed.

(** An event that leaves the instance's path alone, and every thread with the
    locks it has. *)
Record quiet (s s' : system) : Prop := {
  quiet_here : here s' = here s;
  quiet_dirs : dirs s' = dirs s;
  quiet_next : next_dir s' = next_dir s;
  quiet_threads p t : threads s' !! p = Some t ->
    threads s !! p = Some t /\ (forall f, p ∈ holders f s -> p ∈ holders f s') \/ idle (t_at t);
}.

Lemma quiet_busy s s' p t : quiet s s' -> threads s' !! p = Some t ->
  holds (t_at t) <> [] \/ owns (t_at t) <> None \/ trash_of (t_at t) <> None -> threads s !! p = Some t.
Proof.
  intros Q Ht Hb. destruct (quiet_threads _ _ Q _ _ Ht) as [[Hp _] | (H1 & H2 & H3 & _)]; [done |].
  rewrite H1, H2, H3 in Hb. by destruct Hb as [[] | [[] | []]].
Qed.

Lemma quiet_file_at s s' n : quiet s s' -> file_at n s' = file_at n s.
Proof. intros Q. unfold file_at. by rewrite (quiet_here _ _ Q), (quiet_dirs _ _ Q). Qed.

Lemma inv_quiet s s' : quiet s s' -> inv s -> inv s'.
Proof.
  intros Q I. pose proof (quiet_busy s s') as B. split.
  - intros p t Ht. destruct (quiet_threads _ _ Q _ _ Ht) as [[Hp _] | (_ & _ & _ & Hw)]; [| done].
    by apply (inv_formed _ I p).
  - intros p t f Ht Hf. destruct (quiet_threads _ _ Q _ _ Ht) as [[Hp Hk] | (Hn & _)].
    + by apply Hk, (inv_holders _ I p t).
    + rewrite Hn in Hf. by apply elem_of_nil in Hf.
  - intros p q t u f Ht Hu Hf Hg. apply (inv_unique _ I p q t u f); try done.
    + apply B; [done | done |]. left. intros Hn. rewrite Hn in Hf. by apply elem_of_nil in Hf.
    + apply B; [done | done |]. left. intros Hn. rewrite Hn in Hg. by apply elem_of_nil in Hg.
  - intros p t f Ht Ho. rewrite (quiet_file_at _ _ _ Q). apply (inv_owner _ I p t); [| done].
    apply B; [done | done |]. right; left. congruence.
  - intros p t d Ht Hd. rewrite (quiet_here _ _ Q), (quiet_next _ _ Q). apply (inv_trash _ I p t); [| done].
    apply B; [done | done |]. right; right. congruence.
  - intros p q t u d Ht Hu Hd Hd'. apply (inv_trash_unique _ I p q t u d); try done.
    + apply B; [done | done |]. right; right. congruence.
    + apply B; [done | done |]. right; right. congruence.
  - intros d. rewrite (quiet_here _ _ Q), (quiet_next _ _ Q). apply (inv_here _ I).
Qed.

Lemma holders_fmap p f s (g : gset N -> gset N) h sh :
  (forall hs, p ∈ hs -> p ∈ g hs) -> p ∈ holders f s ->
  p ∈ holders f (with_threads h (alive s) (known s) (with_locks (g <$> exclusive s) sh s)).
Proof.
  intros Hg. unfold holders. simpl. rewrite lookup_fmap. destruct (exclusive s !! f); simpl; [apply Hg |].
  intros Hp. by apply not_elem_of_empty in Hp.
Qed.

Lemma exec_quiet e s s' : exec e s = Some s' ->
  match e with EStep _ _ | EPublish => True | _ => quiet s s' end.
Proof.
  destruct e as [p i | p w a | p c w | c | w |]; simpl; intros He; try done.
  - case_match eqn:E; simplify_eq. rewrite !andb_true_iff in E. destruct E as [[Ha%starts_idle _] _].
    split; try done. simpl. intros q t Hq. thread_cases Hq; [by right | by left].
  - destruct (threads s !! p) as [t |] eqn:Ht; simplify_eq/=. case_match eqn:E; simplify_eq.
    split; try done. simpl. intros q u Hq. thread_cases Hq; [by right | left]. split; [done |].
    intros f. apply (holders_fmap q f s). intros hs Hq'. unfold inherit. case_match; [set_solver | done].
  - destruct (threads s !! c) as [t |] eqn:Ht; simplify_eq/=. destruct (t_at t) eqn:Ha; simplify_eq.
    split; try done. simpl. intros q u [Hqc Hq]%lookup_delete_Some. left. split; [done |].
    intros f. apply (holders_fmap q f s). set_solver.
  - simplify_eq. split; try done. simpl. intros q u [Hq Hw]%map_lookup_filter_Some. left. split; [done |].
    intros f. apply (holders_fmap q f s). intros hs Hq'. unfold survivors.
    apply elem_of_filter. split; [| done]. unfold of_process. rewrite Hq. simpl in Hw. by rewrite bool_decide_eq_false.
Qed.

Lemma inv_publish s : inv s -> path_free s = true -> inv (apply_effect 0 Install s).
Proof.
  intros I Hp. split; simpl.
  - apply (inv_formed _ I).
  - apply (inv_holders _ I).
  - apply (inv_unique _ I).
  - intros p t f Ht Ho. destruct (path_free_spec s InstanceFile f Hp). by apply (inv_owner _ I p t).
  - intros p t d Ht Hd. destruct (inv_trash _ I p t d Ht Hd). split; [lia |]. intros [= <-]. lia.
  - apply (inv_trash_unique _ I).
  - intros d [= <-]. lia.
Qed.

Lemma inv_exec e s s' : inv s -> exec e s = Some s' -> inv s'.
Proof.
  intros I He. pose proof (exec_quiet e s s' He) as Q. destruct e as [p i | | | | |].
  - destruct (exec_step s p i s' He) as (t & e & a & Ht & Hs & ->). by apply (inv_step s p t i e a).
  - by apply (inv_quiet s).
  - by apply (inv_quiet s).
  - by apply (inv_quiet s).
  - by apply (inv_quiet s).
  - simpl in He. destruct (path_free s) eqn:Hp; simplify_eq. by apply inv_publish.
Qed.

Lemma inv_reachable ok s0 s : inv s0 -> reachable ok s0 s -> inv s.
Proof. intros I0. induction 1; [done |]. by eapply inv_exec. Qed.

(** ** Leases *)

Context `{!LeaseJsonLaws} (valid_stamp : utf8_valid agent_source_stamp = true).
Context (valid_path : utf8_valid binary_path = true).

Abbreviation for_current_process := (for_current_process protocol_version agent_source_stamp binary_path).

Lemma for_current_process_valid role w : lease_valid (for_current_process role w) = true.
Proof. unfold lease_valid. simpl. by rewrite valid_stamp, valid_path. Qed.

(** What was written of a lease reads as that lease, or as none. *)
Lemma read_written role w n l :
  read_lease_from (string_take n (lease_line (for_current_process role w))) = Some (Some l) ->
  l = for_current_process role w.
Proof.
  pose proof (for_current_process_valid role w) as Hv. unfold read_lease_from. case_match; [done |].
  case_bool_decide; [done |]. intros [= Hl].
  destruct (decide (n < String.length (lease_to_vec (for_current_process role w)))) as [Hn | Hn].
  - by rewrite lease_torn in Hl.
  - rewrite lease_roundtrip in Hl by (done || lia). congruence.
Qed.

Lemma read_lease_line role w :
  read_lease_from (lease_line (for_current_process role w)) = Some (Some (for_current_process role w)).
Proof.
  pose proof (for_current_process_valid role w) as Hv.
  assert (Hl : lease_from_str (trim (lease_line (for_current_process role w))) = Some (for_current_process role w)).
  { rewrite <- (string_take_ge _ (lease_line _) (le_n _)). apply lease_roundtrip; [done |].
    unfold lease_line. rewrite string_app_length. simpl. lia. }
  unfold read_lease_from. rewrite lease_text by done. simpl. case_bool_decide as Hb.
  - by rewrite Hb, lease_blank in Hl.
  - by rewrite Hl.
Qed.

(** A thread gives up a lease by erasing it. *)
Lemma step_leased s w a i e a' f : step s w a i = Some (e, a') -> i <> INotCleared ->
  f ∈ leased a -> f ∈ leased a' \/ e = SetContents f EmptyString.
Proof.
  intros Hs Hi Hf. step_cases Hs a i; simpl in *; try done; try (by left).
  all: rewrite ?elem_of_cons in *; destruct_or?; subst; tauto.
Qed.

(** What a thread writes to a lock file it holds: nothing, or its lease. *)
Lemma step_contents s w a i e a' : step s w a i = Some (e, a') ->
  match e with
  | SetContents f b =>
      f ∈ holds a /\
      (b = EmptyString \/
       f ∈ leased a' /\ exists role n, b = string_take n (lease_line (for_current_process role w)))
  | _ => True
  end.
Proof.
  intros Hs. step_cases Hs a i; simpl in *; try done; (split; [left |]); try (by left).
  all: right; split; [rewrite ?elem_of_cons; auto |].
  all: exists role.
  3: by exists n.
  all: eexists; symmetry; by apply string_take_ge.
Qed.

(** The leases in the lock files are those of processes that have run, and one
    of a process that still runs is that of a thread that has locked the file. *)
Record truthful (s : system) : Prop := {
  truthful_lease f l : read_lease_from (content f s) = Some (Some l) -> l_process l ∈ alive s ->
    exists p t, threads s !! p = Some t /\ t_process t = l_process l /\ f ∈ leased (t_at t);
  truthful_known f l : read_lease_from (content f s) = Some (Some l) -> l_process l ∈ known s;
  truthful_threads p t : threads s !! p = Some t -> t_process t ∈ known s;
}.

Lemma effect_contents p e s f :
  content f (apply_effect p e s) = match e with SetContents g b => if decide (f = g) then b else content f s | _ => content f s end.
Proof.
  destruct e; try done. simpl. unfold content. simpl. case_decide as E.
  - by rewrite E, lookup_insert_eq.
  - by rewrite lookup_insert_ne.
Qed.

Lemma read_blank l : read_lease_from EmptyString = Some (Some l) -> False.
Proof. unfold read_lease_from. by case_match. Qed.

Lemma truthful_step s p t i e a : truthful s -> threads s !! p = Some t ->
  step s (t_process t) (t_at t) i = Some (e, a) -> i <> INotCleared -> truthful (after s p t e a).
Proof.
  intros T Ht Hs Hi.
  assert (Hc : forall f l, read_lease_from (content f (after s p t e a)) = Some (Some l) ->
    l_process l = t_process t /\ f ∈ leased a \/
    read_lease_from (content f s) = Some (Some l) /\ e <> SetContents f EmptyString).
  { intros f l Hl. change (content f (after s p t e a)) with (content f (apply_effect p e s)) in Hl.
    rewrite effect_contents in Hl. destruct e as [| g | g | g | g | g | g b | | g | | | d | d]; try (by right).
    case_decide as E; [subst g | by right; split; [| intros [= ->]]].
    destruct (step_contents _ _ _ _ _ _ Hs) as [_ [-> | (Hf & role & n & ->)]].
    - by destruct (read_blank l).
    - left. apply read_written in Hl as ->. done. }
  split.
  - intros f l Hl Ha. destruct (Hc f l Hl) as [[Hp Hf] | [Hl' He]].
    { exists p, (mk_thread (t_process t) a). simpl. by rewrite lookup_insert_eq. }
    destruct (truthful_lease _ T f l Hl' Ha) as (q & u & Hu & Hp & Hf).
    destruct (decide (q = p)) as [-> | Hq].
    + exists p, (mk_thread (t_process t) a). simpl. rewrite lookup_insert_eq. simplify_eq.
      by destruct (step_leased _ _ _ _ _ _ f Hs Hi Hf).
    + exists q, u. simpl. by rewrite lookup_insert_ne.
  - intros f l Hl. destruct (Hc f l Hl) as [[Hp _] | [Hl' _]]; [| by apply (truthful_known _ T f)].
    rewrite Hp. by apply (truthful_threads _ T p).
  - intros q u Hu. simpl in Hu. thread_cases Hu; [by apply (truthful_threads _ T p) | by apply (truthful_threads _ T q)].
Qed.

(** The leases an instance nobody uses was left with are of processes that are
    known to have run. *)
Definition left_behind (leases : gmap lock_name string) (kn : gset process_identity) : Prop :=
  forall n b l, leases !! n = Some b -> read_lease_from b = Some (Some l) -> l_process l ∈ kn.

Lemma truthful_init d leases kn : left_behind leases kn -> truthful (init d leases kn).
Proof.
  intros Hk. destruct d as [di |]; simpl; (split; simpl; [done | | done]); intros f l.
  - unfold content. simpl. destruct (kmap (pair 0%N) leases !! f) as [b |] eqn:Hf.
    + apply (lookup_kmap_Some (pair 0%N)) in Hf as (n & -> & Hn). by apply (Hk n b).
    + by intros Hl%read_blank.
  - by intros Hl%read_blank.
Qed.

(** A process that starts has not run before, or runs already. *)
Lemma truthful_more s s' w : truthful s ->
  (forall f, content f s' = content f s) -> alive s' = {[w]} ∪ alive s -> known s' = {[w]} ∪ known s ->
  w ∈ alive s \/ w ∉ known s ->
  (forall p t, threads s !! p = Some t -> threads s' !! p = Some t) ->
  (forall p t, threads s' !! p = Some t -> threads s !! p = Some t \/ t_process t = w) ->
  truthful s'.
Proof.
  intros T Hc Ha Hk Hw Hkeep Hnew. split.
  - intros f l. rewrite Hc, Ha. intros Hl Hp. pose proof (truthful_known _ T f l Hl) as Hn.
    destruct (truthful_lease _ T f l Hl) as (p & t & Ht & Hf); [| exists p, t; auto].
    apply elem_of_union in Hp as [Hp%elem_of_singleton | Hp]; [| done]. by destruct Hw; subst.
  - intros f l. rewrite Hc, Hk. intros Hl. apply elem_of_union_r. by apply (truthful_known _ T f).
  - intros p t Ht. rewrite Hk. destruct (Hnew p t Ht) as [Ht' | ->]; [| set_solver].
    apply elem_of_union_r. by apply (truthful_threads _ T p).
Qed.

(** Threads that go are those of a process that died, or have no lease. *)
Lemma truthful_fewer s s' : truthful s ->
  (forall f, content f s' = content f s) -> alive s' ⊆ alive s -> known s' = known s ->
  (forall p t, threads s' !! p = Some t -> threads s !! p = Some t) ->
  (forall p t f, threads s !! p = Some t -> t_process t ∈ alive s' -> f ∈ leased (t_at t) -> threads s' !! p = Some t) ->
  truthful s'.
Proof.
  intros T Hc Ha Hk Hold Hkeep. split.
  - intros f l. rewrite Hc. intros Hl Hp. destruct (truthful_lease _ T f l Hl) as (p & t & Ht & Hw & Hf); [set_solver |].
    exists p, t. split_and!; try done. apply (Hkeep p t f); [done | by rewrite Hw | done].
  - intros f l. rewrite Hc, Hk. apply (truthful_known _ T).
  - intros p t Ht. rewrite Hk. by apply (truthful_threads _ T p), Hold.
Qed.

(** A release whose lease could not be erased. *)
Definition cleared (e : event) : Prop := match e with EStep _ INotCleared => False | _ => True end.

Lemma truthful_exec e s s' : truthful s -> exec e s = Some s' -> cleared e -> truthful s'.
Proof.
  intros T He Hc. destruct e as [p i | p w a | p c w | c | w |].
  - destruct (exec_step s p i s' He) as (t & e & a & Ht & Hs & ->). apply (truthful_step s p t i e a); try done.
    by intros ->.
  - simpl in He. case_match eqn:E; simplify_eq. rewrite !andb_true_iff, orb_true_iff, !bool_decide_eq_true in E.
    destruct E as [[_ Hp] Hw]. apply (truthful_more s _ w); try done; simpl.
    + intros q t Hq. by rewrite lookup_insert_ne by congruence.
    + intros q t Hq. thread_cases Hq; auto.
  - simpl in He. destruct (threads s !! p) as [t |] eqn:Ht; simplify_eq/=. case_match eqn:E; simplify_eq.
    rewrite andb_true_iff, !bool_decide_eq_true in E. destruct E as [Hp Hw].
    apply (truthful_more s _ w); try done; simpl; [by right | |].
    + intros q u Hq. by rewrite lookup_insert_ne by congruence.
    + intros q u Hq. thread_cases Hq; auto.
  - simpl in He. destruct (threads s !! c) as [t |] eqn:Ht; simplify_eq/=. destruct (t_at t) eqn:Ha; simplify_eq.
    apply (truthful_fewer s); try done; simpl.
    + by intros q u [_ Hq]%lookup_delete_Some.
    + intros q u f Hq _ Hf. rewrite lookup_delete_ne; [done |]. intros <-. simplify_eq.
      rewrite Ha in Hf. by apply elem_of_nil in Hf.
  - simpl in He. simplify_eq. apply (truthful_fewer s); try done; simpl; [set_solver | |].
    + by intros q u [Hq _]%map_lookup_filter_Some.
    + intros q u f Hq Hw _. apply map_lookup_filter_Some. split; [done | simpl; set_solver].
  - simpl in He. case_match; simplify_eq. destruct T. by split.
Qed.

Lemma truthful_reachable s0 s : truthful s0 -> reachable cleared s0 s -> truthful s.
Proof. intros T0. induction 1; [done |]. by eapply truthful_exec. Qed.

(** *** The lease of a holder *)

(** The lock a thread holds once it has recorded itself. *)
Fixpoint records (a : point) : option (file * lease_role) :=
  match a with
  | Holding f role => Some (f, role)
  | Clear _ next | Close _ next => records next
  | _ => None
  end.

Lemma records_holds a f role : records a = Some (f, role) -> f ∈ holds a.
Proof.
  induction a; simpl; intros Hr; simplify_eq; rewrite ?elem_of_cons; auto.
Qed.

Lemma step_records s w a i e a' f role : step s w a i = Some (e, a') -> well_formed a -> records a' = Some (f, role) ->
  records a = Some (f, role) /\ (forall b, e <> SetContents f b) \/
  e = SetContents f (lease_line (for_current_process role w)).
Proof.
  intros Hs Hw Hr. step_cases Hs a i; simpl in *; simplify_eq; auto.
  left. split; [done |]. intros b [= -> _]. apply records_holds in Hr.
  destruct Hw as [_ Hw]. rewrite Forall_forall in Hw. by apply (Hw f).
Qed.

Definition recorded (s : system) : Prop := forall p t f role,
  threads s !! p = Some t -> records (t_at t) = Some (f, role) ->
  content f s = lease_line (for_current_process role (t_process t)).

Lemma lease_recorded_step s p t i e a : inv s -> recorded s -> threads s !! p = Some t ->
  step s (t_process t) (t_at t) i = Some (e, a) -> recorded (after s p t e a).
Proof.
  intros I R Ht Hs q u f role Hu Hr.
  change (content f (after s p t e a)) with (content f (apply_effect p e s)). rewrite effect_contents.
  simpl in Hu. thread_cases Hu.
  - destruct (step_records _ _ _ _ _ _ _ _ Hs (inv_formed _ I _ _ Ht) Hr) as [[Hr' Hb] | ->].
    + rewrite <- (R p t f role Ht Hr'). destruct e; try done. case_decide as E; [| done]. subst. by destruct (Hb b).
    + by rewrite decide_True.
  - rewrite <- (R q u f role Hu Hr). pose proof (step_contents _ _ _ _ _ _ Hs) as Hc.
    destruct e; try done. case_decide as E; [| done]. subst f0. destruct Hc as [Hc _].
    apply records_holds in Hr. by destruct (inv_unique _ I p q t u f).
Qed.

Lemma lease_recorded_same s s' : recorded s -> (forall f, content f s' = content f s) ->
  (forall p t, threads s' !! p = Some t -> threads s !! p = Some t \/ idle (t_at t)) -> recorded s'.
Proof.
  intros R Hc Ht p t f role Hp Hr. rewrite Hc. destruct (Ht p t Hp) as [Hp' | (Hi & _)]; [by apply (R p) |].
  apply records_holds in Hr. rewrite Hi in Hr. by apply elem_of_nil in Hr.
Qed.

Lemma exec_contents e s s' f : exec e s = Some s' ->
  match e with EStep _ _ => True | _ => content f s' = content f s end.
Proof.
  destruct e as [p i | p w a | p c w | c | w |]; simpl; intros He; try done; unfold mbind, option_bind in He;
    repeat case_match; simplify_eq; done.
Qed.

Lemma lease_recorded_exec e s s' : inv s -> recorded s -> exec e s = Some s' -> recorded s'.
Proof.
  intros I R He. pose proof (exec_contents e s s') as Hc. pose proof (exec_quiet e s s' He) as Q.
  destruct e as [p i | p w a | p c w | c | w |].
  1: { destruct (exec_step s p i s' He) as (t & e & a & Ht & Hs & ->). by apply (lease_recorded_step s p t i e a). }
  5: { apply (lease_recorded_same s); [done | by intros f; apply Hc |]. simpl in He. case_match; simplify_eq. auto. }
  all: apply (lease_recorded_same s); [done | by intros f; apply Hc |]; intros q u Hq.
  all: destruct (quiet_threads _ _ Q q u Hq) as [[? _] | ?]; auto.
Qed.

Lemma lease_recorded_reachable ok s0 s : inv s0 -> recorded s0 -> reachable ok s0 s -> recorded s.
Proof.
  intros I0 R0 Hr. cut (inv s /\ recorded s); [tauto |]. induction Hr as [| s e s' Hr [I R] Hok He]; [done |].
  split; [by apply (inv_exec e s) | by apply (lease_recorded_exec e s)].
Qed.

Lemma lease_recorded_init d leases kn : recorded (init d leases kn).
Proof. destruct d; intros p t f role Hp; done. Qed.

End logic.
