(* ===== verification/LocksGuard.v ===== *)
(** * What the guard promises

    [with_instance_guard] of [src/src/runner/locks.rs]: as long as no command
    moves the instance's directory away, whoever holds the guard and has seen
    the instance lock free knows that nobody takes it. *)

From S2P Require Import Prelude Text FsUtil Store Locks LocksLogic.

(** The lock files a thread works on. *)
Fixpoint touches (a : point) : list file :=
  match a with
  | LockProbe g f | ReadProbe g f _ | Unprobe g f _ => [g; f]
  | TryLock t f | CheckPath t f => f :: guard_of t
  | Clear f next | Close f next => f :: touches next
  | _ => holds a
  end.

(** Whether a thread has seen the instance lock free. *)
Fixpoint sees_free (a : point) : bool :=
  match a with
  | Clear _ next | Close _ next => sees_free next
  | ReadProbe _ _ true | Unprobe _ _ _ | Inspect (Some _) (Free _) => true
  | _ => false
  end.

(** An event that moves no directory away. *)
Definition stays (e : event) : Prop :=
  match e with EStep _ (IDetach | IReplace) => False | _ => True end.

Section guard.
Context `{LeaseJson} (protocol_version : N) (agent_source_stamp binary_path : string).

Abbreviation step := (step protocol_version agent_source_stamp binary_path).
Abbreviation exec := (exec protocol_version agent_source_stamp binary_path).
Abbreviation reachable := (reachable protocol_version agent_source_stamp binary_path).

Lemma holds_touches a : holds a ⊆ touches a.
Proof.
  induction a; simpl; try done; intros x; rewrite ?elem_of_cons, ?elem_of_nil; auto; try tauto.
  - intros [-> | Hx]; auto.
  - intros [-> | Hx]; auto.
Qed.

Lemma step_moves s w a i e a' : step s w a i = Some (e, a') -> i <> IDetach -> i <> IReplace -> e <> MoveAway.
Proof. intros Hs H1 H2. step_cases Hs a i; done. Qed.

(** A thread works on files it finds or makes at the instance's path. *)
Lemma step_touches s w a i e a' f : step s w a i = Some (e, a') -> f ∈ touches a' ->
  f ∈ touches a \/ file_at f.2 s = Some f \/ e = Create f /\ here s = Some f.1.
Proof.
  intros Hs Hf. step_cases Hs a i; simpl in *; rewrite ?elem_of_cons, ?elem_of_nil in *; try tauto.
  - apply file_at_spec in Heqo as Hp. destruct Hf as [-> | [-> | []]]; [tauto |].
    right; left. by rewrite (proj1 Hp).
  - destruct Hf as [-> | Hf]; tauto.
Qed.

(** The instance lock is only taken, or seen free, under the guard. *)
Lemma guarded_lock s w a i f a' : step s w a i = Some (Lock f, a') -> well_formed a ->
  f ∈ touches a /\ (f.2 = InstanceFile -> exists g, g ∈ holds a /\ g.2 = GuardFile).
Proof.
  intros Hs Hw. unfold Locks.step, probe_step, held_step, busy_step, lease_step, holder_step, drop_step in Hs.
  destruct a; destruct i; try discriminate Hs; repeat case_match; simplify_eq.
  simpl in *. split; [left |]. destruct Hw as [Ht Hn]. rewrite Hn.
  destruct t as [| g role |]; simpl in *; try done. exists g. split; [left | by destruct Ht].
Qed.

Lemma guarded_free a : sees_free a = true -> well_formed a -> exists g, g ∈ holds a /\ g.2 = GuardFile.
Proof.
  induction a as [| | | | | | | | | | | | | | | | | | | | | f a IH | f a IH | |]; try done; simpl.
  - destruct free; [| done]. intros _ [Hg _]. exists guard. split; [left | done].
  - intros _ [Hg _]. exists guard. split; [left | done].
  - destruct guard as [g |], st; try done. intros _ Hg. exists g. split; [left | done].
  - intros Hf [Hw _]. destruct (IH Hf Hw) as (g & Hg & Hn). exists g. split; [by right | done].
  - intros Hf [Hw _]. destruct (IH Hf Hw) as (g & Hg & Hn). exists g. split; [by right | done].
Qed.

(** A thread that sees the lock free found no lock file, or nobody holding it. *)
Lemma step_sees_free s w a i e a' : step s w a i = Some (e, a') -> sees_free a' = true -> well_formed a ->
  (forall f, e <> Lock f) /\
  (sees_free a = true \/ file_at InstanceFile s = None \/
   exists f, f ∈ touches a /\ f.2 = InstanceFile /\ holders f s = ∅).
Proof.
  intros Hs Hf Hw. step_cases Hs a i; simpl in *; try done; (split; [done |]); auto.
    right; right. exists f. rewrite !elem_of_cons. unfold can_share in Heqb. rewrite bool_decide_eq_true in Heqb. tauto.
Qed.

Lemma holders_after p e s f q : q ∈ holders f (apply_effect p e s) -> q ∈ holders f s \/ e = Lock f.
Proof.
  destruct e as [| g | g | g | g | g | g b | | g | | | d | d]; auto; unfold holders; simpl.
  - destruct (decide (g = f)) as [-> |]; [auto | rewrite lookup_insert_ne by done; auto].
  - destruct (decide (g = f)) as [-> |]; [| rewrite lookup_insert_ne by done; auto].
    rewrite lookup_insert_eq. simpl. intros Hq%elem_of_difference. tauto.
Qed.

Record settled (s : system) : Prop := {
  settled_touches p t f : threads s !! p = Some t -> f ∈ touches (t_at t) -> file_at f.2 s = Some f;
  settled_holders f q : q ∈ holders f s -> file_at f.2 s = Some f;
  settled_free p t f : threads s !! p = Some t -> sees_free (t_at t) = true ->
    f.2 = InstanceFile -> holders f s = ∅;
  settled_trash p t : threads s !! p = Some t -> trash_of (t_at t) = None;
  settled_dir d : here s = Some d -> is_Some (dirs s !! d);
}.

(** Only one thread works under the guard. *)
Lemma guard_unique s p q t u g g' : inv s -> settled s ->
  threads s !! p = Some t -> threads s !! q = Some u ->
  g ∈ holds (t_at t) -> g' ∈ holds (t_at u) -> g.2 = GuardFile -> g'.2 = GuardFile -> p = q.
Proof.
  intros I S Ht Hu Hg Hg' En En'.
  pose proof (settled_touches _ S p t g Ht (holds_touches _ _ Hg)) as E1.
  pose proof (settled_touches _ S q u g' Hu (holds_touches _ _ Hg')) as E2.
  rewrite En in E1. rewrite En' in E2. assert (g = g') as <- by congruence.
  by apply (inv_unique _ I p q t u g).
Qed.

Lemma nobody_holds s : settled s ->
  (file_at InstanceFile s = None \/ exists f, file_at InstanceFile s = Some f /\ holders f s = ∅) ->
  forall f, f.2 = InstanceFile -> holders f s = ∅.
Proof.
  intros S Hn f Hf. apply elem_of_equiv_empty_L. intros q Hq.
  pose proof (settled_holders _ S f q Hq) as Hx. rewrite Hf in Hx. destruct Hn as [Hn | (g & Hg & He)]; [congruence |].
  assert (g = f) as -> by congruence. rewrite He in Hq. by apply not_elem_of_empty in Hq.
Qed.

Section one_step.
Context (s : system) (p : N) (t : thread) (i : input) (e : effect) (a : point).
Context (I : inv s) (S : settled s) (Ht : threads s !! p = Some t).
Context (Hs : step s (t_process t) (t_at t) i = Some (e, a)) (He : e <> MoveAway).

Lemma file_stays n f : file_at n s = Some f -> file_at n (after s p t e a) = Some f.
Proof. intros Hf. by apply (step_inv_file _ _ _ s p t i e a I Ht Hs n f). Qed.

Lemma touched_file f : f ∈ touches a -> file_at f.2 (after s p t e a) = Some f.
Proof.
  intros Hf. destruct (step_touches _ _ _ _ _ _ _ Hs Hf) as [Hf' | [Hf' | [-> Hh]]].
  - by apply file_stays, (settled_touches _ S p t).
  - by apply file_stays.
  - destruct (settled_dir _ S _ Hh) as [di Hd].
    apply (file_at_intro _ _ (mk_dir ({[f.2]} ∪ d_locks di) (d_state di))); simpl; [done | | set_solver].
    by rewrite lookup_alter_eq, Hd.
Qed.

Lemma locked_file f : e = Lock f ->
  f ∈ touches (t_at t) /\ (f.2 = InstanceFile -> exists g, g ∈ holds (t_at t) /\ g.2 = GuardFile).
Proof. intros ->. by apply (guarded_lock _ _ _ _ _ _ Hs), (inv_formed _ I p). Qed.

Lemma held_file f q : q ∈ holders f (after s p t e a) -> file_at f.2 (after s p t e a) = Some f.
Proof.
  intros Hq. apply file_stays. destruct (holders_after p e s f q Hq) as [Hq' | Hl].
  - by apply (settled_holders _ S f q).
  - apply (settled_touches _ S p t); [done |]. by apply locked_file.
Qed.

Lemma free_stays q u f : threads (after s p t e a) !! q = Some u -> sees_free (t_at u) = true ->
  f.2 = InstanceFile -> holders f (after s p t e a) = ∅.
Proof.
  intros Hu Hf Hn. cut (holders f s = ∅ /\ e <> Lock f).
  { intros [Hh Hl]. apply elem_of_equiv_empty_L. intros r [Hr | Hr]%holders_after; [| done].
    rewrite Hh in Hr. by apply not_elem_of_empty in Hr. }
  simpl in Hu. thread_cases Hu.
  - destruct (step_sees_free _ _ _ _ _ _ Hs Hf (inv_formed _ I p t Ht)) as [Hl Hc]. split; [| done].
    destruct Hc as [Hc | Hc]; [by apply (settled_free _ S p t) |]. apply (nobody_holds s S); [| done].
    destruct Hc as [Hc | (g & Hg & En & Hh)]; [by left | right]. exists g. split; [| done].
    rewrite <- En. by apply (settled_touches _ S p t).
  - split; [by apply (settled_free _ S q u) |]. intros [_ Hg]%locked_file. destruct (Hg Hn) as (g & Hg' & En).
    destruct (guarded_free _ Hf (inv_formed _ I q u Hu)) as (g' & Hu' & En').
    by apply (guard_unique s p q t u g g') in Hu'.
Qed.

Lemma trash_stays : trash_of a = None.
Proof.
  destruct (trash_of a) as [d |] eqn:Ha; [| done]. destruct (step_trash _ _ _ _ _ _ _ _ _ _ Hs Ha) as [Ha' |]; [| done].
  by rewrite (settled_trash _ S p t Ht) in Ha'.
Qed.

Lemma dir_stays d : here (after s p t e a) = Some d -> is_Some (dirs (after s p t e a) !! d).
Proof.
  pose proof (step_path _ _ _ _ _ _ _ _ _ Hs (inv_formed _ I p t Ht)) as Hp. pose proof (settled_trash _ S p t Ht) as Hn.
  pose proof (settled_dir _ S d) as Hd. destruct e as [| g | g | g | g | g | g b | | g | | | d' | d']; simpl; auto; try done.
  - intros [= <-]. rewrite lookup_insert_eq. by eexists.
  - intros Hh. destruct (decide (g.1 = d)) as [-> |]; [| by rewrite lookup_alter_ne by done; auto].
    rewrite lookup_alter_eq. destruct (Hd Hh) as [di ->]. by eexists.
  - intros [= <-]. rewrite lookup_insert_eq. by eexists.
  - destruct Hp as (_ & Hp & _). congruence.
  - destruct Hp. congruence.
Qed.

Lemma settled_step : settled (after s p t e a).
Proof.
  split.
  - intros q u f Hu Hf. simpl in Hu. thread_cases Hu; [by apply touched_file |].
    by apply file_stays, (settled_touches _ S q u).
  - apply held_file.
  - apply free_stays.
  - intros q u Hu. simpl in Hu. thread_cases Hu; [apply trash_stays | by apply (settled_trash _ S q)].
  - apply dir_stays.
Qed.
End one_step.

(** The other events. *)
Lemma settled_quiet s s' : settled s -> here s' = here s -> dirs s' = dirs s ->
  (forall p t, threads s' !! p = Some t -> threads s !! p = Some t \/ touches (t_at t) = [] /\ sees_free (t_at t) = false /\ trash_of (t_at t) = None) ->
  (forall f, holders f s = ∅ -> holders f s' = ∅) -> settled s'.
Proof.
  intros S Hh Hd Ht Hl.
  assert (Hf : forall n, file_at n s' = file_at n s) by (intros n; unfold file_at; by rewrite Hh, Hd).
  split.
  - intros p t f Hp Hfp. rewrite Hf. destruct (Ht p t Hp) as [Hp' | (Hn & _)]; [by apply (settled_touches _ S p t) |].
    rewrite Hn in Hfp. by apply elem_of_nil in Hfp.
  - intros f q Hq. rewrite Hf. destruct (set_choose_or_empty (holders f s)) as [[r Hr] | Hr].
    + by apply (settled_holders _ S f r).
    + apply leibniz_equiv in Hr. rewrite (Hl f Hr) in Hq. by apply not_elem_of_empty in Hq.
  - intros p t f Hp Hfp Hn. apply Hl. destruct (Ht p t Hp) as [Hp' | (_ & Hx & _)]; [| congruence].
    by apply (settled_free _ S p t).
  - intros p t Hp. destruct (Ht p t Hp) as [Hp' | (_ & _ & Hx)]; [by apply (settled_trash _ S p) | done].
  - intros d. rewrite Hh, Hd. apply (settled_dir _ S).
Qed.

Lemma holders_fmap_empty f s (g : gset N -> gset N) h sh al kn :
  g ∅ = ∅ -> holders f s = ∅ -> holders f (with_threads h al kn (with_locks (g <$> exclusive s) sh s)) = ∅.
Proof.
  intros Hg. unfold holders. simpl. rewrite lookup_fmap. by destruct (exclusive s !! f); simpl; [intros -> |].
Qed.

Lemma settled_exec e s s' : inv s -> settled s -> exec e s = Some s' -> stays e -> settled s'.
Proof.
  intros I S He Hok. destruct e as [p i | p w a | p c w | c | w |].
  - destruct (exec_step _ _ _ s p i s' He) as (t & e & a & Ht & Hs & ->).
    apply (settled_step s p t i e a); try done. apply (step_moves _ _ _ _ _ _ Hs); by intros ->.
  - simpl in He. case_match eqn:E; simplify_eq. rewrite !andb_true_iff in E. destruct E as [[Ha _] _].
    apply (settled_quiet s); try done. simpl. intros q t Hq. thread_cases Hq; [right | by left].
    by destruct a as [| | | | | | | [[[] |] | |] | | | | | | | | | | | | | | | | |].
  - simpl in He. destruct (threads s !! p) as [t |] eqn:Ht; simplify_eq/=. case_match eqn:E; simplify_eq.
    apply (settled_quiet s); try done; simpl.
    + intros q u Hq. thread_cases Hq; [by right | by left].
    + intros f. apply holders_fmap_empty. unfold inherit. by rewrite elements_empty.
  - simpl in He. destruct (threads s !! c) as [t |] eqn:Ht; simplify_eq/=. destruct (t_at t) eqn:Ha; simplify_eq.
    apply (settled_quiet s); try done; simpl.
    + intros q u [_ Hq]%lookup_delete_Some. by left.
    + intros f. apply holders_fmap_empty. set_solver.
  - simpl in He. simplify_eq. apply (settled_quiet s); try done; simpl.
    + intros q u [Hq _]%map_lookup_filter_Some. by left.
    + intros f. apply holders_fmap_empty. unfold survivors. set_solver.
  - simpl in He. destruct (path_free s) eqn:Hp; simplify_eq.
    assert (Hn : forall n f, file_at n s = Some f -> False) by (intros n f; by apply path_free_spec).
    split; simpl; try apply (settled_trash _ S).
    + intros p t f Ht Hf. by destruct (Hn f.2 f), (settled_touches _ S p t f Ht Hf).
    + intros f q Hq. by destruct (Hn f.2 f), (settled_holders _ S f q Hq).
    + intros p t f. apply (settled_free _ S).
    + intros d [= <-]. rewrite lookup_insert_eq. by eexists.
Qed.

Lemma settled_reachable s0 s : inv s0 -> settled s0 -> reachable stays s0 s -> inv s /\ settled s.
Proof.
  intros I0 S0. induction 1 as [| s e s' Hr [I S] Hok He]; [done |].
  split; [by eapply inv_exec | by eapply settled_exec].
Qed.

Lemma settled_init d leases kn : settled (init d leases kn).
Proof.
  destruct d as [di |]; split; simpl; try done; try (intros f q Hq; by apply not_elem_of_empty in Hq).
  intros d' [= <-]. rewrite lookup_singleton_eq. by eexists.
Qed.

End guard.
