(* ===== verification/LocksTheorems.v ===== *)
(** * The theorems on the instance's locks

    What [Locks] models of [src/src/runner/locks.rs], [replace_instance_dir]
    and [delete_resolved_instance] guarantees, and where it does not. *)

From S2P Require Import Prelude Text FsUtil Store Locks LocksLogic LocksGuard.

(** ** Runs *)

Section runs.
Context `{LeaseJson} (protocol_version : N) (agent_source_stamp binary_path : string).

Abbreviation execs := (execs protocol_version agent_source_stamp binary_path).
Abbreviation reachable := (reachable protocol_version agent_source_stamp binary_path).

Lemma reachable_execs ok l s0 s s' : Forall ok l -> reachable ok s0 s -> execs l s = Some s' -> reachable ok s0 s'.
Proof.
  intros Hl. revert s. induction Hl as [| e l He Hl IH]; simpl; intros s Hr Hs; [congruence |].
  destruct (Locks.exec _ _ _ e s) as [s1 |] eqn:Hx; [simpl in Hs | done].
  apply (IH s1); [| done]. by apply (reachable_exec _ _ _ ok s0 s e).
Qed.
End runs.

(** ** Leases as text *)

(** A concrete encoding of leases, for the examples. *)
Fixpoint pos_text (n : positive) : string :=
  match n with
  | xH => "}"
  | xO n => String "0" (pos_text n)
  | xI n => String "1" (pos_text n)
  end.

Fixpoint text_pos (s : string) : option positive :=
  match s with
  | EmptyString => None
  | String c s' =>
      if Ascii.eqb c "}" then (if bool_decide (s' = EmptyString) then Some xH else None)
      else if Ascii.eqb c "0" then xO <$> text_pos s'
      else if Ascii.eqb c "1" then xI <$> text_pos s'
      else None
  end.

#[global] Instance lease_role_countable : Countable lease_role.
Proof.
  refine (inj_countable (fun r => match r with OwnerRole => 0 | MaintenanceRole => 1 | StarterRole => 2 end)
            (fun k => match k with 0 => Some OwnerRole | 1 => Some MaintenanceRole | _ => Some StarterRole end) _).
  by intros [].
Defined.

#[global] Instance lease_countable : Countable lease.
Proof.
  refine (inj_countable (fun l => (l_role l, l_process l, l_protocol_version l, l_agent_source_stamp l, l_binary_path l))
            (fun x => let '(r, p, v, s, b) := x in Some (mk_lease r p v s b)) _).
  by intros [].
Defined.

Definition demo_json : LeaseJson := {|
  lease_to_vec l := pos_text (encode l);
  lease_from_str s := n ← text_pos s; decode n;
|}.

Lemma pos_text_plain n : string_all plain (pos_text n) = true.
Proof. induction n; done. Qed.

Lemma text_pos_text n : text_pos (pos_text n) = Some n.
Proof. induction n as [n IH | n IH |]; simpl; try done; by rewrite IH. Qed.

Lemma text_pos_torn n k : k < String.length (pos_text n) -> text_pos (string_take k (pos_text n)) = None.
Proof.
  revert k. induction n as [n IH | n IH |]; intros [| k]; simpl; intros Hk; try done; try lia.
  - by rewrite IH by lia.
  - by rewrite IH by lia.
Qed.

#[global] Instance demo_json_laws : @LeaseJsonLaws demo_json.
Proof.
  split; unfold lease_line; cbn [lease_to_vec lease_from_str demo_json].
  - intros l _. apply utf8_ascii. generalize (encode l). intros n. by induction n.
  - intros l n _ Hn. rewrite trim_line by apply pos_text_plain.
    replace (string_take n (pos_text (encode l))) with (pos_text (encode l)).
    + rewrite text_pos_text. simpl. apply decode_encode.
    + by rewrite string_take_ge.
  - intros l n _ Hn. rewrite trim_line by apply pos_text_plain. by rewrite text_pos_torn.
  - done.
Qed.

(** ** Exclusion *)

(** C3: at any time at most one thread, of all the threads of all processes,
    owns the instance, whatever the others do: threads that take, look at and
    release the locks, forked children that still have them open, processes
    that die, commands that move the instance away, put another in its place
    or restore it, and system calls that fail.  Its lock is the file at the
    instance's path, and is locked by it. *)
Theorem instance_lock_exclusive `{LeaseJson} protocol_version agent_source_stamp binary_path d leases kn s p t f :
  reachable protocol_version agent_source_stamp binary_path (fun _ => True) (init d leases kn) s ->
  threads s !! p = Some t -> owns (t_at t) = Some f ->
  file_at InstanceFile s = Some f /\ p ∈ holders f s /\
  forall q u g, threads s !! q = Some u -> owns (t_at u) = Some g -> q = p.
Proof.
  intros Hr Ht Hf. pose proof (inv_reachable _ _ _ _ _ _ (inv_init d leases kn) Hr) as I.
  split_and!.
  - by apply (inv_owner _ I p t).
  - apply (inv_holders _ I p t); [done | by apply owns_holds].
  - intros q u g Hu Hg. by apply (inv_owner_unique s q p u t g f).
Qed.

(** ** Leases *)

(** A lock file whose lease names a running process is locked by a thread
    of that process, unless a release failed to erase its lease; and a thread
    that holds a lock is named, with its role, by the lease in it. *)
Theorem leases_tell_the_truth `{LeaseJsonLaws} protocol_version agent_source_stamp binary_path d leases kn s :
  utf8_valid agent_source_stamp = true -> utf8_valid binary_path = true -> left_behind leases kn ->
  reachable protocol_version agent_source_stamp binary_path cleared (init d leases kn) s ->
  (forall f l, read_lease_from (content f s) = Some (Some l) -> l_process l ∈ alive s ->
     exists p t, threads s !! p = Some t /\ t_process t = l_process l /\ p ∈ holders f s) /\
  (forall p t f role, threads s !! p = Some t -> t_at t = Holding f role ->
     read_lease_from (content f s) =
       Some (Some (for_current_process protocol_version agent_source_stamp binary_path role (t_process t)))).
Proof.
  intros Hstamp Hbin Hk Hr. pose proof (inv_reachable _ _ _ _ _ _ (inv_init d leases kn) Hr) as I. split.
  - intros f l Hl Ha.
    pose proof (truthful_reachable _ _ _ Hstamp Hbin _ _ (truthful_init d leases kn Hk) Hr) as T.
    destruct (truthful_lease _ T f l Hl Ha) as (p & t & Ht & Hp & Hf). exists p, t. split_and!; try done.
    apply (inv_holders _ I p t); [done | by apply leased_holds].
  - intros p t f role Ht Ha.
    rewrite (lease_recorded_reachable _ _ _ _ _ _ (inv_init d leases kn) (lease_recorded_init _ _ _ d leases kn) Hr p t f role);
      [by apply read_lease_line | done | by rewrite Ha].
Qed.

(** ** The guard *)

(** As long as no command moves the instance away, a thread that
    inspects the lock under the guard is the only one under it: no other thread
    can take the lock in a step; and when it has seen the lock free, nobody,
    not even a forked child, has it. *)
Theorem guard_promise `{LeaseJson} protocol_version agent_source_stamp binary_path d leases kn s p t g st :
  reachable protocol_version agent_source_stamp binary_path stays (init d leases kn) s ->
  threads s !! p = Some t -> t_at t = Inspect (Some g) st ->
  (forall q i s' f r, q <> p -> exec protocol_version agent_source_stamp binary_path (EStep q i) s = Some s' ->
     f.2 = InstanceFile -> r ∈ holders f s' -> r ∈ holders f s) /\
  (is_held st = false -> forall f, f.2 = InstanceFile -> holders f s = ∅).
Proof.
  intros Hr Ht Ha.
  destruct (settled_reachable _ _ _ _ _ (inv_init d leases kn) (settled_init d leases kn) Hr) as [I S].
  split.
  - intros q i s' f r Hq He Hf Hin. apply exec_step in He as (u & e & a & Hu & Hs & ->).
    destruct (holders_after q e s f r Hin) as [| ->]; [done |]. destruct Hq.
    destruct (guarded_lock _ _ _ _ _ _ _ _ _ Hs (inv_formed _ I q u Hu)) as [_ Hg].
    destruct (Hg Hf) as (g' & Hg' & En).
    apply (guard_unique s q p u t g' g I S Hu Ht Hg'); [rewrite Ha; left | done |].
    pose proof (inv_formed _ I p t Ht) as Hw. by rewrite Ha in Hw.
  - intros Hf f. apply (settled_free _ S p t f); [done |]. rewrite Ha. by destruct st.
Qed.

(** ** Runs *)

Definition process_a : process_identity := mk_process 10 1.
Definition process_b : process_identity := mk_process 20 2.
Definition process_c : process_identity := mk_process 30 3.

#[local] Existing Instance demo_json.

Abbreviation demo_execs := (execs 1 "stamp" "/usr/bin/lnx").
Abbreviation demo_reachable := (reachable 1 "stamp" "/usr/bin/lnx").

Definition steps (p : N) (n : nat) : list event := replicate n (EStep p IOk).

(** A thread takes the instance lock; [n] is how many steps it takes. *)
Definition acquire (p : N) (w : process_identity) (role : lease_role) : list event :=
  ESpawn p w (CreateDir (ForGuard (WantLock role))) :: steps p 13.

Definition idle_instance : system := init (Some (mk_dir ∅ true)) ∅ ∅.

(** An owner holds the lock while its process forks a child, and while another
    process waits for the lock and gives up. *)
Definition contended : list event :=
  acquire 1 process_a OwnerRole ++ [EFork 1 3 process_c] ++
  [ESpawn 2 process_b (CreateDir (ForGuard (WantLock MaintenanceRole)))] ++ steps 2 10.

Lemma instance_lock_exclusive_witness :
  exists s p t f, demo_execs contended idle_instance = Some s /\
    threads s !! p = Some t /\ owns (t_at t) = Some f /\ holders f s = {[1%N; 3%N]} /\
    file_at InstanceFile s = Some f /\ p ∈ holders f s /\
    forall q u g, threads s !! q = Some u -> owns (t_at u) = Some g -> q = p.
Proof.
  destruct (demo_execs contended idle_instance) as [s |] eqn:Hs; [| vm_compute in Hs; discriminate Hs].
  exists s, 1%N, (mk_thread process_a (Holding (0%N, InstanceFile) OwnerRole)), (0%N, InstanceFile).
  assert (Ht : threads s !! 1%N = Some (mk_thread process_a (Holding (0%N, InstanceFile) OwnerRole))).
  { vm_compute in Hs. injection Hs as <-. reflexivity. }
  assert (Hr : demo_reachable (fun _ => True) idle_instance s).
  { apply (reachable_execs 1 "stamp" "/usr/bin/lnx" (fun _ => True) contended idle_instance idle_instance);
      [by apply Forall_forall | apply reachable_init | exact Hs]. }
  split; [reflexivity |]. split; [exact Ht |]. split; [reflexivity |].
  split; [vm_compute in Hs; injection Hs as <-; reflexivity |].
  exact (instance_lock_exclusive 1 "stamp" "/usr/bin/lnx" (Some (mk_dir ∅ true)) ∅ ∅ s 1%N _ _ Hr Ht eq_refl).
Defined.

(** The holder of the lock died; its lease names nobody that runs, and the
    next holder takes its place. *)
Definition left_over : list event :=
  acquire 1 process_a OwnerRole ++ [EDie process_a] ++ acquire 2 process_b MaintenanceRole.

Lemma leases_tell_the_truth_witness :
  exists s l, demo_execs left_over idle_instance = Some s /\
    read_lease_from (content (0%N, InstanceFile) s) = Some (Some l) /\ l_role l = MaintenanceRole /\
    exists p t, threads s !! p = Some t /\ t_process t = l_process l /\ p ∈ holders (0%N, InstanceFile) s.
Proof.
  destruct (demo_execs left_over idle_instance) as [s |] eqn:Hs; [| vm_compute in Hs; discriminate Hs].
  exists s, (for_current_process 1 "stamp" "/usr/bin/lnx" MaintenanceRole process_b).
  assert (Hl : read_lease_from (content (0%N, InstanceFile) s) =
    Some (Some (for_current_process 1 "stamp" "/usr/bin/lnx" MaintenanceRole process_b))).
  { vm_compute in Hs. injection Hs as <-. vm_compute. reflexivity. }
  assert (Ha : l_process (for_current_process 1 "stamp" "/usr/bin/lnx" MaintenanceRole process_b) ∈ alive s).
  { refine (bool_decide_eq_true_1 _ _). vm_compute in Hs. injection Hs as <-. vm_compute. reflexivity. }
  assert (Hr : demo_reachable cleared idle_instance s).
  { apply (reachable_execs 1 "stamp" "/usr/bin/lnx" cleared left_over idle_instance idle_instance);
      [repeat constructor | apply reachable_init | exact Hs]. }
  assert (Hk : left_behind ∅ ∅) by (intros n b l Hn; discriminate Hn).
  split; [reflexivity |]. split; [exact Hl |]. split; [reflexivity |].
  exact (proj1 (leases_tell_the_truth 1 "stamp" "/usr/bin/lnx" (Some (mk_dir ∅ true)) ∅ ∅ s
    eq_refl eq_refl Hk Hr) (0%N, InstanceFile) _ Hl Ha).
Defined.

(** A thread looks at the lock of an instance whose owner died, and another
    wants to take it meanwhile. *)
Definition inspected : list event :=
  acquire 1 process_a OwnerRole ++ [EDie process_a; ESpawn 2 process_b Exists] ++ steps 2 9 ++
  [ESpawn 3 process_c (CreateDir (ForGuard (WantLock OwnerRole)))] ++ steps 3 3.

Lemma guard_promise_witness :
  exists s st, demo_execs inspected idle_instance = Some s /\
    threads s !! 2%N = Some (mk_thread process_b (Inspect (Some (0%N, GuardFile)) st)) /\ is_held st = false /\
    forall f, f.2 = InstanceFile -> holders f s = ∅.
Proof.
  destruct (demo_execs inspected idle_instance) as [s |] eqn:Hs; [| vm_compute in Hs; discriminate Hs].
  pose (st := Free (Some (for_current_process 1 "stamp" "/usr/bin/lnx" OwnerRole process_a))). exists s, st.
  assert (Ht : threads s !! 2%N = Some (mk_thread process_b (Inspect (Some (0%N, GuardFile)) st))).
  { vm_compute in Hs. injection Hs as <-. reflexivity. }
  assert (Hr : demo_reachable stays idle_instance s).
  { apply (reachable_execs 1 "stamp" "/usr/bin/lnx" stays inspected idle_instance idle_instance);
      [repeat constructor | apply reachable_init | exact Hs]. }
  split; [reflexivity |]. split; [exact Ht |]. split; [reflexivity |].
  exact (proj2 (guard_promise 1 "stamp" "/usr/bin/lnx" (Some (mk_dir ∅ true)) ∅ ∅ s 2%N _ (0%N, GuardFile) st
    Hr Ht eq_refl) eq_refl).
Defined.

(** ** Moving an instance away *)

(** A command replaces an instance and, having moved it away, finds that
    another process has made a directory at its path to take its lock there:
    neither the new state nor the old can be renamed to the path, and the old
    one is removed. *)
Definition replace_race : list event :=
  acquire 1 process_a MaintenanceRole ++ [EStep 1 IReplace] ++
  [ESpawn 2 process_b (CreateDir (ForGuard (WantLock OwnerRole)))] ++ steps 2 2 ++ steps 1 5.

(** C39: replacing an instance can lose it: without any failure but the
    renames', an instance that has its state comes to have none, neither its
    own nor the one to put in its place, when another process starts to take
    its lock while it is being replaced. *)
Theorem replace_loses_the_instance `{LeaseJson} protocol_version agent_source_stamp binary_path :
  path_free idle_instance = false /\
  exists s, execs protocol_version agent_source_stamp binary_path replace_race idle_instance = Some s /\
    threads s !! 1%N = Some (mk_thread process_a Finished) /\
    map_Forall (fun _ di => d_state di = false) (dirs s).
Proof.
  split; [done |]. eexists. split; [vm_compute; reflexivity |].
  split; [reflexivity |]. apply map_Forall_to_list. vm_compute. repeat constructor.
Qed.

(** A process that has taken the guard takes the lock of an instance put in
    place of the one the guard belongs to, while another inspects that lock
    under its guard. *)
Definition guard_race : list event :=
  acquire 1 process_a MaintenanceRole ++
  [ESpawn 2 process_b (CreateDir (ForGuard (WantLock OwnerRole)))] ++ steps 2 4 ++
  [EStep 1 IReplace; EStep 1 IOk] ++
  [ESpawn 3 process_c Exists] ++ steps 3 6 ++ steps 2 4.

(** Replacing an instance breaks the guard's promise: an instance is owned that
    a thread inspecting it under the guard has seen free. *)
Theorem guard_outlives_its_directory `{LeaseJson} protocol_version agent_source_stamp binary_path :
  exists s p t f q g, execs protocol_version agent_source_stamp binary_path guard_race idle_instance = Some s /\
    threads s !! p = Some t /\ owns (t_at t) = Some f /\
    threads s !! q = Some (mk_thread process_c (Inspect (Some g) (Free None))) /\ g.1 = f.1.
Proof.
  eexists _, 2%N, _, _, 3%N, _. split; [vm_compute; reflexivity |]. split; [reflexivity |].
  split; [reflexivity |]. split; reflexivity.
Qed.
