(* ===== verification/Stop.v ===== *)
(** * Stopping an instance

    [src/src/runner/stop.rs] and the signals of [src/src/runner/locks.rs]: the
    program that asks a VM owner to exit and waits for it, run against
    whatever the rest of the system does meanwhile. *)

From S2P Require Import Prelude Text FsUtil Store Locks.

(** ** Signals *)

Definition SIGTERM : Z := 15.
Definition ESRCH : Z := 3.

(** [kill] answers with an error number, or [None] when it succeeds. *)
Definition killer : Type := Z -> Z -> option Z.

Definition signal_process (kill : killer) (pid signal : Z) : bool :=
  if (pid <=? 0)%Z then false
  else
    match kill pid signal with
    | None => true
    | Some e => (e =? ESRCH)%Z
    end.

Definition signal_process_group (kill : killer) (pid signal : Z) : bool :=
  if (pid <=? 0)%Z then false
  else
    match kill (- pid)%Z signal with
    | None => true
    | Some _ => match kill pid signal with None => true | Some e => (e =? ESRCH)%Z end
    end.

(** ** What the program is run against *)

(** What the system answers to the program's call number [n]. *)
Record outside := mk_outside {
  instance_dir_exists : bool;
  run_dir_exists : bool;
  (** [instance_lock_state], and the state [with_instance_guard] passes on;
      [None] is an error *)
  state_seen : nat -> option lock_state;
  (** [OwnerStartLock::try_acquire] *)
  start_lock : nat -> option bool;
  (** whether the deadline has passed *)
  late : nat -> bool;
  (** [is_running], and what [kill] answers *)
  runs : nat -> process_identity -> bool;
  kills : nat -> killer;
  (** [Store::crashed]; [None] is an error *)
  has_crashed : nat -> option bool;
}.

Inductive stop_error :=
  | SignalFailed
  | LockFailed
  | StillStarting
  | StateOperation
  | ChangedOwner (owner current : process_identity)
  | LeftRunning (owner : process_identity)
  | CrashedRun
  | NewOwner
  | NoOwner
  | OwnerExited
  | TimedOut
  | Refused
  | OutOfFuel.

(** How many calls the program has made, and the signals it has sent, the last
    one first. *)
Record log := mk_log { calls : nat; signals : list (process_identity * Z) }.

Definition prog (A : Type) : Type := outside -> log -> (A + stop_error) * log.

#[global] Instance prog_ret : MRet prog := fun A a o g => (inl a, g).
#[global] Instance prog_bind : MBind prog := fun A B k m o g =>
  match m o g with
  | (inl a, g') => k a o g'
  | (inr e, g') => (inr e, g')
  end.

Definition fail {A} (e : stop_error) : prog A := fun o g => (inr e, g).

(** A call of the system. *)
Definition call {A} (f : outside -> nat -> A) : prog A := fun o g =>
  (inl (f o (calls g)), mk_log (S (calls g)) (signals g)).

Definition instance_lock_state : prog lock_state :=
  st ← call state_seen;
  match st with Some st => mret st | None => fail LockFailed end.

(** [live_owner] of the layout: an error counts as no owner. *)
Definition current_owner : prog (option process_identity) :=
  st ← call state_seen;
  mret (l_process <$> (st ≫= live_owner)).

Definition signal (p : process_identity) (sig : Z) : prog () := fun o g =>
  if negb (runs o (calls g) p) then (inl tt, mk_log (S (calls g)) (signals g))
  else
    (if signal_process (kills o (calls g)) (pid p) sig then inl tt else inr SignalFailed,
     mk_log (S (calls g)) ((p, sig) :: signals g)).

(** [ensure_shutdown_state_under_guard] *)
Definition ensure_shutdown_state_under_guard : prog () :=
  st ← instance_lock_state;
  if is_held st then fail NewOwner
  else
    crashed ← call has_crashed;
    match crashed with
    | Some false => mret tt
    | Some true => fail CrashedRun
    | None => fail LockFailed
    end.

(** The first loop: until the start lock is taken. *)
Fixpoint take_start_lock (fuel : nat) (signaled : option process_identity) : prog (option process_identity) :=
  match fuel with
  | O => fail OutOfFuel
  | S fuel' =>
      lock ← call start_lock;
      match lock with
      | None => fail LockFailed
      | Some true => mret signaled
      | Some false =>
          owner ← current_owner;
          signaled ←
            match owner with
            | Some owner =>
                if bool_decide (signaled <> Some owner) then _ ← signal owner SIGTERM; mret (Some owner)
                else mret signaled
            | None => mret signaled
            end;
          past ← call late;
          if past : bool then fail StillStarting else take_start_lock fuel' signaled
      end
  end.

(** The second: until an owner is found, or nobody has the lock. *)
Fixpoint find_owner (fuel : nat) (signaled : option process_identity) : prog (option process_identity) :=
  match fuel with
  | O => fail OutOfFuel
  | S fuel' =>
      state ← instance_lock_state;
      match state with
      | Free _ => mret None
      | Held _ =>
          match live_owner state with
          | Some lease =>
              _ ← (if bool_decide (signaled <> Some (l_process lease)) then signal (l_process lease) SIGTERM
                   else mret tt);
              mret (Some (l_process lease))
          | None =>
              past ← call late;
              if past : bool then fail StateOperation else find_owner fuel' signaled
          end
      end
  end.

(** The third: until that owner is gone. *)
Fixpoint wait_for_exit (fuel : nat) (owner : process_identity) : prog () :=
  match fuel with
  | O => fail OutOfFuel
  | S fuel' =>
      current ← current_owner;
      match current with
      | None => ensure_shutdown_state_under_guard
      | Some current =>
          if bool_decide (current <> owner) then fail (ChangedOwner owner current)
          else
            past ← call late;
            if past : bool then fail (LeftRunning owner) else wait_for_exit fuel' owner
      end
  end.

Definition stop_owner (fuel : nat) : prog () :=
  there ← (fun o g => (inl (instance_dir_exists o || run_dir_exists o), g));
  if negb there then mret tt
  else
    signaled ← current_owner;
    _ ← match signaled with Some owner => signal owner SIGTERM | None => mret tt end;
    signaled ← take_start_lock fuel signaled;
    owner ← find_owner fuel signaled;
    match owner with
    | None => ensure_shutdown_state_under_guard
    | Some owner => wait_for_exit fuel owner
    end.

Definition start_log : log := mk_log 0 [].

(** ** What the program does *)

(** A live owner was seen, before call [n]. *)
Definition seen_owner (o : outside) (n : nat) (p : process_identity) : Prop :=
  exists j l, j < n /\ state_seen o j = Some (Held (Some l)) /\ l_role l = OwnerRole /\ l_process l = p.

(** Every signal asked a process to exit that had been seen as the owner. *)
Definition polite (o : outside) (g : log) : Prop :=
  forall p sig, (p, sig) ∈ signals g -> sig = SIGTERM /\ seen_owner o (calls g) p.

Definition wp {A} (m : prog A) (Q : A + stop_error -> log -> Prop) (o : outside) (g : log) : Prop :=
  let '(r, g') := m o g in Q r g'.

Section wp.
Context (o : outside).

Lemma wp_bind {A B} (m : prog A) (k : A -> prog B) Q g :
  wp m (fun r g' => match r with inl a => wp (k a) Q o g' | inr e => Q (inr e) g' end) o g -> wp (m ≫= k) Q o g.
Proof. unfold wp, mbind, prog_bind. by destruct (m o g) as [[a | e] g']. Qed.

Lemma wp_mono {A} (m : prog A) (P Q : A + stop_error -> log -> Prop) g :
  wp m P o g -> (forall r g', P r g' -> Q r g') -> wp m Q o g.
Proof. unfold wp. destruct (m o g). auto. Qed.

Lemma wp_call {A} (f : outside -> nat -> A) Q g :
  Q (inl (f o (calls g))) (mk_log (S (calls g)) (signals g)) -> wp (call f) Q o g.
Proof. done. Qed.

Lemma polite_later g n : polite o g -> calls g <= n -> polite o (mk_log n (signals g)).
Proof.
  intros Hp Hn p sig Hin. destruct (Hp p sig Hin) as (-> & j & l & Hj & Hl). split; [done |].
  exists j, l. simpl. split; [lia | done].
Qed.

(** What a part of the program does: it is polite, time goes on, and it comes
    to an end. *)
Definition keeps {A} (Q : A -> log -> Prop) (g : log) (r : A + stop_error) (g' : log) : Prop :=
  polite o g' /\ calls g <= calls g' /\ match r with inl a => Q a g' | inr e => e <> OutOfFuel end.

Lemma keeps_bind {A B} (m : prog A) (k : A -> prog B) (P : A -> log -> Prop) (Q : B -> log -> Prop) g :
  wp m (keeps P g) o g ->
  (forall a g', P a g' -> polite o g' -> calls g <= calls g' -> wp (k a) (keeps Q g') o g') ->
  wp (m ≫= k) (keeps Q g) o g.
Proof.
  intros Hm Hk. apply wp_bind. eapply wp_mono; [exact Hm |]. intros [a | e] g' (Hp & Hc & Ha).
  - eapply wp_mono; [by apply Hk |]. intros r g'' (Hp' & Hc' & Hr). split_and!; [done | lia | done].
  - done.
Qed.

Lemma keeps_call {A} (f : outside -> nat -> A) g : polite o g ->
  wp (call f) (keeps (fun a g' => a = f o (calls g) /\ calls g' = S (calls g)) g) o g.
Proof. intros Hp. apply wp_call. split; [apply polite_later; [done | lia] | simpl; split; [lia | done]]. Qed.

Lemma keeps_ret {A} (a : A) (Q : A -> log -> Prop) g : polite o g -> Q a g -> wp (mret a) (keeps Q g) o g.
Proof. intros Hp Hq. split_and!; [done | lia | done]. Qed.

Lemma keeps_fail {A} e (Q : A -> log -> Prop) g : polite o g -> e <> OutOfFuel -> wp (fail e) (keeps Q g) o g.
Proof. intros Hp He. split_and!; [done | lia | done]. Qed.

Lemma live_owner_spec st l : live_owner st = Some l -> st = Held (Some l) /\ l_role l = OwnerRole.
Proof. destruct st as [| [l' |]]; simpl; try done. case_bool_decide; naive_solver. Qed.

Lemma current_owner_keeps g : polite o g ->
  wp current_owner (keeps (fun a g' => forall p, a = Some p -> seen_owner o (calls g') p) g) o g.
Proof.
  intros Hp. eapply keeps_bind; [by apply keeps_call |]. intros st g' [-> Hc] Hp' _. apply keeps_ret; [done |].
  intros p Hl. destruct (state_seen o (calls g)) as [st |] eqn:Hs; [simpl in Hl | done].
  destruct (live_owner st) as [l |] eqn:Hl'; [simpl in Hl; simplify_eq | done].
  apply live_owner_spec in Hl' as [-> Hr]. exists (calls g), l. split_and!; [lia | done | done | done].
Qed.

Lemma signal_keeps p g : polite o g -> seen_owner o (calls g) p ->
  wp (signal p SIGTERM) (keeps (fun _ _ => True) g) o g.
Proof.
  intros Hp (j & l & Hj & Hl). unfold wp, signal. destruct (negb _).
  - split_and!; simpl; [apply polite_later; [done | lia] | lia | done].
  - split_and!; simpl; [| lia | by destruct (signal_process _ _ _)].
    intros q sig [[= -> ->] | Hin]%elem_of_cons; simpl.
    + split; [done |]. exists j, l. split; [lia | done].
    + by apply (polite_later g (S (calls g))); [| lia |].
Qed.

(** What ends a successful stop: nobody has the lock, and the run it leaves is
    saved. *)
Definition stopped (g : log) : Prop :=
  exists j stale, S (S j) = calls g /\ state_seen o j = Some (Free stale) /\ has_crashed o (S j) = Some false.

Lemma ensure_keeps g : polite o g ->
  wp ensure_shutdown_state_under_guard (keeps (fun _ g' => stopped g') g) o g.
Proof.
  intros Hp. unfold ensure_shutdown_state_under_guard.
  eapply (keeps_bind _ _ (fun st g' => state_seen o (calls g) = Some st /\ calls g' = S (calls g))).
  { eapply keeps_bind; [by apply keeps_call |]. intros st g' [-> Hc] Hp' _.
    destruct (state_seen o (calls g)); [by apply keeps_ret | by apply keeps_fail]. }
  intros st g' [Hs Hc] Hp' _. destruct st as [stale | l]; simpl; [| by apply keeps_fail].
  eapply keeps_bind; [by apply keeps_call |]. intros c g'' [-> Hc'] Hp'' _.
  destruct (has_crashed o (calls g')) as [[] |] eqn:Hx; [by apply keeps_fail | | by apply keeps_fail].
  apply keeps_ret; [done |]. exists (calls g), stale. split_and!; [lia | done | congruence].
Qed.

(** The deadline passes at some time. *)
Context (limit : nat) (Hlate : forall n, limit <= n -> late o n = true).

(** A loop that asks whether it is late goes on only while there is fuel. *)
Lemma keeps_late {A} (m : prog A) e (Q : A -> log -> Prop) g : polite o g -> e <> OutOfFuel ->
  (forall g', polite o g' -> calls g' = S (calls g) -> calls g < limit -> wp m (keeps Q g') o g') ->
  wp (past ← call late; if past : bool then fail e else m) (keeps Q g) o g.
Proof.
  intros Hp He Hm. eapply keeps_bind; [by apply keeps_call |]. intros past g' [-> Hc] Hp' _.
  destruct (late o (calls g)) eqn:Hl; [by apply keeps_fail |]. apply Hm; [done | done |].
  destruct (decide (calls g < limit)); [done |]. rewrite Hlate in Hl; [done | lia].
Qed.

Lemma take_start_lock_keeps fuel signaled g : polite o g -> limit - calls g < fuel ->
  wp (take_start_lock fuel signaled) (keeps (fun _ _ => True) g) o g.
Proof.
  revert signaled g. induction fuel as [| fuel IH]; intros signaled g Hp Hf; [lia |]. cbn [take_start_lock].
  eapply keeps_bind; [by apply keeps_call |]. intros lock g1 [_ Hc1] Hp1 _.
  destruct lock as [[] |]; [by apply keeps_ret | | by apply keeps_fail].
  eapply keeps_bind; [by apply current_owner_keeps |]. intros owner g2 Ho Hp2 Hc2.
  eapply (keeps_bind _ _ (fun _ _ => True)).
  { destruct owner as [owner |]; [| by apply keeps_ret]. case_bool_decide; [| by apply keeps_ret].
    eapply keeps_bind; [by apply signal_keeps; auto |]. intros [] g3 _ Hp3 _. by apply keeps_ret. }
  intros signaled' g3 _ Hp3 Hc3. apply keeps_late; [done | done |]. intros g4 Hp4 Hc4 Hl. apply IH; [done | lia].
Qed.

Lemma find_owner_keeps fuel signaled g : polite o g -> limit - calls g < fuel ->
  wp (find_owner fuel signaled) (keeps (fun _ _ => True) g) o g.
Proof.
  revert g. induction fuel as [| fuel IH]; intros g Hp Hf; [lia |]. cbn [find_owner].
  eapply (keeps_bind _ _ (fun st g' => state_seen o (calls g) = Some st /\ calls g' = S (calls g))).
  { eapply keeps_bind; [by apply keeps_call |]. intros st g' [-> Hc] Hp' _.
    destruct (state_seen o (calls g)); [by apply keeps_ret | by apply keeps_fail]. }
  intros st g1 [Hs Hc1] Hp1 _. destruct st as [stale | l]; [by apply keeps_ret |].
  destruct (live_owner (Held l)) as [lease |] eqn:Hl.
  - apply live_owner_spec in Hl as [[= ->] Hr].
    assert (seen_owner o (calls g1) (l_process lease)).
    { exists (calls g), lease. split_and!; [lia | done | done | done]. }
    eapply (keeps_bind _ _ (fun _ _ => True)); [case_bool_decide; [by apply signal_keeps | by apply keeps_ret] |].
    intros [] g2 _ Hp2 _. by apply keeps_ret.
  - apply keeps_late; [done | done |]. intros g2 Hp2 Hc2 Hx. apply IH; [done | lia].
Qed.

Lemma wait_for_exit_keeps fuel owner g : polite o g -> limit - calls g < fuel ->
  wp (wait_for_exit fuel owner) (keeps (fun _ g' => stopped g') g) o g.
Proof.
  revert g. induction fuel as [| fuel IH]; intros g Hp Hf; [lia |]. cbn [wait_for_exit].
  eapply keeps_bind; [by apply current_owner_keeps |]. intros current g1 _ Hp1 Hc1.
  destruct current as [current |]; [| by apply ensure_keeps].
  case_bool_decide; [by apply keeps_fail |].
  apply keeps_late; [done | done |]. intros g2 Hp2 Hc2 Hx. apply IH; [done | lia].
Qed.

Lemma stop_owner_keeps fuel g : polite o g -> limit < fuel ->
  wp (stop_owner fuel) (keeps (fun _ g' => instance_dir_exists o = false /\ run_dir_exists o = false \/ stopped g') g) o g.
Proof.
  intros Hp Hf. unfold stop_owner.
  eapply (keeps_bind _ _ (fun there g' => there = instance_dir_exists o || run_dir_exists o)); [by split_and! |].
  intros there g0 -> Hp0 _. destruct (instance_dir_exists o || run_dir_exists o) eqn:Hd; simpl.
  2: { apply keeps_ret; [done |]. left. by apply orb_false_iff. }
  eapply keeps_bind; [by apply current_owner_keeps |]. intros signaled g1 Ho Hp1 _.
  eapply (keeps_bind _ _ (fun _ _ => True)).
  { destruct signaled; [by apply signal_keeps; auto | by apply keeps_ret]. }
  intros [] g2 _ Hp2 _. eapply keeps_bind; [apply take_start_lock_keeps; [done | lia] |]. intros signaled' g3 _ Hp3 _.
  eapply keeps_bind; [apply find_owner_keeps; [done | lia] |]. intros owner g4 _ Hp4 _.
  destruct owner as [owner |].
  - eapply wp_mono; [apply (wait_for_exit_keeps fuel); [done | lia] |].
    intros [[] | e] g' (? & ? & ?); split_and!; auto.
  - eapply wp_mono; [by apply ensure_keeps |].
    intros [[] | e] g' (? & ? & ?); split_and!; auto.
Qed.

End wp.

(** C26: stopping an instance comes to an end once its deadline passes; the
    only signal it sends, SIGTERM, it sends to processes it has seen holding
    the instance as its owner; and it succeeds only when there is no instance,
    or when, at the end, it has seen the lock free and the last run not
    crashed. *)
Theorem stop_owner_careful (o : outside) (limit fuel : nat) :
  (forall n, limit <= n -> late o n = true) -> limit < fuel ->
  let '(r, g) := stop_owner fuel o start_log in
  r <> inr OutOfFuel /\ polite o g /\
  (r = inl tt -> instance_dir_exists o = false /\ run_dir_exists o = false \/ stopped o g).
Proof.
  intros Hlate Hf. pose proof (stop_owner_keeps o limit Hlate fuel start_log) as Hw.
  unfold wp in Hw. destruct (stop_owner fuel o start_log) as [r g].
  destruct Hw as (Hp & _ & Hr); [intros p sig Hin; by apply elem_of_nil in Hin | done |].
  split_and!; [| done |].
  - destruct r as [[] |]; [done |]. congruence.
  - by intros ->.
Qed.

(** An owner that runs exits after the signal. *)
Definition demo_lease : lease := mk_lease OwnerRole (mk_process 42 7) 1 "stamp" "/usr/bin/lnx".

Definition exiting : outside := {|
  instance_dir_exists := true;
  run_dir_exists := true;
  state_seen n := Some (if n <? 5 then Held (Some demo_lease) else Free None);
  start_lock n := Some (2 <? n);
  late n := 9 <? n;
  runs n _ := n <? 5;
  kills _ _ _ := None;
  has_crashed _ := Some false;
|}.

Lemma stop_owner_careful_witness :
  exists g, stop_owner 20 exiting start_log = (inl tt, g) /\
    signals g = [(mk_process 42 7, SIGTERM)] /\ polite exiting g /\ stopped exiting g.
Proof.
  assert (Hlate : forall n, 10 <= n -> late exiting n = true) by (intros n Hn; apply Nat.ltb_lt; simpl; lia).
  pose proof (stop_owner_careful exiting 10 20 Hlate ltac:(lia)) as Hx.
  exists (mk_log 9 [(mk_process 42 7, SIGTERM)]).
  change (stop_owner 20 exiting start_log) with (@inl () stop_error tt, mk_log 9 [(mk_process 42 7, SIGTERM)]) in Hx.
  destruct Hx as (_ & Hp & Hs). split; [reflexivity |]. split; [reflexivity |]. split; [exact Hp |].
  destruct (Hs eq_refl) as [[Hd _] | Hs']; [discriminate Hd | exact Hs'].
Defined.
