(* ===== verification/Waits.v ===== *)
(** * Waiting for owners

    The loops of [src/src/cli.rs] and [src/src/runner.rs] that end, replace or
    ask a VM owner, run against whatever the rest of the system does meanwhile,
    as [Stop] runs the one that stops an instance. *)

From S2P Require Import Prelude Text FsUtil Store Locks Stop.

Definition SIGKILL : Z := 9.

(** [ProcessIdentity::signal_group] *)
Definition signal_group (p : process_identity) (sig : Z) : prog () := fun o g =>
  if negb (runs o (calls g) p) then (inl tt, mk_log (S (calls g)) (signals g))
  else
    (if signal_process_group (kills o (calls g)) (pid p) sig then inl tt else inr SignalFailed,
     mk_log (S (calls g)) ((p, sig) :: signals g)).

(** ** Ending the owner of an instance that is deleted *)

(** Polls until the deadline: whether [owner] was seen to be gone. *)
Fixpoint gone_in_time (fuel : nat) (owner : process_identity) : prog bool :=
  match fuel with
  | O => fail OutOfFuel
  | S fuel' =>
      past ← call late;
      if past : bool then mret false
      else
        current ← current_owner;
        if bool_decide (current = Some owner) then gone_in_time fuel' owner else mret true
  end.

Definition terminate_instance_owner (fuel : nat) : prog () :=
  owner ← current_owner;
  match owner with
  | None => mret tt
  | Some owner =>
      _ ← signal_group owner SIGTERM;
      gone ← gone_in_time fuel owner;
      if gone : bool then mret tt
      else
        _ ← signal_group owner SIGKILL;
        gone ← gone_in_time fuel owner;
        if gone : bool then mret tt else fail (LeftRunning owner)
  end.

(** ** Replacing an owner *)

(** [refuse_crashed_run] *)
Definition refuse_crashed_run : prog () :=
  st ← instance_lock_state;
  if is_held st then mret tt
  else
    crashed ← call has_crashed;
    match crashed with
    | Some false => mret tt
    | Some true => fail CrashedRun
    | None => fail LockFailed
    end.

Fixpoint await_replaced (fuel : nat) (owner : process_identity) : prog () :=
  match fuel with
  | O => fail OutOfFuel
  | S fuel' =>
      past ← call late;
      if past : bool then
        current ← current_owner;
        if bool_decide (current = Some owner) then fail (LeftRunning owner) else refuse_crashed_run
      else
        current ← current_owner;
        match current with
        | Some current => if bool_decide (current = owner) then await_replaced fuel' owner else mret tt
        | None => refuse_crashed_run
        end
  end.

Definition replace_existing_owner (fuel : nat) : prog () :=
  owner ← current_owner;
  match owner with
  | None => refuse_crashed_run
  | Some owner => _ ← signal owner SIGTERM; await_replaced fuel owner
  end.

(** [instance_is_held] is whether anyone has the lock. *)
Fixpoint wait_for_fresh_owner_slot (fuel : nat) : prog () :=
  match fuel with
  | O => fail OutOfFuel
  | S fuel' =>
      st ← instance_lock_state;
      if is_held st then
        past ← call late;
        if past : bool then fail TimedOut else wait_for_fresh_owner_slot fuel'
      else mret tt
  end.

Definition prepare_fresh_owner_slot (fuel : nat) (replace_existing : bool) : prog () :=
  _ ← (if replace_existing then replace_existing_owner fuel else mret tt);
  wait_for_fresh_owner_slot fuel.

(** ** Asking an owner for a checkpoint *)

Section checkpoint.
(** Whether the broker's socket is there and accepts, whether the running VM
    has the deterministic configuration asked for, and whether the request was
    granted. *)
Context (broker_ready deterministic_ok granted : nat -> bool).

Fixpoint ask_for_checkpoint (fuel : nat) (expected : process_identity) (validate_deterministic : bool) : prog () :=
  match fuel with
  | O => fail OutOfFuel
  | S fuel' =>
      current ← current_owner;
      match current with
      | None => _ ← refuse_crashed_run; fail OwnerExited
      | Some current =>
          if bool_decide (current <> expected) then fail (ChangedOwner expected current)
          else
            ready ← call (fun _ => broker_ready);
            if ready : bool then
              again ← current_owner;
              if bool_decide (again <> Some expected) then ask_for_checkpoint fuel' expected validate_deterministic
              else
                ok ← (if validate_deterministic then call (fun _ => deterministic_ok) else mret true);
                if negb ok then fail Refused
                else
                  past ← call late;
                  if past : bool then fail TimedOut
                  else
                    done ← call (fun _ => granted);
                    if negb done then fail Refused
                    else
                      after ← current_owner;
                      match after with
                      | Some owner => if bool_decide (owner <> expected) then fail (ChangedOwner expected owner) else mret tt
                      | None => mret tt
                      end
            else
              past ← call late;
              if past : bool then fail TimedOut else ask_for_checkpoint fuel' expected validate_deterministic
      end
  end.

Definition request_checkpoint_from_current_owner (fuel : nat) (validate_deterministic : bool) : prog () :=
  expected ← current_owner;
  match expected with
  | None => fail NoOwner
  | Some expected => ask_for_checkpoint fuel expected validate_deterministic
  end.

End checkpoint.

(** ** What they do *)

(** The owner seen at call [n], if any. *)
Definition owner_seen (o : outside) (n : nat) : option process_identity := l_process <$> (state_seen o n ≫= live_owner).

Section waits.
Context (o : outside).

Lemma wp_current_owner Q g :
  Q (inl (owner_seen o (calls g))) (mk_log (S (calls g)) (signals g)) -> wp current_owner Q o g.
Proof. intros HQ. exact HQ. Qed.

Lemma wp_ret {A} (a : A) (Q : A + stop_error -> log -> Prop) g : Q (inl a) g -> wp (mret a) Q o g.
Proof. done. Qed.

Lemma wp_fail {A} e (Q : A + stop_error -> log -> Prop) g : Q (inr e) g -> wp (fail e) Q o g.
Proof. done. Qed.

Lemma wp_signal_group p sig Q g :
  (forall r l, l = signals g \/ l = (p, sig) :: signals g -> r <> inr OutOfFuel -> Q r (mk_log (S (calls g)) l)) ->
  wp (signal_group p sig) Q o g.
Proof.
  intros HQ. unfold wp, signal_group. destruct (negb _); [by apply HQ; [left |] |].
  destruct (signal_process_group _ _ _); by apply HQ; [right |].
Qed.

Context (limit : nat) (Hlate : forall n, limit <= n -> late o n = true).

(** A poll sees the owner gone, or the deadline pass. *)
Lemma gone_in_time_sees fuel owner g : limit - calls g < fuel ->
  wp (gone_in_time fuel owner) (fun r g' => signals g' = signals g /\ calls g < calls g' /\
    match r with
    | inl true => exists j, calls g < j /\ owner_seen o j <> Some owner
    | inl false => exists j, calls g <= j /\ late o j = true
    | inr e => False
    end) o g.
Proof.
  revert g. induction fuel as [| fuel IH]; intros g Hf; [lia |]. cbn [gone_in_time].
  apply wp_bind, wp_call. destruct (late o (calls g)) eqn:Hl.
  - apply wp_ret. simpl. split_and!; [done | lia |]. eauto.
  - assert (calls g < limit) by (destruct (decide (calls g < limit)); [done |]; rewrite Hlate in Hl; [done | lia]).
    apply wp_bind, wp_current_owner. cbn [calls signals]. case_bool_decide as Hc.
    + eapply wp_mono; [apply IH; simpl; lia |]. simpl. intros r g' (H1 & H2 & H3). split_and!; [done | lia |].
      destruct r as [[] | e]; [| | done]; destruct H3 as (j & Hj & H3); exists j; (split; [lia | done]).
    + apply wp_ret. simpl. split_and!; [done | lia |]. exists (S (calls g)). split; [lia | done].
Qed.

End waits.

(** Before an instance is deleted its owner is ended, if there is one.  That
    comes to an end once the deadlines pass; only the owner seen at the start
    is ever signalled, and killed only after a deadline has passed; and it
    succeeds only when there was no owner or the owner was seen to be gone. *)
Theorem terminate_escalates (o : outside) (limit fuel : nat) :
  (forall n, limit <= n -> late o n = true) -> limit < fuel ->
  let '(r, g) := terminate_instance_owner fuel o start_log in
  r <> inr OutOfFuel /\
  match owner_seen o 0 with
  | None => r = inl tt /\ signals g = []
  | Some p =>
      (forall q sig, (q, sig) ∈ signals g -> q = p /\ (sig = SIGKILL -> exists j, late o j = true)) /\
      (r = inl tt -> exists j, 0 < j /\ owner_seen o j <> Some p)
  end.
Proof.
  intros Hlate Hf.
  enough (Hw : wp (terminate_instance_owner fuel) (fun r g => r <> inr OutOfFuel /\
    match owner_seen o 0 with
    | None => r = inl tt /\ signals g = []
    | Some p =>
        (forall q sig, (q, sig) ∈ signals g -> q = p /\ (sig = SIGKILL -> exists j, late o j = true)) /\
        (r = inl tt -> exists j, 0 < j /\ owner_seen o j <> Some p)
    end) o start_log) by exact Hw.
  unfold terminate_instance_owner. apply wp_bind, wp_current_owner. cbn [calls start_log].
  destruct (owner_seen o 0) as [p |]; [| by apply wp_ret].
  apply wp_bind, wp_signal_group. cbn [calls signals]. intros r1 l1 Hl1 Hr1.
  assert (Hs1 : forall q sig, (q, sig) ∈ l1 -> q = p /\ (sig = SIGKILL -> exists j, late o j = true)).
  { intros q sig Hin. destruct Hl1 as [-> | ->]; [by apply elem_of_nil in Hin |].
    apply list_elem_of_singleton in Hin. simplify_eq. done. }
  destruct r1 as [[] | e1]; [| split_and!; [done | done | done]].
  apply wp_bind. eapply wp_mono; [apply (gone_in_time_sees o limit Hlate); simpl; lia |]. cbn [calls signals].
  intros r2 [c2 l2] (Hl2 & Hc2 & Hr2). simpl in Hl2, Hc2. subst l2. destruct r2 as [[] | e2]; [| | done].
  { apply wp_ret. split_and!; [done | done |]. intros _. destruct Hr2 as (j & Hj & Hj'). exists j. split; [lia | done]. }
  apply wp_bind, wp_signal_group. cbn [calls signals]. intros r3 l3 Hl3 Hr3.
  assert (Hs3 : forall q sig, (q, sig) ∈ l3 -> q = p /\ (sig = SIGKILL -> exists j, late o j = true)).
  { intros q sig Hin. destruct Hl3 as [-> | ->]; [by apply Hs1 |].
    apply elem_of_cons in Hin as [Heq | Hin]; [| by apply Hs1]. simplify_eq. split; [done |]. intros _.
    destruct Hr2 as (j & _ & Hj). by exists j. }
  destruct r3 as [[] | e3]; [| split_and!; [done | done | done]].
  apply wp_bind. eapply wp_mono; [apply (gone_in_time_sees o limit Hlate); simpl; lia |]. cbn [calls signals].
  intros r4 [c4 l4] (Hl4 & Hc4 & Hr4). simpl in Hl4, Hc4. subst l4. destruct r4 as [[] | e4]; [| | done].
  - apply wp_ret. split_and!; [done | done |]. intros _. destruct Hr4 as (j & Hj & Hj'). exists j. split; [lia | done].
  - apply wp_fail. by split_and!.
Qed.

Section asking.
Context (o : outside) (broker_ready deterministic_ok granted : nat -> bool).

(** A checkpoint was granted by [p], who was seen as the owner after the broker
    accepted and just before the request was sent. *)
Definition granted_by (p : process_identity) : Prop :=
  exists j k, broker_ready j = true /\ owner_seen o (S j) = Some p /\ S j < k <= S j + 3 /\ granted k = true.

Lemma refuse_crashed_run_not_granted Q g : (forall r g', r <> inr OutOfFuel -> Q r g') -> wp refuse_crashed_run Q o g.
Proof.
  intros HQ. unfold refuse_crashed_run. apply wp_bind. unfold instance_lock_state. apply wp_bind, wp_call.
  destruct (state_seen o (calls g)) as [st |]; [| by apply HQ]. apply wp_ret. destruct (is_held st); [by apply HQ |].
  apply wp_bind, wp_call. destruct (has_crashed o _) as [[] |]; by apply HQ.
Qed.

Lemma ask_granted fuel p validate g :
  wp (ask_for_checkpoint broker_ready deterministic_ok granted fuel p validate) (fun r _ => r = inl tt -> granted_by p) o g.
Proof.
  revert g. induction fuel as [| fuel IH]; intros g; [by apply wp_fail |]. cbn [ask_for_checkpoint].
  apply wp_bind, wp_current_owner. destruct (owner_seen o (calls g)) as [q |]; [| by apply wp_bind, refuse_crashed_run_not_granted; intros [[] |]].
  case_bool_decide; [by apply wp_fail |]. cbn [calls signals].
  apply wp_bind, wp_call. cbn [calls signals]. destruct (broker_ready (S (calls g))) eqn:Hready.
  2: { apply wp_bind, wp_call. destruct (late o _); [by apply wp_fail | apply IH]. }
  apply wp_bind, wp_current_owner. cbn [calls signals]. case_bool_decide as Hagain; [apply IH |].
  assert (Howner : owner_seen o (S (S (calls g))) = Some p) by (destruct (decide (owner_seen o (S (S (calls g))) = Some p)); [done | by destruct Hagain]).
  assert (Hgo : forall n g', calls g' = n -> S (S (S (calls g))) <= n <= S (S (S (S (calls g)))) ->
    wp (past ← call late;
        if past : bool then fail TimedOut
        else
          done ← call (fun _ => granted);
          if negb done then fail Refused
          else
            after ← current_owner;
            match after with
            | Some owner => if bool_decide (owner <> p) then fail (ChangedOwner p owner) else mret tt
            | None => mret tt
            end) (fun r _ => r = inl tt -> granted_by p) o g').
  { intros n g' <- Hn. apply wp_bind, wp_call. destruct (late o (calls g')); [by apply wp_fail |].
    apply wp_bind, wp_call. cbn [calls]. destruct (granted (S (calls g'))) eqn:Hgr; simpl; [| by apply wp_fail].
    assert (granted_by p) by (exists (S (calls g)), (S (calls g')); split_and!; [done | done | lia | lia | done]).
    apply wp_bind, wp_current_owner. cbn [calls signals]. destruct (owner_seen o (S (S (calls g')))) as [q' |]; [| by apply wp_ret].
    destruct (bool_decide (q' <> p)); [by apply wp_fail | by apply wp_ret]. }
  apply wp_bind. destruct validate.
  - apply wp_call. cbn [calls signals]. destruct (deterministic_ok _); simpl; [| by apply wp_fail]. eapply Hgo; [done | simpl; lia].
  - apply wp_ret. simpl. eapply Hgo; [done | simpl; lia].
Qed.

(** A checkpoint that is reported as taken was granted by the process that was
    the owner when it was asked for, and was still the owner when the request
    was sent: a checkpoint of another owner's run is never reported. *)
Theorem checkpoint_of_the_owner fuel validate g :
  request_checkpoint_from_current_owner broker_ready deterministic_ok granted fuel validate o start_log = (inl tt, g) ->
  exists p, owner_seen o 0 = Some p /\ granted_by p.
Proof.
  intros Hr. assert (Hw : wp (request_checkpoint_from_current_owner broker_ready deterministic_ok granted fuel validate)
    (fun r _ => r = inl tt -> exists p, owner_seen o 0 = Some p /\ granted_by p) o start_log).
  { unfold request_checkpoint_from_current_owner. apply wp_bind, wp_current_owner. cbn [calls start_log].
    destruct (owner_seen o 0) as [p |]; [| by apply wp_fail]. eapply wp_mono; [apply ask_granted |].
    intros r g' Hg Hr'. exists p. split; [done | by apply Hg]. }
  unfold wp in Hw. rewrite Hr in Hw. by apply Hw.
Qed.

End asking.
