(* ===== verification/Paths.v ===== *)
(** * Paths and instance names

    [src/src/paths.rs]: the names an instance may have, where its files and
    sockets live, and the directory below which forks and deletes stage their
    work. *)

From S2P Require Import Prelude FileSystem FsLogic FsUtil Store Text.

(** ** Instance names *)

Definition name_char (c : ascii) : bool :=
  is_ascii_alphanumeric c || Ascii.eqb c "-" || Ascii.eqb c "_" || Ascii.eqb c ".".

Definition validate_instance_name (name : string) : bool :=
  negb (bool_decide (name = "") || bool_decide (name = ".") || bool_decide (name = "..") ||
        negb (string_all name_char name)).

(** Whether a name could name an existing instance directory. *)
Definition is_instance_dir_name (name : string) : bool :=
  negb (bool_decide (name = "")) && negb (bool_decide (name = ".")) && negb (bool_decide (name = "..")) &&
  negb (contains_char "/" name).

(** ** Paths as text *)

Fixpoint components (p : path) : string :=
  match p with
  | [] => EmptyString
  | x :: p' => "/" +:+ x +:+ components p'
  end.

(** An absolute path as the bytes the system is given. *)
Definition path_text (p : path) : string :=
  match p with [] => "/" | _ => components p end.

(** ** Sockets *)

Inductive runtime_socket := SBroker | SCheckpointBroker | SAgent | SSnapshot | SControl | SGvproxy.

Definition all_sockets : list runtime_socket :=
  [SBroker; SCheckpointBroker; SAgent; SSnapshot; SControl; SGvproxy].

Definition socket_file_name (s : runtime_socket) : string :=
  match s with
  | SBroker => "broker.sock"
  | SCheckpointBroker => "checkpoint-broker.sock"
  | SAgent => "lnx-agent.sock"
  | SSnapshot => "lnx-snapshot.sock"
  | SControl => "lnx-control.sock"
  | SGvproxy => "gvproxy.sock"
  end.

Definition GVPROXY_KRUN_SOCKET_SUFFIX : string := "-krun.sock".

(** [Iterator::max_by_key]: the last of the longest. *)
Fixpoint longest (best : string) (l : list string) : string :=
  match l with
  | [] => best
  | x :: l' => longest (if String.length best <=? String.length x then x else best) l'
  end.

Section sockets.
(** [sizeof(sun_path)], 104 on macOS and 108 on Linux. *)
Context (UNIX_SOCKET_PATH_CAPACITY : nat).
(** The hash of the [sha2] crate. *)
Context (sha256 : string -> list N).

Definition unix_socket_path_fits (p : path) : bool := String.length (path_text p) <? UNIX_SOCKET_PATH_CAPACITY.

Definition longest_runtime_socket_path (dir : path) : path :=
  dir /: longest "" (map socket_file_name all_sockets ++ [socket_file_name SGvproxy +:+ GVPROXY_KRUN_SOCKET_SUFFIX]).

(** Two hexadecimal digits per byte. *)
Definition hex_bytes (l : list N) : string :=
  foldr (fun b s => String (hex_digit (b / 16)) (String (hex_digit (b mod 16)) s)) EmptyString l.

Definition socket_dir_for (run_dir short_root : path) : path :=
  if unix_socket_path_fits (longest_runtime_socket_path run_dir) then run_dir
  else short_root /: hex_bytes (take 8 (sha256 (path_text run_dir))).

(** [short_socket_root] on macOS and elsewhere. *)
Definition short_socket_root (macos : bool) (temp_dir : path) (xdg_runtime_dir : option path) (uid : N) : path :=
  if macos then temp_dir /: "lnx"
  else
    match xdg_runtime_dir with
    | Some dir => dir /: "lnx"
    | None => temp_dir /: ("lnx-" +:+ pretty uid)
    end.

End sockets.

(** ** Layouts *)

Record layout := mk_layout {
  lo_base : path;
  lo_instance : string;
  lo_kernel : path;
  lo_rootfs : option path;
  lo_instance_dir : path;
  lo_run_dir : path;
  lo_console_log : path;
}.

Definition instance_exists_in_base (base : path) (instance : string) : M bool :=
  path_is_dir (base /: "instances" /: instance).

(** The loop of [find_instance_base_between]; a path has no more ancestors
    than components. *)
Fixpoint find_upwards (fuel : nat) (instance : string) (dir home : path) : M (option path) :=
  let base := dir /: ".lnx" in
  found ← instance_exists_in_base base instance;
  if (found : bool) then mret (Some base)
  else if bool_decide (dir = home) then mret None
  else
    match parent dir, fuel with
    | Some up, S fuel' => find_upwards fuel' instance up home
    | _, _ =>
        let base := home /: ".lnx" in
        found ← instance_exists_in_base base instance;
        mret (if (found : bool) then Some base else None)
    end.

Definition find_instance_base_between (instance : string) (cwd home : path) : M (option path) :=
  find_upwards (length cwd) instance cwd home.

Definition resolve_for_base (instance : string) (kernel rootfs : option path) (base : path)
    (run_base_env : option path) (kernel_base : path) : layout :=
  let instance_dir := base /: "instances" /: instance in
  let run_dir := match run_base_env with
                 | Some b => b /: "instances" /: instance
                 | None => instance_dir
                 end in
  mk_layout base instance (default (kernel_base /: "vmlinuz") kernel) rootfs instance_dir run_dir
    (run_dir /: "console.log").

Definition resolve_with_env_and_cwd (instance : string) (kernel rootfs base_env run_base_env : option path)
    (home cwd : path) : M layout :=
  base ← match base_env with
         | Some base => mret base
         | None =>
             found ← find_instance_base_between instance cwd home;
             mret (default (home /: ".lnx") found)
         end;
  let kernel_base := match base_env with Some _ => base | None => home /: ".lnx" end in
  mret (resolve_for_base instance kernel rootfs base run_base_env kernel_base).

Definition resolve_in_base (instance : string) (base : path) (kernel rootfs lnx_base run_base_env home : option path)
    : layout :=
  let kernel_base := match lnx_base with
                     | Some b => b
                     | None => default base home /: ".lnx"
                     end in
  resolve_for_base instance kernel rootfs base run_base_env kernel_base.

(** ** Transactions *)

Definition INSTANCE_TRANSACTION_DIR : string := "@lnx-transactions".
Definition INSTANCE_TRANSACTION_MARKER : string := ".lnx-transactions-v1".
Definition INSTANCE_TRANSACTION_MARKER_CONTENT : bytes :=
  to_bytes ("lnx-instance-transactions-v1" +:+ String "010" EmptyString).

Definition is_transaction_name (name : string) : bool :=
  bool_decide (name = INSTANCE_TRANSACTION_DIR) ||
  match strip_prefix INSTANCE_TRANSACTION_DIR name ≫= strip_prefix "-" with
  | Some suffix => negb (bool_decide (suffix = EmptyString)) && string_all is_ascii_digit suffix
  | None => false
  end.

Definition is_instance_transaction_root (p : path) : M bool :=
  if match p with [] => false | _ => is_transaction_name (file_name p) end then
    n ← attempt (symlink_metadata p);
    match n with
    | inl NDir =>
        c ← attempt (fs_read (p /: INSTANCE_TRANSACTION_MARKER));
        mret (match c with
              | inl contents => bool_decide (contents = INSTANCE_TRANSACTION_MARKER_CONTENT)
              | inr _ => false
              end)
    | _ => mret false
    end
  else mret false.

Definition instance_transaction_roots (instances_root : path) : M (list path) :=
  entries ← attempt (read_dir instances_root);
  match entries with
  | inr (Io NotFound) => mret []
  | inr e => fail e
  | inl names =>
      roots ← fold_m (fun acc name =>
        n ← symlink_metadata (instances_root /: name);
        match n with
        | NDir =>
            root ← is_instance_transaction_root (instances_root /: name);
            mret (if (root : bool) then acc ++ [name] else acc)
        | _ => mret acc
        end) [] names;
      mret ((fun name => instances_root /: name) <$> merge_sort string_le roots)
  end.

Definition existing_instance_transaction_root (instances_root : path) : M (option path) :=
  roots ← instance_transaction_roots instances_root; mret (head roots).

Definition transaction_name (attempt : N) : string :=
  if (attempt =? 0)%N then INSTANCE_TRANSACTION_DIR
  else INSTANCE_TRANSACTION_DIR +:+ "-" +:+ pretty attempt.

(** The loop of [ensure_instance_transaction_root]: a root that was there, or
    a directory it made. *)
Fixpoint claim_root (fuel : nat) (instances_root : path) (n : N) : M (path * bool) :=
  match fuel with
  | O => bail "too many transaction directories"
  | S fuel' =>
      let candidate := instances_root /: transaction_name n in
      made ← attempt (create_dir candidate);
      match made with
      | inl _ => mret (candidate, true)
      | inr (Io AlreadyExists) =>
          root ← is_instance_transaction_root candidate;
          if (root : bool) then mret (candidate, false)
          else claim_root fuel' instances_root (saturating_add n 1)
      | inr e => fail e
      end
  end.

Definition mark_root (root : path) : M unit :=
  let marker := root /: INSTANCE_TRANSACTION_MARKER in
  _ ← create_new marker;
  _ ← write_all marker INSTANCE_TRANSACTION_MARKER_CONTENT;
  _ ← sync marker;
  _ ← metadata root;
  sync root.

Definition ensure_instance_transaction_root (fuel : nat) (instances_root : path) : M path :=
  there ← existing_instance_transaction_root instances_root;
  match there with
  | Some root => mret root
  | None =>
      _ ← create_dir_all instances_root;
      claimed ← claim_root fuel instances_root 0;
      let '(root, fresh) := claimed in
      if (fresh : bool) then
        written ← attempt (mark_root root);
        match written with
        | inl _ => mret root
        | inr e => _ ← attempt (remove_dir root); fail e
        end
      else mret root
  end.

(** ** Names *)

Lemma string_all_spec f s : string_all f s = true <-> forall c, contains_char c s = true -> f c = true.
Proof.
  unfold string_all, contains_char, string_any.
  induction (String.list_ascii_of_string s) as [|x l IH]; simpl; [done |].
  rewrite andb_true_iff, IH. split.
  - intros [Hx Hl] c [He%Ascii.eqb_eq | Hc]%orb_true_iff; [by subst | auto].
  - intros Hf. split; [apply Hf; by rewrite Ascii.eqb_refl | intros c Hc; apply Hf; by rewrite Hc, orb_true_r].
Qed.

Lemma transaction_name_at name : is_transaction_name name = true -> contains_char "@" name = true.
Proof.
  unfold is_transaction_name. intros [->%bool_decide_eq_true | Hs]%orb_true_iff; [done |].
  destruct (strip_prefix INSTANCE_TRANSACTION_DIR name) as [r |] eqn:E; [| done].
  apply strip_prefix_Some in E as ->. by rewrite contains_char_app.
Qed.

(** A valid instance name is one path component of plain characters, and
    never the name of a transaction directory beside the instances. *)
Theorem instance_names_are_components name : validate_instance_name name = true ->
  is_instance_dir_name name = true /\ is_transaction_name name = false /\
  forall c, contains_char c name = true -> name_char c = true.
Proof.
  unfold validate_instance_name. rewrite !negb_true_iff, !orb_false_iff, negb_false_iff.
  intros [[[H0 H1] H2] Hc]. pose proof (proj1 (string_all_spec _ _) Hc) as Hall. split_and!.
  - unfold is_instance_dir_name. rewrite H0, H1, H2. simpl. apply negb_true_iff.
    destruct (contains_char "/" name) eqn:E; [| done]. by apply Hall in E.
  - destruct (is_transaction_name name) eqn:E; [| done]. by apply transaction_name_at, Hall in E.
  - exact Hall.
Qed.

(** ** Sockets *)

Lemma longest_spec best l : Forall (fun x => String.length x <= String.length (longest best l)) (best :: l).
Proof.
  revert best. induction l as [| x l IH]; intros best; simpl; [by repeat constructor |].
  specialize (IH (if String.length best <=? String.length x then x else best)).
  apply Forall_cons in IH as [Hb Hl]. destruct (Nat.leb_spec (String.length best) (String.length x)).
  - repeat constructor; [lia | lia | done].
  - repeat constructor; [lia | lia | done].
Qed.

Lemma components_app p q : components (p ++ q) = components p +:+ components q.
Proof.
  induction p as [| x p IH]; [done |]. cbn [app components].
  rewrite IH, !string_app_assoc. done.
Qed.

Lemma path_text_snoc p x :
  String.length (path_text (p /: x)) = String.length (components p) + S (String.length x).
Proof.
  assert (E : path_text (p /: x) = components (p /: x)) by (by destruct p).
  rewrite E, components_app, string_app_length. f_equal. cbn [components]. rewrite !string_app_length. simpl. lia.
Qed.

Lemma hex_bytes_length l : String.length (hex_bytes l) = 2 * length l.
Proof. induction l as [| b l IH]; simpl; [done |]. rewrite IH. lia. Qed.

(** The name of every socket of an instance, with the one gvproxy derives. *)
Definition socket_names : list string :=
  map socket_file_name all_sockets ++ [socket_file_name SGvproxy +:+ GVPROXY_KRUN_SOCKET_SUFFIX].

(** Every socket of an instance has a path the system accepts, however deep the
    instance's directory is: in the instance's own directory when they all fit
    there, else in a directory below a root that is short enough. *)
Theorem socket_paths_fit capacity sha256 run_dir short_root name :
  String.length (components short_root) + 40 < capacity -> name ∈ socket_names ->
  unix_socket_path_fits capacity (socket_dir_for capacity sha256 run_dir short_root /: name) = true.
Proof.
  intros Hroot Hname. unfold socket_dir_for.
  assert (Hlong : String.length name <= 22).
  { unfold socket_names in Hname. simpl in Hname. repeat (apply elem_of_cons in Hname as [-> | Hname]; [simpl; lia |]).
    by apply elem_of_nil in Hname. }
  destruct (unix_socket_path_fits capacity (longest_runtime_socket_path run_dir)) eqn:E.
  - unfold unix_socket_path_fits, longest_runtime_socket_path in *. rewrite Nat.ltb_lt, path_text_snoc in *.
    pose proof (longest_spec "" socket_names) as Hl. apply Forall_cons in Hl as [_ Hl].
    rewrite Forall_forall in Hl. specialize (Hl name Hname). unfold socket_names in Hl. lia.
  - unfold unix_socket_path_fits. rewrite Nat.ltb_lt, path_text_snoc, components_app, string_app_length.
    cbn [components]. rewrite !string_app_length, hex_bytes_length. simpl String.length.
    pose proof (length_take (sha256 (path_text run_dir)) 8). lia.
Qed.

(** ** Finding an instance *)

(** A directory and those above it, the nearest first. *)
Definition ancestors (p : path) : list path := rev ([] :: prefixes [] p).

(** The elements of a list up to and with [h], or all of them and then [h]. *)
Fixpoint through (h : path) (l : list path) : list path :=
  match l with
  | [] => [h]
  | x :: l' => x :: (if bool_decide (x = h) then [] else through h l')
  end.

Definition has_instance (m : fsmap) (instance : string) (dir : path) : bool :=
  bool_decide (m !! (dir /: ".lnx" /: "instances" /: instance) = Some NDir).

Lemma prefixes_app d a b : prefixes d (a ++ b) = prefixes d a ++ prefixes (d ++ a) b.
Proof.
  revert d. induction a as [| x a IH]; intros d; simpl; [by rewrite app_nil_r |].
  rewrite IH. by rewrite <- app_assoc.
Qed.

Lemma ancestors_snoc p x : ancestors (p /: x) = (p /: x) :: ancestors p.
Proof. unfold ancestors. rewrite prefixes_app. simpl. by rewrite rev_app_distr. Qed.

Lemma parent_snoc (p : path) x : parent (p /: x) = Some p.
Proof. unfold parent. destruct (p /: x) eqn:E; [by destruct p |]. by rewrite <- E, removelast_last. Qed.

Lemma ancestors_parent p : ancestors p = p :: match parent p with Some up => ancestors up | None => [] end.
Proof.
  destruct p as [| x p _] using rev_ind; [done |]. rewrite ancestors_snoc.
  by rewrite parent_snoc.
Qed.

Section finding.
Context (E : env) (HE : forall t, e_fault E t = None) (instance : string) (home : path).

Lemma instance_exists_calm dir w : exists w',
  instance_exists_in_base (dir /: ".lnx") instance E w = Ok (has_instance (w_fs w) instance dir) w' /\ w_fs w' = w_fs w.
Proof.
  unfold instance_exists_in_base, path_is_dir, attempt, metadata, look, mbind, M_bind. rewrite HE.
  exists (ticked w). unfold stat_in, has_instance.
  destruct (w_fs w !! _) as [[] |]; simpl; split; try done; by rewrite bool_decide_eq_false_2.
Qed.

Lemma find_upwards_first fuel dir w : length dir <= fuel ->
  exists w', find_upwards fuel instance dir home E w =
    Ok ((fun d => d /: ".lnx") <$> find (has_instance (w_fs w) instance) (through home (ancestors dir))) w' /\
    w_fs w' = w_fs w.
Proof.
  revert dir w. induction fuel as [| fuel IH]; intros dir w Hl; cbn [find_upwards];
    unfold mbind, M_bind; destruct (instance_exists_calm dir w) as (w1 & -> & Hfs);
    rewrite ancestors_parent; cbn [through find];
    (destruct (has_instance (w_fs w) instance dir); [by exists w1 |]);
    (case_bool_decide; [by exists w1 |]).
  - destruct dir; [| simpl in Hl; lia]. cbn [parent through find].
    destruct (instance_exists_calm home w1) as (w2 & -> & Hfs2). exists w2. rewrite Hfs.
    split; [| congruence]. by destruct (has_instance (w_fs w) instance home).
  - destruct dir as [| x dir _] using rev_ind.
    + cbn [parent through find]. destruct (instance_exists_calm home w1) as (w2 & -> & Hfs2). exists w2. rewrite Hfs.
      split; [| congruence]. by destruct (has_instance (w_fs w) instance home).
    + rewrite parent_snoc. destruct (IH dir w1) as (w2 & Hw2 & Hfs2).
      { rewrite length_app in Hl. simpl in Hl. lia. }
      exists w2. rewrite Hfs in Hw2. split; [exact Hw2 | congruence].
Qed.

(** Looking for an instance finds the nearest directory that has it. *)
Theorem find_instance_base_nearest cwd w : exists w',
  find_instance_base_between instance cwd home E w =
    Ok ((fun d => d /: ".lnx") <$> find (has_instance (w_fs w) instance) (through home (ancestors cwd))) w' /\
  w_fs w' = w_fs w.
Proof. by apply find_upwards_first. Qed.

End finding.
