(* ===== verification/Legacy.v ===== *)
(** * Migration from the layout before the store

    [src/src/store/legacy.rs], and [ensure_store] of
    [src/src/runner/session.rs].  Which processes run is an argument, the
    start times the process table reports. *)

From S2P Require Import Prelude FileSystem FsLogic FsUtil FsCopy Text.
From S2P Require Import Store StoreLogic StoreSafety StorePublish StoreCopy Session Locks Paths.

Definition SNAPSHOTS_DIR : string := "memory-snapshots".
Definition LATEST : string := "latest".
Definition LATEST_PREVIOUS : string := ".latest.previous".
Definition RESTORE_WORK : string := ".restore-work".
Definition RESTORE_WORK_ACTIVE : string := ".restore-work.active".
Definition CHECKPOINT_META : string := "checkpoint.meta".
Definition OLD_LOCK : string := "bootstrap.lock.d".
Definition OLD_START_LOCK : string := "owner-start.lock.d".

(** What migration found. *)
Inductive migration :=
  | NotNeeded
  | DidMigrate (latest : generation_id) (crashed_run : option run_id) (checkpoints : N).

(** [fs::read_to_string] *)
Definition read_to_string (p : path) : M string :=
  b ← fs_read p;
  if utf8_valid (of_bytes b) then mret (of_bytes b) else fail (Io OtherIo).

(** [str::parse] for an [i32]. *)
Definition parse_i32 (s : string) : option Z :=
  match s with
  | String "-" d =>
      if starts_with "+" d then None else (fun n => - Z.of_N n)%Z <$> parse_unsigned (2 ^ 31 + 1) d
  | _ => Z.of_N <$> parse_unsigned (2 ^ 31) s
  end.

(** The first of [dirs] that is a complete snapshot. *)
Fixpoint find_snapshot (dirs : list path) : M (option path) :=
  match dirs with
  | [] => mret None
  | d :: dirs' =>
      whole ← fold_m (fun (all : bool) name => if all then path_is_file (d /: name) else mret false)
                true [VMSTATE; PAGES; ROOTFS];
      if (whole : bool) then mret (Some d) else find_snapshot dirs'
  end.

Definition legacy_latest (snapshots : path) : M (option path) :=
  find_snapshot [snapshots /: LATEST; snapshots /: LATEST_PREVIOUS].

(** A hard link when the file system allows, else a clone. *)
Definition adopt_file (legacy dest : path) : M unit :=
  r ← attempt (hard_link legacy dest);
  match r with
  | inl _ => mret tt
  | inr _ => clone_or_copy_file legacy dest
  end.

(** The name and the time of a checkpoint in the old layout. *)
Definition parse_meta_line (acc : option string * N) (line : string) : option string * N :=
  match split_once "=" line with
  | Some (key, value) =>
      if bool_decide (key = "name"%string) then
        if bool_decide (value = EmptyString) then acc else (Some value, acc.2)
      else if bool_decide (key = "created_unix"%string) then (acc.1, default 0%N (parse_unsigned (2 ^ 64) value))
      else acc
  | None => acc
  end.

Definition read_checkpoint_meta (d : path) : M (option string * N) :=
  meta ← attempt (read_to_string (d /: CHECKPOINT_META));
  mret (foldl parse_meta_line (None, 0%N) (lines (match meta with inl text => text | inr _ => EmptyString end))).

(** The order of [Vec<(String, PathBuf)>::sort], of directories of one
    parent. *)
Definition legacy_le (a b : string * string) : Prop :=
  (a.1 <> b.1 /\ string_le a.1 b.1) \/ (a.1 = b.1 /\ string_le a.2 b.2).

#[global] Instance legacy_le_dec : RelDecision legacy_le.
Proof. unfold legacy_le. intros ??. apply _. Defined.

(** The complete checkpoints of the old layout: their ids and directory
    names, in order. *)
Definition legacy_checkpoints (dir : path) : M (list (string * string)) :=
  r ← attempt (read_dir (checkpoints_dir dir));
  match r with
  | inr (Io NotFound) => mret []
  | inr e => fail e
  | inl names =>
      found ← fold_m (fun acc name =>
        let d := checkpoints_dir dir /: name in
        let id := from_utf8_lossy name in
        n ← symlink_metadata d;
        if bool_decide (n = NDir) && negb (starts_with "." id) then
          root ← path_is_file (d /: ROOTFS);
          if (root : bool) then
            meta ← path_is_file (d /: CHECKPOINT_META);
            mret (if (meta : bool) then acc ++ [(id, name)] else acc)
          else mret acc
        else mret acc) [] names;
      mret (merge_sort legacy_le found)
  end.

Section legacy.
Context `{Json record, Json manifest, Json checkpoint_ref}.
(** When each running process started. *)
Context (start_time : Z -> option N) (l : layout).

Abbreviation dir := (lo_instance_dir l).
Abbreviation snapshots := (dir /: SNAPSHOTS_DIR).

(** Gives the run directory [d] the files of the interrupted run. *)
Definition adopt_run (d : path) : M unit :=
  let work := snapshots /: RESTORE_WORK in
  _ ← create_dir_all d;
  names ← read_dir work;
  _ ← for_each (fun name =>
        n ← symlink_metadata (work /: name);
        match n with
        | NFile _ => adopt_file (work /: name) (d /: name)
        | _ => mret tt
        end) names;
  clone_shares dir d.

Definition migrate_crashed_run : M (option run_id) :=
  active ← path_exists (snapshots /: RESTORE_WORK_ACTIVE);
  root ← (if (active : bool) then path_is_file (snapshots /: RESTORE_WORK /: ROOTFS) else mret false);
  if (root : bool) then
    run ← new_run_id;
    _ ← adopt_run (run_dir dir run);
    _ ← sync_tree (run_dir dir run);
    _ ← sync_dir (runs_dir dir);
    mret (Some run)
  else mret None.

(** Older binaries lock with pid files in directories. *)
Definition refuse_live_legacy_owner : M unit :=
  for_each (fun lock =>
    for_each (fun pid_file =>
      text ← attempt (read_to_string (lo_run_dir l /: lock /: pid_file));
      match text with
      | inr _ => mret tt
      | inl text =>
          match parse_i32 (trim text) with
          | None => mret tt
          | Some pid =>
              current ← process_id;
              if bool_decide (is_Some (process_of start_time pid)) && negb (pid =? Z.of_N current)%Z
              then bail "an older lnx process is still using the instance"
              else mret tt
          end
      end) ["owner.pid"; "maintenance.pid"; "starter.pid"])
  [OLD_LOCK; OLD_START_LOCK].

(** Deletes the old layout's files once the store's record exists. *)
Definition remove_legacy_files : M unit :=
  _ ← remove_path_if_exists snapshots;
  _ ← remove_path_if_exists (dir /: ROOTFS);
  _ ← remove_path_if_exists (dir /: HOST_SHARE_STATE);
  _ ← remove_path_if_exists (dir /: "vm-initialized");
  _ ← for_each (fun d =>
        for_each (fun name =>
          _ ← remove_path_if_exists (d /: name);
          remove_path_if_exists (d /: (name +:+ ".guard"))) [OLD_LOCK; OLD_START_LOCK])
      [lo_run_dir l; dir];
  r ← attempt (read_dir (checkpoints_dir dir));
  match r with
  | inl names =>
      for_each (fun name =>
        n ← symlink_metadata (checkpoints_dir dir /: name);
        match n with
        | NDir => remove_path_if_exists (checkpoints_dir dir /: name)
        | _ => mret tt
        end) names
  | inr _ => mret tt
  end.

(** Moves one checkpoint of the old layout into the store. *)
Definition migrate_checkpoint (found : string * string) : M unit :=
  let d := checkpoints_dir dir /: found.2 in
  generation ← import_dir dir d None Migrated;
  meta ← read_checkpoint_meta d;
  add_checkpoint dir (mk_checkpoint found.1 meta.1 generation meta.2).

(** What becomes the latest generation: the old snapshot, or the disk. *)
Definition migrate_latest (latest : option path) : M generation_id :=
  match latest with
  | Some d => import_dir dir d None Migrated
  | None =>
      st ← stage dir;
      _ ← adopt_file (dir /: ROOTFS) (s_dir st /: ROOTFS);
      _ ← clone_shares dir (s_dir st);
      publish dir st None Migrated
  end.

Definition migrate_legacy_layout : M migration :=
  there ← store_exists dir;
  if (there : bool) then _ ← remove_legacy_files; mret NotNeeded
  else
    latest ← legacy_latest snapshots;
    canonical ← match latest with Some _ => mret true | None => path_exists (dir /: ROOTFS) end;
    if (canonical : bool) then
      _ ← refuse_live_legacy_owner;
      _ ← remove_path_if_exists (generations_dir dir);
      _ ← remove_path_if_exists (runs_dir dir);
      latest_id ← migrate_latest latest;
      crashed_run ← migrate_crashed_run;
      found ← legacy_checkpoints dir;
      _ ← for_each migrate_checkpoint found;
      _ ← commit_record dir (Some latest_id)
            (match crashed_run with Some run => Dirty run (mk_process 0 0) | None => Stopped end);
      _ ← remove_legacy_files;
      mret (DidMigrate latest_id crashed_run (N.of_nat (length found)))
    else mret NotNeeded.

(** [RunSession::begin] *)
Definition begin (current : process_identity) (explicit_snapshot : option path) : M run_session :=
  _ ← migrate_legacy_layout;
  begin_stored dir current explicit_snapshot.

(** [with_exclusive_instance_state]; [locked] is what taking the instance
    lock came to. *)
Definition with_exclusive_instance_state {A} (locked : bool + error) (action : M A) : M (option A) :=
  match locked with
  | inl true => a ← action; mret (Some a)
  | inl false => mret None
  | inr e => fail e
  end.

Definition ensure_store (locked : bool + error) : M unit :=
  there ← store_exists dir;
  if (there : bool) then mret tt
  else
    made ← path_exists dir;
    if (made : bool) then _ ← with_exclusive_instance_state locked migrate_legacy_layout; mret tt
    else mret tt.

End legacy.
