(* ===== verification/LegacyLogic.v ===== *)
(** * Reasoning about the migration

    Before its commit point the migration of [src/src/store/legacy.rs] writes
    nowhere near the old layout's files.  The old latest snapshot or disk, an
    interrupted run and the checkpoints become generations, a run and
    checkpoints of the store with the same contents, one commit makes the
    store the instance's state, and only then are the old files deleted. *)

From S2P Require Import Prelude FileSystem FsLogic FsUtil FsCopy Text.
From S2P Require Import Store StoreLogic StoreSafety StorePublish StoreCopy StoreImport StoreGc Locks Paths Legacy.

Section migrate.
Context `{Json record, Json manifest, Json checkpoint_ref}.
Context `{!JsonLaws record valid_record, !JsonLaws manifest valid_manifest}.
Context `{!JsonLaws checkpoint_ref valid_checkpoint}.
Context (start_time : Z -> option N) (l : layout).

Abbreviation dir := (lo_instance_dir l).
Abbreviation snapshots := (dir /: SNAPSHOTS_DIR).
Abbreviation gdir := (generation_dir dir).
Abbreviation rdir := (run_dir dir).

(** ** Where migration writes *)

(** A name that cannot be taken for that of a reference, nor for that of one
    being written. *)
Definition no_ref (name : string) : Prop := forall a b, name <> a +:+ ".ref" +:+ b.

(** The files of the old layout. *)
Definition old_path (q : path) : Prop :=
  below snapshots q \/ below (dir /: ROOTFS) q \/ below (dir /: HOST_SHARE_STATE) q \/
  exists name, no_ref name /\ below (checkpoints_dir dir /: name) q.

(** ... and the paths migration may change before its commit point. *)
Definition new_path (q : path) : Prop := ~ old_path q /\ q <> state_path dir.

Lemma below1 a q : below (dir /: a) q <-> exists s, q = dir ++ a :: s.
Proof. rewrite below_spec. split; intros [s ->]; exists s; by rewrite <- app_assoc. Qed.

Lemma old_path_entry q : old_path q -> exists a s, q = dir ++ a :: s /\
  (a ∈ [SNAPSHOTS_DIR; ROOTFS; HOST_SHARE_STATE] \/
   a = CHECKPOINTS_DIR /\ exists name s', s = name :: s' /\ no_ref name).
Proof.
  intros [Hq | [Hq | [Hq | (name & Hn & Hq)]]].
  1-3: apply below1 in Hq as [s ->]; eexists _, s; split; [done | left; set_solver].
  apply below2 in Hq as [s ->]. exists CHECKPOINTS_DIR, (name :: s). split; [done |]. right. eauto.
Qed.

Lemma new_path_inside a s :
  a ∉ [STATE_FILE; SNAPSHOTS_DIR; ROOTFS; HOST_SHARE_STATE; CHECKPOINTS_DIR] -> new_path (dir ++ a :: s).
Proof.
  intros Ha. split.
  - intros (b & s' & Heq & Hb)%old_path_entry. apply app_inv_head in Heq. simplify_eq. set_solver.
  - intros Heq. apply app_inv_head in Heq. simplify_eq. set_solver.
Qed.

Lemma new_path_above q : below q dir -> new_path q.
Proof.
  intros Hq. assert (Hno : forall a s, q <> dir ++ a :: s).
  { intros a s ->. apply below_spec in Hq as [t Ht].
    apply (f_equal length) in Ht. rewrite !length_app in Ht. cbn in Ht. lia. }
  split; [by intros (b & s & -> & _)%old_path_entry; eapply Hno | by apply Hno].
Qed.

Lemma new_path_around a q :
  a ∉ [STATE_FILE; SNAPSHOTS_DIR; ROOTFS; HOST_SHARE_STATE; CHECKPOINTS_DIR] -> around (dir /: a) q -> new_path q.
Proof.
  intros Ha [[-> | Hq]%below_snoc_inv | [s ->]%below1].
  - by apply new_path_inside.
  - by apply new_path_above.
  - by apply new_path_inside.
Qed.

Lemma new_path_generations q : around (generations_dir dir) q -> new_path q.
Proof. apply new_path_around. by apply (bool_decide_unpack _). Qed.

Lemma new_path_runs q : around (runs_dir dir) q -> new_path q.
Proof. apply new_path_around. by apply (bool_decide_unpack _). Qed.

Lemma new_path_checkpoints q : below q (checkpoints_dir dir) -> new_path q.
Proof.
  intros [-> | Hq]%below_snoc_inv; [| by apply new_path_above]. split.
  - intros (b & s & Heq & Hb)%old_path_entry. apply app_inv_head in Heq. simplify_eq.
    destruct Hb as [Hb | (_ & ? & ? & ? & _)]; [set_solver | done].
  - intros Heq. apply app_inv_head in Heq. by simplify_eq.
Qed.

Lemma new_path_ref a b q : below (checkpoints_dir dir /: (a +:+ ".ref" +:+ b)) q -> new_path q.
Proof.
  intros [s ->]%below2. split.
  - intros (x & s' & Heq & Hb)%old_path_entry. apply app_inv_head in Heq. simplify_eq.
    destruct Hb as [Hb | (_ & n & s'' & Heq & Hn)]; [set_solver |]. simplify_eq. by eapply Hn.
  - intros Heq. apply app_inv_head in Heq. by simplify_eq.
Qed.

Lemma new_path_commit id q : commit_footprint (checkpoints_dir dir /: (id +:+ ".ref")) q -> new_path q.
Proof.
  intros [Hq | [t Hq]].
  - apply (new_path_ref id EmptyString). by rewrite string_app_nil.
  - rewrite temp_of_snoc, string_app_assoc in Hq. by eapply new_path_ref.
Qed.


Lemma modifies_adopt_file (F : path -> Prop) src dst :
  (forall q, below q dst -> F q) -> modifies F (adopt_file src dst).
Proof.
  intros HF. assert (F dst) by apply HF, below_refl. unfold adopt_file. respects_tac.
Qed.

Lemma around_entry d x q : below q (d /: x) -> around d q.
Proof. intros Hq. eapply around_child. by left. Qed.

Lemma modifies_migrate_latest latest : modifies new_path (migrate_latest l latest).
Proof.
  assert (HG := new_path_generations). unfold migrate_latest. destruct latest as [d |].
  - by apply modifies_import_dir.
  - apply modifies_staged; [done |]. intros st Hd _. respects_tac.
    + apply modifies_adopt_file. intros q Hq. apply (around_staging dir _ HG (s_id st)). rewrite <- Hd.
      by eapply around_entry.
    + apply modifies_clone_shares. intros q Hq. apply (around_staging dir _ HG (s_id st)). rewrite <- Hd.
      destruct Hq; [by right | by left].
    + by apply modifies_publish.
Qed.

Lemma modifies_migrate_crashed_run : modifies new_path (migrate_crashed_run l).
Proof.
  assert (HR : forall run q, around (run_dir dir run) q -> new_path q).
  { intros run q Hq%around_child. by apply new_path_runs. }
  unfold migrate_crashed_run, adopt_run. respects_tac.
  - apply modifies_create_dir_all. intros q Hq. eapply HR. by left.
  - apply modifies_adopt_file. intros q Hq. eapply HR. by eapply around_entry.
  - apply modifies_clone_shares. intros q Hq. eapply HR. destruct Hq; [by right | by left].
Qed.

Lemma modifies_add_checkpoint c : modifies new_path (add_checkpoint dir c).
Proof.
  unfold add_checkpoint. respects_step; [auto with frames |]. respects_step.
  - apply modifies_create_dir_all. apply new_path_checkpoints.
  - eapply respects_bind_returns; [apply _ | auto with frames | apply returns_checkpoint_ref_path |].
    intros p [_ ->]. apply modifies_commit_file. apply new_path_commit.
Qed.

Lemma respects_read_checkpoint_meta (I : relation fsmap) `{!PreOrder I} d : respects I (read_checkpoint_meta d).
Proof. unfold read_checkpoint_meta, read_to_string. respects_tac. Qed.

Lemma modifies_migrate_checkpoint found : modifies new_path (migrate_checkpoint l found).
Proof.
  unfold migrate_checkpoint. respects_tac.
  - apply modifies_import_dir, new_path_generations.
  - apply respects_read_checkpoint_meta, _.
  - apply modifies_add_checkpoint.
Qed.


(** ** Before the commit point *)

(** Nothing has been migrated: there is no record, and the old layout's files
    are as they were in [m0]. *)
Definition untouched (m0 m : fsmap) : Prop :=
  well_formed m /\ m !! state_path dir = None /\ forall q, old_path q -> m !! q = m0 !! q.

(** [m'] has every generation of [m], and its runs in [R]. *)
Definition extends (R : run_id -> Prop) (m m' : fsmap) : Prop :=
  (forall id, complete dir m id -> same_tree (gdir id) m m') /\
  (forall run, R run -> same_tree (rdir run) m m').

(** What respects guards adds to the store. *)
Lemma t_adding {A : Type} E m0 m R (c : M A) :
  (forall K, respects (guards dir K R) c) -> modifies new_path c -> untouched m0 m ->
  triple E (eq m) c (fun _ m' => untouched m0 m' /\ extends R m m') (fun m' => untouched m0 m').
Proof.
  intros Hg Hf (Hwf & Hnone & Hold) w ->.
  assert (Hgo : untouched m0 (w_fs (left_by (c E w))) /\ extends R (w_fs w) (w_fs (left_by (c E w)))).
  { destruct (Hg (complete dir (w_fs w)) E w Hwf) as (Hwf' & Hs & HK & HR).
    { intros id Hc. split; [by eapply complete_valid | by apply good_complete_occupied]. }
    split; [split_and! |]; [done | by rewrite Hs | | split; auto].
    intros q Hq. rewrite (Hf E w); [by apply Hold | by intros [? _]]. }
  by destruct (c E w); [| apply Hgo..].
Qed.

Lemma guards_adopt_file K R src id name :
  respects (guards dir K R) (adopt_file src (staging_dir dir id /: name)).
Proof.
  unfold adopt_file. respects_tac; [| apply guards_clone_file].
  apply respects_guards; [| auto with frames].
  apply modifies_hard_link. eapply elsewhere_staging. left. apply below_snoc.
Qed.

Lemma guards_migrate_latest K R latest : respects (guards dir K R) (migrate_latest l latest).
Proof.
  unfold migrate_latest. destruct latest as [d |]; [by apply guards_import_dir |].
  apply guards_staged. intros st Hd Hv. rewrite Hd. respects_tac.
  - apply guards_adopt_file.
  - apply guards_clone_shares.
  - by apply guards_publish.
Qed.

Lemma keeps_form_adopt_file src dst : respects keeps_form (adopt_file src dst).
Proof. unfold adopt_file. respects_tac. Qed.

Lemma guards_migrate_crashed_run K : respects (guards dir K (fun _ => False)) (migrate_crashed_run l).
Proof.
  assert (HR : forall run q, around (rdir run) q -> elsewhere dir K (fun _ => False) q).
  { intros run q Hq. eapply elsewhere_run; [by intros [] |]. destruct Hq; [by right | by left]. }
  unfold migrate_crashed_run, adopt_run. respects_tac.
  - apply respects_guards; [| auto with frames]. apply modifies_create_dir_all. intros q Hq. eapply HR. by left.
  - apply respects_guards; [| apply keeps_form_adopt_file]. apply modifies_adopt_file. intros q Hq. eapply HR. by eapply around_entry.
  - apply respects_guards; [| apply keeps_form_clone_shares]. apply modifies_clone_shares. intros q Hq. eapply HR.
    destruct Hq; [by right | by left].
Qed.

Lemma guards_migrate_checkpoint K R found : respects (guards dir K R) (migrate_checkpoint l found).
Proof.
  unfold migrate_checkpoint. respects_tac.
  - by apply guards_import_dir.
  - apply respects_read_checkpoint_meta, _.
  - by apply guards_add_checkpoint.
Qed.


Lemma t_hard_link E m src dst :
  triple E (eq m) (hard_link src dst) (fun _ m' => forall f, m !! src = Some (NFile f) -> m' !! dst = Some (NFile f)) (eq m).
Proof.
  apply t_change; [done |..].
  - intros w o -> Ho f Hf. rewrite Hf in Ho. unfold new_name in Ho. repeat case_match; simplify_eq.
    simpl. by rewrite lookup_insert_eq.
  - intros w -> Ho f Hf. rewrite Hf in Ho. unfold new_name in Ho. by repeat case_match.
Qed.

(** A file is adopted with its contents. *)
Lemma t_adopt_file E m src dst :
  ~ below src dst ->
  triple E (eq m) (adopt_file src dst)
    (fun _ m' => frame (fun q => below q dst) m m' /\
       forall f, m !! src = Some (NFile f) -> exists b, m' !! dst = Some (NFile (mk_file (f_data f) b))) (fun _ => True).
Proof.
  intros Hnb. apply t_also; [apply t_frame, modifies_adopt_file; done |]. unfold adopt_file.
  eapply t_bind; [eapply t_conseq; [apply t_attempt, (t_hard_link E m src dst) | done | intros r m' Hr; exact Hr | done] |].
  intros [[] | e].
  - apply t_ret. intros m' Hm f Hf. exists (f_blocks f). rewrite (Hm f Hf). by destruct f.
  - eapply t_conseq; [by apply t_clone_or_copy_file | done | | done].
    intros u m' [_ (f & b & Hf & Hd)] f' Hf'. simplify_eq. by exists b.
Qed.

Lemma t_adopt_entry E m src dst name :
  ~ below src dst -> ~ below dst src ->
  triple E (eq m)
    (n ← symlink_metadata (src /: name);
     match n with NFile _ => adopt_file (src /: name) (dst /: name) | _ => mret tt end)
    (fun _ m' => frame (around (dst /: name)) m m' /\ (True -> file_in src dst m m' name)) (fun _ => True).
Proof.
  intros Hsd Hds.
  eapply t_bind; [eapply (t_reads _ _ _ _ (fun n m' => m = m' /\ m !! (src /: name) = Some n));
    [apply reads_symlink_metadata | done | by intros ? n <-] |].
  intros n. apply t_start. intros ? [<- Hn]. destruct n as [f | | t].
  2, 3: apply t_ret; intros ? <-; split; [done |]; intros _ f Hf; congruence.
  eapply t_conseq; [apply t_adopt_file | done | | done].
  - intros Hb. apply Hsd. by eapply sub_below.
  - intros u m' [Hf Hd]. split; [eapply frame_mono, Hf; by left | intros _; exact Hd].
Qed.


(** ** What there is to migrate *)

Definition is_file (m : fsmap) (p : path) : Prop := exists f, m !! p = Some (NFile f).

(** A snapshot directory with all three files. *)
Definition whole (m : fsmap) (d : path) : Prop :=
  is_file m (d /: VMSTATE) /\ is_file m (d /: PAGES) /\ is_file m (d /: ROOTFS).

(** The snapshot that [legacy_latest] picks, if any. *)
Definition picks (m : fsmap) (r : option path) : Prop :=
  match r with
  | Some d => whole m d /\ (d = snapshots /: LATEST \/ (d = snapshots /: LATEST_PREVIOUS /\ ~ whole m (snapshots /: LATEST)))
  | None => ~ whole m (snapshots /: LATEST) /\ ~ whole m (snapshots /: LATEST_PREVIOUS)
  end.

(** A run was interrupted, and left its disk behind. *)
Definition interrupted (m : fsmap) : Prop :=
  (exists n, stat_in m (snapshots /: RESTORE_WORK_ACTIVE) = inl n) /\ is_file m (snapshots /: RESTORE_WORK /: ROOTFS).

(** [name] is a complete checkpoint of the old layout. *)
Definition old_checkpoint (m : fsmap) (name : string) : Prop :=
  let d := checkpoints_dir dir /: name in
  m !! d = Some NDir /\ starts_with "." (from_utf8_lossy name) = false /\
  is_file m (d /: ROOTFS) /\ is_file m (d /: CHECKPOINT_META).

(** Its name and its time. *)
Definition meta_of (m : fsmap) (name : string) : option string * N :=
  foldl parse_meta_line (None, 0%N)
    (lines (match read_in m (checkpoints_dir dir /: name /: CHECKPOINT_META) with
            | inl b => if utf8_valid (of_bytes b) then of_bytes b else EmptyString
            | inr _ => EmptyString
            end)).

Section calm.
Context (E : env) (HE : calm E).

Lemma t_look_calm {A : Type} m (f : fsmap -> A + io_kind) :
  triple E (eq m) (attempt (look f))
    (fun r m' => m = m' /\ r = match f m with inl a => inl a | inr k => inr (Io k) end) (eq m).
Proof.
  intros w ->. unfold attempt, look. destruct (e_fault E (w_tick w)) as [[] |] eqn:Ef; simpl; [| done |].
  - by destruct (HE (w_tick w)).
  - by destruct (f (w_fs w)).
Qed.

Lemma t_path_is_file_calm m p :
  triple E (eq m) (path_is_file p) (fun b m' => m = m' /\ (b = true <-> is_file m p)) (eq m).
Proof.
  unfold path_is_file. eapply t_bind; [apply t_look_calm |]. intros r. apply t_ret. intros ? [<- ->]. split; [done |].
  unfold stat_in, is_file. destruct (m !! p) as [[f | | t] |]; simpl; split; try done; eauto; by intros [? ?].
Qed.

Lemma t_path_exists_calm m p :
  triple E (eq m) (path_exists p) (fun b m' => m = m' /\ (b = true <-> exists n, stat_in m p = inl n)) (eq m).
Proof.
  unfold path_exists. eapply t_bind; [apply t_look_calm |]. intros r. apply t_ret. intros ? [<- ->]. split; [done |].
  destruct (stat_in m p); split; try done; eauto; by intros [? ?].
Qed.

Lemma t_find_snapshot m dirs :
  triple E (eq m) (find_snapshot dirs)
    (fun r m' => m = m' /\ match r with
      | Some d => exists before after, dirs = before ++ d :: after /\ whole m d /\ Forall (fun d' => ~ whole m d') before
      | None => Forall (fun d => ~ whole m d) dirs
      end) (eq m).
Proof.
  induction dirs as [| d dirs IH]; simpl; [by apply t_ret; intros ? <- |].
  eapply t_bind with (R := fun b m' => m = m' /\ (b = true <-> whole m d)).
  - eapply t_bind; [apply t_path_is_file_calm |]. intros b1. apply t_start. intros ? [<- H1'].
    eapply t_bind with (R := fun b m' => m = m' /\ (b = true <-> is_file m (d /: VMSTATE) /\ is_file m (d /: PAGES))).
    { destruct b1; [| apply t_ret; intros ? <-; by intuition]. eapply t_conseq; [apply t_path_is_file_calm | done | | done].
      intros b ? [<- ?]. intuition. }
    intros b2. apply t_start. intros ? [<- H2'].
    eapply t_bind with (R := fun b m' => m = m' /\ (b = true <-> whole m d)); [| intros b; by apply t_ret].
    unfold whole. destruct b2; [| apply t_ret; intros ? <-; by intuition].
    eapply t_conseq; [apply t_path_is_file_calm | done | | done]. intros b ? [<- ?]. intuition.
  - intros [|]; apply t_start; intros ? [<- Hb].
    + apply t_ret. intros ? <-. split; [done |]. exists [], dirs. split_and!; [done | by apply Hb | done].
    + assert (Hn : ~ whole m d) by (intros ?%Hb; done).
      eapply t_conseq; [apply IH | done | | done]. intros [d' |] ? [<- Hr]; split; try done.
      * destruct Hr as (before & after & -> & Hw & Hno). exists (d :: before), after. by split_and!; [| | constructor].
      * by constructor.
Qed.

Lemma t_legacy_latest m : triple E (eq m) (legacy_latest snapshots) (fun r m' => m = m' /\ picks m r) (eq m).
Proof.
  unfold legacy_latest. eapply t_conseq; [apply t_find_snapshot | done | | done].
  intros [d |] ? [<- Hr]; split; try done; simpl.
  - destruct Hr as ([| x [| y [| z before]]] & after & Heq & Hw & Hno); simplify_eq/=.
    + by split; [| left].
    + split; [done |]. right. split; [done |]. by apply (Forall_inv Hno).
  - apply Forall_cons in Hr as [? Hr]. by apply Forall_cons in Hr as [? _].
Qed.


(** ** What is taken over *)

(** The generation [id] has the files of the old latest snapshot or, without
    one, the old disk. *)
Definition took_latest (m0 : fsmap) (id : generation_id) (m : fsmap) : Prop :=
  complete dir m id /\ exists r, picks m0 r /\
  match r with
  | Some d => forall name, name <> MANIFEST -> name <> PIN -> file_in d (gdir id) m0 m name
  | None => file_in dir (gdir id) m0 m ROOTFS
  end.

(** An interrupted run is a run of the store, with its files. *)
Definition took_run (m0 : fsmap) (r : option run_id) (m : fsmap) : Prop :=
  match r with
  | None => ~ interrupted m0
  | Some run => interrupted m0 /\ valid_id run /\
      forall name, name <> HOST_SHARE_STATE -> file_in (snapshots /: RESTORE_WORK) (rdir run) m0 m name
  end.

Lemma file_in_before src dst m0 m1 m name :
  m1 !! (src /: name) = m0 !! (src /: name) -> file_in src dst m1 m name -> file_in src dst m0 m name.
Proof. intros Hs Hf f Hm. apply Hf. by rewrite Hs. Qed.

Lemma untouched_at m0 m q : untouched m0 m -> old_path q -> m !! q = m0 !! q.
Proof. intros (_ & _ & Ho). apply Ho. Qed.

Lemma old_snapshot s : old_path (snapshots ++ s).
Proof. left. apply below_app. Qed.

Lemma picks_in_snapshots m d : picks m (Some d) -> exists x, d = snapshots /: x.
Proof. intros [_ [-> | [-> _]]]; by eexists. Qed.

Lemma entry_apart a b (s : path) : a <> b -> ~ below (dir /: a) (dir ++ b :: s) /\ ~ below (dir ++ b :: s) (dir /: a).
Proof.
  intros Hne. split.
  - intros [t Ht]%below1. apply app_inv_head in Ht. by simplify_eq.
  - intros [t Ht]%below_spec. rewrite <- app_assoc in Ht. apply app_inv_head in Ht. by simplify_eq/=.
Qed.

Lemma modifies_shares_at src dst : modifies (around (dst /: HOST_SHARE_STATE)) (clone_shares src dst).
Proof. unfold clone_shares. respects_tac. apply modifies_clone_or_copy_tree; [by left | by right]. Qed.

Lemma t_took_latest m0 m r :
  untouched m0 m -> picks m0 r ->
  triple E (eq m) (migrate_latest l r) (fun id => took_latest m0 id) (fun _ => True).
Proof.
  intros Hu Hr. destruct r as [d |]; simpl.
  - destruct (picks_in_snapshots m0 d Hr) as [x Hd].
    destruct (entry_apart GENERATIONS_DIR SNAPSHOTS_DIR [x]) as [Ha Ha']; [done |].
    assert (Hdx : d = dir ++ [SNAPSHOTS_DIR; x]) by (rewrite Hd, <- app_assoc; done).
    eapply t_conseq; [by apply (t_import_dir dir E m d None Migrated); rewrite ?Hdx | done | | done].
    intros id m' [Hc Hf]. split; [done |]. exists (Some d). split; [done |].
    intros name Hm Hp. eapply file_in_before; [| by apply Hf]. apply untouched_at; [done |]. rewrite Hd.
    rewrite <- app_assoc. apply old_snapshot.
  - eapply t_bind; [eapply t_returns; [apply (t_frame E _ _ _ (modifies_stage dir _ new_path_generations)) | apply returns_stage] |].
    intros st. apply t_start. intros m1 (Hf & Hd & Hv).
    eapply t_bind; [apply t_adopt_file |].
    { rewrite Hd. unfold staging_dir, generations_dir. rewrite <- !app_assoc. by apply entry_apart. }
    intros u. apply t_start. intros m2 [_ Hroot].
    eapply t_bind; [apply t_frame, modifies_shares_at |].
    intros u'. apply t_start. intros m3 Hf3.
    eapply t_conseq; [by apply t_publish | done | | done].
    intros id m' [-> (mf & Hc & _ & _ & _ & Ht)]. split; [by exists mf |]. exists None. split; [done |].
    intros f Hsrc. rewrite <- (untouched_at m0 m) in Hsrc; [| done | right; left; apply below_refl].
    rewrite <- Hf in Hsrc by (intros [Hno _]; apply Hno; right; left; apply below_refl).
    destruct (Hroot f Hsrc) as [b Hb]. exists b. rewrite (Ht ROOTFS []) by done.
    rewrite Hf3; [done |]. rewrite <- (app_nil_r (s_dir st /: ROOTFS)). by apply around_sibling.
Qed.


Lemma stat_in_eq m m' p : m' !! p = m !! p -> (exists n, stat_in m' p = inl n) <-> (exists n, stat_in m p = inl n).
Proof. intros Hp. unfold stat_in. rewrite Hp. destruct (m !! p) as [[] |]; split; intros [n Hn]; simplify_eq; eauto. Qed.

Lemma interrupted_untouched m0 m : untouched m0 m -> interrupted m <-> interrupted m0.
Proof.
  intros Hu. unfold interrupted, is_file.
  rewrite (stat_in_eq m0 m), (untouched_at m0 m); [done | done | ..].
  - rewrite <- app_assoc. apply old_snapshot.
  - apply untouched_at; [done | apply old_snapshot].
Qed.

Lemma t_adopt_run m run :
  let work := snapshots /: RESTORE_WORK in
  triple E (eq m) (adopt_run l (rdir run))
    (fun _ m' => forall name, name <> HOST_SHARE_STATE -> file_in work (rdir run) m m' name) (fun _ => True).
Proof.
  intros work. assert (Hw : work = dir ++ [SNAPSHOTS_DIR; RESTORE_WORK]) by (unfold work; by rewrite <- app_assoc).
  assert (Hap : ~ below work (rdir run) /\ ~ below (rdir run) work).
  { rewrite Hw. split; intros [t Ht]%below_spec; unfold run_dir, runs_dir in Ht; rewrite <- !app_assoc in Ht;
      apply app_inv_head in Ht; by simplify_eq/=. }
  unfold adopt_run. eapply t_bind; [apply t_frame, (modifies_create_dir_all (fun q => below q (rdir run))); done |].
  intros u. apply t_start. intros m1 Hf1.
  eapply t_bind; [eapply (t_reads _ _ _ _ (fun l m => m1 = m /\ l ≡ₚ entries m1 work));
    [apply reads_read_dir | done | by intros ? ns <- [_ Hl]] |].
  intros names. apply t_start. intros ? [<- Hnames].
  assert (Hnd : NoDup names) by (rewrite Hnames; apply NoDup_entries).
  eapply t_bind; [eapply (t_copy_entries E _ (fun _ => True) m1 work (rdir run) names);
    [tauto | tauto | done | intros; apply t_adopt_entry; tauto] |].
  intros u'. apply t_start. intros m2 [_ Hc].
  eapply t_conseq; [apply t_frame, modifies_shares_at | done | | done].
  intros u'' m3 Hf3 name Hne f Hf.
  rewrite <- (Hf1 (work /: name)) in Hf by (intros Hb; apply (proj1 Hap); eapply below_trans, Hb; apply below_snoc).
  destruct (Hc name) with (f := f) as [b Hb]; [rewrite Hnames, elem_of_entries; by eexists | done | done |].
  exists b. rewrite Hf3; [done |]. rewrite <- (app_nil_r (rdir run /: name)). by apply around_sibling.
Qed.

Lemma t_took_run m0 m :
  untouched m0 m -> triple E (eq m) (migrate_crashed_run l) (fun r => took_run m0 r) (fun _ => True).
Proof.
  intros Hu. unfold migrate_crashed_run.
  eapply t_bind; [eapply t_conseq; [apply t_path_exists_calm | done | intros b m' Hb; exact Hb | done] |].
  intros active. apply t_start. intros ? [<- Hactive].
  eapply t_bind with (R := fun b m' => m = m' /\ (b = true <-> interrupted m)).
  { unfold interrupted. destruct active.
    - eapply t_conseq; [apply t_path_is_file_calm | done | | done]. intros b ? [<- Hb]. intuition.
    - apply t_ret. intros ? <-. split; [done |]. split; [done |]. intros [? _]. by apply Hactive. }
  intros root. apply t_start. intros ? [<- Hi]. rewrite (interrupted_untouched m0 m Hu) in Hi.
  destruct root; [| apply t_ret; intros ? <- Hint; by apply Hi in Hint].
  eapply t_bind; [eapply t_returns; [apply (t_silent _ _ _ (eq m)); auto with frames | apply returns_new_run_id] |].
  intros run. apply t_start. intros ? [<- Hv].
  eapply t_bind; [apply t_adopt_run |]. intros u.
  eapply t_bind; [by apply t_silent; [auto with frames | intros m' Hm; exact Hm |] |]. intros u'.
  eapply t_bind; [by apply t_silent; [auto with frames | intros m' Hm; exact Hm |] |]. intros u''.
  apply t_ret. intros m' Hm. split_and!; [by apply Hi | done |]. intros name Hne.
  eapply file_in_before; [| by apply Hm]. apply untouched_at; [done |]. left. apply below1. eexists. by rewrite <- !app_assoc.
Qed.


(** The old checkpoint [name] is a checkpoint of the store, with its files,
    its name and its time. *)
Definition took_checkpoint (m0 : fsmap) (name : string) (m : fsmap) : Prop :=
  exists gen, complete dir m gen /\
    checkpoint_at dir m (name +:+ ".ref") (mk_checkpoint name (meta_of m0 name).1 gen (meta_of m0 name).2) /\
    forall x, x <> MANIFEST -> x <> PIN -> file_in (checkpoints_dir dir /: name) (gdir gen) m0 m x.

Definition ref_of (name : string) : path := checkpoints_dir dir /: (name +:+ ".ref").

Lemma file_in_tree src dst m0 m m' x : same_tree dst m m' -> file_in src dst m0 m x -> file_in src dst m0 m' x.
Proof. intros Hs Hf f Hm. destruct (Hf f Hm) as [b Hb]. exists b. rewrite Hs; [done | apply below_snoc]. Qed.

Lemma took_checkpoint_kept m0 name m m' R :
  took_checkpoint m0 name m -> extends R m m' -> m' !! ref_of name = m !! ref_of name -> took_checkpoint m0 name m'.
Proof.
  intros (gen & Hc & [Hx Hj] & Hf) [Hg _] Href. exists gen. split_and!.
  - eapply same_tree_complete; [by apply Hg | done].
  - split; [done |]. unfold json_at, contents_at in *. unfold ref_of in Href. by rewrite Href.
  - intros x Hm Hp. eapply file_in_tree; [by apply Hg | by apply Hf].
Qed.

Lemma t_read_checkpoint_meta m name :
  triple E (eq m) (read_checkpoint_meta (checkpoints_dir dir /: name)) (fun meta m' => m = m' /\ meta = meta_of m name) (eq m).
Proof.
  unfold read_checkpoint_meta.
  eapply t_bind with (R := fun r m' => m = m' /\ match r with inl text => text | inr _ => EmptyString end =
    match read_in m (checkpoints_dir dir /: name /: CHECKPOINT_META) with
    | inl b => if utf8_valid (of_bytes b) then of_bytes b else EmptyString
    | inr _ => EmptyString
    end).
  - intros w ->. assert (Hl := t_look_calm (w_fs w) (fun m => read_in m (checkpoints_dir dir /: name /: CHECKPOINT_META)) w eq_refl).
    unfold attempt, read_to_string, fs_read, mbind, M_bind in *. destruct (look _ E w) as [b w' | e w' | w'].
    + destruct Hl as [Hw Hb]. destruct (read_in _ _); simplify_eq. by destruct (utf8_valid _).
    + destruct Hl as [Hw Hb]. destruct (read_in _ _); by simplify_eq.
    + done.
  - intros r. apply t_ret. intros ? [<- Hr]. split; [done |]. unfold meta_of. by rewrite Hr.
Qed.


(** One entry of the checkpoints directory. *)
Lemma t_one_checkpoint m acc name :
  triple E (eq m)
    (let d := checkpoints_dir dir /: name in
     let id := from_utf8_lossy name in
     n ← symlink_metadata d;
     if bool_decide (n = NDir) && negb (starts_with "." id) then
       root ← path_is_file (d /: ROOTFS);
       if (root : bool) then
         meta ← path_is_file (d /: CHECKPOINT_META);
         mret (if (meta : bool) then acc ++ [(id, name)] else acc)
       else mret acc
     else mret acc)
    (fun acc' m' => m = m' /\ ((acc' = acc /\ ~ old_checkpoint m name) \/ acc' = acc ++ [(from_utf8_lossy name, name)])) (eq m).
Proof.
  cbv zeta. eapply t_bind; [eapply (t_reads _ _ _ _ (fun n m' => m = m' /\ m !! (checkpoints_dir dir /: name) = Some n));
    [apply reads_symlink_metadata | done | by intros ? n <-] |].
  intros n. apply t_start. intros ? [<- Hn]. unfold old_checkpoint. rewrite Hn.
  destruct (bool_decide (n = NDir) && _) eqn:Hb.
  2: { apply t_ret. intros ? <-. split; [done |]. left. split; [done |]. intros ([= ->] & Hs & _). by rewrite Hs in Hb. }
  eapply t_bind; [apply t_path_is_file_calm |]. intros root. apply t_start. intros ? [<- Hroot].
  destruct root; [| apply t_ret; intros ? <-; split; [done |]; left; split; [done |]; intros (_ & _ & Hf & _); by apply Hroot in Hf].
  eapply t_bind; [apply t_path_is_file_calm |]. intros meta. apply t_ret. intros ? [<- Hmeta]. split; [done |].
  destruct meta; [by right | left]. split; [done |]. intros (_ & _ & _ & Hf). by apply Hmeta in Hf.
Qed.

(** [found] are the checkpoints among [seen]. *)
Definition found_among (m : fsmap) (found : list (string * string)) (seen : list string) : Prop :=
  found.*2 `sublist_of` seen /\ (forall x, x ∈ found -> x.1 = from_utf8_lossy x.2) /\
  forall name, name ∈ seen -> old_checkpoint m name -> name ∈ found.*2.

Lemma listed_step m found found' seen name :
  found_among m found seen ->
  (found' = found /\ ~ old_checkpoint m name) \/ found' = found ++ [(from_utf8_lossy name, name)] ->
  found_among m found' (seen ++ [name]).
Proof.
  intros (Hsub & Hid & Hin) [[-> Hno] | ->]; split_and!.
  - by apply sublist_inserts_r.
  - done.
  - intros x [Hx | ->%list_elem_of_singleton]%elem_of_app Ho; [by apply Hin | done].
  - rewrite fmap_app. by apply sublist_app.
  - intros x [Hx | ->%list_elem_of_singleton]%elem_of_app; [by apply Hid | done].
  - intros x Hx Ho. rewrite fmap_app, elem_of_app. apply elem_of_app in Hx as [Hx | ->%list_elem_of_singleton]; [left; by apply Hin | right; by left].
Qed.

Lemma t_legacy_checkpoints m :
  well_formed m ->
  triple E (eq m) (legacy_checkpoints dir)
    (fun found m' => m = m' /\ NoDup found.*2 /\ (forall x, x ∈ found -> x.1 = from_utf8_lossy x.2) /\
       forall name, old_checkpoint m name -> name ∈ found.*2) (eq m).
Proof.
  intros Hwf. unfold legacy_checkpoints. eapply t_bind.
  { apply t_also; [by apply t_read_dir_calm |].
    eapply (t_reads _ _ _ _ (fun r m' => forall ns, r = inl ns -> NoDup ns)); [apply reads_attempt, reads_read_dir | done |].
    intros ? r _ Hr ns ->. destruct Hr as [_ ->]. apply NoDup_entries. }
  intros r. apply t_start. intros ? [[<- Hr] Hnd].
  assert (Hdir : forall name, old_checkpoint m name -> m !! checkpoints_dir dir = Some NDir).
  { intros name [Hd _]. destruct (Hwf (checkpoints_dir dir) name) as [Hnil | ?]; [by rewrite Hd | | done].
    unfold checkpoints_dir in Hnil. by destruct (lo_instance_dir l). }
  destruct r as [names | e].
  2: { assert (Hnone : forall name, ~ old_checkpoint m name).
       { intros name Ho. destruct (Hr (Hdir name Ho)) as (? & [=] & _). }
       destruct e as [[] | |]; try (apply t_fail; by intros ? <-).
       apply t_ret. intros ? <-. split_and!; [done | constructor | by intros ? ?%elem_of_nil |].
       intros name Ho. by destruct (Hnone name). }
  eapply t_bind with (R := fun found m' => m = m' /\ found_among m found names).
  { apply (t_fold_m E (eq m) (found_among m)).
    - intros seen acc x Hinv. eapply t_conseq; [apply (t_one_checkpoint m acc x) | done | | done].
      intros acc' ? [<- Hacc']. split; [done |]. by eapply listed_step.
    - split_and!; [done | by intros ? ?%elem_of_nil | by intros ? ?%elem_of_nil]. }
  intros found. apply t_ret. intros ? (<- & Hsub & Hid & Hin).
  assert (Hperm : merge_sort legacy_le found ≡ₚ found) by apply merge_sort_Permutation.
  split_and!; [done | ..].
  - rewrite Hperm. eapply sublist_NoDup; [by apply (Hnd names) | exact Hsub].
  - intros x Hx. apply Hid. by rewrite <- Hperm.
  - intros name Ho. rewrite Hperm. apply Hin; [| done].
    destruct (Hr (Hdir name Ho)) as (ns & [= <-] & ->). apply elem_of_entries. by rewrite (proj1 Ho).
Qed.


Lemma ref_ne_temp n a t : no_ref n -> n +:+ ".ref" <> a +:+ ".ref" +:+ ".tmp-" +:+ t.
Proof.
  revert a. induction n as [| c n IH]; intros a Hn Heq.
  - apply (f_equal String.length) in Heq. rewrite !string_app_length in Heq. simpl in Heq. lia.
  - destruct a as [| d a].
    + do 3 (destruct n as [| ? n]; simplify_eq/=). by apply (Hn EmptyString n).
    + simplify_eq/=. eapply IH; [| done]. intros a' b' ->. by eapply (Hn (String d a') b').
Qed.

Lemma id_char_ascii id : valid_id id -> string_all (in_range 0 127) id = true.
Proof.
  unfold valid_id, validate_component. intros [_ Hs]%andb_true_iff. eapply string_all_mono, Hs.
  intros [[] [] [] [] [] [] [] []]; vm_compute; done.
Qed.

Lemma ref_apart name other :
  no_ref other -> name <> other -> valid_id (from_utf8_lossy name) ->
  ~ commit_footprint (checkpoints_dir dir /: (from_utf8_lossy name +:+ ".ref")) (ref_of other).
Proof.
  intros Hdot Hne Hv. rewrite (lossy_ascii name) by by apply id_char_ascii.
  intros [Hb | [t Hb]]; [| rewrite temp_of_snoc in Hb].
  - apply Hne, (string_app_inj_r _ _ ".ref"). eapply below_sibling; [exact Hb | apply below_refl].
  - apply (ref_ne_temp other name t Hdot). rewrite <- string_app_assoc. symmetry.
    eapply below_sibling; [exact Hb | apply below_refl].
Qed.

(** Migrating one checkpoint leaves the references of the others. *)
Lemma modifies_other_ref name other :
  no_ref other -> name <> other ->
  modifies (fun q => q <> ref_of other) (migrate_checkpoint l (from_utf8_lossy name, name)).
Proof.
  intros Hdot Hne. unfold migrate_checkpoint. respects_tac.
  - apply modifies_import_dir. intros q Hq ->. unfold ref_of, checkpoints_dir in Hq. rewrite <- app_assoc in Hq.
    revert Hq. rewrite app_assoc. by apply around_sibling.
  - apply respects_read_checkpoint_meta, _.
  - unfold add_checkpoint. respects_step; [auto with frames |]. respects_step.
    + apply modifies_create_dir_all. intros q Hq ->. by eapply not_below_child.
    + eapply respects_bind_returns; [apply _ | auto with frames | apply returns_checkpoint_ref_path |].
      intros p [Hv ->]. apply modifies_commit_file. simpl in *.
      intros q Hq ->. by eapply ref_apart.
Qed.


Lemma old_checkpoint_path name s : no_ref name -> old_path ((checkpoints_dir dir /: name) ++ s).
Proof. intros Hn. do 3 right. exists name. split; [done | apply below_app]. Qed.

Lemma meta_of_untouched m0 m name : untouched m0 m -> no_ref name -> meta_of m name = meta_of m0 name.
Proof.
  intros Hu Hn. assert (Hat := untouched_at m0 m _ Hu (old_checkpoint_path name [CHECKPOINT_META] Hn)).
  unfold meta_of, read_in, stat_in. rewrite Hat. by destruct (m0 !! _) as [[] |].
Qed.

Lemma t_given {A : Type} (G : Prop) P (c : M A) (Q : A -> fsmap -> Prop) :
  (G -> triple E P c Q (fun _ => True)) -> triple E P c (fun a m => G -> Q a m) (fun _ => True).
Proof. intros Ht w Hw. assert (Hc := fun g => Ht g w Hw). by destruct (c E w). Qed.

Lemma t_migrate_checkpoint m0 m name :
  untouched m0 m ->
  triple E (eq m) (migrate_checkpoint l (from_utf8_lossy name, name))
    (fun _ m' => (untouched m0 m' /\ extends (fun _ => True) m m') /\ (no_ref name -> took_checkpoint m0 name m'))
    (untouched m0).
Proof.
  intros Hu. apply t_also; [apply t_adding; [intros K; apply guards_migrate_checkpoint | apply modifies_migrate_checkpoint | done] |].
  apply t_given. intros Hd.
  unfold migrate_checkpoint. cbn [fst snd].
  destruct (entry_apart GENERATIONS_DIR CHECKPOINTS_DIR [name]) as [Ha Ha']; [done |].
  assert (Hsrc : checkpoints_dir dir /: name = dir ++ [CHECKPOINTS_DIR; name]) by (unfold checkpoints_dir; by rewrite <- app_assoc).
  eapply t_bind; [apply t_also; [eapply t_conseq; [apply (t_adding E m0 m (fun _ => True)) | done | intros ? ? Hx; exact Hx | done] |
    by apply (t_import_dir dir E m (checkpoints_dir dir /: name) None Migrated); rewrite ?Hsrc] |].
  { intros K. apply guards_import_dir. }
  { apply modifies_import_dir, new_path_generations. }
  { done. }
  intros gen. apply t_start. intros m1 [[Hu1 _] [Hc Hf]].
  eapply t_bind; [eapply t_conseq; [apply t_read_checkpoint_meta | done | intros ? ? Hx; exact Hx | done] |].
  intros meta. apply t_start. intros ? [<- ->].
  eapply t_conseq; [apply t_and; [apply (t_adding E m0 m1 (fun _ => True)) | apply (t_add_checkpoint dir E (fun _ => True))] |..].
  - intros K. apply guards_add_checkpoint.
  - apply modifies_add_checkpoint.
  - done.
  - by eapply complete_valid.
  - by intros ? <-.
  - intros u m2 [[Hu2 [Hg _]] [Hv Hck]]. cbn [c_id] in *. rewrite (lossy_ascii name) in Hck by by apply id_char_ascii.
    exists gen. rewrite (meta_of_untouched m0 m1) in Hck by done. split_and!; [| done |].
    + eapply same_tree_complete; [by apply Hg | done].
    + intros x Hm Hp. eapply file_in_tree; [by apply Hg |]. eapply file_in_before; [| by apply Hf].
      apply untouched_at; [done |]. by apply old_checkpoint_path.
  - done.
Qed.

Lemma t_other_refs m name :
  triple E (eq m) (migrate_checkpoint l (from_utf8_lossy name, name))
    (fun _ m' => forall other, no_ref other -> other <> name -> m' !! ref_of other = m !! ref_of other) (fun _ => True).
Proof.
  intros w ->. assert (Hf := fun other Hd Hne => modifies_other_ref name other Hd Hne E w).
  destruct (migrate_checkpoint l _ E w); [| done | done]. intros other Hd Hne.
  apply (Hf other Hd (not_eq_sym Hne)). intros Hq. by apply Hq.
Qed.

Lemma extends_trans R m1 m2 m3 : extends R m1 m2 -> extends R m2 m3 -> extends R m1 m3.
Proof.
  intros [Hg Hr] [Hg' Hr']. split.
  - intros id Hc p Hp. rewrite (Hg' id); [by apply (Hg id) | | done]. eapply same_tree_complete; [by apply Hg | done].
  - intros run Hrun p Hp. rewrite (Hr' run) by done. by apply (Hr run).
Qed.

Lemma t_migrate_checkpoints m0 m found :
  untouched m0 m -> NoDup found.*2 -> (forall x, x ∈ found -> x.1 = from_utf8_lossy x.2) ->
  triple E (eq m) (for_each (migrate_checkpoint l) found)
    (fun _ m' => untouched m0 m' /\ extends (fun _ => True) m m' /\
       (forall name, no_ref name -> name ∈ found.*2 -> took_checkpoint m0 name m') /\
       (forall name, no_ref name -> name ∉ found.*2 -> m' !! ref_of name = m !! ref_of name)) (untouched m0).
Proof.
  revert m. induction found as [| [id name] found IH]; intros m Hu Hnd Hids; simpl.
  { apply t_ret. intros ? <-. split_and!; try done. by intros ? _ ?%elem_of_nil. }
  apply NoDup_cons in Hnd as [Hx Hnd]. assert (Hid := Hids (id, name) ltac:(by left)). simpl in Hid. subst id.
  eapply t_bind.
  { apply t_also; [by apply t_migrate_checkpoint | apply t_other_refs]. }
  intros u. apply t_start. intros m1 [[[Hu1 He1] Ht1] Hr1].
  eapply t_conseq; [apply (IH m1); [done | done | intros x Hin; apply Hids; by right] | done | | done].
  intros u' m2 (Hu2 & He2 & Ht2 & Hr2). split_and!; [done | by eapply extends_trans | |].
  - intros n Hn [-> | Hin]%elem_of_cons; [| by apply Ht2]. eapply took_checkpoint_kept; [by apply Ht1 | exact He2 | by apply Hr2].
  - intros n Hn [Hne Hin]%not_elem_of_cons. by rewrite Hr2, Hr1.
Qed.


(** ** The commit point, and after *)

Definition took_checkpoints (m0 m : fsmap) : Prop :=
  forall name, no_ref name -> old_checkpoint m0 name -> took_checkpoint m0 name m.

(** Everything is in the store. *)
Definition took_all (m0 : fsmap) (id : generation_id) (r : option run_id) (m : fsmap) : Prop :=
  took_latest m0 id m /\ took_run m0 r m /\ took_checkpoints m0 m.

Definition left_phase (r : option run_id) : phase :=
  match r with Some run => Dirty run (mk_process 0 0) | None => Stopped end.

(** ... and the store's record says so. *)
Definition migrated (m0 : fsmap) (id : generation_id) (r : option run_id) (m : fsmap) : Prop :=
  good dir m (mk_record RECORD_VERSION (Some id) (left_phase r)) /\ took_all m0 id r m.

(** [m'] has the generations, runs and references of [m]. *)
Definition same_store (m m' : fsmap) : Prop :=
  (forall gen, same_tree (gdir gen) m m') /\ (forall run, same_tree (rdir run) m m') /\
  forall name, is_file m (ref_of name) -> m' !! ref_of name = m !! ref_of name.

Lemma took_latest_kept m0 id m m' : same_tree (gdir id) m m' -> took_latest m0 id m -> took_latest m0 id m'.
Proof.
  intros Hs (Hc & r & Hr & Hf). split; [by eapply same_tree_complete |]. exists r. split; [done |].
  destruct r as [d |]; [intros name Hm Hp |]; (eapply file_in_tree; [exact Hs |]); auto.
Qed.

Lemma took_run_kept m0 r m m' :
  (forall run, same_tree (rdir run) m m') -> took_run m0 r m -> took_run m0 r m'.
Proof.
  intros Hs. destruct r as [run |]; [| done]. intros (Hi & Hv & Hf). split_and!; [done | done |].
  intros name Hne. eapply file_in_tree; [apply Hs | by apply Hf].
Qed.

Lemma took_all_kept m0 id r m m' : same_store m m' -> took_all m0 id r m -> took_all m0 id r m'.
Proof.
  intros (Hg & Hr & Href) (Hl & Hrun & Hcp).
  split_and!; [by eapply took_latest_kept | by eapply took_run_kept |].
  intros name Hn Ho. eapply took_checkpoint_kept with (R := fun _ => True); [by apply Hcp | by split; intros |].
  apply Href. destruct (Hcp name Hn Ho) as (gen & _ & [_ Hj] & _). unfold json_at, contents_at in Hj. fold (ref_of name) in Hj.
  destruct (m !! ref_of name) as [[f | |] |] eqn:Hm; try done. by exists f.
Qed.

Lemma old_not_state q : old_path q -> ~ commit_footprint (state_path dir) q.
Proof.
  intros (a & s & -> & Ha)%old_path_entry Hq.
  assert (Hcase : exists x, a = STATE_FILE +:+ x).
  { destruct Hq as [Hq | [t Hq]]; [exists EmptyString | exists (".tmp-" +:+ t); unfold state_path in Hq; rewrite temp_of_snoc in Hq];
      apply below1 in Hq as [s' Heq]; apply app_inv_head in Heq; by simplify_eq. }
  destruct Hcase as [x ->]. destruct Ha as [Ha | [Ha _]]; [| done].
  by repeat (apply elem_of_cons in Ha as [Ha | Ha]; [done |]); apply elem_of_nil in Ha.
Qed.

Lemma t_commit_migrated m0 m id r :
  untouched m0 m -> took_all m0 id r m ->
  triple E (eq m) (commit_record dir (Some id) (left_phase r))
    (fun _ => migrated m0 id r) (fun m' => untouched m0 m' \/ migrated m0 id r m').
Proof.
  intros (Hwf & Hnone & Hold) Htook. assert (Hph : valid_phase (left_phase r)).
  { destruct r as [run |]; [| done]. apply Htook. }
  assert (Hsame : forall m', frame (commit_footprint (state_path dir)) m m' -> same_store m m').
  { intros m' Hf. split_and!.
    - intros gen q Hq. apply Hf. by eapply state_footprint_apart, Hq.
    - intros run q Hq. apply Hf. by eapply state_footprint_apart, Hq.
    - intros name _. apply Hf. eapply (state_footprint_apart dir CHECKPOINTS_DIR); [done | done | apply below_refl]. }
  assert (Hkept : forall m', frame (commit_footprint (state_path dir)) m m' -> forall q, old_path q -> m' !! q = m0 !! q).
  { intros m' Hf q Hq. rewrite Hf; [by apply Hold | by apply old_not_state]. }
  eapply t_conseq; [apply t_and; [apply (t_commit_first dir E m id (left_phase r) Hwf (proj1 (proj1 Htook)) Hnone Hph) |
    apply t_and; [apply (t_modifies E _ m _ (modifies_commit_file _ _ _ (fun q Hq => Hq))) | apply (t_keeps E)]] |..].
  - apply keeps_form_commit_json.
  - by intros ? <-.
  - intros u m' ([Hg _] & Hf & _). split; [done |]. eapply took_all_kept, Htook. by apply Hsame.
  - intros m' ([Hn | Hg] & Hf & Hw).
    + left. split_and!; [by apply Hw | done | by apply Hkept].
    + right. split; [done |]. eapply took_all_kept, Htook. by apply Hsame.
Qed.


(** ** Deleting the old files *)

(** The run directory is the instance directory, or apart from it. *)
Definition placed_dirs : Prop := lo_run_dir l = dir \/ (~ below dir (lo_run_dir l) /\ ~ below (lo_run_dir l) dir).

(** The paths that are not the store's. *)
Definition beside_store (q : path) : Prop :=
  q <> state_path dir /\ ~ below (generations_dir dir) q /\ ~ below (runs_dir dir) q /\ ~ below (checkpoints_dir dir) q.

Lemma beside_store_entry a q : a ∉ [STATE_FILE; GENERATIONS_DIR; RUNS_DIR; CHECKPOINTS_DIR] -> below (dir /: a) q -> beside_store q.
Proof.
  intros Ha [s ->]%below1.
  assert (Hne : forall b t, b ∈ [STATE_FILE; GENERATIONS_DIR; RUNS_DIR; CHECKPOINTS_DIR] -> dir ++ a :: s <> dir ++ b :: t).
  { intros b t Hb Heq. apply app_inv_head in Heq. by simplify_eq. }
  split_and!; [apply Hne | intros [t Ht]%below1; revert Ht; apply Hne ..]; by apply (bool_decide_unpack _).
Qed.

Lemma beside_run_dir x q : placed_dirs -> x ∉ [STATE_FILE; GENERATIONS_DIR; RUNS_DIR; CHECKPOINTS_DIR] ->
  below (lo_run_dir l /: x) q -> beside_store q.
Proof.
  intros [-> | [Hd Hr]] Hx; [by apply beside_store_entry |]. intros Hq%below_child.
  assert (Hno : ~ below dir q).
  { intros [s ->]%below_spec. apply below_app_inv in Hq as [?|?]; done. }
  split_and!; intros Hb; apply Hno; [rewrite Hb; apply below_snoc | by eapply below_child ..].
Qed.

Lemma migrated_kept m0 id r m m' :
  migrated m0 id r m -> well_formed m' -> m' !! state_path dir = m !! state_path dir -> same_store m m' ->
  migrated m0 id r m'.
Proof.
  intros [(Hwf & Hrec & Hv & Hl) Htook] Hwf' Hst Hs. split; [| by eapply took_all_kept].
  split_and!; [done | | done |].
  - unfold record_at, json_at, contents_at in *. by rewrite Hst.
  - intros i Hi. eapply same_tree_complete; [apply Hs | by apply Hl].
Qed.

Lemma t_beside m0 id r (c : M unit) :
  modifies beside_store c -> respects keeps_form c ->
  triple E (migrated m0 id r) c (fun _ => migrated m0 id r) (migrated m0 id r).
Proof.
  intros Hm Hk w Hmig. assert (Hf := Hm E w). assert (Hwf := Hk E w (proj1 (proj1 Hmig))).
  assert (Hgo : migrated m0 id r (w_fs (left_by (c E w)))).
  { eapply migrated_kept; [exact Hmig | done | apply Hf; by intros [? _] |]. split_and!.
    - intros gen q Hq. apply Hf. intros (_ & Hn & _). apply Hn. by eapply below_child.
    - intros run q Hq. apply Hf. intros (_ & _ & Hn & _). apply Hn. by eapply below_child.
    - intros name _. apply Hf. intros (_ & _ & _ & Hn). apply Hn, below_snoc. }
  by destruct (c E w).
Qed.

(** A directory among the checkpoints is not a reference. *)
Lemma t_remove_checkpoint_dir m0 id r name :
  triple E (migrated m0 id r)
    (n ← symlink_metadata (checkpoints_dir dir /: name);
     match n with NDir => remove_path_if_exists (checkpoints_dir dir /: name) | _ => mret tt end)
    (fun _ => migrated m0 id r) (migrated m0 id r).
Proof.
  eapply t_bind; [eapply (t_reads _ _ _ _ (fun n m => migrated m0 id r m /\ m !! (checkpoints_dir dir /: name) = Some n));
    [apply reads_symlink_metadata | done | done] |].
  intros [f | | t]; [by apply t_ret; intros ? [? _] | | by apply t_ret; intros ? [? _]].
  intros w [Hmig Hd].
  assert (Hf := modifies_remove_path_if_exists (below (checkpoints_dir dir /: name)) _ (fun q Hq => Hq) E w).
  assert (Hwf := keeps_form_remove_path_if_exists (checkpoints_dir dir /: name) E w (proj1 (proj1 Hmig))).
  assert (Hgo : migrated m0 id r (w_fs (left_by (remove_path_if_exists (checkpoints_dir dir /: name) E w)))).
  { eapply migrated_kept; [exact Hmig | done | |].
    - apply Hf. intros [t Ht]%below2. apply app_inv_head in Ht. by simplify_eq.
    - split_and!.
      + intros gen q [t ->]%below2. apply Hf. intros [t' Ht]%below2. apply app_inv_head in Ht. by simplify_eq.
      + intros run q [t ->]%below2. apply Hf. intros [t' Ht]%below2. apply app_inv_head in Ht. by simplify_eq.
      + intros n [f Hn]. apply Hf. intros Hb. assert (name = n +:+ ".ref") as -> by
          (eapply below_sibling; [exact Hb | apply below_refl]). unfold ref_of in Hn. congruence. }
  by destruct (remove_path_if_exists _ E w).
Qed.


Lemma t_remove_beside m0 id r p :
  (forall q, below p q -> beside_store q) ->
  triple E (migrated m0 id r) (remove_path_if_exists p) (fun _ => migrated m0 id r) (migrated m0 id r).
Proof. intros Hp. apply t_beside; [by apply modifies_remove_path_if_exists | auto with frames]. Qed.

Lemma t_remove_entry m0 id r a :
  a ∉ [STATE_FILE; GENERATIONS_DIR; RUNS_DIR; CHECKPOINTS_DIR] ->
  triple E (migrated m0 id r) (remove_path_if_exists (dir /: a)) (fun _ => migrated m0 id r) (migrated m0 id r).
Proof. intros Ha. apply t_remove_beside. intros q. by apply beside_store_entry. Qed.

Lemma t_remove_legacy_files m0 id r :
  placed_dirs -> triple E (migrated m0 id r) (remove_legacy_files l) (fun _ => migrated m0 id r) (migrated m0 id r).
Proof.
  intros Hap. unfold remove_legacy_files.
  do 4 (eapply t_bind; [apply t_remove_entry; by apply (bool_decide_unpack _) | intros ?]).
  eapply t_bind.
  - apply t_for_each_inv. intros d Hd. apply t_for_each_inv. intros name Hname.
    assert (Hgo : forall x, x ∈ [name; name +:+ ".guard"] ->
      triple E (migrated m0 id r) (remove_path_if_exists (d /: x)) (fun _ => migrated m0 id r) (migrated m0 id r)).
    { intros y Hy. assert (Hstore : y ∉ [STATE_FILE; GENERATIONS_DIR; RUNS_DIR; CHECKPOINTS_DIR]).
      { apply elem_of_cons in Hname as [-> | ->%list_elem_of_singleton];
          apply elem_of_cons in Hy as [-> | ->%list_elem_of_singleton]; by apply (bool_decide_unpack _). }
      apply elem_of_cons in Hd as [-> | ->%list_elem_of_singleton]; [| by apply t_remove_entry].
      apply t_remove_beside. intros q. by apply beside_run_dir. }
    eapply t_bind; [apply Hgo; by left |]. intros u. apply Hgo. right. by left.
  - intros u. eapply t_bind with (R := fun _ => migrated m0 id r); [apply t_silent; [respects_tac | done | done] |].
    intros [names | e]; [| by apply t_ret]. apply t_for_each_inv. intros name _. apply t_remove_checkpoint_dir.
Qed.

(** ** The whole *)

Lemma t_untouched {A : Type} m0 (c : M A) :
  modifies new_path c -> respects keeps_form c ->
  triple E (untouched m0) c (fun _ => untouched m0) (untouched m0).
Proof.
  intros Hm Hk w (Hwf & Hnone & Hold). assert (Hf := Hm E w). assert (Hwf' := Hk E w Hwf).
  assert (Hgo : untouched m0 (w_fs (left_by (c E w)))).
  { split_and!; [done | rewrite Hf; [done | by intros [_ ?]] |].
    intros q Hq. rewrite Hf; [by apply Hold | by intros [? _]]. }
  by destruct (c E w).
Qed.

Lemma modifies_refuse : modifies new_path (refuse_live_legacy_owner start_time l).
Proof. unfold refuse_live_legacy_owner, read_to_string. respects_tac. Qed.

Lemma keeps_form_refuse : respects keeps_form (refuse_live_legacy_owner start_time l).
Proof. unfold refuse_live_legacy_owner, read_to_string. respects_tac. Qed.

Lemma t_move_latest m0 r :
  picks m0 r ->
  triple E (untouched m0) (migrate_latest l r) (fun id m => untouched m0 m /\ took_latest m0 id m) (untouched m0).
Proof.
  intros Hr. apply t_start. intros m Hu. eapply t_conseq; [apply t_also; [apply (t_adding E m0 m (fun _ => False)) | by apply (t_took_latest m0 m r)] | done | | done].
  - intros K. apply guards_migrate_latest.
  - apply modifies_migrate_latest.
  - done.
  - by intros id m' [[? _] ?].
Qed.

Lemma t_move_run m0 id :
  triple E (fun m => untouched m0 m /\ took_latest m0 id m) (migrate_crashed_run l)
    (fun r m => untouched m0 m /\ took_latest m0 id m /\ took_run m0 r m) (untouched m0).
Proof.
  apply t_start. intros m [Hu Hl]. eapply t_conseq; [apply t_also; [apply (t_adding E m0 m (fun _ => False)) | by apply (t_took_run m0 m)] | done | | done].
  - apply guards_migrate_crashed_run.
  - apply modifies_migrate_crashed_run.
  - done.
  - intros r m' [[Hu' [Hg _]] Hr]. split_and!; [done | | done]. eapply took_latest_kept; [apply Hg, Hl | done].
Qed.

Lemma old_checkpoint_untouched m0 m name :
  untouched m0 m -> no_ref name -> old_checkpoint m0 name -> old_checkpoint m name.
Proof.
  intros Hu Hn (Hd & Hs & Hr & Hm). assert (Hat := fun s => untouched_at m0 m _ Hu (old_checkpoint_path name s Hn)).
  unfold old_checkpoint, is_file. rewrite !Hat. specialize (Hat []). rewrite app_nil_r in Hat. by rewrite Hat.
Qed.

Lemma t_find_checkpoints m0 id r :
  let P m := untouched m0 m /\ took_latest m0 id m /\ took_run m0 r m in
  triple E P (legacy_checkpoints dir)
    (fun found m => P m /\ NoDup found.*2 /\ (forall x, x ∈ found -> x.1 = from_utf8_lossy x.2) /\
       forall name, no_ref name -> old_checkpoint m0 name -> name ∈ found.*2) (untouched m0).
Proof.
  intros P. apply t_start. intros m HP. assert (Hu : untouched m0 m) by apply HP.
  eapply t_conseq; [apply (t_legacy_checkpoints m); apply Hu | done | | by intros ? <-].
  intros found ? (<- & Hnd & Hid & Hin). split_and!; [done.. |]. intros name Hn Ho. apply Hin. by eapply old_checkpoint_untouched.
Qed.

Lemma t_move_checkpoints m0 id r found :
  triple E (fun m => (untouched m0 m /\ took_latest m0 id m /\ took_run m0 r m) /\ NoDup found.*2 /\
      (forall x, x ∈ found -> x.1 = from_utf8_lossy x.2) /\
      forall name, no_ref name -> old_checkpoint m0 name -> name ∈ found.*2)
    (for_each (migrate_checkpoint l) found)
    (fun _ m => untouched m0 m /\ took_all m0 id r m) (untouched m0).
Proof.
  apply t_start. intros m ((Hu & Hl & Hr) & Hnd & Hid & Hin).
  eapply t_conseq; [by apply (t_migrate_checkpoints m0 m found) | done | | done].
  intros u m' (Hu' & [Hg Hrun] & Ht & _). split; [done |]. split_and!.
  - eapply took_latest_kept; [apply Hg, Hl | done].
  - eapply took_run_kept; [| exact Hr]. intros run. by apply Hrun.
  - intros name Hn Ho. by apply Ht, Hin.
Qed.

(** What an interrupted migration leaves: the old instance as it was, or the
    new one whole. *)
Definition old_or_migrated (m0 m : fsmap) : Prop :=
  untouched m0 m \/ exists id r, migrated m0 id r m.

Lemma t_migrate m0 :
  placed_dirs -> well_formed m0 -> m0 !! state_path dir = None ->
  triple E (eq m0) (migrate_legacy_layout start_time l)
    (fun mg m => match mg with
      | NotNeeded => m = m0 /\ picks m0 None /\ ~ exists n, stat_in m0 (dir /: ROOTFS) = inl n
      | DidMigrate id r n => migrated m0 id r m
      end)
    (old_or_migrated m0).
Proof.
  intros Hap Hwf Hnone. assert (Hu : untouched m0 m0) by done. unfold migrate_legacy_layout, store_exists.
  assert (Hle : forall m, untouched m0 m -> old_or_migrated m0 m) by (by left).
  eapply t_bind; [eapply t_conseq; [apply t_path_exists_calm | done | intros b m Hb; exact Hb | by intros ? <-; left] |].
  intros there. apply t_start. intros ? [<- Hthere].
  destruct there; [exfalso; destruct Hthere as [[n Hn] _]; [done |]; unfold stat_in in Hn; by rewrite Hnone in Hn |].
  eapply t_bind; [eapply t_conseq; [apply t_legacy_latest | done | intros b m Hb; exact Hb | by intros ? <-; left] |].
  intros latest. apply t_start. intros ? [<- Hpick].
  eapply t_bind with (R := fun b m => m0 = m /\ (b = false -> latest = None /\ ~ exists n, stat_in m0 (dir /: ROOTFS) = inl n)).
  { destruct latest; [by apply t_ret |]. eapply t_conseq; [apply t_path_exists_calm | done | | by intros ? <-; left].
    intros b m [<- Hb]. split; [done |]. intros ->. split; [done |]. by intros ?%Hb. }
  intros [|]; apply t_start; intros ? [<- Hb]; [| apply t_ret; intros ? <-; destruct Hb as [-> Hb]; done].
  eapply t_bind; [eapply t_conseq; [apply (t_untouched m0); [apply modifies_refuse | apply keeps_form_refuse] | by intros ? <- | intros ? m Hm; exact Hm | done] |].
  intros u1. eapply t_bind; [eapply t_conseq; [apply (t_untouched m0) | done | intros ? m Hm; exact Hm | done] |].
  { apply modifies_remove_path_if_exists. intros q Hq. apply new_path_generations. by right. }
  { auto with frames. }
  intros u2. eapply t_bind; [eapply t_conseq; [apply (t_untouched m0) | done | intros ? m Hm; exact Hm | done] |].
  { apply modifies_remove_path_if_exists. intros q Hq. apply new_path_runs. by right. }
  { auto with frames. }
  intros u3. eapply t_bind; [eapply t_conseq; [by apply (t_move_latest m0 latest) | done | intros ? m Hm; exact Hm | done] |].
  intros id. eapply t_bind; [eapply t_conseq; [by apply (t_move_run m0 id) | done | intros ? m Hm; exact Hm | done] |].
  intros r. eapply t_bind; [eapply t_conseq; [by apply (t_find_checkpoints m0 id r) | done | intros ? m Hm; exact Hm | done] |].
  intros found. eapply t_bind; [eapply t_conseq; [by apply (t_move_checkpoints m0 id r found) | done | intros ? m Hm; exact Hm | done] |].
  intros u4. eapply t_bind with (R := fun _ => migrated m0 id r).
  { apply t_start. intros m [Hm Ht]. eapply t_conseq; [by apply (t_commit_migrated m0 m id r) | done | done |].
    intros m' [Hm' | Hm']; [by left | right; eauto]. }
  intros u5. eapply t_bind; [eapply t_conseq; [by apply t_remove_legacy_files | done | intros ? m Hm; exact Hm | intros m Hm; right; eauto] |].
  intros u6. by apply t_ret.
Qed.

End calm.
End migrate.
