(* ===== verification/LegacyTheorems.v ===== *)
(** * Theorems about the migration

    An interrupted migration either never happened or only left files to
    delete. *)

From S2P Require Import Prelude FileSystem FsLogic FsUtil FsCopy Text.
From S2P Require Import Store StoreLogic StoreSafety StorePublish StoreCopy StoreImport StoreGc StoreExample Locks Paths Legacy LegacyLogic.

Section theorems.
Context `{Json record, Json manifest, Json checkpoint_ref}.
Context `{!JsonLaws record valid_record, !JsonLaws manifest valid_manifest}.
Context `{!JsonLaws checkpoint_ref valid_checkpoint}.
Context (start_time : Z -> option N) (l : layout).

(** C16: migrating an instance of the old layout is atomic and loses nothing.
    When no system call fails spuriously but the process may be killed at any
    point, a migration that reports success leaves a store whose latest
    generation has the files of the old snapshot or disk, with the interrupted
    run, if there was one, as its crashed run, and every complete checkpoint
    of the old layout whose name has no ".ref" in it, its files, name and time,
    as a checkpoint; one that fails or is cut short leaves either that, or no
    record and every file of the old layout as it was.  The run directory is
    the instance directory, as it is by default, or apart from it. *)
Theorem migration_atomic E w :
  calm E -> placed_dirs l -> well_formed (w_fs w) -> w_fs w !! state_path (lo_instance_dir l) = None ->
  match migrate_legacy_layout start_time l E w with
  | Ok NotNeeded w' => w_fs w' = w_fs w /\ picks l (w_fs w) None
  | Ok (DidMigrate id run _) w' => migrated l (w_fs w) id run (w_fs w')
  | Err _ w' | Crash w' => old_or_migrated l (w_fs w) (w_fs w')
  end.
Proof.
  intros HE Hap Hwf Hnone. assert (Ht := t_migrate start_time l E HE (w_fs w) Hap Hwf Hnone w eq_refl).
  destruct (migrate_legacy_layout start_time l E w) as [[|] w' | e w' | w']; [by destruct Ht as (? & ? & _) | done ..].
Qed.

End theorems.

(** ** A concrete migration *)

Definition old_layout : layout :=
  mk_layout [] "i" ["kernel"%string] None demo_dir demo_dir (demo_dir /: "console.log").

Definition old_file (data : bytes) : node := NFile (mk_file data 8).

Definition old_meta : bytes :=
  to_bytes ("name=first" +:+ String "010" ("created_unix=5" +:+ String "010" EmptyString)).

(** An instance of the old layout, its run directory the default one, with a disk, an interrupted run and a
    checkpoint. *)
Definition old_instance : world := mk_world (list_to_map [
  (demo_dir, NDir);
  (demo_dir /: ROOTFS, old_file [x07; x08]);
  (demo_dir /: SNAPSHOTS_DIR, NDir);
  (demo_dir /: SNAPSHOTS_DIR /: RESTORE_WORK_ACTIVE, old_file []);
  (demo_dir /: SNAPSHOTS_DIR /: RESTORE_WORK, NDir);
  (demo_dir /: SNAPSHOTS_DIR /: RESTORE_WORK /: ROOTFS, old_file [x09]);
  (checkpoints_dir demo_dir, NDir);
  (checkpoints_dir demo_dir /: "c1", NDir);
  (checkpoints_dir demo_dir /: "c1" /: ROOTFS, old_file [x05]);
  (checkpoints_dir demo_dir /: "c1" /: CHECKPOINT_META, old_file old_meta)]%string) 0 0 [].

(** Whether a migration found an interrupted run and one checkpoint. *)
Definition migrated_all (o : outcome migration) : bool :=
  match o with Ok (DidMigrate _ (Some _) 1%N) _ => true | _ => false end.

(** C16: it is migrated. *)
Lemma migration_atomic_witness :
  exists id run w',
    migrate_legacy_layout (fun _ => None) old_layout quiet old_instance = Ok (DidMigrate id (Some run) 1) w' /\
    migrated old_layout (w_fs old_instance) id (Some run) (w_fs w').
Proof.
  assert (Hdone : migrated_all (migrate_legacy_layout (fun _ => None) old_layout quiet old_instance) = true)
    by (vm_compute; reflexivity).
  assert (H := migration_atomic (fun _ => None) old_layout quiet old_instance ltac:(intros t; discriminate)
    (or_introl eq_refl)
    ltac:(apply well_formed_b_sound; vm_compute; reflexivity) ltac:(vm_compute; reflexivity)).
  destruct (migrate_legacy_layout (fun _ => None) old_layout quiet old_instance) as [[| id [run |] [| [| |]]] w' | |];
    try discriminate Hdone.
  by exists id, run, w'.
Defined.
