(* ===== verification/Checkpoints.v ===== *)
(** * Checkpoints

    [src/src/checkpoints.rs]: naming, finding, removing and restoring
    checkpoints, on top of the store.  What another process decides, whether
    the instance lock is free and whether a VM owner runs, is an argument; the
    request to a running owner is modelled with the owner. *)

From S2P Require Import Prelude FileSystem FsLogic FsUtil FsCopy FsTotal Text.
From S2P Require Import Store StoreLogic StoreSafety StorePublish StoreCopy StoreGc Paths Legacy.

(** Seconds since the epoch. *)
Definition now_unix : M N := now ← clock; mret (now / 1000000000)%N.

Definition sanitize_name (name : string) : string :=
  trim (replace_char "010" " " (replace_char "013" " " name)).

Definition BEFORE_RESTORE : string := "before-restore".

Section checkpoints.
Context `{Json record, Json manifest, Json checkpoint_ref}.
(** The timestamp the [time] crate formats, of a time in nanoseconds. *)
Context (timestamp : N -> option string).
(** When each running process started. *)
Context (start_time : Z -> option N).
(** The instance, and how many checkpoint ids the process has made. *)
Context (l : layout) (made : N).

Abbreviation dir := (lo_instance_dir l).

Definition new_checkpoint_id : M string :=
  now ← clock;
  stamp ← context (timestamp now) "format checkpoint id timestamp";
  pid ← process_id;
  mret (stamp +:+ "-" +:+ pretty pid +:+ "-" +:+ pretty made).

(** Checkpoints a stopped instance. *)
Definition create_stopped (id : string) (name : option string) : M checkpoint_ref :=
  r ← get_record dir;
  latest ← context (r ≫= r_latest) "instance has no saved state";
  now ← now_unix;
  let checkpoint := mk_checkpoint id name latest now in
  _ ← add_checkpoint dir checkpoint;
  mret checkpoint.

Definition find_checkpoint (identifier : string) (found : list checkpoint_ref) : checkpoint_ref + string :=
  match filter (fun c => c_id c = identifier \/ c_name c = Some identifier) found with
  | [c] => inl c
  | [] => inr ("checkpoint not found: " +:+ identifier)
  | _ => inr ("checkpoint name is ambiguous: " +:+ identifier)
  end.

(** [list]; [locked] is what taking the instance lock came to, where it is
    tried. *)
Definition list_checkpoints (locked : bool + error) : M (list checkpoint_ref) :=
  _ ← ensure_store start_time l locked; checkpoints dir.

(** [resolve] *)
Definition resolve_checkpoint (locked : bool + error) (identifier : string) : M checkpoint_ref :=
  found ← list_checkpoints locked;
  match find_checkpoint identifier found with
  | inl c => mret c
  | inr e => bail e
  end.

(** [create]; [capture] asks the running owner for a checkpoint. *)
Definition create (live : bool) (storing locked : bool + error) (capture : string -> option string -> M unit)
    (name : option string) : M checkpoint_ref :=
  _ ← ensure_store start_time l storing;
  id ← new_checkpoint_id;
  let name := sanitize_name <$> name in
  if live then
    _ ← capture id name;
    resolve_checkpoint locked id
  else
    created ← with_exclusive_instance_state locked (create_stopped id name);
    context created "instance started while the checkpoint was being taken; retry".

Definition delete_checkpoint (locked : bool + error) (c : checkpoint_ref) : M unit :=
  deleted ← with_exclusive_instance_state locked (remove_checkpoint dir (c_id c));
  context deleted "cannot delete a checkpoint while the instance is running".

(** Removes the checkpoints an earlier restore kept. *)
Definition drop_older (before : string) (stored : list checkpoint_ref) : M unit :=
  for_each (fun older =>
    if bool_decide (c_name older = Some BEFORE_RESTORE /\ c_id older <> before)
    then remove_checkpoint dir (c_id older) else mret tt) stored.

Definition keep_and_commit (previous : generation_id) (target : checkpoint_ref) : M (option checkpoint_ref) :=
  id ← new_checkpoint_id;
  now ← now_unix;
  let before := mk_checkpoint id (Some BEFORE_RESTORE) previous now in
  _ ← add_checkpoint dir before;
  _ ← commit_latest dir (c_generation target);
  stored ← checkpoints dir;
  _ ← drop_older id stored;
  mret (Some before).

Definition restore_exclusively (target : checkpoint_ref) : M (option checkpoint_ref) :=
  _ ← recover dir;
  r ← get_record dir;
  previous ← context (r ≫= r_latest) "instance has no saved state";
  if bool_decide (previous = c_generation target) then mret None
  else keep_and_commit previous target.

Definition restore (locked : bool + error) (target : checkpoint_ref) : M (option checkpoint_ref) :=
  restored ← with_exclusive_instance_state locked (restore_exclusively target);
  context restored "instance started while it was being restored; retry".

End checkpoints.
