(* ===== verification/CheckpointTheorems.v ===== *)
(** * Theorems about checkpoints

    A restore keeps what it replaces: the checkpoint it stores first survives
    the commit, the garbage collection after it and the removal of older
    checkpoints of its kind. *)

From S2P Require Import Prelude FileSystem FsLogic FsUtil FsCopy FsTotal Text.
From S2P Require Import Store StoreLogic StoreSafety StorePublish StoreCopy StoreGc StoreExample Paths Legacy Checkpoints.

Section restore.
Context `{Json record, Json manifest, Json checkpoint_ref}.
Context `{!JsonLaws record valid_record, !JsonLaws manifest valid_manifest}.
Context `{!JsonLaws checkpoint_ref valid_checkpoint}.
Context (timestamp : N -> option string) (l : layout) (made : N) (current : process_identity).
Context (E : env) (HE : calm E).

Abbreviation dir := (lo_instance_dir l).

Abbreviation gdir := (generation_dir dir).
Abbreviation stopped_at id := (mk_record RECORD_VERSION (Some id) Stopped).

Lemma modifies_collect_garbage :
  modifies (fun q => below (generations_dir dir) q \/ below (runs_dir dir) q) (collect_garbage dir).
Proof.
  unfold collect_garbage. respects_tac.
  - unfold collect_run. respects_tac. apply modifies_remove_path_if_exists.
    intros q Hq. right. by eapply below_child.
  - eapply modifies_mono; [| apply modifies_collect_entry]. intros q [Hq | Hq]; left; by eapply below_child.
Qed.

(** A store whose record is [rec], in which the checkpoint [c] is stored under
    [name] and what it names is as it was in [m0]. *)
Definition keeping (m0 : fsmap) (rec : record) (name : string) (c : checkpoint_ref) (m : fsmap) : Prop :=
  good dir m rec /\ same_tree (gdir (c_generation c)) m0 m /\ checkpoint_at dir m name c.

Lemma checkpoint_file_apart name q :
  below (generations_dir dir) q \/ below (runs_dir dir) q -> q <> checkpoints_dir dir /: name.
Proof.
  intros Hq ->. destruct Hq as [[s Hs]%below_spec | [s Hs]%below_spec];
    unfold checkpoints_dir, generations_dir, runs_dir in Hs; rewrite <- !app_assoc in Hs;
    apply app_inv_head in Hs; by simplify_eq/=.
Qed.

Lemma keeping_collect m0 rec name c :
  complete dir m0 (c_generation c) ->
  triple E (keeping m0 rec name c) (collect_garbage dir) (fun _ => keeping m0 rec name c) (keeping m0 rec name c).
Proof.
  intros Hc. apply t_start. intros m (Hg & Hs & Hck).
  assert (Hcm : complete dir m (c_generation c)) by (by eapply same_tree_complete).
  assert (Hgo : forall m', (kept dir m rec rec m' /\ same_tree (gdir (c_generation c)) m m') /\
    frame (fun q => below (generations_dir dir) q \/ below (runs_dir dir) q) m m' -> keeping m0 rec name c m').
  { intros m' [[[Hg' _] Hs'] Hf]. split; [done |]. split; [intros p Hp; by rewrite Hs', Hs |].
    destruct Hck as [Hx Hj]. split; [done |]. unfold json_at, contents_at in *.
    rewrite Hf; [done |]. intros Hq. by eapply checkpoint_file_apart. }
  eapply t_conseq; [exact (t_and E _ _ _ _ _ _ _ (t_and E _ _ _ _ _ _ _ (kept_collect dir E m rec rec)
    (t_collect_checkpoint dir E m rec name c HE Hg Hck Hcm)) (t_modifies E _ m _ modifies_collect_garbage)) |..].
  - intros ? <-. split; [| done]. split; [by apply good_kept | done].
  - intros a m' Hm. by apply Hgo.
  - exact Hgo.
Qed.

Lemma keeping_commit_record m0 rec name c id :
  valid_id id ->
  triple E (fun m => keeping m0 rec name c m /\ complete dir m id)
    (commit_record dir (Some id) Stopped)
    (fun _ => keeping m0 (stopped_at id) name c)
    (fun m => keeping m0 rec name c m \/ keeping m0 (stopped_at id) name c m).
Proof.
  intros Hv. apply t_start. intros m [(Hg & Hs & [Hx Hj]) Hid].
  assert (Hgo : forall rec' m', kept dir m rec rec' m' /\ frame (commit_footprint (state_path dir)) m m' ->
    keeping m0 rec' name c m').
  { intros rec' m' [[Hg' _] Hf]. split; [done |]. split.
    - intros p Hp. rewrite Hf; [by apply Hs |]. by eapply state_footprint_apart, Hp.
    - split; [done |]. unfold json_at, contents_at in *. rewrite Hf; [done |].
      eapply (state_footprint_apart dir CHECKPOINTS_DIR name); [done | done | apply below_refl]. }
  eapply t_conseq; [exact (t_and E _ _ _ _ _ _ _
    (kept_commit_record dir E m rec (Some id) Stopped (valid_new_latest id Stopped Hv I))
    (t_modifies E _ m _ (modifies_commit_file _ _ _ (fun q Hq => Hq)))) |..].
  - intros ? <-. split; [| done]. split; [by apply good_kept |]. by intros ? [= <-].
  - intros a m' Hm. by apply Hgo.
  - intros m' [[Hk | Hk] Hf]; [left | right]; by apply Hgo.
Qed.

Lemma keeping_commit_latest m0 rec name c id :
  complete dir m0 (c_generation c) ->
  triple E (keeping m0 rec name c) (commit_latest dir id)
    (fun _ => keeping m0 (stopped_at id) name c)
    (fun m => keeping m0 rec name c m \/ keeping m0 (stopped_at id) name c m).
Proof.
  intros Hc. unfold commit_latest.
  eapply t_bind; [eapply (t_reads _ _ _ _ (fun _ m => keeping m0 rec name c m /\ complete dir m id));
    [apply reads_complete | by left | done] |].
  intros g. apply t_start. intros m [Hk Hid]. assert (Hv := complete_valid dir _ _ Hid).
  eapply t_bind; [eapply t_pre; [by apply keeping_commit_record | by intros ? <-] |]. intros u.
  eapply t_bind; [eapply t_conseq; [by apply keeping_collect | done | intros ? ? Hx; exact Hx | by right] |].
  intros col. by apply t_ret.
Qed.


(** Changing another checkpoint's file. *)
Lemma keeping_other m0 rec name other c m m' :
  keeping m0 rec name c m -> well_formed m' -> other <> name ->
  frame (eq (checkpoints_dir dir /: other)) m m' -> keeping m0 rec name c m'.
Proof.
  intros ((Hwf & Hrec & Hv & Hl) & Hs & [Hx Hj]) Hwf' Hne Hf.
  assert (Hgen : forall id, same_tree (gdir id) m m').
  { intros id q [s ->]%below2. apply Hf. unfold checkpoints_dir. rewrite <- app_assoc. by intros [=]%app_inv_head. }
  split; [split_and!; [done | | done |] |]; [| | split].
  - unfold record_at, json_at, contents_at, state_path in *. rewrite Hf; [done |].
    unfold checkpoints_dir. rewrite <- app_assoc. by intros [=]%app_inv_head.
  - intros id Hid. eapply same_tree_complete; [apply Hgen | by apply Hl].
  - intros q Hq. by rewrite (Hgen _ q Hq), Hs.
  - split; [done |]. unfold json_at, contents_at in *. rewrite Hf; [done |]. by intros [= ?]%app_inv_head.
Qed.

Lemma keeping_remove m0 rec name c id :
  complete dir m0 (c_generation c) -> id +:+ ".ref" <> name ->
  triple E (keeping m0 rec name c) (remove_checkpoint dir id) (fun _ => keeping m0 rec name c) (keeping m0 rec name c).
Proof.
  intros Hc Hne. unfold remove_checkpoint.
  eapply t_bind; [eapply t_returns; [apply t_silent with (R := keeping m0 rec name c); auto with frames
    | apply returns_checkpoint_ref_path] |].
  intros p. apply t_start. intros m (Hk & _ & ->).
  eapply t_bind with (R := fun _ => keeping m0 rec name c).
  { intros w ->. assert (Hf := modifies_remove_file (eq (checkpoints_dir dir /: (id +:+ ".ref"))) _ eq_refl E w).
    assert (Hwf := keeps_form_remove_file (checkpoints_dir dir /: (id +:+ ".ref")) E w (proj1 (proj1 Hk))).
    assert (keeping m0 rec name c (w_fs (left_by (remove_file (checkpoints_dir dir /: (id +:+ ".ref")) E w))))
      by (by eapply keeping_other).
    by destruct (remove_file _ E w). }
  intros u. eapply t_bind; [by apply t_silent with (R := keeping m0 rec name c); auto with frames |].
  intros u'. eapply t_bind; [by apply keeping_collect |]. intros col. by apply t_ret.
Qed.

Lemma keeping_drop_older m0 rec c id stored :
  complete dir m0 (c_generation c) ->
  triple E (keeping m0 rec (id +:+ ".ref") c) (drop_older l id stored)
    (fun _ => keeping m0 rec (id +:+ ".ref") c) (keeping m0 rec (id +:+ ".ref") c).
Proof.
  intros Hc. unfold drop_older. induction stored as [| older stored IH]; simpl; [by apply t_ret |].
  eapply t_bind; [| intros u; exact IH].
  case_bool_decide as Hb; [| by apply t_ret]. apply keeping_remove; [done |].
  intros ?%string_app_inj_r. by apply Hb.
Qed.

(** A generation is named by a checkpoint that is on disk from then on. *)
Lemma kept_add_checkpoint rec m0 c :
  valid_checkpoint c ->
  triple E (kept dir m0 rec rec) (add_checkpoint dir c)
    (fun _ m => kept dir m0 rec rec m /\ checkpoint_at dir m (c_id c +:+ ".ref") c) (kept dir m0 rec rec).
Proof.
  intros Hv. eapply t_conseq; [apply t_also; [apply kept_guards, guards_add_checkpoint | by apply t_add_checkpoint] |..].
  - done.
  - by intros u m [Hk [_ Hc]].
  - done.
Qed.

(** The instance was rolled back to [target], and the state it replaced, the
    generation [prev], is stored as a checkpoint. *)
Definition rolled_back (m0 : fsmap) (prev : generation_id) (target before : checkpoint_ref) (m : fsmap) : Prop :=
  c_generation before = prev /\ c_name before = Some BEFORE_RESTORE /\
  keeping m0 (stopped_at (c_generation target)) (c_id before +:+ ".ref") before m.

Lemma keeping_kept m0 rec name c m :
  r_phase rec = Stopped -> (forall id, r_latest rec = Some id -> id = c_generation c) ->
  keeping m0 rec name c m -> kept dir m0 rec rec m.
Proof.
  intros Hph Hl (Hg & Hs & _). split_and!; [done | |].
  - intros id Hid _. by rewrite (Hl id Hid).
  - by rewrite Hph.
Qed.

Lemma t_keep_and_commit m0 rec prev target :
  r_phase rec = Stopped -> r_latest rec = Some prev -> good dir m0 rec ->
  triple E (kept dir m0 rec rec) (keep_and_commit timestamp l made prev target)
    (fun r m => exists before, r = Some before /\ rolled_back m0 prev target before m)
    (fun m => kept dir m0 rec rec m \/ exists before, rolled_back m0 prev target before m).
Proof.
  intros Hph Hl Hg. assert (Hc : complete dir m0 prev) by (by apply Hg).
  unfold keep_and_commit. eapply t_bind with (R := fun _ => kept dir m0 rec rec).
  { apply t_silent; [| done | by left]. unfold new_checkpoint_id, process_id. respects_tac. }
  intros id. eapply t_bind with (R := fun _ => kept dir m0 rec rec).
  { apply t_silent; [| done | by left]. unfold now_unix. respects_tac. }
  intros now. set (before := mk_checkpoint id (Some BEFORE_RESTORE) prev now).
  eapply t_bind; [eapply t_conseq; [apply (kept_add_checkpoint rec m0 before) | done | intros ? ? Hx; exact Hx | by left] |].
  { by eapply complete_valid. }
  intros u. eapply t_bind.
  { eapply t_conseq; [apply (keeping_commit_latest m0 rec (id +:+ ".ref") before (c_generation target) Hc) | | intros ? ? Hx; exact Hx |].
    - intros m [(Hgm & Hs & _) Hck]. split_and!; [done | by apply Hs | done].
    - intros m [Hm | Hm]; [left | right; by exists before]. eapply keeping_kept; [done | | done].
      intros i Hi. simpl. congruence. }
  intros u'. eapply t_bind with (R := fun _ => keeping m0 (stopped_at (c_generation target)) (id +:+ ".ref") before).
  { apply t_silent; [auto with frames | done |]. intros m Hm. right. by exists before. }
  intros stored. eapply t_bind; [eapply t_conseq; [exact (keeping_drop_older m0 (stopped_at (c_generation target)) before id stored Hc) | done | intros ? ? Hx; exact Hx |] |].
  { intros m Hm. right. by exists before. }
  intros u''. apply t_ret. intros m Hm. by exists before.
Qed.


(** [target] is the saved state; [prev], the one it replaced, is whole and
    stored as the checkpoint [before], and is what it was in [m0] if it was
    the latest generation then. *)
Definition replaced (rec : record) (prev : generation_id) (target before : checkpoint_ref) (m0 m : fsmap) : Prop :=
  good dir m (stopped_at (c_generation target)) /\
  c_generation before = prev /\ c_name before = Some BEFORE_RESTORE /\
  checkpoint_at dir m (c_id before +:+ ".ref") before /\
  complete dir m prev /\ (r_latest rec = Some prev -> same_tree (gdir prev) m0 m).

(** What a restore may leave behind, whatever happens to it: the record as
    recovery left it, or the record of [target] and the state it replaced,
    whole, under a checkpoint. *)
Definition restorable (rec : record) (target : checkpoint_ref) (m0 m : fsmap) : Prop :=
  settled dir current Recover m0 rec m \/
  exists rec1 prev before, commits current Recover rec rec1 /\ r_latest rec1 = Some prev /\
    replaced rec prev target before m0 m.

(** ... and what it leaves when it returns [r]. *)
Definition restored (rec : record) (target : checkpoint_ref) (m0 : fsmap) (r : option checkpoint_ref) (m : fsmap) : Prop :=
  exists rec1 prev, commits current Recover rec rec1 /\ r_latest rec1 = Some prev /\
    match r with
    | None => prev = c_generation target /\ kept dir m0 rec rec1 m
    | Some before =>
        replaced rec prev target before m0 m
    end.

Lemma recovered_stopped rec rv rec' m : recovered dir rec rv rec' m -> r_phase rec' = Stopped.
Proof. destruct rv; simpl; [by intros [? ->] | by intros [-> _] | by intros [-> _]]. Qed.

Lemma rolled_back_tree m0 m1 rec rec1 prev target before m :
  r_latest rec1 = Some prev -> kept dir m0 rec rec1 m1 -> rolled_back m1 prev target before m ->
  replaced rec prev target before m0 m.
Proof.
  intros Hl (Hg & Hs & _) (<- & Hn & Hgm & Ht & Hck). split_and!; [done.. | |].
  - eapply same_tree_complete; [exact Ht |]. by apply Hg.
  - intros Hr p Hp. rewrite Ht by done. by apply (Hs _ Hr Hl).
Qed.

Lemma t_restore_exclusively rec target m0 :
  triple E (kept dir m0 rec rec) (restore_exclusively timestamp l made target)
    (restored rec target m0) (restorable rec target m0).
Proof.
  unfold restore_exclusively. eapply t_bind.
  { eapply t_conseq; [apply (t_recover dir current E m0 rec) | done | intros ? ? Hx; exact Hx | by left]. }
  intros rv. apply t_start. intros m1 (rec1 & Hrv & Hk). assert (Hc := recovered_commits dir current _ _ _ _ Hrv).
  assert (Hph := recovered_stopped _ _ _ _ Hrv). assert (Hleft : restorable rec target m0 m1) by (left; by eapply settled_new).
  eapply t_bind; [eapply (t_reads _ _ _ _ (fun r m => m = m1 /\ (forall rc, r = Some rc -> rc = rec1)));
    [apply reads_get_record | by intros ? <- | ] |].
  { intros ? r <- Hr. split; [done |]. intros rc Hrc. apply Hr in Hrc as [Hrc _]. destruct Hk as [(_ & Hrec & _) _]. congruence. }
  intros r. apply t_start. intros ? [-> Hr].
  destruct r as [rc |]; [rewrite (Hr rc eq_refl) | by apply t_bind with (R := fun _ _ => False); [apply t_fail; intros ? <- | intros ? w []]].
  simpl. destruct (r_latest rec1) as [prev |] eqn:Hl;
    [| by apply t_bind with (R := fun _ _ => False); [apply t_fail; intros ? <- | intros ? w []]].
  eapply t_bind with (R := fun p m => p = prev /\ m = m1); [by apply t_ret |]. intros p. apply t_start. intros ? [-> ->].
  case_bool_decide as Hpt.
  { apply t_ret. intros ? <-. exists rec1, prev. by split_and!. }
  eapply t_conseq; [apply (t_keep_and_commit m1 rec1 prev target Hph Hl (proj1 Hk)) | ..].
  - intros ? <-. apply good_kept, Hk.
  - intros r m (before & -> & Hrb). exists rec1, prev. split_and!; [done | done |]. by eapply rolled_back_tree.
  - intros m [Hm | [before Hrb]].
    + left. eapply settled_new; [done |]. by eapply kept_trans.
    + right. exists rec1, prev, before. split_and!; [done | done |]. by eapply rolled_back_tree.
Qed.

(** C15: a restore can be undone.  When no system call fails spuriously but
    the process may be killed at any point, a restore that returns [before]
    has made the checkpoint's generation the saved state, and stored the state
    it replaced, whole, as the checkpoint [before]; one that returns nothing
    had nothing to replace; and one that fails or is cut short leaves either
    the record as recovery left it, or both of these. *)
Theorem restore_undoable locked rec target w :
  good dir (w_fs w) rec ->
  match restore timestamp l made locked target E w with
  | Ok r w' => restored rec target (w_fs w) r (w_fs w')
  | Err _ w' | Crash w' => restorable rec target (w_fs w) (w_fs w')
  end.
Proof.
  intros Hg.
  enough (Ht : triple E (eq (w_fs w)) (restore timestamp l made locked target)
    (restored rec target (w_fs w)) (restorable rec target (w_fs w))) by exact (Ht w eq_refl).
  unfold restore, with_exclusive_instance_state. destruct locked as [[|] | e].
  - eapply t_bind with (R := fun r m => exists x, r = Some x /\ restored rec target (w_fs w) x m).
    + eapply t_bind; [eapply t_pre; [apply (t_restore_exclusively rec target (w_fs w)) | intros ? <-; by apply good_kept] |].
      intros r. apply t_ret. eauto.
    + intros r. apply t_start. intros m (x & -> & Hr). by apply t_ret; intros ? <-.
  - eapply t_bind with (R := fun r m => r = None /\ m = w_fs w); [by apply t_ret |].
    intros r. apply t_start. intros ? [-> ->]. apply t_fail. intros ? <-. left. by apply settled_old, good_kept.
  - eapply t_bind with (R := fun _ _ => False); [apply t_fail | by intros ? ? []].
    intros ? <-. left. by apply settled_old, good_kept.
Qed.

End restore.

(** ** A concrete restore *)

Definition demo_layout : layout :=
  mk_layout [] "i" ["kernel"%string] None demo_dir ["r"%string] ["r"%string; "console.log"%string].

Definition demo_stamp (nanos : N) : option string := Some "20260101T000000Z"%string.

Definition undoable (o : outcome (option checkpoint_ref)) : bool :=
  match o with Ok (Some _) _ => true | _ => false end.

Lemma demo_restores : undoable (restore demo_stamp demo_layout 0 (inl true) demo_checkpoint quiet demo2) = true.
Proof. vm_compute. reflexivity. Qed.

(** C15: the instance goes back to its first generation. *)
Lemma restore_undoable_witness :
  exists before w',
    restore demo_stamp demo_layout 0 (inl true) demo_checkpoint quiet demo2 = Ok (Some before) w' /\
    restored demo_layout demo_process (demo_record demo2) demo_checkpoint (w_fs demo2) (Some before) (w_fs w').
Proof.
  assert (H := restore_undoable demo_stamp demo_layout 0 demo_process quiet ltac:(intros t; discriminate)
    (inl true) (demo_record demo2) demo_checkpoint demo2
    ltac:(apply good_b_sound; vm_compute; reflexivity)).
  assert (Hd := demo_restores).
  destruct (restore demo_stamp demo_layout 0 (inl true) demo_checkpoint quiet demo2) as [[before |] w' | e w' | w'];
    [| discriminate Hd..].
  exists before, w'. split; [reflexivity | exact H].
Defined.
