(* ===== verification/HostShare.v ===== *)
(** * Host-share copy-on-write state

    [src/src/host_share.rs]: the files a guest changed on a shared host
    directory are kept apart, below [<state>/<tag>/upper], and the ones it
    deleted are marked below [<state>/<tag>/whiteouts].  This file models how a
    host path is turned into a place of that state, how the state of a path is
    read and removed, and how all of it is listed; with the two callers,
    [run_fs_unshare] of [src/src/cli.rs] and [preflight_host_share_cwd] of
    [src/src/runner.rs].

    A [PathBuf] is the list of its components, which is how the sources compare
    and take paths apart; [path_components] reads one off a text.  A directory
    handle is the path of the directory it was opened at. *)

From S2P Require Import Prelude FileSystem FsLogic FsUtil Store Text Legacy.

Definition WHITEOUT_MARKER : string := ".lnx-whiteout".

(** ** [std::path] *)

Inductive component := RootDir | CurDir | ParentDir | Normal (name : string).

#[global] Instance component_eq_dec : EqDecision component.
Proof. solve_decision. Defined.

Abbreviation pathbuf := (list component).

(** One piece after the first: empty pieces and dots vanish. *)
Definition inner_component (s : string) : option component :=
  if bool_decide (s = "") || bool_decide (s = ".") then None
  else if bool_decide (s = "..") then Some ParentDir else Some (Normal s).

(** [Path::components] *)
Definition path_components (s : string) : pathbuf :=
  match split_char "/" s with
  | [] => []
  | first :: rest =>
      (if starts_with "/" s then [RootDir]
       else if bool_decide (first = ".") then [CurDir]
       else option_list (inner_component first)) ++ omap inner_component rest
  end.

Definition is_absolute (p : pathbuf) : bool :=
  match p with RootDir :: _ => true | _ => false end.

(** [Path::join] and [PathBuf::push] *)
Definition path_join (p q : pathbuf) : pathbuf :=
  if is_absolute q then q
  else match p with [] => q | _ => p ++ filter (fun c => c <> CurDir) q end.

(** [PathBuf::pop] *)
Definition path_pop (p : pathbuf) : pathbuf :=
  match last p with
  | Some RootDir | None => p
  | Some _ => removelast p
  end.

(** [Path::strip_prefix] *)
Fixpoint path_strip_prefix (base p : pathbuf) : option pathbuf :=
  match base, p with
  | [], _ => Some p
  | a :: base', b :: p' => if decide (a = b) then path_strip_prefix base' p' else None
  | _ :: _, [] => None
  end.

Definition path_starts_with (p base : pathbuf) : bool := bool_decide (is_Some (path_strip_prefix base p)).

(** An absolute path from its names, and the names of a path without dots. *)
Definition of_path (p : path) : pathbuf := RootDir :: (Normal <$> p).

Definition name_of (c : component) : option string :=
  match c with Normal s => Some s | _ => None end.

Definition normal_names (p : pathbuf) : path := omap name_of p.

(** [Path]'s order: component by component, [RootDir], [CurDir], [ParentDir],
    then names. *)
Definition component_rank (c : component) : N * string :=
  match c with
  | RootDir => (0%N, "")
  | CurDir => (1%N, "")
  | ParentDir => (2%N, "")
  | Normal s => (3%N, s)
  end.

Definition component_compare (a b : component) : comparison :=
  match (component_rank a).1 ?= (component_rank b).1 with
  | Eq => String.compare (component_rank a).2 (component_rank b).2
  | c => c
  end%N.

Fixpoint path_compare (p q : pathbuf) : comparison :=
  match p, q with
  | [], [] => Eq
  | [], _ :: _ => Lt
  | _ :: _, [] => Gt
  | a :: p', b :: q' =>
      match component_compare a b with Eq => path_compare p' q' | c => c end
  end.

(** ** Targets *)

Record host_share_target := mk_target {
  t_tag : string;
  t_share_root : pathbuf;
  t_suffix : pathbuf;
  t_absolute : pathbuf;
}.

Inductive state_entry_kind := Copied | Hidden | DescendantState.

#[global] Instance state_entry_kind_eq_dec : EqDecision state_entry_kind.
Proof. solve_decision. Defined.

Definition kind_as_str (k : state_entry_kind) : string :=
  match k with
  | Copied => "copied"
  | Hidden => "hidden"
  | DescendantState => "descendant-state"
  end.

Record state_entry := mk_entry {
  en_tag : string;
  en_kind : state_entry_kind;
  en_logical_path : pathbuf;
  en_state_path : path;
}.

Record path_state_info := mk_path_state {
  ps_target : host_share_target;
  ps_upper_path : pathbuf;
  ps_whiteout_path : pathbuf;
  ps_upper_exists : bool;
  ps_direct_whiteout : bool;
  ps_covering_whiteout : option path;
  ps_descendant_state : bool;
}.

Definition state_root (instance_dir : path) : path := instance_dir /: "host-share-state".

Definition normalize_step (absolute : bool) (acc : pathbuf) (c : component) : pathbuf :=
  match c with
  | RootDir => path_join acc [RootDir]
  | CurDir => acc
  | ParentDir =>
      match last acc with
      | Some (Normal _) => path_pop acc
      | _ => if absolute then acc else path_join acc [ParentDir]
      end
  | Normal s => path_join acc [Normal s]
  end.

Definition lexical_normalize (p : pathbuf) : pathbuf := foldl (normalize_step (is_absolute p)) [] p.

Definition targets_for_normalized_absolute_path (absolute cwd : pathbuf) (home : option pathbuf)
    : list host_share_target :=
  let home_targets :=
    match home with
    | Some home =>
        match path_strip_prefix home absolute with
        | Some suffix => [mk_target "home" home suffix absolute]
        | None => []
        end
    | None => []
    end in
  let cwd_is_under_home := match home with Some home => path_starts_with cwd home | None => false end in
  let cwd_targets :=
    if cwd_is_under_home then []
    else match path_strip_prefix cwd absolute with
         | Some suffix => [mk_target "cwd" cwd suffix absolute]
         | None => []
         end in
  home_targets ++ cwd_targets.

Definition absolute_home (home : option pathbuf) : option pathbuf :=
  h ← home; let h := lexical_normalize h in if is_absolute h then Some h else None.

Definition targets_for_path_with_home (p cwd : pathbuf) (home : option pathbuf)
    : list host_share_target + error :=
  if existsb (fun c => bool_decide (c = ParentDir)) p
  then inr (Bail "host-share state paths must not contain '..'")
  else
    let cwd := lexical_normalize cwd in
    if negb (is_absolute cwd) then inr (Bail "host-share working directory is not absolute")
    else
      let absolute := if is_absolute p then lexical_normalize p else lexical_normalize (path_join cwd p) in
      inl (targets_for_normalized_absolute_path absolute cwd (absolute_home home)).

Definition targets_for_absolute_path (absolute cwd : pathbuf) (home : option pathbuf) : list host_share_target :=
  let absolute := lexical_normalize absolute in
  let cwd := lexical_normalize cwd in
  if negb (is_absolute absolute) || negb (is_absolute cwd) then []
  else targets_for_normalized_absolute_path absolute cwd (absolute_home home).

Definition checked_state_path (root : path) (target : host_share_target) (namespace : string) : pathbuf + error :=
  if negb (bool_decide (t_tag target = "home") || bool_decide (t_tag target = "cwd"))
  then inr (Bail "unsafe host-share tag")
  else if is_absolute (t_suffix target) ||
          existsb (fun c => bool_decide (c = RootDir) || bool_decide (c = ParentDir)) (t_suffix target)
  then inr (Bail "unsafe host-share state path")
  else
    let namespace_root := lexical_normalize (of_path (root /: t_tag target /: namespace)) in
    let state_path := lexical_normalize (path_join namespace_root (t_suffix target)) in
    if path_starts_with state_path namespace_root then inl state_path
    else inr (Bail "host-share state path escapes").

(** A [Result] of code without effects. *)
Definition lift {A} (r : A + error) : M A :=
  match r with inl a => mret a | inr e => fail e end.

(** ** Removal *)

(** [CString::new] *)
Definition cstring (s : string) : M string :=
  if contains_char "000" s then bail "nul byte found in provided data" else mret s.

(** [open] and [openat] with [O_DIRECTORY | O_NOFOLLOW]. *)
Definition opened (r : path + error) : M (option path) :=
  match r with
  | inl fd => mret (Some fd)
  | inr (Io NotFound) => mret None
  | inr e => fail e
  end.

Definition open_root_dir_no_follow (p : path) : M (option path) :=
  if existsb (contains_char "000") p then bail "state root contains NUL"
  else
    r ← attempt (look (fun m =>
      match lstat_in m p with
      | inl NDir => inl p
      | inl _ => inr NotADirectory
      | inr k => inr k
      end));
    opened r.

Definition open_child_dir_no_follow (parent : path) (name : string) : M (option path) :=
  r ← attempt (look (fun m =>
    match m !! (parent /: name) with
    | Some NDir => inl (parent /: name)
    | Some _ => inr NotADirectory
    | None => inr NotFound
    end));
  opened r.

(** [fstatat] with [AT_SYMLINK_NOFOLLOW]. *)
Definition fstatat (parent : path) (name : string) : M node :=
  look (fun m => match m !! (parent /: name) with Some n => inl n | None => inr NotFound end).

(** A call that only takes up or gives back a handle, or advances a directory
    stream. *)
Definition handle_call : M unit := look (fun _ => inl tt).

(** The entries of the stream are read one by one; the names come in the order
    the directory is listed in. *)
Definition remove_directory_contents (remove_entry_at : path -> string -> M unit) (directory : path) : M unit :=
  _ ← handle_call;
  stream ← read_dir directory;
  _ ← for_each (fun name =>
        _ ← handle_call;
        if bool_decide (name = ".") || bool_decide (name = "..") then mret tt
        else name ← cstring name; remove_entry_at directory name) stream;
  handle_call.

(** [n] bounds the depth still below the entry. *)
Fixpoint remove_entry_at (n : nat) (parent : path) (name : string) : M unit :=
  stat ← attempt (fstatat parent name);
  match stat with
  | inr (Io NotFound) => mret tt
  | inr e => fail e
  | inl NDir =>
      fd ← open_child_dir_no_follow parent name;
      directory ← context fd "host-share state directory disappeared during removal";
      match n with
      | O => bail "directory tree too deep"
      | S n' =>
          _ ← remove_directory_contents (remove_entry_at n') directory;
          remove_dir (parent /: name)
      end
  | inl _ => remove_file (parent /: name)
  end.

(** Opens one directory after the other, each beneath the one before. *)
Fixpoint open_beneath (parent : path) (components : list string) : M (option path) :=
  match components with
  | [] => mret (Some parent)
  | name :: rest =>
      next ← open_child_dir_no_follow parent name;
      match next with
      | Some next => open_beneath next rest
      | None => mret None
      end
  end.

Fixpoint normal_components (suffix : pathbuf) : M (list string) :=
  match suffix with
  | [] => mret []
  | Normal name :: rest =>
      name ← cstring name; rest ← normal_components rest; mret (name :: rest)
  | _ => bail "unsafe host-share state suffix"
  end.

Fixpoint open_named (parent : path) (components : list string) : M (option path) :=
  match components with
  | [] => mret (Some parent)
  | component :: rest =>
      name ← cstring component;
      next ← open_child_dir_no_follow parent name;
      match next with
      | Some next => open_named next rest
      | None => mret None
      end
  end.

Definition remove_entry_beneath (root : path) (tag namespace : string) (suffix : pathbuf) : M unit := fun E w =>
  (fd ← open_root_dir_no_follow root;
   match fd with
   | None => mret tt
   | Some parent =>
       fd ← open_named parent [tag; namespace];
       match fd with
       | None => mret tt
       | Some parent =>
           components ← normal_components suffix;
           match last components with
           | None => bail "refusing to remove an empty host-share state suffix"
           | Some final_name =>
               fd ← open_beneath parent (removelast components);
               match fd with
               | None => mret tt
               | Some parent => remove_entry_at (S (max_depth (w_fs w))) parent final_name
               end
           end
       end
   end) E w.

Definition remove_state_path_if_exists (root : path) (target : host_share_target) (namespace : string) : M unit :=
  _ ← lift (checked_state_path root target namespace);
  remove_entry_beneath root (t_tag target) namespace (t_suffix target).

Definition remove_path_state (root : path) (target : host_share_target) : M unit :=
  if bool_decide (t_suffix target = []) then bail "refusing to remove all host-share copy-on-write state"
  else
    _ ← remove_state_path_if_exists root target "upper";
    remove_state_path_if_exists root target "whiteouts".

(** ** Reading *)

Definition path_metadata (p : path) : M (option node) :=
  r ← attempt (symlink_metadata p);
  match r with
  | inl n => mret (Some n)
  | inr (Io NotFound) => mret None
  | inr e => fail e
  end.

Definition has_path (p : path) : M bool :=
  n ← path_metadata p; mret (bool_decide (is_Some n)).

Definition direct_whiteout_exists (p : path) : M bool :=
  r ← attempt (symlink_metadata p);
  match r with
  | inl NDir => has_path (p /: WHITEOUT_MARKER)
  | inl _ => mret true
  | inr (Io NotFound) => mret false
  | inr e => fail e
  end.

Definition has_descendant_state (p : path) : M bool :=
  r ← attempt (symlink_metadata p);
  match r with
  | inl NDir =>
      entries ← read_dir p;
      _ ← handle_call;
      mret (match entries with [] => false | _ => true end)
  | _ => mret false
  end.

(** [Path::ancestors], the path itself first, without the empty one. *)
Fixpoint ancestors_down (n : nat) (p : path) : list path :=
  match n, p with
  | S n', _ :: _ => p :: ancestors_down n' (removelast p)
  | _, _ => []
  end.

Definition nonempty_ancestors (p : path) : list path := ancestors_down (length p) p.

Fixpoint first_whiteout (base : path) (l : list path) : M (option path) :=
  match l with
  | [] => mret None
  | ancestor :: rest =>
      there ← direct_whiteout_exists (base ++ ancestor);
      if (there : bool) then mret (Some ancestor) else first_whiteout base rest
  end.

Definition covering_whiteout (root : path) (target : host_share_target) : M (option path) :=
  first_whiteout (root /: t_tag target /: "whiteouts") (nonempty_ancestors (normal_names (t_suffix target))).

Definition is_dir_node (n : option node) : bool := bool_decide (n = Some NDir).

Definition path_state (root : path) (target : host_share_target) : M path_state_info :=
  upper_path ← lift (checked_state_path root target "upper");
  whiteout_path ← lift (checked_state_path root target "whiteouts");
  direct_whiteout ← direct_whiteout_exists (normal_names whiteout_path);
  upper_metadata ← path_metadata (normal_names upper_path);
  lower_metadata ← path_metadata (normal_names (t_absolute target));
  let upper_namespace := is_dir_node upper_metadata && is_dir_node lower_metadata in
  let upper_exists := bool_decide (is_Some upper_metadata) && negb upper_namespace in
  whiteout_metadata ← path_metadata (normal_names whiteout_path);
  let whiteout_namespace := is_dir_node whiteout_metadata && negb direct_whiteout in
  covering ← covering_whiteout root target;
  descendant_state ← (if upper_namespace || whiteout_namespace then mret true
                      else has_descendant_state (normal_names upper_path));
  mret (mk_path_state target upper_path whiteout_path upper_exists direct_whiteout covering descendant_state).

(** ** Listing *)

(** The tree below [current], each path with what is left of it below [root];
    [n] bounds the depth. *)
Fixpoint collect_paths (n : nat) (root current : path) (paths : gmap path path) : M (gmap path path) :=
  r ← attempt (read_dir current);
  match r with
  | inr (Io NotFound) => mret paths
  | inr e => fail e
  | inl read_dir =>
      fold_m (fun paths entry =>
        let p := current /: entry in
        suffix ← context (strip root p) "strip";
        let paths := <[suffix := p]> paths in
        file_type ← symlink_metadata p;
        match file_type, n with
        | NDir, S n' => collect_paths n' root p paths
        | NDir, O => bail "directory tree too deep"
        | _, _ => mret paths
        end) paths read_dir
  end.

(** The keys of the map in order, as the [BTreeMap] has them. *)
Definition path_le (p q : path) : Prop := path_compare (Normal <$> p) (Normal <$> q) <> Gt.

#[global] Instance path_le_dec : RelDecision path_le.
Proof. unfold path_le. intros p q. destruct (path_compare _ _); [left | left | right]; congruence. Defined.

Definition collected_paths (root : path) : M (list (path * path)) := fun E w =>
  (paths ← collect_paths (S (max_depth (w_fs w))) root root ∅;
   mret (omap (fun suffix => p ← paths !! suffix; Some (suffix, p)) (merge_sort path_le (map_to_list paths).*1))) E w.

Definition collect_upper_entries (root : path) (tag : string) (share_root : pathbuf) (acc : list state_entry)
    : M (list state_entry) :=
  paths ← collected_paths root;
  fold_m (fun acc '(suffix, state_path) =>
    let lower_path := path_join share_root (Normal <$> suffix) in
    upper ← path_metadata state_path;
    lower ← (if is_dir_node upper then path_metadata (normal_names lower_path) else mret None);
    let kind := if is_dir_node upper && is_dir_node lower then DescendantState else Copied in
    mret (acc ++ [mk_entry tag kind lower_path state_path])) acc paths.

Definition collect_whiteout_entries (root : path) (tag : string) (share_root : pathbuf) (acc : list state_entry)
    : M (list state_entry) :=
  paths ← collected_paths root;
  fold_m (fun acc '(suffix, state_path) =>
    if bool_decide (last suffix = Some WHITEOUT_MARKER) then mret acc
    else
      hidden ← direct_whiteout_exists state_path;
      let kind := if (hidden : bool) then Hidden else DescendantState in
      mret (acc ++ [mk_entry tag kind (path_join share_root (Normal <$> suffix)) state_path])) acc paths.

Definition entry_compare (a b : state_entry) : comparison :=
  match path_compare (en_logical_path a) (en_logical_path b) with
  | Eq =>
      match String.compare (kind_as_str (en_kind a)) (kind_as_str (en_kind b)) with
      | Eq => String.compare (en_tag a) (en_tag b)
      | c => c
      end
  | c => c
  end.

Definition entry_le (a b : state_entry) : Prop := entry_compare a b <> Gt.

#[global] Instance entry_le_dec : RelDecision entry_le.
Proof. unfold entry_le. intros a b. destruct (entry_compare _ _); [left | left | right]; congruence. Defined.

Definition list_state_entries_with_home (root : path) (cwd : pathbuf) (home : option pathbuf) : M (list state_entry) :=
  let cwd_under_home := match home with Some home => path_starts_with cwd home | None => false end in
  let shares := option_list ((fun home => ("home", home)) <$> home) ++
                (if cwd_under_home then [] else [("cwd", cwd)]) in
  entries ← fold_m (fun acc '(tag, share_root) =>
    acc ← collect_upper_entries (root /: tag /: "upper") tag share_root acc;
    collect_whiteout_entries (root /: tag /: "whiteouts") tag share_root acc) [] shares;
  mret (merge_sort entry_le entries).

(** ** The callers *)

(** [preflight_host_share_cwd_with_home]: refuses a working directory that the
    guest would not see. *)
Definition preflight_host_share_cwd_with_home (instance_dir : path) (cwd : pathbuf) (no_host_shares : bool)
    (host_home : pathbuf) : M unit :=
  if no_host_shares then mret tt
  else
    there ← path_exists (normal_names cwd);
    if negb there then bail "working directory does not exist on macOS"
    else
      for_each (fun target =>
        st ← path_state (state_root instance_dir) target;
        match ps_covering_whiteout st with
        | Some _ => bail "working directory is hidden by host-share copy-on-write state"
        | None => mret tt
        end) (targets_for_absolute_path cwd cwd (Some host_home)).

Section fs_unshare.
Context `{Json record, Json manifest, Json checkpoint_ref}.
Context (dir : path).

(** [run_fs_unshare --remove PATH], after [ensure_store]; [locked] is what
    taking the instance lock came to. *)
Definition unshare_edit (targets : list host_share_target) (staging : path) : M unit :=
  for_each (remove_path_state (staging /: HOST_SHARE_STATE)) targets.

Definition unshare_remove (locked : bool + error) (targets : list host_share_target) : M generation_id :=
  cleared ← with_exclusive_instance_state locked
    (_ ← recover dir; derive dir (unshare_edit targets));
  context cleared "cannot remove host-share state while the instance is running".

(** [run_fs_unshare PATH] without [--remove], up to printing. *)
Definition unshare_inspect (targets : list host_share_target) : M (list path_state_info) :=
  current ← current_host_share_state dir;
  let state := default (state_root dir) current in
  fold_m (fun acc target => st ← path_state state target; mret (acc ++ [st])) [] targets.

End fs_unshare.
