(* ===== verification/HostShareTheorems.v ===== *)
(** * Theorems about host-share state

    A target is well formed whatever path the user names: it splits the path
    into a share and names below it, so that its state lives strictly inside
    the namespaces of that share.  Removing the state of a path changes nothing
    else, removes all of it, and does so inside a new generation; inspecting a
    path then shows it clean. *)

From S2P Require Import Prelude FileSystem FsLogic FsUtil FsCopy FsTotal Store StoreLogic StoreSafety Text HostShare.

(** ** Paths *)

Lemma normalize_absolute_step ns c : exists ns', normalize_step true (of_path ns) c = of_path ns'.
Proof.
  destruct c as [| | | s].
  - by exists [].
  - by exists ns.
  - destruct ns as [| x ns _] using rev_ind; [by exists [] |]. exists ns. unfold normalize_step, path_pop, of_path.
    rewrite fmap_app. cbn [fmap list_fmap]. rewrite app_comm_cons, last_snoc. by rewrite removelast_last.
  - exists (ns ++ [s]). unfold normalize_step, path_join, of_path. simpl. by rewrite fmap_app.
Qed.

(** Normalizing an absolute path leaves the root and names. *)
Lemma normalize_absolute p : is_absolute p = true -> exists ns, lexical_normalize p = of_path ns.
Proof.
  intros Ha. unfold lexical_normalize. rewrite Ha. destruct p as [| [] p]; try done. simpl.
  change (path_join [] [RootDir]) with (of_path []).
  enough (Hg : forall ns, exists ns', foldl (normalize_step true) (of_path ns) p = of_path ns') by exact (Hg []).
  clear Ha. induction p as [| c p IH]; intros ns; simpl; [by exists ns |].
  destruct (normalize_absolute_step ns c) as [ns' ->]. apply IH.
Qed.

Definition tame (c : component) : Prop := c <> RootDir /\ c <> ParentDir.

Lemma fold_tame ns p : Forall tame p ->
  foldl (normalize_step true) (of_path ns) p = of_path (ns ++ normal_names p).
Proof.
  intros Hp. revert ns. induction Hp as [| c p [H1 H2] Hp IH]; intros ns; simpl; [by rewrite app_nil_r |].
  destruct c as [| | | s]; simpl; [done | by apply IH | done |].
  change (path_join (of_path ns) [Normal s]) with (of_path ns ++ [Normal s]).
  assert (of_path ns ++ [Normal s] = of_path (ns ++ [s])) as -> by (unfold of_path; by rewrite fmap_app).
  rewrite IH. by rewrite <- app_assoc.
Qed.

Lemma normal_names_fmap ns : normal_names (Normal <$> ns) = ns.
Proof. induction ns as [| x ns IH]; [done |]. exact (f_equal (cons x) IH). Qed.

Lemma normalize_tame ns p : Forall tame p -> lexical_normalize (of_path ns ++ p) = of_path (ns ++ normal_names p).
Proof.
  intros Hp. unfold lexical_normalize. simpl. change (path_join [] [RootDir]) with (of_path []).
  assert (Ht : Forall tame ((Normal <$> ns) ++ p)).
  { apply Forall_app. split; [| done]. apply Forall_fmap, Forall_true. by intros. }
  rewrite (fold_tame [] _ Ht). unfold normal_names. rewrite omap_app. f_equal. simpl. f_equal. apply normal_names_fmap.
Qed.

Lemma names_of_path ns : normal_names (of_path ns) = ns.
Proof. unfold of_path. simpl. apply normal_names_fmap. Qed.

(** An already normalized absolute path is left as it is. *)
Lemma normalize_of_path ns : lexical_normalize (of_path ns) = of_path ns.
Proof.
  assert (H := normalize_tame ns [] (List.Forall_nil _)). rewrite app_nil_r in H. rewrite H. simpl. by rewrite app_nil_r.
Qed.

Lemma path_strip_prefix_Some base p s : path_strip_prefix base p = Some s <-> p = base ++ s.
Proof.
  revert p. induction base as [| a base IH]; intros [| b p]; simpl; split; intros H; simplify_eq; try done.
  - case_decide as Hd; [| done]. subst. by rewrite (proj1 (IH p) H).
  - rewrite decide_True by done. by apply IH.
Qed.

Lemma filter_tame p : Forall tame p ->
  normal_names (filter (fun c => c <> CurDir) p) = normal_names p /\ Forall tame (filter (fun c => c <> CurDir) p).
Proof.
  intros Hp. split.
  - induction Hp as [| c p [] Hp IH]; [done |]. rewrite filter_cons. case_decide.
    + unfold normal_names in *. cbn. by rewrite IH.
    + destruct c; [done | exact IH | done | done].
  - apply Forall_forall. intros c [_ Hc]%list_elem_of_filter. by rewrite Forall_forall in Hp; apply Hp.
Qed.

(** A root directory only comes first. *)
Definition rooted (p : pathbuf) : Prop := RootDir ∉ tail p.

Lemma inner_component_no_root s c : inner_component s = Some c -> c <> RootDir.
Proof. unfold inner_component. repeat case_match; intros; by simplify_eq. Qed.

Lemma path_components_rooted s : rooted (path_components s).
Proof.
  unfold rooted, path_components. destruct (split_char "/" s) as [| first rest]; [by apply not_elem_of_nil |].
  assert (Hr : RootDir ∉ omap inner_component rest).
  { rewrite list_elem_of_omap. intros (x & _ & Hx). by apply inner_component_no_root in Hx. }
  assert (Ht : forall l : pathbuf, RootDir ∉ l -> RootDir ∉ tail l).
  { intros [| x l] Hl; [done |]. intros ?. apply Hl. by right. }
  destruct (starts_with "/" s); [done |]. case_bool_decide; [done |].
  destruct (inner_component first) as [c |]; simpl; [done | by apply Ht].
Qed.

Lemma normalize_relative p : rooted p -> is_absolute p = false -> is_absolute (lexical_normalize p) = false.
Proof.
  intros Hp Ha. unfold lexical_normalize. rewrite Ha.
  assert (Hn : RootDir ∉ p).
  { destruct p as [| c p]; [by apply not_elem_of_nil |]. intros [<- |]%elem_of_cons; [done | by apply Hp]. }
  enough (Hg : forall acc, RootDir ∉ acc -> RootDir ∉ foldl (normalize_step false) acc p).
  { specialize (Hg [] (not_elem_of_nil _)). destruct (foldl _ _ _) as [| [] q]; try done. by destruct Hg; left. }
  clear Hp Ha. induction p as [| c p IH]; intros acc Hacc; simpl; [done |].
  apply not_elem_of_cons in Hn as [Hc Hn]. apply IH; [done |].
  assert (Hj : forall c, c <> RootDir -> RootDir ∉ path_join acc [c]).
  { intros c' Hc'. unfold path_join. destruct c' as [| | | s]; [done | ..]; simpl; destruct acc as [| a acc];
      try (rewrite elem_of_app; intros [? | [_ Hin]%list_elem_of_filter]; [done |]); set_solver. }
  destruct c as [| | | s]; simpl; [done | done | | by apply Hj].
  destruct (last acc) as [[] |] eqn:Hl; try by apply Hj.
  unfold path_pop. rewrite Hl. intros Hin. apply Hacc. apply last_Some in Hl as [l ->]. rewrite removelast_last in Hin.
  apply elem_of_app. by left.
Qed.

(** Normalizing leaves an absolute path only of an absolute one. *)
Lemma normalize_names p : rooted p -> is_absolute (lexical_normalize p) = true ->
  exists ns, lexical_normalize p = of_path ns.
Proof.
  intros Hp Ha. destruct (is_absolute p) eqn:E; [by apply normalize_absolute |].
  by rewrite normalize_relative in Ha.
Qed.

(** ** Targets *)

(** A target for the names [s] below the share [r]. *)
Definition target_for (t : host_share_target) (r s : path) : Prop :=
  (t_tag t = "home" \/ t_tag t = "cwd") /\ t_share_root t = of_path r /\ t_suffix t = (Normal <$> s) /\
  t_absolute t = of_path (r ++ s).

Lemma absolute_home_of home h : absolute_home (path_components <$> home) = Some h -> exists r, h = of_path r.
Proof.
  unfold absolute_home. destruct home as [h0 |]; simpl; [| done].
  destruct (is_absolute (lexical_normalize (path_components h0))) eqn:Ha; [| done].
  intros [= <-]. apply normalize_names; [apply path_components_rooted | done].
Qed.

#[global] Instance Normal_inj : Inj (=) (=) Normal.
Proof. by intros ? ? [= ->]. Qed.

Lemma strip_of_path r a s : path_strip_prefix (of_path r) (of_path a) = Some s ->
  exists s', s = (Normal <$> s') /\ a = r ++ s'.
Proof.
  intros Hs%path_strip_prefix_Some. unfold of_path in Hs. injection Hs as Hs.
  apply fmap_app_inv in Hs as (l1 & s' & Hl1 & -> & ->). exists s'.
  by apply (inj _) in Hl1 as ->.
Qed.

Lemma targets_normalized a c home t :
  (forall h, home = Some h -> exists r, h = of_path r) ->
  t ∈ targets_for_normalized_absolute_path (of_path a) (of_path c) home ->
  exists r s, target_for t r s /\ a = r ++ s.
Proof.
  intros Hh. unfold targets_for_normalized_absolute_path. rewrite elem_of_app. intros [Ht | Ht].
  - destruct home as [h |]; [| by apply elem_of_nil in Ht]. destruct (Hh h eq_refl) as [r ->].
    destruct (path_strip_prefix _ _) as [s |] eqn:E; [| by apply elem_of_nil in Ht].
    apply strip_of_path in E as (s' & -> & ->). apply list_elem_of_singleton in Ht as ->. exists r, s'.
    repeat split; by left.
  - destruct (match home with Some _ => _ | None => _ end); [by apply elem_of_nil in Ht |].
    destruct (path_strip_prefix _ _) as [s |] eqn:E; [| by apply elem_of_nil in Ht].
    apply strip_of_path in E as (s' & -> & ->). apply list_elem_of_singleton in Ht as ->. exists c, s'.
    repeat split; by right.
Qed.

Lemma targets_for_path p cwd home l t :
  targets_for_path_with_home (path_components p) (path_components cwd) (path_components <$> home) = inl l ->
  t ∈ l -> exists r s, target_for t r s.
Proof.
  unfold targets_for_path_with_home. destruct (existsb _ _); [done |].
  destruct (is_absolute (lexical_normalize (path_components cwd))) eqn:Hc; [| done]. simpl. intros [= <-] Ht.
  destruct (normalize_names _ (path_components_rooted cwd) Hc) as [c Hcwd]. rewrite Hcwd in Ht.
  assert (Ha : exists a, (if is_absolute (path_components p) then lexical_normalize (path_components p)
                          else lexical_normalize (path_join (of_path c) (path_components p))) = of_path a).
  { destruct (is_absolute (path_components p)) eqn:Hp; [by apply normalize_absolute |].
    apply normalize_absolute. unfold path_join. by rewrite Hp. }
  destruct Ha as [a Ha]. rewrite Ha in Ht.
  destruct (targets_normalized _ _ _ _ (absolute_home_of home) Ht) as (r & s & Hts & _). eauto.
Qed.

(** The place of a target's state in a namespace. *)
Definition place (root : path) (t : host_share_target) (namespace : string) (s : path) : path :=
  (root /: t_tag t /: namespace) ++ s.

Lemma join_tame ns s : Forall tame s -> lexical_normalize (path_join (of_path ns) s) = of_path (ns ++ normal_names s).
Proof.
  intros Hs. unfold path_join. assert (is_absolute s = false) as -> by (by destruct Hs as [| [] ? []]).
  destruct (filter_tame s Hs) as [Hn Ht]. rewrite <- Hn. by apply normalize_tame.
Qed.

(** Whatever the target, its state is at or below the namespace of its tag, and
    the check that it does not escape never fails. *)
Lemma checked_state_path_spec root t namespace :
  checked_state_path root t namespace =
    if bool_decide (t_tag t = "home" \/ t_tag t = "cwd") then
      if bool_decide (Forall tame (t_suffix t)) then inl (of_path (place root t namespace (normal_names (t_suffix t))))
      else inr (Bail "unsafe host-share state path")
    else inr (Bail "unsafe host-share tag").
Proof.
  unfold checked_state_path.
  assert (bool_decide (t_tag t = "home") || bool_decide (t_tag t = "cwd") =
          bool_decide (t_tag t = "home" \/ t_tag t = "cwd")) as ->.
  { repeat case_bool_decide; try done; naive_solver. }
  case_bool_decide as Htag; [| done]. cbn [negb].
  assert (Hb : is_absolute (t_suffix t) ||
    existsb (fun c => bool_decide (c = RootDir) || bool_decide (c = ParentDir)) (t_suffix t) =
    negb (bool_decide (Forall tame (t_suffix t)))).
  { apply Bool.eq_iff_eq_true. rewrite negb_true_iff, bool_decide_eq_false, orb_true_iff, existsb_exists. split.
    - intros H Ht. destruct H as [Ha | (c & Hin%list_elem_of_In & Hc)].
      + by destruct Ht as [| [] ? []].
      + rewrite Forall_forall in Ht. destruct (Ht c Hin). by destruct c.
    - intros (c & Hin & Hc)%not_Forall_Exists%Exists_exists; [| apply _]. right. exists c.
      split; [by apply list_elem_of_In |]. unfold tame in Hc. destruct c; naive_solver. }
  rewrite Hb. case_bool_decide as Ht; [| done]. cbn [negb].
  rewrite normalize_of_path, join_tame by done. unfold path_starts_with. rewrite bool_decide_true; [done |].
  exists (Normal <$> normal_names (t_suffix t)). apply path_strip_prefix_Some. unfold of_path. by rewrite fmap_app.
Qed.

Lemma checked_state_path_for root t namespace r s : target_for t r s ->
  checked_state_path root t namespace = inl (of_path (place root t namespace s)).
Proof.
  intros (Htag & _ & Hs & _). rewrite checked_state_path_spec, Hs, normal_names_fmap, !bool_decide_true; [done | | done].
  by apply Forall_fmap, Forall_true.
Qed.

(** ** Removal stays inside *)

Lemma returns_opened p c : returns c (fun r => forall q : path, r = inl q -> q = p) ->
  returns (r ← c; opened r) (fun r => r = None \/ r = Some p).
Proof.
  intros Hc. eapply returns_bind; [exact Hc |]. intros [q | [[] | |]] Hq; simpl;
    try apply returns_fail; apply returns_ret; [right | by left]. by rewrite (Hq q).
Qed.

Lemma returns_attempt_look {A : Type} (f : fsmap -> A + io_kind) (P : A -> Prop) :
  (forall m a, f m = inl a -> P a) -> returns (attempt (look f)) (fun r => forall a, r = inl a -> P a).
Proof.
  intros Hf E w r w'. unfold attempt, look. destruct (e_fault E (w_tick w)) as [[] |]; [by intros [= <- _] a | done |].
  destruct (f (w_fs w)) as [a |] eqn:Ef; intros [= <- _] a' Ha; simplify_eq; eauto.
Qed.

Lemma returns_open_child parent name :
  returns (open_child_dir_no_follow parent name) (fun r => r = None \/ r = Some (parent /: name)).
Proof.
  apply returns_opened, returns_attempt_look. intros m a Hf. repeat case_match; by simplify_eq.
Qed.

Lemma returns_open_root p : returns (open_root_dir_no_follow p) (fun r => r = None \/ r = Some p).
Proof.
  unfold open_root_dir_no_follow. destruct (existsb _ _); [apply returns_fail |].
  apply returns_opened, returns_attempt_look. intros m a Hf. repeat case_match; by simplify_eq.
Qed.

Lemma returns_open_beneath parent cs :
  returns (open_beneath parent cs) (fun r => r = None \/ r = Some (parent ++ cs)).
Proof.
  revert parent. induction cs as [| c cs IH]; intros parent; simpl.
  { apply returns_ret. right. by rewrite app_nil_r. }
  eapply returns_bind; [apply returns_open_child |]. intros ? [-> | ->]; [apply returns_ret; by left |].
  specialize (IH (parent /: c)). by rewrite <- app_assoc in IH.
Qed.

Lemma returns_cstring s : returns (cstring s) (eq s).
Proof. unfold cstring. destruct (contains_char _ _); [apply returns_fail | by apply returns_ret]. Qed.

Lemma returns_open_named parent cs :
  returns (open_named parent cs) (fun r => r = None \/ r = Some (parent ++ cs)).
Proof.
  revert parent. induction cs as [| c cs IH]; intros parent; simpl.
  { apply returns_ret. right. by rewrite app_nil_r. }
  eapply returns_bind; [apply returns_cstring |]. intros ? <-.
  eapply returns_bind; [apply returns_open_child |]. intros ? [-> | ->]; [apply returns_ret; by left |].
  specialize (IH (parent /: c)). by rewrite <- app_assoc in IH.
Qed.

Lemma returns_normal_components s : returns (normal_components s) (fun ns => s = (Normal <$> ns)).
Proof.
  induction s as [| [] s IH]; simpl; try apply returns_fail; [by apply returns_ret |].
  eapply returns_bind; [apply returns_cstring |]. intros ? <-. eapply returns_bind; [apply IH |].
  intros ns ->. by apply returns_ret.
Qed.

Section respects.
Context (I : relation fsmap) `{!PreOrder I}.

Lemma respects_handle_call : respects I handle_call.
Proof. by apply respects_look. Qed.

Lemma respects_cstring s : respects I (cstring s).
Proof. unfold cstring. respects_tac. Qed.

Lemma respects_fstatat parent name : respects I (fstatat parent name).
Proof. by apply respects_look. Qed.

Lemma respects_open_child parent name : respects I (open_child_dir_no_follow parent name).
Proof. unfold open_child_dir_no_follow, opened. respects_tac. Qed.

Lemma respects_open_root p : respects I (open_root_dir_no_follow p).
Proof. unfold open_root_dir_no_follow, opened. respects_tac. Qed.

Lemma respects_normal_components s : respects I (normal_components s).
Proof. induction s as [| [] s IH]; simpl; unfold cstring; respects_tac. Qed.

Lemma respects_open_named parent cs : respects I (open_named parent cs).
Proof.
  revert parent. induction cs as [| c cs IH]; intros parent; simpl; unfold cstring, open_child_dir_no_follow, opened; respects_tac.
Qed.

Lemma respects_open_beneath parent cs : respects I (open_beneath parent cs).
Proof.
  revert parent. induction cs as [| c cs IH]; intros parent; simpl; unfold open_child_dir_no_follow, opened; respects_tac.
Qed.

Lemma respects_lift {A : Type} (r : A + error) : respects I (lift r).
Proof. destruct r; simpl; respects_tac. Qed.

End respects.

#[export] Hint Resolve respects_handle_call respects_cstring respects_fstatat respects_open_child respects_open_root
  respects_normal_components respects_open_named respects_open_beneath respects_lift : frames.

(** A removal respects whatever its unlinks do. *)
Lemma respects_remove_entry_at I `{!PreOrder I} n parent name :
  (forall p, below (parent /: name) p -> respects I (remove_file p)) ->
  (forall p, below (parent /: name) p -> respects I (remove_dir p)) ->
  respects I (remove_entry_at n parent name).
Proof.
  revert parent name. induction n as [| n IH]; intros parent name Hf Hd; simpl;
    (apply respects_bind; [done | respects_tac |]);
    (intros [[f | | t] | e]; [by apply Hf, below_refl | | by apply Hf, below_refl | respects_tac]);
    (eapply respects_bind_returns; [done | apply respects_open_child; done | apply returns_open_child |]);
    (intros ? [-> | ->]; simpl; [exact (respects_fail I _) |]);
    (apply respects_bind_returns with (P := eq (parent /: name)); [done | by apply respects_ret | by apply returns_ret |]);
    intros ? <-; [respects_tac |].
  apply respects_bind; [done | | intros _; by apply Hd, below_refl].
  unfold remove_directory_contents.
  do 2 (apply respects_bind; [done | by respects_tac | intros ?]).
  apply respects_bind; [done | | by respects_tac]. apply respects_for_each; [done |]. intros x _.
  apply respects_bind; [done | by respects_tac | intros _]. destruct (_ || _); [by apply respects_ret |].
  eapply respects_bind_returns; [done | by apply respects_cstring | apply returns_cstring |].
  intros ? <-. apply IH; intros p Hp; [apply Hf | apply Hd]; by eapply below_child.
Qed.

Lemma modifies_remove_entry_at (F : path -> Prop) n parent name :
  (forall q, below (parent /: name) q -> F q) -> modifies F (remove_entry_at n parent name).
Proof.
  intros HF. apply respects_remove_entry_at; [apply _ | ..]; intros p Hp;
    [apply modifies_remove_file | apply modifies_remove_dir]; by apply HF.
Qed.

Lemma keeps_form_remove_entry_at n parent name : respects keeps_form (remove_entry_at n parent name).
Proof. apply respects_remove_entry_at; [apply _ | ..]; intros; [apply keeps_form_remove_file | apply keeps_form_remove_dir]. Qed.

(** What a target's removal may change: the places of its names in the two
    namespaces, and what is below them. *)
Definition removal_footprint (root : path) (t : host_share_target) (q : path) : Prop :=
  exists namespace s, (namespace = "upper" \/ namespace = "whiteouts") /\ s <> [] /\ t_suffix t = (Normal <$> s) /\
    below (place root t namespace s) q.

(** The body of [remove_entry_beneath], for the fuel it runs with. *)
Definition remove_beneath_with (n : nat) (root : path) (tag namespace : string) (suffix : pathbuf) : M unit :=
  fd ← open_root_dir_no_follow root;
  match fd with
  | None => mret tt
  | Some parent =>
      fd ← open_named parent [tag; namespace];
      match fd with
      | None => mret tt
      | Some parent =>
          components ← normal_components suffix;
          match last components with
          | None => bail "refusing to remove an empty host-share state suffix"
          | Some final_name =>
              fd ← open_beneath parent (removelast components);
              match fd with
              | None => mret tt
              | Some parent => remove_entry_at n parent final_name
              end
          end
      end
  end.

Lemma respects_remove_beneath_with I `{!PreOrder I} n root tag namespace suffix :
  (forall s x, suffix = (Normal <$> s /: x) ->
     respects I (remove_entry_at n ((root /: tag /: namespace) ++ s) x)) ->
  respects I (remove_beneath_with n root tag namespace suffix).
Proof.
  intros HI. unfold remove_beneath_with.
  eapply respects_bind_returns; [done | by apply respects_open_root | apply returns_open_root |].
  intros ? [-> | ->]; [by apply respects_ret |].
  eapply respects_bind_returns; [done | by apply respects_open_named | apply returns_open_named |].
  intros ? [-> | ->]; [by apply respects_ret |].
  eapply respects_bind_returns; [done | by apply respects_normal_components | apply returns_normal_components |].
  intros cs Hcs. destruct (last cs) as [x |] eqn:Hl; [| by apply respects_fail].
  apply last_Some in Hl as [s ->]. rewrite removelast_last.
  eapply respects_bind_returns; [done | by apply respects_open_beneath | apply returns_open_beneath |].
  intros ? [-> | ->]; [by apply respects_ret |].
  specialize (HI s x Hcs). by rewrite <- !app_assoc in *.
Qed.

Lemma respects_remove_path_state I `{!PreOrder I} root t :
  (forall n s x namespace, t_suffix t = (Normal <$> s /: x) -> (namespace = "upper" \/ namespace = "whiteouts") ->
     respects I (remove_entry_at n (place root t namespace s) x)) ->
  respects I (remove_path_state root t).
Proof.
  intros HI. unfold remove_path_state. case_bool_decide; [by apply respects_fail |].
  apply respects_bind; [done | | intros _]; unfold remove_state_path_if_exists;
    (apply respects_bind; [done | by apply respects_lift | intros _]);
    intros E w; apply (respects_remove_beneath_with I (S (max_depth (w_fs w)))); intros s x Hs; apply HI; eauto.
Qed.

Lemma modifies_remove_path_state root t : modifies (removal_footprint root t) (remove_path_state root t).
Proof.
  apply respects_remove_path_state; [apply _ |]. intros n s x namespace Hs Hn. apply modifies_remove_entry_at.
  intros q Hq. exists namespace, (s /: x). split_and!; [done | by destruct s | done |].
  unfold place in *. by rewrite app_assoc.
Qed.

Lemma keeps_form_remove_path_state root t : respects keeps_form (remove_path_state root t).
Proof. apply respects_remove_path_state; [apply _ |]. intros. apply keeps_form_remove_entry_at. Qed.

(** ** Removal that returns has removed *)

Section removed.
Context (E : env).

Lemma t_attempt_look {A : Type} m (f : fsmap -> A + io_kind) :
  triple E (eq m) (attempt (look f))
    (fun r m' => m = m' /\ match r with inl a => f m = inl a | inr (Io NotFound) => f m = inr NotFound | inr _ => True end)
    (fun _ => True).
Proof.
  intros w ->. unfold attempt, look. destruct (e_fault E (w_tick w)) as [[] |]; simpl; [done | done |].
  destruct (f (w_fs w)) as [a | []] eqn:Ef; simpl; by rewrite ?Ef.
Qed.

(** What opening a directory tells. *)
Definition found (m : fsmap) (p : path) (r : option path) (m' : fsmap) : Prop :=
  m = m' /\ (r = Some p \/ r = None /\ absent p m).

Lemma t_opened m p (r : path + error) :
  match r with inl q => q = p | inr (Io NotFound) => absent p m | inr _ => True end ->
  triple E (eq m) (opened r) (found m p) (fun _ => True).
Proof.
  intros Hr. destruct r as [q | [[] | |]]; simpl; try (apply t_fail; done); apply t_ret; intros ? <-.
  - subst. by split; [| left].
  - by split; [| right].
Qed.

Lemma t_open_child m parent name : well_formed m ->
  triple E (eq m) (open_child_dir_no_follow parent name) (found m (parent /: name)) (fun _ => True).
Proof.
  intros Hwf. eapply t_bind; [apply t_attempt_look |]. intros r. apply t_start. intros ? [<- Hr]. apply t_opened.
  destruct r as [q | [[] | |]]; try done; repeat case_match; simplify_eq; [done |].
  apply absent_intro; [done | by destruct parent | done].
Qed.

Lemma missing_not_found m p : lstat_in m p = inr NotFound -> m !! p = None.
Proof. unfold lstat_in. by destruct (m !! p). Qed.

Lemma t_open_root m p : well_formed m -> p <> [] ->
  triple E (eq m) (open_root_dir_no_follow p) (found m p) (fun _ => True).
Proof.
  intros Hwf Hp. unfold open_root_dir_no_follow. destruct (existsb _ _); [by apply t_fail |].
  eapply t_bind; [apply t_attempt_look |]. intros r. apply t_start. intros ? [<- Hr]. apply t_opened.
  destruct r as [q | [[] | |]]; try done; destruct (lstat_in m p) as [[] |] eqn:El; simplify_eq; [done |].
  apply absent_intro; [done | done | by apply missing_not_found].
Qed.

Lemma absent_app d s m : absent d m -> absent (d ++ s) m.
Proof. intros Ha q. rewrite <- app_assoc. apply Ha. Qed.

Lemma t_found_next m p c k Q :
  (absent p m -> Q None m) -> triple E (eq m) c (found m p) (fun _ => True) ->
  triple E (eq m) (k p) Q (fun _ => True) ->
  triple E (eq m) (r ← c; match r with Some q => k q | None => mret None end : M (option path)) Q (fun _ => True).
Proof.
  intros HQ Hc Hk. eapply t_bind; [exact Hc |]. intros r. apply t_start. intros ? [<- [-> | [-> Ha]]]; [exact Hk |].
  apply t_ret. intros ? <-. auto.
Qed.

Lemma t_open_beneath m parent cs : well_formed m ->
  triple E (eq m) (open_beneath parent cs) (found m (parent ++ cs)) (fun _ => True).
Proof.
  intros Hwf. revert parent. induction cs as [| c cs IH]; intros parent; simpl.
  { apply t_ret. intros ? <-. split; [done |]. left. by rewrite app_nil_r. }
  eapply (t_found_next m (parent /: c)); [| by apply t_open_child |].
  - intros Ha. split; [done |]. right. split; [done |]. apply (absent_app _ cs) in Ha. by rewrite <- app_assoc in Ha.
  - specialize (IH (parent /: c)). by rewrite <- app_assoc in IH.
Qed.

Lemma t_cstring m s : triple E (eq m) (cstring s) (fun r m' => s = r /\ m = m') (fun _ => True).
Proof. unfold cstring. destruct (contains_char _ _); [by apply t_fail | by apply t_ret]. Qed.

Lemma t_open_named m parent cs : well_formed m ->
  triple E (eq m) (open_named parent cs) (found m (parent ++ cs)) (fun _ => True).
Proof.
  intros Hwf. revert parent. induction cs as [| c cs IH]; intros parent; simpl.
  { apply t_ret. intros ? <-. split; [done |]. left. by rewrite app_nil_r. }
  eapply t_bind; [apply t_cstring |]. intros r. apply t_start. intros ? [<- <-].
  eapply (t_found_next m (parent /: c)); [| by apply t_open_child |].
  - intros Ha. split; [done |]. right. split; [done |]. apply (absent_app _ cs) in Ha. by rewrite <- app_assoc in Ha.
  - specialize (IH (parent /: c)). by rewrite <- app_assoc in IH.
Qed.

Lemma t_remove_gone p : triple E (fun _ => True) (remove_file p) (fun _ m => m !! p = None) (fun _ => True).
Proof.
  apply t_change; [done | |]; intros w; intros; repeat case_match; simplify_eq; apply lookup_delete_eq.
Qed.

Lemma t_remove_dir_gone p : triple E (fun _ => True) (remove_dir p) (fun _ m => m !! p = None) (fun _ => True).
Proof.
  apply t_change; [done | |]; intros w; intros; repeat case_match; simplify_eq; apply lookup_delete_eq.
Qed.

Lemma t_remove_entry_at n parent name :
  triple E (fun _ => True) (remove_entry_at n parent name) (fun _ m => m !! (parent /: name) = None) (fun _ => True).
Proof.
  apply t_start. intros m _.
  destruct n as [| n]; simpl; (eapply t_bind; [apply t_attempt_look |]); intros r; apply t_start; intros ? [<- Hr];
    (destruct r as [[f | | t] | [[] | |]]; try (by apply t_fail); try (by eapply t_pre; [apply t_remove_gone |]);
      [| apply t_ret; intros ? <-; by destruct (m !! _)]);
    (eapply t_bind; [apply t_any |]; intros fd; eapply t_bind; [apply t_any |]; intros d).
  - by apply t_fail.
  - eapply t_bind; [apply t_any |]. intros []. apply t_remove_dir_gone.
Qed.

Lemma t_remove_beneath n root tag namespace s : root <> [] -> s <> [] ->
  triple E well_formed (remove_beneath_with n root tag namespace (Normal <$> s))
    (fun _ m => m !! ((root /: tag /: namespace) ++ s) = None) (fun _ => True).
Proof.
  intros Hroot Hs. apply t_start. intros m Hwf. unfold remove_beneath_with.
  assert (Hgone : forall d, below d ((root /: tag /: namespace) ++ s) -> absent d m ->
    triple E (eq m) (mret tt) (fun _ m' => m' !! ((root /: tag /: namespace) ++ s) = None) (fun _ => True)).
  { intros d [q ->]%below_spec Ha. apply t_ret. intros ? <-. apply Ha. }
  eapply t_bind; [by apply t_open_root |]. intros fd. apply t_start. intros ? [<- [-> | [-> Ha]]].
  2:{ eapply Hgone, Ha. rewrite <- !app_assoc. apply below_app. }
  eapply t_bind; [by apply t_open_named |]. intros fd. apply t_start. intros ? [<- [-> | [-> Ha]]].
  2:{ eapply Hgone, Ha. apply below_spec. exists s. by rewrite <- !app_assoc. }
  eapply t_bind; [apply t_returns; [by apply (t_silent _ _ _ (eq m)); [apply respects_normal_components; apply _ | ..] |
    apply returns_normal_components] |].
  intros cs. apply t_start. intros ? [<- Hcs]. apply (inj _) in Hcs as <-.
  destruct (last s) as [x |] eqn:Hl; [| by apply last_None in Hl]. apply last_Some in Hl as [s' ->].
  rewrite removelast_last. eapply t_bind; [by apply t_open_beneath |]. intros fd. apply t_start. intros ? [<- [-> | [-> Ha]]].
  - eapply t_conseq; [apply t_remove_entry_at | done | | done]. intros ? m'. by rewrite <- !app_assoc.
  - eapply Hgone, Ha. apply below_spec. exists [x]. by rewrite <- !app_assoc.
Qed.

Lemma t_remove_state root t namespace s : root <> [] -> s <> [] -> t_suffix t = (Normal <$> s) ->
  triple E well_formed (remove_state_path_if_exists root t namespace)
    (fun _ m => m !! place root t namespace s = None) (fun _ => True).
Proof.
  intros Hroot Hs Ht. unfold remove_state_path_if_exists.
  apply t_bind with (R := fun _ => well_formed); [apply t_silent; [apply respects_lift; apply _ | done | done] |].
  intros _ w Hw. rewrite Ht. exact (t_remove_beneath (S (max_depth (w_fs w))) root (t_tag t) namespace s Hroot Hs w Hw).
Qed.

Lemma modifies_remove_state root t namespace s : t_suffix t = (Normal <$> s) -> s <> [] ->
  modifies (below (place root t namespace s)) (remove_state_path_if_exists root t namespace).
Proof.
  intros Ht Hs. unfold remove_state_path_if_exists. apply respects_bind; [apply _ | apply respects_lift; apply _ | intros _].
  intros E' w. apply (respects_remove_beneath_with _ (S (max_depth (w_fs w)))). intros s' x Hx. rewrite Ht in Hx.
  apply (inj _) in Hx as ->. apply modifies_remove_entry_at. intros q. unfold place. by rewrite app_assoc.
Qed.

Lemma keeps_form_remove_state root t namespace : respects keeps_form (remove_state_path_if_exists root t namespace).
Proof.
  unfold remove_state_path_if_exists. apply respects_bind; [apply _ | apply respects_lift; apply _ | intros _].
  intros E' w. apply (respects_remove_beneath_with _ (S (max_depth (w_fs w)))). intros. apply keeps_form_remove_entry_at.
Qed.

Lemma places_apart root t s q : below (place root t "upper" s) q -> ~ below (place root t "whiteouts" s) q.
Proof.
  intros H1 H2. assert (Hb : forall n, below (place root t n s) q -> below (root /: t_tag t /: n) q).
  { intros n Hn. eapply below_trans, Hn. apply below_app. }
  by assert (Hn := below_sibling _ _ _ _ (Hb _ H1) (Hb _ H2)).
Qed.

(** A removal that returns leaves nothing at the target's places. *)
Lemma t_remove_path_state root t s : root <> [] -> t_suffix t = (Normal <$> s) ->
  triple E well_formed (remove_path_state root t)
    (fun _ m => absent (place root t "upper" s) m /\ absent (place root t "whiteouts" s) m) (fun _ => True).
Proof.
  intros Hroot Ht. unfold remove_path_state. case_bool_decide as Hn; [by apply t_fail |].
  assert (Hs : s <> []) by (intros ->; by rewrite Ht in Hn).
  eapply t_bind; [apply t_keep_form; [done | apply keeps_form_remove_state | by apply t_remove_state] |].
  intros []. apply t_start. intros m [Hm Hwf].
  eapply t_conseq; [apply t_also; [| apply t_frame, (modifies_remove_state root t "whiteouts" s Ht Hs)] | ..].
  - eapply t_pre; [apply t_keep_form; [done | apply keeps_form_remove_state | by apply t_remove_state] | by intros ? <-].
  - done.
  - intros _ m' [[Hm' Hwf'] Hf]. split.
    + apply absent_intro; [done | unfold place; by destruct root |]. rewrite Hf; [done |]. apply places_apart, below_refl.
    + apply absent_intro; [done | unfold place; by destruct root | done].
  - done.
Qed.

End removed.

(** ** Removal succeeds *)

Section succeeds.
Context (E : env) (HE : faultless E).

(** A name a directory listing can hold. *)
Definition clean_name (x : string) : Prop := x <> "." /\ x <> ".." /\ no_char "000" x.

Definition clean_below (p : path) (m : fsmap) : Prop := forall s, is_Some (m !! (p ++ s)) -> Forall clean_name s.

Lemma total_handle_call m : total E (eq m) handle_call (fun _ m' => m = m').
Proof. apply total_look; [done |]. intros ? <-. eauto. Qed.

Lemma total_cstring m x : no_char "000" x -> total E (eq m) (cstring x) (fun y m' => x = y /\ m = m').
Proof. intros Hx. unfold cstring. unfold no_char in Hx. rewrite Hx. apply total_ret. by intros ? <-. Qed.

Lemma total_open_child m parent name : m !! (parent /: name) = None \/ m !! (parent /: name) = Some NDir ->
  total E (eq m) (open_child_dir_no_follow parent name)
    (fun r m' => m = m' /\ r = match m !! (parent /: name) with Some _ => Some (parent /: name) | None => None end).
Proof.
  intros Hm. eapply total_bind; [apply (total_attempt_look _ HE _ _ (fun r m' => m = m' /\
    r = match m !! (parent /: name) with Some _ => inl (parent /: name) | None => inr (Io NotFound) end)) |].
  { intros ? <-. by destruct Hm as [-> | ->]. }
  intros r. apply total_start. intros ? [<- ->]. destruct Hm as [-> | ->]; simpl; apply total_ret; by intros ? <-.
Qed.

Lemma total_remove_leaf m p nd : well_formed m -> p <> [] -> m !! p = Some nd -> nd <> NDir ->
  total E (eq m) (remove_file p) (fun _ m' => without p m m').
Proof.
  intros Hwf Hp Hnd Hn. eapply total_post; [by apply (total_remove_file E HE m p nd) |]. intros _ m' ->.
  apply without_leaf; [done | done | congruence].
Qed.

Lemma total_remove_contents m p (f : path -> string -> M unit) :
  well_formed m -> m !! p = Some NDir -> clean_below p m ->
  (forall x m1, is_Some (m !! (p /: x)) -> well_formed m1 ->
     (forall s, m1 !! ((p /: x) ++ s) = m !! ((p /: x) ++ s)) ->
     total E (eq m1) (f p x) (fun _ m2 => without (p /: x) m1 m2)) ->
  total E (eq m) (remove_directory_contents f p)
    (fun _ m1 => well_formed m1 /\ exists names, names ≡ₚ entries m p /\ thinned p names m m1).
Proof.
  intros Hwf Hd Hcl Hf. unfold remove_directory_contents.
  eapply total_bind; [apply total_handle_call |]. intros []. apply total_start. intros ? <-.
  eapply total_bind; [apply (total_read_dir _ HE _ _ (fun l m' => m = m' /\ l ≡ₚ entries m p)) |].
  { intros m' <-. auto. }
  intros names. apply total_start. intros ? [<- Hn].
  eapply total_bind; [eapply total_pre; [apply (total_remove_entries E m p _ names []) |] |].
  - rewrite app_nil_l, Hn. apply NoDup_entries.
  - intros x m1 Hx Hwf1 Hs. rewrite Hn, elem_of_entries in Hx.
    destruct (proj1 (Forall_cons _ _ _) (Hcl [x] Hx)) as [(Hx1 & Hx2 & Hx3) _].
    eapply total_bind; [apply total_handle_call |]. intros []. apply total_start. intros ? <-.
    rewrite !bool_decide_eq_false_2 by done. cbn [orb].
    eapply total_bind; [by apply total_cstring |]. intros y. apply total_start. intros ? [<- <-]. by apply Hf.
  - intros ? <-. split; [done |]. intros q. rewrite decide_False; [done |]. by intros ?%Exists_nil.
  - intros []. apply total_start. intros m1 [Hwf1 Ht]. eapply total_post; [apply total_handle_call |].
    intros ? ? <-. eauto.
Qed.

Lemma total_remove_entry_at n m parent name :
  well_formed m -> shallow n (parent /: name) m -> clean_below (parent /: name) m ->
  total E (eq m) (remove_entry_at n parent name) (fun _ m' => without (parent /: name) m m').
Proof.
  revert m parent name. induction n as [| n IH]; intros m parent name Hwf Hsh Hcl; simpl;
    assert (Hne : parent /: name <> []) by (by destruct parent);
    (eapply total_bind; [apply (total_attempt_look _ HE _ _ (fun r m' => m = m' /\
      r = match m !! (parent /: name) with Some nd => inl nd | None => inr (Io NotFound) end));
      intros ? <-; by destruct (m !! (parent /: name)) |]);
    intros r; apply total_start; intros ? [<- ->];
    (destruct (m !! (parent /: name)) as [nd |] eqn:Hnd;
      [| apply total_ret; intros ? <- q; case_decide as Hb; [| done]; apply below_spec in Hb as [s ->];
         by apply absent_intro]).
  { exfalso. specialize (Hsh []). rewrite app_nil_r, Hnd in Hsh. simpl in Hsh. enough (0 < 0); [lia | eauto]. }
  destruct nd as [f | | t]; [by eapply total_remove_leaf | | by eapply total_remove_leaf].
  eapply total_bind; [apply total_open_child; by right |]. intros fd. apply total_start. intros ? [<- ->]. rewrite Hnd.
  apply total_bind with (R := fun d m' => parent /: name = d /\ m = m'); [by apply total_ret |].
  intros d. apply total_start. intros ? [<- <-].
  eapply total_bind; [apply total_remove_contents; [done | done | done |] |].
  - intros x m1 Hx Hwf1 Hs. apply IH; [done | |].
    + intros s Hsome. rewrite Hs, <- app_assoc in Hsome. apply Hsh in Hsome. simpl in Hsome. lia.
    + intros s Hsome. rewrite Hs, <- app_assoc in Hsome. apply Hcl in Hsome. by apply Forall_cons in Hsome as [_ ?].
  - intros []. apply total_start. intros m1 (Hwf1 & names & Hn & Ht).
    destruct (thinned_all (parent /: name) m m1 names) as (Hd1 & He1 & Hw1); [done.. |].
    apply total_change; [done |]. intros w <-. rewrite Hd1, He1. eexists. by split.
Qed.

(** Nothing but directories is on the way to [p]. *)
Definition open_way (m : fsmap) (p : path) : Prop :=
  forall q, below q p -> q <> [] -> q <> p -> m !! q = None \/ m !! q = Some NDir.

Lemma open_way_up m p q : open_way m p -> below q p -> open_way m q.
Proof.
  intros Hp Hq r Hr Hne Hrq. apply Hp; [by eapply below_trans | done |]. intros ->. apply Hrq.
  apply below_spec in Hr as [a ->], Hq as [b Hb]. rewrite <- app_assoc in Hb.
  assert (Ha : a ++ b = []) by (apply (app_inv_head p); by rewrite app_nil_r). by apply app_eq_nil in Ha as [-> _]; rewrite app_nil_r.
Qed.

Lemma open_way_missing m p : open_way m p -> m !! p = None -> missing_kind m p = NotFound.
Proof.
  intros Hp Hn. unfold missing_kind. destruct (existsb _ _) eqn:Hex; [| done].
  apply existsb_exists in Hex as (q & Hq%list_elem_of_In & Hbad). assert (Hne := prefixes_not_root _ _ _ Hq).
  apply prefixes_below in Hq as [_ Hb]. rewrite app_nil_l in Hb.
  destruct (decide (q = p)) as [-> | Hqp]; [by rewrite Hn in Hbad |].
  by destruct (Hp q Hb Hne Hqp) as [Hq | Hq]; rewrite Hq in Hbad.
Qed.

Lemma total_open_root m p : open_way m p -> m !! p = None \/ m !! p = Some NDir -> well_formed m -> p <> [] ->
  Forall (no_char "000") p -> total E (eq m) (open_root_dir_no_follow p) (found m p).
Proof.
  intros Hway Hm Hwf Hp Hnul. unfold open_root_dir_no_follow.
  assert (existsb (contains_char "000") p = false) as ->.
  { induction Hnul as [| x l Hx Hl IH]; [done |]. simpl. unfold no_char in Hx. rewrite Hx. simpl.
    clear -Hl. by induction Hl as [| y l Hy Hl IH]; [| simpl; unfold no_char in Hy; rewrite Hy]. }
  eapply total_bind; [apply (total_attempt_look _ HE _ _ (fun r m' => m = m' /\
    r = match m !! p with Some _ => inl p | None => inr (Io NotFound) end)) |].
  { intros ? <-. unfold lstat_in. destruct Hm as [Hm | Hm]; rewrite Hm; [| done]. by rewrite open_way_missing. }
  intros r. apply total_start. intros ? [<- ->]. destruct Hm as [Hm | Hm]; rewrite Hm; simpl; apply total_ret; intros ? <-.
  - split; [done |]. right. split; [done |]. by apply absent_intro.
  - split; [done |]. by left.
Qed.

Lemma total_found_next m p c (k : path -> M (option path)) Q :
  (absent p m -> Q None m) -> total E (eq m) c (found m p) -> total E (eq m) (k p) Q ->
  total E (eq m) (r ← c; match r with Some q => k q | None => mret None end) Q.
Proof.
  intros HQ Hc Hk. eapply total_bind; [exact Hc |]. intros r. apply total_start.
  intros ? [<- [-> | [-> Ha]]]; [exact Hk |]. apply total_ret. intros ? <-. auto.
Qed.

Lemma total_open_child_found m parent name : well_formed m ->
  m !! (parent /: name) = None \/ m !! (parent /: name) = Some NDir ->
  total E (eq m) (open_child_dir_no_follow parent name) (found m (parent /: name)).
Proof.
  intros Hwf Hm. eapply total_post; [by apply total_open_child |]. intros r ? [<- ->]. split; [done |].
  destruct Hm as [Hm | Hm]; rewrite Hm; [right | by left].
  split; [done |]. by apply absent_intro; [| destruct parent |].
Qed.

(** Every directory between [parent] and [p] can be opened, if it is there. *)
Definition way_from (m : fsmap) (parent p : path) : Prop :=
  forall q, below q p -> ~ below q parent -> m !! q = None \/ m !! q = Some NDir.

Lemma way_from_next m parent c cs : way_from m parent (parent ++ c :: cs) -> way_from m (parent /: c) ((parent /: c) ++ cs).
Proof.
  intros Hw q Hq Hn. apply Hw; [by rewrite <- app_assoc in Hq |]. intros Hb. apply Hn.
  eapply below_trans, below_snoc. done.
Qed.

Lemma way_from_child m parent c cs : way_from m parent (parent ++ c :: cs) ->
  m !! (parent /: c) = None \/ m !! (parent /: c) = Some NDir.
Proof.
  intros Hw. apply Hw; [| apply not_below_child]. apply below_spec. exists cs. by rewrite <- app_assoc.
Qed.

Lemma total_open_beneath m parent cs : well_formed m -> way_from m parent (parent ++ cs) ->
  total E (eq m) (open_beneath parent cs) (found m (parent ++ cs)).
Proof.
  intros Hwf. revert parent. induction cs as [| c cs IH]; intros parent Hw; simpl.
  { apply total_ret. intros ? <-. split; [done |]. left. by rewrite app_nil_r. }
  eapply (total_found_next m (parent /: c)); [| by eapply total_open_child_found, way_from_child |].
  - intros Ha. split; [done |]. right. split; [done |]. apply (absent_app _ cs) in Ha. by rewrite <- app_assoc in Ha.
  - specialize (IH (parent /: c) (way_from_next _ _ _ _ Hw)). by rewrite <- app_assoc in IH.
Qed.

Lemma total_open_named m parent cs : well_formed m -> Forall (no_char "000") cs -> way_from m parent (parent ++ cs) ->
  total E (eq m) (open_named parent cs) (found m (parent ++ cs)).
Proof.
  intros Hwf Hcs. revert parent. induction Hcs as [| c cs Hc Hcs IH]; intros parent Hw; simpl.
  { apply total_ret. intros ? <-. split; [done |]. left. by rewrite app_nil_r. }
  eapply total_bind; [by apply total_cstring |]. intros x. apply total_start. intros ? [<- <-].
  eapply (total_found_next m (parent /: c)); [| by eapply total_open_child_found, way_from_child |].
  - intros Ha. split; [done |]. right. split; [done |]. apply (absent_app _ cs) in Ha. by rewrite <- app_assoc in Ha.
  - specialize (IH (parent /: c) (way_from_next _ _ _ _ Hw)). by rewrite <- app_assoc in IH.
Qed.

Lemma total_normal_components m s : Forall (no_char "000") s ->
  total E (eq m) (normal_components (Normal <$> s)) (fun r m' => s = r /\ m = m').
Proof.
  induction 1 as [| x s Hx Hs IH]; simpl; [by apply total_ret; intros ? <- |].
  eapply total_bind; [by apply total_cstring |]. intros y. apply total_start. intros ? [<- <-].
  eapply total_bind; [exact IH |]. intros z. apply total_start. intros ? [<- <-]. by apply total_ret; intros ? <-.
Qed.

Lemma absent_without p m : absent p m -> without p m m.
Proof. intros Ha q. case_decide as Hb; [| done]. apply below_spec in Hb as [s ->]. apply Ha. Qed.

Lemma absent_without_below d p m : absent d m -> below d p -> without p m m.
Proof. intros Ha [s ->]%below_spec. by apply absent_without, absent_app. Qed.

Lemma total_remove_beneath n m root tag namespace s :
  let p := (root /: tag /: namespace) ++ s in
  well_formed m -> root <> [] -> s <> [] -> open_way m p -> Forall (no_char "000") p -> shallow n p m -> clean_below p m ->
  total E (eq m) (remove_beneath_with n root tag namespace (Normal <$> s)) (fun _ m' => without p m m').
Proof.
  intros p Hwf Hroot Hs Hway Hnul Hsh Hcl. unfold remove_beneath_with.
  assert (Hp : p = root ++ [tag; namespace] ++ s) by (unfold p; by rewrite <- !app_assoc).
  assert (Hstrict : forall q r, r <> [] -> p = q ++ r -> q <> [] -> m !! q = None \/ m !! q = Some NDir).
  { intros q r Hr Hqr Hq. apply Hway; [rewrite Hqr; apply below_app | done |]. intros ->.
    apply (f_equal length) in Hqr. rewrite length_app in Hqr. destruct r; [done | simpl in Hqr; lia]. }
  assert (Hfrom : forall parent q, (exists r, r <> [] /\ p = q ++ r) -> way_from m parent q).
  { intros parent q (r & Hr & Hqr) q' [t ->]%below_spec Hn. apply (Hstrict q' (t ++ r)); [by destruct t | by rewrite app_assoc |].
    intros ->. apply Hn, below_nil. }
  destruct s as [| x s' _] using rev_ind; [done |].
  assert (Hgone : forall q r, p = q ++ r -> absent q m -> total E (eq m) (mret tt) (fun _ m' => without p m m')).
  { intros q r Hqr Ha. apply total_ret. intros ? <-. eapply absent_without_below; [exact Ha |]. rewrite Hqr. apply below_app. }
  rewrite Hp in Hnul. apply Forall_app in Hnul as [Hn1 [Hn2 Hn3]%Forall_app].
  eapply total_bind; [apply total_open_root; try done |].
  { eapply open_way_up; [exact Hway |]. rewrite Hp. apply below_app. }
  { by apply (Hstrict root ([tag; namespace] ++ s' ++ [x])). }
  intros fd. apply total_start. intros ? [<- [-> | [-> Ha]]]; [| by eapply Hgone].
  eapply total_bind; [apply total_open_named; [done | done |] |].
  { apply Hfrom. exists (s' ++ [x]). split; [by destruct s' |]. by rewrite Hp, app_assoc. }
  intros fd. apply total_start. intros ? [<- [-> | [-> Ha]]]; [| eapply Hgone, Ha; by rewrite Hp, app_assoc].
  eapply total_bind; [by apply total_normal_components |]. intros cs. apply total_start. intros ? [<- <-].
  rewrite last_snoc, removelast_last. eapply total_bind; [apply total_open_beneath; [done |] |].
  { apply Hfrom. exists [x]. split; [done |]. by rewrite Hp, <- !app_assoc. }
  assert (Hlast : p = (root ++ [tag; namespace]) ++ s' /: x) by (by rewrite Hp, <- !app_assoc).
  rewrite app_assoc in Hlast.
  intros fd. apply total_start. intros ? [<- [-> | [-> Ha]]]; [| by eapply Hgone, Ha].
  rewrite Hlast in *. by apply total_remove_entry_at.
Qed.

(** Nothing unexpected is in the way of a target's state. *)
Definition accessible (m : fsmap) (root : path) (t : host_share_target) (s : path) : Prop :=
  forall namespace, namespace = "upper" \/ namespace = "whiteouts" ->
    let p := place root t namespace s in open_way m p /\ Forall (no_char "000") p /\ clean_below p m.

(** The tree without a target's state. *)
Definition cleared (root : path) (t : host_share_target) (s : path) (m m' : fsmap) : Prop :=
  forall q, m' !! q =
    if decide (below (place root t "upper" s) q \/ below (place root t "whiteouts" s) q) then None else m !! q.

Lemma open_way_smaller m m' p : (forall q, m' !! q = None \/ m' !! q = m !! q) -> open_way m p -> open_way m' p.
Proof. intros Hm Hp q H1 H2 H3. destruct (Hm q) as [-> | ->]; [by left | by apply Hp]. Qed.

Lemma without_smaller d m m' : without d m m' -> forall q, m' !! q = None \/ m' !! q = m !! q.
Proof. intros Hw q. rewrite Hw. case_decide; [by left | by right]. Qed.

Lemma total_remove_state m root t r s namespace :
  target_for t r s -> well_formed m -> root <> [] -> s <> [] ->
  let p := place root t namespace s in open_way m p -> Forall (no_char "000") p -> clean_below p m ->
  total E (eq m) (remove_state_path_if_exists root t namespace) (fun _ m' => without p m m').
Proof.
  intros Ht Hwf Hroot Hs p Hway Hnul Hcl. unfold remove_state_path_if_exists.
  rewrite (checked_state_path_for root t namespace r s Ht).
  apply total_bind with (R := fun _ m' => m = m'); [by apply total_ret |]. intros _ w Hw. subst m.
  destruct Ht as (_ & _ & Hsuf & _). rewrite Hsuf.
  apply (total_remove_beneath (S (max_depth (w_fs w))) (w_fs w) root (t_tag t) namespace s); try done.
  apply shallow_max_depth.
Qed.

Lemma total_remove_path_state m root t r s :
  target_for t r s -> well_formed m -> root <> [] -> s <> [] -> accessible m root t s ->
  total E (eq m) (remove_path_state root t) (fun _ m' => cleared root t s m m' /\ well_formed m').
Proof.
  intros Ht Hwf Hroot Hs Hacc. unfold remove_path_state.
  rewrite bool_decide_eq_false_2 by (destruct Ht as (_ & _ & -> & _); by destruct s).
  destruct (Hacc "upper") as (Hw1 & Hn1 & Hc1); [by left |]. destruct (Hacc "whiteouts") as (Hw2 & Hn2 & Hc2); [by right |].
  eapply total_bind; [by eapply total_remove_state |]. intros []. apply total_start. intros m1 Hm1.
  assert (Hwf1 := well_formed_without _ _ _ Hwf Hm1).
  eapply total_post; [eapply (total_remove_state m1); try done |].
  - eapply open_way_smaller, Hw2. by eapply without_smaller.
  - intros x Hx. apply Hc2. destruct (without_smaller _ _ _ Hm1 (place root t "whiteouts" s ++ x)) as [He | He];
      rewrite He in Hx; [by destruct Hx | done].
  - intros ? m2 Hm2. split; [| exact (well_formed_without _ _ _ Hwf1 Hm2)]. intros q. rewrite (Hm2 q), (Hm1 q).
    repeat case_decide; tauto.
Qed.

(** ** What is read *)

Definition whiteout_at (m : fsmap) (p : path) : bool :=
  match m !! p with
  | Some NDir => bool_decide (is_Some (m !! (p /: WHITEOUT_MARKER)))
  | Some _ => true
  | None => false
  end.

Lemma total_path_metadata m p : open_way m p ->
  total E (eq m) (path_metadata p) (fun r m' => m = m' /\ r = m !! p).
Proof.
  intros Hway. eapply total_bind; [apply (total_attempt_look _ HE _ _ (fun r m' => m = m' /\
    r = match m !! p with Some n => inl n | None => inr (Io NotFound) end)) |].
  { intros ? <-. unfold lstat_in. destruct (m !! p) eqn:Hp; [done |]. by rewrite open_way_missing. }
  intros r. apply total_start. intros ? [<- ->]. destruct (m !! p); apply total_ret; by intros ? <-.
Qed.

Lemma open_way_child m p x : open_way m p -> m !! p = Some NDir -> open_way m (p /: x).
Proof.
  intros Hway Hd q Hq Hne Hqp. apply below_snoc_inv in Hq as [-> | Hq]; [done |].
  destruct (decide (q = p)) as [-> |]; [by right | by apply Hway].
Qed.

Lemma total_direct_whiteout m p : open_way m p ->
  total E (eq m) (direct_whiteout_exists p) (fun r m' => m = m' /\ r = whiteout_at m p).
Proof.
  intros Hway. eapply total_bind; [apply (total_attempt_look _ HE _ _ (fun r m' => m = m' /\
    r = match m !! p with Some n => inl n | None => inr (Io NotFound) end)) |].
  { intros ? <-. unfold lstat_in. destruct (m !! p) eqn:Hp; [done |]. by rewrite open_way_missing. }
  intros r. apply total_start. intros ? [<- ->]. unfold whiteout_at.
  destruct (m !! p) as [[] |] eqn:Hp; try (apply total_ret; by intros ? <-).
  eapply total_bind; [by apply total_path_metadata, open_way_child |]. intros n. apply total_ret. by intros ? [<- ->].
Qed.

Lemma total_first_whiteout m base l : (forall a, a ∈ l -> open_way m (base ++ a)) ->
  total E (eq m) (first_whiteout base l) (fun r m' => m = m' /\ r = find (fun a => whiteout_at m (base ++ a)) l).
Proof.
  intros Hl. induction l as [| a l IH]; simpl; [by apply total_ret; intros ? <- |].
  eapply total_bind; [apply total_direct_whiteout, Hl; left |]. intros b. apply total_start. intros ? [<- ->].
  destruct (whiteout_at m (base ++ a)); [by apply total_ret; intros ? <- |]. apply IH. intros a' Ha'. apply Hl. by right.
Qed.

Lemma nonempty_ancestors_spec s a : a ∈ nonempty_ancestors s -> exists x, s = a ++ x.
Proof.
  unfold nonempty_ancestors. generalize (length s) as n. intros n. revert s.
  induction n as [| n IH]; intros [| y s]; simpl; try (by intros ?%elem_of_nil).
  rewrite elem_of_cons. intros [-> | Ha]; [exists []; by rewrite app_nil_r |].
  change (match s with [] => [] | _ :: _ => y :: removelast s end) with (removelast (y :: s)) in Ha.
  destruct (exists_last (l := y :: s)) as (l & z & Hl); [done |]. rewrite Hl in *. rewrite removelast_last in Ha.
  destruct (IH l Ha) as [x ->]. exists (x /: z). by rewrite app_assoc.
Qed.

(** What [path_state] finds. *)
Definition state_in (m : fsmap) (root : path) (t : host_share_target) (s : path) : path_state_info :=
  let upper := place root t "upper" s in
  let whiteout := place root t "whiteouts" s in
  let upper_namespace := is_dir_node (m !! upper) && is_dir_node (m !! normal_names (t_absolute t)) in
  mk_path_state t (of_path upper) (of_path whiteout)
    (bool_decide (is_Some (m !! upper)) && negb upper_namespace)
    (whiteout_at m whiteout)
    (find (fun a => whiteout_at m ((root /: t_tag t /: "whiteouts") ++ a)) (nonempty_ancestors s))
    (upper_namespace || (is_dir_node (m !! whiteout) && negb (whiteout_at m whiteout)) ||
     (is_dir_node (m !! upper) && has_entries m upper)).

Lemma total_has_descendant m p : total E (eq m) (has_descendant_state p)
  (fun r m' => m = m' /\ r = is_dir_node (m !! p) && has_entries m p).
Proof.
  eapply total_bind; [apply (total_attempt_look _ HE _ _ (fun r m' => m = m' /\
    match r with inl n => m !! p = Some n | inr _ => m !! p = None end)) |].
  { intros ? <-. unfold lstat_in. by destruct (m !! p). }
  intros r. apply total_start. intros ? [<- Hr].
  destruct r as [[] |]; rewrite Hr; try (apply total_ret; by intros ? <-).
  eapply total_bind; [apply (total_read_dir _ HE _ _ (fun l m' => m = m' /\ l ≡ₚ entries m p)); intros ? <-; auto |].
  intros l. apply total_start. intros ? [<- Hl]. eapply total_bind; [apply total_handle_call |]. intros []. apply total_ret.
  intros ? <-. split; [done |]. unfold is_dir_node, has_entries. simpl.
  destruct l, (entries m p); [done | by apply Permutation_nil in Hl | by apply Permutation_sym, Permutation_nil in Hl | done].
Qed.

Lemma total_lift {A : Type} m (a : A) : total E (eq m) (lift (inl a)) (fun x m' => m = m' /\ x = a).
Proof. apply total_ret. by intros ? <-. Qed.

Lemma total_path_state m root t r s :
  target_for t r s ->
  (forall namespace, namespace = "upper" \/ namespace = "whiteouts" -> open_way m (place root t namespace s)) ->
  open_way m (r ++ s) -> total E (eq m) (path_state root t) (fun st m' => m = m' /\ st = state_in m root t s).
Proof.
  intros Ht Hacc Hlow. unfold path_state. rewrite !(checked_state_path_for root t _ r s Ht).
  assert (Hw1 := Hacc "upper" (or_introl eq_refl)). assert (Hw2 := Hacc "whiteouts" (or_intror eq_refl)).
  do 2 (eapply total_bind; [apply total_lift |]; intros ?; apply total_start; intros ? [<- ->]). rewrite !names_of_path.
  destruct Ht as (Htag & Hroot & Hsuf & Habs).
  eapply total_bind; [by apply total_direct_whiteout |]. intros dw. apply total_start. intros ? [<- ->].
  eapply total_bind; [by apply total_path_metadata |]. intros um. apply total_start. intros ? [<- ->].
  eapply total_bind; [apply total_path_metadata; by rewrite Habs, names_of_path |]. intros lm. apply total_start. intros ? [<- ->].
  eapply total_bind; [by apply total_path_metadata |]. intros wm. apply total_start. intros ? [<- ->].
  eapply total_bind; [unfold covering_whiteout; rewrite Hsuf, normal_names_fmap; apply total_first_whiteout |].
  { intros a [x ->]%nonempty_ancestors_spec. eapply open_way_up; [exact Hw2 |]. unfold place. rewrite app_assoc. apply below_app. }
  intros cw. apply total_start. intros ? [<- ->]. cbv zeta.
  match goal with |- context [if ?b then _ else _] => set (ns := b) end.
  apply total_bind with (R := fun r m' => m = m' /\
    r = ns || (is_dir_node (m !! place root t "upper" s) && has_entries m (place root t "upper" s))).
  - destruct ns; [apply total_ret; by intros ? <- |]. apply total_has_descendant.
  - intros ds. apply total_ret. by intros ? [<- ->].
Qed.

End succeeds.

(** ** What the sources promise *)

(** Every target of a path the user names is well formed: it has a tag
    the state layout knows, its share is an absolute path, what is below the
    share is a list of plain names, and the two make up the path itself; so its
    state has a place inside each namespace of its share, and nowhere else. *)
Theorem targets_are_places p cwd home l t :
  targets_for_path_with_home (path_components p) (path_components cwd) (path_components <$> home) = inl l -> t ∈ l ->
  exists r s, target_for t r s /\
    forall root namespace, checked_state_path root t namespace = inl (of_path (place root t namespace s)).
Proof.
  intros Hl Ht. destruct (targets_for_path _ _ _ _ _ Hl Ht) as (r & s & Hts). exists r, s. split; [done |].
  intros root namespace. by apply checked_state_path_for with r.
Qed.

(** C24: removing the state of a path changes nothing else.  Whatever the
    target, whatever is in the tree, and wherever a system call fails or the
    process is killed, only the places of the target's own names, at least one
    level inside the upper and the whiteout namespace, can change. *)
Theorem remove_path_state_confined E w root t :
  frame (removal_footprint root t) (w_fs w) (w_fs (left_by (remove_path_state root t E w))).
Proof. apply modifies_remove_path_state. Qed.

Lemma cleared_absent root t s m m' namespace : cleared root t s m m' -> namespace = "upper" \/ namespace = "whiteouts" ->
  forall q, m' !! (place root t namespace s ++ q) = None.
Proof. intros Hc Hn q. rewrite Hc, decide_True; [done |]. destruct Hn as [-> | ->]; [left | right]; apply below_app. Qed.

Lemma cleared_smaller root t s m m' : cleared root t s m m' -> forall q, m' !! q = None \/ m' !! q = m !! q.
Proof. intros Hc q. rewrite Hc. case_decide; [by left | by right]. Qed.

Lemma whiteout_at_smaller m m' p : (forall q, m' !! q = None \/ m' !! q = m !! q) ->
  whiteout_at m' p = true -> whiteout_at m p = true.
Proof.
  intros Hs. unfold whiteout_at. destruct (Hs p) as [-> | ->]; [done |]. destruct (m !! p) as [[] |]; [done | | done | done].
  rewrite !bool_decide_eq_true. by destruct (Hs (p /: WHITEOUT_MARKER)) as [-> | ->]; [intros [] |].
Qed.

Lemma accessible_smaller m m' root t s : (forall q, m' !! q = None \/ m' !! q = m !! q) ->
  accessible m root t s -> accessible m' root t s.
Proof.
  intros Hs Hacc n Hn p. destruct (Hacc n Hn) as (H1 & H2 & H3). split_and!; [by eapply open_way_smaller | done |].
  intros q Hq. apply H3. by destruct (Hs (p ++ q)) as [He | He]; rewrite He in Hq; [destruct Hq |].
Qed.

Lemma find_covering m' root t s a :
  whiteout_at m' (place root t "whiteouts" s) = false ->
  find (fun a => whiteout_at m' ((root /: t_tag t /: "whiteouts") ++ a)) (nonempty_ancestors s) = Some a ->
  whiteout_at m' ((root /: t_tag t /: "whiteouts") ++ a) = true /\ exists x, x <> [] /\ s = a ++ x.
Proof.
  intros Hs [Hin%list_elem_of_In Hw]%find_some. split; [done |]. apply nonempty_ancestors_spec in Hin as [x ->].
  exists x. split; [| done]. intros ->. rewrite app_nil_r in Hs. unfold place in Hs. congruence.
Qed.

(** The target's state is gone from [m], and [st] shows the path as the host
    has it, unless a whiteout above hides it. *)
Definition shows_clean (root : path) (t : host_share_target) (s : path) (m : fsmap) (st : path_state_info) (m' : fsmap)
    : Prop :=
  cleared root t s m m' /\
  ps_upper_exists st = false /\ ps_direct_whiteout st = false /\ ps_descendant_state st = false /\
  forall a, ps_covering_whiteout st = Some a -> exists x, x <> [] /\ s = a ++ x /\
    whiteout_at m ((root /: t_tag t /: "whiteouts") ++ a) = true.

(** Removing the state of a path removes all of it, and then the path
    shows as the host has it.  Where no system call fails and only directories
    are on the way, the removal succeeds, exactly the target's places are gone
    with everything below them, and inspecting the path finds no copy, no
    whiteout and no state below; only a whiteout that was on a directory above
    can still hide it. *)
Theorem remove_path_state_clears E w root t r s :
  faultless E -> well_formed (w_fs w) -> root <> [] -> s <> [] -> target_for t r s ->
  accessible (w_fs w) root t s -> open_way (w_fs w) (r ++ s) ->
  exists st w', (_ ← remove_path_state root t; path_state root t) E w = Ok st w' /\
    shows_clean root t s (w_fs w) st (w_fs w').
Proof.
  intros HE Hwf Hroot Hs Ht Hacc Hlow.
  enough (Htot : total E (eq (w_fs w)) (_ ← remove_path_state root t; path_state root t) (shows_clean root t s (w_fs w)))
    by exact (Htot w eq_refl).
  eapply total_bind; [by eapply total_remove_path_state |].
  intros []. apply total_start. intros m' [Hc Hwf']. assert (Hsm := cleared_smaller _ _ _ _ _ Hc).
  eapply total_post; [eapply (total_path_state E HE m' root t r s Ht) |].
  - intros n Hn. by destruct (accessible_smaller _ _ _ _ _ Hsm Hacc n Hn).
  - by eapply open_way_smaller.
  - intros st ? [<- ->]. split; [done |].
    assert (Hu := cleared_absent _ _ _ _ _ "upper" Hc (or_introl eq_refl) []).
    assert (Hw := cleared_absent _ _ _ _ _ "whiteouts" Hc (or_intror eq_refl) []). rewrite app_nil_r in Hu, Hw.
    assert (Hwh : whiteout_at m' (place root t "whiteouts" s) = false) by (unfold whiteout_at; by rewrite Hw).
    unfold state_in. simpl. rewrite Hu, Hw, Hwh. split_and!; [done.. |].
    intros a [Ha (x & Hx & ->)]%find_covering; [| done]. exists x. split_and!; [done | done |].
    by eapply whiteout_at_smaller.
Qed.
