(* ===== verification/Unshare.v ===== *)
(** * Unsharing a path

    [run_fs_unshare --remove] of [src/src/cli.rs], as a whole: recovery, a copy
    of the latest generation without the state of the path, and the commit that
    makes the copy the latest generation.  With concrete trees for the theorems
    about host-share state, and the working-directory check of
    [src/src/runner.rs] beside what it should look at. *)

From S2P Require Import Prelude FileSystem FsLogic FsUtil FsCopy FsTotal Store StoreLogic StoreSafety StorePublish StoreCopy StoreExample StoreTheorems Text Legacy HostShare HostShareTheorems.

(** ** Programs that add nothing *)

(** Nothing appears where [F] holds. *)
Definition no_new (F : path -> Prop) : relation fsmap := fun m m' =>
  forall p, F p -> m !! p = None -> m' !! p = None.

#[global] Instance no_new_preorder F : PreOrder (no_new F).
Proof. split; [by intros m p | intros m1 m2 m3 H1 H2 p Hp Hn; by apply H2, H1]. Qed.

Lemma no_new_modifies {A : Type} (F G : path -> Prop) (c : M A) :
  (forall p, F p -> ~ G p) -> modifies G c -> respects (no_new F) c.
Proof. intros HFG Hc E w p Hp Hn. rewrite (Hc E w p); [done | by apply HFG]. Qed.

Section removals.
Context (F : path -> Prop).

Lemma no_new_delete p m : no_new F m (delete p m).
Proof. intros q _ Hq. by apply lookup_delete_None; right. Qed.

Lemma no_new_remove_file p : respects (no_new F) (remove_file p).
Proof. apply respects_change; [apply _ |]. intros E w o Ho. repeat case_match; simplify_eq; apply no_new_delete. Qed.

Lemma no_new_remove_dir p : respects (no_new F) (remove_dir p).
Proof. apply respects_change; [apply _ |]. intros E w o Ho. repeat case_match; simplify_eq; apply no_new_delete. Qed.

Lemma no_new_remove_tree n p : respects (no_new F) (remove_tree n p).
Proof.
  revert p. induction n as [| n IH]; intros p; simpl; respects_tac;
    first [apply no_new_remove_file | apply no_new_remove_dir | apply IH].
Qed.

Lemma no_new_remove_path_if_exists p : respects (no_new F) (remove_path_if_exists p).
Proof.
  unfold remove_path_if_exists. respects_tac; [apply no_new_remove_file | | apply no_new_remove_file].
  intros E w. apply no_new_remove_tree.
Qed.

Lemma no_new_remove_path_state root t : respects (no_new F) (remove_path_state root t).
Proof.
  apply respects_remove_path_state; [apply _ |]. intros. apply respects_remove_entry_at; [apply _ | ..]; intros;
    [apply no_new_remove_file | apply no_new_remove_dir].
Qed.

End removals.

Section unshare.
Context `{Json record, Json manifest, Json checkpoint_ref}.
Context `{!JsonLaws record valid_record, !JsonLaws manifest valid_manifest}.
Context (dir : path) (current : process_identity).

Abbreviation gdir := (generation_dir dir).

Definition staging_place (p : path) : Prop := exists id, p = staging_dir dir id.

Lemma staging_no_trash p id : staging_place p -> ~ below (trash_dir dir id) p.
Proof. intros [i ->]. by apply entries_apart. Qed.

Lemma no_staging_rename entry id : respects (no_new staging_place) (rename entry (trash_dir dir id)).
Proof.
  apply respects_change; [apply _ |]. intros E w o (-> & _ & Hb & _)%rename_in_Some p Hp Hn. simpl.
  rewrite lookup_move by done. destruct (strip (trash_dir dir id) p) as [s |] eqn:Hs.
  - destruct (staging_no_trash p id Hp). by eexists.
  - by case_decide.
Qed.

Lemma no_staging_collect : respects (no_new staging_place) (collect_garbage dir).
Proof.
  unfold collect_garbage, collect_run, collect_entry.
  respects_tac; first [apply no_new_remove_path_if_exists | apply no_staging_rename].
Qed.

Lemma no_staging_commit latest ph : respects (no_new staging_place) (commit_record dir latest ph).
Proof.
  apply no_new_modifies with (commit_footprint (state_path dir)); [| by apply modifies_commit_file].
  intros p [i ->] Hp. assert (Hg : below (dir /: GENERATIONS_DIR) (staging_dir dir i)) by apply below_snoc.
  destruct Hp as [Hb | [i' Hb]].
  - by assert (He := below_sibling _ _ _ _ Hg Hb).
  - unfold state_path in Hb. rewrite temp_of_snoc in Hb. by assert (He := below_sibling _ _ _ _ Hg Hb).
Qed.

Lemma no_staging_recover : respects (no_new staging_place) (recover dir).
Proof.
  unfold recover. respects_tac; first [apply no_staging_commit | apply no_staging_collect].
Qed.

(** ** Deriving a generation *)

(** What [derive] leaves when it returns [id]: a copy of the generation
    [latest], edited, published and committed. *)
Definition derived (E : env) (m0 : fsmap) (latest : generation_id) (mf : manifest) (edited : path -> relation fsmap)
    (id : generation_id) (m : fsmap) : Prop :=
  good dir m (mk_record RECORD_VERSION (Some id) Stopped) /\
  exists st m1 m2 m3, id = s_id st /\ s_dir st = staging_dir dir id /\ valid_id id /\
    frame (fun q => below q (s_dir st)) m0 m1 /\
    contents_copied E (gdir latest) (s_dir st) (sorted_keys (m_files mf)) m1 m2 /\
    edited (s_dir st) m2 m3 /\ published dir m3 st (Some latest) Edited m.

Lemma t_derive E m0 rec latest mf edit edited :
  good dir m0 rec -> r_phase rec = Stopped -> r_latest rec = Some latest -> complete_as dir m0 latest mf ->
  admissible dir (Derive edit) ->
  (forall d m, d <> [] -> well_formed m -> triple E (eq m) (edit d) (fun _ m' => edited d m m') (fun _ => True)) ->
  triple E (eq m0) (derive dir edit) (derived E m0 latest mf edited)
    (fun m => kept dir m0 rec rec m \/ exists id, derived E m0 latest mf edited id m).
Proof.
  intros Hg Hph Hl Hc Hadm Hed. unfold derive. assert (Hk0 : kept dir m0 rec rec m0) by by apply good_kept. assert (Hv : valid_id latest) by (apply (complete_valid dir m0); by exists mf).
  eapply t_bind; [apply t_require_record; [done | by left] |]. intros ?. apply t_start. intros ? [-> <-].
  rewrite bool_decide_true by done. unfold latest_of. rewrite Hl.
  eapply t_bind with (R := fun o m => m0 = m /\ exists g, o = Some g /\ g_manifest g = mf /\ g_dir g = gdir latest).
  { eapply t_bind; [eapply (t_reads _ _ _ _ (fun g m => m0 = m /\ g_manifest g = mf /\ g_dir g = gdir latest));
      [apply reads_get_generation | intros ? <-; by left |] |].
    - intros ? g <- [Hc' Hd]. split_and!; [done | | done]. destruct Hc as [Hm1 _], Hc' as [Hm2 _]. congruence.
    - intros g. apply t_ret. intros m (<- & ? & ?). eauto. }
  intros o. apply t_start. intros ? (<- & g & -> & Hgm & Hgd).
  eapply t_bind with (R := fun g' m => m0 = m /\ g' = g); [by apply t_ret; intros ? <- |]. intros ?. apply t_start. intros ? [<- ->].
  unfold g_id. rewrite Hgm, Hgd. assert (m_id mf = latest) as -> by apply Hc.
  eapply t_bind; [apply t_stage; [exact Hg | by left] |]. intros st. apply t_start. intros m1 [[Hk Hf] [Hst Hid]].
  destruct (generation_staging_apart dir latest (s_id st) Hv) as [Hsd Hds]. rewrite <- Hst in Hsd, Hds.
  apply t_bind_assoc. eapply t_bind.
  { apply t_also; [| apply (t_clone_contents E (gdir latest) (s_dir st) m1); [apply Hk | done | done]].
    eapply t_conseq; [apply (kept_guards dir E m0 rec rec) | ..].
    - rewrite Hst. respects_step; [apply guards_clone_listed | apply guards_clone_shares].
    - by intros ? <-.
    - intros ? m Hm. exact Hm.
    - by left. }
  intros []. apply t_start. intros m2 [Hk2 [Hcc _]].
  eapply t_bind.
  { apply t_also; [| apply (Hed (s_dir st) m2); [rewrite Hst; unfold staging_dir, generations_dir; by destruct dir | apply Hk2]].
    eapply t_conseq; [apply (kept_guards dir E m0 rec rec), respects_guards | ..].
    - eapply modifies_mono; [| apply Hadm]. intros q Hq. rewrite Hst in Hq. apply (elsewhere_staging _ _ _ (s_id st)). by left.
    - apply Hadm.
    - by intros ? <-.
    - intros ? m Hm. exact Hm.
    - by left. }
  intros []. apply t_start. intros m3 [Hk3 He].
  eapply t_conseq; [by apply (t_publish_commit dir E m0 rec m3 st (Some latest) Edited (fun i => i)) | done | |].
  - intros i m (-> & Hg' & Hp). split; [done |]. exists st, m1, m2, m3. by split_and!.
  - intros m [Hm | [Hg' Hp]]; [by left | right]. exists (s_id st). split; [done |]. exists st, m1, m2, m3. by split_and!.
Qed.

(** ** Editing out the targets *)

(** The paths of a share state that a target's removal takes away. *)
Definition state_of (t : host_share_target) (q : path) : Prop :=
  exists namespace s u, (namespace = "upper" \/ namespace = "whiteouts") /\ s <> [] /\ t_suffix t = (Normal <$> s) /\
    q = t_tag t :: namespace :: s ++ u.

Lemma state_of_footprint root t q : removal_footprint root t (root ++ q) <-> state_of t q.
Proof.
  split.
  - intros (n & s & Hn & Hs & Ht & [u Hu]%below_spec). exists n, s, u. split_and!; [done.. |].
    unfold place in Hu. rewrite <- !app_assoc in Hu. by apply app_inv_head in Hu.
  - intros (n & s & u & Hn & Hs & Ht & ->). exists n, s. split_and!; [done.. |]. apply below_spec. exists u.
    unfold place. by rewrite <- !app_assoc.
Qed.

Lemma footprint_inside root t q : removal_footprint root t q -> below root q.
Proof.
  intros (n & s & _ & _ & _ & Hb). eapply below_trans, Hb. unfold place. rewrite <- !app_assoc. apply below_app.
Qed.

(** Nothing is left of a target's state. *)
Definition gone (root : path) (t : host_share_target) (m : fsmap) : Prop :=
  forall s namespace, t_suffix t = (Normal <$> s) -> namespace = "upper" \/ namespace = "whiteouts" ->
    absent (place root t namespace s) m.

Definition unshare_edited (targets : list host_share_target) (d : path) : relation fsmap := fun m m' =>
  frame (fun q => exists t, t ∈ targets /\ removal_footprint (d /: HOST_SHARE_STATE) t q) m m' /\
  forall t, t ∈ targets -> gone (d /: HOST_SHARE_STATE) t m'.

Lemma modifies_unshare_edit targets d :
  modifies (fun q => exists t, t ∈ targets /\ removal_footprint (d /: HOST_SHARE_STATE) t q) (unshare_edit targets d).
Proof.
  apply respects_for_each; [apply _ |]. intros t Ht. eapply modifies_mono; [| apply modifies_remove_path_state]. eauto.
Qed.

Lemma admissible_unshare targets : admissible dir (Derive (unshare_edit targets)).
Proof.
  intros d. split.
  - eapply modifies_mono; [| apply modifies_unshare_edit]. intros q (t & _ & Hq%footprint_inside). by eapply below_child.
  - apply respects_for_each; [apply _ |]. intros t _. apply keeps_form_remove_path_state.
Qed.

Lemma t_gone E root t : root <> [] ->
  triple E well_formed (remove_path_state root t) (fun _ m => gone root t m /\ well_formed m) (fun _ => True).
Proof.
  intros Hroot. apply t_keep_form; [done | apply keeps_form_remove_path_state |].
  destruct (decide (t_suffix t = (Normal <$> normal_names (t_suffix t)))) as [Hs | Hs].
  - eapply t_conseq; [by apply (t_remove_path_state E root t _ Hroot Hs) | done | | done].
    intros ? m [Hu Hw] s n Hs' [-> | ->]; rewrite Hs', normal_names_fmap in *; done.
  - eapply t_conseq; [apply t_any | done | | done]. intros ? m _ s n Hs'. destruct Hs. by rewrite Hs', normal_names_fmap.
Qed.

Lemma t_remove_targets E root l : root <> [] ->
  triple E well_formed (for_each (remove_path_state root) l) (fun _ m => forall t, t ∈ l -> gone root t m) (fun _ => True).
Proof.
  intros Hroot. induction l as [| t l IH]; simpl; [apply t_ret; by intros ? ? ? ?%elem_of_nil |].
  eapply t_bind; [by apply t_gone |]. intros []. apply t_start. intros m [Hg Hwf].
  assert (Hnn : triple E (eq m) (for_each (remove_path_state root) l) (fun _ m' => no_new (fun _ => True) m m') (fun _ => True)).
  { intros w ->. assert (Hr : respects (no_new (fun _ => True)) (for_each (remove_path_state root) l)).
    { apply respects_for_each; [apply _ |]. intros. apply no_new_remove_path_state. }
    specialize (Hr E w). by destruct (for_each _ _ E w). }
  assert (Hrest := t_pre _ (eq m) _ _ _ _ IH ltac:(by intros ? <-)).
  eapply t_conseq; [exact (t_also _ _ _ _ _ _ Hrest Hnn) | done | | done].
  intros ? m' [Hl Hn] t' [-> | Ht']%elem_of_cons; [| by apply Hl]. intros s n Hs Hns q. apply Hn; [done |]. by apply Hg.
Qed.

Lemma t_unshare_edit E targets d m : d <> [] -> well_formed m ->
  triple E (eq m) (unshare_edit targets d) (fun _ m' => unshare_edited targets d m m') (fun _ => True).
Proof.
  intros Hd Hwf. eapply t_conseq; [apply t_also; [apply t_frame, modifies_unshare_edit |] | done | | done].
  - eapply t_pre; [apply t_remove_targets; by destruct d | by intros ? <-].
  - by intros ? m' [? ?].
Qed.

(** What unsharing leaves: the new latest generation [id] is a copy of
    [latest], as it was in [m1], with every file but without the targets' state;
    the rest of the host-share state is as it was when no call failed. *)
Definition unshared (E : env) (m1 : fsmap) (latest : generation_id) (mf : manifest) (targets : list host_share_target)
    (id : generation_id) (m : fsmap) : Prop :=
  good dir m (mk_record RECORD_VERSION (Some id) Stopped) /\
  (exists mf', complete_as dir m id mf' /\ m_parent mf' = Some latest /\ m_origin mf' = Edited) /\
  (forall name, is_Some (m_files mf !! name) -> name <> HOST_SHARE_STATE -> name <> MANIFEST -> name <> PIN ->
     exists f b, m1 !! (gdir latest /: name) = Some (NFile f) /\ m !! (gdir id /: name) = Some (NFile (mk_file (f_data f) b))) /\
  (forall t, t ∈ targets -> gone (gdir id /: HOST_SHARE_STATE) t m) /\
  (calm E -> no_staging dir m1 -> m1 !! (gdir latest /: HOST_SHARE_STATE) = Some NDir ->
     forall q, (forall t, t ∈ targets -> ~ state_of t q) ->
       same_node (m1 !! ((gdir latest /: HOST_SHARE_STATE) ++ q)) (m !! ((gdir id /: HOST_SHARE_STATE) ++ q))).

Lemma derived_unshared E m1 latest mf targets id m : well_formed m1 -> valid_id latest -> complete_as dir m1 latest mf ->
  derived E m1 latest mf (unshare_edited targets) id m -> unshared E m1 latest mf targets id m.
Proof.
  intros Hwf Hv Hcas (Hg & st & ma & mb & mc & -> & Hst & Hid & Hf & [Hc Hs] & [He Hgone] & mf' & Hcomp & Hpar & Horg & _ & Ht).
  destruct (generation_staging_apart dir latest (s_id st) Hv) as [Hsd Hds]. rewrite <- Hst in Hsd, Hds.
  assert (Hsrc : forall p, below (gdir latest) p -> ma !! p = m1 !! p).
  { intros p Hp. apply Hf. intros Hb. apply Hsd. by eapply below_trans. }
  assert (Hshare : forall q, m !! ((gdir (s_id st) /: HOST_SHARE_STATE) ++ q) = mc !! ((s_dir st /: HOST_SHARE_STATE) ++ q)).
  { intros q. rewrite <- !app_assoc. by apply Ht. }
  assert (Hout : forall x s, x <> HOST_SHARE_STATE -> mc !! (s_dir st ++ x :: s) = mb !! (s_dir st ++ x :: s)).
  { intros x s Hx. apply He. intros (t & _ & Hb%footprint_inside). apply Hx.
    apply below_spec in Hb as [u Hu]. rewrite <- app_assoc in Hu. apply app_inv_head in Hu. by simplify_eq/=. }
  split_and!; [done | by exists mf' | ..].
  - intros name Hn Hne Hm Hp. destruct (Hc name) as (f & b & Hfa & Hfb); [by apply elem_of_sorted_keys |].
    exists f, b. rewrite <- (Hsrc (gdir latest /: name)) by apply below_snoc. split; [done |].
    rewrite (Ht name []) by done. by rewrite (Hout name []).
  - intros t Hin s n Hsuf Hn q. unfold place. rewrite <- !app_assoc, (app_assoc (gdir _)), Hshare.
    assert (Ha := Hgone t Hin s n Hsuf Hn q). unfold place in Ha. by rewrite <- !app_assoc, (app_assoc (s_dir st)) in Ha.
  - intros Hcalm Hns Hnd q Hq. rewrite Hshare, He.
    2:{ intros (t & Hin & Hb). apply state_of_footprint in Hb. by apply (Hq t). }
    rewrite <- (Hsrc ((gdir latest /: HOST_SHARE_STATE) ++ q)) by (rewrite <- app_assoc; apply below_app).
    apply Hs; [done | | |].
    + exists NDir. unfold stat_in. by rewrite (Hsrc _ (below_snoc _ _)), Hnd.
    + intros [size Hsize]%elem_of_sorted_keys. destruct Hcas as (_ & _ & _ & Hfiles). apply Hfiles in Hsize.
      destruct Hsize as (f & Hf' & _). congruence.
    + intros u. rewrite Hf, Hst by (intros Hb; eapply not_below_child, below_trans; [apply below_app | exact Hb]).
      by apply no_staging_absent.
Qed.

(** ** The whole command *)

Lemma t_respects {A : Type} E I `{!PreOrder I} m (c : M A) :
  respects I c -> triple E (eq m) c (fun _ m' => I m m') (fun _ => True).
Proof. intros Hc w ->. specialize (Hc E w). by destruct (c E w). Qed.

Lemma t_undiscard {A : Type} E P (c : M A) (Q X : fsmap -> Prop) :
  triple E P (_ ← c; mret tt) (fun _ => Q) X -> triple E P c (fun _ => Q) X.
Proof. intros Ht w Hw. specialize (Ht w Hw). unfold mbind, M_bind in Ht. by destruct (c E w). Qed.

(** What the command leaves when it returns [id] ... *)
Definition removed_shares (E : env) (rec : record) (targets : list host_share_target) (m0 : fsmap)
    (id : generation_id) (m : fsmap) : Prop :=
  exists rec1 m1 latest mf, commits current Recover rec rec1 /\ kept dir m0 rec rec1 m1 /\
    (no_staging dir m0 -> no_staging dir m1) /\ r_latest rec1 = Some latest /\ complete_as dir m1 latest mf /\
    unshared E m1 latest mf targets id m.

(** ... and when it fails or is cut short: the record as recovery leaves it,
    or what it leaves when it returns. *)
Definition removal_stopped (E : env) (rec : record) (targets : list host_share_target) (m0 m : fsmap) : Prop :=
  settled dir current Recover m0 rec m \/ exists id, removed_shares E rec targets m0 id m.

Lemma t_unshare E rec targets m0 : good dir m0 rec ->
  triple E (eq m0) (_ ← recover dir; derive dir (unshare_edit targets))
    (removed_shares E rec targets m0) (removal_stopped E rec targets m0).
Proof.
  intros Hg. eapply t_bind.
  { apply t_also; [| apply (t_respects E (no_new staging_place) m0), no_staging_recover].
    eapply t_conseq; [apply (t_recover dir current E m0 rec) | intros ? <-; by apply good_kept | intros ? ? Hx; exact Hx | by left]. }
  intros rv. apply t_start. intros m1 [(rec1 & Hrv & Hk) Hnn].
  assert (Hc := recovered_commits dir current _ _ _ _ Hrv).
  assert (Hph : r_phase rec1 = Stopped) by (destruct rv; simpl in Hrv; destruct_and?; by subst).
  assert (Hns : no_staging dir m0 -> no_staging dir m1) by (intros Hn id; apply Hnn; [by exists id | apply Hn]).
  assert (Hleft : forall m, kept dir m1 rec1 rec1 m -> removal_stopped E rec targets m0 m).
  { intros m Hm. left. eapply settled_new; [done |]. by eapply kept_trans. }
  assert (Hleft1 : removal_stopped E rec targets m0 m1) by (apply Hleft, good_kept, Hk).
  destruct (r_latest rec1) as [latest |] eqn:Hl.
  - destruct (proj1 Hk) as (Hwf & _ & _ & Hcl). destruct (Hcl latest Hl) as [mf Hmf].
    assert (Hv : valid_id latest) by (apply (complete_valid dir m1); by exists mf).
    assert (Hgo : forall id m, derived E m1 latest mf (unshare_edited targets) id m -> removed_shares E rec targets m0 id m).
    { intros id m Hd. exists rec1, m1, latest, mf. split_and!; [done.. |]. by apply derived_unshared. }
    eapply t_conseq; [apply (t_derive E m1 rec1 latest mf (unshare_edit targets) (unshare_edited targets)) | done | exact Hgo |];
      [apply Hk | done | done | done | apply admissible_unshare | intros; by apply t_unshare_edit |].
    intros m [Hm | [id Hm]]; [by apply Hleft | right; eauto].
  - unfold derive. eapply t_bind; [apply t_require_record; [apply Hk | exact Hleft1] |]. intros ?. apply t_start. intros ? [-> <-].
    rewrite bool_decide_true by done. unfold latest_of. rewrite Hl.
    eapply t_bind with (R := fun o m => m1 = m /\ o = None); [by apply t_ret |]. intros o. apply t_start. intros ? [<- ->].
    eapply t_bind with (R := fun _ _ => False); [apply t_fail; by intros ? <- | by intros ? ? []].
Qed.

(** C23: unsharing a path publishes a copy of the saved state without it, or
    changes nothing.  Whatever fails and wherever the process is killed: when
    the command returns, the latest generation descends from the one recovery
    left, has every file of it with its contents and nothing of the targets'
    state; otherwise the record is what recovery leaves, or that copy is the
    latest generation.  The rest of the host-share state is as it was, provided
    that no system call fails with an I/O error, nothing was staged before and
    the generation has a directory of host-share state. *)
Theorem unshare_removes E w rec locked targets :
  good dir (w_fs w) rec ->
  match unshare_remove dir locked targets E w with
  | Ok id w' => removed_shares E rec targets (w_fs w) id (w_fs w')
  | Err _ w' | Crash w' => removal_stopped E rec targets (w_fs w) (w_fs w')
  end.
Proof.
  intros Hg.
  enough (Ht : triple E (eq (w_fs w)) (unshare_remove dir locked targets)
    (removed_shares E rec targets (w_fs w)) (removal_stopped E rec targets (w_fs w))) by exact (Ht w eq_refl).
  assert (Hold : removal_stopped E rec targets (w_fs w) (w_fs w)) by (left; by apply settled_old, good_kept).
  unfold unshare_remove, with_exclusive_instance_state. destruct locked as [[|] | e].
  - eapply t_bind with (R := fun r m => exists id, r = Some id /\ removed_shares E rec targets (w_fs w) id m).
    + eapply t_bind; [by apply t_unshare |]. intros id. apply t_ret. eauto.
    + intros r. apply t_start. intros m (id & -> & Hr). by apply t_ret; intros ? <-.
  - eapply t_bind with (R := fun r m => r = None /\ m = w_fs w); [by apply t_ret |].
    intros r. apply t_start. intros ? [-> ->]. apply t_fail. by intros ? <-.
  - eapply t_bind with (R := fun _ _ => False); [apply t_fail; by intros ? <- | by intros ? ? []].
Qed.

End unshare.

(** ** Checking the working directory *)

Lemma open_way_below m p s : open_way m p -> absent p m -> open_way m (p ++ s).
Proof.
  intros Hway Ha q Hq Hne Hqp. destruct (below_app_inv _ _ _ Hq) as [Hb | Hb].
  - destruct (decide (q = p)) as [-> |]; [left; specialize (Ha []); by rewrite app_nil_r in Ha | by apply Hway].
  - apply below_spec in Hb as [u ->]. left. apply Ha.
Qed.

(** Nothing is saved where the instance kept its state before generations. *)
Definition nothing_old (dir : path) (m : fsmap) : Prop :=
  open_way m (state_root dir) /\ absent (state_root dir) m.

Lemma nothing_old_covers E dir m t r s : faultless E -> nothing_old dir m -> target_for t r s -> open_way m (r ++ s) ->
  total E (eq m) (path_state (state_root dir) t) (fun st m' => m = m' /\ ps_covering_whiteout st = None).
Proof.
  intros HE [Hway Ha] Ht Hlow. eapply total_post; [apply (total_path_state E HE m (state_root dir) t r s Ht); [| done] |].
  - intros n _. unfold place. rewrite <- !app_assoc. by apply open_way_below.
  - intros st ? [<- ->]. split; [done |]. unfold state_in. simpl.
    destruct (find _ _) as [a |] eqn:Hf; [| done]. apply find_some in Hf as [_ Hw]. unfold whiteout_at in Hw.
    by rewrite <- !app_assoc, Ha in Hw.
Qed.

Lemma total_for_each_same {A : Type} E m (f : A -> M unit) l :
  (forall a, a ∈ l -> total E (eq m) (f a) (fun _ m' => m = m')) -> total E (eq m) (for_each f l) (fun _ m' => m = m').
Proof.
  intros Hf. induction l as [| a l IH]; simpl; [by apply total_ret |].
  eapply total_bind; [apply Hf; left |]. intros []. apply total_start. intros ? <-. apply IH. intros b Hb. apply Hf. by right.
Qed.

Lemma open_way_dir m c : well_formed m -> m !! c = Some NDir -> open_way m c.
Proof.
  intros Hwf Hc q [s ->]%below_spec Hne Hq. right. apply (above_is_dir m q s); [done | done | | by rewrite Hc].
  intros ->. by rewrite app_nil_r in Hq.
Qed.

(** The check of the working directory does not see the saved state.  It
    looks for host-share state beside the store, where only the layout before
    generations kept it; once an instance has none there, the check passes for
    every directory, whatever the latest generation or the live run hides. *)
Theorem preflight_sees_only_old_state E w dir c home :
  faultless E -> well_formed (w_fs w) -> nothing_old dir (w_fs w) -> w_fs w !! c = Some NDir ->
  exists w', preflight_host_share_cwd_with_home dir (of_path c) false (path_components home) E w = Ok tt w'.
Proof.
  intros HE Hwf Hold Hdir. set (m := w_fs w) in *.
  enough (Ht : total E (eq m) (preflight_host_share_cwd_with_home dir (of_path c) false (path_components home))
    (fun _ m' => m = m')) by (destruct (Ht w eq_refl) as ([] & w' & Hw & _); by exists w').
  unfold preflight_host_share_cwd_with_home. rewrite names_of_path.
  apply total_bind with (R := fun b m' => m = m' /\ b = true).
  { eapply total_bind; [apply (total_attempt_look _ HE _ _ (fun r m' => m = m' /\ r = inl NDir)) |].
    - intros ? <-. unfold stat_in. by rewrite Hdir.
    - intros r. apply total_start. intros ? [<- ->]. by apply total_ret; intros ? <-. }
  intros b. apply total_start. intros ? [<- ->]. cbn [negb]. apply total_for_each_same. intros t Ht.
  unfold targets_for_absolute_path in Ht. rewrite normalize_of_path in Ht. simpl in Ht.
  destruct (targets_normalized c c _ t (absolute_home_of (Some home)) Ht) as (r & s & Hts & Hrs).
  eapply total_bind; [eapply (nothing_old_covers E dir m t r s HE Hold Hts); rewrite <- Hrs; by apply open_way_dir |].
  intros st. apply total_start. intros ? [<- ->]. by apply total_ret.
Qed.

(** ** Executable conditions *)

Lemma below_prefix p q d : below q p -> q <> [] -> (d ++ q) ∈ prefixes d p.
Proof.
  intros [s ->]%below_spec Hq. revert d. induction q as [| x q IH]; intros d; [done |]. simpl.
  destruct q as [| y q]; [by left |]. right. specialize (IH ltac:(done) (d /: x)). by rewrite <- app_assoc in IH.
Qed.

Definition open_way_b (m : fsmap) (p : path) : bool :=
  forallb (fun q => bool_decide (q = p) || match m !! q with None | Some NDir => true | Some _ => false end) (prefixes [] p).

Lemma open_way_b_sound m p : open_way_b m p = true -> open_way m p.
Proof.
  unfold open_way_b. rewrite forallb_forall. intros Hb q Hq Hne Hqp.
  specialize (Hb q). rewrite <- list_elem_of_In in Hb. specialize (Hb (below_prefix p q [] Hq Hne)).
  rewrite bool_decide_eq_false_2 in Hb by done. destruct (m !! q) as [[] |]; auto; done.
Qed.

Definition clean_name_b (x : string) : bool :=
  bool_decide (x <> ".") && bool_decide (x <> "..") && negb (contains_char "000" x).

Definition clean_below_b (m : fsmap) (p : path) : bool :=
  forallb (fun kv : path * node => match strip p kv.1 with Some s => forallb clean_name_b s | None => true end) (map_to_list m).

Lemma clean_below_b_sound m p : clean_below_b m p = true -> clean_below p m.
Proof.
  unfold clean_below_b. rewrite forallb_forall. intros Hb s [n Hn].
  specialize (Hb (p ++ s, n)). rewrite <- list_elem_of_In, elem_of_map_to_list in Hb. specialize (Hb Hn). simpl in Hb.
  rewrite strip_app, forallb_forall in Hb. apply Forall_forall. intros x Hx%list_elem_of_In. specialize (Hb x Hx).
  unfold clean_name_b in Hb. rewrite !andb_true_iff, !bool_decide_eq_true, negb_true_iff in Hb. by destruct Hb as [[? ?] ?].
Qed.

Definition accessible_b (m : fsmap) (root : path) (t : host_share_target) (s : path) : bool :=
  forallb (fun namespace => let p := place root t namespace s in
    open_way_b m p && forallb (fun x => negb (contains_char "000" x)) p && clean_below_b m p) ["upper"; "whiteouts"].

Lemma accessible_b_sound m root t s : accessible_b m root t s = true -> accessible m root t s.
Proof.
  unfold accessible_b. rewrite forallb_forall. intros Hb n Hn p. specialize (Hb n). rewrite !andb_true_iff in Hb.
  destruct Hb as [[H1 H2] H3]; [by destruct Hn as [-> | ->]; [left | right; left] |].
  split_and!; [by apply open_way_b_sound | | by apply clean_below_b_sound].
  apply Forall_forall. intros x Hx%list_elem_of_In. rewrite forallb_forall in H2. by apply negb_true_iff, H2.
Qed.

(** ** A concrete instance *)

(** The latest generation has a copy of [/h/a] and hides [/h/b]; both are on
    the host. *)
Definition share_edit (d : path) : M unit :=
  let home := d /: HOST_SHARE_STATE /: "home" in
  _ ← create_dir_all (home /: "upper");
  _ ← fs_write (home /: "upper" /: "a") [x01];
  _ ← create_dir_all (home /: "whiteouts" /: "b");
  fs_write (home /: "whiteouts" /: "b" /: WHITEOUT_MARKER) [].

Definition shared : world :=
  left_by ((_ ← create_dir_all ["h"; "b"]; _ ← fs_write ["h"; "a"] [x02]; derive demo_dir share_edit) quiet demo).

Definition shared_root : path :=
  generation_dir demo_dir (default "" (r_latest (demo_record shared))) /: HOST_SHARE_STATE.

Definition shared_target : host_share_target :=
  mk_target "home" (of_path ["h"]) [Normal "a"] (of_path ["h"; "a"]).

(** The path [a/../a] is refused, [/h//./a] is the name [a] below the
    share [/h]. *)
Lemma targets_are_places_witness :
  exists r s, target_for shared_target r s /\
    forall root namespace, checked_state_path root shared_target namespace = inl (of_path (place root shared_target namespace s)).
Proof.
  apply (targets_are_places "/h//./a" "/w" (Some "/h") [shared_target]).
  - vm_compute. reflexivity.
  - left.
Defined.

(** The copy of [/h/a] goes. *)
Lemma remove_path_state_clears_witness :
  exists st w', (_ ← remove_path_state shared_root shared_target; path_state shared_root shared_target) quiet shared = Ok st w' /\
    shows_clean shared_root shared_target ["a"] (w_fs shared) st (w_fs w').
Proof.
  apply (remove_path_state_clears quiet shared shared_root shared_target ["h"] ["a"]).
  - intros t. reflexivity.
  - apply well_formed_b_sound. vm_compute. reflexivity.
  - discriminate.
  - discriminate.
  - repeat split. by left.
  - apply accessible_b_sound. vm_compute. reflexivity.
  - apply open_way_b_sound. vm_compute. reflexivity.
Defined.

(** C23: and the new latest generation has no copy of it. *)
Lemma unshare_removes_witness :
  match unshare_remove demo_dir (inl true) [shared_target] quiet shared with
  | Ok id w' => removed_shares demo_dir demo_process quiet (demo_record shared) [shared_target] (w_fs shared) id (w_fs w')
  | _ => False
  end.
Proof.
  assert (H := unshare_removes demo_dir demo_process quiet shared (demo_record shared) (inl true) [shared_target]
    ltac:(apply good_b_sound; vm_compute; reflexivity)).
  assert (Hok : is_ok (unshare_remove demo_dir (inl true) [shared_target] quiet shared) = true) by (vm_compute; reflexivity).
  destruct (unshare_remove demo_dir (inl true) [shared_target] quiet shared) as [id w' | e w' | w'];
    [exact H | discriminate Hok | discriminate Hok].
Defined.

Definition hidden_by (o : outcome (list path_state_info)) : list (option path) :=
  match o with Ok l _ => ps_covering_whiteout <$> l | _ => [] end.

(** The latest generation hides [/h/b], as inspecting it shows, and the
    check lets a command start there. *)
Lemma preflight_sees_only_old_state_witness :
  hidden_by (unshare_inspect demo_dir [mk_target "home" (of_path ["h"]) [Normal "b"] (of_path ["h"; "b"])] quiet shared) = [Some ["b"]] /\
  exists w', preflight_host_share_cwd_with_home demo_dir (of_path ["h"; "b"]) false (path_components "/h") quiet shared = Ok tt w'.
Proof.
  split.
  - vm_compute. reflexivity.
  - apply (preflight_sees_only_old_state quiet shared demo_dir ["h"; "b"] "/h").
    + intros t. reflexivity.
    + apply well_formed_b_sound. vm_compute. reflexivity.
    + split; [apply open_way_b_sound; vm_compute; reflexivity |].
      apply absent_intro; [apply well_formed_b_sound; vm_compute; reflexivity | discriminate | vm_compute; reflexivity].
    + vm_compute. reflexivity.
Defined.
