(* ===== verification/Snapshots.v ===== *)
(** * Resuming a memory snapshot

    What a snapshot records about the VM it was taken of, and the checks that
    decide whether it can be resumed: [src/src/runner/snapshots.rs],
    [src/src/runner/launch_meta.rs] and [src/src/runner/deterministic.rs], with
    the ext4 superblock of [src/src/init.rs] and the arguments an owner is
    restarted with ([owner_restart_args] of [src/src/runner.rs]).

    A [PathBuf] of a configuration is its text; two of them are equal when
    their components are ([path_eq]).  JSON, SHA-256 and the home directory of
    the user are parameters. *)

From S2P Require Import Prelude FileSystem FsLogic FsUtil Store Text Protocol Broker Paths Legacy HostShare.

(** ** Little-endian integers *)

Definition from_le_bytes (l : bytes) : N := foldr (fun b n => Byte.to_N b + 256 * n)%N 0%N l.

Definition byte_of_N (n : N) : byte := default x00 (Byte.of_N (n `mod` 256)).

Fixpoint to_le_bytes (w : nat) (n : N) : bytes :=
  match w with
  | O => []
  | S w' => byte_of_N n :: to_le_bytes w' (n / 256)
  end.

(** ** The header of a memory snapshot *)

Definition SNAPSHOT_VMSTATE_VERSION : N := 4.

Record snapshot_vm_config := mk_vm_config {
  sv_version : N;
  sv_memory_bytes : N;
  sv_vcpu_count : N;
}.

Definition memory_mib (c : snapshot_vm_config) : N := sv_memory_bytes c / 1024 / 1024.

Definition vm_config_matches (c : snapshot_vm_config) (cpus mib : N) : bool :=
  bool_decide (sv_vcpu_count c = cpus) && bool_decide (memory_mib c = mib).

(** The bytes [a..b] of a header. *)
Definition slice (a b : nat) (l : bytes) : bytes := take (b - a) (drop a l).

Definition VMSTATE_MAGIC : bytes := to_bytes "LKRNSS01".

Definition parse_vm_config (header : bytes) : snapshot_vm_config + error :=
  if negb (bool_decide (slice 0 8 header = VMSTATE_MAGIC)) then inr (Bail "bad snapshot magic")
  else
    let version := from_le_bytes (slice 8 12 header) in
    if negb (bool_decide (version = SNAPSHOT_VMSTATE_VERSION)) then inr (Bail "unsupported snapshot version")
    else inl (mk_vm_config version (from_le_bytes (slice 16 24 header)) (from_le_bytes (slice 32 36 header))).

(** [File::open] and [read_exact] of the first [n] bytes from [offset]. *)
Definition read_exact_at (p : path) (offset n : nat) : M bytes :=
  _ ← look (fun m => match stat_in m p with inl nd => inl nd | inr k => inr k end);
  look (fun m =>
    match read_in m p with
    | inl data =>
        if (offset + n <=? length data) then inl (take n (drop offset data)) else inr OtherIo
    | inr k => inr k
    end).

Definition get_snapshot_vm_config (snapshot : path) : M (option snapshot_vm_config) :=
  let p := snapshot /: "vmstate.bin" in
  there ← path_exists p;
  if negb there then mret None
  else
    header ← read_exact_at p 0 40;
    c ← lift (parse_vm_config header);
    mret (Some c).

(** ** The guest agent a snapshot runs *)

Record agent_stamp := mk_stamp { as_source : option string; as_protocol : option N }.

Definition find_prefixed (pre : string) (l : list string) : option string :=
  head (omap (strip_prefix pre) l).

Definition stamp_key (stamp : string) : option string :=
  match find_prefixed "source=" (lines stamp) with
  | Some value => Some ("source=" +:+ value)
  | None => (fun value => "sha256=" +:+ value) <$> find_prefixed "sha256=" (lines stamp)
  end.

Definition read_ok (p : path) : M (option string) :=
  r ← attempt (read_to_string p); mret (match r with inl s => Some s | inr _ => None end).

Definition initramfs_stamp_key (p : path) : M (option string) :=
  s ← read_ok p; mret (s ≫= stamp_key).

Definition stamp_protocol (stamp : string) : option N :=
  find_prefixed "protocol=" (lines stamp) ≫= parse_unsigned 65536.

Definition read_agent_stamp (p : path) : M agent_stamp :=
  s ← read_ok p;
  source ← initramfs_stamp_key p;
  mret (mk_stamp source (s ≫= stamp_protocol)).

Definition agent_incompatibility (snapshot current : agent_stamp) (deterministic : bool) : option string :=
  let different :=
    if negb (bool_decide (is_Some (as_source snapshot))) || negb (bool_decide (as_source snapshot = as_source current))
    then Some "it was taken by a different version of the lnx guest agent" else None in
  if deterministic then different
  else
    match as_protocol snapshot, as_protocol current with
    | Some s, Some c =>
        if (s <=? c)%N && agent_protocol_supported s then None
        else Some ("its guest agent speaks lnx protocol " +:+ pretty s +:+ ", this lnx speaks " +:+ pretty c)
    | _, _ => different
    end.

Definition snapshot_agent_incompatibility (snapshot_path current_stamp : path) (deterministic : bool)
    : M (option string) :=
  snapshot ← read_agent_stamp (snapshot_path /: "initramfs.stamp");
  current ← read_agent_stamp current_stamp;
  mret (agent_incompatibility snapshot current deterministic).

(** ** Launch metadata *)

Record vhost_user_fs_mount := mk_vhost {
  vh_tag : string;
  vh_mountpoint : string;
  vh_socket : string;
  vh_read_only : bool;
}.

#[global] Instance vhost_user_fs_mount_eq_dec : EqDecision vhost_user_fs_mount.
Proof. solve_decision. Defined.

Record deterministic_config := mk_deterministic { seed : string }.

Record run_config := mk_config {
  cfg_layout : layout;
  cfg_cwd : string;
  cfg_cpus : N;
  cfg_memory_mib : N;
  cfg_nested_kvm : bool;
  cfg_restore_snapshot : option string;
  cfg_forwards : list port_forward;
  cfg_no_host_shares : bool;
  cfg_vhost_user_fs : list vhost_user_fs_mount;
  cfg_deterministic : option deterministic_config;
  cfg_trace_events : bool;
}.

Record launch_shares := mk_shares {
  ls_no_host_shares : bool;
  ls_host_home : option string;
  ls_outside_home_cwd : option string;
}.

Record launch_metadata := mk_launch {
  lm_version : N;
  lm_owner_args : list string;
  lm_dax : bool;
  lm_shares : launch_shares;
  lm_vhost_user_fs : list vhost_user_fs_mount;
}.

Definition LAUNCH_METADATA : string := "launch.json".
Definition LAUNCH_METADATA_VERSION : N := 2.

(** [PathBuf]'s equality *)
Definition path_eq (a b : string) : bool := bool_decide (path_components a = path_components b).

Definition option_path_eq (a b : option string) : bool :=
  match a, b with
  | Some a, Some b => path_eq a b
  | None, None => true
  | _, _ => false
  end.

Definition mount_eq (a b : vhost_user_fs_mount) : bool :=
  bool_decide (vh_tag a = vh_tag b) && bool_decide (vh_mountpoint a = vh_mountpoint b) &&
  path_eq (vh_socket a) (vh_socket b) && bool_decide (vh_read_only a = vh_read_only b).

Fixpoint mounts_eq (a b : list vhost_user_fs_mount) : bool :=
  match a, b with
  | [], [] => true
  | x :: a', y :: b' => mount_eq x y && mounts_eq a' b'
  | _, _ => false
  end.

Definition launch_metadata_matches_ignoring_cwd (snapshot current : launch_metadata) : bool :=
  bool_decide (lm_version snapshot = lm_version current) && bool_decide (lm_dax snapshot = lm_dax current) &&
  bool_decide (ls_no_host_shares (lm_shares snapshot) = ls_no_host_shares (lm_shares current)) &&
  option_path_eq (ls_host_home (lm_shares snapshot)) (ls_host_home (lm_shares current)) &&
  mounts_eq (lm_vhost_user_fs snapshot) (lm_vhost_user_fs current).

(** [Ord] of the tuple the mounts are sorted by. *)
Definition bool_compare (a b : bool) : comparison :=
  match a, b with false, true => Lt | true, false => Gt | _, _ => Eq end.

Definition mount_compare (a b : vhost_user_fs_mount) : comparison :=
  match String.compare (vh_tag a) (vh_tag b) with
  | Eq =>
      match String.compare (vh_mountpoint a) (vh_mountpoint b) with
      | Eq =>
          match path_compare (path_components (vh_socket a)) (path_components (vh_socket b)) with
          | Eq => bool_compare (vh_read_only a) (vh_read_only b)
          | c => c
          end
      | c => c
      end
  | c => c
  end.

Definition mount_le (a b : vhost_user_fs_mount) : Prop := mount_compare a b <> Gt.

#[global] Instance mount_le_dec : RelDecision mount_le.
Proof. unfold mount_le. intros a b. destruct (mount_compare a b); [left | left | right]; congruence. Defined.

Definition normalized_vhost_user_fs (mounts : list vhost_user_fs_mount) : list vhost_user_fs_mount :=
  merge_sort mount_le mounts.

Definition mount_value (m : vhost_user_fs_mount) : string :=
  vh_tag m +:+ ":" +:+ vh_mountpoint m +:+ ":" +:+ vh_socket m +:+ ":" +:+ (if vh_read_only m then "ro" else "rw").

Definition vhost_user_fs_launch_value (mounts : list vhost_user_fs_mount) : string :=
  join ";" (mount_value <$> normalized_vhost_user_fs mounts).

Definition optional_path_display (p : option string) : string := default "<absent>" p.

Definition describe_host_share_cache (dax : bool) : string := if dax then "dax" else "nodax".

Definition enabled (no_host_shares : bool) : string := if no_host_shares then "disabled" else "enabled".

Definition mismatch (what snapshot current : string) : string :=
  what +:+ ": snapshot=" +:+ snapshot +:+ " current=" +:+ current.

Definition launch_mismatches (s c : launch_metadata) : list string :=
  (if bool_decide (ls_no_host_shares (lm_shares s) = ls_no_host_shares (lm_shares c)) then []
   else [mismatch "host-shares" (enabled (ls_no_host_shares (lm_shares s))) (enabled (ls_no_host_shares (lm_shares c)))]) ++
  (if bool_decide (lm_dax s = lm_dax c) then []
   else [mismatch "host-share-cache" (describe_host_share_cache (lm_dax s)) (describe_host_share_cache (lm_dax c))]) ++
  (if option_path_eq (ls_host_home (lm_shares s)) (ls_host_home (lm_shares c)) then []
   else [mismatch "home" (optional_path_display (ls_host_home (lm_shares s)))
           (optional_path_display (ls_host_home (lm_shares c)))]) ++
  (if mounts_eq (normalized_vhost_user_fs (lm_vhost_user_fs s)) (normalized_vhost_user_fs (lm_vhost_user_fs c)) then []
   else [mismatch "vhost-user-fs" (vhost_user_fs_launch_value (lm_vhost_user_fs s))
           (vhost_user_fs_launch_value (lm_vhost_user_fs c))]).

Definition IGNORED_FIELDS : string := "share_mismatch: launch metadata differs only in ignored fields".

Definition describe_launch_mismatch (snapshot current : launch_metadata) : string :=
  match launch_mismatches snapshot current with
  | [] => IGNORED_FIELDS
  | l => "share_mismatch: " +:+ join "; " l
  end.

(** ** The arguments an owner is restarted with *)

Definition forward_spec (f : port_forward) : string :=
  listen_host f +:+ ":" +:+ pretty (listen_port f) +:+ ":" +:+ guest_host f +:+ ":" +:+ pretty (guest_port f).

Definition vhost_user_fs_arg (m : vhost_user_fs_mount) : string :=
  "tag=" +:+ vh_tag m +:+ ",mount=" +:+ vh_mountpoint m +:+ ",socket=" +:+ vh_socket m +:+
  (if vh_read_only m then ",ro" else "").

Definition flag (b : bool) (name : string) : list string := if b then [name] else [].

Definition owner_restart_args (c : run_config) : list string :=
  ["--instance"; lo_instance (cfg_layout c); "--kernel"; path_text (lo_kernel (cfg_layout c));
   "--cpus"; pretty (cfg_cpus c); "--memory-mib"; pretty (cfg_memory_mib c)] ++
  flag (cfg_nested_kvm c) "--nested-kvm" ++
  flag (cfg_no_host_shares c) "--no-host-shares" ++
  match cfg_deterministic c with Some d => ["--deterministic"; seed d] | None => [] end ++
  flag (cfg_trace_events c) "--trace-events" ++
  concat ((fun f => ["--forward"; forward_spec f]) <$> cfg_forwards c) ++
  concat ((fun m => ["--vhost-user-fs"; vhost_user_fs_arg m]) <$> cfg_vhost_user_fs c) ++
  ["_vm-owner"; "--cwd"; cfg_cwd c] ++
  match cfg_restore_snapshot c with Some s => ["--restore"; s] | None => [] end.

Definition vhost_user_fs_guest_env (mounts : list vhost_user_fs_mount) : string :=
  join ";" ((fun m => vh_tag m +:+ ":" +:+ vh_mountpoint m +:+ ":" +:+ (if vh_read_only m then "ro" else "rw")) <$> mounts).

Section launch.
Context `{Json launch_metadata}.
(** [dirs::home_dir] *)
Context (home_dir : option string).

Definition host_home_for_cwd (cwd : string) : string + error :=
  match path_components cwd with
  | RootDir :: Normal "Users" :: user :: _ =>
      inl ("/Users/" +:+ match user with Normal s => s | ParentDir => ".." | _ => "." end)
  | _ => match home_dir with Some h => inl h | None => inr (Bail "host home directory") end
  end.

Definition outside_home (cwd host_home : string) : option string :=
  if path_starts_with (path_components cwd) (path_components host_home) then None else Some cwd.

Definition shares_for (no_host_shares : bool) (host_home : string) (outside_home_cwd : option string) : launch_shares :=
  mk_shares no_host_shares (if no_host_shares then None else Some host_home)
    (if no_host_shares then None else outside_home_cwd).

Definition launch_metadata_for_parts (c : run_config) (host_home : string) (outside_home_cwd : option string)
    (no_host_shares dax : bool) : launch_metadata :=
  mk_launch LAUNCH_METADATA_VERSION (owner_restart_args c) dax (shares_for no_host_shares host_home outside_home_cwd)
    (cfg_vhost_user_fs c).

Definition host_share_cache_metadata : bool := true.

Definition launch_metadata_for_config (c : run_config) : launch_metadata + error :=
  match host_home_for_cwd (cfg_cwd c) with
  | inr e => inr e
  | inl host_home =>
      inl (launch_metadata_for_parts c host_home (outside_home (cfg_cwd c) host_home) (cfg_no_host_shares c)
             host_share_cache_metadata)
  end.

Definition write_launch_metadata (p : path) (metadata : launch_metadata) : M unit :=
  fs_write p (to_vec_pretty metadata).

(** An [InvalidData] error is one of the other kinds. *)
Definition read_launch_metadata (snapshot_path : path) : M launch_metadata :=
  data ← fs_read (snapshot_path /: LAUNCH_METADATA);
  match from_slice data with
  | Some metadata => mret metadata
  | None => fail (Io OtherIo)
  end.

Definition snapshot_launch_incompatibility (snapshot_path : path) (current : launch_metadata) : M (option string) :=
  r ← attempt (read_launch_metadata snapshot_path);
  mret (match r with
        | inl snapshot =>
            if launch_metadata_matches_ignoring_cwd snapshot current then None
            else Some (describe_launch_mismatch snapshot current)
        | inr (Io NotFound) => Some "launch_metadata: snapshot has no launch.json"
        | inr _ => Some "launch_metadata_unreadable"
        end).

Definition snapshot_shares_incompatibility_for_import (snapshot_path : path) (cwd : string) (no_host_shares : bool)
    : M (option string) :=
  host_home ← lift (host_home_for_cwd cwd);
  snapshot_launch_incompatibility snapshot_path
    (mk_launch LAUNCH_METADATA_VERSION [] host_share_cache_metadata
       (shares_for no_host_shares host_home (outside_home cwd host_home)) []).

Record share_layout := mk_share_layout {
  sl_host_home : string;
  sl_outside_home_cwd : option string;
  sl_no_host_shares : bool;
}.

Definition snapshot_share_layout (snapshot_path : path) : M (option (launch_metadata * share_layout)) :=
  r ← attempt (read_launch_metadata snapshot_path);
  match r with
  | inl metadata =>
      let shares := lm_shares metadata in
      mret (Some (metadata, mk_share_layout (default "" (ls_host_home shares)) (ls_outside_home_cwd shares)
                              (ls_no_host_shares shares)))
  | inr (Io NotFound) => mret None
  | inr e => fail e
  end.

End launch.

(** ** Deterministic runs *)

Definition RESTORE_ENTROPY_BYTES : nat := 64.
Definition DETERMINISTIC_CLOCK_STATE : string := "deterministic-clock.state".
Definition DETERMINISTIC_TIMER_JUMPS : string := "deterministic-timer-jumps.log".
Definition DETERMINISTIC_TIMER_JUMPS_CURSOR : string := "deterministic-timer-jumps.cursor".

Definition NL : string := String "010" EmptyString.
Definition NUL : string := String "000" EmptyString.

(** A line [key=value] of a stamp. *)
Definition stamp_line (kv : string * string) : string := kv.1 +:+ "=" +:+ kv.2 +:+ NL.

Definition stamp_text (fields : list (string * string)) : string := foldr (fun kv s => stamp_line kv +:+ s) EmptyString fields.

Definition enabled_fields (seed : string) : list (string * string) :=
  [("deterministic", "enabled-v1"); ("seed", seed); ("initial_realtime_unix_secs", "0");
   ("clock_state", "deterministic-clock-state-v1"); ("restore_timer_rebase", "disabled-v1");
   ("virtual_counter", "kvm-controlled-counter-v1"); ("kvm_halt_poll", "disabled-v1"); ("kvm_wfi_exit", "enabled-v1");
   ("host_activity_gate", "broker-and-device-idle-v1"); ("rtc", "deterministic-zero-v1");
   ("trng", "deterministic-smccc-v1"); ("virtio_rng", "deterministic-stateless-v1"); ("vsock_timesync", "disabled-v1");
   ("restore_entropy", "sha256-seed-v1"); ("exec_user", "uid1000-gid1000-lnxuser"); ("exec_env", "c-utf8-utc-v1");
   ("exec_tty", "none-24x80-xterm-256color-v1"); ("network", "gvproxy-fixed-v1")].

Definition deterministic_stamp_content (config : option deterministic_config) : string :=
  match config with
  | Some config => stamp_text (enabled_fields (seed config))
  | None => stamp_text [("deterministic", "disabled-v1")]
  end.

(** [parse_shares_stamp]: of a repeated key the last value stays. *)
Definition parse_shares_stamp (stamp : string) : gmap string string :=
  foldl (fun m kv => <[kv.1 := kv.2]> m) ∅ (omap (split_once "=") (lines stamp)).

Definition stamp_keys : list string := fst <$> enabled_fields "".

Definition stamp_mismatch (snapshot current : gmap string string) (key : string) : option string :=
  let s := default "<absent>" (snapshot !! key) in
  let c := default "<absent>" (current !! key) in
  if bool_decide (s = c) then None else Some (mismatch key s c).

Definition describe_deterministic_stamp_mismatch (snapshot current : string) : string :=
  match omap (stamp_mismatch (parse_shares_stamp snapshot) (parse_shares_stamp current)) stamp_keys with
  | [] => "snapshot and current deterministic stamps differ only in unrecognized fields"
  | l => join "; " l
  end.

(** What reading a stamp says about running with the stamp [current]: why not,
    if not. *)
Definition stamp_incompatibility (r : string + error) (current : string) : option string :=
  match r with
  | inl stamp => if bool_decide (stamp = current) then None else Some (describe_deterministic_stamp_mismatch stamp current)
  | inr (Io NotFound) =>
      if bool_decide (current = deterministic_stamp_content None) then None
      else Some "snapshot has no deterministic compatibility stamp"
  | inr _ => Some "deterministic_stamp_unreadable"
  end.

Definition snapshot_deterministic_incompatibility (snapshot_path : path) (current : string) : M (option string) :=
  r ← attempt (read_to_string (snapshot_path /: "deterministic.stamp"));
  mret (stamp_incompatibility r current).

Definition validate_runtime_deterministic_compatibility (run_dir : path) (deterministic : option deterministic_config)
    : M unit :=
  let current := deterministic_stamp_content deterministic in
  r ← attempt (read_to_string (run_dir /: "deterministic.stamp"));
  match r with
  | inl stamp =>
      if bool_decide (stamp = current) then mret tt
      else bail "running VM deterministic stamp is incompatible"
  | inr (Io NotFound) =>
      if bool_decide (current = deterministic_stamp_content None) then mret tt
      else bail "running VM has no deterministic compatibility stamp"
  | inr e => fail e
  end.

(** *** The virtual clock *)

Record clock_state := mk_clock {
  realtime_unix_nanos : N;
  monotonic_nanos : N;
  counter_frequency_hz : N;
  event_sequence : N;
  timer_jump_count : N;
  last_timer_deadline_ticks : N;
}.

Definition initial_deterministic_clock_state : clock_state := mk_clock 0 0 1000000000 0 0 0.

Definition CLOCK_STATE_VERSION : string := "deterministic-clock-state-v1".

Definition clock_fields (s : clock_state) : list (string * string) :=
  [("clock_state", CLOCK_STATE_VERSION);
   ("realtime_unix_nanos", pretty (realtime_unix_nanos s)); ("monotonic_nanos", pretty (monotonic_nanos s));
   ("counter_frequency_hz", pretty (counter_frequency_hz s)); ("event_sequence", pretty (event_sequence s));
   ("timer_jump_count", pretty (timer_jump_count s));
   ("last_timer_deadline_ticks", pretty (last_timer_deadline_ticks s))].

Definition deterministic_clock_state_content (s : clock_state) : string := stamp_text (clock_fields s).

Definition u64 : N := 2 ^ 64.

Definition parse_clock_state_u64 (fields : gmap string string) (key : string) : option N :=
  fields !! key ≫= parse_unsigned u64.

Definition parse_deterministic_clock_state (raw : string) : option clock_state :=
  let fields := parse_shares_stamp raw in
  if bool_decide (fields !! "clock_state" = Some CLOCK_STATE_VERSION) then
    rt ← parse_clock_state_u64 fields "realtime_unix_nanos";
    mono ← parse_clock_state_u64 fields "monotonic_nanos";
    freq ← parse_clock_state_u64 fields "counter_frequency_hz";
    seq ← parse_clock_state_u64 fields "event_sequence";
    jumps ← parse_clock_state_u64 fields "timer_jump_count";
    ticks ← parse_clock_state_u64 fields "last_timer_deadline_ticks";
    Some (mk_clock rt mono freq seq jumps ticks)
  else None.

Definition parse_clock (raw : string) : M clock_state :=
  context (parse_deterministic_clock_state raw) "parse deterministic clock state".

Definition read_deterministic_clock_state (snapshot : path) : M clock_state :=
  raw ← read_to_string (snapshot /: DETERMINISTIC_CLOCK_STATE); parse_clock raw.

Definition write_deterministic_clock_state (p : path) (s : clock_state) : M unit :=
  fs_write p (to_bytes (deterministic_clock_state_content s)).

Definition deterministic_clock_state_for_start (deterministic : option deterministic_config) (restore_snapshot : option path)
    : M (option clock_state) :=
  match deterministic, restore_snapshot with
  | None, _ => mret None
  | Some _, None => mret (Some initial_deterministic_clock_state)
  | Some _, Some snapshot => s ← read_deterministic_clock_state snapshot; mret (Some s)
  end.

Definition ensure_deterministic_clock_state_file (initramfs_stamp : path) (state : option clock_state) : M unit :=
  match state with
  | None => mret tt
  | Some state =>
      let p := with_file_name initramfs_stamp DETERMINISTIC_CLOCK_STATE in
      there ← path_exists p;
      if (there : bool) then mret tt else write_deterministic_clock_state p state
  end.

(** *** The event trace *)

Inductive trace_value := TText (s : string) | TInteger (z : Z) | TBlob (b : bytes).

Record trace_field := mk_field { tf_key : string; tf_ordinal : option Z; tf_value : trace_value }.

Definition trace_text (key value : string) : trace_field := mk_field key None (TText value).
Definition trace_text_ordinal (key : string) (ordinal : Z) (value : string) : trace_field :=
  mk_field key (Some ordinal) (TText value).
Definition trace_integer (key : string) (value : Z) : trace_field := mk_field key None (TInteger value).
Definition trace_bool (key : string) (value : bool) : trace_field := trace_integer key (if value then 1 else 0).
Definition trace_blob (key : string) (value : bytes) : trace_field := mk_field key None (TBlob value).

(** The [events] table, whose key is the sequence number, and the next one. *)
Record trace_log := mk_trace {
  tr_next : Z;
  tr_rows : list (Z * (string * list trace_field));
}.

Definition i64_max : Z := 2 ^ 63 - 1.

Definition i64_saturating_add (a b : Z) : Z := Z.max (- 2 ^ 63) (Z.min (a + b) i64_max).

(** [TraceLog::event]: one transaction, which the database refuses when the
    number is taken or something fails. *)
Definition trace_event (event : string) (fields : list trace_field) (t : trace_log) : M trace_log :=
  r ← attempt (look (fun _ => inl tt));
  mret (match r with
        | inl _ =>
            if bool_decide (tr_next t ∈ (tr_rows t).*1) then t
            else mk_trace (i64_saturating_add (tr_next t) 1) (tr_rows t ++ [(tr_next t, (event, fields))])
        | inr _ => t
        end).

Definition set_next_sequence (sequence : N) (t : trace_log) : trace_log :=
  mk_trace (if bool_decide (Z.of_N sequence <= i64_max)%Z then Z.of_N sequence else i64_max) (tr_rows t).

Definition next_sequence (t : trace_log) : N := if (tr_next t <? 0)%Z then 0%N else Z.to_N (tr_next t).

Definition sync_deterministic_clock_event_sequence (initramfs_stamp : path) (trace : option trace_log) : M unit :=
  match trace with
  | None => mret tt
  | Some t =>
      let p := with_file_name initramfs_stamp DETERMINISTIC_CLOCK_STATE in
      there ← path_exists p;
      if negb there then mret tt
      else
        r ← attempt (read_to_string p);
        match r with
        | inr (Io NotFound) => mret tt
        | inr e => fail e
        | inl raw =>
            s ← parse_clock raw;
            write_deterministic_clock_state p
              (mk_clock (realtime_unix_nanos s) (monotonic_nanos s) (counter_frequency_hz s) (next_sequence t)
                 (timer_jump_count s) (last_timer_deadline_ticks s))
        end
  end.

(** [u64 as i64] *)
Definition as_i64 (n : N) : Z := if (n <? 2 ^ 63)%N then Z.of_N n else (Z.of_N n - 2 ^ 64)%Z.

Definition timer_part (part : string) : option (string * N) :=
  '(key, value) ← split_once "=" part; n ← parse_unsigned u64 value; Some (key, n).

Definition parse_timer_jump_line (line : string) : gmap string N :=
  foldl (fun m kv => <[kv.1 := kv.2]> m) ∅ (omap timer_part (split_whitespace line)).

(** What a line records: the deadline in ticks, the counter's frequency and
    the deadline in nanoseconds. *)
Definition timer_jump (line : string) : option (list trace_field) :=
  let fields := parse_timer_jump_line line in
  ticks ← fields !! "deadline_ticks";
  hz ← fields !! "counter_frequency_hz";
  nanos ← fields !! "deadline_nanos";
  Some [trace_integer "deadline_ticks" (as_i64 ticks); trace_integer "counter_frequency_hz" (as_i64 hz);
        trace_integer "deadline_nanos" (as_i64 nanos)].

(** Whether [raw[n..]] starts a character; slicing elsewhere panics. *)
Definition is_char_boundary (n : nat) (s : string) : bool :=
  match String.get n s with Some c => negb (is_cont c) | None => true end.

Definition consumed_after (start : N) (lines : list string) : N :=
  foldl (fun n line => saturating_add n (N.of_nat (String.length line + 1))) start lines.

Definition import_deterministic_timer_jumps (initramfs_stamp : path) (trace : option trace_log) : M (option trace_log) :=
  match trace with
  | None => mret None
  | Some t =>
      let jumps_path := with_file_name initramfs_stamp DETERMINISTIC_TIMER_JUMPS in
      there ← path_exists jumps_path;
      if negb there then mret (Some t)
      else
        let cursor_path := with_file_name initramfs_stamp DETERMINISTIC_TIMER_JUMPS_CURSOR in
        c ← read_ok cursor_path;
        let cursor := default 0%N (c ≫= (fun raw => parse_unsigned u64 (trim raw))) in
        raw ← read_to_string jumps_path;
        let start := N.min cursor (N.of_nat (String.length raw)) in
        if negb (is_char_boundary (N.to_nat start) raw) then bail "byte index is not a char boundary"
        else
          let new := lines (string_drop (N.to_nat start) raw) in
          t ← fold_m (fun t line =>
                match timer_jump line with
                | Some fields => trace_event "timer_jump" fields t
                | None => mret t
                end) t new;
          _ ← fs_write cursor_path (to_bytes (pretty (consumed_after start new)));
          mret (Some t)
  end.

Definition flush_deterministic_trace_events (run_dir : path) (trace : option trace_log) : M (option trace_log) :=
  let initramfs_stamp := run_dir /: "initramfs.stamp" in
  t ← import_deterministic_timer_jumps initramfs_stamp trace;
  _ ← sync_deterministic_clock_event_sequence initramfs_stamp t;
  mret t.

(** *** Seeded values *)

Section seeded.
(** The hash of the [sha2] crate. *)
Context (sha256 : bytes -> bytes).

Definition entropy_input (seed : string) (counter : N) : bytes :=
  to_bytes ("lnx deterministic restore entropy v1" +:+ NUL +:+ seed +:+ NUL) ++ to_le_bytes 8 counter.

(** The loop of [deterministic_restore_entropy]. *)
Fixpoint entropy_blocks (fuel : nat) (seed : string) (counter : N) (entropy : bytes) : bytes :=
  if length entropy <? RESTORE_ENTROPY_BYTES then
    match fuel with
    | O => entropy
    | S fuel' => entropy_blocks fuel' seed (saturating_add counter 1) (entropy ++ sha256 (entropy_input seed counter))
    end
  else entropy.

Definition deterministic_restore_entropy (seed : string) : bytes :=
  take RESTORE_ENTROPY_BYTES (entropy_blocks RESTORE_ENTROPY_BYTES seed 0 []).

(** [fresh] is what [/dev/urandom] gives. *)
Definition restore_entropy (config : option deterministic_config) (fresh : bytes + error) : bytes + error :=
  match config with
  | Some config => inl (deterministic_restore_entropy (seed config))
  | None => fresh
  end.

Definition bool_byte (b : bool) : byte := if b then x01 else x00.

Definition exec_request_input (seed : string) (command : list string) (guest_cwd : string) (run_as_root pty : bool)
    (rows cols : N) : bytes :=
  to_bytes ("lnx deterministic exec request id v1" +:+ NUL +:+ seed +:+ NUL +:+ "cwd" +:+ NUL +:+ guest_cwd +:+
            NUL +:+ "root" +:+ NUL) ++ [bool_byte run_as_root] ++
  to_bytes (NUL +:+ "pty" +:+ NUL) ++ [bool_byte pty] ++
  to_bytes (NUL +:+ "rows" +:+ NUL) ++ to_le_bytes 2 rows ++
  to_bytes (NUL +:+ "cols" +:+ NUL) ++ to_le_bytes 2 cols ++
  concat ((fun arg => to_bytes (NUL +:+ "arg" +:+ NUL +:+ arg)) <$> command).

Definition nonzero_id (digest : bytes) : N :=
  let id := from_le_bytes (take 8 digest) in if (id =? 0)%N then 1%N else id.

Definition deterministic_exec_request_id (seed : string) (command : list string) (guest_cwd : string)
    (run_as_root pty : bool) (rows cols : N) : N :=
  nonzero_id (sha256 (exec_request_input seed command guest_cwd run_as_root pty rows cols)).

Definition deterministic_restore_sync_request_id (seed : string) : N :=
  nonzero_id (sha256 (to_bytes ("lnx deterministic restore-sync request id v1" +:+ NUL +:+ seed))).

End seeded.

(** ** Whether a snapshot can be resumed *)

Section restore.
Context `{Json launch_metadata}.

Definition validate_restore_compatibility (snapshot initramfs_stamp : path) (launch : launch_metadata)
    (deterministic_stamp : string) (config : run_config) : M unit :=
  agent ← snapshot_agent_incompatibility snapshot initramfs_stamp (bool_decide (is_Some (cfg_deterministic config)));
  reason ← match agent with
    | Some reason => mret (Some reason)
    | None =>
        shares ← snapshot_launch_incompatibility snapshot launch;
        match shares with
        | Some reason => mret (Some ("its host shares differ (" +:+ reason +:+ ")"))
        | None =>
            det ← snapshot_deterministic_incompatibility snapshot deterministic_stamp;
            match det with
            | Some reason => mret (Some ("its deterministic mode differs (" +:+ reason +:+ ")"))
            | None =>
                c ← get_snapshot_vm_config snapshot;
                mret (match c with
                      | Some c =>
                          if vm_config_matches c (cfg_cpus config) (cfg_memory_mib config) then None
                          else Some ("it has " +:+ pretty (sv_vcpu_count c) +:+ " CPUs and " +:+ pretty (memory_mib c) +:+
                                     " MiB of memory, not " +:+ pretty (cfg_cpus config) +:+ " and " +:+
                                     pretty (cfg_memory_mib config))
                      | None => None
                      end)
            end
        end
    end;
  match reason with
  | None => mret tt
  | Some reason =>
      bail ("the saved memory snapshot cannot be resumed: " +:+ reason +:+ NL +:+
            "recovery: `lnx --instance " +:+ lo_instance (cfg_layout config) +:+
            " snapshots clear` drops the saved memory; the next run boots from the saved disk")
  end.

End restore.

(** ** The ext4 superblock *)

Definition EXT4_SUPERBLOCK_OFFSET : nat := 1024.
Definition EXT4_SUPERBLOCK_LEN : nat := 1024.
Definition EXT4_MAGIC : N := 0xEF53.
Definition EXT4_ERROR_FS : N := 2.
Definition REQUIRED_EXT4_BLOCK_SIZE : N := 16 * 1024.

Record ext4_superblock := mk_superblock { sb_log_block_size : N; sb_state : N; sb_errors : N }.

(** [1024u64.checked_shl] *)
Definition superblock_block_size (sb : ext4_superblock) : option N :=
  if (sb_log_block_size sb <? 64)%N then Some ((1024 * 2 ^ sb_log_block_size sb) `mod` 2 ^ 64)%N else None.

Definition has_errors (sb : ext4_superblock) : bool := negb (N.land (sb_state sb) EXT4_ERROR_FS =? 0)%N.

Definition read_ext4_superblock (p : path) : M ext4_superblock :=
  sb ← read_exact_at p EXT4_SUPERBLOCK_OFFSET EXT4_SUPERBLOCK_LEN;
  if bool_decide (from_le_bytes (slice 56 58 sb) = EXT4_MAGIC) then
    mret (mk_superblock (from_le_bytes (slice 24 28 sb)) (from_le_bytes (slice 58 60 sb)) (from_le_bytes (slice 60 62 sb)))
  else bail "rootfs is not an ext2/3/4 filesystem".

Definition ext4_block_size (p : path) : M N :=
  sb ← read_ext4_superblock p; context (superblock_block_size sb) "invalid ext4 block size".

Definition ensure_ext4_has_no_errors (p : path) : M unit :=
  sb ← read_ext4_superblock p;
  if has_errors sb then bail "is marked with ext4 errors; run e2fsck before restoring or snapshotting it" else mret tt.

Definition validate_snapshot_rootfs (snapshot_path : path) : M unit :=
  ensure_ext4_has_no_errors (snapshot_path /: "rootfs.ext4").
