(* ===== verification/SnapshotTheorems.v ===== *)
(** * Theorems about resuming a snapshot

    The state of the virtual clock survives being written and read; every timer
    jump is traced exactly once however often the log is flushed; the hash of a
    deterministic request tells requests apart; and a snapshot is resumed
    exactly when the agent, the shares, the deterministic mode and the shape of
    the VM allow it. *)

From S2P Require Import Prelude Codec FileSystem FsLogic FsUtil FsCopy FsTotal Store StoreExample Text Protocol Broker Paths Legacy HostShare Snapshots.

(** ** Lines *)

Definition unlines (l : list string) : string := foldr (fun x s => x +:+ NL +:+ s) EmptyString l.

(** A line that [lines] gives back as it is. *)
Definition line_text (x : string) : Prop := no_char "010" x /\ no_char "013" x.

Lemma split_char_line c x rest : no_char c x -> split_char c (x +:+ String c rest) = x :: split_char c rest.
Proof.
  unfold no_char. induction x as [| a x IH]; intros Hx; simpl.
  - by rewrite Ascii.eqb_refl.
  - rewrite contains_char_cons in Hx. apply orb_false_iff in Hx as [Ha Hx].
    rewrite Ascii.eqb_sym, Ha. by rewrite (IH Hx).
Qed.

Lemma split_unlines l : Forall line_text l -> split_char "010" (unlines l) = l ++ [EmptyString].
Proof.
  induction 1 as [| x l [Hx _] Hl IH]; [done |]. simpl. rewrite split_char_line by done. by rewrite IH.
Qed.

Lemma strip_cr_line x : no_char "013" x -> strip_cr x = x.
Proof. intros Hx. unfold strip_cr. by rewrite rsplit_once_none. Qed.

Lemma lines_unlines l : Forall line_text l -> lines (unlines l) = l.
Proof.
  intros Hl. unfold lines. rewrite split_unlines by done. rewrite last_snoc, removelast_last.
  rewrite <- (list_fmap_id l) at 2. apply list_fmap_ext. intros i x Hx. apply strip_cr_line.
  apply list_elem_of_lookup_2 in Hx. rewrite Forall_forall in Hl. by destruct (Hl x Hx).
Qed.

Lemma unlines_app a b : unlines (a ++ b) = unlines a +:+ unlines b.
Proof. induction a as [| x a IH]; simpl; [done |]. by rewrite IH, !string_app_assoc. Qed.

(** ** Stamps *)

Definition stamp_entry (kv : string * string) : string := kv.1 +:+ "=" +:+ kv.2.

Definition field_ok (kv : string * string) : Prop := no_char "=" kv.1 /\ line_text kv.1 /\ line_text kv.2.

Lemma stamp_text_unlines fields : stamp_text fields = unlines (stamp_entry <$> fields).
Proof.
  induction fields as [| [k v] f IH]; [done |].
  change (stamp_text ((k, v) :: f)) with (stamp_line (k, v) +:+ stamp_text f).
  change (unlines (stamp_entry <$> (k, v) :: f)) with (stamp_entry (k, v) +:+ NL +:+ unlines (stamp_entry <$> f)).
  rewrite IH. unfold stamp_line, stamp_entry. cbn [fst snd]. by rewrite !string_app_assoc.
Qed.

Lemma field_line kv : field_ok kv -> line_text (stamp_entry kv).
Proof.
  intros (_ & [H1 H2] & [H3 H4]). unfold stamp_entry, line_text, no_char in *.
  split; rewrite !contains_char_app; simpl; by rewrite ?H1, ?H2, ?H3, ?H4.
Qed.

Lemma split_entry kv : field_ok kv -> split_once "=" (stamp_entry kv) = Some kv.
Proof.
  intros (Hk & _). destruct kv as [k v]. apply split_once_char. unfold stamp_entry. simpl. by split; [| done].
Qed.

Lemma omap_entries fields : Forall field_ok fields -> omap (split_once "=") (stamp_entry <$> fields) = fields.
Proof. induction 1 as [| kv f Hkv Hf IH]; [done |]. cbn. by rewrite split_entry, IH. Qed.

Lemma insert_all_lookup (fields : list (string * string)) (m : gmap string string) k v :
  NoDup fields.*1 -> (k, v) ∈ fields -> foldl (fun m kv => <[kv.1 := kv.2]> m) m fields !! k = Some v.
Proof.
  revert m. induction fields as [| [k' v'] f IH]; intros m Hnd; [by intros ?%elem_of_nil |].
  apply NoDup_cons in Hnd as [Hk Hnd]. intros [Heq | Hin]%elem_of_cons; simpl; [| by apply IH]. simplify_eq.
  clear IH. assert (Hg : forall m : gmap string string, m !! k' = Some v' -> foldl (fun m kv => <[kv.1 := kv.2]> m) m f !! k' = Some v').
  { induction f as [| [a b] f IH]; intros m' Hm; simpl; [done |]. simpl in Hk. apply not_elem_of_cons in Hk as [Hne Hk].
    apply NoDup_cons in Hnd as [_ Hnd]. apply IH; [done | done |]. by rewrite lookup_insert_ne. }
  apply Hg. apply lookup_insert_eq.
Qed.

Lemma parse_stamp_lookup fields k v : Forall field_ok fields -> NoDup fields.*1 -> (k, v) ∈ fields ->
  parse_shares_stamp (stamp_text fields) !! k = Some v.
Proof.
  intros Hf Hnd Hin. unfold parse_shares_stamp. rewrite stamp_text_unlines, lines_unlines, omap_entries by
    (done || (apply Forall_fmap; eapply Forall_impl; [exact Hf |]; intros; by apply field_line)).
  by apply insert_all_lookup.
Qed.

Lemma pretty_line (n : N) : line_text (pretty n).
Proof. split; apply (string_all_no_char is_ascii_digit); (apply pretty_N_all_digits || done). Qed.

Lemma clock_fields_ok s : Forall field_ok (clock_fields s).
Proof. repeat constructor; try apply pretty_line; vm_compute; reflexivity. Qed.

Lemma clock_fields_nodup s : NoDup (clock_fields s).*1.
Proof. apply (bool_decide_unpack _). vm_compute. exact I. Qed.

Definition clock_in_range (s : clock_state) : Prop :=
  (realtime_unix_nanos s < u64 /\ monotonic_nanos s < u64 /\ counter_frequency_hz s < u64 /\ event_sequence s < u64 /\
   timer_jump_count s < u64 /\ last_timer_deadline_ticks s < u64)%N.

(** The state of a virtual clock survives being saved: reading what was
    written gives it back, for every value of its 64-bit fields. *)
Theorem clock_state_roundtrip s : clock_in_range s ->
  parse_deterministic_clock_state (deterministic_clock_state_content s) = Some s.
Proof.
  intros (H1 & H2 & H3 & H4 & H5 & H6). unfold parse_deterministic_clock_state, parse_clock_state_u64, deterministic_clock_state_content.
  assert (Hl := fun k v => parse_stamp_lookup (clock_fields s) k v (clock_fields_ok s) (clock_fields_nodup s)).
  rewrite (Hl "clock_state" CLOCK_STATE_VERSION) by left. rewrite bool_decide_true by done.
  rewrite (Hl "realtime_unix_nanos" (pretty (realtime_unix_nanos s))) by (do 1 right; left).
  rewrite (Hl "monotonic_nanos" (pretty (monotonic_nanos s))) by (do 2 right; left).
  rewrite (Hl "counter_frequency_hz" (pretty (counter_frequency_hz s))) by (do 3 right; left).
  rewrite (Hl "event_sequence" (pretty (event_sequence s))) by (do 4 right; left).
  rewrite (Hl "timer_jump_count" (pretty (timer_jump_count s))) by (do 5 right; left).
  rewrite (Hl "last_timer_deadline_ticks" (pretty (last_timer_deadline_ticks s))) by (do 6 right; left).
  cbn -[parse_unsigned u64]. rewrite !parse_unsigned_pretty by done. by destruct s.
Qed.

(** ** Timer jumps *)

Section jumps.
Context (E : env) (HE : faultless E).

Lemma total_fs_write m p data : parent_is_dir m p = true -> (m !! p = None \/ exists f, m !! p = Some (NFile f)) ->
  total E (eq m) (fs_write p data) (fun _ m' => exists b, m' = <[p := NFile (mk_file data b)]> m).
Proof.
  intros Hpar Hp. eapply total_bind.
  - apply (total_change E HE _ _ (fun _ m' => m' = <[p := NFile (mk_file [] 0)]> m)). intros w <-. rewrite Hpar.
    exists (Some (OWrite p (mk_file [] 0))). split; [| done]. by destruct Hp as [-> | [f ->]].
  - intros [] w Hw. unfold write_all. rewrite Hw, lookup_insert_eq, HE. eexists tt, _. split; [done |].
    exists (e_blocks E (w_tick w)). simpl. by rewrite Hw, insert_insert_eq.
Qed.

Lemma of_to_bytes s : of_bytes (to_bytes s) = s.
Proof. apply String.string_of_list_byte_of_string. Qed.

Lemma total_read_to_string m p f : m !! p = Some (NFile f) -> utf8_valid (of_bytes (f_data f)) = true ->
  total E (eq m) (read_to_string p) (fun s m' => m = m' /\ s = of_bytes (f_data f)).
Proof.
  intros Hp Hu. unfold read_to_string. eapply total_bind.
  - apply (total_look E HE _ _ (fun b m' => m = m' /\ b = f_data f)). intros ? <-. exists (f_data f).
    unfold read_in, stat_in. by rewrite Hp.
  - intros b. apply total_start. intros ? [<- ->]. rewrite Hu. apply total_ret. by intros ? <-.
Qed.

Lemma total_read_ok m p f : m !! p = Some (NFile f) -> utf8_valid (of_bytes (f_data f)) = true ->
  total E (eq m) (read_ok p) (fun s m' => m = m' /\ s = Some (of_bytes (f_data f))).
Proof.
  intros Hp Hu. eapply total_bind; [apply total_attempt; by apply total_read_to_string |].
  intros r. apply total_start. intros ? (s & -> & <- & ->). by apply total_ret; intros ? <-.
Qed.

Lemma total_read_missing m p : m !! p = None ->
  total E (eq m) (read_ok p) (fun s m' => m = m' /\ s = None).
Proof.
  intros Hp w Hw. subst m. unfold read_ok, attempt, read_to_string, fs_read, look, mbind, M_bind. rewrite HE.
  unfold read_in, stat_in. rewrite Hp. by eexists _, _.
Qed.

(** The trace with one event per jump, numbered on from where it was. *)
Fixpoint append_jumps (t : trace_log) (jumps : list (list trace_field)) : trace_log :=
  match jumps with
  | [] => t
  | j :: rest => append_jumps (mk_trace (tr_next t + 1) (tr_rows t ++ [(tr_next t, ("timer_jump", j))])) rest
  end.

(** Every number in use is below the next one, and there is room for [n]. *)
Definition numbered (t : trace_log) (n : nat) : Prop :=
  (forall z, z ∈ (tr_rows t).*1 -> (z < tr_next t)%Z) /\ (0 <= tr_next t)%Z /\ (tr_next t + Z.of_nat n <= i64_max)%Z.

Lemma total_trace_event m t fields n : numbered t (S n) ->
  total E (eq m) (trace_event "timer_jump" fields t) (fun t' m' => m = m' /\ numbered t' n /\
    t' = mk_trace (tr_next t + 1) (tr_rows t ++ [(tr_next t, ("timer_jump", fields))])).
Proof.
  intros (Hlt & Hpos & Hroom). unfold trace_event. eapply total_bind.
  { apply total_attempt, (total_look E HE (eq m) _ (fun _ m' => m = m')). eauto. }
  intros r. apply total_start. intros ? ([] & -> & <-). apply total_ret. intros ? <-. split; [done |].
  rewrite bool_decide_eq_false_2 by (intros Hin%Hlt; lia).
  assert (Hs : i64_saturating_add (tr_next t) 1 = (tr_next t + 1)%Z) by (unfold i64_saturating_add, i64_max in *; lia).
  rewrite Hs. split; [| done]. split_and!; simpl; [| lia | lia].
  intros z. rewrite fmap_app, elem_of_app. cbn [fmap list_fmap fst]. rewrite list_elem_of_singleton. intros [Hz%Hlt | ->]; lia.
Qed.

Lemma total_trace_lines m l t : numbered t (length l) ->
  total E (eq m) (fold_m (fun t line =>
      match timer_jump line with Some fields => trace_event "timer_jump" fields t | None => mret t end) t l)
    (fun t' m' => m = m' /\ t' = append_jumps t (omap timer_jump l)).
Proof.
  revert t. induction l as [| x l IH]; intros t Ht; cbn [fold_m length].
  { apply total_ret. by intros ? <-. }
  assert (Ho : omap timer_jump (x :: l) = match timer_jump x with Some y => y :: omap timer_jump l | None => omap timer_jump l end) by done.
  rewrite Ho. destruct (timer_jump x) as [fields |].
  - eapply total_bind; [by apply total_trace_event |]. intros t'. apply total_start. intros ? (<- & Ht' & ->).
    by apply IH.
  - eapply total_bind; [by apply (total_ret _ _ _ (fun t' m' => m = m' /\ t' = t)); intros ? <- |].
    intros t'. apply total_start. intros ? [<- ->]. apply IH. destruct Ht as (H1 & H2 & H3). simpl in H3. split_and!; [done | done | lia].
Qed.

Lemma consumed_lines l n : (n + N.of_nat (String.length (unlines l)) < u64)%N ->
  consumed_after n l = (n + N.of_nat (String.length (unlines l)))%N.
Proof.
  revert n. unfold consumed_after. induction l as [| x l IH]; intros n Hn; [simpl; lia |].
  change (unlines (x :: l)) with (x +:+ NL +:+ unlines l) in *. rewrite !string_app_length in *. simpl String.length in *.
  cbn [foldl]. assert (Hs : saturating_add n (N.of_nat (String.length x + 1)) = (n + N.of_nat (String.length x + 1))%N).
  { unfold saturating_add, u64_max, u64 in *. lia. }
  rewrite Hs, IH by lia. lia.
Qed.

(** What a log line written by the VM is made of. *)
Definition jump_line (x : string) : Prop := line_text x /\ string_all (in_range 0 127) x = true.

Lemma unlines_ascii l : Forall jump_line l -> string_all (in_range 0 127) (unlines l) = true.
Proof.
  induction 1 as [| x l [_ Hx] Hl IH]; [done |]. change (unlines (x :: l)) with (x +:+ NL +:+ unlines l).
  by rewrite !string_all_app, Hx, IH.
Qed.

Lemma ascii_boundary n s : string_all (in_range 0 127) s = true -> is_char_boundary n s = true.
Proof.
  intros Hs. unfold is_char_boundary. destruct (String.get n s) as [c |] eqn:Hc; [| done].
  assert (Hin : in_range 0 127 c = true).
  { revert n Hc. induction s as [| a s IH]; intros n Hc; [done |]. unfold string_all in Hs. simpl in Hs.
    apply andb_true_iff in Hs as [Ha Hs]. destruct n as [| n]; simpl in Hc; [by simplify_eq | by eapply IH]. }
  unfold is_cont, in_range in *. apply andb_true_iff in Hin as [_ Hin%N.leb_le].
  apply negb_true_iff, andb_false_iff. left. apply N.leb_gt. lia.
Qed.

Lemma trim_pretty (n : N) : trim (pretty n) = pretty n.
Proof.
  rewrite <- (string_app_nil (pretty n)) at 1. apply trim_plain; [| done].
  apply pretty_N_digits. intros d Hd.
  assert (Hall : Forall (fun k => plain (pretty_N_char (N.of_nat k)) = true) (seq 0 10)) by (repeat constructor).
  rewrite Forall_forall in Hall. rewrite <- (N2Nat.id d). apply Hall, elem_of_seq. lia.
Qed.

(** The cursor says that the lines [old] have been traced. *)
Definition flushed (d : path) (old : list string) (m : fsmap) : Prop :=
  (m !! (d /: DETERMINISTIC_TIMER_JUMPS_CURSOR) = None /\ old = []) \/
  exists f, m !! (d /: DETERMINISTIC_TIMER_JUMPS_CURSOR) = Some (NFile f) /\
    f_data f = to_bytes (pretty (N.of_nat (String.length (unlines old)))).

Lemma pretty_char_in f (n : N) : (forall k, k < 10 -> f (pretty_N_char (N.of_nat k)) = true) -> string_all f (pretty n) = true.
Proof. intros Hf. apply pretty_N_digits. intros d Hd. rewrite <- (N2Nat.id d). apply Hf. lia. Qed.

Lemma pretty_ascii (n : N) : string_all (in_range 0 127) (pretty n) = true.
Proof. apply pretty_char_in. intros k Hk. do 10 (destruct k as [| k]; [reflexivity |]). lia. Qed.

Lemma total_cursor m d old : flushed d old m -> (N.of_nat (String.length (unlines old)) < u64)%N ->
  total E (eq m) (read_ok (d /: DETERMINISTIC_TIMER_JUMPS_CURSOR)) (fun c m' => m = m' /\
    default 0%N (c ≫= (fun raw => parse_unsigned u64 (trim raw))) = N.of_nat (String.length (unlines old))).
Proof.
  intros [[Hn ->] | (f & Hf & Hd)] Hl.
  - eapply total_post; [by apply total_read_missing |]. by intros c m' [<- ->].
  - eapply total_post; [apply total_read_ok; [done |] |].
    + rewrite Hd, of_to_bytes. apply utf8_ascii, pretty_ascii.
    + intros c m' [<- ->]. split; [done |]. rewrite Hd, of_to_bytes. simpl. rewrite trim_pretty. by rewrite parse_unsigned_pretty.
Qed.

(** Every timer jump is traced exactly once.  Flushing a log of which the
    lines [old] have been traced adds one event per jump of the lines [new], in
    order and numbered on, and records that all of them have been traced; so
    the next flush starts after them. *)
Theorem timer_jumps_traced_once w d f old new t :
  w_fs w !! d = Some NDir -> d <> [] ->
  w_fs w !! (d /: DETERMINISTIC_TIMER_JUMPS) = Some (NFile f) -> f_data f = to_bytes (unlines (old ++ new)) ->
  Forall jump_line (old ++ new) -> (N.of_nat (String.length (unlines (old ++ new))) < u64)%N ->
  flushed d old (w_fs w) -> numbered t (length new) ->
  exists w' f', import_deterministic_timer_jumps (d /: "initramfs.stamp") (Some t) E w =
      Ok (Some (append_jumps t (omap timer_jump new))) w' /\
    w_fs w' = <[d /: DETERMINISTIC_TIMER_JUMPS_CURSOR := NFile f']> (w_fs w) /\ flushed d (old ++ new) (w_fs w').
Proof.
  intros Hd Hne Hf Hdata Hlines Hlen Hcur Ht. set (m := w_fs w) in *.
  enough (Hgoal : total E (eq m) (import_deterministic_timer_jumps (d /: "initramfs.stamp") (Some t))
    (fun r m' => r = Some (append_jumps t (omap timer_jump new)) /\ exists f',
       m' = <[d /: DETERMINISTIC_TIMER_JUMPS_CURSOR := NFile f']> m /\ flushed d (old ++ new) m')).
  { destruct (Hgoal w eq_refl) as (? & w' & Hr & -> & f' & Hm & Hfl). by exists w', f'. }
  assert (Hraw : of_bytes (f_data f) = unlines (old ++ new)) by (by rewrite Hdata, of_to_bytes).
  assert (Hold : (N.of_nat (String.length (unlines old)) < u64)%N) by (rewrite unlines_app, string_app_length in Hlen; lia).
  unfold import_deterministic_timer_jumps, with_file_name. rewrite !removelast_last.
  apply total_bind with (R := fun b m' => m = m' /\ b = true).
  { eapply total_bind; [apply total_attempt, (total_look E HE (eq m) _ (fun _ m' => m = m')) |].
    - intros ? <-. unfold stat_in. rewrite Hf. eauto.
    - intros r. apply total_start. intros ? (n & -> & <-). by apply total_ret; intros ? <-. }
  intros b. apply total_start. intros ? [<- ->]. cbn [negb].
  eapply total_bind; [by apply total_cursor |]. intros c. apply total_start. intros ? [<- ->].
  eapply total_bind; [apply (total_read_to_string m _ f Hf); rewrite Hraw; by apply utf8_ascii, unlines_ascii |].
  intros raw. apply total_start. intros ? [<- ->]. rewrite Hraw.
  rewrite N.min_l by (rewrite unlines_app, string_app_length; lia). rewrite Nat2N.id.
  rewrite ascii_boundary by (by apply unlines_ascii). cbn [negb].
  rewrite unlines_app, string_drop_app by done.
  rewrite lines_unlines by (apply Forall_app in Hlines as [_ Hn]; eapply Forall_impl; [exact Hn |]; by intros ? []).
  eapply total_bind; [by apply total_trace_lines |]. intros t'. apply total_start. intros ? [<- ->].
  rewrite consumed_lines by (rewrite unlines_app, string_app_length in Hlen; lia).
  eapply total_bind; [apply total_fs_write |].
  - unfold parent_is_dir. rewrite parent_snoc. destruct d; [done |]. unfold stat_in. by rewrite Hd.
  - destruct Hcur as [[? _] | (f' & ? & _)]; eauto.
  - intros []. apply total_ret. intros ? [bl ->]. split; [done |]. eexists. split; [done |]. right. eexists.
    split; [apply lookup_insert_eq |]. simpl. rewrite unlines_app, string_app_length. do 2 f_equal. lia.
Qed.

End jumps.

(** ** Deterministic requests *)

Lemma to_bytes_app a b : to_bytes (a +:+ b) = to_bytes a ++ to_bytes b.
Proof.
  unfold to_bytes, String.list_byte_of_string. induction a as [| c a IH]; [done |]. cbn. by rewrite IH.
Qed.

Lemma to_bytes_inj a b : to_bytes a = to_bytes b -> a = b.
Proof. intros H. by rewrite <- (of_to_bytes a), H, of_to_bytes. Qed.

Lemma no_nul_bytes s : no_char "000" s -> x00 ∉ to_bytes s.
Proof.
  unfold no_char. induction s as [| c s IH]; intros Hs; [by apply not_elem_of_nil |].
  rewrite contains_char_cons in Hs. apply orb_false_iff in Hs as [Hc Hs].
  change (to_bytes (String c s)) with (Ascii.byte_of_ascii c :: to_bytes s). intros [Heq | Hin]%elem_of_cons; [| by apply IH].
  apply (f_equal Ascii.ascii_of_byte) in Heq. rewrite Ascii.ascii_of_byte_of_ascii in Heq. subst. done.
Qed.

(** A text without NUL ends where nothing or a NUL follows. *)
Definition nul_next (l : bytes) : Prop := match l with [] => True | b :: _ => b = x00 end.

Lemma nul_field (a a' : string) (l l' : bytes) : no_char "000" a -> no_char "000" a' -> nul_next l -> nul_next l' ->
  to_bytes a ++ l = to_bytes a' ++ l' -> a = a' /\ l = l'.
Proof.
  intros Ha%no_nul_bytes Ha'%no_nul_bytes Hl Hl' Heq.
  enough (Hsplit : to_bytes a = to_bytes a' /\ l = l') by (destruct Hsplit as [?%to_bytes_inj ?]; done).
  revert Heq Ha Ha'. generalize (to_bytes a) as x, (to_bytes a') as y. intros x.
  induction x as [| b x IH]; intros [| c y]; simpl; intros Heq Hx Hy; [done | | |].
  - subst l. simpl in Hl. subst. destruct Hy. by left.
  - subst l'. simpl in Hl'. subst. destruct Hx. by left.
  - injection Heq as -> Heq. destruct (IH y) as [-> ->]; [done | by intros ?; apply Hx; right | by intros ?; apply Hy; right | done].
Qed.

Definition args_input (l : list string) : bytes := concat ((fun arg => to_bytes (NUL +:+ "arg" +:+ NUL +:+ arg)) <$> l).

Lemma args_input_cons x l : args_input (x :: l) = to_bytes (NUL +:+ "arg" +:+ NUL) ++ to_bytes x ++ args_input l.
Proof. unfold args_input. rewrite fmap_cons; cbn [concat]. change (NUL +:+ "arg" +:+ NUL +:+ x) with ((NUL +:+ "arg" +:+ NUL) +:+ x). by rewrite to_bytes_app, app_assoc. Qed.

Lemma args_nul l : nul_next (args_input l).
Proof. by destruct l. Qed.

Lemma args_field (l l' : list string) : Forall (no_char "000") l -> Forall (no_char "000") l' ->
  args_input l = args_input l' -> l = l'.
Proof.
  intros Hl. revert l'. induction Hl as [| x l Hx Hl IH]; intros [| y l'] Hl' Heq; [done | done | done |].
  apply Forall_cons in Hl' as [Hy Hl']. rewrite !args_input_cons in Heq. apply app_inv_head in Heq.
  apply nul_field in Heq as [-> Heq]; [| done | done | apply args_nul | apply args_nul]. by rewrite (IH l').
Qed.

Lemma to_le_bytes_length w n : length (to_le_bytes w n) = w.
Proof. revert n. induction w as [| w IH]; intros n; simpl; [done |]. by rewrite IH. Qed.

Lemma byte_of_N_val n : Byte.to_N (byte_of_N n) = (n `mod` 256)%N.
Proof.
  unfold byte_of_N. destruct (Byte.of_N (n `mod` 256)) as [b |] eqn:Hb; [by apply Byte.to_of_N in Hb |].
  apply Byte.of_N_None_iff in Hb. pose proof (N.mod_lt n 256). lia.
Qed.

Lemma from_to_le_bytes w n : from_le_bytes (to_le_bytes w n) = (n `mod` 256 ^ N.of_nat w)%N.
Proof.
  revert n. induction w as [| w IH]; intros n; [cbn; by rewrite N.mod_1_r |].
  cbn [to_le_bytes from_le_bytes foldr]. change (foldr _ _ (to_le_bytes w (n / 256))) with (from_le_bytes (to_le_bytes w (n / 256))).
  rewrite IH, byte_of_N_val, Nat2N.inj_succ, N.pow_succ_r'. rewrite N.Div0.mod_mul_r. lia.
Qed.

Lemma le_field w n n' l l' : (n < 256 ^ N.of_nat w)%N -> (n' < 256 ^ N.of_nat w)%N ->
  to_le_bytes w n ++ l = to_le_bytes w n' ++ l' -> n = n' /\ l = l'.
Proof.
  intros Hn Hn' Heq. apply app_inj_1 in Heq as [Hb ->]; [| by rewrite !to_le_bytes_length]. split; [| done].
  apply (f_equal from_le_bytes) in Hb. by rewrite !from_to_le_bytes, !N.mod_small in Hb.
Qed.

(** The hash a deterministic run names a request by is taken of an input
    that tells requests apart: two requests whose texts have no NUL, as
    arguments, directories and seeds of the command line have none, give the
    same input only if they are the same in seed, command, directory, user,
    terminal and size. *)
Theorem exec_request_input_injective seed seed' command command' cwd cwd' root root' pty pty' rows rows' cols cols' :
  no_char "000" seed -> no_char "000" seed' -> no_char "000" cwd -> no_char "000" cwd' ->
  Forall (no_char "000") command -> Forall (no_char "000") command' ->
  (rows < 65536)%N -> (rows' < 65536)%N -> (cols < 65536)%N -> (cols' < 65536)%N ->
  exec_request_input seed command cwd root pty rows cols = exec_request_input seed' command' cwd' root' pty' rows' cols' ->
  seed = seed' /\ command = command' /\ cwd = cwd' /\ root = root' /\ pty = pty' /\ rows = rows' /\ cols = cols'.
Proof.
  intros Hs Hs' Hc Hc' Ha Ha' Hr Hr' Hco Hco'. unfold exec_request_input.
  fold (args_input command) (args_input command'). rewrite !to_bytes_app, <- !app_assoc. intros Heq.
  apply app_inv_head in Heq. apply app_inv_head in Heq.
  apply nul_field in Heq as [-> Heq]; [| done.. | done | done]. do 3 apply app_inv_head in Heq.
  apply nul_field in Heq as [-> Heq]; [| done.. | done | done]. do 3 apply app_inv_head in Heq.
  apply app_inj_1 in Heq as [Hroot Heq]; [| done]. do 3 apply app_inv_head in Heq.
  apply app_inj_1 in Heq as [Hpty Heq]; [| done]. do 3 apply app_inv_head in Heq.
  apply le_field in Heq as [-> Heq]; [| done | done]. do 3 apply app_inv_head in Heq.
  apply le_field in Heq as [-> Heq]; [| done | done]. apply args_field in Heq as ->; [| done | done].
  split_and!; [done | done | done | | | done | done]; [by destruct root, root' | by destruct pty, pty'].
Qed.

(** ** Programs that only look *)

Section shows.
Context (E : env) (HE : faultless E).

(** What [c] answers is read off the tree, which it leaves as it is. *)
Definition shows {A : Type} (c : M A) (f : fsmap -> A + error) : Prop :=
  forall w, exists w', w_fs w' = w_fs w /\
    c E w = match f (w_fs w) with inl a => Ok a w' | inr e => Err e w' end.

Lemma shows_ret {A : Type} (a : A) : shows (mret a) (fun _ => inl a).
Proof. intros w. by exists w. Qed.

Lemma shows_fail {A : Type} e : shows (fail (A := A) e) (fun _ => inr e).
Proof. intros w. by exists w. Qed.

Lemma shows_lift {A : Type} (r : A + error) : shows (lift r) (fun _ => r).
Proof. intros w. exists w. by destruct r. Qed.

Lemma shows_bind {A B : Type} (c : M A) f (k : A -> M B) g :
  shows c f -> (forall a, shows (k a) (g a)) ->
  shows (c ≫= k) (fun m => match f m with inl a => g a m | inr e => inr e end).
Proof.
  intros Hc Hk w. destruct (Hc w) as (w1 & Hw1 & Hr). unfold mbind, M_bind. rewrite Hr.
  destruct (f (w_fs w)) as [a | e]; [| by exists w1]. destruct (Hk a w1) as (w2 & Hw2 & Hr2).
  exists w2. rewrite Hw1 in *. split; done.
Qed.

Lemma shows_attempt {A : Type} (c : M A) f : shows c f -> shows (attempt c) (fun m => inl (f m)).
Proof.
  intros Hc w. destruct (Hc w) as (w1 & Hw1 & Hr). exists w1. unfold attempt. rewrite Hr.
  split; [done |]. by destruct (f (w_fs w)).
Qed.

Lemma shows_ext {A : Type} (c : M A) f g : shows c f -> (forall m, f m = g m) -> shows c g.
Proof. intros Hc Hfg w. destruct (Hc w) as (w' & Hw & Hr). exists w'. by rewrite <- Hfg. Qed.

Definition io {A : Type} (r : A + io_kind) : A + error := match r with inl a => inl a | inr k => inr (Io k) end.

Lemma shows_look {A : Type} (f : fsmap -> A + io_kind) : shows (look f) (fun m => io (f m)).
Proof using HE. intros w. exists (ticked w). unfold look. rewrite HE. split; [done |]. by destruct (f (w_fs w)). Qed.

(** The contents of a text file. *)
Definition text_in (m : fsmap) (p : path) : string + error :=
  match read_in m p with
  | inl b => if utf8_valid (of_bytes b) then inl (of_bytes b) else inr (Io OtherIo)
  | inr k => inr (Io k)
  end.

Lemma shows_read_to_string p : shows (read_to_string p) (fun m => text_in m p).
Proof using HE.
  eapply shows_ext; [eapply shows_bind; [apply shows_look |] |].
  - intros b. instantiate (1 := fun b _ => if utf8_valid (of_bytes b) then inl (of_bytes b) else inr (Io OtherIo)). simpl.
    destruct (utf8_valid (of_bytes b)); [apply shows_ret | apply shows_fail].
  - intros m. unfold text_in. by destruct (read_in m p).
Qed.

Definition text_opt (m : fsmap) (p : path) : option string := match text_in m p with inl s => Some s | inr _ => None end.

Lemma shows_read_ok p : shows (read_ok p) (fun m => inl (text_opt m p)).
Proof using HE.
  eapply shows_ext; [eapply shows_bind; [apply shows_attempt, shows_read_to_string | intros r; apply shows_ret] |].
  done.
Qed.

Definition stamp_in (m : fsmap) (p : path) : agent_stamp :=
  mk_stamp (text_opt m p ≫= stamp_key) (text_opt m p ≫= stamp_protocol).

Lemma shows_read_agent_stamp p : shows (read_agent_stamp p) (fun m => inl (stamp_in m p)).
Proof using HE.
  eapply shows_ext; [eapply shows_bind; [apply shows_read_ok | intros s; eapply shows_bind] |].
  - unfold initramfs_stamp_key. eapply shows_bind; [apply shows_read_ok | intros s'; apply shows_ret].
  - intros key. apply (shows_ret (mk_stamp key (s ≫= stamp_protocol))).
  - done.
Qed.

Lemma shows_agent snapshot current d : shows (snapshot_agent_incompatibility snapshot current d)
  (fun m => inl (agent_incompatibility (stamp_in m (snapshot /: "initramfs.stamp")) (stamp_in m current) d)).
Proof using HE.
  eapply shows_ext; [eapply shows_bind; [apply shows_read_agent_stamp | intros s; eapply shows_bind;
    [apply shows_read_agent_stamp | intros c; apply shows_ret]] |]. done.
Qed.

Lemma shows_path_exists p : shows (path_exists p) (fun m => inl (match stat_in m p with inl _ => true | inr _ => false end)).
Proof using HE.
  eapply shows_ext; [eapply shows_bind; [apply shows_attempt, shows_look | intros r; apply shows_ret] |].
  intros m. simpl. by destruct (stat_in m p).
Qed.

(** The configuration in the header of a snapshot, if it has one. *)
Definition vm_config_in (m : fsmap) (snapshot : path) : option snapshot_vm_config + error :=
  match stat_in m (snapshot /: "vmstate.bin") with
  | inr _ => inl None
  | inl (NFile f) =>
      if 40 <=? length (f_data f) then
        match parse_vm_config (take 40 (f_data f)) with inl c => inl (Some c) | inr e => inr e end
      else inr (Io OtherIo)
  | inl _ => inr (Io IsADirectory)
  end.

Lemma shows_read_exact p offset n : shows (read_exact_at p offset n) (fun m =>
  match read_in m p with
  | inl data => if offset + n <=? length data then inl (take n (drop offset data)) else inr (Io OtherIo)
  | inr k => inr (Io k)
  end).
Proof using HE.
  eapply shows_ext; [eapply shows_bind; [apply shows_look |] |].
  - intros nd. apply (shows_look (fun m => match read_in m p with
      | inl data => if offset + n <=? length data then inl (take n (drop offset data)) else inr OtherIo
      | inr k => inr k end)).
  - intros m. unfold read_in. destruct (stat_in m p) as [[] | k]; simpl; try done. by destruct (_ <=? _).
Qed.

Lemma shows_header p : shows (header ← read_exact_at p 0 40; c ← lift (parse_vm_config header); mret (Some c)) (fun m =>
  match read_in m p with
  | inl data =>
      if 40 <=? length data then match parse_vm_config (take 40 data) with inl c => inl (Some c) | inr e => inr e end
      else inr (Io OtherIo)
  | inr k => inr (Io k)
  end).
Proof using HE.
  eapply shows_ext; [eapply shows_bind; [apply shows_read_exact | intros header; eapply shows_bind;
    [apply shows_lift | intros c; apply shows_ret]] |].
  intros m. cbn beta. destruct (read_in m p) as [data |]; [| done]. rewrite drop_0. by destruct (0 + 40 <=? length data) eqn:Hl; cbn [Nat.add] in Hl; rewrite Hl.
Qed.

Lemma shows_vm_config snapshot : shows (get_snapshot_vm_config snapshot) (fun m => vm_config_in m snapshot).
Proof using HE.
  intros w. unfold get_snapshot_vm_config. destruct (shows_path_exists (snapshot /: "vmstate.bin") w) as (w1 & Hw1 & Hr).
  unfold mbind at 1, M_bind at 1. rewrite Hr. unfold vm_config_in.
  destruct (stat_in (w_fs w) (snapshot /: "vmstate.bin")) as [nd | k] eqn:Hst; cbn [negb]; [| by exists w1].
  destruct (shows_header (snapshot /: "vmstate.bin") w1) as (w2 & Hw2 & Hr2). exists w2. rewrite Hr2, Hw2, Hw1.
  split; [done |]. unfold read_in. rewrite Hst. by destruct nd.
Qed.

Section restorable.
Context `{Json launch_metadata}.

Definition launch_in (m : fsmap) (snapshot : path) : launch_metadata + error :=
  match read_in m (snapshot /: LAUNCH_METADATA) with
  | inl b => match from_slice b with Some l => inl l | None => inr (Io OtherIo) end
  | inr k => inr (Io k)
  end.

Lemma shows_launch snapshot : shows (read_launch_metadata snapshot) (fun m => launch_in m snapshot).
Proof using HE.
  eapply shows_ext; [eapply shows_bind; [apply shows_look | intros data] |].
  - instantiate (1 := fun data _ => match from_slice data with Some l => inl l | None => inr (Io OtherIo) end). simpl.
    destruct (from_slice data); [apply shows_ret | apply shows_fail].
  - intros m. unfold launch_in. by destruct (read_in m _).
Qed.

(** The agent in the snapshot can be driven: a deterministic run needs the very
    agent, another run one whose protocol is supported and not newer, or the
    very agent where a stamp does not tell. *)
Definition agent_resumable (snapshot current : agent_stamp) (deterministic : bool) : Prop :=
  let same := is_Some (as_source snapshot) /\ as_source snapshot = as_source current in
  match as_protocol snapshot, as_protocol current with
  | Some s, Some c => if deterministic then same else (s <= c)%N /\ agent_protocol_supported s = true
  | _, _ => same
  end.

(** What the snapshot in [m] has to be for [config] to resume it. *)
Definition resumable (m : fsmap) (snapshot stamp : path) (launch : launch_metadata) (det : string) (config : run_config) : Prop :=
  agent_resumable (stamp_in m (snapshot /: "initramfs.stamp")) (stamp_in m stamp)
    (bool_decide (is_Some (cfg_deterministic config))) /\
  (exists taken, launch_in m snapshot = inl taken /\ launch_metadata_matches_ignoring_cwd taken launch = true) /\
  (text_in m (snapshot /: "deterministic.stamp") = inl det \/
   text_in m (snapshot /: "deterministic.stamp") = inr (Io NotFound) /\ det = deterministic_stamp_content None) /\
  (vm_config_in m snapshot = inl None \/
   exists c, vm_config_in m snapshot = inl (Some c) /\ sv_vcpu_count c = cfg_cpus config /\
     memory_mib c = cfg_memory_mib config).

Lemma agent_none s c d : agent_incompatibility s c d = None <-> agent_resumable s c d.
Proof.
  unfold agent_incompatibility, agent_resumable.
  assert (Hsame : (if negb (bool_decide (is_Some (as_source s))) || negb (bool_decide (as_source s = as_source c))
    then Some "it was taken by a different version of the lnx guest agent" else None) = None <->
    is_Some (as_source s) /\ as_source s = as_source c).
  { repeat case_bool_decide; simpl; naive_solver. }
  destruct (as_protocol s) as [p |], (as_protocol c) as [q |], d; try exact Hsame.
  destruct (N.leb_spec p q); simpl; [destruct (agent_protocol_supported p) |]; split; naive_solver lia.
Qed.

Definition launch_obstacle (r : launch_metadata + error) (current : launch_metadata) : option string :=
  match r with
  | inl snapshot => if launch_metadata_matches_ignoring_cwd snapshot current then None else Some (describe_launch_mismatch snapshot current)
  | inr (Io NotFound) => Some "launch_metadata: snapshot has no launch.json"
  | inr _ => Some "launch_metadata_unreadable"
  end.

Lemma launch_none r current : launch_obstacle r current = None <->
  exists taken, r = inl taken /\ launch_metadata_matches_ignoring_cwd taken current = true.
Proof.
  unfold launch_obstacle. destruct r as [taken | [[] | |]]; try naive_solver.
  destruct (launch_metadata_matches_ignoring_cwd taken current) eqn:Hm; split; [by eauto | done | done |].
  intros (? & [= <-] & ?). congruence.
Qed.

Lemma det_none r det : stamp_incompatibility r det = None <->
  r = inl det \/ r = inr (Io NotFound) /\ det = deterministic_stamp_content None.
Proof.
  unfold stamp_incompatibility. destruct r as [s | [[] | |]]; try naive_solver; case_bool_decide; naive_solver.
Qed.

(** What stands in the way of a resumption, in the order it is looked at. *)
Definition shape_obstacle (c : option snapshot_vm_config) (config : run_config) : option string :=
  match c with
  | Some c =>
      if vm_config_matches c (cfg_cpus config) (cfg_memory_mib config) then None
      else Some ("it has " +:+ pretty (sv_vcpu_count c) +:+ " CPUs and " +:+ pretty (memory_mib c) +:+
                 " MiB of memory, not " +:+ pretty (cfg_cpus config) +:+ " and " +:+ pretty (cfg_memory_mib config))
  | None => None
  end.

Definition obstacle (m : fsmap) (snapshot stamp : path) (launch : launch_metadata) (det : string) (config : run_config)
    : option string + error :=
  match agent_incompatibility (stamp_in m (snapshot /: "initramfs.stamp")) (stamp_in m stamp)
          (bool_decide (is_Some (cfg_deterministic config))) with
  | Some reason => inl (Some reason)
  | None =>
      match launch_obstacle (launch_in m snapshot) launch with
      | Some reason => inl (Some ("its host shares differ (" +:+ reason +:+ ")"))
      | None =>
          match stamp_incompatibility (text_in m (snapshot /: "deterministic.stamp")) det with
          | Some reason => inl (Some ("its deterministic mode differs (" +:+ reason +:+ ")"))
          | None => match vm_config_in m snapshot with inl c => inl (shape_obstacle c config) | inr e => inr e end
          end
      end
  end.

Lemma obstacle_none m snapshot stamp launch det config :
  obstacle m snapshot stamp launch det config = inl None <-> resumable m snapshot stamp launch det config.
Proof.
  unfold resumable, obstacle. rewrite <- agent_none, <- launch_none, <- det_none.
  destruct (agent_incompatibility _ _ _); [naive_solver |]. destruct (launch_obstacle _ _); [naive_solver |].
  destruct (stamp_incompatibility _ _); [naive_solver |]. destruct (vm_config_in m snapshot) as [[c |] | e]; [| naive_solver | naive_solver].
  unfold shape_obstacle, vm_config_matches. repeat case_bool_decide; simpl; naive_solver.
Qed.

Lemma shows_launch_obstacle snapshot launch : shows (snapshot_launch_incompatibility snapshot launch)
  (fun m => inl (launch_obstacle (launch_in m snapshot) launch)).
Proof using HE.
  eapply shows_ext; [eapply shows_bind; [apply shows_attempt, shows_launch | intros r; apply shows_ret] |]. done.
Qed.

Lemma shows_det snapshot det : shows (snapshot_deterministic_incompatibility snapshot det)
  (fun m => inl (stamp_incompatibility (text_in m (snapshot /: "deterministic.stamp")) det)).
Proof using HE.
  eapply shows_ext; [eapply shows_bind; [apply shows_attempt, shows_read_to_string | intros r; apply shows_ret] |]. done.
Qed.

Lemma shows_unless {A B : Type} (o : option A) (k : A -> M B) (c : M B) g f :
  (forall a, shows (k a) (g a)) -> shows c f ->
  shows (match o with Some a => k a | None => c end) (fun m => match o with Some a => g a m | None => f m end).
Proof. intros Hk Hc. destruct o; [apply Hk | apply Hc]. Qed.

Definition not_resumed (config : run_config) (reason : string) : error :=
  Bail ("the saved memory snapshot cannot be resumed: " +:+ reason +:+ NL +:+
        "recovery: `lnx --instance " +:+ lo_instance (cfg_layout config) +:+
        " snapshots clear` drops the saved memory; the next run boots from the saved disk").

Lemma shows_validate snapshot stamp launch det config :
  shows (validate_restore_compatibility snapshot stamp launch det config) (fun m =>
    match obstacle m snapshot stamp launch det config with
    | inl None => inl tt
    | inl (Some reason) => inr (not_resumed config reason)
    | inr e => inr e
    end).
Proof using HE.
  eapply shows_ext.
  - eapply shows_bind; [apply shows_agent | intros agent; eapply shows_bind].
    + eapply shows_unless; [intros a; apply shows_ret |].
      eapply shows_bind; [apply shows_launch_obstacle | intros shares]. eapply shows_unless; [intros a; apply shows_ret |].
      eapply shows_bind; [apply shows_det | intros d]. eapply shows_unless; [intros a; apply shows_ret |].
      eapply shows_bind; [apply shows_vm_config | intros c; apply (shows_ret (shape_obstacle c config))].
    + intros reason. eapply (shows_unless reason); [intros a; apply (shows_fail (not_resumed config a)) | apply shows_ret].
  - intros m. cbn beta iota. unfold obstacle. repeat case_match; simplify_eq; done.
Qed.

(** C25: where nothing goes wrong, a saved memory is resumed exactly when it
    can be: its guest agent can be driven, it was launched with the same
    shares, its deterministic stamp is the run's, and its header, if there is
    one, has the CPUs and the memory the run asks for.  Nothing is changed
    either way. *)
Theorem restore_exactly_resumable w snapshot stamp launch det config :
  exists w', w_fs w' = w_fs w /\
    (resumable (w_fs w) snapshot stamp launch det config /\
       validate_restore_compatibility snapshot stamp launch det config E w = Ok tt w' \/
     ~ resumable (w_fs w) snapshot stamp launch det config /\
       exists e, validate_restore_compatibility snapshot stamp launch det config E w = Err e w').
Proof using HE.
  destruct (shows_validate snapshot stamp launch det config w) as (w' & Hw & Hr). exists w'. split; [done |].
  rewrite <- obstacle_none, Hr. destruct (obstacle _ _ _ _ _ _) as [[reason |] |]; [right | left | right]; split; try done; by eexists.
Qed.

End restorable.
End shows.

(** ** A saved memory *)

#[export] Instance vhost_codec : Codec vhost_user_fs_mount :=
  codec_of (fun m => (vh_tag m, (vh_mountpoint m, (vh_socket m, vh_read_only m))))
           (fun '(t, (p, (s, r))) => Some (mk_vhost t p s r)) ltac:(by intros []).

#[export] Instance shares_codec : Codec launch_shares :=
  codec_of (fun s => (ls_no_host_shares s, (ls_host_home s, ls_outside_home_cwd s)))
           (fun '(n, (h, o)) => Some (mk_shares n h o)) ltac:(by intros []).

#[export] Instance launch_codec : Codec launch_metadata :=
  codec_of (fun l => (lm_version l, (lm_owner_args l, (lm_dax l, (lm_shares l, lm_vhost_user_fs l)))))
           (fun '(v, (a, (d, (s, f)))) => Some (mk_launch v a d s f)) ltac:(by intros []).

#[export] Instance launch_json : Json launch_metadata := codec_json (fun _ => True).

Definition demo_config (cpus : N) : run_config :=
  mk_config (mk_layout ["b"] "dev" ["k"] None ["b"; "i"] ["b"; "r"] ["b"; "c"]) "/h/w" cpus 512 false None [] false [] None false.

Definition demo_launch : launch_metadata := launch_metadata_for_parts (demo_config 2) "/h" None false true.

Definition text_file (s : string) : node := NFile (mk_file (to_bytes s) 0).

(** A header of version 4 for 512 MiB and two CPUs. *)
Definition demo_header : bytes :=
  VMSTATE_MAGIC ++ to_le_bytes 4 4 ++ to_le_bytes 4 0 ++ to_le_bytes 8 (512 * 1024 * 1024) ++ to_le_bytes 8 0 ++
  to_le_bytes 4 2 ++ to_le_bytes 4 0.

Definition saved : world := mk_world (list_to_map [
  (["s"], NDir);
  (["s"; "initramfs.stamp"], text_file (unlines ["source=abc"; "protocol=12"]));
  (["s"; "launch.json"], NFile (mk_file (to_vec_pretty demo_launch) 0));
  (["s"; "vmstate.bin"], NFile (mk_file demo_header 0));
  (["stamp"], text_file (unlines ["source=abc"; "protocol=12"]))]) 0 0 [].

(** C25: the demo is resumed with its two CPUs and not with three. *)
Lemma restore_exactly_resumable_witness :
  resumable (w_fs saved) ["s"] ["stamp"] demo_launch (deterministic_stamp_content None) (demo_config 2) /\
  ~ resumable (w_fs saved) ["s"] ["stamp"] demo_launch (deterministic_stamp_content None) (demo_config 3).
Proof.
  split.
  - destruct (restore_exactly_resumable quiet (fun _ => eq_refl) saved ["s"] ["stamp"] demo_launch
      (deterministic_stamp_content None) (demo_config 2)) as (w' & _ & [[H _] | [_ [e H]]]); [exact H |].
    exfalso. vm_compute in H. discriminate H.
  - destruct (restore_exactly_resumable quiet (fun _ => eq_refl) saved ["s"] ["stamp"] demo_launch
      (deterministic_stamp_content None) (demo_config 3)) as (w' & _ & [[_ H] | [H _]]); [| exact H].
    exfalso. vm_compute in H. discriminate H.
Defined.

(** The clock a run starts with, at its last tick. *)
Lemma clock_state_roundtrip_witness :
  parse_deterministic_clock_state (deterministic_clock_state_content (mk_clock (u64 - 1) 0 1000000000 7 1 99)) =
  Some (mk_clock (u64 - 1) 0 1000000000 7 1 99).
Proof. apply (clock_state_roundtrip (mk_clock (u64 - 1) 0 1000000000 7 1 99)). by vm_compute. Defined.

(** Splitting an argument in two changes the input. *)
Lemma exec_request_input_injective_witness :
  exec_request_input "s" ["a b"] "/" false false 24 80 <> exec_request_input "s" ["a"; "b"] "/" false false 24 80.
Proof.
  intros Heq.
  destruct (exec_request_input_injective "s" "s" ["a b"] ["a"; "b"] "/" "/" false false false false 24 24 80 80
    eq_refl eq_refl eq_refl eq_refl ltac:(repeat constructor) ltac:(repeat constructor) eq_refl eq_refl eq_refl eq_refl Heq)
    as (_ & H & _). discriminate H.
Defined.

Definition jump_text (n : string) : string := "deadline_ticks=" +:+ n +:+ " counter_frequency_hz=10 deadline_nanos=5".

Definition jumped : world := mk_world (list_to_map [
  (["r"], NDir);
  (["r"; DETERMINISTIC_TIMER_JUMPS], text_file (unlines [jump_text "1"; jump_text "2"]));
  (["r"; DETERMINISTIC_TIMER_JUMPS_CURSOR], text_file (pretty (N.of_nat (String.length (unlines [jump_text "1"])))))]) 0 0 [].

(** Of two jumps the first has been traced; the second is, as event 3. *)
Lemma timer_jumps_traced_once_witness :
  exists w' f', import_deterministic_timer_jumps (["r"] /: "initramfs.stamp") (Some (mk_trace 3 [])) quiet jumped =
      Ok (Some (append_jumps (mk_trace 3 []) (omap timer_jump [jump_text "2"]))) w' /\
    w_fs w' = <[["r"] /: DETERMINISTIC_TIMER_JUMPS_CURSOR := NFile f']> (w_fs jumped) /\
    flushed ["r"] ([jump_text "1"] ++ [jump_text "2"]) (w_fs w').
Proof.
  apply (timer_jumps_traced_once quiet (fun _ => eq_refl) jumped ["r"]
    (mk_file (to_bytes (unlines [jump_text "1"; jump_text "2"])) 0) [jump_text "1"] [jump_text "2"] (mk_trace 3 [])).
  - reflexivity.
  - discriminate.
  - reflexivity.
  - reflexivity.
  - repeat constructor.
  - reflexivity.
  - right. eexists. split; reflexivity.
  - split_and!; [intros z H; inversion H | discriminate | discriminate].
Defined.
