(* ===== verification/Capture.v ===== *)
(** * Captures of a running VM

    [capture] of [src/src/runner/capture.rs], with what it calls in
    [src/src/runner.rs] and [src/src/deterministic.rs]: the generation is
    staged, libkrun writes the paused VM's memory while the owner copies the
    run's disk, the copied disk is checked, the stamps are added and the result
    is published.  What libkrun does to the directory it is asked to capture
    into is the parameter [snapshot_while_paused]. *)

From S2P Require Import Prelude Codec FileSystem FsLogic FsUtil FsCopy Store StoreLogic StoreSafety StorePublish StoreCopy StoreImport.
From S2P Require Import Session Text Paths Legacy Snapshots.

(** [VmHandle::snapshot_while_paused dir copy] of libkrun writes the paused
    VM's memory into [dir] and runs [copy] on the directory it is written to
    before the VM resumes. *)
Class VmCapture := {
  snapshot_while_paused : path -> (path -> M unit) -> M unit;
}.

(** What the [CaptureContext] of an owner holds besides the VM and the
    session.  Other threads add to the trace log, so it is whatever they have
    made of it by the time a capture looks at it. *)
Class CaptureContext := {
  initramfs_stamp : path;
  trace_log_at : nat -> option trace_log;
  deterministic_clock_state : option clock_state;
}.

(** ** The stamps that travel with a snapshot *)

Definition RUNNING_AGENT_STAMP : string := "running-agent.stamp".

Definition write_snapshot_metadata_file (dst : path) (data : bytes) : M unit :=
  _ ← create_dir_all (removelast dst);
  _ ← create_file dst;
  _ ← write_all dst data;
  sync dst.

Definition copy_snapshot_metadata_file (src dst : path) : M unit :=
  _ ← create_dir_all (removelast dst);
  _ ← metadata src;
  _ ← create_file dst;
  data ← fs_read src;
  _ ← write_all dst data;
  sync dst.

Definition snapshot_stamps (stamp : path) : list (path * string) :=
  [(with_file_name stamp RUNNING_AGENT_STAMP, "initramfs.stamp");
   (with_file_name stamp LAUNCH_METADATA, LAUNCH_METADATA);
   (with_file_name stamp "deterministic.stamp", "deterministic.stamp");
   (with_file_name stamp DETERMINISTIC_CLOCK_STATE, DETERMINISTIC_CLOCK_STATE)].

(** The body of the loop of [copy_snapshot_stamp]. *)
Definition copy_stamp (snapshot : path) (clock : option clock_state) (entry : path * string) : M unit :=
  let '(stamp, name) := entry in
  let target := snapshot /: name in
  if bool_decide (name = DETERMINISTIC_CLOCK_STATE) then
    match clock with
    | Some state =>
        r ← attempt (fs_read stamp);
        match r with
        | inl data => write_snapshot_metadata_file target data
        | inr (Io NotFound) => write_deterministic_clock_state target state
        | inr e => fail e
        end
    | None =>
        there ← path_exists stamp;
        if (there : bool) then copy_snapshot_metadata_file stamp target else mret tt
    end
  else copy_snapshot_metadata_file stamp target.

Definition copy_snapshot_stamp (snapshot stamp : path) (trace : option trace_log) (clock : option clock_state)
    : M unit :=
  trace ← import_deterministic_timer_jumps stamp trace;
  _ ← sync_deterministic_clock_event_sequence stamp trace;
  _ ← ensure_deterministic_clock_state_file stamp clock;
  for_each (copy_stamp snapshot clock) (snapshot_stamps stamp).

(** ** Capturing *)

Section capture.
Context `{Json record, Json manifest, Json checkpoint_ref, VmCapture, CaptureContext}.
Context (dir : path).

(** What [capture_vm_state] copies while the VM is paused. *)
Definition paused_copy (r : run) (stg : path) : M unit :=
  _ ← clone_or_copy_file (run_rootfs r) (stg /: ROOTFS);
  clone_shares (run_path r) stg.

(** The disk and the host-share state as they are while the VM is paused. *)
Definition capture_vm_state (d : path) (r : run) : M unit :=
  snapshot_while_paused d (paused_copy r).

(** The trace log at this point of the execution. *)
Definition current_trace_log : M (option trace_log) := fun _ w => Ok (trace_log_at (w_tick w)) w.

(** [CaptureContext::capture] *)
Definition capture (s : run_session) (org : origin) : M (run_session * generation_id) :=
  st ← session_stage dir s;
  _ ← ensure_deterministic_clock_state_file initramfs_stamp deterministic_clock_state;
  _ ← capture_vm_state (s_dir st) (rs_run s);
  _ ← validate_snapshot_rootfs (s_dir st);
  trace ← current_trace_log;
  _ ← copy_snapshot_stamp (s_dir st) initramfs_stamp trace deterministic_clock_state;
  session_publish dir s st org.

(** [Capturer::checkpoint] for a request that names no checkpoint and asks for
    an export: what a fork or a push asks of the owner of a running
    instance. *)
Definition checkpoint_export (s : run_session) (dest : path) : M unit :=
  '(_, id) ← capture s (FromCheckpoint (run_name (rs_run s)));
  session_export dir id dest.

End capture.

(** ** What libkrun promises *)

(** At, below or above a hidden entry of the directory [g]. *)
Definition hidden_in (g q : path) : Prop :=
  exists n, below (g /: String "." n) q \/ below q (g /: String "." n).

(** libkrun writes into the directory it is given and, before that, into a
    hidden one beside it.  It runs [copy] on such a directory, and what [copy]
    makes of an entry that is not one of libkrun's own files is what the
    directory it was given has in the end. *)
Class VmCaptureLaws `{VmCapture} := {
  snapshot_confined g n copy :
    (forall n', modifies (hidden_in g) (copy (g /: String "." n')) /\
                respects keeps_form (copy (g /: String "." n'))) ->
    modifies (hidden_in g) (snapshot_while_paused (g /: String "." n) copy) /\
    respects keeps_form (snapshot_while_paused (g /: String "." n) copy);
  snapshot_delivers E m g n copy name (Q : option node -> Prop) :
    name ∉ [VMSTATE; PAGES] -> well_formed m ->
    (forall n', modifies (hidden_in g) (copy (g /: String "." n')) /\
                respects keeps_form (copy (g /: String "." n'))) ->
    (forall n' m', well_formed m' -> frame (hidden_in g) m m' ->
       triple E (eq m') (copy (g /: String "." n'))
         (fun _ m'' => Q (m'' !! (g /: String "." n' /: name))) (fun _ => True)) ->
    triple E (eq m) (snapshot_while_paused (g /: String "." n) copy)
      (fun _ m' => Q (m' !! (g /: String "." n /: name))) (fun _ => True);
}.

(** ** What a capture leaves alone *)

(** The files beside the stamps that a capture may write. *)
Definition clock_files (stamp q : path) : Prop :=
  q = with_file_name stamp DETERMINISTIC_CLOCK_STATE \/ q = with_file_name stamp DETERMINISTIC_TIMER_JUMPS_CURSOR.

Section stamps.
Context (stamp : path) (F : path -> Prop).
Hypothesis HF : forall q, clock_files stamp q -> F q.

Lemma modifies_ensure_clock state : modifies F (ensure_deterministic_clock_state_file stamp state).
Proof using HF.
  unfold ensure_deterministic_clock_state_file, write_deterministic_clock_state. respects_tac.
  apply modifies_fs_write, HF. by left.
Qed.

Lemma modifies_sync_clock trace : modifies F (sync_deterministic_clock_event_sequence stamp trace).
Proof using HF.
  unfold sync_deterministic_clock_event_sequence, read_to_string, parse_clock, write_deterministic_clock_state.
  respects_tac; apply modifies_fs_write, HF; by left.
Qed.

Lemma modifies_import_jumps trace : modifies F (import_deterministic_timer_jumps stamp trace).
Proof using HF.
  unfold import_deterministic_timer_jumps, read_ok, read_to_string, trace_event. respects_tac.
  apply modifies_fs_write, HF. by right.
Qed.

Lemma modifies_copy_snapshot_stamp snapshot trace clock :
  (forall q, below q snapshot -> F q) ->
  (forall entry, entry ∈ snapshot_stamps stamp -> F (snapshot /: entry.2)) ->
  modifies F (copy_snapshot_stamp snapshot stamp trace clock).
Proof using HF.
  intros Ha Hin. unfold copy_snapshot_stamp.
  respects_step; [apply modifies_import_jumps|]. respects_step; [apply modifies_sync_clock|].
  respects_step; [apply modifies_ensure_clock|]. apply respects_for_each; [apply _|]. intros [p n] Hn%Hin. simpl in Hn.
  assert (Hup : modifies F (create_dir_all (removelast (snapshot /: n)))).
  { rewrite removelast_last. by apply modifies_create_dir_all. }
  unfold copy_stamp, copy_snapshot_metadata_file, write_snapshot_metadata_file, write_deterministic_clock_state.
  respects_tac.
Qed.

End stamps.

Lemma keeps_form_ensure_clock stamp state : respects keeps_form (ensure_deterministic_clock_state_file stamp state).
Proof. unfold ensure_deterministic_clock_state_file, write_deterministic_clock_state. respects_tac. Qed.

Lemma keeps_form_copy_snapshot_stamp snapshot stamp trace clock :
  respects keeps_form (copy_snapshot_stamp snapshot stamp trace clock).
Proof.
  unfold copy_snapshot_stamp, copy_stamp, copy_snapshot_metadata_file, write_snapshot_metadata_file,
    ensure_deterministic_clock_state_file, sync_deterministic_clock_event_sequence,
    import_deterministic_timer_jumps, read_ok, read_to_string, parse_clock, trace_event, write_deterministic_clock_state.
  respects_tac.
Qed.

Lemma respects_validate_rootfs (R : relation fsmap) `{!PreOrder R} d : respects R (validate_snapshot_rootfs d).
Proof.
  unfold validate_snapshot_rootfs, ensure_ext4_has_no_errors, read_ext4_superblock, read_exact_at. respects_tac.
Qed.

Section confined.
Context `{Json record, Json manifest, Json checkpoint_ref, VmCapture, CaptureContext} {Hvm : VmCaptureLaws}.
Context (dir : path).

(** The directory of the stamps, which is the instance's own unless it was
    placed elsewhere, is not one of the store's subdirectories. *)
Definition stamps_apart : Prop :=
  ~ below (generations_dir dir) (removelast initramfs_stamp) /\ ~ below (runs_dir dir) (removelast initramfs_stamp).

Lemma paused_copy_confined r g n' :
  modifies (hidden_in g) (paused_copy r (g /: String "." n')) /\
  respects keeps_form (paused_copy r (g /: String "." n')).
Proof.
  unfold paused_copy. split.
  - respects_step.
    + apply modifies_clone_or_copy_file. intros q Hq%below_up. exists n'. tauto.
    + apply modifies_clone_shares. intros q Hq. by exists n'.
  - respects_step; [auto with frames|apply keeps_form_clone_shares].
Qed.

Lemma capture_vm_state_confined id r :
  modifies (hidden_in (generations_dir dir)) (capture_vm_state (staging_dir dir id) r) /\
  respects keeps_form (capture_vm_state (staging_dir dir id) r).
Proof using Type*.
  apply (snapshot_confined (generations_dir dir) ("staging-" +:+ id)). apply paused_copy_confined.
Qed.

(** All a capture may touch. *)
Definition capture_touches (q : path) : Prop := around (generations_dir dir) q \/ clock_files initramfs_stamp q.

Lemma hidden_around q : hidden_in (generations_dir dir) q -> around (generations_dir dir) q.
Proof.
  intros [n [Hq|Hq]]; [right; by eapply below_child|].
  apply below_snoc_inv in Hq as [->|Hq]; [right; apply below_snoc|by left].
Qed.

Lemma modifies_session_stage s : modifies capture_touches (session_stage dir s).
Proof.
  unfold session_stage. apply modifies_staged; [by left|]. intros st Hd _. respects_tac.
  rewrite Hd. apply modifies_clone_listed. intros q Hq. left. eapply around_child. destruct Hq; [by right|by left].
Qed.

Lemma modifies_capture s org : modifies capture_touches (capture dir s org).
Proof using Type*.
  unfold capture.
  eapply respects_bind_returns; [apply _|apply modifies_session_stage|apply returns_session_stage|].
  intros st [Hd _]. rewrite Hd. respects_step; [apply modifies_ensure_clock; by right|]. respects_step.
  { eapply modifies_mono; [|apply capture_vm_state_confined]. intros q Hq. left. by apply hidden_around. }
  respects_step; [apply respects_validate_rootfs; apply _|]. respects_step; [by intros E w|]. respects_step.
  { apply modifies_copy_snapshot_stamp; [by right|..].
    - intros q Hq. left. eapply around_child. by left.
    - intros entry _. left. right. do 2 eapply below_child. apply below_refl. }
  unfold session_publish. respects_step; [apply modifies_publish; [by left|done]|respects_tac].
Qed.

Lemma keeps_form_capture s org : respects keeps_form (capture dir s org).
Proof using Type*.
  unfold capture. eapply respects_bind_returns; [apply _| |apply returns_session_stage|].
  { unfold session_stage, stage. respects_tac. apply keeps_form_clone_listed. }
  intros st [Hd _]. rewrite Hd. respects_step; [apply keeps_form_ensure_clock|].
  respects_step; [apply capture_vm_state_confined|].
  respects_step; [apply respects_validate_rootfs; apply _|]. respects_step; [by intros E w|].
  respects_step; [apply keeps_form_copy_snapshot_stamp|]. unfold session_publish, publish. respects_tac.
Qed.

Context (K R : string -> Prop).
Abbreviation safe := (respects (guards dir K R)).

Lemma elsewhere_hidden q : hidden_in (generations_dir dir) q -> elsewhere dir K R q.
Proof.
  intros [n Hq].
  assert (Hn : ~ (GENERATIONS_DIR = GENERATIONS_DIR /\ K (String "." n) /\ valid_id (String "." n)))
    by (intros (_ & _ & []%valid_not_dot)).
  destruct Hq as [Hq|Hq].
  - eapply elsewhere_entry, Hq; [done|exact Hn|by intros []].
  - eapply elsewhere_scaffold, Hq; [done|exact Hn|by intros []].
Qed.

Lemma elsewhere_clock_files q : stamps_apart -> clock_files initramfs_stamp q -> elsewhere dir K R q.
Proof.
  intros [Hg Hr] Hq. assert (exists x, x <> STATE_FILE /\ q = removelast initramfs_stamp /: x) as (x & Hx & ->)
    by (destruct Hq as [->| ->]; eexists; (split; [|done]); done).
  assert (Hin : forall a id, below (dir /: a /: id) (removelast initramfs_stamp /: x) ->
                  below (dir /: a) (removelast initramfs_stamp)).
  { intros a id Hb. apply below_snoc_inv in Hb as [Hb|Hb]; [|by eapply below_child].
    apply app_inj_tail in Hb as [Hb _]. rewrite <- Hb. apply below_refl. }
  split_and!.
  - unfold state_path. intros [_ Heq]%app_inj_tail. by apply Hx.
  - intros id _ _ Hb. by eapply Hg, Hin.
  - intros r _ Hb. by eapply Hr, Hin.
Qed.

Lemma safe_ensure_clock state :
  stamps_apart -> safe (ensure_deterministic_clock_state_file initramfs_stamp state).
Proof.
  intros Hap. apply respects_guards; [|apply keeps_form_ensure_clock]. apply modifies_ensure_clock.
  intros q. by apply elsewhere_clock_files.
Qed.

Lemma safe_capture_vm_state id r : safe (capture_vm_state (staging_dir dir id) r).
Proof using Type*.
  destruct (capture_vm_state_confined id r) as [Hm Hf]. apply respects_guards; [|exact Hf].
  eapply modifies_mono; [apply elsewhere_hidden|exact Hm].
Qed.

Lemma safe_copy_snapshot_stamp id trace clock :
  stamps_apart -> safe (copy_snapshot_stamp (staging_dir dir id) initramfs_stamp trace clock).
Proof.
  intros Hap. apply respects_guards; [|apply keeps_form_copy_snapshot_stamp]. apply modifies_copy_snapshot_stamp.
  - intros q. by apply elsewhere_clock_files.
  - intros q Hq. eapply elsewhere_staging. right. exact Hq.
  - intros entry _. eapply elsewhere_staging. left. apply below_snoc.
Qed.

Lemma safe_capture s org : stamps_apart -> safe (capture dir s org).
Proof using Type*.
  intros Hap. unfold capture.
  eapply respects_bind_returns; [apply _|apply safe_session_stage|apply returns_session_stage|].
  intros st [Hd _]. rewrite Hd. respects_step; [by apply safe_ensure_clock|].
  respects_step; [apply safe_capture_vm_state|].
  respects_step; [apply respects_validate_rootfs; apply _|]. respects_step; [by intros E w|].
  respects_step; [by apply safe_copy_snapshot_stamp|].
  unfold session_publish. respects_step; [by apply guards_publish|respects_tac].
Qed.

End confined.

(** ** What a capture saves *)

Section captured.
Context `{Json record, Json manifest, Json checkpoint_ref}.
Context `{!JsonLaws record valid_record, !JsonLaws manifest valid_manifest}.
Context (dir : path).

Abbreviation gdir := (generation_dir dir).

(** [id] is a complete generation with this parent and origin, other than the
    latest one of [rec], whose disk is [data]. *)
Definition captured (rec : record) (data : bytes) (par : option generation_id) (org : origin)
    (id : generation_id) (m : fsmap) : Prop :=
  r_latest rec <> Some id /\
  exists mf, complete_as dir m id mf /\ m_parent mf = par /\ m_origin mf = org /\
    contents_at m (gdir id /: ROOTFS) = Some data.

(** The store says stopped, with such a generation as its latest. *)
Definition saved (rec : record) (data : bytes) (par : option generation_id) (org : origin)
    (id : generation_id) (m : fsmap) : Prop :=
  good dir m (mk_record RECORD_VERSION (Some id) Stopped) /\ captured rec data par org id m.

Lemma captured_same rec data par org id m m' :
  captured rec data par org id m -> same_tree (gdir id) m m' -> captured rec data par org id m'.
Proof.
  intros (Hn & mf & Hc & Hp & Ho & Hd) Hs. split; [done|]. exists mf.
  split_and!; [by eapply complete_as_same|done..|].
  unfold contents_at in *. by rewrite (Hs (gdir id /: ROOTFS)) by apply below_snoc.
Qed.

Context (E : env) (m0 : fsmap) (rec : record) (data : bytes) (par : option generation_id) (org : origin).

Lemma t_publish_captured m st :
  kept dir m0 rec rec m -> s_dir st = staging_dir dir (s_id st) -> valid_id (s_id st) ->
  match par with Some id => valid_id id | None => True end ->
  match origin_run org with Some run => valid_id run | None => True end ->
  contents_at m (s_dir st /: ROOTFS) = Some data ->
  triple E (eq m) (publish dir st par org)
    (fun id m' => kept dir m0 rec rec m' /\ captured rec data par org id m') (kept dir m0 rec rec).
Proof using Type*.
  intros Hk Hst Hid Hpar Horg Hd.
  eapply t_conseq; [apply t_also; [eapply t_conseq; [apply (kept_guards dir E m0 rec rec), guards_publish, Hst|..]|
    apply t_also; [by apply (t_publish dir E m st par org)|by apply (t_publish_new dir E m st par org); [|apply Hk]]]|done| |done].
  - by intros ? <-.
  - intros ? m' Hm. exact Hm.
  - done.
  - intros id m' (Hk' & (-> & mf & Hc & Hp & Ho & Hl & Ht) & Hnew). split; [done|]. split.
    + intros Hlat. destruct (good_complete_occupied dir m (s_id st)) as [x Hx]; [by apply Hk|]. by apply Hnew; exists x.
    + exists mf. split_and!; [done..|]. unfold contents_at in *. by rewrite (Ht ROOTFS []).
Qed.

Lemma t_commit_captured m id :
  kept dir m0 rec rec m -> captured rec data par org id m ->
  triple E (eq m) (commit_latest dir id)
    (fun _ => saved rec data par org id) (fun m' => kept dir m0 rec rec m' \/ saved rec data par org id m').
Proof using Type*.
  intros Hk Hc. eapply t_conseq; [by apply (t_commit_latest dir E m0 m rec id)|done|..].
  - intros _ m' [Hg Hs]. split; [done|]. by eapply captured_same.
  - intros m' [?|[Hg Hs]]; [by left|right]. split; [done|]. by eapply captured_same.
Qed.

End captured.

Section run.
Context `{Json record, Json manifest, Json checkpoint_ref}.
Context `{!JsonLaws record valid_record, !JsonLaws manifest valid_manifest}.
Context (dir : path) (E : env) (run : run_id) (data : bytes) (m0 : fsmap) (rec : record).
Hypothesis Hgood : good dir m0 rec.
Hypothesis Hrun : phase_run (r_phase rec) = Some run.
Hypothesis Hdisk : contents_at m0 (run_dir dir run /: ROOTFS) = Some data.

Lemma run_valid_id : valid_id run.
Proof using Hgood Hrun JsonLaws0 JsonLaws1.
  destruct (good_record_valid _ _ _ Hgood) as [_ Hp]. unfold valid_phase in Hp.
  by destruct (r_phase rec); simplify_eq/=.
Qed.

(** What keeps the run keeps its disk. *)
Lemma run_disk_kept m : kept dir m0 rec rec m -> contents_at m (run_dir dir run /: ROOTFS) = Some data.
Proof using Hrun Hdisk.
  intros (_ & _ & Hr). unfold contents_at in *. by rewrite (Hr run Hrun Hrun _ (below_snoc _ _)).
Qed.

(** Salvage saves the run's disk too. *)
Lemma t_salvage_saves owner :
  r_phase rec = Dirty run owner ->
  triple E (eq m0) (salvage dir) (fun id => saved dir rec data (r_latest rec) (Salvage run) id)
    (fun m => kept dir m0 rec rec m \/ exists id, saved dir rec data (r_latest rec) (Salvage run) id m).
Proof using Type* JsonLaws0 JsonLaws1.
  intros Hph. assert (Hk0 : kept dir m0 rec rec m0) by by apply good_kept.
  destruct (good_record_valid _ _ _ Hgood) as [Hl _]. unfold salvage.
  eapply t_bind; [by apply t_require_record; [|by left]|]. intros rec'. apply t_start. intros ? [-> <-]. rewrite Hph.
  eapply t_bind; [by apply t_stage; [|by left]|]. intros st. apply t_start. intros m1 [[Hk1 _] [Hst Hid]].
  destruct (run_staging_apart dir run (s_id st)) as [Hsd Hds]. rewrite <- Hst in Hsd, Hds.
  apply t_bind_assoc. eapply t_bind.
  { apply t_also; [|apply (t_clone_root E (run_dir dir run) (s_dir st) m1); [apply Hk1|done|done]].
    eapply t_conseq; [apply (kept_guards dir E m0 rec rec)|by intros ? <-|intros ? m Hm; exact Hm|by left].
    rewrite Hst. respects_step; [apply guards_clone_file|apply guards_clone_shares]. }
  intros []. apply t_start. intros m2 [Hk2 [[Hc _] _]].
  assert (Hd2 : contents_at m2 (s_dir st /: ROOTFS) = Some data).
  { destruct (Hc ROOTFS) as (f & b & Hs & Hd); [set_solver|]. assert (Hd1 := run_disk_kept m1 Hk1).
    unfold contents_at in *. rewrite Hs in Hd1. by rewrite Hd. }
  eapply t_bind; [eapply t_conseq; [apply (t_publish_captured dir E m0 rec data (r_latest rec) (Salvage run) m2 st);
    try done; apply run_valid_id|done|intros id m Hm; exact Hm|by left]|].
  intros id. apply t_start. intros m3 [Hk3 Hc3].
  apply t_bind with (R := fun _ => saved dir rec data (r_latest rec) (Salvage run) id); [|intros []; by apply t_ret].
  eapply t_conseq; [by apply (t_commit_captured dir E m0 rec data (r_latest rec) (Salvage run) m3 id)|done|done|].
  intros m [?|?]; eauto.
Qed.

End run.

Section saves.
Context `{Json record, Json manifest, Json checkpoint_ref, VmCapture, CaptureContext} {Hvm : VmCaptureLaws}.
Context `{!JsonLaws record valid_record, !JsonLaws manifest valid_manifest}.
Context (dir : path) (E : env) (run : run_id) (data : bytes).

Lemma not_hidden_run n : ~ hidden_in (generations_dir dir) (run_dir dir run /: n).
Proof.
  intros [n' [Hb|Hb]].
  - apply below_spec in Hb as [s Hs]. unfold run_dir, runs_dir, generations_dir in Hs.
    rewrite <- !app_assoc in Hs. apply app_inv_head in Hs. by simplify_eq/=.
  - apply below_child in Hb. by eapply (entries_apart dir RUNS_DIR run GENERATIONS_DIR (String "." n')).
Qed.

(** The disk copied while the VM is paused is the run's. *)
Lemma t_paused_disk r m n :
  run_path r = run_dir dir run -> well_formed m -> contents_at m (run_dir dir run /: ROOTFS) = Some data ->
  triple E (eq m) (capture_vm_state (generations_dir dir /: String "." n) r)
    (fun _ m' => contents_at m' (generations_dir dir /: String "." n /: ROOTFS) = Some data) (fun _ => True).
Proof using Type* JsonLaws0 JsonLaws1.
  intros Hr Hwf Hd. set (Q := fun o : option node => match o with Some (NFile f) => f_data f = data | _ => False end).
  eapply t_conseq; [apply (snapshot_delivers E m (generations_dir dir) n (paused_copy r) ROOTFS Q);
    [set_solver|done|apply paused_copy_confined|]|done| |done].
  - intros n' m' Hwf' Hf'. unfold paused_copy, run_rootfs. rewrite Hr.
    eapply t_conseq; [apply (t_clone_root E (run_dir dir run) (generations_dir dir /: String "." n') m');
      [done|by apply entries_apart..]|done| |done].
    intros ? m'' [[Hc _] _]. destruct (Hc ROOTFS) as (f & b & Hs & ->); [set_solver|]. simpl.
    unfold contents_at in Hd. rewrite <- (Hf' _ (not_hidden_run ROOTFS)), Hs in Hd. by simplify_eq/=.
  - intros ? m'. unfold Q, contents_at. destruct (m' !! _) as [[]|]; [|done..]. by intros ->.
Qed.

(** Adding the stamps leaves the captured disk as it is. *)
Lemma modifies_stamps_disk d trace clock :
  modifies (fun q => q <> d /: ROOTFS) (copy_snapshot_stamp d initramfs_stamp trace clock).
Proof.
  apply modifies_copy_snapshot_stamp.
  - intros q Hq. destruct Hq as [->| ->]; by intros [_ ?]%app_inj_tail.
  - intros q Hq ->. by eapply not_below_child.
  - intros entry Hin [_ Heq]%app_inj_tail. unfold snapshot_stamps in Hin.
    repeat (apply elem_of_cons in Hin as [->|Hin]; [done|]). by apply elem_of_nil in Hin.
Qed.

Context (m0 : fsmap) (rec : record).
Hypothesis Hgood : good dir m0 rec.
Hypothesis Hrun : phase_run (r_phase rec) = Some run.
Hypothesis Hdisk : contents_at m0 (run_dir dir run /: ROOTFS) = Some data.

(** A step of a capture that keeps what the record names and the disk at
    [p], if it is there. *)
Lemma t_keep_disk {A : Type} (c : M A) p :
  respects (guards dir (fun id => r_latest rec = Some id) (fun r => phase_run (r_phase rec) = Some r)) c ->
  modifies (fun q => q <> p) c ->
  triple E (fun m => kept dir m0 rec rec m /\ contents_at m p = Some data) c
    (fun _ m => kept dir m0 rec rec m /\ contents_at m p = Some data) (kept dir m0 rec rec).
Proof using Type* JsonLaws0 JsonLaws1.
  intros Hs Hm w [Hk Hp]. assert (Ht := kept_guards dir E m0 rec rec c Hs w Hk). specialize (Hm E w p).
  unfold contents_at in *. destruct (c E w); [|done..]. split; [done|]. simpl in Hm. rewrite Hm; [done|]. intros Hne. by apply Hne.
Qed.

(** A capture is a new complete generation with the disk the run had, and
    nothing else the record names has changed, however it ends. *)
Lemma t_capture s org :
  stamps_apart dir -> run_path (rs_run s) = run_dir dir run ->
  match g_id <$> base s with Some id => valid_id id | None => True end ->
  match origin_run org with Some r => valid_id r | None => True end ->
  triple E (eq m0) (capture dir s org)
    (fun r m => r.1 = set_last_capture r.2 s /\ kept dir m0 rec rec m /\
       captured dir rec data (g_id <$> base s) org r.2 m)
    (kept dir m0 rec rec).
Proof using Type* JsonLaws0 JsonLaws1.
  intros Hap Hr Hbase Horg. unfold capture.
  eapply t_bind; [eapply t_conseq; [apply t_returns; [apply (kept_guards dir E m0 rec rec), safe_session_stage|
    apply returns_session_stage]|intros ? <-; by apply good_kept|intros st m Hm; exact Hm|done]|].
  intros st. apply t_start. intros m1 [Hk1 [Hst Hid]]. rewrite Hst.
  eapply t_bind; [eapply t_conseq; [apply (kept_guards dir E m0 rec rec), safe_ensure_clock, Hap|by intros ? <-| |done];
    intros ? m Hm; exact Hm|].
  intros []. apply t_start. intros m2 Hk2.
  eapply t_bind; [apply t_also; [eapply t_conseq; [apply (kept_guards dir E m0 rec rec), safe_capture_vm_state|
    by intros ? <-|intros ? m Hm; exact Hm|done]|
    by apply (t_paused_disk (rs_run s) m2 ("staging-" +:+ s_id st)); [|apply Hk2|eapply run_disk_kept]]|].
  intros []. eapply t_bind; [apply t_keep_disk; apply respects_validate_rootfs; apply _|].
  intros []. eapply t_bind; [apply t_keep_disk; by intros E' w|]. intros trace.
  eapply t_bind; [apply t_keep_disk; [by apply safe_copy_snapshot_stamp|apply modifies_stamps_disk]|].
  intros []. apply t_start. intros m3 [Hk3 Hd3]. unfold session_publish.
  assert (Hd : contents_at m3 (s_dir st /: ROOTFS) = Some data) by (rewrite Hst; exact Hd3).
  eapply t_bind; [by apply (t_publish_captured dir E m0 rec data (g_id <$> base s) org m3 st)|].
  intros id. apply t_ret. intros m [Hk Hc]. done.
Qed.

End saves.
