(* ===== verification/SessionRun.v ===== *)
(** * The session behind a running owner

    [RunSession] as the run of the transition system of [Owner.v]: the
    operations its broker and its capture worker use, as steps on the session
    and the file system, and a proof that they keep what the owner relies on,
    whatever system calls fail.  *)

From S2P Require Import Prelude Protocol Broker Owner.
From S2P Require Import FileSystem FsLogic FsUtil Store StoreLogic StoreSafety Session Capture.

(** [{error:#}] *)
Definition error_text (e : error) : string :=
  match e with
  | Io _ => "I/O error"
  | Bail msg => msg
  | CrashedWithUnsavedState _ run => "crashed with unsaved state in run " +:+ run
  end.

(** A session and the file system it works on. *)
Abbreviation live_run := (run_session * world)%type.

(** What a guest sends when it is asked for its final snapshot: its first
    connection, if it comes in time, with what can be read from it and whether
    what ends it is a failure (not its end, or 250 ms without a byte), and
    its second connection. *)
Record snapshot_guest := mk_guest {
  g_stream : option bytes;
  g_broken : bool;
  g_reconnect : option bytes;
}.

Definition FRAME_SNAPSHOT : byte := "K"%byte.

(** The handshake of [serve_snapshot]: nothing if the guest has flushed its
    disks, or an error. *)
Definition snapshot_handshake (g : snapshot_guest) : option string :=
  match g_stream g with
  | None => Some "timed out"
  | Some s =>
      match read_exact 1 s with
      | inr _ => Some "failed to fill whole buffer"
      | inl (frame_type, s) =>
          match read_u32 s with
          | inr _ => Some "failed to fill whole buffer"
          | inl (len, s) =>
              if negb (bool_decide (frame_type = [FRAME_SNAPSHOT])) || negb (len =? 0)%N
              then Some "bad snapshot request"
              else
                let ready :=
                  match read_exact 1 s with
                  | inl (ready, _) => inl ready
                  | inr _ =>
                      if g_broken g then inr "read snapshot ready"
                      else
                        match g_reconnect g with
                        | None => inr "accept snapshot ready reconnect"
                        | Some s =>
                            match read_exact 1 s with
                            | inl (ready, _) => inl ready
                            | inr _ => inr "read snapshot ready reconnect"
                            end
                        end
                  end in
                match ready with
                | inl ready => if bool_decide (ready = ["R"%byte]) then None else Some "bad snapshot ready"
                | inr e => Some e
                end
          end
      end
  end.

Section session_run.
Context `{Json record, Json manifest, Json checkpoint_ref}.
Context (E : env) (dir : path) `{VmCapture, CaptureContext}.

(** How the guest asks for its final snapshot. *)
Context (guest : snapshot_guest).

Definition run_id_of (s : run_session) : run_id := run_name (rs_run s).

(** A computation that changes the session only when it succeeds. *)
Definition step_session {A} (s : run_session) (r : outcome (run_session * A))
    : option (live_run * (A + string)) :=
  match r with
  | Ok (s', a) w' => Some ((s', w'), inl a)
  | Err e w' => Some ((s, w'), inr (error_text e))
  | Crash _ => None
  end.

(** A computation that leaves the session alone. *)
Definition step_unit (s : run_session) (r : outcome unit) : option (live_run * option string) :=
  match r with
  | Ok _ w' => Some ((s, w'), None)
  | Err e w' => Some ((s, w'), Some (error_text e))
  | Crash _ => None
  end.

(** [unix_seconds] *)
Definition unix_seconds (nanos : N) : N := ((nanos / 10 ^ 9) `mod` 2 ^ 64)%N.

(** [Capturer::checkpoint]'s reference to a capture. *)
Definition record_checkpoint (spec : checkpoint_spec) (id : string) : M unit :=
  match spec_id spec with
  | Some cid =>
      nanos ← clock;
      session_add_checkpoint dir (mk_checkpoint cid (spec_name spec) id (unix_seconds nanos))
  | None => mret tt
  end.

(** [serve_snapshot], and the commit of what it captured. *)
Definition final_snapshot (s : run_session) (w : world) : option (live_run * option string) :=
  match snapshot_handshake guest with
  | Some e => Some ((s, w), Some e)
  | None =>
      match step_session (guest_quiesced s) (capture dir (guest_quiesced s) (Snapshot (run_id_of s)) E w) with
      | Some ((s', w'), inl id) => step_unit s' (commit_final dir id E w')
      | Some (d, inr e) => Some (d, Some e)
      | None => None
      end
  end.

(** The end of [run_owner], once the owner's thread has come to the final
    snapshot: a run that fails to be saved is abandoned, and a failure to do
    that is only logged. *)
Definition end_owner (instance : string) (s : run_session) (w : world) : option (world * option string) :=
  match final_snapshot s w with
  | Some ((_, w'), None) => Some (w', None)
  | Some ((s', w'), Some e) =>
      match abandon dir instance s' e E w' with
      | Ok _ w'' | Err _ w'' => Some (w'', Some e)
      | Crash _ => None
      end
  | None => None
  end.

#[export] Instance session_run : OwnedRun live_run := {|
  run_mark_dirty '(s, w) :=
    match session_mark_dirty dir s E w with
    | Ok s' w' => Some ((s', w'), None)
    | Err e w' => Some ((s, w'), Some (error_text e))
    | Crash _ => None
    end;
  run_capture o '(s, w) :=
    let org := match o with
               | CheckpointOrigin => FromCheckpoint (run_id_of s)
               | SnapshotExitOrigin => SnapshotExit (run_id_of s)
               end in
    step_session s (capture dir s org E w);
  run_add_checkpoint spec id '(s, w) := step_unit s (record_checkpoint spec id E w);
  run_export id dest '(s, w) := step_unit s (session_export dir id dest E w);
  run_advance id '(s, w) := step_unit s (advance dir s id E w);
  run_final '(s, w) := final_snapshot s w;
|}.

(** The store is good, its record names this run as live and, if the session
    says so, as dirty. *)
Definition run_valid (d : live_run) : Prop :=
  exists rec, good dir (w_fs d.2) rec /\ phase_run (r_phase rec) = Some (run_id_of d.1) /\
  (rs_dirty d.1 = true -> exists owner, r_phase rec = Dirty (run_id_of d.1) owner).

(** The record says that the run holds state a client relies on. *)
Definition run_dirty (d : live_run) : Prop :=
  exists rec owner, good dir (w_fs d.2) rec /\ r_phase rec = Dirty (run_id_of d.1) owner.

End session_run.

(** ** What the owner relies on *)

Section session_laws.
Context `{Json record, Json manifest, Json checkpoint_ref}.
Context `{!JsonLaws record valid_record, !JsonLaws manifest valid_manifest}.
Context (E : env) (dir : path) `{VmCapture, CaptureContext} {Hvm : VmCaptureLaws} (guest : snapshot_guest).
Hypothesis Hap : stamps_apart dir.

(** An operation that guards what a record names keeps the store good. *)
Lemma good_safe {A : Type} (c : M A) rec w :
  respects (guards dir (fun id => r_latest rec = Some id)
                       (fun r => phase_run (r_phase rec) = Some r)) c ->
  good dir (w_fs w) rec -> good dir (w_fs (left_by (c E w))) rec.
Proof using JsonLaws0 JsonLaws1.
  intros Hc Hg. pose proof (kept_guards dir E (w_fs w) rec rec c Hc w (good_kept dir _ _ Hg)) as Ht.
  by destruct (c E w); destruct Ht as (? & _).
Qed.

(** Keeping the store good keeps the run valid, and dirty. *)
Lemma keeps_run s w s' w' :
  run_id_of s' = run_id_of s -> rs_dirty s' = rs_dirty s ->
  (forall rec, good dir (w_fs w) rec -> phase_run (r_phase rec) = Some (run_id_of s) ->
     exists rec', good dir (w_fs w') rec' /\ r_phase rec' = r_phase rec) ->
  run_valid dir (s, w) ->
  run_valid dir (s', w') /\ (run_dirty dir (s, w) -> run_dirty dir (s', w')).
Proof.
  intros Hid Hdi Hk (rec & Hg & Hp & Hd). simpl in *. destruct (Hk rec Hg Hp) as (rec' & Hg' & Hp').
  split.
  - exists rec'. simpl. rewrite Hp', Hid, Hdi. done.
  - intros (rec1 & owner & Hg1 & Hp1). simpl in *.
    destruct (Hk rec1 Hg1) as (rec2 & Hg2 & Hp2); [by rewrite Hp1|].
    exists rec2, owner. simpl. by rewrite Hp2, Hid.
Qed.

Lemma keeps_safe {A : Type} (c : M A) s w s' w' :
  run_id_of s' = run_id_of s -> rs_dirty s' = rs_dirty s ->
  (forall K R, respects (guards dir K R) c) -> left_by (c E w) = w' ->
  run_valid dir (s, w) ->
  run_valid dir (s', w') /\ (run_dirty dir (s, w) -> run_dirty dir (s', w')).
Proof using Type*.
  intros Hid Hdi Hc <-. apply keeps_run; [done..|]. intros rec Hg _. exists rec. split; [|done].
  by apply good_safe.
Qed.

Lemma keeps_step_unit (c : M unit) s w d' r :
  (forall K R, respects (guards dir K R) c) -> run_valid dir (s, w) ->
  step_unit s (c E w) = Some (d', r) ->
  run_valid dir d' /\ (run_dirty dir (s, w) -> run_dirty dir d').
Proof using Type*.
  intros Hc Hv He. unfold step_unit in He. destruct d' as [s' w']. eapply keeps_safe; [..|exact Hc| |exact Hv].
  all: destruct (c E w); by simplify_eq/=.
Qed.

Lemma capture_session s org w s' id w' :
  capture dir s org E w = Ok (s', id) w' -> s' = set_last_capture id s.
Proof.
  unfold capture, session_publish, mbind, M_bind, mret, M_ret. intros Hc.
  repeat (case_match; simplify_eq/=); done.
Qed.

Lemma advance_keeps_run s id w d' r :
  run_valid dir (s, w) -> step_unit s (advance dir s id E w) = Some (d', r) ->
  run_valid dir d' /\ (run_dirty dir (s, w) -> run_dirty dir d').
Proof using JsonLaws0 JsonLaws1 H1.
  intros Hv He. destruct d' as [s' w'].
  assert (s' = s /\ w' = left_by (advance dir s id E w)) as [-> ->].
  { unfold step_unit in He. destruct (advance dir s id E w); by simplify_eq/=. }
  revert Hv. apply keeps_run; [done..|]. intros rec Hg _.
  pose proof (sound_advance dir (mk_process 0 0) E (w_fs w) rec (run_id_of s) id w (good_kept dir _ _ Hg)) as Ht.
  unfold advance in *. simpl in Ht. fold (run_id_of s).
  assert (settled dir (mk_process 0 0) (AdvanceLatest (run_id_of s) id) (w_fs w) rec
    (w_fs (left_by (advance_latest dir (run_id_of s) id E w)))) as (rec' & Hc & Hg' & _).
  { destruct (advance_latest dir (run_id_of s) id E w); [|done..].
    destruct Ht as (rec' & Hc & Hk). exists rec'. auto. }
  exists rec'. split; [done|]. destruct Hc as [->|Hc]; [done|]. by inversion Hc.
Qed.

Lemma mark_dirty_marks s w d' r :
  run_valid dir (s, w) -> run_mark_dirty (OwnedRun := session_run E dir guest) (s, w) = Some (d', r) ->
  run_valid dir d' /\ (run_dirty dir (s, w) \/ r = None -> run_dirty dir d').
Proof using Type*.
  intros (rec & Hg & Hp & Hd) He. simpl in *. unfold session_mark_dirty in He.
  destruct (rs_dirty s) eqn:Edi.
  { simplify_eq/=. split; [exists rec; simpl; by rewrite Edi|]. intros _.
    destruct (Hd eq_refl) as [owner Ho]. by exists rec, owner. }
  pose proof (sound_mark_dirty dir (mk_process 0 0) E (w_fs w) rec (run_id_of s) w (good_kept dir _ _ Hg)) as Ht.
  simpl in Ht. unfold mbind, M_bind, mret, M_ret in He. fold (run_id_of s) in He.
  destruct (mark_dirty dir (run_id_of s) E w) as [u w1|e w1|w1]; simplify_eq/=.
  - destruct Ht as (rec' & Hc & Hg' & _).
    assert (exists owner, r_phase rec' = Dirty (run_id_of s) owner) as [owner Ho] by (inversion Hc; subst; eauto).
    split; [|intros _; by exists rec', owner]. exists rec'. simpl. rewrite Ho.
    split_and!; [done|done|]. intros _. by exists owner.
  - destruct Ht as (rec' & Hc & Hg' & _).
    assert (phase_run (r_phase rec') = Some (run_id_of s)) as Hp'.
    { destruct Hc as [->|Hc]; [done|]. by inversion Hc; subst. }
    split; [by exists rec'; simpl; rewrite Edi|]. intros [(rec1 & owner & Hg1 & Ho)|]; [|done]. simpl in *.
    assert (rec1 = rec) as ->.
    { destruct Hg as (_ & Hr & _), Hg1 as (_ & Hr1 & _). congruence. }
    exists rec', owner. split; [done|]. destruct Hc as [->|Hc]; [done|].
    inversion Hc; subst; simpl in *; congruence.
Qed.

Lemma session_run_laws :
  OwnedRunLaws live_run (H := session_run E dir guest) (run_valid dir) (run_dirty dir) (exportable dir).
Proof using Type*.
  split.
  - intros [s w] d' r Hv He. by eapply mark_dirty_marks.
  - intros [s w] o d' r Hv He. simpl in He. unfold step_session in He. destruct d' as [s' w'].
    revert He. set (org := match o with CheckpointOrigin => _ | SnapshotExitOrigin => _ end). intros He.
    eapply keeps_safe; [..|intros K R; apply (safe_capture dir K R s org Hap)| |exact Hv].
    all: destruct (capture _ _ _ _ _) as [[s1 id] w1|e w1|w1] eqn:Ec; simplify_eq/=; try done.
    all: by rewrite (capture_session _ _ _ _ _ _ Ec).
  - intros [s w] spec id d' r Hv He. simpl in He. eapply keeps_step_unit; [|exact Hv|exact He].
    intros K R. unfold record_checkpoint. respects_tac. apply guards_add_checkpoint.
  - intros [s w] id dest d' r Hx Hv He. simpl in He. eapply keeps_step_unit; [|exact Hv|exact He].
    intros K R. by apply safe_session_export.
  - intros [s w] id d' r Hv He. simpl in He. by eapply advance_keeps_run.
Qed.

End session_laws.

(** ** Ending a run *)

Section ending.
Context `{Json record, Json manifest, Json checkpoint_ref}.
Context `{!JsonLaws record valid_record, !JsonLaws manifest valid_manifest}.
Context (dir : path) (E : env).

(** What an operation of the store leaves, however it ends. *)
Lemma perform_settles current o rec w :
  admissible dir o -> good dir (w_fs w) rec ->
  exists rec', good dir (w_fs (left_by (perform dir current o E w))) rec' /\
    (rec' = rec \/ commits current o rec rec') /\
    (forall u w1, perform dir current o E w = Ok u w1 -> commits current o rec rec').
Proof using JsonLaws0 JsonLaws1.
  intros Ha Hg.
  pose proof (perform_sound dir current E o (w_fs w) rec Ha w (good_kept dir _ _ Hg)) as Ht.
  destruct (perform dir current o E w) as [u w1|e w1|w1]; simpl.
  - destruct Ht as (rec' & Hc & Hk & _). exists rec'. auto.
  - destruct Ht as (rec' & Hc & Hk & _). exists rec'. by split_and!.
  - destruct Ht as (rec' & Hc & Hk & _). exists rec'. by split_and!.
Qed.

Lemma abandon_run_settles run rec w :
  good dir (w_fs w) rec ->
  exists rec', good dir (w_fs (left_by (abandon_run dir run E w))) rec' /\
    (rec' = rec \/ (exists owner, r_phase rec = Running run owner) /\
       rec' = mk_record RECORD_VERSION (r_latest rec) Stopped) /\
    (forall u w1, abandon_run dir run E w = Ok u w1 -> r_phase rec' = Stopped).
Proof using JsonLaws0 JsonLaws1.
  intros Hg. destruct (perform_settles (mk_process 0 0) (AbandonRun run) rec w I Hg) as (rec' & Hg' & Hc & Hok).
  exists rec'. split_and!; [done| |].
  - destruct Hc as [->|Hc]; [by left|right]. inversion Hc; subst; simpl in *; try done; eauto.
  - intros u w1 Ho. specialize (Hok u w1 Ho). by inversion Hok.
Qed.

(** The notice for the next command touches nothing the record names. *)
Lemma guards_notice K R b : respects (guards dir K R) (fs_write (dir /: LAST_RUN_NOTICE) b).
Proof.
  apply respects_guards; [|auto with frames]. apply modifies_fs_write.
  eapply elsewhere_above, below_refl. done.
Qed.

Lemma salvage_notice_settles b rec w :
  good dir (w_fs w) rec ->
  let c := _ ← salvage dir; fs_write (dir /: LAST_RUN_NOTICE) b in
  exists rec', good dir (w_fs (left_by (c E w))) rec' /\
    (rec' = rec \/ exists id, rec' = mk_record RECORD_VERSION (Some id) Stopped) /\
    (forall u w1, c E w = Ok u w1 -> r_phase rec' = Stopped).
Proof using JsonLaws0 JsonLaws1.
  intros Hg. destruct (perform_settles (mk_process 0 0) SalvageRun rec w I Hg) as (rec' & Hg' & Hc & Hok).
  exists rec'. simpl in *. unfold mbind, M_bind, mret, M_ret in *.
  assert (rec' = rec \/ exists id, rec' = mk_record RECORD_VERSION (Some id) Stopped) as Hc'.
  { destruct Hc as [->|Hc]; [by left|right]. inversion Hc; subst; simpl in *; try done; eauto. }
  destruct (salvage dir E w) as [id w1|e w1|w1]; simpl in *; [|by split_and!..].
  split_and!; [|done|].
  - by apply good_safe; [apply guards_notice|].
  - intros _ _ _. specialize (Hok tt w1 eq_refl). by inversion Hok.
Qed.

(** What abandoning a run leaves. *)
Lemma abandon_settles instance s reason rec w :
  good dir (w_fs w) rec ->
  exists rec', good dir (w_fs (left_by (abandon dir instance s reason E w))) rec' /\
    (rec' = rec \/
     (rs_dirty s = false /\ (exists owner, r_phase rec = Running (run_id_of s) owner) /\
      rec' = mk_record RECORD_VERSION (r_latest rec) Stopped) \/
     (rs_dirty s = true /\ rs_quiesced s = true /\
      exists id, rec' = mk_record RECORD_VERSION (Some id) Stopped)) /\
    (rs_dirty s = true -> rs_quiesced s = false -> left_by (abandon dir instance s reason E w) = w) /\
    (forall u w1, abandon dir instance s reason E w = Ok u w1 ->
       (rs_dirty s = false \/ rs_quiesced s = true) -> r_phase rec' = Stopped).
Proof using JsonLaws0 JsonLaws1.
  intros Hg. unfold abandon. destruct (rs_dirty s) eqn:Ed; simpl; [destruct (rs_quiesced s) eqn:Eq; simpl|].
  - destruct (salvage_notice_settles (notice instance reason) rec w Hg) as (rec' & Hg' & Hc & Hok).
    exists rec'. split_and!; [done| |done|by eauto].
    destruct Hc as [->|[id ->]]; [by left|]. right; right. split_and!; [done..|]. by exists id.
  - exists rec. split_and!; [done|by left|done|]. by intros ? ? _ [|].
  - destruct (abandon_run_settles (run_id_of s) rec w Hg) as (rec' & Hg' & Hc & Hok).
    exists rec'. split_and!; [done| |done|by eauto].
    destruct Hc as [->|[Ho ->]]; [by left|]. right; left. done.
Qed.

End ending.

(** ** Ending a run with its state saved *)

Section saving.
Context `{Json record, Json manifest, Json checkpoint_ref}.
Context `{!JsonLaws record valid_record, !JsonLaws manifest valid_manifest}.
Context (dir : path) (E : env).

Lemma kept_after m0 rec rec' m1 m :
  kept dir m0 rec rec m1 -> kept dir m1 rec rec' m -> kept dir m0 rec rec' m.
Proof.
  intros (_ & Hs & Hr) (Hg & Hs' & Hr'). split_and!; [done|..].
  - intros id Hid Hid' p Hp. rewrite (Hs' id Hid Hid' p Hp). by apply (Hs id).
  - intros run Hrun Hrun' p Hp. rewrite (Hr' run Hrun Hrun' p Hp). by apply (Hr run).
Qed.

Lemma perform_keeps o rec w :
  admissible dir o -> good dir (w_fs w) rec ->
  settled dir (mk_process 0 0) o (w_fs w) rec (w_fs (left_by (perform dir (mk_process 0 0) o E w))).
Proof using JsonLaws0 JsonLaws1.
  intros Ha Hg.
  pose proof (perform_sound dir (mk_process 0 0) E o (w_fs w) rec Ha w (good_kept dir _ _ Hg)) as Ht.
  destruct (perform dir (mk_process 0 0) o E w) as [u w1|e w1|w1]; simpl; [|done..].
  destruct Ht as (rec' & Hc & Hk). exists rec'. auto.
Qed.

(** What keeps a store with a saved run keeps it saved. *)
Lemma saved_kept rec data par org id m m' :
  saved dir rec data par org id m -> let rec' := mk_record RECORD_VERSION (Some id) Stopped in
  kept dir m rec' rec' m' -> saved dir rec data par org id m'.
Proof.
  intros [_ Hc] rec' (Hg & Hs & _). split; [done|]. eapply captured_same; [exact Hc|]. by apply Hs.
Qed.

Lemma saved_safe {A : Type} (c : M A) rec data par org id w :
  (forall K R, respects (guards dir K R) c) ->
  saved dir rec data par org id (w_fs w) -> saved dir rec data par org id (w_fs (left_by (c E w))).
Proof using JsonLaws0 JsonLaws1.
  intros Hc Hs. eapply saved_kept; [exact Hs|].
  pose proof (kept_guards dir E _ _ _ c (Hc _ _) w (good_kept dir _ _ (proj1 Hs))) as Ht.
  by destruct (c E w).
Qed.

(** Abandoning a run that is saved changes nothing of it. *)
Lemma abandon_saved instance s reason rec data par org id w :
  saved dir rec data par org id (w_fs w) ->
  saved dir rec data par org id (w_fs (left_by (abandon dir instance s reason E w))).
Proof using JsonLaws0 JsonLaws1.
  intros Hs. assert (Hset : forall o, admissible dir o ->
    (forall rec', ~ commits (mk_process 0 0) o (mk_record RECORD_VERSION (Some id) Stopped) rec') ->
    saved dir rec data par org id (w_fs (left_by (perform dir (mk_process 0 0) o E w)))).
  { intros o Ha Hn. destruct (perform_keeps o _ w Ha (proj1 Hs)) as (rec' & [->|Hc] & Hk); [|by apply Hn in Hc].
    by eapply saved_kept. }
  unfold abandon. destruct (rs_dirty s); simpl; [destruct (rs_quiesced s); simpl; [|done]|].
  - specialize (Hset SalvageRun I). simpl in Hset. unfold mbind, M_bind, mret, M_ret in *.
    assert (Hn : forall rec', ~ commits (mk_process 0 0) SalvageRun (mk_record RECORD_VERSION (Some id) Stopped) rec')
      by (intros rec' Hc; by inversion Hc). specialize (Hset Hn).
    destruct (salvage dir E w) as [i w1|e w1|w1]; simpl in *; [|done..].
    by apply saved_safe; [intros; apply guards_notice|].
  - apply (Hset (AbandonRun (run_name (rs_run s))) I). intros rec' Hc. by inversion Hc.
Qed.

(** A session of the run the record names, with a base the store has. *)
Definition session_runs (s : run_session) (rec : record) : Prop :=
  run_path (rs_run s) = run_dir dir (run_id_of s) /\ phase_run (r_phase rec) = Some (run_id_of s) /\
  match g_id <$> base s with Some id => valid_id id | None => True end.

Context (rec : record) (data : bytes) (w0 : world).
Hypothesis Hgood : good dir (w_fs w0) rec.

(** Salvaging a run keeps it or saves its disk. *)
Lemma salvage_saves run w b :
  phase_run (r_phase rec) = Some run -> contents_at (w_fs w0) (run_dir dir run /: ROOTFS) = Some data ->
  kept dir (w_fs w0) rec rec (w_fs w) ->
  let m := w_fs (left_by ((_ ← salvage dir; fs_write (dir /: LAST_RUN_NOTICE) b) E w)) in
  kept dir (w_fs w0) rec rec m \/ exists id, saved dir rec data (r_latest rec) (Salvage run) id m.
Proof using JsonLaws0 JsonLaws1 Hgood.
  intros Hrun Hd Hk. assert (Hg := proj1 Hk). assert (Hd1 := run_disk_kept dir _ data _ _ Hrun Hd _ Hk).
  unfold mbind, M_bind. destruct (r_phase rec) as [|r owner|r owner] eqn:Eph; simplify_eq/=.
  - destruct (perform_keeps SalvageRun rec w I Hg) as (rec' & Hc & Hk').
    assert (rec' = rec) as -> by (destruct Hc as [->|Hc]; [done|inversion Hc; subst; congruence]).
    apply (kept_after _ _ _ _ _ Hk) in Hk'. simpl in Hk'. unfold mbind, M_bind, mret, M_ret in Hk'.
    left. destruct (salvage dir E w) as [i w1|e w1|w1]; simpl in *; [|done..].
    assert (Ht := kept_guards dir E (w_fs w0) rec rec _ (guards_notice dir _ _ b) w1 Hk').
    by destruct (fs_write _ _ _ _).
  - assert (Hrun' : phase_run (r_phase rec) = Some run) by by rewrite Eph.
    assert (Ht := t_salvage_saves dir E run data (w_fs w) rec Hg Hrun' Hd1 owner Eph w eq_refl).
    destruct (salvage dir E w) as [i w1|e w1|w1]; simpl.
    + right. exists i. by apply saved_safe; [intros; apply guards_notice|].
    + destruct Ht as [Hk'|?]; [left; by eapply kept_trans|by right].
    + destruct Ht as [Hk'|?]; [left; by eapply kept_trans|by right].
Qed.

(** What abandoning a run that is not saved leaves. *)
Lemma abandon_saves instance s reason w :
  session_runs s rec -> contents_at (w_fs w0) (run_rootfs (rs_run s)) = Some data ->
  kept dir (w_fs w0) rec rec (w_fs w) ->
  let m := w_fs (left_by (abandon dir instance s reason E w)) in
  kept dir (w_fs w0) rec rec m \/
  (rs_dirty s = true /\ rs_quiesced s = true /\
   exists id, saved dir rec data (r_latest rec) (Salvage (run_id_of s)) id m) \/
  (rs_dirty s = false /\ (exists owner, r_phase rec = Running (run_id_of s) owner) /\
   kept dir (w_fs w0) rec (mk_record RECORD_VERSION (r_latest rec) Stopped) m).
Proof using JsonLaws0 JsonLaws1 Hgood.
  intros (Hpath & Hrun & _) Hd Hk. unfold run_rootfs in Hd. rewrite Hpath in Hd. assert (Hg := proj1 Hk).
  unfold abandon. destruct (rs_dirty s) eqn:Edi; simpl; [destruct (rs_quiesced s) eqn:Eq; simpl; [|by left]|].
  - destruct (salvage_saves _ w (notice instance reason) Hrun Hd Hk); [by left|right; by left].
  - destruct (perform_keeps (AbandonRun (run_id_of s)) rec w I Hg) as (rec' & Hc & Hk'). simpl in Hk'.
    apply (kept_after _ _ _ _ _ Hk) in Hk'. destruct Hc as [->|Hc]; [by left|].
    right; right. inversion Hc; subst; simpl in *; try done; eauto.
Qed.

Context `{VmCapture, CaptureContext} {Hvm : VmCaptureLaws} (guest : snapshot_guest).
Hypothesis Hap : stamps_apart dir.

(** What the final snapshot leaves. *)
Lemma final_snapshot_saves s s' w' error :
  session_runs s rec -> contents_at (w_fs w0) (run_rootfs (rs_run s)) = Some data ->
  final_snapshot E dir guest s w0 = Some ((s', w'), error) ->
  (rs_run s' = rs_run s /\ rs_dirty s' = rs_dirty s /\
   (rs_quiesced s' = rs_quiesced s \/ snapshot_handshake guest = None)) /\
  let done id := saved dir rec data (g_id <$> base s) (Snapshot (run_id_of s)) id (w_fs w') in
  match error with
  | None => exists id, done id
  | Some _ => kept dir (w_fs w0) rec rec (w_fs w') \/ snapshot_handshake guest = None /\ exists id, done id
  end.
Proof using Type*.
  intros (Hpath & Hrun & Hbase) Hd. unfold run_rootfs in Hd. rewrite Hpath in Hd. unfold final_snapshot.
  destruct (snapshot_handshake guest) as [e|].
  { intros [= <- <- <-]. split; [auto|]. left. by apply good_kept. }
  assert (Ht := t_capture dir E _ data _ rec Hgood Hrun Hd (guest_quiesced s) (Snapshot (run_id_of s)) Hap Hpath Hbase
    (run_valid_id dir _ _ rec Hgood Hrun) w0 eq_refl).
  unfold step_session. destruct (capture _ _ _ _ _) as [[s1 id] w1|e w1|w1]; [| |done].
  - destruct Ht as (Hs1 & Hk & Hc). simpl in Hs1, Hc. subst s1.
    assert (Hcom := t_commit_captured dir E _ rec data _ _ _ id Hk Hc w1 eq_refl). unfold step_unit, commit_final.
    destruct (commit_latest dir id E w1) as [u w2|e w2|w2]; [| |done]; intros [= <- <- <-]; (split; [auto|]).
    + by exists id.
    + destruct Hcom as [?|?]; [by left|right]. split; [done|]. by exists id.
  - intros [= <- <- <-]. split; [auto|]. by left.
Qed.

End saving.
