(* ===== verification/SessionExample.v ===== *)
(** * A small running instance

    A session on the instance of [StoreExample.v], with a VM whose captures
    are what the owner copies, for the concrete runs of the theorems about
    owners and forks. *)

From S2P Require Import Prelude FileSystem FsLogic FsUtil Store StoreLogic StoreSafety Session Snapshots Capture SessionRun StoreExample.

(** A VM whose captures add nothing to what the owner copies, in the default
    layout, where the stamps are in the instance's own directory. *)
#[export] Instance demo_vm : VmCapture := {|
  snapshot_while_paused d copy := copy d;
|}.

#[export] Instance demo_vm_laws : VmCaptureLaws.
Proof.
  split.
  - intros g n copy Hc. apply Hc.
  - intros E m g n copy name Q _ Hwf _ Hc. by apply Hc.
Qed.

#[export] Instance demo_context : CaptureContext := {|
  initramfs_stamp := demo_dir /: "initramfs.stamp";
  trace_log_at _ := None;
  deterministic_clock_state := Some initial_deterministic_clock_state;
|}.

Lemma demo_stamps_apart : stamps_apart demo_dir.
Proof. split; refine (bool_decide_eq_false_1 (below _ _) _); vm_compute; reflexivity. Qed.

(** A disk that is an ext4 file system without errors. *)
Definition demo_disk : bytes := replicate 1080 x00 ++ ["S"%byte; xef; x01] ++ replicate 965 x00.

(** A session just begun on the small instance, with its guest's disk and the
    stamps of its launch. *)
Definition demo_session : live_run :=
  match (s ← begin_stored demo_dir demo_process None;
         _ ← fs_write (run_rootfs (rs_run s)) demo_disk;
         _ ← for_each (fun n => fs_write (demo_dir /: n) []) [RUNNING_AGENT_STAMP; LAUNCH_METADATA; "deterministic.stamp"];
         mret s) quiet demo with
  | Ok s w => (s, w)
  | Err _ w | Crash w => (mk_session (mk_run "" [] None) false None false, w)
  end.
