(* ===== verification/OwnerTheorems.v ===== *)
(** * What a running VM owner promises

    The properties of the owner's threads, its broker and its session, proved
    from the invariants of [OwnerLogic.v] and [OwnerDispatch.v] and the laws
    of [SessionRun.v], each with a concrete run at which it applies. *)

From Stdlib Require Import Lia.
From S2P Require Import Prelude Protocol Broker Owner OwnerLogic OwnerDispatch.
From S2P Require Import FileSystem FsLogic FsUtil Store StoreLogic StoreSafety Session Snapshots Capture SessionRun.
From S2P Require Import StoreExample SessionExample.

Section owner.
Context {D : Type} `{OwnedRun D}.
Context (parse_spec : string -> option checkpoint_spec) (idle_ttl : N) (sets_wall_clock : bool).

Abbreviation exec := (exec parse_spec idle_ttl sets_wall_clock).
Abbreviation execs := (execs parse_spec idle_ttl sets_wall_clock).
Abbreviation reachable := (reachable parse_spec idle_ttl sets_wall_clock).

(** The units of activity and the pending connections in the owner. *)
Definition activity (s : owner D) : N :=
  (map_sum active_units (threads s) + counting (channels (st s)))%N.

Definition connections (s : owner D) : N := map_sum pending_units (threads s).

(** C13: an owner's idle status means what it says.  However the threads
    interleave, the counters never drift or underflow: as long as they can
    count what there is, the status read at one instant says busy exactly if
    some open channel counts as activity, some thread holds a unit of it, a
    forwarded connection lingers or the VM is kept running; and pending
    exactly if some client is connected that has not been answered or given a
    channel, or the first client is still awaited. *)
Theorem idle_status_exact d s t :
  reachable d s -> (activity s < USIZE)%N -> (connections s < USIZE)%N ->
  (is_busy (get_idle_status t (st s)) = true <->
     (exists id c, channels (st s) !! id = Some c /\ counts_as_active c = true) \/
     (exists tid th, threads s !! tid = Some th /\ active_units th <> 0%N) \/
     ahead t (awake_until (st s)) = true \/ kept_running (st s) = true) /\
  (is_pending (get_idle_status t (st s)) = true <->
     (exists tid th, threads s !! tid = Some th /\ pending_units th <> 0%N) \/
     ahead t (first_client_deadline (st s)) = true).
Proof.
  intros [[Ha Hp] _]%accounted_reachable Hk Hc. fold (activity s) in Ha. fold (connections s) in Hp.
  rewrite N.mod_small in Ha, Hp by done. simpl.
  rewrite !orb_true_iff, !N.ltb_lt, Ha, Hp. unfold activity, connections, counting.
  rewrite <- (map_sum_pos active_units), <- (map_sum_pos pending_units).
  assert ((exists id c, channels (st s) !! id = Some c /\ counts_as_active c = true) <->
          (0 < counting (channels (st s)))%N) as ->.
  { unfold counting. rewrite map_sum_pos. apply exist_proper; intros id. apply exist_proper; intros c.
    destruct (counts_as_active c); simpl; intuition congruence. }
  unfold counting. intuition lia.
Qed.

(** C8: the barrier before the final snapshot holds.  Once an owner is
    stopping, whatever its threads still do, it keeps stopping, it has no
    open channel (unless a thread died holding the channel table), and the
    agent is sent nothing but the owner's own messages: never a client's.
    After the final snapshot has been asked for, nothing at all. *)
Theorem owner_barrier d s es s' :
  reachable d s -> stopping (st s) = true -> execs es s = Some s' ->
  stopping (st s') = true /\ (poisoned (st s') = false -> channels (st s') = ∅) /\
  exists q, agent_queue (st s') = agent_queue (st s) ++ q /\
    Forall (fun m => owner_message m = true) q /\
    (loop s = OFinal -> q = []).
Proof.
  intros Hr Hs He.
  assert (loop s = OFinal -> sealed s) as Hseal.
  { intros Hl. destruct (barred_reachable _ _ _ _ _ Hr) as (_ & Hj & _). rewrite Hl in Hj. split; auto. }
  assert (adds s s' /\ barred s') as [[Hs' (q & Hq & Hf & Hn)] (_ & _ & Hc & _)].
  2: { split_and!; [done|by apply Hc|]. exists q. split_and!; [done..|].
       intros Hl. by destruct (Hn (Hseal Hl)). }
  clear Hseal. pose proof (barred_reachable _ _ _ _ _ Hr) as Hb. clear Hr.
  revert s Hs Hb He. induction es as [|e es IH]; simpl; intros s Hs Hb He.
  - simplify_eq. split; [|done]. split; [done|]. exists []. by rewrite app_nil_r.
  - destruct (exec e s) as [s1|] eqn:E1; [|done].
    destruct (adds_exec _ _ _ _ _ _ Hb Hs E1) as (Hs1 & q1 & Hq1 & Hf1 & Hn1).
    destruct (IH s1 Hs1 (barred_exec _ _ _ _ _ _ Hb E1) He) as [(Hs' & q & Hq & Hf & Hn) Hb'].
    split; [|done]. split; [done|]. exists (q1 ++ q). rewrite Hq, Hq1, app_assoc. split_and!; [done|by apply Forall_app|].
    intros (-> & Hse)%Hn1. by destruct (Hn Hse) as [-> ?].
Qed.

(** Closing the barrier leaves nobody waiting.  At the step that makes
    an owner stop, every client with an open channel is told that the owner
    is stopping, the agent (if it is still there) is told to close every
    channel, and the table is empty. *)
Theorem shutdown_tells_clients d s i s' id c :
  reachable d s -> stopping (st s) = false -> poisoned (st s) = false ->
  exec (ELoop i) s = Some s' -> stopping (st s') = true -> channels (st s) !! id = Some c ->
  (tx c, ErrorMsg id OWNER_STOPPING) ∈ sent (st s') /\
  (agent_gone (st s) = false -> Close id ∈ agent_queue (st s')) /\ channels (st s') = ∅.
Proof.
  intros _ Hs Hp He Hs' Hc.
  assert (st s' = (begin_shutdown OWNER_STOPPING (st s)).1) as ->.
  { revert Hs'. loop_cases s He; rewrite ?Est, ?Eso; congruence. }
  by apply shutdown_sends.
Qed.

(** C14: every checkpoint an owner accepted is answered before its final
    snapshot: once the capture worker has been joined no client waits for it
    and no checkpoint is left in its queue. *)
Theorem accepted_checkpoints_answered d s :
  reachable d s -> joined (loop s) = true ->
  (forall tid id, threads s !! tid <> Some (CAwait id)) /\
  (forall c spec, CheckpointJob c spec ∉ jobs s).
Proof.
  intros Hr Hj. pose proof (accepted_reachable _ _ _ _ _ Hr) as Ha.
  destruct (barred_reachable _ _ _ _ _ Hr) as (_ & Hd & _). specialize (Hd Hj). split.
  - intros tid id. by apply nobody_waits.
  - destruct Ha as (Ho & _). unfold worker_gone in Ho. rewrite Hd in Ho. intros c spec.
    by apply ordered_finished.
Qed.

End owner.

(** ** The session *)

Section session.
Context `{Json record, Json manifest, Json checkpoint_ref}.
Context `{!JsonLaws record valid_record, !JsonLaws manifest valid_manifest}.
Context (dir : path).

(** C7: the run is recorded as dirty before any client's work can reach the
    guest.  For an owner whose run is a session on the store, with system
    calls failing anywhere, in every state it can reach: as long as its loop
    has not ended, so that its final snapshot is not committed yet, if the
    agent has been asked to open a channel then the instance's record on disk
    names the run as dirty, so that after a crash it is recovered and never
    silently discarded.  The places clients ask it to export to are neither in
    the instance nor around it, and its stamps are not kept in the store's own
    subdirectories. *)
Theorem dirty_before_dispatch E `{VmCapture, CaptureContext} {Hvm : VmCaptureLaws} guest parse_spec idle_ttl clock d s m :
  stamps_apart dir ->
  (forall request spec dest, parse_spec request = Some spec -> spec_export_to spec = Some dest ->
     exportable dir dest) ->
  run_valid dir d ->
  reachable (H := session_run E dir guest) parse_spec idle_ttl clock d s ->
  loop s <> OEnd -> m ∈ agent_queue (st s) -> is_Some (opens m) ->
  exists rec owner, record_at dir (w_fs (Owner.run s).2) = Some rec /\
    r_phase rec = Dirty (run_id_of (Owner.run s).1) owner.
Proof using JsonLaws0 JsonLaws1.
  intros Hap Hspecs Hv Hr Hl Hm [id Ho]. pose proof (session_run_laws E dir guest Hap) as Hlaws.
  destruct (recorded_reachable (H := session_run E dir guest) parse_spec idle_ttl clock
    (run_valid dir) (run_dirty dir) (exportable dir) (fun r sp Hps dest => Hspecs r sp dest Hps) d s Hv Hr) as [Hrec _].
  destruct (Hrec Hl) as [_ Hd]. destruct Hd as (rec & owner & (_ & Hat & _) & Hp).
  - left. unfold asked. apply existsb_exists. exists m. rewrite <- list_elem_of_In. split; [done|].
    unfold is_open. by rewrite Ho.
  - by exists rec, owner.
Qed.

(** Abandoning a run never drops unsaved state.  Whatever fails in it,
    the store stays good, and its record either is as it was, or says stopped
    with the same latest generation, and then the run had served no command,
    or says stopped with a new latest generation, and then the guest had
    flushed its disk.  A dirty run whose guest had not is left untouched. *)
Theorem abandon_keeps_unsaved E instance s reason rec w :
  good dir (w_fs w) rec -> phase_run (r_phase rec) = Some (run_id_of s) ->
  let w' := left_by (abandon dir instance s reason E w) in
  exists rec', good dir (w_fs w') rec' /\
    (rec' = rec \/
     (rs_dirty s = false /\ (exists owner, r_phase rec = Running (run_id_of s) owner) /\
      rec' = mk_record RECORD_VERSION (r_latest rec) Stopped) \/
     (rs_dirty s = true /\ rs_quiesced s = true /\
      exists id, rec' = mk_record RECORD_VERSION (Some id) Stopped)) /\
    (rs_dirty s = true -> rs_quiesced s = false -> w' = w) /\
    (forall u w1, abandon dir instance s reason E w = Ok u w1 ->
       (rs_dirty s = false \/ rs_quiesced s = true) -> r_phase rec' = Stopped).
Proof using JsonLaws0 JsonLaws1.
  intros Hg _. by apply abandon_settles.
Qed.

(** C6: how a run ends.  When the owner of a run reports success, the record
    says stopped, and its latest generation is a new one: complete, captured as
    the final snapshot of this run, with the base of the run as its parent and
    the disk the run had.  When it reports an error, one of three things
    holds.  The record still names the run, and the run and the latest
    generation are as they were.  Or the guest had flushed its disks, and the
    record says stopped with such a new generation as its latest, captured as
    the final snapshot or, for a run that had served a command, salvaged from
    its disk.  Or the run had served no command, and the record says stopped
    with the latest generation as it was.  The store is good in every case,
    whatever system calls fail. *)
Theorem owner_end_saves E `{VmCapture, CaptureContext} {Hvm : VmCaptureLaws} guest instance s rec data w w' error :
  stamps_apart dir ->
  good dir (w_fs w) rec -> session_runs dir s rec -> rs_quiesced s = false ->
  contents_at (w_fs w) (run_rootfs (rs_run s)) = Some data ->
  end_owner E dir guest instance s w = Some (w', error) ->
  let saved_from par org := exists id, saved dir rec data par org id (w_fs w') in
  match error with
  | None => saved_from (g_id <$> base s) (Snapshot (run_id_of s))
  | Some _ =>
      kept dir (w_fs w) rec rec (w_fs w') \/
      (snapshot_handshake guest = None /\
         (saved_from (g_id <$> base s) (Snapshot (run_id_of s)) \/
          rs_dirty s = true /\ saved_from (r_latest rec) (Salvage (run_id_of s)))) \/
      (rs_dirty s = false /\ (exists owner, r_phase rec = Running (run_id_of s) owner) /\
         kept dir (w_fs w) rec (mk_record RECORD_VERSION (r_latest rec) Stopped) (w_fs w'))
  end.
Proof using JsonLaws0 JsonLaws1.
  intros Hap Hg Hs Hq Hd. unfold end_owner.
  destruct (final_snapshot E dir guest s w) as [[[s1 w1] [e|]]|] eqn:Ef; [| |done].
  all: destruct (final_snapshot_saves dir E rec data w Hg guest Hap s s1 w1 _ Hs Hd Ef) as [(Hr & Hdi & Hqu) Hok].
  - intros He. assert (error = Some e /\ w' = left_by (abandon dir instance s1 e E w1)) as [-> ->]
      by (destruct (abandon dir instance s1 e E w1); by simplify_eq/=).
    destruct Hok as [Hk|(Hh & id & Hsv)].
    + assert (Hs1 : session_runs dir s1 rec) by (unfold session_runs, run_id_of, base in *; by rewrite Hr).
      rewrite <- Hr in Hd. unfold run_id_of. rewrite <- Hdi, <- Hr.
      destruct (abandon_saves dir E rec data w Hg instance s1 e w1 Hs1 Hd Hk) as [?|[(Hdt & Hqt & Hsv)|?]];
        [by left| |by right; right].
      right; left. split; [destruct Hqu as [Hqu|]; [congruence|done]|]. by right.
    + right; left. split; [done|]. left. exists id. by apply abandon_saved.
  - by intros [= <- <-].
Qed.

End session.

(** ** Forwards *)

(** Every forward the tables promise has a listener: a user's to the guest
    address asked for, an automatic one to the same address in the guest or to
    where a user has it. *)
Definition forwards_ok (b : broker) : Prop :=
  (forall h g, user_forwards b !! h = Some g ->
     exists f, f ∈ listening b /\ host_of f = h /\ guest_of f = g) /\
  (forall h, h ∈ auto_forward_ports b ->
     exists f, f ∈ listening b /\ host_of f = h /\
       (guest_of f = h \/ user_forwards b !! h = Some (guest_of f))).

Lemma forwards_ok_user b f :
  forwards_ok b -> user_forwards b !! host_of f = None ->
  (exists f', f' ∈ listening b /\ host_of f' = host_of f /\ guest_of f' = guest_of f) ->
  forwards_ok (set_user (insert (host_of f) (guest_of f)) b).
Proof.
  intros [Hu Ha] Hn Hf. split; simpl.
  - intros h g [[<- <-]|[_ Hg]]%lookup_insert_Some; auto.
  - intros h Hh. destruct (decide (host_of f = h)) as [<-|Hne].
    + destruct Hf as (f' & Hin & Hh' & Hg'). exists f'. rewrite lookup_insert_eq. rewrite Hg'. auto.
    + destruct (Ha h Hh) as (f' & Hin & Hh' & Hg'). exists f'. by rewrite lookup_insert_ne.
Qed.

Lemma forwards_ok_listen b f (p : addr) :
  forwards_ok b -> p = host_of f -> user_forwards b !! p = Some (guest_of f) \/ guest_of f = p ->
  forwards_ok (listen f (set_auto (fun s => {[ p ]} ∪ s) b)).
Proof.
  intros [Hu Ha] -> Hg. split; simpl.
  - intros h g Hh. destruct (Hu h g Hh) as (f' & Hin & Hf). exists f'. split; [apply elem_of_app; by left|done].
  - intros h [->%elem_of_singleton|Hh]%elem_of_union.
    + exists f. rewrite elem_of_app, list_elem_of_singleton. tauto.
    + destruct (Ha h Hh) as (f' & Hin & Hf). exists f'. rewrite elem_of_app. tauto.
Qed.

Lemma forwards_ok_reserved f b :
  forwards_ok b -> user_forwards b !! host_of f = None ->
  forwards_ok (set_user (insert (host_of f) (guest_of f)) (listen f (reserve_forward_port f b))).
Proof.
  intros [Hu Ha] Hn.
  assert (forall h, h ∈ auto_forward_ports (reserve_forward_port f b) ->
            h = host_of f \/ h ∈ auto_forward_ports b) as Hr.
  { intros h. unfold reserve_forward_port. destruct (_ && _); simpl; [|by right].
    rewrite elem_of_union, elem_of_singleton. done. }
  assert (user_forwards (reserve_forward_port f b) = user_forwards b /\
          listening (reserve_forward_port f b) = listening b) as [Eu El]
    by (unfold reserve_forward_port; by destruct (_ && _)).
  split; simpl; rewrite Eu, El.
  - intros h g [[<- <-]|[_ Hg]]%lookup_insert_Some.
    + exists f. rewrite elem_of_app, list_elem_of_singleton. tauto.
    + destruct (Hu h g Hg) as (f' & Hin & Hf). exists f'. rewrite elem_of_app. tauto.
  - intros h Hh. destruct (decide (host_of f = h)) as [<-|Hne].
    + exists f. rewrite elem_of_app, list_elem_of_singleton, lookup_insert_eq. tauto.
    + destruct (Hr h Hh) as [->|Hh']; [done|]. destruct (Ha h Hh') as (f' & Hin & Hf). exists f'.
      rewrite elem_of_app, lookup_insert_ne by done. tauto.
Qed.

Lemma add_user_forward_ok bind f b b' :
  forwards_ok b -> add_user_forward bind f b = (b', None) ->
  forwards_ok b' /\ user_forwards b' !! host_of f = Some (guest_of f) /\
  (forall h, h <> host_of f -> user_forwards b' !! h = user_forwards b !! h) /\
  (user_forwards b !! host_of f = Some (guest_of f) -> b' = b).
Proof.
  intros Hok. unfold add_user_forward. destruct (stopping b); [done|].
  destruct (user_forwards b !! host_of f) as [g|] eqn:Eu.
  { case_bool_decide as Hg; [|done]. intros [= <-]. subst g. by split_and!. }
  case_bool_decide as Ha; [case_bool_decide as Hg; [|done]|].
  - intros [= <-]. simpl. rewrite lookup_insert_eq. split_and!; [|done| |done].
    + apply forwards_ok_user; [done..|]. destruct Hok as [_ Hok]. destruct (Hok _ Ha) as (f' & Hin & Hh & Hg').
      exists f'. split_and!; [done..|]. destruct Hg' as [Hg'|Hg']; congruence.
    + intros h Hh. by rewrite lookup_insert_ne.
  - destruct bind; simpl; [done|]. intros [= <-]. simpl.
    assert (user_forwards (reserve_forward_port f b) = user_forwards b) as Hr
      by (unfold reserve_forward_port; by destruct (_ && _)).
    rewrite lookup_insert_eq, Hr. split_and!; [|done| |done].
    + apply (forwards_ok_reserved f b); done.
    + intros h Hh. by rewrite lookup_insert_ne.
Qed.

Lemma ensure_auto_ok bind host port b :
  forwards_ok b -> forwards_ok (ensure_auto_forward_port bind host port b).1.
Proof.
  intros Hok. unfold ensure_auto_forward_port. destruct (_ || _); [done|].
  case_bool_decide as Ha; [done|]. destruct bind; simpl.
  - destruct Hok as [Hu Hau]. split; simpl; [done|]. intros h [Hh Hne]%elem_of_difference.
    apply Hau. by apply elem_of_union in Hh as [|].
  - apply (forwards_ok_listen b (mk_forward host port host port) (host, port)); [done..|by right].
Qed.

(** A forward the owner accepts is in place.  As long as the tables are
    right, [add_user_forward] succeeds only with a listener started to the
    guest address asked for, keeps every other forward, changes nothing when
    the forward is already there, and refuses a host port forwarded
    elsewhere; and automatic forwarding keeps the tables right, whether or
    not its port can be bound. *)
Theorem forwards_in_place bind f host port b :
  forwards_ok b ->
  (forall b', add_user_forward bind f b = (b', None) ->
     forwards_ok b' /\ user_forwards b' !! host_of f = Some (guest_of f) /\
     (forall h, h <> host_of f -> user_forwards b' !! h = user_forwards b !! h) /\
     (user_forwards b !! host_of f = Some (guest_of f) -> b' = b)) /\
  (forall g, user_forwards b !! host_of f = Some g -> g <> guest_of f -> stopping b = false ->
     add_user_forward bind f b = (b, Some (already_forwarded f g))) /\
  forwards_ok (ensure_auto_forward_port bind host port b).1.
Proof.
  intros Hok. split_and!.
  - intros b' Hb. by eapply add_user_forward_ok.
  - intros g Hg Hne Hs. unfold add_user_forward. by rewrite Hs, Hg, bool_decide_eq_false_2.
  - apply ensure_auto_ok, Hok.
Qed.

(** A forward that could not be bound is remembered as one that is.
    After [add_user_forward] failed to bind an unprivileged local port, asking
    again for the same forward succeeds without starting a listener, and
    automatic forwarding does not try the port either: the port was reserved
    before binding it, and stays reserved. *)
Theorem failed_forward_sticks f b e bind1 bind2 :
  stopping b = false -> user_forwards b !! host_of f = None -> host_of f ∉ auto_forward_ports b ->
  listen_host f = "127.0.0.1" -> (1024 < listen_port f)%N -> guest_of f = host_of f ->
  exists b1 b2,
    add_user_forward (Some e) f b = (b1, Some e) /\
    add_user_forward bind1 f b1 = (b2, None) /\ listening b2 = listening b /\
    user_forwards b2 !! host_of f = Some (guest_of f) /\
    ensure_auto_forward_port bind2 (listen_host f) (listen_port f) b1 = (b1, inl false).
Proof.
  intros Hs Hu Ha Hh Hp Hg. set (b1 := set_auto (fun s => {[ host_of f ]} ∪ s) b).
  assert (reserve_forward_port f b = b1) as Hr.
  { unfold reserve_forward_port. rewrite Hh, bool_decide_eq_true_2 by done.
    by rewrite (proj2 (N.ltb_lt _ _) Hp). }
  assert (host_of f ∈ auto_forward_ports b1) as Hin by (apply elem_of_union; left; by apply elem_of_singleton).
  exists b1, (set_user (insert (host_of f) (guest_of f)) b1). split_and!.
  - unfold add_user_forward. by rewrite Hs, Hu, bool_decide_eq_false_2, Hr by done.
  - unfold add_user_forward. simpl. by rewrite Hs, Hu, !bool_decide_eq_true_2.
  - done.
  - simpl. by rewrite lookup_insert_eq.
  - unfold ensure_auto_forward_port. rewrite (proj2 (N.leb_gt _ _) Hp). simpl. rewrite Hs.
    by rewrite bool_decide_eq_true_2.
Qed.

(** ** Concrete owners *)

(** A run with no store behind it. *)
Definition idle_run : OwnedRun unit := {|
  run_mark_dirty _ := Some (tt, None);
  run_capture _ _ := Some (tt, inl "g");
  run_add_checkpoint _ _ _ := Some (tt, None);
  run_export _ _ _ := Some (tt, None);
  run_advance _ _ := Some (tt, None);
  run_final _ := Some (tt, None);
|}.

Definition no_specs (request : string) : option checkpoint_spec := None.

(** One idle turn of the owner's loop. *)
Definition idle_turn : list event := ELoop IWouldBlock :: replicate 7 (ELoop IOk).

(** A client connects and asks for a channel. *)
Definition client_asks : list event :=
  [ELoop IOk; EThread 1 (IMsg (Hello PROTOCOL_VERSION)); EThread 1 (IMsg (OpenTcp 7 "localhost" 80))].

(** It is given the channel. *)
Definition client_opens : list event := [EThread 1 IOk; EThread 1 IOk; EThread 1 IOk].

(** The idle timer has run out when a client connects; its channel is opened
    after the loop has looked at [active] and before it looks at
    [pending]. *)
Definition racing : list event :=
  [ELoop IOk; ETime 20000] ++ idle_turn ++ [ETime 1000] ++ client_asks ++
  (ELoop IWouldBlock :: replicate 4 (ELoop IOk)) ++ client_opens ++ replicate 3 (ELoop IOk).

(** C40: an idle owner can stop on a client it has just let in.  The loop
    reads [active] before [pending], so a client that moves from one to the
    other in between is seen by neither: there is a run of the owner, with no
    signal and no failure, in which it stops for being idle while a client's
    channel is open, with its request already sent to the guest, and fails
    it. *)
Theorem idle_stop_drops_client : exists s s',
  execs (H := idle_run) no_specs 1000 true racing (init tt true [] 0) = Some s /\
  loop s = OStop Idle /\ threads s !! 1%N = Some (CServing 7) /\
  is_busy (get_idle_status (now s) (st s)) = true /\
  OpenTcp 7 "localhost" 80 ∈ agent_queue (st s) /\
  exec (H := idle_run) no_specs 1000 true (ELoop IOk) s = Some s' /\
  (1%N, ErrorMsg 7 OWNER_STOPPING) ∈ sent (st s').
Proof.
  eexists _, _. split; [vm_compute; reflexivity|].
  split_and!; [reflexivity|reflexivity|reflexivity| |vm_compute; reflexivity|].
  - vm_compute. by constructor.
  - vm_compute. by constructor.
Qed.

(** ** Witnesses *)

Lemma execs_reachable {D : Type} `{OwnedRun D} parse ttl clock d es s s' :
  reachable parse ttl clock d s -> execs parse ttl clock es s = Some s' ->
  reachable parse ttl clock d s'.
Proof.
  revert s. induction es as [|e es IH]; simpl; intros s Hs He; [by simplify_eq|].
  destruct (exec parse ttl clock e s) as [s1|] eqn:E1; [|done].
  eapply IH; [|exact He]. by eapply reachable_exec.
Qed.

(** The state after a run of events. *)
Definition after (es : list event) : owner unit :=
  default (init tt true [] 0) (execs (H := idle_run) no_specs 1000 true es (init tt true [] 0)).

Lemma after_reachable es :
  is_Some (execs (H := idle_run) no_specs 1000 true es (init tt true [] 0)) ->
  reachable (H := idle_run) no_specs 1000 true tt (after es).
Proof.
  intros [s Hs]. unfold after. rewrite Hs. eapply execs_reachable; [apply reachable_init|exact Hs].
Qed.

(** A client's channel is open. *)
Definition demo_open : list event := ELoop IOk :: client_asks ++ client_opens.

(** The owner then stops, and its worker ends. *)
Definition demo_stopped : list event :=
  demo_open ++ [ELoop ISignal; ELoop IOk; ELoop IOk; EWorker IOk; ELoop IOk].

Lemma idle_status_exact_witness : is_busy (get_idle_status 0 (st (after demo_open))) = true.
Proof.
  destruct (idle_status_exact (H := idle_run) no_specs 1000 true tt (after demo_open) 0) as [Hb _].
  - apply after_reachable. vm_compute. by eexists.
  - vm_compute. reflexivity.
  - vm_compute. reflexivity.
  - apply Hb. left. exists 7%N, (mk_channel 1 true). split; vm_compute; reflexivity.
Defined.

Lemma owner_barrier_witness : exists s' q,
  execs (H := idle_run) no_specs 1000 true [ELoop IOk; ELoop IOk] (after demo_stopped) = Some s' /\
  agent_queue (st s') = agent_queue (st (after demo_stopped)) ++ q /\
  Forall (fun m => owner_message m = true) q.
Proof.
  destruct (execs (H := idle_run) no_specs 1000 true [ELoop IOk; ELoop IOk] (after demo_stopped))
    as [s'|] eqn:E; [|vm_compute in E; discriminate E].
  destruct (owner_barrier (H := idle_run) no_specs 1000 true tt (after demo_stopped)
    [ELoop IOk; ELoop IOk] s') as (_ & _ & q & Hq & Hf & _).
  - apply after_reachable. vm_compute. by eexists.
  - vm_compute. reflexivity.
  - exact E.
  - by exists s', q.
Defined.

Lemma shutdown_tells_clients_witness : exists s',
  exec (H := idle_run) no_specs 1000 true (ELoop ISignal) (after demo_open) = Some s' /\
  (1%N, ErrorMsg 7 OWNER_STOPPING) ∈ sent (st s').
Proof.
  destruct (exec (H := idle_run) no_specs 1000 true (ELoop ISignal) (after demo_open))
    as [s'|] eqn:E; [|vm_compute in E; discriminate E].
  exists s'. split; [done|].
  apply (shutdown_tells_clients (H := idle_run) no_specs 1000 true tt (after demo_open) ISignal s' 7
           (mk_channel 1 true)).
  - apply after_reachable. vm_compute. by eexists.
  - vm_compute. reflexivity.
  - vm_compute. reflexivity.
  - exact E.
  - vm_compute in E. injection E as <-. reflexivity.
  - vm_compute. reflexivity.
Defined.

Lemma accepted_checkpoints_answered_witness :
  joined (loop (after demo_stopped)) = true /\
  forall tid id, threads (after demo_stopped) !! tid <> Some (CAwait id).
Proof.
  assert (Hj : joined (loop (after demo_stopped)) = true) by (vm_compute; reflexivity).
  split; [exact Hj|].
  apply (accepted_checkpoints_answered (H := idle_run) no_specs 1000 true tt (after demo_stopped)); [|exact Hj].
  apply after_reachable. vm_compute. by eexists.
Defined.

Lemma demo_session_valid : run_valid demo_dir demo_session.
Proof.
  exists (demo_record demo_session.2). split_and!.
  - apply good_b_sound. vm_compute. reflexivity.
  - vm_compute. reflexivity.
  - vm_compute. discriminate.
Qed.

(** A guest that reconnects before it says that it is ready. *)
Definition demo_guest : snapshot_guest :=
  mk_guest (Some [FRAME_SNAPSHOT; x00; x00; x00; x00]) false (Some ["R"%byte]).

(** Its owner with a client's channel open. *)
Definition demo_live : owner live_run :=
  default (init demo_session true [] 0)
    (execs (H := session_run quiet demo_dir demo_guest) no_specs 1000 true demo_open (init demo_session true [] 0)).

Definition is_some_b {A : Type} (o : option A) : bool := match o with Some _ => true | None => false end.

Lemma demo_live_reachable :
  reachable (H := session_run quiet demo_dir demo_guest) no_specs 1000 true demo_session demo_live.
Proof.
  assert (Hb : is_some_b (execs (H := session_run quiet demo_dir demo_guest) no_specs 1000 true demo_open
    (init demo_session true [] 0)) = true) by (vm_compute; reflexivity).
  unfold demo_live. destruct (execs _ _ _ _ _) as [s|] eqn:E; [|discriminate Hb].
  eapply execs_reachable; [apply reachable_init|exact E].
Qed.

Lemma dirty_before_dispatch_witness : exists rec owner,
  record_at demo_dir (w_fs (Owner.run demo_live).2) = Some rec /\
  r_phase rec = Dirty (run_id_of (Owner.run demo_live).1) owner.
Proof.
  apply (dirty_before_dispatch demo_dir quiet demo_guest no_specs 1000 true demo_session demo_live
           (OpenTcp 7 "localhost" 80)).
  - apply demo_stamps_apart.
  - discriminate.
  - apply demo_session_valid.
  - apply demo_live_reachable.
  - assert (Hl : match loop demo_live with OEnd => false | _ => true end = true) by (vm_compute; reflexivity).
    intros He. rewrite He in Hl. discriminate Hl.
  - refine (bool_decide_eq_true_1 (_ ∈ _) _). vm_compute. reflexivity.
  - by eexists.
Defined.

Lemma abandon_keeps_unsaved_witness : exists rec',
  good demo_dir (w_fs (left_by (abandon demo_dir "i" demo_session.1 "stopped" quiet demo_session.2))) rec' /\
  (rs_dirty demo_session.1 = true -> rs_quiesced demo_session.1 = false ->
   left_by (abandon demo_dir "i" demo_session.1 "stopped" quiet demo_session.2) = demo_session.2).
Proof.
  assert (Hg : good demo_dir (w_fs demo_session.2) (demo_record demo_session.2))
    by (apply good_b_sound; vm_compute; reflexivity).
  assert (Hp : phase_run (r_phase (demo_record demo_session.2)) = Some (run_id_of demo_session.1))
    by (vm_compute; reflexivity).
  destruct (abandon_keeps_unsaved demo_dir quiet "i" demo_session.1 "stopped"
    (demo_record demo_session.2) demo_session.2 Hg Hp) as (rec' & Hg' & _ & Hu & _).
  exists rec'. split; [exact Hg'|exact Hu].
Defined.

Definition demo_forward : port_forward := mk_forward "127.0.0.1" 8080 "127.0.0.1" 8080.

Lemma new_forwards_ok idle t : forwards_ok (new idle t).
Proof. split; [done|]. intros h Hh. by apply elem_of_empty in Hh. Qed.

Lemma forwards_in_place_witness :
  user_forwards (add_user_forward None demo_forward (new true 0)).1 !! host_of demo_forward =
    Some (guest_of demo_forward).
Proof.
  destruct (forwards_in_place None demo_forward "127.0.0.1" 8080 (new true 0) (new_forwards_ok true 0)) as [Hf _].
  apply (Hf (add_user_forward None demo_forward (new true 0)).1). vm_compute. reflexivity.
Defined.

Lemma failed_forward_sticks_witness : exists b1 b2,
  add_user_forward (Some "address in use") demo_forward (new true 0) = (b1, Some "address in use") /\
  add_user_forward None demo_forward b1 = (b2, None) /\ listening b2 = [].
Proof.
  destruct (failed_forward_sticks demo_forward (new true 0) "address in use" None None)
    as (b1 & b2 & H1 & H2 & H3 & _).
  - reflexivity.
  - reflexivity.
  - apply not_elem_of_empty.
  - reflexivity.
  - reflexivity.
  - reflexivity.
  - exists b1, b2. split; [exact H1|split; [exact H2|exact H3]].
Defined.

(** A run that served a command ends with its state saved. *)
Definition demo_end : option (world * option string) :=
  end_owner quiet demo_dir demo_guest "i" (Owner.run demo_live).1 (Owner.run demo_live).2.

Definition ended_well (r : option (world * option string)) : bool :=
  match r with Some (_, None) => true | _ => false end.

Lemma owner_end_saves_witness : exists w',
  demo_end = Some (w', None) /\
  exists id, saved demo_dir (demo_record (Owner.run demo_live).2) demo_disk (g_id <$> base (Owner.run demo_live).1)
    (Snapshot (run_id_of (Owner.run demo_live).1)) id (w_fs w').
Proof.
  assert (Hb : ended_well demo_end = true) by (vm_compute; reflexivity).
  assert (Hg : good demo_dir (w_fs (Owner.run demo_live).2) (demo_record (Owner.run demo_live).2))
    by (apply good_b_sound; vm_compute; reflexivity).
  assert (Hs : session_runs demo_dir (Owner.run demo_live).1 (demo_record (Owner.run demo_live).2)).
  { split_and!.
    - vm_compute. reflexivity.
    - vm_compute. reflexivity.
    - vm_compute. reflexivity. }
  assert (Hq : rs_quiesced (Owner.run demo_live).1 = false) by (vm_compute; reflexivity).
  assert (Hd : contents_at (w_fs (Owner.run demo_live).2) (run_rootfs (rs_run (Owner.run demo_live).1)) = Some demo_disk)
    by (vm_compute; reflexivity).
  destruct demo_end as [[w' [e|]]|] eqn:He; [discriminate Hb| |discriminate Hb].
  unfold demo_end in He. exists w'. split; [reflexivity|].
  exact (owner_end_saves demo_dir quiet demo_guest "i" (Owner.run demo_live).1
    (demo_record (Owner.run demo_live).2) demo_disk (Owner.run demo_live).2 w' None demo_stamps_apart Hg Hs Hq Hd He).
Defined.
