(* ===== verification/Instances.v ===== *)
(** * Making and deleting instances

    [src/src/descriptor.rs], the fork of [src/src/checkpoints.rs] and the
    deletion of [src/src/cli.rs].  Both work in the transaction area of an
    instances directory: a fork assembles the new instance there and publishes
    it by one rename, a deletion moves the instance there by one rename and
    then removes it.  What other processes decide (whether an owner runs, what
    taking the instance lock comes to) is an argument, as is what a running
    owner does when asked for a capture. *)

From S2P Require Import Prelude FileSystem FsLogic FsUtil FsCopy FsTotal Text.
From S2P Require Import Store StoreLogic Paths Legacy HostShare Checkpoints Snapshots.

(** ** Temporary files *)

(** [tempfile]'s [Builder::tempdir_in] and [Builder::tempfile_in] with a
    prefix. *)
Class TempFiles := {
  tempdir_in : string -> path -> M path;
  tempfile_in : string -> path -> M path;
}.

(** A new entry of the directory, named by the prefix and a suffix, and nothing
    else. *)
Class TempLaws `{TempFiles} := {
  tempdir_in_new E m prefix root : triple E (eq m) (tempdir_in prefix root)
    (fun p m' => exists s, p = root /: (prefix +:+ s) /\ m !! p = None /\ parent_is_dir m p = true /\ m' = <[p := NDir]> m)
    (eq m);
  tempfile_in_new E m prefix root : triple E (eq m) (tempfile_in prefix root)
    (fun p m' => exists s, p = root /: (prefix +:+ s) /\ m !! p = None /\ parent_is_dir m p = true /\
       m' = <[p := NFile (mk_file [] 0)]> m)
    (eq m);
}.

(** ** descriptor.rs *)

Definition DESCRIPTOR_FILE : string := "lnx.json".

Record instance_descriptor := mk_descriptor {
  d_name : option string;
  d_created : option string;
  d_image : option string;
  d_cpus : option N;
  d_memory_mib : option N;
}.

Definition default_descriptor : instance_descriptor := mk_descriptor None None None None None.

(** The settings fit a [u8] and a [u32]. *)
Definition valid_descriptor (d : instance_descriptor) : Prop :=
  (forall n, d_cpus d = Some n -> (n < 256)%N) /\ (forall n, d_memory_mib d = Some n -> (n < 2 ^ 32)%N).

Section descriptor.
Context `{Json instance_descriptor, TempFiles}.
(** The time in RFC 3339, of a time in nanoseconds. *)
Context (rfc3339 : N -> option string).

Definition descriptor_path (l : layout) : path := lo_instance_dir l /: DESCRIPTOR_FILE.

Definition load_descriptor (l : layout) : M instance_descriptor :=
  r ← attempt (read_to_string (descriptor_path l));
  match r with
  | inl contents =>
      match from_slice (to_bytes contents) with
      | Some d => mret d
      | None => bail "parse"
      end
  | inr (Io NotFound) => mret default_descriptor
  | inr e => fail e
  end.

(** A temporary file that is not persisted is removed when it is dropped. *)
Definition save_to_path (p : path) (d : instance_descriptor) : M unit :=
  parent ← context (parent p) "descriptor path has no parent";
  _ ← create_dir_all parent;
  temp ← tempfile_in ".lnx-descriptor-" parent;
  r ← attempt (_ ← write_all temp (to_vec_pretty d ++ [newline]); _ ← sync temp; rename temp p);
  match r with
  | inl _ => _ ← metadata parent; sync parent
  | inr e => _ ← attempt (remove_file temp); fail e
  end.

Definition save_descriptor (l : layout) (d : instance_descriptor) : M unit := save_to_path (descriptor_path l) d.

Definition save_in_instance_dir (instance_dir : path) (d : instance_descriptor) : M unit :=
  save_to_path (instance_dir /: DESCRIPTOR_FILE) d.

Definition ensure_identity (l : layout) (image : string) : M unit :=
  d ← load_descriptor l;
  let named := match d_name d with
    | None => mk_descriptor (Some (lo_instance l)) (d_created d) (d_image d) (d_cpus d) (d_memory_mib d)
    | Some _ => d
    end in
  dated ← match d_created named with
    | None => now ← clock; mret (mk_descriptor (d_name named) (rfc3339 now) (d_image named) (d_cpus named) (d_memory_mib named))
    | Some _ => mret named
    end;
  let imaged := match d_image dated with
    | None => mk_descriptor (d_name dated) (d_created dated) (Some image) (d_cpus dated) (d_memory_mib dated)
    | Some _ => dated
    end in
  if bool_decide (d_name d = None \/ d_created d = None \/ d_image d = None) then save_descriptor l imaged else mret tt.

(** [runner::snapshot_vm_config] is [get_snapshot_vm_config]; [try_into] of a
    value that does not fit fails. *)
Definition destination_descriptor (source dest : layout) (generation : path) : M instance_descriptor :=
  d ← load_descriptor source;
  now ← clock;
  let named := mk_descriptor (Some (lo_instance dest)) (rfc3339 now) (d_image d) (d_cpus d) (d_memory_mib d) in
  c ← get_snapshot_vm_config generation;
  match c with
  | None => mret named
  | Some c =>
      cpus ← context (if (sv_vcpu_count c <? 256)%N then Some (sv_vcpu_count c) else None)
               "checkpoint vCPU count does not fit instance descriptor";
      mib ← context (if (memory_mib c <? 2 ^ 32)%N then Some (memory_mib c) else None)
              "checkpoint memory does not fit instance descriptor";
      mret (mk_descriptor (d_name named) (d_created named) (d_image named) (Some cpus) (Some mib))
  end.

End descriptor.

(** ** Forking *)

Definition FORK_LEASE : string := ".lnx-fork-lease".

(** [OpenOptions] with [create(true)] and [truncate(false)]. *)
Definition open_create (p : path) : M unit := change (fun _ w =>
  match w_fs w !! p with
  | Some (NFile _) => inl None
  | Some NDir => inr IsADirectory
  | Some (NLink _) => inr OtherIo
  | None => if parent_is_dir (w_fs w) p then inl (Some (OWrite p (mk_file [] 0))) else inr (missing_kind (w_fs w) p)
  end).

(** [flock(LOCK_EX)], which waits *)
Definition flock_exclusive (p : path) : M unit := look (fun _ => inl tt).

Definition lock_fork_transaction_root (fork_root : path) : M unit :=
  _ ← open_create (fork_root /: ".guard");
  flock_exclusive (fork_root /: ".guard").

(** Whether a staging directory belongs to no running fork. *)
Definition fork_is_stale (staging : path) : M bool :=
  r ← attempt (look (fun m =>
    match stat_in m (staging /: FORK_LEASE) with
    | inl NDir => inr IsADirectory
    | inl _ => inl tt
    | inr k => inr k
    end));
  match r with
  | inl _ => try_lock_pin (staging /: FORK_LEASE)
  | inr (Io NotFound) => mret true
  | inr e => fail e
  end.

Definition cleanup_fork_root (fork_root : path) : M unit :=
  there ← path_exists fork_root;
  if negb there then mret tt
  else
    _ ← lock_fork_transaction_root fork_root;
    entries ← read_dir fork_root;
    for_each (fun name =>
      n ← symlink_metadata (fork_root /: name);
      match n with
      | NDir =>
          stale ← fork_is_stale (fork_root /: name);
          if (stale : bool) then remove_dir_all (fork_root /: name) else mret tt
      | _ => mret tt
      end) entries.

Definition cleanup_stale_fork_transactions (instances_root : path) : M unit :=
  roots ← instance_transaction_roots instances_root;
  for_each (fun root => cleanup_fork_root (root /: "fork")) roots.

(** What holds a temporary directory removes it when it fails. *)
Definition scoped {A} (dir : path) (c : M A) : M A :=
  r ← attempt c;
  match r with
  | inl a => mret a
  | inr e => _ ← attempt (remove_dir_all dir); fail e
  end.

Section fork.
Context `{Json record, Json manifest, Json checkpoint_ref, Json instance_descriptor, TempFiles}.
Context (rfc3339 : N -> option string).
Context (start_time : Z -> option N).
(** How many names are tried for a transaction area. *)
Context (fuel : nat).

(** [StagedInstance::create] *)
Definition staged_create (instances_root : path) : M path :=
  _ ← cleanup_stale_fork_transactions instances_root;
  transaction_root ← ensure_instance_transaction_root fuel instances_root;
  let fork_root := transaction_root /: "fork" in
  _ ← create_dir_all fork_root;
  _ ← lock_fork_transaction_root fork_root;
  dir ← tempdir_in "fork-" fork_root;
  _ ← scoped dir (_ ← create_new (dir /: FORK_LEASE); flock_exclusive (dir /: FORK_LEASE));
  mret dir.

(** [StagedInstance::publish], once nothing is at the destination. *)
Definition staged_publish (staged dest : path) : M unit :=
  _ ← rename staged dest;
  _ ← match parent dest with Some d => sync_dir d | None => mret tt end;
  _ ← attempt (remove_file (dest /: FORK_LEASE));
  mret tt.

Inductive fork_source :=
  | ForkCheckpoint (checkpoint : checkpoint_ref)
  | ForkCurrent.

(** [runner::refuse_crashed_run]; [held] is what taking the instance's guard
    came to, and whether the instance lock was then held. *)
Definition refuse_crashed_run (l : layout) (held : bool + error) : M unit :=
  match held with
  | inr e => fail e
  | inl true => mret tt
  | inl false =>
      c ← crashed (lo_instance_dir l);
      match c with Some e => fail e | None => mret tt end
  end.

(** The source's state, put into the staging directory. *)
Definition fork_state (source : layout) (from : fork_source) (live : bool) (held : bool + error)
    (capture : path -> M unit) (staged : path) : M unit :=
  let dir := lo_instance_dir source in
  match from with
  | ForkCheckpoint checkpoint =>
      g ← pin dir (c_generation checkpoint);
      export g staged
  | ForkCurrent =>
      if live then capture staged
      else
        _ ← refuse_crashed_run source held;
        r ← get_record dir;
        latest ← context (r ≫= r_latest) "instance has no saved state";
        g ← pin dir latest;
        export g staged
  end.

Definition fork (source : layout) (from : fork_source) (dest : layout) (locked : bool + error) (live : bool)
    (held : bool + error) (capture : path -> M unit) : M unit :=
  _ ← ensure_store start_time source locked;
  there ← path_exists (lo_instance_dir dest);
  if (there : bool) then bail "destination instance already exists"
  else
    root ← context (parent (lo_instance_dir dest)) "destination instance has no parent";
    if negb (bool_decide (root = lo_base dest /: "instances")) then bail "destination instance is outside its instance store"
    else
      staged ← staged_create root;
      _ ← scoped staged (
        _ ← fork_state source from live held capture staged;
        l ← latest staged;
        exported ← context l "forked instance has no state";
        d ← destination_descriptor rfc3339 source dest (g_dir exported);
        _ ← save_in_instance_dir staged d;
        appeared ← path_exists (lo_instance_dir dest);
        if (appeared : bool) then bail "destination instance appeared while forking" else mret tt);
      staged_publish staged (lo_instance_dir dest).

End fork.

(** ** Deleting *)

(** The file system modelled has no link on the way to an instance, so a path
    that is there is its own canonical form. *)
Definition canonicalize (p : path) : M path := _ ← metadata p; mret p.

Definition paths_refer_to_same_existing_entry (left right : path) : M bool :=
  if bool_decide (left = right) then mret true
  else
    l ← attempt (canonicalize left);
    match l with
    | inr _ => mret false
    | inl l =>
        r ← attempt (canonicalize right);
        mret (match r with inl r => bool_decide (l = r) | inr _ => false end)
    end.

Definition validate_contained_instance_dir (dir instances_root : path) (name : string) : M unit :=
  if bool_decide (parent dir = Some instances_root) && bool_decide (last dir = Some name) then mret tt
  else bail "refusing to delete an instance dir outside the instances directory".

(** What an earlier deletion moved away and did not remove. *)
Definition find_detached_instance_state (instances_root : path) (name : string) : M (list path) :=
  roots ← instance_transaction_roots instances_root;
  fold_m (fun paths root =>
    let delete_root := root /: "delete" /: name in
    entries ← attempt (read_dir delete_root);
    match entries with
    | inr (Io NotFound) => mret paths
    | inr e => fail e
    | inl names =>
        fold_m (fun paths entry =>
          n ← symlink_metadata (delete_root /: entry);
          mret (match n with NDir => paths ++ [delete_root /: entry] | _ => paths end)) paths names
    end) [] roots.

(** The loop that makes a directory for one deletion. *)
Fixpoint make_transaction (fuel : nat) (delete_root : path) (n : N) : M path :=
  match fuel with
  | O => bail "too many deletions"
  | S fuel' =>
      pid ← process_id;
      let candidate := delete_root /: (pretty pid +:+ "-" +:+ pretty n) in
      made ← attempt (create_dir candidate);
      match made with
      | inl _ => mret candidate
      | inr (Io AlreadyExists) => make_transaction fuel' delete_root (saturating_add n 1)
      | inr e => fail e
      end
  end.

(** The part of [plan_contained_instance_detach] that makes a place to move the
    instance to. *)
Definition make_slot (fuel : nat) (instances_root : path) (name : string) : M path :=
  transaction_root ← ensure_instance_transaction_root fuel instances_root;
  let delete_root := transaction_root /: "delete" /: name in
  _ ← create_dir_all delete_root;
  make_transaction fuel delete_root 0.

(** The directory to move, the directory made for it and where it goes. *)
Definition plan : Type := path * path * path.

Definition plan_contained_instance_detach (fuel : nat) (dir instances_root : path) (name : string) : M (option plan) :=
  _ ← validate_contained_instance_dir dir instances_root name;
  there ← attempt (symlink_metadata dir);
  match there with
  | inr (Io NotFound) => mret None
  | inr e => fail e
  | inl _ =>
      transaction ← make_slot fuel instances_root name;
      mret (Some (dir, transaction, transaction /: "state"))
  end.

(** Moves back what was moved, the last first. *)
Fixpoint roll_back (moved : list plan) : M unit :=
  match moved with
  | [] => mret tt
  | (original, transaction, state) :: rest =>
      r ← attempt (rename state original);
      match r with
      | inr _ => bail "detach for deletion and rollback failed"
      | inl _ => _ ← attempt (remove_dir_all transaction); roll_back rest
      end
  end.

(** [moved] holds what has been moved, the last first. *)
Fixpoint detach_plans (moved : list plan) (planned : list plan) : M (list path) :=
  match planned with
  | [] => mret ((fun p : plan => p.1.2) <$> reverse moved)
  | (original, transaction, state) :: rest =>
      r ← attempt (rename original state);
      match r with
      | inr e =>
          _ ← attempt (remove_dir_all transaction);
          _ ← roll_back moved;
          fail e
      | inl _ => detach_plans ((original, transaction, state) :: moved) rest
      end
  end.

Definition detach_planned_instance_dirs (planned : list plan) : M (list path) := detach_plans [] planned.

Definition plan_all (fuel : nat) (l : layout) (persistent_root : path) (split_run_root : option path) (name : string)
    : M (list plan) :=
  first ← plan_contained_instance_detach fuel (lo_instance_dir l) persistent_root name;
  second ← match split_run_root with
    | Some run_root => plan_contained_instance_detach fuel (lo_run_dir l) run_root name
    | None => mret None
    end;
  mret (option_list first ++ option_list second).

(** [active] is whether the instance runs, and [terminated] what ending its
    owner came to. *)
Definition delete_resolved_instance (fuel : nat) (base : path) (name : string) (l : layout) (active : bool)
    (terminated : unit + error) (locked : bool + error) : M unit :=
  let persistent_root := base /: "instances" in
  run_is_persistent ← paths_refer_to_same_existing_entry (lo_run_dir l) (lo_instance_dir l);
  split_run_root ←
    (if run_is_persistent : bool then mret None
     else root ← context (parent (lo_run_dir l)) "split instance run directory has no instances parent"; mret (Some root));
  trash ← find_detached_instance_state persistent_root name;
  run_trash ← match split_run_root with
    | Some run_root => find_detached_instance_state run_root name
    | None => mret []
    end;
  there ← path_exists (lo_instance_dir l);
  run_there ← (if there : bool then mret true else path_exists (lo_run_dir l));
  if negb run_there && bool_decide (trash ++ run_trash = []) then bail ("instance not found: " +:+ name)
  else
    _ ← (if active then lift terminated else mret tt);
    detached ← with_exclusive_instance_state locked
      (planned ← plan_all fuel l persistent_root split_run_root name; detach_planned_instance_dirs planned);
    detached ← context detached "instance became busy while deletion was being reserved";
    for_each remove_path_if_exists ((trash ++ run_trash) ++ detached).

(** The environment's [LNX_BASE] and [LNX_RUN_BASE], and the home directory. *)
Definition delete_instance (fuel : nat) (lnx_base run_base_env home : option path) (base : path) (name : string)
    (active : bool) (terminated : unit + error) (locked : bool + error) : M unit :=
  if negb (is_instance_dir_name name) then bail "invalid instance name"
  else
    delete_resolved_instance fuel base name (resolve_in_base name base None None lnx_base run_base_env home)
      active terminated locked.

(** [collect_child_dir_names]: the names, in order and each once. *)
Definition collect_child_dir_names (root : path) : M (list string) :=
  entries ← attempt (read_dir root);
  match entries with
  | inr (Io NotFound) => mret []
  | inr e => fail e
  | inl names =>
      found ← fold_m (fun acc name =>
        n ← symlink_metadata (root /: name);
        match n with
        | NDir =>
            hidden ← is_instance_transaction_root (root /: name);
            mret (if (hidden : bool) then acc else acc ++ [name])
        | _ => mret acc
        end) [] names;
      mret (merge_sort string_le (remove_dups found))
  end.
