(* ===== verification/InstanceLogic.v ===== *)
(** * The transaction area of an instances directory

    Forks and deletions work in directories whose names no instance can have.
    What finds, makes and cleans them touches nothing else, and what is renamed
    out of them arrives as it was. *)

From S2P Require Import Prelude FileSystem FsLogic FsUtil FsCopy FsTotal Text.
From S2P Require Import Store StoreLogic StoreSafety Paths Legacy HostShare Checkpoints Snapshots Instances.

(** [q] is in the transaction area below [root]. *)
Definition in_area (root q : path) : Prop :=
  exists name, is_transaction_name name = true /\ below (root /: name) q.

Definition transaction_root (root p : path) : Prop :=
  exists name, p = root /: name /\ is_transaction_name name = true.

(** What working in the area may touch: the area, and the directories above it
    when they are not there. *)
Definition area (root q : path) : Prop := in_area root q \/ below q root.

Lemma in_area_below root p q : transaction_root root p -> below p q -> in_area root q.
Proof. intros (name & -> & Hn) Hq. by exists name. Qed.

(** The ways to and from a place in the area. *)
Lemma area_around root p q : transaction_root root p -> below q p \/ below p q -> area root q.
Proof.
  intros (name & -> & Hn) [Hq | Hq].
  - apply below_snoc_inv in Hq as [-> | Hq]; [left; exists name; split; [done | apply below_refl] | by right].
  - left. by exists name.
Qed.

Lemma area_above root p s q : transaction_root root p -> below q (p ++ s) -> area root q.
Proof.
  intros Hp Hq. apply (area_around root p); [done |]. destruct (below_app_inv q p s) as [H | H]; eauto.
Qed.

(** An instance is not in the area. *)
Lemma area_apart root name q : is_transaction_name name = false -> below (root /: name) q -> ~ area root q.
Proof.
  intros Hn Hq [(name' & Hn' & Hq') | Hq'].
  - rewrite (below_sibling root name name' q) in Hn by done. congruence.
  - by eapply not_below_child, below_trans, Hq'.
Qed.

(** ** Names *)

Lemma transaction_names n : is_transaction_name (transaction_name n) = true.
Proof.
  unfold transaction_name. destruct (N.eqb_spec n 0) as [-> | Hn]; [done |].
  unfold is_transaction_name. apply orb_true_iff. right.
  rewrite strip_prefix_app. cbn [mbind option_bind]. rewrite strip_prefix_app, pretty_N_all_digits, andb_true_r.
  apply negb_true_iff, bool_decide_eq_false. by apply pretty_N_nonempty.
Qed.

(** ** Finding and making the area *)

Lemma returns_fold_m {A B : Type} (f : B -> A -> M B) (P : B -> Prop) b l :
  (forall b a, P b -> returns (f b a) P) -> P b -> returns (fold_m f b l) P.
Proof.
  intros Hf. revert b. induction l as [| a l IH]; intros b Hb; simpl; [by apply returns_ret |].
  eapply returns_bind; [by apply Hf |]. intros b' Hb'. by apply IH.
Qed.

Lemma returns_is_root p : returns (is_instance_transaction_root p) (fun b => b = true -> is_transaction_name (file_name p) = true).
Proof.
  unfold is_instance_transaction_root. destruct p as [| x p]; [by apply returns_ret |].
  destruct (is_transaction_name (file_name (x :: p))) eqn:Hn; [| by apply returns_ret]. intros E w b w' _ _. done.
Qed.

Lemma file_name_snoc (p : path) x : file_name (p /: x) = x.
Proof. unfold file_name. by rewrite last_snoc. Qed.

Lemma returns_roots root : returns (instance_transaction_roots root) (Forall (transaction_root root)).
Proof.
  unfold instance_transaction_roots. eapply returns_bind; [apply returns_true |].
  intros [names | [[] | |]] _; try apply returns_fail; [| by apply returns_ret].
  eapply returns_bind; [apply (returns_fold_m _ (Forall (fun name => is_transaction_name name = true))); [| done] |].
  - intros acc name Hacc. eapply returns_bind; [apply returns_true |]. intros [f | | t] _; try by apply returns_ret.
    eapply returns_bind; [apply returns_is_root |]. rewrite file_name_snoc. intros [] Hb; apply returns_ret; [| done].
    apply Forall_app. split; [done |]. constructor; [by apply Hb | done].
  - intros acc Hacc. apply returns_ret. apply Forall_fmap, Forall_forall. intros name Hin. exists name. split; [done |].
    rewrite merge_sort_Permutation in Hin. rewrite Forall_forall in Hacc. by apply Hacc.
Qed.

Lemma respects_roots I `{!PreOrder I} root : respects I (instance_transaction_roots root).
Proof. unfold instance_transaction_roots, is_instance_transaction_root. respects_tac. Qed.

#[export] Hint Resolve respects_roots : frames.

Lemma returns_claim_root fuel root n : returns (claim_root fuel root n) (fun c => transaction_root root c.1).
Proof.
  revert n. induction fuel as [| fuel IH]; intros n; simpl; [apply returns_fail |].
  assert (Hc : transaction_root root (root /: transaction_name n)) by (eexists; split; [done | apply transaction_names]).
  eapply returns_bind; [apply returns_true |]. intros [[] | [[] | |]] _; try apply returns_fail; [by apply returns_ret |].
  eapply returns_bind; [apply returns_true |]. intros [] _; [by apply returns_ret | apply IH].
Qed.

(** What making the area may touch. *)
Definition root_made (root q : path) : Prop :=
  below q root \/ exists t, transaction_root root t /\ (q = t \/ q = t /: INSTANCE_TRANSACTION_MARKER).

Lemma root_made_area root q : root_made root q -> area root q.
Proof.
  intros [Hq | (t & Ht & [-> | ->])]; [by right | left; eapply in_area_below; [done | apply below_refl] |].
  left. eapply in_area_below; [done | apply below_snoc].
Qed.

Lemma modifies_claim_root fuel root n : modifies (root_made root) (claim_root fuel root n).
Proof.
  revert n. induction fuel as [| fuel IH]; intros n; cbn [claim_root]; unfold is_instance_transaction_root; respects_tac.
  all: try apply IH. apply modifies_create_dir. right. eexists. split; [| by left]. eexists. split; [done | apply transaction_names].
Qed.

Lemma keeps_form_claim_root fuel root n : respects keeps_form (claim_root fuel root n).
Proof.
  revert n. induction fuel as [| fuel IH]; intros n; cbn [claim_root]; unfold is_instance_transaction_root; respects_tac; apply IH.
Qed.

Lemma returns_ensure_root fuel root : returns (ensure_instance_transaction_root fuel root) (transaction_root root).
Proof.
  unfold ensure_instance_transaction_root, existing_instance_transaction_root.
  eapply returns_bind; [eapply returns_bind; [apply returns_roots |] |].
  - intros roots Hr. apply (returns_ret _ (fun o => forall p, o = Some p -> transaction_root root p)).
    intros p Hp. destruct Hr; by simplify_eq/=.
  - intros [p |] Hp; [by apply returns_ret, Hp |]. eapply returns_bind; [apply returns_true |]. intros _ _.
    eapply returns_bind; [apply returns_claim_root |]. intros [p fresh] Hc. destruct fresh; [| by apply returns_ret].
    eapply returns_bind; [apply returns_true |]. intros [? | e] _; [by apply returns_ret |].
    eapply returns_bind; [apply returns_true |]. intros _ _. apply returns_fail.
Qed.

Lemma modifies_ensure_root fuel root : modifies (root_made root) (ensure_instance_transaction_root fuel root).
Proof.
  unfold ensure_instance_transaction_root, existing_instance_transaction_root.
  apply respects_bind; [apply _ | respects_tac |]. intros [p |]; [respects_tac |].
  apply respects_bind; [apply _ | apply modifies_create_dir_all; by left |]. intros [].
  eapply respects_bind_returns; [apply _ | apply modifies_claim_root | apply returns_claim_root |].
  intros [p fresh] Hp.
  assert (Hin : root_made root p /\ root_made root (p /: INSTANCE_TRANSACTION_MARKER)) by (split; right; eauto).
  destruct Hin, fresh; unfold mark_root; respects_tac.
Qed.

Lemma keeps_form_ensure_root fuel root : respects keeps_form (ensure_instance_transaction_root fuel root).
Proof.
  unfold ensure_instance_transaction_root, existing_instance_transaction_root, mark_root.
  respects_tac; apply keeps_form_claim_root.
Qed.

#[export] Hint Resolve keeps_form_ensure_root : frames.

(** ** Errors by value *)

(** A triple whose third condition says what a failure came to, and whose last
    one is about being killed. *)
Definition t3 {A : Type} (E : env) (P : fsmap -> Prop) (c : M A) (Q : A -> fsmap -> Prop) (X : error -> fsmap -> Prop)
    (C : fsmap -> Prop) : Prop :=
  forall w, P (w_fs w) ->
  match c E w with
  | Ok a w' => Q a (w_fs w')
  | Err e w' => X e (w_fs w')
  | Crash w' => C (w_fs w')
  end.

Section t3.
Context (E : env).

Lemma t3_triple {A : Type} P (c : M A) Q X : triple E P c Q X -> t3 E P c Q (fun _ => X) X.
Proof. intros Hc w Hw. specialize (Hc w Hw). by destruct (c E w). Qed.

Lemma t3_ret {A : Type} P (a : A) (Q : A -> fsmap -> Prop) X C : (forall m, P m -> Q a m) -> t3 E P (mret a) Q X C.
Proof. intros HQ w Hw. by apply HQ. Qed.

Lemma t3_fail {A : Type} P e (Q : A -> fsmap -> Prop) (X : error -> fsmap -> Prop) C :
  (forall m, P m -> X e m) -> t3 E P (fail e) Q X C.
Proof. intros HX w Hw. by apply HX. Qed.

Lemma t3_bind {A B : Type} P (c : M A) (k : A -> M B) R Q X C :
  t3 E P c R X C -> (forall a, t3 E (R a) (k a) Q X C) -> t3 E P (c ≫= k) Q X C.
Proof.
  intros Hc Hk w Hw. specialize (Hc w Hw). unfold mbind, M_bind. destruct (c E w) as [a w' | e w' | w']; [| done | done].
  by apply Hk.
Qed.

Lemma t3_attempt {A : Type} P (c : M A) Q X C X' :
  t3 E P c Q X C -> t3 E P (attempt c) (fun r m => match r with inl a => Q a m | inr e => X e m end) X' C.
Proof. intros Hc w Hw. specialize (Hc w Hw). unfold attempt. by destruct (c E w). Qed.

Lemma t3_conseq {A : Type} (P P' : fsmap -> Prop) (c : M A) Q Q' X X' C C' :
  t3 E P' c Q' X' C' -> (forall m, P m -> P' m) -> (forall a m, Q' a m -> Q a m) -> (forall e m, X' e m -> X e m) ->
  (forall m, C' m -> C m) -> t3 E P c Q X C.
Proof. intros Hc HP HQ HX HC w Hw. specialize (Hc w (HP _ Hw)). destruct (c E w); auto. Qed.

Lemma t3_start {A : Type} P (c : M A) Q X C : (forall m, P m -> t3 E (eq m) c Q X C) -> t3 E P c Q X C.
Proof. intros Hc w Hw. by apply (Hc (w_fs w)). Qed.

End t3.

(** ** Renaming a tree *)

Definition disjoint (a b : path) : Prop := ~ below a b /\ ~ below b a.

Lemma disjoint_below a b q : disjoint a b -> below a q -> ~ below b q.
Proof. intros [H1 H2] [s ->]%below_spec Hb. apply below_app_inv in Hb as [?|?]; auto. Qed.

Lemma disjoint_sym a b : disjoint a b -> disjoint b a.
Proof. by intros []. Qed.

(** What was at [a] is at [b]. *)
Definition relocated (a b : path) (m m' : fsmap) : Prop := forall s, m' !! (b ++ s) = m !! (a ++ s).

(** A rename that returns has moved the tree; one that does not has changed
    nothing. *)
Lemma t_rename E m a b : a <> b ->
  triple E (eq m) (rename a b)
    (fun _ m' => is_Some (m !! a) /\ ~ below a b /\ parent_is_dir m b = true /\ m' = move a b m) (eq m).
Proof.
  intros Hne. apply t_change.
  - done.
  - intros w o <- (-> & H1 & H2 & H3 & _)%rename_in_Some. done.
  - intros w <- Hn%rename_in_None. done.
Qed.

Lemma move_relocated a b m : ~ below a b -> relocated a b m (move a b m).
Proof. intros Hn s. by rewrite lookup_move, strip_app by done. Qed.

Lemma move_absent a b m : ~ below a b -> disjoint a b -> absent a (move a b m).
Proof.
  intros Hn Hd s. rewrite lookup_move by done. destruct (strip b (a ++ s)) as [r |] eqn:Hs.
  - apply strip_Some in Hs. destruct (disjoint_below a b (a ++ s) Hd); [apply below_app |]. rewrite Hs. apply below_app.
  - by rewrite decide_True by apply below_app.
Qed.

Lemma move_else a b m q : ~ below a q -> ~ below b q -> move a b m !! q = m !! q.
Proof. intros Ha Hb. apply move_frame. tauto. Qed.

(** A program that changes nothing, and what it returns. *)
Lemma t_inspect {A : Type} E m (c : M A) V : modifies (fun _ => False) c -> returns c V ->
  triple E (eq m) c (fun a m' => m = m' /\ V a) (eq m).
Proof. intros Hc HV. apply t_returns; [| done]. by apply t_silent. Qed.
