(* ===== verification/DeleteTheorems.v ===== *)
(** * Deleting an instance

    A deletion moves the directories of an instance away by renames and undoes
    them when one fails; so the directories of an instance are whole, in their
    places or moved aside, or all gone, and nothing but the instance and the deletion's own part of the transaction
    area is touched. *)

From S2P Require Import Prelude FileSystem FsLogic FsUtil FsCopy FsTotal Text.
From S2P Require Import Store StoreLogic StoreSafety StoreExample Paths Legacy HostShare Unshare Checkpoints Snapshots Instances InstanceLogic.

(** ** Moving directories away *)

Definition original (p : plan) : path := p.1.1.
Definition transaction (p : plan) : path := p.1.2.
Definition state (p : plan) : path := p.2.

(** Two plans have nothing to do with each other. *)
Definition apart (p q : plan) : Prop :=
  disjoint (original p) (original q) /\ disjoint (original p) (transaction q) /\
  disjoint (transaction p) (original q) /\ disjoint (transaction p) (transaction q).

Definition apart_plans (ps : list plan) : Prop :=
  NoDup ps /\ (forall p, p ∈ ps -> state p = transaction p /: "state" /\ disjoint (original p) (transaction p)) /\
  forall p q, p ∈ ps -> q ∈ ps -> p <> q -> apart p q.

(** The directory of [p] is where it was. *)
Definition in_place (m0 m : fsmap) (p : plan) : Prop := same_tree (original p) m0 m.

(** It is gone from there, and kept in the transaction. *)
Definition moved_away (m0 m : fsmap) (p : plan) : Prop :=
  absent (original p) m /\ relocated (original p) (state p) m0 m.

Definition in_place_or_away (m0 m : fsmap) (p : plan) : Prop := in_place m0 m p \/ moved_away m0 m p.

Section detach.
Context (E : env) (m0 : fsmap) (all : list plan) (Hall : apart_plans all).

(** What a rename from or to [p]'s transaction does to the rest: nothing. *)
Lemma apart_originals p q r : p ∈ all -> q ∈ all -> p <> q -> below (original q) r ->
  ~ below (original p) r /\ ~ below (transaction p) r.
Proof.
  intros Hp Hq Hne Hr. destruct Hall as (_ & _ & Ha). destruct (Ha p q Hp Hq Hne) as (H1 & _ & H3 & _).
  split; intros Hb; [by eapply (disjoint_below _ _ _ H1) | by eapply (disjoint_below _ _ _ H3)].
Qed.

Lemma apart_transactions p q r : p ∈ all -> q ∈ all -> p <> q -> below (transaction q) r ->
  ~ below (original p) r /\ ~ below (transaction p) r.
Proof.
  intros Hp Hq Hne Hr. destruct Hall as (_ & _ & Ha). destruct (Ha p q Hp Hq Hne) as (_ & H2 & _ & H4).
  split; intros Hb; [by eapply (disjoint_below _ _ _ H2) | by eapply (disjoint_below _ _ _ H4)].
Qed.

Lemma state_below p r : p ∈ all -> below (state p) r -> below (transaction p) r.
Proof. intros Hp Hr. destruct Hall as (_ & Hs & _). destruct (Hs p Hp) as [Heq _]. rewrite Heq in Hr. by eapply below_child. Qed.

(** Anything that stays within [p]'s places leaves the other plans alone. *)
Definition within (p : plan) (r : path) : Prop := below (original p) r \/ below (transaction p) r.

Lemma others_in_place p q m m' : p ∈ all -> q ∈ all -> p <> q -> frame (within p) m m' ->
  in_place m0 m q -> in_place m0 m' q.
Proof.
  intros Hp Hq Hne Hf Hin r Hr. rewrite Hf; [by apply Hin |]. destruct (apart_originals p q r Hp Hq Hne Hr). by intros [].
Qed.

Lemma others_gone p q m m' : p ∈ all -> q ∈ all -> p <> q -> frame (within p) m m' ->
  absent (original q) m -> absent (original q) m'.
Proof.
  intros Hp Hq Hne Hf Hab s. rewrite Hf; [apply Hab |].
  destruct (apart_originals p q (original q ++ s) Hp Hq Hne (below_app _ _)). by intros [].
Qed.

Lemma others_moved p q m m' : p ∈ all -> q ∈ all -> p <> q -> frame (within p) m m' ->
  moved_away m0 m q -> moved_away m0 m' q.
Proof.
  intros Hp Hq Hne Hf [Hab Hre]. split; [by eapply (others_gone p) |]. intros s. rewrite Hf; [apply Hre |].
  destruct (apart_transactions p q (state q ++ s) Hp Hq Hne) as [H1 H2]; [apply state_below; [done | apply below_app] |].
  by intros [].
Qed.

Lemma others_either p q m m' : p ∈ all -> q ∈ all -> p <> q -> frame (within p) m m' ->
  in_place_or_away m0 m q -> in_place_or_away m0 m' q.
Proof. intros Hp Hq Hne Hf [H | H]; [left; by apply (others_in_place p q m m') | right; by apply (others_moved p q m m')]. Qed.

Lemma move_within p m : p ∈ all -> frame (within p) m (move (original p) (state p) m).
Proof. intros Hp r Hr. apply move_else; intros Hb; apply Hr; [by left | right; by apply state_below]. Qed.

Lemma move_back_within p m : p ∈ all -> frame (within p) m (move (state p) (original p) m).
Proof. intros Hp r Hr. apply move_else; intros Hb; apply Hr; [right; by apply state_below | by left]. Qed.

Lemma modifies_clean p : modifies (below (transaction p)) (attempt (remove_dir_all (transaction p))).
Proof. apply respects_attempt, modifies_remove_dir_all. done. Qed.

(** Cleaning a transaction leaves every directory as it is. *)
Lemma clean_original p m m' : p ∈ all -> frame (below (transaction p)) m m' -> same_tree (original p) m m'.
Proof.
  intros Hp Hf r Hr. apply Hf. destruct Hall as (_ & Hs & _). destruct (Hs p Hp) as [_ Hd]. by eapply disjoint_below.
Qed.

Lemma clean_within p m m' : frame (below (transaction p)) m m' -> frame (within p) m m'.
Proof. intros Hf r Hr. apply Hf. intros Hb. apply Hr. by right. Qed.

Lemma state_ne p : p ∈ all -> state p <> original p.
Proof.
  intros Hp Heq. destruct Hall as (_ & Hs & _). destruct (Hs p Hp) as [Hst [_ Hd]]. apply Hd.
  rewrite <- Heq, Hst. apply below_snoc.
Qed.

(** The directories of [moved] have been moved, the others not. *)
Definition so_far (moved others : list plan) (m : fsmap) : Prop :=
  Forall (moved_away m0 m) moved /\ Forall (in_place m0 m) others.

Lemma so_far_either moved others m : moved ++ others ≡ₚ all -> so_far moved others m -> Forall (in_place_or_away m0 m) all.
Proof.
  intros Hp [Hm Ho]. rewrite <- Hp. apply Forall_app. split.
  - eapply Forall_impl; [exact Hm |]. intros q Hq. by right.
  - eapply Forall_impl; [exact Ho |]. intros q Hq. by left.
Qed.

(** A step within the places of [p] keeps what is known of the others. *)
Lemma so_far_others p moved others m m' : p :: moved ++ others ≡ₚ all -> frame (within p) m m' ->
  so_far moved others m -> so_far moved others m'.
Proof.
  intros Hp Hf [Hm Ho]. assert (Hnd : NoDup (p :: moved ++ others)) by (rewrite Hp; apply Hall).
  apply NoDup_cons in Hnd as [Hnot _].
  assert (Hin : forall q, q ∈ moved ++ others -> p ∈ all /\ q ∈ all /\ p <> q).
  { intros q Hq. rewrite <- Hp. split_and!; [by left | by right | congruence]. }
  rewrite Forall_forall in Hm, Ho. split; apply Forall_forall; intros q Hq.
  - destruct (Hin q) as (? & ? & ?); [apply elem_of_app; by left |]. eapply (others_moved p q m m'); auto.
  - destruct (Hin q) as (? & ? & ?); [apply elem_of_app; by right |]. eapply (others_in_place p q m m'); auto.
Qed.

Lemma t_roll_back moved others : moved ++ others ≡ₚ all ->
  t3 E (so_far moved others) (roll_back moved)
    (fun _ m => Forall (in_place m0 m) all)
    (fun e m => (exists s, e = Bail s) /\ Forall (in_place_or_away m0 m) all)
    (fun m => Forall (in_place_or_away m0 m) all).
Proof.
  revert others. induction moved as [| p moved IH]; intros others Hperm.
  { apply t3_ret. intros m [_ Ho]. by rewrite <- Hperm. }
  assert (Hpin : p ∈ all) by (rewrite <- Hperm; left).
  cbn [roll_back]. destruct p as [[o t] st]. set (p := (o, t, st) : plan) in *.
  apply t3_start. intros m Hm. assert (Heither := so_far_either _ _ m Hperm Hm).
  eapply t3_bind; [eapply t3_attempt, t3_conseq; [apply t3_triple, (t_rename E m st o), (state_ne p Hpin) |..]; [done | intros ? ? H; exact H | intros ? ? H; exact H | by intros ? <-] |].
  intros [[] | e]; [| apply t3_fail; intros ? <-; eauto].
  apply t3_start. intros m1 (_ & Hnb & _ & ->). destruct Hm as [Hmv Ho]. apply Forall_cons in Hmv as [[_ Hre] Hmv].
  assert (Hp1 : in_place m0 (move st o m) p).
  { intros r [s ->]%below_spec. change (original p) with o. rewrite (move_relocated st o m Hnb s). apply Hre. }
  assert (Hs1 : so_far moved others (move st o m)).
  { eapply (so_far_others p); [exact Hperm | apply (move_back_within p m Hpin) | done]. }
  assert (Hafter : forall m2, frame (below t) (move st o m) m2 -> so_far moved (p :: others) m2).
  { intros m2 Hf. destruct (so_far_others p moved others _ m2 Hperm (clean_within p _ _ Hf) Hs1) as [H1 H2].
    split; [done |]. constructor; [| done]. intros r Hr. rewrite (clean_original p _ _ Hpin Hf r Hr). by apply Hp1. }
  assert (Hperm' : moved ++ p :: others ≡ₚ all) by (etrans; [symmetry; apply Permutation_middle | exact Hperm]).
  eapply (t3_bind _ _ _ _ (fun _ => so_far moved (p :: others))); [| intros r; by apply IH].
  eapply t3_conseq; [apply t3_attempt, t3_triple, (t_modifies E (below t)), modifies_remove_dir_all; done |..].
  - done.
  - intros [[] | e] m2 Hf; exact (Hafter m2 Hf).
  - intros e m2 Hf. exact Hf.
  - intros m2 Hf. by eapply so_far_either, Hafter.
Qed.

Lemma t_detach_plans moved rest : moved ++ rest ≡ₚ all ->
  t3 E (so_far moved rest) (detach_plans moved rest)
    (fun l m => l = transaction <$> reverse moved ++ rest /\ Forall (moved_away m0 m) all)
    (fun e m => Forall (in_place_or_away m0 m) all /\ ((exists k, e = Io k) -> Forall (in_place m0 m) all))
    (fun m => Forall (in_place_or_away m0 m) all).
Proof.
  revert moved. induction rest as [| p rest IH]; intros moved Hperm.
  { apply t3_ret. intros m [Hm _]. rewrite !app_nil_r in *. split; [done |]. by rewrite <- Hperm. }
  assert (Hpin : p ∈ all) by (rewrite <- Hperm; apply elem_of_app; right; left).
  assert (Hperm' : p :: moved ++ rest ≡ₚ all) by (etrans; [apply Permutation_middle | exact Hperm]).
  cbn [detach_plans]. destruct p as [[o t] st]. set (p := (o, t, st) : plan) in *.
  apply t3_start. intros m Hm. assert (Heither := so_far_either _ _ m Hperm Hm).
  eapply t3_bind; [eapply t3_attempt, t3_conseq; [apply t3_triple, (t_rename E m o st), not_eq_sym, (state_ne p Hpin) |..]; [done | intros ? ? H; exact H | intros ? ? H; exact H | by intros ? <-] |].
  destruct Hm as [Hmv Ho]. apply Forall_cons in Ho as [Hp Ho].
  intros [[] | e].
  - apply t3_start. intros m1 (_ & Hnb & _ & ->).
    eapply t3_conseq; [apply (IH (p :: moved)); exact Hperm' |..]; [| | done | done].
    + intros ? <-. destruct (so_far_others p moved rest m (move o st m) Hperm' (move_within p m Hpin)) as [H1 H2]; [done |].
      split; [| done]. constructor; [| done]. split.
      * apply (move_absent o st m Hnb). split; [done |]. intros Hb. destruct Hall as (_ & Hst & _).
        destruct (Hst p Hpin) as [Heq [_ Hd]]. apply Hd. apply (state_below p o Hpin Hb).
      * intros s. change (state p) with st. rewrite (move_relocated o st m Hnb s). apply Hp, below_app.
    + intros l m2 [-> H2]. split; [| done]. rewrite reverse_cons, <- app_assoc. done.
  - apply t3_start. intros ? <-.
    eapply (t3_bind _ _ _ _ (fun _ => so_far moved (p :: rest))).
    + assert (Hafter : forall m2, frame (below t) m m2 -> so_far moved (p :: rest) m2).
      { intros m2 Hf. destruct (so_far_others p moved rest m m2 Hperm' (clean_within p _ _ Hf)) as [H1 H2]; [done |].
        split; [done |]. constructor; [| done]. intros r Hr. rewrite (clean_original p _ _ Hpin Hf r Hr). by apply Hp. }
      eapply t3_conseq; [apply t3_attempt, t3_triple, (t_modifies E (below t)), modifies_remove_dir_all; done |..].
      * done.
      * intros [[] | e'] m2 Hf; exact (Hafter m2 Hf).
      * intros e' m2 Hf. exact Hf.
      * intros m2 Hf. by eapply so_far_either, Hafter.
    + intros _. eapply (t3_bind _ _ _ _ (fun _ m => Forall (in_place m0 m) all)).
      * eapply t3_conseq; [by apply (t_roll_back moved (p :: rest)) |..]; [done | done | | done].
        intros e' m2 [[s ->] H]. split; [done |]. by intros [k Hk].
      * intros []. apply t3_fail. intros m2 H. split; [| done]. eapply Forall_impl; [exact H |]. intros q Hq. by left.
Qed.

End detach.

(** ** Removing for good *)

Lemma t_remove_file E P p : triple E P (remove_file p) (fun _ m => m !! p = None) (fun _ => True).
Proof.
  apply t_change; [done | |]; intros w; [intros o _ Ho | intros _ Ho]; repeat case_match; simplify_eq; apply lookup_delete_eq.
Qed.

Lemma t_remove_dir E P p : triple E P (remove_dir p) (fun _ m => m !! p = None) (fun _ => True).
Proof.
  apply t_change; [done | |]; intros w; [intros o _ Ho | intros _ Ho]; repeat case_match; simplify_eq; apply lookup_delete_eq.
Qed.

Lemma t_remove_dir_all E P p : triple E P (remove_dir_all p) (fun _ m => m !! p = None) (fun _ => True).
Proof.
  assert (Ht : forall n, triple E P (remove_tree n p) (fun _ m => m !! p = None) (fun _ => True)).
  { intros n. destruct n as [| n]; simpl; (eapply t_bind; [apply t_any |]); intros [f | | t]; try apply t_remove_file.
    - by apply t_fail.
    - eapply t_bind; [apply t_any |]. intros names. eapply t_bind; [apply t_any |]. intros []. apply t_remove_dir. }
  intros w Hw. unfold remove_dir_all. by apply Ht.
Qed.

(** Where nothing is found, nothing is. *)
Lemma t_attempt_lstat E m p : triple E (eq m) (attempt (symlink_metadata p))
  (fun r m' => m = m' /\ match r with inl n => m !! p = Some n | inr (Io NotFound) => m !! p = None | inr _ => True end) (eq m).
Proof.
  intros w Hw. subst m. unfold attempt, symlink_metadata, look. destruct (e_fault E (w_tick w)) as [[] |]; simpl; [done | done |].
  unfold lstat_in. destruct (w_fs w !! p) as [n |] eqn:Hp; simpl; [done |]. split; [done |]. by destruct (missing_kind _ _).
Qed.

Lemma t_remove_path E p : p <> [] ->
  triple E well_formed (remove_path_if_exists p) (fun _ m => absent p m) (fun _ => True).
Proof.
  intros Hp. apply t_start. intros m Hwf.
  assert (Ht : triple E (eq m) (remove_path_if_exists p) (fun _ m => m !! p = None) (fun _ => True)).
  { unfold remove_path_if_exists. eapply t_bind; [eapply t_conseq; [apply t_attempt_lstat | done | intros r m' Hr; exact Hr | done] |].
    intros [[f | | t] | [[] | |]]; try by apply t_fail.
    - apply t_remove_file.
    - apply t_remove_dir_all.
    - apply t_remove_file.
    - apply t_ret. by intros ? [<- ?]. }
  eapply t_conseq; [eapply t_keep_form; [| apply keeps_form_remove_path_if_exists | exact Ht] | done | | done]; [by intros ? <- |].
  intros [] m' [Hn Hwf'] [| x s]; [by rewrite app_nil_r |]. apply nothing_below; [done | done | congruence | done].
Qed.

(** ** Planning *)

(** What deleting [name] may touch below [root], the instance apart. *)
Definition deleting (root : path) (name : string) (q : path) : Prop :=
  below q root \/ exists t, transaction_root root t /\
    (q = t /: INSTANCE_TRANSACTION_MARKER \/ below q (t /: "delete" /: name) \/ below (t /: "delete" /: name) q).

(** A directory made for one deletion. *)
Definition delete_slot (root : path) (name : string) (p : path) : Prop :=
  exists t x, transaction_root root t /\ p = t /: "delete" /: name /: x.

Lemma deleting_area root name q : deleting root name q -> area root q.
Proof.
  intros [Hq | (t & Ht & Hq)]; [by right |]. destruct Hq as [-> | [Hq | Hq]].
  - left. eapply in_area_below; [done | apply below_snoc].
  - apply (area_above root t ["delete"; name]); [done |]. by rewrite <- app_assoc in Hq.
  - left. eapply in_area_below; [done |]. by do 2 eapply below_child.
Qed.

Lemma slot_deleting root name p q : delete_slot root name p -> below p q -> deleting root name q.
Proof. intros (t & x & Ht & ->) Hq. right. exists t. split; [done |]. do 2 right. by eapply below_child. Qed.

(** No other directory of [root] is in the way of a deletion. *)
Lemma deleting_apart root name other q : is_transaction_name other = false -> below (root /: other) q -> ~ deleting root name q.
Proof. intros Ho Hq Hd. by eapply area_apart, deleting_area. Qed.

Lemma slot_disjoint root name other p : is_transaction_name other = false -> delete_slot root name p -> disjoint (root /: other) p.
Proof.
  intros Ho (t & x & (tn & -> & Htn) & ->).
  assert (Hne : other <> tn) by congruence.
  assert (Hb : below (root /: tn) (root /: tn /: "delete" /: name /: x)) by (do 2 eapply below_child; apply below_snoc).
  split; intros H.
  - apply Hne. by eapply below_sibling.
  - apply Hne. symmetry. eapply below_sibling; [| apply below_refl]. by eapply below_trans.
Qed.

Lemma slot_not_root root name p : delete_slot root name p -> p <> [].
Proof. intros (t & x & _ & ->). by destruct (t /: "delete" /: name). Qed.

Lemma t_create_dir E m p : triple E (eq m) (create_dir p) (fun _ m' => m !! p = None /\ m' = <[p := NDir]> m) (eq m).
Proof. apply t_change; [done | |]; intros w; [intros o <- Ho | intros <- Ho]; repeat case_match; by simplify_eq. Qed.

Lemma t_make_transaction E m fuel root n : triple E (eq m) (make_transaction fuel root n)
  (fun p m' => (exists x, p = root /: x) /\ m !! p = None /\ m' = <[p := NDir]> m) (eq m).
Proof.
  revert n. induction fuel as [| fuel IH]; intros n; simpl; [by apply t_fail |].
  eapply t_bind; [apply (t_silent _ _ _ (eq m)); [auto with frames | done | done] |]. intros pid.
  eapply t_bind; [apply t_attempt, t_create_dir |]. intros [[] | [[] | |]]; try by apply t_fail.
  - apply t_ret. intros m' [Hn ->]. eauto.
  - apply IH.
Qed.

Lemma keeps_form_make_transaction fuel root n : respects keeps_form (make_transaction fuel root n).
Proof. revert n. induction fuel as [| fuel IH]; intros n; simpl; respects_tac; apply IH. Qed.

(** What a plan for [dir], the directory [name] of [root], knows when made in
    [m]. *)
Definition planned (root : path) (name : string) (m : fsmap) (r : option plan) : Prop :=
  match r with
  | None => absent (root /: name) m
  | Some p =>
      original p = root /: name /\ state p = transaction p /: "state" /\
      delete_slot root name (transaction p) /\ absent (transaction p) m
  end.

(** Nothing is new in the slots of [root] but the one of [r]. *)
Definition planned_only (root : path) (name : string) (m : fsmap) (r : option plan) (m' : fsmap) : Prop :=
  forall slot q, delete_slot root name slot -> below slot q -> (forall p, r = Some p -> q <> transaction p) -> m' !! q = m !! q.

Lemma snoc_parent_last (p root : path) name : parent p = Some root -> last p = Some name -> p = root /: name.
Proof.
  intros Hp Hl. destruct p as [| x p _] using rev_ind; [done |]. rewrite last_snoc in Hl. rewrite parent_snoc in Hp. congruence.
Qed.

(** Nothing but [p] is new in the slots of [root]. *)
Definition slots_kept (root : path) (name : string) (m : fsmap) (p : path) (m' : fsmap) : Prop :=
  forall slot q, delete_slot root name slot -> below slot q -> q <> p -> m' !! q = m !! q.

Definition slot_made (root : path) (name : string) (m : fsmap) (p : path) (m' : fsmap) : Prop :=
  delete_slot root name p /\ absent p m /\ slots_kept root name m p m' /\ frame (deleting root name) m m' /\ well_formed m'.

(** What is changed before a slot is made is in no slot. *)
Lemma slot_fresh root name slot t q : delete_slot root name slot -> transaction_root root t -> below slot q ->
  ~ root_made root q /\ ~ below q (t /: "delete" /: name).
Proof.
  intros (t' & x & (tn & -> & Ht) & ->) (tn' & -> & Ht') [s ->]%below_spec.
  assert (Hlen : forall q, below (root /: tn /: "delete" /: name /: x ++ s) q -> length root + 4 <= length q).
  { intros q [r ->]%below_spec. rewrite !length_app. simpl. lia. }
  split; [intros [Hb%Hlen | (t & (tn2 & -> & _) & Heq)] | intros Hb%Hlen].
  - lia.
  - destruct Heq as [Heq | Heq]; rewrite Heq in Hlen; specialize (Hlen _ (below_refl _)); rewrite !length_app in Hlen; simpl in Hlen; lia.
  - rewrite !length_app in Hb. simpl in Hb. lia.
Qed.

Lemma t_make_slot E m fuel root name : well_formed m ->
  triple E (eq m) (make_slot fuel root name) (slot_made root name m) (frame (deleting root name) m).
Proof.
  intros Hwf. unfold make_slot.
  assert (Hmade : forall q, root_made root q -> deleting root name q).
  { intros q [Hq | (t & Ht & [-> | ->])]; [by left | right | right]; exists t; (split; [done |]); [right; left | by left].
    rewrite <- app_assoc. apply below_app. }
  eapply t_bind.
  { eapply t_conseq; [eapply t_returns; [eapply t_keep_form; [| apply keeps_form_ensure_root | apply t_modifies, modifies_ensure_root] | apply returns_ensure_root] | | intros t m1 H1; exact H1 |].
    - by intros ? <-.
    - done.
    - intros m1 H1. by eapply frame_mono, H1. }
  intros t. apply t_start. intros m1 [[H1 Hwf1] Ht].
  assert (Hup : forall q, below q (t /: "delete" /: name) -> deleting root name q) by (intros q Hq; right; eauto).
  eapply t_bind.
  { eapply t_conseq; [eapply t_keep_form; [| apply keeps_form_create_dir_all | apply (t_modifies E (fun q => below q (t /: "delete" /: name))), modifies_create_dir_all; done] | | intros u m2 H2; exact H2 |].
    - by intros ? <-.
    - done.
    - intros m2 H2. etrans; [by eapply frame_mono, H1 | by eapply frame_mono, H2]. }
  intros u. apply t_start. intros m2 [H2 Hwf2].
  assert (H12 : frame (deleting root name) m m2) by (etrans; [by eapply frame_mono, H1 | by eapply frame_mono, H2]).
  eapply t_conseq; [eapply t_keep_form; [| | apply t_make_transaction] | done | | by intros m3 <-].
  - by intros ? <-.
  - apply keeps_form_make_transaction.
  - intros p m3 [([x ->] & Hn & ->) Hwf3].
    assert (Hslot : delete_slot root name (t /: "delete" /: name /: x)) by (by exists t, x).
    assert (Hkeep : forall slot q, delete_slot root name slot -> below slot q -> m2 !! q = m !! q).
    { intros slot q Hs Hq. destruct (slot_fresh root name slot t q Hs Ht Hq) as [Hf1 Hf2].
      by rewrite (H2 _ Hf2), (H1 _ Hf1). }
    split_and!.
    + done.
    + intros s. rewrite <- (Hkeep _ _ Hslot (below_app _ _)). destruct s as [| y s]; [by rewrite app_nil_r |].
      apply nothing_below; [done | by destruct (t /: "delete" /: name) | congruence | done].
    + intros slot q Hs Hq Hne. rewrite lookup_insert_ne by done. by eapply Hkeep.
    + etrans; [exact H12 |]. intros q Hq. apply lookup_insert_ne. intros <-. apply Hq. right. exists t.
      split; [done |]. do 2 right. apply below_snoc.
    + done.
Qed.

Lemma t_plan E m fuel dir root name : well_formed m ->
  triple E (eq m) (plan_contained_instance_detach fuel dir root name)
    (fun r m' => planned root name m r /\ planned_only root name m r m' /\ frame (deleting root name) m m' /\ well_formed m')
    (fun m' => frame (deleting root name) m m').
Proof.
  intros Hwf. unfold plan_contained_instance_detach, validate_contained_instance_dir.
  destruct (bool_decide (parent dir = Some root)) eqn:Hp, (bool_decide (last dir = Some name)) eqn:Hl; simpl;
    try by (apply t_fail; intros ? <-).
  apply bool_decide_eq_true in Hp, Hl. rewrite (snoc_parent_last dir root name Hp Hl).
  eapply (t_bind _ _ _ _ (fun _ => eq m)); [by apply t_ret |]. intros [].
  eapply t_bind; [eapply t_conseq; [apply t_attempt_lstat | done | intros r m' Hr; exact Hr | by intros ? <-] |].
  intros [nd | [[] | |]]; try by (apply t_fail; intros ? [<- _]).
  - eapply (t_bind _ _ _ _ (slot_made root name m)); [eapply t_pre; [by apply t_make_slot | by intros ? [<- _]] |].
    intros p. apply t_ret. intros m' (H1 & H2 & H3 & H4 & H5). split_and!; [done | | done | done].
    intros slot q Hs Hq Hne. eapply H3; [done | done |]. by apply (Hne (root /: name, p, p /: "state")).
  - apply t_ret. intros ? [<- Hn]. split_and!; [| done | done | done]. intros [| x s]; [by rewrite app_nil_r |].
    apply nothing_below; [done | by destruct root | congruence | done].
Qed.

(** ** The whole deletion *)

Lemma disjoint_deep a b p q : disjoint a b -> below a p -> below b q -> disjoint p q.
Proof.
  intros Hd Hp Hq. split; intros Hb.
  - by apply (disjoint_below a b q Hd); [eapply below_trans |].
  - by apply (disjoint_below a b p Hd); [| eapply below_trans].
Qed.

Lemma area_disjoint a b q : disjoint a b -> below b q -> ~ area a q.
Proof.
  intros Hd Hq [(t & _ & Ha) | Ha].
  - apply below_child in Ha. by eapply disjoint_below.
  - destruct Hd as [_ Hd]. apply Hd. by eapply below_trans.
Qed.

Lemma slot_below root name p : delete_slot root name p -> below root p.
Proof. intros (t & x & (tn & -> & _) & ->). apply below_spec. exists [tn; "delete"; name; x]. by rewrite <- !app_assoc. Qed.

Section deletion.
Context (E : env) (name : string) (Hname : is_transaction_name name = false).

(** Directories of instances that have nothing to do with each other. *)
Definition separate (roots : list path) : Prop :=
  NoDup roots /\ forall a b, a ∈ roots -> b ∈ roots -> a <> b -> disjoint a b.

Definition deleting_any (roots : list path) (q : path) : Prop := exists r, r ∈ roots /\ deleting r name q.

(** All a deletion touches. *)
Definition touched (roots : list path) (q : path) : Prop :=
  exists r, r ∈ roots /\ (below (r /: name) q \/ deleting r name q).

Lemma separate_other roots r r' q : separate roots -> r ∈ roots -> r' ∈ roots -> r <> r' -> below r' q -> ~ deleting r name q.
Proof.
  intros [_ Hs] Hr Hr' Hne Hq Hd. eapply area_disjoint; [by apply (Hs r r') | exact Hq |]. by eapply deleting_area.
Qed.

Lemma dirs_apart roots r q : separate roots -> r ∈ roots -> below (r /: name) q -> ~ deleting_any roots q.
Proof.
  intros Hs Hr Hq (r' & Hr' & Hd). destruct (decide (r' = r)) as [-> | Hne].
  - by eapply deleting_apart.
  - eapply (separate_other roots r' r q); [done | done | done | done | by eapply below_child | done].
Qed.

(** [ps] are the plans for the directories [seen], made from the tree [m]. *)
Definition plans_for (seen : list path) (m : fsmap) (ps : list plan) (m' : fsmap) : Prop :=
  (forall p, p ∈ ps -> exists r, r ∈ seen /\ original p = r /: name /\ state p = transaction p /: "state" /\
     delete_slot r name (transaction p)) /\
  apart_plans ps /\
  (forall r, r ∈ seen -> absent (r /: name) m' \/ exists p, p ∈ ps /\ original p = r /: name) /\
  frame (deleting_any seen) m m' /\ well_formed m' /\
  (forall r slot q, r ∈ seen -> delete_slot r name slot -> below slot q -> (forall p, p ∈ ps -> q <> transaction p) ->
     m' !! q = m !! q).

Lemma plans_for_nil m : well_formed m -> plans_for [] m [] m.
Proof.
  intros Hwf. split_and!; [by intros p ?%elem_of_nil | | by intros r ?%elem_of_nil | done | done | by intros r slot q ?%elem_of_nil].
  split_and!; [constructor | by intros p ?%elem_of_nil | by intros p q ?%elem_of_nil].
Qed.

Lemma apart_plans_snoc seen r p ps m m' : separate (seen ++ [r]) -> plans_for seen m ps m' ->
  original p = r /: name -> state p = transaction p /: "state" -> delete_slot r name (transaction p) -> apart_plans (ps ++ [p]).
Proof.
  intros [Hnd Hsep] (Hps & (Hnd' & Hst & Hap) & _) Ho Hs Hslot.
  apply NoDup_app in Hnd as (_ & Hnot & _).
  assert (Hother : forall q, q ∈ ps -> exists r', r' <> r /\ disjoint r' r /\ below r' (original q) /\ below r' (transaction q)).
  { intros q Hq. destruct (Hps q Hq) as (r' & Hr' & Hoq & _ & Hsq). exists r'.
    assert (r' <> r) by (intros ->; apply (Hnot r Hr'); by left). split_and!; [done | | rewrite Hoq; apply below_snoc | by eapply slot_below].
    apply Hsep; [apply elem_of_app; by left | apply elem_of_app; right; by left | done]. }
  assert (Hp : below r (original p) /\ below r (transaction p)) by (split; [rewrite Ho; apply below_snoc | by eapply slot_below]).
  assert (Hpq : forall q, q ∈ ps -> apart p q /\ apart q p).
  { intros q Hq. destruct (Hother q Hq) as (r' & _ & Hd & Hq1 & Hq2). destruct Hp as [Hp1 Hp2].
    split; (split_and!; [.. | ]); first [by eapply (disjoint_deep r' r) | by eapply (disjoint_deep r r'); [apply disjoint_sym | |]]. }
  split_and!.
  - apply NoDup_app. split_and!; [done | | apply NoDup_singleton]. intros q Hq ->%list_elem_of_singleton.
    destruct (Hother p Hq) as (r' & _ & Hd & Hq1 & _). by apply (disjoint_below r' r _ Hd Hq1), Hp.
  - intros q [Hq | ->%list_elem_of_singleton]%elem_of_app; [by apply Hst |]. split; [done |]. rewrite Ho. by eapply slot_disjoint.
  - intros q q' [Hq | ->%list_elem_of_singleton]%elem_of_app [Hq' | ->%list_elem_of_singleton]%elem_of_app Hne; [by apply Hap | | | done].
    + by apply Hpq.
    + by apply Hpq.
Qed.

(** One more directory is planned for. *)
Lemma plans_for_step seen r o ps m m1 m2 : separate (seen ++ [r]) -> plans_for seen m ps m1 ->
  planned r name m1 o -> planned_only r name m1 o m2 -> frame (deleting r name) m1 m2 -> well_formed m2 ->
  plans_for (seen ++ [r]) m (ps ++ option_list o) m2.
Proof.
  intros Hsep Hpf Hpl Honly Hf Hwf. pose proof Hpf as (Hps & Hap & Hdirs & Hframe & _ & Hslots).
  assert (Hr : r ∈ seen ++ [r]) by (apply elem_of_app; right; by left).
  assert (Hseen : forall r', r' ∈ seen -> r' ∈ seen ++ [r]) by (intros; apply elem_of_app; by left).
  assert (Hne : forall r', r' ∈ seen -> r' <> r).
  { intros r' Hr' ->. destruct Hsep as [(_ & Hnot & _)%NoDup_app _]. apply (Hnot r Hr'). by left. }
  split_and!.
  - intros p [Hp | Hp]%elem_of_app.
    + destruct (Hps p Hp) as (r' & Hr' & H1). exists r'. auto.
    + destruct o as [p' |]; [| by apply elem_of_nil in Hp]. apply list_elem_of_singleton in Hp as ->.
      destruct Hpl as (H1 & H2 & H3 & _). eauto.
  - destruct o as [p |]; simpl; [| by rewrite app_nil_r]. destruct Hpl as (H1 & H2 & H3 & _). by eapply (apart_plans_snoc seen r).
  - intros r' [Hr' | ->%list_elem_of_singleton]%elem_of_app.
    + destruct (Hdirs r' Hr') as [Hab | (p & Hp & Hop)]; [left | right; exists p; split; [apply elem_of_app; by left | done]].
      intros s. rewrite Hf; [apply Hab |]. intros Hd. eapply (dirs_apart (seen ++ [r]) r'); [done | auto | apply below_app |]. by exists r.
    + destruct o as [p |]; [right; exists p; split; [apply elem_of_app; right; by left | apply Hpl] | left].
      intros s. rewrite Hf; [apply Hpl |]. intros Hd. eapply (deleting_apart r name name); [done | apply below_app | done].
  - etrans; [eapply frame_mono, Hframe; intros q (r' & Hr' & Hd); exists r'; auto |].
    eapply frame_mono, Hf. intros q Hd. by exists r.
  - done.
  - intros r' slot q [Hr' | ->%list_elem_of_singleton]%elem_of_app Hslot Hq Hfresh.
    + rewrite Hf; [eapply Hslots; [done | done | done |]; intros p Hp; apply Hfresh, elem_of_app; by left |].
      eapply (separate_other (seen ++ [r]) r r'); [done | done | auto | by apply not_eq_sym, Hne |].
      eapply below_trans; [by eapply slot_below | done].
    + rewrite (Honly slot q); [| done | done |]; [| intros p ->; apply Hfresh, elem_of_app; right; by left].
      apply Hframe. intros (r' & Hr' & Hd). eapply (separate_other (seen ++ [r]) r' r); [done | auto | done | by apply Hne | | done].
      eapply below_trans; [by eapply slot_below | done].
Qed.

(** The directory of the instance below [r], whole: where it was, or moved
    aside into the transaction area. *)
Definition whole_or_aside (r : path) (m0 m : fsmap) : Prop :=
  same_tree (r /: name) m0 m \/
  absent (r /: name) m /\ exists slot, delete_slot r name slot /\ relocated (r /: name) (slot /: "state") m0 m.

(** What a deletion that does not return leaves: nothing of the instance is
    lost, or all of its directories are gone from their places. *)
Definition spared_or_gone (roots : list path) (m0 m : fsmap) : Prop :=
  (forall r, r ∈ roots -> whole_or_aside r m0 m) \/ forall r, r ∈ roots -> absent (r /: name) m.

Lemma spared_frame roots m0 m : separate roots -> frame (deleting_any roots) m0 m -> spared_or_gone roots m0 m.
Proof. intros Hs Hf. left. intros r Hr. left. intros q Hq. apply Hf. by eapply dirs_apart. Qed.

Lemma spared_refl roots m : spared_or_gone roots m m.
Proof. left. intros r Hr. by left. Qed.

Lemma t_plan_step fuel seen r dir ps m : separate (seen ++ [r]) ->
  triple E (plans_for seen m ps) (plan_contained_instance_detach fuel dir r name)
    (fun o => plans_for (seen ++ [r]) m (ps ++ option_list o)) (frame (deleting_any (seen ++ [r])) m).
Proof.
  intros Hsep. apply t_start. intros m1 Hm1. pose proof Hm1 as (_ & _ & _ & Hframe & Hwf & _).
  eapply t_conseq; [by apply t_plan | done | |].
  - intros o m2 (H1 & H2 & H3 & H4). by eapply plans_for_step.
  - intros m2 Hf. etrans; [eapply frame_mono, Hframe; intros q (r' & Hr' & Hd); exists r'; split; [apply elem_of_app; by left | done] |].
    eapply frame_mono, Hf. intros q Hd. exists r. split; [apply elem_of_app; right; by left | done].
Qed.

(** The directories an instance has: one, or two when its runtime state is
    kept elsewhere. *)
Definition roots_of (root : path) (split : option path) : list path := root :: option_list split.

Lemma t_plan_all fuel l root split m : well_formed m -> separate (roots_of root split) ->
  triple E (eq m) (plan_all fuel l root split name) (plans_for (roots_of root split) m) (frame (deleting_any (roots_of root split)) m).
Proof.
  intros Hwf Hsep. unfold plan_all.
  assert (H1 : forall x, x ∈ [root] -> x ∈ roots_of root split) by (intros x ->%list_elem_of_singleton; by left).
  eapply t_bind.
  { eapply t_conseq; [apply (t_plan_step fuel [] root (lo_instance_dir l) [] m) | | intros o m' H; exact H |].
    - destruct Hsep as [_ Hs]. split; [apply NoDup_singleton |]. intros a b Ha%H1 Hb%H1. by apply Hs.
    - intros ? <-. by apply plans_for_nil.
    - intros m' Hf. eapply frame_mono, Hf. intros q (r & Hr%H1 & Hd). by exists r. }
  intros first. simpl app. destruct split as [run_root |].
  - eapply t_bind; [apply (t_plan_step fuel [root] run_root (lo_run_dir l) (option_list first) m); exact Hsep |].
    intros second. apply t_ret. intros m' H. exact H.
  - eapply (t_bind _ _ _ _ (fun o m' => o = None /\ plans_for [root] m (option_list first) m')); [by apply t_ret |].
    intros second. apply t_ret. intros m' [-> H]. by rewrite app_nil_r.
Qed.

Lemma respects_roll_back I `{!PreOrder I} moved :
  (forall p, p ∈ moved -> respects I (rename (state p) (original p)) /\ respects I (remove_dir_all (transaction p))) ->
  respects I (roll_back moved).
Proof.
  induction moved as [| p moved IH]; intros Hp; simpl; [respects_tac |]. destruct p as [[o t] st].
  destruct (Hp (o, t, st)) as [H1 H2]; [by left |]. apply respects_bind; [apply _ | by apply respects_attempt |].
  intros [[] | e]; [| respects_tac]. apply respects_bind; [apply _ | by apply respects_attempt |]. intros r.
  apply IH. intros q Hq. apply Hp. by right.
Qed.

Lemma respects_detach I `{!PreOrder I} moved rest :
  (forall p, p ∈ moved ++ rest -> respects I (rename (original p) (state p)) /\ respects I (rename (state p) (original p)) /\
     respects I (remove_dir_all (transaction p))) ->
  respects I (detach_plans moved rest).
Proof.
  revert moved. induction rest as [| p rest IH]; intros moved Hp; simpl; [respects_tac |]. destruct p as [[o t] st].
  destruct (Hp (o, t, st)) as (H1 & H2 & H3); [apply elem_of_app; right; by left |].
  apply respects_bind; [apply _ | by apply respects_attempt |]. intros [[] | e].
  - apply IH. intros q Hq. apply Hp. apply elem_of_app in Hq as [[-> | Hq]%elem_of_cons | Hq]; apply elem_of_app;
      [right; by left | by left | right; by right].
  - apply respects_bind; [apply _ | by apply respects_attempt |]. intros r. apply respects_bind; [apply _ | | respects_tac].
    apply respects_roll_back; [apply _ |]. intros q Hq. apply Hp, elem_of_app. by left.
Qed.

(** After the renames the directories are gone; what is new in the slots is
    below the transactions of the plans. *)
Definition detached (roots : list path) (m : fsmap) (l : list path) (m' : fsmap) : Prop :=
  (forall p, p ∈ l -> exists r, r ∈ roots /\ delete_slot r name p) /\
  (forall r, r ∈ roots -> absent (r /: name) m') /\ frame (touched roots) m m' /\ well_formed m' /\
  forall r slot q, r ∈ roots -> delete_slot r name slot -> below slot q -> (forall p, p ∈ l -> ~ below p q) -> m' !! q = m !! q.

(** The places of a plan, seen from the directories of the instance. *)
Lemma within_touched seen m ps m' p q : plans_for seen m ps m' -> p ∈ ps -> within p q -> touched seen q.
Proof.
  intros (Hps & _) Hp Hw. destruct (Hps p Hp) as (r & Hr & Ho & _ & Hs). exists r. split; [done |].
  destruct Hw as [Hw | Hw]; [left; by rewrite <- Ho | right; by eapply slot_deleting].
Qed.

Lemma within_root roots m ps m' p r q : separate roots -> plans_for roots m ps m' -> p ∈ ps -> r ∈ roots ->
  original p <> r /: name -> within p q -> ~ below (r /: name) q.
Proof.
  intros Hsep (Hps & _) Hp Hr Hne Hw Hq. destruct (Hps p Hp) as (r' & Hr' & Ho & _ & Hs).
  assert (Hd : r' <> r) by congruence. destruct Hw as [Hw | Hw].
  - rewrite Ho in Hw. apply below_child in Hw, Hq. destruct Hsep as [_ Hsep].
    by apply (disjoint_below r' r q); [apply Hsep | |].
  - eapply (dirs_apart roots r q); [done | done | done |]. exists r'. split; [done |]. by eapply slot_deleting.
Qed.

Lemma modifies_detach roots m ps m' : plans_for roots m ps m' ->
  modifies (fun q => exists p, p ∈ ps /\ within p q) (detach_planned_instance_dirs ps).
Proof.
  intros (_ & Hap & _). apply respects_detach; [apply _ |]. intros p Hp. simpl in Hp.
  assert (Hin : forall q, within p q -> exists p, p ∈ ps /\ within p q) by eauto.
  assert (Hst : forall q, below (state p) q -> below (transaction p) q) by (intros q; by apply (state_below ps Hap)).
  split_and!; [apply modifies_rename | apply modifies_rename | apply modifies_remove_dir_all]; intros q Hq; apply Hin; unfold within; auto.
Qed.

Lemma keeps_form_detach ps : respects keeps_form (detach_planned_instance_dirs ps).
Proof. apply respects_detach; [apply _ |]. intros p _. split_and!; auto with frames. Qed.

Lemma planned_whole r p m m1 m2 : in_place_or_away m1 m2 p -> original p = r /: name -> state p = transaction p /: "state" ->
  delete_slot r name (transaction p) -> same_tree (r /: name) m m1 -> whole_or_aside r m m2.
Proof.
  intros Hp Ho Hst Hslot Hs. unfold in_place_or_away, in_place, moved_away in Hp. rewrite Ho, Hst in Hp. destruct Hp as [Hin | [Hab Hre]].
  - left. intros q Hq. rewrite (Hin q Hq). by apply Hs.
  - right. split; [done |]. exists (transaction p). split; [done |]. intros x. rewrite Hre. apply Hs, below_app.
Qed.

Lemma t_detach roots m ps : separate roots ->
  triple E (plans_for roots m ps) (detach_planned_instance_dirs ps) (detached roots m)
    (fun m' => spared_or_gone roots m m' /\ frame (touched roots) m m').
Proof.
  intros Hsep. apply t_start. intros m1 Hm1. pose proof Hm1 as (Hps & Hap & Hdirs & Hframe & Hwf & Hslots).
  assert (Hsame : forall r, r ∈ roots -> same_tree (r /: name) m m1).
  { intros r Hr q Hq. apply Hframe. by eapply dirs_apart. }
  assert (Hdel : frame (touched roots) m m1) by (eapply frame_mono, Hframe; intros q (r & Hr & Hd); exists r; auto).
  assert (Hmod := modifies_detach roots m ps m1 Hm1).
  assert (Hto : forall q, (exists p, p ∈ ps /\ within p q) -> touched roots q).
  { intros q (p & Hp & Hw). by eapply within_touched. }
  assert (Hgone : forall m', frame (fun q => exists p, p ∈ ps /\ within p q) m1 m' -> forall r, r ∈ roots ->
    (exists p, p ∈ ps /\ original p = r /: name) \/ (absent (r /: name) m1 /\ absent (r /: name) m')).
  { intros m' Hf r Hr. destruct (decide (Exists (fun p => original p = r /: name) ps)) as [Hx | Hx].
    - left. by apply Exists_exists in Hx.
    - right. destruct (Hdirs r Hr) as [Hab | (p & Hp & Ho)]; [| by destruct Hx; apply Exists_exists; eauto].
      split; [done |]. intros s. rewrite Hf; [apply Hab |]. intros (p & Hp & Hw).
      eapply (within_root roots m ps m1 p r); [done | done | done | done | | exact Hw | apply below_app].
      intros Ho. apply Hx, Exists_exists. eauto. }
  assert (Ht := t_detach_plans E m1 ps Hap [] ps ltac:(done)). intros w Hw.
  specialize (Ht w). specialize (Hmod E w). assert (Hkf := keeps_form_detach ps E w). subst m1.
  specialize (Ht (conj (Forall_nil_2 _) (proj2 (Forall_forall (in_place (w_fs w) (w_fs w)) ps) (fun p _ q _ => eq_refl)))).
  unfold detach_planned_instance_dirs in *. specialize (Hgone _ Hmod).
  assert (Hwog : forall m', w_fs (left_by (detach_plans [] ps E w)) = m' -> Forall (in_place_or_away (w_fs w) m') ps ->
    spared_or_gone roots m m' /\ frame (touched roots) m m').
  { intros m' <- Hall. split.
    - left. intros r Hr. destruct (Hgone r Hr) as [(p & Hp & Ho) | [Hab0 Hab]].
      + rewrite Forall_forall in Hall. destruct (Hps p Hp) as (r' & Hr' & Ho' & Hst & Hslot). rewrite Ho in Ho'.
        apply app_inj_tail in Ho' as [<- _]. by eapply planned_whole; [apply Hall | | | | apply Hsame].
      + left. intros q [x ->]%below_spec. rewrite Hab, <- (Hsame r Hr), Hab0 by apply below_app. done.
    - etrans; [exact Hdel |]. by eapply frame_mono, Hmod. }
  destruct (detach_plans [] ps E w) as [l w' | e w' | w']; simpl in *.
  - destruct Ht as [-> Hall]. rewrite Forall_forall in Hall. split_and!.
    + intros p (p' & -> & Hp')%list_elem_of_fmap. destruct (Hps p' Hp') as (r & Hr & _ & _ & Hs). eauto.
    + intros r Hr. destruct (Hgone r Hr) as [(p & Hp & Ho) | [_ Hab]]; [| done]. rewrite <- Ho. by apply Hall.
    + etrans; [exact Hdel |]. by eapply frame_mono, Hmod.
    + by apply Hkf.
    + intros r slot q Hr Hslot Hq Hnot. rewrite Hmod.
      * eapply Hslots; [done | done | done |]. intros p Hp ->. eapply Hnot; [| apply below_refl]. by apply list_elem_of_fmap_2.
      * intros (p & Hp & [Hw | Hw]); [| by eapply Hnot; [by apply list_elem_of_fmap_2 |]].
        destruct (Hps p Hp) as (r' & Hr' & Ho & _). rewrite Ho in Hw. eapply (dirs_apart roots r'); [done | done | done |].
        exists r. split; [done |]. by eapply slot_deleting.
  - destruct Ht as [Hall _]. by apply Hwog.
  - by apply Hwog.
Qed.

(** Removing several trees. *)
Lemma t_remove_all ps m : well_formed m -> (forall p, p ∈ ps -> p <> []) ->
  triple E (eq m) (for_each remove_path_if_exists ps)
    (fun _ m' => (forall p, p ∈ ps -> absent p m') /\ frame (fun q => exists p, p ∈ ps /\ below p q) m m')
    (frame (fun q => exists p, p ∈ ps /\ below p q) m).
Proof.
  revert m. induction ps as [| p ps IH]; intros m Hwf Hne; simpl.
  { apply t_ret. intros ? <-. by split; [intros p ?%elem_of_nil |]. }
  assert (Hp : triple E (eq m) (remove_path_if_exists p)
    (fun _ m1 => absent p m1 /\ frame (below p) m m1 /\ well_formed m1) (frame (below p) m)).
  { intros w Hw. assert (H1 := t_remove_path E p (Hne p ltac:(by left)) w). rewrite <- Hw in H1. specialize (H1 Hwf).
    assert (H2 := modifies_remove_path_if_exists (below p) p (fun _ H => H) E w). rewrite <- Hw in H2.
    assert (H3 := keeps_form_remove_path_if_exists p E w). rewrite <- Hw in H3. specialize (H3 Hwf).
    by destruct (remove_path_if_exists p E w). }
  eapply t_bind; [eapply t_conseq; [exact Hp | done | intros u m1 H1; exact H1 |] |].
  { intros m1 Hf. eapply frame_mono, Hf. intros q Hq. exists p. split; [by left | done]. }
  intros []. apply t_start. intros m1 (Hab & Hf & Hwf1).
  assert (Hmono : forall m2, frame (fun q => exists p, p ∈ ps /\ below p q) m1 m2 ->
    frame (fun q => exists p', p' ∈ p :: ps /\ below p' q) m m2).
  { intros m2 Hf2. etrans; [eapply frame_mono, Hf; intros q Hq; exists p; split; [by left | done] |].
    eapply frame_mono, Hf2. intros q (p' & Hp' & Hq). exists p'. split; [by right | done]. }
  assert (Hnn : respects (no_new (below p)) (for_each remove_path_if_exists ps)).
  { apply respects_for_each; [apply _ |]. intros q _. apply no_new_remove_path_if_exists. }
  assert (IH1 := IH m1 Hwf1 ltac:(intros q Hq; apply Hne; by right)). intros w Hw. specialize (IH1 w Hw). specialize (Hnn E w).
  rewrite <- Hw in Hnn. destruct (for_each remove_path_if_exists ps E w) as [[] w' | e w' | w']; simpl in *; auto.
  destruct IH1 as [H1 H2]. split; [| by apply Hmono]. intros q [-> | Hq]%elem_of_cons; [| by apply H1].
  intros s. apply Hnn; [apply below_app | apply Hab].
Qed.

(** A deletion that returned: the directories are gone, and nothing of them is
    left in the transaction area. *)
Definition deleted (roots : list path) (m m' : fsmap) : Prop :=
  (forall r, r ∈ roots -> absent (r /: name) m') /\
  forall r slot q, r ∈ roots -> delete_slot r name slot -> below slot q -> m' !! q = None \/ m' !! q = m !! q.

Lemma t_finish roots m trash l : separate roots -> (forall p, p ∈ trash -> exists r, r ∈ roots /\ delete_slot r name p) ->
  triple E (detached roots m l) (for_each remove_path_if_exists (trash ++ l))
    (fun _ m' => deleted roots m m' /\ frame (touched roots) m m')
    (fun m' => spared_or_gone roots m m' /\ frame (touched roots) m m').
Proof.
  intros Hsep Htrash. apply t_start. intros m1 (Hl & Hgone & Hf & Hwf & Hslots).
  assert (Hall : forall p, p ∈ trash ++ l -> exists r, r ∈ roots /\ delete_slot r name p).
  { intros p [Hp | Hp]%elem_of_app; auto. }
  assert (Hd : forall q, (exists p, p ∈ trash ++ l /\ below p q) -> deleting_any roots q).
  { intros q (p & Hp & Hq). destruct (Hall p Hp) as (r & Hr & Hs). exists r. split; [done |]. by eapply slot_deleting. }
  assert (Htouch : forall m2, frame (fun q => exists p, p ∈ trash ++ l /\ below p q) m1 m2 -> frame (touched roots) m m2).
  { intros m2 Hf2. etrans; [exact Hf |]. eapply frame_mono, Hf2. intros q (r & Hr & Hq)%Hd. exists r. auto. }
  assert (Habs : forall m2, frame (fun q => exists p, p ∈ trash ++ l /\ below p q) m1 m2 -> forall r, r ∈ roots -> absent (r /: name) m2).
  { intros m2 Hf2 r Hr s. rewrite Hf2; [by apply Hgone |]. intros Hq%Hd. eapply dirs_apart; [done | done | apply below_app | done]. }
  eapply t_conseq; [apply (t_remove_all (trash ++ l) m1 Hwf) | done | |].
  - intros p Hp. destruct (Hall p Hp) as (r & _ & Hs). by eapply slot_not_root.
  - intros [] m2 [Hab Hf2]. split; [| by apply Htouch]. split; [by apply Habs |].
    intros r slot q Hr Hslot Hq. destruct (decide (Exists (fun p => below p q) (trash ++ l))) as [Hx | Hx].
    + apply Exists_exists in Hx as (p & Hp & [s ->]%below_spec). left. by apply Hab.
    + right. assert (Hnot : forall p, p ∈ trash ++ l -> ~ below p q) by (intros p Hp Hb; apply Hx, Exists_exists; eauto).
      rewrite Hf2 by naive_solver. eapply Hslots; [done | done | done |]. intros p Hp. apply Hnot, elem_of_app. by right.
  - intros m2 Hf2. split; [| by apply Htouch]. right. by apply Habs.
Qed.

End deletion.

(** ** Deleting an instance *)

Lemma returns_find_detached root name : returns (find_detached_instance_state root name) (Forall (delete_slot root name)).
Proof.
  unfold find_detached_instance_state. eapply returns_bind; [apply returns_roots |]. intros roots Hroots.
  assert (Hgen : forall l acc, Forall (transaction_root root) l -> Forall (delete_slot root name) acc ->
    returns (fold_m (fun paths t =>
      let delete_root := t /: "delete" /: name in
      entries ← attempt (read_dir delete_root);
      match entries with
      | inr (Io NotFound) => mret paths
      | inr e => fail e
      | inl names =>
          fold_m (fun paths entry =>
            n ← symlink_metadata (delete_root /: entry);
            mret (match n with NDir => paths ++ [delete_root /: entry] | _ => paths end)) paths names
      end) acc l) (Forall (delete_slot root name))); [| by apply Hgen].
  induction l as [| t l IH]; intros acc Hl Hacc; simpl; [by apply returns_ret |]. apply Forall_cons in Hl as [Ht Hl].
  eapply (returns_bind _ _ (Forall (delete_slot root name))); [| intros acc' Hacc'; by apply IH].
  eapply returns_bind; [apply returns_true |]. intros [names | [[] | |]] _; try apply returns_fail; [| by apply returns_ret].
  apply returns_fold_m; [| done]. intros acc' x Hacc'. eapply returns_bind; [apply returns_true |].
  intros [f | | tgt] _; apply returns_ret; [done | | done]. apply Forall_app. split; [done |]. constructor; [| done]. by exists t, x.
Qed.

Lemma respects_find_detached I `{!PreOrder I} root name : respects I (find_detached_instance_state root name).
Proof. unfold find_detached_instance_state. respects_tac. Qed.

Lemma returns_same_entry a b : returns (paths_refer_to_same_existing_entry a b) (fun r => r = bool_decide (a = b)).
Proof.
  assert (Hc : forall p, returns (attempt (canonicalize p)) (fun r => forall q, r = inl q -> q = p)).
  { intros p E w r w'. unfold attempt, canonicalize, mbind, M_bind. destruct (metadata p E w); intros; simplify_eq/=; naive_solver. }
  unfold paths_refer_to_same_existing_entry. case_bool_decide as Hab; [by apply returns_ret |].
  eapply returns_bind; [apply Hc |]. intros [q |] Hq; [| by apply returns_ret]. rewrite (Hq q eq_refl).
  eapply returns_bind; [apply Hc |]. intros [q' |] Hq'; apply returns_ret; [| done]. rewrite (Hq' q' eq_refl). by apply bool_decide_eq_false_2.
Qed.

Lemma respects_same_entry I `{!PreOrder I} a b : respects I (paths_refer_to_same_existing_entry a b).
Proof. unfold paths_refer_to_same_existing_entry, canonicalize. respects_tac. Qed.

#[local] Hint Resolve respects_find_detached respects_same_entry : frames.

(** The directories that hold an instance's directories. *)
Definition instance_roots (base : path) (run_base : option path) : list path :=
  roots_of (base /: "instances")
    (match run_base with
     | Some b => if bool_decide (b = base) then None else Some (b /: "instances")
     | None => None
     end).

Section delete_instance.
Context (E : env) (fuel : nat) (lnx_base run_base home : option path) (base : path) (name : string).
Context (Hname : is_transaction_name name = false) (Hsep : separate (instance_roots base run_base)).

Abbreviation l := (resolve_in_base name base None None lnx_base run_base home).
Abbreviation roots := (instance_roots base run_base).

Definition split_root : option path :=
  match run_base with Some b => if bool_decide (b = base) then None else Some (b /: "instances") | None => None end.

Lemma same_dirs : bool_decide (lo_run_dir l = lo_instance_dir l) = bool_decide (split_root = None).
Proof.
  unfold split_root, resolve_in_base, resolve_for_base. simpl. destruct run_base as [b |]; [| by rewrite !bool_decide_true].
  destruct (decide (b = base)) as [-> | Hne]; [rewrite (bool_decide_true (base = base)) by done; by rewrite !bool_decide_true |].
  rewrite (bool_decide_false (b = base)) by done. rewrite !bool_decide_false; [done | done |].
  intros Heq. apply app_inj_tail in Heq as [Heq _]. by apply app_inj_tail in Heq as [? _].
Qed.

Lemma split_run_root : split_root <> None -> parent (lo_run_dir l) = split_root.
Proof.
  unfold split_root, resolve_in_base, resolve_for_base. simpl. destruct run_base as [b |]; [| done].
  case_bool_decide; [done |]. intros _. apply parent_snoc.
Qed.

(** What the lookups before the deletion answer. *)
Lemma t_split_root (m : fsmap) : triple E (eq m)
  (run_is_persistent ← paths_refer_to_same_existing_entry (lo_run_dir l) (lo_instance_dir l);
   (if run_is_persistent : bool then mret None
    else root ← context (parent (lo_run_dir l)) "split instance run directory has no instances parent"; mret (Some root)))
  (fun o m' => m = m' /\ o = split_root) (eq m).
Proof.
  eapply (t_bind _ _ _ _ (fun b m' => m = m' /\ b = bool_decide (split_root = None))).
  - eapply t_conseq; [eapply t_inspect; [by apply respects_same_entry; apply _ | apply returns_same_entry] | done | | done].
    intros b m' [<- ->]. split; [done | apply same_dirs].
  - intros b. apply t_start. intros ? [<- ->]. case_bool_decide as Hs; [apply t_ret; by intros ? <- |].
    rewrite split_run_root by done. destruct split_root as [r |]; [| done]. simpl.
    eapply (t_bind _ _ _ _ (fun r' m' => m = m' /\ r' = r)); [by apply t_ret; intros ? <- |].
    intros r'. apply t_ret. by intros ? [<- ->].
Qed.

Lemma t_find_detached root (m : fsmap) : triple E (eq m) (find_detached_instance_state root name)
  (fun ps m' => m = m' /\ Forall (delete_slot root name) ps) (eq m).
Proof.
  apply t_inspect; [apply respects_find_detached; apply _ | apply returns_find_detached].
Qed.

(** What earlier deletions left behind is in the slots. *)
Definition leftovers (ps : list path) : Prop := forall p, p ∈ ps -> exists r, r ∈ roots /\ delete_slot r name p.

Lemma t_find_run_trash (m : fsmap) : triple E (eq m)
  (match split_root with Some run_root => find_detached_instance_state run_root name | None => mret [] end)
  (fun ps m' => m = m' /\ leftovers ps) (eq m).
Proof.
  unfold leftovers, instance_roots, roots_of. fold split_root.
  destruct split_root as [r |]; [| apply t_ret; intros ? <-; by split; [| intros p ?%elem_of_nil]].
  eapply t_conseq; [apply t_find_detached | done | | done]. intros ps m' [<- Hps]. split; [done |].
  rewrite Forall_forall in Hps. intros p Hp. exists r. split; [right; by left | by apply Hps].
Qed.

Lemma t_delete_directories locked trash (m : fsmap) : well_formed m -> leftovers trash ->
  triple E (eq m)
    (detached ← with_exclusive_instance_state locked
       (planned ← plan_all fuel l (base /: "instances") split_root name; detach_planned_instance_dirs planned);
     detached ← context detached "instance became busy while deletion was being reserved";
     for_each remove_path_if_exists (trash ++ detached))
    (fun _ m' => deleted name roots m m' /\ frame (touched name roots) m m')
    (fun m' => spared_or_gone name roots m m' /\ frame (touched name roots) m m').
Proof.
  intros Hwf Htrash.
  assert (Hsame : forall m', m = m' -> spared_or_gone name roots m m' /\ frame (touched name roots) m m').
  { intros ? <-. split; [apply spared_refl | done]. }
  unfold with_exclusive_instance_state. destruct locked as [[] | e]; [| | intros w Hw; by apply Hsame].
  2: { eapply (t_bind _ _ _ _ (fun o m' => m = m' /\ o = None)); [apply t_ret; by intros ? <- |].
       intros o. apply t_start. intros ? [<- ->] w Hw. by apply Hsame. }
  eapply (t_bind _ _ _ _ (fun o m' => exists ps, o = Some ps /\ detached name roots m ps m')).
  - eapply (t_bind _ _ _ _ (detached name roots m)); [eapply t_bind |].
    + eapply t_conseq; [by apply t_plan_all | done | intros ps m' H; exact H |].
      intros m' Hf. split; [by apply spared_frame |].
      eapply frame_mono, Hf. intros q (r & Hr & Hd). exists r. auto.
    + intros ps. by apply t_detach.
    + intros ps. apply t_ret. eauto.
  - intros o. apply t_start. intros m1 (ps & -> & Hm1). simpl.
    eapply (t_bind _ _ _ _ (fun ps' m' => m1 = m' /\ ps' = ps)); [apply t_ret; by intros ? <- |].
    intros ps'. apply t_start. intros ? [<- ->]. eapply t_pre; [by apply t_finish | by intros ? <-].
Qed.

(** C5: deleting an instance is all or nothing.  When it fails or is killed,
    either every directory of the instance is still there whole, at its place
    or moved aside into the transaction area, or all of them are gone from
    their places, and what the transaction area holds of them is being
    removed; when the deletion reports success they are gone and nothing of
    them is left in the transaction area; and nothing else is touched, no
    other instance, no fork under way, no other deletion. *)
Theorem delete_all_or_nothing active terminated locked w : well_formed (w_fs w) ->
  match delete_instance fuel lnx_base run_base home base name active terminated locked E w with
  | Ok _ w' => deleted name roots (w_fs w) (w_fs w') /\ frame (touched name roots) (w_fs w) (w_fs w')
  | Err _ w' | Crash w' => spared_or_gone name roots (w_fs w) (w_fs w') /\ frame (touched name roots) (w_fs w) (w_fs w')
  end.
Proof.
  intros Hwf. set (m := w_fs w) in *.
  enough (Ht : triple E (eq m) (delete_instance fuel lnx_base run_base home base name active terminated locked)
    (fun _ m' => deleted name roots m m' /\ frame (touched name roots) m m')
    (fun m' => spared_or_gone name roots m m' /\ frame (touched name roots) m m')) by exact (Ht w eq_refl).
  assert (Hsame : forall m', m = m' -> spared_or_gone name roots m m' /\ frame (touched name roots) m m').
  { intros ? <-. split; [apply spared_refl | done]. }
  unfold delete_instance, delete_resolved_instance. destruct (negb (is_instance_dir_name name)); [by apply t_fail |].
  apply t_bind_assoc. eapply t_bind; [eapply t_conseq; [apply t_split_root | done | intros o m' H; exact H | done] |].
  intros o. apply t_start. intros ? [<- ->].
  eapply t_bind; [eapply t_conseq; [apply t_find_detached | done | intros ps m' H; exact H | done] |].
  intros trash. apply t_start. intros ? [<- H1].
  eapply t_bind; [eapply t_conseq; [apply t_find_run_trash | done | intros ps m' H; exact H | done] |].
  intros run_trash. apply t_start. intros ? [<- H2].
  eapply t_bind; [apply (t_silent _ _ _ (eq m)); [auto with frames | done | done] |]. intros there.
  eapply t_bind; [apply (t_silent _ _ _ (eq m)); [destruct there; respects_tac | done | done] |]. intros run_there.
  destruct (negb run_there && bool_decide (trash ++ run_trash = [])); [by apply t_fail |].
  eapply t_bind; [apply (t_silent _ _ _ (eq m)); [destruct active, terminated; unfold lift; respects_tac | done | done] |]. intros [].
  apply t_delete_directories; [done |].
  rewrite Forall_forall in H1. intros p [Hp | Hp]%elem_of_app; [| by apply H2]. exists (base /: "instances"). split; [by left | by apply H1].
Qed.

End delete_instance.

(** Moving the directories of an instance away undoes itself.  When one
    of the renames fails, either every directory is back where it was, whole,
    or the error says that the rollback failed too; and at any time each of
    them is whole, in its place or in its transaction. *)
Theorem detach_rolls_back E ps w : apart_plans ps ->
  match detach_planned_instance_dirs ps E w with
  | Ok l w' => l = transaction <$> ps /\ Forall (moved_away (w_fs w) (w_fs w')) ps
  | Err (Io _) w' => Forall (in_place (w_fs w) (w_fs w')) ps
  | Err _ w' | Crash w' => Forall (in_place_or_away (w_fs w) (w_fs w')) ps
  end.
Proof.
  intros Hap. assert (Ht := t_detach_plans E (w_fs w) ps Hap [] ps ltac:(done) w
    (conj (Forall_nil_2 _) (proj2 (Forall_forall (in_place (w_fs w) (w_fs w)) ps) (fun p _ q _ => eq_refl)))).
  unfold detach_planned_instance_dirs. destruct (detach_plans [] ps E w) as [l w' | [k | msg | i r] w' | w'].
  - done.
  - apply Ht. by exists k.
  - apply Ht.
  - apply Ht.
  - exact Ht.
Qed.

(** ** Two instances *)

Definition disjoint_b (a b : path) : bool := negb (bool_decide (below a b)) && negb (bool_decide (below b a)).

Lemma disjoint_b_sound a b : disjoint_b a b = true -> disjoint a b.
Proof. unfold disjoint_b. rewrite andb_true_iff, !negb_true_iff, !bool_decide_eq_false. done. Qed.

(** The instances [a] and [b], with the runtime state of [a] elsewhere. *)
Definition two_instances : world := mk_world (list_to_map [
  (["d"], NDir); (["d"; "instances"], NDir);
  (["d"; "instances"; "a"], NDir); (["d"; "instances"; "a"; "lnx.json"], NFile (mk_file [x01] 1));
  (["d"; "instances"; "b"], NDir); (["d"; "instances"; "b"; "lnx.json"], NFile (mk_file [x02] 1));
  (["r"], NDir); (["r"; "instances"], NDir);
  (["r"; "instances"; "a"], NDir); (["r"; "instances"; "a"; "lnx.log"], NFile (mk_file [x03] 1))]) 0 0 [].

Definition delete_a : outcome unit :=
  delete_instance 3 None (Some ["r"]) None ["d"] "a" false (inl tt) (inl true) quiet two_instances.

Lemma separate_demo : separate (instance_roots ["d"] (Some ["r"])).
Proof.
  split; [apply (bool_decide_unpack _); vm_compute; exact I |].
  intros p q [-> | ->%list_elem_of_singleton]%elem_of_cons [-> | ->%list_elem_of_singleton]%elem_of_cons Hne; try done;
    apply disjoint_b_sound; reflexivity.
Qed.

(** C5: both directories of [a] are gone and [b] is as it was. *)
Lemma delete_all_or_nothing_witness :
  match delete_a with
  | Ok _ w' => deleted "a" (instance_roots ["d"] (Some ["r"])) (w_fs two_instances) (w_fs w') /\
      frame (touched "a" (instance_roots ["d"] (Some ["r"]))) (w_fs two_instances) (w_fs w')
  | _ => False
  end.
Proof.
  assert (H := delete_all_or_nothing quiet 3 None (Some ["r"]) None ["d"] "a" eq_refl separate_demo false (inl tt) (inl true)
    two_instances ltac:(apply well_formed_b_sound; vm_compute; reflexivity)).
  assert (Hok : is_ok delete_a = true) by (vm_compute; reflexivity). unfold delete_a in *.
  destruct (delete_instance 3 None (Some ["r"]) None ["d"] "a" false (inl tt) (inl true) quiet two_instances) as [u w' | e w' | w'];
    [exact H | discriminate Hok | discriminate Hok].
Defined.

Definition plan_of (o t : path) : plan := (o, t, t /: "state").

(** The first directory can be moved, the second one is not there. *)
Definition half_planned : list plan := [plan_of ["d"; "instances"; "a"] ["d"; "t"]; plan_of ["r"; "instances"; "x"] ["r"; "t"]].

Definition half_world : world := mk_world (<[["d"; "t"] := NDir]> (<[["r"; "t"] := NDir]> (w_fs two_instances))) 0 0 [].

Lemma half_apart : apart_plans half_planned.
Proof.
  split_and!.
  - apply (bool_decide_unpack _). vm_compute. exact I.
  - intros p [-> | ->%list_elem_of_singleton]%elem_of_cons; (split; [reflexivity | apply disjoint_b_sound; reflexivity]).
  - intros p q [-> | ->%list_elem_of_singleton]%elem_of_cons [-> | ->%list_elem_of_singleton]%elem_of_cons Hne; try done;
      split_and!; apply disjoint_b_sound; reflexivity.
Qed.

Definition io_failure {A} (o : outcome A) : bool := match o with Err (Io _) _ => true | _ => false end.

(** The second rename fails, and the first is undone. *)
Lemma detach_rolls_back_witness :
  match detach_planned_instance_dirs half_planned quiet half_world with
  | Err (Io _) w' => Forall (in_place (w_fs half_world) (w_fs w')) half_planned
  | _ => False
  end.
Proof.
  assert (H := detach_rolls_back quiet half_planned half_world half_apart).
  assert (Hio : io_failure (detach_planned_instance_dirs half_planned quiet half_world) = true) by (vm_compute; reflexivity).
  destruct (detach_planned_instance_dirs half_planned quiet half_world) as [u w' | [k | msg | i r] w' | w'];
    [discriminate Hio | exact H | discriminate Hio | discriminate Hio | discriminate Hio].
Defined.
