(* ===== verification/ForkTheorems.v ===== *)
(** * Forking an instance

    A fork assembles the new instance in the transaction area and publishes it
    by one rename: the new instance is there whole, as good a store as the one
    it was made from and with a descriptor of its own, or not at all. *)

From S2P Require Import Prelude Codec FileSystem FsLogic FsUtil FsCopy FsTotal Text.
From S2P Require Import Store StoreLogic StoreSafety StorePublish StoreCopy StoreGc StoreExample Session.
From S2P Require Import Paths Legacy HostShare Checkpoints Snapshots SnapshotTheorems CheckpointTheorems Instances InstanceLogic DeleteTheorems Capture SessionRun SessionExample.

(** ** The staging directory *)

(** What a fork into [root] may touch there, the new instance apart. *)
Definition forking (root q : path) : Prop :=
  below q root \/ exists t, transaction_root root t /\
    (q = t /: INSTANCE_TRANSACTION_MARKER \/ below q (t /: "fork") \/ below (t /: "fork") q).

Definition fork_slot (root p : path) : Prop := exists t x, transaction_root root t /\ p = t /: "fork" /: x.

Lemma forking_area root q : forking root q -> area root q.
Proof.
  intros [Hq | (t & Ht & Hq)]; [by right |]. destruct Hq as [-> | [Hq | Hq]].
  - left. eapply in_area_below; [done | apply below_snoc].
  - by apply (area_above root t ["fork"]).
  - left. eapply in_area_below; [done |]. by eapply below_child.
Qed.

Lemma fork_slot_forking root p q : fork_slot root p -> below q p \/ below p q -> forking root q.
Proof.
  intros (t & x & Ht & ->) Hq. right. exists t. split; [done |]. right.
  destruct Hq as [Hq | Hq]; [| right; by eapply below_child]. apply below_snoc_inv in Hq as [-> | Hq]; [right; apply below_snoc | by left].
Qed.

Lemma root_made_forking root q : root_made root q -> forking root q.
Proof.
  intros [Hq | (t & Ht & [-> | ->])]; [by left | right | right]; exists t; (split; [done |]); [right; left; apply below_snoc | by left].
Qed.

Lemma modifies_open_create (F : path -> Prop) p : F p -> modifies F (open_create p).
Proof. intros HF. apply modifies_change. intros E w o q Ho. repeat case_match; simplify_eq. by intros ->. Qed.

Lemma keeps_form_open_create p : respects keeps_form (open_create p).
Proof.
  apply respects_change; [apply _ |]. intros E w o Ho Hwf. repeat case_match; simplify_eq.
  apply well_formed_insert; [done | by apply parent_is_dir_ok | right; congruence].
Qed.

#[local] Hint Resolve modifies_open_create keeps_form_open_create : frames.

Lemma respects_scoped {A : Type} I `{!PreOrder I} d (c : M A) :
  respects I c -> respects I (remove_dir_all d) -> respects I (scoped d c).
Proof.
  intros Hc Hd. unfold scoped. apply respects_bind; [apply _ | by apply respects_attempt |].
  intros [a | e]; [respects_tac |]. apply respects_bind; [apply _ | by apply respects_attempt | respects_tac].
Qed.

Lemma modifies_cleanup root : modifies (forking root) (cleanup_stale_fork_transactions root).
Proof.
  unfold cleanup_stale_fork_transactions. eapply respects_bind_returns; [apply _ | respects_tac | apply returns_roots |].
  intros roots Hroots. apply respects_for_each; [apply _ |]. intros t Ht. rewrite Forall_forall in Hroots. specialize (Hroots t Ht).
  assert (Hin : forall q, below (t /: "fork") q -> forking root q) by (intros q Hq; right; eauto).
  unfold cleanup_fork_root, lock_fork_transaction_root, flock_exclusive, fork_is_stale. respects_tac.
  apply modifies_remove_dir_all. intros q Hq. apply Hin. by eapply below_child.
Qed.

Lemma keeps_form_cleanup root : respects keeps_form (cleanup_stale_fork_transactions root).
Proof.
  unfold cleanup_stale_fork_transactions, cleanup_fork_root, lock_fork_transaction_root, flock_exclusive, fork_is_stale. respects_tac.
Qed.

(** Two facts about one program, each also about what it leaves when it does
    not return. *)
Lemma t_both {A : Type} E P (c : M A) (Q Q' : A -> fsmap -> Prop) X X' :
  triple E P c Q X -> triple E P c Q' X' -> triple E P c (fun a m => Q a m /\ Q' a m) (fun m => X m /\ X' m).
Proof. intros H H' w Hw. specialize (H w Hw). specialize (H' w Hw). by destruct (c E w). Qed.

(** A step whose changes are known only by where they are. *)
Lemma t_step {A : Type} E (c : M A) F m : well_formed m -> modifies F c -> respects keeps_form c ->
  triple E (eq m) c (fun _ m' => frame F m m' /\ well_formed m') (fun m' => frame F m m').
Proof.
  intros Hwf Hc Hk. eapply t_conseq; [eapply t_keep_form; [| exact Hk | by apply t_modifies] | done | done | done]. by intros ? <-.
Qed.

(** What fails in a scope leaves what the failure left, less the directory. *)
Lemma t_scoped {A : Type} E P (c : M A) Q (X : fsmap -> Prop) d :
  triple E P c Q X -> (forall m m', X m -> frame (below d) m m' -> X m') -> triple E P (scoped d c) Q X.
Proof.
  intros Hc HX. unfold scoped. eapply t_bind; [apply t_attempt, Hc |]. intros [a | e]; [by apply t_ret |].
  apply t_start. intros m Hm.
  eapply t_bind; [eapply t_conseq; [apply (t_modifies E (below d)), respects_attempt, modifies_remove_dir_all; done | done | intros r m' H; exact H |] |].
  - intros m' Hf. by eapply HX.
  - intros r. apply t_fail. intros m' Hf. by eapply HX.
Qed.

Section staging.
Context {TF : TempFiles} {TL : TempLaws} (E : env) (fuel : nat) (root : path).

(** A new staging directory with nothing but its lease. *)
Definition staged (m0 : fsmap) (st : path) (m : fsmap) : Prop :=
  fork_slot root st /\ frame (forking root) m0 m /\ well_formed m /\ m !! st = Some NDir /\
  forall x s, x <> FORK_LEASE -> m !! (st /: x ++ s) = None.

Lemma t_create_new m p : triple E (eq m) (create_new p) (fun _ m' => m' = <[p := NFile (mk_file [] 0)]> m) (eq m).
Proof. apply t_change; [done | |]; intros w; [intros o <- Ho | intros <- Ho]; repeat case_match; by simplify_eq. Qed.

Lemma t_new_tempdir (m : fsmap) t : well_formed m -> transaction_root root t ->
  triple E (eq m) (dir ← tempdir_in "fork-" (t /: "fork");
                   _ ← scoped dir (_ ← create_new (dir /: FORK_LEASE); flock_exclusive (dir /: FORK_LEASE)); mret dir)
    (staged m) (frame (forking root) m).
Proof.
  intros Hwf Ht. eapply t_bind; [eapply t_conseq; [apply tempdir_in_new | done | intros p m' H; exact H | by intros ? <-] |].
  intros p. apply t_start. intros m1 (s & -> & Hnone & Hpar & ->). set (p := t /: "fork" /: ("fork-" +:+ s)) in *.
  assert (Hslot : fork_slot root p) by (by eexists t, _).
  assert (Hwf1 : well_formed (<[p := NDir]> m)) by (apply well_formed_insert; [done | by apply parent_is_dir_ok | by left]).
  assert (Hf1 : frame (forking root) m (<[p := NDir]> m)).
  { intros q Hq. apply lookup_insert_ne. intros <-. apply Hq. eapply fork_slot_forking; [done | left; apply below_refl]. }
  assert (Hin : forall q, below p q -> forking root q) by (intros q Hq; eapply fork_slot_forking; [done | by right]).
  assert (Habs : forall x s, m !! (p /: x ++ s) = None).
  { intros x s'. rewrite <- app_assoc. apply nothing_below; [done | | congruence | done]. unfold p. by destruct (t /: "fork"). }
  assert (Hfr : forall m2, frame (below p) (<[p := NDir]> m) m2 -> frame (forking root) m m2).
  { intros m2 Hf. etrans; [exact Hf1 |]. by eapply frame_mono, Hf. }
  eapply (t_bind _ _ _ _ (fun _ m' => m' = <[p /: FORK_LEASE := NFile (mk_file [] 0)]> (<[p := NDir]> m) /\ well_formed m')).
  - apply t_scoped.
    + eapply t_bind; [eapply t_conseq; [eapply t_keep_form; [| apply keeps_form_create_new | apply t_create_new] | done | intros u m' H; exact H |] |].
      * by intros ? <-.
      * intros m' <-. exact Hf1.
      * intros []. apply t_start. intros m2 Hm2. unfold flock_exclusive. apply t_look; [| by intros ? [] <- _].
        intros ? <-. destruct Hm2 as [-> _]. apply Hfr. intros q Hq. apply lookup_insert_ne. intros <-. apply Hq, below_snoc.
    + intros m2 m3 Hm2 Hf. etrans; [exact Hm2 | by eapply frame_mono, Hf].
  - intros []. apply t_ret. intros m' [-> Hwf']. split_and!; [done | | done | |].
    + apply Hfr. intros q Hq. apply lookup_insert_ne. intros <-. apply Hq, below_snoc.
    + rewrite lookup_insert_ne; [apply lookup_insert_eq |]. intros Heq. apply (f_equal length) in Heq. rewrite length_app in Heq. simpl in Heq. lia.
    + intros x s' Hx. rewrite lookup_insert_ne; [rewrite lookup_insert_ne; [apply Habs |] |].
      * intros Heq. apply (f_equal length) in Heq. rewrite !length_app in Heq. simpl in Heq. lia.
      * intros Heq. rewrite <- app_assoc in Heq. apply app_inv_head in Heq. simplify_eq/=.
Qed.

Lemma t_staged_create (m : fsmap) : well_formed m -> triple E (eq m) (staged_create fuel root) (staged m) (frame (forking root) m).
Proof.
  intros Hwf. unfold staged_create.
  eapply t_bind; [eapply t_conseq; [apply t_step; [done | apply modifies_cleanup | apply keeps_form_cleanup] | done | intros u m' H; exact H | done] |].
  intros []. apply t_start. intros m1 [H1 Hwf1].
  eapply t_bind; [eapply t_conseq; [eapply t_returns; [apply t_step; [done | apply modifies_ensure_root | apply keeps_form_ensure_root] | apply returns_ensure_root] | done | intros t m' H; exact H |] |].
  { intros m2 H2. etrans; [exact H1 |]. eapply frame_mono, H2. apply root_made_forking. }
  intros t. apply t_start. intros m2 [[H2 Hwf2] Ht].
  assert (H12 : frame (forking root) m m2) by (etrans; [exact H1 |]; eapply frame_mono, H2; apply root_made_forking).
  assert (Hup : forall q, below q (t /: "fork") -> forking root q) by (intros q Hq; right; eauto).
  eapply t_bind; [eapply t_conseq; [apply (t_step _ _ (forking root)); [done | by apply modifies_create_dir_all | apply keeps_form_create_dir_all] | done | intros u m' H; exact H | by intros m3 H3; etrans] |].
  intros []. apply t_start. intros m3 [H3 Hwf3].
  eapply t_bind; [eapply t_conseq; [apply (t_step _ _ (forking root)); [done | | unfold lock_fork_transaction_root, flock_exclusive; respects_tac] | done | intros u m' H; exact H | intros m4 H4; etrans; [exact H12 |]; by etrans] |].
  { unfold lock_fork_transaction_root, flock_exclusive. respects_tac. apply modifies_open_create. right. exists t. split; [done |]. do 2 right. apply below_snoc. }
  intros []. apply t_start. intros m4 [H4 Hwf4].
  assert (H14 : frame (forking root) m m4) by (etrans; [exact H12 |]; etrans; [exact H3 | exact H4]).
  eapply t_conseq; [by apply (t_new_tempdir m4 t) | done | |].
  - intros st m5 (Ha & Hb & Hc & Hd & He). split_and!; [done | by etrans | done | done | done].
  - intros m5 H5. by etrans.
Qed.

End staging.

(** ** A store that is moved *)

Section relocation.
Context {JR : Json record} {JM : Json manifest} {JC : Json checkpoint_ref}.
Context (a b : path) (m m' : fsmap) (Hre : relocated a b m m').

Lemma relocated_at p : m' !! (b /: p) = m !! (a /: p).
Proof. apply Hre. Qed.

Lemma record_relocated : record_at b m' = record_at a m.
Proof. unfold record_at, json_at, contents_at, state_path. by rewrite relocated_at. Qed.

Lemma generation_relocated id s : m' !! (generation_dir b id ++ s) = m !! (generation_dir a id ++ s).
Proof. unfold generation_dir, generations_dir. rewrite <- !app_assoc. apply Hre. Qed.

Lemma complete_relocated id mf : complete_as a m id mf -> complete_as b m' id mf.
Proof.
  intros (Hmf & Hid & Hroot & Hf). split_and!; [| done | done |].
  - unfold manifest_at, json_at, contents_at in *. by rewrite generation_relocated.
  - intros name size Hn. destruct (Hf name size Hn) as (f & Hm & Hl). exists f. by rewrite generation_relocated.
Qed.

Lemma good_relocated rec : well_formed m' -> good a m rec -> good b m' rec.
Proof.
  intros Hwf (_ & Hr & Hv & Hc). split_and!; [done | by rewrite record_relocated | done |].
  intros id Hid. destruct (Hc id Hid) as [mf Hmf]. exists mf. by apply complete_relocated.
Qed.

End relocation.

(** What a store is made of has not changed. *)
Definition store_same (d : path) (m m' : fsmap) : Prop :=
  m' !! state_path d = m !! state_path d /\ same_tree (generations_dir d) m m'.

Section store_same.
Context {JR : Json record} {JM : Json manifest} {JC : Json checkpoint_ref}.

Lemma store_same_trans d m1 m2 m3 : store_same d m1 m2 -> store_same d m2 m3 -> store_same d m1 m3.
Proof. intros [H1 H2] [H3 H4]. split; [congruence |]. intros p Hp. by rewrite H4, H2. Qed.

Lemma store_same_generation d m m' id : store_same d m m' -> same_tree (generation_dir d id) m m'.
Proof. intros [_ Hs] p Hp. apply Hs. by eapply below_child. Qed.

Lemma good_same d m m' rec : well_formed m' -> store_same d m m' -> good d m rec -> good d m' rec.
Proof.
  intros Hwf Hs (_ & Hr & Hv & Hc). split_and!; [done | | done |].
  - unfold record_at, json_at, contents_at in *. destruct Hs as [-> _]. done.
  - intros id Hid. eapply same_tree_complete; [by apply store_same_generation | auto].
Qed.

(** A change of other entries of the store's directory, or above it. *)
Definition beside_store (d q : path) : Prop :=
  below q d \/ exists x, below (d /: x) q /\ x <> STATE_FILE /\ x <> GENERATIONS_DIR.

Lemma beside_same d m m' : frame (beside_store d) m m' -> store_same d m m'.
Proof.
  intros Hf. assert (Hx : forall x q, x = STATE_FILE \/ x = GENERATIONS_DIR -> below (d /: x) q -> m' !! q = m !! q).
  { intros x q Hx Hq. apply Hf. intros [Hb | (y & Hy & Hne)].
    - by eapply not_below_child, below_trans, Hb.
    - assert (x = y) as -> by (by eapply below_sibling). naive_solver. }
  split; [apply (Hx STATE_FILE); [by left | apply below_refl] |]. intros q Hq. by apply (Hx GENERATIONS_DIR); [right |].
Qed.

End store_same.

(** ** Descriptors *)

Section descriptors.
Context {JD : Json instance_descriptor} {JDL : JsonLaws instance_descriptor valid_descriptor}.
Context {TF : TempFiles} {TL : TempLaws} (rfc3339 : N -> option string) (E : env).

(** What saving the descriptor of the directory [d] may touch. *)
Definition saving (d q : path) : Prop :=
  below q d \/ below (d /: DESCRIPTOR_FILE) q \/ exists s, below (d /: (".lnx-descriptor-" +:+ s)) q.

Lemma saving_beside d q : saving d q -> beside_store d q.
Proof. intros [Hq | Hq]; [by left | right]. destruct Hq as [Hq | [s Hq]]; eexists; (split; [exact Hq | done]). Qed.

Definition descriptor_at (m : fsmap) (d : path) : option instance_descriptor := json_at m (d /: DESCRIPTOR_FILE).

(** The descriptor is the old one or the new one. *)
Definition old_or_saved (d : path) (desc : instance_descriptor) (m0 m : fsmap) : Prop :=
  m !! (d /: DESCRIPTOR_FILE) = m0 !! (d /: DESCRIPTOR_FILE) \/ descriptor_at m d = Some desc.

Lemma temp_beside d s q : below (d /: (".lnx-descriptor-" +:+ s)) q -> ~ below (d /: DESCRIPTOR_FILE) q.
Proof. intros H1 H2. assert (Heq := below_sibling d _ _ q H1 H2). discriminate Heq. Qed.

Lemma t_save_steps d desc s m : valid_descriptor desc -> let temp := d /: (".lnx-descriptor-" +:+ s) in
  triple E (eq m) (_ ← write_all temp (to_vec_pretty desc ++ [newline]); _ ← sync temp; rename temp (d /: DESCRIPTOR_FILE))
    (fun _ m' => descriptor_at m' d = Some desc /\ frame (saving d) m m')
    (fun m' => m' !! (d /: DESCRIPTOR_FILE) = m !! (d /: DESCRIPTOR_FILE) /\ frame (saving d) m m').
Proof.
  intros Hv temp. set (p := d /: DESCRIPTOR_FILE). set (contents := to_vec_pretty desc ++ [newline]).
  assert (Hin : forall q, below temp q -> saving d q) by (intros q Hq; right; right; eauto).
  assert (Hne : temp <> p) by (intros Heq; apply (temp_beside d s p); fold temp; [rewrite Heq |]; apply below_refl).
  assert (Hput : forall f, (<[temp := NFile f]> m) !! p = m !! p /\ frame (saving d) m (<[temp := NFile f]> m)).
  { intros f. split; [by apply lookup_insert_ne |]. intros q Hq. apply lookup_insert_ne. intros <-. apply Hq, Hin, below_refl. }
  eapply (t_bind _ _ _ _ (fun _ m1 => exists b, m1 = <[temp := NFile (mk_file contents b)]> m)).
  { apply t_write_all; [intros ? b <-; eauto | intros ? dt b <-; apply Hput | by intros ? <-]. }
  intros []. apply t_start. intros m1 [b ->].
  eapply t_bind; [apply (t_silent _ _ _ (eq (<[temp := NFile (mk_file contents b)]> m))); [auto with frames | done | intros ? <-; apply Hput] |].
  intros []. eapply t_conseq; [apply t_rename; exact Hne | done | | intros ? <-; apply Hput].
  intros [] m2 (_ & Hnb & _ & ->). split.
  - assert (Hp := move_relocated temp p (<[temp := NFile (mk_file contents b)]> m) Hnb []). rewrite !app_nil_r, lookup_insert_eq in Hp.
    unfold descriptor_at, json_at, contents_at. fold p. rewrite Hp. simpl. by apply json_roundtrip.
  - etrans; [apply Hput |]. eapply frame_mono, move_frame. intros q [Hq | Hq]; [by apply Hin | right; by left].
Qed.

Lemma t_save d desc m : valid_descriptor desc -> well_formed m ->
  triple E (eq m) (save_in_instance_dir d desc)
    (fun _ m' => descriptor_at m' d = Some desc /\ frame (saving d) m m')
    (fun m' => old_or_saved d desc m m' /\ frame (saving d) m m').
Proof.
  intros Hv Hwf. unfold save_in_instance_dir, save_to_path. rewrite parent_snoc. simpl.
  assert (Hkeep : forall m', (m' !! (d /: DESCRIPTOR_FILE) = m !! (d /: DESCRIPTOR_FILE) /\ frame (saving d) m m') ->
    old_or_saved d desc m m' /\ frame (saving d) m m') by (intros m' [H1 H2]; split; [by left | done]).
  eapply (t_bind _ _ _ _ (fun d' m' => m = m' /\ d' = d)); [apply t_ret; by intros ? <- |].
  intros d'. apply t_start. intros ? [<- ->].
  assert (Hup : forall m', frame (fun q => below q d) m m' ->
    m' !! (d /: DESCRIPTOR_FILE) = m !! (d /: DESCRIPTOR_FILE) /\ frame (saving d) m m').
  { intros m' Hf. split; [apply Hf, not_below_child | eapply frame_mono, Hf; intros q Hq; by left]. }
  eapply t_bind; [eapply t_conseq; [apply (t_modifies E (fun q => below q d)), modifies_create_dir_all; done | done | intros u m' H; exact H | auto] |].
  intros []. apply t_start. intros m1 [H1 H1']%Hup.
  assert (Hkeep1 : forall m', (m' !! (d /: DESCRIPTOR_FILE) = m1 !! (d /: DESCRIPTOR_FILE) /\ frame (saving d) m1 m') ->
    old_or_saved d desc m m' /\ frame (saving d) m m').
  { intros m' [H2 H3]. apply Hkeep. split; [congruence | by etrans]. }
  eapply t_bind; [eapply t_conseq; [apply tempfile_in_new | done | intros t m' H; exact H | intros ? <-; by apply Hkeep1] |].
  intros temp. apply t_start. intros m2 (s & -> & Hnone & _ & ->). set (temp := d /: (".lnx-descriptor-" +:+ s)) in *.
  assert (Hne : temp <> d /: DESCRIPTOR_FILE) by (intros Heq; apply (temp_beside d s (d /: DESCRIPTOR_FILE)); fold temp; [rewrite Heq |]; apply below_refl).
  assert (Hfr2 : frame (saving d) m1 (<[temp := NFile (mk_file [] 0)]> m1)).
  { intros q Hq. apply lookup_insert_ne. intros <-. apply Hq. right; right. exists s. apply below_refl. }
  assert (Hkeep2 : forall m', (m' !! (d /: DESCRIPTOR_FILE) = (<[temp := NFile (mk_file [] 0)]> m1) !! (d /: DESCRIPTOR_FILE) /\
    frame (saving d) (<[temp := NFile (mk_file [] 0)]> m1) m') -> old_or_saved d desc m m' /\ frame (saving d) m m').
  { intros m' [H2 H3]. rewrite lookup_insert_ne in H2 by done. apply Hkeep1. split; [done | by etrans]. }
  eapply t_bind; [eapply t_conseq; [by apply t_attempt, (t_save_steps d desc s) | done | intros r m' H; exact H | auto] |].
  intros [[] | e].
  - assert (Hend : forall m', descriptor_at m' d = Some desc /\ frame (saving d) (<[temp := NFile (mk_file [] 0)]> m1) m' ->
      descriptor_at m' d = Some desc /\ frame (saving d) m m').
    { intros m' [H2 H3]. split; [done |]. etrans; [exact H1' |]. by etrans. }
    apply t_start. intros m3 H3%Hend. assert (H3' : old_or_saved d desc m m3 /\ frame (saving d) m m3) by (split; [right; apply H3 | apply H3]).
    eapply t_bind; [apply (t_silent _ _ _ (eq m3)); [auto with frames | done | by intros ? <-] |]. intros n.
    apply t_silent; [auto with frames | by intros ? <- | by intros ? <-].
  - apply t_start. intros m3 H3.
    assert (Hrm : forall m4, frame (fun q => q = temp) m3 m4 -> old_or_saved d desc m m4 /\ frame (saving d) m m4).
    { intros m4 Hf. apply Hkeep2. destruct H3 as [H3 H3']. split; [rewrite Hf; [done |]; intros Heq; by apply Hne |].
      etrans; [exact H3' |]. eapply frame_mono, Hf. intros q ->. right; right. exists s. apply below_refl. }
    eapply t_bind; [eapply t_conseq; [apply (t_modifies E (fun q => q = temp)), respects_attempt, modifies_remove_file; done | done | intros r m' H; exact H | exact Hrm] |].
    intros r. apply t_fail. exact Hrm.
Qed.

End descriptors.

(** ** The descriptor of a fork *)

Section described.
Context {JD : Json instance_descriptor} {JDL : JsonLaws instance_descriptor valid_descriptor}.
Context {TF : TempFiles} (rfc3339 : N -> option string).

(** The settings of an instance: what its descriptor says, or nothing. *)
Definition settings (m : fsmap) (d : path) (desc : instance_descriptor) : Prop :=
  descriptor_at m d = Some desc \/ m !! (d /: DESCRIPTOR_FILE) = None /\ desc = default_descriptor.

(** A fork has its own name, the image of its source, and the shape of its
    saved memory, or else of its source. *)
Definition described (m : fsmap) (src : path) (name : string) (generation : path) (d : instance_descriptor) : Prop :=
  exists d0, settings m src d0 /\ d_name d = Some name /\ d_image d = d_image d0 /\
    ((d_cpus d = d_cpus d0 /\ d_memory_mib d = d_memory_mib d0) \/
     exists c, vm_config_in m generation = inl (Some c) /\ d_cpus d = Some (sv_vcpu_count c) /\ d_memory_mib d = Some (memory_mib c)).

Lemma to_of_bytes b : to_bytes (of_bytes b) = b.
Proof. apply String.list_byte_of_string_of_list_byte. Qed.

Lemma reads_load l : reads (load_descriptor l) (fun m d => settings m (lo_instance_dir l) d /\ valid_descriptor d).
Proof.
  unfold load_descriptor.
  assert (Hr : reads (attempt (read_to_string (descriptor_path l))) (fun m r =>
    match r with
    | inl s => contents_at m (descriptor_path l) = Some (to_bytes s)
    | inr (Io NotFound) => m !! descriptor_path l = None
    | inr _ => True
    end)).
  { intros E w. unfold attempt, read_to_string, fs_read, look, mbind, M_bind.
    destruct (e_fault E (w_tick w)) as [[] |]; simpl; [split; [done |]; intros r w' Hr; by simplify_eq | by split |].
    unfold contents_at, read_in, stat_in. destruct (w_fs w !! descriptor_path l) as [[f | | t] |] eqn:Hm; simpl.
    2, 3: (split; [done |]; intros r w' Hr; by simplify_eq).
    - destruct (utf8_valid (of_bytes (f_data f))); simpl; (split; [done |]); intros r w' Hr; simplify_eq; [by rewrite to_of_bytes | done].
    - split; [done |]. intros r w' Hr. simplify_eq. by destruct (missing_kind _ _). }
  eapply reads_bind; [exact Hr |]. intros [s | [[] | |]]; try apply reads_fail.
  - destruct (from_slice (to_bytes s)) as [d |] eqn:Hd; [| apply reads_fail]. apply reads_ret. intros m Hc.
    split; [left; unfold descriptor_at, json_at; fold (descriptor_path l); rewrite Hc; exact Hd | by eapply json_valid].
  - apply reads_ret. intros m Hn. split; [by right |]. by split.
Qed.

Lemma reads_vm_config p : reads (get_snapshot_vm_config p) (fun m o => forall c, o = Some c -> vm_config_in m p = inl (Some c)).
Proof.
  unfold get_snapshot_vm_config.
  assert (Hx : reads (path_exists (p /: "vmstate.bin")) (fun _ _ => True)).
  { unfold path_exists. eapply reads_bind; [apply reads_attempt, reads_look |]. intros r. by apply reads_ret. }
  eapply reads_bind; [exact Hx |]. intros []; [| by apply reads_ret]. cbn [negb].
  eapply reads_bind; [eapply (reads_bind _ _ (fun _ _ => True)); [eapply reads_mono, reads_look; done | intros nd; eapply reads_mono, reads_look; intros m b Hb _; exact Hb] |].
  intros header. destruct (parse_vm_config header) as [c |] eqn:Hc; [| intros E w; by split].
  apply reads_bind with (R := fun _ x => x = c); [by apply reads_ret |]. intros c'. apply reads_ret.
  intros m -> Hh _ c'' [= <-]. unfold vm_config_in, read_in in *.
  destruct (stat_in m (p /: "vmstate.bin")) as [[f | | t] |]; [| discriminate Hh ..].
  destruct (0 + 40 <=? length (f_data f)) eqn:Hl; [| discriminate Hh]. injection Hh as <-.
  change (40 <=? length (f_data f)) with (0 + 40 <=? length (f_data f)). rewrite Hl. rewrite drop_0 in Hc. by rewrite Hc.
Qed.

Lemma reads_destination source dest generation :
  reads (destination_descriptor rfc3339 source dest generation)
    (fun m d => valid_descriptor d /\ described m (lo_instance_dir source) (lo_instance dest) generation d).
Proof.
  unfold destination_descriptor. eapply reads_bind; [apply reads_load |]. intros d0.
  eapply reads_bind; [apply reads_true_clock |]. intros now. eapply reads_bind; [apply reads_vm_config |].
  intros [c |].
  - destruct (N.ltb_spec (sv_vcpu_count c) 256) as [Hcpu | _]; [| apply reads_fail].
    apply reads_bind with (R := fun _ x => x = sv_vcpu_count c); [by apply reads_ret |]. intros cpus.
    destruct (N.ltb_spec (memory_mib c) (2 ^ 32)) as [Hmem | _]; [| intros E w; by split].
    apply reads_bind with (R := fun _ x => x = memory_mib c); [by apply reads_ret |]. intros mib. apply reads_ret.
    intros m -> -> Hc _ [Hs Hv]. split; [split; simpl; intros ? [= <-]; done |]. exists d0. split_and!; [done | done | done |].
    right. exists c. split_and!; [by apply Hc | done | done].
  - apply reads_ret. intros m _ _ [Hs Hv]. split; [by destruct Hv |]. exists d0. split_and!; [done | done | done |]. by left.
Qed.

End described.

(** ** The state of a fork *)

Section state.
Context {JR : Json record} {JM : Json manifest} {JC : Json checkpoint_ref}.
Context {JRL : JsonLaws record valid_record} {JML : JsonLaws manifest valid_manifest}.
Context (E : env) (src : path).

Definition exported_names (mf : manifest) : list string := sorted_keys (m_files mf) ++ [MANIFEST; PIN].

(** The generation [id] of [src] in [m0], as a generation of [d]. *)
Definition copied_state (d : path) (id : generation_id) (m0 m : fsmap) : Prop :=
  exists mf, complete_as src m0 id mf /\ complete_as d m id mf /\
    (forall name, name ∈ exported_names mf -> exists f b,
       m0 !! (generation_dir src id /: name) = Some (NFile f) /\
       m !! (generation_dir d id /: name) = Some (NFile (mk_file (f_data f) b))) /\
    (calm E -> m0 !! (generation_dir src id /: HOST_SHARE_STATE) = Some NDir ->
       copied (generation_dir src id /: HOST_SHARE_STATE) (generation_dir d id /: HOST_SHARE_STATE) m0 m).

Lemma modifies_export g st : modifies (around st) (export g st).
Proof.
  assert (Hg : forall q, below q (generation_dir st (g_id g)) \/ below (generation_dir st (g_id g)) q -> around st q).
  { intros q [Hq | Hq].
    - unfold generation_dir, generations_dir in Hq. rewrite <- app_assoc in Hq. apply below_app_inv in Hq as [Hq | Hq]; [by left | by right].
    - right. by do 2 eapply below_child. }
  unfold export. respects_tac.
  - apply modifies_clone_listed. intros q Hq. apply Hg. destruct Hq; [by right | by left].
  - apply modifies_clone_shares. intros q Hq. apply Hg. destruct Hq; [by right | by left].
  - unfold commit_json. apply modifies_commit_file. intros q Hq%commit_footprint_in. by right.
Qed.

Lemma keeps_form_export g st : respects keeps_form (export g st).
Proof. unfold export. respects_tac; [apply keeps_form_clone_listed | apply keeps_form_clone_shares]. Qed.

(** A directory is not listed: a manifest lists files. *)
Lemma names_no_dir m id mf name : complete_as src m id mf -> m !! (generation_dir src id /: name) = Some NDir ->
  name <> MANIFEST -> name <> PIN -> name ∉ exported_names mf.
Proof.
  intros (_ & _ & _ & Hf) Hd Hm Hp. unfold exported_names. rewrite elem_of_app, elem_of_sorted_keys.
  intros [[size Hs] | Hin].
  - destruct (Hf name size Hs) as (f & Hf' & _). congruence.
  - apply elem_of_cons in Hin as [? | Hin]; [done |]. by apply list_elem_of_singleton in Hin.
Qed.

(** Exporting a pinned generation into a staging directory. *)
Lemma t_pin_export m0 m1 id st : well_formed m1 -> same_tree src m0 m1 -> disjoint src st ->
  (forall x s, x <> FORK_LEASE -> m1 !! (st /: x ++ s) = None) ->
  triple E (eq m1) (g ← pin src id; export g st)
    (fun _ m => good st m (mk_record RECORD_VERSION (Some id) Stopped) /\ copied_state st id m0 m /\
       frame (around st) m1 m /\ well_formed m)
    (frame (around st) m1).
Proof.
  intros Hwf Hsame Hd Hempty.
  assert (Hgs : forall i q, below (generation_dir src i) q -> m1 !! q = m0 !! q).
  { intros i q Hq. apply Hsame. by do 2 eapply below_child. }
  eapply (t_bind _ _ _ _ (fun g m => m1 = m /\ complete_as src m1 id (g_manifest g) /\ g_dir g = generation_dir src id)).
  { unfold pin. eapply t_bind; [apply (t_silent _ _ _ (eq m1)); [auto with frames | done | by intros ? <-] |]. intros n.
    eapply t_bind; [apply (t_silent _ _ _ (eq m1)); [unfold flock_shared; respects_tac | done | by intros ? <-] |]. intros [].
    eapply t_reads; [apply reads_get_generation | by intros ? <- |]. by intros ? g <- []. }
  intros g. apply t_start. intros ? (<- & Hc & Hgd).
  assert (Hid : g_id g = id) by (destruct Hc as (_ & Hid & _); exact Hid).
  assert (Hc0 : complete_as src m0 id (g_manifest g)).
  { eapply complete_as_same; [| exact Hc]. intros q Hq. symmetry. by eapply Hgs. }
  assert (Hdis : disjoint (generation_dir src id) (generation_dir st id)).
  { eapply disjoint_deep; [exact Hd | |]; unfold generation_dir, generations_dir; rewrite <- app_assoc; apply below_app. }
  assert (Ht : triple E (eq m1) (export g st) (fun _ => exported src st E g m1) (fun _ => True)).
  { apply t_export; rewrite ?Hid; [done | | | done | done | apply Hdis | apply Hdis].
    - unfold state_path. rewrite <- (app_nil_r (st /: STATE_FILE)). by apply Hempty.
    - eapply complete_valid. by exists (g_manifest g). }
  eapply t_conseq; [exact (t_also _ _ _ _ _ _ (t_step E (export g st) (around st) m1 Hwf (modifies_export g st) (keeps_form_export g st)) Ht) | done | | done].
  intros [] m ([Hf Hwf'] & Hg & Hcomp & [Hfiles Hshares]). rewrite Hid in *. split_and!; [done | | done | done].
  exists (g_manifest g). split_and!; [done | done | |].
  - intros name Hn. destruct (Hfiles name Hn) as (f & b & H1 & H2).
    exists f, b. split; [| done]. rewrite <- H1. symmetry. eapply Hgs, below_snoc.
  - intros HE Hn s. assert (Hcp := Hshares HE). rewrite <- (Hgs id) by (rewrite <- app_assoc; apply below_app).
    apply Hcp.
    + exists NDir. unfold stat_in. by rewrite (Hgs id), Hn by apply below_snoc.
    + by eapply names_no_dir.
    + intros s'. unfold generation_dir, generations_dir. rewrite <- !app_assoc.
      assert (Hx := Hempty GENERATIONS_DIR ([id; HOST_SHARE_STATE] ++ s') ltac:(done)). rewrite <- app_assoc in Hx. exact Hx.
Qed.

End state.

(** ** Capturing a running instance *)

Section capturing.
Context {JR : Json record} {JM : Json manifest} {JC : Json checkpoint_ref}.
Context {JRL : JsonLaws record valid_record} {JML : JsonLaws manifest valid_manifest}.
Context {VM : VmCapture} {CC : CaptureContext} {Hvm : VmCaptureLaws} (E : env) (src : path) (s : run_session).

(** The generation [id] of [d] is a new capture of the run: its disk is the one
    the run had in [m0]. *)
Definition captured_state (d : path) (id : generation_id) (m0 m : fsmap) : Prop :=
  exists rec data, record_at src m0 = Some rec /\ contents_at m0 (run_rootfs (rs_run s)) = Some data /\
    captured d rec data (g_id <$> base s) (FromCheckpoint (run_id_of s)) id m.

(** The source is the instance of a running owner with the session [s]. *)
Definition live_source (m0 : fsmap) : Prop :=
  exists rec, good src m0 rec /\ session_runs src s rec /\ is_Some (contents_at m0 (run_rootfs (rs_run s))).

(** Its record, its latest generation and its run are as they were. *)
Definition run_kept (m0 m : fsmap) : Prop :=
  forall rec, record_at src m0 = Some rec -> record_at src m = Some rec /\
    (forall id, r_latest rec = Some id -> same_tree (generation_dir src id) m0 m) /\
    (forall run, phase_run (r_phase rec) = Some run -> same_tree (run_dir src run) m0 m).

Lemma run_kept_same m0 m m' : run_kept m0 m -> same_tree src m m' -> run_kept m0 m'.
Proof.
  intros Hk Hs rec Hrec. destruct (Hk rec Hrec) as (Hr & Hl & Hp). split_and!.
  - unfold record_at, json_at, contents_at in *. by rewrite (Hs (state_path src)) by apply below_snoc.
  - intros id Hid q Hq. rewrite (Hs q); [by apply (Hl id) |]. by do 2 eapply below_child.
  - intros run Hrun q Hq. rewrite (Hs q); [by apply (Hp run) |]. by do 2 eapply below_child.
Qed.

Lemma kept_run_kept m0 m1 rec m : same_tree src m0 m1 -> record_at src m0 = Some rec -> kept src m1 rec rec m -> run_kept m0 m.
Proof.
  intros Hs Hr ((_ & Hr' & _) & Hl & Hp) rec' Hrec. rewrite Hr in Hrec. simplify_eq. split_and!; [done | |].
  - intros id Hid q Hq. rewrite (Hl id Hid Hid q Hq). apply Hs. by do 2 eapply below_child.
  - intros run Hrun q Hq. rewrite (Hp run Hrun Hrun q Hq). apply Hs. by do 2 eapply below_child.
Qed.

Definition exporting (st q : path) : Prop := around st q \/ capture_touches src q.

(** A copy of a capture is the capture. *)
Lemma captured_copied rec data par org id d m m' :
  captured src rec data par org id m -> copied_state E src d id m m' -> captured d rec data par org id m'.
Proof.
  intros (Hn & mf & Hc & Hp & Ho & Hd) (mf' & Hc' & Hcd & Hf & _).
  assert (mf' = mf) as -> by (destruct Hc as [Hm _], Hc' as [Hm' _]; congruence).
  split; [done |]. exists mf. split_and!; [done | done | done |].
  destruct (Hf ROOTFS) as (f & b & Hs & Hd').
  { apply elem_of_app. left. apply elem_of_sorted_keys. by apply Hc. }
  unfold contents_at in *. rewrite Hs in Hd. by rewrite Hd'.
Qed.

(** What the owner does to its own instance does not reach a directory apart
    from it. *)
Lemma capture_apart st q : disjoint src st -> (forall q, clock_files initramfs_stamp q -> ~ below st q) ->
  below st q -> ~ capture_touches src q.
Proof.
  intros Hd Hclk Hq [[Hb | Hb] | Hb]; [| | by eapply Hclk].
  - assert (Hb' : below st (generations_dir src)) by (by eapply below_trans).
    apply below_app_inv in Hb'. destruct Hd. tauto.
  - eapply disjoint_below; [exact Hd | | exact Hq]. by eapply below_child.
Qed.

(** The export of a capture that has been published. *)
Lemma t_export_captured m0 m1 m2 rec data id st : disjoint src st -> (forall q, clock_files initramfs_stamp q -> ~ below st q) ->
  (forall x t, x <> FORK_LEASE -> m1 !! (st /: x ++ t) = None) ->
  record_at src m0 = Some rec -> contents_at m0 (run_rootfs (rs_run s)) = Some data ->
  frame (capture_touches src) m1 m2 -> well_formed m2 -> run_kept m0 m2 ->
  captured src rec data (g_id <$> base s) (FromCheckpoint (run_id_of s)) id m2 ->
  triple E (eq m2) (session_export src id st)
    (fun _ m => (exists id, good st m (mk_record RECORD_VERSION (Some id) Stopped) /\ captured_state st id m0 m) /\
       (frame (exporting st) m1 m /\ run_kept m0 m) /\ well_formed m)
    (fun m => frame (exporting st) m1 m /\ run_kept m0 m).
Proof.
  intros Hd Hclk Hempty Hr Hdata Hf2 Hwf2 Hk2 Hc2.
  assert (Hmono : forall m, frame (around st) m2 m -> frame (exporting st) m1 m /\ run_kept m0 m).
  { intros m Hf. split.
    - etrans; [eapply frame_mono, Hf2; by right | eapply frame_mono, Hf; by left].
    - eapply run_kept_same; [exact Hk2 |]. intros q Hq. apply Hf. intros [Hb | Hb].
      + destruct Hd as [Hd _]. apply Hd. by eapply below_trans.
      + by eapply disjoint_below. }
  eapply t_conseq; [apply (t_pin_export E src m2 m2 id st Hwf2) | done | | exact Hmono]; [done | done | |].
  - intros x t Hx. rewrite Hf2; [by apply Hempty |]. eapply capture_apart; [done | done |].
    rewrite <- app_assoc. apply below_app.
  - intros [] m (Hg & Hcp & Hf & Hwf). split; [| split; [by apply Hmono | done]]. exists id. split; [done |].
    exists rec, data. split_and!; [done | done |]. by eapply captured_copied.
Qed.

(** The owner captures its run and exports the capture. *)
Lemma t_checkpoint_export m0 m1 st : well_formed m1 -> same_tree src m0 m1 -> live_source m0 -> stamps_apart src ->
  disjoint src st -> (forall q, clock_files initramfs_stamp q -> ~ below st q) ->
  (forall x t, x <> FORK_LEASE -> m1 !! (st /: x ++ t) = None) ->
  triple E (eq m1) (checkpoint_export src s st)
    (fun _ m => (exists id, good st m (mk_record RECORD_VERSION (Some id) Stopped) /\ captured_state st id m0 m) /\
       (frame (exporting st) m1 m /\ run_kept m0 m) /\ well_formed m)
    (fun m => frame (exporting st) m1 m /\ run_kept m0 m).
Proof.
  intros Hwf Hsame (rec & Hg & (Hpath & Hrun & Hbase) & data & Hdata) Hap Hd Hclk Hempty.
  assert (Hr0 := proj1 (proj2 Hg)).
  assert (Hg1 : good src m1 rec).
  { eapply good_same; [done | | exact Hg]. split; [apply Hsame, below_snoc |].
    intros q Hq. apply Hsame. by eapply below_child. }
  assert (Hd1 : contents_at m1 (run_dir src (run_id_of s) /: ROOTFS) = Some data).
  { rewrite <- Hdata. unfold run_rootfs, contents_at. rewrite Hpath, Hsame; [done |]. do 3 eapply below_child. apply below_refl. }
  unfold checkpoint_export. eapply t_bind.
  { eapply t_conseq; [eapply t_both; [by apply (t_step E _ _ m1 Hwf (modifies_capture src s _) (keeps_form_capture src s _)) |
      apply (t_capture src E (run_id_of s) data m1 rec Hg1 Hrun Hd1 s (FromCheckpoint (run_id_of s)) Hap Hpath Hbase); by eapply run_valid_id] | done | intros r m Hm; exact Hm |].
    intros m [Hf Hk]. split; [eapply frame_mono, Hf; by right | by eapply kept_run_kept]. }
  intros [s' id]. apply t_start. intros m2 ([Hf2 Hwf2] & _ & Hk2 & Hc2). simpl in Hc2.
  eapply t_export_captured; try done. by eapply kept_run_kept.
Qed.

End capturing.

(** ** The fork *)

Section fork.
Context {JR : Json record} {JM : Json manifest} {JC : Json checkpoint_ref} {JD : Json instance_descriptor}.
Context {JRL : JsonLaws record valid_record} {JML : JsonLaws manifest valid_manifest}.
Context {JDL : JsonLaws instance_descriptor valid_descriptor}.
Context {TF : TempFiles} {TL : TempLaws} (rfc3339 : N -> option string) (start_time : Z -> option N).
Context {VM : VmCapture} {CC : CaptureContext} {Hvm : VmCaptureLaws}.
Context (E : env) (source dest : layout) (from : fork_source) (live : bool) (sess : run_session).

Abbreviation src := (lo_instance_dir source).

(** Whether the owner of the running source is asked for a capture, by the
    session [sess]. *)
Definition fork_captures : bool := match from with ForkCheckpoint _ => false | ForkCurrent => live end.

(** The directory [d] holds the state [id] that is forked, from the tree [m0]. *)
Definition state_of (d : path) (id : generation_id) (m0 m : fsmap) : Prop :=
  good d m (mk_record RECORD_VERSION (Some id) Stopped) /\
  match from with
  | ForkCheckpoint c => id = c_generation c /\ copied_state E src d id m0 m
  | ForkCurrent =>
      if live then captured_state src sess d id m0 m
      else (exists rec, record_at src m0 = Some rec /\ r_latest rec = Some id) /\ copied_state E src d id m0 m
  end.

(** What is left of the source: all of it, or, when it was captured, its
    record, its latest generation and its run. *)
Definition source_kept (m0 m : fsmap) : Prop := if fork_captures then run_kept src m0 m else same_tree src m0 m.

Lemma source_kept_same m0 m m' : source_kept m0 m -> same_tree src m m' -> source_kept m0 m'.
Proof.
  unfold source_kept. destruct fork_captures; [apply run_kept_same |]. intros H1 H2 q Hq. by rewrite (H2 q Hq), (H1 q Hq).
Qed.

(** The directory [d] is the new instance. *)
Definition instance_at (d : path) (m0 m : fsmap) : Prop :=
  exists id desc, state_of d id m0 m /\ descriptor_at m d = Some desc /\
    described m src (lo_instance dest) (generation_dir d id) desc.

Lemma copied_state_same a b id m0 m m' :
  (forall s, m' !! (generation_dir b id ++ s) = m !! (generation_dir a id ++ s)) ->
  copied_state E src a id m0 m -> copied_state E src b id m0 m'.
Proof.
  intros Hre (mf & H1 & (Hmf & Hid & Hroot & Hf) & H3 & H4). exists mf. split_and!; [done | split_and!; [| done | done |] | |].
  - unfold manifest_at, json_at, contents_at in *. by rewrite Hre.
  - intros name size Hn. destruct (Hf name size Hn) as (f & Hm & Hl). exists f. by rewrite Hre.
  - intros name Hn. destruct (H3 name Hn) as (f & b' & Hs & Hd). exists f, b'. by rewrite Hre.
  - intros HE Hs s. specialize (H4 HE Hs s). rewrite <- !app_assoc in *. by rewrite Hre.
Qed.

Lemma captured_state_same a b id m0 m m' :
  (forall t, m' !! (generation_dir b id ++ t) = m !! (generation_dir a id ++ t)) ->
  captured_state src sess a id m0 m -> captured_state src sess b id m0 m'.
Proof.
  intros Hre (rec & data & Hr & Hd & Hn & mf & (Hmf & Hid & Hroot & Hf) & Hp & Ho & Hc). exists rec, data.
  split_and!; [done | done |]. split; [done |]. exists mf. split_and!; [split_and!; [| done | done |] | done | done |].
  - unfold manifest_at, json_at, contents_at in *. by rewrite Hre.
  - intros name size Hn'. destruct (Hf name size Hn') as (f & Hm & Hl). exists f. by rewrite Hre.
  - unfold contents_at in *. by rewrite Hre.
Qed.

Lemma state_relocated a b id m0 m m' : well_formed m' -> relocated a b m m' -> state_of a id m0 m -> state_of b id m0 m'.
Proof.
  intros Hwf Hre [Hg Hs]. split; [by eapply good_relocated |].
  assert (Hc : copied_state E src a id m0 m -> copied_state E src b id m0 m').
  { apply copied_state_same. intros s. by apply generation_relocated. }
  destruct from; [naive_solver |]. destruct live; [| naive_solver].
  eapply captured_state_same, Hs. intros s. by apply generation_relocated.
Qed.

Lemma state_same d id m0 m m' : well_formed m' -> store_same d m m' -> state_of d id m0 m -> state_of d id m0 m'.
Proof.
  intros Hwf Hsame [Hg Hs]. split; [by eapply good_same |].
  assert (Hc : copied_state E src d id m0 m -> copied_state E src d id m0 m').
  { apply copied_state_same. intros s. eapply store_same_generation; [done | apply below_app]. }
  destruct from; [naive_solver |]. destruct live; [| naive_solver].
  eapply captured_state_same, Hs. intros s. eapply store_same_generation; [done | apply below_app].
Qed.

Lemma described_moved m m' g g' name desc : same_tree src m m' ->
  (forall s, m' !! (g' ++ s) = m !! (g ++ s)) ->
  described m src name g desc -> described m' src name g' desc.
Proof.
  intros Hsame Hg (d0 & Hs & Hn & Hi & Hshape). exists d0. split_and!; [| done | done |].
  - destruct Hs as [Hs | [Hs ->]]; [left | right; split; [| done]].
    + unfold descriptor_at, json_at, contents_at in *. by rewrite (Hsame (src /: DESCRIPTOR_FILE)) by apply below_snoc.
    + by rewrite (Hsame (src /: DESCRIPTOR_FILE)) by apply below_snoc.
  - destruct Hshape as [Hshape | (c & Hc & Hshape)]; [by left | right]. exists c. split; [| done].
    unfold vm_config_in, stat_in in *. rewrite (Hg ["vmstate.bin"]).
    destruct (m !! (g /: "vmstate.bin")) as [[] |]; done.
Qed.

Lemma instance_relocated a b m0 m m' : well_formed m' -> same_tree src m m' -> relocated a b m m' ->
  instance_at a m0 m -> instance_at b m0 m'.
Proof.
  intros Hwf Hsame Hre (id & desc & Hs & Hd & Hdesc). exists id, desc. split_and!.
  - by eapply state_relocated.
  - unfold descriptor_at, json_at, contents_at in *. by rewrite (relocated_at a b m m' Hre DESCRIPTOR_FILE).
  - eapply described_moved; [exact Hsame | | exact Hdesc]. intros s. by apply generation_relocated.
Qed.

(** A change beside the store and the descriptor of the new instance. *)
Lemma instance_beside d m0 m m' : well_formed m' -> same_tree src m m' -> store_same d m m' ->
  m' !! (d /: DESCRIPTOR_FILE) = m !! (d /: DESCRIPTOR_FILE) -> instance_at d m0 m -> instance_at d m0 m'.
Proof.
  intros Hwf Hsame Hst Hdf (id & desc & Hs & Hd & Hdesc). exists id, desc. split_and!.
  - by eapply state_same.
  - unfold descriptor_at, json_at, contents_at in *. by rewrite Hdf.
  - eapply described_moved; [exact Hsame | | exact Hdesc]. intros s. eapply store_same_generation; [done | apply below_app].
Qed.

Lemma around_both_apart st q : disjoint src st -> below src q -> ~ around st q.
Proof.
  intros Hd Hq [Hb | Hb]; [| by eapply disjoint_below]. destruct Hd as [Hd _]. apply Hd. by eapply below_trans.
Qed.

(** What putting the state into the staging directory may touch. *)
Definition filling (st q : path) : Prop := around st q \/ fork_captures = true /\ capture_touches src q.

Definition filled (st : path) (m0 m1 m : fsmap) : Prop := frame (filling st) m1 m /\ source_kept m0 m.

Lemma filled_more st m0 m1 m m' : disjoint src st -> filled st m0 m1 m -> frame (around st) m m' -> filled st m0 m1 m'.
Proof.
  intros Hd [Hf Hk] Hf'. split.
  - etrans; [exact Hf |]. eapply frame_mono, Hf'. by left.
  - eapply source_kept_same; [exact Hk |]. intros q Hq. apply Hf'. by apply around_both_apart.
Qed.

Lemma reads_latest st : reads (latest st) (fun m o => forall g, o = Some g ->
  exists rec id, record_at st m = Some rec /\ r_latest rec = Some id /\ g_dir g = generation_dir st id).
Proof.
  unfold latest. eapply reads_bind; [apply reads_get_record |]. intros [rec |]; simpl; [| by apply reads_ret].
  destruct (r_latest rec) as [id |] eqn:Hl; [| by apply reads_ret].
  eapply reads_bind; [apply reads_get_generation |]. intros g. apply reads_ret.
  intros m [_ Hg] Hr g' [= <-]. exists rec, id. split_and!; [by apply (Hr rec) | done | done].
Qed.

Context (held : bool + error).

Abbreviation capture := (checkpoint_export src sess).

(** What a fork relies on in a running source. *)
Definition capturable (st : path) (m0 : fsmap) : Prop :=
  fork_captures = true -> live_source src sess m0 /\ stamps_apart src /\
    forall q, clock_files initramfs_stamp q -> ~ below st q.

Lemma t_fork_state m0 m1 st : well_formed m1 -> same_tree src m0 m1 -> capturable st m0 -> disjoint src st ->
  (forall x s, x <> FORK_LEASE -> m1 !! (st /: x ++ s) = None) ->
  triple E (eq m1) (fork_state source from live held capture st)
    (fun _ m => exists id, state_of st id m0 m /\ filled st m0 m1 m /\ well_formed m) (filled st m0 m1).
Proof.
  intros Hwf Hsame Hcap Hd Hempty. unfold filled, filling, source_kept, capturable, state_of, fork_captures, fork_state in *.
  assert (Hex : forall id, triple E (eq m1) (g ← pin src id; export g st)
    (fun _ m => good st m (mk_record RECORD_VERSION (Some id) Stopped) /\ copied_state E src st id m0 m /\
       (frame (fun q => around st q \/ false = true /\ capture_touches src q) m1 m /\ same_tree src m0 m) /\ well_formed m)
    (fun m => frame (fun q => around st q \/ false = true /\ capture_touches src q) m1 m /\ same_tree src m0 m)).
  { intros id. assert (Hmono : forall m, frame (around st) m1 m ->
      frame (fun q => around st q \/ false = true /\ capture_touches src q) m1 m /\ same_tree src m0 m).
    { intros m Hf. split; [eapply frame_mono, Hf; by left |]. intros q Hq. rewrite Hf; [by apply Hsame |]. by apply around_both_apart. }
    eapply t_conseq; [by apply (t_pin_export E src m0 m1 id st) | done | | exact Hmono].
    intros [] m (H1 & H2 & H3 & H4). split_and!; [done | done | by apply Hmono.. | done]. }
  destruct from as [c |]; [| destruct live].
  - eapply t_conseq; [apply Hex | done | | done]. intros [] m (H1 & H2 & H3 & H4). eauto 10.
  - destruct (Hcap eq_refl) as (Hlive & Hap & Hclk).
    assert (Hmono : forall m, frame (exporting src st) m1 m ->
      frame (fun q => around st q \/ true = true /\ capture_touches src q) m1 m).
    { intros m Hf. eapply frame_mono, Hf. intros q [Hq | Hq]; [by left | by right]. }
    eapply t_conseq; [by apply (t_checkpoint_export E src sess m0 m1 st) | done | | intros m [Hf Hk]; split; [by apply Hmono | done]].
    intros [] m ((id & Hg & Hc) & [Hf Hk] & Hwf'). exists id. split_and!; [done | done | by apply Hmono | done | done].
  - assert (Hself : forall m, m1 = m -> frame (fun q => around st q \/ false = true /\ capture_touches src q) m1 m /\ same_tree src m0 m)
      by (by intros ? <-).
    eapply t_bind; [apply (t_silent _ _ _ (eq m1)); [| done | done] |].
    { unfold refuse_crashed_run, crashed, crashed_run, get_record, read_json. destruct held as [[] |]; respects_tac. }
    intros []. eapply (t_bind _ _ _ _ (fun r m => m1 = m /\ forall rec, r = Some rec -> record_at src m1 = Some rec)).
    { eapply t_reads; [apply reads_get_record | done |]. intros ? r <- Hr. split; [done |]. intros rec Hrec. by apply Hr. }
    intros r. apply t_start. intros ? [<- Hr]. destruct (r ≫= r_latest) as [id |] eqn:Hl; [| intros w Hw; by apply Hself].
    simpl. eapply (t_bind _ _ _ _ (fun i m => m1 = m /\ i = id)); [apply t_ret; by intros ? <- |].
    intros i. apply t_start. intros ? [<- ->]. eapply t_conseq; [apply Hex | done | | done].
    intros [] m (H1 & H2 & H3 & H4). exists id. split_and!; [done | | done | by apply H3 | by apply H3 | done].
    destruct r as [rec |]; [| done]. simpl in Hl. exists rec. split; [| done]. rewrite <- (Hr rec eq_refl).
    unfold record_at, json_at, contents_at. rewrite <- (Hsame (state_path src)) by apply below_snoc. done.
Qed.

Lemma keeps_form_tempfile prefix root : respects keeps_form (tempfile_in prefix root).
Proof.
  intros E' w Hwf. assert (Ht := tempfile_in_new E' (w_fs w) prefix root w eq_refl).
  destruct (tempfile_in prefix root E' w) as [p w' | e w' | w']; simpl in *; [| by rewrite <- Ht | by rewrite <- Ht].
  destruct Ht as (s & _ & Hnone & Hpar & ->). apply well_formed_insert; [done | by apply parent_is_dir_ok | right; congruence].
Qed.

Lemma keeps_form_save d desc : respects keeps_form (save_in_instance_dir d desc).
Proof. unfold save_in_instance_dir, save_to_path. respects_tac. apply keeps_form_tempfile. Qed.

Lemma saving_around st q : saving st q -> around st q.
Proof. intros [Hq | Hq]; [by left | right]. destruct Hq as [Hq | [s Hq]]; by eapply below_child. Qed.

(** The new instance, put together in the staging directory. *)
Lemma t_assemble m0 m1 st : well_formed m1 -> same_tree src m0 m1 -> capturable st m0 -> disjoint src st ->
  (forall x s, x <> FORK_LEASE -> m1 !! (st /: x ++ s) = None) ->
  triple E (eq m1)
    (_ ← fork_state source from live held capture st;
     l ← latest st;
     exported ← context l "forked instance has no state";
     d ← destination_descriptor rfc3339 source dest (g_dir exported);
     _ ← save_in_instance_dir st d;
     appeared ← path_exists (lo_instance_dir dest);
     if (appeared : bool) then bail "destination instance appeared while forking" else mret tt)
    (fun _ m => instance_at st m0 m /\ filled st m0 m1 m /\ well_formed m) (filled st m0 m1).
Proof.
  intros Hwf Hsame Hcap Hd Hempty.
  eapply t_bind; [by apply (t_fork_state m0 m1 st) |]. intros []. apply t_start. intros m2 (id & Hst & Hf2 & Hwf2).
  assert (Hself : forall m, m2 = m -> filled st m0 m1 m) by (by intros ? <-).
  eapply (t_bind _ _ _ _ (fun o m => m2 = m /\ forall g, o = Some g -> g_dir g = generation_dir st id)).
  { eapply t_reads; [apply reads_latest | done |]. intros ? o <- Ho. split; [done |]. intros g Hg.
    destruct (Ho g Hg) as (rec & id' & Hrec & Hl & ->). destruct Hst as [(_ & Hrec' & _) _]. rewrite Hrec in Hrec'. by simplify_eq/=. }
  intros [g |]; [| intros w [Hw _]; by apply Hself]. apply t_start. intros ? [<- Hg]. specialize (Hg g eq_refl). simpl.
  eapply (t_bind _ _ _ _ (fun x m => m2 = m /\ x = g)); [apply t_ret; by intros ? <- |].
  intros g'. apply t_start. intros ? [<- ->]. rewrite Hg.
  eapply (t_bind _ _ _ _ (fun d m => m2 = m /\ valid_descriptor d /\ described m2 src (lo_instance dest) (generation_dir st id) d)).
  { eapply t_reads; [apply reads_destination | done |]. by intros ? d <- []. }
  intros desc. apply t_start. intros ? (<- & Hv & Hdesc).
  assert (Hsave : forall m, frame (saving st) m2 m -> filled st m0 m1 m).
  { intros m Hf. eapply filled_more; [exact Hd | exact Hf2 |]. eapply frame_mono, Hf. apply saving_around. }
  assert (Hall := t_also _ _ _ _ _ _ (t_save E st desc m2 Hv Hwf2)
    (t_conseq E _ _ _ _ _ _ _ (t_keep_form E (eq m2) (save_in_instance_dir st desc) (fun _ _ => True) (fun _ => True)
      ltac:(by intros ? <-) (keeps_form_save st desc) (t_any _ _ _)) (fun _ H => H) (fun _ _ H => H) (fun _ H => H))).
  eapply t_bind; [eapply t_conseq; [exact Hall | done | intros u m H; exact H | intros m [_ H]; by apply Hsave] |].
  intros []. apply t_start. intros m3 ((Hdat & Hf3) & _ & Hwf3).
  assert (Hdone : forall m, m3 = m -> instance_at st m0 m /\ filled st m0 m1 m /\ well_formed m).
  { intros ? <-. split; [| split; [by apply Hsave | done]]. exists id, desc. split_and!.
    - eapply state_same; [done | | exact Hst]. apply beside_same. eapply frame_mono, Hf3. apply saving_beside.
    - done.
    - eapply described_moved; [| | exact Hdesc].
      + intros q Hq. apply Hf3. intros Hs%saving_around. by eapply around_both_apart.
      + intros s. eapply store_same_generation; [| apply below_app]. apply beside_same. eapply frame_mono, Hf3. apply saving_beside. }
  eapply t_bind; [apply (t_silent _ _ _ (eq m3)); [auto with frames | done | intros ? <-; by apply Hdone] |].
  intros []; [apply t_fail; intros ? <-; by apply Hdone | by apply t_ret].
Qed.

Context (name : string) (Hname : is_transaction_name name = false).
Context (Hdest : lo_instance_dir dest = lo_base dest /: "instances" /: name).

Abbreviation root := (lo_base dest /: "instances").

(** The source is another instance, and not in the transaction area. *)
Context (Hsrc : forall q, below src q -> ~ area root q /\ ~ below (lo_instance_dir dest) q).

(** All a fork may touch. *)
Definition fork_touches (q : path) : Prop :=
  forking root q \/ below (lo_instance_dir dest) q \/ fork_captures = true /\ capture_touches src q.

(** Nothing else is touched, and the source is kept. *)
Definition confined (m0 m : fsmap) : Prop := frame fork_touches m0 m /\ source_kept m0 m.

(** What an owner asked for a capture relies on, and that the files beside its
    stamps are not in the way. *)
Definition owner_ready (m0 : fsmap) : Prop :=
  fork_captures = true -> live_source src sess m0 /\ stamps_apart src /\
    forall q, clock_files initramfs_stamp q -> ~ area root q /\ ~ below (lo_instance_dir dest) q.

(** The destination is as it was, or the new instance is there. *)
Definition not_or_forked (m0 m : fsmap) : Prop := same_tree (lo_instance_dir dest) m0 m \/ instance_at (lo_instance_dir dest) m0 m.

Lemma dest_apart q : below (lo_instance_dir dest) q -> ~ forking root q /\ ~ below src q.
Proof.
  intros Hq. split; [| intros Hs; by apply (Hsrc q Hs)]. rewrite Hdest in Hq. intros Hf%forking_area. by eapply area_apart.
Qed.

Lemma source_disjoint st : fork_slot root st -> disjoint src st.
Proof.
  intros Hst. split; intros Hb.
  - destruct (Hsrc st Hb) as [Hn _]. apply Hn, forking_area. eapply fork_slot_forking; [done | left; apply below_refl].
  - destruct (Hsrc src (below_refl _)) as [Hn _]. apply Hn, forking_area. eapply fork_slot_forking; [done | by right].
Qed.

Lemma owner_capturable m0 st : fork_slot root st -> owner_ready m0 -> capturable st m0.
Proof.
  intros Hst Ho Hc. destruct (Ho Hc) as (Hl & Hap & Hclk). split_and!; [done | done |].
  intros q Hq Hb. destruct (Hclk q Hq) as [Hn _]. apply Hn, forking_area. eapply fork_slot_forking; [done | by right].
Qed.

(** A capture does not reach the destination. *)
Lemma capture_not_dest m0 q : owner_ready m0 -> fork_captures = true -> below (lo_instance_dir dest) q -> ~ capture_touches src q.
Proof.
  intros Ho Hc Hq. destruct (Ho Hc) as (_ & _ & Hclk). destruct (dest_apart q Hq) as [_ Hns].
  intros [[Hb | Hb] | Hb].
  - assert (Hb' : below (lo_instance_dir dest) (generations_dir src)) by (by eapply below_trans).
    eapply Hsrc; [| exact Hb']. apply below_snoc.
  - apply Hns. by eapply below_child.
  - by apply (Hclk q).
Qed.

(** What is done before the rename does not reach the destination. *)
Lemma before_rename m0 m st : owner_ready m0 -> fork_slot root st ->
  frame (fun q => forking root q \/ filling st q) m0 m -> source_kept m0 m ->
  not_or_forked m0 m /\ confined m0 m.
Proof.
  intros Ho Hst Hf Hk. assert (Hfill : forall q, filling st q -> forking root q \/ fork_captures = true /\ capture_touches src q).
  { intros q [Hq | Hq]; [left; by eapply fork_slot_forking | by right]. }
  split; [| split; [| done]].
  - left. intros q Hq. apply Hf. destruct (dest_apart q Hq) as [H1 H2].
    intros [Hx | [Hx | [Hc Hx]]%Hfill]; [tauto | tauto | by eapply capture_not_dest].
  - eapply frame_mono, Hf. intros q [Hq | Hq%Hfill]; [by left |]. destruct Hq; [by left | right; by right].
Qed.

Lemma t_publish_fork m0 m st : owner_ready m0 -> fork_slot root st -> well_formed m -> instance_at st m0 m ->
  frame (fun q => forking root q \/ filling st q) m0 m -> source_kept m0 m ->
  triple E (eq m) (staged_publish st (lo_instance_dir dest))
    (fun _ m' => instance_at (lo_instance_dir dest) m0 m' /\ confined m0 m')
    (fun m' => not_or_forked m0 m' /\ confined m0 m').
Proof.
  intros Ho Hslot Hwf Hinst Hf Hk. unfold staged_publish. set (D := lo_instance_dir dest).
  assert (Hbefore := before_rename m0 m st Ho Hslot Hf Hk).
  assert (Hst : forall q, below st q -> forking root q) by (intros q Hq; eapply fork_slot_forking; [done | by right]).
  assert (Hne : st <> D).
  { intros Heq. destruct (dest_apart st) as [Hn _]; [rewrite Heq; apply below_refl |]. apply Hn, Hst, below_refl. }
  assert (Hrn := t_keep_form E (eq m) _ _ _ ltac:(by intros ? <-) (keeps_form_rename st D) (t_rename E m st D Hne)).
  eapply t_bind; [eapply t_conseq; [exact Hrn | done | intros u m' H; exact H | by intros ? <-] |].
  intros []. apply t_start. intros m1 [(_ & Hnb & _ & ->) Hwf1].
  assert (Hsame : same_tree src m (move st D m)).
  { intros q Hq. apply move_else; intros Hb.
    - destruct (Hsrc q Hq) as [Ha _]. apply Ha, forking_area. by apply Hst.
    - by apply (Hsrc q Hq). }
  assert (Hinst1 : instance_at D m0 (move st D m)) by (eapply instance_relocated; [done | exact Hsame | by apply move_relocated | exact Hinst]).
  assert (Htouch : confined m0 (move st D m)).
  { split; [| by eapply source_kept_same]. etrans; [apply Hbefore |]. eapply frame_mono, move_frame. intros q [Hq | Hq]; [left; by apply Hst | right; by left]. }
  eapply t_bind; [apply (t_silent _ _ _ (eq (move st D m))); [| done | intros ? <-; split; [by right | done]] |].
  { unfold D. rewrite Hdest, parent_snoc. auto with frames. }
  intros []. set (m1 := move st D m) in *.
  assert (Hend : forall m2, frame (fun q => q = D /: FORK_LEASE) m1 m2 -> well_formed m2 ->
    instance_at D m0 m2 /\ confined m0 m2).
  { intros m2 Hf2 Hwf2. split.
    - eapply instance_beside; [done | | | | exact Hinst1].
      + intros q Hq. apply Hf2. intros ->. apply (Hsrc _ Hq), below_snoc.
      + apply beside_same. eapply frame_mono, Hf2. intros q ->. right. exists FORK_LEASE. split; [apply below_refl | done].
      + apply Hf2. intros Heq. apply app_inj_tail in Heq as [_ Heq]. discriminate Heq.
    - destruct Htouch as [Ht1 Ht2]. split.
      + etrans; [exact Ht1 |]. eapply frame_mono, Hf2. intros q ->. right. left. apply below_snoc.
      + eapply source_kept_same; [exact Ht2 |]. intros q Hq. apply Hf2. intros ->. apply (Hsrc _ Hq), below_snoc. }
  assert (Hkf : triple E (eq m1) (attempt (remove_file (D /: FORK_LEASE)))
    (fun _ m2 => frame (fun q => q = D /: FORK_LEASE) m1 m2 /\ well_formed m2)
    (fun m2 => frame (fun q => q = D /: FORK_LEASE) m1 m2 /\ well_formed m2)).
  { intros w Hw. assert (H1 := respects_attempt _ _ (modifies_remove_file (fun q => q = D /: FORK_LEASE) (D /: FORK_LEASE) eq_refl) E w).
    assert (H2 := respects_attempt _ _ (keeps_form_remove_file (D /: FORK_LEASE)) E w). rewrite <- Hw in H1, H2. specialize (H2 Hwf1).
    by destruct (attempt (remove_file (D /: FORK_LEASE)) E w). }
  eapply t_bind; [eapply t_conseq; [exact Hkf | done | intros r m' H; exact H |] |].
  - intros m2 [H1 H2]. destruct (Hend m2 H1 H2) as [H3 H4]. split; [by right | done].
  - intros r. apply t_ret. intros m2 [H1 H2]. by apply Hend.
Qed.


End fork.

(** ** A fork of the demo *)

(** Temporary names by counting. *)
Fixpoint temp_loop (fuel : nat) (make : path -> M unit) (prefix : string) (root : path) (n : N) : M path :=
  match fuel with
  | O => fail (Io AlreadyExists)
  | S fuel' =>
      let p := root /: (prefix +:+ pretty n) in
      r ← attempt (make p);
      match r with
      | inl _ => mret p
      | inr (Io AlreadyExists) => temp_loop fuel' make prefix root (n + 1)
      | inr e => fail e
      end
  end.

#[export] Instance counting : TempFiles := {|
  tempdir_in prefix root := temp_loop 9 create_dir prefix root 0;
  tempfile_in prefix root := temp_loop 9 create_new prefix root 0;
|}.

Lemma t_temp_loop E m fuel make node prefix root n :
  (forall p, triple E (eq m) (make p) (fun _ m' => m !! p = None /\ parent_is_dir m p = true /\ m' = <[p := node]> m) (eq m)) ->
  triple E (eq m) (temp_loop fuel make prefix root n)
    (fun p m' => exists s, p = root /: (prefix +:+ s) /\ m !! p = None /\ parent_is_dir m p = true /\ m' = <[p := node]> m) (eq m).
Proof.
  intros Hmake. revert n. induction fuel as [| fuel IH]; intros n; simpl; [by apply t_fail |].
  eapply t_bind; [apply t_attempt, Hmake |]. intros [[] | [[] | |]]; try by apply t_fail.
  - apply t_ret. intros m' (H1 & H2 & H3). eauto 10.
  - apply IH.
Qed.

#[export] Instance counting_laws : TempLaws.
Proof.
  split; intros E m prefix root; apply t_temp_loop; intros p; apply t_change; [done | | | done | |];
    intros w; [intros o <- Ho | intros <- Ho | intros o <- Ho | intros <- Ho]; repeat case_match; by simplify_eq.
Qed.

#[export] Instance descriptor_codec : Codec instance_descriptor :=
  codec_of (fun d => (d_name d, (d_created d, (d_image d, (d_cpus d, d_memory_mib d)))))
           (fun '(n, (c, (i, (u, k)))) => Some (mk_descriptor n c i u k)) ltac:(by intros []).

Definition valid_descriptor_b (d : instance_descriptor) : bool :=
  match d_cpus d with Some n => n <? 256 | None => true end%N && match d_memory_mib d with Some n => n <? 2 ^ 32 | None => true end%N.

#[export] Instance valid_descriptor_dec d : Decision (valid_descriptor d).
Proof.
  refine (cast_if (decide (valid_descriptor_b d = true))); unfold valid_descriptor, valid_descriptor_b in *;
    destruct (d_cpus d) as [a |], (d_memory_mib d) as [b |]; simpl in *; rewrite ?andb_true_iff, ?N.ltb_lt in *; naive_solver.
Defined.

#[export] Instance descriptor_json : Json instance_descriptor := codec_json valid_descriptor.
#[export] Instance descriptor_laws : JsonLaws instance_descriptor valid_descriptor := codec_json_laws _.

Definition fork_from : layout := mk_layout [] "demo" ["k"] None demo_dir demo_dir ["c"].
Definition fork_to : layout := resolve_in_base "copy" ["b"] None None None None None.

(** Forks of the checkpoint of the stopped instance, and of the running one. *)
Definition fork_demo (from : fork_source) (live : bool) (w : world) : outcome unit :=
  fork (fun _ => None) (fun _ => None) 3 fork_from from fork_to (inl true) live (inl false)
    (checkpoint_export (lo_instance_dir fork_from) demo_session.1) quiet w.

Definition forked (from : fork_source) (live : bool) (w : world) : Prop :=
  match fork_demo from live w with
  | Ok _ w' => instance_at quiet fork_from fork_to from live demo_session.1 (lo_instance_dir fork_to) (w_fs w) (w_fs w')
  | _ => False
  end.

Lemma forked_ok from live w :
  is_ok (fork_demo from live w) = true ->
  match fork_demo from live w with
  | Ok _ w' =>
      instance_at quiet fork_from fork_to from live demo_session.1 (lo_instance_dir fork_to) (w_fs w) (w_fs w') /\
      confined fork_from fork_to from live (w_fs w) (w_fs w')
  | Err _ w' | Crash w' =>
      not_or_forked quiet fork_from fork_to from live demo_session.1 (w_fs w) (w_fs w') /\
      confined fork_from fork_to from live (w_fs w) (w_fs w')
  end -> forked from live w.
Proof.
  unfold forked. intros Hok Hr. destruct (fork_demo from live w) as [u w' | e w' | w']; [exact (proj1 Hr) | discriminate Hok | discriminate Hok].
Qed.

Lemma demo_apart q : below (lo_instance_dir fork_from) q -> ~ area (lo_base fork_to /: "instances") q /\ ~ below (lo_instance_dir fork_to) q.
Proof.
  intros [s ->]%below_spec. split.
  - intros [(t & _ & Hb) | Hb]; apply below_spec in Hb as [r Hr]; discriminate Hr.
  - intros Hb. apply below_spec in Hb as [r Hr]. discriminate Hr.
Qed.

Lemma demo_session_good : good demo_dir (w_fs demo_session.2) (demo_record demo_session.2).
Proof. apply good_b_sound. vm_compute. reflexivity. Qed.

Lemma demo_owner_ready : owner_ready fork_from fork_to ForkCurrent true demo_session.1 (w_fs demo_session.2).
Proof.
  intros _. split_and!.
  - exists (demo_record demo_session.2). split_and!.
    + apply demo_session_good.
    + split_and!; vm_compute; reflexivity.
    + exists demo_disk. vm_compute. reflexivity.
  - apply demo_stamps_apart.
  - intros q Hq. apply demo_apart. destruct Hq as [-> | ->]; apply below_snoc.
Qed.

