(* ===== verification/Init.v ===== *)
(** * Installing images and creating instances

    [src/src/init.rs] and [src/src/release_assets.rs]: the release assets an
    instance is made from (downloaded, checked against a pinned digest,
    unpacked, put in place by a rename, recorded), growing the image and
    punching holes in it, and the first generation of an instance.  The
    programs it runs (curl, zstd, gzip, e2fsck, resize2fs), [lseek] and SHA-256
    are parameters. *)

From S2P Require Import Prelude FileSystem FsLogic FsUtil Store Text Protocol Paths Legacy HostShare Snapshots Instances.

(** ** Release assets *)

(** The programs that are run: their exit status, or the error of starting
    them. *)
Class Tools := {
  (** the URL and the output file *)
  curl : string -> path -> M bool;
  (** the output and the input file *)
  zstd : path -> path -> M bool;
  gzip : path -> path -> M bool;
  (** [None] is an exit by a signal *)
  e2fsck : path -> M (option Z);
  resize2fs : path -> M bool;
}.

Inductive whence := SEEK_DATA | SEEK_HOLE.
Inductive errno := ENXIO | EINVAL | OtherErrno.

Class Lseek := { lseek : path -> nat -> whence -> M (nat + errno) }.

(** [release_assets.json] *)
Record pins := mk_pins { pin_release : string; pin_sha256 : gmap string string }.

Inductive cache_policy := KeepExisting | MatchRelease.

#[global] Instance cache_policy_eq_dec : EqDecision cache_policy.
Proof. solve_decision. Defined.

Definition RELEASE_BASE : string := "https://github.com/semistrict/lnx/releases/download".
Definition ZERO_SCAN_BLOCK : N := 16 * 1024 * 1024.
Definition DEFAULT_ROOTFS_SIZE : N := 64 * 1024 * 1024 * 1024.

Definition format_02x (b : byte) : string := hex_digits 2 (Byte.to_N b).

Definition hex (b : bytes) : string := foldr String.append EmptyString (format_02x <$> b).

(** The bytes of an [OsStr] pushed onto a path go to its last component. *)
Definition release_stamp_path (dest : path) : path := with_file_name dest (file_name dest +:+ ".release").

Definition recorded_release (dest : path) : M (option string) :=
  r ← attempt (read_to_string (release_stamp_path dest));
  mret (match r with
        | inl recorded => if bool_decide (trim recorded = EmptyString) then None else Some (trim recorded)
        | inr _ => None
        end).

Definition sibling_name (name : string) (pid nanos : N) (suffix : string) : string :=
  name +:+ "." +:+ pretty pid +:+ "-" +:+ pretty nanos +:+ "." +:+ suffix.

Definition unique_sibling (p : path) (suffix : string) : M path :=
  nanos ← clock;
  pid ← process_id;
  mret (with_file_name p (sibling_name (file_name p) pid nanos suffix)).

Definition NEWLINE : string := String "010" EmptyString.

Definition record_release (dest : path) (release : string) : M unit :=
  let stamp := release_stamp_path dest in
  temp ← unique_sibling stamp "tmp";
  _ ← fs_write temp (to_bytes (release +:+ NEWLINE));
  rename temp stamp.

(** [Path::extension] of a file name *)
Definition extension (name : string) : option string :=
  match rsplit_once "." name with
  | Some (EmptyString, _) | None => None
  | Some (_, ext) => Some ext
  end.

Definition run_status (status : M bool) (label : string) : M unit :=
  ok ← status;
  if (ok : bool) then mret tt else bail (label +:+ " failed").

Section assets.
Context `{Tools, Lseek}.
Context (sha256 : bytes -> bytes) (pinned : pins).

Definition image_release : string := pin_release pinned.

Definition pinned_sha256 (release asset : string) : string + error :=
  if negb (bool_decide (release = pin_release pinned)) then
    inr (Bail ("this lnx pins assets of " +:+ pin_release pinned +:+ ", not " +:+ release +:+
               "; refusing to download " +:+ asset +:+ " unverified"))
  else
    match pin_sha256 pinned !! asset with
    | Some digest => inl digest
    | None => inr (Bail ("this lnx has no SHA-256 pinned for " +:+ release +:+ "/" +:+ asset))
    end.

(** The loop hashes the whole file. *)
Definition sha256_file (p : path) : M string := data ← fs_read p; mret (hex (sha256 data)).

Definition verify_download (p : path) (release asset : string) : M unit :=
  expected ← lift (pinned_sha256 release asset);
  actual ← sha256_file p;
  if bool_decide (actual = expected) then mret tt
  else bail ("downloaded " +:+ release +:+ "/" +:+ asset +:+ " has SHA-256 " +:+ actual +:+ ", but this lnx expects " +:+
             expected +:+ "; refusing to use it").

(** *** Holes *)

(** [fallocate] with [FALLOC_FL_PUNCH_HOLE] and [FALLOC_FL_KEEP_SIZE]: the
    range reads as zeros afterwards. *)
Definition zero_range (offset len : nat) (l : bytes) : bytes :=
  take offset l ++ replicate (Nat.min len (length l - offset)) x00 ++ drop (offset + len) l.

Definition punch_hole (p : path) (offset len : nat) : M bool :=
  r ← attempt (change (fun E w =>
    match stat_in (w_fs w) p with
    | inl (NFile f) => inl (Some (OWrite p (mk_file (zero_range offset len (f_data f)) (e_blocks E (w_tick w)))))
    | inl _ => inr OtherIo
    | inr k => inr k
    end));
  mret (match r with inl _ => true | inr _ => false end).

Inductive extent_seek := Found (offset : nat) | SeekNotFound | SeekUnsupported.

Definition seek_extent (p : path) (offset : nat) (w : whence) : M extent_seek :=
  r ← lseek p offset w;
  match r with
  | inl o => mret (Found o)
  | inr ENXIO => mret SeekNotFound
  | inr EINVAL => mret SeekUnsupported
  | inr OtherErrno => fail (Io OtherIo)
  end.

(** A read of up to [n] bytes at an offset. *)
Definition read_at (p : path) (offset n : nat) : M bytes :=
  look (fun m => match read_in m p with inl data => inl (take n (drop offset data)) | inr k => inr k end).

Definition is_zero (b : byte) : bool := bool_decide (b = x00).

Fixpoint scan_range_for_holes (fuel : nat) (p : path) (offset end_ block : nat) : M unit :=
  match fuel with
  | O => mret tt
  | S fuel' =>
      if offset <? end_ then
        buf ← read_at p offset (Nat.min (end_ - offset) block);
        if bool_decide (buf = []) then mret tt
        else if forallb is_zero buf then
          punched ← punch_hole p offset (length buf);
          if (punched : bool) then scan_range_for_holes fuel' p (offset + length buf) end_ block else mret tt
        else scan_range_for_holes fuel' p (offset + length buf) end_ block
      else mret tt
  end.

Fixpoint scan_data_extents_for_holes (fuel : nat) (p : path) (offset size block : nat) : M bool :=
  match fuel with
  | O => mret true
  | S fuel' =>
      if offset <? size then
        d ← seek_extent p offset SEEK_DATA;
        match d with
        | SeekNotFound => mret true
        | SeekUnsupported => mret false
        | Found data_offset =>
            h ← seek_extent p data_offset SEEK_HOLE;
            match h with
            | SeekNotFound | SeekUnsupported => mret false
            | Found hole_offset =>
                let end_ := Nat.min hole_offset size in
                _ ← scan_range_for_holes (end_ - data_offset) p data_offset end_ block;
                scan_data_extents_for_holes fuel' p (Nat.max hole_offset (data_offset + 1)) size block
            end
        end
      else mret true
  end.

Fixpoint scan_file_for_holes (fuel : nat) (p : path) (offset size block : nat) : M unit :=
  match fuel with
  | O => mret tt
  | S fuel' =>
      if offset <? size then
        buf ← read_at p offset block;
        if bool_decide (buf = []) then mret tt
        else if forallb is_zero buf then
          punched ← punch_hole p offset (length buf);
          if (punched : bool) then scan_file_for_holes fuel' p (offset + length buf) size block else mret tt
        else scan_file_for_holes fuel' p (offset + length buf) size block
      else mret tt
  end.

Definition punch_holes (p : path) (block : nat) : M unit :=
  n ← metadata p;
  match n with
  | NFile f =>
      let size := length (f_data f) in
      scanned ← scan_data_extents_for_holes size p 0 size block;
      if (scanned : bool) then mret tt else scan_file_for_holes size p 0 size block
  | _ => fail (Io IsADirectory)
  end.

(** *** Downloads *)

(** What makes the file that is put in place out of the download. *)
Definition unpack (asset : string) (download_tmp output_tmp : path) : M unit :=
  if bool_decide (extension asset = Some "zst") then
    _ ← run_status (zstd output_tmp download_tmp) "zstd";
    punch_holes output_tmp (N.to_nat ZERO_SCAN_BLOCK)
  else if bool_decide (extension asset = Some "gz") then
    _ ← create_file output_tmp;
    run_status (gzip output_tmp download_tmp) "gzip"
  else rename download_tmp output_tmp.

Definition fetch_release_asset (dest : path) (asset version : string) : M unit :=
  _ ← match parent dest with Some d => create_dir_all d | None => mret tt end;
  let url := RELEASE_BASE +:+ "/" +:+ version +:+ "/" +:+ asset in
  download_tmp ← unique_sibling dest "download";
  output_tmp ← unique_sibling dest "tmp";
  result ← attempt (
    _ ← run_status (curl url download_tmp) "curl";
    _ ← verify_download download_tmp version asset;
    _ ← unpack asset download_tmp output_tmp;
    rename output_tmp dest);
  _ ← attempt (remove_file download_tmp);
  match result with
  | inl _ => mret tt
  | inr e => _ ← attempt (remove_file output_tmp); fail e
  end.

Definition ensure_release_asset (dest : path) (asset version : string) (policy : cache_policy) : M unit :=
  let release := version +:+ "/" +:+ asset in
  there ← path_exists dest;
  current ← (if (there : bool) then
               match policy with
               | KeepExisting => mret true
               | MatchRelease => recorded ← recorded_release dest; mret (bool_decide (recorded = Some release))
               end
             else mret false);
  if (current : bool) then mret tt
  else
    _ ← fetch_release_asset dest asset version;
    match policy with MatchRelease => record_release dest release | KeepExisting => mret tt end.

Definition download_kernel (dest : path) : M unit :=
  ensure_release_asset dest "vmlinuz.gz" image_release KeepExisting.

Definition ensure_kernel (l : layout) : M unit := download_kernel (lo_kernel l).

(** Permissions are not represented: [make_executable] asks for the file. *)
Definition make_executable (p : path) : M unit := _ ← metadata p; mret tt.

Definition ensure_nested_linux_lnx (dest : path) : M unit :=
  _ ← ensure_release_asset dest "lnx-linux-aarch64" image_release MatchRelease;
  make_executable dest.

(** *** The size of the image *)

Definition set_len (p : path) (n : nat) : M unit := change (fun E w =>
  match stat_in (w_fs w) p with
  | inl (NFile f) =>
      inl (Some (OWrite p (mk_file (take n (f_data f) ++ replicate (n - length (f_data f)) x00) (e_blocks E (w_tick w)))))
  | inl _ => inr IsADirectory
  | inr k => inr k
  end).

(** The first of the candidates that is there. *)
Fixpoint first_existing (candidates : list path) : M (option path) :=
  match candidates with
  | [] => mret None
  | p :: candidates' => there ← path_exists p; if (there : bool) then mret (Some p) else first_existing candidates'
  end.

(** [search] is the directories of [PATH], if it is set. *)
Definition find_in_path (search : option (list path)) (name : string) : M (option path) :=
  match search with
  | None => mret None
  | Some dirs => first_existing ((fun d => d /: name) <$> dirs)
  end.

Definition TOOL_DIRS : list path :=
  [["opt"; "homebrew"; "opt"; "e2fsprogs"; "sbin"]; ["usr"; "local"; "opt"; "e2fsprogs"; "sbin"];
   ["opt"; "homebrew"; "sbin"]; ["usr"; "local"; "sbin"]].

Definition find_tool (search : option (list path)) (name : string) : M path :=
  found ← find_in_path search name;
  match found with
  | Some p => mret p
  | None =>
      other ← first_existing ((fun d => d /: name) <$> TOOL_DIRS);
      context other (name +:+ " not found; install e2fsprogs to resize the rootfs")
  end.

Definition ensure_rootfs_min_size (search : option (list path)) (p : path) (min_size : N) (block : nat) : M unit :=
  n ← metadata p;
  if (min_size <=? node_len n)%N then mret tt
  else
    _ ← set_len p (N.to_nat min_size);
    _ ← find_tool search "e2fsck";
    code ← e2fsck p;
    _ ← match code with
        | Some code => if (Z.land code (Z.lnot 3) =? 0)%Z then mret tt else bail "e2fsck failed"
        | None => bail "e2fsck failed"
        end;
    _ ← find_tool search "resize2fs";
    _ ← run_status (resize2fs p) "resize2fs";
    punch_holes p block.

Definition validate_managed_rootfs (p : path) (min_size : N) : M unit :=
  n ← metadata p;
  if (node_len n <? min_size)%N then bail "rootfs is smaller than expected"
  else
    block_size ← ext4_block_size p;
    if bool_decide (block_size = REQUIRED_EXT4_BLOCK_SIZE) then mret tt
    else bail "rootfs has another ext4 block size than the 16K-page DAX kernel needs".

Definition validate_managed_rootfs_at (p : path) : M unit := validate_managed_rootfs p DEFAULT_ROOTFS_SIZE.

(** ** Instances *)

Definition default_rootfs (l : layout) : path := lo_base l /: "cache" /: "rootfs.ext4".

(** [create_dir] of init.rs *)
Definition make_dir (p : path) : M unit :=
  there ← path_exists p;
  if (there : bool) then mret tt else create_dir_all p.

Definition ensure_base_ignored (base : path) : M unit :=
  _ ← create_dir_all base;
  there ← path_exists (base /: ".gitignore");
  if (there : bool) then mret tt else fs_write (base /: ".gitignore") (to_bytes ("*" +:+ NEWLINE)).

Definition copy_if_needed (src dest : path) : M unit :=
  there ← path_exists dest;
  if (there : bool) then mret tt
  else
    _ ← match parent dest with Some d => create_dir_all d | None => mret tt end;
    clone_or_copy_file src dest.

Definition install_kernel (l : layout) (kernel : path) : M unit := copy_if_needed kernel (lo_kernel l).

Definition dir_has_instance_state (instance_dir : path) : M bool :=
  there ← store_exists instance_dir;
  if (there : bool) then mret true else path_exists (instance_dir /: ROOTFS).

Definition instance_has_state (l : layout) : M bool := dir_has_instance_state (lo_instance_dir l).

Context `{Json record, Json manifest, Json instance_descriptor, TempFiles}.
Context (rfc3339 : N -> option string).

Definition instance_rootfs (l : layout) : M (option path) :=
  there ← store_exists (lo_instance_dir l);
  if (there : bool) then
    r ← attempt (latest (lo_instance_dir l));
    mret (match r with inl (Some g) => Some (g_rootfs g) | _ => None end)
  else
    old ← path_exists (lo_instance_dir l /: ROOTFS);
    mret (if (old : bool) then Some (lo_instance_dir l /: ROOTFS) else None).

(** What one turn of the loop comes to under the instance lock. *)
Definition create_first_generation (l : layout) (rootfs : path) : M unit :=
  there ← store_exists (lo_instance_dir l);
  if (there : bool) then mret tt
  else
    staging ← stage (lo_instance_dir l);
    _ ← clone_or_copy_file rootfs (s_dir staging /: ROOTFS);
    _ ← initialize (lo_instance_dir l) staging;
    mret tt.

(** One turn of the loop: what taking the lock comes to, and what other
    commands do until the next one. *)
Record turn := mk_turn { tn_locked : bool + error; tn_others : M unit }.

(** The loop; [turns] are the turns the deadline leaves after this one. *)
Fixpoint await_created (t : turn) (turns : list turn) (l : layout) (rootfs : path) : M unit :=
  created ← with_exclusive_instance_state (tn_locked t) (create_first_generation l rootfs);
  match created with
  | Some _ => mret tt
  | None =>
      there ← instance_has_state l;
      if (there : bool) then mret tt
      else
        match turns with
        | [] => bail "instance was still being created by another command"
        | t' :: turns' => _ ← tn_others t; await_created t' turns' l rootfs
        end
  end.

Definition ensure_instance_from (t : turn) (turns : list turn) (l : layout) (rootfs : path) : M unit :=
  _ ← ensure_base_ignored (lo_base l);
  _ ← make_dir (lo_instance_dir l);
  there ← instance_has_state l;
  if (there : bool) then mret tt
  else
    _ ← ensure_identity rfc3339 l ("clone:" +:+ path_text rootfs);
    await_created t turns l rootfs.

Definition init_run (search : option (list path)) (t : turn) (turns : list turn) (l : layout) (kernel rootfs : option path) : M unit :=
  _ ← make_dir (lo_base l);
  _ ← ensure_base_ignored (lo_base l);
  cache ← context (parent (default_rootfs l)) "rootfs path has no parent directory";
  _ ← make_dir cache;
  _ ← match kernel with
      | Some kernel => copy_if_needed kernel (lo_kernel l)
      | None => download_kernel (lo_kernel l)
      end;
  source ← match rootfs with
           | Some rootfs => mret (rootfs, "file:" +:+ path_text rootfs)
           | None =>
               _ ← ensure_release_asset (default_rootfs l) "rootfs.ext4.zst" image_release MatchRelease;
               _ ← ensure_rootfs_min_size search (default_rootfs l) DEFAULT_ROOTFS_SIZE (N.to_nat ZERO_SCAN_BLOCK);
               _ ← validate_managed_rootfs (default_rootfs l) DEFAULT_ROOTFS_SIZE;
               mret (default_rootfs l, "release:" +:+ image_release)
           end;
  _ ← make_dir (lo_instance_dir l);
  _ ← ensure_identity rfc3339 l source.2;
  ensure_instance_from t turns l source.1.

End assets.
