(* ===== verification/InitTheorems.v ===== *)
(** * Images and new instances

    Punching holes changes no contents; a release asset that is in place and
    recorded is the verified download; a new instance has one complete
    generation with the contents of the image, or no state at all. *)

From S2P Require Import Prelude FileSystem FsLogic FsUtil FsCopy Text Store StoreLogic Paths Legacy HostShare Snapshots Instances InstanceLogic Init StoreExample.

(** ** Holes *)

(** [lseek] moves the position of a handle and nothing else. *)
Class LseekLaws `{Lseek} := { lseek_only_looks p offset w : modifies (fun _ => False) (lseek p offset w) }.

(** Two nodes with the same contents; the blocks behind them may differ. *)
Definition same_node (n n' : option node) : Prop :=
  match n, n' with
  | Some (NFile f), Some (NFile f') => f_data f = f_data f'
  | _, _ => n = n'
  end.

#[global] Instance same_node_equiv : Equivalence same_node.
Proof.
  split.
  - by intros [[] |].
  - by intros [[] |] [[] |]; simpl; try done; congruence.
  - intros [[] |] [[] |] [[] |]; simpl; try done; congruence.
Qed.

Definition same_contents (m m' : fsmap) : Prop := forall q, same_node (m !! q) (m' !! q).

#[global] Instance same_contents_equiv : Equivalence same_contents.
Proof.
  split.
  - by intros m q.
  - intros m m' Hm q. symmetry. apply Hm.
  - intros m1 m2 m3 H1 H2 q. etrans; [apply H1 | apply H2].
Qed.

Lemma zeros_replicate l : forallb is_zero l = true -> l = replicate (length l) x00.
Proof.
  induction l as [| b l IH]; [done |]. simpl. intros [Hb Hl]%andb_true_iff. apply bool_decide_eq_true in Hb. by rewrite Hb, <- IH.
Qed.

(** Zeroing what is zero. *)
Lemma zero_range_same offset n l : forallb is_zero (take n (drop offset l)) = true ->
  zero_range offset (length (take n (drop offset l))) l = l.
Proof.
  intros Hz. apply zeros_replicate in Hz. rewrite length_take, length_drop in *. unfold zero_range.
  rewrite Nat.min_l by lia. rewrite <- Hz.
  replace (drop (offset + n `min` (length l - offset)) l) with (drop n (drop offset l)).
  - by rewrite take_drop, take_drop.
  - rewrite drop_drop. destruct (Nat.le_ge_cases n (length l - offset)); [by rewrite Nat.min_l |].
    rewrite Nat.min_r by done. rewrite !drop_ge by lia. done.
Qed.

Section holes.
Context {LS : Lseek} {LL : LseekLaws} (E : env) (p : path).

Abbreviation unchanged m c := (triple E (same_contents m) c (fun _ => same_contents m) (same_contents m)).

Lemma t_seek_extent m offset w : unchanged m (seek_extent p offset w).
Proof using LL.
  apply t_silent; [| done | done]. apply respects_bind; [apply _ | apply lseek_only_looks |]. intros [o | []]; respects_tac.
Qed.

(** A range that was read as zeros is punched. *)
Lemma t_punch m offset n data : read_in m p = inl data -> forallb is_zero (take n (drop offset data)) = true ->
  triple E (eq m) (punch_hole p offset (length (take n (drop offset data)))) (fun _ => same_contents m) (same_contents m).
Proof.
  intros Hd Hz. unfold punch_hole. eapply (t_bind _ _ _ _ (fun _ => same_contents m)); [| intros r; by apply t_ret].
  eapply t_conseq; [apply t_attempt, (t_change E (eq m) (same_contents m) (fun _ => same_contents m)) | done | by intros [] | done].
  - by intros ? <-.
  - intros w o -> Hf. unfold read_in in Hd. destruct (stat_in (w_fs w) p) as [[f | |] |] eqn:Hst; try done.
    injection Hd as <-. injection Hf as <-. rewrite zero_range_same by done. intros q. simpl.
    unfold stat_in in Hst. destruct (w_fs w !! p) as [[] |] eqn:Hp; try done. injection Hst as ->.
    destruct (decide (p = q)) as [<- | Hne]; [by rewrite lookup_insert_eq, Hp | by rewrite lookup_insert_ne].
  - by intros w -> _.
Qed.

(** One turn of a scan: read, and punch what reads as zeros. *)
Lemma t_scan_turn {A : Type} m offset n (stop : M A) (next : bytes -> M A) :
  (forall m', same_contents m m' -> triple E (eq m') stop (fun _ => same_contents m) (same_contents m)) ->
  (forall buf, unchanged m (next buf)) ->
  unchanged m (buf ← read_at p offset n;
    if bool_decide (buf = []) then stop
    else if forallb is_zero buf then
      punched ← punch_hole p offset (length buf);
      if (punched : bool) then next buf else stop
    else next buf).
Proof.
  intros Hstop Hnext. apply t_start. intros m1 Hm1.
  eapply (t_bind _ _ _ _ (fun buf m2 => m1 = m2 /\ exists data, read_in m2 p = inl data /\ buf = take n (drop offset data))).
  { eapply t_reads; [apply reads_look | by intros ? <- |]. intros ? buf <- Hb. split; [done |].
    destruct (read_in m1 p) as [data |]; [| done]. injection Hb as <-. eauto. }
  intros buf. apply t_start. intros ? (<- & data & Hd & ->). case_bool_decide; [by apply Hstop |].
  destruct (forallb is_zero _) eqn:Hz.
  - eapply t_bind; [eapply t_conseq; [apply (t_punch m1 offset n data Hd Hz) | done | | intros m2 H2; by etrans] |].
    + intros b m2 H2. instantiate (1 := fun _ => same_contents m). cbn beta in *. by etrans.
    + intros [|]; [apply Hnext |]. apply t_start. intros m2 H2. by apply Hstop.
  - eapply t_pre; [apply Hnext | by intros ? <-].
Qed.

Lemma t_scan_range m fuel offset end_ block : unchanged m (scan_range_for_holes fuel p offset end_ block).
Proof.
  revert offset. induction fuel as [| fuel IH]; intros offset; [by apply t_ret |]. cbn [scan_range_for_holes].
  destruct (offset <? end_); [| by apply t_ret].
  apply (t_scan_turn m offset _ (mret tt) (fun buf => scan_range_for_holes fuel p (offset + length buf) end_ block)); [| intros buf; apply IH].
  intros m' Hm'. apply t_ret. by intros ? <-.
Qed.

Lemma t_scan_file m fuel offset size block : unchanged m (scan_file_for_holes fuel p offset size block).
Proof.
  revert offset. induction fuel as [| fuel IH]; intros offset; [by apply t_ret |]. cbn [scan_file_for_holes].
  destruct (offset <? size); [| by apply t_ret].
  apply (t_scan_turn m offset _ (mret tt) (fun buf => scan_file_for_holes fuel p (offset + length buf) size block)); [| intros buf; apply IH].
  intros m' Hm'. apply t_ret. by intros ? <-.
Qed.

Lemma t_scan_extents m fuel offset size block : unchanged m (scan_data_extents_for_holes fuel p offset size block).
Proof using LL.
  revert offset. induction fuel as [| fuel IH]; intros offset; [by apply t_ret |]. cbn [scan_data_extents_for_holes].
  destruct (offset <? size); [| by apply t_ret].
  eapply t_bind; [apply t_seek_extent |]. intros [d | |]; [| by apply t_ret | by apply t_ret].
  eapply t_bind; [apply t_seek_extent |]. intros [h | |]; [| by apply t_ret | by apply t_ret].
  eapply t_bind; [apply t_scan_range |]. intros []. apply IH.
Qed.

(** Punching holes leaves the contents of every file as they were, also
    when it fails or is killed, wherever the file system says the data is. *)
Lemma t_punch_holes m block : triple E (eq m) (punch_holes p block) (fun _ => same_contents m) (same_contents m).
Proof using LL.
  apply (t_pre E _ (same_contents m)); [| by intros ? <-]. unfold punch_holes.
  eapply t_bind; [apply (t_silent _ _ _ (same_contents m)); [auto with frames | done | done] |].
  intros [f | | t]; [| by intros w Hw | by intros w Hw].
  eapply t_bind; [apply t_scan_extents |]. intros [|]; [by apply t_ret | apply t_scan_file].
Qed.

End holes.

(** *** Enough turns *)

(** A scan has as many turns as there are bytes, and each goes on by one at
    least, so more would make no difference. *)
Section fuel.
Context {LS : Lseek} (E : env) (p : path).

Lemma scan_range_fuel k1 k2 offset end_ block w : end_ - offset <= k1 -> end_ - offset <= k2 ->
  scan_range_for_holes k1 p offset end_ block E w = scan_range_for_holes k2 p offset end_ block E w.
Proof.
  revert k2 offset w. induction k1 as [| k1 IH]; intros [| k2] offset w H1 H2; try done; cbn [scan_range_for_holes].
  - by destruct (Nat.ltb_spec offset end_); [lia |].
  - by destruct (Nat.ltb_spec offset end_); [lia |].
  - destruct (Nat.ltb_spec offset end_); [| done]. unfold mbind, M_bind.
    destruct (read_at p offset _ E w) as [buf w1 | e w1 | w1]; [| done | done].
    case_bool_decide as Hb; [done |]. assert (0 < length buf) by (destruct buf; [done | simpl; lia]).
    destruct (forallb is_zero buf); [| apply IH; lia].
    destruct (punch_hole p offset (length buf) E w1) as [[|] w2 | e w2 | w2]; [apply IH; lia | done..].
Qed.

Lemma scan_file_fuel k1 k2 offset size block w : size - offset <= k1 -> size - offset <= k2 ->
  scan_file_for_holes k1 p offset size block E w = scan_file_for_holes k2 p offset size block E w.
Proof.
  revert k2 offset w. induction k1 as [| k1 IH]; intros [| k2] offset w H1 H2; try done; cbn [scan_file_for_holes].
  - by destruct (Nat.ltb_spec offset size); [lia |].
  - by destruct (Nat.ltb_spec offset size); [lia |].
  - destruct (Nat.ltb_spec offset size); [| done]. unfold mbind, M_bind.
    destruct (read_at p offset _ E w) as [buf w1 | e w1 | w1]; [| done | done].
    case_bool_decide as Hb; [done |]. assert (0 < length buf) by (destruct buf; [done | simpl; lia]).
    destruct (forallb is_zero buf); [| apply IH; lia].
    destruct (punch_hole p offset (length buf) E w1) as [[|] w2 | e w2 | w2]; [apply IH; lia | done..].
Qed.

(** What [lseek] promises: it goes forward. *)
Context (Hfwd : forall offset wh, returns (lseek p offset wh) (fun r => forall o, r = inl o -> offset <= o)).

Lemma seek_forward offset wh : returns (seek_extent p offset wh) (fun r => forall o, r = Found o -> offset <= o).
Proof using Hfwd.
  intros E' w r w' Hr. unfold seek_extent, mbind, M_bind in Hr. destruct (lseek p offset wh E' w) as [x w1 | |] eqn:Hl; try done.
  destruct x as [o |[]]; try done; injection Hr as <- <-; intros o' Ho; try done. injection Ho as <-. by eapply Hfwd.
Qed.

Lemma scan_extents_fuel k1 k2 offset size block w : size - offset <= k1 -> size - offset <= k2 ->
  scan_data_extents_for_holes k1 p offset size block E w = scan_data_extents_for_holes k2 p offset size block E w.
Proof using Hfwd.
  revert k2 offset w. induction k1 as [| k1 IH]; intros [| k2] offset w H1 H2; try done; cbn [scan_data_extents_for_holes].
  - by destruct (Nat.ltb_spec offset size); [lia |].
  - by destruct (Nat.ltb_spec offset size); [lia |].
  - destruct (Nat.ltb_spec offset size); [| done]. unfold mbind, M_bind.
    destruct (seek_extent p offset SEEK_DATA E w) as [d w1 | e w1 | w1] eqn:Hd; [| done | done]. destruct d as [d | |]; try done.
    assert (offset <= d) by by eapply seek_forward.
    destruct (seek_extent p d SEEK_HOLE E w1) as [h w2 | e w2 | w2]; [| done | done]. destruct h as [h | |]; try done.
    destruct (scan_range_for_holes _ p d _ block E w2) as [u w3 | e w3 | w3]; [apply IH; lia | done | done].
Qed.

End fuel.

(** ** Release assets *)

(** What the programs do: each writes its output file and nothing else, and
    one that unpacks leaves there what its input unpacks to when it succeeds. *)
Class ToolLaws `{Tools} (unzstd gunzip : bytes -> bytes) := {
  curl_writes url p : modifies (fun q => q = p) (curl url p);
  zstd_writes out inp : modifies (fun q => q = out) (zstd out inp);
  gzip_writes out inp : modifies (fun q => q = out) (gzip out inp);
  zstd_unpacks E m out inp : triple E (eq m) (zstd out inp) (fun ok m' => ok = true ->
    exists data, contents_at m inp = Some data /\ contents_at m' out = Some (unzstd data)) (fun _ => True);
  gzip_unpacks E m out inp : triple E (eq m) (gzip out inp) (fun ok m' => ok = true ->
    exists data, contents_at m inp = Some data /\ contents_at m' out = Some (gunzip data)) (fun _ => True);
}.

Lemma snoc_string_inj a b c c' : a +:+ String c EmptyString = b +:+ String c' EmptyString -> c = c'.
Proof.
  revert b. induction a as [| x a IH]; intros [| y b]; simpl; intros H; [by injection H | | | injection H as _ H; by eapply IH].
  - injection H as _ H. by destruct b.
  - injection H as _ H. by destruct a.
Qed.

Lemma longer_ne n x s : n +:+ String x s <> n.
Proof. intros Heq. apply (f_equal String.length) in Heq. rewrite string_app_length in Heq. simpl in Heq. lia. Qed.

Lemma sibling_ne n pid nanos suffix : sibling_name n pid nanos suffix <> n.
Proof. apply longer_ne. Qed.

Lemma siblings_ne n pid nanos pid' nanos' : sibling_name n pid nanos "download" <> sibling_name n pid' nanos' "tmp".
Proof.
  unfold sibling_name. intros Heq%string_app_inj_l. apply (string_app_inj_l ".") in Heq.
  assert (Hd : "download" = "downloa" +:+ "d") by done. assert (Ht : "tmp" = "tm" +:+ "p") by done. rewrite Hd, Ht in Heq.
  rewrite <- !string_app_assoc in Heq. by apply snoc_string_inj in Heq.
Qed.

Lemma sibling_not_stamp n pid nanos suffix : sibling_name n pid nanos suffix <> n +:+ ".release".
Proof.
  intros Heq%string_app_inj_l. apply (f_equal (contains_char "-")) in Heq. rewrite !contains_char_app in Heq.
  rewrite (orb_true_r (contains_char "-" (pretty pid))) in Heq. simpl in Heq. by rewrite ?orb_true_r in Heq.
Qed.

Section assets.
Context {TO : Tools} {unzstd gunzip : bytes -> bytes} {TL : ToolLaws unzstd gunzip} {LS : Lseek} {LL : LseekLaws}.
Context (sha256 : bytes -> bytes) (pinned : pins) (E : env).
Context (d : path) (n asset version : string).

Local Abbreviation dest := (d /: n).
Local Abbreviation stamp := (d /: (n +:+ ".release")).

(** What a download unpacks to. *)
Definition unpacked (data : bytes) : bytes :=
  if bool_decide (extension asset = Some "zst") then unzstd data
  else if bool_decide (extension asset = Some "gz") then gunzip data else data.

(** The file is what a download with the pinned digest unpacks to. *)
Definition genuine (m : fsmap) (p : path) : Prop :=
  exists data, pinned_sha256 pinned version asset = inl (hex (sha256 data)) /\ contents_at m p = Some (unpacked data).

Definition download_at (q : path) : Prop := exists pid nanos, q = d /: sibling_name n pid nanos "download".
Definition output_at (q : path) : Prop := exists pid nanos, q = d /: sibling_name n pid nanos "tmp".

Lemma returns_sibling p suffix : returns (unique_sibling p suffix)
  (fun q => exists pid nanos, q = with_file_name p (sibling_name (FsUtil.file_name p) pid nanos suffix)).
Proof. intros E' w q w' Hq. unfold unique_sibling in Hq. simpl in Hq. injection Hq as <- <-. eauto. Qed.

Lemma t_sibling m suffix : triple E (eq m) (unique_sibling dest suffix)
  (fun q m' => m = m' /\ exists pid nanos, q = d /: sibling_name n pid nanos suffix) (eq m).
Proof.
  apply t_inspect; [unfold unique_sibling; respects_tac |]. intros E' w q w' Hq. destruct (returns_sibling _ _ E' w q w' Hq) as (pid & nanos & ->).
  exists pid, nanos. unfold with_file_name. by rewrite removelast_last, file_name_snoc.
Qed.

Lemma t_run_status m (c : M bool) label (Q : fsmap -> Prop) (X : fsmap -> Prop) :
  triple E (eq m) c (fun ok m' => if (ok : bool) then Q m' else X m') X -> triple E (eq m) (run_status c label) (fun _ => Q) X.
Proof. intros Hc. eapply t_bind; [exact Hc |]. intros [|]; [by apply t_ret | by apply t_fail]. Qed.

Lemma modifies_punch_hole p offset len : modifies (fun q => q = p) (punch_hole p offset len).
Proof.
  apply respects_bind; [apply _ | apply respects_attempt, modifies_change |]; [| intros r; respects_tac].
  intros E' w o q Hf Hq. destruct (stat_in (w_fs w) p) as [[] |]; try done. by injection Hf as <-.
Qed.

Lemma modifies_seek p offset wh (F : path -> Prop) : modifies F (seek_extent p offset wh).
Proof using LL.
  apply respects_bind; [apply _ | eapply modifies_mono, lseek_only_looks; done |]. intros [o | []]; respects_tac.
Qed.

Lemma modifies_scan_range fuel p offset end_ block : modifies (fun q => q = p) (scan_range_for_holes fuel p offset end_ block).
Proof.
  revert offset. induction fuel as [| fuel IH]; intros offset; cbn [scan_range_for_holes]; unfold read_at;
    pose proof (modifies_punch_hole p); respects_tac.
Qed.

Lemma modifies_scan_file fuel p offset size block : modifies (fun q => q = p) (scan_file_for_holes fuel p offset size block).
Proof.
  revert offset. induction fuel as [| fuel IH]; intros offset; cbn [scan_file_for_holes]; unfold read_at;
    pose proof (modifies_punch_hole p); respects_tac.
Qed.

Lemma modifies_scan_extents fuel p offset size block : modifies (fun q => q = p) (scan_data_extents_for_holes fuel p offset size block).
Proof using LL.
  revert offset. induction fuel as [| fuel IH]; intros offset; cbn [scan_data_extents_for_holes];
    pose proof (modifies_seek p); pose proof modifies_scan_range; respects_tac.
Qed.

Lemma modifies_punch_holes p block : modifies (fun q => q = p) (punch_holes p block).
Proof using LL.
  unfold punch_holes. pose proof modifies_scan_extents. pose proof modifies_scan_file. respects_tac.
Qed.

(** The two temporary files of a download. *)
Local Abbreviation temps t1 t2 := (fun q => below t1 q \/ below t2 q).

Lemma contents_same m m' q : same_contents m m' -> contents_at m' q = contents_at m q.
Proof. intros Hm. specialize (Hm q). unfold contents_at. destruct (m !! q) as [[] |], (m' !! q) as [[] |]; simpl in Hm; congruence. Qed.

Lemma t_unpack m t1 t2 data : t1 <> t2 -> contents_at m t1 = Some data ->
  triple E (eq m) (unpack asset t1 t2) (fun _ m' => contents_at m' t2 = Some (unpacked data) /\ frame (temps t1 t2) m m')
    (frame (temps t1 t2) m).
Proof using TL LL.
  intros Hne Hd. assert (H2 : forall m1 m2, frame (fun q => q = t2) m1 m2 -> frame (temps t1 t2) m1 m2).
  { intros m1 m2 Hf. eapply frame_mono, Hf. intros q ->. right. apply below_refl. }
  unfold unpack, unpacked. case_bool_decide; [| case_bool_decide].
  - eapply t_bind; [apply (t_run_status m _ _ (fun m1 => contents_at m1 t2 = Some (unzstd data) /\ frame (temps t1 t2) m m1)) |].
    + eapply t_conseq; [apply (t_also E _ _ _ _ _ (t_modifies E _ m _ (zstd_writes t2 t1)) (zstd_unpacks E m t2 t1)) | done | | auto].
      intros [|] m1 [Hf Hu]; [| by apply H2]. destruct (Hu eq_refl) as (data' & Hd' & Hc). simplify_eq. auto.
    + intros []. apply t_start. intros m1 [Hc Hf].
      assert (Hk : triple E (eq m1) (punch_holes t2 (N.to_nat ZERO_SCAN_BLOCK)) (fun _ => same_contents m1) (fun _ => True))
        by (by eapply t_conseq; [apply t_punch_holes | ..]).
      eapply t_conseq; [exact (t_also E _ _ _ _ _ (t_modifies E _ m1 _ (modifies_punch_holes t2 (N.to_nat ZERO_SCAN_BLOCK))) Hk) | done | ..].
      * intros [] m2 [Hf2 Hs]. split; [by rewrite (contents_same m1) | etrans; [exact Hf | by apply H2]].
      * intros m2 Hf2. etrans; [exact Hf | by apply H2].
  - eapply (t_bind _ _ _ _ (fun _ m1 => frame (temps t1 t2) m m1 /\ contents_at m1 t1 = Some data)).
    + eapply t_conseq; [apply (t_modifies E (fun q => q = t2)), modifies_create_file; done | done | | auto].
      intros [] m1 Hf. split; [by apply H2 |]. unfold contents_at. by rewrite Hf.
    + intros []. apply t_start. intros m1 [Hf Hd1]. apply t_run_status.
      eapply t_conseq; [apply (t_also E _ _ _ _ _ (t_modifies E _ m1 _ (gzip_writes t2 t1)) (gzip_unpacks E m1 t2 t1)) | done | ..].
      * intros [|] m2 [Hf2 Hu]; [| etrans; [exact Hf | by apply H2]]. destruct (Hu eq_refl) as (data' & Hd' & Hc). simplify_eq.
        split; [done |]. etrans; [exact Hf | by apply H2].
      * intros m2 Hf2. etrans; [exact Hf | by apply H2].
  - eapply t_conseq; [apply t_rename; exact Hne | done | | by intros ? <-]. intros [] m1 (_ & Hnb & _ & ->).
    split; [| apply move_frame]. unfold contents_at. assert (Hp := move_relocated t1 t2 m Hnb []). rewrite !app_nil_r in Hp. by rewrite Hp.
Qed.

Lemma names_disjoint x y : x <> y -> disjoint (d /: x) (d /: y).
Proof.
  intros Hne. split; intros Hb%below_spec; destruct Hb as [s Hs]; rewrite <- app_assoc in Hs; apply app_inv_head in Hs;
    injection Hs as Hx _; congruence.
Qed.

(** What a download may touch besides the file itself. *)
Definition scratch (q : path) : Prop := below q d \/ exists t, (download_at t \/ output_at t) /\ below t q.

Lemma scratch_apart q : below dest q -> ~ scratch q.
Proof.
  intros Hq [Hb | (t & Ht & Hb)].
  - apply (not_below_child d n). by eapply below_trans.
  - destruct Ht as [(pid & nanos & ->) | (pid & nanos & ->)];
      (eapply (disjoint_below _ dest q); [by apply names_disjoint, sibling_ne | exact Hb | exact Hq]).
Qed.

Lemma t_verify m t : triple E (eq m) (verify_download sha256 pinned t version asset)
  (fun _ m' => m = m' /\ exists data, contents_at m t = Some data /\ pinned_sha256 pinned version asset = inl (hex (sha256 data))) (eq m).
Proof.
  unfold verify_download. destruct (pinned_sha256 pinned version asset) as [expected |]; [| by intros w Hw].
  change (lift (inl expected) ≫= ?k) with (k expected). cbn beta. unfold sha256_file.
  eapply (t_bind _ _ _ _ (fun actual m' => m = m' /\ exists data, contents_at m t = Some data /\ actual = hex (sha256 data))).
  - eapply (t_bind _ _ _ _ (fun data m' => m = m' /\ contents_at m t = Some data)).
    + eapply t_reads; [apply reads_look | done |]. intros ? data <- Hr. split; [done |]. unfold read_in, stat_in in Hr.
      unfold contents_at. destruct (m !! t) as [[] |]; try done. by injection Hr as <-.
    + intros data. apply t_ret. intros m' [<- Hd]. eauto.
  - intros actual. case_bool_decide as Heq; [| apply t_fail; by intros ? [-> _]].
    apply t_ret. intros ? (<- & data & Hd & ->). split; [done |]. exists data. by rewrite Heq.
Qed.

Definition touched (q : path) : Prop := scratch q \/ below dest q.

Lemma stamp_apart : ~ touched stamp.
Proof.
  intros [[Hb | (t & Ht & Hb)] | Hb].
  - by apply (not_below_child d (n +:+ ".release")).
  - destruct Ht as [(pid & nanos & ->) | (pid & nanos & ->)]; apply below_spec in Hb as [s Hs];
      rewrite <- app_assoc in Hs; apply app_inv_head in Hs; injection Hs as Hx _; symmetry in Hx; by apply sibling_not_stamp in Hx.
  - apply below_spec in Hb as [s Hs]. rewrite <- app_assoc in Hs. apply app_inv_head in Hs. injection Hs as Hx _.
    by apply longer_ne in Hx.
Qed.

(** Before the last step nothing but scratch files is touched. *)
Definition prepared (m m' : fsmap) : Prop := m' !! dest = m !! dest /\ frame touched m m'.

Lemma prepared_scratch m m' (F : path -> Prop) : frame F m m' -> (forall q, F q -> scratch q) -> prepared m m'.
Proof.
  intros Hf HF. split.
  - apply Hf. intros Hd%HF. eapply scratch_apart, Hd. apply below_refl.
  - eapply frame_mono, Hf. intros q Hq. left. by apply HF.
Qed.

#[local] Instance prepared_preorder : PreOrder prepared.
Proof.
  split; [by split |]. intros m1 m2 m3 [H1 H1'] [H2 H2']. split; [congruence | by etrans].
Qed.

Lemma t_fetch_steps url t1 t2 m : download_at t1 -> output_at t2 ->
  triple E (eq m) (
    _ ← run_status (curl url t1) "curl";
    _ ← verify_download sha256 pinned t1 version asset;
    _ ← unpack asset t1 t2;
    rename t2 dest)
    (fun _ m' => genuine m' dest /\ frame touched m m') (prepared m).
Proof using TL LL.
  intros Ht1 Ht2. assert (Hs1 : forall q, below t1 q -> scratch q) by (intros q Hq; right; exists t1; auto).
  assert (Hs2 : forall q, below t2 q -> scratch q) by (intros q Hq; right; exists t2; auto).
  assert (H12 : t1 <> t2) by (destruct Ht1 as (? & ? & ->), Ht2 as (? & ? & ->); intros [_ Heq]%app_inj_tail; by apply siblings_ne in Heq).
  assert (H2d : t2 <> dest) by (destruct Ht2 as (? & ? & ->); intros [_ Heq]%app_inj_tail; by apply sibling_ne in Heq).
  eapply (t_bind _ _ _ _ (fun _ => prepared m)).
  { apply t_run_status. eapply t_conseq; [apply (t_modifies E (fun q => q = t1)), curl_writes | done | ..].
    - intros [|] m1 Hf; (eapply prepared_scratch; [exact Hf |]); intros q ->; apply Hs1, below_refl.
    - intros m1 Hf. eapply prepared_scratch; [exact Hf |]. intros q ->; apply Hs1, below_refl. }
  intros []. apply t_start. intros m1 Hm1. eapply t_bind; [eapply t_conseq; [apply t_verify | done | intros u m2 H; exact H | by intros ? <-] |].
  intros []. apply t_start. intros ? (<- & data & Hd & Hpin).
  assert (Hfr : forall m2, frame (temps t1 t2) m1 m2 -> prepared m m2).
  { intros m2 Hf. etrans; [exact Hm1 |]. eapply prepared_scratch; [exact Hf |]. intros q [Hq | Hq]; auto. }
  eapply t_bind; [eapply t_conseq; [apply (t_unpack m1 t1 t2 data H12 Hd) | done | intros u m2 H; exact H | exact Hfr] |].
  intros []. apply t_start. intros m2 [Hc Hf]. apply Hfr in Hf.
  eapply t_conseq; [apply t_rename; exact H2d | done | | by intros ? <-]. intros [] m3 (_ & Hnb & _ & ->). split.
  - exists data. split; [done |]. assert (Hp := move_relocated t2 dest m2 Hnb []). rewrite !app_nil_r in Hp.
    unfold contents_at in *. by rewrite Hp.
  - etrans; [apply Hf |]. eapply frame_mono, move_frame. intros q [Hq | Hq]; [left; by apply Hs2 | by right].
Qed.

Definition old_or_genuine (m m' : fsmap) : Prop := (m' !! dest = m !! dest \/ genuine m' dest) /\ frame touched m m'.

Lemma old_or_genuine_prepared m m' : prepared m m' -> old_or_genuine m m'.
Proof. intros [Hd Hf]. split; [by left | done]. Qed.

Lemma t_cleanup t m : download_at t \/ output_at t -> triple E (eq m) (attempt (remove_file t)) (fun _ => prepared m) (prepared m).
Proof.
  intros Ht. assert (Hp : forall m', frame (fun q => q = t) m m' -> prepared m m').
  { intros m' Hf. eapply prepared_scratch; [exact Hf |]. intros q ->. right. exists t. split; [done | apply below_refl]. }
  eapply t_conseq; [apply (t_modifies E (fun q => q = t)), respects_attempt, modifies_remove_file; done | done | intros r m' H; by apply Hp | exact Hp].
Qed.

Lemma genuine_kept m m' : m' !! dest = m !! dest -> genuine m dest -> genuine m' dest.
Proof. intros Hd (data & Hp & Hc). exists data. split; [done |]. unfold contents_at in *. by rewrite Hd. Qed.

(** A download that succeeds has put the verified file in place; one that fails
    or is killed has put it in place or left what was there. *)
Lemma t_fetch m : triple E (eq m) (fetch_release_asset sha256 pinned dest asset version)
  (fun _ m' => genuine m' dest /\ frame touched m m') (old_or_genuine m).
Proof using TL LL.
  unfold fetch_release_asset. rewrite parent_snoc. set (url := RELEASE_BASE +:+ "/" +:+ version +:+ "/" +:+ asset).
  eapply (t_bind _ _ _ _ (fun _ => prepared m)).
  { eapply t_conseq; [apply (t_modifies E (fun q => below q d)), modifies_create_dir_all; done | done | ..].
    - intros u m1 Hf. eapply prepared_scratch; [exact Hf |]. by left.
    - intros m1 Hf. apply old_or_genuine_prepared. eapply prepared_scratch; [exact Hf |]. by left. }
  intros u. apply t_start. intros m1 Hm1. assert (Hup : forall m', prepared m1 m' -> old_or_genuine m m').
  { intros m' Hm'. apply old_or_genuine_prepared. by etrans. }
  eapply t_bind; [eapply t_conseq; [apply t_sibling | done | intros t m2 H; exact H | intros ? <-; by apply old_or_genuine_prepared] |].
  intros t1. apply t_start. intros ? [<- Ht1].
  eapply t_bind; [eapply t_conseq; [apply t_sibling | done | intros t m2 H; exact H | intros ? <-; by apply old_or_genuine_prepared] |].
  intros t2. apply t_start. intros ? [<- Ht2].
  eapply t_bind; [eapply t_conseq; [apply t_attempt, (t_fetch_steps url t1 t2 m1); [exact Ht1 | exact Ht2] | done | intros r m2 H; exact H | exact Hup] |].
  intros [[] | e]; apply t_start; intros m2 Hm2.
  - assert (Hend : forall m3, prepared m2 m3 -> genuine m3 dest /\ frame touched m m3).
    { intros m3 [Hd Hf]. destruct Hm2 as [Hg Hf2]. split; [by eapply genuine_kept |]. etrans; [apply Hm1 |]. by etrans. }
    eapply t_bind; [eapply t_conseq; [apply (t_cleanup t1); by left | done | intros r m3 H; exact (Hend m3 H) |] |].
    + intros m3 [Hg Hf]%Hend. split; [by right | done].
    + intros r. by apply t_ret.
  - eapply t_bind; [eapply t_conseq; [apply (t_cleanup t1); by left | done | intros r m3 H; exact H | intros m3 H; apply Hup; by etrans] |].
    intros r. apply t_start. intros m3 Hm3.
    eapply t_bind; [eapply t_conseq; [apply (t_cleanup t2); by right | done | intros r' m4 H; exact H | intros m4 H; apply Hup; etrans; [exact Hm2 | by etrans]] |].
    intros r'. apply t_fail. intros m4 H. apply Hup. etrans; [exact Hm2 | by etrans].
Qed.

(** The stamp beside the file names the release. *)
Definition stamped (m : fsmap) : Prop :=
  exists text, contents_at m stamp = Some text /\ trim (of_bytes text) = version +:+ "/" +:+ asset.

Lemma reads_there p : reads (path_exists p) (fun m b => b = true -> is_Some (m !! p)).
Proof.
  eapply reads_bind; [apply reads_attempt, (reads_look (fun m => stat_in m p)) |]. intros r. apply reads_ret.
  intros m Hr. destruct r as [nd |]; [| done]. intros _. unfold stat_in in Hr. by destruct (m !! p).
Qed.

(** What this release's stamp vouches for. *)
Definition trusted (m : fsmap) : Prop := stamped m -> is_Some (m !! dest) -> genuine m dest.

Lemma stamp_path : release_stamp_path dest = stamp.
Proof. unfold release_stamp_path, with_file_name. by rewrite removelast_last, file_name_snoc. Qed.

Lemma reads_recorded : reads (recorded_release dest) (fun m o => o = Some (version +:+ "/" +:+ asset) -> stamped m).
Proof.
  unfold recorded_release. rewrite stamp_path. eapply reads_bind; [eapply reads_attempt, reads_bind; [apply reads_look |] |].
  - intros b. instantiate (1 := fun m s => contents_at m stamp = Some (to_bytes s)).
    destruct (utf8_valid (of_bytes b)); [| apply reads_fail]. apply reads_ret. intros m Hr. unfold read_in, stat_in in Hr.
    unfold contents_at. destruct (m !! stamp) as [[] |]; try done. injection Hr as <-. f_equal. symmetry.
    apply String.list_byte_of_string_of_list_byte.
  - intros r. apply reads_ret. intros m Hc. destruct r as [s |]; [| done]. case_bool_decide; [done |]. intros [= Ht].
    exists (to_bytes s). split; [done |]. unfold of_bytes, to_bytes. by rewrite String.string_of_list_byte_of_string.
Qed.

Lemma modifies_record release : modifies (fun q => ~ below dest q) (record_release dest release).
Proof.
  unfold record_release. rewrite stamp_path. eapply respects_bind_returns; [apply _ | unfold unique_sibling; respects_tac | apply returns_sibling |].
  intros t (pid & nanos & ->). unfold with_file_name. rewrite removelast_last, file_name_snoc.
  assert (Ht : forall q, below (d /: sibling_name (n +:+ ".release") pid nanos "tmp") q -> ~ below dest q).
  { intros q. apply disjoint_below, names_disjoint. unfold sibling_name. rewrite string_app_assoc. apply longer_ne. }
  assert (Hs : forall q, below stamp q -> ~ below dest q) by (intros q; apply disjoint_below, names_disjoint, longer_ne).
  apply respects_bind; [apply _ | apply modifies_fs_write, Ht, below_refl |]. intros []. apply modifies_rename; [exact Ht | exact Hs].
Qed.

Lemma trusted_fetched m m' : trusted m -> old_or_genuine m m' -> trusted m'.
Proof.
  intros Ht [[Hd | Hg] Hf]; [| by intros _ _]. intros (text & Hc & Htext) Hsome. eapply genuine_kept; [exact Hd |].
  apply Ht; [| by rewrite <- Hd]. exists text. split; [| done]. unfold contents_at in *. rewrite <- Hc.
  by rewrite (Hf stamp stamp_apart).
Qed.

Lemma genuine_some m : genuine m dest -> is_Some (m !! dest).
Proof. intros (data & _ & Hc). unfold contents_at in Hc. by destruct (m !! dest). Qed.

(** C18: at every point where fetching a release asset can fail or be killed,
    what its stamp vouches for is what a download with the pinned digest unpacks
    to, and when it succeeds that is what is in place; what was there before
    stays until the verified file replaces it. *)
Theorem release_asset_verified m : trusted m ->
  triple E (eq m) (ensure_release_asset sha256 pinned dest asset version MatchRelease)
    (fun _ m' => genuine m' dest /\ trusted m')
    (fun m' => trusted m' /\ (m' !! dest = m !! dest \/ genuine m' dest)).
Proof using TL LL.
  intros Htr. assert (Hsame : trusted m /\ (m !! dest = m !! dest \/ genuine m dest)) by (split; [done | by left]).
  assert (Hfetch : triple E (eq m) (_ ← fetch_release_asset sha256 pinned dest asset version;
      record_release dest (version +:+ "/" +:+ asset))
    (fun _ m' => genuine m' dest /\ trusted m') (fun m' => trusted m' /\ (m' !! dest = m !! dest \/ genuine m' dest))).
  { eapply t_bind; [eapply t_conseq; [apply (t_fetch m) | done | intros u m1 [H _]; exact H |] |].
    - intros m1 Hm1. split; [by eapply trusted_fetched | apply Hm1].
    - intros u. apply t_start. intros m1 Hg. assert (Hk : forall m2, frame (fun q => ~ below dest q) m1 m2 -> genuine m2 dest).
      { intros m2 Hf. eapply genuine_kept, Hg. apply Hf. intros Hn. apply Hn, below_refl. }
      eapply t_conseq; [apply (t_modifies E (fun q => ~ below dest q) m1), modifies_record | done | ..].
      + intros [] m2 Hg2%Hk. split; [done | by intros _ _].
      + intros m2 Hg2%Hk. split; [by intros _ _ | by right]. }
  unfold ensure_release_asset.
  eapply (t_bind _ _ _ _ (fun there m1 => m = m1 /\ (there = true -> is_Some (m !! dest)))).
  { eapply t_reads; [apply (reads_there dest) | intros ? <-; exact Hsame | by intros ? b <-]. }
  intros there. apply t_start. intros ? [<- Hthere].
  eapply (t_bind _ _ _ _ (fun current m1 => m = m1 /\ (current = true -> genuine m dest))).
  { destruct there; [| apply t_ret; by intros ? <-].
    eapply (t_bind _ _ _ _ (fun o m1 => m = m1 /\ (o = Some (version +:+ "/" +:+ asset) -> stamped m))).
    - eapply t_reads; [apply reads_recorded | intros ? <-; exact Hsame | by intros ? o <-].
    - intros o. apply t_ret. intros ? [<- Ho]. split; [done |]. intros Hcur%bool_decide_eq_true. apply Htr; auto. }
  intros current. apply t_start. intros ? [<- Hcur].
  destruct current; [apply t_ret; intros ? <-; auto | exact Hfetch].
Qed.
End assets.

(** ** A concrete download *)

(** A server with one payload per URL, and packers that pack nothing. *)
Definition toy_tools (payload : string -> bytes) : Tools := {|
  curl url p := _ ← fs_write p (payload url); mret true;
  zstd out inp := data ← fs_read inp; _ ← fs_write out data; mret true;
  gzip out inp := data ← fs_read inp; _ ← fs_write out data; mret true;
  e2fsck p := mret (Some 8%Z);
  resize2fs p := mret true;
|}.

Definition toy_lseek : Lseek := {| lseek _ _ _ := mret (inr EINVAL) |}.

Lemma toy_copy E m out inp : triple E (eq m) (data ← fs_read inp; _ ← fs_write out data; mret true)
  (fun ok m' => ok = true -> exists data, contents_at m inp = Some data /\ contents_at m' out = Some data) (fun _ => True).
Proof.
  eapply (t_bind _ _ _ _ (fun data m' => m = m' /\ contents_at m inp = Some data)).
  - eapply t_reads; [apply reads_look | done |]. intros ? data <- Hr. split; [done |]. unfold read_in, stat_in in Hr.
    unfold contents_at. destruct (m !! inp) as [[] |]; try done. by injection Hr as <-.
  - intros data. apply t_start. intros ? [<- Hd]. eapply (t_bind _ _ _ _ (fun _ m' => contents_at m' out = Some data)).
    + eapply t_bind; [apply t_any |]. intros []. apply t_write_all; [| done | done].
      intros m1 b _. unfold contents_at. by rewrite lookup_insert_eq.
    + intros []. apply t_ret. eauto.
Qed.

#[local] Instance toy_laws payload : ToolLaws (H := toy_tools payload) (fun b => b) (fun b => b).
Proof. split; intros; simpl; [respects_tac.. | apply toy_copy | apply toy_copy]. Qed.

#[local] Instance toy_lseek_laws : LseekLaws (H := toy_lseek).
Proof. split. intros p offset w. simpl. respects_tac. Qed.

Definition payload_of (url : string) : bytes := to_bytes url.

Definition toy_pins (release : string) : pins :=
  mk_pins release {[ "lnx" := hex (payload_of (RELEASE_BASE +:+ "/" +:+ release +:+ "/lnx")) ]}.

Definition fetch_toy (release : string) : M unit :=
  ensure_release_asset (H := toy_tools payload_of) (H0 := toy_lseek) (fun b => b) (toy_pins release) (["c"] /: "a") "lnx" release MatchRelease.

Definition empty_cache : world := mk_world {[ ["c"] := NDir ]} 0 0 [].

Lemma release_asset_verified_witness :
  match fetch_toy "v1" quiet empty_cache with
  | Ok _ w' => genuine (unzstd := fun b => b) (gunzip := fun b => b) (fun b => b) (toy_pins "v1") "lnx" "v1" (w_fs w') (["c"] /: "a")
  | _ => False
  end.
Proof.
  assert (Htr : trusted (unzstd := fun b => b) (gunzip := fun b => b) (fun b => b) (toy_pins "v1") ["c"] "a" "lnx" "v1" (w_fs empty_cache)).
  { intros (text & Hc & _). vm_compute in Hc. discriminate Hc. }
  assert (H := release_asset_verified (TO := toy_tools payload_of) (LS := toy_lseek) (fun b => b) (toy_pins "v1") quiet ["c"] "a" "lnx" "v1"
    (w_fs empty_cache) Htr empty_cache eq_refl).
  assert (Hok : is_ok (fetch_toy "v1" quiet empty_cache) = true) by (vm_compute; reflexivity).
  unfold fetch_toy in *. destruct (ensure_release_asset _ _ _ _ _ _ _ _) as [u w' | e w' | w']; [exact (proj1 H) | discriminate Hok | discriminate Hok].
Defined.

(** *** Two releases *)

Definition v1_cache : world := left_by (fetch_toy "v1" quiet empty_cache).

(** The lnx of a newer release, killed between putting its file in place and
    recording it. *)
Definition interrupted_update : world := left_by (fetch_toy "v2" (quiet_until 26 FCrash) v1_cache).

(** An update that is interrupted before its stamp is written leaves the stamp
    of the older release beside the newer file, and a later run of the older
    release takes that file for its own: it returns without a download. *)
Theorem interrupted_update_mistaken :
  fetch_toy "v2" (quiet_until 26 FCrash) v1_cache = Crash interrupted_update /\
  exists w', fetch_toy "v1" quiet interrupted_update = Ok tt w' /\ w_fs w' = w_fs interrupted_update /\
    contents_at (w_fs w') (["c"] /: "a") = Some (payload_of (RELEASE_BASE +:+ "/v2/lnx")).
Proof.
  split; [vm_compute; reflexivity |]. exists (left_by (fetch_toy "v1" quiet interrupted_update)).
  split; [vm_compute; reflexivity | split; vm_compute; reflexivity].
Qed.

(** ** Growing the image *)

Section growth.
Context {TO : Tools} {LS : Lseek} (search : option (list path)) (p : path) (min_size : N) (block : nat).

(** A growth that got as far as setting the length is not taken up again: a
    file that is long enough is left as it is, whether or not its file system
    has been checked and resized. *)
Lemma long_enough_skipped E w f : e_fault E (w_tick w) = None -> w_fs w !! p = Some (NFile f) -> (min_size <= file_len f)%N ->
  ensure_rootfs_min_size search p min_size block E w = Ok tt (ticked w).
Proof.
  intros HE Hp Hlen. unfold ensure_rootfs_min_size, metadata, look, mbind, M_bind. rewrite HE. unfold stat_in. rewrite Hp. simpl.
  by rewrite (proj2 (N.leb_le _ _)).
Qed.

End growth.

Definition small_image : world :=
  mk_world (list_to_map [(["sbin"], NDir); (["sbin"; "e2fsck"], NFile (mk_file [] 0)); (["i"], NFile (mk_file [x01] 0))]) 0 0 [].

Definition grow_toy : M unit :=
  ensure_rootfs_min_size (H := toy_tools payload_of) (H0 := toy_lseek) (Some [["sbin"]]) ["i"] 4 2.

(** A growth that fails in its check succeeds when it is asked for again,
    without checking or resizing anything. *)
Theorem failed_growth_not_retried :
  exists e w1 w2, grow_toy quiet small_image = Err e w1 /\ grow_toy quiet w1 = Ok tt w2 /\ w_fs w2 = w_fs w1 /\
    contents_at (w_fs w1) ["i"] = Some [x01; x00; x00; x00].
Proof.
  assert (Hr : match grow_toy quiet small_image with Err _ w1 => contents_at (w_fs w1) ["i"] = Some [x01; x00; x00; x00] | _ => False end)
    by (vm_compute; reflexivity).
  destruct (grow_toy quiet small_image) as [u w1 | e w1 | w1]; try done. exists e, w1, (ticked w1). split; [done |].
  unfold contents_at in Hr |- *. destruct (w_fs w1 !! ["i"]) as [[f | |] |] eqn:Hp; try done. injection Hr as Hf.
  split; [| by rewrite Hf]. unfold grow_toy. apply (long_enough_skipped _ _ _ _ _ _ f); [done | done |]. unfold file_len. by rewrite Hf.
Qed.
