(* ===== verification/Cli.v ===== *)
(** * The command line

    The parts of [src/src/cli.rs] that compute: the options that are texts of
    their own ([parse_port_forward], [parse_vhost_user_fs_mount],
    [parse_env_var]), the shape of the VM a command runs in, the settings of an
    instance, the script of a nested deterministic run and its quoting, the
    operands of a copy, the worktree an instance is forked for, and the state
    of [src/src/status.rs]. *)

From S2P Require Import Prelude FileSystem FsLogic FsUtil Store Text Protocol Broker Paths Legacy HostShare.
From S2P Require Import Snapshots Checkpoints Instances Init Locks.

(** ** Options *)

Definition parse_port (value : string) : N + string :=
  match parse_unsigned (2 ^ 16) value with
  | Some n => inl n
  | None => inr ("invalid port: " +:+ value)
  end.

Definition FORWARD_USAGE : string := "expected HOSTPORT:GUESTPORT or LISTEN_HOST:HOSTPORT:GUEST_HOST:GUESTPORT".

Definition parse_port_forward (value : string) : port_forward + string :=
  match split_char ":" value with
  | [lp; gp] =>
      match parse_port lp with
      | inr e => inr e
      | inl l => match parse_port gp with inl g => inl (mk_forward "127.0.0.1" l "127.0.0.1" g) | inr e => inr e end
      end
  | [lh; lp; gh; gp] =>
      match parse_port lp with
      | inr e => inr e
      | inl l => match parse_port gp with inl g => inl (mk_forward lh l gh g) | inr e => inr e end
      end
  | _ => inr FORWARD_USAGE
  end.

Definition READ_ONLY_ONLY : string := "vhost-user fs mounts are read-only only".

(** A byte of a tag *)
Definition tag_byte (c : ascii) : bool :=
  is_ascii_alphanumeric c || bool_decide (c = "."%char) || bool_decide (c = "_"%char) || bool_decide (c = "-"%char).

(** [None] when the mount is accepted. *)
Definition validate_vhost_user_fs_mount (m : vhost_user_fs_mount) : option string :=
  if negb (vh_read_only m) then Some READ_ONLY_ONLY
  else if bool_decide (vh_tag m = EmptyString) || (36 <? String.length (vh_tag m)) then
    Some "vhost-user fs tag must be 1-36 bytes"
  else if negb (string_all tag_byte (vh_tag m)) then
    Some "vhost-user fs tag may only contain letters, numbers, '.', '_', or '-'"
  else if bool_decide (vh_tag m = "home") || bool_decide (vh_tag m = "cwd") then
    Some ("vhost-user fs tag is reserved: " +:+ vh_tag m)
  else if negb (starts_with "/" (vh_mountpoint m)) || contains_char ":" (vh_mountpoint m) ||
          contains_char ";" (vh_mountpoint m) || contains_char "," (vh_mountpoint m) then
    Some "vhost-user fs mount must be an absolute guest path without ':', ';', or ','"
  else if negb (starts_with "/" (vh_socket m)) || contains_char "," (vh_socket m) || contains_char ";" (vh_socket m) then
    Some "vhost-user fs socket must be an absolute host path without ',' or ';'"
  else None.

(** The options seen so far: [tag], [mountpoint] and [socket]. *)
Definition mount_options : Type := option string * option string * option string.

Definition mount_part (acc : mount_options + string) (part : string) : mount_options + string :=
  match acc with
  | inr e => inr e
  | inl (tag, mountpoint, socket) =>
      if bool_decide (part = "ro") || bool_decide (part = "readonly") then inl (tag, mountpoint, socket)
      else if bool_decide (part = "rw") then inr READ_ONLY_ONLY
      else
        match split_once "=" part with
        | None => inr ("invalid vhost-user fs option " +:+ part +:+ "; expected key=value or ro")
        | Some (key, raw_value) =>
            if bool_decide (key = "tag") then inl (Some raw_value, mountpoint, socket)
            else if bool_decide (key = "mount") then inl (tag, Some raw_value, socket)
            else if bool_decide (key = "socket") then inl (tag, mountpoint, Some raw_value)
            else inr ("invalid vhost-user fs key " +:+ key +:+ "; expected tag, mount, or socket")
        end
  end.

Definition parse_vhost_user_fs_mount (value : string) : vhost_user_fs_mount + string :=
  match foldl mount_part (inl (None, None, None)) (filter (.≠ EmptyString) (split_char "," value)) with
  | inr e => inr e
  | inl (None, _, _) => inr "missing vhost-user fs tag=NAME"
  | inl (_, None, _) => inr "missing vhost-user fs mount=/GUEST/PATH"
  | inl (_, _, None) => inr "missing vhost-user fs socket=/HOST/SOCK"
  | inl (Some tag, Some mountpoint, Some socket) =>
      let m := mk_vhost tag mountpoint socket true in
      match validate_vhost_user_fs_mount m with Some e => inr e | None => inl m end
  end.

Fixpoint validate_mounts_from (tags : gset string) (mounts : list vhost_user_fs_mount) : option string :=
  match mounts with
  | [] => None
  | m :: mounts' =>
      match validate_vhost_user_fs_mount m with
      | Some e => Some e
      | None =>
          if bool_decide (vh_tag m ∈ tags) then Some ("duplicate vhost-user fs tag: " +:+ vh_tag m)
          else validate_mounts_from ({[vh_tag m]} ∪ tags) mounts'
      end
  end.

Definition validate_vhost_user_fs_mounts (mounts : list vhost_user_fs_mount) : option string :=
  validate_mounts_from ∅ mounts.

Definition NUL : ascii := "000"%char.

Definition parse_env_var (value : string) : (string * string) + string :=
  match split_once "=" value with
  | Some (key, v) =>
      if negb (bool_decide (key = EmptyString)) && negb (contains_char NUL key) && negb (contains_char NUL v)
      then inl (key, v)
      else inr ("expected KEY=VALUE, got " +:+ value)
  | None => inr ("expected KEY=VALUE, got " +:+ value)
  end.

(** [ExecOptions]; a [Duration] is its nanoseconds. *)
Record exec_options := mk_exec_options {
  eo_run_as_root : bool;
  eo_env : list (string * string);
  eo_workdir : option string;
  eo_timeout : option N;
  eo_detach : bool;
  eo_keep_running : bool;
}.

Definition as_millis (d : N) : N := d / 1000000.

Definition exec_option_args (e : exec_options) : list string :=
  flag (eo_run_as_root e) "--root" ++
  concat ((fun kv => ["--env"; kv.1 +:+ "=" +:+ kv.2]) <$> eo_env e) ++
  match eo_workdir e with Some w => ["--workdir"; w] | None => [] end ++
  match eo_timeout e with Some t => ["--timeout"; pretty (as_millis t) +:+ "ms"] | None => [] end ++
  flag (eo_detach e) "--detach".

(** The guards on options that go together; [linux] and [macos] are the
    target the program is built for. *)
Definition validate_deterministic_args (linux macos nested_kvm : bool) (forwards : list port_forward)
    (vhost_user_fs : list vhost_user_fs_mount) (deterministic : option deterministic_config) (trace_events : bool)
    : option string :=
  if trace_events && bool_decide (deterministic = None) then Some "--trace-events requires --deterministic"
  else if bool_decide (deterministic = None) then None
  else if negb (linux || macos) then Some "--deterministic is only supported on the KVM backend"
  else if linux && nested_kvm then Some "--deterministic cannot be combined with --nested-kvm yet"
  else if negb (bool_decide (forwards = [])) then Some "--deterministic cannot be combined with --forward yet"
  else if negb (bool_decide (vhost_user_fs = [])) then Some "--deterministic cannot be combined with --vhost-user-fs yet"
  else None.

(** ** The shape of the VM *)

Definition DEFAULT_CPUS : N := 2.
Definition DEFAULT_MEMORY_MIB : N := 4096.

Record snapshot_shape := mk_shape {
  ss_cpus : N;
  ss_memory_mib : N;
  ss_nested_kvm : bool;
  ss_no_host_shares : bool;
}.

(** What the flags, the saved memory and the saved settings come to. *)
Record vm_shape := mk_vm_shape {
  vs_cpus : N;
  vs_memory_mib : N;
  vs_nested_kvm : bool;
  vs_no_host_shares : bool;
}.

(** [Option::or] *)
Definition or_else {A} (a b : option A) : option A := match a with Some _ => a | None => b end.

Definition effective_cpus (configured : N) (deterministic : option deterministic_config) : N :=
  match deterministic with Some _ => 1%N | None => configured end.

Definition effective_shape (cpus mib : option N) (nested_kvm no_host_shares : bool) (snapshot : option snapshot_shape)
    (persisted : instance_descriptor) (deterministic : option deterministic_config) : vm_shape :=
  mk_vm_shape
    (effective_cpus (default DEFAULT_CPUS (or_else (or_else cpus (ss_cpus <$> snapshot)) (d_cpus persisted))) deterministic)
    (default DEFAULT_MEMORY_MIB (or_else (or_else mib (ss_memory_mib <$> snapshot)) (d_memory_mib persisted)))
    (nested_kvm || match snapshot with Some s => ss_nested_kvm s | None => false end)
    (no_host_shares || bool_decide (deterministic <> None) ||
     match snapshot with Some s => ss_no_host_shares s | None => false end).

Section shape.
Context `{Json record, Json manifest, Json launch_metadata}.

(** [u8::try_from] and [u32::try_from] *)
Definition shape_of (c : snapshot_vm_config) (meta : option launch_metadata) : option snapshot_shape :=
  if (sv_vcpu_count c <? 2 ^ 8)%N && (memory_mib c <? 2 ^ 32)%N then
    Some (mk_shape (sv_vcpu_count c) (memory_mib c)
      (match meta with Some md => bool_decide ("--nested-kvm" ∈ lm_owner_args md) | None => false end)
      (match meta with Some md => ls_no_host_shares (lm_shares md) | None => false end))
  else None.

Definition latest_snapshot_shape (instance_dir : path) : M (option snapshot_shape) :=
  r ← attempt (latest instance_dir);
  match r with
  | inl (Some g) =>
      c ← attempt (get_snapshot_vm_config (g_dir g));
      match c with
      | inl (Some c) =>
          meta ← attempt (read_launch_metadata (g_dir g));
          mret (shape_of c (match meta with inl md => Some md | inr _ => None end))
      | _ => mret None
      end
  | _ => mret None
  end.

(** ** The settings of an instance *)

Definition with_cpus (d : instance_descriptor) (n : N) : instance_descriptor :=
  mk_descriptor (d_name d) (d_created d) (d_image d) (Some n) (d_memory_mib d).
Definition with_memory_mib (d : instance_descriptor) (n : N) : instance_descriptor :=
  mk_descriptor (d_name d) (d_created d) (d_image d) (d_cpus d) (Some n).

(** One [KEY=VALUE]; an error is its message. *)
Definition apply_setting (d : instance_descriptor) (setting : string) : instance_descriptor + string :=
  match split_once "=" setting with
  | None => inr ("expected KEY=VALUE, got " +:+ setting)
  | Some (key, value) =>
      if bool_decide (key = "cpus") then
        match parse_unsigned (2 ^ 8) value with
        | None => inr ("parse cpus " +:+ value)
        | Some cpus => if (cpus =? 0)%N then inr "cpus must be at least 1" else inl (with_cpus d cpus)
        end
      else if bool_decide (key = "memory-mib") || bool_decide (key = "memory_mib") then
        match parse_unsigned (2 ^ 32) value with
        | None => inr ("parse memory-mib " +:+ value)
        | Some mib => if (mib <? 256)%N then inr "memory-mib must be at least 256" else inl (with_memory_mib d mib)
        end
      else inr ("unknown setting " +:+ key +:+ " (valid: cpus, memory-mib)")
  end.

Fixpoint apply_settings (d : instance_descriptor) (settings : list string) : instance_descriptor + string :=
  match settings with
  | [] => inl d
  | s :: settings' => match apply_setting d s with inl d' => apply_settings d' settings' | inr e => inr e end
  end.

Definition named (instance : string) (d : instance_descriptor) : instance_descriptor :=
  match d_name d with
  | None => mk_descriptor (Some instance) (d_created d) (d_image d) (d_cpus d) (d_memory_mib d)
  | Some _ => d
  end.

Definition settings_pending_notice (instance : string) (config : instance_descriptor) (snapshot : option snapshot_shape)
    : option string :=
  match snapshot with
  | None => None
  | Some shape =>
      let differs :=
        match d_cpus config with Some n => negb (bool_decide (n = ss_cpus shape)) | None => false end ||
        match d_memory_mib config with Some n => negb (bool_decide (n = ss_memory_mib shape)) | None => false end in
      if differs then
        Some ("lnx: " +:+ instance +:+ " resumes its saved memory with " +:+ pretty (ss_cpus shape) +:+ " CPUs and " +:+
          pretty (ss_memory_mib shape) +:+
          " MiB; the new settings apply at its next cold boot. `lnx --instance " +:+ instance +:+
          " snapshots clear` drops the saved memory so the next run boots with them.")
      else None
  end.

Context `{Json instance_descriptor} {TF : TempFiles}.

(** The state the guard passes on, or the error of taking it, is an argument;
    the result is the settings printed and the notice. *)
Definition set_instance_settings (state : lock_state + error) (l : layout) (settings : list string)
    : M (instance_descriptor * option string) :=
  _ ← create_dir_all (lo_instance_dir l);
  st ← lift state;
  if match st with Held (Some lease) => bool_decide (l_role lease = MaintenanceRole) | _ => false end
  then bail "cannot change settings while the instance has a state operation in progress"
  else
    config ← load_descriptor l;
    match apply_settings config settings with
    | inr e => bail e
    | inl config' =>
        let saved := named (lo_instance l) config' in
        _ ← save_descriptor l saved;
        shape ← latest_snapshot_shape (lo_instance_dir l);
        mret (saved, settings_pending_notice (lo_instance l) saved shape)
    end.

End shape.


(** ** Creating and forking *)

Section creating.
Context `{Json record, Json manifest, Json checkpoint_ref, Json instance_descriptor} {TF : TempFiles} {TO : Tools} {LS : Lseek}.
Context (rfc3339 : N -> option string) (start_time : Z -> option N) (sha256 : bytes -> bytes) (pinned : pins).

(** What other processes and the environment of the command decide. *)
Record surroundings := mk_surroundings {
  (** [LNX_BASE], [LNX_RUN_BASE], the home directory, the current directory and [PATH] *)
  sr_lnx_base : option path;
  sr_run_base : option path;
  sr_home : option path;
  sr_cwd : path;
  sr_search : option (list path);
  (** names tried for a transaction area *)
  sr_fuel : nat;
  (** what taking the source's lock comes to, whether it runs, what its
      owner's capture does *)
  sr_locked : bool + error;
  sr_live : bool;
  sr_held : bool + error;
  sr_capture : path -> M unit;
  (** the turns of [ensure_instance_from] *)
  sr_turn : turn;
  sr_turns : list turn;
}.

Context (sr : surroundings).

Definition resolve_here (instance : string) (base : path) (rootfs : option path) : layout :=
  resolve_in_base instance base None rootfs (sr_lnx_base sr) (sr_run_base sr) (sr_home sr).

Definition require_instance (l : layout) : M unit :=
  there ← instance_has_state l;
  if (there : bool) then mret tt
  else bail ("no instance named " +:+ lo_instance l +:+ "; running a command in it creates it").

Definition fork_here (source : layout) (from : fork_source) (dest : layout) : M unit :=
  fork rfc3339 start_time (sr_fuel sr) source from dest (sr_locked sr) (sr_live sr) (sr_held sr) (sr_capture sr).

Definition fork_into (source : layout) (checkpoint : option string) (dest : layout) : M unit :=
  _ ← require_instance source;
  from ← match checkpoint with
         | Some c => r ← resolve_checkpoint start_time source (sr_locked sr) c; mret (ForkCheckpoint r)
         | None => mret ForkCurrent
         end;
  _ ← ensure_base_ignored (lo_base dest);
  fork_here source from dest.

Definition require_name (name : string) : M unit :=
  if validate_instance_name name then mret tt else bail ("invalid instance name " +:+ name).

Definition fork_checkpoint (source : layout) (checkpoint : option string) (instance : string) : M string :=
  _ ← require_name instance;
  _ ← fork_into source checkpoint (resolve_here instance (lo_base source) None);
  mret instance.

Definition init_here (l : layout) (kernel rootfs : option path) : M unit :=
  init_run sha256 pinned rfc3339 (sr_search sr) (sr_turn sr) (sr_turns sr) l kernel rootfs.

(** [INSTANCE] or [INSTANCE:CHECKPOINT] *)
Definition fork_origin (from : string) : string * option string :=
  match split_once ":" from with Some (source, c) => (source, Some c) | None => (from, None) end.

Definition create_instance (current : layout) (name : string) (from : option string) (cpus mib : option N) : M string :=
  _ ← require_name name;
  let dest := resolve_here name (lo_base current) (lo_rootfs current) in
  there ← instance_has_state dest;
  if (there : bool) then bail ("instance " +:+ name +:+ " already exists")
  else
    _ ← match from with
        | Some from =>
            let '(source, checkpoint) := fork_origin from in
            _ ← require_name source;
            fork_into (resolve_here source (lo_base current) None) checkpoint dest
        | None => init_here dest None (lo_rootfs dest)
        end;
    _ ← (if bool_decide (cpus = None) && bool_decide (mib = None) then mret tt
         else
           config ← load_descriptor dest;
           save_descriptor dest (mk_descriptor (d_name config) (d_created config) (d_image config)
             (or_else cpus (d_cpus config)) (or_else mib (d_memory_mib config))));
    mret name.

(** ** Local instances *)

Definition normalize (p : path) : M path :=
  r ← attempt (canonicalize p); mret (match r with inl c => c | inr _ => p end).

Definition same_path (a b : path) : M bool :=
  a' ← normalize a; b' ← normalize b; mret (bool_decide (a' = b')).

Definition should_init_local_fork (init_kernel init_rootfs : option path) (explicit_kernel explicit_rootfs : bool) : bool :=
  bool_decide (init_kernel = None) && bool_decide (init_rootfs = None) && negb explicit_kernel &&
  negb explicit_rootfs && bool_decide (sr_lnx_base sr = None).

Definition init_from_source_base_files (dest : layout) (source_base : path) : M bool :=
  let kernel := source_base /: "vmlinuz" in
  let rootfs := source_base /: "cache" /: "rootfs.ext4" in
  k ← path_exists kernel;
  r ← (if (k : bool) then mret true else path_exists rootfs);
  if negb r then mret false
  else
    k' ← path_exists kernel;
    r' ← path_exists rootfs;
    _ ← init_here dest (if (k' : bool) then Some kernel else None) (if (r' : bool) then Some rootfs else None);
    mret true.

Definition find_instance_base (instance : string) : M (option path) :=
  home ← context (sr_home sr) "could not resolve home directory";
  find_instance_base_between instance (sr_cwd sr) home.

Definition init_local_fork_from_base (instance : string) (dest_base : path) (preferred : option path) : M unit :=
  let dest := resolve_here instance dest_base None in
  _ ← ensure_base_ignored (lo_base dest);
  source_base ← match preferred with
                | Some p =>
                    same ← same_path p (lo_base dest);
                    if (same : bool) then find_instance_base instance else mret (Some p)
                | None => find_instance_base instance
                end;
  match (fun base => resolve_here instance base None) <$> source_base with
  | Some source =>
      if bool_decide (lo_base source = lo_base dest) then bail "local instance already exists"
      else
        there ← instance_has_state source;
        if (there : bool) then fork_here source ForkCurrent dest
        else
          made ← init_from_source_base_files dest (lo_base source);
          if (made : bool) then mret tt else init_here dest None None
  | None => init_here dest None None
  end.

(** *** Worktrees *)

(** The main worktree and the one the command runs in. *)
Record linked_git_worktree := mk_worktree { wt_main_root : path; wt_current_root : path }.

(** [PathBuf::from] of an absolute path git prints *)
Definition path_from (s : string) : path := normal_names (path_components s).

(** [find] of the first root that is the same path *)
Fixpoint find_same (roots : list path) (p : path) : M (option path) :=
  match roots with
  | [] => mret None
  | root :: roots' => same ← same_path root p; if (same : bool) then mret (Some root) else find_same roots' p
  end.

Definition linked_git_worktree_from_roots (roots : list path) (current_root : path) : M (option linked_git_worktree) :=
  match roots with
  | main :: _ :: _ =>
      found ← find_same roots current_root;
      match found with
      | None => mret None
      | Some current =>
          same ← same_path main current;
          mret (if (same : bool) then None else Some (mk_worktree main current))
      end
  | _ => mret None
  end.

Definition worktree_roots (output : string) : list path := path_from <$> omap (strip_prefix "worktree ") (lines output).

Definition parse_git_worktree_list (output : string) (current_root : path) : M (option linked_git_worktree) :=
  linked_git_worktree_from_roots (worktree_roots output) current_root.

Definition worktree_auto_init_plan (worktree : linked_git_worktree) (instance : string) : M (option (path * path)) :=
  let source_base := wt_main_root worktree /: ".lnx" in
  let dest_base := wt_current_root worktree /: ".lnx" in
  there ← path_is_dir source_base;
  if negb there then mret None
  else
    same ← same_path source_base dest_base;
    if (same : bool) then mret None
    else
      made ← path_is_dir (dest_base /: "instances" /: instance);
      mret (if (made : bool) then None else Some (dest_base, source_base)).

(** [git] and its output are arguments: the top level of the worktree and the
    list, where the commands succeed. *)
Definition maybe_auto_init_git_worktree (instance : string) (allowed explicit_kernel explicit_rootfs : bool)
    (toplevel listing : option string) : M unit :=
  if bool_decide (sr_lnx_base sr <> None) || explicit_kernel || explicit_rootfs || negb allowed then mret tt
  else
    match toplevel, listing with
    | Some top, Some output =>
        if bool_decide (trim top = EmptyString) then mret tt
        else
          w ← parse_git_worktree_list output (path_from (trim top));
          match w with
          | None => mret tt
          | Some w =>
              plan ← worktree_auto_init_plan w instance;
              match plan with
              | None => mret tt
              | Some (dest_base, source_base) => init_local_fork_from_base instance dest_base (Some source_base)
              end
          end
    | _, _ => mret tt
    end.

End creating.

(** ** Nested deterministic runs *)

Definition QUOTE : ascii := "'"%char.
Definition BACKSLASH : ascii := "\"%char.
Definition DQ : string := String "034" EmptyString.

Definition shell_quote (value : string) : string :=
  if bool_decide (value = EmptyString) then "''"
  else "'" +:+ replace_char QUOTE "'\''" value +:+ "'".

Definition nested_deterministic_outer_instance (instance : string) : string := instance +:+ "-deterministic-outer".

Definition nested_deterministic_inner_args (l : layout) (cpus mib : N) (snapshot_path : option string)
    (deterministic : deterministic_config) (trace_events : bool) (exec : exec_options) (guest_command : list string)
    (subcommand : list string) : list string :=
  ["--instance"; lo_instance l; "--kernel"; path_text (lo_kernel l); "--cpus"; pretty cpus; "--memory-mib"; pretty mib;
   "--no-host-shares"; "--deterministic"; seed deterministic] ++
  match snapshot_path with Some s => ["--snapshot"; s] | None => [] end ++
  flag trace_events "--trace-events" ++
  exec_option_args exec ++
  subcommand ++
  match guest_command with [] => [] | _ => "--" :: guest_command end.

Definition nested_deterministic_script (linux_lnx base : string) (run_base : option string) (inner_args : list string)
    : string :=
  join NEWLINE (
    ["set -euo pipefail";
     "test -c /dev/kvm";
     "test -r /dev/kvm";
     "nested_tools=/tmp/lnx-deterministic-tools";
     "rm -rf " +:+ DQ +:+ "$nested_tools" +:+ DQ;
     "mkdir -p " +:+ DQ +:+ "$nested_tools" +:+ DQ;
     "cp " +:+ shell_quote linux_lnx +:+ " " +:+ DQ +:+ "$nested_tools/lnx" +:+ DQ;
     "chmod +x " +:+ DQ +:+ "$nested_tools" +:+ DQ +:+ "/*";
     "export LNX_BIN=" +:+ DQ +:+ "$nested_tools/lnx" +:+ DQ;
     "export LNX_BASE=" +:+ shell_quote base] ++
    match run_base with Some b => ["export LNX_RUN_BASE=" +:+ shell_quote b] | None => [] end ++
    ["exec " +:+ DQ +:+ "$LNX_BIN" +:+ DQ +:+ " " +:+ join " " (shell_quote <$> inner_args)]).

Definition TARGET_TRIPLE : string := "aarch64-unknown-linux-musl".

(** The walk from the directory of the executable up; [fuel] is its depth. *)
Fixpoint walk_candidates (fuel : nat) (dir : path) : list path :=
  if bool_decide (last dir = Some "target") then
    [dir /: TARGET_TRIPLE /: "debug" /: "lnx"; dir /: TARGET_TRIPLE /: "release" /: "lnx"]
  else
    (match parent dir with
     | Some up =>
         if (bool_decide (last dir = Some "debug") || bool_decide (last dir = Some "release")) &&
            bool_decide (last up = Some "target")
         then [up /: TARGET_TRIPLE /: FsUtil.file_name dir /: "lnx"] else []
     | None => []
     end) ++
    match parent dir, fuel with
    | Some up, S fuel' => walk_candidates fuel' up
    | _, _ => []
    end.

Definition linux_lnx_candidates (current_exe : path) : list path :=
  match parent current_exe with
  | Some dir => (dir /: "lnx-linux-aarch64") :: walk_candidates (length dir) dir
  | None => []
  end.

Definition require_executable_file (p : path) (label : string) : M path :=
  there ← path_is_file p;
  if (there : bool) then mret p else bail (label +:+ " not found: " +:+ path_text p).

Definition find_linux_lnx_binary `{Tools, Lseek} (sha256 : bytes -> bytes) (pinned : pins) (from_env : option path)
    (exe base : path) : M path :=
  match from_env with
  | Some p => require_executable_file p "Linux lnx binary"
  | None =>
      found ← first_existing (linux_lnx_candidates exe);
      match found with
      | Some p => require_executable_file p "Linux lnx binary"
      | None =>
          let cache_path := base /: "cache" /: "lnx-linux-aarch64" in
          _ ← ensure_nested_linux_lnx sha256 pinned cache_path;
          require_executable_file cache_path "Linux lnx binary"
      end
  end.

(** ** Copies between the host and the guest *)

Definition transfer_letter (c : ascii) : bool :=
  bool_decide (c = "R"%char) || bool_decide (c = "r"%char) || bool_decide (c = "a"%char).

Definition is_supported_cp_transfer_option (arg : string) : bool :=
  match arg with
  | String "-" (String c rest) => string_all transfer_letter (String c rest)
  | _ => false
  end.

(** The options and operands still to come; [parsing] is whether options are
    still recognized. *)
Fixpoint cp_operands (parsing : bool) (args : list string) : list string + string :=
  match args with
  | [] => inl []
  | arg :: args' =>
      if parsing && bool_decide (arg = "--") then cp_operands false args'
      else if parsing && starts_with "-" arg && negb (bool_decide (arg = "-")) then
        if is_supported_cp_transfer_option arg then cp_operands parsing args'
        else inr "lnx cp host transfers support only -R, -r, and -a"
      else
        match cp_operands false args' with inl operands => inl (arg :: operands) | inr e => inr e end
  end.

Definition cp_transfer_operands (args : list string) : list string + string := cp_operands true args.

Definition is_host_path (value : string) : bool := starts_with "host:" value.

Definition strip_host_prefix (value : string) : string + string :=
  match strip_prefix "host:" value with
  | Some EmptyString | None => inr "host: path must include a path after the colon"
  | Some p => inl p
  end.

Inductive transfer :=
  | HostToGuest (sources : list string) (dest : string)
  | GuestToHost (sources : list string) (dest : string).

(** [copy_between_host_and_guest]: which way the operands go. *)
Definition classify_transfer (args : list string) : transfer + string :=
  match cp_transfer_operands args with
  | inr e => inr e
  | inl operands =>
      if length operands <? 2 then
        inr "usage: lnx cp host:SOURCE... GUEST_DIR or lnx cp GUEST_SOURCE... host:DEST_DIR"
      else
        let dest := default EmptyString (last operands) in
        let sources := removelast operands in
        match forallb is_host_path sources, is_host_path dest, forallb (fun s => negb (is_host_path s)) sources with
        | true, false, _ => inl (HostToGuest sources dest)
        | false, true, true => inl (GuestToHost sources dest)
        | _, _, _ =>
            inr "host transfers must copy only host: sources to one guest destination, or only guest sources to one host: destination"
        end
  end.

(** Trailing separators and dots, which [Path]'s components do not show. *)
Fixpoint trim_tail (fuel : nat) (s : string) : string :=
  match fuel with
  | O => s
  | S fuel' =>
      if bool_decide (s = "/") then s
      else
        match strip_suffix "/" s with
        | Some s' => trim_tail fuel' s'
        | None => match strip_suffix "/." s with Some s' => trim_tail fuel' (s' +:+ "/") | None => s end
        end
  end.

Definition trimmed (s : string) : string := trim_tail (String.length s + 1) s.

(** [Path::parent] *)
Definition parent_text (s : string) : option string :=
  let t := trimmed s in
  if bool_decide (t = EmptyString) || bool_decide (t = "/") then None
  else match rsplit_once "/" t with Some (a, _) => Some (trimmed (a +:+ "/")) | None => Some EmptyString end.

(** [Path::file_name] *)
Definition file_name_text (s : string) : option string :=
  let t := trimmed s in
  let name := match rsplit_once "/" t with Some (_, b) => b | None => t end in
  if bool_decide (name = EmptyString) || bool_decide (name = "..") || bool_decide (t = ".") then None else Some name.

(** The arguments of the host's tar for the sources, in order. *)
Fixpoint tar_sources (sources : list string) : list string + string :=
  match sources with
  | [] => inl []
  | source :: sources' =>
      match strip_host_prefix source with
      | inr e => inr e
      | inl s =>
          match file_name_text s with
          | None => inr ("host source has no file name: " +:+ s)
          | Some name =>
              match tar_sources sources' with
              | inl rest => inl ("-C" :: default "." (parent_text s) :: name :: rest)
              | inr e => inr e
              end
          end
      end
  end.

Definition host_tar_args (sources : list string) : list string + string :=
  match tar_sources sources with inl args => inl ("-cf" :: "-" :: args) | inr e => inr e end.

Definition guest_untar_command (guest_dest : string) : list string :=
  ["sh"; "-lc"; "mkdir -p " +:+ DQ +:+ "$1" +:+ DQ +:+ " && tar -C " +:+ DQ +:+ "$1" +:+ DQ +:+ " -xf -"; "lnx-cp"; guest_dest].

(** The guest's tar of a copy to the host. *)
Definition guest_tar_args (sources : list string) : list string := ["tar"; "-cf"; "-"] ++ sources.

Record child_vm_config := mk_child_vm { ch_cpus : N; ch_memory_mib : N; ch_nested_kvm : bool }.

(** The arguments [run_lnx_child] starts another lnx with. *)
Definition lnx_child_args (l : layout) (explicit_kernel explicit_rootfs : option string) (vm : option child_vm_config)
    (command : list string) : list string :=
  ["--instance"; lo_instance l] ++
  match explicit_kernel with Some k => ["--kernel"; k] | None => [] end ++
  match explicit_rootfs with Some r => ["--rootfs"; r] | None => [] end ++
  match vm with
  | Some c => ["--cpus"; pretty (ch_cpus c); "--memory-mib"; pretty (ch_memory_mib c)] ++ flag (ch_nested_kvm c) "--nested-kvm"
  | None => []
  end ++ command.

(** ** status.rs *)

Inductive instance_state := InstRunning | InstStarting | InstStopped | InstPartial.

#[global] Instance instance_state_eq_dec : EqDecision instance_state.
Proof. solve_decision. Defined.

Definition state_str (s : instance_state) : string :=
  match s with
  | InstRunning => "running"
  | InstStarting => "starting"
  | InstStopped => "stopped"
  | InstPartial => "partial"
  end.

Definition is_active (s : instance_state) : bool :=
  match s with InstRunning | InstStarting => true | _ => false end.

(** [derive(Ord)]: the order of the variants. *)
Definition state_rank (s : instance_state) : N :=
  match s with InstRunning => 0 | InstStarting => 1 | InstStopped => 2 | InstPartial => 3 end.

(** Whether the broker's socket answers and whether an owner holds the lock
    are arguments. *)
Definition get_instance_state (broker_answers : bool) (owner : option lease) (l : layout) : M instance_state :=
  if broker_answers then mret InstRunning
  else if bool_decide (is_Some owner) then mret InstStarting
  else
    there ← instance_has_state l;
    mret (if (there : bool) then InstStopped else InstPartial).

(** What pgrep prints, without this process and those that are gone. *)
Definition host_pids (current : Z) (alive : Z -> bool) (output : string) : list Z :=
  filter (fun pid => pid <> current /\ alive pid = true) (omap (fun line => parse_i32 (trim line)) (lines output)).

(** [Vec::dedup] *)
Fixpoint dedup (l : list Z) : list Z :=
  match l with
  | a :: ((b :: _) as l') => if bool_decide (a = b) then dedup l' else a :: dedup l'
  | _ => l
  end.

Definition instance_pids (owner : option Z) (others : list Z) : list Z :=
  dedup (merge_sort Z.le (option_list owner ++ others)).

(** [list_instances]: the rows in the order printed. *)
Record instance_row := mk_row { row_name : string; row_state : instance_state; row_pids : list Z }.

Definition row_le (a b : instance_row) : Prop :=
  (state_rank (row_state a) < state_rank (row_state b))%N \/
  (row_state a = row_state b /\ string_le (row_name a) (row_name b)).

#[global] Instance row_le_dec : RelDecision row_le.
Proof. unfold row_le. intros ??. apply _. Defined.

Definition list_instances (row_of : string -> instance_row) (names : list string) : list instance_row :=
  merge_sort row_le (row_of <$> names).
