(* ===== verification/CliTheorems.v ===== *)
(** * What the command line computes

    The options reproduced for another process parse back to what they were
    printed from; a shell splits the quoted words of the nested script into the
    arguments they quote; a command without flags runs the VM in the shape its
    saved memory needs; settings are changed completely or not at all; the
    host's tar reads the sources a copy names when they are absolute. *)

From S2P Require Import Prelude FileSystem FsLogic FsUtil Store Text Protocol Broker Paths Legacy HostShare.
From S2P Require Import StoreLogic StoreExample Snapshots SnapshotTheorems Checkpoints Instances InstanceLogic ForkTheorems Init Locks Cli.

(** ** Quoting *)

(** Words the way a POSIX shell reads a simple command: separated by spaces,
    with single quotes and backslashes.  A character with another meaning
    outside quotes is not a word's, so nothing is expanded or run. *)
Inductive lexing := Between | Word (acc : string) | Quoted (acc : string) | Escaped (acc : string).

Definition literal (c : ascii) : bool :=
  is_ascii_alphanumeric c || contains_char c "-_./=:,+@%".

Definition snoc_char (s : string) (c : ascii) : string := s +:+ String c EmptyString.

Fixpoint shell_words (st : lexing) (s : string) : option (list string) :=
  match s with
  | EmptyString =>
      match st with
      | Between => Some []
      | Word acc => Some [acc]
      | Quoted _ | Escaped _ => None
      end
  | String c s' =>
      match st with
      | Quoted acc => if Ascii.eqb c QUOTE then shell_words (Word acc) s' else shell_words (Quoted (snoc_char acc c)) s'
      | Escaped acc => shell_words (Word (snoc_char acc c)) s'
      | _ =>
          let acc := match st with Word acc => acc | _ => EmptyString end in
          if Ascii.eqb c QUOTE then shell_words (Quoted acc) s'
          else if Ascii.eqb c BACKSLASH then shell_words (Escaped acc) s'
          else if Ascii.eqb c " " then
            match st with
            | Word acc => (fun l => acc :: l) <$> shell_words Between s'
            | _ => shell_words Between s'
            end
          else if literal c then shell_words (Word (snoc_char acc c)) s'
          else None
      end
  end.

Lemma snoc_char_cons acc c s : snoc_char acc c +:+ s = acc +:+ String c s.
Proof. unfold snoc_char. by rewrite string_app_assoc. Qed.

Lemma concat_empty_cons x l : String.concat EmptyString (x :: l) = x +:+ String.concat EmptyString l.
Proof. destruct l; simpl; [by rewrite string_app_nil | done]. Qed.

Lemma replace_char_cons c by_ x s :
  replace_char c by_ (String x s) = (if Ascii.eqb x c then by_ else String x EmptyString) +:+ replace_char c by_ s.
Proof. apply concat_empty_cons. Qed.

(** The inside of the quotes, up to the closing one. *)
Lemma words_in_quotes value acc rest :
  shell_words (Quoted acc) (replace_char QUOTE "'\''" value +:+ String QUOTE rest) = shell_words (Word (acc +:+ value)) rest.
Proof.
  revert acc. induction value as [| c value IH]; intros acc; [by rewrite string_app_nil |].
  rewrite replace_char_cons, <- (snoc_char_cons acc c value). destruct (Ascii.eqb_spec c QUOTE) as [-> | Hne].
  - cbn -[replace_char]. apply IH.
  - cbn -[replace_char Ascii.eqb]. destruct (Ascii.eqb_spec c QUOTE) as [-> | _]; [done |]. apply IH.
Qed.

(** A quoted word, whatever it quotes, is one word. *)
Lemma words_quoted value rest :
  shell_words Between (shell_quote value +:+ rest) = shell_words (Word value) rest.
Proof.
  unfold shell_quote. case_bool_decide as Hv; [by rewrite Hv |].
  rewrite !string_app_assoc. cbn -[replace_char]. apply (words_in_quotes value EmptyString rest).
Qed.

(** C33: in the script of a nested deterministic run the arguments are quoted
    so that a shell reads back exactly the arguments: as many words as there are
    arguments, each with the text of its argument, whatever characters they
    contain, and nothing outside the quotes that a shell would expand. *)
Theorem shell_reads_arguments args : shell_words Between (join " " (shell_quote <$> args)) = Some args.
Proof.
  induction args as [| a args IH]; [done |]. destruct args as [| b args].
  - cbn [fmap list_fmap join]. rewrite <- (string_app_nil (shell_quote a)). by rewrite words_quoted.
  - change (join " " (shell_quote <$> a :: b :: args)) with (shell_quote a +:+ " " +:+ join " " (shell_quote <$> b :: args)).
    rewrite words_quoted. change (" " +:+ ?s) with (String " " s). cbn -[join fmap list_fmap]. by rewrite IH.
Qed.

(** ** Options printed for another process *)

Lemma split_char_single c x : no_char c x -> split_char c x = [x].
Proof.
  unfold no_char. induction x as [| a x IH]; intros Hx; [done |].
  rewrite contains_char_cons in Hx. apply orb_false_iff in Hx as [Ha Hx].
  simpl. by rewrite Ascii.eqb_sym, Ha, (IH Hx).
Qed.

Lemma split_char_pieces c s : Forall (no_char c) (split_char c s).
Proof.
  unfold no_char. induction s as [| x s IH]; simpl; [by repeat constructor |].
  destruct (Ascii.eqb_spec x c) as [-> | Hx]; [by constructor |].
  destruct IH as [| p ps Hp Hps]; (constructor; [| done]); rewrite contains_char_cons; rewrite ?Hp, ?orb_false_r;
    apply Ascii.eqb_neq; congruence.
Qed.

Lemma pretty_no_char c (n : N) : is_ascii_digit c = false -> no_char c (pretty n).
Proof. intros Hc. exact (string_all_no_char _ _ _ (pretty_N_all_digits n) Hc). Qed.

Lemma parse_port_pretty n : (n < 2 ^ 16)%N -> parse_port (pretty n) = inl n.
Proof. intros Hn. unfold parse_port. by rewrite parse_unsigned_pretty. Qed.

Lemma parse_port_bound s n : parse_port s = inl n -> (n < 2 ^ 16)%N.
Proof. unfold parse_port. destruct (parse_unsigned _ s) eqn:E; [| done]. intros [= <-]. by eapply parse_unsigned_bound. Qed.

(** A forward the parser can have produced. *)
Definition forward_ok (f : port_forward) : Prop :=
  no_char ":" (listen_host f) /\ no_char ":" (guest_host f) /\ (listen_port f < 2 ^ 16)%N /\ (guest_port f < 2 ^ 16)%N.

Lemma parsed_forward_ok v f : parse_port_forward v = inl f -> forward_ok f.
Proof.
  unfold parse_port_forward. pose proof (split_char_pieces ":" v) as HF.
  destruct (split_char ":" v) as [| a [| b [| c [| d [| e l]]]]]; try done; intros Hp.
  - destruct (parse_port a) as [la |] eqn:Ea; [| done]. destruct (parse_port b) as [gb |] eqn:Eb; [| done].
    injection Hp as <-. split_and!; [done | done | by eapply parse_port_bound | by eapply parse_port_bound].
  - destruct (parse_port b) as [lb |] eqn:Eb; [| done]. destruct (parse_port d) as [gd |] eqn:Ed; [| done].
    injection Hp as <-. apply Forall_cons in HF as [Ha HF]. apply Forall_cons in HF as [_ HF]. apply Forall_cons in HF as [Hc _].
    split_and!; [done | done | by eapply parse_port_bound | by eapply parse_port_bound].
Qed.

Lemma forward_spec_parses f : forward_ok f -> parse_port_forward (forward_spec f) = inl f.
Proof.
  destruct f as [lh lp gh gp]. intros (Hl & Hg & Hlp & Hgp). unfold forward_spec, parse_port_forward. simpl in *.
  rewrite (split_char_line ":" lh) by done. rewrite (split_char_line ":" (pretty lp)) by by apply pretty_no_char.
  rewrite (split_char_line ":" gh) by done. rewrite split_char_single by by apply pretty_no_char.
  by rewrite !parse_port_pretty by done.
Qed.

(** A mount the parser can have produced. *)
Definition mount_ok (m : vhost_user_fs_mount) : Prop := validate_vhost_user_fs_mount m = None.

Lemma parsed_mount_ok v m : parse_vhost_user_fs_mount v = inl m -> mount_ok m.
Proof.
  unfold parse_vhost_user_fs_mount, mount_ok. destruct (foldl _ _ _) as [[[[t |] [mp |]] [s |]] |]; try done.
  destruct (validate_vhost_user_fs_mount _) eqn:E; [done |]. by intros [= <-].
Qed.

Lemma mount_ok_texts m : mount_ok m ->
  vh_read_only m = true /\ no_char "," (vh_tag m) /\ no_char "," (vh_mountpoint m) /\ no_char "," (vh_socket m).
Proof.
  unfold mount_ok, validate_vhost_user_fs_mount. destruct (vh_read_only m); [| done]. simpl.
  destruct (_ || (36 <? _)); [done |]. destruct (string_all tag_byte (vh_tag m)) eqn:Ht; [| done].
  destruct (bool_decide (vh_tag m = "home") || _); [done |]. simpl.
  destruct (negb (starts_with "/" (vh_mountpoint m)) || _ || _ || _) eqn:Hm; [done |].
  destruct (negb (starts_with "/" (vh_socket m)) || _ || _) eqn:Hs; [done |]. intros _.
  rewrite !orb_false_iff in Hm, Hs. split_and!; [done | | by apply Hm | by apply Hs].
  exact (string_all_no_char tag_byte "," _ Ht eq_refl).
Qed.

Lemma vhost_arg_parts m : mount_ok m ->
  split_char "," (vhost_user_fs_arg m) = ["tag=" +:+ vh_tag m; "mount=" +:+ vh_mountpoint m; "socket=" +:+ vh_socket m; "ro"].
Proof.
  intros (Hro & Ht & Hm & Hs)%mount_ok_texts. unfold vhost_user_fs_arg. rewrite Hro.
  change (",mount=" +:+ ?s) with (String "," ("mount=" +:+ s)). rewrite <- (string_app_assoc "tag=").
  rewrite split_char_line by (unfold no_char; by rewrite contains_char_app, Ht).
  change (",socket=" +:+ ?s) with (String "," ("socket=" +:+ s)). rewrite <- (string_app_assoc "mount=").
  rewrite split_char_line by (unfold no_char; by rewrite contains_char_app, Hm).
  rewrite <- (string_app_assoc "socket="). rewrite (split_char_line "," ("socket=" +:+ vh_socket m) "ro"); [done |].
  unfold no_char. by rewrite contains_char_app, Hs.
Qed.

Lemma split_key key v : no_char "=" key -> split_once "=" (key +:+ "=" +:+ v) = Some (key, v).
Proof. intros Hk. by apply split_once_char. Qed.

Lemma mount_part_tag t a b c : mount_part (inl (a, b, c)) ("tag=" +:+ t) = inl (Some t, b, c).
Proof. change ("tag=" +:+ t) with ("tag" +:+ "=" +:+ t). unfold mount_part. by rewrite split_key, !bool_decide_false by done. Qed.

Lemma mount_part_mount t a b c : mount_part (inl (a, b, c)) ("mount=" +:+ t) = inl (a, Some t, c).
Proof. change ("mount=" +:+ t) with ("mount" +:+ "=" +:+ t). unfold mount_part. by rewrite split_key, !bool_decide_false by done. Qed.

Lemma mount_part_socket t a b c : mount_part (inl (a, b, c)) ("socket=" +:+ t) = inl (a, b, Some t).
Proof. change ("socket=" +:+ t) with ("socket" +:+ "=" +:+ t). unfold mount_part. by rewrite split_key, !bool_decide_false by done. Qed.

Lemma vhost_arg_parses m : mount_ok m -> parse_vhost_user_fs_mount (vhost_user_fs_arg m) = inl m.
Proof.
  intros Hok. unfold parse_vhost_user_fs_mount. rewrite (vhost_arg_parts m Hok).
  rewrite !filter_cons_True by done. cbn [foldl filter list_filter].
  rewrite mount_part_tag, mount_part_mount, mount_part_socket. cbn.
  destruct (mount_ok_texts m Hok) as [Hro _]. destruct m as [t mp s ro]. simpl in *. subst ro. by rewrite Hok.
Qed.

(** The forwards and the vhost-user mounts of a configuration, as an owner
    is restarted with them, are parsed back by the restarted program to the
    forwards and mounts they were made from, provided the first program got
    them from its own command line. *)
Theorem restart_options_reparse (c : run_config) :
  Forall (fun f => exists v, parse_port_forward v = inl f) (cfg_forwards c) ->
  Forall (fun m => exists v, parse_vhost_user_fs_mount v = inl m) (cfg_vhost_user_fs c) ->
  (forall f, f ∈ cfg_forwards c -> ["--forward"; forward_spec f] `sublist_of` owner_restart_args c /\
     parse_port_forward (forward_spec f) = inl f) /\
  (forall m, m ∈ cfg_vhost_user_fs c -> ["--vhost-user-fs"; vhost_user_fs_arg m] `sublist_of` owner_restart_args c /\
     parse_vhost_user_fs_mount (vhost_user_fs_arg m) = inl m).
Proof.
  intros Hf Hm. rewrite Forall_forall in Hf. rewrite Forall_forall in Hm. split.
  - intros f Hin. destruct (Hf f Hin) as [v Hv]. split; [| by eapply forward_spec_parses, parsed_forward_ok].
    unfold owner_restart_args. do 5 apply sublist_inserts_l. apply sublist_inserts_r.
    apply list_elem_of_split in Hin as (l1 & l2 & ->). rewrite fmap_app, concat_app. apply sublist_inserts_l.
    by apply sublist_inserts_r.
  - intros m Hin. destruct (Hm m Hin) as [v Hv]. split; [| by eapply vhost_arg_parses, parsed_mount_ok].
    unfold owner_restart_args. do 6 apply sublist_inserts_l. apply sublist_inserts_r.
    apply list_elem_of_split in Hin as (l1 & l2 & ->). rewrite fmap_app, concat_app. apply sublist_inserts_l.
    by apply sublist_inserts_r.
Qed.

Lemma restart_options_reparse_witness :
  let f := mk_forward "127.0.0.1" 8080 "127.0.0.1" 80 in
  let m := mk_vhost "src" "/src" "/run/v.sock" true in
  parse_port_forward "8080:80" = inl f /\ parse_vhost_user_fs_mount "tag=src,mount=/src,socket=/run/v.sock" = inl m /\
  parse_port_forward (forward_spec f) = inl f /\ parse_vhost_user_fs_mount (vhost_user_fs_arg m) = inl m.
Proof.
  intros f m. assert (Hf : parse_port_forward "8080:80" = inl f) by (vm_compute; reflexivity).
  assert (Hm : parse_vhost_user_fs_mount "tag=src,mount=/src,socket=/run/v.sock" = inl m) by (vm_compute; reflexivity).
  split; [exact Hf |]. split; [exact Hm |].
  set (c := mk_config (cfg_layout (demo_config 2)) "/h/w" 2 512 false None [f] false [m] None false).
  destruct (restart_options_reparse c) as [H1 H2].
  - constructor; [by exists "8080:80" | constructor].
  - constructor; [by exists "tag=src,mount=/src,socket=/run/v.sock" | constructor].
  - split; [apply (H1 f), list_elem_of_singleton; reflexivity | apply (H2 m), list_elem_of_singleton; reflexivity].
Defined.

(** ** The shape a command runs in *)

Section shape.
Context {JR : Json record} {JM : Json manifest} {JL : Json launch_metadata}.

(** The configuration a shape was read from. *)
Definition shape_read (m : fsmap) (dir : path) (shape : snapshot_shape) : Prop :=
  exists rec id c, record_at dir m = Some rec /\ r_latest rec = Some id /\
    vm_config_in m (generation_dir dir id) = inl (Some c) /\ ss_cpus shape = sv_vcpu_count c /\
    ss_memory_mib shape = memory_mib c.

Lemma shape_of_config c meta shape : shape_of c meta = Some shape ->
  ss_cpus shape = sv_vcpu_count c /\ ss_memory_mib shape = memory_mib c.
Proof. unfold shape_of. destruct (_ && _); [| done]. by intros [= <-]. Qed.

Lemma reads_snapshot_shape dir : reads (latest_snapshot_shape dir) (fun m o => forall shape, o = Some shape -> shape_read m dir shape).
Proof.
  eapply reads_bind; [apply reads_attempt, reads_latest |]. intros [[g |] |]; [| by apply reads_ret | by apply reads_ret].
  eapply reads_bind; [apply reads_attempt, reads_vm_config |]. intros [[c |] |]; [| by apply reads_ret | by apply reads_ret].
  eapply (reads_bind _ _ (fun _ _ => True)).
  { eapply reads_mono; [| apply (reads_attempt _ (fun _ _ => True))]; [done |].
    eapply reads_bind; [apply reads_look |]. intros data. destruct (from_slice data); [by apply reads_ret | apply reads_fail]. }
  intros meta. apply reads_ret. intros m _ Hc Hg shape Hs. destruct (Hg g eq_refl) as (rec & id & Hrec & Hl & Hdir).
  exists rec, id, c. rewrite <- Hdir. destruct (shape_of_config _ _ _ Hs). split_and!; try done. by apply Hc.
Qed.

(** A run of an instance with saved memory asks for the CPUs and the memory
    the saved memory has, whatever the settings of the instance say, so the
    shape never stands in the way of resuming it, except where the command line
    itself asks for another shape: then, and only then, the resumption is
    refused for its shape. *)
Theorem shape_refused_only_by_flags E w w' dir shape cpus mib nested no_shares persisted config :
  latest_snapshot_shape dir E w = Ok (Some shape) w' ->
  let asked := effective_shape cpus mib nested no_shares (Some shape) persisted None in
  cfg_cpus config = vs_cpus asked -> cfg_memory_mib config = vs_memory_mib asked ->
  exists rec id c, record_at dir (w_fs w) = Some rec /\ r_latest rec = Some id /\
    vm_config_in (w_fs w) (generation_dir dir id) = inl (Some c) /\
    (shape_obstacle (Some c) config = None <->
     (forall n, cpus = Some n -> n = sv_vcpu_count c) /\ (forall n, mib = Some n -> n = memory_mib c)).
Proof.
  intros Hr asked Hcpus Hmib. destruct (reads_snapshot_shape dir E w) as [_ Hs].
  destruct (Hs _ _ Hr shape eq_refl) as (rec & id & c & Hrec & Hl & Hc & Hsc & Hsm). exists rec, id, c. split_and!; [done.. |].
  unfold shape_obstacle, vm_config_matches. rewrite Hcpus, Hmib. unfold asked, effective_shape, effective_cpus. simpl.
  rewrite Hsc, Hsm. destruct cpus as [n |], mib as [k |]; simpl; repeat case_bool_decide; simpl; naive_solver.
Qed.

End shape.

(** The demo with a header for two CPUs and 512 MiB in its saved memory. *)
Definition shaped : world := left_by (derive demo_dir (fun d => fs_write (d /: VMSTATE) demo_header) quiet demo).

Lemma shape_refused_only_by_flags_witness :
  exists rec id c, record_at demo_dir (w_fs shaped) = Some rec /\ r_latest rec = Some id /\
    vm_config_in (w_fs shaped) (generation_dir demo_dir id) = inl (Some c) /\
    (shape_obstacle (Some c) (demo_config 3) = None <->
     (forall n, Some 3%N = Some n -> n = sv_vcpu_count c) /\ (forall n, None = Some n -> n = memory_mib c)).
Proof.
  destruct (latest_snapshot_shape demo_dir quiet shaped) as [o w' | e w' | w'] eqn:Hr.
  - assert (Ho : match latest_snapshot_shape demo_dir quiet shaped with Ok o _ => o | _ => None end =
      Some (mk_shape 2 512 false false)) by (vm_compute; reflexivity).
    rewrite Hr in Ho. subst o.
    exact (shape_refused_only_by_flags quiet shaped w' demo_dir (mk_shape 2 512 false false) (Some 3%N) None false false
      default_descriptor (demo_config 3) Hr eq_refl eq_refl).
  - exfalso. assert (Hok : is_ok (latest_snapshot_shape demo_dir quiet shaped) = true) by (vm_compute; reflexivity).
    rewrite Hr in Hok. discriminate Hok.
  - exfalso. assert (Hok : is_ok (latest_snapshot_shape demo_dir quiet shaped) = true) by (vm_compute; reflexivity).
    rewrite Hr in Hok. discriminate Hok.
Defined.

(** ** Settings *)

(** What the command accepts for a setting. *)
Definition sensible (d : instance_descriptor) : Prop :=
  (forall n, d_cpus d = Some n -> (1 <= n < 2 ^ 8)%N) /\ (forall n, d_memory_mib d = Some n -> (256 <= n < 2 ^ 32)%N).

Lemma apply_setting_cases d s d' : apply_setting d s = inl d' ->
  (exists n, d' = with_cpus d n /\ (1 <= n < 2 ^ 8)%N) \/ (exists n, d' = with_memory_mib d n /\ (256 <= n < 2 ^ 32)%N).
Proof.
  unfold apply_setting. destruct (split_once "=" s) as [[key value] |]; [| done]. case_bool_decide.
  - destruct (parse_unsigned (2 ^ 8) value) as [n |] eqn:Hn; [| done]. apply parse_unsigned_bound in Hn.
    destruct (N.eqb_spec n 0); [done |]. intros [= <-]. left. exists n. split; [done | lia].
  - destruct (_ || _); [| done]. destruct (parse_unsigned (2 ^ 32) value) as [n |] eqn:Hn; [| done].
    apply parse_unsigned_bound in Hn. destruct (N.ltb_spec n 256); [done |]. intros [= <-]. right. exists n. split; [done | lia].
Qed.

(** Settings change the shape and nothing else of a descriptor. *)
Lemma apply_settings_keeps d settings d' : apply_settings d settings = inl d' ->
  d_name d' = d_name d /\ d_created d' = d_created d /\ d_image d' = d_image d /\
  (sensible d -> sensible d') /\ (valid_descriptor d -> valid_descriptor d').
Proof.
  revert d. induction settings as [| s settings IH]; intros d; simpl; [by intros [= <-] |].
  destruct (apply_setting d s) as [d1 |] eqn:Hs; [| done]. intros Hd. destruct (IH d1 Hd) as (H1 & H2 & H3 & H4 & H5).
  apply apply_setting_cases in Hs as [(n & -> & Hn) | (n & -> & Hn)]; simpl in *;
    (split_and!; [done.. | intros [Hc Hm]; apply H4; split; simpl; naive_solver |
     intros [Hc Hm]; apply H5; split; simpl; naive_solver lia]).
Qed.

Section settings.
Context {JR : Json record} {JM : Json manifest} {JL : Json launch_metadata}.
Context {JD : Json instance_descriptor} {JDL : JsonLaws instance_descriptor valid_descriptor}.
Context {TF : TempFiles} {TL : TempLaws} (E : env) (l : layout) (changes : list string).

Local Abbreviation dir := (lo_instance_dir l).

(** The settings of an instance, changed as asked. *)
Definition changed (m : fsmap) (d : instance_descriptor) : Prop :=
  exists d0 d1, settings m dir d0 /\ apply_settings d0 changes = inl d1 /\ d = named (lo_instance l) d1.

Lemma changed_valid d0 d1 : valid_descriptor d0 -> apply_settings d0 changes = inl d1 -> valid_descriptor (named (lo_instance l) d1).
Proof.
  intros Hv Hd. apply apply_settings_keeps in Hd as (_ & _ & _ & _ & Hd). unfold named. destruct (d_name d1); by apply Hd.
Qed.

Lemma settings_moved m m' d0 : m' !! (dir /: DESCRIPTOR_FILE) = m !! (dir /: DESCRIPTOR_FILE) -> settings m' dir d0 -> settings m dir d0.
Proof. unfold settings, descriptor_at, json_at, contents_at. by intros ->. Qed.

(** Changing settings is all or nothing, at every point where the command
    can fail or be killed: the descriptor is the one that was there or that one
    with every change made, and when the command succeeds it is the latter. *)
Theorem settings_changed_whole st m : well_formed m ->
  triple E (eq m) (set_instance_settings st l changes)
    (fun r m' => changed m r.1 /\ descriptor_at m' dir = Some r.1)
    (fun m' => m' !! (dir /: DESCRIPTOR_FILE) = m !! (dir /: DESCRIPTOR_FILE) \/
       exists d, changed m d /\ descriptor_at m' dir = Some d).
Proof using JDL TL.
  intros Hwf. unfold set_instance_settings.
  eapply (t_bind _ _ _ _ (fun _ m1 => m1 !! (dir /: DESCRIPTOR_FILE) = m !! (dir /: DESCRIPTOR_FILE) /\ well_formed m1)).
  { eapply t_keep_form; [by intros ? <- | apply keeps_form_create_dir_all |].
    eapply t_conseq; [apply (t_modifies E (fun q => below q dir)), modifies_create_dir_all; done | done | ..].
    - intros [] m1 Hf. apply Hf, not_below_child.
    - intros m1 Hf. left. apply Hf, not_below_child. }
  intros []. apply t_start. intros m1 [H1 Hwf1].
  destruct st as [st | e]; [| by intros w Hw; left; simpl; rewrite <- Hw]. change (lift (inl st) ≫= ?k) with (k st). cbn beta.
  destruct (match st with Held (Some lease) => _ | _ => _ end); [by intros w Hw; left; simpl; rewrite <- Hw |].
  eapply (t_bind _ _ _ _ (fun d m2 => m1 = m2 /\ settings m2 dir d /\ valid_descriptor d)).
  { eapply t_reads; [apply reads_load | by intros ? <-; left |]. by intros ? d <- Hd. }
  intros d0. apply t_start. intros ? (<- & Hset & Hv). apply (settings_moved m) in Hset; [| done].
  destruct (apply_settings d0 changes) as [d1 | e] eqn:Hd; [| by intros w Hw; left; simpl; rewrite <- Hw]. cbn zeta.
  assert (Hch : changed m (named (lo_instance l) d1)) by by exists d0, d1.
  eapply t_bind; [eapply t_conseq; [apply (t_save E dir _ m1 (changed_valid d0 d1 Hv Hd) Hwf1) | done | intros u m2 H; exact H |] |].
  { intros m2 [[H2 | H2] _]; [left; congruence | right; by eexists]. }
  intros []. apply t_start. intros m2 [H2 _].
  eapply (t_bind _ _ _ _ (fun _ m3 => m2 = m3)).
  { eapply t_reads; [apply reads_snapshot_shape | intros ? <-; right; by eexists |]. by intros ? o <- _. }
  intros o. apply t_ret. by intros ? <-.
Qed.
End settings.

Definition set_demo : outcome (instance_descriptor * option string) :=
  set_instance_settings (inl (Free None)) fork_from ["cpus=3"; "memory-mib=1024"] quiet demo2.

Lemma settings_changed_whole_witness :
  match set_demo with
  | Ok r w' => r.1 = mk_descriptor (Some "demo") None None (Some 3%N) (Some 1024%N) /\
      descriptor_at (w_fs w') demo_dir = Some r.1
  | _ => False
  end.
Proof.
  assert (H := settings_changed_whole quiet fork_from ["cpus=3"; "memory-mib=1024"] (inl (Free None)) (w_fs demo2)
    (proj1 demo2_good) demo2 eq_refl).
  assert (Hr : match set_demo with Ok r _ => Some r.1 | _ => None end =
    Some (mk_descriptor (Some "demo") None None (Some 3%N) (Some 1024%N))) by (vm_compute; reflexivity).
  unfold set_demo in *. destruct (set_instance_settings _ _ _ _ _) as [r w' | e w' | w']; [| discriminate Hr | discriminate Hr].
  injection Hr as Hr. split; [exact Hr | exact (proj2 H)].
Defined.

(** ** Copies *)

(** What a tar started in [cwd] reads for its operands: the documented meaning
    of [-C], which changes the directory for the operands after it, starting
    from the directory the last one left. [None] is a failure: there is no
    directory with an empty name, and an operand with a leading dash is an
    option. *)
Fixpoint tar_reads (cwd : pathbuf) (args : list string) : option (list pathbuf) :=
  match args with
  | [] => Some []
  | a :: args' =>
      if bool_decide (a = "-C") then
        match args' with
        | dir :: args'' =>
            if bool_decide (dir = EmptyString) then None else tar_reads (path_join cwd (path_components dir)) args''
        | [] => None
        end
      else if starts_with "-" a then None
      else (fun l => path_join cwd (path_components a) :: l) <$> tar_reads cwd args'
  end.

Lemma split_char_some c s : split_char c s <> [].
Proof. destruct s as [| x s]; [done |]. simpl. destruct (Ascii.eqb x c); [done |]. by destruct (split_char c s). Qed.

Lemma split_char_app c a b : split_char c (a +:+ String c b) = split_char c a ++ split_char c b.
Proof.
  induction a as [| x a IH]; simpl; [by rewrite Ascii.eqb_refl |].
  destruct (Ascii.eqb x c); rewrite IH; [done |]. destruct (split_char c a) eqn:Ha; [| done].
  by apply split_char_some in Ha.
Qed.

Lemma absolute_components r : path_components (String "/" r) = RootDir :: omap inner_component (split_char "/" r).
Proof. unfold path_components, starts_with. cbn -[split_char inner_component]. simpl split_char. cbn [omap]. by destruct r. Qed.

(** What ends an absolute path shows in its components only if it is a name. *)
Lemma components_snoc r b : no_char "/" b ->
  path_components (String "/" r +:+ String "/" b) = path_components (String "/" r) ++ option_list (inner_component b).
Proof.
  intros Hb. simpl. rewrite !absolute_components, split_char_app, (split_char_single "/" b Hb), omap_app. simpl.
  by destruct (inner_component b).
Qed.

Definition absolute_text (s : string) : Prop := exists r, s = String "/" r.

(** One step of trimming. *)
Lemma trim_step s s' : absolute_text s -> s <> "/" -> s = s' +:+ "/" ->
  absolute_text s' /\ path_components s' = path_components s /\ String.length s' < String.length s.
Proof.
  intros [r ->] Hne Hs. destruct s' as [| x s']; simpl in Hs; [by rewrite Hs in Hne |]. injection Hs as <- ->.
  split_and!; [by eexists | | simpl; rewrite string_app_length; simpl; lia].
  change (String "/" (s' +:+ "/")) with (String "/" s' +:+ String "/" EmptyString).
  rewrite components_snoc by done. simpl. by rewrite app_nil_r.
Qed.

Lemma trim_dot_step s s' : absolute_text s -> s = s' +:+ "/." ->
  absolute_text (s' +:+ "/") /\ path_components (s' +:+ "/") = path_components s /\
  String.length (s' +:+ "/") < String.length s.
Proof.
  intros [r Hr] Hs. rewrite Hs, !string_app_length. destruct s' as [| x s']; [split_and!; [by exists EmptyString | done | simpl; lia] |].
  rewrite Hs in Hr. injection Hr as -> _. split_and!; [by eexists | | simpl; lia].
  rewrite (components_snoc s' "."), (components_snoc s' EmptyString) by done. done.
Qed.

Lemma trim_tail_keeps fuel s : absolute_text s -> String.length s < fuel ->
  let t := trim_tail fuel s in
  absolute_text t /\ path_components t = path_components s /\ (t = "/" \/ strip_suffix "/" t = None /\ strip_suffix "/." t = None).
Proof.
  revert s. induction fuel as [| fuel IH]; intros s Ha Hlen; [lia |]. cbn [trim_tail].
  case_bool_decide as Hroot; [subst; split_and!; [done | done | by left] |].
  destruct (strip_suffix "/" s) as [s' |] eqn:Hs.
  - apply strip_suffix_spec in Hs. destruct (trim_step s s' Ha Hroot Hs) as (Ha' & Hc & Hl).
    destruct (IH s' Ha' ltac:(lia)) as (H1 & H2 & H3). split_and!; [done | congruence | done].
  - destruct (strip_suffix "/." s) as [s' |] eqn:Hd; [| split_and!; [done | done | by right]].
    apply strip_suffix_spec in Hd. destruct (trim_dot_step s s' Ha Hd) as (Ha' & Hc & Hl).
    destruct (IH _ Ha' ltac:(lia)) as (H1 & H2 & H3). split_and!; [done | congruence | done].
Qed.

Lemma trimmed_keeps s : absolute_text s ->
  absolute_text (trimmed s) /\ path_components (trimmed s) = path_components s /\
  (trimmed s = "/" \/ strip_suffix "/" (trimmed s) = None /\ strip_suffix "/." (trimmed s) = None).
Proof. intros Ha. apply trim_tail_keeps; [done | lia]. Qed.

Lemma name_components b : no_char "/" b -> b <> "." -> inner_component b = Some (Normal b) -> path_components b = [Normal b].
Proof.
  intros Hb Hd Hin. unfold path_components. rewrite (split_char_single "/" b Hb), (bool_decide_false (b = ".")) by done.
  assert (Hs : starts_with "/" b = false).
  { destruct b as [| x b]; [done |]. unfold no_char in Hb. rewrite contains_char_cons in Hb. apply orb_false_iff in Hb as [Hx _].
    unfold starts_with. cbn [String.prefix]. destruct (ascii_dec "/" x) as [<- |]; [done | done]. }
  by rewrite Hs, Hin.
Qed.

(** An absolute path is its parent and its file name. *)
Lemma absolute_parts s name : absolute_text s -> file_name_text s = Some name ->
  exists p, parent_text s = Some p /\ absolute_text p /\ path_components s = path_components p ++ [Normal name] /\
    path_components name = [Normal name].
Proof.
  intros Ha. destruct (trimmed_keeps s Ha) as ([r Hr] & Hc & Ht). unfold file_name_text, parent_text. rewrite Hr in *.
  destruct (rsplit_once "/" (String "/" r)) as [[a b] |] eqn:Hs; cycle 1.
  { simpl in Hs. by destruct (rsplit_once "/" r) as [[] |]. }
  apply rsplit_once_spec in Hs as [Hab Hb]. rewrite Hab in *. destruct (bool_decide (b = EmptyString)) eqn:Hb0; [done |].
  apply bool_decide_eq_false in Hb0. destruct (bool_decide (b = "..")) eqn:Hb2; [done |]. apply bool_decide_eq_false in Hb2.
  destruct (bool_decide (_ = ".")); [done |]. simpl. intros [= <-].
  rewrite (bool_decide_false (a +:+ String "/" b = EmptyString)) by (by destruct a).
  rewrite (bool_decide_false (a +:+ String "/" b = "/")) by (destruct a as [| ? []]; simpl; congruence). simpl.
  assert (Hup : absolute_text (a +:+ "/")) by (destruct a as [| x a]; simpl in *; [by eexists | injection Hab as <- _; by eexists]).
  destruct (trimmed_keeps _ Hup) as (Hp & Hpc & _). exists (trimmed (a +:+ "/")). split; [done |]. split; [done |]. rewrite Hpc, <- Hc.
  assert (Hdot : b <> ".").
  { intros ->. destruct Ht as [Ht | [_ Ht]]; [by destruct a as [| ? []] |].
    assert (Hd : strip_suffix "/." (a +:+ "/.") = Some a) by (by apply strip_suffix_spec). congruence. }
  assert (Hin : inner_component b = Some (Normal b)) by (unfold inner_component; by rewrite !bool_decide_false).
  split; [| exact (name_components b Hb Hdot Hin)].
  destruct a as [| x a]; simpl in Hab.
  - simpl. rewrite absolute_components, (split_char_single "/" b Hb). simpl. by rewrite Hin.
  - injection Hab as <- _. rewrite !components_snoc by done. simpl. by rewrite Hin, app_nil_r.
Qed.

(** A source a copy names absolutely. *)
Definition absolute_source (source : string) (p : string) : Prop :=
  source = "host:" +:+ p /\ absolute_text p /\
  exists name, file_name_text p = Some name /\ starts_with "-" name = false.

Lemma absolute_join cwd p name : absolute_text p -> path_join (path_join cwd (path_components p)) [Normal name] = path_components p ++ [Normal name].
Proof. intros [r ->]. by rewrite absolute_components. Qed.

Lemma tar_reads_absolute cwd sources ps : Forall2 absolute_source sources ps ->
  exists args, tar_sources sources = inl args /\ tar_reads cwd args = Some (path_components <$> ps).
Proof.
  intros HF. revert cwd. induction HF as [| s p sources ps (-> & Ha & name & Hname & Hdash) HF IH]; intros cwd; [by exists [] |].
  destruct (absolute_parts p name Ha Hname) as (up & Hup & Hupa & Hc & Hn).
  destruct (IH (path_join cwd (path_components up))) as (args & Hargs & Hreads).
  exists ("-C" :: up :: name :: args). cbn [tar_sources]. unfold strip_host_prefix. rewrite strip_prefix_app.
  destruct p as [| x p]; [by destruct Ha |]. rewrite Hname, Hargs, Hup. split; [done |].
  cbn [tar_reads]. rewrite bool_decide_true by done. rewrite bool_decide_false by (by destruct Hupa as [? ->]).
  rewrite bool_decide_false by (intros ->; discriminate Hdash). rewrite Hdash, Hreads, Hn. simpl.
  by rewrite absolute_join, <- Hc by done.
Qed.

(** The host's tar reads exactly the files a copy to the guest names,
    in their order, when they are named by absolute paths.  It does not for
    relative ones: a bare name makes tar change to a directory with an empty
    name, and after a source in one directory the next one is looked for below
    that directory. *)
Theorem copy_reads_absolute_sources :
  (forall cwd sources ps, Forall2 absolute_source sources ps ->
     exists args, host_tar_args sources = inl ("-cf" :: "-" :: args) /\ tar_reads cwd args = Some (path_components <$> ps)) /\
  host_tar_args ["host:notes.txt"] = inl ["-cf"; "-"; "-C"; ""; "notes.txt"] /\
  (forall cwd, tar_reads cwd ["-C"; ""; "notes.txt"] = None) /\
  host_tar_args ["host:a/x"; "host:b/y"] = inl ["-cf"; "-"; "-C"; "a"; "x"; "-C"; "b"; "y"] /\
  (forall cwd, tar_reads (RootDir :: cwd) ["-C"; "a"; "x"; "-C"; "b"; "y"] =
     Some [RootDir :: cwd ++ [Normal "a"; Normal "x"]; RootDir :: cwd ++ [Normal "a"; Normal "b"; Normal "y"]]).
Proof.
  split_and!; [| reflexivity | done | reflexivity |].
  - intros cwd sources ps HF. destruct (tar_reads_absolute cwd sources ps HF) as (args & Hargs & Hr).
    exists args. split; [| done]. unfold host_tar_args. by rewrite Hargs.
  - intros cwd.
    change (Some [RootDir :: (cwd ++ [Normal "a"]) ++ [Normal "x"]; RootDir :: ((cwd ++ [Normal "a"]) ++ [Normal "b"]) ++ [Normal "y"]] =
      Some [RootDir :: cwd ++ [Normal "a"; Normal "x"]; RootDir :: cwd ++ [Normal "a"; Normal "b"; Normal "y"]]).
    by rewrite <- !app_assoc.
Qed.

(** ** Processes *)

Lemma dedup_cons x y l : dedup (x :: y :: l) = if bool_decide (x = y) then dedup (y :: l) else x :: dedup (y :: l).
Proof. done. Qed.

Lemma elem_of_dedup a l : a ∈ dedup l <-> a ∈ l.
Proof.
  induction l as [| x l IH]; [done |]. destruct l as [| y l]; [done |]. rewrite dedup_cons. case_bool_decide as Hxy.
  - subst. rewrite IH, (elem_of_cons (y :: l)). split; [by right |]. intros [-> | Ha]; [by left | done].
  - by rewrite !(elem_of_cons _ a x), IH.
Qed.

Lemma dedup_sorted l : StronglySorted Z.le l -> StronglySorted Z.lt (dedup l).
Proof.
  induction 1 as [| x l Hl IH Hx]; [constructor |]. destruct l as [| y l]; [by repeat constructor |]. rewrite dedup_cons.
  case_bool_decide as Hxy; [done |]. constructor; [done |]. rewrite Forall_forall in Hx |- *. intros z Hz. apply (proj1 (elem_of_dedup _ _)) in Hz.
  apply StronglySorted_inv in Hl as [_ Hy]. rewrite Forall_forall in Hy. assert (x <= y)%Z by (apply Hx; by left).
  apply elem_of_cons in Hz as [-> | Hz]; [lia |]. specialize (Hy z Hz). lia.
Qed.

(** The processes listed for an instance are its owner and the others found,
    each once, in order. *)
Theorem pids_listed_once owner others : StronglySorted Z.lt (instance_pids owner others) /\
  forall pid, pid ∈ instance_pids owner others <-> owner = Some pid \/ pid ∈ others.
Proof.
  unfold instance_pids. split.
  - apply dedup_sorted, StronglySorted_merge_sort; [intros ???; lia | intros ??; lia].
  - intros pid. rewrite elem_of_dedup. rewrite merge_sort_Permutation, elem_of_app.
    destruct owner as [o |]; simpl; [rewrite list_elem_of_singleton |]; split; naive_solver (try set_solver).
Qed.
