(* ===== verification/CreateTheorems.v ===== *)
(** * New instances

    [ensure_instance_from] of [src/src/init.rs]: a command that finds no
    instance and gets its lock makes the first generation, with the contents of
    the image, and the record that names it, or leaves no record. *)

From S2P Require Import Prelude FileSystem FsLogic FsUtil FsCopy Text.
From S2P Require Import Store StoreLogic StoreSafety StorePublish StoreCopy StoreExample Paths Legacy HostShare Snapshots.
From S2P Require Import Instances InstanceLogic ForkTheorems Init InitTheorems.

Section creating.
Context {JR : Json record} {JM : Json manifest} {JC : Json checkpoint_ref} {JD : Json instance_descriptor}.
Context {JRL : JsonLaws record valid_record} {JML : JsonLaws manifest valid_manifest}.
Context {JDL : JsonLaws instance_descriptor valid_descriptor} {TF : TempFiles} {TL : TempLaws}.
Context (rfc3339 : N -> option string) (E : env) (l : layout) (image : path).

Local Abbreviation dir := (lo_instance_dir l).

(** The instance is inside its base, and the image is not part of it. *)
Context (Hbase : below (lo_base l) dir) (Himage : disjoint dir image) (Hignore : image <> lo_base l /: ".gitignore").

(** What is touched before the lock is taken. *)
Definition beforehand (q : path) : Prop := below q dir \/ q = lo_base l /: ".gitignore" \/ saving dir q.

Lemma beforehand_image : ~ beforehand image.
Proof using Himage Hignore.
  destruct Himage as [Hdi Hid]. intros [Hb | [Hb | [Hb | [Hb | [s Hb]]]]]; try done.
  - by apply below_child in Hb.
  - by apply below_child in Hb.
Qed.

Lemma beforehand_entry name : name <> ".gitignore" -> name <> DESCRIPTOR_FILE -> starts_with ".lnx-descriptor-" name = false ->
  ~ beforehand (dir /: name).
Proof.
  intros Hg Hd Ht. intros [Hb | [Hb | [Hb | [Hb | [s Hb]]]]].
  - by apply not_below_child in Hb.
  - by apply app_inj_tail in Hb as [_ ?].
  - by apply not_below_child in Hb.
  - by apply (below_sibling dir DESCRIPTOR_FILE name (dir /: name)) in Hb; [| apply below_refl].
  - apply (below_sibling dir _ name (dir /: name)) in Hb; [| apply below_refl]. rewrite <- Hb in Ht. by destruct s.
Qed.

Lemma t_ensure_base m : well_formed m ->
  triple E (eq m) (ensure_base_ignored (lo_base l)) (fun _ m' => frame beforehand m m' /\ well_formed m') (frame beforehand m).
Proof using Hbase.
  intros Hwf. apply t_step; [done | |].
  - unfold ensure_base_ignored. apply respects_bind; [apply _ | apply modifies_create_dir_all |].
    + intros q Hq. left. by eapply below_trans.
    + intros u. apply respects_bind; [apply _ | auto with frames |]. intros [|]; [respects_tac |].
      apply modifies_fs_write. right. by left.
  - unfold ensure_base_ignored. respects_tac.
Qed.

Lemma t_make_dir m : well_formed m ->
  triple E (eq m) (make_dir dir) (fun _ m' => frame beforehand m m' /\ well_formed m') (frame beforehand m).
Proof.
  intros Hwf. apply t_step; [done | |]; unfold make_dir; respects_tac. apply modifies_create_dir_all. by left.
Qed.

Lemma t_saved m d : well_formed m -> valid_descriptor d ->
  triple E (eq m) (save_descriptor l d) (fun _ m' => frame beforehand m m' /\ well_formed m') (frame beforehand m).
Proof using JDL TL.
  intros Hwf Hv. assert (Hsv : forall m', frame (saving dir) m m' -> frame beforehand m m').
  { intros m' Hf. eapply frame_mono, Hf. intros q Hq. right. by right. }
  change (save_descriptor l d) with (save_in_instance_dir dir d).
  eapply t_conseq; [eapply t_keep_form; [| apply keeps_form_save | by apply (t_save E dir d m)] | done | ..].
  - by intros ? <-.
  - intros u m' [[_ Hf] Hwf']. auto.
  - intros m' [_ Hf]. auto.
Qed.

Lemma t_identity m text : well_formed m ->
  triple E (eq m) (ensure_identity rfc3339 l text) (fun _ m' => frame beforehand m m' /\ well_formed m') (frame beforehand m).
Proof using JDL TL.
  intros Hwf. unfold ensure_identity.
  eapply (t_bind _ _ _ _ (fun d m' => m = m' /\ valid_descriptor d)).
  { eapply t_reads; [apply reads_load | by intros ? <- |]. by intros ? d <- [_ Hd]. }
  intros d. apply t_start. intros ? [<- Hv]. cbv zeta.
  eapply (t_bind _ _ _ _ (fun d' m' => m = m' /\ valid_descriptor d')).
  { destruct (d_name d) eqn:Hn.
    - destruct (d_created d); [apply t_ret; by intros ? <- |].
      eapply (t_bind _ _ _ _ (fun _ m' => m = m')); [apply t_silent; [auto with frames | done | by intros ? <-] |].
      intros now. apply t_ret. by intros ? <-.
    - simpl. destruct (d_created d); [apply t_ret; by intros ? <- |].
      eapply (t_bind _ _ _ _ (fun _ m' => m = m')); [apply t_silent; [auto with frames | done | by intros ? <-] |].
      intros now. apply t_ret. by intros ? <-. }
  intros d'. apply t_start. intros ? [<- Hv']. case_bool_decide; [| apply t_ret; by intros ? <-].
  apply t_saved; [done |]. destruct (d_image d'); exact Hv'.
Qed.

(** The record of an instance with one generation. *)
Local Abbreviation first id := (mk_record RECORD_VERSION (Some id) Stopped).

(** No record, or a good one. *)
Definition none_or_first (m : fsmap) : Prop := m !! state_path dir = None \/ exists id, good dir m (first id).

(** The first generation holds what the image does. *)
Definition created (f : file) (m : fsmap) : Prop :=
  exists id b, good dir m (first id) /\ m !! (generation_dir dir id /: ROOTFS) = Some (NFile (mk_file (f_data f) b)).

(** Steps above the staging directory leave the record and the image alone. *)
Lemma staging_apart id m m' : frame (fun q => below q (staging_dir dir id /: ROOTFS)) m m' ->
  m' !! state_path dir = m !! state_path dir /\ m' !! image = m !! image.
Proof using Himage.
  clear Hignore. intros Hf. destruct Himage as [Hdi Hid]. split; apply Hf.
  - intros Hb. apply below_spec in Hb as [s Hs]. unfold staging_dir, generations_dir, state_path in Hs.
    rewrite <- !app_assoc in Hs. apply app_inv_head in Hs. by simplify_eq/=.
  - intros Hb. unfold staging_dir, generations_dir in Hb. rewrite <- !app_assoc in Hb.
    apply below_app_inv in Hb as [Hb | Hb]; [by apply Hid | by apply Hdi].
Qed.

Lemma t_first_generation m f : well_formed m -> m !! state_path dir = None -> m !! image = Some (NFile f) ->
  triple E (eq m) (create_first_generation l image) (fun _ => created f) none_or_first.
Proof using JRL JML Himage.
  intros Hwf Hnone Himg. unfold create_first_generation, store_exists.
  eapply (t_bind _ _ _ _ (fun there m' => m = m' /\ there = false)).
  { eapply t_reads; [apply (reads_there (state_path dir)) | intros ? <-; by left |]. intros ? b <- Hb. split; [done |].
    destruct b; [| done]. destruct (Hb eq_refl) as [nd Hnd]. congruence. }
  intros there. apply t_start. intros ? [<- ->].
  eapply (t_bind _ _ _ _ (fun st m1 => (well_formed m1 /\ m1 !! state_path dir = None /\ m1 !! image = Some (NFile f)) /\
    s_dir st = staging_dir dir (s_id st) /\ valid_id (s_id st))).
  { eapply t_returns; [| apply returns_stage]. unfold stage.
    eapply (t_bind _ _ _ _ (fun _ m' => m = m')); [apply t_silent; [auto with frames | done | intros ? <-; by left] |].
    intros id. apply t_start. intros ? <-.
    assert (Hfr : forall m1, frame (fun q => below q (staging_dir dir id)) m m1 -> m1 !! state_path dir = None /\ m1 !! image = Some (NFile f)).
    { intros m1 Hf. destruct (staging_apart id m m1) as [Hs Hi]; [| split; congruence].
      eapply frame_mono, Hf. intros q Hq. eapply below_trans; [exact Hq | apply below_snoc]. }
    eapply t_bind; [eapply t_conseq; [apply (t_step E _ (fun q => below q (staging_dir dir id)) m Hwf); [by apply modifies_create_dir_all | apply keeps_form_create_dir_all] | done | intros u m1 H; exact H |] |].
    - intros m1 [Hs _]%Hfr. by left.
    - intros u. apply t_ret. intros m1 [Hf Hwf1]. split; [done |]. by apply Hfr. }
  intros st. apply t_start. intros m1 ((Hwf1 & Hn1 & Hi1) & Hst & Hid).
  assert (Hnb : ~ below image (s_dir st /: ROOTFS)).
  { destruct Himage as [Hdi Hdid]. rewrite Hst. unfold staging_dir, generations_dir. rewrite <- !app_assoc.
    intros [Hb | Hb]%below_app_inv; [by apply Hdid | by apply Hdi]. }
  assert (Hfr : forall m2, frame (fun q => below q (s_dir st /: ROOTFS)) m1 m2 -> m2 !! state_path dir = None).
  { intros m2 Hf. rewrite Hst in Hf. destruct (staging_apart _ _ _ Hf) as [-> _]. done. }
  eapply t_bind; [eapply t_conseq; [exact (t_also _ _ _ _ _ _
    (t_step E _ (fun q => below q (s_dir st /: ROOTFS)) m1 Hwf1 (modifies_clone_or_copy_file _ image _ (fun _ H => H)) (keeps_form_clone_or_copy_file image _))
    (t_clone_or_copy_file E m1 image (s_dir st /: ROOTFS) Hnb)) | done | intros u m2 H; exact H | intros m2 Hf; left; by apply Hfr] |].
  intros u. apply t_start. intros m2 ((Hf2 & Hwf2) & _ & f' & b & Hf' & Hcopy). rewrite Hi1 in Hf'. injection Hf' as <-.
  eapply t_bind; [eapply t_conseq; [apply (t_initialize dir E m2 st Hwf2 (Hfr _ Hf2) Hst Hid) | done | intros id m3 H; exact H |] |].
  { intros m3 [H3 | H3]; [by left | right; by eexists]. }
  intros id. apply t_ret. intros m3 (-> & Hg & mf & _ & _ & _ & _ & Htree). exists (s_id st), b. split; [done |].
  assert (Hr := Htree ROOTFS [] ltac:(done) ltac:(done)). by rewrite Hr.
Qed.

(** C17: a command that finds an instance without state and gets its lock makes
    it whole: the record names a complete first generation whose root file
    system has the contents of the image.  Wherever the command fails or is
    killed there is no record, or a good one. *)
Theorem instance_created_whole m f t turns :
  well_formed m -> m !! state_path dir = None -> m !! (dir /: ROOTFS) = None -> m !! image = Some (NFile f) ->
  tn_locked t = inl true ->
  triple E (eq m) (ensure_instance_from rfc3339 t turns l image) (fun _ => created f) none_or_first.
Proof using JRL JML JDL TL Hbase Himage Hignore.
  intros Hwf Hnone Hold Himg Hlock. unfold ensure_instance_from.
  assert (Hkeep : forall m1 m2, frame beforehand m1 m2 -> m2 !! state_path dir = m1 !! state_path dir /\
    m2 !! (dir /: ROOTFS) = m1 !! (dir /: ROOTFS) /\ m2 !! image = m1 !! image).
  { intros m1 m2 Hf. split_and!; apply Hf; [by apply beforehand_entry | by apply beforehand_entry | apply beforehand_image]. }
  assert (Hnf : forall m', frame beforehand m m' -> none_or_first m') by (intros m' (Hs & _)%Hkeep; left; congruence).
  eapply t_bind; [eapply t_conseq; [by apply t_ensure_base | done | intros u m1 H; exact H | exact Hnf] |].
  intros u. apply t_start. intros m1 [Hf1 Hwf1].
  eapply t_bind; [eapply t_conseq; [by apply t_make_dir | done | intros u' m2 H; exact H | intros m2 H; apply Hnf; by etrans] |].
  intros u'. apply t_start. intros m2 [Hf2 Hwf2]. assert (Hf12 : frame beforehand m m2) by by etrans. destruct (Hkeep _ _ Hf12) as (H2 & H2' & H2'').
  eapply (t_bind _ _ _ _ (fun there m' => m2 = m' /\ there = false)).
  { unfold instance_has_state, dir_has_instance_state, store_exists.
    eapply (t_bind _ _ _ _ (fun there m' => m2 = m' /\ there = false)).
    - eapply t_reads; [apply (reads_there (state_path dir)) | intros ? <-; by apply Hnf |]. intros ? b <- Hb. split; [done |].
      destruct b; [| done]. destruct (Hb eq_refl) as [nd Hnd]. congruence.
    - intros there. apply t_start. intros ? [<- ->]. eapply t_reads; [apply (reads_there (dir /: ROOTFS)) | intros ? <-; by apply Hnf |].
      intros ? b <- Hb. split; [done |]. destruct b; [| done]. destruct (Hb eq_refl) as [nd Hnd]. congruence. }
  intros there. apply t_start. intros ? [<- ->].
  eapply t_bind; [eapply t_conseq; [by apply t_identity | done | intros u2 m3 H; exact H | intros m3 H; apply Hnf; by etrans] |].
  intros u2. apply t_start. intros m3 [Hf3 Hwf3]. destruct (Hkeep _ _ Hf3) as (H3 & _ & H3'').
  assert (Hmk := t_first_generation m3 f Hwf3 ltac:(congruence) ltac:(congruence)).
  unfold await_created. destruct turns as [| t' turns]; cbn; rewrite Hlock; unfold with_exclusive_instance_state;
    (eapply (t_bind _ _ _ _ (fun o m' => is_Some o /\ created f m')); [eapply t_bind; [exact Hmk | intros a; apply t_ret; eauto] |]);
    (intros [a |]; apply t_start; intros m4 [? Hc]; [apply t_ret; by intros ? <- | by destruct H]).
Qed.
End creating.

(** ** A new instance *)

Definition image_world : world :=
  mk_world (list_to_map [(["b"], NDir); (["img"], NFile (mk_file [x07; x08] 0))]) 0 0 [].

Definition create_demo : outcome unit :=
  ensure_instance_from (fun _ => None) (mk_turn (inl true) (mret tt)) [] fork_to ["img"] quiet image_world.

Lemma instance_created_whole_witness :
  match create_demo with Ok _ w' => created fork_to (mk_file [x07; x08] 0) (w_fs w') | _ => False end.
Proof.
  assert (Hd : disjoint (lo_instance_dir fork_to) ["img"]).
  { split; intros [s Hs]%below_spec; discriminate Hs. }
  assert (H := instance_created_whole (fun _ => None) quiet fork_to ["img"] (below_app ["b"] ["instances"; "copy"]) Hd
    ltac:(discriminate) (w_fs image_world) (mk_file [x07; x08] 0) (mk_turn (inl true) (mret tt)) []
    (well_formed_b_sound (w_fs image_world) ltac:(vm_compute; reflexivity)) ltac:(vm_compute; reflexivity) ltac:(vm_compute; reflexivity)
    ltac:(vm_compute; reflexivity) eq_refl image_world eq_refl).
  assert (Hok : is_ok create_demo = true) by (vm_compute; reflexivity). unfold create_demo in *.
  destruct (ensure_instance_from _ _ _ _ _ _ _) as [u w' | e w' | w']; [exact H | discriminate Hok | discriminate Hok].
Defined.
