(* ===== verification/Cas.v ===== *)
(** * Content-addressed blocks and sandbox bundles

    The part of [src/src/server.rs] that moves the contents of a sandbox
    between hosts: the blocks a server keeps under their SHA-256, the stream
    they are uploaded in, the manifest that says which blocks make up which
    file, writing the files of a manifest or of a sparse bundle, and finding
    the files and extents to send.  SHA-256, [lseek], temporary files and zstd
    are parameters; permissions are not represented. *)

From S2P Require Import Prelude FileSystem FsLogic FsUtil Store Text Protocol Paths Legacy HostShare Snapshots Instances Init.

Definition CAS_BLOCK_SIZE : N := 64 * 1024.

(** ** Reading *)

(** What a reader still has to give, and whether an error comes after that
    instead of the end. *)
Record stream := mk_stream { in_rest : bytes; in_broken : bool }.

Inductive filled :=
  | Filled (buf : bytes) (rest : stream)
  | ShortRead
  | BrokenRead.

(** [read_exact] *)
Definition fill (n : N) (i : stream) : filled :=
  if (N.of_nat (length (in_rest i)) <? n)%N then (if in_broken i then BrokenRead else ShortRead)
  else Filled (take (N.to_nat n) (in_rest i)) (mk_stream (drop (N.to_nat n) (in_rest i)) (in_broken i)).

Definition fill_or_fail (n : N) (i : stream) : M (bytes * stream) :=
  match fill n i with
  | Filled buf rest => mret (buf, rest)
  | ShortRead | BrokenRead => fail (Io OtherIo)
  end.

(** ** Digests *)

Definition is_ascii_hexdigit (c : ascii) : bool := in_range 48 57 c || in_range 65 70 c || in_range 97 102 c.

Definition validate_sha256_hex (value : string) : bool :=
  (String.length value =? 64) && string_all is_ascii_hexdigit value.

Definition hex_from_bytes (b : bytes) : string := foldr (fun x s => format_02x x +:+ s) EmptyString b.

(** The loop over the pairs of digits. *)
Fixpoint hex_pairs (value : string) : option bytes :=
  match value with
  | String a (String b rest) =>
      v ← from_str_radix 256 16 (String a (String b EmptyString));
      l ← hex_pairs rest;
      Some (byte_of_N v :: l)
  | _ => Some []
  end.

Definition bytes_from_hex (value : string) : option bytes :=
  if validate_sha256_hex value then hex_pairs value else None.

(** ** Manifests *)

Record cas_manifest_block := mk_block { cb_offset : N; cb_len : N; cb_sha256 : string }.

Record cas_manifest_file := mk_manifest_file {
  cf_path : string;
  cf_len : N;
  cf_mode : N;
  cf_blocks : list cas_manifest_block;
}.

Record cas_upload_manifest := mk_upload {
  um_version : N;
  um_source_instance : string;
  um_replace : bool;
  um_start : bool;
  um_idle_ttl_ms : option N;
  um_command : list string;
  um_files : list cas_manifest_file;
}.

Definition safe_bundle_relative_path (s : string) : option pathbuf :=
  let relative := path_components s in
  if is_absolute relative || existsb (fun c => bool_decide (c = ParentDir)) relative then None else Some relative.

(** The path the system finds for a [PathBuf], where nothing on the way is a
    link. *)
Definition step_into (p : path) (c : component) : path :=
  match c with
  | RootDir => []
  | CurDir => p
  | ParentDir => removelast p
  | Normal name => p /: name
  end.

Definition os_path (p : pathbuf) : path := foldl step_into [] p.

(** [dest.join(relative)] *)
Definition output_path (dest : path) (relative : pathbuf) : path := os_path (path_join (of_path dest) relative).

(** A text that ends the way only a directory's does: no file is created at
    such a path. *)
Definition names_directory (s : string) : bool := ends_with "/" s || ends_with "/." s.

(** The blocks of a file, from where the last one ended. *)
Fixpoint validate_blocks (len previous_end : N) (blocks : list cas_manifest_block) : bool :=
  match blocks with
  | [] => true
  | b :: blocks' =>
      validate_sha256_hex (cb_sha256 b) &&
      negb ((cb_len b =? 0)%N || (CAS_BLOCK_SIZE <? cb_len b)%N) &&
      negb ((len <? cb_offset b)%N || (len - cb_offset b <? cb_len b)%N) &&
      negb (cb_offset b <? previous_end)%N &&
      validate_blocks len (cb_offset b + cb_len b) blocks'
  end.

(** [seen] are the paths of the files before. *)
Fixpoint validate_files (seen : list string) (files : list cas_manifest_file) : bool :=
  match files with
  | [] => true
  | f :: files' =>
      match safe_bundle_relative_path (cf_path f) with
      | None => false
      | Some _ =>
          negb (bool_decide (cf_path f ∈ seen)) && negb (bool_decide (cf_path f = EmptyString)) &&
          validate_blocks (cf_len f) 0 (cf_blocks f) && validate_files (cf_path f :: seen) files'
      end
  end.

Definition validate_cas_manifest (m : cas_upload_manifest) : M unit :=
  if validate_instance_name (um_source_instance m) && validate_files [] (um_files m) then mret tt
  else bail "invalid CAS manifest".

(** ** Writing at an offset *)

Definition splice (offset : nat) (data l : bytes) : bytes :=
  take offset (l ++ replicate (offset - length l) x00) ++ data ++ drop (offset + length data) l.

(** [seek] and [write_all]: a failure, or a kill, can leave any prefix of the
    data written. *)
Definition write_at (p : path) (offset : nat) (data : bytes) : M unit := fun E w =>
  let t := w_tick w in
  match w_fs w !! p with
  | Some (NFile f) =>
      let put d := emit (OWrite p (mk_file (splice offset d (f_data f)) (e_blocks E t))) (ticked w) in
      match e_fault E t with
      | Some FCrash => Crash (put (take (e_partial E t) data))
      | Some FErr => Err (Io OtherIo) (put (take (e_partial E t) data))
      | None => Ok tt (put data)
      end
  | _ => Err (Io OtherIo) (ticked w)
  end.

Definition COPY_BUFFER : N := 1024 * 1024.

(** The loop of [copy_exact_bytes]: what is left of the input. *)
Fixpoint copy_chunks (fuel : nat) (i : stream) (out : path) (offset len : N) : M stream :=
  match fuel with
  | O => bail "more chunks than bytes"
  | S fuel' =>
      if (0 <? len)%N then
        let want := N.min len COPY_BUFFER in
        got ← fill_or_fail want i;
        _ ← write_at out (N.to_nat offset) got.1;
        copy_chunks fuel' got.2 out (offset + want) (len - want)
      else mret i
  end.

Definition copy_exact_bytes (i : stream) (out : path) (offset len : N) : M stream :=
  copy_chunks (S (N.to_nat (len / COPY_BUFFER + 1))) i out offset len.

(** Makes the file of a bundle at its length, as zeros. *)
Definition make_output (out : path) (directory : bool) (len : N) : M unit :=
  _ ← match parent out with Some d => create_dir_all d | None => mret tt end;
  _ ← (if directory then fail (Io OtherIo) else create_file out);
  set_len out (N.to_nat len).

(** ** Bundles *)

Record sparse_extent := mk_extent { ex_offset : N; ex_len : N; ex_compressed_len : option N }.

Record sparse_bundle_file := mk_bundle_file {
  bf_path : string;
  bf_len : N;
  bf_mode : N;
  bf_extents : list sparse_extent;
}.

Record sparse_bundle_manifest := mk_bundle {
  bm_version : N;
  bm_source_instance : string;
  bm_compression : option string;
  bm_files : list sparse_bundle_file;
}.

Definition SPARSE_BUNDLE_MAGIC : bytes := to_bytes ("LNXSBX1" +:+ NEWLINE).

(** [zstd::stream::copy_decode]: what it writes, and whether it ends without
    an error. *)
Class Zstd := { copy_decode : stream -> bytes * bool }.

Section extract.
Context `{Zstd, Json sparse_bundle_manifest}.

(** [Read::take] *)
Definition take_stream (n : N) (i : stream) : stream :=
  mk_stream (take (N.to_nat n) (in_rest i)) (in_broken i && (N.of_nat (length (in_rest i)) <? n)%N).

Definition extract_extent (f : sparse_bundle_file) (out : path) (i : stream) (x : sparse_extent) : M stream :=
  if (bf_len f <? ex_offset x)%N || (bf_len f - ex_offset x <? ex_len x)%N then bail "extent out of bounds"
  else
    match ex_compressed_len x with
    | Some n =>
        let decoded := copy_decode (take_stream n i) in
        _ ← write_at out (N.to_nat (ex_offset x)) decoded.1;
        if negb decoded.2 then fail (Io OtherIo)
        else if negb (N.of_nat (length decoded.1) =? ex_len x)%N then bail "decompressed extent length mismatch"
        else mret (mk_stream (drop (N.to_nat n) (in_rest i)) (in_broken i))
    | None => copy_exact_bytes i out (ex_offset x) (ex_len x)
    end.

Definition extract_file (dest : path) (i : stream) (f : sparse_bundle_file) : M stream :=
  relative ← context (safe_bundle_relative_path (bf_path f)) "unsafe sparse bundle path";
  let out := output_path dest relative in
  _ ← make_output out (names_directory (bf_path f)) (bf_len f);
  i ← fold_m (extract_extent f out) i (bf_extents f);
  _ ← preserve_file_metadata out;
  mret i.

(** The checks on the head of a bundle, and what comes after it. *)
Definition read_bundle_manifest (i : stream) (expected_source_instance : string) : M (sparse_bundle_manifest * stream) :=
  magic ← fill_or_fail 8 i;
  if negb (bool_decide (magic.1 = SPARSE_BUNDLE_MAGIC)) then bail "invalid sparse bundle magic"
  else
    size ← fill_or_fail 8 magic.2;
    let manifest_len := from_le_bytes size.1 in
    if (16 * 1024 * 1024 <? manifest_len)%N then bail "sparse bundle manifest is too large"
    else
      json ← fill_or_fail manifest_len size.2;
      manifest ← context (from_slice json.1) "parse sparse bundle manifest";
      if negb (bm_version manifest =? 1)%N then bail "unsupported sparse bundle version"
      else if negb (bool_decide (bm_compression manifest = None) || bool_decide (bm_compression manifest = Some "zstd")) then
        bail "unsupported sparse bundle compression"
      else if negb (bool_decide (bm_source_instance manifest = expected_source_instance)) then
        bail "sparse bundle source instance mismatch"
      else mret (manifest, json.2).

(** [broken_at] is where reading the bundle fails, if it does. *)
Definition extract_sparse_bundle (broken_at : option nat) (bundle dest : path) (expected_source_instance : string) : M unit :=
  data ← fs_read bundle;
  let i := match broken_at with Some n => mk_stream (take n data) true | None => mk_stream data false end in
  head ← read_bundle_manifest i expected_source_instance;
  _ ← fold_m (extract_file dest) head.2 (bm_files head.1);
  mret tt.

End extract.

(** ** What a bundle is made of *)

Definition is_large_sparse_transfer (len allocated : N) : bool :=
  (8 * 1024 * 1024 * 1024 <=? len)%N && (allocated <=? len / 2)%N.

Definition is_suspicious_dense_extent_report (len allocated : N) (extents : list sparse_extent) : bool :=
  is_large_sparse_transfer len allocated &&
  match extents with
  | [x] => (ex_offset x =? 0)%N && (ex_len x =? len)%N
  | _ => false
  end.

Definition LOCK_FILES : list string := ["instance.lock"; "instance.lock.guard"; "owner-start.lock"].

(** [str::contains] *)
Definition contains (pat s : string) : bool := bool_decide (is_Some (split_once pat s)).

Definition bundle_runtime_path_is_excluded (l : layout) (p : path) : bool :=
  match last p with
  | None => false
  | Some name =>
      let runtime_socket_exact := existsb (fun s => bool_decide (p = lo_run_dir l /: socket_file_name s)) all_sockets in
      let lock_file := existsb (fun f => bool_decide (p = lo_instance_dir l /: f)) LOCK_FILES in
      let runtime_socket := bool_decide (parent p = Some (lo_run_dir l)) && ends_with GVPROXY_KRUN_SOCKET_SUFFIX name in
      let persistent_transaction_file :=
        bool_decide (parent p = Some (lo_instance_dir l)) &&
        (bool_decide (name = ".lnx-fork-lease") || starts_with ".lnx-descriptor-" name) in
      let store_runtime :=
        bool_decide (p = lo_instance_dir l /: RUNS_DIR) ||
        (bool_decide (parent p = Some (lo_instance_dir l /: GENERATIONS_DIR)) && starts_with "." name) ||
        contains ".tmp-" name in
      runtime_socket_exact || lock_file || runtime_socket || persistent_transaction_file || store_runtime
  end.

Record sparse_bundle_collected_file := mk_collected_file {
  sf_relative : string;
  sf_source : path;
  sf_len : N;
  sf_mode : N;
  sf_extents : list sparse_extent;
}.

Definition relative_le (a b : sparse_bundle_collected_file) : Prop := string_le (sf_relative a) (sf_relative b).

#[global] Instance relative_le_dec : RelDecision relative_le.
Proof. unfold relative_le, string_le. intros ??. apply _. Defined.

Section collect.
Context `{Lseek}.
(** The permissions of a file. *)
Context (mode_of : path -> N).

(** The loop of [seek_data_extents]. *)
Fixpoint data_extents (fuel : nat) (p : path) (len offset : nat) : M (list sparse_extent) :=
  match fuel with
  | O => bail "more extents than bytes"
  | S fuel' =>
      if offset <? len then
        d ← lseek p offset SEEK_DATA;
        match d with
        | inr ENXIO => mret []
        | inr _ => fail (Io OtherIo)
        | inl data =>
            h ← lseek p data SEEK_HOLE;
            match h with
            | inr _ => fail (Io OtherIo)
            | inl hole =>
                let end_ := Nat.min hole len in
                rest ← data_extents fuel' p len end_;
                mret (if data <? end_ then mk_extent (N.of_nat data) (N.of_nat (end_ - data)) None :: rest else rest)
            end
        end
      else mret []
  end.

Definition open_file (p : path) : M unit :=
  look (fun m => match stat_in m p with inl _ => inl tt | inr k => inr k end).

Definition seek_data_extents (p : path) (len : N) : M (list sparse_extent) :=
  _ ← open_file p;
  data_extents (S (N.to_nat len)) p (N.to_nat len) 0.

Definition sparse_file_extents (p : path) (meta : node) : M (list sparse_extent) :=
  let len := node_len meta in
  if (len =? 0)%N then mret []
  else
    let allocated := node_allocated meta in
    r ← attempt (seek_data_extents p len);
    match r with
    | inl extents =>
        if is_suspicious_dense_extent_report len allocated extents then
          bail "filesystem reports one dense extent; refusing to expand sparse image"
        else mret extents
    | inr e => if is_large_sparse_transfer len allocated then fail e else mret [mk_extent 0 len None]
    end.

Definition collect_sparse_bundle_file (base p : path) : M sparse_bundle_collected_file :=
  meta ← metadata p;
  relative ← context (strip base p) "make relative";
  let text := join "/" relative in
  if negb (utf8_valid text) then bail "bundle path is not UTF-8"
  else
    extents ← sparse_file_extents p meta;
    mret (mk_collected_file text p (node_len meta) (N.land (mode_of p) 4095) extents).

(** [n] bounds the depth still below [p]. *)
Fixpoint collect_sparse_bundle_tree (n : nat) (l : layout) (base p : path) (files : list sparse_bundle_collected_file)
    : M (list sparse_bundle_collected_file) :=
  if bundle_runtime_path_is_excluded l p then mret files
  else
    meta ← symlink_metadata p;
    match meta with
    | NDir =>
        match n with
        | O => bail "directory tree too deep"
        | S n' =>
            names ← read_dir p;
            fold_m (fun files x => collect_sparse_bundle_tree n' l base (p /: x) files) files names
        end
    | NFile _ => f ← collect_sparse_bundle_file base p; mret (files ++ [f])
    | NLink _ => bail "cannot include non-regular file in sparse bundle"
    end.

Definition collect_sparse_bundle_files (l : layout) : M (list sparse_bundle_collected_file) := fun E w =>
  (kernel ← (if bool_decide (lo_kernel l = lo_base l /: "vmlinuz") then path_exists (lo_kernel l) else mret false);
   files ← (if (kernel : bool) then f ← collect_sparse_bundle_file (lo_base l) (lo_kernel l); mret [f] else mret []);
   files ← collect_sparse_bundle_tree (S (max_depth (w_fs w))) l (lo_base l) (lo_instance_dir l) files;
   mret (merge_sort relative_le files)) E w.

End collect.

(** The offset and the length of each block an extent is cut into. *)
Fixpoint cut_blocks (fuel : nat) (offset remaining : N) : list (N * N) :=
  match fuel with
  | O => []
  | S fuel' =>
      if (0 <? remaining)%N then
        let len := N.min remaining CAS_BLOCK_SIZE in
        (offset, len) :: cut_blocks fuel' (offset + len) (remaining - len)
      else []
  end.

Definition extent_blocks (x : sparse_extent) : list (N * N) :=
  cut_blocks (S (N.to_nat (ex_len x / CAS_BLOCK_SIZE))) (ex_offset x) (ex_len x).

(** ** The store of blocks *)

Record cas_block_source := mk_source { bs_path : path; bs_offset : N; bs_len : N }.

Record cas_push_bundle := mk_push_bundle {
  pb_manifest : cas_upload_manifest;
  pb_blocks : gmap string cas_block_source;
}.

(** [CasBlockSource::read] *)
Definition read_block (s : cas_block_source) : M bytes :=
  read_exact_at (bs_path s) (N.to_nat (bs_offset s)) (N.to_nat (bs_len s)).

Section cas.
Context (sha256 : bytes -> bytes) `{TempFiles, Lseek}.
Context (mode_of : path -> N).
(** [server_base] *)
Context (base : path).

Definition sha256_hex (b : bytes) : string := hex_from_bytes (sha256 b).

Definition zero_block_hash : string := sha256_hex (replicate (N.to_nat CAS_BLOCK_SIZE) x00).

Definition cas_root : path := base /: "cas" /: "sha256".

Definition cas_uploads_root : path := base /: "uploads".

Definition cas_block_path (name : string) : option path :=
  if validate_sha256_hex name then Some (cas_root /: string_take 2 name /: name) else None.

(** The name of the block is given by the first link, or by a rename where
    linking fails; a temporary file that keeps its name is removed when it is
    dropped. *)
Definition put_block (p temp : path) (raw : bytes) : M unit :=
  r ← attempt (
    _ ← write_all temp raw;
    linked ← attempt (hard_link temp p);
    match linked with
    | inl _ | inr (Io AlreadyExists) => mret true
    | inr _ => _ ← rename temp p; mret false
    end);
  match r with
  | inl true => _ ← attempt (remove_file temp); mret tt
  | inl false => mret tt
  | inr e => _ ← attempt (remove_file temp); fail e
  end.

Definition store_cas_block (name : string) (raw : bytes) : M unit :=
  if negb (validate_sha256_hex name) then bail "invalid sha256 hex"
  else if (CAS_BLOCK_SIZE <? N.of_nat (length raw))%N then bail "CAS block is too large"
  else if negb (bool_decide (sha256_hex raw = name)) then bail "CAS block hash mismatch"
  else if bool_decide (name = zero_block_hash) then mret tt
  else
    p ← context (cas_block_path name) "invalid sha256 hex";
    there ← path_exists p;
    if (there : bool) then mret tt
    else
      parent ← context (parent p) "CAS block path has no parent";
      _ ← create_dir_all parent;
      temp ← tempfile_in ("." +:+ name +:+ ".tmp-") parent;
      put_block p temp raw.

(** The loop of [store_cas_block_stream]. *)
Fixpoint store_frames (fuel : nat) (i : stream) (count : N) : M N :=
  match fuel with
  | O => bail "more frames than bytes"
  | S fuel' =>
      match fill 32 i with
      | ShortRead => mret count
      | BrokenRead => fail (Io OtherIo)
      | Filled hash_bytes i =>
          size ← fill_or_fail 4 i;
          let len := from_le_bytes size.1 in
          if (len =? 0)%N || (CAS_BLOCK_SIZE <? len)%N then bail "invalid CAS block stream length"
          else
            raw ← fill_or_fail len size.2;
            _ ← store_cas_block (hex_from_bytes hash_bytes) raw.1;
            store_frames fuel' raw.2 (count + 1)
      end
  end.

Definition store_cas_block_stream (i : stream) : M N := store_frames (S (length (in_rest i))) i 0.

(** The frame that is written. *)
Definition write_cas_block_frame (name : string) (raw : bytes) : bytes + error :=
  if negb (validate_sha256_hex name) then inr (Bail "invalid sha256 hex")
  else if (CAS_BLOCK_SIZE <? N.of_nat (length raw))%N then inr (Bail "CAS block is too large")
  else
    match bytes_from_hex name with
    | Some hash => inl (hash ++ to_le_bytes 4 (N.of_nat (length raw)) ++ raw)
    | None => inr (Bail "parse sha256 hex")
    end.

(** *** Writing the files of a manifest *)

Definition verify_block_exists (b : cas_manifest_block) : M unit :=
  if bool_decide (cb_sha256 b = zero_block_hash) then mret tt
  else
    p ← context (cas_block_path (cb_sha256 b)) "invalid sha256 hex";
    there ← path_exists p;
    if (there : bool) then mret tt else bail "missing CAS block".

Definition verify_cas_manifest_blocks_exist (m : cas_upload_manifest) : M unit :=
  for_each (fun f => for_each verify_block_exists (cf_blocks f)) (um_files m).

Definition write_block (out : path) (b : cas_manifest_block) : M unit :=
  if bool_decide (cb_sha256 b = zero_block_hash) then mret tt
  else
    p ← context (cas_block_path (cb_sha256 b)) "invalid sha256 hex";
    data ← fs_read p;
    _ ← copy_exact_bytes (mk_stream data false) out (cb_offset b) (cb_len b);
    mret tt.

(** [directory] is whether the path is written as a directory's. *)
Definition reconstruct_cas_file (f : cas_manifest_file) (out : path) (directory : bool) : M unit :=
  _ ← make_output out directory (cf_len f);
  _ ← for_each (write_block out) (cf_blocks f);
  preserve_file_metadata out.

Definition reconstruct_cas_manifest (m : cas_upload_manifest) (dest : path) : M unit :=
  for_each (fun f =>
    relative ← context (safe_bundle_relative_path (cf_path f)) "unsafe sparse bundle path";
    reconstruct_cas_file f (output_path dest relative) (names_directory (cf_path f))) (um_files m).

(** *** Cutting files into blocks *)

Definition index_block (source : path) (block : N * N) : M unit :=
  buf ← read_exact_at source (N.to_nat block.1) (N.to_nat block.2);
  if forallb is_zero buf then mret tt else store_cas_block (sha256_hex buf) buf.

Definition index_layout_into_cas (l : layout) : M unit :=
  files ← collect_sparse_bundle_files mode_of l;
  for_each (fun f =>
    _ ← open_file (sf_source f);
    for_each (index_block (sf_source f)) (sf_extents f ≫= extent_blocks)) files.

(** A block of a file, for the manifest and for the table of blocks, where the
    first place a block is found at is kept. *)
Definition push_block (source : path) (acc : list cas_manifest_block * gmap string cas_block_source) (block : N * N)
    : M (list cas_manifest_block * gmap string cas_block_source) :=
  buf ← read_exact_at source (N.to_nat block.1) (N.to_nat block.2);
  let name := if (block.2 =? CAS_BLOCK_SIZE)%N && forallb is_zero buf then zero_block_hash else sha256_hex buf in
  mret (acc.1 ++ [mk_block block.1 block.2 name],
        match acc.2 !! name with
        | Some _ => acc.2
        | None => <[name := mk_source source block.1 block.2]> acc.2
        end).

Definition push_file (acc : list cas_manifest_file * gmap string cas_block_source) (f : sparse_bundle_collected_file)
    : M (list cas_manifest_file * gmap string cas_block_source) :=
  _ ← open_file (sf_source f);
  cut ← fold_m (push_block (sf_source f)) ([], acc.2) (sf_extents f ≫= extent_blocks);
  mret (acc.1 ++ [mk_manifest_file (sf_relative f) (sf_len f) (sf_mode f) cut.1], cut.2).

(** [CasPushBundle::open] *)
Definition open_push_bundle (l : layout) (replace start : bool) (idle_ttl_ms : option N) (command : list string)
    : M cas_push_bundle :=
  files ← collect_sparse_bundle_files mode_of l;
  pushed ← fold_m push_file ([], ∅) files;
  mret (mk_push_bundle (mk_upload 2 (lo_instance l) replace start idle_ttl_ms command pushed.1) pushed.2).

(** The stream of the blocks a server asks for. *)
Definition pack_block (b : cas_push_bundle) (packed : bytes) (name : string) : M bytes :=
  block ← context (pb_blocks b !! name) "server requested unknown local CAS block";
  raw ← read_block block;
  frame ← lift (write_cas_block_frame name raw);
  mret (packed ++ frame).

Definition pack_missing (b : cas_push_bundle) (missing : list string) : M bytes := fold_m (pack_block b) [] missing.

End cas.
