(* ===== verification/CasTheorems.v ===== *)
(** * Blocks and files arrive as they were sent

    The store of blocks holds what its names say, whatever is uploaded and
    wherever the server stops; a stream of frames stores every block in it; a
    file written from the blocks of a manifest has the contents the manifest
    describes; and writing an upload touches nothing outside its directory. *)

From S2P Require Import Prelude Codec FileSystem FsLogic FsUtil FsCopy FsTotal Text Protocol Store StoreLogic StoreExample.
From S2P Require Import Paths HostShare Snapshots SnapshotTheorems Instances InstanceLogic ForkTheorems Init InitTheorems Cas.


(** ** Digests as texts *)

Lemma format_02x_length b : String.length (format_02x b) = 2.
Proof. by destruct b. Qed.

Lemma format_02x_digits b : string_all is_ascii_hexdigit (format_02x b) = true.
Proof. by destruct b. Qed.

Lemma format_02x_parse b s : hex_pairs (format_02x b +:+ s) = l ← hex_pairs s; Some (b :: l).
Proof. by destruct b. Qed.

Lemma hex_from_bytes_cons b l : hex_from_bytes (b :: l) = format_02x b +:+ hex_from_bytes l.
Proof. done. Qed.

Lemma hex_from_bytes_length l : String.length (hex_from_bytes l) = 2 * length l.
Proof. induction l as [| b l IH]; [done |]. rewrite hex_from_bytes_cons, string_app_length, IH, format_02x_length. simpl. lia. Qed.

Lemma hex_from_bytes_digits l : string_all is_ascii_hexdigit (hex_from_bytes l) = true.
Proof. induction l as [| b l IH]; [done |]. by rewrite hex_from_bytes_cons, string_all_app, IH, format_02x_digits. Qed.

Lemma hex_pairs_from_bytes l : hex_pairs (hex_from_bytes l) = Some l.
Proof. induction l as [| b l IH]; [done |]. by rewrite hex_from_bytes_cons, format_02x_parse, IH. Qed.

Lemma hex_from_bytes_inj l l' : hex_from_bytes l = hex_from_bytes l' -> l = l'.
Proof. intros Heq. apply (inj Some). by rewrite <- !hex_pairs_from_bytes, Heq. Qed.

Lemma valid_hex l : length l = 32 -> validate_sha256_hex (hex_from_bytes l) = true.
Proof. intros Hl. unfold validate_sha256_hex. by rewrite hex_from_bytes_length, Hl, hex_from_bytes_digits. Qed.

Lemma bytes_from_hex_from_bytes l : length l = 32 -> bytes_from_hex (hex_from_bytes l) = Some l.
Proof. intros Hl. unfold bytes_from_hex. by rewrite valid_hex, hex_pairs_from_bytes. Qed.

(** ** Reading back what was written *)

Lemma fill_app n a rest : N.of_nat (length a) = n -> fill n (mk_stream (a ++ rest) false) = Filled a (mk_stream rest false).
Proof.
  intros <-. unfold fill. simpl. rewrite length_app, (proj2 (N.ltb_ge _ _)) by lia.
  rewrite Nat2N.id, take_app_length, drop_app_length. done.
Qed.

Lemma fill_or_fail_app n a rest : N.of_nat (length a) = n ->
  fill_or_fail n (mk_stream (a ++ rest) false) = mret (a, mk_stream rest false).
Proof. intros Hn. unfold fill_or_fail. by rewrite fill_app. Qed.

Section stream.
Context (sha256 : bytes -> bytes) `{TempFiles} (base : path).

(** One frame is one block stored. *)
Lemma store_frame fuel name raw frame rest count : raw <> [] -> write_cas_block_frame name raw = inl frame ->
  name = hex_from_bytes (sha256 raw) -> length (sha256 raw) = 32 ->
  store_frames sha256 base (S fuel) (mk_stream (frame ++ rest) false) count =
  (_ ← store_cas_block sha256 base name raw; store_frames sha256 base fuel (mk_stream rest false) (count + 1)).
Proof.
  intros Hne Hw -> Hlen. unfold write_cas_block_frame in Hw. rewrite (valid_hex _ Hlen), bytes_from_hex_from_bytes in Hw by done.
  cbn [negb] in Hw. destruct (N.ltb_spec CAS_BLOCK_SIZE (N.of_nat (length raw))) as [| Hsize]; [done |].
  assert (frame = sha256 raw ++ to_le_bytes 4 (N.of_nat (length raw)) ++ raw) as -> by congruence. clear Hw.
  cbn [store_frames]. rewrite <- !app_assoc, fill_app by (rewrite Hlen; done). cbv beta iota.
  rewrite fill_or_fail_app by (rewrite to_le_bytes_length; done).
  assert (Hn : (N.of_nat (length raw) < 256 ^ N.of_nat 4)%N).
  { eapply N.le_lt_trans; [exact Hsize |]. done. }
  change (mret ?x ≫= ?k) with (k x). cbn beta iota zeta. cbn [fst snd]. rewrite from_to_le_bytes, N.mod_small by done.
  rewrite (proj2 (N.eqb_neq _ _)) by (destruct raw; simpl; [done | lia]). rewrite (proj2 (N.ltb_ge _ _)) by done. cbn [orb].
  by rewrite fill_or_fail_app by done.
Qed.
End stream.

(** ** The store of blocks *)

Section honest.
Context (sha256 : bytes -> bytes) {TF : TempFiles} {TL : TempLaws} (base : path) (E : env).
(** The contents that blocks can have. *)
Context (known : bytes -> Prop).

Definition block_at (name : string) : path := cas_root base /: string_take 2 name /: name.

(** What is at the path of a block is the block. *)
Definition cas_honest (m : fsmap) : Prop := forall name n, validate_sha256_hex name = true -> m !! block_at name = Some n ->
  exists f, n = NFile f /\ sha256_hex sha256 (f_data f) = name /\ known (f_data f).

Definition stored (m : fsmap) (name : string) : Prop := is_Some (m !! block_at name).

(** No block is lost. *)
Definition blocks_kept (m m' : fsmap) : Prop := forall name, validate_sha256_hex name = true -> stored m name -> stored m' name.

#[local] Instance blocks_kept_preorder : PreOrder blocks_kept.
Proof. split; [by intros m name | intros m1 m2 m3 H1 H2 name Hn H; by apply H2, H1]. Qed.

(** A place that is not the path of a block. *)
Definition no_block (q : path) : Prop := forall name, validate_sha256_hex name = true -> block_at name <> q.

Lemma frame_blocks m m' name : frame no_block m m' -> validate_sha256_hex name = true -> m' !! block_at name = m !! block_at name.
Proof. intros Hf Hn. apply Hf. intros Hno. by eapply Hno. Qed.

Lemma honest_frame m m' : frame no_block m m' -> cas_honest m -> cas_honest m' /\ blocks_kept m m'.
Proof.
  intros Hf Hm. split.
  - intros name n Hn. rewrite (frame_blocks _ _ _ Hf Hn). by apply Hm.
  - intros name Hn. unfold stored. by rewrite (frame_blocks _ _ _ Hf Hn).
Qed.

Lemma block_at_length name : length (block_at name) = length base + 4.
Proof. unfold block_at, cas_root. rewrite !length_app. simpl. lia. Qed.

Lemma block_at_inj a b : block_at a = block_at b -> a = b.
Proof. intros Heq. unfold block_at in Heq. by apply app_inj_tail in Heq as [_ ?]. Qed.

(** The name of a temporary file is not a digest. *)
Lemma temp_no_block d name s : no_block (d /: ("." +:+ name +:+ ".tmp-" +:+ s)).
Proof.
  intros n Hn Heq. unfold block_at in Heq. apply app_inj_tail in Heq as [_ ->].
  unfold validate_sha256_hex in Hn. by apply andb_true_iff in Hn as [_ Hn].
Qed.

Lemma above_no_block name q : below q (cas_root base /: string_take 2 name) -> no_block q.
Proof.
  intros (s & Hs)%below_spec n _ <-. apply (f_equal length) in Hs. rewrite !length_app, block_at_length in Hs.
  unfold cas_root in Hs. rewrite !length_app in Hs. simpl in Hs. lia.
Qed.

(** The state while one block is being put in place. *)
Definition putting (m0 m : fsmap) : Prop := cas_honest m /\ blocks_kept m0 m.

Lemma putting_frame m0 m m' : frame no_block m m' -> putting m0 m -> putting m0 m'.
Proof. intros Hf [Hh Hk]. destruct (honest_frame _ _ Hf Hh) as [Hh' Hk']. split; [done | by etrans]. Qed.

Lemma t_putting {A : Type} m0 (c : M A) : modifies no_block c -> triple E (putting m0) c (fun _ => putting m0) (putting m0).
Proof.
  intros Hc. apply t_start. intros m Hm. eapply t_conseq; [apply (t_modifies _ no_block m), Hc | done | intros a m' Hf | intros m' Hf]; by apply (putting_frame m0 m m').
Qed.

Lemma putting_insert m0 m m' name raw b : validate_sha256_hex name = true -> sha256_hex sha256 raw = name -> known raw ->
  m' !! block_at name = Some (NFile (mk_file raw b)) ->
  (forall n, validate_sha256_hex n = true -> n <> name -> m' !! block_at n = m !! block_at n) ->
  putting m0 m -> putting m0 m' /\ stored m' name.
Proof.
  intros Hn Hraw Hk Hat Hothers [Hh Hkept]. split; [| by eexists]. split.
  - intros n nd Hv Hl. destruct (decide (n = name)) as [-> | Hne]; [rewrite Hat in Hl; simplify_eq; by eexists |].
    rewrite Hothers in Hl by done. by apply Hh.
  - intros n Hv Hs. destruct (decide (n = name)) as [-> | Hne]; [by eexists |]. unfold stored. rewrite Hothers by done. by apply Hkept.
Qed.

Lemma t_link m0 name raw t b : validate_sha256_hex name = true -> sha256_hex sha256 raw = name -> known raw ->
  triple E (fun m => putting m0 m /\ m !! t = Some (NFile (mk_file raw b))) (attempt (hard_link t (block_at name)))
    (fun r m => match r with
                | inl _ | inr (Io AlreadyExists) => putting m0 m /\ stored m name
                | inr _ => putting m0 m /\ m !! t = Some (NFile (mk_file raw b))
                end)
    (putting m0).
Proof.
  intros Hn Hraw Hk w [Hp Ht]. unfold attempt, hard_link, change. destruct (e_fault E (w_tick w)) as [[] |]; simpl; [done | done |].
  rewrite Ht. unfold new_name. destruct (parent_is_dir _ _); simpl; [| done].
  destruct (w_fs w !! block_at name) eqn:Hl; simpl; [split; [done |]; unfold stored; by rewrite Hl |].
  eapply putting_insert; [done | done | done | apply lookup_insert_eq | | exact Hp].
  intros n _ Hne. apply lookup_insert_ne. by intros ?%block_at_inj.
Qed.

Lemma t_rename_block m0 name raw d x b : validate_sha256_hex name = true -> sha256_hex sha256 raw = name -> known raw ->
  no_block (d /: x) -> d = cas_root base /: string_take 2 name ->
  triple E (fun m => putting m0 m /\ m !! (d /: x) = Some (NFile (mk_file raw b))) (rename (d /: x) (block_at name))
    (fun _ m => putting m0 m /\ stored m name) (putting m0).
Proof.
  intros Hn Hraw Hk Hno Hd. apply t_start. intros m [Hp Ht].
  eapply t_conseq; [apply (t_rename _ m) | done | | by intros ? <-]; [intros Heq; by apply (Hno name Hn) |].
  intros _ m' (_ & Hnb & _ & ->). eapply putting_insert; [done | done | done | | | exact Hp].
  - rewrite lookup_move by done. replace (strip _ _) with (Some ([] : path)) by (symmetry; apply strip_Some; by rewrite app_nil_r).
    by rewrite app_nil_r, Ht.
  - intros n Hv Hne. rewrite lookup_move by done. destruct (strip (block_at name) (block_at n)) as [s |] eqn:Hs.
    + apply strip_Some in Hs. destruct s as [| y s]; [rewrite app_nil_r in Hs; by apply block_at_inj in Hs |].
      apply (f_equal length) in Hs. rewrite length_app, !block_at_length in Hs. simpl in Hs. lia.
    + rewrite decide_False; [done |]. intros (s & Heq)%below_spec. destruct s as [| y s].
      * rewrite app_nil_r in Heq. by apply (Hno n Hv).
      * apply (f_equal length) in Heq. rewrite Hd, block_at_length in Heq. unfold cas_root in Heq.
        rewrite !length_app in Heq. simpl in Heq. lia.
Qed.

Lemma block_temp m name : validate_sha256_hex name = true ->
  triple E (eq m) (tempfile_in ("." +:+ name +:+ ".tmp-") (cas_root base /: string_take 2 name))
    (fun t m' => exists x, t = cas_root base /: string_take 2 name /: x /\ no_block t /\ m' = <[t := NFile (mk_file [] 0)]> m) (eq m).
Proof.
  intros Hn. eapply t_conseq; [apply tempfile_in_new | done | | done]. intros t m' (s & -> & _ & _ & ->).
  eexists. split; [done |]. split; [| done]. rewrite !string_app_assoc. apply temp_no_block.
Qed.

Lemma frame_no_block_insert m q n : no_block q -> frame no_block m (<[q := n]> m).
Proof. intros Hq p Hp. apply lookup_insert_ne. by intros <-. Qed.

Lemma t_drop_temp m0 t : no_block t ->
  triple E (putting m0) (attempt (remove_file t)) (fun _ => putting m0) (putting m0).
Proof. intros Ht. apply t_putting. apply respects_attempt. by apply modifies_remove_file. Qed.

Lemma t_put_block m0 name raw x : validate_sha256_hex name = true -> sha256_hex sha256 raw = name -> known raw ->
  let t := cas_root base /: string_take 2 name /: x in no_block t ->
  triple E (putting m0) (put_block (block_at name) t raw) (fun _ m => putting m0 m /\ stored m name) (putting m0).
Proof.
  intros Hn Hraw Hk t Ht. unfold put_block.
  eapply (t_bind _ _ _ _ (fun r m => putting m0 m /\ match r with inl _ => stored m name | inr _ => True end)).
  - eapply t_conseq; [apply (t_attempt _ _ _ (fun _ m => putting m0 m /\ stored m name)) | done | |].
    + eapply (t_bind _ _ _ _ (fun _ m => exists b, putting m0 m /\ m !! t = Some (NFile (mk_file raw b)))).
      * apply t_write_all; [intros m b Hm | intros m d b Hm | done].
        -- exists b. split; [by eapply putting_frame, Hm; apply frame_no_block_insert | apply lookup_insert_eq].
        -- by eapply putting_frame, Hm; apply frame_no_block_insert.
      * intros []. apply t_start. intros m (b & Hm). eapply (t_pre _ _ (fun m => putting m0 m /\ m !! t = Some (NFile (mk_file raw b)))); [| intros ? <-; exact Hm].
        eapply t_bind; [by apply (t_link m0 name raw t b) |].
        assert (Hmove : triple E (fun m => putting m0 m /\ m !! t = Some (NFile (mk_file raw b)))
          (_ ← rename t (block_at name); mret false) (fun _ m => putting m0 m /\ stored m name) (putting m0)).
        { eapply t_bind; [by eapply t_rename_block |]. intros []. by apply t_ret. }
        intros [? | [[] | |]]; done || by apply t_ret.
    + intros [a | e] m H; done.
    + done.
  - intros [[] | e].
    + apply t_start. intros m [Hm Hs]. eapply t_bind; [eapply t_conseq; [apply (t_drop_temp m t Ht) | | |] |].
      * intros ? <-. split; [exact (proj1 Hm) | done].
      * intros r m' H. exact H.
      * intros m' [Hh Hk']. split; [done |]. etrans; [exact (proj2 Hm) | done].
      * intros r. apply t_ret. intros m' [Hh Hk']. split; [| by apply Hk']. split; [done |]. etrans; [exact (proj2 Hm) | done].
    + by apply t_ret.
    + eapply t_bind; [eapply t_pre; [by apply (t_drop_temp m0 t) | by intros m [Hm _]] |]. intros r. by apply t_fail.
Qed.

(** Storing a block checks it: it is there afterwards, and at every point the
    store holds what its names say and no less than before. *)
Lemma t_store_block m0 name raw : known raw ->
  triple E (putting m0) (store_cas_block sha256 base name raw)
    (fun _ m => putting m0 m /\ (name = zero_block_hash sha256 \/ stored m name)) (putting m0).
Proof.
  intros Hk. unfold store_cas_block. destruct (validate_sha256_hex name) eqn:Hn; [cbn [negb] | by apply t_fail].
  destruct (_ <? _)%N; [by apply t_fail |]. case_bool_decide as Hraw; [cbn [negb] | by apply t_fail].
  case_bool_decide as Hz; [apply t_ret; auto |]. unfold cas_block_path. rewrite Hn. cbn [context].
  change (mret ?x ≫= ?k) with (k x). cbn beta. change (cas_root base /: string_take 2 name /: name) with (block_at name).
  eapply (t_bind _ _ _ _ (fun b m => putting m0 m /\ (b = true -> stored m name))).
  { eapply t_reads; [apply (reads_there (block_at name)) | done |]. intros m b Hm Hb. split; [done | exact Hb]. }
  intros []; [apply t_ret; intros m [Hm Hs]; split; [done | right; by apply Hs] |].
  replace (parent (block_at name)) with (Some (cas_root base /: string_take 2 name)) by (symmetry; apply parent_snoc). cbn [context]. change (mret ?x ≫= ?k) with (k x). cbn beta.
  eapply (t_bind _ _ _ _ (fun _ => putting m0)).
  { eapply t_pre; [apply t_putting | by intros m [Hm _]]. apply modifies_create_dir_all. intros q Hq. by eapply above_no_block. }
  intros []. apply t_start. intros m Hm. eapply t_bind; [eapply t_conseq; [by apply block_temp | done | intros t m' H; exact H | by intros ? <-] |].
  intros t. apply t_start. intros m' (x & -> & Ht & ->). eapply t_conseq; [by apply (t_put_block m0 name raw x) | | |].
  - intros ? <-. eapply putting_frame, Hm. by apply frame_no_block_insert.
  - intros u m2 [H1 H2]. auto.
  - done.
Qed.

(** ** A whole stream *)

Lemma t_fill P n i : triple E P (fill_or_fail n i) (fun _ => P) P.
Proof. unfold fill_or_fail. destruct (fill n i); by apply t_ret || by apply t_fail. Qed.

(** Whatever is sent. *)
Lemma t_store_frames m0 fuel i count : (forall b, known b) ->
  triple E (putting m0) (store_frames sha256 base fuel i count) (fun _ => putting m0) (putting m0).
Proof.
  intros Hall. revert i count. induction fuel as [| fuel IH]; intros i count; cbn [store_frames]; [by apply t_fail |].
  destruct (fill 32 i) as [hash i1 | |]; [| by apply t_ret | by apply t_fail].
  eapply t_bind; [apply t_fill |]. intros size. cbn zeta. destruct (_ || _); [by apply t_fail |].
  eapply t_bind; [apply t_fill |]. intros raw.
  eapply t_bind; [eapply t_conseq; [by apply (t_store_block m0) | done | by intros u m [Hm _]; exact Hm | done] |]. intros []. apply IH.
Qed.

(** The frames of blocks, one after another. *)
Fixpoint frames (l : list (string * bytes)) : bytes + error :=
  match l with
  | [] => inl []
  | (name, raw) :: l' =>
      match write_cas_block_frame name raw, frames l' with
      | inl f, inl rest => inl (f ++ rest)
      | inr e, _ | _, inr e => inr e
      end
  end.

(** What is sent in frames is stored, every block of it. *)
Lemma t_store_sent m0 l data fuel count : frames l = inl data -> length data < fuel ->
  (forall name raw, (name, raw) ∈ l -> raw <> [] /\ name = sha256_hex sha256 raw /\ length (sha256 raw) = 32 /\ known raw) ->
  triple E (putting m0) (store_frames sha256 base fuel (mk_stream data false) count)
    (fun n m => putting m0 m /\ n = (count + N.of_nat (length l))%N /\
       forall name raw, (name, raw) ∈ l -> name = zero_block_hash sha256 \/ stored m name)
    (putting m0).
Proof.
  revert data fuel count m0. induction l as [| [name raw] l IH]; intros data fuel count m0 Hf Hlen Hl.
  - injection Hf as <-. destruct fuel as [| fuel]; [simpl in Hlen; lia |]. cbn [store_frames]. apply t_ret.
    intros m Hm. split_and!; [done | simpl; lia |]. by intros ?? ?%elem_of_nil.
  - cbn [frames] in Hf. destruct (write_cas_block_frame name raw) as [f |] eqn:Hw; [| by destruct (frames l)].
    destruct (frames l) as [rest |] eqn:Hr; [| done]. injection Hf as <-. destruct fuel as [| fuel]; [lia |].
    destruct (Hl name raw) as (Hne & Hname & H32 & Hk); [by left |].
    rewrite (store_frame sha256 base fuel name raw f rest count Hne Hw Hname H32).
    eapply t_bind; [by apply t_store_block |]. intros []. apply t_start. intros m [Hm Hs].
    eapply t_conseq; [apply (IH rest fuel (count + 1)%N m) | | |].
    + done.
    + rewrite length_app in Hlen. assert (1 <= length f); [| lia]. unfold write_cas_block_frame in Hw.
      repeat case_match; simplify_eq. rewrite !length_app, to_le_bytes_length. lia.
    + intros n' raw' Hin. apply Hl. by right.
    + intros ? <-. split; [exact (proj1 Hm) | done].
    + intros n m' ([Hh Hkept] & -> & Hall). split_and!; [split; [done | etrans; [exact (proj2 Hm) | done]] | simpl; lia |].
      intros n' raw' [[= -> ->] | Hin]%elem_of_cons; [| by eapply Hall]. destruct Hs as [Hz | Hs]; [by left |].
      right. apply Hkept; [| done]. rewrite Hname. by apply valid_hex.
    + intros m' [Hh Hkept]. split; [done | etrans; [exact (proj2 Hm) | done]].
Qed.

End honest.
(** ** Writing a file from its blocks *)

Lemma splice_length offset data l : offset + length data <= length l -> length (splice offset data l) = length l.
Proof. intros Hl. unfold splice. rewrite !length_app, length_take, length_app, length_drop, length_replicate. lia. Qed.

Lemma splice_lookup offset data l k : offset + length data <= length l ->
  splice offset data l !! k = if decide (offset <= k < offset + length data) then data !! (k - offset) else l !! k.
Proof.
  intros Hl. unfold splice. replace (offset - length l) with 0 by lia. rewrite app_nil_r.
  assert (Ht : length (take offset l) = offset) by (rewrite length_take; lia). case_decide as Hk.
  - rewrite lookup_app_r, Ht, lookup_app_l by lia. done.
  - destruct (decide (k < offset)).
    + rewrite lookup_app_l, lookup_take by lia. by rewrite decide_True by lia.
    + rewrite lookup_app_r, Ht, lookup_app_r, lookup_drop by lia. f_equal. lia.
Qed.

Lemma splice_nil offset l : offset <= length l -> splice offset [] l = l.
Proof.
  intros Ho. apply list_eq. intros k. rewrite splice_lookup by (simpl; lia). rewrite decide_False by (simpl; lia). done.
Qed.

Lemma splice_splice offset a b l : offset + length (a ++ b) <= length l ->
  splice (offset + length a) b (splice offset a l) = splice offset (a ++ b) l.
Proof.
  intros Hl. rewrite length_app in Hl. apply list_eq. intros k.
  rewrite !splice_lookup by (rewrite ?splice_length, ?length_app; lia). rewrite length_app.
  destruct (decide (offset <= k < offset + length a)) as [Ha | Ha].
  - rewrite decide_False, decide_True by lia. rewrite lookup_app_l by lia. done.
  - destruct (decide (offset + length a <= k < offset + length a + length b)).
    + rewrite decide_True by lia. rewrite lookup_app_r by lia. f_equal. lia.
    + rewrite decide_False by lia. done.
Qed.

Section copy.
Context (E : env) (out : path).

(** [m] with other contents at [out]. *)
Definition rewritten (m m' : fsmap) : Prop := exists f, m' = <[out := NFile f]> m.

Lemma t_write_at m f offset data : m !! out = Some (NFile f) ->
  triple E (eq m) (write_at out offset data)
    (fun _ m' => exists b, m' = <[out := NFile (mk_file (splice offset data (f_data f)) b)]> m) (rewritten m).
Proof.
  intros Hf w ->. unfold write_at. rewrite Hf. destruct (e_fault E (w_tick w)) as [[] |]; simpl; by eexists.
Qed.

Lemma t_copy_chunks m f fuel i offset len : m !! out = Some (NFile f) ->
  N.to_nat offset + N.to_nat len <= length (f_data f) -> (len <= N.of_nat fuel * COPY_BUFFER)%N ->
  triple E (eq m) (copy_chunks (S fuel) i out offset len)
    (fun i' m' => exists b, m' = <[out := NFile (mk_file (splice (N.to_nat offset) (take (N.to_nat len) (in_rest i)) (f_data f)) b)]> m /\
       N.to_nat len <= length (in_rest i) /\ i' = mk_stream (drop (N.to_nat len) (in_rest i)) (in_broken i))
    (fun m' => m' = m \/ rewritten m m').
Proof.
  revert m f i offset len. induction fuel as [| fuel IH]; intros m f i offset len Hf Hb Hfuel.
  - assert (len = 0%N) as -> by lia. cbn. apply t_ret. intros ? <-. exists (f_blocks f).
    rewrite take_0, drop_0, splice_nil, insert_id by (rewrite ?Hf; destruct f; done || lia). split_and!; [done | lia | by destruct i].
  - cbn [copy_chunks]. destruct (N.ltb_spec 0 len) as [Hpos |].
    2: { assert (len = 0%N) as -> by lia. apply t_ret. intros ? <-. exists (f_blocks f). cbn [N.to_nat].
         rewrite take_0, drop_0, splice_nil, insert_id by (rewrite ?Hf; destruct f; done || lia). split_and!; [done | lia | by destruct i]. }
    set (want := N.min len COPY_BUFFER). unfold fill_or_fail, fill.
    destruct (N.ltb_spec (N.of_nat (length (in_rest i))) want) as [| Hin].
    { destruct (in_broken i); (eapply (t_bind _ _ _ _ (fun _ _ => False)); [apply t_fail; intros ? <-; by left | by intros ? ? ]). }
    change (mret ?x ≫= ?k) with (k x). cbn beta. cbn [fst snd].
    eapply t_bind; [eapply t_conseq; [by apply (t_write_at m f) | done | intros u m' H; exact H | intros m' H; by right] |].
    intros []. apply t_start. intros m1 [b ->]. set (part := take (N.to_nat want) (in_rest i)).
    assert (Hpart : length part = N.to_nat want) by (unfold part; rewrite length_take; lia).
    eapply t_conseq; [eapply (IH _ (mk_file (splice (N.to_nat offset) part (f_data f)) b)) | done | |].
    + apply lookup_insert_eq.
    + simpl. rewrite splice_length by lia. lia.
    + lia.
    + intros i' m' (b' & -> & Hle & ->). exists b'. simpl in *. rewrite length_drop in Hle. rewrite insert_insert_eq. split_and!.
      * assert (Htake : take (N.to_nat len) (in_rest i) = part ++ take (N.to_nat (len - want)) (drop (N.to_nat want) (in_rest i))).
        { unfold part. rewrite take_take_drop. f_equal. lia. }
        rewrite Htake, <- splice_splice by (rewrite length_app, length_take, length_drop; lia). rewrite Hpart.
        replace (N.to_nat (offset + want)) with (N.to_nat offset + N.to_nat want) by lia. done.
      * lia.
      * f_equal. rewrite drop_drop. f_equal. lia.
    + intros m' [-> | [f' ->]]; right; [by eexists | exists f'; by rewrite insert_insert_eq].
Qed.

Lemma t_copy_exact m f i offset len : m !! out = Some (NFile f) -> N.to_nat offset + N.to_nat len <= length (f_data f) ->
  triple E (eq m) (copy_exact_bytes i out offset len)
    (fun i' m' => exists b, m' = <[out := NFile (mk_file (splice (N.to_nat offset) (take (N.to_nat len) (in_rest i)) (f_data f)) b)]> m /\
       N.to_nat len <= length (in_rest i) /\ i' = mk_stream (drop (N.to_nat len) (in_rest i)) (in_broken i))
    (fun m' => m' = m \/ rewritten m m').
Proof.
  intros Hf Hb. apply t_copy_chunks; [done | done |]. rewrite N2Nat.id.
  pose proof (N.div_mod len COPY_BUFFER ltac:(done)). pose proof (N.mod_lt len COPY_BUFFER ltac:(done)). nia.
Qed.
End copy.

(** Existing nodes other than [out] stay. *)
Definition keeps_but (out : path) (m m' : fsmap) : Prop := forall q, q <> out -> is_Some (m !! q) -> m' !! q = m !! q.

#[global] Instance keeps_but_preorder out : PreOrder (keeps_but out).
Proof.
  split; [by intros m q | intros m1 m2 m3 H1 H2 q Hq Hs]. rewrite H2; [by apply H1 | done | by rewrite H1].
Qed.

Lemma keeps_but_insert out m n : keeps_but out m (<[out := n]> m).
Proof. intros q Hq _. by apply lookup_insert_ne. Qed.

Lemma keeps_but_ensure_dir out p : respects (keeps_but out) (ensure_dir p).
Proof.
  apply respects_change; [apply _ |]. intros E w o Ho. unfold stat_in in Ho. destruct (w_fs w !! p) as [[] |] eqn:Hp; simplify_eq.
  destruct (missing_kind _ _); simplify_eq. destruct (parent_is_dir _ _); simplify_eq. intros q Hq Hs. simpl.
  apply lookup_insert_ne. intros <-. rewrite Hp in Hs. by destruct Hs.
Qed.

Lemma keeps_but_create_dir_all out p : respects (keeps_but out) (create_dir_all p).
Proof. unfold create_dir_all. apply respects_for_each; [apply _ |]. intros q _. apply keeps_but_ensure_dir. Qed.

Lemma t_relates {A : Type} E I m (c : M A) : respects I c -> triple E (eq m) c (fun _ => I m) (I m).
Proof. intros H w ->. specialize (H E w). by destruct (c E w). Qed.

Section output.
Context (E : env) (out : path).

(** A new file of zeros; nothing else changes but directories made above it. *)
Lemma t_make_output m directory len :
  triple E (eq m) (make_output out directory len)
    (fun _ m' => contents_at m' out = Some (replicate (N.to_nat len) x00) /\ keeps_but out m m' /\ frame (fun q => below q out) m m')
    (fun m' => keeps_but out m m' /\ frame (fun q => below q out) m m').
Proof.
  set (G m1 := keeps_but out m m1 /\ frame (fun q => below q out) m m1). unfold make_output.
  assert (Hins : forall m1 n, G m1 -> G (<[out := n]> m1)).
  { intros m1 n [H1 H2]. split; [etrans; [exact H1 | apply keeps_but_insert] |]. etrans; [exact H2 |]. intros q Hq.
    apply lookup_insert_ne. intros <-. apply Hq, below_refl. }
  eapply (t_bind _ _ _ _ (fun _ => G)).
  { assert (Hrefl : G m) by done. destruct (parent out) as [d |] eqn:Hd; [| apply t_ret; by intros ? <-].
    eapply t_conseq; [apply t_both; [apply (t_relates _ (keeps_but out) m), keeps_but_create_dir_all |
      apply (t_modifies _ (fun q => below q out) m), modifies_create_dir_all] | done | done | done].
    intros q Hq. destruct (snoc_parent out d Hd) as (x & -> & _). eapply below_trans; [done | apply below_snoc]. }
  intros []. eapply (t_bind _ _ _ _ (fun _ m1 => G m1 /\ contents_at m1 out = Some [])).
  { destruct directory; [by apply t_fail |]. apply t_change; [done | |].
    - intros w o Hm Ho. repeat case_match; simplify_eq; simpl; (split; [by apply Hins |]); unfold contents_at; by rewrite lookup_insert_eq.
    - intros w Hm Ho. repeat case_match; simplify_eq. }
  intros []. apply t_change; [by intros m1 [H _] | |].
  - intros w o [Hm Hc] Ho. unfold contents_at in Hc. destruct (w_fs w !! out) as [[f | |] |] eqn:Hf; simplify_eq.
    unfold stat_in in Ho. rewrite Hf in Ho. simplify_eq. simpl. destruct (Hins (w_fs w) (NFile (mk_file (take (N.to_nat len) (f_data f) ++
      replicate (N.to_nat len - length (f_data f)) x00) (e_blocks E (w_tick w)))) Hm) as [H1 H2].
    split_and!; [| exact H1 | exact H2]. unfold contents_at. rewrite lookup_insert_eq. rewrite Hc.
    simpl. rewrite take_nil, Nat.sub_0_r. done.
  - intros w [Hm Hc] Ho. repeat case_match; simplify_eq.
Qed.
End output.

(** *** Blocks that describe contents *)

Section describe.
Context (sha256 : bytes -> bytes).

(** A block names a part of [data] by its digest. *)
Definition names_part (data : bytes) (b : cas_manifest_block) : Prop :=
  N.to_nat (cb_offset b) + N.to_nat (cb_len b) <= length data /\
  cb_sha256 b = sha256_hex sha256 (take (N.to_nat (cb_len b)) (drop (N.to_nat (cb_offset b)) data)).

Definition covers (k : nat) (b : cas_manifest_block) : Prop :=
  N.to_nat (cb_offset b) <= k < N.to_nat (cb_offset b) + N.to_nat (cb_len b).

(** The blocks of the file name parts of [data], and what none of them covers
    is zero. *)
Definition describes (f : cas_manifest_file) (data : bytes) : Prop :=
  cf_len f = N.of_nat (length data) /\ Forall (names_part data) (cf_blocks f) /\
  forall k x, data !! k = Some x -> Exists (covers k) (cf_blocks f) \/ x = x00.

End describe.

#[local] Opaque CAS_BLOCK_SIZE.

Section reconstruct.
Context (sha256 : bytes -> bytes) (base : path) (E : env) (known : bytes -> Prop).
Context (Hsha : forall b, length (sha256 b) = 32).
(** Among the contents that blocks have, no two have the same digest. *)
Context (Hcollision : forall a b, known a -> known b -> sha256 a = sha256 b -> a = b).
Context (Hzero : known (replicate (N.to_nat CAS_BLOCK_SIZE) x00)).

Lemma same_name a b : known a -> known b -> sha256_hex sha256 a = sha256_hex sha256 b -> a = b.
Proof. intros Ha Hb Heq. apply Hcollision; [done | done |]. by apply hex_from_bytes_inj. Qed.

(** [l] is [data] where blocks [done_] have been written, and zero elsewhere. *)
Definition partial (data : bytes) (written : list cas_manifest_block) (l : bytes) : Prop :=
  length l = length data /\
  forall k x, data !! k = Some x -> l !! k = Some x \/ (l !! k = Some x00 /\ ~ Exists (covers k) written).

Lemma partial_write data written l b : partial data written l -> N.to_nat (cb_offset b) + N.to_nat (cb_len b) <= length data ->
  partial data (written ++ [b]) (splice (N.to_nat (cb_offset b)) (take (N.to_nat (cb_len b)) (drop (N.to_nat (cb_offset b)) data)) l).
Proof.
  intros [Hlen Hk] Hb. set (part := take _ _). assert (Hpart : length part = N.to_nat (cb_len b)) by (unfold part; rewrite length_take, length_drop; lia).
  split; [rewrite splice_length by lia; done |]. intros k x Hx. rewrite splice_lookup by lia. rewrite Hpart. case_decide as Hin.
  - left. unfold part. rewrite lookup_take, decide_True by lia. rewrite lookup_drop. by replace (_ + (k - _)) with k by lia.
  - destruct (Hk k x Hx) as [H | [H Hno]]; [by left | right]. split; [done |].
    rewrite Exists_app, Exists_cons, Exists_nil. unfold covers in *. tauto.
Qed.

Lemma partial_zero data written l b : partial data written l ->
  (forall k x, data !! k = Some x -> covers k b -> x = x00) -> partial data (written ++ [b]) l.
Proof.
  intros [Hlen Hk] Hz. split; [done |]. intros k x Hx. destruct (Hk k x Hx) as [H | [H Hno]]; [by left |].
  destruct (decide (N.to_nat (cb_offset b) <= k < N.to_nat (cb_offset b) + N.to_nat (cb_len b))) as [Hin | Hin].
  - left. by rewrite (Hz k x Hx Hin).
  - right. split; [done |]. rewrite Exists_app, Exists_cons, Exists_nil. unfold covers in *. tauto.
Qed.

Section file.
Context (out : path) (data : bytes) (m1 : fsmap).
Context (Hout : no_block base out) (Hhonest : cas_honest sha256 base known m1).

Definition part_of (b : cas_manifest_block) : bytes := take (N.to_nat (cb_len b)) (drop (N.to_nat (cb_offset b)) data).

Definition writing (written : list cas_manifest_block) (m : fsmap) : Prop :=
  exists f, m = <[out := NFile f]> m1 /\ partial data written (f_data f).

Lemma read_in_file m p f : m !! p = Some (NFile f) -> read_in m p = inl (f_data f).
Proof. intros Hp. unfold read_in, stat_in. by rewrite Hp. Qed.

(** The file at the path of a block is the part of the data it names. *)
Lemma block_is_part written m b l : writing written m -> names_part sha256 data b -> known (part_of b) ->
  read_in m (block_at base (cb_sha256 b)) = inl l -> l = part_of b.
Proof.
  intros (f & -> & _) [Hb Hname] Hk Hl.
  assert (Hv : validate_sha256_hex (cb_sha256 b) = true) by (rewrite Hname; apply valid_hex, Hsha).
  unfold read_in, stat_in in Hl. rewrite lookup_insert_ne in Hl by (intros Heq; by eapply Hout).
  destruct (m1 !! block_at base (cb_sha256 b)) as [n |] eqn:Hn; [| by destruct (missing_kind _ _)].
  destruct (Hhonest _ _ Hv Hn) as (f' & -> & Hf' & Hk'). injection Hl as <-. apply same_name; [done | done |]. by rewrite Hf'.
Qed.

Lemma t_write_block written b : names_part sha256 data b -> known (part_of b) ->
  triple E (writing written) (write_block sha256 base out b) (fun _ => writing (written ++ [b])) (rewritten out m1).
Proof.
  intros Hb Hk. pose proof Hb as [Hbound Hname]. unfold write_block. case_bool_decide as Hz.
  - apply t_ret. intros m (f & -> & Hp). exists f. split; [done |]. apply partial_zero; [done |]. intros k x Hx Hc.
    assert (Heq : part_of b = replicate (N.to_nat CAS_BLOCK_SIZE) x00) by (apply same_name; [exact Hk | exact Hzero |]; unfold part_of; by rewrite <- Hname).
    assert (Hat : part_of b !! (k - N.to_nat (cb_offset b)) = Some x).
    { unfold part_of, covers in *. rewrite lookup_take, decide_True by lia. rewrite lookup_drop. by replace (_ + (k - _)) with k by lia. }
    rewrite Heq in Hat. by apply lookup_replicate in Hat as [-> _].
  - assert (Hv : validate_sha256_hex (cb_sha256 b) = true) by (rewrite Hname; apply valid_hex, Hsha).
    unfold cas_block_path. rewrite Hv. cbn [context]. change (mret ?x ≫= ?k) with (k x). cbn beta.
    change (cas_root base /: string_take 2 (cb_sha256 b) /: cb_sha256 b) with (block_at base (cb_sha256 b)).
    apply t_start. intros m Hm. assert (Hre : rewritten out m1 m) by (destruct Hm as (f & -> & _); by eexists).
    eapply (t_bind _ _ _ _ (fun l m' => m' = m /\ l = part_of b)).
    { apply t_look; [by intros ? <- |]. intros ? l <- Hl. split; [done |]. by eapply block_is_part. }
    intros l. apply t_start. intros m' [-> ->]. destruct Hm as (f & -> & Hp). pose proof Hp as [Hlen _].
    eapply t_bind; [eapply t_conseq; [apply (t_copy_exact E out (<[out := NFile f]> m1) f) | done | intros i m' H; exact H |] |].
    + apply lookup_insert_eq.
    + lia.
    + intros m' [-> | [f' ->]]; [done | eexists; by rewrite insert_insert_eq].
    + intros i. apply t_ret. intros m' (bl & -> & _). eexists. rewrite insert_insert_eq. split; [done |]. cbn [f_data in_rest].
      rewrite (take_ge (part_of b)) by (unfold part_of; rewrite length_take; lia). by apply partial_write.
Qed.

Lemma t_write_blocks written bs : Forall (names_part sha256 data) bs -> Forall (fun b => known (part_of b)) bs ->
  triple E (writing written) (for_each (write_block sha256 base out) bs) (fun _ => writing (written ++ bs)) (rewritten out m1).
Proof.
  intros Hb Hk. revert written. induction bs as [| b bs IH]; intros written; simpl.
  - rewrite app_nil_r. by apply t_ret.
  - decompose_Forall_hyps. eapply t_bind; [by apply t_write_block |]. intros []. rewrite (cons_middle b written bs). rewrite (app_assoc written [b] bs). by apply IH.
Qed.
End file.

(** The whole file: its contents are the data that the manifest describes. *)
Lemma t_reconstruct_file f out directory data m0 : describes sha256 f data -> Forall (fun b => known (part_of data b)) (cf_blocks f) ->
  ~ below (base /: "cas") out -> cas_honest sha256 base known m0 ->
  triple E (eq m0) (reconstruct_cas_file sha256 base f out directory)
    (fun _ m => contents_at m out = Some data /\ keeps_but out m0 m /\ frame (fun q => below q out) m0 m)
    (fun m => keeps_but out m0 m /\ frame (fun q => below q out) m0 m).
Proof.
  intros (Hlen & Hparts & Hzeros) Hk Hout Hhonest. unfold reconstruct_cas_file.
  assert (Habove : forall q, below q out -> no_block base q).
  { intros q Hq name _ <-. apply Hout. eapply below_trans; [| exact Hq]. unfold block_at, cas_root. rewrite <- !app_assoc.
    apply below_spec. exists ["sha256"; string_take 2 name; name]. by rewrite <- app_assoc. }
  eapply t_bind; [apply t_make_output |]. intros []. apply t_start. intros m (Hc & Hkeep & Hf).
  assert (Hhm : cas_honest sha256 base known m).
  { eapply honest_frame; [eapply frame_mono, Hf; exact Habove | done]. }
  assert (Hre : forall m', rewritten out m m' -> keeps_but out m0 m' /\ frame (fun q => below q out) m0 m').
  { intros m' [g ->]. split; [etrans; [exact Hkeep | apply keeps_but_insert] |]. etrans; [exact Hf |]. intros q Hq.
    apply lookup_insert_ne. intros <-. apply Hq, below_refl. }
  eapply t_bind; [eapply t_conseq; [apply (t_write_blocks out data m (Habove out (below_refl out)) Hhm []) | | intros u m' H; exact H | exact Hre] |]; [done | done | |].
  - intros ? <-. unfold contents_at in Hc. destruct (m !! out) as [[g | |] |] eqn:Hg; simplify_eq. exists g. rewrite insert_id by done.
    split; [done |]. rewrite Hc, Hlen, Nat2N.id. split; [by rewrite length_replicate |]. intros k x Hx. right.
    split; [apply lookup_replicate; split; [done | by eapply lookup_lt_Some] | intros H; by apply Exists_nil in H].
  - intros []. apply t_start. intros m2 (g & -> & Hl & Hp). unfold preserve_file_metadata, metadata.
    assert (Hpost : contents_at (<[out := NFile g]> m) out = Some data /\ keeps_but out m0 (<[out := NFile g]> m) /\ frame (fun q => below q out) m0 (<[out := NFile g]> m)).
    { split; [| apply Hre; by eexists]. unfold contents_at. rewrite lookup_insert_eq. f_equal. apply list_eq_same_length with (length data); [done | done |].
      intros k x y _ Hx Hy. destruct (Hp k y Hy) as [H | [H Hno]]; [congruence |]. destruct (Hzeros k y Hy) as [Hc' | ->]; [by destruct Hno | congruence]. }
    eapply (t_bind _ _ _ _ (fun _ m => contents_at m out = Some data /\ keeps_but out m0 m /\ frame (fun q => below q out) m0 m));
      [apply t_look; [intros ? <-; exact (proj2 Hpost) | intros ? n <- _; exact Hpost] |]. intros n. by apply t_ret.
Qed.
End reconstruct.

(** ** Paths of a bundle *)

Lemma os_path_app p q : os_path (p ++ q) = foldl step_into (os_path p) q.
Proof. apply foldl_app. Qed.

Lemma os_of_path p : os_path (of_path p) = p.
Proof.
  unfold of_path, os_path. cbn [foldl step_into]. transitivity ([] ++ p); [| done]. generalize (@nil string).
  induction p as [| x p IH]; intros acc; simpl; [by rewrite app_nil_r |]. rewrite IH, <- app_assoc. done.
Qed.

Lemma inner_not_root x : inner_component x <> Some RootDir.
Proof. unfold inner_component. by repeat case_match. Qed.

(** What passes the check stays below the directory it is output_path to. *)
Lemma output_path_safe dest s relative : safe_bundle_relative_path s = Some relative -> output_path dest relative = dest ++ normal_names relative.
Proof.
  unfold safe_bundle_relative_path. destruct (is_absolute (path_components s)) eqn:Habs; [done |]. cbn [orb].
  destruct (existsb _ _) eqn:Hdots; [done |]. intros [= <-]. unfold output_path, path_join. rewrite Habs.
  destruct (of_path dest) as [| c l] eqn:Hd; [done |]. rewrite <- Hd, os_path_app, os_of_path. clear c l Hd.
  assert (Hroot : RootDir ∉ path_components s).
  { unfold path_components in *. destruct (split_char "/" s) as [| first rest]; [by intros ?%elem_of_nil |].
    destruct (starts_with "/" s); [done |]. rewrite elem_of_app, list_elem_of_omap. intros [H | (x & _ & H)]; [| by apply inner_not_root in H].
    case_bool_decide; [by apply list_elem_of_singleton in H |].
    destruct (inner_component first) eqn:Hi; [apply list_elem_of_singleton in H as <-; by apply inner_not_root in Hi | by apply elem_of_nil in H]. }
  revert dest Hroot Hdots. generalize (path_components s). intros l. clear Habs s. induction l as [| c l IH]; intros dest Hroot Hdots; simpl.
  { by rewrite app_nil_r. }
  apply not_elem_of_cons in Hroot as [Hc Hroot]. simpl in Hdots. apply orb_false_iff in Hdots as [Hp Hdots].
  destruct c as [| | | name]; [done | | by rewrite bool_decide_true in Hp |].
  - rewrite filter_cons_False by (intros H; by apply H). by apply IH.
  - rewrite filter_cons_True by done. simpl. rewrite IH by done. by rewrite <- app_assoc.
Qed.

Definition output_of (dest : path) (f : cas_manifest_file) : path := dest ++ normal_names (path_components (cf_path f)).

Section manifest.
Context (sha256 : bytes -> bytes) (base : path) (E : env) (known : bytes -> Prop).
Context (Hsha : forall b, length (sha256 b) = 32).
Context (Hcollision : forall a b, known a -> known b -> sha256 a = sha256 b -> a = b).
Context (Hzero : known (replicate (N.to_nat CAS_BLOCK_SIZE) x00)).
Context (dest : path) (Hdest : disjoint (base /: "cas") dest).

(** The parts of the data that the blocks of a file name. *)
Definition parts_known (f : cas_manifest_file) (data : bytes) : Prop := Forall (fun b => known (part_of data b)) (cf_blocks f).

Lemma around_output s q : below q (dest ++ s) -> around dest q.
Proof. apply below_app_inv. Qed.

Lemma around_honest m m' : frame (around dest) m m' -> cas_honest sha256 base known m -> cas_honest sha256 base known m'.
Proof.
  intros Hf Hm. eapply honest_frame, Hm. eapply frame_mono, Hf. intros q Hq name _ <-.
  assert (Hb : below (base /: "cas") (block_at base name)).
  { unfold block_at, cas_root. apply below_spec. exists ["sha256"; string_take 2 name; name]. by rewrite <- !app_assoc. }
  destruct Hdest as [H1 H2]. destruct Hq as [Hq | Hq]; [by eapply H1, below_trans |].
  apply below_spec in Hb as [s1 Hs1]. apply below_spec in Hq as [s2 Hs2].
  destruct (below_app_inv dest (base /: "cas") s1) as [H | H]; [rewrite <- Hs1, Hs2; apply below_app | done | done].
Qed.

(** All the files of a manifest. *)
Lemma t_reconstruct_files files datas m0 : Forall2 (describes sha256) files datas -> Forall2 parts_known files datas ->
  NoDup (output_of dest <$> files) -> cas_honest sha256 base known m0 ->
  triple E (eq m0) (for_each (fun f =>
      relative ← context (safe_bundle_relative_path (cf_path f)) "unsafe sparse bundle path";
      reconstruct_cas_file sha256 base f (output_path dest relative) (names_directory (cf_path f))) files)
    (fun _ m => Forall2 (fun f data => contents_at m (output_of dest f) = Some data) files datas /\
       (forall q, q ∉ output_of dest <$> files -> is_Some (m0 !! q) -> m !! q = m0 !! q) /\ frame (around dest) m0 m)
    (fun m => frame (around dest) m0 m).
Proof.
  intros Hd Hk. revert m0. induction Hd as [| f data files datas Hf Hd IH]; intros m0 Hnd Hm0; simpl.
  { apply t_ret. intros ? <-. split_and!; [constructor | done | done]. }
  inversion Hk as [| ?? ?? Hkf Hks]; subst. apply NoDup_cons in Hnd as [Hnew Hnd].
  destruct (safe_bundle_relative_path (cf_path f)) as [relative |] eqn:Hsafe; cbn [context];
    [change (mret ?x ≫= ?k) with (k x); cbn beta | eapply (t_bind _ _ _ _ (fun _ _ => False)); [apply t_fail; by intros ? <- | by intros ? ?]].
  assert (Hout : output_path dest relative = output_of dest f).
  { rewrite (output_path_safe dest _ _ Hsafe). unfold output_of. f_equal. unfold safe_bundle_relative_path in Hsafe. by case_match; simplify_eq. }
  rewrite Hout. assert (Hmono : forall m, frame (fun q => below q (output_of dest f)) m0 m -> frame (around dest) m0 m).
  { intros m Hm. eapply frame_mono, Hm. intros q Hq. exact (around_output _ q Hq). }
  eapply t_bind; [eapply t_conseq; [apply (t_reconstruct_file sha256 base E known Hsha Hcollision Hzero f _ _ data m0 Hf Hkf) | done | intros u m H; exact H |] |].
  - intros Hb. unfold output_of in Hb. destruct Hdest as [H1 H2]. by destruct (below_app_inv _ _ _ Hb).
  - done.
  - intros m [_ Hm]. by apply Hmono.
  - intros []. apply t_start. intros m (Hc & Hkeep & Hfr). apply Hmono in Hfr.
    eapply t_conseq; [apply (IH Hks m Hnd) | done | |].
    + by eapply around_honest.
    + intros u m' (Hall & Hkept & Hfr'). split_and!; [constructor; [| done] | | by etrans].
      * unfold contents_at in *. rewrite Hkept; [exact Hc | exact Hnew |]. by destruct (m !! output_of dest f) as [[] |].
      * intros q Hq Hs. apply not_elem_of_cons in Hq as [Hq1 Hq2]. rewrite Hkept; [by apply Hkeep | done |]. by rewrite Hkeep.
    + intros m' Hfr'. by etrans.
Qed.
End manifest.

(** ** Imports stay inside

    Whatever an uploaded bundle or manifest says, writing its files touches
    nothing outside the directory they are meant for. *)

Section confined.
Context (dest : path).

(** Outside of [dest] only directories above it are made, where they are
    missing. *)
Definition inside (m m' : fsmap) : Prop :=
  frame (around dest) m m' /\ forall q, ~ below dest q -> is_Some (m !! q) \/ q = [] -> m' !! q = m !! q.

#[local] Instance inside_preorder : PreOrder inside.
Proof.
  split; [by intros m | intros m1 m2 m3 [F1 K1] [F2 K2]]. split; [by etrans |]. intros q Hq Hs.
  assert (Heq : m2 !! q = m1 !! q) by (by apply K1). rewrite K2; [done | done |]. by rewrite Heq.
Qed.

Lemma inside_below {A : Type} (c : M A) : modifies (below dest) c -> respects inside c.
Proof. intros Hc E w. specialize (Hc E w). split; [eapply frame_mono, Hc; by right |]. intros q Hq _. by apply Hc. Qed.

Lemma inside_ensure_dir p : around dest p -> respects inside (ensure_dir p).
Proof.
  intros Hp. apply respects_change; [apply _ |]. intros E w o Ho. unfold stat_in in Ho. destruct (w_fs w !! p) as [[] |] eqn:Hl; simplify_eq.
  destruct (missing_kind _ _); simplify_eq. destruct (parent_is_dir _ _) eqn:Hpar; simplify_eq. simpl.
  assert (Hne : forall q, is_Some (w_fs w !! q) \/ q = [] -> q <> p).
  { intros q [Hs | ->] Heq; [subst q; rewrite Hl in Hs; by destruct Hs | by subst p]. }
  split; intros q Hq; [| intros Hs]; apply lookup_insert_ne; [by intros <- | by apply not_eq_sym, Hne].
Qed.

Lemma inside_make_output s directory len : respects inside (make_output (dest ++ s) directory len).
Proof.
  unfold make_output. apply respects_bind; [apply _ | |].
  - destruct (parent (dest ++ s)) as [d |] eqn:Hd; [| apply respects_ret; apply _].
    apply respects_for_each; [apply _ |]. intros q Hq. apply inside_ensure_dir. apply prefixes_below in Hq as [_ Hq].
    apply (around_output dest s). destruct (snoc_parent _ d Hd) as (x & -> & _). eapply below_trans; [exact Hq | apply below_snoc].
  - intros []. apply inside_below. destruct directory; respects_tac; try apply modifies_create_file; try apply below_app.
    all: apply modifies_change; intros E w o Ho q Hq; repeat case_match; simplify_eq; simpl in *; subst; apply below_app.
Qed.

Lemma modifies_write_at p offset data : modifies (fun q => q = p) (write_at p offset data).
Proof.
  intros E w q Hq. unfold write_at. destruct (w_fs w !! p) as [[] |]; simpl; [| done..].
  destruct (e_fault E (w_tick w)) as [[] |]; simpl; by rewrite lookup_insert_ne by congruence.
Qed.

Lemma modifies_copy_chunks fuel i out offset len : modifies (fun q => q = out) (copy_chunks fuel i out offset len).
Proof.
  revert i offset len. induction fuel as [| fuel IH]; intros i offset len; simpl; [respects_tac |].
  destruct (_ <? _)%N; [| respects_tac]. apply respects_bind; [apply _ | |].
  - unfold fill_or_fail. destruct (fill _ _); respects_tac.
  - intros got. apply respects_bind; [apply _ | apply modifies_write_at |]. intros []. apply IH.
Qed.

Lemma inside_written {A : Type} s (c : M A) : modifies (fun q => q = dest ++ s) c -> respects inside c.
Proof. intros Hc. apply inside_below. eapply modifies_mono, Hc. intros q ->. apply below_app. Qed.

Lemma inside_reads {A : Type} (c : M A) : modifies (fun _ => False) c -> respects inside c.
Proof. intros Hc. apply inside_below. by eapply modifies_mono, Hc. Qed.

Lemma inside_extent `{Zstd} f s i x : respects inside (extract_extent f (dest ++ s) i x).
Proof.
  unfold extract_extent. destruct (_ || _); [apply respects_fail; apply _ |]. apply (inside_written s). destruct (ex_compressed_len x) as [n |].
  - apply respects_bind; [apply _ | apply modifies_write_at |]. intros []. respects_tac.
  - apply modifies_copy_chunks.
Qed.

Lemma inside_extract_file `{Zstd} i f : respects inside (extract_file dest i f).
Proof.
  unfold extract_file. destruct (safe_bundle_relative_path (bf_path f)) as [relative |] eqn:Hs; cbn [context].
  2: { intros E w. reflexivity. }
  change (mret ?x ≫= ?k) with (k x). cbn beta zeta. rewrite (output_path_safe dest _ _ Hs).
  apply respects_bind; [apply _ | apply inside_make_output |]. intros [].
  apply respects_bind; [apply _ | |].
  - apply respects_fold_m; [apply _ |]. intros ? ? ?. apply inside_extent.
  - intros i'. apply inside_reads. unfold preserve_file_metadata. respects_tac.
Qed.

Lemma inside_reconstruct_file sha256 base f s directory : respects inside (reconstruct_cas_file sha256 base f (dest ++ s) directory).
Proof.
  unfold reconstruct_cas_file. apply respects_bind; [apply _ | apply inside_make_output |]. intros [].
  apply respects_bind; [apply _ | |].
  - apply respects_for_each; [apply _ |]. intros b _. apply (inside_written s). unfold write_block, copy_exact_bytes. respects_tac.
    apply modifies_copy_chunks.
  - intros []. apply inside_reads. unfold preserve_file_metadata. respects_tac.
Qed.

Lemma inside_reconstruct sha256 base m : respects inside (reconstruct_cas_manifest sha256 base m dest).
Proof.
  unfold reconstruct_cas_manifest. apply respects_for_each; [apply _ |]. intros f _.
  destruct (safe_bundle_relative_path (cf_path f)) as [relative |] eqn:Hs; cbn [context]; [| intros E w; reflexivity].
  change (mret ?x ≫= ?k) with (k x). cbn beta. rewrite (output_path_safe dest _ _ Hs). apply inside_reconstruct_file.
Qed.

Lemma inside_extract `{Zstd, Json sparse_bundle_manifest} broken_at bundle expected :
  respects inside (extract_sparse_bundle broken_at bundle dest expected).
Proof.
  unfold extract_sparse_bundle. apply respects_bind; [apply _ | apply respects_fs_read; apply _ |]. intros data.
  apply respects_bind; [apply _ | |].
  - apply inside_reads. unfold read_bundle_manifest, fill_or_fail. respects_tac.
  - intros head. apply respects_bind; [apply _ | |].
    + apply respects_fold_m; [apply _ |]. intros ? ? _. apply inside_extract_file.
    + intros i. apply respects_ret. apply _.
Qed.

(** Where the directory and the ones above it are there, nothing outside is
    made either. *)
Lemma inside_frame m m' : well_formed m -> is_Some (m !! dest) -> inside m m' -> frame (below dest) m m'.
Proof.
  intros Hwf Hd [Hf Hk] q Hq. destruct (m !! q) as [n |] eqn:Hn; [rewrite <- Hn; apply Hk; [done | left; by eexists] |].
  rewrite <- Hn. destruct (decide (q = [])) as [-> | Hne]; [apply Hk; auto |]. apply Hf. intros [Hb | Hb]; [| done].
  apply below_spec in Hb as [s Hs]. destruct s as [| x s].
  - rewrite app_nil_r in Hs. subst q. rewrite Hn in Hd. by destruct Hd.
  - destruct Hd as [nd Hd]. rewrite Hs, nothing_below in Hd; [done | done | done | congruence | done].
Qed.
End confined.

(** ** Claims *)

(** C10: whatever a client sends to be stored, and wherever storing it fails or
    the server is killed, the file under the name of a block has the contents
    that the name is the digest of, and no block is lost. *)
Theorem cas_store_honest sha256 {TF : TempFiles} {TL : TempLaws} base E m i : cas_honest sha256 base (fun _ => True) m ->
  triple E (eq m) (store_cas_block_stream sha256 base i)
    (fun _ m' => cas_honest sha256 base (fun _ => True) m' /\ blocks_kept base m m')
    (fun m' => cas_honest sha256 base (fun _ => True) m' /\ blocks_kept base m m').
Proof.
  intros Hm. eapply t_conseq; [by apply (t_store_frames sha256 base E (fun _ => True) m) | | done | done]. intros ? <-. split; [done | by intros name].
Qed.

(** C11: writing the files of an uploaded bundle, or of an uploaded manifest,
    changes nothing outside the directory they are written to, whatever paths
    and extents the upload names and wherever it fails or is killed. *)
Theorem imports_stay_inside `{Zstd, Json sparse_bundle_manifest} sha256 base E dest m : well_formed m -> is_Some (m !! dest) ->
  (forall broken_at bundle expected, triple E (eq m) (extract_sparse_bundle broken_at bundle dest expected)
     (fun _ => frame (below dest) m) (frame (below dest) m)) /\
  (forall manifest, triple E (eq m) (reconstruct_cas_manifest sha256 base manifest dest)
     (fun _ => frame (below dest) m) (frame (below dest) m)).
Proof.
  intros Hwf Hd. split; intros.
  all: eapply t_conseq; [apply (t_relates E (inside dest) m) | done | intros a m' Hi; by apply inside_frame | intros m' Hi; by apply inside_frame].
  - apply inside_extract.
  - apply inside_reconstruct.
Qed.

(** *** Examples *)

(** A digest of 32 bytes: the length and the first bytes. *)
Definition toy_sha256 (b : bytes) : bytes := take 32 (to_le_bytes 4 (N.of_nat (length b)) ++ b ++ replicate 32 x00).

Lemma toy_sha256_length b : length (toy_sha256 b) = 32.
Proof. unfold toy_sha256. rewrite length_take, !length_app, length_replicate. lia. Qed.

Definition host : world := mk_world {[ ["srv"] := NDir; ["srv"; "in"] := NDir ]} 0 0 [].

(** One frame, and one cut short. *)
Definition two_frames : stream :=
  mk_stream (toy_sha256 [x01; x02] ++ to_le_bytes 4 2 ++ [x01; x02] ++ toy_sha256 [x03] ++ to_le_bytes 4 1) false.

Lemma cas_store_honest_witness :
  exists w, store_cas_block_stream toy_sha256 ["srv"] two_frames quiet host = Err (Io OtherIo) w /\
    stored ["srv"] (w_fs w) (sha256_hex toy_sha256 [x01; x02]) /\ cas_honest toy_sha256 ["srv"] (fun _ => True) (w_fs w).
Proof.
  assert (H : cas_honest toy_sha256 ["srv"] (fun _ => True) (w_fs host)).
  { intros name n _ Hn. unfold host, block_at, cas_root in Hn. cbn [w_fs] in Hn. by rewrite lookup_insert_ne, lookup_singleton_ne in Hn by done. }
  pose proof (cas_store_honest toy_sha256 ["srv"] quiet (w_fs host) two_frames H host eq_refl) as Ht.
  assert (Hb : match store_cas_block_stream toy_sha256 ["srv"] two_frames quiet host with
               | Err (Io OtherIo) w => bool_decide (is_Some (w_fs w !! block_at ["srv"] (sha256_hex toy_sha256 [x01; x02])))
               | _ => false
               end = true) by (vm_compute; reflexivity).
  destruct (store_cas_block_stream _ _ _ _ _) as [a w | [[] | |] w | w]; try done.
  exists w. split; [done |]. split; [by apply bool_decide_eq_true in Hb | exact (proj1 Ht)].
Defined.

#[export] Instance extent_codec : Codec sparse_extent :=
  codec_of (fun x => (ex_offset x, (ex_len x, ex_compressed_len x))) (fun '(a, (b, c)) => Some (mk_extent a b c)) ltac:(by intros []).

#[export] Instance bundle_file_codec : Codec sparse_bundle_file :=
  codec_of (fun f => (bf_path f, (bf_len f, (bf_mode f, bf_extents f)))) (fun '(a, (b, (c, d))) => Some (mk_bundle_file a b c d)) ltac:(by intros []).

#[export] Instance bundle_codec : Codec sparse_bundle_manifest :=
  codec_of (fun m => (bm_version m, (bm_source_instance m, (bm_compression m, bm_files m))))
    (fun '(a, (b, (c, d))) => Some (mk_bundle a b c d)) ltac:(by intros []).

#[export] Instance bundle_json : Json sparse_bundle_manifest := codec_json (fun _ => True).

#[export] Instance stored_zstd : Zstd := {| copy_decode i := (in_rest i, negb (in_broken i)) |}.

(** A bundle with one good file and one that is meant for elsewhere. *)
Definition escaping : sparse_bundle_manifest :=
  mk_bundle 1 "a" None [mk_bundle_file "x/ok" 4 420 [mk_extent 1 2 None]; mk_bundle_file "../out" 0 420 []].

Definition escaping_bundle : bytes :=
  let json := to_vec_pretty escaping in SPARSE_BUNDLE_MAGIC ++ to_le_bytes 8 (N.of_nat (length json)) ++ json ++ [x07; x08].

Definition uploaded : world := mk_world (<[ ["b"] := NFile (mk_file escaping_bundle 0) ]> (w_fs host)) 0 0 [].

Lemma imports_stay_inside_witness :
  exists w, extract_sparse_bundle None ["b"] ["srv"; "in"] "a" quiet uploaded = Err (Bail "unsafe sparse bundle path") w /\
    contents_at (w_fs w) ["srv"; "in"; "x"; "ok"] = Some [x00; x07; x08; x00] /\ frame (below ["srv"; "in"]) (w_fs uploaded) (w_fs w).
Proof.
  assert (Hwf : well_formed (w_fs uploaded)) by (apply well_formed_b_sound; vm_compute; reflexivity).
  assert (Hd : is_Some (w_fs uploaded !! ["srv"; "in"])) by (by eexists).
  destruct (imports_stay_inside toy_sha256 ["srv"] quiet ["srv"; "in"] (w_fs uploaded) Hwf Hd) as [H _].
  specialize (H None ["b"] "a" uploaded eq_refl).
  assert (Hb : match extract_sparse_bundle None ["b"] ["srv"; "in"] "a" quiet uploaded with
               | Err e w => bool_decide (e = Bail "unsafe sparse bundle path") &&
                   bool_decide (contents_at (w_fs w) ["srv"; "in"; "x"; "ok"] = Some [x00; x07; x08; x00])
               | _ => false
               end = true) by (vm_compute; reflexivity).
  destruct (extract_sparse_bundle _ _ _ _ _ _) as [a w | e w | w]; try done.
  apply andb_true_iff in Hb as [He%bool_decide_eq_true Hc%bool_decide_eq_true]. exists w. by subst e.
Defined.
