(* ===== verification/Server.v ===== *)
(** * The server and pushing to it

    [src/src/server.rs] but for its HTTP framing: importing a sandbox that was
    uploaded (into a scratch directory, then into place by a rename, or in
    exchange for the instance that is there), the upload of its blocks in a
    session, starting it, and the client's side of a push.  The blocks
    themselves are in [Cas.v].  Whether a broker answers, what taking the
    instance's lock comes to and what starting a process comes to are
    arguments. *)

From S2P Require Import Prelude FileSystem FsLogic FsUtil FsCopy Text Protocol Store Locks Paths Legacy HostShare Snapshots Instances Init Cli Cas.

(** ** Requests *)

Record app_state := mk_app {
  app_cpus : N;
  app_memory_mib : N;
  app_nested_kvm : bool;
  app_no_host_shares : bool;
}.

Record import_options := mk_import_options {
  im_source_instance : string;
  im_replace : bool;
  im_start : bool;
  im_idle_ttl_ms : option N;
  im_command : list string;
}.

Record import_response := mk_import_response {
  ir_instance : string;
  ir_imported : string;
  ir_started : bool;
  ir_status : option Z;
}.

(** [HeaderValue::to_str]: visible ASCII and tabs. *)
Definition header_text (c : ascii) : bool := in_range 32 126 c || in_range 9 9 c.

Section headers.
Context (headers : string -> option string).

Definition header_string (name : string) : option string + error :=
  match headers name with
  | None => inl None
  | Some value => if string_all header_text value then inl (Some value) else inr (Bail (name +:+ " is not valid UTF-8"))
  end.

Definition header_bool (name : string) : bool + error :=
  match header_string name with
  | inl (Some value) => inl (bool_decide (value ∈ ["1"; "true"; "yes"]))
  | inl None => inl false
  | inr e => inr e
  end.

Context `{Json (list string)}.

Definition get_import_options : M import_options :=
  source ← lift (header_string "x-lnx-source-instance");
  source_instance ← context source "missing x-lnx-source-instance header";
  text ← lift (header_string "x-lnx-command-json");
  command ← match text with
    | Some value =>
        if bool_decide (value = EmptyString) then mret []
        else context (from_slice (to_bytes value)) "parse x-lnx-command-json"
    | None => mret []
    end;
  replace ← lift (header_bool "x-lnx-replace");
  start ← lift (header_bool "x-lnx-start");
  ttl ← lift (header_string "x-lnx-idle-ttl-ms");
  idle_ttl_ms ← match ttl with
    | Some value =>
        if bool_decide (value = EmptyString) then mret None
        else n ← context (parse_unsigned (2 ^ 64) value) "parse x-lnx-idle-ttl-ms"; mret (Some n)
    | None => mret None
    end;
  mret (mk_import_options source_instance replace start idle_ttl_ms command).

End headers.

(** ** Sessions *)

Definition session_char (c : ascii) : bool := is_ascii_alphanumeric c || Ascii.eqb c "-" || Ascii.eqb c "_".

Definition validate_session_id (value : string) : bool :=
  negb (bool_decide (value = EmptyString)) && (String.length value <=? 128) && string_all session_char value.

Record cas_upload_session := mk_session { us_target_instance : string; us_manifest : cas_upload_manifest }.

Record cas_upload_start := mk_upload_start {
  cs_session : string;
  cs_missing : list string;
  cs_known_blocks : N;
  cs_logical_bytes : N;
  cs_missing_bytes : N;
}.

(** [TempDir]: removed when it is dropped, whatever has happened. *)
Definition with_tempdir {A} (d : path) (c : M A) : M A :=
  r ← attempt c;
  _ ← attempt (remove_dir_all d);
  match r with inl a => mret a | inr e => fail e end.

(** Whether a directory of an instance holds a memory that it would resume. *)
Definition is_resumable_snapshot_dir (dir : string) : bool :=
  bool_decide (dir = "memory-snapshots/latest") ||
  match strip_prefix (GENERATIONS_DIR +:+ "/") dir with
  | Some generation => negb (bool_decide (generation = EmptyString)) && negb (contains_char "/" generation)
  | None => false
  end.

Section server.
Context (sha256 : bytes -> bytes) `{TempFiles, Lseek, Zstd}.
Context `{Json record, Json manifest, Json checkpoint_ref, Json instance_descriptor, Json launch_metadata}.
Context `{Json sparse_bundle_manifest, Json cas_upload_session}.
Context (mode_of : path -> N) (home : option string).
Context (rfc3339 : N -> option string) (start_time : Z -> option N).
(** How many names are tried for a transaction area. *)
Context (fuel : nat).
(** The directory of the server, [Layout::resolve] of an instance, the
    directory it runs in and the system's directory for temporary files. *)
Context (base : path) (resolve : string -> layout) (cwd : string) (temp_dir : path).
(** Runs lnx with the arguments and an idle time: its exit code, if it has
    one. *)
Context (run_lnx : list string -> option N -> M (option Z)).

(** *** Checking what is imported *)

(** [running] is whether the instance's broker answers, [held] what asking for
    its lock came to. *)
Definition reject_running_instance (running : bool) (held : bool + error) : M unit :=
  if running then bail "target instance is running"
  else
    match held with
    | inr e => fail e
    | inl true => bail "target instance is starting"
    | inl false => mret tt
    end.

Definition ensure_import_target (l : layout) (running : bool) (held : bool + error) (replace : bool) : M unit :=
  _ ← reject_running_instance running held;
  there ← instance_has_state l;
  if there && negb replace then bail "target instance already exists" else mret tt.

Definition imported_memory_snapshot (imported : path) : M (option path) :=
  there ← store_exists imported;
  if (there : bool) then
    g ← latest imported;
    mret (match g with
          | Some g => if has_memory (g_manifest g) then Some (g_dir g) else None
          | None => None
          end)
  else
    let legacy := imported /: SNAPSHOTS_DIR /: LATEST in
    old ← path_exists (legacy /: VMSTATE);
    mret (if (old : bool) then Some legacy else None).

Definition refuse_incompatible (st : app_state) (snapshot : path) : M unit :=
  reason ← snapshot_shares_incompatibility_for_import home snapshot cwd (app_no_host_shares st);
  match reason with
  | Some reason => bail "snapshot cannot be restored on this server because its host-share/network settings differ"
  | None => mret tt
  end.

Definition validate_imported_snapshot (imported : path) (st : app_state) : M unit :=
  snapshot ← imported_memory_snapshot imported;
  match snapshot with
  | None => mret tt
  | Some snapshot => refuse_incompatible st snapshot
  end.

(** The files of the manifest that are a memory, by the directory they are in. *)
Definition snapshot_dir_of (instance_prefix : string) (f : cas_manifest_file) : option string :=
  rest ← strip_prefix instance_prefix (cf_path f);
  snapshot ← strip_suffix "/vmstate.bin" rest;
  if is_resumable_snapshot_dir snapshot then Some (instance_prefix +:+ snapshot) else None.

Definition validate_snapshot_files (m : cas_upload_manifest) (st : app_state) (snapshot : string) : M unit :=
  match find (fun f => bool_decide (cf_path f = snapshot +:+ "/launch.json")) (um_files m) with
  | None => bail "snapshot cannot be restored on this server because its launch metadata is missing"
  | Some shares_file =>
      temp ← tempdir_in "lnx-cas-launch-" temp_dir;
      with_tempdir temp (
        _ ← reconstruct_cas_file sha256 base shares_file (temp /: LAUNCH_METADATA) false;
        refuse_incompatible st temp)
  end.

Definition validate_imported_snapshot_manifest (m : cas_upload_manifest) (st : app_state) : M unit :=
  for_each (validate_snapshot_files m st)
    (omap (snapshot_dir_of ("instances/" +:+ um_source_instance m +:+ "/")) (um_files m)).

(** *** Putting it in place *)

Definition import_scratch (l : layout) : M path :=
  _ ← create_dir_all (lo_base l);
  tempdir_in ".import-" (lo_base l).

Definition rewrite_descriptor_name (l : layout) : M unit :=
  d ← load_descriptor l;
  save_descriptor l (mk_descriptor (Some (lo_instance l)) (d_created d) (d_image d) (d_cpus d) (d_memory_mib d)).

Definition move_into_place (imported instance_dir : path) : M unit :=
  _ ← sync_tree imported;
  _ ← rename imported instance_dir;
  match parent instance_dir with Some d => sync_dir d | None => mret tt end.

(** What is done under the instance's lock. *)
Definition swap_instance_dir (l : layout) (imported replaced : path) : M unit :=
  _ ← rename (lo_instance_dir l) replaced;
  moved ← attempt (move_into_place imported (lo_instance_dir l));
  match moved with
  | inr e => _ ← rename replaced (lo_instance_dir l); fail e
  | inl _ => if bool_decide (lo_run_dir l = lo_instance_dir l) then mret tt else remove_path_if_exists (lo_run_dir l)
  end.

Definition replace_instance_dir (l : layout) (imported : path) (locked : bool + error) : M unit :=
  instances_root ← context (parent (lo_instance_dir l)) "instance dir has no parent";
  area ← ensure_instance_transaction_root fuel instances_root;
  trash ← tempdir_in ("replace-" +:+ lo_instance l +:+ "-") area;
  with_tempdir trash (
    swapped ← with_exclusive_instance_state locked (swap_instance_dir l imported (trash /: "state"));
    match swapped with
    | None => bail "target instance is busy; stop it and retry"
    | Some _ => remove_path_if_exists trash
    end).

Definition install_kernel_if_present (bundle : path) (l : layout) : M unit :=
  there ← path_exists (bundle /: "vmlinuz");
  kernel ← (if (there : bool) then path_exists (lo_kernel l) else mret true);
  if (kernel : bool) then mret tt else clone_or_copy_file (bundle /: "vmlinuz") (lo_kernel l).

(** What an imported directory is made into before it is moved. *)
Definition prepare_import (imported : path) (l : layout) (st : app_state) : M unit :=
  there ← dir_has_instance_state imported;
  if negb there then bail "sandbox bundle has no saved state"
  else
    _ ← validate_imported_snapshot imported st;
    rewrite_descriptor_name
      (mk_layout (lo_base l) (lo_instance l) (lo_kernel l) (lo_rootfs l) imported imported (lo_console_log l)).

Definition place_import (imported : path) (l : layout) (replace : bool) (locked : bool + error) : M unit :=
  parent ← context (parent (lo_instance_dir l)) "instance dir has no parent";
  _ ← create_dir_all parent;
  there ← (if replace then r ← attempt (symlink_metadata (lo_instance_dir l)); mret (match r with inl _ => true | inr _ => false end)
           else mret false);
  if (there : bool) then replace_instance_dir l imported locked else move_into_place imported (lo_instance_dir l).

Definition install_imported_sandbox (scratch : path) (l : layout) (source_instance : string) (replace : bool)
    (st : app_state) (locked : bool + error) : M unit :=
  let imported := scratch /: "instances" /: source_instance in
  _ ← prepare_import imported l st;
  _ ← place_import imported l replace locked;
  _ ← install_kernel_if_present scratch l;
  index_layout_into_cas sha256 mode_of base l.

(** *** Starting it *)

Definition instance_start_args (l : layout) (st : app_state) (guest_command : list string) : M (list string) :=
  d ← load_descriptor l;
  mret (["--instance"; lo_instance l; "--cpus"; pretty (default (app_cpus st) (d_cpus d));
         "--memory-mib"; pretty (default (app_memory_mib st) (d_memory_mib d))] ++
        flag (app_nested_kvm st) "--nested-kvm" ++ flag (app_no_host_shares st) "--no-host-shares" ++ guest_command).

Definition run_instance_start_command (l : layout) (st : app_state) (idle_ttl_ms : option N) (guest_command : list string) : M Z :=
  args ← instance_start_args l st guest_command;
  code ← run_lnx args idle_ttl_ms;
  mret (default 1%Z code).

Definition start_imported_instance (l : layout) (o : import_options) (st : app_state) : M Z :=
  run_instance_start_command l st (im_idle_ttl_ms o)
    (if bool_decide (im_command o = []) then ["true"] else im_command o).

(** [state] is what [status::instance_state] gives. *)
Definition start_existing_instance (l : layout) (st : app_state) (state : instance_state) : M unit :=
  match state with
  | InstRunning => mret tt
  | InstStarting => bail "instance is already starting"
  | InstPartial => bail "instance is missing rootfs"
  | InstStopped =>
      there ← instance_has_state l;
      if negb there then bail "instance has no saved state"
      else
        args ← instance_start_args l st ["true"];
        code ← run_lnx args (Some (60 * 60 * 1000)%N);
        if bool_decide (code = Some 0%Z) then mret tt else bail "start exited"
  end.

(** *** Importing *)

Definition start_if_asked (l : layout) (target : string) (o : import_options) (st : app_state) : M import_response :=
  status ← (if im_start o then c ← start_imported_instance l o st; mret (Some c) else mret None);
  mret (mk_import_response target (im_source_instance o) (im_start o) status).

Definition import_to_layout (l : layout) (target : string) (o : import_options) (st : app_state) (running : bool)
    (held locked : bool + error) (extract : path -> M unit) : M import_response :=
  _ ← ensure_import_target l running held (im_replace o);
  scratch ← import_scratch l;
  with_tempdir scratch (
    _ ← extract scratch;
    _ ← install_imported_sandbox scratch l (im_source_instance o) (im_replace o) st locked;
    start_if_asked l target o st).

Definition import_sparse_bundle_to_layout (broken_at : option nat) (bundle : path) (l : layout) (target : string)
    (o : import_options) (st : app_state) (running : bool) (held locked : bool + error) : M import_response :=
  import_to_layout l target o st running held locked
    (fun scratch => extract_sparse_bundle broken_at bundle scratch (im_source_instance o)).

(** [tar] is a program. *)
Definition extract_archive (tar : path -> path -> M bool) (archive dest : path) : M unit :=
  ok ← tar dest archive;
  if (ok : bool) then mret tt else bail "tar extract failed".

Definition import_archive_to_layout (tar : path -> path -> M bool) (archive : path) (l : layout) (target : string)
    (o : import_options) (st : app_state) (running : bool) (held locked : bool + error) : M import_response :=
  import_to_layout l target o st running held locked (extract_archive tar archive).

(** *** Uploading in a session *)

Definition cas_session_dir (session : string) : option path :=
  if validate_session_id session then Some (cas_uploads_root base /: session) else None.

Definition session_id (target : string) (now pid : N) : string :=
  target +:+ "-" +:+ string_take 16 (sha256_hex sha256 (to_bytes (target +:+ ":" +:+ pretty now +:+ ":" +:+ pretty pid))).

Definition new_upload_session_id (target : string) : M string :=
  now ← clock;
  pid ← process_id;
  mret (session_id target now pid).

(** The blocks seen, the ones missing (in order), how many are there and how
    many bytes are not. *)
Record survey := mk_survey { sv_seen : gset string; sv_missing : list string; sv_known : N; sv_missing_bytes : N }.

Definition survey_block (s : survey) (b : cas_manifest_block) : M survey :=
  if bool_decide (cb_sha256 b ∈ sv_seen s) then mret s
  else
    let seen := {[ cb_sha256 b ]} ∪ sv_seen s in
    known ← (if bool_decide (cb_sha256 b = zero_block_hash sha256) then mret true
             else p ← context (cas_block_path base (cb_sha256 b)) "invalid sha256 hex"; path_exists p);
    mret (if (known : bool) then mk_survey seen (sv_missing s) (sv_known s + 1) (sv_missing_bytes s)
          else mk_survey seen (sv_missing s ++ [cb_sha256 b]) (sv_known s) (saturating_add (sv_missing_bytes s) (cb_len b))).

Definition start_cas_upload_blocking (target : string) (m : cas_upload_manifest) (running : bool) (held : bool + error)
    : M cas_upload_start :=
  if negb (um_version m =? 2)%N then bail "unsupported CAS upload manifest version"
  else
    _ ← ensure_import_target (resolve target) running held (um_replace m);
    _ ← validate_cas_manifest m;
    _ ← create_dir_all (cas_root base);
    _ ← create_dir_all (cas_uploads_root base);
    session ← new_upload_session_id target;
    session_dir ← context (cas_session_dir session) "invalid upload session id";
    _ ← create_dir_all session_dir;
    _ ← fs_write (session_dir /: "session.json") (to_vec_pretty (mk_session target m));
    s ← fold_m survey_block (mk_survey ∅ [] 0 0) (um_files m ≫= cf_blocks);
    mret (mk_upload_start session (sv_missing s) (sv_known s)
            (foldl (fun n f => saturating_add n (cf_len f)) 0%N (um_files m)) (sv_missing_bytes s)).

Definition options_of (m : cas_upload_manifest) : import_options :=
  mk_import_options (um_source_instance m) (um_replace m) (um_start m) (um_idle_ttl_ms m) (um_command m).

Definition commit_cas_upload_blocking (session : string) (st : app_state) (running : bool) (held locked : bool + error)
    : M import_response :=
  session_dir ← context (cas_session_dir session) "invalid upload session id";
  text ← read_to_string (session_dir /: "session.json");
  doc ← context (from_slice (to_bytes text)) "parse upload session";
  let m := us_manifest doc in
  let target := us_target_instance doc in
  let l := resolve target in
  _ ← ensure_import_target l running held (um_replace m);
  _ ← validate_cas_manifest m;
  _ ← validate_imported_snapshot_manifest m st;
  _ ← verify_cas_manifest_blocks_exist sha256 base m;
  scratch ← import_scratch l;
  with_tempdir scratch (
    _ ← reconstruct_cas_manifest sha256 base m scratch;
    _ ← install_imported_sandbox scratch l (um_source_instance m) (um_replace m) st locked;
    _ ← remove_path_if_exists session_dir;
    start_if_asked l target (options_of m) st).

(** *** Handlers *)

Inductive api_status := BAD_REQUEST | INTERNAL_SERVER_ERROR.

(** [map_err] of a handler's step, with [?] after it *)
Definition or_status {A} (status : api_status) (c : M A) : M (A + api_status) :=
  r ← attempt c;
  mret (match r with inl a => inl a | inr _ => inr status end).

Definition and_then {A B} (c : M (A + api_status)) (k : A -> M (B + api_status)) : M (B + api_status) :=
  r ← c;
  match r with inl a => k a | inr s => mret (inr s) end.

Definition require (b : bool) : M unit := if b then mret tt else bail "invalid".

(** [content_type] is the header, [receive] writes the body to the bundle's
    file: a body that breaks off is the client's error, the file the server's. *)
Definition is_sparse_bundle (content_type : string) : bool :=
  match split_char ";" content_type with
  | value :: _ => bool_decide (trim value = "application/x-lnx-sparse-bundle")
  | [] => false
  end.

Definition import_sandbox `{Json (list string)} (headers : string -> option string) (tar : path -> path -> M bool)
    (receive : path -> M (unit + api_status)) (bundle : path) (broken_at : option nat) (instance : string) (st : app_state)
    (running : bool) (held locked : bool + error) : M (import_response + api_status) :=
  and_then (or_status BAD_REQUEST (require (validate_instance_name instance))) (fun _ =>
  and_then (or_status BAD_REQUEST (get_import_options headers)) (fun o =>
  and_then (or_status BAD_REQUEST (require (validate_instance_name (im_source_instance o)))) (fun _ =>
  and_then (or_status BAD_REQUEST (lift (header_string headers "content-type"))) (fun content_type =>
  and_then (receive bundle) (fun _ =>
  or_status INTERNAL_SERVER_ERROR (
    if is_sparse_bundle (default EmptyString content_type) then
      import_sparse_bundle_to_layout broken_at bundle (resolve instance) instance o st running held locked
    else import_archive_to_layout tar bundle (resolve instance) instance o st running held locked)))))).

Definition start_cas_upload `{Json cas_upload_manifest} (body : bytes) (instance : string) (running : bool) (held : bool + error)
    : M (cas_upload_start + api_status) :=
  and_then (or_status BAD_REQUEST (require (validate_instance_name instance))) (fun _ =>
  and_then (or_status BAD_REQUEST (context (from_slice body) "parse")) (fun m =>
  and_then (or_status BAD_REQUEST (require (validate_instance_name (um_source_instance m)))) (fun _ =>
  or_status BAD_REQUEST (start_cas_upload_blocking instance m running held)))).

(** [decode] is the zstd decoder a compressed body is read through. *)
Definition upload_cas_blocks (decode : stream -> stream) (compressed : bool) (body : stream) (session : string) : M (N + api_status) :=
  and_then (or_status BAD_REQUEST (require (validate_session_id session))) (fun _ =>
  or_status BAD_REQUEST (store_cas_block_stream sha256 base (if compressed then decode body else body))).

Definition commit_cas_upload (session : string) (st : app_state) (running : bool) (held locked : bool + error)
    : M (import_response + api_status) :=
  and_then (or_status BAD_REQUEST (require (validate_session_id session))) (fun _ =>
  or_status BAD_REQUEST (commit_cas_upload_blocking session st running held locked)).

Definition abort_cas_upload (session : string) : M (unit + api_status) :=
  and_then (or_status BAD_REQUEST (require (validate_session_id session))) (fun _ =>
  or_status INTERNAL_SERVER_ERROR (
    session_dir ← context (cas_session_dir session) "invalid upload session id";
    remove_path_if_exists session_dir)).

Definition start_instance (instance : string) (st : app_state) (state : instance_state) : M (unit + api_status) :=
  and_then (or_status BAD_REQUEST (require (validate_instance_name instance))) (fun _ =>
  or_status BAD_REQUEST (start_existing_instance (resolve instance) st state)).

(** *** Pushing *)

Definition checkpoint_bundle_layout (source : layout) (bundle_base : path) : layout :=
  let dir := bundle_base /: "instances" /: lo_instance source in
  mk_layout bundle_base (lo_instance source) (bundle_base /: "vmlinuz") None dir dir (dir /: "console.log").

(** The copy that is sent, below the temporary directory [tempdir]. *)
Definition prepare_push_source (source : layout) (tempdir : path) (locked : bool + error) (live : bool) (held : bool + error)
    (capture : path -> M unit) : M layout :=
  let bundle := checkpoint_bundle_layout source tempdir in
  _ ← fork rfc3339 start_time fuel source ForkCurrent bundle locked live held capture;
  kernel ← (if bool_decide (lo_kernel source = lo_base source /: "vmlinuz") then path_exists (lo_kernel source) else mret false);
  _ ← (if (kernel : bool) then clone_or_copy_file (lo_kernel source) (lo_kernel bundle) else mret tt);
  mret bundle.

(** What the server answers to each request of a push. *)
Class Server := {
  post_upload : cas_upload_manifest -> M cas_upload_start;
  put_blocks : string -> bytes -> M N;
  post_commit : string -> M unit;
  delete_upload : string -> M unit;
}.

Definition push_cas_bundle `{Server} (bundle : layout) (replace start : bool) (idle_ttl_ms : option N) (command : list string) : M unit :=
  b ← open_push_bundle sha256 mode_of bundle replace start idle_ttl_ms command;
  answer ← post_upload (pb_manifest b);
  result ← attempt (
    _ ← (if bool_decide (cs_missing answer = []) then mret tt
         else
           packed ← pack_missing b (cs_missing answer);
           _ ← put_blocks (cs_session answer) packed;
           mret tt);
    post_commit (cs_session answer));
  match result with
  | inl _ => mret tt
  | inr e => _ ← attempt (delete_upload (cs_session answer)); fail e
  end.

Definition push `{Server} (source : layout) (target : string) (replace start : bool) (idle_ttl_ms : option N)
    (command : list string) (locked : bool + error) (live : bool) (held : bool + error) (capture : path -> M unit) : M unit :=
  if negb (validate_instance_name (lo_instance source)) || negb (validate_instance_name target) then bail "invalid instance name"
  else
    there ← path_exists (lo_instance_dir source);
    if negb there then bail "source instance does not exist"
    else
      tempdir ← tempdir_in "lnx-server-push-" temp_dir;
      with_tempdir tempdir (
        bundle ← prepare_push_source source tempdir locked live held capture;
        push_cas_bundle bundle replace start idle_ttl_ms command).

End server.

(** ** Terminals *)

Record terminal_resize := mk_resize { tr_kind : string; tr_rows : N; tr_cols : N }.

Inductive ws_message := WsText (text : string) | WsBinary (b : bytes) | WsClose | WsPing | WsPong.

Inductive broker_input := InputData (b : bytes) | InputResize (rows cols : N) | InputClose.

Inductive broker_output := OutputData (b : bytes) | OutputText (s : string) | OutputDone.

(** The start of a JSON object whose first key is "type". *)
Definition RESIZE_PREFIX : string := String "{" (String "034" ("type" +:+ String "034" EmptyString)).

(** What is sent on to the broker for a message of the browser, if anything. *)
Definition handle_terminal_ws_message `{Json terminal_resize} (m : ws_message) : option broker_input :=
  match m with
  | WsText text =>
      let data := Some (InputData (to_bytes text)) in
      if starts_with RESIZE_PREFIX text then
        match from_slice (to_bytes text) with
        | Some resize => if bool_decide (tr_kind resize = "resize") then Some (InputResize (tr_rows resize) (tr_cols resize)) else data
        | None => data
        end
      else data
  | WsBinary b => Some (InputData b)
  | WsClose => Some InputClose
  | WsPing | WsPong => None
  end.

(** The thread that writes to the broker: the messages it writes. *)
Fixpoint terminal_writer (channel_id : N) (inputs : list broker_input) : list message :=
  match inputs with
  | [] => []
  | InputData b :: rest => Protocol.Data channel_id b :: terminal_writer channel_id rest
  | InputResize rows cols :: rest => Protocol.WindowResize channel_id rows cols :: terminal_writer channel_id rest
  | InputClose :: _ => [Protocol.Eof channel_id; Protocol.Close channel_id]
  end.

Definition CRLF : string := String "013" (String "010" EmptyString).

(** The thread that reads from the broker: what it passes on, until the
    command ends or reading fails. *)
Fixpoint terminal_reader (channel_id : N) (messages : list (message + string)) : list broker_output :=
  match messages with
  | [] => []
  | inl (Protocol.Data id b) :: rest | inl (Stderr id b) :: rest =>
      if (id =? channel_id)%N then OutputData b :: terminal_reader channel_id rest else terminal_reader channel_id rest
  | inl (ExitStatus id status) :: rest =>
      if (id =? channel_id)%N then [OutputText (CRLF +:+ "[process exited: " +:+ pretty status +:+ "]" +:+ CRLF); OutputDone]
      else terminal_reader channel_id rest
  | inl (ErrorMsg id message) :: rest =>
      if (id =? channel_id)%N then [OutputText (CRLF +:+ "[error: " +:+ message +:+ "]" +:+ CRLF); OutputDone]
      else terminal_reader channel_id rest
  | inl _ :: rest => terminal_reader channel_id rest
  | inr error :: _ => [OutputText (CRLF +:+ "[broker error: " +:+ error +:+ "]" +:+ CRLF); OutputDone]
  end.

(** [vars] is the server's environment. *)
Definition terminal_env (vars : list (string * string)) : list (string * string) :=
  let env := [("TERM", "xterm-256color"); ("COLORTERM", "truecolor")] ++
    omap (fun key => kv ← list_find (fun kv => kv.1 = key) vars;
                     if bool_decide (kv.2.2 = EmptyString) then None else Some (key, kv.2.2))
      ["LANG"; "LANGUAGE"; "TZ"; "NO_COLOR"; "CLICOLOR"; "CLICOLOR_FORCE"] in
  foldl (fun env kv =>
    if starts_with "LC_" kv.1 && negb (bool_decide (kv.2 = EmptyString)) && negb (bool_decide (kv.1 ∈ env.*1)) then env ++ [kv] else env)
    env vars.
