(* ===== verification/BundleTheorems.v ===== *)
(** * What a bundle unpacks to

    The files an uploaded bundle describes, as a function of its bytes, and
    that unpacking the bundle into an empty directory leaves exactly these. *)

From S2P Require Import Prelude Codec FileSystem FsLogic FsUtil FsCopy Text Protocol Store StoreLogic.
From S2P Require Import Paths Legacy HostShare Snapshots SnapshotTheorems Instances InstanceLogic ForkTheorems Init InitTheorems Cli CliTheorems Cas CasTheorems.

(** ** Unpacking keeps the tree well-formed *)

Lemma keeps_form_silent {A : Type} (c : M A) : modifies (fun _ => False) c -> respects keeps_form c.
Proof.
  intros Hc E w Hwf. enough (w_fs (left_by (c E w)) = w_fs w) as -> by done. apply map_eq. intros p. apply Hc. tauto.
Qed.

Lemma keeps_form_write_at p offset data : respects keeps_form (write_at p offset data).
Proof.
  intros E w Hwf. unfold write_at. destruct (w_fs w !! p) as [[f | |] |] eqn:Hp; [| done..].
  destruct (e_fault E (w_tick w)) as [[] |]; simpl; by eapply keeps_form_put_file.
Qed.

Lemma keeps_form_copy_chunks fuel i out offset len : respects keeps_form (copy_chunks fuel i out offset len).
Proof.
  revert i offset len. induction fuel as [| fuel IH]; intros i offset len; simpl; [respects_tac |].
  destruct (_ <? _)%N; [| respects_tac]. apply respects_bind; [apply _ | |].
  - unfold fill_or_fail. destruct (fill _ _); respects_tac.
  - intros got. apply respects_bind; [apply _ | apply keeps_form_write_at |]. intros []. apply IH.
Qed.

Lemma keeps_form_set_len p n : respects keeps_form (set_len p n).
Proof.
  apply respects_change; [apply _ |]. intros E w o Ho Hwf. unfold stat_in in Ho.
  destruct (w_fs w !! p) as [[f | |] |] eqn:Hp; simplify_eq. by eapply keeps_form_put_file.
Qed.
#[local] Hint Resolve keeps_form_write_at keeps_form_copy_chunks keeps_form_set_len : frames.

Lemma keeps_form_extract_file `{Zstd} dest i f : respects keeps_form (extract_file dest i f).
Proof.
  unfold extract_file. apply respects_bind; [apply _ | apply keeps_form_silent; respects_tac |]. intros relative.
  apply respects_bind; [apply _ | unfold make_output; respects_tac |]. intros [].
  apply respects_bind; [apply _ | | intros i'; unfold preserve_file_metadata; respects_tac].
  apply respects_fold_m; [apply _ |]. intros i' x _. unfold extract_extent, copy_exact_bytes. respects_tac.
Qed.

Lemma keeps_form_extract `{Zstd, Json sparse_bundle_manifest} broken_at bundle dest expected :
  respects keeps_form (extract_sparse_bundle broken_at bundle dest expected).
Proof.
  unfold extract_sparse_bundle. apply respects_bind; [apply _ | respects_tac |]. intros data.
  apply respects_bind; [apply _ | apply keeps_form_silent; unfold read_bundle_manifest, fill_or_fail; respects_tac |]. intros [mf i]. simpl.
  apply respects_bind; [apply _ | | intros; respects_tac]. apply respects_fold_m; [apply _ |]. intros i' f _. apply keeps_form_extract_file.
Qed.

(** ** The files of a bundle *)

Section files.
Context `{Zstd, Json sparse_bundle_manifest}.

(** The bytes of an extent, at the front of the stream as they are or packed. *)
Definition extent_data (x : sparse_extent) (i : stream) : option (bytes * stream) :=
  match ex_compressed_len x with
  | Some n =>
      let decoded := copy_decode (take_stream n i) in
      if decoded.2 && (N.of_nat (length decoded.1) =? ex_len x)%N
      then Some (decoded.1, mk_stream (drop (N.to_nat n) (in_rest i)) (in_broken i)) else None
  | None => match fill (ex_len x) i with Filled d rest => Some (d, rest) | _ => None end
  end.

(** The extents of a file laid over its contents one after the other. *)
Fixpoint file_data (xs : list sparse_extent) (contents : bytes) (i : stream) : option (bytes * stream) :=
  match xs with
  | [] => Some (contents, i)
  | x :: xs' => '(d, i') ← extent_data x i; file_data xs' (splice (N.to_nat (ex_offset x)) d contents) i'
  end.

(** Each file starts out as zeros; of two of one path the later counts. *)
Fixpoint files_data (fs : list sparse_bundle_file) (files : gmap path bytes) (i : stream) : option (gmap path bytes) :=
  match fs with
  | [] => Some files
  | f :: fs' =>
      relative ← safe_bundle_relative_path (bf_path f);
      '(c, i') ← file_data (bf_extents f) (replicate (N.to_nat (bf_len f)) x00) i;
      files_data fs' (<[normal_names relative := c]> files) i'
  end.

(** A bundle of [source]: the magic, the manifest behind its length, and the
    bytes of the extents of its files in order. *)
Definition bundle_of (source : string) (i : stream) (files : gmap path bytes) : Prop :=
  exists size json manifest body,
    in_rest i = SPARSE_BUNDLE_MAGIC ++ size ++ json ++ body /\ length size = 8 /\
    N.of_nat (length json) = from_le_bytes size /\ from_slice json = Some manifest /\
    bm_version manifest = 1%N /\ bm_source_instance manifest = source /\
    files_data (bm_files manifest) ∅ (mk_stream body (in_broken i)) = Some files.

(** A directory below which are exactly these files. *)
Definition unpacked (dest : path) (files : gmap path bytes) (m : fsmap) : Prop :=
  forall s, contents_at m (dest ++ s) = files !! s.

(** ** Unpacking *)

Section unpack.
Context (E : env).

Lemma t_extent f out i x m g : m !! out = Some (NFile g) -> N.to_nat (bf_len f) = length (f_data g) ->
  triple E (eq m) (extract_extent f out i x)
    (fun i' m' => exists d b, extent_data x i = Some (d, i') /\
       m' = <[out := NFile (mk_file (splice (N.to_nat (ex_offset x)) d (f_data g)) b)]> m /\
       length (splice (N.to_nat (ex_offset x)) d (f_data g)) = length (f_data g)) (fun _ => True).
Proof using Type*.
  intros Hg Hlen. unfold extract_extent. destruct (_ || _) eqn:Hb; [by apply t_fail |].
  apply orb_false_iff in Hb as [B1%N.ltb_ge B2%N.ltb_ge]. unfold extent_data. destruct (ex_compressed_len x) as [n |].
  - set (decoded := copy_decode (take_stream n i)).
    eapply t_bind; [eapply t_conseq; [by apply t_write_at | done | intros u m' Hm; exact Hm | done] |]. intros [].
    destruct decoded.2; [| by apply t_fail]. cbn [negb]. destruct (_ =? _)%N eqn:Hl; [| by apply t_fail]. apply N.eqb_eq in Hl.
    apply t_ret. intros m' [b ->]. exists decoded.1, b. split_and!; [done | done |]. apply splice_length. lia.
  - eapply t_conseq; [by apply (t_copy_exact E out m g); [| lia] | done | | done]. intros i' m' (b & -> & Hin & ->).
    exists (take (N.to_nat (ex_len x)) (in_rest i)), b. unfold fill. rewrite (proj2 (N.ltb_ge _ _)) by lia.
    split_and!; [done | done |]. apply splice_length. rewrite length_take. lia.
Qed.

Lemma t_extents f out xs i m g : m !! out = Some (NFile g) -> N.to_nat (bf_len f) = length (f_data g) ->
  triple E (eq m) (fold_m (extract_extent f out) i xs)
    (fun i' m' => exists c b, file_data xs (f_data g) i = Some (c, i') /\ m' = <[out := NFile (mk_file c b)]> m) (fun _ => True).
Proof using Type*.
  revert i m g. induction xs as [| x xs IH]; intros i m g Hg Hlen; cbn [fold_m file_data].
  - apply t_ret. intros ? <-. exists (f_data g), (f_blocks g). split; [done |]. by rewrite insert_id by (rewrite Hg; by destruct g).
  - eapply t_bind; [by apply t_extent |]. intros i'. apply t_start. intros m' (d & b & -> & -> & Hl). cbn [mbind option_bind].
    eapply t_conseq; [eapply (IH i' _ (mk_file (splice (N.to_nat (ex_offset x)) d (f_data g)) b)); [apply lookup_insert_eq | cbn [f_data]; by rewrite Hl] | done | | done].
    intros i2 m2 (c & b2 & Hc & ->). exists c, b2. split; [exact Hc |]. by rewrite insert_insert_eq.
Qed.

(** A new file and directories above it, and nothing else. *)
Lemma unpacked_insert dest files m m' s c : dest <> [] -> unpacked dest files m -> well_formed m' -> contents_at m' (dest ++ s) = Some c ->
  keeps_but (dest ++ s) m m' -> frame (fun q => below q (dest ++ s)) m m' -> unpacked dest (<[s := c]> files) m'.
Proof.
  intros Hdest Hu Hwf Hc Hk Hf t. destruct (decide (s = t)) as [<- | Hne]; [by rewrite lookup_insert_eq |].
  rewrite lookup_insert_ne by done. rewrite <- Hu. assert (Hq : dest ++ t <> dest ++ s) by (intros ?%app_inv_head; congruence).
  destruct (decide (below (dest ++ t) (dest ++ s))) as [Hb | Hb]; [| unfold contents_at; by rewrite (Hf _ Hb)].
  assert (Hd : contents_at m' (dest ++ t) = None).
  { unfold contents_at. unfold contents_at in Hc. destruct (m' !! (dest ++ s)) as [[] |] eqn:Hs; try done.
    apply below_spec in Hb as (r & Hr). rewrite (above_is_dir m' (dest ++ t) r); [done | done | | | rewrite <- Hr, Hs; eauto].
    - intros Hn. by apply app_eq_nil in Hn as [? _].
    - intros ->. by rewrite app_nil_r in Hr. }
  rewrite Hd. symmetry. unfold contents_at in *. destruct (m !! (dest ++ t)) as [[g | |] |] eqn:Hm; try done.
  rewrite (Hk _ Hq) in Hd by (rewrite Hm; eauto). by rewrite Hm in Hd.
Qed.

Lemma t_file_written dest i f m :
  triple E (eq m) (extract_file dest i f)
    (fun i' m' => exists relative c, safe_bundle_relative_path (bf_path f) = Some relative /\
       file_data (bf_extents f) (replicate (N.to_nat (bf_len f)) x00) i = Some (c, i') /\
       let out := dest ++ normal_names relative in
       contents_at m' out = Some c /\ keeps_but out m m' /\ frame (fun q => below q out) m m') (fun _ => True).
Proof using Type*.
  unfold extract_file. destruct (safe_bundle_relative_path (bf_path f)) as [relative |] eqn:Hs; cbn [context].
  2: { eapply (t_bind _ _ _ _ (fun _ _ => False)); [by apply t_fail | by intros ? ?]. }
  change (mret ?x ≫= ?k) with (k x). cbn beta zeta. rewrite (output_path_safe dest _ _ Hs). set (out := dest ++ normal_names relative).
  eapply t_bind; [eapply t_conseq; [apply t_make_output | done | intros u m' Hm; exact Hm | done] |]. intros []. apply t_start. intros m1 (Hc & Hk & Hf).
  unfold contents_at in Hc. destruct (m1 !! out) as [[g | |] |] eqn:Hg; try done. injection Hc as Hc.
  eapply t_bind; [by apply (t_extents f out (bf_extents f) i m1 g); [| rewrite Hc, length_replicate] |].
  intros i'. apply t_start. intros m2 (c & b & Hd & ->). rewrite Hc in Hd.
  eapply (t_bind _ _ _ _ (fun _ => eq (<[out := NFile (mk_file c b)]> m1))); [apply t_silent; [unfold preserve_file_metadata; respects_tac | done | done] |].
  intros []. apply t_ret. intros m' <-. exists relative, c. split_and!; [done | done | | |].
  - unfold contents_at. by rewrite lookup_insert_eq.
  - etrans; [exact Hk | apply keeps_but_insert].
  - etrans; [exact Hf |]. intros q Hq. apply lookup_insert_ne. intros <-. apply Hq, below_refl.
Qed.

Lemma t_files dest fs i files m : dest <> [] -> well_formed m -> unpacked dest files m ->
  triple E (eq m) (fold_m (extract_file dest) i fs)
    (fun _ m' => exists files', files_data fs files i = Some files' /\ unpacked dest files' m') (fun _ => True).
Proof using Type*.
  intros Hdest. revert i files m. induction fs as [| f fs IH]; intros i files m Hwf Hu; cbn [fold_m files_data].
  { apply t_ret. intros ? <-. by exists files. }
  eapply t_bind; [eapply t_keep_form; [by intros ? <- | apply keeps_form_extract_file | apply (t_file_written dest i f m)] |].
  intros i'. apply t_start. intros m1 [(relative & c & -> & Hd & Hc & Hk & Hf) Hwf1]. cbn [mbind option_bind].
  rewrite Hd. cbn [mbind option_bind]. apply IH; [done |]. by eapply unpacked_insert.
Qed.

(** What was read is at the front of the stream. *)
Lemma t_fill_bytes n i m : triple E (eq m) (fill_or_fail n i)
  (fun got m' => m = m' /\ in_rest i = got.1 ++ in_rest got.2 /\ in_broken got.2 = in_broken i /\ N.of_nat (length got.1) = n) (fun _ => True).
Proof.
  unfold fill_or_fail, fill. destruct (N.ltb_spec (N.of_nat (length (in_rest i))) n) as [| Hn]; [destruct (in_broken i); by apply t_fail |].
  apply t_ret. intros ? <-. cbn. split_and!; [done | by rewrite take_drop | done |]. rewrite length_take. lia.
Qed.

Lemma t_manifest i source m : triple E (eq m) (read_bundle_manifest i source)
  (fun head m' => m = m' /\ in_broken head.2 = in_broken i /\ exists size json,
     in_rest i = SPARSE_BUNDLE_MAGIC ++ size ++ json ++ in_rest head.2 /\ length size = 8 /\ N.of_nat (length json) = from_le_bytes size /\
     from_slice json = Some head.1 /\ bm_version head.1 = 1%N /\ bm_source_instance head.1 = source) (fun _ => True).
Proof using Type*.
  unfold read_bundle_manifest. eapply t_bind; [apply t_fill_bytes |]. intros [magic i1]. apply t_start. intros ? (<- & H1 & B1 & _). cbn [fst snd] in *.
  case_bool_decide as Hmagic; cbn [negb]; [| by apply t_fail]. subst magic.
  eapply t_bind; [apply t_fill_bytes |]. intros [size i2]. apply t_start. intros ? (<- & H2 & B2 & L2). cbn [fst snd] in *.
  destruct (_ <? from_le_bytes size)%N; [by apply t_fail |].
  eapply t_bind; [apply t_fill_bytes |]. intros [json i3]. apply t_start. intros ? (<- & H3 & B3 & L3). cbn [fst snd] in *.
  destruct (from_slice json) as [manifest |] eqn:Hj; cbn [context]; [| eapply (t_bind _ _ _ _ (fun _ _ => False)); [by apply t_fail | by intros ? ?]].
  change (mret ?x ≫= ?k) with (k x). cbn beta. destruct (_ =? 1)%N eqn:Hv; cbn [negb]; [| by apply t_fail].
  destruct (_ || _); cbn [negb]; [| by apply t_fail]. case_bool_decide as Hs; cbn [negb]; [| by apply t_fail].
  apply t_ret. intros ? <-. cbn [fst snd]. split_and!; [done | congruence |]. exists size, json. apply N.eqb_eq in Hv.
  rewrite H1, H2, H3. split_and!; [done | lia | done..].
Qed.

(** How the bundle's file is read. *)
Definition bundle_stream (broken_at : option nat) (data : bytes) : stream :=
  match broken_at with Some n => mk_stream (take n data) true | None => mk_stream data false end.

(** Unpacked into an empty directory, a bundle is exactly the files it
    describes. *)
Lemma t_unpack_bundle broken_at bundle dest source data m : dest <> [] -> well_formed m ->
  contents_at m bundle = Some data -> (forall s, contents_at m (dest ++ s) = None) ->
  triple E (eq m) (extract_sparse_bundle broken_at bundle dest source)
    (fun _ m' => exists files, bundle_of source (bundle_stream broken_at data) files /\ unpacked dest files m') (fun _ => True).
Proof using Type*.
  intros Hdest Hwf Hdata Hempty. unfold extract_sparse_bundle.
  eapply (t_bind _ _ _ _ (fun d m' => m = m' /\ d = data)).
  { apply t_look; [done |]. intros ? d <- Hd. split; [done |]. unfold contents_at in Hdata. unfold read_in, stat_in in Hd.
    destruct (m !! bundle) as [[g | |] |]; simplify_eq. done. }
  intros d. apply t_start. intros ? [<- ->]. fold (bundle_stream broken_at data). cbv zeta.
  eapply t_bind; [apply t_manifest |]. intros [manifest i]. apply t_start. intros ? (<- & Hb & size & json & Hi & Hsize & Hjson & Hm & Hv & Hs).
  cbn [fst snd] in *. eapply t_bind; [apply (t_files dest (bm_files manifest) i ∅ m); [done | done |] |].
  { intros s. by rewrite lookup_empty. }
  intros rest. apply t_ret. intros m' (files & Hf & Hu). exists files. split; [| done].
  exists size, json, manifest, (in_rest i). split_and!; try done. rewrite <- Hb. by destruct i.
Qed.
End unpack.
End files.
