(* ===== verification/PushTheorems.v ===== *)
(** * A push delivers

    What is collected for a push is every file of the instance that belongs to
    it, described block by block; the blocks a server asks for are the ones it
    lacks, and arrive; and what the server then writes is what the client has.
    The extents of a file come from [lseek], whose behaviour is a law. *)

From S2P Require Import Prelude Codec FileSystem FsLogic FsUtil FsCopy FsTotal Text Protocol Store StoreLogic StoreExample.
From S2P Require Import Paths Legacy HostShare HostShareTheorems Snapshots SnapshotTheorems Instances InstanceLogic ForkTheorems Init InitTheorems Cli CliTheorems.
From S2P Require Import Cas CasTheorems Server.

(** ** Extents *)

(** [lseek]: where the system knows of a hole the file reads as zeros;
    [SEEK_DATA] finds the next place that is not in one, [SEEK_HOLE] the next
    that is, the end of the file included. *)
Class SeekLaws `{Lseek} (in_hole : fsmap -> path -> nat -> bool) := {
  hole_zero m p f k x : m !! p = Some (NFile f) -> in_hole m p k = true -> f_data f !! k = Some x -> x = x00;
  seek_data p offset : reads (lseek p offset SEEK_DATA) (fun m r => forall f, m !! p = Some (NFile f) ->
    match r with
    | inl d => offset <= d < length (f_data f) /\ in_hole m p d = false /\ forall k, offset <= k < d -> in_hole m p k = true
    | inr ENXIO => forall k, offset <= k < length (f_data f) -> in_hole m p k = true
    | inr _ => True
    end);
  seek_hole p offset : reads (lseek p offset SEEK_HOLE) (fun m r => forall f h, m !! p = Some (NFile f) -> r = inl h ->
    offset <= h /\ (in_hole m p h = true \/ length (f_data f) <= h));
}.

Definition in_extent (k : nat) (x : sparse_extent) : Prop :=
  N.to_nat (ex_offset x) <= k < N.to_nat (ex_offset x) + N.to_nat (ex_len x).

(** Extents in order from [from] on, all of them within [len] bytes. *)
Fixpoint ordered (from len : nat) (xs : list sparse_extent) : Prop :=
  match xs with
  | [] => True
  | x :: xs' =>
      from <= N.to_nat (ex_offset x) /\ (0 < ex_len x)%N /\ N.to_nat (ex_offset x) + N.to_nat (ex_len x) <= len /\
      ordered (N.to_nat (ex_offset x) + N.to_nat (ex_len x)) len xs'
  end.

Lemma ordered_mono from from' len xs : from' <= from -> ordered from len xs -> ordered from' len xs.
Proof. destruct xs as [| x xs]; simpl; [done |]. intros Hle (H1 & H2). split; [lia | done]. Qed.

(** The extents of a file: in order, and zeros outside of them. *)
Definition extents_of (data : bytes) (from : nat) (xs : list sparse_extent) : Prop :=
  ordered from (length data) xs /\ forall k x, data !! k = Some x -> from <= k -> Exists (in_extent k) xs \/ x = x00.

(** What reading a path gives, if anything. *)
Definition data_at (m : fsmap) (p : path) : bytes := default [] (contents_at m p).

Section extents.
Context {LS : Lseek} {in_hole : fsmap -> path -> nat -> bool} {SL : SeekLaws in_hole}.

Lemma reads_data_extents fuel p len offset : reads (data_extents fuel p len offset)
  (fun m xs => forall f, m !! p = Some (NFile f) -> length (f_data f) = len -> extents_of (f_data f) offset xs).
Proof.
  revert offset. induction fuel as [| fuel IH]; intros offset; cbn [data_extents]; [apply reads_fail |].
  destruct (Nat.ltb_spec offset len) as [Hlt | Hge].
  2: { apply reads_ret. intros m f Hf <-. split; [done |]. intros k x Hx Hk. apply lookup_lt_Some in Hx. lia. }
  eapply reads_bind; [apply (seek_data p offset) |]. intros [d | []]; try apply reads_fail.
  - eapply reads_bind; [apply (seek_hole p d) |]. intros [h | e]; [| apply reads_fail].
    eapply reads_bind; [apply IH |]. intros rest. apply reads_ret. intros m Hrest Hhole Hdata f Hf Hlen.
    destruct (Hdata f Hf) as (Hd & Hnot & Hzeros). destruct (Hhole f h Hf eq_refl) as [Hh Hin].
    destruct (Hrest f Hf Hlen) as [Hord Hcov]. subst len.
    assert (Hh' : d < h) by (destruct Hin as [Hin |]; [destruct (decide (d = h)) as [-> |]; [congruence | lia] | lia]).
    rewrite (proj2 (Nat.ltb_lt _ _)) by lia. split.
    + simpl. rewrite !Nat2N.id. split_and!; [lia | lia | lia |]. eapply ordered_mono, Hord. lia.
    + intros k x Hx Hk. destruct (decide (k < d)); [right; eapply hole_zero; [exact Hf | by apply Hzeros | done] |].
      destruct (decide (k < h `min` length (f_data f))).
      * left. left. unfold in_extent. simpl. rewrite !Nat2N.id. lia.
      * destruct (Hcov k x Hx) as [H | H]; [lia | left; by right | by right].
  - apply reads_ret. intros m Hz f Hf <-. split; [done |]. intros k x Hx Hk. right.
    eapply hole_zero; [exact Hf | apply (Hz f Hf) | exact Hx]. split; [done | by eapply lookup_lt_Some].
Qed.

Lemma reads_open p : reads (open_file p) (fun _ _ => True).
Proof. eapply reads_mono, reads_look. done. Qed.

Lemma stat_file m p f : stat_in m p = inl (NFile f) -> m !! p = Some (NFile f).
Proof. unfold stat_in. intros. by repeat case_match; simplify_eq. Qed.

Lemma reads_extents p meta : reads (sparse_file_extents p meta)
  (fun m xs => stat_in m p = inl meta -> extents_of (data_at m p) 0 xs).
Proof.
  unfold sparse_file_extents, seek_data_extents. destruct (N.eqb_spec (node_len meta) 0) as [Hz | Hnz].
  { apply reads_ret. intros m Hs. split; [done |]. intros k x Hx _. exfalso. unfold data_at, contents_at in Hx.
    destruct (m !! p) as [[f | |] |] eqn:Hp; simpl in Hx; [| by rewrite lookup_nil in Hx..]. unfold stat_in in Hs. rewrite Hp in Hs.
    simplify_eq/=. apply lookup_lt_Some in Hx. unfold file_len in Hz. lia. }
  destruct meta as [f | | ?]; simpl in Hnz; [| done..].
  assert (Hdata : forall m, stat_in m p = inl (NFile f) -> data_at m p = f_data f).
  { intros m Hs%stat_file. unfold data_at, contents_at. by rewrite Hs. }
  eapply reads_bind; [eapply reads_attempt, reads_bind; [apply reads_open |]; intros []; eapply reads_mono, reads_data_extents; intros m xs H _; exact H |].
  intros [xs | e].
  - destruct (is_suspicious_dense_extent_report _ _ _); [apply reads_fail |]. apply reads_ret. intros m Hxs Hs. rewrite (Hdata m Hs).
    apply Hxs; [by apply stat_file |]. simpl. unfold file_len. by rewrite Nat2N.id.
  - destruct (is_large_sparse_transfer _ _); [apply reads_fail |]. apply reads_ret. intros m _ Hs. rewrite (Hdata m Hs). simpl in *.
    unfold file_len in *. split.
    + simpl. rewrite Nat2N.id. split_and!; lia.
    + intros k x Hx%lookup_lt_Some _. left. left. unfold in_extent. simpl. rewrite Nat2N.id. lia.
Qed.
End extents.

Section fuel.
Context {LS : Lseek} {in_hole : fsmap -> path -> nat -> bool} {SL : SeekLaws in_hole} (E : env) (p : path).

(** The loop ends: each turn gets past a hole or the end. *)
Lemma data_extents_fuel k1 k2 f offset w : w_fs w !! p = Some (NFile f) ->
  length (f_data f) - offset < k1 -> length (f_data f) - offset < k2 ->
  data_extents k1 p (length (f_data f)) offset E w = data_extents k2 p (length (f_data f)) offset E w.
Proof.
  revert k2 offset w. induction k1 as [| k1 IH]; intros k2 offset w Hf H1 H2; [lia |]. destruct k2 as [| k2]; [lia |].
  cbn [data_extents]. destruct (Nat.ltb_spec offset (length (f_data f))) as [Hlt |]; [| done].
  unfold mbind, M_bind. destruct (seek_data p offset E w) as [Hfs Hd].
  destruct (lseek p offset SEEK_DATA E w) as [[d | e] w1 | e w1 | w1]; try done. simpl in Hfs.
  specialize (Hd _ _ eq_refl f Hf) as (Hd & Hnot & _). destruct (seek_hole p d E w1) as [Hfs1 Hh].
  destruct (lseek p d SEEK_HOLE E w1) as [[h | e] w2 | e w2 | w2]; try done. simpl in Hfs1. rewrite Hfs in Hh, Hfs1.
  specialize (Hh _ _ eq_refl f h Hf eq_refl) as [Hh Hin]. rewrite (IH k2); [done | by rewrite Hfs1 | |].
  all: assert (d < h) by (destruct Hin as [Hin |]; [destruct (decide (d = h)) as [-> |]; [congruence | lia] | lia]); lia.
Qed.
End fuel.

(** ** Blocks *)

(** Places in order from [from] on, none longer than a block. *)
Fixpoint chain (from upto : N) (l : list (N * N)) : Prop :=
  match l with
  | [] => True
  | b :: l' => (from <= b.1)%N /\ (0 < b.2 <= CAS_BLOCK_SIZE)%N /\ (b.1 + b.2 <= upto)%N /\ chain (b.1 + b.2) upto l'
  end.

Definition in_block (k : N) (b : N * N) : Prop := (b.1 <= k < b.1 + b.2)%N.

Lemma chain_mono from from' upto upto' l : (from' <= from)%N -> (upto <= upto')%N -> chain from upto l -> chain from' upto' l.
Proof.
  revert from from'. induction l as [| b l IH]; intros from from' H1 H2; simpl; [done |]. intros (Ha & Hb & Hc & Hd).
  split_and!; [lia | lia | lia | lia |]. by eapply IH, Hd.
Qed.

Lemma chain_app from mid upto l l' : (mid <= upto)%N -> chain from mid l -> chain mid upto l' -> (from <= mid)%N -> chain from upto (l ++ l').
Proof.
  revert from. induction l as [| b l IH]; intros from Hm; simpl; [intros _ Hl' Hf; by eapply chain_mono, Hl' |].
  intros (Ha & Hb & Hc & Hd) Hl' Hf. split_and!; [lia | lia | lia | lia |]. apply IH; [done | done | done | lia].
Qed.

#[local] Opaque CAS_BLOCK_SIZE.

Lemma block_size_pos : (0 < CAS_BLOCK_SIZE)%N.
Proof. done. Qed.

Lemma cut_blocks_chain fuel offset remaining : chain offset (offset + remaining) (cut_blocks fuel offset remaining).
Proof.
  pose proof block_size_pos. revert offset remaining. induction fuel as [| fuel IH]; intros offset remaining; simpl; [done |].
  destruct (N.ltb_spec 0 remaining); simpl; [| done]. split_and!; [lia | lia | lia | lia |].
  eapply chain_mono, IH; lia.
Qed.

Lemma cut_blocks_cover fuel offset remaining k : (remaining <= N.of_nat fuel * CAS_BLOCK_SIZE)%N -> (offset <= k < offset + remaining)%N ->
  Exists (in_block k) (cut_blocks fuel offset remaining).
Proof.
  pose proof block_size_pos. revert offset remaining. induction fuel as [| fuel IH]; intros offset remaining Hf Hk; simpl; [lia |].
  rewrite (proj2 (N.ltb_lt _ _)) by lia. set (len := N.min remaining CAS_BLOCK_SIZE).
  destruct (decide (k < offset + len)%N); [left; unfold in_block; simpl; lia | right]. apply IH; lia.
Qed.

Lemma extent_blocks_chain x : chain (ex_offset x) (ex_offset x + ex_len x) (extent_blocks x).
Proof. apply cut_blocks_chain. Qed.

Lemma extent_blocks_cover x k : in_extent k x -> Exists (in_block (N.of_nat k)) (extent_blocks x).
Proof.
  intros Hk. unfold in_extent in Hk. apply cut_blocks_cover; [| lia]. pose proof block_size_pos.
  pose proof (N.div_mod (ex_len x) CAS_BLOCK_SIZE ltac:(lia)). pose proof (N.mod_lt (ex_len x) CAS_BLOCK_SIZE ltac:(lia)). nia.
Qed.

Lemma extents_chain (data : bytes) from xs : ordered from (length data) xs -> chain (N.of_nat from) (N.of_nat (length data)) (xs ≫= extent_blocks).
Proof.
  revert from. induction xs as [| x xs IH]; intros from; simpl; [done |]. intros (H1 & H2 & H3 & H4).
  eapply (chain_app _ (ex_offset x + ex_len x)); [lia | | | lia].
  - eapply chain_mono, extent_blocks_chain; lia.
  - eapply chain_mono, IH, H4; lia.
Qed.

Lemma extents_cover data from xs k x : extents_of data from xs -> data !! k = Some x -> from <= k ->
  Exists (in_block (N.of_nat k)) (xs ≫= extent_blocks) \/ x = x00.
Proof.
  intros [_ Hcov] Hx Hk. destruct (Hcov k x Hx Hk) as [H | H]; [left | by right].
  apply Exists_exists in H as (e & He & Hin). apply Exists_exists.
  destruct (proj1 (Exists_exists _ _) (extent_blocks_cover e k Hin)) as (b & Hb & Hib). exists b. split; [| done].
  apply list_elem_of_bind. by exists e.
Qed.

(** ** The files of a bundle *)

(** A file has nothing below it. *)
Lemma file_below_file m p q f f' : well_formed m -> m !! p = Some (NFile f) -> m !! q = Some (NFile f') -> below p q -> p <> [] -> q = p.
Proof.
  intros Hwf Hp Hq Hb Hne. apply below_spec in Hb as [s ->]. destruct s as [| x s]; [by rewrite app_nil_r |].
  rewrite nothing_below in Hq; [done | done | done | congruence | done].
Qed.

Section collect.
Context {LS : Lseek} {in_hole : fsmap -> path -> nat -> bool} {SL : SeekLaws in_hole}.
Context (mode_of : path -> N) (l : layout).

(** A file as it is collected: where it is, how long it is, and its extents. *)
Definition collected_from (m : fsmap) (f : sparse_bundle_collected_file) : Prop :=
  sf_len f = N.of_nat (length (data_at m (sf_source f))) /\ extents_of (data_at m (sf_source f)) 0 (sf_extents f) /\
  (exists relative, sf_source f = lo_base l ++ relative /\ sf_relative f = join "/" relative) /\ is_Some (m !! sf_source f).

Lemma reads_collect_file p : reads (collect_sparse_bundle_file mode_of (lo_base l) p) (fun m f => collected_from m f /\ sf_source f = p).
Proof.
  unfold collect_sparse_bundle_file. eapply reads_bind; [apply reads_look |]. intros meta.
  destruct (strip (lo_base l) p) as [relative |] eqn:Hrel; cbn [context]; [| intros E w; split; [done | by intros ? ? [=]]].
  change (mret ?x ≫= ?k) with (k x). cbn beta zeta. destruct (utf8_valid _); cbn [negb]; [| apply reads_fail].
  eapply reads_bind; [apply reads_extents |]. intros xs. apply reads_ret. intros m Hxs Hs. split; [| done].
  split_and!; simpl; [| by apply Hxs | apply strip_Some in Hrel; by exists relative | unfold stat_in in Hs; by destruct (m !! p)].
  unfold stat_in in Hs. unfold data_at, contents_at. destruct (m !! p) as [[f | |] |]; by simplify_eq.
Qed.

(** Nothing on the way from [p] to [q] is left out of bundles. *)
Definition included (p q : path) : Prop := forall r, below p r -> below r q -> bundle_runtime_path_is_excluded l r = false.

(** [new] has the files below [p] that are to be included. *)
Definition collects (m : fsmap) (p : path) (n : nat) (new : list sparse_bundle_collected_file) : Prop :=
  Forall (collected_from m) new /\
  forall q f, well_formed m -> m !! q = Some (NFile f) -> below p q -> length q - length p <= n -> included p q -> q ∈ sf_source <$> new.

Lemma collects_more m p n new new' : collects m p n new -> Forall (collected_from m) new' -> collects m p n (new ++ new').
Proof. intros [H1 H2] H'. split; [by apply Forall_app |]. intros. rewrite fmap_app, elem_of_app. left. by eapply H2. Qed.

Lemma collects_after m p n new new' : collects m p n new' -> Forall (collected_from m) new -> collects m p n (new ++ new').
Proof. intros [H1 H2] H'. split; [by apply Forall_app |]. intros. rewrite fmap_app, elem_of_app. right. by eapply H2. Qed.

(** A directory's files are those of its entries. *)
Lemma collects_dir m p n names new : p <> [] -> m !! p = Some NDir -> names ≡ₚ entries m p -> Forall (collected_from m) new ->
  (forall x, x ∈ names -> collects m (p /: x) n new) -> collects m p (S n) new.
Proof.
  intros Hne Hp Hnames Hnew Hx. split; [done |]. intros q f Hwf Hq Hb Hlen Hinc. apply below_spec in Hb as [s ->].
  destruct s as [| x s]; [rewrite app_nil_r in Hq; congruence |]. rewrite (cons_middle x p s), app_assoc in *.
  assert (Hin : x ∈ names).
  { rewrite Hnames, elem_of_entries. destruct s as [| y s]; [rewrite app_nil_r in Hq; by eexists |].
    exists NDir. apply (above_is_dir m (p /: x) (y :: s)); [done | by destruct p | done | by eexists]. }
  destruct (Hx x Hin) as [_ H]. eapply (H _ f); [done | done | apply below_app | rewrite !length_app in *; simpl in *; lia |].
  intros r Hr Hrq. apply Hinc; [| done]. by eapply below_child.
Qed.

Lemma reads_collect_tree n p files : p <> [] -> reads (collect_sparse_bundle_tree mode_of n l (lo_base l) p files)
  (fun m files' => exists new, files' = files ++ new /\ collects m p n new).
Proof.
  revert p files. induction n as [| n IH]; intros p files Hne; cbn [collect_sparse_bundle_tree].
  all: destruct (bundle_runtime_path_is_excluded l p) eqn:Hex;
    [apply reads_ret; intros m; exists []; rewrite app_nil_r; split; [done |]; split; [done |]; intros q f _ _ Hq _ Hno;
     rewrite (Hno p) in Hex; [done | apply below_refl | done] |].
  all: eapply reads_bind; [apply reads_symlink_metadata |]; intros [f | | ?]; try apply reads_fail.
  1, 2: eapply reads_bind; [apply reads_collect_file |]; intros g; apply reads_ret; intros m [Hg <-] Hp; exists [g];
    split; [done |]; split; [by constructor |]; intros q f' Hwf Hq Hb _ _; apply list_elem_of_singleton;
    by apply (file_below_file m (sf_source g) q f f').
  eapply reads_bind; [apply reads_read_dir |]. intros names.
  eapply reads_mono; [| apply (reads_fold_m _ (fun m files' seen => exists new, files' = files ++ new /\
    Forall (collected_from m) new /\ forall x, x ∈ seen -> collects m (p /: x) n new))].
  - intros m files' H [_ Hnames] Hp. destruct H as (new & -> & Hnew & Hall).
    { exists []. rewrite app_nil_r. split_and!; [done | done |]. by intros x ?%elem_of_nil. }
    exists new. split; [done |]. by eapply collects_dir.
  - intros seen files1 x. eapply reads_mono, IH; [| by destruct p]. intros m files2 (more & -> & Hmore) (new & -> & Hnew & Hall).
    exists (new ++ more). rewrite app_assoc. split_and!; [done | by apply Forall_app; split; [| apply Hmore] |].
    intros y [Hy | ->%list_elem_of_singleton]%elem_of_app; [by apply collects_more; [apply Hall | apply Hmore] | by apply collects_after].
Qed.

(** Everything that belongs to the instance is collected, as it is. *)
Lemma reads_collect_files : lo_instance_dir l <> [] -> reads (collect_sparse_bundle_files mode_of l)
  (fun m files => Forall (collected_from m) files /\
     forall q f, well_formed m -> m !! q = Some (NFile f) -> below (lo_instance_dir l) q -> included (lo_instance_dir l) q -> q ∈ sf_source <$> files).
Proof.
  intros Hne E w. unfold collect_sparse_bundle_files.
  set (n := S (max_depth (w_fs w))).
  match goal with |- context [(?c ≫= ?k) E w] => assert (Hr : reads (c ≫= k) (fun m files => exists new, files ≡ₚ new /\
    Forall (collected_from m) new /\ collects m (lo_instance_dir l) n new)) end.
  { eapply (reads_bind _ _ (fun _ _ => True)).
    - case_bool_decide; [| by apply reads_ret]. eapply reads_mono, reads_there. done.
    - intros kernel. eapply (reads_bind _ _ (fun m files => Forall (collected_from m) files)).
      + destruct kernel; [| apply reads_ret; constructor]. eapply reads_bind; [apply reads_collect_file |]. intros f. apply reads_ret.
        intros m [Hf _]. by constructor.
      + intros first. eapply reads_bind; [by apply reads_collect_tree |]. intros files. apply reads_ret. intros m (new & -> & Hnew) Hfirst _.
        exists (first ++ new). split_and!; [apply merge_sort_Permutation | by apply Forall_app; split; [| apply Hnew] | by apply collects_after]. }
  destruct (Hr E w) as [Hfs Ha]. split; [exact Hfs |]. intros files w' Heq. destruct (Ha files w' Heq) as (new & Hperm & Hall & _ & Hc).
  split; [by rewrite Hperm |]. intros q f Hwf Hq Hb Hinc. rewrite Hperm. eapply Hc; [done | done | done | | done].
  assert (length q <= max_depth (w_fs w)); [| unfold n; lia]. unfold max_depth. apply max_list_elem_of_le.
  apply list_elem_of_fmap. exists q. split; [done |]. apply list_elem_of_fmap. exists (q, NFile f). split; [done |]. by apply elem_of_map_to_list.
Qed.
End collect.

(** ** Cutting files into blocks *)

Lemma reads_exact_at p offset n : reads (read_exact_at p offset n)
  (fun m buf => offset + n <= length (data_at m p) /\ buf = take n (drop offset (data_at m p))).
Proof.
  unfold read_exact_at. eapply reads_bind; [apply reads_look |]. intros nd. eapply reads_mono, reads_look. intros m buf Hb _.
  unfold read_in, stat_in in Hb. unfold data_at, contents_at. destruct (m !! p) as [[f | |] |]; simpl in *; try (by destruct (missing_kind _ _)); simplify_eq.
  destruct (Nat.leb_spec (offset + n) (length (f_data f))); by simplify_eq.
Qed.

Lemma extents_sizes xs : Forall (fun b => 0 < b.2 <= CAS_BLOCK_SIZE)%N (xs ≫= extent_blocks).
Proof.
  apply Forall_forall. intros b (x & Hb & _)%list_elem_of_bind. pose proof (extent_blocks_chain x) as Hc. revert Hb Hc.
  generalize (ex_offset x), (ex_offset x + ex_len x)%N, (extent_blocks x). intros from upto l. revert from.
  induction l as [| a l IH]; intros from; [by intros ?%elem_of_nil |]. intros [-> | Hb]%elem_of_cons (_ & H & _ & Hc); [done | by eapply IH].
Qed.

Section push.
Context (sha256 : bytes -> bytes).

(** The name of the part of [data] at a place. *)
Definition part_at (data : bytes) (b : N * N) : bytes := take (N.to_nat b.2) (drop (N.to_nat b.1) data).

Definition block_for (data : bytes) (b : N * N) : cas_manifest_block := mk_block b.1 b.2 (sha256_hex sha256 (part_at data b)).

(** Each entry of the table is a place where the block of that name is. *)
Definition table_good (m : fsmap) (t : gmap string cas_block_source) : Prop := forall name s, t !! name = Some s ->
  let data := data_at m (bs_path s) in let b := (bs_offset s, bs_len s) in
  name = sha256_hex sha256 (part_at data b) /\ N.to_nat (bs_offset s) + N.to_nat (bs_len s) <= length data /\ (0 < bs_len s <= CAS_BLOCK_SIZE)%N.

Lemma zeros_part l : forallb is_zero l = true -> N.of_nat (length l) = CAS_BLOCK_SIZE -> l = replicate (N.to_nat CAS_BLOCK_SIZE) x00.
Proof. intros Hz Hl. rewrite <- Hl, Nat2N.id. by apply zeros_replicate. Qed.

Lemma reads_push_block source blocks t b : (0 < b.2 <= CAS_BLOCK_SIZE)%N -> reads (push_block sha256 source (blocks, t) b)
  (fun m acc => table_good m t -> acc.1 = blocks ++ [block_for (data_at m source) b] /\
     N.to_nat b.1 + N.to_nat b.2 <= length (data_at m source) /\ table_good m acc.2 /\ t ⊆ acc.2 /\
     is_Some (acc.2 !! cb_sha256 (block_for (data_at m source) b))).
Proof.
  intros Hsize. unfold push_block. eapply reads_bind; [apply reads_exact_at |]. intros buf. apply reads_ret. intros m [Hlen ->] Ht. cbn [fst snd].
  fold (part_at (data_at m source) b). set (part := part_at (data_at m source) b).
  assert (Hpart : length part = N.to_nat b.2) by (unfold part, part_at; rewrite length_take, length_drop; lia).
  assert (Hname : (if ((b.2 =? CAS_BLOCK_SIZE)%N && forallb is_zero part)%bool then zero_block_hash sha256 else sha256_hex sha256 part) = sha256_hex sha256 part).
  { destruct (N.eqb_spec b.2 CAS_BLOCK_SIZE) as [Hb |]; [| done]. cbn [andb]. destruct (forallb is_zero part) eqn:Hz; [| done].
    unfold zero_block_hash. rewrite <- (zeros_part part Hz); [done |]. lia. }
  rewrite Hname. split_and!; [done | done | | |]; destruct (t !! sha256_hex sha256 part) eqn:Hin.
  - done.
  - intros name s. destruct (decide (name = sha256_hex sha256 part)) as [-> | Hne].
    + rewrite lookup_insert_eq. intros [= <-]. cbn [bs_path bs_offset bs_len]. rewrite <- surjective_pairing. split_and!; [done | done | lia | lia].
    + rewrite lookup_insert_ne by done. apply Ht.
  - done.
  - by apply insert_subseteq.
  - simpl. by eexists.
  - simpl. rewrite lookup_insert_eq. by eexists.
Qed.

Lemma reads_push_blocks source blocks t l : Forall (fun b => 0 < b.2 <= CAS_BLOCK_SIZE)%N l -> reads (fold_m (push_block sha256 source) (blocks, t) l)
  (fun m acc => table_good m t -> acc.1 = blocks ++ (block_for (data_at m source) <$> l) /\
     Forall (fun b => N.to_nat b.1 + N.to_nat b.2 <= length (data_at m source)) l /\ table_good m acc.2 /\ t ⊆ acc.2 /\
     Forall (fun b => is_Some (acc.2 !! cb_sha256 (block_for (data_at m source) b))) l).
Proof.
  revert blocks t. induction l as [| b l IH]; intros blocks t Hc; simpl.
  - apply reads_ret. intros m Ht. rewrite app_nil_r. by split_and!.
  - inversion Hc as [| ? ? Hsize Hcs]; subst. eapply reads_bind; [by apply reads_push_block |]. intros [blocks1 t1].
    eapply reads_mono; [| by apply (IH blocks1 t1)]. intros m acc H1 H Ht. cbn [fst snd] in H. destruct (H Ht) as (-> & Hb & Ht1 & Hsub & Hin).
    destruct (H1 Ht1) as (Hacc & Hbs & Hta & Hsub' & Hins). cbn [fst] in *. split_and!.
    + rewrite Hacc. by rewrite <- app_assoc.
    + by constructor.
    + done.
    + by etrans.
    + constructor; [| done]. destruct Hin as [s Hs]. exists s. by eapply lookup_weaken.
Qed.

(** A file of the manifest describes the file it was made from. *)
Definition pushed (m : fsmap) (t : gmap string cas_block_source) (mf : cas_manifest_file) (sf : sparse_bundle_collected_file) : Prop :=
  cf_path mf = sf_relative sf /\ describes sha256 mf (data_at m (sf_source sf)) /\
  Forall (fun b => is_Some (t !! cb_sha256 b)) (cf_blocks mf) /\
  exists places, chain 0 (cf_len mf) places /\ cf_blocks mf = block_for (data_at m (sf_source sf)) <$> places.

Lemma pushed_mono m t t' mf sf : t ⊆ t' -> pushed m t mf sf -> pushed m t' mf sf.
Proof.
  intros Hsub (H1 & H2 & H3 & H4). split_and!; [done | done | | done]. eapply Forall_impl; [exact H3 |]. intros b [s Hs]. exists s. by eapply lookup_weaken.
Qed.

Context (l : layout).

Lemma reads_push_file files t sf : reads (push_file sha256 (files, t) sf)
  (fun m acc => collected_from l m sf -> table_good m t ->
     exists mf, acc.1 = files ++ [mf] /\ pushed m acc.2 mf sf /\ table_good m acc.2 /\ t ⊆ acc.2).
Proof.
  unfold push_file. eapply reads_bind; [apply reads_open |]. intros []. cbn [fst snd].
  eapply reads_bind; [apply reads_push_blocks |]; [apply extents_sizes |]. intros [blocks t1]. apply reads_ret.
  intros m H _ (Hlen & Hext & _) Ht. destruct (H Ht) as (Hb & Hbounds & Ht1 & Hsub & Hin). cbn [fst snd] in *. subst blocks.
  eexists. split; [done |]. split; [| done]. split_and!; cbn [cf_path cf_blocks cf_len].
  - done.
  - split_and!; cbn [cf_path cf_blocks cf_len].
    + done.
    + apply Forall_fmap. eapply Forall_impl; [exact Hbounds |]. intros b Hb. by split.
    + intros k x Hx. destruct (extents_cover _ _ _ _ _ Hext Hx) as [H' | H']; [lia | left | by right].
      apply Exists_fmap. eapply Exists_impl; [exact H' |]. intros b [Hb1 Hb2]. unfold covers. simpl. lia.
  - by apply Forall_fmap.
  - eexists. split; [| done]. rewrite Hlen. apply (extents_chain _ 0). apply Hext.
Qed.

Lemma reads_push_files files : reads (fold_m (push_file sha256) ([], ∅) files)
  (fun m acc => Forall (collected_from l m) files -> Forall2 (pushed m acc.2) acc.1 files /\ table_good m acc.2).
Proof.
  eapply reads_mono; [| apply (reads_fold_m _ (fun m acc seen => Forall (collected_from l m) seen ->
    Forall2 (pushed m acc.2) acc.1 seen /\ table_good m acc.2))].
  - intros m acc H Hall. apply H; [| done]. intros _. split; [constructor |]. by intros name s Hs.
  - intros seen [mfs t] sf. eapply reads_mono; [| apply reads_push_file]. intros m acc H Hseen Hall.
    apply Forall_app in Hall as [Hs Hsf]. apply Forall_cons in Hsf as [Hsf _]. destruct (Hseen Hs) as [Hp Ht].
    destruct (H Hsf Ht) as (mf & -> & Hmf & Ht' & Hsub). split; [| done]. apply Forall2_app; [| by constructor].
    eapply Forall2_impl; [exact Hp |]. intros ? ?. by apply pushed_mono.
Qed.

(** What is opened for a push describes every file of the instance that is to
    be sent, and the table has every block of it. *)
Lemma reads_open_bundle {LS : Lseek} {in_hole : fsmap -> path -> nat -> bool} {SL : SeekLaws in_hole} mode_of replace start ttl command :
  lo_instance_dir l <> [] -> reads (open_push_bundle sha256 mode_of l replace start ttl command)
  (fun m b => table_good m (pb_blocks b) /\ um_version (pb_manifest b) = 2%N /\ um_source_instance (pb_manifest b) = lo_instance l /\
     exists files, Forall2 (pushed m (pb_blocks b)) (um_files (pb_manifest b)) files /\ Forall (collected_from l m) files /\
       forall q f, well_formed m -> m !! q = Some (NFile f) -> below (lo_instance_dir l) q -> included l (lo_instance_dir l) q -> q ∈ sf_source <$> files).
Proof.
  intros Hne. unfold open_push_bundle. eapply reads_bind; [by apply reads_collect_files |]. intros files.
  eapply reads_bind; [apply reads_push_files |]. intros [mfs t]. apply reads_ret. intros m H [Hall Hcomplete]. destruct (H Hall) as [Hp Ht].
  split_and!; [done | done | done |]. by exists files.
Qed.
End push.

(** ** Names *)

(** The names a file system has. *)
Definition proper_name (x : string) : Prop := x <> "" /\ x <> "." /\ x <> ".." /\ no_char "/" x.

Definition proper_tree (m : fsmap) : Prop := forall p n, m !! p = Some n -> Forall proper_name p.

Lemma proper_inner x : proper_name x -> inner_component x = Some (Normal x).
Proof. intros (H1 & H2 & H3 & _). unfold inner_component. by rewrite !bool_decide_false. Qed.

Lemma split_join l x : Forall proper_name (x :: l) -> split_char "/" (join "/" (x :: l)) = x :: l.
Proof.
  revert x. induction l as [| y l IH]; intros x Hx; apply Forall_cons in Hx as [(_ & _ & _ & Hx) Hl]; [by apply split_char_single |].
  change (join "/" (x :: y :: l)) with (x +:+ String "/" (join "/" (y :: l))).
  rewrite split_char_app, IH, split_char_single by done. done.
Qed.

Lemma join_relative l : Forall proper_name l -> starts_with "/" (join "/" l) = false.
Proof.
  destruct l as [| x l]; [done |]. intros Hx. apply Forall_cons in Hx as [(Hne & _ & _ & Hx) _]. destruct x as [| c x]; [done |].
  assert (Hc : Ascii.eqb "/" c = false) by (unfold no_char in Hx; rewrite contains_char_cons in Hx; by apply orb_false_iff in Hx as [? _]).
  assert (Hs : exists r, join "/" (String c x :: l) = String c r) by (destruct l; simpl; eauto). destruct Hs as [r ->].
  unfold starts_with. cbn [String.prefix]. destruct (ascii_dec "/" c) as [<- |]; [done | done].
Qed.

(** The text of a path reads back as the path. *)
Lemma components_join l : Forall proper_name l -> path_components (join "/" l) = Normal <$> l.
Proof.
  intros Hl. unfold path_components. rewrite (join_relative l Hl). destruct l as [| x l]; [done |]. rewrite split_join by done.
  apply Forall_cons in Hl as [Hx Hl]. rewrite bool_decide_false by apply Hx. rewrite proper_inner by done. simpl. f_equal.
  induction Hl as [| y l Hy Hl IH]; [done |]. simpl. rewrite proper_inner by done. simpl. f_equal. exact IH.
Qed.

Lemma output_of_join dest f l : Forall proper_name l -> cf_path f = join "/" l -> output_of dest f = dest ++ l.
Proof. intros Hl Hf. unfold output_of. by rewrite Hf, components_join, normal_names_fmap. Qed.

(** ** Sending what is missing *)

Section pack.
Context (sha256 : bytes -> bytes) (known : bytes -> Prop).
Context (Hsha : forall b, length (sha256 b) = 32).

Definition sendable (l : list (string * bytes)) : Prop := forall name raw, (name, raw) ∈ l ->
  raw <> [] /\ name = sha256_hex sha256 raw /\ length (sha256 raw) = 32 /\ known raw.

Lemma frames_app l l' data data' : frames l = inl data -> frames l' = inl data' -> frames (l ++ l') = inl (data ++ data').
Proof.
  revert data. induction l as [| [name raw] l IH]; intros data; simpl; [by intros [= <-] |].
  destruct (write_cas_block_frame name raw) as [f |]; [| done]. destruct (frames l) as [rest |]; [| done]. intros [= <-] Hl'.
  rewrite (IH rest eq_refl Hl'). by rewrite app_assoc.
Qed.

Lemma reads_pack b packed name : reads (pack_block b packed name)
  (fun m packed' => table_good sha256 m (pb_blocks b) -> (forall q x, known (part_at (data_at m q) x)) ->
     exists raw frame, packed' = packed ++ frame /\ frames [(name, raw)] = inl frame /\ sendable [(name, raw)]).
Proof.
  unfold pack_block. destruct (pb_blocks b !! name) as [s |] eqn:Hs; cbn [context]; [| intros E w; split; [done | by intros ? ? [=]]].
  change (mret ?x ≫= ?k) with (k x). cbn beta. unfold read_block. eapply reads_bind; [apply reads_exact_at |]. intros raw.
  destruct (write_cas_block_frame name raw) as [frame | e] eqn:Hw; [| intros E w; split; [done | by intros ? ? [=]]].
  change (lift (inl frame) ≫= ?k) with (k frame). cbn beta. apply reads_ret. intros m [Hlen Hraw] Ht Hk. destruct (Ht name s Hs) as (Hname & _ & Hsize).
  exists raw, frame. split; [done |]. simpl. rewrite Hw, app_nil_r. split; [done |]. intros name' raw' [= -> ->]%list_elem_of_singleton.
  split_and!; [| by rewrite Hname, Hraw | apply Hsha | rewrite Hraw; apply (Hk (bs_path s) (bs_offset s, bs_len s))].
  intros ->. apply (f_equal length) in Hraw. rewrite length_take, length_drop in Hraw. simpl in Hraw. lia.
Qed.

Lemma reads_pack_missing b missing : reads (pack_missing b missing)
  (fun m packed => table_good sha256 m (pb_blocks b) -> (forall q x, known (part_at (data_at m q) x)) ->
     exists l, l.*1 = missing /\ frames l = inl packed /\ sendable l).
Proof.
  unfold pack_missing. eapply reads_mono; [| apply (reads_fold_m _ (fun m packed seen => table_good sha256 m (pb_blocks b) ->
    (forall q x, known (part_at (data_at m q) x)) -> exists l, l.*1 = seen /\ frames l = inl packed /\ sendable l))].
  - intros m packed H Ht Hk. apply H; [| done | done]. intros _ _. exists []. split_and!; [done | done |]. by intros ? ? ?%elem_of_nil.
  - intros seen packed name. eapply reads_mono; [| apply reads_pack]. intros m packed' H1 H2 Ht Hk.
    destruct (H2 Ht Hk) as (l & <- & Hl & Hs). destruct (H1 Ht Hk) as (raw & frame & -> & Hf & Hs').
    exists (l ++ [(name, raw)]). split_and!; [by rewrite fmap_app | by apply frames_app |].
    intros n' r' [Hin | Hin]%elem_of_app; [by apply Hs | by apply Hs'].
Qed.
End pack.

(** ** What a server answers *)

Lemma t_fail_bind {A B : Type} E P e (k : A -> M B) Q (X : fsmap -> Prop) : (forall m, P m -> X m) -> triple E P (fail e ≫= k) Q X.
Proof. intros HX w Hw. by apply HX. Qed.

Lemma short_no_block base q : length q < length base + 4 -> no_block base q.
Proof. intros Hq name _ <-. rewrite block_at_length in Hq. lia. Qed.

Lemma below_length q p : below q p -> length q <= length p.
Proof. intros (s & ->)%below_spec. rewrite length_app. lia. Qed.

Lemma validate_files_NoDup seen files : validate_files seen files = true ->
  NoDup (cf_path <$> files) /\ forall f, f ∈ files -> (cf_path f ∉ seen) /\ cf_path f <> EmptyString /\
    validate_blocks (cf_len f) 0 (cf_blocks f) = true.
Proof.
  revert seen. induction files as [| f files IH]; intros seen; simpl; [intros _; split; [constructor | by intros ? ?%elem_of_nil] |].
  destruct (safe_bundle_relative_path (cf_path f)); [| done]. rewrite !andb_true_iff, !negb_true_iff, !bool_decide_eq_false.
  intros (((H1 & H2) & H3) & H4). destruct (IH _ H4) as [Hnd Hall]. split.
  - apply NoDup_cons. split; [| done]. intros (g & Hg & Hin)%list_elem_of_fmap. destruct (Hall g Hin) as [Hn _]. apply Hn. rewrite <- Hg. by left.
  - intros g [-> | Hg]%elem_of_cons; [done |]. destruct (Hall g Hg) as (Hn & H5 & H6). split_and!; [| done | done]. intros Hs. apply Hn. by right.
Qed.

Section answer.
Context (sha256 : bytes -> bytes) (base : path).

(** Every block seen is the zero block, in the store, or asked for. *)
Definition surveyed (m : fsmap) (s : survey) (blocks : list cas_manifest_block) : Prop :=
  (forall b, b ∈ blocks -> cb_sha256 b ∈ sv_seen s) /\
  forall name, name ∈ sv_seen s -> name = zero_block_hash sha256 \/ stored base m name \/ name ∈ sv_missing s.

Lemma reads_survey_block s b : reads (survey_block sha256 base s b)
  (fun m s' => sv_seen s' = {[ cb_sha256 b ]} ∪ sv_seen s /\
     ((cb_sha256 b ∈ sv_seen s /\ s' = s) \/ cb_sha256 b = zero_block_hash sha256 \/ stored base m (cb_sha256 b) \/ cb_sha256 b ∈ sv_missing s') /\
     sv_missing s ⊆ sv_missing s').
Proof.
  unfold survey_block. case_bool_decide as Hin; [apply reads_ret; intros m; split_and!; [set_solver | by left | done] |].
  eapply (reads_bind _ _ (fun m known => known = true -> cb_sha256 b = zero_block_hash sha256 \/ stored base m (cb_sha256 b))).
  - case_bool_decide as Hz; [apply reads_ret; auto |]. unfold cas_block_path.
    destruct (validate_sha256_hex (cb_sha256 b)); cbn [context]; [| intros E w; split; [done | by intros ? ? [=]]].
    change (mret ?x ≫= ?k) with (k x). cbn beta. eapply reads_mono, reads_there. intros m known H Hk. right. by apply H.
  - intros []; apply reads_ret; intros m Hk; cbn [sv_seen sv_missing]; (split; [done |]); [split; [destruct (Hk eq_refl); auto | done] |].
    split; [right; right; right; set_solver | set_solver].
Qed.

Lemma reads_survey blocks : reads (fold_m (survey_block sha256 base) (mk_survey ∅ [] 0 0) blocks) (fun m s => surveyed m s blocks).
Proof.
  eapply reads_mono; [| apply (reads_fold_m _ (fun m s seen => surveyed m s seen))].
  - intros m s H. apply H. split; [by intros b ?%elem_of_nil | intros name Hn; set_solver].
  - intros seen s b. eapply reads_mono; [| apply reads_survey_block]. intros m s' (Hseen & Hb & Hsub) [Hall Hin]. split.
    + intros b' [Hb' | ->%list_elem_of_singleton]%elem_of_app; rewrite Hseen; [specialize (Hall b' Hb') |]; set_solver.
    + intros name Hn. rewrite Hseen in Hn. destruct (decide (name ∈ sv_seen s)) as [Hs | Hs]; [destruct (Hin name Hs) as [H | [H | H]]; auto |].
      assert (name = cb_sha256 b) as -> by set_solver. destruct Hb as [[Hb _] | Hb]; [done | exact Hb].
Qed.

Context {TF : TempFiles} (known : bytes -> Prop) `{Json cas_upload_session} (resolve : string -> layout).

Definition blocks_of (m : cas_upload_manifest) : list cas_manifest_block := um_files m ≫= cf_blocks.

Lemma t_start_upload E m target manifest running held : cas_honest sha256 base known m ->
  triple E (eq m) (start_cas_upload_blocking sha256 base resolve target manifest running held)
    (fun answer m' => cas_honest sha256 base known m' /\ validate_files [] (um_files manifest) = true /\
       forall b, b ∈ blocks_of manifest -> cb_sha256 b = zero_block_hash sha256 \/ stored base m' (cb_sha256 b) \/ cb_sha256 b ∈ cs_missing answer)
    (cas_honest sha256 base known).
Proof.
  intros Hm. set (G := cas_honest sha256 base known).
  assert (Hstep : forall A (c : M A), modifies (no_block base) c -> triple E G c (fun _ => G) G).
  { intros A c Hc. apply t_start. intros m1 Hm1. eapply t_conseq; [apply (t_modifies E (no_block base) m1), Hc | done | intros a m' Hf | intros m' Hf];
      exact (proj1 (honest_frame sha256 base known m1 m' Hf Hm1)). }
  eapply (t_pre _ _ G); [| by intros ? <-]. unfold start_cas_upload_blocking. destruct (um_version manifest =? 2)%N; cbn [negb]; [| by apply t_fail].
  eapply t_bind; [apply Hstep; unfold ensure_import_target, reject_running_instance, instance_has_state, dir_has_instance_state, store_exists; respects_tac |].
  intros []. unfold validate_cas_manifest. destruct (validate_instance_name _); [cbn [andb] | by apply t_fail_bind].
  destruct (validate_files [] (um_files manifest)) eqn:Hv; [| by apply t_fail_bind].
  change (mret tt ≫= ?k) with (k tt). cbn beta.
  assert (Hdir : forall p, length p < length base + 4 -> modifies (no_block base) (create_dir_all p)).
  { intros p Hp. apply modifies_create_dir_all. intros q Hq%below_length. apply short_no_block. lia. }
  eapply t_bind; [apply Hstep, Hdir; unfold cas_root; rewrite !length_app; simpl; lia |]. intros [].
  eapply t_bind; [apply Hstep, Hdir; unfold cas_uploads_root; rewrite !length_app; simpl; lia |]. intros [].
  eapply t_bind; [apply Hstep; unfold new_upload_session_id; respects_tac |]. intros session. unfold cas_session_dir.
  destruct (validate_session_id session); cbn [context]; [| by apply t_fail_bind].
  change (mret ?x ≫= ?k) with (k x). cbn beta.
  eapply t_bind; [apply Hstep, Hdir; unfold cas_uploads_root; rewrite !length_app; simpl; lia |]. intros [].
  eapply t_bind; [apply Hstep, modifies_fs_write, short_no_block; unfold cas_uploads_root; rewrite !length_app; simpl; lia |]. intros [].
  eapply (t_bind _ _ _ _ (fun s m' => G m' /\ surveyed m' s (um_files manifest ≫= cf_blocks))).
  { eapply t_reads; [apply reads_survey | done |]. by intros m' s Hm' Hs. }
  intros s. apply t_ret. intros m' [Hm' [Hall Hin]]. split_and!; [done | done |]. intros b Hb. cbn [cs_missing]. apply Hin, Hall, Hb.
Qed.
End answer.

(** Where nothing fails, a check that every block is there succeeds. *)
Lemma verify_finds sha256 base known E files w : (forall t, e_fault E t = None) -> cas_honest sha256 base known (w_fs w) ->
  (forall f b, f ∈ files -> b ∈ cf_blocks f -> validate_sha256_hex (cb_sha256 b) = true /\
     (cb_sha256 b = zero_block_hash sha256 \/ stored base (w_fs w) (cb_sha256 b))) ->
  exists w', for_each (fun f => for_each (verify_block_exists sha256 base) (cf_blocks f)) files E w = Ok tt w' /\ w_fs w' = w_fs w.
Proof.
  intros HE Hh Hall.
  assert (Hblock : forall b w1, w_fs w1 = w_fs w -> validate_sha256_hex (cb_sha256 b) = true ->
    cb_sha256 b = zero_block_hash sha256 \/ stored base (w_fs w) (cb_sha256 b) ->
    exists w', verify_block_exists sha256 base b E w1 = Ok tt w' /\ w_fs w' = w_fs w).
  { intros b w1 Hw1 Hv Hs. unfold verify_block_exists. case_bool_decide as Hz; [by exists w1 |]. destruct Hs as [|[n Hn]]; [done |].
    destruct (Hh _ _ Hv Hn) as (f & -> & _). unfold cas_block_path. rewrite Hv. unfold context, mbind, M_bind, mret, M_ret.
    unfold path_exists, attempt, metadata, look, stat_in, mbind, M_bind, mret, M_ret. rewrite HE, Hw1.
    change (cas_root base /: string_take 2 (cb_sha256 b) /: cb_sha256 b) with (block_at base (cb_sha256 b)). rewrite Hn. by eexists. }
  assert (Hfile : forall bs w1, w_fs w1 = w_fs w -> (forall b, b ∈ bs -> validate_sha256_hex (cb_sha256 b) = true /\
     (cb_sha256 b = zero_block_hash sha256 \/ stored base (w_fs w) (cb_sha256 b))) ->
     exists w', for_each (verify_block_exists sha256 base) bs E w1 = Ok tt w' /\ w_fs w' = w_fs w).
  { induction bs as [| b bs IH]; intros w1 Hw1 Hbs; simpl; [by exists w1 |]. unfold mbind, M_bind.
    destruct (Hbs b) as [Hv Hs]; [by left |]. destruct (Hblock b w1 Hw1 Hv Hs) as (w2 & -> & Hw2). apply IH; [done |]. intros c Hc. apply Hbs. by right. }
  assert (Hgo : forall w1, w_fs w1 = w_fs w -> exists w', for_each (fun f => for_each (verify_block_exists sha256 base) (cf_blocks f)) files E w1 = Ok tt w' /\ w_fs w' = w_fs w).
  { induction files as [| f files IH]; intros w1 Hw1; simpl; [by exists w1 |]. unfold mbind, M_bind.
    destruct (Hfile (cf_blocks f) w1 Hw1) as (w2 & -> & Hw2); [intros b Hb; apply (Hall f); [by left | done] |].
    apply IH; [| done]. intros g b Hg. apply Hall. by right. }
  by apply Hgo.
Qed.

Section deliver.
Context (sha256 : bytes -> bytes) {TF : TempFiles} {TL : TempLaws}.
Context {LS : Lseek} {in_hole : fsmap -> path -> nat -> bool} {SL : SeekLaws in_hole} (mode_of : path -> N).
Context `{Json cas_upload_session} (resolve : string -> layout) (base : path) (l : layout).
Context (known : bytes -> Prop).
Context (Hsha : forall b, length (sha256 b) = 32).
Context (Hcollision : forall a b, known a -> known b -> sha256 a = sha256 b -> a = b).
Context (Hzero : known (replicate (N.to_nat CAS_BLOCK_SIZE) x00)).

(** Distinct texts are distinct places. *)
Lemma outputs_distinct mc t mfs files dest : proper_tree mc -> Forall2 (pushed sha256 mc t) mfs files -> Forall (collected_from l mc) files ->
  NoDup (cf_path <$> mfs) -> NoDup (output_of dest <$> mfs).
Proof.
  intros Hproper Hp Hc.
  assert (Hrel : forall mf, mf ∈ mfs -> exists rel, Forall proper_name rel /\ cf_path mf = join "/" rel).
  { intros mf Hin. apply list_elem_of_lookup in Hin as [i Hi]. destruct (Forall2_lookup_l _ _ _ _ _ Hp Hi) as (sf & Hsf & Hpath & _).
    apply list_elem_of_lookup_2 in Hsf. rewrite Forall_forall in Hc. destruct (Hc sf Hsf) as (_ & _ & (rel & Hsrc & Hr) & n & Hn). exists rel.
    split; [| congruence]. specialize (Hproper _ _ Hn). rewrite Hsrc in Hproper. by apply Forall_app in Hproper as [_ ?]. }
  intros Hnd. apply NoDup_fmap_2_strong; [| by eapply NoDup_fmap_1]. intros a b Ha Hb Heq.
  destruct (Hrel a Ha) as (ra & Hra & Hpa), (Hrel b Hb) as (rb & Hrb & Hpb).
  rewrite (output_of_join dest a ra Hra Hpa), (output_of_join dest b rb Hrb Hpb) in Heq. apply app_inv_head in Heq as ->.
  apply list_elem_of_lookup in Ha as [i Hi]. apply list_elem_of_lookup in Hb as [j Hj].
  assert (i = j); [| by simplify_eq]. eapply (NoDup_lookup (cf_path <$> mfs)); [done | by rewrite list_lookup_fmap, Hi | by rewrite list_lookup_fmap, Hj; simpl; congruence].
Qed.

(** A part of a file is one of the contents that blocks have. *)
Definition parts_in_known (m : fsmap) : Prop := forall q x, known (part_at (data_at m q) x).

Lemma pushed_blocks_valid m t mf sf b : pushed sha256 m t mf sf -> b ∈ cf_blocks mf -> validate_sha256_hex (cb_sha256 b) = true.
Proof. intros (_ & _ & _ & places & _ & ->) (x & -> & _)%list_elem_of_fmap. apply valid_hex, Hsha. Qed.

Lemma pushed_parts_known m t mfs files : parts_in_known m -> Forall2 (pushed sha256 m t) mfs files ->
  Forall2 (describes sha256) mfs ((fun sf => data_at m (sf_source sf)) <$> files) /\
  Forall2 (parts_known known) mfs ((fun sf => data_at m (sf_source sf)) <$> files).
Proof.
  intros Hk Hp. split; apply Forall2_fmap_r; (eapply Forall2_impl; [exact Hp |]); intros mf sf (_ & Hd & _); [done |].
  apply Forall_forall. intros b _. apply (Hk (sf_source sf) (cb_offset b, cb_len b)).
Qed.

(** After the upload of what was missing, every block is there. *)
Lemma upload_complete E m' m manifest missing sent packed : cas_honest sha256 base known m' -> m' = m ->
  (forall b, b ∈ blocks_of manifest -> validate_sha256_hex (cb_sha256 b) = true /\
     (cb_sha256 b = zero_block_hash sha256 \/ stored base m (cb_sha256 b) \/ cb_sha256 b ∈ missing)) ->
  sent.*1 = missing -> frames sent = inl packed -> sendable sha256 known sent ->
  triple E (eq m) (store_cas_block_stream sha256 base (mk_stream packed false))
    (fun n m2 => cas_honest sha256 base known m2 /\ n = N.of_nat (length missing) /\
       forall b, b ∈ blocks_of manifest -> cb_sha256 b = zero_block_hash sha256 \/ stored base m2 (cb_sha256 b))
    (fun _ => True).
Proof.
  intros Hh -> Hall <- Hf Hs. eapply t_conseq; [apply (t_store_sent sha256 base E known m sent packed) | | | done].
  - done.
  - simpl. lia.
  - exact Hs.
  - intros ? <-. split; [done | by intros name].
  - intros n m2 ([Hh2 Hkept] & -> & Hin). split_and!; [done | rewrite length_fmap; lia |].
    intros b Hb. destruct (Hall b Hb) as [Hv [Hz | [Hst | Hmiss]]]; [by left | right; by apply Hkept |].
    apply list_elem_of_fmap in Hmiss as ([name raw] & Hname & Hr). simpl in Hname. rewrite Hname. by eapply Hin.
Qed.


(** C9: a push delivers.  Whatever the server had before, once it has answered
    the manifest of an instance, stored the blocks it asked for and written the
    files of the manifest, every file of the instance that belongs to it is
    below the server's directory with the contents it has at the client; and
    the server finds every block where nothing goes wrong.  Blocks are told
    apart by their digests. *)
Theorem push_delivers Ec wc replace start ttl command b wc1 Es ws target running held answer ws1 Ec1 packed wc2 Es1 n ws2 Es2 dest ws3 :
  lo_instance_dir l <> [] -> well_formed (w_fs wc) -> proper_tree (w_fs wc) -> parts_in_known (w_fs wc) ->
  cas_honest sha256 base known (w_fs ws) -> disjoint (base /: "cas") dest ->
  open_push_bundle sha256 mode_of l replace start ttl command Ec wc = Ok b wc1 ->
  start_cas_upload_blocking sha256 base resolve target (pb_manifest b) running held Es ws = Ok answer ws1 ->
  pack_missing b (cs_missing answer) Ec1 wc1 = Ok packed wc2 ->
  store_cas_block_stream sha256 base (mk_stream packed false) Es1 ws1 = Ok n ws2 ->
  reconstruct_cas_manifest sha256 base (pb_manifest b) dest Es2 ws2 = Ok tt ws3 ->
  n = N.of_nat (length (cs_missing answer)) /\
  (forall E, (forall t, e_fault E t = None) -> exists w, verify_cas_manifest_blocks_exist sha256 base (pb_manifest b) E ws2 = Ok tt w) /\
  forall relative f, w_fs wc !! (lo_base l ++ relative) = Some (NFile f) -> below (lo_instance_dir l) (lo_base l ++ relative) ->
    included l (lo_instance_dir l) (lo_base l ++ relative) -> contents_at (w_fs ws3) (dest ++ relative) = Some (f_data f).
Proof.
  intros Hne Hwf Hproper Hparts Hhonest Hdest Hopen Hstart Hpack Hstore Hrec.
  destruct (reads_open_bundle sha256 l mode_of replace start ttl command Hne Ec wc) as [Hfs Hb]. rewrite Hopen in Hfs. simpl in Hfs.
  destruct (Hb _ _ Hopen) as (Htable & _ & _ & files & Hpushed & Hcoll & Hcomplete).
  pose proof (t_start_upload sha256 base known resolve Es (w_fs ws) target (pb_manifest b) running held Hhonest ws eq_refl) as Hst.
  rewrite Hstart in Hst. destruct Hst as (Hh1 & Hvalid & Hanswer). destruct (validate_files_NoDup _ _ Hvalid) as [Hnd _].
  destruct (reads_pack_missing sha256 known Hsha b (cs_missing answer) Ec1 wc1) as [_ Hp]. specialize (Hp _ _ Hpack). rewrite Hfs in Hp.
  destruct (Hp Htable Hparts) as (sent & Hsent & Hframes & Hsendable).
  assert (Hnames : forall x, x ∈ blocks_of (pb_manifest b) -> validate_sha256_hex (cb_sha256 x) = true).
  { intros x (mf & Hx & Hin)%list_elem_of_bind. apply list_elem_of_lookup in Hin as [i Hi].
    destruct (Forall2_lookup_l _ _ _ _ _ Hpushed Hi) as (sf & _ & Hps). by eapply pushed_blocks_valid. }
  pose proof (upload_complete Es1 (w_fs ws1) (w_fs ws1) (pb_manifest b) (cs_missing answer) sent packed Hh1 eq_refl
    (fun x Hx => conj (Hnames x Hx) (Hanswer x Hx)) Hsent Hframes Hsendable ws1 eq_refl) as Hup.
  rewrite Hstore in Hup. destruct Hup as (Hh2 & Hn & Hall). destruct (pushed_parts_known _ _ _ _ Hparts Hpushed) as [Hdesc Hknown].
  split_and!; [done | |].
  - intros E HE. destruct (verify_finds sha256 base known E (um_files (pb_manifest b)) ws2 HE Hh2) as (w & Hw & _); [| by exists w].
    intros f x Hf Hx. assert (Hin : x ∈ blocks_of (pb_manifest b)) by (apply list_elem_of_bind; by exists f). auto.
  - intros relative f Hf Hbelow Hinc.
    pose proof (t_reconstruct_files sha256 base Es2 known Hsha Hcollision Hzero dest Hdest (um_files (pb_manifest b)) _ (w_fs ws2) Hdesc Hknown
      (outputs_distinct _ _ _ _ dest Hproper Hpushed Hcoll Hnd) Hh2 ws2 eq_refl) as Hr.
    unfold reconstruct_cas_manifest in Hrec. rewrite Hrec in Hr. destruct Hr as (Hcontents & _).
    specialize (Hcomplete _ _ Hwf Hf Hbelow Hinc). apply list_elem_of_fmap in Hcomplete as (sf & Hsf & Hin).
    apply list_elem_of_lookup in Hin as [i Hi]. destruct (Forall2_lookup_r _ _ _ _ _ Hpushed Hi) as (mf & Hmf & Hpath & _).
    assert (Hdata : ((fun sf => data_at (w_fs wc) (sf_source sf)) <$> files) !! i = Some (f_data f)).
    { rewrite list_lookup_fmap, Hi. simpl. unfold data_at, contents_at. by rewrite <- Hsf, Hf. }
    pose proof (Forall2_lookup_lr _ _ _ _ _ _ Hcontents Hmf Hdata) as Hat. cbn beta in Hat.
    rewrite Forall_forall in Hcoll. destruct (Hcoll sf (list_elem_of_lookup_2 _ _ _ Hi)) as (_ & _ & (rel & Hsrc & Hrel) & _).
    rewrite <- Hsf in Hsrc. apply app_inv_head in Hsrc as <-. rewrite <- (output_of_join dest mf relative); [done | | congruence].
    specialize (Hproper _ _ Hf). by apply Forall_app in Hproper as [_ ?].
Qed.
End deliver.

(** ** Example *)

#[local] Instance upload_block_codec : Codec cas_manifest_block :=
  codec_of (fun b => (cb_offset b, (cb_len b, cb_sha256 b))) (fun '(a, (b, c)) => Some (mk_block a b c)) ltac:(by intros []).

#[local] Instance upload_file_codec : Codec cas_manifest_file :=
  codec_of (fun f => (cf_path f, (cf_len f, (cf_mode f, cf_blocks f)))) (fun '(a, (b, (c, d))) => Some (mk_manifest_file a b c d)) ltac:(by intros []).

#[local] Instance upload_codec : Codec cas_upload_manifest :=
  codec_of (fun m => (um_version m, (um_source_instance m, (um_replace m, (um_start m, (um_idle_ttl_ms m, (um_command m, um_files m)))))))
    (fun '(a, (b, (c, (d, (e, (f, g)))))) => Some (mk_upload a b c d e f g)) ltac:(by intros []).

#[export] Instance session_codec : Codec cas_upload_session :=
  codec_of (fun s => (us_target_instance s, us_manifest s)) (fun '(a, b) => Some (mk_session a b)) ltac:(by intros []).

#[export] Instance session_json : Json cas_upload_session := codec_json (fun _ => True).

#[export] Instance no_seek : Lseek := toy_lseek.

#[export] Instance no_seek_laws : SeekLaws (fun _ _ _ => false).
Proof.
  split; [done | |]; intros p offset; (eapply reads_mono; [| apply (reads_ret (inr EINVAL) (fun _ r => r = inr EINVAL))]); [| done | | done];
    by intros m r -> f.
Qed.

Definition short_or_zero (b : bytes) : Prop := length b <= 28 \/ b = replicate (N.to_nat CAS_BLOCK_SIZE) x00.

Lemma block_size_large : (28 < CAS_BLOCK_SIZE)%N.
Proof. done. Qed.

Lemma toy_no_collision a b : short_or_zero a -> short_or_zero b -> toy_sha256 a = toy_sha256 b -> a = b.
Proof.
  assert (Hlen : forall x, short_or_zero x -> (N.of_nat (length x) < 256 ^ 4)%N).
  { intros x [Hx | ->]; [change (256 ^ 4)%N with 4294967296%N; lia |]. rewrite length_replicate, N2Nat.id. done. }
  intros Ha Hb Heq. unfold toy_sha256 in Heq. rewrite (take_app (to_le_bytes 4 (N.of_nat (length a)))), (take_app (to_le_bytes 4 (N.of_nat (length b)))), !to_le_bytes_length in Heq.
  rewrite !(take_ge (to_le_bytes _ _)) in Heq by (rewrite to_le_bytes_length; lia).
  apply app_inj_1 in Heq as [Hl Ht]; [| by rewrite !to_le_bytes_length].
  apply (f_equal from_le_bytes) in Hl. rewrite !from_to_le_bytes, !N.mod_small in Hl by (by apply Hlen). apply Nat2N.inj in Hl.
  destruct Ha as [Ha | ->], Hb as [Hb | ->]; [| rewrite length_replicate in Hl; pose proof block_size_large; lia
    | rewrite length_replicate in Hl; pose proof block_size_large; lia | done].
  apply (f_equal (take (length a))) in Ht. rewrite !take_take, !Nat.min_l in Ht by lia. rewrite take_app_length in Ht.
  by rewrite Hl, take_app_length in Ht.
Qed.

(** An instance of two files, a lock and a directory, and an empty server. *)
Definition client : world := mk_world
  (list_to_map [(["c"], NDir); (["c"; "instances"], NDir); (["c"; "instances"; "a"], NDir);
     (["c"; "instances"; "a"; "state.json"], NFile (mk_file (to_bytes "{}") 0));
     (["c"; "instances"; "a"; "instance.lock"], NFile (mk_file [] 0));
     (["c"; "instances"; "a"; "generations"], NDir);
     (["c"; "instances"; "a"; "generations"; "rootfs.ext4"], NFile (mk_file [x00; x05] 0))]) 0 0 [].

Definition client_layout : layout := resolve_for_base "a" None None ["c"] None ["c"].

Definition server_side (name : string) : layout := resolve_for_base name None None ["srv"] None ["srv"].

(** The five steps of a push, the client's and the server's. *)
Definition pushed_toy : option (world * world * world) :=
  match open_push_bundle toy_sha256 (fun _ => 420%N) client_layout false false None [] quiet client with
  | Ok b wc1 =>
      match start_cas_upload_blocking toy_sha256 ["srv"] server_side "b" (pb_manifest b) false (inl false) quiet host with
      | Ok answer ws1 =>
          match pack_missing b (cs_missing answer) quiet wc1 with
          | Ok packed wc2 =>
              match store_cas_block_stream toy_sha256 ["srv"] (mk_stream packed false) quiet ws1 with
              | Ok n ws2 =>
                  match reconstruct_cas_manifest toy_sha256 ["srv"] (pb_manifest b) ["srv"; "in"] quiet ws2 with
                  | Ok _ ws3 => Some (ws1, ws2, ws3)
                  | _ => None
                  end
              | _ => None
              end
          | _ => None
          end
      | _ => None
      end
  | _ => None
  end.

Lemma client_short q f : w_fs client !! q = Some (NFile f) -> length (f_data f) <= 28.
Proof.
  assert (H : map_Forall (fun _ n => match n with NFile f => bool_decide (length (f_data f) <= 28) | _ => true end = true) (w_fs client)).
  { apply map_Forall_to_list. vm_compute. repeat constructor. }
  intros Hq. specialize (H q _ Hq). simpl in H. by apply bool_decide_eq_true in H.
Qed.

Lemma client_parts : parts_in_known short_or_zero (w_fs client).
Proof.
  intros q x. left. unfold part_at. rewrite length_take, length_drop. unfold data_at, contents_at.
  destruct (w_fs client !! q) as [[f | |] |] eqn:Hq; simpl; try lia. pose proof (client_short q f Hq). lia.
Qed.

Lemma client_proper : proper_tree (w_fs client).
Proof.
  assert (H : map_Forall (fun p _ => Forall proper_name p) (w_fs client)); [| exact H].
  apply map_Forall_to_list. vm_compute. repeat constructor; done.
Qed.

Lemma client_included : included client_layout (lo_instance_dir client_layout) ["c"; "instances"; "a"; "generations"; "rootfs.ext4"].
Proof.
  intros r (s & ->)%below_spec (s' & Hs)%below_spec. simpl in Hs. destruct s as [| x [| y [| z s]]]; simplify_eq/=; vm_compute; reflexivity.
Qed.

Lemma push_delivers_witness : exists ws1 ws2 ws3, pushed_toy = Some (ws1, ws2, ws3) /\
  contents_at (w_fs ws3) ["srv"; "in"; "instances"; "a"; "generations"; "rootfs.ext4"] = Some [x00; x05].
Proof.
  assert (Hok : bool_decide (is_Some pushed_toy) = true) by (vm_compute; reflexivity).
  assert (Hh : cas_honest toy_sha256 ["srv"] short_or_zero (w_fs host)).
  { intros name n _ Hn. unfold host, block_at, cas_root in Hn. cbn [w_fs] in Hn. by rewrite lookup_insert_ne, lookup_singleton_ne in Hn by done. }
  assert (Hwf : well_formed (w_fs client)) by (apply well_formed_b_sound; vm_compute; reflexivity).
  unfold pushed_toy in *.
  destruct (open_push_bundle _ _ _ _ _ _ _ _ _) as [b wc1 | |] eqn:H1; [| by apply bool_decide_eq_true in Hok as [? ?]..].
  destruct (start_cas_upload_blocking _ _ _ _ _ _ _ _ _) as [answer ws1 | |] eqn:H2; [| by apply bool_decide_eq_true in Hok as [? ?]..].
  destruct (pack_missing _ _ _ _) as [packed wc2 | |] eqn:H3; [| by apply bool_decide_eq_true in Hok as [? ?]..].
  destruct (store_cas_block_stream _ _ _ _ _) as [n ws2 | |] eqn:H4; [| by apply bool_decide_eq_true in Hok as [? ?]..].
  destruct (reconstruct_cas_manifest _ _ _ _ _ _) as [[] ws3 | |] eqn:H5; [| by apply bool_decide_eq_true in Hok as [? ?]..].
  exists ws1, ws2, ws3. split; [done |].
  destruct (push_delivers toy_sha256 (fun _ => 420%N) server_side ["srv"] client_layout short_or_zero toy_sha256_length toy_no_collision
    (or_intror eq_refl) quiet client false false None [] b wc1 quiet host "b" false (inl false) answer ws1 quiet packed wc2 quiet n ws2
    quiet ["srv"; "in"] ws3 ltac:(done) Hwf client_proper client_parts Hh
    ltac:(split; apply (proj1 (bool_decide_eq_false _)); vm_compute; reflexivity) H1 H2 H3 H4 H5) as (_ & _ & H).
  apply (H ["instances"; "a"; "generations"; "rootfs.ext4"] (mk_file [x00; x05] 0)); [done | vm_compute; by eexists | exact client_included].
Defined.

(** ** Names of sessions *)

(** An instance whose name has a dot in it can be made, but never pushed:
    the name of the upload's session is made of the instance's, and is refused
    for the dot. *)
Theorem dotted_names_not_pushed sha256 `{Json cas_upload_session} base resolve target m running held :
  validate_instance_name "web.v2" = true /\
  (contains_char "." target = true ->
     forall E w a w', start_cas_upload_blocking sha256 base resolve target m running held E w <> Ok a w').
Proof.
  split; [done |]. intros Hdot E w a w' Hok.
  assert (Hr : returns (start_cas_upload_blocking sha256 base resolve target m running held) (fun _ => False)); [| by apply (Hr E w a w')].
  unfold start_cas_upload_blocking. destruct (um_version m =? 2)%N; cbn [negb]; [| apply returns_fail].
  do 4 (eapply returns_bind; [apply returns_true |]; intros ? _).
  eapply (returns_bind _ _ (fun session => contains_char "." session = true)).
  - unfold new_upload_session_id. eapply returns_bind; [apply returns_true |]. intros now _. eapply returns_bind; [apply returns_true |]. intros pid _.
    apply returns_ret. unfold session_id. by rewrite contains_char_app, Hdot.
  - intros session Hs. unfold cas_session_dir. replace (validate_session_id session) with false; [apply (returns_bind _ _ (fun _ => False)); [apply returns_fail | done] |].
    symmetry. unfold validate_session_id. destruct (string_all session_char session) eqn:Hall; [| by rewrite andb_false_r].
    pose proof (string_all_no_char session_char "." session Hall eq_refl) as Hno. unfold no_char in Hno. congruence.
Qed.

Lemma dotted_names_not_pushed_witness : forall E w a w',
  start_cas_upload_blocking toy_sha256 ["srv"] server_side "web.v2" (mk_upload 2 "a" false false None [] []) false (inl false) E w <> Ok a w'.
Proof.
  apply (dotted_names_not_pushed toy_sha256 ["srv"] server_side "web.v2" (mk_upload 2 "a" false false None [] []) false (inl false)).
  reflexivity.
Defined.
