(* ===== verification/ServerTheorems.v ===== *)
(** What an import leaves, from the upload to the instance: the scratch
    directory, the rewriting of the descriptor, the move into place, the
    kernel and the index (src/src/server.rs). *)

From S2P Require Import Prelude Codec FileSystem FsLogic FsUtil FsCopy FsTotal Text Protocol Store StoreLogic StoreExample.
From S2P Require Import Paths Legacy HostShare Snapshots SnapshotTheorems Instances InstanceLogic ForkTheorems Init InitTheorems Cli CliTheorems.
From S2P Require Import Cas CasTheorems BundleTheorems Server PushTheorems.

(** ** What the steps of an import touch *)

Section touches.
Context {TF : TempFiles} {TL : TempLaws}.

Lemma modifies_tempfile_in (F : path -> Prop) prefix root : (forall s, F (root /: (prefix +:+ s))) -> modifies F (tempfile_in prefix root).
Proof.
  intros HF E w. pose proof (tempfile_in_new E (w_fs w) prefix root w eq_refl) as Ht.
  destruct (tempfile_in prefix root E w) as [p w' | e w' | w']; simpl in *; [| by rewrite <- Ht..].
  destruct Ht as (s & -> & _ & _ & ->). intros q Hq. apply lookup_insert_ne. intros <-. by apply Hq.
Qed.

Lemma modifies_tempdir_in (F : path -> Prop) prefix root : (forall s, F (root /: (prefix +:+ s))) -> modifies F (tempdir_in prefix root).
Proof.
  intros HF E w. pose proof (tempdir_in_new E (w_fs w) prefix root w eq_refl) as Ht.
  destruct (tempdir_in prefix root E w) as [p w' | e w' | w']; simpl in *; [| by rewrite <- Ht..].
  destruct Ht as (s & -> & _ & _ & ->). intros q Hq. apply lookup_insert_ne. intros <-. by apply Hq.
Qed.

Lemma returns_tempfile_in prefix root : returns (tempfile_in prefix root) (fun p => exists s, p = root /: (prefix +:+ s)).
Proof.
  intros E w p w' Hp. pose proof (tempfile_in_new E (w_fs w) prefix root w eq_refl) as Ht. rewrite Hp in Ht.
  destruct Ht as (s & -> & _). by exists s.
Qed.

Context (sha256 : bytes -> bytes) (base : path).

(** The store of blocks, and the directories above it. *)
Definition in_cas (q : path) : Prop := below (base /: "cas") q \/ below q (base /: "cas").

Lemma cas_below s : below (base /: "cas") (cas_root base ++ s).
Proof. unfold cas_root. rewrite <- !app_assoc. apply below_spec. eexists. by rewrite <- !app_assoc. Qed.

Lemma respects_context {A : Type} I `{!PreOrder I} (o : option A) msg : respects I (context o msg).
Proof. unfold context. destruct o; respects_tac. Qed.

Lemma modifies_put_block p t raw : in_cas p -> in_cas t -> (forall q, below t q \/ below p q -> in_cas q) -> modifies in_cas (put_block p t raw).
Proof.
  intros Hp Ht Hin. unfold put_block. respects_tac.
  all: apply modifies_rename; intros q Hq; apply Hin; auto.
Qed.

Lemma modifies_store_block name raw : modifies in_cas (store_cas_block sha256 base name raw).
Proof.
  unfold store_cas_block, cas_block_path. destruct (validate_sha256_hex name); cbn [negb]; [| respects_tac].
  destruct (_ <? _)%N; [respects_tac |]. destruct (negb _); [respects_tac |]. case_bool_decide; [respects_tac |].
  cbn [context]. change (mret ?x ≫= ?k) with (k x). cbn beta. apply respects_bind; [apply _ | respects_tac |]. intros []; [respects_tac |].
  rewrite parent_snoc. cbn [context]. change (mret ?x ≫= ?k) with (k x). cbn beta.
  apply respects_bind; [apply _ | |].
  - apply modifies_create_dir_all. intros q Hq. destruct (below_app_inv q (base /: "cas") ["sha256"; string_take 2 name]); [| by right | by left].
    unfold cas_root in Hq. by rewrite <- !app_assoc in *.
  - intros []. eapply (respects_bind_returns _ _ _ (fun t => exists s, t = cas_root base /: string_take 2 name /: (("." +:+ name +:+ ".tmp-") +:+ s))).
    + apply modifies_tempfile_in. intros s. left. rewrite <- app_assoc. apply cas_below.
    + apply returns_tempfile_in.
    + intros t [s ->]. apply modifies_put_block; [left; rewrite <- app_assoc; apply cas_below.. |].
      intros q [Hq | Hq]; left; (eapply below_trans, Hq); rewrite <- app_assoc; apply cas_below.
Qed.

Context {LS : Lseek} {LL : LseekLaws} (mode_of : path -> N).

Lemma modifies_data_extents fuel p len offset : modifies (fun _ => False) (data_extents fuel p len offset).
Proof.
  revert offset. induction fuel as [| fuel IH]; intros offset; simpl; [respects_tac |].
  destruct (offset <? len); [| respects_tac]. apply respects_bind; [apply _ | apply lseek_only_looks |]. intros [d | []]; try respects_tac.
  apply lseek_only_looks.
Qed.

Lemma modifies_collect_file b p : modifies (fun _ => False) (collect_sparse_bundle_file mode_of b p).
Proof.
  unfold collect_sparse_bundle_file, sparse_file_extents, seek_data_extents, open_file. respects_tac; try apply modifies_data_extents.
Qed.

Lemma modifies_collect_tree n l b p files : modifies (fun _ => False) (collect_sparse_bundle_tree mode_of n l b p files).
Proof.
  revert p files. induction n as [| n IH]; intros p files; simpl; respects_tac; try apply modifies_collect_file; try apply IH.
Qed.

Lemma modifies_collect l : modifies (fun _ => False) (collect_sparse_bundle_files mode_of l).
Proof.
  intros E w. unfold collect_sparse_bundle_files. generalize (S (max_depth (w_fs w))) as n. intros n. revert E w.
  match goal with |- forall E w, frame _ _ (w_fs (left_by (?c E w))) => change (modifies (fun _ => False) c) end.
  respects_tac; (apply modifies_collect_file || apply modifies_collect_tree).
Qed.

Lemma modifies_index l : modifies in_cas (index_layout_into_cas sha256 mode_of base l).
Proof.
  unfold index_layout_into_cas, open_file, index_block, read_exact_at. apply respects_bind; [apply _ | |].
  - eapply modifies_mono, modifies_collect. done.
  - intros files. respects_tac. apply modifies_store_block.
Qed.
End touches.

(** ** An import is placed whole *)

Definition renamed (name : string) (d : instance_descriptor) : instance_descriptor :=
  mk_descriptor (Some name) (d_created d) (d_image d) (d_cpus d) (d_memory_mib d).

Section import.
Context (sha256 : bytes -> bytes) {TF : TempFiles} {TL : TempLaws} {LS : Lseek} {LL : LseekLaws}.
Context {JR : Json record} {JM : Json manifest} {JC : Json checkpoint_ref} {JL : Json launch_metadata}.
Context {JD : Json instance_descriptor} {JDL : JsonLaws instance_descriptor valid_descriptor}.
Context (mode_of : path -> N) (home : option string) (fuel : nat) (base : path) (cwd : string).
Context (run_lnx : list string -> option N -> M (option Z)) (E : env) (l : layout) (st : app_state).
Abbreviation dir := (lo_instance_dir l).

Lemma renamed_valid name d : valid_descriptor d -> valid_descriptor (renamed name d).
Proof. done. Qed.

(** What is ready to be moved: the tree it was, with the name of its new place. *)
Definition prepared_from (m : fsmap) (imported : path) (m' : fsmap) : Prop :=
  frame (saving imported) m m' /\
  exists d, settings m imported d /\ descriptor_at m' imported = Some (renamed (lo_instance l) d).

Lemma t_prepare m imported : well_formed m ->
  triple E (eq m) (prepare_import home cwd imported l st)
    (fun _ m' => prepared_from m imported m' /\ well_formed m') (frame (saving imported) m).
Proof.
  intros Hwf. unfold prepare_import.
  eapply (t_bind _ _ _ _ (fun _ => eq m)).
  { apply t_silent; [unfold dir_has_instance_state, store_exists; respects_tac | done | by intros ? <-]. }
  intros []; cbn [negb]; [| apply t_fail; by intros ? <-].
  eapply (t_bind _ _ _ _ (fun _ => eq m)).
  { apply t_silent; [| done | by intros ? <-]. unfold validate_imported_snapshot, imported_memory_snapshot, store_exists, refuse_incompatible,
      snapshot_shares_incompatibility_for_import, snapshot_launch_incompatibility, read_launch_metadata. respects_tac.
    - unfold latest. respects_tac.
    - unfold lift. respects_tac. }
  intros []. unfold rewrite_descriptor_name.
  eapply (t_bind _ _ _ _ (fun d m' => m = m' /\ settings m imported d /\ valid_descriptor d)).
  { eapply t_reads; [apply reads_load | by intros ? <- |]. by intros ? d <- [H1 H2]. }
  intros d. apply t_start. intros ? (<- & Hs & Hv).
  eapply t_conseq; [eapply t_keep_form; [| apply keeps_form_save | apply (t_save E imported (renamed (lo_instance l) d) m)] | done | |].
  - by intros ? <-.
  - done.
  - done.
  - intros [] m' [[Hd Hf] Hwf']. split; [split; [done | by exists d] | done].
  - by intros m' [_ Hf].
Qed.

(** A tree that is moved arrives as it was; until then nothing has changed. *)
Lemma t_move m imported : disjoint imported dir ->
  triple E (eq m) (move_into_place imported dir) (fun _ => relocated imported dir m) (fun m' => m' = m \/ relocated imported dir m m').
Proof.
  intros Hd. unfold move_into_place.
  eapply (t_bind _ _ _ _ (fun _ => eq m)); [apply t_silent; [apply respects_sync_tree; apply _ | done | intros ? <-; by left] |].
  intros []. assert (Hne : imported <> dir) by (intros Heq; apply (proj1 Hd); rewrite Heq; apply below_refl).
  eapply (t_bind _ _ _ _ (fun _ => relocated imported dir m)).
  { eapply t_conseq; [by apply t_rename | done | | intros ? <-; by left]. intros [] m' (_ & Hb & _ & ->). by apply move_relocated. }
  intros []. apply t_silent; [destruct (parent dir); [apply respects_sync_dir; apply _ | respects_tac] | done | by right].
Qed.

Lemma t_place m imported locked : disjoint imported dir ->
  triple E (eq m) (place_import fuel imported l false locked) (fun _ => relocated imported dir m)
    (fun m' => same_tree dir m m' \/ relocated imported dir m m').
Proof.
  intros Hd. unfold place_import. destruct (parent dir) as [root |] eqn:Hp; cbn [context]; [| intros w ->; by left].
  change (mret ?x ≫= ?k) with (k x). cbn beta. destruct (snoc_parent _ _ Hp) as (x & Hx & _).
  assert (Hup : forall m', frame (fun q => below q root) m m' -> same_tree dir m m' /\ forall s, m' !! (imported ++ s) = m !! (imported ++ s)).
  { intros m' Hf. split.
    - intros q Hq. apply Hf. intros Hr. rewrite Hx in Hq. by eapply not_below_child, below_trans.
    - intros s. apply Hf. intros Hr. apply (proj1 Hd). rewrite Hx. eapply below_trans; [eapply below_trans, Hr; apply below_app | apply below_snoc]. }
  eapply t_bind; [eapply t_conseq; [apply (t_modifies E (fun q => below q root) m), modifies_create_dir_all; done | done | intros u m' H; exact H |] |].
  { intros m' Hf. left. by apply Hup. }
  intros []. apply t_start. intros m1 Hf. change (mret false ≫= ?k) with (k false). cbn beta iota.
  destruct (Hup m1 Hf) as [H1 H2]. eapply t_conseq; [by apply (t_move m1) | done | |].
  - intros [] m2 Hr s. by rewrite Hr.
  - intros m2 [-> | Hr]; [by left | right]. intros s. by rewrite Hr.
Qed.

(** The instance directory holds what [imported] held in [m], under its new
    name. *)
Definition imported_whole (m : fsmap) (imported : path) (m' : fsmap) : Prop :=
  (forall s, ~ saving imported (imported ++ s) -> m' !! (dir ++ s) = m !! (imported ++ s)) /\
  exists d, settings m imported d /\ descriptor_at m' dir = Some (renamed (lo_instance l) d).

Lemma whole_same m imported m1 m2 : same_tree dir m1 m2 -> imported_whole m imported m1 -> imported_whole m imported m2.
Proof.
  intros Hs [H1 (d & H2 & H3)]. split; [intros s Hn; rewrite Hs by apply below_app; by apply H1 | exists d; split; [done |]].
  unfold descriptor_at, json_at, contents_at in *. by rewrite Hs by apply below_snoc.
Qed.

Lemma prepared_moved m imported m1 m2 : prepared_from m imported m1 -> relocated imported dir m1 m2 -> imported_whole m imported m2.
Proof.
  intros [Hf (d & Hd1 & Hd2)] Hr. split; [intros s Hn; rewrite Hr; by apply Hf |]. exists d. split; [done |].
  unfold descriptor_at, json_at, contents_at in *. by rewrite (Hr [DESCRIPTOR_FILE]).
Qed.

Context (Hkernel : disjoint (lo_kernel l) dir) (Hcas : disjoint (base /: "cas") dir).

Lemma apart_same F m m' : (forall q, below dir q -> ~ F q) -> frame F m m' -> same_tree dir m m'.
Proof. intros HF Hf q Hq. apply Hf. by apply HF. Qed.

Lemma around_not_dir p : disjoint p dir -> forall q, below dir q -> ~ (below p q \/ below q p).
Proof.
  intros [H1 H2] q Hq [Hp | Hp]; [| by apply H2; eapply below_trans].
  apply below_spec in Hq as [s ->]. destruct (below_app_inv p dir s Hp); auto.
Qed.

Lemma t_install_rest m imported m1 scratch : imported_whole m imported m1 ->
  triple E (eq m1) (_ ← install_kernel_if_present scratch l; index_layout_into_cas sha256 mode_of base l)
    (fun _ => imported_whole m imported) (imported_whole m imported).
Proof.
  intros Hm1. set (F q := below q (lo_kernel l) \/ in_cas base q).
  assert (HF : forall q, below dir q -> ~ F q).
  { intros q Hq [Hk | Hk]; [by apply (around_not_dir _ Hkernel q Hq); right | by apply (around_not_dir _ Hcas q Hq)]. }
  eapply t_conseq; [apply (t_modifies E F m1) | done | intros u m2 Hf | intros m2 Hf].
  - apply respects_bind; [apply _ | |].
    + unfold install_kernel_if_present. respects_tac. all: apply modifies_clone_or_copy_file; intros q Hq; by left.
    + intros []. apply (modifies_mono (in_cas base) F); [intros q Hq; by right | by apply modifies_index].
  - eapply whole_same, Hm1. by eapply apart_same.
  - eapply whole_same, Hm1. by eapply apart_same.
Qed.

Lemma t_install m scratch source locked : let imported := scratch /: "instances" /: source in
  well_formed m -> disjoint imported dir ->
  triple E (eq m) (install_imported_sandbox sha256 mode_of home fuel base cwd scratch l source false st locked)
    (fun _ => imported_whole m imported) (fun m' => same_tree dir m m' \/ imported_whole m imported m').
Proof.
  intros imported Hwf Hd. unfold install_imported_sandbox. fold imported.
  assert (Hsave : forall m', frame (saving imported) m m' -> same_tree dir m m').
  { intros m' Hf. eapply apart_same; [| exact Hf]. intros q Hq Hs. apply (around_not_dir _ Hd q Hq).
    destruct (saving_around _ _ Hs); auto. }
  eapply t_bind; [eapply t_conseq; [by apply t_prepare | done | intros u m' H; exact H | intros m' Hf; left; by apply Hsave] |].
  intros []. apply t_start. intros m1 [Hprep Hwf1].
  eapply t_bind; [eapply t_conseq; [by apply (t_place m1) | done | intros u m' H; exact H |] |].
  - intros m2 [Hs | Hr]; [left | right; by eapply prepared_moved]. intros q Hq. rewrite (Hs q Hq). by apply Hsave; [apply Hprep |].
  - intros []. apply t_start. intros m2 Hr. eapply t_conseq; [apply (t_install_rest m imported m2 scratch) | done | done | by right].
    by eapply prepared_moved.
Qed.
End import.

Lemma t_with_tempdir {A : Type} E P (c : M A) Q (X : fsmap -> Prop) d :
  triple E P c Q X -> (forall a m m', Q a m -> frame (below d) m m' -> Q a m') -> (forall a m, Q a m -> X m) ->
  (forall m m', X m -> frame (below d) m m' -> X m') -> triple E P (with_tempdir d c) Q X.
Proof.
  intros Hc HQ HQX HX. unfold with_tempdir. eapply t_bind; [apply t_attempt, Hc |]. intros r.
  apply t_start. intros m Hm. assert (Hframe : triple E (eq m) (attempt (remove_dir_all d)) (fun _ => frame (below d) m) (frame (below d) m)).
  { apply t_modifies, respects_attempt, modifies_remove_dir_all. done. }
  eapply t_bind; [eapply t_conseq; [exact Hframe | done | intros u m' H; exact H |] |].
  - intros m' Hf. destruct r as [a | e]; [eapply HQX, HQ | eapply HX]; done.
  - intros u. destruct r as [a | e]; [apply t_ret | apply t_fail]; intros m' Hf; [by eapply HQ | by eapply HX].
Qed.

Section whole.
Context (sha256 : bytes -> bytes) {TF : TempFiles} {TL : TempLaws} {LS : Lseek} {LL : LseekLaws}.
Context {JR : Json record} {JM : Json manifest} {JC : Json checkpoint_ref} {JL : Json launch_metadata}.
Context {JD : Json instance_descriptor} {JDL : JsonLaws instance_descriptor valid_descriptor}.
Context (mode_of : path -> N) (home : option string) (fuel : nat) (base : path) (cwd : string).
Context (run_lnx : list string -> option N -> M (option Z)) (E : env) (l : layout) (st : app_state).
Abbreviation dir := (lo_instance_dir l).
Context (Hdir : dir = lo_base l /: "instances" /: lo_instance l).
Context (Hkernel : disjoint (lo_kernel l) dir) (Hcas : disjoint (base /: "cas") dir).
(** The upload is there, and stays there as long as no node changes; it
    holds one of [contents].  What unpacks it stays below its scratch directory,
    and leaves there exactly what the upload holds. *)
Context (ready : fsmap -> Prop) (contents : gmap path bytes -> Prop) (extract : path -> M unit).
Context (Hready : forall m m', (forall q, is_Some (m !! q) -> m' !! q = m !! q) -> ready m -> ready m').
Context (Hinside : forall scratch m, well_formed m -> m !! scratch = Some NDir ->
  triple E (eq m) (extract scratch) (fun _ => frame (below scratch) m) (frame (below scratch) m)).
Context (Hform : forall scratch, respects keeps_form (extract scratch)).
Context (Hunpack : forall scratch m, scratch <> [] -> well_formed m -> ready m -> (forall s, contents_at m (scratch ++ s) = None) ->
  triple E (eq m) (extract scratch) (fun _ m' => exists files, contents files /\ unpacked scratch files m') (fun _ => True)).

Lemma t_extract scratch m : scratch <> [] -> well_formed m -> m !! scratch = Some NDir -> ready m -> (forall s, contents_at m (scratch ++ s) = None) ->
  triple E (eq m) (extract scratch)
    (fun _ m' => (exists files, contents files /\ unpacked scratch files m') /\ frame (below scratch) m m' /\ well_formed m') (frame (below scratch) m).
Proof.
  intros Hs Hwf Hd Hr He w ->. specialize (Hinside scratch (w_fs w) Hwf Hd w eq_refl). specialize (Hform scratch E w Hwf).
  specialize (Hunpack scratch (w_fs w) Hs Hwf Hr He w eq_refl).
  by destruct (extract scratch E w) as [[] w' | e w' | w']; simpl in *.
Qed.

(** What the import itself writes in the instance directory. *)
Definition written_anew (s : path) : Prop :=
  s = [] \/ exists x r, s = x :: r /\ (x = DESCRIPTOR_FILE \/ exists t, x = ".lnx-descriptor-" +:+ t).

(** The instance directory is the upload's directory of the instance
    [source], file by file, under a descriptor that differs in the name. *)
Definition installed (source : string) (files : gmap path bytes) (m : fsmap) : Prop :=
  (forall s, ~ written_anew s -> contents_at m (dir ++ s) = files !! ("instances" :: source :: s)) /\
  exists d, match files !! ["instances"; source; DESCRIPTOR_FILE] with Some b => from_slice b = Some d | None => d = default_descriptor end /\
    descriptor_at m dir = Some (renamed (lo_instance l) d).

Definition import_of (source : string) (m : fsmap) : Prop := exists files, contents files /\ installed source files m.

Lemma saving_anew d s : saving d (d ++ s) -> written_anew s.
Proof.
  unfold written_anew. intros [(r & Hr)%below_spec | [(r & Hr)%below_spec | (t & H)]]; [| | apply below_spec in H as (r & Hr)];
    rewrite <- ?app_assoc in Hr.
  - left. apply (f_equal length) in Hr. rewrite !length_app in Hr. destruct s; [done | simpl in Hr; lia].
  - right. apply app_inv_head in Hr as ->. eexists _, _. split; [done | by left].
  - right. apply app_inv_head in Hr as ->. eexists _, _. split; [done |]. right. by eexists.
Qed.

Lemma unpacked_installed source files scratch mx m : unpacked scratch files mx ->
  imported_whole l mx (scratch /: "instances" /: source) m -> installed source files m.
Proof.
  intros Hu [Hw (d & Hd & Hd')].
  assert (Hat : forall s, contents_at mx (scratch /: "instances" /: source ++ s) = files !! ("instances" :: source :: s)).
  { intros s. rewrite <- Hu, <- !app_assoc. done. }
  split.
  - intros s Hs. rewrite <- Hat. unfold contents_at. rewrite Hw; [done |]. by intros H%saving_anew.
  - exists d. split; [| done]. specialize (Hat [DESCRIPTOR_FILE]). rewrite <- Hat. destruct Hd as [Hd | [Hd ->]].
    + unfold descriptor_at, json_at in Hd. by destruct (contents_at mx _).
    + unfold contents_at. by rewrite Hd.
Qed.

Lemma installed_same source files m m' : same_tree dir m m' -> installed source files m -> installed source files m'.
Proof.
  intros Hs [H1 (d & H2 & H3)]. split; [intros s Hn; unfold contents_at; rewrite Hs by apply below_app; by apply H1 |].
  exists d. split; [done |]. unfold descriptor_at, json_at, contents_at in *. by rewrite Hs by apply below_snoc.
Qed.

Lemma keeps_create_dir_all p m : triple E (eq m) (create_dir_all p) (fun _ m' => forall q, is_Some (m !! q) -> m' !! q = m !! q) (fun _ => True).
Proof.
  intros w ->. pose proof (fun q => keeps_but_create_dir_all (q /: "x") p E w) as H.
  destruct (create_dir_all p E w) as [[] w' | e w' | w']; try done. intros q Hq. apply (H q q); [| done].
  intros Hn. apply (not_below_child q "x"). rewrite <- Hn. apply below_refl.
Qed.

Lemma scratch_disjoint x s : disjoint (lo_base l /: (".import-" +:+ x) ++ s) dir.
Proof.
  rewrite Hdir, <- !app_assoc. split; intros (r & Hr)%below_spec; rewrite <- ?app_assoc in Hr; apply app_inv_head in Hr; simplify_eq/=.
Qed.

Lemma t_import target o running held locked m0 : well_formed m0 -> ready m0 -> im_replace o = false -> im_start o = false ->
  triple E (eq m0) (import_to_layout sha256 mode_of home fuel base cwd run_lnx l target o st running held locked extract)
    (fun _ m => import_of (im_source_instance o) m)
    (fun m => same_tree dir m0 m \/ import_of (im_source_instance o) m).
Proof.
  intros Hwf Hr0 Hrep Hstart. set (X m := same_tree dir m0 m \/ import_of (im_source_instance o) m). unfold import_to_layout.
  assert (Hstep : forall m F, (forall q, below dir q -> ~ F q) -> forall m', frame F m m' -> X m -> X m').
  { intros m F HF m' Hf. pose proof (apart_same l F m m' HF Hf) as Hs. intros [H | (files & H1 & H2)].
    - left. intros q Hq. rewrite Hs by done. by apply H.
    - right. exists files. split; [done |]. by eapply installed_same. }
  assert (Hbase : forall q, below dir q -> ~ below q (lo_base l)).
  { rewrite Hdir. intros q Hq Hb. eapply (not_below_child (lo_base l)), below_child. by eapply below_trans. }
  eapply (t_bind _ _ _ _ (fun _ => eq m0)).
  { apply t_silent; [unfold ensure_import_target, reject_running_instance, instance_has_state, dir_has_instance_state, store_exists; respects_tac
      | done | intros ? <-; by left]. }
  intros []. eapply (t_bind _ _ _ _ (fun p m => (exists x, p = lo_base l /: (".import-" +:+ x)) /\ m !! p = Some NDir /\ well_formed m /\ same_tree dir m0 m /\
    ready m /\ forall s, contents_at m (p ++ s) = None)).
  { unfold import_scratch. eapply t_bind; [eapply t_conseq; [apply t_also; [apply (t_step E _ (fun q => below q (lo_base l)) m0 Hwf) | apply keeps_create_dir_all] | done | intros u m H; exact H |] |].
    - apply modifies_create_dir_all. done.
    - apply keeps_form_create_dir_all.
    - intros m Hf. left. exact (apart_same l _ _ _ Hbase Hf).
    - intros []. apply t_start. intros m1 [[Hf1 Hwf1] Hk1]. pose proof (apart_same l _ _ _ Hbase Hf1) as Hs1.
      eapply t_conseq; [apply tempdir_in_new | done | | intros ? <-; by left]. intros p m (x & -> & Hnone & Hpar & ->).
      assert (Hne : lo_base l /: (".import-" +:+ x) <> []) by (by intros [_ ?]%app_eq_nil).
      split_and!; [by exists x | apply lookup_insert_eq | | | |].
      + apply well_formed_insert; [done | by apply parent_is_dir_ok | by left].
      + intros q Hq. rewrite lookup_insert_ne; [by apply Hs1 |]. intros <-. destruct (scratch_disjoint x []) as [_ H]. by rewrite app_nil_r in H.
      + apply (Hready m1); [| by apply (Hready m0)]. intros q [n Hq]. apply lookup_insert_ne. intros <-. congruence.
      + intros s. unfold contents_at. destruct (decide (s = [])) as [-> | Hs]; [by rewrite app_nil_r, lookup_insert_eq |].
        rewrite lookup_insert_ne by (intros H; apply Hs; apply (f_equal length) in H; rewrite (length_app _ s) in H; destruct s; [done | simpl in H; lia]).
        by rewrite (nothing_below m1) by (done || congruence). }
  intros p. apply t_start. intros m1 ((x & ->) & Hp & Hwf1 & Hs1 & Hr1 & He1). set (scratch := lo_base l /: (".import-" +:+ x)) in *.
  assert (Hsc : forall q, below dir q -> ~ below scratch q).
  { intros q Hq Hb. pose proof (scratch_disjoint x []) as Hd. rewrite app_nil_r in Hd. apply (around_not_dir l scratch Hd q Hq). by left. }
  apply t_with_tempdir.
  - eapply t_bind; [eapply t_conseq; [apply t_extract; [by intros [_ ?]%app_eq_nil | done..] | done | intros u m H; exact H |] |].
    { intros m Hf. eapply Hstep; [exact Hsc | exact Hf | by left]. }
    intros []. apply t_start. intros m2 ((files & Hfiles & Hx) & Hf2 & Hwf2). rewrite Hrep.
    eapply t_bind; [eapply t_conseq; [apply (t_install sha256 mode_of home fuel base cwd E l st Hkernel Hcas m2 scratch (im_source_instance o) locked Hwf2) | done | intros u m H; exact H |] |].
    + pose proof (scratch_disjoint x ["instances"; im_source_instance o]) as Hd. unfold scratch. by rewrite <- !app_assoc in *.
    + intros m [H | H]; [left | right; exists files; split; [done | by eapply unpacked_installed]]. intros q Hq. rewrite H by done.
      rewrite (apart_same l _ _ _ Hsc Hf2) by done. by apply Hs1.
    + intros []. unfold start_if_asked. rewrite Hstart. change (mret None ≫= ?k) with (k (@None Z)). cbn beta. apply t_ret.
      intros m Hm. exists files. split; [done | by eapply unpacked_installed].
  - intros a m m' (files & H1 & H2) Hf. exists files. split; [done |]. eapply installed_same, H2. by eapply apart_same.
  - intros a m Hm. by right.
  - intros m m' Hm Hf. by eapply Hstep.
Qed.
End whole.

(** C12: importing an uploaded bundle under a new name is all or nothing:
    wherever it fails or the server is killed the instance's directory is as it
    was, or it holds, file by file and byte by byte, what the uploaded bundle
    describes for the instance it was made from, under a descriptor that
    differs in the name; when it succeeds it is the latter. *)
Theorem import_installs_whole (sha256 : bytes -> bytes) `{TempLaws, LseekLaws, Json record, Json manifest, Json launch_metadata}
    `{JsonLaws instance_descriptor valid_descriptor, Zstd, Json sparse_bundle_manifest}
    mode_of home fuel base cwd run_lnx E l st broken_at bundle data target o running held locked m0 :
  let dir := lo_instance_dir l in
  let whole := import_of l (bundle_of (im_source_instance o) (bundle_stream broken_at data)) (im_source_instance o) in
  dir = lo_base l /: "instances" /: lo_instance l -> disjoint (lo_kernel l) dir -> disjoint (base /: "cas") dir ->
  well_formed m0 -> contents_at m0 bundle = Some data -> im_replace o = false -> im_start o = false ->
  triple E (eq m0) (import_sparse_bundle_to_layout sha256 mode_of home fuel base cwd run_lnx broken_at bundle l target o st running held locked)
    (fun _ => whole) (fun m => same_tree dir m0 m \/ whole m).
Proof.
  intros dir whole Hdir Hk Hc Hwf Hdata Hrep Hstart.
  apply (t_import sha256 mode_of home fuel base cwd run_lnx E l st Hdir Hk Hc (fun m => contents_at m bundle = Some data)); try done.
  - intros m m' Hm. unfold contents_at. intros Hb. rewrite Hm; [done |]. destruct (m !! bundle); [by eexists | done].
  - intros scratch m Hm Hs. eapply t_conseq; [apply (t_relates E (inside scratch) m), inside_extract | done | |].
    all: intros; by apply inside_frame.
  - intros scratch. apply keeps_form_extract.
  - intros scratch m Hs Hm Hb He. by apply t_unpack_bundle.
Qed.

(** A bundle with the disk of an instance "a", uploaded to an empty server. *)
Definition arriving : sparse_bundle_manifest :=
  mk_bundle 1 "a" None [mk_bundle_file "instances/a/rootfs.ext4" 3 420 [mk_extent 1 2 None]].

Definition arriving_bundle : bytes :=
  let json := to_vec_pretty arriving in SPARSE_BUNDLE_MAGIC ++ to_le_bytes 8 (N.of_nat (length json)) ++ json ++ [x07; x08].

Definition receiving : world := mk_world (<[ ["b"] := NFile (mk_file arriving_bundle 0) ]> (w_fs host)) 0 0 [].

#[local] Instance no_seek_looks : LseekLaws (H := no_seek).
Proof. split. intros p offset w. apply respects_ret. apply _. Qed.

Definition import_arriving : outcome import_response :=
  import_sparse_bundle_to_layout toy_sha256 (fun _ => 420%N) None 8 ["srv"] "/" (fun _ _ => mret None) None ["b"] (server_side "c") "c"
    (mk_import_options "a" false false None []) (mk_app 2 2048 false true) false (inl false) (inl true) quiet receiving.

Lemma import_installs_whole_witness : exists w r, import_arriving = Ok r w /\
  contents_at (w_fs w) ["srv"; "instances"; "c"; "rootfs.ext4"] = Some [x00; x07; x08] /\
  descriptor_at (w_fs w) ["srv"; "instances"; "c"] = Some (mk_descriptor (Some "c") None None None None) /\
  exists files, bundle_of "a" (mk_stream arriving_bundle false) files /\ files !! ["instances"; "a"; "rootfs.ext4"] = Some [x00; x07; x08].
Proof.
  assert (Hwf : well_formed (w_fs receiving)) by (apply well_formed_b_sound; vm_compute; reflexivity).
  assert (Hd : forall p q, bool_decide (below p q) = false -> bool_decide (below q p) = false -> disjoint p q).
  { intros p q Hp Hq. split; [by apply bool_decide_eq_false in Hp | by apply bool_decide_eq_false in Hq]. }
  pose proof (import_installs_whole toy_sha256 (fun _ => 420%N) None 8 ["srv"] "/" (fun _ _ => mret None) quiet (server_side "c")
    (mk_app 2 2048 false true) None ["b"] arriving_bundle "c" (mk_import_options "a" false false None []) false (inl false) (inl true) (w_fs receiving)
    eq_refl ltac:(apply Hd; vm_compute; reflexivity) ltac:(apply Hd; vm_compute; reflexivity) Hwf
    ltac:(vm_compute; reflexivity) eq_refl eq_refl receiving eq_refl) as H.
  fold import_arriving in H.
  assert (Hb : match import_arriving with
               | Ok _ w => contents_at (w_fs w) ["srv"; "instances"; "c"; "rootfs.ext4"] = Some [x00; x07; x08] /\
                   descriptor_at (w_fs w) ["srv"; "instances"; "c"] = Some (mk_descriptor (Some "c") None None None None)
               | _ => False
               end) by (vm_compute; split; reflexivity).
  destruct import_arriving as [r w | e w | w]; [| done..]. destruct Hb as [Hroot Hdesc]. exists w, r. split_and!; [done.. |].
  destruct H as (files & Hfiles & Hinst & _). exists files. split; [exact Hfiles |]. rewrite <- Hroot. symmetry. apply (Hinst ["rootfs.ext4"]).
  intros [Hs | (x & rest & Hs & [Hx | [t Hx]])]; simplify_eq.
Defined.
