(* ===== verification/GuestUser.v ===== *)
(** The account commands run as in the guest (src/guest-agent/src/user.rs):
    the login shells, the groups, the account and its files. *)

From S2P Require Import Prelude Codec FileSystem FsUtil Text Paths Legacy HostShare Instances Ingress Cas.

Definition EXEC_USER : string := "lnxuser".
Definition EXEC_HOME : string := "/home/lnxuser".

Definition PASSWD : path := ["etc"; "passwd"].
Definition SHADOW : path := ["etc"; "shadow"].
Definition GROUP : path := ["etc"; "group"].
Definition HOME : path := ["home"; "lnxuser"].

Definition newline_text : string := String "010" EmptyString.

(** [str::trim_matches] on a character *)
Fixpoint trim_start_char (c : ascii) (s : string) : string :=
  match s with
  | String x s' => if Ascii.eqb x c then trim_start_char c s' else s
  | EmptyString => EmptyString
  end.

Fixpoint trim_end_char (c : ascii) (s : string) : string :=
  match s with
  | String x s' =>
      match trim_end_char c s' with
      | EmptyString => if Ascii.eqb x c then EmptyString else String x EmptyString
      | s'' => String x s''
      end
  | EmptyString => EmptyString
  end.

Definition trim_char (c : ascii) (s : string) : string := trim_end_char c (trim_start_char c s).

(** ** Lines of the account files *)

(** [find_map] over lines, with a step that looks at files. *)
Fixpoint find_map_m {A B : Type} (f : A -> M (option B)) (l : list A) : M (option B) :=
  match l with
  | [] => mret None
  | a :: l' => r ← f a; match r with Some b => mret (Some b) | None => find_map_m f l' end
  end.

Definition login_shell_of_line (uid : string) (line : string) : option string :=
  let fields := split_char ":" line in
  match fields !! 2, fields !! 6 with
  | Some u, Some shell => if bool_decide (u = uid) && negb (bool_decide (shell = EmptyString)) then Some shell else None
  | _, _ => None
  end.

Definition shell_of_line (user : string) (line : string) : option string :=
  let fields := split_char ":" line in
  match fields !! 0, fields !! 6 with
  | Some u, Some shell => if bool_decide (u = user) then Some shell else None
  | _, _ => None
  end.

Definition with_shell (user shell : string) (line : string) : string :=
  let fields := split_char ":" line in
  match fields !! 0, fields !! 6 with
  | Some u, Some _ => if bool_decide (u = user) then join ":" (<[6 := shell]> fields) else line
  | _, _ => line
  end.

Definition rewritten_passwd (user shell contents : string) : string :=
  join newline_text (with_shell user shell <$> lines contents) +:+ newline_text.

Definition group_of_line (gid : string) (line : string) : option string :=
  match split_char ":" line with
  | name :: _ :: g :: _ => if bool_decide (g = gid) then Some name else None
  | _ => None
  end.

Definition is_ascii_lowercase (c : ascii) : bool := in_range 97 122 c.

Definition group_char (c : ascii) : bool := is_ascii_lowercase c || is_ascii_digit c || Ascii.eqb c "_" || Ascii.eqb c "-".

Definition is_portable_group_name (name : string) : bool :=
  match name with
  | EmptyString => false
  | String first rest =>
      (String.length name <=? 32) && (is_ascii_lowercase first || Ascii.eqb first "_") && string_all group_char rest
  end.

(** ** Files *)

Definition file_contains_line_prefix (p : path) (prefix : string) : M bool :=
  r ← attempt (read_to_string p);
  mret (match r with inl contents => existsb (starts_with prefix) (lines contents) | inr _ => false end).

(** [OpenOptions::append], and [write_all] *)
Definition append_all (p : path) (data : bytes) : M unit := fun E w =>
  write_at p (match w_fs w !! p with Some (NFile f) => length (f_data f) | _ => 0 end) data E w.

Definition append_file (p : path) (line : string) : M unit :=
  _ ← attempt (_ ← open_create p; append_all p (to_bytes line)); mret tt.

(** A new file that takes the place of [p]; permissions are not in the tree. *)
Definition swap_in (tmp p : path) (contents : string) : M unit :=
  _ ← attempt (remove_file tmp);
  _ ← create_new tmp;
  _ ← write_all tmp (to_bytes contents);
  _ ← preserve_file_metadata tmp;
  _ ← sync tmp;
  rename tmp p.

Definition replace_file (p : path) (contents : string) : M unit :=
  name ← context (last p) "path has no file name";
  _ ← metadata p;
  swap_in (with_file_name p ("." +:+ name +:+ ".lnx-tmp")) p contents.

Definition SUDOERS_DIR : path := ["etc"; "sudoers.d"].

Definition SUDOERS_LINE : string := EXEC_USER +:+ " ALL=(ALL) NOPASSWD: ALL" +:+ newline_text.

(** [mode_440] is whether the permissions of the file are these. *)
Definition sudoers_dropin_is_current (mode_440 : bool) (p : path) (contents : string) : M bool :=
  r ← attempt (read_to_string p);
  match r with
  | inr _ => mret false
  | inl existing =>
      if negb (bool_decide (existing = contents)) then mret false
      else m ← attempt (metadata p); mret (match m with inl _ => mode_440 | inr _ => false end)
  end.

Definition install_sudoers_dropin_at (mode_440 : bool) (dir p tmp : path) : M unit :=
  current ← sudoers_dropin_is_current mode_440 p SUDOERS_LINE;
  if (current : bool) then mret tt
  else
    _ ← create_dir_all dir;
    _ ← swap_in tmp p SUDOERS_LINE;
    _ ← metadata dir;
    sync dir.

Definition install_sudoers_dropin (mode_440 : bool) : M unit :=
  install_sudoers_dropin_at mode_440 SUDOERS_DIR (SUDOERS_DIR /: "lnx") (SUDOERS_DIR /: ".lnx.tmp").

(** [fs::copy] *)
Definition fs_copy (src dst : path) : M unit := d ← fs_read src; fs_write dst d.

(** Who owns a file is not in the tree: [chown] is left out. *)
Definition ensure_exec_user_skel : M unit :=
  _ ← attempt (create_dir_all HOME);
  for_each (fun name =>
    r ← attempt (metadata (HOME /: name));
    match r with
    | inl _ => mret tt
    | inr _ => _ ← attempt (fs_copy (["etc"; "skel"] /: name) (HOME /: name)); mret tt
    end) [".bashrc"; ".profile"; ".bash_logout"].

(** ** Shells *)

Definition shell_from_config_line (line key : string) : M (option string) :=
  match strip_prefix key line with
  | None => mret None
  | Some rest =>
      let shell := trim_char "034" rest in
      if starts_with "/" shell then
        there ← path_exists (os_path (path_components shell));
        mret (if (there : bool) then Some shell else None)
      else mret None
  end.

Definition shell_from_config_contents (contents key : string) : M (option string) :=
  find_map_m (fun line => shell_from_config_line (trim line) key) (lines contents).

(** A default that a comment of the file states. *)
Definition commented_shell (line : string) : M (option string) :=
  match strip_prefix "#" (trim line) with
  | None => mret None
  | Some line =>
      match strip_prefix "Default:" (trim line) with
      | None => mret None
      | Some default => shell_from_config_line (trim default) "DSHELL="
      end
  end.

Definition adduser_shell_from_config_contents (contents : string) : M (option string) :=
  r ← shell_from_config_contents contents "DSHELL=";
  match r with
  | Some shell => mret (Some shell)
  | None => find_map_m commented_shell (lines contents)
  end.

Definition adduser_shell_from_config (p : path) : M (option string) :=
  r ← attempt (read_to_string p);
  match r with inl contents => adduser_shell_from_config_contents contents | inr _ => mret None end.

Definition shell_from_config (p : path) (key : string) : M (option string) :=
  r ← attempt (read_to_string p);
  match r with inl contents => shell_from_config_contents contents key | inr _ => mret None end.

Definition default_image_shell : M string :=
  r ← adduser_shell_from_config ["etc"; "adduser.conf"];
  match r with
  | Some shell => mret shell
  | None =>
      r ← shell_from_config ["etc"; "default"; "useradd"] "SHELL=";
      match r with
      | Some shell => mret shell
      | None => bash ← path_exists ["bin"; "bash"]; mret (if (bash : bool) then "/bin/bash" else "/bin/sh")
      end
  end.

Definition login_shell_for_uid (uid : N) : M string :=
  r ← attempt (read_to_string PASSWD);
  match r with
  | inl passwd =>
      match find_map (login_shell_of_line (pretty uid)) (lines passwd) with
      | Some shell => mret shell
      | None => default_image_shell
      end
  | inr _ => default_image_shell
  end.

Definition passwd_shell_for_user (user : string) : M (option string) :=
  r ← attempt (read_to_string PASSWD);
  mret (match r with inl passwd => find_map (shell_of_line user) (lines passwd) | inr _ => None end).

Definition rewrite_passwd_shell (user shell : string) : M unit :=
  r ← attempt (read_to_string PASSWD);
  match r with
  | inr _ => mret tt
  | inl contents => _ ← attempt (replace_file PASSWD (rewritten_passwd user shell contents)); mret tt
  end.

Definition group_name_for_gid (gid : N) : M (option string) :=
  r ← attempt (read_to_string GROUP);
  mret (match r with inl contents => find_map (group_of_line (pretty gid)) (lines contents) | inr _ => None end).

(** ** The account *)

Section account.
(** A program of the image: whether it ran and succeeded. *)
Context (run : list string -> M bool).

Definition ensure_exec_user_shell (shell : string) : M unit :=
  now ← passwd_shell_for_user EXEC_USER;
  if bool_decide (now = Some shell) then mret tt
  else
    changed ← run ["/usr/sbin/usermod"; "-s"; shell; EXEC_USER];
    if (changed : bool) then mret tt else rewrite_passwd_shell EXEC_USER shell.

Definition group_line (name : string) (gid : N) : string := name +:+ ":x:" +:+ pretty gid +:+ ":" +:+ newline_text.

Definition ensure_exec_group (gid : N) (host_name : string) : M unit :=
  if negb (is_portable_group_name host_name) then mret tt
  else
    name ← group_name_for_gid gid;
    match name with
    | Some _ => mret tt
    | None =>
        added ← run ["/usr/sbin/groupadd"; "-g"; pretty gid; host_name];
        if (added : bool) then mret tt else append_file GROUP (group_line host_name gid)
    end.

Definition create_exec_user_with_useradd (uid gid : N) (shell : string) : M bool :=
  _ ← run ["/usr/sbin/groupadd"; "-g"; pretty gid; EXEC_USER];
  run ["/usr/sbin/useradd"; "-m"; "-d"; EXEC_HOME; "-s"; shell; "-u"; pretty uid; "-g"; pretty gid; EXEC_USER].

Definition passwd_line (uid gid : N) (shell : string) : string :=
  EXEC_USER +:+ ":x:" +:+ pretty uid +:+ ":" +:+ pretty gid +:+ "::/home/" +:+ EXEC_USER +:+ ":" +:+ shell +:+ newline_text.

Definition SHADOW_LINE : string := EXEC_USER +:+ ":!::0:99999:7:::" +:+ newline_text.

(** What is done where the image has no [useradd]. *)
Definition write_exec_user (uid gid : N) (shell : string) : M unit :=
  _ ← append_file PASSWD (passwd_line uid gid shell);
  shadow ← file_contains_line_prefix SHADOW "lnxuser:";
  _ ← (if (shadow : bool) then mret tt else append_file SHADOW SHADOW_LINE);
  group ← file_contains_line_prefix GROUP "lnxuser:";
  _ ← (if (group : bool) then mret tt else append_file GROUP (group_line EXEC_USER gid));
  _ ← attempt (create_dir_all HOME);
  mret tt.

Definition set_up_exec_user (mode_440 : bool) (uid gid : N) (group : string) : M unit :=
  _ ← ensure_exec_group gid group;
  shell ← default_image_shell;
  there ← file_contains_line_prefix PASSWD "lnxuser:";
  _ ← (if negb there then
         made ← create_exec_user_with_useradd uid gid shell;
         if (made : bool) then mret tt else write_exec_user uid gid shell
       else ensure_exec_user_shell shell);
  _ ← ensure_exec_user_skel;
  _ ← attempt (install_sudoers_dropin mode_440);
  mret tt.

(** [done] is the identity last set up, which it holds the lock of; the new
    one is the result. *)
Definition ensure_exec_user (mode_440 : bool) (uid gid : N) (group : string) (done : option (N * N * string))
    : M (option (N * N * string)) :=
  if (uid =? 0)%N then mret done
  else if bool_decide (done = Some (uid, gid, group)) then mret done
  else _ ← set_up_exec_user mode_440 uid gid group; mret (Some (uid, gid, group)).

End account.
