(* ===== verification/GuestUserTheorems.v ===== *)
(** What setting up the account leaves in the account files of the guest
    (src/guest-agent/src/user.rs). *)

From S2P Require Import Prelude Codec FileSystem FsLogic FsUtil FsCopy FsTotal Store StoreLogic StoreExample Text Paths Legacy HostShare.
From S2P Require Import Snapshots SnapshotTheorems Instances InstanceLogic Ingress ForkTheorems CliTheorems Cas CasTheorems PushTheorems GuestUser.

(** ** Lines *)

Lemma find_map_app {A B : Type} (f : A -> option B) l k :
  find_map f (l ++ k) = match find_map f l with Some b => Some b | None => find_map f k end.
Proof. induction l as [| a l IH]; simpl; [done |]. by destruct (f a). Qed.

Lemma find_map_fmap {A B C : Type} (f : B -> option C) (g : A -> B) l : find_map f (g <$> l) = find_map (fun a => f (g a)) l.
Proof. induction l as [| a l IH]; [done |]. cbn [fmap list_fmap find_map]. by destruct (f (g a)). Qed.

Lemma find_map_ext {A B : Type} (f g : A -> option B) l : (forall a, a ∈ l -> f a = g a) -> find_map f l = find_map g l.
Proof.
  induction l as [| a l IH]; simpl; [done |]. intros H. rewrite (H a) by apply elem_of_cons, or_introl, eq_refl.
  destruct (g a); [done |]. apply IH. intros x Hx. apply H. by right.
Qed.

Lemma split_of_join c x l : Forall (no_char c) (x :: l) -> split_char c (join (String c EmptyString) (x :: l)) = x :: l.
Proof.
  revert x. induction l as [| y l IH]; intros x Hx; apply Forall_cons in Hx as [H1 H2]; [by apply split_char_single |].
  change (join _ (x :: y :: l)) with (x +:+ String c (join (String c EmptyString) (y :: l))).
  rewrite split_char_line by done. by rewrite IH.
Qed.

(** More text at the end of a line only reaches its last field. *)
Lemma split_char_glue c x : exists l z, split_char c x = l ++ [z] /\ forall y, split_char c (x +:+ y) = l ++ split_char c (z +:+ y).
Proof.
  induction x as [| a x (l & z & H1 & H2)]; [by exists [], EmptyString |]. simpl. destruct (Ascii.eqb a c) eqn:Ha.
  - exists (EmptyString :: l), z. rewrite H1. split; [done |]. intros y. by rewrite H2.
  - rewrite H1. destruct l as [| b l]; simpl.
    + exists [], (String a z). split; [done |]. intros y. simpl. rewrite H2, Ha. done.
    + exists (String a b :: l), z. split; [done |]. intros y. by rewrite H2.
Qed.

Lemma join_unlines l : l <> [] -> join newline_text l +:+ newline_text = unlines l.
Proof.
  destruct l as [| x l]; [done |]. intros _. revert x. induction l as [| y l IH]; intros x; [done |].
  change (join _ (x :: y :: l)) with (x +:+ newline_text +:+ join newline_text (y :: l)).
  rewrite !string_app_assoc, IH. done.
Qed.

(** ** Rewriting a shell *)

Lemma with_shell_fields user shell line fields old : no_char ":" shell ->
  split_char ":" line = user :: fields -> fields !! 5 = Some old ->
  split_char ":" (with_shell user shell line) = user :: <[5 := shell]> fields.
Proof.
  intros Hs Hl H6. unfold with_shell. rewrite Hl. change ((user :: fields) !! 6) with (fields !! 5). rewrite H6.
  change ((user :: fields) !! 0) with (Some user). cbn iota. rewrite bool_decide_eq_true_2 by done.
  pose proof (split_char_pieces ":" line) as Hp. rewrite Hl in Hp. apply Forall_cons in Hp as [Hp1 Hp2].
  change (<[6 := shell]> (user :: fields)) with (user :: <[5 := shell]> fields). apply split_of_join.
  constructor; [done |]. by apply Forall_insert.
Qed.

(** What becomes of a line: an account of the user gets the new shell as its
    seventh field and keeps every other field; any other line is kept as it is. *)
Definition account_line (user shell line line' : string) : Prop :=
  match shell_of_line user line with
  | Some _ => split_char ":" line' = <[6 := shell]> (split_char ":" line)
  | None => line' = line
  end.

Lemma with_shell_account user shell line : no_char ":" shell -> account_line user shell line (with_shell user shell line).
Proof.
  intros Hs. unfold account_line, shell_of_line. destruct (split_char ":" line) as [| name fields] eqn:Hl; [by apply split_char_some in Hl |].
  change ((name :: fields) !! 0) with (Some name). change ((name :: fields) !! 6) with (fields !! 5).
  destruct (fields !! 5) as [old |] eqn:H6; [case_bool_decide as Hn |].
  - subst name. by rewrite (with_shell_fields user shell line fields old).
  - unfold with_shell. rewrite Hl. change ((name :: fields) !! 6) with (fields !! 5). rewrite H6. change ((name :: fields) !! 0) with (Some name). cbn iota. by rewrite bool_decide_eq_false_2.
  - unfold with_shell. rewrite Hl. change ((name :: fields) !! 6) with (fields !! 5). by rewrite H6.
Qed.

(** The account file after its rewriting, line by line. *)
Lemma rewritten_lines user shell text : lines text <> [] ->
  rewritten_passwd user shell text = unlines (with_shell user shell <$> lines text).
Proof. intros Hne. unfold rewritten_passwd. apply join_unlines. by destruct (lines text). Qed.

(** ** Files of lines *)

Definition text_at (m : fsmap) (p : path) (ls : list string) : Prop := contents_at m p = Some (to_bytes (unlines ls)).

Lemma reads_text p s : reads (attempt (read_to_string p)) (fun m r => contents_at m p = Some (to_bytes s) ->
  match r with inl t => t = s | inr _ => True end).
Proof.
  eapply reads_mono; [| apply reads_attempt, (reads_bind _ _ (fun m b => read_in m p = inl b) (fun m t => contents_at m p = Some (to_bytes s) -> t = s))].
  - intros m [t | e] H; simpl in *; done.
  - apply reads_look.
  - intros b. destruct (utf8_valid (of_bytes b)); [apply reads_ret | apply reads_fail]. intros m. unfold read_in, stat_in, contents_at.
    destruct (m !! p) as [[f | |] |]; [| done..]. intros [= ->] [= ->]. apply of_to_bytes.
Qed.

Lemma total_text E m p s : faultless E -> contents_at m p = Some (to_bytes s) -> utf8_valid s = true ->
  total E (eq m) (attempt (read_to_string p)) (fun r m' => r = inl s /\ m' = m).
Proof.
  intros HE Hc Hu. eapply total_post; [apply total_attempt |].
  - eapply total_bind; [apply (total_look E HE _ _ (fun b m' => b = to_bytes s /\ m' = m)) |].
    + intros ? <-. unfold read_in, stat_in, contents_at in *. destruct (m !! p) as [[f | |] |]; simplify_eq. by exists (f_data f).
    + intros b. apply total_start. intros ? [-> ->]. rewrite of_to_bytes, Hu.
      apply (total_ret E _ s (fun a m' => a = s /\ m' = m)). by intros ? <-.
  - intros r m' (a & -> & -> & ->). done.
Qed.

(** *** Putting a new file in the place of an old one *)

Section swap.
Context (E : env) (d : path) (n t : string) (Hnt : n <> t) (contents : string) (m0 : fsmap).
Abbreviation p := (d /: n).
Abbreviation tmp := (d /: t).

Definition swapping (q : path) : Prop := below p q \/ below tmp q.

Definition old_or_swapped (m : fsmap) : Prop :=
  frame swapping m0 m /\ (m !! p = m0 !! p \/ holds (to_bytes contents) (m !! p)).

Lemma siblings_apart : forall q, below tmp q -> ~ below p q.
Proof. intros q H1 H2. apply Hnt. by eapply below_sibling. Qed.

Lemma tmp_ne : tmp <> p.
Proof. intros Heq. apply (siblings_apart tmp); [apply below_refl | rewrite Heq; apply below_refl]. Qed.

Lemma swapped_put m f : old_or_swapped m -> old_or_swapped (<[tmp := NFile f]> m).
Proof.
  intros [Hf Hp]. split; [| by rewrite lookup_insert_ne by apply tmp_ne]. etrans; [exact Hf |]. intros q Hq.
  rewrite lookup_insert_ne; [done |]. intros <-. apply Hq. right. apply below_refl.
Qed.

Lemma swapped_delete m : old_or_swapped m -> old_or_swapped (delete tmp m).
Proof.
  intros [Hf Hp]. split; [| by rewrite lookup_delete_ne by apply tmp_ne]. etrans; [exact Hf |]. intros q Hq.
  rewrite lookup_delete_ne; [done |]. intros <-. apply Hq. right. apply below_refl.
Qed.

Lemma t_swap_in : triple E (eq m0) (swap_in tmp p contents) (fun _ m => old_or_swapped m /\ holds (to_bytes contents) (m !! p)) old_or_swapped.
Proof.
  assert (H0 : old_or_swapped m0) by (split; [done | by left]). unfold swap_in.
  eapply (t_bind _ _ _ _ (fun _ => old_or_swapped)).
  { eapply t_conseq; [apply t_attempt, (t_change _ (eq m0) old_or_swapped (fun _ => old_or_swapped)) | done | by intros [] | done].
    - by intros ? <-.
    - intros w o <- Ho. repeat case_match; simplify_eq; by apply swapped_delete.
    - intros w <- Ho. done. }
  intros _. eapply (t_bind _ _ _ _ (fun _ => old_or_swapped)).
  { apply t_change; [done | |]; intros w; [intros o |]; intros Hw Ho; repeat case_match; simplify_eq. by apply swapped_put. }
  intros _. eapply (t_bind _ _ _ _ (fun _ m => old_or_swapped m /\ holds (to_bytes contents) (m !! tmp))).
  { apply t_write_all; [| by intros; apply swapped_put | done]. intros m b Hm. split; [by apply swapped_put |]. exists b. apply lookup_insert_eq. }
  intros _. eapply (t_bind _ _ _ _ (fun _ m => old_or_swapped m /\ holds (to_bytes contents) (m !! tmp))).
  { apply t_silent; [unfold preserve_file_metadata; respects_tac | done | by intros m [? _]]. }
  intros _. eapply (t_bind _ _ _ _ (fun _ m => old_or_swapped m /\ holds (to_bytes contents) (m !! tmp))).
  { apply t_silent; [auto with frames | done | by intros m [? _]]. }
  intros _. apply t_start. intros m [Hm Hh]. eapply t_conseq; [apply (t_rename E m), tmp_ne | done | | by intros ? <-].
  intros [] m' (_ & Hb & _ & ->). assert (Hnew : move tmp p m !! p = m !! tmp).
  { pose proof (move_relocated tmp p m Hb []) as Hr. by rewrite !app_nil_r in Hr. }
  rewrite Hnew. split; [| done]. split; [| right; by rewrite Hnew]. etrans; [apply Hm |].
  eapply frame_mono; [| apply move_frame]. intros q [Hq | Hq]; [by right | by left].
Qed.

(** Where nothing fails and the directory is there, the new file is. *)
Lemma total_swap_in f : faultless E -> parent_is_dir m0 p = true -> m0 !! p = Some (NFile f) -> m0 !! tmp = None ->
  total E (eq m0) (swap_in tmp p contents) (fun _ m => holds (to_bytes contents) (m !! p)).
Proof.
  intros HE Hpar Hp Htmp. set (Inv o m := m !! p = Some (NFile f) /\ parent_is_dir m p = true /\ m !! tmp = o).
  assert (Hdir : forall m, parent_is_dir m tmp = parent_is_dir m p) by (intros m; unfold parent_is_dir; by rewrite !parent_snoc).
  assert (Hput : forall m o g, Inv o m -> Inv (Some (NFile g)) (<[tmp := NFile g]> m)).
  { intros m o g (H1 & H2 & H3). split_and!; [by rewrite lookup_insert_ne by apply tmp_ne | | apply lookup_insert_eq].
    rewrite <- H2. unfold parent_is_dir, stat_in. rewrite !parent_snoc. destruct d as [| x d'] eqn:Hd; [done |].
    rewrite lookup_insert_ne; [destruct (m !! (x :: d')) as [[] |]; done |]. intros Heq. by apply (f_equal length) in Heq; rewrite length_app in Heq; simpl in Heq; lia. }
  unfold swap_in. eapply (total_bind _ _ _ _ (fun _ => Inv None)).
  { intros w Hw. unfold attempt, remove_file, change. rewrite HE, <- Hw, Htmp. eexists _, _. split; [done |]. simpl. by rewrite <- Hw. }
  intros _. eapply (total_bind _ _ _ _ (fun _ => Inv (Some (NFile (mk_file [] 0))))).
  { apply total_change; [done |]. intros w Hw. destruct Hw as (H1 & H2 & H3). rewrite Hdir, H2, H3. eexists. split; [done |]. by eapply Hput. }
  intros _. eapply (total_bind _ _ _ _ (fun _ m => exists g, f_data g = to_bytes contents /\ Inv (Some (NFile g)) m)).
  { intros w Hw. unfold write_all. pose proof Hw as (_ & _ & ->). rewrite HE. eexists tt, _. split; [done |].
    eexists (mk_file _ _). split; [done |]. by eapply Hput. }
  intros _. eapply (total_bind _ _ _ _ (fun _ m => exists g, f_data g = to_bytes contents /\ Inv (Some (NFile g)) m)).
  { unfold preserve_file_metadata. eapply total_bind; [apply (total_look E HE _ _ (fun _ m => exists g, f_data g = to_bytes contents /\ Inv (Some (NFile g)) m)) |].
    - intros m (g & Hg & Hi). unfold stat_in. pose proof Hi as (_ & _ & ->). by eauto.
    - intros n'. by apply total_ret. }
  intros _. eapply (total_bind _ _ _ _ (fun _ m => exists g, f_data g = to_bytes contents /\ Inv (Some (NFile g)) m)).
  { apply total_change; [done |]. intros w (g & Hg & Hi). unfold stat_in. pose proof Hi as (_ & _ & ->). eexists. split; [done |]. simpl. by eauto. }
  intros _. apply total_change; [done |]. intros w (g & Hg & H1 & H2 & H3). unfold rename_in. rewrite H3, H2, H1.
  rewrite bool_decide_eq_false_2 by apply tmp_ne. rewrite bool_decide_eq_false_2.
  - eexists. split; [done |]. simpl. assert (Hb : ~ below tmp p) by (intros Hb; by apply (siblings_apart p Hb), below_refl).
    pose proof (move_relocated tmp p (w_fs w) Hb []) as Hr. rewrite !app_nil_r in Hr. rewrite Hr, H3. destruct g as [gd gb]. simpl in Hg. subst gd. by exists gb.
  - intros [s Hs]. apply strip_Some in Hs. apply (siblings_apart p); [| apply below_refl]. rewrite Hs. apply below_app.
Qed.
End swap.

(** ** The login shell *)

(** The account file with one shell changed, line by line. *)
Definition shell_set (user shell text : string) (m : fsmap) : Prop :=
  exists ls', text_at m PASSWD ls' /\ Forall2 (account_line user shell) (lines text) ls'.

Lemma shell_set_rewritten user shell text m : no_char ":" shell -> lines text <> [] ->
  holds (to_bytes (rewritten_passwd user shell text)) (m !! PASSWD) -> shell_set user shell text m.
Proof.
  intros Hc Hne [b Hb]. exists (with_shell user shell <$> lines text). split.
  - unfold text_at, contents_at. by rewrite Hb, rewritten_lines.
  - apply Forall2_fmap_r, Forall_Forall2_diag, Forall_true. intros line. by apply with_shell_account.
Qed.

(** C34: changing the shell of the exec user never leaves half an account
    file: wherever it fails or the guest stops, [/etc/passwd] is as it was or
    it is the old file line by line, in which every account of the user has
    the new shell and all its other fields, and every other line, whatever it
    is, is kept; where nothing fails it is the latter.  Each line then ends in
    a newline, as [lines] takes a carriage return before one off. *)
Theorem passwd_rewritten_whole E user shell text m0 : no_char ":" shell -> lines text <> [] -> contents_at m0 PASSWD = Some (to_bytes text) ->
  let kept m := frame (fun q => below PASSWD q \/ below ["etc"; ".passwd.lnx-tmp"] q) m0 m /\
    (m !! PASSWD = m0 !! PASSWD \/ shell_set user shell text m) in
  triple E (eq m0) (rewrite_passwd_shell user shell) (fun _ => kept) kept /\
  (faultless E -> utf8_valid text = true -> m0 !! ["etc"] = Some NDir -> m0 !! ["etc"; ".passwd.lnx-tmp"] = None ->
   total E (eq m0) (rewrite_passwd_shell user shell) (fun _ => shell_set user shell text)).
Proof.
  intros Hc Hne Ht kept. assert (H0 : kept m0) by (split; [done | by left]).
  set (c := rewritten_passwd user shell text).
  assert (Hkept : forall m, old_or_swapped ["etc"] "passwd" ".passwd.lnx-tmp" c m0 m -> kept m).
  { intros m [Hf Hp]. split; [exact Hf |]. destruct Hp as [Hp | Hp]; [by left | right]. by apply shell_set_rewritten. }
  split.
  - unfold rewrite_passwd_shell. eapply (t_bind _ _ _ _ (fun r m => m0 = m /\ match r with inl t => t = text | inr _ => True end)).
    { eapply t_reads; [apply (reads_text PASSWD text) | by intros ? <- | intros ? r <- Hr; by split; [| apply Hr]]. }
    intros [t | e]; apply t_start; intros m [<- Hr]; [subst t | by apply t_ret; intros ? <-].
    eapply (t_bind _ _ _ _ (fun _ => kept)); [| intros ?; by apply t_ret].
    eapply t_conseq; [apply (t_attempt _ _ _ (fun _ => kept) kept) | done | by intros [] | done].
    unfold replace_file. change (last PASSWD) with (Some "passwd"). cbn [context]. change (mret ?x ≫= ?k) with (k x). cbn beta.
    eapply (t_bind _ _ _ _ (fun _ => eq m0)); [apply t_silent; [respects_tac | done | by intros ? <-] |]. intros _.
    eapply t_conseq; [apply (t_swap_in E ["etc"] "passwd" ".passwd.lnx-tmp" ltac:(done) c m0) | done | | exact Hkept].
    intros [] m [Hm _]. by apply Hkept.
  - intros HE Hv Hd Htmp. unfold rewrite_passwd_shell.
    eapply total_bind; [by apply (total_text E m0 PASSWD text) |]. intros r. apply total_start. intros m [-> ->].
    assert (Hf : exists f, m0 !! PASSWD = Some (NFile f)).
    { unfold contents_at in Ht. destruct (m0 !! PASSWD) as [[f | |] |]; simplify_eq. by exists f. }
    destruct Hf as [f Hf]. eapply (total_bind _ _ _ _ (fun _ => shell_set user shell text)); [| intros ?; by apply total_ret].
    eapply total_post; [apply total_attempt | intros r m' (a & _ & Hm); exact Hm].
    unfold replace_file. change (last PASSWD) with (Some "passwd"). cbn [context]. change (mret ?x ≫= ?k) with (k x). cbn beta.
    eapply (total_bind _ _ _ _ (fun _ => eq m0)).
    { apply (total_look E HE). intros ? <-. unfold stat_in. rewrite Hf. by eauto. }
    intros _. assert (Hpar : parent_is_dir m0 PASSWD = true) by (unfold parent_is_dir, stat_in; simpl; by rewrite Hd).
    eapply total_post; [exact (total_swap_in E ["etc"] "passwd" ".passwd.lnx-tmp" ltac:(done) c m0 f HE Hpar Hf Htmp) |].
    intros [] m Hm. by apply shell_set_rewritten.
Qed.

Definition guest_passwd : string :=
  unlines ["root:x:0:0::/root:/bin/sh"; "lnxuser:x:501:20::/home/lnxuser:/bin/sh"] +:+ "nobody:x:99:99".

Definition guest_world (p : path) (text : string) : world :=
  mk_world {[ ["etc"] := NDir; p := NFile (mk_file (to_bytes text) 0) ]} 0 0 [].

Lemma passwd_rewritten_whole_witness : exists w, rewrite_passwd_shell "lnxuser" "/bin/bash" quiet (guest_world PASSWD guest_passwd) = Ok tt w /\
  shell_set "lnxuser" "/bin/bash" guest_passwd (w_fs w).
Proof.
  destruct (passwd_rewritten_whole quiet "lnxuser" "/bin/bash" guest_passwd (w_fs (guest_world PASSWD guest_passwd))) as [_ H].
  - done.
  - done.
  - done.
  - destruct (H ltac:(done) ltac:(vm_compute; reflexivity) ltac:(done) ltac:(done) (guest_world PASSWD guest_passwd) eq_refl) as ([] & w & Hw & Hs).
    by exists w.
Defined.

(** ** The group *)

Lemma pretty_inj_digits (n m : N) : pretty n = pretty m -> n = m.
Proof. intros H. rewrite <- (digits_value_pretty n), <- (digits_value_pretty m). by rewrite H. Qed.

Lemma digits_no_char c (n : N) : is_ascii_digit c = false -> no_char c (pretty n).
Proof. intros Hc. eapply string_all_no_char; [apply pretty_N_all_digits | done]. Qed.

Lemma portable_no_char c name : is_portable_group_name name = true -> group_char c = false -> no_char c name.
Proof.
  intros Hn Hc. apply (string_all_no_char group_char); [| done]. destruct name as [| first rest]; [done |]. simpl in Hn.
  apply andb_true_iff in Hn as [Hn Hr]. apply andb_true_iff in Hn as [_ Hf]. unfold string_all. simpl.
  apply andb_true_iff. split; [| exact Hr]. unfold group_char. apply orb_true_iff in Hf as [-> | ->]; [done |]. by rewrite !orb_true_r.
Qed.

Definition group_entry (name : string) (gid : N) : string := name +:+ ":x:" +:+ pretty gid +:+ ":".

Lemma group_line_entry name gid : group_line name gid = unlines [group_entry name gid].
Proof. unfold group_line, group_entry, unlines. cbn [foldr]. rewrite string_app_nil, !string_app_assoc. reflexivity. Qed.

Lemma group_entry_fields name gid : is_portable_group_name name = true ->
  split_char ":" (group_entry name gid) = [name; "x"; pretty gid; EmptyString].
Proof.
  intros Hn. assert (Hc : no_char ":" name) by (by apply portable_no_char).
  change (group_entry name gid) with (name +:+ String ":" ("x:" +:+ pretty gid +:+ ":")). rewrite split_char_line by exact Hc.
  change ("x:" +:+ pretty gid +:+ ":") with ("x" +:+ String ":" (pretty gid +:+ ":")).
  rewrite split_char_line by done. by rewrite split_char_line by (by apply digits_no_char).
Qed.

Lemma group_entry_line name gid : is_portable_group_name name = true -> line_text (group_entry name gid).
Proof.
  intros Hn. unfold group_entry. split; unfold no_char; rewrite !contains_char_app, !orb_false_iff; split_and!; try done;
    first [by apply portable_no_char | by apply digits_no_char].
Qed.

Lemma group_entry_names name gid g : is_portable_group_name name = true ->
  group_of_line (pretty g) (group_entry name gid) = if (g =? gid)%N then Some name else None.
Proof.
  intros Hn. unfold group_of_line. rewrite group_entry_fields by done. case_bool_decide as Hg.
  - apply pretty_inj_digits in Hg as ->. by rewrite N.eqb_refl.
  - destruct (N.eqb_spec g gid); [congruence | done].
Qed.

(** A line is appended, where nothing fails. *)
Lemma total_append E m p text f : faultless E -> m !! p = Some (NFile f) ->
  total E (eq m) (append_file p text) (fun _ m' => exists b, m' = <[p := NFile (mk_file (f_data f ++ to_bytes text) b)]> m).
Proof.
  intros HE Hp w ->. unfold append_file, attempt, open_create, append_all, change, mbind, M_bind, write_at. rewrite HE, Hp. simpl.
  rewrite Hp, HE. simpl. eexists tt, _. split; [done |]. simpl. eexists. unfold splice.
  rewrite Nat.sub_diag, app_nil_r, take_ge, drop_ge, app_nil_r by lia. done.
Qed.

(** The groups of a file, by their ids. *)
Definition group_named (ls : list string) (gid : N) : option string := find_map (group_of_line (pretty gid)) ls.

Section group.
Context (E : env) (HE : faultless E) (run : list string -> M bool).
(** The image has no [groupadd], or it fails. *)
Context (Hrun : forall args m, total E (eq m) (run args) (fun r m' => r = false /\ m' = m)).

Lemma total_ensure_group gid name m s : is_portable_group_name name = true -> utf8_valid s = true ->
  contents_at m GROUP = Some (to_bytes s) ->
  total E (eq m) (ensure_exec_group run gid name) (fun _ m' =>
    match find_map (group_of_line (pretty gid)) (lines s) with
    | Some _ => m' = m
    | None => contents_at m' GROUP = Some (to_bytes (s +:+ group_line name gid)) /\ forall q, q <> GROUP -> m' !! q = m !! q
    end).
Proof.
  intros Hn Hu Hc. unfold ensure_exec_group. rewrite Hn. cbn [negb]. set (found := find_map _ _).
  eapply (total_bind _ _ _ _ (fun r m' => r = found /\ m' = m)).
  { unfold group_name_for_gid. eapply total_bind; [by apply (total_text E m GROUP s) |]. intros r. apply total_start. intros ? [-> ->].
    apply total_ret. by intros ? <-. }
  intros r. apply total_start. intros ? [-> ->]. destruct found as [old |]; [by apply total_ret; intros ? <- |].
  eapply total_bind; [apply Hrun |]. intros r. apply total_start. intros ? [-> ->].
  assert (Hf : exists f, m !! GROUP = Some (NFile f) /\ f_data f = to_bytes s).
  { unfold contents_at in Hc. destruct (m !! GROUP) as [[f | |] |]; simplify_eq. by exists f. }
  destruct Hf as (f & Hf & Hd). eapply total_post; [by apply (total_append E m GROUP _ f) |]. intros [] m' (b & ->). split.
  - unfold contents_at. rewrite lookup_insert_eq. simpl. by rewrite Hd, to_bytes_app.
  - intros q Hq. by rewrite lookup_insert_ne.
Qed.
End group.

(** Where the image cannot add a group by itself, the group of the exec
    user gets the host's name if its id has none, a group that has the id keeps
    its name, and no other group changes. *)
Theorem exec_group_named E run gid name ls m : faultless E ->
  (forall args m, total E (eq m) (run args) (fun r m' => r = false /\ m' = m)) ->
  is_portable_group_name name = true -> Forall line_text ls -> utf8_valid (unlines ls) = true -> text_at m GROUP ls ->
  total E (eq m) (ensure_exec_group run gid name) (fun _ m' => exists ls', text_at m' GROUP ls' /\ Forall line_text ls' /\
    group_named ls' gid = Some (default name (group_named ls gid)) /\
    (forall g, g <> gid -> group_named ls' g = group_named ls g) /\ forall q, q <> GROUP -> m' !! q = m !! q).
Proof.
  intros HE Hrun Hn Hls Hu Ht. eapply total_post; [by apply total_ensure_group |]. intros [] m'. rewrite lines_unlines by done.
  fold (group_named ls gid). destruct (group_named ls gid) as [old |] eqn:Hg; [intros ->; by exists ls |].
  intros [Hc Hq]. exists (ls ++ [group_entry name gid]). unfold text_at. rewrite unlines_app, <- group_line_entry. split_and!; [done | | | | done].
  - apply Forall_app. split; [done |]. constructor; [by apply group_entry_line | done].
  - unfold group_named in *. rewrite find_map_app, Hg. simpl. by rewrite group_entry_names, N.eqb_refl.
  - intros g Hne. unfold group_named. rewrite find_map_app. simpl. rewrite group_entry_names by done.
    destruct (N.eqb_spec g gid) as [? | _]; [done |]. by destruct (find_map _ ls).
Qed.

Definition guest_groups : list string := ["root:x:0:"; "dialout:x:20:"].

(** An image without the programs. *)
Definition no_tool (args : list string) : M bool := mret false.

Lemma guest_no_tool args m : total quiet (eq m) (no_tool args) (fun r m' => r = false /\ m' = m).
Proof. apply total_ret. by intros ? <-. Qed.

Lemma exec_group_named_witness : exists w ls', ensure_exec_group no_tool 501 "people" quiet (guest_world GROUP (unlines guest_groups)) = Ok tt w /\
  text_at (w_fs w) GROUP ls' /\ group_named ls' 501 = Some "people" /\ group_named ls' 20 = Some "dialout".
Proof.
  destruct (exec_group_named quiet no_tool 501 "people" guest_groups (w_fs (guest_world GROUP (unlines guest_groups)))
    ltac:(done) guest_no_tool ltac:(vm_compute; reflexivity) ltac:(repeat constructor) ltac:(vm_compute; reflexivity) ltac:(done)
    (guest_world GROUP (unlines guest_groups)) eq_refl) as ([] & w & Hw & ls' & H1 & _ & H2 & H3 & _).
  exists w, ls'. split_and!; [done | done | by rewrite H2 | by rewrite H3].
Defined.

(** A last line that is not ended is a line all the same. *)
Lemma lines_open ls x : Forall line_text (ls ++ [x]) -> x <> EmptyString -> lines (unlines ls +:+ x) = ls ++ [x].
Proof.
  intros Hl Hx. apply Forall_app in Hl as [Hls Hx']. apply Forall_cons in Hx' as [[Hx1 Hx2] _]. unfold lines.
  assert (Hs : split_char "010" (unlines ls +:+ x) = ls ++ [x]).
  { clear Hx Hx2. induction Hls as [| y l [Hy _] _ IH]; [by apply split_char_single |]. cbn [unlines foldr]. fold (unlines l).
    change (y +:+ NL +:+ unlines l) with (y +:+ String "010" (unlines l)).
    rewrite string_app_assoc. change (String "010" (unlines l) +:+ x) with (String "010" (unlines l +:+ x)).
    rewrite split_char_line by done. by rewrite IH. }
  rewrite Hs, last_snoc, removelast_last. destruct x as [| c x]; [done |]. f_equal.
  rewrite <- (list_fmap_id ls) at 2. apply list_fmap_ext. intros i y Hy. apply strip_cr_line.
  apply list_elem_of_lookup_2 in Hy. rewrite Forall_forall in Hls. by destruct (Hls y Hy).
Qed.

(** Where the last line of [/etc/group] is not ended by a newline, the
    new group is appended to that line: the id still has no name, and the
    last group has a member it did not have. *)
Theorem group_glued_to_open_line E run gid name ls x pre last_field m : faultless E ->
  (forall args m, total E (eq m) (run args) (fun r m' => r = false /\ m' = m)) ->
  is_portable_group_name name = true -> Forall line_text (ls ++ [x]) -> split_char ":" x = pre ++ [last_field] -> length pre = 3 ->
  utf8_valid (unlines ls +:+ x) = true -> contents_at m GROUP = Some (to_bytes (unlines ls +:+ x)) -> group_named (ls ++ [x]) gid = None ->
  total E (eq m) (ensure_exec_group run gid name) (fun _ m' => exists ls' y, text_at m' GROUP ls' /\ Forall line_text ls' /\
    ls' = ls ++ [y] /\ group_named ls' gid = None /\ split_char ":" y = pre ++ [last_field +:+ name; "x"; pretty gid; EmptyString]).
Proof.
  intros HE Hrun Hn Hls Hx Hpre Hu Hc Hg. assert (Hne : x <> EmptyString) by (intros ->; by destruct pre as [| ? []]).
  eapply total_post; [by apply total_ensure_group |]. intros [] m'. rewrite lines_open by done. unfold group_named in *. rewrite Hg. intros [Hc' _].
  apply Forall_app in Hls as [Hls Hx']. apply Forall_cons in Hx' as [[Hx1 Hx2] _]. destruct (group_entry_line name gid Hn) as [He1 He2].
  set (y := x +:+ group_entry name gid). destruct (split_char_glue ":" x) as (l & z & H1 & H2).
  rewrite Hx in H1. apply app_inj_tail in H1 as [<- <-].
  assert (Hy : split_char ":" y = pre ++ [last_field +:+ name; "x"; pretty gid; EmptyString]).
  { unfold y. rewrite H2. f_equal. assert (Hlf : no_char ":" last_field).
    { pose proof (split_char_pieces ":" x) as Hp. rewrite Hx in Hp. apply Forall_app in Hp as [_ Hp]. by apply Forall_cons in Hp as [? _]. }
    assert (Hnc : no_char ":" name) by (by apply portable_no_char).
    change (group_entry name gid) with (name +:+ String ":" ("x:" +:+ pretty gid +:+ ":")). rewrite <- string_app_assoc, split_char_line.
    - change ("x:" +:+ pretty gid +:+ ":") with ("x" +:+ String ":" (pretty gid +:+ ":")). rewrite split_char_line by done.
      by rewrite split_char_line by (by apply digits_no_char).
    - unfold no_char in *. by rewrite contains_char_app, Hlf, Hnc. }
  exists (ls ++ [y]), y. split_and!; [| | done | | done].
  - unfold text_at. rewrite Hc', unlines_app, group_line_entry. cbn [unlines foldr]. unfold y. by rewrite !string_app_assoc.
  - apply Forall_app. split; [done |]. constructor; [| done]. unfold y. by split; unfold no_char in *; rewrite contains_char_app; apply orb_false_iff.
  - rewrite find_map_app in Hg |- *. destruct (find_map _ ls); [done |]. simpl in *. unfold group_of_line in *. rewrite Hy. rewrite Hx in Hg.
    by destruct pre as [| a [| b [| c [| ? ?]]]].
Qed.

Lemma group_glued_to_open_line_witness : exists w ls', ensure_exec_group no_tool 501 "people" quiet
    (guest_world GROUP (unlines ["root:x:0:"] +:+ "dialout:x:20:")) = Ok tt w /\
  text_at (w_fs w) GROUP ls' /\ group_named ls' 501 = None.
Proof.
  destruct (group_glued_to_open_line quiet no_tool 501 "people" ["root:x:0:"] "dialout:x:20:" ["dialout"; "x"; "20"] EmptyString
    (w_fs (guest_world GROUP (unlines ["root:x:0:"] +:+ "dialout:x:20:")))
    ltac:(done) guest_no_tool eq_refl ltac:(repeat constructor) eq_refl eq_refl eq_refl eq_refl eq_refl
    (guest_world GROUP (unlines ["root:x:0:"] +:+ "dialout:x:20:")) eq_refl) as ([] & w & Hw & ls' & y & H1 & _ & _ & H2 & _).
  by exists w, ls'.
Defined.
