(* ===== verification/GuestNet.v ===== *)
(** The network of the guest (src/guest-agent/src/main.rs): its addresses, the
    requests to the kernel over netlink and their answers, and the ports that
    commands listen on. *)

From S2P Require Import Prelude Codec FileSystem Text Protocol Paths Legacy Ingress Snapshots Cli Cas.

(** ** Addresses *)

(** A decimal octet of an address: no sign, at most three digits, and no zero
    before another digit. *)
Definition parse_octet (s : string) : option N :=
  if (String.length s <=? 3) && (negb (starts_with "0" s) || bool_decide (s = "0")) && string_all is_ascii_digit s then
    parse_unsigned 256 s
  else None.

(** [str::parse] for an [Ipv4Addr], as its octets *)
Definition parse_ipv4 (s : string) : option bytes :=
  match mapM parse_octet (split_char "." s) with
  | Some [a; b; c; d] => Some (byte_of_N <$> [a; b; c; d])
  | _ => None
  end.

Definition parse_ipv4_cidr (value : string) : option (bytes * N) :=
  match split_once "/" value with
  | None => None
  | Some (addr, prefix_len) =>
      match parse_ipv4 addr, parse_unsigned 256 prefix_len with
      | Some a, Some n => if (32 <? n)%N then None else Some (a, n)
      | _, _ => None
      end
  end.

(** [ip] and [gateway] are the variables of the environment. *)
Definition network_config (ip gateway : option string) : string * string :=
  match ip, gateway with
  | Some ip, Some gateway =>
      if negb (bool_decide (ip = EmptyString)) && negb (bool_decide (gateway = EmptyString)) then (ip, gateway)
      else ("192.168.127.2/24", "192.168.127.1")
  | _, _ => ("192.168.127.2/24", "192.168.127.1")
  end.

(** ** Netlink messages *)

Inductive net_error :=
  | BufferTooSmall
  | AttributeTooLarge
  | MessageTooLarge
  | WriteFailed
  | ShortWrite
  | ReadFailed
  | UnexpectedEnd
  | InvalidLength
  | Truncated
  | KernelError (code : Z)
  | BadAddress
  | BadGateway
  | NoSocket
  | NoInterface.

#[global] Instance net_error_eq_dec : EqDecision net_error.
Proof. solve_decision. Defined.

Definition AF_INET : N := 2.
Definition IFF_UP : N := 1.
Definition NLMSG_ERROR : N := 2.
Definition NLMSG_DONE : N := 3.
Definition NLM_F_REQUEST : N := 1.
Definition NLM_F_ACK : N := 4.
Definition NLM_F_REPLACE : N := 256.
Definition NLM_F_CREATE : N := 1024.
Definition RTM_NEWLINK : N := 16.
Definition RTM_NEWADDR : N := 20.
Definition RTM_NEWROUTE : N := 24.
Definition RT_TABLE_MAIN : N := 254.
Definition RTPROT_BOOT : N := 3.
Definition RTN_UNICAST : N := 1.
Definition IFA_ADDRESS : N := 1.
Definition IFA_LOCAL : N := 2.
Definition RTA_DST : N := 1.
Definition RTA_OIF : N := 4.
Definition RTA_GATEWAY : N := 5.
Definition EEXIST : Z := 17.

(** [(value + 3) & !3] *)
Definition align4 (value : nat) : nat := (value + 3) / 4 * 4.

(** The bytes of the structures as they are in memory. *)
Record nl_msg_hdr := mk_hdr { nlmsg_len : N; nlmsg_type : N; nlmsg_flags : N; nlmsg_seq : N; nlmsg_pid : N }.

Definition hdr_bytes (h : nl_msg_hdr) : bytes :=
  to_le_bytes 4 (nlmsg_len h) ++ to_le_bytes 2 (nlmsg_type h) ++ to_le_bytes 2 (nlmsg_flags h) ++
  to_le_bytes 4 (nlmsg_seq h) ++ to_le_bytes 4 (nlmsg_pid h).

Definition hdr_of (b : bytes) : nl_msg_hdr :=
  mk_hdr (from_le_bytes (slice 0 4 b)) (from_le_bytes (slice 4 6 b)) (from_le_bytes (slice 6 8 b))
         (from_le_bytes (slice 8 12 b)) (from_le_bytes (slice 12 16 b)).

Definition if_info_msg (ifindex flags change : N) : bytes :=
  [x00; x00] ++ to_le_bytes 2 0 ++ to_le_bytes 4 ifindex ++ to_le_bytes 4 flags ++ to_le_bytes 4 change.

Definition if_addr_msg (family prefixlen ifindex : N) : bytes :=
  [byte_of_N family; byte_of_N prefixlen; x00; x00] ++ to_le_bytes 4 ifindex.

Definition rt_msg (family table protocol kind : N) : bytes :=
  [byte_of_N family; x00; x00; x00; byte_of_N table; byte_of_N protocol; x00; byte_of_N kind] ++ to_le_bytes 4 0.

(** [put_struct] and [put_bytes]: the same copy *)
Definition put_bytes (buf : bytes) (offset : nat) (data : bytes) : bytes + net_error :=
  if length buf <? offset + length data then inr BufferTooSmall
  else inl (take offset buf ++ data ++ drop (offset + length data) buf).

Definition read_struct (size : nat) (buf : bytes) (offset : nat) : option bytes :=
  if length buf <? offset + size then None else Some (slice offset (offset + size) buf).

(** The buffer and how much of it is used. *)
Definition add_netlink_attr (st : bytes * nat) (attr : N * bytes) : (bytes * nat) + net_error :=
  let '(buf, len) := st in
  let start := align4 len in
  let attr_len := 4 + length attr.2 in
  if (65535 <? N.of_nat attr_len)%N then inr AttributeTooLarge
  else
    let e := start + align4 attr_len in
    if length buf <? e then inr MessageTooLarge
    else
      match put_bytes buf start (to_le_bytes 2 (N.of_nat attr_len) ++ to_le_bytes 2 attr.1) with
      | inr err => inr err
      | inl buf => match put_bytes buf (start + 4) attr.2 with inr err => inr err | inl buf => inl (buf, e) end
      end.

Fixpoint add_netlink_attrs (st : bytes * nat) (attrs : list (N * bytes)) : (bytes * nat) + net_error :=
  match attrs with
  | [] => inl st
  | attr :: attrs' => match add_netlink_attr st attr with inl st => add_netlink_attrs st attrs' | inr e => inr e end
  end.

Definition BUFFER : nat := 4096.

(** What [netlink_request] writes. *)
Definition netlink_message (message_type flags seq : N) (payload : bytes) (attrs : list (N * bytes)) : bytes + net_error :=
  match put_bytes (replicate BUFFER x00) 16 payload with
  | inr e => inr e
  | inl buf =>
      match add_netlink_attrs (buf, 16 + length payload) attrs with
      | inr e => inr e
      | inl (buf, len) =>
          match put_bytes buf 0 (hdr_bytes (mk_hdr (N.of_nat len) message_type flags seq 0)) with
          | inr e => inr e
          | inl buf => inl (take len buf)
          end
      end
  end.

(** A call that failed with [EINTR] is made again, and is not in the lists
    below. A write gives how many bytes went out, or fails. *)
Definition netlink_write (written : option nat) (len : nat) : unit + net_error :=
  match written with
  | None => inr WriteFailed
  | Some n => if n =? len then inl tt else inr ShortWrite
  end.

(** A number of 32 bits with a sign *)
Definition from_le_i32 (b : bytes) : Z := let n := Z.of_N (from_le_bytes b) in if (n <? 2 ^ 31)%Z then n else (n - 2 ^ 32)%Z.

(** The messages of one read: an answer, or nothing for us. [fuel] bounds the
    messages a read can hold. *)
Fixpoint ack_scan (fuel : nat) (buf : bytes) (len offset : nat) (seq : N) (allow_exists : bool) : option (unit + net_error) :=
  match fuel with
  | O => None
  | S fuel' =>
      if offset + 16 <=? len then
        match read_struct 16 buf offset with
        | None => Some (inr BufferTooSmall)
        | Some b =>
            let h := hdr_of b in
            if (nlmsg_len h <? 16)%N then Some (inr InvalidLength)
            else if len <? offset + N.to_nat (nlmsg_len h) then Some (inr Truncated)
            else
              let next := ack_scan fuel' buf len (offset + align4 (N.to_nat (nlmsg_len h))) seq allow_exists in
              if (nlmsg_seq h =? seq)%N then
                if (nlmsg_type h =? NLMSG_ERROR)%N then
                  match read_struct 4 buf (offset + 16) with
                  | None => Some (inr BufferTooSmall)
                  | Some e =>
                      let error := from_le_i32 e in
                      if (error =? 0)%Z then Some (inl tt)
                      else
                        let code := Z.abs error in
                        if allow_exists && (code =? EEXIST)%Z then Some (inl tt) else Some (inr (KernelError code))
                  end
                else if (nlmsg_type h =? NLMSG_DONE)%N then Some (inl tt)
                else next
              else next
        end
      else None
  end.

(** [reads] is what the calls of [read] return, in order: [None] for a
    failure. A read only replaces the start of the buffer. [None] is waiting
    for the next one. *)
Fixpoint netlink_ack (buf : bytes) (reads : list (option bytes)) (seq : N) (allow_exists : bool)
    : option ((unit + net_error) * list (option bytes)) :=
  match reads with
  | [] => None
  | None :: reads' => Some (inr ReadFailed, reads')
  | Some [] :: reads' => Some (inr UnexpectedEnd, reads')
  | Some got :: reads' =>
      let buf := got ++ drop (length got) buf in
      match ack_scan (S (length got)) buf (length got) 0 seq allow_exists with
      | Some r => Some (r, reads')
      | None => netlink_ack buf reads' seq allow_exists
      end
  end.

(** ** The requests *)

Definition link_up_message (ifindex seq : N) : bytes + net_error :=
  netlink_message RTM_NEWLINK (N.lor NLM_F_REQUEST NLM_F_ACK) seq (if_info_msg ifindex IFF_UP IFF_UP) [].

Definition REPLACE_FLAGS : N := N.lor (N.lor (N.lor NLM_F_REQUEST NLM_F_ACK) NLM_F_CREATE) NLM_F_REPLACE.

Definition address_message (ifindex : N) (addr : bytes) (prefix_len seq : N) : bytes + net_error :=
  netlink_message RTM_NEWADDR REPLACE_FLAGS seq (if_addr_msg AF_INET prefix_len ifindex) [(IFA_LOCAL, addr); (IFA_ADDRESS, addr)].

Definition default_route_message (ifindex : N) (gateway : bytes) (seq : N) : bytes + net_error :=
  netlink_message RTM_NEWROUTE REPLACE_FLAGS seq (rt_msg AF_INET RT_TABLE_MAIN RTPROT_BOOT RTN_UNICAST)
    [(RTA_OIF, to_le_bytes 4 ifindex); (RTA_DST, replicate 4 x00); (RTA_GATEWAY, gateway)].

Section requests.
(** How a write goes, and the reads that follow it. *)
Context (exchange : bytes -> option nat * list (option bytes)).

(** What was sent is kept beside the result; [None] is waiting for ever. *)
Definition netlink_request (message : bytes + net_error) (seq : N) (allow_exists : bool) : list bytes * option (unit + net_error) :=
  match message with
  | inr e => ([], Some (inr e))
  | inl m =>
      ([m],
       let '(written, reads) := exchange m in
       match netlink_write written (length m) with
       | inr e => Some (inr e)
       | inl _ => fst <$> netlink_ack (replicate BUFFER x00) reads seq allow_exists
       end)
  end.

Fixpoint netlink_requests (l : list ((bytes + net_error) * N * bool)) : list bytes * option (unit + net_error) :=
  match l with
  | [] => ([], Some (inl tt))
  | (message, seq, allow_exists) :: l' =>
      match netlink_request message seq allow_exists with
      | (sent, Some (inl _)) => let '(sent', r) := netlink_requests l' in (sent ++ sent', r)
      | (sent, r) => (sent, r)
      end
  end.

(** [socket] is whether the socket could be opened, bound and connected. *)
Definition configure_network_direct (socket : bool) (interface_index : string -> option N) (ip gateway : string)
    : list bytes * option (unit + net_error) :=
  match parse_ipv4_cidr ip with
  | None => ([], Some (inr BadAddress))
  | Some (addr, prefix_len) =>
      match parse_ipv4 gateway with
      | None => ([], Some (inr BadGateway))
      | Some gw =>
          if negb socket then ([], Some (inr NoSocket))
          else
            match interface_index "lo", interface_index "eth0" with
            | Some lo, Some eth0 =>
                netlink_requests
                  [(link_up_message lo 1, 1%N, false); (link_up_message eth0 2, 2%N, false);
                   (address_message eth0 addr prefix_len 3, 3%N, true); (default_route_message eth0 gw 4, 4%N, true)]
            | _, _ => ([], Some (inr NoInterface))
            end
      end
  end.

End requests.

Definition NEWLINE : string := String "010" EmptyString.
Definition TAB : string := String "009" EmptyString.

(** The name of the guest, where it is not one of the usual ones. *)
Definition own_name (contents : string + error) : option string :=
  match contents with
  | inl s => let s := trim s in if bool_decide (s ∈ [EmptyString; "localhost"; "localhost.localdomain"]) then None else Some s
  | inr _ => None
  end.

Definition ensure_hosts : M unit :=
  r ← attempt (read_to_string ["etc"; "hosts"]);
  if negb (bool_decide (trim (match r with inl s => s | inr _ => EmptyString end) = EmptyString)) then mret tt
  else
    hostname ← attempt (read_to_string ["etc"; "hostname"]);
    let names := "localhost localhost.localdomain" +:+
      match own_name hostname with Some h => " " +:+ h | None => EmptyString end in
    _ ← attempt (fs_write ["etc"; "hosts"]
          (to_bytes ("127.0.0.1" +:+ TAB +:+ names +:+ NEWLINE +:+ "::1" +:+ TAB +:+ "localhost ip6-localhost ip6-loopback" +:+ NEWLINE)));
    mret tt.

(** The files that follow the requests, which are made whatever they gave. *)
Definition configure_network_files (gateway : string) : M unit :=
  _ ← attempt (remove_file ["etc"; "resolv.conf"]);
  _ ← attempt (fs_write ["etc"; "resolv.conf"] (to_bytes ("nameserver " +:+ gateway +:+ NEWLINE +:+ "nameserver 1.1.1.1" +:+ NEWLINE)));
  ensure_hosts.

(** ** Listening ports *)

Definition is_local_tcp4_addr (addr : string) : bool := bool_decide (addr ∈ ["00000000"; "0100007F"]).

Definition is_local_tcp6_addr (addr : string) : bool :=
  bool_decide (addr ∈ ["00000000000000000000000000000000"; "00000000000000000000000001000000"]).

Definition parse_proc_net_tcp_listener (line : string) (ipv6 : bool) : option N :=
  match split_whitespace line with
  | _ :: local :: _ :: state :: _ =>
      if bool_decide (state = "0A") then
        match split_once ":" local with
        | None => None
        | Some (addr, port_hex) =>
            match from_str_radix (2 ^ 16) 16 port_hex with
            | None => None
            | Some port =>
                if (port <=? 1024)%N then None
                else if (if ipv6 then is_local_tcp6_addr addr else is_local_tcp4_addr addr) then Some port else None
            end
        end
      else None
  | _ => None
  end.

(** [contents] is what reading the file gave. *)
Definition collect_listening_tcp_ports (contents : option string) (ipv6 : bool) : list N :=
  match contents with
  | None => []
  | Some raw => omap (fun line => parse_proc_net_tcp_listener line ipv6) (drop 1 (lines raw))
  end.

(** [sort_unstable] and [dedup] *)
Fixpoint dedup_ports (l : list N) : list N :=
  match l with
  | a :: ((b :: _) as l') => if (a =? b)%N then dedup_ports l' else a :: dedup_ports l'
  | _ => l
  end.

Definition listening_tcp_ports (tcp tcp6 : option string) : list N :=
  dedup_ports (merge_sort N.le (collect_listening_tcp_ports tcp false ++ collect_listening_tcp_ports tcp6 true)).

(** The thread that tells the host: what it sends, given what it sees each
    time. *)
Fixpoint listener_monitor (last : list N) (seen : list (list N)) : list message :=
  match seen with
  | [] => []
  | ports :: seen' =>
      if bool_decide (ports = last) then listener_monitor last seen' else PortListeners ports :: listener_monitor ports seen'
  end.
