(* ===== verification/GuestExec.v ===== *)
(** The commands of the guest (src/guest-agent/src/main.rs): their
    environment, the control socket of a channel, the dispatch of the host's
    messages to channels, and the loops that serve a channel. *)

From S2P Require Import Prelude Codec FileSystem Text Protocol Paths Legacy HostShare Ingress Snapshots Cas GuestUser.

(** ** Environments *)

Definition DEFAULT_PATH : string :=
  "/home/lnxuser/.local/bin:/home/lnxuser/go/bin:/home/lnxuser/.cargo/bin:/usr/local/sbin:/usr/local/bin:/usr/sbin:/usr/bin:/sbin:/bin:/snap/bin".
Definition DEFAULT_BROWSER : string := "/usr/local/bin/xdg-open".
Definition CONTROL_SOCKET_ENV : string := "LNX_CONTROL_SOCKET".

(** [CString::new]: no text with a NUL in it *)
Definition cstring (s : string) : option string := if contains_char "000" s then None else Some s.

(** [{n:016x}] *)
Definition format_016x (n : N) : string := hex_from_bytes (rev (to_le_bytes 8 n)).

Definition channel_control_socket (channel_id : N) : string := "/run/lnx-agent-" +:+ format_016x channel_id +:+ ".sock".

Definition is_env_name (name : string) : bool :=
  negb (bool_decide (name = EmptyString)) && negb (contains_char "=" name) && negb (contains_char "000" name).

(** The entries of an [execve] environment, in order. *)
Fixpoint replace_entry (prefix entry : string) (storage : list string) : option (list string) :=
  match storage with
  | [] => None
  | e :: storage' => if starts_with prefix e then Some (entry :: storage') else cons e <$> replace_entry prefix entry storage'
  end.

Definition push_env (storage : list string) (name value : string) : list string :=
  match cstring (name +:+ "=" +:+ value) with
  | None => storage
  | Some entry =>
      match replace_entry (name +:+ "=") entry storage with
      | Some storage => storage
      | None => storage ++ [entry]
      end
  end.

Definition push_forwarded (storage : list string) (kv : string * string) : list string :=
  if is_env_name kv.1 then push_env storage kv.1 kv.2 else storage.

Definition child_defaults (channel_id : N) (control_socket : string) : list (string * string) :=
  [("PATH", DEFAULT_PATH); ("HOME", EXEC_HOME); ("USER", EXEC_USER); ("LOGNAME", EXEC_USER); ("BROWSER", DEFAULT_BROWSER);
   ("LNX_REQUEST_ID", format_016x channel_id); (CONTROL_SOCKET_ENV, control_socket)].

Definition child_env (env : list (string * string)) (channel_id : N) (control_socket : string) : list string :=
  foldl push_forwarded
    (foldl (fun storage kv => push_env storage kv.1 kv.2) [] (child_defaults channel_id control_socket)) env.

(** An argument with a NUL becomes an empty one. *)
Definition make_argv (argv : list string) : list string := (fun arg => default EmptyString (cstring arg)) <$> argv.

Definition make_exec_paths (argv0 : string) : list string :=
  if contains_char "/" argv0 then [default EmptyString (cstring argv0)]
  else omap (fun dir => cstring (dir +:+ "/" +:+ argv0)) (split_char ":" DEFAULT_PATH).

Record child_exec := mk_child_exec {
  ce_argv : list string;
  ce_env : list string;
  ce_cwd : option string;
  ce_exec_paths : list string;
}.

Definition make_child_exec (argv : list string) (cwd : string) (env : list (string * string)) (channel_id : N)
    (control_socket : string) : child_exec :=
  mk_child_exec (make_argv argv) (child_env env channel_id control_socket)
    (if bool_decide (cwd = EmptyString) then None else cstring cwd)
    (make_exec_paths (default EmptyString (head argv))).

(** *** With a terminal

    The child changes the environment it has inherited, with [setenv]. *)

Fixpoint setenv (env : list (string * string)) (name value : string) : list (string * string) :=
  match env with
  | [] => [(name, value)]
  | kv :: env' => if bool_decide (kv.1 = name) then (name, value) :: env' else kv :: setenv env' name value
  end.

Definition set_env (env : list (string * string)) (name value : string) : list (string * string) :=
  match cstring name, cstring value with
  | Some name, Some value => setenv env name value
  | _, _ => env
  end.

Definition set_default_exec_environment (env : list (string * string)) : list (string * string) :=
  foldl (fun env kv => set_env env kv.1 kv.2) env
    [("PATH", DEFAULT_PATH); ("HOME", EXEC_HOME); ("USER", EXEC_USER); ("LOGNAME", EXEC_USER); ("BROWSER", DEFAULT_BROWSER)].

Definition set_forwarded_environment (env : list (string * string)) (forwarded : list (string * string)) : list (string * string) :=
  foldl (fun env kv => if is_env_name kv.1 then set_env env kv.1 kv.2 else env) env forwarded.

Definition pty_env (inherited : list (string * string)) (term colorterm : string) (forwarded : list (string * string))
    (channel_id : N) (control_socket : string) : list (string * string) :=
  let env := set_env inherited "TERM" term in
  let env := if bool_decide (colorterm = EmptyString) then env else set_env env "COLORTERM" colorterm in
  let env := set_default_exec_environment env in
  let env := set_forwarded_environment env forwarded in
  let env := set_env env "LNX_REQUEST_ID" (format_016x channel_id) in
  set_env env CONTROL_SOCKET_ENV control_socket.

Definition resolve_login_shell (argv : list string) (uid : N) : M (list string) :=
  if negb (bool_decide (argv = [])) then mret argv
  else shell ← login_shell_for_uid uid; mret [shell; "-l"].

(** *** Numbers *)

(** A status of [waitpid] *)
Definition exit_status (status : Z) : Z :=
  if (Z.land status 127 =? 0)%Z then Z.land (Z.shiftr status 8) 255 else (128 + Z.land status 127)%Z.

Definition digit_char (n : N) : ascii := ascii_of_N (48 + n).

(** The loop of [write_decimal]: the buffer is filled from its end. *)
Fixpoint decimal_digits (fuel : nat) (value : N) (acc : string) : string :=
  match fuel with
  | O => acc
  | S fuel' =>
      let acc := String (digit_char (value `mod` 10)) acc in
      if (value / 10 =? 0)%N then acc else decimal_digits fuel' (value / 10) acc
  end.

Definition write_decimal (value : N) : string := decimal_digits 20 value EmptyString.

(** ** Control sockets *)

Definition FRAME_CONTROL_SNAPSHOT_EXIT : byte := x58.
Definition FRAME_CONTROL_OPEN_URL : byte := x4f.
Definition FRAME_CONTROL_OK : byte := x78.
Definition MAX_CONTROL_PAYLOAD : N := 16 * 1024.

Definition write_frame (frame_type : byte) (payload : bytes) : bytes :=
  [frame_type] ++ to_be_bytes (N.of_nat (length payload) `mod` 2 ^ 32) ++ payload.

(** What a program in the guest sends, or the status it ends with at once. *)
Definition lnxctl_mode (args : list string) : bytes + Z :=
  if bool_decide (args !! 1 = Some "snapshot-exit") then inl (write_frame FRAME_CONTROL_SNAPSHOT_EXIT []) else inr 2%Z.

Definition xdg_open_mode (args : list string) : bytes + Z :=
  match args !! 1 with
  | None => inr 2%Z
  | Some target =>
      if negb (bool_decide (is_Some (split_once "://" target))) then inr 2%Z
      else if (MAX_CONTROL_PAYLOAD <? N.of_nat (String.length target))%N then inr 2%Z
      else inl (write_frame FRAME_CONTROL_OPEN_URL (to_bytes target))
  end.

Inductive channel_control_request := ControlSnapshotExit | ControlOpenUrl (url : string).

(** [s] is what the program wrote before it closed its end. *)
Definition accept_channel_control (s : bytes) : option channel_control_request :=
  match s with
  | [] => None
  | frame_type :: s =>
      match read_u32 s with
      | inr _ => None
      | inl (len, s) =>
          if bool_decide (frame_type = FRAME_CONTROL_SNAPSHOT_EXIT) && (len =? 0)%N then Some ControlSnapshotExit
          else if bool_decide (frame_type = FRAME_CONTROL_OPEN_URL) && (1 <=? len)%N && (len <=? MAX_CONTROL_PAYLOAD)%N then
            match read_exact len s with
            | inr _ => None
            | inl (payload, _) => if utf8_valid (of_bytes payload) then Some (ControlOpenUrl (of_bytes payload)) else None
            end
          else None
      end
  end.

(** The status a program ends with: 125 where the answer is cut short. *)
Definition read_local_control_response (s : bytes) : Z :=
  match s with
  | [] => 125
  | frame_type :: s =>
      match read_u32 s with
      | inr _ => 125
      | inl (len, _) => if bool_decide (frame_type = FRAME_CONTROL_OK) && (len =? 0)%N then 0 else 1
      end
  end%Z.

Definition complete_pending_control (pending ok : bool) : bytes :=
  if pending && ok then write_frame FRAME_CONTROL_OK [] else [].

Definition handle_channel_control (request : channel_control_request) (channel_id : N) : message :=
  match request with
  | ControlSnapshotExit => SnapshotExitMsg channel_id
  | ControlOpenUrl url => OpenUrl channel_id url
  end.

(** ** Restoring *)

Definition RESTORE_ENTROPY_MIN_BYTES : nat := 32.
Definition RESTORE_ENTROPY_MAX_BYTES : nat := 1024.

(** How the calls of the restore go: opening the device, adding the bytes,
    reseeding (an error number, or [0]) and writing the two files. *)
Record restore_calls := mk_restore { rc_open : bool; rc_add : bool; rc_reseed : Z; rc_marker : bool; rc_caches : bool }.

Inductive restore_error :=
  | EntropyTooShort | EntropyTooLarge | RandomOpen | AddEntropy | Reseed | MarkerWrite | DropCaches.

(** The bit count, the size and the bytes that are given to the kernel. *)
Definition rand_pool_info (entropy : bytes) : N * N * bytes :=
  (N.of_nat (length entropy * 8), N.of_nat (length entropy), entropy ++ replicate (RESTORE_ENTROPY_MAX_BYTES - length entropy) x00).

Definition restore_sync_guest_entropy (calls : restore_calls) (entropy : bytes) : list (N * N * bytes) * option restore_error :=
  if length entropy <? RESTORE_ENTROPY_MIN_BYTES then ([], Some EntropyTooShort)
  else if RESTORE_ENTROPY_MAX_BYTES <? length entropy then ([], Some EntropyTooLarge)
  else if negb (rc_open calls) then ([], Some RandomOpen)
  else
    ([rand_pool_info entropy],
     if negb (rc_add calls) then Some AddEntropy
     else if negb (bool_decide (rc_reseed calls ∈ [0%Z; 22%Z; 25%Z])) then Some Reseed
     else if negb (rc_marker calls) then Some MarkerWrite else None).

Definition restore_sync_guest_caches (calls : restore_calls) (entropy : bytes) : list (N * N * bytes) * option restore_error :=
  match restore_sync_guest_entropy calls entropy with
  | (added, Some e) => (added, Some e)
  | (added, None) => (added, if rc_caches calls then None else Some DropCaches)
  end.

(** Seconds and nanoseconds of a time. *)
Definition set_wall_clock (unix_nanos : N) : N * N := (unix_nanos / 1000000000, unix_nanos `mod` 1000000000)%N.

Definition sync_clock_from_host (host_unix_secs : option string) : option (N * N) :=
  match host_unix_secs with
  | None => None
  | Some raw =>
      match parse_unsigned (2 ^ 64) raw with
      | None => None
      | Some secs => Some (set_wall_clock (N.min (secs * 1000000000) (2 ^ 64 - 1)))
      end
  end.

(** ** Mounts *)

(** A mount of [LNX_VHOST_USER_FS] that is made: its tag and its place. *)
Definition vhost_user_mount (mount : string) : option (string * string) :=
  match split_char ":" mount with
  | [tag; guest_path; mode] => if bool_decide (mode = "ro") then Some (tag, guest_path) else None
  | _ => None
  end.

(** Mounts without a tag or an absolute place are left out. *)
Definition mountable (m : string * string) : bool :=
  negb (bool_decide (m.1 = EmptyString)) && starts_with "/" m.2.

Definition mount_vhost_user_fs (mounts : string) : list (string * string) :=
  base.filter (fun m => mountable m = true)
    (omap vhost_user_mount (base.filter (fun s => s <> EmptyString) (split_char ";" mounts))).

(** [link] is what [read_link] gives for a path. *)
Fixpoint follow_init (link : pathbuf -> option pathbuf) (n : nat) (p : pathbuf) : pathbuf :=
  match n with
  | O => p
  | S n' =>
      match link p with
      | None => p
      | Some target =>
          let dir := match last p with Some RootDir | None => [RootDir] | Some _ => removelast p end in
          follow_init link n' (if is_absolute target then target else path_join dir target)
      end
  end.

Definition init_is_systemd (link : pathbuf -> option pathbuf) (init : string) : bool :=
  bool_decide (last (follow_init link 8 (path_components init)) = Some (Normal "systemd")).

(** [there] is whether [metadata] finds a path. *)
Definition detect_image_init (there : string -> bool) : option string :=
  head (base.filter (fun p => there p = true) ["/sbin/init"; "/usr/sbin/init"; "/etc/init"; "/bin/init"]).
