(* ===== verification/GuestChannels.v ===== *)
(** The channels of the guest agent (src/guest-agent/src/main.rs): the dispatch
    of the host's messages ([agent_loop]) and the loops that serve a command
    without a terminal ([run_channel_pipe]), with one ([run_channel_pty]) and a
    connection ([run_channel_tcp]). *)

From S2P Require Import Prelude Codec FileSystem Text Protocol Snapshots Cas GuestUser GuestExec.

(** ** Dispatch *)

Inductive channel_input :=
  | InData (b : bytes)
  | InEof
  | InResize (rows cols : N)
  | InClose
  | InSnapshotComplete
  | InSnapshotFailed
  | InOpenUrlComplete
  | InOpenUrlFailed.

#[global] Instance channel_input_eq_dec : EqDecision channel_input.
Proof. solve_decision. Defined.

(** What the loop does for a message, besides its own table: a thread has the
    number it was started with. *)
Inductive agent_effect :=
  | SpawnPty (thread : nat) (m : message)
  | SpawnPipe (thread : nat) (m : message)
  | SpawnTcp (thread : nat) (m : message)
  | SendInput (thread : nat) (i : channel_input)
  | LatchEof (thread : nat)
  | Restore (channel_id : N) (entropy : bytes)
  | SetTime (unix_nanos : N)
  | Snapshot.

(** [channels]: the ids in use, with their threads, in the order they were
    opened; the number of threads started. *)
Record agent_state := mk_agent { ag_channels : list (N * nat); ag_threads : nat }.

Fixpoint channel_thread (channels : list (N * nat)) (id : N) : option nat :=
  match channels with
  | [] => None
  | (i, t) :: channels' => if (i =? id)%N then Some t else channel_thread channels' id
  end.

Definition retain_others (channels : list (N * nat)) (id : N) : list (N * nat) :=
  base.filter (fun c => c.1 <> id) channels.

(** An input for the thread of a channel, if there is one. *)
Definition send_input (a : agent_state) (id : N) (i : channel_input) : list agent_effect :=
  match channel_thread (ag_channels a) id with Some t => [SendInput t i] | None => [] end.

Definition add_channel (a : agent_state) (id : N) : agent_state :=
  mk_agent (ag_channels a ++ [(id, ag_threads a)]) (S (ag_threads a)).

Definition agent_message (a : agent_state) (m : message) : agent_state * list agent_effect :=
  match m with
  | OpenExec id _ _ pty _ _ _ _ _ _ _ _ =>
      (add_channel a id, [if pty : bool then SpawnPty (ag_threads a) m else SpawnPipe (ag_threads a) m])
  | OpenTcp id _ _ => (add_channel a id, [SpawnTcp (ag_threads a) m])
  | Data id b => (a, send_input a id (InData b))
  | Eof id =>
      (a, match channel_thread (ag_channels a) id with Some t => [LatchEof t; SendInput t InEof] | None => [] end)
  | WindowResize id rows cols => (a, send_input a id (InResize rows cols))
  | Close id => (mk_agent (retain_others (ag_channels a) id) (ag_threads a), send_input a id InClose)
  | CheckpointCreated id => (a, send_input a id InSnapshotComplete)
  | ErrorMsg id _ => (a, send_input a id InSnapshotFailed)
  | OpenUrlResult id ok => (a, send_input a id (if ok : bool then InOpenUrlComplete else InOpenUrlFailed))
  | RestoreSync id entropy => (a, [Restore id entropy])
  | ExitStatus id _ => (mk_agent (retain_others (ag_channels a) id) (ag_threads a), [])
  | SetClock unix_nanos => (a, [SetTime unix_nanos])
  | SnapshotReady => (a, [Snapshot])
  | _ => (a, [])
  end.

Fixpoint agent_loop (a : agent_state) (ms : list message) : agent_state * list agent_effect :=
  match ms with
  | [] => (a, [])
  | m :: ms' =>
      let '(a1, e1) := agent_message a m in
      let '(a2, e2) := agent_loop a1 ms' in (a2, e1 ++ e2)
  end.

(** ** A command without a terminal *)

(** What [drain_output_message] read: the pieces, and whether it saw the end. *)
Record drained := mk_drained { dr_pieces : list bytes; dr_eof : bool }.

Inductive waited := StillRunning | Exited (status : Z) | NoChild | WaitError.

(** What one turn of the loop sees. *)
Record pipe_turn := mk_pipe_turn {
  pt_stdout : option drained;
  pt_stderr : option drained;
  pt_control : option channel_control_request;
  pt_inputs : list (channel_input * bool);
  pt_latched : bool;
  pt_wait : waited;
  pt_last_stdout : drained;
  pt_last_stderr : drained;
}.

Record pipe_state := mk_pipe {
  ps_stdin : bool;
  ps_written : bytes;
  ps_status : Z;
  ps_exited : bool;
  ps_stdout_eof : bool;
  ps_stderr_eof : bool;
  ps_pending : bool;
  ps_hung_up : bool;
  ps_answers : list bytes;
  ps_sent : list message;
}.

Definition pipe_start (channel_id : N) : pipe_state := mk_pipe true [] 0 false false false false false [] [ExecStarted channel_id].

Definition set_stdin (st : pipe_state) (stdin : bool) (written : bytes) : pipe_state :=
  mk_pipe stdin written (ps_status st) (ps_exited st) (ps_stdout_eof st) (ps_stderr_eof st) (ps_pending st) (ps_hung_up st) (ps_answers st) (ps_sent st).

Definition set_status (st : pipe_state) (status : Z) (exited : bool) : pipe_state :=
  mk_pipe (ps_stdin st) (ps_written st) status exited (ps_stdout_eof st) (ps_stderr_eof st) (ps_pending st) (ps_hung_up st) (ps_answers st) (ps_sent st).

Definition hang_up (st : pipe_state) : pipe_state :=
  mk_pipe (ps_stdin st) (ps_written st) (Z.shiftl 130 8) (ps_exited st) (ps_stdout_eof st) (ps_stderr_eof st) (ps_pending st) true (ps_answers st) (ps_sent st).

Definition answer_control (st : pipe_state) (ok : bool) : pipe_state :=
  mk_pipe (ps_stdin st) (ps_written st) (ps_status st) (ps_exited st) (ps_stdout_eof st) (ps_stderr_eof st) false (ps_hung_up st)
    (if ps_pending st then ps_answers st ++ [complete_pending_control true ok] else ps_answers st) (ps_sent st).

Section pipe.
Context (channel_id : N).

Definition drain_stdout (st : pipe_state) (d : drained) : pipe_state :=
  mk_pipe (ps_stdin st) (ps_written st) (ps_status st) (ps_exited st) (ps_stdout_eof st || dr_eof d) (ps_stderr_eof st) (ps_pending st) (ps_hung_up st)
    (ps_answers st) (ps_sent st ++ (Data channel_id <$> dr_pieces d)).

Definition drain_stderr (st : pipe_state) (d : drained) : pipe_state :=
  mk_pipe (ps_stdin st) (ps_written st) (ps_status st) (ps_exited st) (ps_stdout_eof st) (ps_stderr_eof st || dr_eof d) (ps_pending st) (ps_hung_up st)
    (ps_answers st) (ps_sent st ++ (Stderr channel_id <$> dr_pieces d)).

Definition take_control (st : pipe_state) (r : channel_control_request) : pipe_state :=
  mk_pipe (ps_stdin st) (ps_written st) (ps_status st) (ps_exited st) (ps_stdout_eof st) (ps_stderr_eof st) true (ps_hung_up st)
    (ps_answers st) (ps_sent st ++ [handle_channel_control r channel_id]).

(** An input, and whether writing it to the command succeeds. *)
Definition pipe_input (st : pipe_state) (i : channel_input * bool) : pipe_state :=
  match i.1 with
  | InData b =>
      if ps_stdin st then (if i.2 then set_stdin st true (ps_written st ++ b) else set_stdin st false (ps_written st)) else st
  | InEof => if ps_stdin st then set_stdin st false (ps_written st) else st
  | InClose => hang_up st
  | InSnapshotComplete | InOpenUrlComplete => answer_control st true
  | InSnapshotFailed | InOpenUrlFailed => answer_control st false
  | InResize _ _ => st
  end.

(** A hangup ends the inputs of a turn. *)
Fixpoint pipe_inputs (st : pipe_state) (l : list (channel_input * bool)) : pipe_state :=
  match l with
  | [] => st
  | i :: l' => if bool_decide (i.1 = InClose) then pipe_input st i else pipe_inputs (pipe_input st i) l'
  end.

Definition pipe_latch (st : pipe_state) (latched : bool) : pipe_state :=
  if latched && ps_stdin st then set_stdin st false (ps_written st) else st.

Definition pipe_wait (st : pipe_state) (w : waited) : pipe_state :=
  if ps_exited st then st
  else
    match w with
    | StillRunning => st
    | Exited status => set_status st status true
    | NoChild => set_status st (ps_status st) true
    | WaitError => set_status st (Z.shiftl 127 8) true
    end.

(** One turn: the streams are polled until they have ended, and a control
    request is taken when none is pending. *)
Definition pipe_step (st : pipe_state) (t : pipe_turn) : pipe_state :=
  let st := match pt_stdout t with Some d => if ps_stdout_eof st then st else drain_stdout st d | None => st end in
  let st := match pt_stderr t with Some d => if ps_stderr_eof st then st else drain_stderr st d | None => st end in
  let st := match pt_control t with Some r => if ps_pending st then st else take_control st r | None => st end in
  let st := pipe_inputs st (pt_inputs t) in
  let st := pipe_latch st (pt_latched t) in
  let st := pipe_wait st (pt_wait t) in
  if ps_exited st then
    drain_stderr (drain_stdout (if ps_stdin st then set_stdin st false (ps_written st) else st) (pt_last_stdout t)) (pt_last_stderr t)
  else st.

Definition pipe_done (st : pipe_state) : bool := ps_exited st && ps_stdout_eof st && ps_stderr_eof st.

(** The turns until the loop ends, if it does. *)
Fixpoint pipe_loop (st : pipe_state) (turns : list pipe_turn) : option pipe_state :=
  match turns with
  | [] => None
  | t :: turns' => let st := pipe_step st t in if pipe_done st then Some st else pipe_loop st turns'
  end.

Definition send_status (status : Z) : list message := [ExitStatus channel_id (exit_status status); Close channel_id].

(** [started] is whether the pipes and the process could be made. *)
Definition run_channel_pipe (started : bool) (turns : list pipe_turn) : option (list message) :=
  if negb started then Some (send_status (Z.shiftl 127 8))
  else (fun st => ps_sent st ++ send_status (ps_status st)) <$> pipe_loop (pipe_start channel_id) turns.

End pipe.

(** ** A connection *)

(** What the thread that reads the connection sends. *)
Fixpoint tcp_reader (channel_id : N) (reads : list (bytes + string)) : list message :=
  match reads with
  | [] => []
  | inl [] :: _ => [Eof channel_id]
  | inl b :: reads' => Data channel_id b :: tcp_reader channel_id reads'
  | inr e :: _ => [ErrorMsg channel_id ("tcp read: " +:+ e)]
  end.

(** What the channel's own loop sees each time: the reader has ended, an input
    and whether it could be written, nothing, or the end of the inputs. *)
Inductive tcp_turn := ReaderDone | TcpInput (i : channel_input) (written : option string) | TcpTimeout | Disconnected.

Inductive tcp_action := TcpWrite (b : bytes) | TcpShutdownWrite.

Fixpoint tcp_writer (channel_id : N) (turns : list tcp_turn) : list tcp_action * list message :=
  match turns with
  | [] => ([], [])
  | ReaderDone :: _ | Disconnected :: _ | TcpInput InClose _ :: _ => ([], [Close channel_id])
  | TcpInput (InData b) None :: turns' => let '(acts, ms) := tcp_writer channel_id turns' in (TcpWrite b :: acts, ms)
  | TcpInput (InData b) (Some e) :: _ => ([], [ErrorMsg channel_id ("tcp write: " +:+ e); Close channel_id])
  | TcpInput InEof _ :: turns' => let '(acts, ms) := tcp_writer channel_id turns' in (TcpShutdownWrite :: acts, ms)
  | _ :: turns' => tcp_writer channel_id turns'
  end.

(** ** The loops at the same time

    The dispatch and the loop of a channel are threads: what the dispatch does
    for a channel, one effect after the other, goes on between any two steps of
    the channel's loop. *)

Inductive feed_place := Receiving | Latching.

Record feed := mk_feed {
  fd_effects : list agent_effect;
  fd_queue : list channel_input;
  fd_flag : bool;
  fd_place : feed_place;
  fd_pipe : pipe_state;
}.

(** The effects of the dispatch on the channel: what it sends is queued, and
    the end of the input is latched as well. *)
Definition apply_effect (e : agent_effect) (s : feed) (rest : list agent_effect) : feed :=
  match e with
  | SendInput _ i => mk_feed rest (fd_queue s ++ [i]) (fd_flag s) (fd_place s) (fd_pipe s)
  | LatchEof _ => mk_feed rest (fd_queue s) true (fd_place s) (fd_pipe s)
  | _ => mk_feed rest (fd_queue s) (fd_flag s) (fd_place s) (fd_pipe s)
  end.

(** A step of either thread, for a command that reads what it is sent. *)
Inductive feed_step : feed -> feed -> Prop :=
  | feed_agent s e rest : fd_effects s = e :: rest -> feed_step s (apply_effect e s rest)
  | feed_recv s i q : fd_place s = Receiving -> fd_queue s = i :: q ->
      feed_step s (mk_feed (fd_effects s) q (fd_flag s) (if bool_decide (i = InClose) then Latching else Receiving) (pipe_input (fd_pipe s) (i, true)))
  | feed_empty s : fd_place s = Receiving -> fd_queue s = [] ->
      feed_step s (mk_feed (fd_effects s) [] (fd_flag s) Latching (fd_pipe s))
  | feed_latch s : fd_place s = Latching ->
      feed_step s (mk_feed (fd_effects s) (fd_queue s) false Receiving (pipe_latch (fd_pipe s) (fd_flag s))).

Definition feed_start (channel_id : N) (effects : list agent_effect) : feed :=
  mk_feed effects [] false Receiving (pipe_start channel_id).

(** *** A command that copies its input

    The loop writes an input to the command's pipe with [write_all], which
    waits while the pipe is full, and reads the command's output again only
    when no input is left; the command reads when it has nothing left to
    write. *)

Inductive copy_place := Inputs (writing : bytes) (queue : list bytes) | Outputs.

Record copy_state := mk_copy { cp_place : copy_place; cp_in : bytes; cp_buf : bytes; cp_out : bytes; cp_sent : bytes }.

Inductive copy_step (cap : nat) : copy_state -> copy_state -> Prop :=
  | copy_take b q i u o s : copy_step cap (mk_copy (Inputs [] (b :: q)) i u o s) (mk_copy (Inputs b q) i u o s)
  | copy_write x bs q i u o s : length i < cap ->
      copy_step cap (mk_copy (Inputs (x :: bs) q) i u o s) (mk_copy (Inputs bs q) (i ++ [x]) u o s)
  | copy_turn i u o s : copy_step cap (mk_copy (Inputs [] []) i u o s) (mk_copy Outputs i u o s)
  | copy_drain i u o s : copy_step cap (mk_copy Outputs i u o s) (mk_copy (Inputs [] []) i u [] (s ++ o))
  | command_read p n i o s : i <> [] -> 0 < n ->
      copy_step cap (mk_copy p i [] o s) (mk_copy p (drop n i) (take n i) o s)
  | command_write p x u i o s : length o < cap ->
      copy_step cap (mk_copy p i (x :: u) o s) (mk_copy p i u (o ++ [x]) s).

Definition copy_start (queue : list bytes) : copy_state := mk_copy (Inputs [] queue) [] [] [] [].
