(* ===== verification/GuestTheorems.v ===== *)
(** What holds of the channels of the guest agent, with its threads in any
    order (src/guest-agent/src/main.rs). *)

From S2P Require Import Prelude Codec FileSystem Text Protocol Snapshots SnapshotTheorems CliTheorems Cas GuestUser GuestExec GuestChannels.

(** ** Input and output of a command *)

(** Everything that is on its way. *)
Definition under_way (p : copy_place) : bytes := match p with Inputs w q => w ++ concat q | Outputs => [] end.

Definition copy_bytes (s : copy_state) : nat := length (under_way (cp_place s)) + length (cp_in s) + length (cp_buf s) + length (cp_out s).

(** The loop has not come back from the inputs, no pipe is over full, and
    nothing is lost. *)
Definition copying (cap total : nat) (s : copy_state) : Prop :=
  (exists w q, cp_place s = Inputs w q) /\ cp_sent s = [] /\
  length (cp_in s) <= cap /\ length (cp_buf s) <= cap /\ length (cp_out s) <= cap /\ copy_bytes s = total.

Lemma copying_step cap total s s' : 3 * cap < total -> copying cap total s -> copy_step cap s s' -> copying cap total s'.
Proof.
  unfold copying, copy_bytes. intros Hcap ((w & q & Hp) & Hs & Hi & Hu & Ho & Ht) Hstep.
  destruct Hstep; simpl in *; simplify_eq/=; rewrite ?length_app, ?length_drop, ?length_take in *; simpl in *.
  - split_and!; eauto; lia.
  - split_and!; eauto; lia.
  - lia.
  - split_and!; eauto; lia.
  - split_and!; eauto; lia.
Qed.

(** What is left to do gets less with every step. *)
Definition copy_work (s : copy_state) : nat :=
  match cp_place s with Inputs w q => 4 * length w + 4 * length (concat q) + length q | Outputs => 0 end +
  3 * length (cp_in s) + 2 * length (cp_buf s) + length (cp_out s).

Lemma copy_work_step cap total s s' : 3 * cap < total -> copying cap total s -> copy_step cap s s' -> copy_work s' < copy_work s.
Proof.
  unfold copying, copy_bytes, copy_work. intros Hcap ((w & q & Hp) & Hs & Hi & Hu & Ho & Ht) Hstep.
  destruct Hstep; simpl in *; simplify_eq/=; rewrite ?length_app, ?length_drop, ?length_take in *; simpl in *; try lia.
  destruct i; [done |]. simpl in *. lia.
Qed.

Lemma copying_steps cap total s s' : 3 * cap < total -> copying cap total s -> rtc (copy_step cap) s s' -> copying cap total s'.
Proof. intros Hcap Hs Hr. induction Hr; [done |]. by eauto using copying_step. Qed.

Lemma copying_start cap q : copying cap (length (concat q)) (copy_start q).
Proof. unfold copying, copy_bytes. simpl. split_and!; eauto; lia. Qed.

Lemma copy_moves_or_stuck cap s : red (copy_step cap) s \/ nf (copy_step cap) s.
Proof.
  destruct s as [p i u o t]. destruct u as [| y u].
  - destruct i as [| z i]; [| left; eexists; apply (command_read cap p 1); [done | lia]].
    destruct p as [[| x w] [| b q] |]; try (left; eexists; constructor; fail).
    + destruct (decide (0 < cap)); [left; eexists; by constructor | right; intros [s' Hs]; inversion Hs; simpl in *; lia || done].
    + destruct (decide (0 < cap)); [left; eexists; by constructor | right; intros [s' Hs]; inversion Hs; simpl in *; lia || done].
  - destruct (decide (length o < cap)); [left; eexists; by apply command_write |].
    destruct p as [[| x w] [| b q] |]; try (left; eexists; constructor; fail).
    all: destruct (decide (length i < cap)); [left; eexists; by constructor | right; intros [s' Hs]; inversion Hs; simpl in *; lia || done].
Qed.

(** C36: a command that copies its input to its output, and is sent more than
    its two pipes and its buffer hold before the loop looks at its output, is
    never heard of again: the loop waits for room in the one pipe while the
    command waits for room in the other. Nothing of the output is sent, the
    input is never all written, and every run comes to a stop. *)
Theorem copying_command_deadlocks cap queue s : 3 * cap < length (concat queue) -> rtc (copy_step cap) (copy_start queue) s ->
  cp_sent s = [] /\ under_way (cp_place s) <> [] /\
  (forall n s', nsteps (copy_step cap) n s s' -> n <= copy_work s) /\
  exists s', rtc (copy_step cap) s s' /\ nf (copy_step cap) s'.
Proof.
  intros Hcap Hr. pose proof (copying_steps cap _ _ s Hcap (copying_start cap queue) Hr) as Hs. split_and!.
  - by destruct Hs as (_ & ? & _).
  - intros Hu. destruct Hs as (_ & _ & H1 & H2 & H3 & H4). unfold copy_bytes in H4. rewrite Hu in H4. simpl in H4. lia.
  - intros n s' Hn. clear Hr. induction Hn as [| n s1 s2 s3 H12 _ IH]; [lia |].
    pose proof (copy_work_step cap _ _ _ Hcap Hs H12). specialize (IH (copying_step cap _ _ _ Hcap Hs H12)). lia.
  - clear Hr. induction s as [s IH] using (well_founded_induction (Wf_nat.well_founded_ltof _ copy_work)).
    destruct (copy_moves_or_stuck cap s) as [[s1 H1] | Hn]; [| by exists s].
    destruct (IH s1) as (s' & H2 & H3); [by eapply copy_work_step | by eapply copying_step |]. exists s'. split; [by eapply rtc_l | done].
Qed.

Lemma copying_command_deadlocks_witness : exists s', rtc (copy_step 1) (copy_start [[x01; x02; x03; x04]]) s' /\ nf (copy_step 1) s' /\ cp_sent s' = [].
Proof.
  destruct (copying_command_deadlocks 1 [[x01; x02; x03; x04]] (copy_start [[x01; x02; x03; x04]]) ltac:(simpl; lia) (rtc_refl _ _)) as (_ & _ & _ & s' & H1 & H2).
  exists s'. split_and!; [done | done |]. by apply (copying_command_deadlocks 1 [[x01; x02; x03; x04]] s' ltac:(simpl; lia) H1).
Defined.

(** ** The end of the input *)

Definition input_data (i : channel_input) : bytes := match i with InData b => b | _ => [] end.

Definition effect_data (e : agent_effect) : bytes := match e with SendInput _ i => input_data i | _ => [] end.

Definition no_more (e : agent_effect) : Prop := match e with SendInput _ InEof | SendInput _ InClose | LatchEof _ => False | _ => True end.

(** What has been sent and not been written yet. *)
Definition feed_rest (s : feed) : bytes := concat (input_data <$> fd_queue s) ++ concat (effect_data <$> fd_effects s).

Lemma pipe_input_written p i : ps_stdin p = true -> ps_stdin (pipe_input p (i, true)) = true ->
  ps_written (pipe_input p (i, true)) = ps_written p ++ input_data i.
Proof. intros Hp. destruct i; cbn; rewrite ?Hp; cbn; intros ?; by rewrite ?app_nil_r. Qed.

Lemma pipe_input_closed p i : ps_stdin p = false ->
  ps_stdin (pipe_input p (i, true)) = false /\ ps_written (pipe_input p (i, true)) = ps_written p.
Proof. intros Hp. destruct i; cbn; rewrite ?Hp; done. Qed.

Lemma pipe_input_end p i : ps_stdin p = true -> ps_stdin (pipe_input p (i, true)) = false -> i = InEof /\ ps_written (pipe_input p (i, true)) = ps_written p.
Proof. intros Hp. destruct i; cbn; rewrite ?Hp; cbn; rewrite ?Hp; done. Qed.

Lemma feed_rest_effect s e rest : fd_effects s = e :: rest -> feed_rest (apply_effect e s rest) = feed_rest s.
Proof.
  intros He. unfold feed_rest. rewrite He. destruct e; simpl; try done.
  by rewrite fmap_app, concat_app, <- app_assoc; simpl; rewrite app_nil_r.
Qed.

(** While its input is open a command has been written all that was taken for
    it; afterwards, a part of it from the start. *)
Definition fed (total : bytes) (s : feed) : Prop :=
  if ps_stdin (fd_pipe s) then ps_written (fd_pipe s) ++ feed_rest s = total else ps_written (fd_pipe s) `prefix_of` total.

Lemma fed_step total s s' : fed total s -> feed_step s s' -> fed total s'.
Proof.
  unfold fed. intros Hf Hstep. destruct Hstep as [s e rest He | s i q Hp Hq | s Hp Hq | s Hp].
  - replace (fd_pipe (apply_effect e s rest)) with (fd_pipe s) by (by destruct e). by rewrite feed_rest_effect.
  - unfold feed_rest in *. rewrite Hq in Hf. simpl in *. destruct (ps_stdin (fd_pipe s)) eqn:Ho.
    + destruct (ps_stdin (pipe_input (fd_pipe s) (i, true))) eqn:Hi.
      * rewrite pipe_input_written by done. by rewrite <- !app_assoc in *.
      * destruct (pipe_input_end _ _ Ho Hi) as [-> ->]. rewrite <- Hf. by eexists.
    + destruct (pipe_input_closed _ i Ho) as [-> ->]. done.
  - unfold feed_rest in *. by rewrite Hq in Hf.
  - unfold pipe_latch. simpl. destruct (fd_flag s); simpl; [| done]. destruct (ps_stdin (fd_pipe s)) eqn:Ho; simpl; [| by rewrite Ho].
    rewrite <- Hf. by eexists.
Qed.

(** Nothing has ended the input, and nothing will. *)
Definition unended (s : feed) : Prop :=
  ps_stdin (fd_pipe s) = true /\ fd_flag s = false /\ Forall no_more (fd_effects s) /\ Forall (fun i => i <> InEof) (fd_queue s).

Lemma unended_step s s' : unended s -> feed_step s s' -> unended s'.
Proof.
  intros (H1 & H2 & H3 & H4) Hstep. destruct Hstep as [s e rest He | s i q Hp Hq | s Hp Hq | s Hp].
  - rewrite He in H3. apply Forall_cons in H3 as [He' H3]. destruct e as [| | |? i| | | |]; try done; split_and!; try done.
    apply Forall_app. split; [done |]. constructor; [| done]. by destruct i.
  - rewrite Hq in H4. apply Forall_cons in H4 as [Hi H4]. split_and!; try done. destruct i; cbn; rewrite ?H1; done.
  - split_and!; try done.
  - split_and!; try done. simpl. by rewrite H2.
Qed.

(** C21: whatever the two threads do first, what a command is written is what
    the host sent, in its order and without a gap, from the start; as long as
    the host has not ended the input nothing of it is lost. *)
Theorem command_input_in_order channel_id effects s : rtc feed_step (feed_start channel_id effects) s ->
  ps_written (fd_pipe s) `prefix_of` concat (effect_data <$> effects) /\
  (Forall no_more effects -> fd_effects s = [] -> fd_queue s = [] -> ps_written (fd_pipe s) = concat (effect_data <$> effects)).
Proof.
  intros Hr. set (total := concat (effect_data <$> effects)).
  assert (Hf : fed total s).
  { assert (H0 : fed total (feed_start channel_id effects)) by done. induction Hr; [done |]. by eauto using fed_step. }
  unfold fed in Hf. split.
  - destruct (ps_stdin _); [rewrite <- Hf; by eexists | done].
  - intros He H1 H2. assert (Hu : unended s).
    { assert (H0 : unended (feed_start channel_id effects)) by (split_and!; done). clear Hf H1 H2. induction Hr; [done |]. by eauto using unended_step. }
    destruct Hu as [Hu _]. rewrite Hu in Hf. unfold feed_rest in Hf. rewrite H1, H2 in Hf. simpl in Hf. by rewrite app_nil_r in Hf.
Qed.

Lemma command_input_in_order_witness : exists s, rtc feed_step (feed_start 7 [SendInput 0 (InData [x01]); SendInput 0 (InData [x02])]) s /\
  ps_written (fd_pipe s) = [x01; x02].
Proof.
  assert (Hr : rtc feed_step (feed_start 7 [SendInput 0 (InData [x01]); SendInput 0 (InData [x02])])
    (mk_feed [] [] false Receiving (pipe_inputs (pipe_start 7) [(InData [x01], true); (InData [x02], true)]))).
  { do 4 (eapply rtc_l; [first [by eapply feed_recv | by eapply feed_agent] |]). apply rtc_refl. }
  eexists. split; [exact Hr |]. destruct (command_input_in_order 7 _ _ Hr) as [_ H]. apply H; [repeat constructor | done | done].
Defined.

(** C37: input that the host sends and then ends can be lost: where both
    messages arrive between the loop's last look at its queue and its look at
    the latch, the latch closes the command's input before the data in the
    queue is written, and the data is dropped. *)
Theorem latched_end_drops_input channel_id b : let a := mk_agent [(channel_id, 0)] 1 in
  exists s, rtc feed_step (feed_start channel_id (agent_loop a [Data channel_id b; Eof channel_id]).2) s /\
    fd_effects s = [] /\ fd_queue s = [] /\ fd_place s = Receiving /\ ps_stdin (fd_pipe s) = false /\ ps_written (fd_pipe s) = [].
Proof.
  intros a. unfold agent_loop, agent_message, send_input. simpl. rewrite N.eqb_refl. simpl.
  eexists. split.
  - eapply rtc_l; [by apply feed_empty |]. eapply rtc_l; [by eapply feed_agent |]. eapply rtc_l; [by eapply feed_agent |].
    eapply rtc_l; [by apply feed_latch |]. eapply rtc_l; [by eapply feed_agent |].
    eapply rtc_l; [by eapply feed_recv |]. eapply rtc_l; [by eapply feed_recv |]. apply rtc_refl.
  - done.
Qed.

(** ** Dispatch *)

Definition sent_to (t : nat) (e : agent_effect) : option channel_input :=
  match e with SendInput t' i => if t' =? t then Some i else None | _ => None end.

Definition message_input (m : message) : option (N * channel_input) :=
  match m with
  | Data id b => Some (id, InData b)
  | Eof id => Some (id, InEof)
  | WindowResize id rows cols => Some (id, InResize rows cols)
  | Close id => Some (id, InClose)
  | CheckpointCreated id => Some (id, InSnapshotComplete)
  | ErrorMsg id _ => Some (id, InSnapshotFailed)
  | OpenUrlResult id ok => Some (id, if ok : bool then InOpenUrlComplete else InOpenUrlFailed)
  | _ => None
  end.

Definition message_opens (m : message) : option N :=
  match m with OpenExec id _ _ _ _ _ _ _ _ _ _ _ | OpenTcp id _ _ => Some id | _ => None end.

Definition message_ends (m : message) : option N :=
  match m with Close id | ExitStatus id _ => Some id | _ => None end.

(** The inputs of a channel that is open: those of its messages, until one
    ends it. *)
Fixpoint channel_inputs (id : N) (ms : list message) : list channel_input :=
  match ms with
  | [] => []
  | m :: ms' =>
      match message_input m with Some (i, input) => if (i =? id)%N then [input] else [] | None => [] end ++
      (if bool_decide (message_ends m = Some id) then [] else channel_inputs id ms')
  end.

Lemma channel_thread_app cs ds id :
  channel_thread (cs ++ ds) id = match channel_thread cs id with Some t => Some t | None => channel_thread ds id end.
Proof. induction cs as [| [i t] cs IH]; simpl; [done |]. by destruct (_ =? _)%N. Qed.

Lemma channel_thread_retain cs gone id : channel_thread (retain_others cs gone) id = if (gone =? id)%N then None else channel_thread cs id.
Proof.
  induction cs as [| [i t] cs IH]; simpl; [by destruct (_ =? _)%N |]. unfold retain_others in *. rewrite filter_cons. simpl.
  case_decide as Hi; simpl; rewrite IH; destruct (N.eqb_spec gone id) as [-> | Hg], (N.eqb_spec i id) as [-> | Hid]; congruence || done.
Qed.

(** Threads are numbered in the order they start. *)
Definition numbered_threads (a : agent_state) : Prop := Forall (fun c => c.2 < ag_threads a) (ag_channels a).

Lemma channel_thread_in cs id t : channel_thread cs id = Some t -> (id, t) ∈ cs.
Proof.
  induction cs as [| [i u] cs IH]; simpl; [done |]. destruct (N.eqb_spec i id) as [-> | _]; [intros [= ->]; by left | intros H; right; by apply IH].
Qed.

Lemma sent_by_message a m t : omap (sent_to t) (agent_message a m).2 =
  match message_input m with Some (id, i) => if bool_decide (channel_thread (ag_channels a) id = Some t) then [i] else [] | None => [] end.
Proof.
  assert (Hs : forall id i, omap (sent_to t) (send_input a id i) = if bool_decide (channel_thread (ag_channels a) id = Some t) then [i] else []).
  { intros id i. unfold send_input. destruct (channel_thread _ id) as [u |] eqn:Hu; [| by rewrite bool_decide_eq_false_2]. simpl.
    destruct (Nat.eqb_spec u t) as [-> | Hne]; [by rewrite bool_decide_eq_true_2 | by rewrite bool_decide_eq_false_2 by congruence]. }
  destruct m; simpl; try done; try apply Hs; try (by destruct pty); try (by destruct ok; apply Hs).
  specialize (Hs channel_id InEof). unfold send_input in Hs. by destruct (channel_thread _ channel_id).
Qed.

Lemma table_after a m id : channel_thread (ag_channels (agent_message a m).1) id =
  match message_opens m with
  | Some o => match channel_thread (ag_channels a) id with Some t => Some t | None => if (o =? id)%N then Some (ag_threads a) else None end
  | None => if bool_decide (message_ends m = Some id) then None else channel_thread (ag_channels a) id
  end.
Proof.
  assert (Hc : forall g, (if (g =? id)%N then None else channel_thread (ag_channels a) id) =
    if bool_decide (Some g = Some id) then None else channel_thread (ag_channels a) id).
  { intros g. destruct (N.eqb_spec g id) as [-> | Hg]; [by rewrite bool_decide_eq_true_2 | by rewrite bool_decide_eq_false_2 by congruence]. }
  destruct m; simpl; try done; try (rewrite channel_thread_app; simpl; done); rewrite channel_thread_retain; apply Hc.
Qed.

Lemma threads_after a m : ag_threads (agent_message a m).1 = match message_opens m with Some _ => S (ag_threads a) | None => ag_threads a end.
Proof. by destruct m. Qed.

(** A thread whose channel is gone is sent nothing more. *)
Lemma gone_channel_silent ms a t : t < ag_threads a -> (forall id, channel_thread (ag_channels a) id <> Some t) ->
  omap (sent_to t) (agent_loop a ms).2 = [].
Proof.
  revert a. induction ms as [| m ms IH]; intros a Ht Hn; simpl; [done |].
  destruct (agent_message a m) as [a1 e1] eqn:Hm. destruct (agent_loop a1 ms) as [a2 e2] eqn:Hl. simpl.
  pose proof (sent_by_message a m t) as Hs. rewrite Hm in Hs. simpl in Hs. rewrite omap_app, Hs.
  replace (match message_input m with Some (id, i) => if bool_decide (channel_thread (ag_channels a) id = Some t) then [i] else [] | None => [] end)
    with (@nil channel_input) by (destruct (message_input m) as [[id i] |]; [by rewrite bool_decide_eq_false_2 | done]).
  specialize (IH a1). rewrite Hl in IH. apply IH.
  - pose proof (threads_after a m) as Ha. rewrite Hm in Ha. simpl in Ha. rewrite Ha. destruct (message_opens m); lia.
  - intros id. pose proof (table_after a m id) as Ha. rewrite Hm in Ha. simpl in Ha. rewrite Ha.
    destruct (message_opens m) as [o |]; [| by case_bool_decide].
    destruct (channel_thread (ag_channels a) id) eqn:Hid; [by rewrite <- Hid |]. destruct (_ =? _)%N; [| done]. intros [= ?]. lia.
Qed.

(** C22: the thread of a channel is sent exactly the inputs of the messages
    for its id, in their order, up to the one that ends the channel, whatever
    messages for other channels are between them. *)
Theorem dispatch_exact ms a id t : t < ag_threads a -> channel_thread (ag_channels a) id = Some t ->
  (forall id', channel_thread (ag_channels a) id' = Some t -> id' = id) ->
  omap (sent_to t) (agent_loop a ms).2 = channel_inputs id ms.
Proof.
  revert a. induction ms as [| m ms IH]; intros a Ht Hid Hown; [done |]. cbn [agent_loop channel_inputs].
  destruct (agent_message a m) as [a1 e1] eqn:Hm. destruct (agent_loop a1 ms) as [a2 e2] eqn:Hl. cbn [snd].
  pose proof (sent_by_message a m t) as Hs. rewrite Hm in Hs. cbn [snd] in Hs. rewrite omap_app, Hs.
  pose proof (threads_after a m) as Hth. rewrite Hm in Hth. cbn [fst] in Hth.
  assert (Htab : forall i, channel_thread (ag_channels a1) i = _) by (intros i; pose proof (table_after a m i) as Ha; rewrite Hm in Ha; exact Ha).
  f_equal.
  - destruct (message_input m) as [[i input] |]; [| done]. destruct (N.eqb_spec i id) as [-> | Hne]; [by rewrite bool_decide_eq_true_2 |].
    rewrite bool_decide_eq_false_2; [done |]. intros Hi. by apply Hne, Hown.
  - assert (Ht1 : t < ag_threads a1) by (rewrite Hth; destruct (message_opens m); lia). case_bool_decide as He.
    + pose proof (gone_channel_silent ms a1 t Ht1) as Hg. rewrite Hl in Hg. apply Hg. intros i. rewrite Htab.
      replace (message_opens m) with (@None N) by (by destruct m). case_bool_decide as Hi; [done |]. intros Hc. apply Hown in Hc as ->. done.
    + specialize (IH a1 Ht1). rewrite Hl in IH. apply IH.
      * rewrite Htab, Hid. destruct (message_opens m); [done |]. by rewrite bool_decide_eq_false_2.
      * intros i. rewrite Htab. destruct (message_opens m) as [o |].
        -- destruct (channel_thread (ag_channels a) i) eqn:Hi; [intros [= ->]; by apply Hown |]. destruct (_ =? _)%N; [| done]. intros [= ?]. lia.
        -- case_bool_decide; [done | apply Hown].
Qed.

Lemma dispatch_exact_witness :
  omap (sent_to 3) (agent_loop (mk_agent [(5%N, 2); (9%N, 3)] 4)
    [Data 9 [x01]; Data 5 [x02]; OpenTcp 8 "h" 80; Eof 9; ErrorMsg 5 "e"; Close 9; Data 9 [x03]]).2 = [InData [x01]; InEof; InClose].
Proof.
  apply (dispatch_exact [Data 9 [x01]; Data 5 [x02]; OpenTcp 8 "h" 80; Eof 9; ErrorMsg 5 "e"; Close 9; Data 9 [x03]]
    (mk_agent [(5%N, 2); (9%N, 3)] 4) 9 3); [simpl; lia | done |].
  intros id'. cbn [channel_thread ag_channels]. destruct (N.eqb_spec 5 id'); [done |]. by destruct (N.eqb_spec 9 id').
Defined.

(** ** A command's report *)

(** A hangup has not been asked for. *)
Definition not_closed (t : pipe_turn) : Prop := Forall (fun i => i.1 <> InClose) (pt_inputs t).

(** What the first call of [waitpid] that found the command gone said. *)
Fixpoint wait_verdict (turns : list pipe_turn) : option Z :=
  match turns with
  | [] => None
  | t :: turns' =>
      match pt_wait t with
      | StillRunning => wait_verdict turns'
      | Exited status => Some status
      | NoChild => Some 0%Z
      | WaitError => Some (Z.shiftl 127 8)
      end
  end.

Definition is_report (m : message) : bool := match m with ExitStatus _ _ | Close _ | ErrorMsg _ _ => true | _ => false end.

(** What is sent only grows, and not by a report. *)
Definition extends (st st' : pipe_state) : Prop :=
  exists new, ps_sent st' = ps_sent st ++ new /\ Forall (fun m => is_report m = false) new.

#[local] Instance extends_preorder : PreOrder extends.
Proof.
  split; [intros st; exists []; by rewrite app_nil_r |]. intros a b c (n1 & H1 & F1) (n2 & H2 & F2). exists (n1 ++ n2).
  rewrite H2, H1, app_assoc. split; [done | by apply Forall_app].
Qed.

Lemma extends_same st st' : ps_sent st' = ps_sent st -> extends st st'.
Proof. intros H. exists []. by rewrite app_nil_r. Qed.

Lemma pipe_input_same st i : ps_sent (pipe_input st i) = ps_sent st /\ ps_exited (pipe_input st i) = ps_exited st /\
  (i.1 <> InClose -> ps_status (pipe_input st i) = ps_status st).
Proof. destruct i as [[] ok]; unfold pipe_input; simpl; repeat case_match; done. Qed.

Lemma pipe_inputs_same st l : ps_sent (pipe_inputs st l) = ps_sent st /\ ps_exited (pipe_inputs st l) = ps_exited st /\
  (Forall (fun i => i.1 <> InClose) l -> ps_status (pipe_inputs st l) = ps_status st).
Proof.
  revert st. induction l as [| i l IH]; intros st; [done |]. simpl. destruct (pipe_input_same st i) as (H1 & H2 & H3).
  case_bool_decide as Hc; [split_and!; try done; intros Hf; by apply Forall_cons in Hf as [? _] |].
  destruct (IH (pipe_input st i)) as (I1 & I2 & I3). rewrite I1, I2. split_and!; try done. intros Hf. apply Forall_cons in Hf as [_ Hf].
  rewrite I3 by done. by apply H3.
Qed.

Section report.
Context (channel_id : N).

Lemma drained_extends (f : bytes -> message) l : (forall b, is_report (f b) = false) -> Forall (fun m => is_report m = false) (f <$> l).
Proof. intros Hf. apply Forall_fmap, Forall_true. intros b. apply Hf. Qed.

(** The three steps that look at the streams and the control socket. *)
Definition pipe_look (st : pipe_state) (t : pipe_turn) : pipe_state :=
  let st := match pt_stdout t with Some d => if ps_stdout_eof st then st else drain_stdout channel_id st d | None => st end in
  let st := match pt_stderr t with Some d => if ps_stderr_eof st then st else drain_stderr channel_id st d | None => st end in
  match pt_control t with Some r => if ps_pending st then st else take_control channel_id st r | None => st end.

Lemma pipe_look_extends st t : extends st (pipe_look st t) /\ ps_status (pipe_look st t) = ps_status st /\ ps_exited (pipe_look st t) = ps_exited st.
Proof.
  unfold pipe_look. set (s1 := match pt_stdout t with Some d => _ | None => _ end).
  assert (H1 : extends st s1 /\ ps_status s1 = ps_status st /\ ps_exited s1 = ps_exited st).
  { unfold s1. destruct (pt_stdout t); [| done]. destruct (ps_stdout_eof st); [done |]. split_and!; try done. eexists. split; [done | by apply drained_extends]. }
  clearbody s1. set (s2 := match pt_stderr t with Some d => _ | None => _ end).
  assert (H2 : extends s1 s2 /\ ps_status s2 = ps_status s1 /\ ps_exited s2 = ps_exited s1).
  { unfold s2. destruct (pt_stderr t); [| done]. destruct (ps_stderr_eof s1); [done |]. split_and!; try done. eexists. split; [done | by apply drained_extends]. }
  clearbody s2. destruct H1 as (E1 & S1 & X1), H2 as (E2 & S2 & X2).
  destruct (pt_control t) as [r |]; [destruct (ps_pending s2) |]; simpl; rewrite ?S2, ?X2, ?S1, ?X1; split_and!; try done; try (by etrans).
  etrans; [by etrans |]. eexists. split; [done |]. constructor; [by destruct r | done].
Qed.

(** The command is gone, as the call of [waitpid] of the turn says. *)
Definition found (st : pipe_state) (t : pipe_turn) : option Z :=
  match pt_wait t with
  | StillRunning => None
  | Exited status => Some status
  | NoChild => Some (ps_status st)
  | WaitError => Some (Z.shiftl 127 8)
  end.

Lemma pipe_step_facts st t : extends st (pipe_step channel_id st t) /\
  (not_closed t ->
   if ps_exited st then ps_exited (pipe_step channel_id st t) = true /\ ps_status (pipe_step channel_id st t) = ps_status st
   else match found st t with
        | Some s => ps_exited (pipe_step channel_id st t) = true /\ ps_status (pipe_step channel_id st t) = s
        | None => ps_exited (pipe_step channel_id st t) = false /\ ps_status (pipe_step channel_id st t) = ps_status st
        end).
Proof.
  unfold pipe_step. fold (pipe_look st t). destruct (pipe_look_extends st t) as (E1 & S1 & X1).
  set (s2 := pipe_inputs (pipe_look st t) (pt_inputs t)). destruct (pipe_inputs_same (pipe_look st t) (pt_inputs t)) as (E2 & X2 & S2).
  fold s2 in E2, X2, S2. set (s3 := pipe_latch s2 (pt_latched t)).
  assert (H3 : ps_sent s3 = ps_sent s2 /\ ps_exited s3 = ps_exited s2 /\ ps_status s3 = ps_status s2).
  { unfold s3, pipe_latch. by destruct (_ && _). }
  destruct H3 as (E3 & X3 & S3). set (s4 := pipe_wait s3 (pt_wait t)).
  assert (H4 : ps_sent s4 = ps_sent s3) by (unfold s4, pipe_wait; repeat case_match; done).
  assert (E : extends st s4) by (etrans; [exact E1 | apply extends_same; congruence]). split.
  - destruct (ps_exited s4); [| done]. etrans; [exact E |].
    assert (Hd : forall s d d', extends s (drain_stderr channel_id (drain_stdout channel_id s d) d')).
    { intros s d d'. eexists. simpl. rewrite <- app_assoc. split; [done |]. apply Forall_app. split; by apply drained_extends. }
    destruct (ps_stdin s4); (etrans; [| apply Hd]); by apply extends_same.
  - intros Hn. specialize (S2 Hn). assert (Hst : forall b, ps_status (if b : bool then
        drain_stderr channel_id (drain_stdout channel_id (if ps_stdin s4 then set_stdin s4 false (ps_written s4) else s4) (pt_last_stdout t)) (pt_last_stderr t)
      else s4) = ps_status s4 /\ ps_exited (if b then
        drain_stderr channel_id (drain_stdout channel_id (if ps_stdin s4 then set_stdin s4 false (ps_written s4) else s4) (pt_last_stdout t)) (pt_last_stderr t)
      else s4) = ps_exited s4) by (intros []; [by destruct (ps_stdin s4) | done]).
    destruct (Hst (ps_exited s4)) as [-> ->]. unfold s4, pipe_wait, found. rewrite X3, X2, X1.
    destruct (ps_exited st) eqn:Hx; [split; congruence |]. destruct (pt_wait t); simpl; split; congruence.
Qed.

Lemma pipe_loop_facts turns st st' : pipe_loop channel_id st turns = Some st' -> extends st st' /\
  (Forall not_closed turns ->
   if ps_exited st then ps_status st' = ps_status st else ps_status st = 0%Z -> wait_verdict turns = Some (ps_status st')).
Proof.
  revert st. induction turns as [| t turns IH]; intros st; simpl; [done |]. destruct (pipe_step_facts st t) as [E H].
  set (s1 := pipe_step channel_id st t) in *. destruct (pipe_done s1) eqn:Hd.
  - intros [= <-]. split; [done |]. intros Hn. apply Forall_cons in Hn as [Hn _]. specialize (H Hn). unfold pipe_done in Hd.
    apply andb_true_iff in Hd as [Hd _]. apply andb_true_iff in Hd as [Hd _]. unfold found in H.
    destruct (ps_exited st); [by destruct H |]. intros H0. destruct (pt_wait t); destruct H as [Hx Hs]; congruence.
  - intros Hl. destruct (IH s1 Hl) as [E' H']. split; [by etrans |]. intros Hn. apply Forall_cons in Hn as [Hn Hns]. specialize (H Hn). specialize (H' Hns).
    unfold found in H. destruct (ps_exited st); [destruct H as [Hx Hs]; rewrite Hx in H'; congruence |].
    intros H0. destruct (pt_wait t); destruct H as [Hx Hs]; rewrite Hx in H'; [apply H'; congruence | congruence..].
Qed.
End report.

Lemma pipe_reported channel_id turns ms : run_channel_pipe channel_id true turns = Some ms ->
  exists body status, ms = ExecStarted channel_id :: body ++ [ExitStatus channel_id (exit_status status); Close channel_id] /\
    Forall (fun m => is_report m = false) body /\ (Forall not_closed turns -> wait_verdict turns = Some status).
Proof.
  unfold run_channel_pipe. simpl. destruct (pipe_loop channel_id (pipe_start channel_id) turns) as [st |] eqn:Hl; [| done].
  intros [= <-]. destruct (pipe_loop_facts channel_id turns _ _ Hl) as [(new & Hs & Hf) Hv]. exists new, (ps_status st). rewrite Hs.
  split_and!; [done | done |]. intros Hn. by apply Hv.
Qed.

(** A command whose loop ends is reported once: its start, its output,
    and then, after everything else, the status that [waitpid] gave for it and
    the end of the channel. *)
Theorem command_reported_once channel_id turns ms : run_channel_pipe channel_id true turns = Some ms ->
  exists body status, ms = ExecStarted channel_id :: body ++ [ExitStatus channel_id (exit_status status); Close channel_id] /\
    Forall (fun m => is_report m = false) body /\ (Forall not_closed turns -> wait_verdict turns = Some status).
Proof. apply pipe_reported. Qed.

Lemma command_reported_once_witness : exists ms, run_channel_pipe 4 true
    [mk_pipe_turn (Some (mk_drained [[x01]] false)) None None [(InData [x09], true)] true StillRunning (mk_drained [] false) (mk_drained [] false);
     mk_pipe_turn None None None [] false (Exited 768) (mk_drained [[x02]] true) (mk_drained [] true)] = Some ms /\
  exists body, ms = ExecStarted 4 :: body ++ [ExitStatus 4 3; Close 4].
Proof.
  eexists. split; [vm_compute; reflexivity |].
  destruct (command_reported_once 4 [mk_pipe_turn (Some (mk_drained [[x01]] false)) None None [(InData [x09], true)] true StillRunning (mk_drained [] false) (mk_drained [] false);
     mk_pipe_turn None None None [] false (Exited 768) (mk_drained [[x02]] true) (mk_drained [] true)] _ eq_refl) as (body & status & H1 & _ & H2).
  exists body. assert (Hs : status = 768%Z). { specialize (H2 ltac:(repeat constructor; done)). by injection H2. } subst status. exact H1.
Defined.
