(* ===== verification/GuestExecTheorems.v ===== *)
(** What holds of the environments, the control frames and the numbers of the
    guest agent (src/guest-agent/src/main.rs). *)

From S2P Require Import Prelude Codec FileSystem Text Protocol Paths Snapshots SnapshotTheorems CliTheorems Cas CasTheorems GuestUser GuestExec.

(** ** The environment of a command *)

(** The value of a variable: of the first entry that begins with its name. *)
Fixpoint env_value (storage : list string) (name : string) : option string :=
  match storage with
  | [] => None
  | e :: storage' => match strip_prefix (name +:+ "=") e with Some v => Some v | None => env_value storage' name end
  end.

(** How many entries begin with a name. *)
Definition env_count (storage : list string) (name : string) : nat := length (base.filter (fun e => starts_with (name +:+ "=") e = true) storage).

Lemma starts_with_strip a s : starts_with a s = bool_decide (is_Some (strip_prefix a s)).
Proof.
  unfold starts_with. revert s. induction a as [| c a IH]; intros s; simpl; [by destruct s |]. destruct s as [| d s]; [done |].
  change (String.prefix (String c a) (String d s)) with (if ascii_dec c d then String.prefix a s else false).
  destruct (ascii_dec c d) as [-> | Hn]; [rewrite Ascii.eqb_refl; apply IH |]. by rewrite (proj2 (Ascii.eqb_neq c d) Hn).
Qed.

(** Two names without [=] do not begin the same entry. *)
Lemma names_apart a b s t : no_char "=" a -> no_char "=" b -> a +:+ "=" +:+ s = b +:+ "=" +:+ t -> a = b.
Proof.
  unfold no_char. revert b. induction a as [| c a IH]; intros [| d b] Ha Hb; simpl; rewrite ?contains_char_cons in *; try done.
  - intros [= <- _]. by rewrite Ascii.eqb_refl in Hb.
  - intros [= -> _]. by rewrite Ascii.eqb_refl in Ha.
  - apply orb_false_iff in Ha as [_ Ha], Hb as [_ Hb]. intros [= -> H]. f_equal. by apply IH.
Qed.

Definition entry_of_name (name value : string) : string := name +:+ "=" +:+ value.

Lemma strip_entry n m v : no_char "=" n -> no_char "=" m ->
  strip_prefix (n +:+ "=") (entry_of_name m v) = if bool_decide (n = m) then Some v else None.
Proof.
  intros Hn Hm. case_bool_decide as He; [subst; unfold entry_of_name; rewrite <- string_app_assoc; apply strip_prefix_app |].
  destruct (strip_prefix _ _) as [t |] eqn:Hs; [| done]. apply strip_prefix_Some in Hs. unfold entry_of_name in Hs. rewrite string_app_assoc in Hs.
  by apply names_apart in Hs.
Qed.

(** An environment of entries with names, each of them once. *)
Definition proper_env (kvs : list (string * string)) : Prop := NoDup kvs.*1 /\ Forall (fun kv => no_char "=" kv.1) kvs.

Definition entries_of (kvs : list (string * string)) : list string := (fun kv => entry_of_name kv.1 kv.2) <$> kvs.

Fixpoint assoc (kvs : list (string * string)) (name : string) : option string :=
  match kvs with [] => None | kv :: kvs' => if bool_decide (kv.1 = name) then Some kv.2 else assoc kvs' name end.

Lemma setenv_keys kvs n v : (setenv kvs n v).*1 = if bool_decide (n ∈ kvs.*1) then kvs.*1 else kvs.*1 ++ [n].
Proof.
  induction kvs as [| [k w] kvs IH]; [done |]. cbn [setenv fmap list_fmap fst].
  destruct (decide (k = n)) as [-> | Hk].
  - rewrite bool_decide_eq_true_2 by done. cbn [fmap list_fmap fst]. by rewrite bool_decide_eq_true_2 by apply elem_of_cons, or_introl, eq_refl.
  - rewrite bool_decide_eq_false_2 by done. cbn [fmap list_fmap fst]. rewrite IH. destruct (decide (n ∈ kvs.*1)) as [H | H].
    + rewrite !bool_decide_eq_true_2; [done | by apply elem_of_cons, or_intror | done].
    + rewrite !bool_decide_eq_false_2; [done | by intros [? | ?]%elem_of_cons | done].
Qed.

Lemma proper_set kvs n v : no_char "=" n -> proper_env kvs -> proper_env (setenv kvs n v).
Proof.
  intros Hn [H1 H2]. split.
  - rewrite setenv_keys. case_bool_decide as Hk; [done |]. apply NoDup_app. split_and!; [done | | apply NoDup_singleton].
    intros x Hx ->%list_elem_of_singleton. done.
  - clear H1. induction H2 as [| kv kvs Hk Hks IH]; simpl; [by constructor |]. case_bool_decide; by constructor.
Qed.

Lemma assoc_of_setenv kvs n v m : assoc (setenv kvs n v) m = if bool_decide (n = m) then Some v else assoc kvs m.
Proof.
  induction kvs as [| [k w] kvs IH]; simpl; [done |]. destruct (decide (k = n)) as [-> | Hk].
  - rewrite bool_decide_eq_true_2 by done. simpl. by case_bool_decide.
  - rewrite (bool_decide_eq_false_2 (k = n)) by done. simpl. rewrite IH. case_bool_decide as H1; [| done].
    rewrite bool_decide_eq_false_2; [done | congruence].
Qed.

Lemma push_env_entries kvs n v : no_char "=" n -> proper_env kvs ->
  push_env (entries_of kvs) n v = if contains_char "000" (n +:+ "=" +:+ v) then entries_of kvs else entries_of (setenv kvs n v).
Proof.
  intros Hn [_ Hp]. unfold push_env, cstring. destruct (contains_char _ _); [done |].
  assert (Hr : replace_entry (n +:+ "=") (n +:+ "=" +:+ v) (entries_of kvs) =
    if bool_decide (n ∈ kvs.*1) then Some (entries_of (setenv kvs n v)) else None).
  { induction Hp as [| [k w] kvs Hk _ IH]; [done |]. cbn [entries_of fmap list_fmap replace_entry fst snd]. fold (entries_of kvs).
    rewrite starts_with_strip, strip_entry by done. cbn [setenv fst]. destruct (decide (n = k)) as [-> | Hne].
    - rewrite !(bool_decide_eq_true_2 (k = k)) by done. rewrite bool_decide_eq_true_2 by (by eexists). by rewrite bool_decide_eq_true_2 by apply elem_of_cons, or_introl, eq_refl.
    - rewrite (bool_decide_eq_false_2 (n = k)) by done. rewrite bool_decide_eq_false_2 by (by intros [? ?]). rewrite IH.
      rewrite (bool_decide_eq_false_2 (k = n)) by done. case_bool_decide as H1.
      + by rewrite bool_decide_eq_true_2 by (by apply elem_of_cons, or_intror).
      + rewrite bool_decide_eq_false_2; [done |]. by intros [? | ?]%elem_of_cons. }
  rewrite Hr. case_bool_decide as Hin; [done |]. assert (Ha : setenv kvs n v = kvs ++ [(n, v)]).
  { clear Hr Hp. induction kvs as [| [k w] kvs IH]; [done |]. simpl in *. apply not_elem_of_cons in Hin as [Hk Hin].
    rewrite bool_decide_eq_false_2 by done. by rewrite IH. }
  rewrite Ha. unfold entries_of. by rewrite fmap_app.
Qed.

Lemma env_value_entries kvs n : no_char "=" n -> proper_env kvs -> env_value (entries_of kvs) n = assoc kvs n.
Proof.
  intros Hn [_ Hp]. induction Hp as [| [k w] kvs Hk _ IH]; [done |]. cbn [entries_of fmap list_fmap env_value assoc fst snd]. fold (entries_of kvs).
  rewrite strip_entry by done. destruct (decide (n = k)) as [-> | Hne]; [by rewrite !bool_decide_eq_true_2 |].
  by rewrite (bool_decide_eq_false_2 (n = k)), (bool_decide_eq_false_2 (k = n)).
Qed.

(** ** Which value a variable has *)

(** A pair that can be in an environment. *)
Definition settable (kv : string * string) : bool := is_env_name kv.1 && negb (contains_char "000" kv.2).

Definition set_settable (kvs : list (string * string)) (kv : string * string) : list (string * string) :=
  if settable kv then setenv kvs kv.1 kv.2 else kvs.

(** The values a list of pairs gives a variable, in order. *)
Definition values_for (n : string) (l : list (string * string)) : list string :=
  omap (fun kv => if settable kv && bool_decide (kv.1 = n) then Some kv.2 else None) l.

Lemma assoc_of_settable l kvs n : assoc (foldl set_settable kvs l) n = match last (values_for n l) with Some v => Some v | None => assoc kvs n end.
Proof.
  induction l as [| kv l IH] using rev_ind; [done |]. rewrite foldl_snoc. unfold values_for in *. rewrite omap_app. unfold set_settable at 1. simpl.
  destruct (settable kv); simpl; [| by rewrite app_nil_r]. rewrite assoc_of_setenv. destruct (decide (kv.1 = n)) as [He | He].
  - rewrite !bool_decide_eq_true_2 by done. by rewrite last_snoc.
  - rewrite !bool_decide_eq_false_2 by done. by rewrite app_nil_r.
Qed.

Lemma env_name_chars n : is_env_name n = true -> no_char "=" n /\ no_char "000" n.
Proof. unfold is_env_name, no_char. rewrite !andb_true_iff, !negb_true_iff. tauto. Qed.

Lemma proper_settable l kvs : proper_env kvs -> proper_env (foldl set_settable kvs l).
Proof.
  revert kvs. induction l as [| kv l IH]; intros kvs Hp; [done |]. simpl. apply IH. unfold set_settable, settable.
  destruct (is_env_name kv.1) eqn:Hn; simpl; [| done]. destruct (contains_char _ _); simpl; [done |]. apply proper_set; [by apply env_name_chars | done].
Qed.

Lemma push_forwarded_settable kvs kv : proper_env kvs -> push_forwarded (entries_of kvs) kv = entries_of (set_settable kvs kv).
Proof.
  intros Hp. unfold push_forwarded, set_settable, settable. destruct (is_env_name kv.1) eqn:Hn; simpl; [| done].
  destruct (env_name_chars _ Hn) as [H1 H2]. rewrite push_env_entries by done. unfold no_char in H2.
  rewrite !contains_char_app, H2. simpl. by destruct (contains_char "000" kv.2).
Qed.

Lemma push_all_forwarded l kvs : proper_env kvs -> foldl push_forwarded (entries_of kvs) l = entries_of (foldl set_settable kvs l).
Proof.
  revert kvs. induction l as [| kv l IH]; intros kvs Hp; [done |]. simpl. rewrite push_forwarded_settable by done. apply IH.
  by apply (proper_settable [kv]).
Qed.

Lemma set_env_settable env n v : is_env_name n = true -> set_env env n v = set_settable env (n, v).
Proof.
  intros Hn. destruct (env_name_chars _ Hn) as [_ H2]. unfold set_env, set_settable, settable, cstring. unfold no_char in H2. simpl.
  rewrite H2, Hn. by destruct (contains_char "000" v).
Qed.

Lemma no_env : proper_env [].
Proof. split; [apply NoDup_nil_2 | done]. Qed.

Lemma child_env_settable env channel_id control_socket :
  child_env env channel_id control_socket = entries_of (foldl set_settable [] (child_defaults channel_id control_socket ++ env)).
Proof.
  unfold child_env. rewrite foldl_app, <- push_all_forwarded by apply proper_settable, no_env. f_equal.
  rewrite <- push_all_forwarded by apply no_env. reflexivity.
Qed.

Lemma entries_once kvs n : no_char "=" n -> proper_env kvs -> env_count (entries_of kvs) n <= 1.
Proof.
  intros Hn [Hd Hp]. unfold env_count. induction Hp as [| [k w] kvs Hk Hks IH]; [simpl; lia |]. cbn [fmap list_fmap fst] in Hd.
  apply NoDup_cons in Hd as [Hd1 Hd2]. cbn [entries_of fmap list_fmap fst snd]. fold (entries_of kvs). rewrite filter_cons, starts_with_strip, strip_entry by done.
  destruct (decide (n = k)) as [-> | Hne]; [| rewrite (bool_decide_eq_false_2 (n = k)) by done; rewrite decide_False; [by apply IH |]].
  - rewrite (bool_decide_eq_true_2 (k = k)) by done. rewrite decide_True by (by rewrite bool_decide_eq_true_2 by (by eexists)). simpl.
    assert (Hnone : base.filter (fun e => starts_with (k +:+ "=") e = true) (entries_of kvs) = []).
    { clear IH Hd2. induction Hks as [| [j u] kvs Hj _ IH]; [done |]. cbn [fmap list_fmap fst] in Hd1. apply not_elem_of_cons in Hd1 as [Hjk Hd1].
      cbn [entries_of fmap list_fmap fst snd]. fold (entries_of kvs). rewrite filter_cons, starts_with_strip, strip_entry by done.
      rewrite (bool_decide_eq_false_2 (k = j)) by done. rewrite decide_False; [by apply IH | by rewrite bool_decide_eq_false_2 by (by intros [? ?])]. }
    rewrite Hnone. simpl. lia.
  - by rewrite bool_decide_eq_false_2 by (by intros [? ?]).
Qed.

(** What is set for a command with a terminal, in order. *)
Definition pty_settings (term colorterm : string) (env : list (string * string)) (channel_id : N) (control_socket : string)
    : list (string * string) :=
  [("TERM", term)] ++ (if bool_decide (colorterm = EmptyString) then [] else [("COLORTERM", colorterm)]) ++
  take 5 (child_defaults channel_id control_socket) ++ env ++ drop 5 (child_defaults channel_id control_socket).

Lemma pty_env_settable inherited term colorterm env channel_id control_socket :
  pty_env inherited term colorterm env channel_id control_socket = foldl set_settable inherited (pty_settings term colorterm env channel_id control_socket).
Proof.
  unfold pty_env, pty_settings. rewrite !foldl_app. cbn [child_defaults take drop foldl].
  rewrite !(set_env_settable _ "LNX_REQUEST_ID"), !(set_env_settable _ CONTROL_SOCKET_ENV), (set_env_settable _ "TERM") by done.
  assert (Hf : forall e, set_forwarded_environment e env = foldl set_settable e env).
  { induction env as [| kv env IH]; intros e; [done |]. simpl. rewrite IH. f_equal. destruct (is_env_name kv.1) eqn:Hn.
    - rewrite set_env_settable by done. by destruct kv.
    - unfold set_settable, settable. by rewrite Hn. }
  rewrite Hf. unfold set_default_exec_environment. cbn [foldl fst snd]. rewrite !(set_env_settable _ "PATH"), !(set_env_settable _ "HOME"),
    !(set_env_settable _ "USER"), !(set_env_settable _ "LOGNAME"), !(set_env_settable _ "BROWSER") by done.
  case_bool_decide; [done |]. by rewrite (set_env_settable _ "COLORTERM").
Qed.

(** A variable of a command without a terminal has the last value that
    its defaults and then the host give it, and is set once; with a terminal
    the command's own request and socket come after what the host gives, and
    what is not set at all is inherited. *)
Theorem command_environment env inherited term colorterm channel_id control_socket n : no_char "=" n ->
  env_value (child_env env channel_id control_socket) n = last (values_for n (child_defaults channel_id control_socket ++ env)) /\
  env_count (child_env env channel_id control_socket) n <= 1 /\
  assoc (pty_env inherited term colorterm env channel_id control_socket) n =
    match last (values_for n (pty_settings term colorterm env channel_id control_socket)) with Some v => Some v | None => assoc inherited n end.
Proof.
  intros Hn. assert (Hp : proper_env (foldl set_settable [] (child_defaults channel_id control_socket ++ env))) by apply proper_settable, no_env.
  rewrite child_env_settable, pty_env_settable. split_and!.
  - rewrite env_value_entries by done. rewrite assoc_of_settable. by destruct (last _).
  - by apply entries_once.
  - apply assoc_of_settable.
Qed.

Lemma command_environment_witness :
  env_value (child_env [("PATH", "/custom/bin"); ("LNX_REQUEST_ID", "7")] 18 "/s") "LNX_REQUEST_ID" = Some "7" /\
  assoc (pty_env [("PATH", "/bin"); ("A", "b")] "xterm" EmptyString [("PATH", "/custom/bin"); ("LNX_REQUEST_ID", "7")] 18 "/s") "LNX_REQUEST_ID" = Some "0000000000000012".
Proof.
  destruct (command_environment [("PATH", "/custom/bin"); ("LNX_REQUEST_ID", "7")] [("PATH", "/bin"); ("A", "b")] "xterm" EmptyString 18 "/s" "LNX_REQUEST_ID" eq_refl)
    as (H1 & _ & H2). rewrite H1, H2. by split.
Defined.

(** ** Control frames *)

Lemma to_bytes_length s : length (to_bytes s) = String.length s.
Proof. unfold to_bytes. induction s as [| c s IH]; [done |]. cbn [String.list_byte_of_string length String.length]. by rewrite <- IH. Qed.

(** What a program in the guest asks for is what the agent is asked: the
    frames of [xdg-open] and [lnxctl] are accepted as the requests they were
    made for, and their answers end them with the right status. *)
Theorem control_requests_arrive args s : 
  (xdg_open_mode args = inl s -> exists url, args !! 1 = Some url /\ (utf8_valid url = true -> accept_channel_control s = Some (ControlOpenUrl url))) /\
  (lnxctl_mode args = inl s -> accept_channel_control s = Some ControlSnapshotExit) /\
  forall ok, read_local_control_response (complete_pending_control true ok) = if ok : bool then 0%Z else 125%Z.
Proof.
  split_and!.
  - unfold xdg_open_mode. destruct (args !! 1) as [url |]; [| done]. case_bool_decide as Hc; simpl; [| done].
    destruct (N.ltb_spec MAX_CONTROL_PAYLOAD (N.of_nat (String.length url))) as [| Hl]; [done |]. intros [= <-]. exists url. split; [done |]. intros Hu.
    assert (Hlen : length (to_bytes url) = String.length url) by apply to_bytes_length.
    assert (Hb : (N.of_nat (length (to_bytes url)) < 2 ^ 32)%N) by (rewrite Hlen; change (2 ^ 32)%N with 4294967296%N; change MAX_CONTROL_PAYLOAD with 16384%N in Hl; lia).
    unfold write_frame. cbn [app]. unfold accept_channel_control. rewrite N.mod_small, read_u32_header by done.
    assert (H1 : (1 <= N.of_nat (length (to_bytes url)))%N) by (rewrite Hlen; destruct url; [by destruct Hc |]; simpl; lia).
    rewrite bool_decide_eq_false_2 by done. cbn [andb]. rewrite bool_decide_eq_true_2 by done. rewrite (proj2 (N.leb_le _ _) H1). rewrite Hlen at 1. rewrite (proj2 (N.leb_le _ _) Hl).
    cbn [andb]. unfold read_exact. rewrite N.ltb_irrefl, Nat2N.id, firstn_all. by rewrite of_to_bytes, Hu.
  - unfold lnxctl_mode. case_bool_decide; [| done]. intros [= <-]. reflexivity.
  - by intros [].
Qed.

Lemma control_requests_arrive_witness : exists s, xdg_open_mode ["xdg-open"; "https://x"] = inl s /\
  accept_channel_control s = Some (ControlOpenUrl "https://x").
Proof.
  eexists. split; [reflexivity |]. destruct (control_requests_arrive ["xdg-open"; "https://x"] (write_frame FRAME_CONTROL_OPEN_URL (to_bytes "https://x"))) as (H & _ & _).
  destruct (H eq_refl) as (url & [= <-] & Hu). apply Hu. vm_compute. reflexivity.
Defined.

(** ** Numbers without memory *)

Lemma decimal_digits_pretty fuel v acc : (0 < v)%N -> (v < 10 ^ N.of_nat fuel)%N -> decimal_digits fuel v acc = pretty_N_go v acc.
Proof.
  revert v acc. induction fuel as [| fuel IH]; intros v acc Hv Hb; [change (10 ^ N.of_nat 0)%N with 1%N in Hb; lia |].
  rewrite pretty_N_go_step by done. cbn [decimal_digits]. assert (Hd : digit_char (v `mod` 10) = pretty_N_char (v `mod` 10)).
  { assert (Hm : (v `mod` 10 < 10)%N) by (apply N.mod_lt; lia). revert Hm. generalize (v `mod` 10)%N. intros d Hd.
    assert (Hc : (d = 0 \/ d = 1 \/ d = 2 \/ d = 3 \/ d = 4 \/ d = 5 \/ d = 6 \/ d = 7 \/ d = 8 \/ d = 9)%N) by lia.
    by destruct Hc as [-> | [-> | [-> | [-> | [-> | [-> | [-> | [-> | [-> | ->]]]]]]]]]. }
  rewrite Hd. destruct (N.eqb_spec (v / 10) 0) as [H0 | H0]; [by rewrite H0, pretty_N_go_0 |]. apply IH; [by apply N.neq_0_lt_0 |].
  rewrite Nat2N.inj_succ, N.pow_succ_r in Hb by lia. apply N.Div0.div_lt_upper_bound. lia.
Qed.

(** The number a child writes digit by digit, without allocating, is the
    decimal text of the number: its buffer is never too short. *)
Theorem write_decimal_exact v : (v < 2 ^ 64)%N -> write_decimal v = pretty v.
Proof.
  intros Hv. unfold write_decimal. destruct (decide (v = 0)%N) as [-> | H0]; [done |].
  assert (Hb : (v < 10 ^ N.of_nat 20)%N) by (etrans; [exact Hv | by vm_compute]).
  rewrite decimal_digits_pretty by (done || lia). unfold pretty, pretty_N. by rewrite decide_False.
Qed.

Lemma write_decimal_exact_witness : write_decimal 18446744073709551615 = "18446744073709551615".
Proof. rewrite (write_decimal_exact 18446744073709551615) by (by vm_compute). by vm_compute. Defined.
