(* ===== verification/GuestNetTheorems.v ===== *)
(** What holds of the requests to the kernel and of the port reports of the
    guest agent (src/guest-agent/src/main.rs). *)

From S2P Require Import Prelude Codec FileSystem Text Protocol Snapshots CliTheorems GuestNet.

(** ** Netlink messages *)

(** An attribute as the kernel reads it: its length, its type, its data, and
    zeros up to a multiple of four bytes. *)
Definition attr_bytes (a : N * bytes) : bytes :=
  to_le_bytes 2 (N.of_nat (4 + length a.2)) ++ to_le_bytes 2 a.1 ++ a.2 ++ replicate (align4 (length a.2) - length a.2) x00.

Definition attrs_bytes (attrs : list (N * bytes)) : bytes := concat (attr_bytes <$> attrs).

Lemma le_bytes_length w n : length (to_le_bytes w n) = w.
Proof. revert n. induction w as [| w IH]; intros n; simpl; [done |]. by rewrite IH. Qed.

Lemma align4_ge n : n <= align4 n.
Proof. unfold align4. pose proof (Nat.div_mod_eq (n + 3) 4). pose proof (Nat.mod_upper_bound (n + 3) 4). lia. Qed.

Lemma align4_add4 n : align4 (4 + n) = 4 + align4 n.
Proof. unfold align4. replace (4 + n + 3) with (n + 3 + 1 * 4) by lia. rewrite Nat.div_add by lia. lia. Qed.

Lemma align4_multiple k : align4 (4 * k) = 4 * k.
Proof. unfold align4. rewrite (Nat.mul_comm 4 k), Nat.add_comm, Nat.div_add by lia. simpl. lia. Qed.

Lemma align4_is_multiple n : exists k, align4 n = 4 * k.
Proof. unfold align4. exists ((n + 3) / 4). lia. Qed.

Lemma attr_bytes_length a : length (attr_bytes a) = align4 (4 + length a.2).
Proof.
  unfold attr_bytes. rewrite !length_app, !le_bytes_length, length_replicate, align4_add4. pose proof (align4_ge (length a.2)). lia.
Qed.

(** Writing where only zeros are. *)
Lemma put_at_end pre n data : length data <= n ->
  put_bytes (pre ++ replicate n x00) (length pre) data = inl (pre ++ data ++ replicate (n - length data) x00).
Proof.
  intros Hd. unfold put_bytes. rewrite length_app, length_replicate. destruct (Nat.ltb_spec (length pre + n) (length pre + length data)); [lia |].
  rewrite take_app_length. f_equal. f_equal. f_equal. rewrite drop_app. rewrite drop_ge by lia. simpl.
  replace (length pre + length data - length pre) with (length data) by lia. by rewrite drop_replicate.
Qed.

Lemma add_attr_exact pre n k a : length pre = 4 * k -> length (attr_bytes a) <= n -> length pre + n <= BUFFER ->
  add_netlink_attr (pre ++ replicate n x00, length pre) a =
  inl (pre ++ attr_bytes a ++ replicate (n - length (attr_bytes a)) x00, length pre + length (attr_bytes a)).
Proof.
  intros Hk Hn Hb. rewrite attr_bytes_length in *. unfold add_netlink_attr. rewrite Hk, align4_multiple, <- Hk. unfold BUFFER in Hb.
  pose proof (align4_ge (4 + length a.2)) as Hge. destruct (N.ltb_spec 65535 (N.of_nat (4 + length a.2))); [lia |].
  rewrite length_app, length_replicate. destruct (Nat.ltb_spec (length pre + n) (length pre + align4 (4 + length a.2))); [lia |].
  set (head := to_le_bytes 2 (N.of_nat (4 + length a.2)) ++ to_le_bytes 2 a.1).
  assert (Hh : length head = 4) by (unfold head; by rewrite length_app, !le_bytes_length).
  rewrite put_at_end by (rewrite Hh; lia). rewrite Hh, (app_assoc pre head).
  replace (length pre + 4) with (length (pre ++ head)) by (rewrite length_app, Hh; lia). rewrite put_at_end by lia. f_equal. f_equal.
  unfold attr_bytes. fold head. rewrite (app_assoc (to_le_bytes 2 _)). fold head. rewrite <- !app_assoc. do 3 f_equal.
  rewrite <- replicate_add. f_equal. rewrite align4_add4 in *. pose proof (align4_ge (length a.2)). lia.
Qed.

Lemma add_attrs_exact attrs pre n k : length pre = 4 * k -> length (attrs_bytes attrs) <= n -> length pre + n <= BUFFER ->
  add_netlink_attrs (pre ++ replicate n x00, length pre) attrs =
  inl (pre ++ attrs_bytes attrs ++ replicate (n - length (attrs_bytes attrs)) x00, length pre + length (attrs_bytes attrs)).
Proof.
  revert pre n k. induction attrs as [| a attrs IH]; intros pre n k Hk Hn Hb; cbn [add_netlink_attrs].
  - unfold attrs_bytes. simpl. by rewrite Nat.sub_0_r, Nat.add_0_r.
  - unfold attrs_bytes in *. cbn [fmap list_fmap concat] in *. rewrite length_app in *.
    rewrite (add_attr_exact pre n k) by (done || lia). destruct (align4_is_multiple (4 + length a.2)) as [j Hj].
    rewrite app_assoc, <- length_app. rewrite (IH _ _ (k + j)) by (rewrite ?length_app, ?attr_bytes_length in *; lia).
    rewrite length_app, <- !app_assoc. do 2 f_equal; [| lia]. do 4 f_equal. lia.
Qed.

(** A request to the kernel that fits its buffer is exactly the header,
    with the length of the whole, then the payload, then each attribute in
    order, aligned to four bytes. *)
Theorem netlink_message_exact ty flags seq payload attrs k : length payload = 4 * k ->
  16 + length payload + length (attrs_bytes attrs) <= BUFFER ->
  netlink_message ty flags seq payload attrs =
  inl (hdr_bytes (mk_hdr (N.of_nat (16 + length payload + length (attrs_bytes attrs))) ty flags seq 0) ++ payload ++ attrs_bytes attrs).
Proof.
  intros Hk Hb. unfold netlink_message. set (z := replicate 16 x00).
  assert (Hz : replicate BUFFER x00 = z ++ replicate (BUFFER - 16) x00) by (unfold z; by rewrite <- replicate_add).
  pose proof (put_at_end z (BUFFER - 16) payload ltac:(lia)) as Hput. change (length z) with 16 in Hput. rewrite Hz, Hput, app_assoc.
  replace (16 + length payload) with (length (z ++ payload)) by (by rewrite length_app).
  rewrite (add_attrs_exact attrs _ _ (4 + k)) by (rewrite ?length_app; change (length z) with 16; unfold BUFFER in *; lia).
  unfold put_bytes. set (h := hdr_bytes _). assert (Hh : length h = 16) by (unfold h, hdr_bytes; by rewrite !length_app, !le_bytes_length).
  rewrite Hh. rewrite !length_app, length_replicate. change (length z) with 16. match goal with |- context [?a <? 0 + 16] => destruct (Nat.ltb_spec a (0 + 16)) end; [lia |].
  f_equal. rewrite take_0. cbn [app]. rewrite <- !app_assoc, (drop_app_length' z) by done.
  match goal with |- context [attrs_bytes attrs ++ ?r] =>
    replace (h ++ payload ++ attrs_bytes attrs ++ r) with ((h ++ payload ++ attrs_bytes attrs) ++ r) by (by rewrite <- !app_assoc) end.
  apply take_app_length'. rewrite !length_app, Hh. lia.
Qed.

Lemma netlink_message_exact_witness : address_message 2 [xc0; xa8; x7f; x02] 24 3 =
  inl (hdr_bytes (mk_hdr 40 RTM_NEWADDR REPLACE_FLAGS 3 0) ++ if_addr_msg AF_INET 24 2 ++
       [x08; x00; x02; x00; xc0; xa8; x7f; x02; x08; x00; x01; x00; xc0; xa8; x7f; x02]).
Proof.
  unfold address_message. rewrite (netlink_message_exact RTM_NEWADDR REPLACE_FLAGS 3 (if_addr_msg AF_INET 24 2)
    [(IFA_LOCAL, [xc0; xa8; x7f; x02]); (IFA_ADDRESS, [xc0; xa8; x7f; x02])] 2); [reflexivity | reflexivity | vm_compute; lia].
Defined.

(** ** Ports *)

Lemma dedup_ports_cons x y l : dedup_ports (x :: y :: l) = if (x =? y)%N then dedup_ports (y :: l) else x :: dedup_ports (y :: l).
Proof. done. Qed.

Lemma elem_of_dedup_ports p l : p ∈ dedup_ports l <-> p ∈ l.
Proof.
  induction l as [| x l IH]; [done |]. destruct l as [| y l]; [done |]. rewrite dedup_ports_cons. destruct (N.eqb_spec x y) as [-> | Hne].
  - rewrite IH, !elem_of_cons. tauto.
  - rewrite !(elem_of_cons _ _ x), IH. done.
Qed.

Lemma dedup_ports_sorted l : StronglySorted N.le l -> StronglySorted N.lt (dedup_ports l).
Proof.
  induction l as [| x l IH]; intros Hs; [constructor |]. destruct l as [| y l]; [by repeat constructor |].
  apply StronglySorted_inv in Hs as [Hs Hx]. rewrite dedup_ports_cons. destruct (N.eqb_spec x y) as [-> | Hne]; [by apply IH |].
  constructor; [by apply IH |]. apply Forall_forall. intros z Hz. apply (proj1 (elem_of_dedup_ports z _)) in Hz. apply StronglySorted_inv in Hs as [_ Hy].
  apply Forall_cons in Hx as [Hxy _]. apply elem_of_cons in Hz as [-> | Hz]; [lia |]. rewrite Forall_forall in Hy. specialize (Hy z Hz). lia.
Qed.

(** What the host knows from the reports it has been sent. *)
Definition known_ports (ms : list message) : list N :=
  match last ms with Some (PortListeners ports) => ports | _ => [] end.

Lemma monitor_reports l ports : Forall (fun m => exists p, m = PortListeners p) (listener_monitor ports l).
Proof. revert ports. induction l as [| p l IH]; intros ports; simpl; [done |]. case_bool_decide; [apply IH |]. constructor; [by eexists | apply IH]. Qed.

(** The last report, or what was known before the first one. *)
Lemma monitor_last l ports : match last (listener_monitor ports l) with Some (PortListeners p) => p | _ => ports end = default ports (last l).
Proof.
  revert ports. induction l as [| p l IH]; intros ports; [done |]. cbn [listener_monitor].
  assert (Hl : last (p :: l) = Some (default p (last l))) by (rewrite last_cons; by destruct (last l)). rewrite Hl. simpl.
  case_bool_decide as Hp; [subst; apply IH |]. specialize (IH p). rewrite last_cons. destruct (last (listener_monitor p l)) as [m |] eqn:Hm; [| exact IH].
  pose proof (monitor_reports l p) as Hf. apply last_Some_elem_of in Hm. rewrite Forall_forall in Hf. by destruct (Hf m Hm) as [q ->].
Qed.

(** The ports the guest listens on are reported in order and once, and
    the owner that the agent first connects to knows them after every report;
    but only changes are reported, so an owner that the agent connects to
    later, after a resumption, does not learn of the ports that are already
    listened on. *)
Theorem listeners_reported tcp tcp6 :
  StronglySorted N.lt (listening_tcp_ports tcp tcp6) /\
  (forall p, p ∈ listening_tcp_ports tcp tcp6 <-> p ∈ collect_listening_tcp_ports tcp false \/ p ∈ collect_listening_tcp_ports tcp6 true) /\
  (forall seen, known_ports (listener_monitor [] seen) = default [] (last seen)) /\
  forall n, known_ports (listener_monitor (listening_tcp_ports tcp tcp6) (replicate n (listening_tcp_ports tcp tcp6))) = [].
Proof.
  split_and!.
  - apply dedup_ports_sorted. apply StronglySorted_merge_sort; apply _.
  - intros p. unfold listening_tcp_ports. by rewrite elem_of_dedup_ports, merge_sort_Permutation, elem_of_app.
  - intros seen. pose proof (monitor_last seen []) as H. unfold known_ports. exact H.
  - intros n. induction n as [| n IH]; [done |]. cbn [replicate listener_monitor]. by rewrite bool_decide_eq_true_2.
Qed.

(** A line of the kernel's table is counted where something listens on a port
    above 1024 of every address or of the loopback. *)
Lemma listener_line : parse_proc_net_tcp_listener
  "  0: 0100007F:0EBB 00000000:0000 0A 00000000:00000000 00:00000000 00000000  1000 0 1 1 0000000000000000 100 0 0 10 0" false = Some 3771%N.
Proof. vm_compute. reflexivity. Qed.
