(* ===== verification/Client.v ===== *)
(** * The client of a VM owner

    The command side of [src/src/runner.rs]: who a guest command runs as and
    in which environment, the request that opens it, how the client's input
    and the command's output travel, the requests made of a running owner,
    and when a command is offered again.

    A connection is what the owner sends on it before it closes, and how many
    of the client's messages it takes; the file-system and process steps of
    [run_once] around it are those of the instance, its locks and its owner. *)

From S2P Require Import Prelude FileSystem Text Protocol Broker Paths HostShare Snapshots Cli.

(** ** Who a command runs as *)

Definition DETERMINISTIC_EXEC_UID : N := 1000.
Definition DETERMINISTIC_EXEC_GID : N := 1000.
Definition DETERMINISTIC_EXEC_GROUP : string := "lnxuser".
Definition DETERMINISTIC_TERM : string := "xterm-256color".
Definition DETERMINISTIC_COLORTERM : string := "".
Definition DETERMINISTIC_ROWS : N := 24.
Definition DETERMINISTIC_COLS : N := 80.
Definition EXIT_TIMED_OUT : Z := 124.
Definition NOT_STARTED_ATTEMPTS : nat := 3.

(** What the client's process sees of its host: its user and group, the
    entry [getgrgid_r] finds, its environment in order, the target of
    /etc/localtime and the text of /etc/timezone, its terminal and what
    [TIOCGWINSZ] says of it. *)
Record client_host := mk_client_host {
  ch_uid : N;
  ch_gid : N;
  ch_group : option string;
  ch_vars : list (string * string);
  ch_localtime : option string;
  ch_timezone : option string;
  ch_stdin_tty : bool;
  ch_stdout_tty : bool;
  ch_winsize : option (N * N);
}.

(** [std::env::var] *)
Fixpoint env_var (vars : list (string * string)) (key : string) : option string :=
  match vars with
  | [] => None
  | (k, v) :: vars' => if bool_decide (k = key) then Some v else env_var vars' key
  end.

Definition host_group_name (h : client_host) : string := default EmptyString (ch_group h).

Definition exec_identity (h : client_host) (run_as_root : bool) (deterministic : option deterministic_config)
    : N * N * string :=
  if run_as_root then (0%N, 0%N, EmptyString)
  else match deterministic with
       | Some _ => (DETERMINISTIC_EXEC_UID, DETERMINISTIC_EXEC_GID, DETERMINISTIC_EXEC_GROUP)
       | None => (ch_uid h, ch_gid h, host_group_name h)
       end.

(** [str::rsplit_once] on a text: what follows its last occurrence. *)
Fixpoint after_last (pat s : string) : option string :=
  match s with
  | EmptyString => if bool_decide (pat = EmptyString) then Some EmptyString else None
  | String _ s' =>
      match after_last pat s' with
      | Some rest => Some rest
      | None => strip_prefix pat s
      end
  end.

Definition non_empty (s : string) : option string := if bool_decide (s = EmptyString) then None else Some s.

Definition zone_from_localtime_target (target : string) : option string :=
  zone ← after_last "/zoneinfo/" target; non_empty zone.

Definition host_timezone (h : client_host) : option string :=
  match ch_localtime h ≫= zone_from_localtime_target with
  | Some zone => Some zone
  | None => zone ← ch_timezone h; non_empty (trim zone)
  end.

Definition FORWARDED : list string :=
  ["TERM"; "COLORTERM"; "LANG"; "LANGUAGE"; "TZ"; "NO_COLOR"; "CLICOLOR"; "CLICOLOR_FORCE"].

Definition has_key (env : list (string * string)) (key : string) : bool := existsb (fun kv => bool_decide (kv.1 = key)) env.

Definition forward_exact (vars : list (string * string)) (key : string) : option (string * string) :=
  value ← env_var vars key; v ← non_empty value; Some (key, v).

Definition forward_locale (env : list (string * string)) (kv : string * string) : list (string * string) :=
  if starts_with "LC_" kv.1 && negb (bool_decide (kv.2 = EmptyString)) && negb (has_key env kv.1) then env ++ [kv] else env.

Definition forwarded_exec_env (h : client_host) : list (string * string) :=
  let env := foldl forward_locale (omap (forward_exact (ch_vars h)) FORWARDED) (ch_vars h) in
  if has_key env "TZ" then env
  else match host_timezone h with Some zone => env ++ [("TZ", zone)] | None => env end.

Definition exec_env (h : client_host) (deterministic : option deterministic_config) : list (string * string) :=
  match deterministic with
  | Some _ => [("TERM", DETERMINISTIC_TERM); ("LANG", "C.UTF-8"); ("LC_ALL", "C.UTF-8"); ("TZ", "UTC")]
  | None => forwarded_exec_env h
  end.

Definition root_env : list (string * string) := [("HOME", "/root"); ("USER", "root"); ("LOGNAME", "root")].

Definition command_env (h : client_host) (e : exec_options) (deterministic : option deterministic_config)
    (instance ingress_domain : string) : list (string * string) :=
  exec_env h deterministic ++
  [("LNX_INSTANCE", instance); ("LNX_INGRESS_DOMAIN", ingress_domain)] ++
  (if eo_run_as_root e then root_env else []) ++
  eo_env e.

(** ** What is run, and where *)

Definition DETACH_SCRIPT : string :=
  "setsid /bin/sh -c 'exec " +:+ DQ +:+ "$@" +:+ DQ +:+ " >" +:+ DQ +:+ "/tmp/lnx-detached-$$.log" +:+ DQ +:+
  " 2>&1' lnx-detached " +:+ DQ +:+ "$@" +:+ DQ +:+ " </dev/null & echo $!".

Definition detached_argv (command : list string) : list string := ["/bin/sh"; "-c"; DETACH_SCRIPT; "lnx-detach"] ++ command.

(** [Path::join] as a text *)
Definition join_text (base p : string) : string :=
  if starts_with "/" p then p
  else if bool_decide (base = EmptyString) || ends_with "/" base then base +:+ p
  else base +:+ "/" +:+ p.

Definition exec_workdir (default_cwd : string) (workdir : option string) : string :=
  match workdir with Some workdir => join_text default_cwd workdir | None => default_cwd end.

Definition guest_cwd (cwd : string) : string := cwd.

Definition should_request_pty (h : client_host) : bool := ch_stdin_tty h && ch_stdout_tty h.

(** [since_epoch] is the nanoseconds since the epoch, where the clock is after it. *)
Definition new_request_id (since_epoch : option N) (pid : N) : option N :=
  (fun nanos => N.lxor (nanos `mod` 2 ^ 64) ((pid * 2 ^ 32) `mod` 2 ^ 64))%N <$> since_epoch.

Definition terminal_size (h : client_host) : N * N :=
  match ch_winsize h with
  | Some (rows, cols) => (if (0 <? rows)%N then rows else 24%N, if (0 <? cols)%N then cols else 80%N)
  | None => (24%N, 80%N)
  end.

(** The terminal settings a command is opened with. *)
Definition session_terminal (h : client_host) (deterministic : option deterministic_config) (use_pty : bool)
    : string * string * N * N :=
  match deterministic with
  | Some _ => (DETERMINISTIC_TERM, DETERMINISTIC_COLORTERM, DETERMINISTIC_ROWS, DETERMINISTIC_COLS)
  | None =>
      if use_pty then
        (match env_var (ch_vars h) "TERM" with
         | Some v => if bool_decide (v = EmptyString) || bool_decide (v = "dumb") then "xterm-256color" else v
         | None => "xterm-256color"
         end, default EmptyString (env_var (ch_vars h) "COLORTERM"), (terminal_size h).1, (terminal_size h).2)
      else (EmptyString, EmptyString, 1%N, 1%N)
  end.

(** ** The request that opens a command *)

Section open.
Context (sha256 : bytes -> bytes) (home_dir : option string).

(** The [Message::OpenExec] of [run_broker_session]; [request_id] is what
    [new_request_id] gives a run that is not deterministic. *)
Definition open_exec (h : client_host) (config : run_config) (e : exec_options) (command : list string)
    (ingress_domain : string) (request_id : N) : message + error :=
  match host_home_for_cwd home_dir (cfg_cwd config) with
  | inr err => inr err
  | inl _ =>
      let deterministic := cfg_deterministic config in
      let default_cwd := if cfg_no_host_shares config then "/" else guest_cwd (cfg_cwd config) in
      let cwd := exec_workdir default_cwd (eo_workdir e) in
      let argv := if eo_detach e then detached_argv command else command in
      let use_pty := if bool_decide (is_Some deterministic) || eo_detach e then false else should_request_pty h in
      let '(term, colorterm, rows, cols) := session_terminal h deterministic use_pty in
      let '(uid, gid, group) := exec_identity h (eo_run_as_root e) deterministic in
      let env := command_env h e deterministic (lo_instance (cfg_layout config)) ingress_domain in
      let channel_id :=
        match deterministic with
        | Some d => deterministic_exec_request_id sha256 (seed d) argv cwd (eo_run_as_root e) use_pty rows cols
        | None => request_id
        end in
      inl (OpenExec channel_id argv cwd use_pty term colorterm rows cols uid gid group env)
  end.

End open.

(** ** Errors of the client *)

Inductive client_error :=
  | CommandNotStarted
  | BrokerProtocolMismatch (expected actual : N)
  | BrokerHelloFailed
  | ConnectFailed
  | BadHello (m : message)
  | OwnerSaid (text : string)
  | UnexpectedReply (m : message)
  | ClientIo (e : io_error)
  | StreamClosed
  | OutputFailed
  | StdinFailed
  | Forwarding (spec : string) (e : client_error)
  | NoHome (e : error)
  | LockTimedOut
  | BootTimedOut
  | BootTimedOutAfter (e : client_error)
  | WaitForOwnerFailed.

(** [error.is::<CommandNotStarted>()], which sees through added context *)
Fixpoint not_started (e : client_error) : bool :=
  match e with
  | CommandNotStarted => true
  | Forwarding _ e' | BootTimedOutAfter e' => not_started e'
  | _ => false
  end.

(** ** A connection to the owner *)

(** What the owner has sent on the connection and not been read, how many
    more messages it takes, and what the client has sent. *)
Record conn := mk_conn { cn_reads : bytes; cn_takes : nat; cn_sent : list message }.

Definition CM (A : Type) : Type := conn -> conn * (A + client_error).

#[global] Instance CM_ret : MRet CM := fun A x c => (c, inl x).
#[global] Instance CM_bind : MBind CM := fun A B k m c =>
  match m c with (c', inl x) => k x c' | (c', inr e) => (c', inr e) end.

Definition cfail {A} (e : client_error) : CM A := fun c => (c, inr e).

Section streams.
Context `{Postcard}.

Definition c_write (m : message) : CM unit := fun c =>
  match write_message m with
  | inr e => (c, inr (ClientIo e))
  | inl _ =>
      match cn_takes c with
      | O => (c, inr StreamClosed)
      | S n => (mk_conn (cn_reads c) n (cn_sent c ++ [m]), inl tt)
      end
  end.

Definition c_read : CM message := fun c =>
  match read_message (cn_reads c) with
  | inl (m, rest) => (mk_conn rest (cn_takes c) (cn_sent c), inl m)
  | inr e => (c, inr (ClientIo e))
  end.

(** [match .. { Ok(message) => message, Err(_) => return Err(e) }] *)
Definition c_or {A} (m : CM A) (e : client_error) : CM A := fun c =>
  match m c with (c', inl x) => (c', inl x) | (c', inr _) => (c', inr e) end.

(** [connect_broker] on a connection the owner's socket accepted. *)
Definition hello_broker : CM unit :=
  c_write (Hello PROTOCOL_VERSION) ≫= fun _ =>
  c_or c_read BrokerHelloFailed ≫= fun hello =>
  match hello with
  | Hello version => if (version =? PROTOCOL_VERSION)%N then mret tt else cfail (BrokerProtocolMismatch PROTOCOL_VERSION version)
  | other => cfail (BadHello other)
  end.

(** [None] is a socket nobody accepts on. *)
Definition connect_broker (socket : option conn) : conn + client_error :=
  match socket with
  | None => inr ConnectFailed
  | Some c => match hello_broker c with (c', inl _) => inl c' | (_, inr e) => inr e end
  end.

Definition ask_owner (channel_id : N) (request : N -> message) : CM message :=
  c_write (request channel_id) ≫= fun _ =>
  c_read ≫= fun reply =>
  match reply with
  | ErrorMsg id text =>
      if (id =? channel_id)%N then
        if bool_decide (text = OWNER_STOPPING_NOT_STARTED) then cfail CommandNotStarted else cfail (OwnerSaid text)
      else mret reply
  | _ => mret reply
  end.

Definition owner_request (socket : option conn) (channel_id : N) (request : N -> message) : message + client_error :=
  match connect_broker socket with
  | inr e => inr e
  | inl c => (ask_owner channel_id request c).2
  end.

Definition request_keep_running (socket : option conn) (channel_id : N) : option client_error :=
  match owner_request socket channel_id KeepRunning with
  | inl (KeepingRunning _) => None
  | inl other => Some (UnexpectedReply other)
  | inr e => Some e
  end.

Definition forward_request (f : port_forward) (channel_id : N) : message :=
  AddForward channel_id (listen_host f) (listen_port f) (guest_host f) (guest_port f).

(** Each forward is asked for on a connection and under an id of its own. *)
Fixpoint add_forwards (forwards : list port_forward) (sockets : nat -> option conn * N) : option client_error :=
  match forwards with
  | [] => None
  | f :: forwards' =>
      match owner_request (sockets 0).1 (sockets 0).2 (forward_request f) with
      | inl (ForwardAdded _) => add_forwards forwards' (fun n => sockets (S n))
      | inl other => Some (Forwarding (forward_spec f) (UnexpectedReply other))
      | inr e => Some (Forwarding (forward_spec f) e)
      end
  end.

(** ** Input *)

(** [send_all_stdin]; [None] is an input that cannot be read *)
Definition send_all_stdin (channel_id : N) (stdin : option bytes) : CM unit :=
  match stdin with
  | None => cfail StdinFailed
  | Some b =>
      (if bool_decide (b = []) then mret tt else c_write (Data channel_id b)) ≫= fun _ =>
      c_write (Eof channel_id)
  end.

(** One read of the standard input. *)
Inductive stdin_read := ReadBytes (b : bytes) | ReadInterrupted | ReadFailed.

(** The thread of [spawn_stdin_pump]: what it sends; a read of no bytes is
    the end of the input. *)
Fixpoint stdin_pump (channel_id : N) (reads : list stdin_read) : CM unit :=
  match reads with
  | [] => mret tt
  | ReadBytes [] :: _ => c_write (Eof channel_id)
  | ReadBytes b :: reads' => c_write (Data channel_id b) ≫= fun _ => stdin_pump channel_id reads'
  | ReadInterrupted :: reads' => stdin_pump channel_id reads'
  | ReadFailed :: _ => mret tt
  end.

(** ** Output *)

(** One turn of [relay_channel_output]: the turns of its wait for a message,
    and whether what the message carries could be printed. *)
Record relay_turn := mk_relay_turn { rt_wait : list turn; rt_printed : bool }.

(** What the client has printed and sent, and how it ends. *)
Record relayed := mk_relayed { re_stdout : bytes; re_stderr : bytes; re_sent : list message; re_result : Z + client_error }.

(** [signal] is the signal the client was stopped by. *)
Fixpoint relay_channel_output (channel_id : N) (signal : Z) (turns : list relay_turn) (s out err : bytes) : option relayed :=
  match turns with
  | [] => None
  | t :: turns' =>
      match read_message_interruptible (rt_wait t) s with
      | None => None
      | Some (inr e) => Some (mk_relayed out err [] (inr (ClientIo e)))
      | Some (inl (Interrupted, _)) => Some (mk_relayed out err [Eof channel_id; Close channel_id] (inl (128 + signal)%Z))
      | Some (inl (DeadlinePassed, _)) => Some (mk_relayed out err [Eof channel_id; Close channel_id] (inl EXIT_TIMED_OUT))
      | Some (inl (Message m, s')) =>
          let go := relay_channel_output channel_id signal turns' s' in
          match m with
          | Data id b =>
              if (id =? channel_id)%N then
                if rt_printed t then go (out ++ b) err else Some (mk_relayed out err [] (inr OutputFailed))
              else go out err
          | Stderr id b =>
              if (id =? channel_id)%N then
                if rt_printed t then go out (err ++ b) else Some (mk_relayed out err [] (inr OutputFailed))
              else go out err
          | ExitStatus id status => if (id =? channel_id)%N then Some (mk_relayed out err [] (inl status)) else go out err
          | ErrorMsg id text =>
              if (id =? channel_id)%N then
                Some (mk_relayed out err []
                  (inr (if bool_decide (text = OWNER_STOPPING_NOT_STARTED) then CommandNotStarted else OwnerSaid text)))
              else go out err
          | _ => go out err
          end
      end
  end.

(** ** A session *)

(** What a session has to go on besides its connection: the host, the
    request for the command and the id it gets, the connection and the id for
    [--keep-running], the standard input, and the turns of the relay. *)
Record session_input := mk_session_input {
  si_host : client_host;
  si_exec : exec_options;
  si_command : list string;
  si_domain : string;
  si_request_id : N;
  si_keep : option conn * N;
  si_all_stdin : option bytes;
  si_reads : list stdin_read;
  si_turns : list relay_turn;
  si_signal : Z;
}.

Definition opened_id (m : message) : N := match m with OpenExec id _ _ _ _ _ _ _ _ _ _ _ => id | _ => 0%N end.

(** [run_broker_session]: what the client has sent when the relay starts to
    wait (the pump's messages, which a thread sends while the relay waits, are
    here those it sends at all), and how the session ends. *)
Definition run_broker_session (sha256 : bytes -> bytes) (home_dir : option string) (config : run_config)
    (i : session_input) (c : conn) : list message * option relayed :=
  let failed sent e := (sent, Some (mk_relayed [] [] [] (inr e))) in
  match (if eo_keep_running (si_exec i) then request_keep_running (si_keep i).1 (si_keep i).2 else None) with
  | Some e => failed (cn_sent c) e
  | None =>
      match open_exec sha256 home_dir (si_host i) config (si_exec i) (si_command i) (si_domain i) (si_request_id i) with
      | inr e => failed (cn_sent c) (NoHome e)
      | inl open =>
          let channel_id := opened_id open in
          let relay c := relay_channel_output channel_id (si_signal i) (si_turns i) (cn_reads c) [] [] in
          match c_write open c with
          | (c1, inr e) => failed (cn_sent c1) e
          | (c1, inl _) =>
              if bool_decide (is_Some (cfg_deterministic config)) && negb (ch_stdin_tty (si_host i)) then
                match send_all_stdin channel_id (si_all_stdin i) c1 with
                | (c2, inr e) => failed (cn_sent c2) e
                | (c2, inl _) => (cn_sent c2, relay c2)
                end
              else
                let c2 := (stdin_pump channel_id (si_reads i) c1).1 in (cn_sent c2, relay c2)
          end
      end
  end.

(** [run_existing_broker_client]: [None] is that no owner answered. *)
Definition run_existing_broker_client (socket : option conn) (forwards : list port_forward)
    (sockets : nat -> option conn * N) (session : conn -> Z + client_error) : option Z + client_error :=
  match connect_broker socket with
  | inl c =>
      match add_forwards forwards sockets with
      | Some e => inr e
      | None => match session c with inl status => inl (Some status) | inr e => inr e end
      end
  | inr (BrokerProtocolMismatch expected actual) => inr (BrokerProtocolMismatch expected actual)
  | inr _ => inl None
  end.

(** ** Waiting for an owner *)

Inductive owner_start_outcome := StartLock | StartStatus (status : Z).

(** One turn of the wait for the owner-start lock: whether it was taken,
    what trying a running owner gives, whether two minutes have passed. *)
Record start_turn := mk_start_turn { st_locked : bool + client_error; st_existing : option Z + client_error; st_late : bool }.

Fixpoint acquire_owner_start_or_run_client (allow_existing_broker : bool) (turns : list start_turn)
    : option (owner_start_outcome + client_error) :=
  match turns with
  | [] => None
  | t :: turns' =>
      let later := if st_late t then Some (inr LockTimedOut) else acquire_owner_start_or_run_client allow_existing_broker turns' in
      match st_locked t with
      | inr e => Some (inr e)
      | inl true => Some (inl StartLock)
      | inl false =>
          if allow_existing_broker then
            match st_existing t with
            | inr e => Some (inr e)
            | inl (Some status) => Some (inl (StartStatus status))
            | inl None => later
            end
          else later
      end
  end.

(** What [try_wait] says of the owner process; how one that is gone explains
    itself, from its status and its logs. *)
Inductive owner_wait := OwnerAlive | OwnerGone (why : string) | OwnerUnknown.

(** One turn of the wait for a new owner: whether the deadline has passed,
    whether the client was interrupted, the owner's socket, its process. *)
Record await_turn := mk_await_turn {
  aw_late : bool;
  aw_interrupted : bool;
  aw_socket : option conn;
  aw_owner : owner_wait;
}.

Fixpoint await_owner (signal : Z) (session : conn -> Z + client_error) (last : option client_error)
    (turns : list await_turn) : option (Z + client_error) :=
  match turns with
  | [] => None
  | t :: turns' =>
      if aw_late t then Some (inr (match last with Some e => BootTimedOutAfter e | None => BootTimedOut end))
      else if aw_interrupted t then Some (inl (128 + signal)%Z)
      else
        match connect_broker (aw_socket t) with
        | inl c => Some (session c)
        | inr (BrokerProtocolMismatch expected actual) => Some (inr (BrokerProtocolMismatch expected actual))
        | inr e =>
            match aw_owner t with
            | OwnerAlive => await_owner signal session (Some e) turns'
            | OwnerGone why => Some (inr (OwnerSaid why))
            | OwnerUnknown => Some (inr WaitForOwnerFailed)
            end
        end
  end.

Definition run_broker_client_awaiting_owner (signal : Z) (session : conn -> Z + client_error) (turns : list await_turn)
    : option (Z + client_error) := await_owner signal session None turns.

(** [acquire_instance_for_owner]: whether a new owner gets the instance
    ([true]) or leaves it to the owner that answers ([false]). *)
Fixpoint acquire_instance_for_owner (turns : list (bool + client_error) ) (sockets : list (option conn * bool))
    : option (bool + client_error) :=
  match turns, sockets with
  | inr e :: _, _ => Some (inr e)
  | inl true :: _, _ => Some (inl true)
  | inl false :: turns', (socket, late) :: sockets' =>
      match connect_broker socket with
      | inl _ => Some (inl false)
      | inr _ => if late then Some (inr LockTimedOut) else acquire_instance_for_owner turns' sockets'
      end
  | _, _ => None
  end.

End streams.

(** ** Offering a command again *)

(** [run]: what [run_once] gives at each attempt. *)
Fixpoint run_attempts (fuel attempt : nat) (run_once : nat -> Z + client_error) : Z + client_error :=
  match run_once attempt with
  | inl status => inl status
  | inr e =>
      match fuel with
      | O => inr e
      | S fuel' =>
          if not_started e && (attempt <? NOT_STARTED_ATTEMPTS) then run_attempts fuel' (S attempt) run_once else inr e
      end
  end.

Definition run_command (run_once : nat -> Z + client_error) : Z + client_error := run_attempts NOT_STARTED_ATTEMPTS 1 run_once.
