(* ===== verification/ClientTheorems.v ===== *)
(** * What a client's session shows

    A command's output and status as they travel from the agent over the owner
    to the client, and the environment the client and the agent make for a
    command between them. *)

From S2P Require Import Prelude FileSystem Text Protocol Broker Paths HostShare Snapshots Cli Client.
From S2P Require Import GuestExec GuestExecTheorems GuestChannels GuestTheorems.

(** ** Through the owner *)

(** What [run_agent_reader] hands to the client of a channel. *)
Definition passed_on (m : message) : bool :=
  match m with Data _ _ | Stderr _ _ | Eof _ | ExitStatus _ _ | Close _ | ErrorMsg _ _ => true | _ => false end.

Definition deliver_all (channel_id : N) (ms : list message) (b : broker) : broker :=
  foldl (fun b m => if passed_on m then deliver_to_client channel_id m b else b) b ms.

Lemma deliver_open id m b c : poisoned b = false -> channels b !! id = Some c -> is_close m = false ->
  deliver_to_client id m b = client_send [(tx c, m)] b.
Proof. intros Hp Hc Hm. unfold deliver_to_client, lookup_channel. by rewrite Hp, Hc, Hm. Qed.

Lemma deliver_all_open id ms b c : poisoned b = false -> channels b !! id = Some c -> Forall (fun m => is_close m = false) ms ->
  poisoned (deliver_all id ms b) = false /\ channels (deliver_all id ms b) !! id = Some c /\
  sent (deliver_all id ms b) = sent b ++ (pair (tx c) <$> filter (fun m => passed_on m = true) ms).
Proof.
  revert b. induction ms as [| m ms IH]; intros b Hp Hc Hf; [by rewrite app_nil_r |]. apply Forall_cons in Hf as [Hm Hf]. cbn [deliver_all foldl].
  rewrite filter_cons. destruct (passed_on m) eqn:Hm'.
  - rewrite (deliver_open _ _ _ c) by done. rewrite decide_True by done.
    destruct (IH (client_send [(tx c, m)] b) Hp Hc Hf) as (I1 & I2 & I3). split_and!; try done. etrans; [exact I3 |].
    cbn. by rewrite <- app_assoc.
  - rewrite decide_False by congruence. by apply IH.
Qed.

Lemma deliver_close id b c : poisoned b = false -> channels b !! id = Some c ->
  sent (deliver_to_client id (Close id) b) = sent b ++ [(tx c, Close id)] /\ channels (deliver_to_client id (Close id) b) !! id = None.
Proof.
  intros Hp Hc. unfold deliver_to_client, lookup_channel, close_channel, remove_channel. rewrite Hp, Hc. cbn. rewrite Hp, Hc.
  destruct (counts_as_active c); cbn; by rewrite lookup_delete_eq.
Qed.

(** ** At the client *)

(** What a message prints for the command of a channel. *)
Definition printed (id : N) (m : message) : bytes := match m with Data id' b => if (id' =? id)%N then b else [] | _ => [] end.
Definition complained (id : N) (m : message) : bytes := match m with Stderr id' b => if (id' =? id)%N then b else [] | _ => [] end.

(** A wait that a message ends: nothing happens before the stream is readable. *)
Definition idle (t : turn) : Prop := t_interrupted t = false /\ t_deadline_passed t = false /\ wait_readable (t_poll t) = inl false.
Definition readable (t : turn) : Prop := t_interrupted t = false /\ t_deadline_passed t = false /\ wait_readable (t_poll t) = inl true.
Definition patient (t : relay_turn) : Prop :=
  rt_printed t = true /\ exists l t' l', rt_wait t = l ++ t' :: l' /\ Forall idle l /\ readable t'.

Section client.
Context `{PostcardLaws}.

Lemma patient_read t m b rest : patient t -> write_message m = inl b ->
  read_message_interruptible (rt_wait t) (b ++ rest) = Some (inl (Message m, rest)).
Proof using Type*.
  intros (_ & l & t' & l' & -> & Hl & H1 & H2 & H3) Hb. induction Hl as [| u l (U1 & U2 & U3) _ IH]; cbn.
  - by rewrite H1, H2, H3, (read_after_write m b).
  - by rewrite U1, U2, U3.
Qed.

(** Messages that do not end a command are printed or passed over. *)
Lemma relay_body id signal ms turns tail b rest out err : Forall (fun m => is_report m = false) ms -> write_messages ms = inl b ->
  Forall patient turns -> length turns = length ms ->
  relay_channel_output id signal (turns ++ tail) (b ++ rest) out err =
  relay_channel_output id signal tail rest (out ++ concat (printed id <$> ms)) (err ++ concat (complained id <$> ms)).
Proof using Type*.
  revert turns b out err. induction ms as [| m ms IH]; intros [| t turns] b out err Hm Hb Hp Hl; try done.
  - injection Hb as <-. cbn. by rewrite !app_nil_r.
  - cbn in Hb. destruct (write_message m) as [b1 |] eqn:Hm1; [| done]. destruct (write_messages ms) as [b2 |] eqn:Hm2; [| done]. injection Hb as <-.
    apply Forall_cons in Hm as [Hr Hm]. apply Forall_cons in Hp as [Ht Hp]. cbn in Hl. rewrite <- app_assoc. cbn [relay_channel_output app].
    rewrite (patient_read t m b1) by done. destruct Ht as [Hpr _]. rewrite Hpr.
    assert (Hgo : forall o e, relay_channel_output id signal (turns ++ tail) (b2 ++ rest) o e =
      relay_channel_output id signal tail rest (o ++ concat (printed id <$> ms)) (e ++ concat (complained id <$> ms))).
    { intros o e. apply IH; [done..| lia]. }
    destruct m; try done; cbn [fmap list_fmap concat printed complained]; rewrite ?Hgo; try done; case_match; cbn; by rewrite <- ?app_assoc.
Qed.

Lemma relay_status id signal status t turns b rest out err : write_message (ExitStatus id status) = inl b -> patient t ->
  relay_channel_output id signal (t :: turns) (b ++ rest) out err = Some (mk_relayed out err [] (inl status)).
Proof using Type*. intros Hb Ht. cbn [relay_channel_output]. rewrite (patient_read t _ b) by done. cbn beta iota. by rewrite N.eqb_refl. Qed.

Lemma write_messages_app l l' b : write_messages (l ++ l') = inl b ->
  exists b1 b2, write_messages l = inl b1 /\ write_messages l' = inl b2 /\ b = b1 ++ b2.
Proof.
  revert b. induction l as [| m l IH]; intros b; cbn; [by exists [], b |]. destruct (write_message m) as [b0 |]; [| done].
  destruct (write_messages (l ++ l')) as [b' |]; [| done]. intros [= <-]. destruct (IH b' eq_refl) as (b1 & b2 & -> & Hb & ->).
  exists (b0 ++ b1), b2. by rewrite <- app_assoc.
Qed.

(** A stream that holds a command's whole report ends the client with it. *)
Lemma relay_report id signal ms status turns b rest : Forall (fun m => is_report m = false) ms ->
  write_messages (ms ++ [ExitStatus id status; Close id]) = inl b -> Forall patient turns -> length ms < length turns ->
  relay_channel_output id signal turns (b ++ rest) [] [] =
  Some (mk_relayed (concat (printed id <$> ms)) (concat (complained id <$> ms)) [] (inl status)).
Proof using Type*.
  intros Hm Hb Hp Hl. apply write_messages_app in Hb as (b1 & b2 & Hb1 & Hb2 & ->).
  cbn in Hb2. destruct (write_message (ExitStatus id status)) as [b3 |] eqn:Hb3; [| done]. destruct (write_message (Close id)) as [b4 |]; [| done].
  injection Hb2 as <-. rewrite <- (take_drop (length ms) turns) in Hp |- *. apply Forall_app in Hp as [Hp1 Hp2]. rewrite <- !app_assoc.
  rewrite (relay_body id signal ms) by (done || rewrite length_take; lia).
  destruct (drop (length ms) turns) as [| t ts] eqn:Hd; [apply (f_equal length) in Hd; rewrite length_drop in Hd; cbn in Hd; lia |].
  apply Forall_cons in Hp2 as [Ht _]. by rewrite (relay_status id signal status t ts b3).
Qed.
End client.

(** What reaches the client of what the agent sends for a command. *)
Lemma reported_delivered id body status b c : poisoned b = false -> channels b !! id = Some c -> Forall (fun m => is_report m = false) body ->
  sent (deliver_all id (ExecStarted id :: body ++ [ExitStatus id status; Close id]) b) =
    sent b ++ (pair (tx c) <$> (filter (fun m => passed_on m = true) body ++ [ExitStatus id status; Close id])) /\
  channels (deliver_all id (ExecStarted id :: body ++ [ExitStatus id status; Close id]) b) !! id = None.
Proof.
  intros Hp Hc Hf. set (open := ExecStarted id :: (body ++ [ExitStatus id status])).
  assert (He : ExecStarted id :: body ++ [ExitStatus id status; Close id] = open ++ [Close id]) by (unfold open; cbn; by rewrite <- app_assoc).
  rewrite He. unfold deliver_all. rewrite foldl_app. fold (deliver_all id open b).
  assert (Ho : Forall (fun m => is_close m = false) open).
  { constructor; [done |]. apply Forall_app. split; [| by repeat constructor]. eapply Forall_impl; [exact Hf |]. by intros []. }
  destruct (deliver_all_open id open b c Hp Hc Ho) as (D1 & D2 & D3). destruct (deliver_close id _ c D1 D2) as [C1 C2]. split; [| exact C2].
  etrans; [exact C1 |]. rewrite D3. unfold open. rewrite filter_cons, decide_False by done. rewrite filter_app, !fmap_app, <- !app_assoc. done.
Qed.

(** ** At the command's pipes *)

Definition gone (w : waited) : bool := match w with StillRunning => false | _ => true end.

(** The reads the loop makes of one of the command's pipes, in order: one in
    each turn in which [poll] reports the pipe, until its end was seen, and one
    more in each turn that finds the command gone. *)
Fixpoint drains (polled : pipe_turn -> option drained) (final : pipe_turn -> drained) (eof exited : bool) (turns : list pipe_turn) : list drained :=
  match turns with
  | [] => []
  | t :: turns' =>
      let exited := exited || gone (pt_wait t) in
      let now := (if eof then [] else option_list (polled t)) ++ (if exited then [final t] else []) in
      now ++ drains polled final (eof || existsb dr_eof now) exited turns'
  end.

Definition stdout_drains : list pipe_turn -> list drained := drains pt_stdout pt_last_stdout false false.
Definition stderr_drains : list pipe_turn -> list drained := drains pt_stderr pt_last_stderr false false.

(** What a pipe promises to its reader, when [written] is all that is ever
    written to it: the reads give it piece by piece, in order, and the end is
    seen only when all of it was read. *)
Fixpoint pipe_gives (written : bytes) (ds : list drained) : Prop :=
  match ds with
  | [] => True
  | d :: ds' => exists rest, written = concat (dr_pieces d) ++ rest /\ (dr_eof d = true -> rest = []) /\ pipe_gives rest ds'
  end.

Definition drained_bytes (ds : list drained) : bytes := concat (ds ≫= dr_pieces).

Lemma drained_bytes_cons d ds : drained_bytes (d :: ds) = concat (dr_pieces d) ++ drained_bytes ds.
Proof. unfold drained_bytes. cbn. apply concat_app. Qed.

Lemma pipe_gives_app written ds ds' : pipe_gives written (ds ++ ds') ->
  exists rest, written = drained_bytes ds ++ rest /\ (existsb dr_eof ds = true -> rest = []) /\ pipe_gives rest ds'.
Proof.
  revert written. induction ds as [| d ds IH]; intros written; cbn [app pipe_gives existsb]; [by exists written |]. intros (rest & -> & He & Hg).
  destruct (IH rest Hg) as (r & -> & He' & Hg'). exists r. rewrite drained_bytes_cons, app_assoc. split_and!; try done.
  intros [Hd | Hd]%orb_true_iff; [| by apply He']. by apply He, app_eq_nil in Hd as [_ ->].
Qed.

Lemma printed_drained id (l : list bytes) : concat (printed id <$> (Data id <$> l)) = concat l /\ concat (complained id <$> (Data id <$> l)) = [] /\
  concat (printed id <$> (Stderr id <$> l)) = [] /\ concat (complained id <$> (Stderr id <$> l)) = concat l.
Proof. induction l as [| b l (I1 & I2 & I3 & I4)]; [done |]. cbn. rewrite N.eqb_refl, I1, I2, I3, I4. done. Qed.

Section pipes.
Context (id : N).

(** What was sent of the two pipes so far, whether their ends were seen, and
    whether the command is gone. *)
Definition seen (st : pipe_state) : (bytes * bool) * (bytes * bool) * bool :=
  ((concat (printed id <$> ps_sent st), ps_stdout_eof st), (concat (complained id <$> ps_sent st), ps_stderr_eof st), ps_exited st).

(** A read added to what was seen of a pipe. *)
Definition add (v : bytes * bool) (d : drained) : bytes * bool := (v.1 ++ concat (dr_pieces d), v.2 || dr_eof d).

Lemma seen_stdout st d : seen (drain_stdout id st d) = (add (seen st).1.1 d, (seen st).1.2, (seen st).2).
Proof. destruct (printed_drained id (dr_pieces d)) as (H1 & H2 & _). unfold seen, add. cbn. by rewrite !fmap_app, !concat_app, H1, H2, app_nil_r. Qed.

Lemma seen_stderr st d : seen (drain_stderr id st d) = ((seen st).1.1, add (seen st).1.2 d, (seen st).2).
Proof. destruct (printed_drained id (dr_pieces d)) as (_ & _ & H1 & H2). unfold seen, add. cbn. by rewrite !fmap_app, !concat_app, H1, H2, app_nil_r. Qed.

Lemma seen_control st r : seen (take_control id st r) = seen st.
Proof. unfold seen. cbn. rewrite !fmap_app, !concat_app. by destruct r; cbn; rewrite !app_nil_r. Qed.

Lemma seen_inputs st l : seen (pipe_inputs st l) = seen st.
Proof.
  revert st. induction l as [| [i ok] l IH]; intros st; [done |]. cbn [pipe_inputs].
  assert (Hi : seen (pipe_input st (i, ok)) = seen st) by (destruct i; unfold pipe_input; cbn; repeat case_match; done).
  case_match; [exact Hi |]. by rewrite IH.
Qed.

(** The steps of a turn between the reads. *)
Lemma seen_between st t : seen (pipe_wait (pipe_latch (pipe_inputs st (pt_inputs t)) (pt_latched t)) (pt_wait t)) =
  ((seen st).1, (seen st).2 || gone (pt_wait t)).
Proof.
  rewrite <- (seen_inputs st (pt_inputs t)). generalize (pipe_inputs st (pt_inputs t)). intros s. unfold pipe_latch.
  assert (Hw : forall s', seen (pipe_wait s' (pt_wait t)) = ((seen s').1, (seen s').2 || gone (pt_wait t))).
  { intros s'. unfold pipe_wait, seen. cbn. destruct (ps_exited s') eqn:Hx; [by rewrite Hx |]. destruct (pt_wait t); cbn; by rewrite ?Hx. }
  rewrite Hw. by destruct (_ && _).
Qed.

(** The reads of one turn, added in order. *)
Lemma pipe_step_seen st t :
  let exited := ps_exited st || gone (pt_wait t) in
  seen (pipe_step id st t) =
    (foldl add (seen st).1.1 ((if ps_stdout_eof st then [] else option_list (pt_stdout t)) ++ (if exited then [pt_last_stdout t] else [])),
     foldl add (seen st).1.2 ((if ps_stderr_eof st then [] else option_list (pt_stderr t)) ++ (if exited then [pt_last_stderr t] else [])), exited).
Proof.
  intros exited. unfold pipe_step. fold (pipe_look id st t). cbv zeta.
  assert (Hlook : seen (pipe_look id st t) =
    (foldl add (seen st).1.1 (if ps_stdout_eof st then [] else option_list (pt_stdout t)),
     foldl add (seen st).1.2 (if ps_stderr_eof st then [] else option_list (pt_stderr t)), ps_exited st)).
  { unfold pipe_look. set (s1 := match pt_stdout t with Some d => _ | None => _ end).
    assert (H1 : seen s1 = (foldl add (seen st).1.1 (if ps_stdout_eof st then [] else option_list (pt_stdout t)), (seen st).1.2, ps_exited st)).
    { unfold s1. destruct (pt_stdout t); [| by destruct (ps_stdout_eof st)]. destruct (ps_stdout_eof st); [done |]. by rewrite seen_stdout. }
    assert (He : ps_stderr_eof s1 = ps_stderr_eof st) by (by injection H1). clearbody s1. set (s2 := match pt_stderr t with Some d => _ | None => _ end).
    assert (H2 : seen s2 = ((seen s1).1.1, foldl add (seen s1).1.2 (if ps_stderr_eof st then [] else option_list (pt_stderr t)), (seen s1).2)).
    { unfold s2. rewrite He. destruct (pt_stderr t); [| by destruct (ps_stderr_eof st)]. destruct (ps_stderr_eof st); [done |]. by rewrite seen_stderr. }
    clearbody s2. rewrite H1 in H2. etrans; [| exact H2]. destruct (pt_control t); [| done]. destruct (ps_pending s2); [done | apply seen_control]. }
  set (s4 := pipe_wait _ _). assert (H4 : seen s4 = ((seen (pipe_look id st t)).1, exited)) by (unfold s4; by rewrite seen_between, Hlook).
  assert (Hx : ps_exited s4 = exited) by (by injection H4). rewrite !foldl_app, Hx. clearbody s4. rewrite Hlook in H4. destruct exited; [| by rewrite H4].
  rewrite seen_stderr, seen_stdout. replace (seen (if ps_stdin s4 then _ else s4)) with (seen s4) by (by destruct (ps_stdin s4)). by rewrite H4.
Qed.

Lemma foldl_add v ds : foldl add v ds = (v.1 ++ drained_bytes ds, v.2 || existsb dr_eof ds).
Proof.
  revert v. induction ds as [| d ds IH]; intros [b e]; cbn [foldl existsb]; [by rewrite app_nil_r, orb_false_r |].
  rewrite IH, drained_bytes_cons. cbn. by rewrite <- app_assoc, orb_assoc.
Qed.

(** A loop that ends has sent all that was written to the pipes. *)
Lemma pipe_loop_all turns st st' out err : pipe_loop id st turns = Some st' ->
  (ps_stdout_eof st = true -> out = []) -> (ps_stderr_eof st = true -> err = []) ->
  pipe_gives out (drains pt_stdout pt_last_stdout (ps_stdout_eof st) (ps_exited st) turns) ->
  pipe_gives err (drains pt_stderr pt_last_stderr (ps_stderr_eof st) (ps_exited st) turns) ->
  seen st' = (((seen st).1.1.1 ++ out, true), ((seen st).1.2.1 ++ err, true), true).
Proof.
  revert st out err. induction turns as [| t turns IH]; intros st out err; cbn [pipe_loop drains]; [done |]. intros Hl Ho He Hgo Hge.
  pose proof (pipe_step_seen st t) as Hs. cbv zeta in Hs. rewrite !foldl_add in Hs.
  destruct (pipe_gives_app _ _ _ Hgo) as (out' & -> & Ho' & Hgo'). destruct (pipe_gives_app _ _ _ Hge) as (err' & -> & He' & Hge'). clear Hgo Hge.
  set (now := _ ++ _ : list drained) in Ho', Hgo', Hs. set (now' := _ ++ _ : list drained) in He', Hge', Hs. fold now now' in Ho, He |- *.
  set (s1 := pipe_step id st t) in *. assert (Heofs : ps_stdout_eof s1 = ps_stdout_eof st || existsb dr_eof now /\
    ps_stderr_eof s1 = ps_stderr_eof st || existsb dr_eof now' /\ ps_exited s1 = ps_exited st || gone (pt_wait t))
    by (by injection Hs as _ -> _ -> ->). destruct Heofs as (E1 & E2 & E3).
  assert (Hout : ps_stdout_eof s1 = true -> out' = []).
  { rewrite E1. intros [H | H]%orb_true_iff; [| by apply Ho']. by apply Ho, app_eq_nil in H as [_ ->]. }
  assert (Herr : ps_stderr_eof s1 = true -> err' = []).
  { rewrite E2. intros [H | H]%orb_true_iff; [| by apply He']. by apply He, app_eq_nil in H as [_ ->]. }
  rewrite !(app_assoc _ _ out'), !(app_assoc _ _ err'). destruct (pipe_done s1) eqn:Hd.
  - injection Hl as <-. unfold pipe_done in Hd. apply andb_true_iff in Hd as [[D1 D2]%andb_true_iff D3].
    rewrite (Hout D2), (Herr D3), !app_nil_r, Hs. cbn [seen fst snd]. by rewrite <- E1, <- E2, <- E3, D1, D2, D3.
  - rewrite (IH s1 out' err' Hl Hout Herr); [by rewrite Hs | by rewrite E1, E3 | by rewrite E2, E3].
Qed.
End pipes.

Lemma command_output id turns ms out err : run_channel_pipe id true turns = Some ms ->
  pipe_gives out (stdout_drains turns) -> pipe_gives err (stderr_drains turns) ->
  concat (printed id <$> ms) = out /\ concat (complained id <$> ms) = err.
Proof.
  unfold run_channel_pipe. cbn [negb]. destruct (pipe_loop id (pipe_start id) turns) as [st |] eqn:Hl; [| done]. intros [= <-] Ho He.
  pose proof (pipe_loop_all id turns _ _ out err Hl ltac:(done) ltac:(done) Ho He) as Hs. injection Hs as H1 _ H2 _ _.
  rewrite !fmap_app, !concat_app, H1, H2. cbn. by rewrite !app_nil_r.
Qed.

(** ** From the command to the client *)

(** C20: what a command without a terminal prints and how it ends reaches the
    client whole. When the agent's loop for the command ends and the client
    has not hung up, the owner hands the command's client what the agent sent,
    in order, and the status [waitpid] gave, and forgets the channel; a client
    that is neither interrupted nor timed out prints exactly the bytes that were
    written to the command's two pipes, all of them and each on its own stream,
    and ends with exactly that status, having asked for nothing to be stopped. *)
Theorem command_seen_by_client `{PostcardLaws} id turns ms b c out err : run_channel_pipe id true turns = Some ms -> Forall not_closed turns ->
  pipe_gives out (stdout_drains turns) -> pipe_gives err (stderr_drains turns) ->
  poisoned b = false -> channels b !! id = Some c ->
  exists status frames, wait_verdict turns = Some status /\
    sent (deliver_all id ms b) = sent b ++ (pair (tx c) <$> frames) /\ channels (deliver_all id ms b) !! id = None /\
    forall signal waits s rest, write_messages frames = inl s -> Forall patient waits -> length ms <= length waits ->
      relay_channel_output id signal waits (s ++ rest) [] [] = Some (mk_relayed out err [] (inl (exit_status status))).
Proof.
  intros Hr Hn Ho He Hp Hc. destruct (command_output id turns ms out err Hr Ho He) as [<- <-].
  destruct (pipe_reported id turns ms Hr) as (body & status & -> & Hf & Hv).
  destruct (reported_delivered id body (exit_status status) b c Hp Hc Hf) as [Hs Hgone].
  exists status, (filter (fun m => passed_on m = true) body ++ [ExitStatus id (exit_status status); Close id]).
  split_and!; [by apply Hv | exact Hs | exact Hgone |]. intros signal waits s rest Hw Hpt Hlen.
  assert (Hfl : length (filter (fun m => passed_on m = true) body) <= length body) by apply length_filter.
  cbn in Hlen. rewrite length_app in Hlen. cbn in Hlen.
  rewrite (relay_report id signal (filter (fun m => passed_on m = true) body) (exit_status status)); [| | done | done | lia].
  2: { apply Forall_forall. intros m Hm. apply list_elem_of_filter in Hm as [_ Hm]. by apply (proj1 (Forall_forall _ _) Hf). }
  assert (Hsame : forall (f : message -> bytes), (forall m, passed_on m = false -> f m = []) -> f (ExitStatus id (exit_status status)) = [] -> f (Close id) = [] ->
    f (ExecStarted id) = [] ->
    concat (f <$> filter (fun m => passed_on m = true) body) = concat (f <$> ExecStarted id :: body ++ [ExitStatus id (exit_status status); Close id])).
  { intros f Hsil H1 H2 H3. cbn. rewrite H3, fmap_app, concat_app. cbn. rewrite H1, H2, app_nil_r. cbn. clear -Hsil.
    induction body as [| m body IH]; [done |]. rewrite filter_cons. case_decide as Hd; cbn; [by rewrite IH |].
    rewrite (Hsil m) by (by destruct (passed_on m)). done. }
  f_equal. f_equal; apply Hsame; try done; by intros [].
Qed.

Definition demo_turns : list pipe_turn :=
  [mk_pipe_turn (Some (mk_drained [[x01]] false)) None (Some ControlSnapshotExit) [] true StillRunning (mk_drained [] false) (mk_drained [] false);
   mk_pipe_turn None None None [] false (Exited 768) (mk_drained [[x02]] true) (mk_drained [[x03]] true)].

Definition demo_wait : relay_turn := mk_relay_turn [mk_turn false false (mk_polled 0 false); mk_turn false false (mk_polled 1 false)] true.

Lemma command_seen_by_client_witness : exists ms frames s, run_channel_pipe 4 true demo_turns = Some ms /\ write_messages frames = inl s /\
  relay_channel_output 4 0 (replicate 7 demo_wait) (s ++ []) [] [] = Some (mk_relayed [x01; x02] [x03] [] (inl 3%Z)).
Proof.
  pose (b := set_channels (fun _ => {[4%N := mk_channel 9 true]}) (new true 0)).
  destruct (command_seen_by_client 4 demo_turns _ b (mk_channel 9 true) [x01; x02] [x03] eq_refl
    ltac:(repeat constructor; done) ltac:(by exists [x02]; split_and!; [..|exists []]) ltac:(by exists []) eq_refl (lookup_singleton_eq 4%N _)) as (status & frames & Hv & Hs & _ & Hr).
  injection Hv as <-. destruct (write_messages frames) as [s |] eqn:Hw.
  - eexists _, frames, s. split_and!; [reflexivity | exact Hw |].
    rewrite (Hr 0%Z (replicate 7 demo_wait) s [] eq_refl); [reflexivity | | cbn; lia].
    apply Forall_replicate. split; [done |]. exists [mk_turn false false (mk_polled 0 false)], (mk_turn false false (mk_polled 1 false)), []. split_and!; repeat constructor.
  - exfalso. assert (Hf : frames = [Data 4 [x01]; Data 4 [x02]; Stderr 4 [x03]; ExitStatus 4 3; Close 4]); [| subst; by vm_compute in Hw].
    apply (app_inv_head (sent b)) in Hs. apply (f_equal (fmap snd)) in Hs. rewrite <- list_fmap_compose in Hs.
    rewrite (list_fmap_ext _ id), list_fmap_id in Hs by done. by rewrite <- Hs.
Defined.

(** ** The environment of a command *)

Lemma values_for_app n l l' : values_for n (l ++ l') = values_for n l ++ values_for n l'.
Proof. unfold values_for. apply omap_app. Qed.

Lemma last_of_app {A} (l l' : list A) : last (l ++ l') = match last l' with Some x => Some x | None => last l end.
Proof. destruct l' as [| x l' _] using rev_ind; [by rewrite app_nil_r |]. by rewrite app_assoc, !last_snoc. Qed.

(** The names a command with a terminal gets its own values for. *)
Definition own_names : list string := ["LNX_REQUEST_ID"; CONTROL_SOCKET_ENV].

Lemma own_values n id sock : n ∉ own_names -> values_for n (drop 5 (child_defaults id sock)) = [].
Proof.
  intros Hn. unfold own_names in Hn. rewrite !not_elem_of_cons in Hn. destruct Hn as (H1 & H2 & _). unfold values_for. cbn [child_defaults drop omap list_omap fst].
  rewrite (bool_decide_eq_false_2 ("LNX_REQUEST_ID" = n)), (bool_decide_eq_false_2 (CONTROL_SOCKET_ENV = n)) by congruence. by rewrite !andb_false_r.
Qed.

(** The last value the host gives a variable is the one a command has, with
    a terminal or without. *)
Lemma forwarded_value env inherited term colorterm id sock n v : no_char "=" n -> n ∉ own_names -> last (values_for n env) = Some v ->
  env_value (child_env env id sock) n = Some v /\ assoc (pty_env inherited term colorterm env id sock) n = Some v.
Proof.
  intros Hn Ho Hv. destruct (command_environment env inherited term colorterm id sock n Hn) as (-> & _ & ->). unfold pty_settings.
  rewrite !values_for_app, (own_values n id sock Ho), app_nil_r, !last_of_app, Hv. done.
Qed.

(** C35: a user's [--env] decides what a command sees, except for the two
    names a terminal's command gets from the agent; and a command run as root
    has root's HOME, USER and LOGNAME unless [--env] says otherwise, whatever
    the agent sets by default and the client forwards. *)
Theorem exec_environment_decided h e deterministic instance domain inherited term colorterm id sock n v :
  no_char "=" n -> n ∉ own_names ->
  last (values_for n (eo_env e)) = Some v \/
  (values_for n (eo_env e) = [] /\ eo_run_as_root e = true /\ assoc root_env n = Some v) ->
  env_value (child_env (command_env h e deterministic instance domain) id sock) n = Some v /\
  assoc (pty_env inherited term colorterm (command_env h e deterministic instance domain) id sock) n = Some v.
Proof.
  intros Hn Ho Hv. apply forwarded_value; [done.. |]. unfold command_env. rewrite !values_for_app, !last_of_app.
  destruct Hv as [-> | (-> & -> & Ha)]; [done |]. cbn [last].
  assert (last (values_for n root_env) = Some v) as ->; [| done].
  unfold root_env in *. cbn in Ha. repeat case_bool_decide; simplify_eq; done.
Qed.

Definition demo_host : client_host :=
  mk_client_host 501 20 (Some "staff") [("TERM", "vt100"); ("HOME", "/Users/me"); ("LC_ALL", "C"); ("LC_ALL", "x")]
    (Some "/var/db/timezone/zoneinfo/Europe/Paris") None false false None.

Lemma exec_environment_decided_witness :
  let e := mk_exec_options true [("USER", "admin"); ("USER", "me")] None None false false in
  env_value (child_env (command_env demo_host e None "default" "lnx") 18 "/s") "HOME" = Some "/root" /\
  env_value (child_env (command_env demo_host e None "default" "lnx") 18 "/s") "USER" = Some "me" /\
  command_env demo_host (mk_exec_options false [] None None false false) None "i" "lnx" =
    [("TERM", "vt100"); ("LC_ALL", "C"); ("TZ", "Europe/Paris"); ("LNX_INSTANCE", "i"); ("LNX_INGRESS_DOMAIN", "lnx")].
Proof.
  intros e. split_and!.
  - apply (exec_environment_decided demo_host e None "default" "lnx" [] "" "" 18 "/s" "HOME" "/root"); [done | by apply (bool_decide_eq_true_1 _) | by right].
  - apply (exec_environment_decided demo_host e None "default" "lnx" [] "" "" 18 "/s" "USER" "me"); [done | by apply (bool_decide_eq_true_1 _) | by left].
  - reflexivity.
Defined.

(** ** Input of a deterministic run *)

(** A deterministic run sends its whole input in one message: input that a
    message cannot hold ends the client after the command was opened, with
    nothing of the input sent. *)
Theorem long_input_refused `{Postcard} id b c : (forall e, to_allocvec (Data id b) = Some e -> length b <= length e) ->
  (MAX_MESSAGE_SIZE < N.of_nat (length b))%N ->
  exists e, send_all_stdin id (Some b) c = (c, inr (ClientIo e)).
Proof.
  intros He Hb. unfold send_all_stdin. rewrite bool_decide_eq_false_2 by (intros ->; by cbn in Hb).
  unfold mbind, CM_bind, c_write, write_message. destruct (to_allocvec (Data id b)) as [body |] eqn:Hw; [| by eexists].
  specialize (He body eq_refl). rewrite (proj2 (N.ltb_lt MAX_MESSAGE_SIZE (N.of_nat (length body)))) by lia. by eexists.
Qed.

(** ** Offering a command again *)

(** A command is offered again only after an owner said that it had not
    started it, and [run_command] ends with what the last offer gave. *)
Theorem run_offers_again once : exists n, 1 <= n <= NOT_STARTED_ATTEMPTS /\ run_command once = once n /\
  (forall k, 1 <= k < n -> exists e, once k = inr e /\ not_started e = true) /\
  (forall e, run_command once = inr e -> not_started e = true -> n = NOT_STARTED_ATTEMPTS).
Proof.
  unfold run_command, NOT_STARTED_ATTEMPTS. cbn [run_attempts].
  destruct (once 1) as [st | e1] eqn:H1; [exists 1; rewrite H1; split_and!; [lia | lia | done | lia | done] |].
  destruct (not_started e1) eqn:N1; cbn [andb]; [| exists 1; rewrite H1; split_and!; [lia | lia | done | lia | congruence]].
  change (1 <? 3) with true. cbn iota.
  destruct (once 2) as [st | e2] eqn:H2.
  { exists 2. rewrite H2. split_and!; [lia | lia | done | | done]. intros k Hk. replace k with 1 by lia. by exists e1. }
  destruct (not_started e2) eqn:N2; cbn [andb].
  2: { exists 2. rewrite H2. split_and!; [lia | lia | done | | intros e He Hs; exfalso; change (2 <? 3) with true in *; cbn in He; congruence]. intros k Hk. replace k with 1 by lia. by exists e1. }
  change (2 <? 3) with true. cbn iota. exists 3. split_and!; [lia | lia | | | done].
  - destruct (once 3) as [| e3]; [done |]. by destruct (not_started e3).
  - intros k Hk. destruct (decide (k = 1)) as [-> |]; [by exists e1 |]. replace k with 2 by lia. by exists e2.
Qed.
