(* ===== verification/Oci.v ===== *)
(** * Importing images

    [src/src/oci.rs]: the reference of an image, its manifest and layers as
    they are fetched from a registry and checked, the virtual machine that
    builds a root file system of them, and the instance made of it.  The
    programs that are run ([curl], [shasum], [sha256sum], [lnx] for the
    builder), the JSON parser and SHA-256 are parameters. *)

From S2P Require Import Prelude FileSystem FsLogic FsUtil Store Text Protocol Paths Legacy HostShare Snapshots Instances Init Cli.

(** ** JSON values *)

(** [serde_json::Value] *)
Inductive json_value :=
  | JNull
  | JBool (b : bool)
  | JNumber (text : string)
  | JString (s : string)
  | JArray (l : list json_value)
  | JObject (fields : list (string * json_value)).

Fixpoint field_of (fields : list (string * json_value)) (key : string) : json_value :=
  match fields with
  | [] => JNull
  | (k, v) :: fields' => if bool_decide (k = key) then v else field_of fields' key
  end.

(** [value[key]], which is null where there is no such field *)
Definition get (v : json_value) (key : string) : json_value := match v with JObject fields => field_of fields key | _ => JNull end.

Definition as_str (v : json_value) : option string := match v with JString s => Some s | _ => None end.
Definition as_array (v : json_value) : option (list json_value) := match v with JArray l => Some l | _ => None end.

(** What a program that ran left: whether it succeeded, and its outputs. *)
Record output := mk_output { o_success : bool; o_stdout : string; o_stderr : string }.

Class OciTools := {
  run_curl : list string -> M output;
  run_shasum : list string -> M output;
  run_sha256sum : list string -> M output;
  (** [lnx] with arguments, [LNX_BASE] where it is set, and a working directory *)
  run_lnx : list string -> option path -> path -> M output;
  (** [serde_json::from_str] *)
  parse_json : string -> option json_value;
}.

(** ** References *)

Record image_reference := mk_image { im_registry : string; im_repository : string; im_reference : string }.

(** [ImageReference::parse]; the first piece of a split is always there *)
Definition parse_image (input : string) : image_reference :=
  let '(rest, reference) :=
    match split_once "@" input with
    | Some (rest, digest) => (rest, digest)
    | None =>
        match rsplit_once ":" input with
        | Some (rest, tag) => if contains_char "/" tag then (input, "latest") else (rest, tag)
        | None => (input, "latest")
        end
    end in
  match split_once "/" rest with
  | Some (first, remainder) =>
      if contains_char "." first || contains_char ":" first || bool_decide (first = "localhost")
      then mk_image first remainder reference
      else mk_image "docker.io" (first +:+ "/" +:+ remainder) reference
  | None => mk_image "docker.io" ("library/" +:+ rest) reference
  end.

Definition registry_host (i : image_reference) : string :=
  if bool_decide (im_registry i = "docker.io") then "registry-1.docker.io" else im_registry i.

Definition BUILD_SCRIPT : string :=
  join NEWLINE
    ["";
     "set -eu";
     "root=/var/tmp/lnx-oci-root";
     "rm -rf " +:+ DQ +:+ "$root" +:+ DQ;
     "mkdir -p " +:+ DQ +:+ "$root" +:+ DQ;
     "for layer in ./layer-*; do";
     "    # Apply whiteouts before extracting: a marker's basename starts with";
     "    # " +:+ DQ +:+ ".wh." +:+ DQ +:+ " (" +:+ DQ +:+ ".wh..wh..opq" +:+ DQ +:+ " makes the directory opaque). Match on the";
     "    # basename so a real file merely containing " +:+ DQ +:+ ".wh." +:+ DQ +:+ " is left alone.";
     "    tar -tf " +:+ DQ +:+ "$layer" +:+ DQ +:+ " | while IFS= read -r entry; do";
     "        name=" +:+ DQ +:+ "$(basename " +:+ DQ +:+ "$entry" +:+ DQ +:+ ")" +:+ DQ;
     "        case " +:+ DQ +:+ "$name" +:+ DQ +:+ " in";
     "            .wh..wh..opq)";
     "                dir=" +:+ DQ +:+ "$(dirname " +:+ DQ +:+ "$entry" +:+ DQ +:+ ")" +:+ DQ;
     "                find " +:+ DQ +:+ "$root/$dir" +:+ DQ +:+ " -mindepth 1 -maxdepth 1 -exec rm -rf {} + 2>/dev/null || true";
     "                ;;";
     "            .wh.*)";
     "                dir=" +:+ DQ +:+ "$(dirname " +:+ DQ +:+ "$entry" +:+ DQ +:+ ")" +:+ DQ;
     "                rm -rf " +:+ DQ +:+ "$root/$dir/${name#.wh.}" +:+ DQ;
     "                ;;";
     "        esac";
     "    done";
     "    tar -xpf " +:+ DQ +:+ "$layer" +:+ DQ +:+ " -C " +:+ DQ +:+ "$root" +:+ DQ +:+ " --numeric-owner";
     "    # Drop the extracted marker files themselves (basename starts with .wh.).";
     "    find " +:+ DQ +:+ "$root" +:+ DQ +:+ " -depth -name '.wh.*' -exec rm -rf {} + 2>/dev/null || true";
     "done";
     "rm -f ./rootfs.ext4";
     "truncate -s 64G ./rootfs.ext4";
     "mkfs.ext4 -F -q -b 16384 -d " +:+ DQ +:+ "$root" +:+ DQ +:+ " ./rootfs.ext4";
     "rm -rf " +:+ DQ +:+ "$root" +:+ DQ;
     "echo BUILD_OK";
     ""].

Section import.
Context `{OciTools}.

Definition curl (args : list string) : M string :=
  out ← run_curl args;
  if o_success out then mret (o_stdout out)
  else bail ("curl " +:+ default EmptyString (last args) +:+ " failed: " +:+ trim (o_stderr out)).

(** ** The registry *)

Definition TAB : string := String "009" EmptyString.

(** [field] of [fetch_token]: the quoted value after [key=] *)
Definition challenge_field (challenge key : string) : option string :=
  let pat := key +:+ "=" +:+ DQ in
  match split_once pat challenge with
  | None => None
  | Some (_, rest) =>
      let piece := match split_once pat rest with Some (a, _) => a | None => rest end in
      Some (match split_once DQ piece with Some (a, _) => a | None => piece end)
  end.

Definition token_url (i : image_reference) (realm : string) (service : option string) : string :=
  realm +:+ "?scope=repository:" +:+ im_repository i +:+ ":pull" +:+
  match service with Some s => "&service=" +:+ s | None => EmptyString end.

Definition fetch_token (i : image_reference) : M (option string) :=
  probe ← curl ["-sS"; "-o"; "/dev/null"; "-w"; "%{http_code}" +:+ TAB +:+ "%header{www-authenticate}";
                "https://" +:+ registry_host i +:+ "/v2/"];
  let '(status, challenge) := match split_once TAB probe with Some sc => sc | None => (probe, EmptyString) end in
  if bool_decide (trim status = "200") then mret None
  else
    realm ← context (challenge_field challenge "realm") ("registry " +:+ im_registry i +:+ " sent no auth realm: " +:+ challenge);
    body ← curl ["-fsS"; token_url i realm (challenge_field challenge "service")];
    token ← context (parse_json body) "parse token response";
    text ← context (match as_str (get token "token") with
                    | Some t => Some t
                    | None => as_str (get token "access_token")
                    end) "token response missing token";
    mret (Some text).

Definition MANIFEST_ACCEPT : string :=
  "Accept: application/vnd.oci.image.manifest.v1+json, application/vnd.oci.image.index.v1+json, " +:+
  "application/vnd.docker.distribution.manifest.v2+json, application/vnd.docker.distribution.manifest.list.v2+json".

Definition authorization (token : option string) : list string :=
  match token with Some t => ["-H"; "Authorization: Bearer " +:+ t] | None => [] end.

Definition fetch_manifest (i : image_reference) (token : option string) (reference : string) : M json_value :=
  let url := "https://" +:+ registry_host i +:+ "/v2/" +:+ im_repository i +:+ "/manifests/" +:+ reference in
  body ← curl (["-fsS"; "-H"; MANIFEST_ACCEPT] ++ authorization token ++ [url]);
  context (parse_json body) ("parse manifest " +:+ url).

Definition fetch_blob (i : image_reference) (token : option string) (digest : string) (dest : path) : M unit :=
  let url := "https://" +:+ registry_host i +:+ "/v2/" +:+ im_repository i +:+ "/blobs/" +:+ digest in
  _ ← curl (["-fsSL"] ++ authorization token ++ ["-o"; path_text dest; url]);
  mret tt.

Definition verify_digest (p : path) (digest : string) : M unit :=
  hex ← context (strip_prefix "sha256:" digest) ("unsupported digest " +:+ digest);
  first ← attempt (run_shasum ["-a"; "256"; path_text p]);
  out ← match first with inl out => mret out | inr _ => run_sha256sum [path_text p] end;
  if negb (o_success out) then bail ("sha256 of " +:+ path_text p +:+ " failed")
  else
    let actual := default EmptyString (head (split_whitespace (o_stdout out))) in
    if bool_decide (actual = hex) then mret tt
    else bail ("layer digest mismatch for " +:+ path_text p +:+ ": expected " +:+ hex +:+ ", got " +:+ actual).

Definition is_text (v : json_value) (s : string) : bool := bool_decide (as_str v = Some s).

Definition for_this_platform (entry : json_value) : bool :=
  is_text (get (get entry "platform") "os") "linux" && is_text (get (get entry "platform") "architecture") "arm64".

(** The manifest of an index that is for the guest. *)
Definition chosen_digest (index : list json_value) : option string :=
  entry ← head (base.filter (fun e => for_this_platform e = true) index); as_str (get entry "digest").

Definition layer_name (index : nat) : string := "layer-" +:+ format_padded 3 (N.of_nat index).

Fixpoint pull_each (i : image_reference) (token : option string) (staging : path) (index : nat) (layers : list json_value)
    : M (list path) :=
  match layers with
  | [] => mret []
  | layer :: layers' =>
      digest ← context (as_str (get layer "digest")) "layer missing digest";
      let dest := staging /: layer_name index in
      _ ← fetch_blob i token digest dest;
      _ ← verify_digest dest digest;
      rest ← pull_each i token staging (S index) layers';
      mret (dest :: rest)
  end.

Definition pull_layers (i : image_reference) (staging : path) : M (list path) :=
  token ← fetch_token i;
  manifest ← fetch_manifest i token (im_reference i);
  manifest ← match as_array (get manifest "manifests") with
             | Some index =>
                 digest ← context (chosen_digest index) ("no linux/arm64 manifest for " +:+ im_repository i);
                 fetch_manifest i token digest
             | None => mret manifest
             end;
  layers ← context (as_array (get manifest "layers")) "manifest has no layers";
  pull_each i token staging 0 layers.

(** ** The builder *)

(** Both directories are removed, if they can be. *)
Definition cleanup_builder_instance (l : layout) : M unit :=
  _ ← attempt (remove_dir_all (lo_run_dir l));
  if bool_decide (lo_run_dir l = lo_instance_dir l) then mret tt
  else _ ← attempt (remove_dir_all (lo_instance_dir l)); mret tt.

Definition contains_text (pat s : string) : bool := bool_decide (is_Some (split_once pat s)).

Definition build_rootfs_with_instance (staging : path) (builder_instance : string) (base : option path) (resolve : M layout)
    : M unit :=
  builder_layout ← resolve;
  _ ← cleanup_builder_instance builder_layout;
  out ← run_lnx ["--instance"; builder_instance; "--root"; "bash"; "-lc"; BUILD_SCRIPT] base staging;
  _ ← cleanup_builder_instance builder_layout;
  if negb (o_success out) || negb (contains_text "BUILD_OK" (o_stdout out)) then
    bail ("rootfs build failed: " +:+ trim (o_stdout out) +:+ trim (o_stderr out))
  else
    there ← path_exists (staging /: "rootfs.ext4");
    if (there : bool) then mret tt else bail "rootfs build completed but the image is not visible on the host".

(** [build_rootfs]; [resolve] is [Layout::resolve] *)
Definition build_rootfs (staging : path) (builder_env : option string) (resolve : string -> M layout) : M unit :=
  pid ← process_id;
  let builder_instance := default ("oci-builder-" +:+ pretty pid) builder_env in
  build_rootfs_with_instance staging builder_instance None (resolve builder_instance).

(** ** The instance *)

Context `{Tools, Lseek, Json record, Json manifest, Json instance_descriptor, TempFiles}.
Context (sha256 : bytes -> bytes) (pinned : pins) (rfc3339 : N -> option string).
(** What [Layout::resolve_in_base] reads of the environment. *)
Context (lnx_base run_base_env home : option path).

Definition publish_rootfs (t : turn) (turns : list turn) (l : layout) (staging : path) (reference : string) : M unit :=
  let built := staging /: "rootfs.ext4" in
  _ ← validate_managed_rootfs_at built;
  _ ← create_dir_all (lo_instance_dir l);
  _ ← ensure_identity rfc3339 l ("oci:" +:+ reference);
  ensure_instance_from rfc3339 t turns l built.

Definition builder_name (l : layout) : string := lo_instance l +:+ "-oci-builder".

Definition import_image (t : turn) (turns : list turn) (l : layout) (reference : string) (kernel : option path) : M unit :=
  there ← instance_has_state l;
  if (there : bool) then bail ("instance " +:+ lo_instance l +:+ " already exists")
  else
    _ ← match kernel with
        | Some kernel => install_kernel l kernel
        | None => ensure_kernel sha256 pinned l
        end;
    let image := parse_image reference in
    pid ← process_id;
    let staging := lo_base l /: ("oci-import-" +:+ pretty pid) in
    result ← attempt (
      _ ← create_dir_all staging;
      layers ← pull_layers image staging;
      if bool_decide (layers = []) then bail "image has no layers"
      else
        _ ← build_rootfs_with_instance staging (builder_name l) (Some (lo_base l))
              (mret (resolve_in_base (builder_name l) (lo_base l) None None lnx_base run_base_env home));
        publish_rootfs t turns l staging reference);
    _ ← attempt (remove_dir_all staging);
    lift result.

End import.
