(* ===== verification/OciTheorems.v ===== *)
(** * Imported images

    How references are read, what is checked of what a registry sends, and
    what is not. *)

From S2P Require Import Prelude FileSystem FsLogic FsUtil Text Store StoreLogic StoreExample Protocol Paths Legacy HostShare Snapshots Instances Init Cli.
From S2P Require Import Cas CasTheorems PushTheorems Oci.

(** ** References *)

(** A text that is taken for a registry. *)
Definition registry_like (first : string) : bool := contains_char "." first || contains_char ":" first || bool_decide (first = "localhost").

Lemma split_slash first rest : no_char "/" first -> split_once "/" (first +:+ "/" +:+ rest) = Some (first, rest).
Proof. intros Hf. apply (split_once_char "/"). by split. Qed.

(** A reference with a registry is taken apart into its parts; the tag may be
    left out, and so may the registry. *)
Theorem reference_parses registry repository tag : no_char "/" registry -> no_char "@" registry -> registry_like registry = true ->
  no_char "@" repository -> no_char ":" repository -> no_char "@" tag -> no_char ":" tag -> no_char "/" tag ->
  parse_image (registry +:+ "/" +:+ repository +:+ ":" +:+ tag) = mk_image registry repository tag /\
  (no_char ":" registry -> parse_image (registry +:+ "/" +:+ repository) = mk_image registry repository "latest") /\
  (no_char "/" repository -> parse_image (repository +:+ ":" +:+ tag) = mk_image "docker.io" ("library/" +:+ repository) tag) /\
  (forall digest, parse_image (registry +:+ "/" +:+ repository +:+ "@" +:+ digest) = mk_image registry repository digest).
Proof.
  intros Hr Hra Hl Hpa Hpc Hta Htc Hts. unfold registry_like in Hl. split_and!.
  - unfold parse_image. rewrite (proj2 (split_once_none "@" _)).
    + replace (registry +:+ "/" +:+ repository +:+ ":" +:+ tag) with ((registry +:+ "/" +:+ repository) +:+ String ":" tag) by (by rewrite !string_app_assoc).
      rewrite (rsplit_once_last ":" _ tag Htc). unfold no_char in Hts. rewrite Hts. by rewrite split_slash, Hl.
    + unfold no_char in *. rewrite !contains_char_app, Hra, Hpa, Hta. done.
  - intros Hrc. unfold parse_image. rewrite (proj2 (split_once_none "@" _)).
    + rewrite rsplit_once_none; [by rewrite split_slash, Hl |]. unfold no_char in *. rewrite !contains_char_app, Hrc, Hpc. done.
    + unfold no_char in *. rewrite !contains_char_app, Hra, Hpa. done.
  - intros Hps. unfold parse_image. rewrite (proj2 (split_once_none "@" _)).
    + change (repository +:+ ":" +:+ tag) with (repository +:+ String ":" tag). rewrite (rsplit_once_last ":" _ tag Htc). unfold no_char in Hts. rewrite Hts.
      by rewrite (proj2 (split_once_none "/" repository)).
    + unfold no_char in *. rewrite !contains_char_app, Hpa, Hta. done.
  - intros digest. unfold parse_image.
    rewrite (proj2 (split_once_char "@" _ (registry +:+ "/" +:+ repository) digest)); [by rewrite split_slash, Hl |].
    split; [by rewrite !string_app_assoc |]. unfold no_char in *. rewrite !contains_char_app, Hra, Hpa. done.
Qed.

(** A tag before a digest stays in the name of the repository that is asked for. *)
Theorem tag_before_digest_kept repository tag digest : no_char "/" repository -> no_char "/" tag -> no_char "@" repository -> no_char "@" tag ->
  parse_image (repository +:+ ":" +:+ tag +:+ "@" +:+ digest) = mk_image "docker.io" ("library/" +:+ repository +:+ ":" +:+ tag) digest.
Proof.
  intros Hr Ht Hra Hta. unfold parse_image. rewrite (proj2 (split_once_char "@" _ (repository +:+ ":" +:+ tag) digest)).
  - rewrite (proj2 (split_once_none "/" _)); [done |]. unfold no_char in *. rewrite !contains_char_app, Hr, Ht. done.
  - split; [by rewrite !string_app_assoc |]. unfold no_char in *. rewrite !contains_char_app, Hra, Hta. done.
Qed.

(** ** Layers *)

Lemma digits_value_zeros n s : digits_value (zeros n +:+ s) = digits_value s.
Proof. rewrite digits_value_app. assert (H0 : digits_value (zeros n) = 0%N) by (induction n as [| n IH]; [done | exact IH]). by rewrite H0. Qed.

Lemma layer_name_inj i j : layer_name i = layer_name j -> i = j.
Proof.
  unfold layer_name. intros He%string_app_inj_l. apply (f_equal digits_value) in He. unfold format_padded in He.
  rewrite !digits_value_zeros, !digits_value_pretty in He. lia.
Qed.

Lemma path_text_child d x : path_text (d /: x) = components d +:+ "/" +:+ x.
Proof. transitivity (components (d /: x)); [by destruct d |]. rewrite components_app. cbn. by rewrite string_app_nil. Qed.

Lemma same_text d a b : path_text (d /: a) = path_text (d /: b) -> a = b.
Proof.
  rewrite !path_text_child. intros He%string_app_inj_l. by apply (string_app_inj_l "/") in He.
Qed.

(** The file [curl] is told to write to. *)
Fixpoint output_file (args : list string) : option string :=
  match args with
  | [] => None
  | a :: args' => if bool_decide (a = "-o") then head args' else output_file args'
  end.

(** A path whose text names it and is not escaped. *)
Definition plain_path (p : path) : Prop :=
  Forall proper_name p /\ contains_char "\" (path_text p) = false /\ contains_char "010" (path_text p) = false.

(** What the programs do.  [curl] writes the file it is given and no other.
    [shasum] and [sha256sum] print the digest of a file first, unless the name
    of the file has to be escaped, and change nothing. *)
Class OciLaws `{OciTools} (sha256 : bytes -> bytes) := {
  curl_writes_output args : modifies (fun q => output_file args = Some (path_text q)) (run_curl args);
  shasum_looks args : modifies (fun _ => False) (run_shasum args);
  sha256sum_looks args : modifies (fun _ => False) (run_sha256sum args);
  shasum_prints E m p : plain_path p ->
    triple E (eq m) (run_shasum ["-a"; "256"; path_text p]) (fun out _ => o_success out = true ->
      exists data, contents_at m p = Some data /\ head (split_whitespace (o_stdout out)) = Some (hex (sha256 data))) (fun _ => True);
  sha256sum_prints E m p : plain_path p ->
    triple E (eq m) (run_sha256sum [path_text p]) (fun out _ => o_success out = true ->
      exists data, contents_at m p = Some data /\ head (split_whitespace (o_stdout out)) = Some (hex (sha256 data))) (fun _ => True);
}.

(** The file has the digest that is asked for. *)
Definition has_digest (sha256 : bytes -> bytes) (m : fsmap) (p : path) (digest : string) : Prop :=
  exists data, contents_at m p = Some data /\ digest = "sha256:" +:+ hex (sha256 data).

Section layers.
Context {OT : OciTools} {sha256 : bytes -> bytes} {OL : OciLaws sha256} (E : env).

Lemma t_context {A} (o : option A) msg m : triple E (eq m) (context o msg) (fun a m' => m = m' /\ o = Some a) (eq m).
Proof. intros w ->. by destruct o. Qed.

Lemma strip_digest digest h : strip_prefix "sha256:" digest = Some h -> digest = "sha256:" +:+ h.
Proof. apply strip_prefix_Some. Qed.

Lemma t_looks {A} m (c : M A) (P : A -> Prop) : modifies (fun _ => False) c -> triple E (eq m) c (fun a _ => P a) (fun _ => True) ->
  triple E (eq m) c (fun a m' => m = m' /\ P a) (eq m).
Proof. intros Hc HP. apply t_also; [by apply t_silent | exact HP]. Qed.

(** What a program that hashes [p] has said when it succeeded. *)
Definition hashed (m : fsmap) (p : path) (out : output) : Prop := o_success out = true ->
  exists data, contents_at m p = Some data /\ head (split_whitespace (o_stdout out)) = Some (hex (sha256 data)).

Lemma t_verify_digest m p digest : plain_path p ->
  triple E (eq m) (verify_digest p digest) (fun _ m' => m = m' /\ has_digest sha256 m p digest) (eq m).
Proof using OL.
  intros Hplain. unfold verify_digest.
  eapply t_bind; [apply t_context |]. intros h. apply t_start. intros ? [<- Hh%strip_digest].
  eapply (t_bind _ _ _ _ (fun r m' => m = m' /\ match r with inl out => hashed m p out | inr _ => True end)).
  { eapply t_conseq; [apply (t_attempt _ _ _ (fun out m' => m = m' /\ hashed m p out) (eq m)) | done | by intros [] ? | done].
    apply t_looks; [apply shasum_looks | by apply shasum_prints]. }
  intros r. apply t_start. intros ? [<- Hr].
  eapply (t_bind _ _ _ _ (fun out m' => m = m' /\ hashed m p out)).
  { destruct r as [out |]; [apply t_ret; by intros ? <- |].
    eapply t_conseq; [apply t_looks; [apply sha256sum_looks | by apply sha256sum_prints] | done..]. }
  intros out. apply t_start. intros ? [<- Ho]. unfold hashed in Ho. destruct (o_success out); cbn [negb]; [| by intros w Hw].
  destruct (Ho eq_refl) as (data & Hd & Hw). rewrite Hw. cbn [default]. case_bool_decide as Hx; [| by intros w' Hw'].
  apply t_ret. intros ? <-. split; [done |]. exists data. split; [done |]. cbn in Hx. by rewrite Hh, Hx.
Qed.

Lemma modifies_curl args : modifies (fun q => output_file args = Some (path_text q)) (curl args).
Proof using OL. unfold curl. apply respects_bind; [apply _ | apply curl_writes_output |]. intros out. respects_tac. Qed.

(** A blob is written to its file and nowhere else. *)
Lemma modifies_fetch_blob i token digest dest : modifies (fun q => path_text q = path_text dest) (fetch_blob i token digest dest).
Proof using OL.
  unfold fetch_blob. apply respects_bind; [apply _ | | intros ?; respects_tac].
  eapply modifies_mono; [| apply modifies_curl]. intros q. destruct token; cbn; by intros [= ->].
Qed.

(** Layers that are in place. *)
Definition layers_in (staging : path) (index : nat) (layers : list json_value) (m : fsmap) : Prop :=
  forall k layer, layers !! k = Some layer -> exists digest, as_str (get layer "digest") = Some digest /\
    has_digest sha256 m (staging /: layer_name (index + k)) digest.

(** Pulling from [index] on leaves the layers before it alone. *)
Definition later (staging : path) (index : nat) (q : path) : Prop := exists k, index <= k /\ path_text q = path_text (staging /: layer_name k).

Lemma later_before staging index k : k < index -> ~ later staging index (staging /: layer_name k).
Proof. intros Hk (j & Hj & He%same_text%layer_name_inj). lia. Qed.

Lemma plain_layer staging k : plain_path staging -> plain_path (staging /: layer_name k).
Proof.
  assert (Hl : forall c, id_char c = false -> contains_char c "layer-" = false -> contains_char c (layer_name k) = false).
  { intros c Hc Hp. unfold layer_name. rewrite contains_char_app, Hp. apply (string_all_no_char id_char); [apply padded_id_chars | done]. }
  assert (Ht : forall c, Ascii.eqb c "/" = false -> contains_char c (path_text staging) = false -> contains_char c (layer_name k) = false ->
    contains_char c (path_text (staging /: layer_name k)) = false).
  { intros c Hc H1 H2. rewrite path_text_child, !contains_char_app, H2. assert (contains_char c "/" = false) as -> by (transitivity (Ascii.eqb c "/" || false); [done | by rewrite Hc]). rewrite !orb_false_r.
    destruct staging; [done | exact H1]. }
  intros (Hp & H1 & H2). split; [| split; apply Ht; try done; by apply Hl]. apply Forall_app. split; [done |]. constructor; [| done].
  split_and!; [done.. |]. by apply Hl.
Qed.

Lemma t_pull_each i token staging : plain_path staging -> forall layers index m,
  triple E (eq m) (pull_each i token staging index layers)
    (fun paths m' => frame (later staging index) m m' /\ paths = imap (fun k _ => staging /: layer_name (index + k)) layers /\
       layers_in staging index layers m') (frame (later staging index) m).
Proof using OL.
  intros Hplain. induction layers as [| layer layers IH]; intros index m; cbn [pull_each].
  { apply t_ret. intros ? <-. split_and!; [done | done |]. by intros k layer. }
  assert (Hnow : forall m1, frame (fun q => path_text q = path_text (staging /: layer_name index)) m m1 -> frame (later staging index) m m1).
  { intros m1. apply frame_mono. intros q Hq. by exists index. }
  assert (Hlater : forall m1 m2, frame (later staging (S index)) m1 m2 -> frame (later staging index) m1 m2).
  { intros m1 m2. apply frame_mono. intros q (k & Hk & Hq). exists k. split; [lia | done]. }
  eapply t_bind; [eapply t_conseq; [apply t_context | done | intros u m1 H; exact H | by intros ? <-] |].
  intros digest. apply t_start. intros ? [<- Hd].
  eapply t_bind; [eapply t_conseq; [apply t_modifies, modifies_fetch_blob | done | intros u m1 H; exact H | exact Hnow] |].
  intros []. apply t_start. intros m1 Hf1%Hnow.
  eapply t_bind; [eapply t_conseq; [by apply t_verify_digest, plain_layer | done | intros u m2 H; exact H | by intros ? <-] |].
  intros []. apply t_start. intros ? [<- (data & Hc & Hdig)].
  eapply t_bind; [eapply t_conseq; [apply IH | done | intros u m2 H; exact H | intros m2 H; etrans; [exact Hf1 | by apply Hlater]] |].
  intros rest. apply t_ret. intros m2 (Hf2 & -> & Hin). split_and!.
  - etrans; [exact Hf1 | by apply Hlater].
  - cbn. rewrite Nat.add_0_r. f_equal. apply imap_ext. intros k x _. cbn. by rewrite Nat.add_succ_r.
  - intros [| k] x Hx; cbn in Hx.
    + injection Hx as <-. exists digest. split; [done |]. exists data. rewrite Nat.add_0_r. split; [| done].
      unfold contents_at in *. rewrite Hf2; [done | apply later_before; lia].
    + destruct (Hin k x Hx) as (dg & Hg & Hh). exists dg. split; [done |]. by rewrite <- Nat.add_succ_comm.
Qed.
End layers.

(** ** The order of the layers *)

Fixpoint ascending (l : list string) : bool :=
  match l with
  | a :: (b :: _) as l' => bool_decide (string_le a b) && ascending l'
  | _ => true
  end.

Lemma thousand_layers : ascending (layer_name <$> seq 0 1000) = true.
Proof. vm_compute. reflexivity. Qed.

#[local] Instance string_le_trans : Transitive string_le.
Proof.
  unfold string_le, String.leb. intros x. induction x as [| a x IH]; intros [| b y] [| c z]; cbn; try done.
  unfold Ascii.compare. destruct (N.compare_spec (N_of_ascii a) (N_of_ascii b)), (N.compare_spec (N_of_ascii b) (N_of_ascii c));
    destruct (N.compare_spec (N_of_ascii a) (N_of_ascii c)); try done; try lia. apply IH.
Qed.

Lemma ascending_before l i j a b : ascending l = true -> i < j -> l !! i = Some a -> l !! j = Some b -> string_le a b.
Proof.
  revert i j a. induction l as [| x l IH]; intros i j a Hl Hij Ha Hb; [done |]. destruct j as [| j]; [lia |]. cbn in Hb.
  destruct l as [| y l]; [done |]. cbn [ascending] in Hl. apply andb_true_iff in Hl as [Hxy%bool_decide_eq_true Hl].
  destruct i as [| i]; cbn in Ha; [| eapply (IH i j); eauto; lia]. injection Ha as <-.
  destruct j as [| j]; [by injection Hb as <- |]. etrans; [exact Hxy |]. eapply (IH 0 (S j)); eauto. lia.
Qed.

Lemma layer_order i j : i < j -> j < 1000 -> string_le (layer_name i) (layer_name j).
Proof.
  intros Hij Hj. apply (ascending_before _ i j _ _ thousand_layers Hij); rewrite list_lookup_fmap, lookup_seq_lt by lia; done.
Qed.

(** C19: the layers that are pulled are the manifest's, checked.  A pull
    that succeeds has left, for each layer of the manifest in turn, a file
    whose SHA-256 is the digest the manifest gives for it, a later layer
    never replacing an earlier one; and the builder, which takes the files in
    the order of their names, takes them in the order of the manifest (up to a
    thousand layers).  However the pull ends, it has touched nothing but the
    files of layers. *)
Theorem layers_verified `{OciLaws} E i token staging layers m : plain_path staging ->
  triple E (eq m) (pull_each i token staging 0 layers) (fun paths m' =>
      paths = imap (fun k _ => staging /: layer_name k) layers /\ layers_in (sha256 := sha256) staging 0 layers m' /\ frame (later staging 0) m m')
    (frame (later staging 0) m) /\
  (forall j k, j < k -> k < 1000 -> string_le (layer_name j) (layer_name k) /\ layer_name j <> layer_name k).
Proof.
  intros Hp. split.
  - eapply t_conseq; [by apply (t_pull_each E i token staging) | done | | done]. intros paths m' (Hf & Hs & Hin). by split_and!.
  - intros j k Hjk Hk. split; [by apply layer_order |]. intros He%layer_name_inj. lia.
Qed.

(** ** A registry *)

Lemma component_split x y r r' : no_char "/" x -> no_char "/" y -> (r = EmptyString \/ exists s, r = String "/" s) ->
  (r' = EmptyString \/ exists s, r' = String "/" s) -> x +:+ r = y +:+ r' -> x = y /\ r = r'.
Proof.
  revert y. unfold no_char. induction x as [| a x IH]; intros [| b y] Hx Hy Hr Hr' He; cbn in He.
  - done.
  - destruct Hr as [-> | [s ->]]; [done |]. injection He as <- _. by rewrite contains_char_cons in Hy.
  - destruct Hr' as [-> | [s ->]]; [done |]. injection He as -> _. by rewrite contains_char_cons in Hx.
  - injection He as -> He. rewrite contains_char_cons in Hx, Hy. apply orb_false_iff in Hx as [_ Hx], Hy as [_ Hy].
    destruct (IH y Hx Hy Hr Hr' He) as [-> ->]. done.
Qed.

Lemma components_start p : components p = EmptyString \/ exists s, components p = String "/" s.
Proof. destruct p; [by left | right; by eexists]. Qed.

Lemma components_inj p q : Forall proper_name p -> Forall proper_name q -> components p = components q -> p = q.
Proof.
  intros Hp. revert q. induction Hp as [| x p Hx _ IH]; intros [| y q] Hq He; try done. apply Forall_cons in Hq as [Hy Hq].
  cbn [components] in He. apply (string_app_inj_l "/") in He.
  apply component_split in He as [-> He]; [f_equal; by apply IH | apply Hx | apply Hy | apply components_start..].
Qed.

Definition demo_layer : path := ["s"; "layer-000"].
Definition demo_blob : bytes := [x01; x02].
Definition demo_digest : string := "sha256:" +:+ hex (toy_sha256 demo_blob).
Definition demo_manifest : json_value := JObject [("layers", JArray [JObject [("digest", JString demo_digest)]])].

Definition said (text : string) : output := mk_output true text EmptyString.

(** A registry that serves one manifest for every reference, and one blob. *)
Definition demo_curl (args : list string) : M output :=
  if bool_decide (output_file args = Some (path_text demo_layer)) then _ ← fs_write demo_layer demo_blob; mret (said EmptyString)
  else mret (said "200").

Definition demo_hash (file : option string) : M output :=
  if bool_decide (file = Some (path_text demo_layer)) then
    data ← fs_read demo_layer; mret (said (hex (toy_sha256 data)))
  else mret (mk_output false EmptyString EmptyString).

#[local] Instance demo_tools : OciTools := {|
  run_curl := demo_curl;
  run_shasum args := demo_hash (last args);
  run_sha256sum args := demo_hash (last args);
  run_lnx _ _ _ := mret (said "BUILD_OK");
  parse_json _ := Some demo_manifest;
|}.

Lemma hex_all b : string_all is_ascii_hexdigit (hex b) = true.
Proof.
  induction b as [| x b IH]; [done |]. unfold hex. cbn [fmap list_fmap foldr]. rewrite string_all_app. apply andb_true_iff. split; [by destruct x | exact IH].
Qed.

Lemma hexdigit_not_space c s : is_ascii_hexdigit c = true -> skip_whitespace (String c s) = None.
Proof. intros H. destruct c as [[] [] [] [] [] [] [] []]; first [discriminate H | by destruct s as [| d [| e s]]]. Qed.

Lemma one_word s : string_all is_ascii_hexdigit s = true -> s <> EmptyString -> head (split_whitespace s) = Some s.
Proof.
  intros Hs Hne. assert (Hw : forall s, string_all is_ascii_hexdigit s = true -> word_fuel (String.length s) s = (s, EmptyString)).
  { clear s Hs Hne. induction s as [| c s IH]; [done |]. intros [Hc Hs]%andb_true_iff. cbn [word_fuel String.length].
    rewrite hexdigit_not_space by done. by rewrite (IH Hs). }
  destruct s as [| c s]; [done |]. assert (Hc : is_ascii_hexdigit c = true) by (by apply andb_true_iff in Hs as [? _]).
  unfold split_whitespace. cbn [String.length words_fuel].
  assert (trim_start (String c s) = String c s) as -> by (unfold trim_start; cbn [String.length trim_start_fuel]; by rewrite hexdigit_not_space).
  change (S (String.length s)) with (String.length (String c s)). by rewrite Hw.
Qed.

Lemma hex_word b : length b = 32 -> head (split_whitespace (hex b)) = Some (hex b).
Proof. intros Hb. apply one_word; [apply hex_all |]. by destruct b as [| []]. Qed.

Lemma demo_hash_looks file : modifies (fun _ => False) (demo_hash file).
Proof. unfold demo_hash. case_bool_decide; respects_tac. Qed.

Lemma demo_hash_prints E m p : plain_path p -> triple E (eq m) (demo_hash (Some (path_text p))) (fun out _ => o_success out = true ->
  exists data, contents_at m p = Some data /\ head (split_whitespace (o_stdout out)) = Some (hex (toy_sha256 data))) (fun _ => True).
Proof.
  intros (Hp & _). unfold demo_hash. case_bool_decide as Ht; [| by apply t_ret].
  assert (p = demo_layer) as ->.
  { injection Ht as Ht. destruct p as [| x p]; [done |]. apply components_inj; [done | | exact Ht]. by repeat constructor. }
  eapply (t_bind _ _ _ _ (fun data _ => contents_at m demo_layer = Some data)).
  - intros w ->. unfold fs_read, look. destruct (e_fault E (w_tick w)) as [[] |]; simpl; [done | done |].
    unfold read_in, stat_in, contents_at. destruct (w_fs w !! demo_layer) as [[] |] eqn:Hf; try done.
  - intros data. apply t_ret. intros m' Hd _. exists data. split; [done |]. apply hex_word, toy_sha256_length.
Qed.

#[local] Instance demo_laws : OciLaws toy_sha256.
Proof.
  split.
  - intros args. cbn. unfold demo_curl. case_bool_decide as Ho; [| respects_tac].
    apply respects_bind; [apply _ | by apply modifies_fs_write | intros ?; respects_tac].
  - intros args. apply demo_hash_looks.
  - intros args. apply demo_hash_looks.
  - intros E m p Hp. by apply demo_hash_prints.
  - intros E m p Hp. by apply demo_hash_prints.
Qed.

Definition demo_world : world := mk_world {[ ["s"] := NDir ]} 0 0 [].


Definition demo_layers : list json_value := [JObject [("digest", JString demo_digest)]].

Lemma layers_verified_witness : exists paths w, pull_each (mk_image "example.com" "app" "1") None ["s"] 0 demo_layers quiet demo_world = Ok paths w /\
  has_digest toy_sha256 (w_fs w) demo_layer demo_digest.
Proof.
  assert (Hs : plain_path ["s"]) by (split_and!; [by repeat constructor | done | done]).
  destruct (layers_verified quiet (mk_image "example.com" "app" "1") None ["s"] demo_layers (w_fs demo_world) Hs) as [Ht _].
  specialize (Ht demo_world eq_refl).
  destruct (pull_each (mk_image "example.com" "app" "1") None ["s"] 0 demo_layers quiet demo_world) as [paths w | |] eqn:Hp; [| by vm_compute in Hp..].
  exists paths, w. split; [done |]. destruct Ht as (_ & Hin & _). destruct (Hin 0 _ eq_refl) as (digest & Hd & Hh). injection Hd as <-. exact Hh.
Defined.

(** What a registry sends for a digest is not checked against it: whatever
    digest a reference asks for, the manifest that comes is used. *)
Theorem digest_reference_unverified digest : exists w,
  pull_layers (mk_image "example.com" "app" digest) ["s"] quiet demo_world = Ok [demo_layer] w /\
  has_digest toy_sha256 (w_fs w) demo_layer demo_digest.
Proof. eexists. split; [vm_compute; reflexivity |]. by exists demo_blob. Qed.
