(* ===== verification/Initramfs.v ===== *)
(** * The archive the guest boots from

    [src/src/initramfs.rs]: the agent as a cpio archive in the "newc" format,
    kept next to a stamp that says which agent it is of.  The reader stands
    for what the guest's kernel makes of such an archive. *)

From S2P Require Import Prelude FileSystem FsLogic FsUtil Text Store StoreLogic StorePublish StoreExample Protocol Paths Legacy HostShare Snapshots SnapshotTheorems Instances ForkTheorems GuestExecTheorems.

(** ** Writing *)

(** [{:08X}] *)
Definition upper_digit (n : N) : ascii := ascii_of_N (if n <? 10 then 48 + n else 55 + n)%N.

Fixpoint upper_digits (w : nat) (n : N) : string :=
  match w with
  | O => EmptyString
  | S w' => upper_digits w' (n / 16) +:+ String (upper_digit (n `mod` 16)) EmptyString
  end.

Definition format_08X (n : N) : string := upper_digits (max 8 ((N.size_nat n + 3) / 4)) n.

Definition pad_to (k : nat) (buf : bytes) : bytes :=
  if length buf mod k =? 0 then buf else buf ++ replicate (k - length buf mod k) x00.

Definition pad4 (buf : bytes) : bytes := pad_to 4 buf.

Definition entry_header (mode filesize namesize : N) : string :=
  "070701" +:+ format_08X 1 +:+ format_08X mode +:+ format_08X 0 +:+ format_08X 0 +:+ format_08X 1 +:+ format_08X 0 +:+
  format_08X filesize +:+ format_08X 0 +:+ format_08X 0 +:+ format_08X 0 +:+ format_08X 0 +:+ format_08X namesize +:+ format_08X 0.

Definition entry (buf : bytes) (name : string) (data : bytes) (mode : N) : bytes :=
  let namesize := (N.of_nat (String.length name) + 1)%N in
  let buf := buf ++ to_bytes (entry_header mode (N.of_nat (length data)) namesize) in
  let buf := pad4 (buf ++ to_bytes name ++ [x00]) in
  pad4 (buf ++ data).

Definition EXECUTABLE : N := 33261.

(** The buffer of [write_agent] *)
Definition agent_archive (agent : bytes) : bytes :=
  let buf := entry [] "init" agent EXECUTABLE in
  let buf := entry buf "lnx-agent" agent EXECUTABLE in
  let buf := entry buf "lnxctl" agent EXECUTABLE in
  let buf := entry buf "TRAILER!!!" [] 0 in
  pad_to 512 buf.

Definition write_agent (agent : bytes) (p : path) : M unit := fs_write p (agent_archive agent).

Definition LF : string := String "010" EmptyString.

Definition initramfs_stamp (agent_source_stamp : string) : string :=
  "source=" +:+ agent_source_stamp +:+ LF +:+ "protocol=" +:+ pretty PROTOCOL_VERSION +:+ LF.

(** The archive and whether it was written. *)
Definition write_from_agent (agent : bytes) (agent_source_stamp : string) (dir : path) : M (path * bool) :=
  _ ← create_dir_all dir;
  let p := dir /: "initramfs.cpio" in
  let stamp_path := dir /: "initramfs.stamp" in
  let stamp := initramfs_stamp agent_source_stamp in
  there ← path_exists p;
  stamped ← (if (there : bool) then path_exists stamp_path else mret false);
  current ← (if (stamped : bool) then
               r ← attempt (read_to_string stamp_path); mret (bool_decide (r = inl stamp))
             else mret false);
  if (current : bool) then mret (p, false)
  else
    _ ← write_agent agent p;
    _ ← fs_write stamp_path (to_bytes stamp);
    mret (p, true).

(** ** Reading *)

Definition upper_value (c : ascii) : option N :=
  let n := N_of_ascii c in
  if ((48 <=? n) && (n <=? 57))%N then Some (n - 48)%N
  else if ((65 <=? n) && (n <=? 70))%N then Some (n - 55)%N else None.

Fixpoint hex_value (acc : N) (s : list ascii) : option N :=
  match s with
  | [] => Some acc
  | c :: s' => match upper_value c with Some v => hex_value (acc * 16 + v)%N s' | None => None end
  end.

(** The [k]-th of the thirteen numbers of a header. *)
Definition header_field (k : nat) (s : bytes) : option N :=
  hex_value 0 (ascii_of_byte <$> take 8 (drop (6 + 8 * k) s)).

Definition aligned (n : nat) : nat := (n + 3) / 4 * 4.

(** One entry at the start of [s], and how long it is. *)
Definition read_entry (s : bytes) : option (string * N * bytes * nat) :=
  if bool_decide (take 6 s = to_bytes "070701") then
    match header_field 1 s, header_field 6 s, header_field 11 s with
    | Some mode, Some filesize, Some namesize =>
        let name_end := 110 + N.to_nat namesize in
        let data_end := aligned name_end + N.to_nat filesize in
        if (0 <? namesize)%N && (data_end <=? length s) && bool_decide (s !! (name_end - 1) = Some x00) then
          Some (of_bytes (take (N.to_nat namesize - 1) (drop 110 s)), mode,
                take (N.to_nat filesize) (drop (aligned name_end) s), aligned data_end)
        else None
    | _, _, _ => None
    end
  else None.

(** The entries up to the trailer. *)
Fixpoint read_archive (fuel : nat) (s : bytes) : option (list (string * N * bytes)) :=
  match fuel with
  | O => None
  | S fuel' =>
      match read_entry s with
      | None => None
      | Some (name, mode, data, len) =>
          if bool_decide (name = "TRAILER!!!") then Some []
          else cons (name, mode, data) <$> read_archive fuel' (drop len s)
      end
  end.

(** ** The archive is read as it was written *)

Lemma upper_digits_length w n : String.length (upper_digits w n) = w.
Proof. revert n. induction w as [| w IH]; intros n; [done |]. cbn [upper_digits]. rewrite string_app_length, IH. cbn. lia. Qed.

Lemma upper_digit_value v : (v < 16)%N -> upper_value (upper_digit v) = Some v.
Proof.
  intros Hv. assert (H : forallb (fun k => bool_decide (upper_value (upper_digit (N.of_nat k)) = Some (N.of_nat k))) (seq 0 16) = true) by reflexivity.
  rewrite forallb_forall in H. specialize (H (N.to_nat v)). rewrite N2Nat.id in H. apply (bool_decide_eq_true_1 _), H, in_seq. lia.
Qed.

Lemma hex_value_app acc a b : hex_value acc (a ++ b) = (hex_value acc a ≫= fun v => hex_value v b).
Proof. revert acc. induction a as [| c a IH]; intros acc; [done |]. cbn. destruct (upper_value c); [apply IH | done]. Qed.

Lemma ascii_list_app a b : String.list_ascii_of_string (a +:+ b) = String.list_ascii_of_string a ++ String.list_ascii_of_string b.
Proof. induction a as [| c a IH]; [done |]. cbn. by rewrite <- IH. Qed.

Lemma hex_value_digits w n : (n < 16 ^ N.of_nat w)%N -> hex_value 0 (String.list_ascii_of_string (upper_digits w n)) = Some n.
Proof.
  revert n. induction w as [| w IH]; intros n Hn; [cbn in *; f_equal; lia |]. cbn [upper_digits].
  rewrite Nat2N.inj_succ, N.pow_succ_r' in Hn. rewrite ascii_list_app, hex_value_app, IH by (apply N.Div0.div_lt_upper_bound; lia).
  cbn [mbind option_bind String.list_ascii_of_string hex_value]. rewrite upper_digit_value by (apply N.mod_lt; lia).
  f_equal. rewrite N.mul_comm. symmetry. apply N.div_mod'.
Qed.

Lemma format_08X_short n : (n < 2 ^ 32)%N -> format_08X n = upper_digits 8 n.
Proof.
  intros Hn. unfold format_08X. assert (N.size_nat n <= 32) as Hs.
  { destruct (decide (n = 0%N)) as [-> | Hz]; [cbn; lia |].
    assert (N.size n <= 32)%N as Hs; [rewrite N.size_log2 by done; apply N.le_succ_l, N.log2_lt_pow2; lia |].
    destruct n as [| p]; [done |]. cbn [N.size N.size_nat] in *.
    assert (Hp : N.of_nat (Pos.size_nat p) = N.pos (Pos.size p)) by (clear; induction p; cbn [Pos.size Pos.size_nat]; lia). lia. }
  rewrite Nat.max_l; [done |]. apply Nat.lt_succ_r, Nat.Div0.div_lt_upper_bound. lia.
Qed.

Lemma ascii_bytes s : ascii_of_byte <$> to_bytes s = String.list_ascii_of_string s.
Proof. induction s as [| c s IH]; [done |]. cbn. rewrite ascii_of_byte_of_ascii. f_equal. exact IH. Qed.

(** The numbers of a header, in order. *)
Definition header_numbers (mode filesize namesize : N) : list N := [1; mode; 0; 0; 1; 0; filesize; 0; 0; 0; 0; namesize; 0]%N.

Lemma header_bytes mode filesize namesize : (mode < 2 ^ 32)%N -> (filesize < 2 ^ 32)%N -> (namesize < 2 ^ 32)%N ->
  to_bytes (entry_header mode filesize namesize) =
  to_bytes "070701" ++ concat ((fun n => to_bytes (upper_digits 8 n)) <$> header_numbers mode filesize namesize).
Proof.
  intros Hm Hf Hn. unfold entry_header. rewrite !to_bytes_app, (format_08X_short mode), (format_08X_short filesize), (format_08X_short namesize) by done.
  cbn [header_numbers fmap list_fmap concat]. by rewrite app_nil_r.
Qed.

Lemma take_field (l : list bytes) k f rest : Forall (fun b => length b = 8) l -> l !! k = Some f -> take 8 (drop (8 * k) (concat l ++ rest)) = f.
Proof.
  intros Hl. revert k. induction Hl as [| b l Hb Hl IH]; intros [| k] Hk; try done.
  - injection Hk as ->. cbn [concat]. rewrite <- app_assoc, drop_0, <- Hb. apply take_app_length.
  - replace (8 * S k) with (length b + 8 * k) by lia. cbn [concat]. rewrite <- app_assoc, <- drop_drop, drop_app_length. by apply IH.
Qed.

Lemma header_length mode filesize namesize : (mode < 2 ^ 32)%N -> (filesize < 2 ^ 32)%N -> (namesize < 2 ^ 32)%N ->
  length (to_bytes (entry_header mode filesize namesize)) = 110.
Proof.
  intros Hm Hf Hn. rewrite header_bytes by done. cbn [header_numbers fmap list_fmap concat]. rewrite !length_app, !to_bytes_length, !upper_digits_length. done.
Qed.

Lemma read_header_field mode filesize namesize k n rest : (mode < 2 ^ 32)%N -> (filesize < 2 ^ 32)%N -> (namesize < 2 ^ 32)%N ->
  header_numbers mode filesize namesize !! k = Some n -> header_field k (to_bytes (entry_header mode filesize namesize) ++ rest) = Some n.
Proof.
  intros Hm Hf Hn Hk. assert (Hb : (n < 2 ^ 32)%N).
  { assert (Ha : Forall (fun x => x < 2 ^ 32)%N (header_numbers mode filesize namesize)) by (repeat constructor; done).
    by apply (Forall_lookup_1 _ _ _ _ Ha Hk). }
  unfold header_field. rewrite header_bytes, <- app_assoc by done. change 6 with (length (to_bytes "070701")).
  rewrite <- drop_drop, drop_app_length. rewrite (take_field _ k (to_bytes (upper_digits 8 n))).
  - rewrite ascii_bytes. by apply hex_value_digits.
  - apply Forall_fmap, Forall_true. intros x. change (length (to_bytes (upper_digits 8 x)) = 8). by rewrite to_bytes_length, upper_digits_length.
  - by rewrite list_lookup_fmap, Hk.
Qed.

Lemma pad4_spec buf : exists z, pad4 buf = buf ++ replicate z x00 /\ length (pad4 buf) = aligned (length buf).
Proof.
  unfold pad4, pad_to, aligned. assert (Hd := Nat.div_mod_eq (length buf) 4). assert (Hm := Nat.mod_upper_bound (length buf) 4 ltac:(lia)).
  destruct (Nat.eqb_spec (length buf mod 4) 0) as [H0 | H0].
  - exists 0. rewrite app_nil_r. split; [done |]. symmetry. replace (length buf + 3) with (3 + (length buf / 4) * 4) by lia.
    rewrite Nat.div_add by lia. change (3 / 4) with 0. lia.
  - eexists. split; [done |]. rewrite length_app, length_replicate.
    replace (length buf + 3) with ((length buf mod 4 - 1) + (length buf / 4 + 1) * 4) by lia. rewrite Nat.div_add by lia.
    rewrite (Nat.div_small (length buf mod 4 - 1) 4) by lia. lia.
Qed.

Lemma aligned_add a b : a mod 4 = 0 -> aligned (a + b) = a + aligned b.
Proof.
  intros Ha. unfold aligned. assert (Hd := Nat.div_mod_eq a 4). replace (a + b + 3) with ((b + 3) + (a / 4) * 4) by lia. rewrite Nat.div_add by lia. lia.
Qed.

Lemma aligned_mod n : aligned n mod 4 = 0.
Proof. apply Nat.Div0.mod_mul. Qed.

Lemma pad4_app a b : length a mod 4 = 0 -> pad4 (a ++ b) = a ++ pad4 b.
Proof.
  intros Ha. unfold pad4, pad_to. rewrite length_app. rewrite <- (Nat.Div0.add_mod_idemp_l (length a)), Ha. cbn [Nat.add].
  destruct (_ =? 0); [done |]. by rewrite app_assoc.
Qed.

(** Entries follow each other. *)
Lemma entry_app buf name data mode : length buf mod 4 = 0 -> entry buf name data mode = buf ++ entry [] name data mode.
Proof.
  intros Hb. unfold entry. rewrite <- (app_assoc buf), (pad4_app buf) by done. by rewrite <- (app_assoc buf), (pad4_app buf) by done.
Qed.

Section one_entry.
Context (name : string) (data : bytes) (mode : N).
Context (Hmode : (mode < 2 ^ 32)%N) (Hdata : (N.of_nat (length data) < 2 ^ 32)%N) (Hname : (N.of_nat (String.length name) + 1 < 2 ^ 32)%N).

Local Abbreviation namesize := (String.length name + 1).
Local Abbreviation header := (to_bytes (entry_header mode (N.of_nat (length data)) (N.of_nat (String.length name) + 1))).

Lemma entry_shape : exists z z', entry [] name data mode = header ++ to_bytes name ++ [x00] ++ replicate z x00 ++ data ++ replicate z' x00 /\
  110 + namesize + z = aligned (110 + namesize) /\ length (entry [] name data mode) = aligned (aligned (110 + namesize) + length data).
Proof using Hmode Hdata Hname.
  unfold entry. cbn [app]. destruct (pad4_spec (header ++ to_bytes name ++ [x00])) as (z & Hz & Hl).
  destruct (pad4_spec (pad4 (header ++ to_bytes name ++ [x00]) ++ data)) as (z' & Hz' & Hl'). exists z, z'.
  assert (Hh : length (header ++ to_bytes name ++ [x00]) = 110 + namesize).
  { rewrite !length_app, header_length, to_bytes_length by done. cbn [length]. lia. }
  rewrite Hl', length_app, Hl, Hh. split_and!; [| | done].
  - rewrite Hz', Hz, <- !app_assoc. done.
  - by rewrite Hz, length_app, length_replicate, Hh in Hl.
Qed.

Lemma read_entry_written rest : read_entry (entry [] name data mode ++ rest) = Some (name, mode, data, length (entry [] name data mode)).
Proof using Hmode Hdata Hname.
  destruct entry_shape as (z & z' & He & Hz & Hl). rewrite Hl, He, <- app_assoc. unfold read_entry.
  rewrite bool_decide_eq_true_2 by (by rewrite header_bytes, <- app_assoc by done).
  rewrite !(read_header_field mode (N.of_nat (length data)) (N.of_nat (String.length name) + 1) 1 mode) by done.
  rewrite !(read_header_field mode (N.of_nat (length data)) (N.of_nat (String.length name) + 1) 6 (N.of_nat (length data))) by done.
  rewrite !(read_header_field mode (N.of_nat (length data)) (N.of_nat (String.length name) + 1) 11 (N.of_nat (String.length name) + 1)) by done.
  assert (Hh : length header = 110) by by apply header_length.
  replace (N.to_nat (N.of_nat (String.length name) + 1)) with namesize by lia. rewrite Nat2N.id.
  rewrite (proj2 (N.ltb_lt 0 (N.of_nat (String.length name) + 1))) by lia. cbn [andb].
  assert (Hpre : length (header ++ to_bytes name ++ [x00] ++ replicate z x00) = aligned (110 + namesize)).
  { rewrite !length_app, Hh, to_bytes_length, length_replicate. cbn [length]. lia. }
  rewrite (proj2 (Nat.leb_le _ _)) by (rewrite !length_app, length_replicate in *; lia). cbn [andb].
  rewrite bool_decide_eq_true_2.
  2: { replace (110 + namesize - 1) with (length header + (length (to_bytes name) + 0)) by (rewrite Hh, to_bytes_length; lia).
       rewrite lookup_app_r, Nat.add_comm, Nat.add_sub, <- app_assoc, lookup_app_r by lia. by rewrite Nat.add_0_r, Nat.sub_diag. }
  do 3 f_equal; [do 2 f_equal |].
  - rewrite <- !app_assoc, <- Hh, drop_app_length. replace (namesize - 1) with (length (to_bytes name)) by (rewrite to_bytes_length; lia).
    rewrite take_app_length. apply of_to_bytes.
  - replace (header ++ _) with ((header ++ to_bytes name ++ [x00] ++ replicate z x00) ++ data ++ replicate z' x00 ++ rest) by (by rewrite <- !app_assoc).
    rewrite <- Hpre, drop_app_length. apply take_app_length.
Qed.
End one_entry.

(** The guest gets the agent.  Read as a cpio archive, what is written
    for an agent is exactly three executables, [init], [lnx-agent] and
    [lnxctl], each the agent byte for byte, whatever its length below 4 GiB. *)
Theorem agent_archive_reads agent : (N.of_nat (length agent) < 2 ^ 32)%N ->
  read_archive 4 (agent_archive agent) = Some [("init", EXECUTABLE, agent); ("lnx-agent", EXECUTABLE, agent); ("lnxctl", EXECUTABLE, agent)] /\
  length (agent_archive agent) mod 512 = 0.
Proof.
  intros Ha. set (e n := entry [] n agent EXECUTABLE). set (t := entry [] "TRAILER!!!" [] 0).
  assert (Hlen : forall n, (N.of_nat (String.length n) + 1 < 2 ^ 32)%N -> length (e n) mod 4 = 0).
  { intros n Hn. destruct (entry_shape n agent EXECUTABLE ltac:(done) Ha Hn) as (_ & _ & _ & _ & Hl). unfold e. rewrite Hl. apply aligned_mod. }
  assert (Hbuf : exists z, agent_archive agent = e "init" ++ e "lnx-agent" ++ e "lnxctl" ++ t ++ replicate z x00).
  { unfold agent_archive. fold (e "init"). rewrite (entry_app (e "init") "lnx-agent") by (by apply Hlen).
    assert (H2 : length (e "init" ++ e "lnx-agent") mod 4 = 0) by (by rewrite length_app, Nat.Div0.add_mod, !Hlen).
    fold (e "lnx-agent"). rewrite (entry_app (e "init" ++ e "lnx-agent") "lnxctl") by done. fold (e "lnxctl").
    rewrite (entry_app _ "TRAILER!!!") by (by rewrite length_app, Nat.Div0.add_mod, H2, Hlen). fold t.
    unfold pad_to. destruct (_ =? 0); [exists 0; by rewrite app_nil_r, <- !app_assoc |]. eexists. by rewrite <- !app_assoc. }
  split.
  - destruct Hbuf as [z ->]. unfold e, t.
    do 3 (cbn [read_archive]; rewrite read_entry_written by done; rewrite bool_decide_eq_false_2 by done; rewrite drop_app_length).
    cbn [read_archive]. rewrite read_entry_written by done. done.
  - unfold agent_archive. set (b := entry _ "TRAILER!!!" [] 0). unfold pad_to. destruct (Nat.eqb_spec (length b mod 512) 0) as [|H0]; [done |].
    rewrite length_app, length_replicate. assert (Hd := Nat.div_mod_eq (length b) 512). assert (Hm := Nat.mod_upper_bound (length b) 512 ltac:(lia)).
    replace (length b + (512 - length b mod 512)) with ((length b / 512 + 1) * 512) by lia. apply Nat.Div0.mod_mul.
Qed.

(** ** The stamp *)

Section stamped.
Context (E : env) (agent : bytes) (source : string) (dir : path).
Local Abbreviation archive := (dir /: "initramfs.cpio").
Local Abbreviation stamp_file := (dir /: "initramfs.stamp").

(** An archive that is written is whole and stamped; one that is left alone
    has the stamp of the agent. *)
Theorem write_from_agent_stamps m : triple E (eq m) (write_from_agent agent source dir) (fun r m' => r.1 = archive /\
    contents_at m' stamp_file = Some (to_bytes (initramfs_stamp source)) /\ (r.2 = true -> contents_at m' archive = Some (agent_archive agent))) (fun _ => True).
Proof.
  unfold write_from_agent. eapply (t_bind _ _ _ _ (fun _ _ => True)); [apply t_any |]. intros _. apply t_start. intros m1 _.
  eapply (t_bind _ _ _ _ (fun _ _ => True)); [apply t_any |]. intros there. apply t_start. intros m2 _.
  eapply (t_bind _ _ _ _ (fun _ _ => True)); [apply t_any |]. intros stamped. apply t_start. intros m3 _.
  eapply (t_bind _ _ _ _ (fun current m' => current = true -> contents_at m' stamp_file = Some (to_bytes (initramfs_stamp source)))).
  { destruct stamped; [| by apply t_ret]. intros w ->. unfold attempt, read_to_string, fs_read, look, mbind, M_bind, mret, M_ret, fail.
    destruct (e_fault E (w_tick w)) as [[] |]; cbn; [done | done |].
    unfold read_in, stat_in, contents_at. destruct (w_fs w !! stamp_file) as [[f | | t] |] eqn:Hf; cbn; try done.
    destruct (utf8_valid (of_bytes (f_data f))); cbn; [| done]. rewrite Hf. intros H%(bool_decide_eq_true_1 _).
    injection H as H. change (of_bytes (f_data f) = initramfs_stamp source) in H. transitivity (Some (to_bytes (initramfs_stamp source))); [| done].
    by rewrite <- H, to_of_bytes. }
  intros current. apply t_start. intros m4 Hc. destruct current; [apply t_ret; intros ? <-; split_and!; [done | by apply Hc | done] |].
  eapply (t_bind _ _ _ _ (fun _ m' => holds (agent_archive agent) (m' !! archive))).
  { unfold write_agent. eapply t_conseq; [apply t_fs_write | done | by intros ? ? [_ H] | done]. }
  intros _. apply t_start. intros m5 Ha.
  eapply (t_bind _ _ _ _ (fun _ m' => frame (eq stamp_file) m5 m' /\ holds (to_bytes (initramfs_stamp source)) (m' !! stamp_file))); [apply t_fs_write |].
  intros u. apply t_ret. intros m6 [Hf Hs]. cbn [fst snd]. split_and!; [done | |].
  - unfold contents_at. destruct Hs as [b ->]. done.
  - intros _. unfold contents_at. rewrite Hf; [| by intros H%app_inj_tail; destruct H]. destruct Ha as [b ->]. done.
Qed.
End stamped.

Definition agent_a : bytes := [x0a].
Definition agent_b : bytes := [x0b].
Definition with_a : world := left_by (write_from_agent agent_a "a" ["run"] quiet (mk_world {[ ["run"] := NDir ]} 0 0 [])).
Definition killed_b : world := left_by (write_from_agent agent_b "b" ["run"] (quiet_until 11 FCrash) with_a).

(** The stamp stays in place while another agent's archive is written: when
    that is killed, the old stamp vouches for an archive that is cut short,
    and the next start with the old agent takes it. *)
Theorem stale_stamp_vouches : exists w,
  write_from_agent agent_b "b" ["run"] (quiet_until 11 FCrash) with_a = Crash killed_b /\
  write_from_agent agent_a "a" ["run"] quiet killed_b = Ok (["run"; "initramfs.cpio"], false) w /\
  contents_at (w_fs w) ["run"; "initramfs.cpio"] = Some [].
Proof. eexists. vm_compute. split_and!; reflexivity. Qed.

(** What is written in the stamp is what is read of it when a snapshot is
    resumed: the source of the agent and the protocol it speaks. *)
Theorem stamp_read_back source : line_text ("source=" +:+ source) ->
  stamp_key (initramfs_stamp source) = Some ("source=" +:+ source) /\ stamp_protocol (initramfs_stamp source) = Some PROTOCOL_VERSION.
Proof.
  intros Hs. assert (Hl : lines (initramfs_stamp source) = ["source=" +:+ source; "protocol=12"]).
  { transitivity (lines (unlines ["source=" +:+ source; "protocol=12"])); [done | apply lines_unlines; constructor; [exact Hs | by apply Forall_singleton]]. }
  unfold stamp_key, stamp_protocol. rewrite Hl. by split.
Qed.
